(* ===== verification/_CoqProject ===== *)
-Q . S2P
Prelude.v
Types.v
Abi.v
TypeArgs.v
Text.v
Ptb.v
Z3.v
BitOps.v
TraceState.v
Concolic.v
ConcolicSpec.v
Tracer.v
TreeTracer.v
Lcov.v
Logs.v
FuzzTracer.v
TypeGraph.v
Meta.v
Remap.v
Removal.v
Cache.v
Oracles.v
Proceeds.v
Random.v
Objects.v
Construct.v
ConstructSpec.v
Values.v
Append.v
AppendSpec.v
Stage.v
Mutate.v
MutateSpec.v
Hooks.v
HooksSpec.v
Sequence.v
SequenceSpec.v
Solver.v
SolverSpec.v
Input.v
ArgMutator.v
Testing.v
TestingSpec.v
Executor.v
File.v
FileSpec.v
Compile.v
CompileSpec.v
Db.v
Deploy.v
DeploySpec.v
Env.v
EnvSpec.v
Stackless.v
StacklessSpec.v
Static.v
StaticSpec.v
Binary.v
BinarySpec.v
Layout.v
AbiText.v
CallGraph.v
Export.v
ExportSpec.v
ExportGraph.v
ExportWalk.v
Setup.v
SetupSpec.v
Targets.v
TargetsSpec.v
Prepare.v
PrepareSpec.v
Rpc.v
RpcSpec.v
Grpc.v
Pretty.v
Range.v
Commands.v
Sched.v
Campaign.v
