(* ===== verification/Prelude.v ===== *)
(** * Movy: a verification development

    Movy ([crates/]) is a fuzzer for Move packages on Sui. It describes a
    package by its ABI, searches the ABI for functions that produce and
    consume objects, builds call sequences, runs them as programmable
    transactions in the Move VM, observes the run through the VM's trace
    events - coverage, comparison logs, oracles and a concolic executor - and
    mutates the sequence. This library translates that pipeline into
    executable definitions and proves what its parts promise each other.

    ** How the program fits together

    - The ABI ([movy-types/src/abi.rs]) gives signature tokens for parameters
      and returns; a sequence ([movy-types/src/input.rs]) is a list of inputs
      and commands that refer to each other by index.
    - The type graph ([movy-analysis]) and the metadata ([movy-replay/src/meta.rs],
      [movy-fuzz/src/meta.rs]) are built once per campaign: they say which
      functions exist, which are targets, and which hooks surround them.
    - A mutator ([movy-fuzz/src/mutators]) strips the hooks of a sequence,
      removes or appends commands, weaves the hooks in again and the executor
      turns the result into a transaction ([MoveSequence::to_ptb]).
    - During execution the VM emits [TraceEvent]s. [MovySuiTracerWrapper]
      replays them into a [TraceState] and hands state and event to an
      observer; [SuiFuzzTracer] is the observer of the fuzzer and runs the
      concolic executor ([ConcolicState]), whose symbolic stack mirrors the
      operand stack of the [TraceState].

    ** Files

    - [Prelude]: the [panics] monad, [BTreeMap] iteration, lemmas on lists,
      options and bits, the tactics [panics_inv], [bool_hyps] and [z_bits].
    - [Types], [Abi]: the data of [movy-types] and the queries on tokens,
      abilities and packages.
    - [TypeArgs]: [extract_ty_args], [partial_extract_ty_args], [subst],
      [partial_subst] of [abi.rs].
    - [Text]: [Display] and [FromStr] of identifiers, types and sequences.
    - [Ptb]: [to_ptb] and the conversions to Sui's types.
    - [Z3]: the interface to Z3 terms with an evaluation semantics and to
      256-bit words, with concrete instances; [BitOps]: the bit operations of [concolic.rs] as
      integer terms.
    - [TraceState]: trace events and their replay ([state.rs]).
    - [Concolic]: every handler of [ConcolicState] ([concolic.rs]);
      [ConcolicSpec]: what they promise.
    - [Tracer]: the observer interface, the wrapper and the combinators
      ([tracer/mod.rs]); [TreeTracer]: the call tree ([tree.rs]).
    - [Lcov]: the line coverage tracer, the map from bytecode to lines and the
      report ([tracer/lcov.rs], [movy-sui/src/lcov.rs]).
    - [Logs]: magic values, logs and field counts ([op.rs], [extra.rs]);
      [FuzzTracer]: coverage, package cache, oracles and the handlers of
      [SuiFuzzTracer] ([fuzz.rs], [oracle.rs]).
    - [TypeGraph]: [movy-analysis/src/type_graph.rs].
    - [Meta]: metadata, indices, target selection and hooks ([meta.rs] of
      [movy-replay] and [movy-fuzz]).
    - [Remap]: re-indexing of commands, stripping of hooks and the relation
      between a sequence and its woven form ([remap.rs], [hooks.rs],
      [post.rs]); [Removal]: the removal of commands ([sequence.rs]).
    - [Cache]: the caching object store of [movy-sui/src/database/cache.rs].
    - [Oracles], [Proceeds]: the oracles of [movy-fuzz/src/oracles/sui], one
      state machine each, and their campaign-level verdicts.
    - [Random], [Values]: the generator as an interface, and the generation
      and mutation of scalar and vector arguments ([mutation_utils.rs]).
    - [Objects], [Construct], [Append]: object inputs, the construction of a
      call's arguments and the extension of a sequence by a call and the calls
      that produce what it consumes ([object_data.rs], [utils.rs],
      [sequence.rs]); [ConstructSpec], [AppendSpec]: what they promise.
    - [Stage]: the stages that replay mutations which succeeded before;
      [Mutate], [MutateSpec]: the choice and mutation of one argument
      ([arg.rs], [utils.rs]); [Hooks], [HooksSpec]: hooks applied to every
      call ([hooks.rs], [post.rs]); [Sequence], [SequenceSpec]: the sequence
      mutator over all its rounds ([sequence.rs]).
    - [Solver], [SolverSpec]: solving for the bits of an argument
      ([solver.rs]); [Input], [ArgMutator]: magic values collected from a run
      ([input.rs]) and the argument mutator that uses them ([arg.rs]).
    - [Testing], [TestingSpec]: test runs and their report
      ([operations/sui_test.rs], [test_report.rs]); [Executor]: one run of a
      fuzz input and the outcome it leaves
      ([executor.rs]).
    - [File], [FileSpec]: the store kept in RocksDB ([file.rs]) over
      an interface of ordered keys and write batches.
    - [Compile], [CompileSpec]: packages made of compiled artifacts
      ([movy-sui/src/compile.rs]).
    - [Db]: the interface of both stores and its laws ([movy-replay/src/db.rs]);
      [Deploy], [DeploySpec]: runs, target deployments, publishing and
      upgrading ([exec.rs]); [Env], [EnvSpec]: the replay environment
      ([env.rs]).
    - [Stackless], [StacklessSpec]: the detectors that search stackless
      bytecode; [Static], [StaticSpec]: the modules they are given, the
      analyses of what nothing uses, and [run_all]
      ([movy-static-analysis/src/sui]).
    - [Binary], [BinarySpec]: the ABI and the calls of a compiled module
      ([abi.rs], [bytecode.rs]); [Layout]: Move layouts and the decoding of
      events; [AbiText]: the text of ABIs.
    - [CallGraph]: the graph of calls ([movy-analysis/src/call_graph.rs]);
      [Export], [ExportSpec], [ExportGraph], [ExportWalk]: its
      export with numbers, structs and metadata ([export_call_graph.rs],
      [export_package_structure.rs]), first what each step keeps, then the
      graph, then the second walk.
    - [Setup], [SetupSpec]: the metadata of an environment ([meta.rs]).
    - [Targets], [TargetsSpec]: what the user names and [build_env]
      ([movy/src/sui/env.rs]); [Prepare], [PrepareSpec]: the context of a
      campaign ([prepare.rs], [utils.rs], the arguments of [test.rs]).
    - [Rpc], [RpcSpec]: the GraphQL client and the database over it
      ([movy-sui/src/rpc/graphql.rs], [database/graphql.rs], [utils.rs]);
      [Grpc]: the gRPC client ([rpc/grpc.rs]).
    - [Pretty]: what is printed - call trees, error traces,
      sequences, reports ([tree.rs], [input.rs], [test_report.rs]).
    - [Range]: ranges in chunks and small helpers ([range.rs], [flash.rs]).
    - [Commands]: the subcommands ([movy/src/sui],
      [movy/src/analysis]).
    - [Sched]: the weight of a corpus entry ([sched.rs]); [Campaign]:
      fuzz inputs, the feedbacks, the rounds of a campaign
      with its coverage file, and replayed seeds ([input.rs],
      [operations/sui_fuzz.rs], [operations/sui_replay.rs]).

    ** Conventions

    A definition has the name of the function it translates; methods of
    different types that share a name carry a prefix. Rust code that may abort
    ([unwrap], [expect], indexing, [panic!]) returns [panics A], a fallible
    function an [option] or a [result]; errors that are only logged are
    returned all the same. Unsigned integers are [N] (terms of the concolic
    executor evaluate to [Z]), with casts and wrap-around written out
    ([as_u16], [u64], [u256_shl]); addresses are 256-bit numbers, strings byte
    strings. A [BTreeMap] or [HashMap] is a [gmap]; where its order matters,
    [btree_iter] and [address_iter] enumerate it by key. Stacks are kept top
    first, so [Vec::last] is the head. Observers and oracles are state
    passing: a handler takes the old state and returns the new one.

    Code that is not in the repository is a class with the laws the program
    relies on, and a concrete instance that satisfies them where a theorem
    uses the laws: [Z3Ast] and
    [U256Lib] (terms, 256-bit arithmetic), [Z3Dynamic] and [WideText] (typed
    terms and decimal numerals of models), [TraceLib] (snapshots of trace
    values), [SourceMaps] (what the compiler says of source lines), [AddressText] (hex addresses), [IdentLib] and [PtbBuilder] (Sui's
    identifiers and transaction builder), [ModuleTables] (compiled modules),
    [PetGraph] (graphs), [ObjectLib] and [Backing] (objects and the store
    below the cache), [CoinLib] (coin contents), [RandLib] (the generator),
    [FuzzStateLib] (what the mutators read of the libafl state), [RocksLib] and
    [TableCodec] (the database and its encodings), [ObjectFacts] (what is read
    of an object). [ObjectDb] with [ObjectDbLaws] is an interface inside the
    program: what the environment asks of a store, met by the cache in memory
    and by the file cache, [EnvOps] another: what [build_env] asks of the
    environment. Hashes, package stores, version numbers, the
    solver's answer, [havoc] byte mutation and the coin flip of an append are
    arguments, as are the Move compiler, the chain and the VM. Where a client
    asks a server, the answers are a function of a state [W] that stands for
    everything outside; a run threads it through and may fail or panic.
    Requests that are sent together are the order in which their answers
    arrive. The dependencies of a build that the compiler sees are part of
    that argument, so the sources a package is built from are not modelled.

    ** What the theorems show

    - Types: extraction and substitution of type arguments are inverse where
      they succeed ([extract_ty_args_iff_subst], [extract_ty_args_complete]),
      unification is sound ([partial_extract_ty_args_sound]), partial
      substitutions compose; identifiers and type tags survive their
      conversions; [to_ptb] keeps inputs and commands.
    - Replay: traces with balanced calls restore the call stack, a write
      through a reference is read back, a frame starts with its parameters.
    - Concolic execution: the symbolic stack stays as high as the operand
      stack ([concolic_stays_in_sync]); every symbol an operation pushes
      evaluates to the value the VM pushes ([concolic_binary_sound],
      [concolic_unary_sound], [concolic_open_frame_sound]), down to the bit
      operations ([int_bv_terms_correct]); the constraint of a comparison is
      the one the run satisfies, with the one exception the code makes
      ([concolic_path_constraint]).
    - Observation: observers do not disturb each other ([tee_independent]),
      the call tree is reconstructed exactly and never panics, findings and
      verdict agree, coverage never panics or leaves its map, a disabled
      executor stays disabled.
    - Campaign: graph queries equal a scan of all functions
      ([type_graph_queries]); targets respect the filters, hooks belong to the
      functions they are named after, addresses stand for the newest package.
    - Objects: the cache answers as the versioned view it stands for
      ([cache_refines_view]), a committed transaction is visible
      ([commit_store_visible]); the file cache answers as the cache in memory
      does on its snapshot ([rocks_read_refines]), keeps its snapshots
      ([rocks_snapshot_round_trip]) and commits exactly what it should
      ([rocks_commit_exact]).
    - Packages: a package is built exactly when nothing stands against it
      ([build_checked_complete]), its dependencies in an order that respects
      them ([local_dependencies_ordered]); a targeted run ends and gives the
      table of targets back ([targeted_run_exact]), a deployment commits what
      was created where it was asked for, or nothing
      ([deploy_contract_outcome]), fetching dependencies ends with all of them
      settled ([fetch_loop_ends]), a loaded project stands at its address
      ([load_local_address]) and its [movy_init] gets objects that fit
      ([movy_init_args_exact]).
    - Static analysis: modules are analysed after those they depend on
      ([collect_modules_ordered]); a detector reports a function exactly when
      an instruction and the instructions that define its operands match
      ([bool_judgement_exact], [static_infinite_loop_exact],
      [static_precision_loss_exact]); the reported constants, functions and
      datatypes are those without a use ([unused_constants_exact],
      [unused_functions_exact], [unused_datatypes_exact]).
    - Oracles: each oracle reports exactly the events its documentation
      describes ([operand_oracles_exact], [infinite_loop_oracle_exact]), the
      proceeds oracle exactly the runs that end richer
      ([proceeds_oracle_exact]).
    - Mutation: stripping undoes the application of hooks and every call
      survives it ([strip_apply_hooks], [apply_hooks_contains_base]); the set
      of removed commands is computed in bounded depth and closed under use
      ([gen_remove_total]), and what remains refers to what it referred to
      before ([remove_command_sound]); appended calls are well formed
      ([append_function_well_formed]), their arguments have the types of the
      parameters ([construct_args_typed]), mutated values keep their type
      ([mutate_keeps_type]) and only the chosen argument changes
      ([mutate_arg_confined]); a round of the sequence mutator settles and the
      next one replays what succeeded ([mutate_sequence_settles],
      [next_round_replays], [stage_replay_sound]).
    - Solving: a model satisfies the flipped constraint and the ranges of the
      arguments ([solve_sound], [solve_arg_solves]) and is read back exactly
      ([model_value_read_back]); the magic pool is what the logs say
      ([magic_pool_exact]).
    - Runs: a run leaves the outcome that feedback and mutators read
      ([run_target_outcome]) and a campaign with a cycle limit ends
      ([campaign_ends]), its coverage file states what was saved last
      ([coverage_file_current]); a corpus score is a normal number that does
      not depend on the length of longer sequences ([compute_normal],
      [score_ignores_length]); a test run reports every target from the same store
      ([test_reports_every_target]) and what it executes calls the target
      ([built_sequence_calls_target]); the line tracer collects what was
      executed ([line_hits_exact]) and the report states what was collected
      ([lcov_report_exact]).
    - Call graph: the ABI and calls of a module are those of its tables
      ([bytecode_analysis_exact]); the exported graph has the functions and
      calls of the bytecode ([call_graph_of_bytecode]) and the second walk puts
      structs and metadata under the same numbers ([package_walk_exact]).
    - Set-up: every index of the metadata is what a scan of the store gives
      ([metadata_exact]); the environment stands at the pinned addresses and
      its names are those of the local packages ([build_env_exact]); the names
      in a type become addresses, and the text parses to the type meant
      ([named_types_resolved]).
    - Clients: a listing has every object of every page and ends
      ([filter_objects_complete], [list_loop_complete]); objects asked for in
      groups are a permutation of those asked for
      ([get_objects_parallel_permutes]); the database reads what the server has
      at the fork ([graphql_backing_reads]).
    - Output: the printed tree has the calls in their order ([printed_calls]),
      an error trace is complete ([error_trace_printed]); chunks cover a range
      ([range_chunks_cover]); a command fails exactly when it should
      ([test_exit], [fuzz_one_exit]).

    ** Fuel

    The loops over a 256-bit mask ([skip_zeros], [consume_ones], [mask_runs])
    have fuel 256: each step shifts the mask by one bit, and there are at most
    128 runs; the correctness theorem covers every mask. [gen_remove_idxes]
    has the number of commands plus one: every nested call adds a new index;
    [gen_remove_total] shows it returns. Appending nests at most eleven levels:
    [append_function] itself refuses depths above ten. The search for producer
    paths visits at most [max_nodes] = 10000 nodes, a constant of the source;
    the sequence mutator selects for ten rounds, again the source's constant.
    A draw that must differ from the old value is repeated with fuel; the
    theorems about it hold for every amount. The campaign's loop has one unit
    per round; with a cycle limit, one more than the limit is enough
    ([campaign_ends]). The reservation of a digest has one attempt more than
    the table of targets has entries, enough as digests tell budgets apart
    ([targeted_run_exact]); the loop that fetches dependencies has one step
    per taken package, and the square of the number of known ids bounds them
    ([fetch_loop_ends]). The dependencies of a module are nested at most as
    deep as there are modules ([collect_modules_ordered]). The search for
    sources below a directory has one step per directory: any weight of
    directories that exceeds the sum of their subdirectories is enough
    ([find_source_exact]). A layout needs one more than the rank of its struct
    among structs that contain each other. Rewriting
    the names in a text visits each character at most once, so its length is
    enough ([named_types_resolved]); a listing needs one unit per page, and
    its theorem names that number ([filter_objects_complete]). All other
    recursion is structural.

    ** Not modelled

    The Move compiler and package system, the VM with its natives, Z3,
    RocksDB, sui's libraries and libafl are outside; what the program uses of
    them is an interface or an argument. Of the program itself:
    - opening channels, signing and sending requests, waiting and the limit on
      concurrent requests: what is left of them without a network is the
      answer, which is an argument;
    - the declarations of command line options ([clap]) and the key store;
    - [SuperState], [SuperRand] and [SelectiveCorpus] ([state.rs],
      [utils.rs]), which only forward to libafl, and the stages and monitors
      that a campaign hands to it;
    - [havoc.rs], which nothing calls, and [basic.rs], which does nothing;
    - [movy-sui/src/cheats]: registration of native functions in the VM;
    - build settings, the flavor of an environment and compiler diagnostics
      in [compile.rs], which only reach the compiler;
    - [movy-aptos] is an empty placeholder; [movy-fork-tests] has tests only,
      [movy-sui-stds] embeds files;
    - messages of errors and logging, and the dot files that petgraph writes. *)
From stdpp Require Export base gmap strings list sorting option numbers fin_maps.
From Stdlib Require Export ZArith Lia.

#[export] Set Default Goal Selector "!".
#[export] Set Warnings "-clear-no-such-hyp".

(** ** Panics

    Rust code that may abort the process ([unwrap], slice indexing, [panic!])
    is modelled by a value of [panics A]: [Ret a] is a normal return, [Panic]
    is the abort. *)
Inductive panics (A : Type) : Type :=
| Ret (a : A)
| Panic.
Arguments Ret {A} a.
Arguments Panic {A}.

Definition panics_bind {A B} (m : panics A) (k : A → panics B) : panics B :=
  match m with Ret a => k a | Panic => Panic end.

#[export] Instance panics_mret : MRet panics := @Ret.
#[export] Instance panics_mbind : MBind panics := λ A B k m, panics_bind m k.
#[export] Instance panics_fmap : FMap panics :=
  λ A B f m, panics_bind m (λ a, Ret (f a)).

(** [Option::unwrap] / [expect]: the panic of [None]. *)
Definition unwrap {A} (o : option A) : panics A :=
  match o with Some a => Ret a | None => Panic end.

Lemma panics_bind_Ret {A B} (m : panics A) (k : A → panics B) b :
  panics_bind m k = Ret b ↔ ∃ a, m = Ret a ∧ k a = Ret b.
Proof. destruct m; simpl; naive_solver. Qed.

Lemma unwrap_Ret {A} (o : option A) a : unwrap o = Ret a ↔ o = Some a.
Proof. destruct o; naive_solver. Qed.

(** To compute that a computation returns without reading its value back. *)
Definition returns {A} (f : A → bool) (m : panics A) : bool :=
  match m with Ret a => f a | Panic => false end.

Lemma returns_true {A} (f : A → bool) (m : panics A) :
  returns f m = true → ∃ a, m = Ret a ∧ f a = true.
Proof. destruct m; simpl; naive_solver. Qed.

(** Split the binds of a returning computation. *)
Ltac panics_inv :=
  repeat match goal with
  | H : mbind _ _ = Ret _ |- _ => apply panics_bind_Ret in H as (? & ? & ?)
  | H : unwrap _ = Ret _ |- _ => apply unwrap_Ret in H
  | H : Ret _ = Ret _ |- _ => injection H as H
  | H : Panic = Ret _ |- _ => discriminate H
  end.

(** A traversal returns when each step does. *)
Lemma mapM_returns {A B} (f : A → panics B) (R : A → B → Prop) l :
  Forall (λ x, ∃ y, f x = Ret y ∧ R x y) l → ∃ l', mapM f l = Ret l' ∧ Forall2 R l l'.
Proof.
  induction 1 as [|x l (y & E & HR) _ (l' & El & Hl)]; [by exists []|]. exists (y :: l'). simpl. rewrite E. simpl.
  rewrite El. by split; [|constructor].
Qed.

(** ** Machine integers *)

(** [x as uN] for a value already in a wider type. *)
Definition as_u16 (n : nat) : N := (N.of_nat n mod 65536)%N.

Lemma as_u16_small n : (N.of_nat n < 65536)%N → N.to_nat (as_u16 n) = n.
Proof. intros H. unfold as_u16. rewrite N.mod_small by lia. lia. Qed.

Lemma as_u16_of_nat n : (N.of_nat n < 65536)%N → as_u16 n = N.of_nat n.
Proof. intros H. unfold as_u16. rewrite N.mod_small by lia. done. Qed.

(** ** BTreeMap

    A [BTreeMap<K, V>] is a [gmap K V]; where the source iterates over it, it
    does so in increasing key order: [btree_iter]. *)
Definition key_le {V} (x y : N * V) : Prop := (x.1 ≤ y.1)%N.
#[export] Instance key_le_dec {V} : RelDecision (@key_le V).
Proof. intros x y. unfold key_le. apply _. Defined.

Definition btree_iter {V} (m : gmap N V) : list (N * V) :=
  merge_sort key_le (map_to_list m).

Lemma btree_iter_Permutation {V} (m : gmap N V) : btree_iter m ≡ₚ map_to_list m.
Proof. apply merge_sort_Permutation. Qed.

Lemma elem_of_btree_iter {V} (m : gmap N V) k v :
  (k, v) ∈ btree_iter m ↔ m !! k = Some v.
Proof. by rewrite btree_iter_Permutation, elem_of_map_to_list. Qed.

Lemma NoDup_btree_iter {V} (m : gmap N V) : NoDup (btree_iter m).*1.
Proof. rewrite btree_iter_Permutation. apply NoDup_fst_map_to_list. Qed.

#[export] Instance key_le_total {V} : Total (@key_le V).
Proof. intros x y. unfold key_le. lia. Qed.
#[export] Instance key_le_refl {V} : Reflexive (@key_le V).
Proof. intros x. unfold key_le. lia. Qed.
#[export] Instance key_le_trans {V} : Transitive (@key_le V).
Proof. intros x y z. unfold key_le. lia. Qed.

Lemma btree_iter_sorted {V} (m : gmap N V) : StronglySorted key_le (btree_iter m).
Proof. apply StronglySorted_merge_sort; apply _. Qed.

(** A map from strings, and a set of numbers, in increasing order. *)
Definition string_iter {V} (m : gmap string V) : list (string * V) :=
  merge_sort (λ x y, String.le x.1 y.1) (map_to_list m).
Definition number_iter (s : gset N) : list N := merge_sort N.le (elements s).

Lemma elem_of_string_iter {V} (m : gmap string V) k v : (k, v) ∈ string_iter m ↔ m !! k = Some v.
Proof. unfold string_iter. by rewrite merge_sort_Permutation, elem_of_map_to_list. Qed.
Lemma NoDup_string_iter {V} (m : gmap string V) : NoDup (string_iter m).*1.
Proof. unfold string_iter. rewrite merge_sort_Permutation. apply NoDup_fst_map_to_list. Qed.

Lemma elem_of_number_iter (s : gset N) n : n ∈ number_iter s ↔ n ∈ s.
Proof. unfold number_iter. by rewrite merge_sort_Permutation, elem_of_elements. Qed.
Lemma NoDup_number_iter (s : gset N) : NoDup (number_iter s).
Proof. unfold number_iter. rewrite merge_sort_Permutation. apply NoDup_elements. Qed.
Lemma length_number_iter (s : gset N) : length (number_iter s) = size s.
Proof. unfold number_iter. by rewrite merge_sort_Permutation. Qed.

(** [BTreeMap::last_key_value]: the entry with the greatest key. *)
Definition btree_last {V} (m : gmap N V) : option (N * V) := last (btree_iter m).

Lemma StronglySorted_last {A} (R : A → A → Prop) `{!Reflexive R} (l : list A) x :
  StronglySorted R l → last l = Some x → Forall (λ y, R y x) l.
Proof.
  induction 1 as [|a l Hs IH Ha]; [done|]. rewrite last_cons.
  destruct (last l) as [y|] eqn:E.
  - intros [= ->]. constructor; [|by apply IH].
    apply last_Some in E as [l' ->]. rewrite Forall_forall in Ha. apply Ha. set_solver.
  - intros [= ->]. apply last_None in E as ->. by constructor.
Qed.

Lemma btree_last_Some {V} (m : gmap N V) k v :
  btree_last m = Some (k, v) → m !! k = Some v ∧ ∀ k', is_Some (m !! k') → (k' ≤ k)%N.
Proof.
  intros H. unfold btree_last in H. split.
  - apply elem_of_btree_iter. apply last_Some in H as [l' ->]. set_solver.
  - intros k' [v' Hk']. apply elem_of_btree_iter in Hk'.
    apply (StronglySorted_last key_le) in H; [|apply btree_iter_sorted].
    rewrite Forall_forall in H. by apply (H (k', v')).
Qed.

Lemma btree_last_None {V} (m : gmap N V) : btree_last m = None → m = ∅.
Proof.
  intros E%last_None. apply map_eq. intros k. rewrite lookup_empty.
  destruct (m !! k) as [v|] eqn:Hk; [|done]. apply elem_of_btree_iter in Hk. rewrite E in Hk. set_solver.
Qed.

Lemma btree_last_insert {V} (m : gmap N V) k v :
  (∀ k', is_Some (m !! k') → (k' < k)%N) → btree_last (<[k := v]> m) = Some (k, v).
Proof.
  intros Hlt. destruct (btree_last (<[k := v]> m)) as [[k' v']|] eqn:E.
  - apply btree_last_Some in E as [Hk' Hmax].
    assert (k ≤ k')%N by (apply Hmax; rewrite lookup_insert_eq; eauto).
    rewrite lookup_insert in Hk'. case_decide; [naive_solver|].
    assert (k' < k)%N by eauto. lia.
  - apply last_None in E. assert ((k, v) ∈ btree_iter (<[k := v]> m)) as Hin
      by (apply elem_of_btree_iter, lookup_insert_eq). rewrite E in Hin. set_solver.
Qed.

(** ** Automation *)
Create HintDb movy.

(** Split boolean conjunctions and decisions in the context. *)
Ltac bool_hyps :=
  repeat match goal with
  | H : _ && _ = true |- _ => apply andb_true_iff in H as [? ?]
  | H : _ || _ = false |- _ => apply orb_false_iff in H as [? ?]
  | H : negb _ = true |- _ => apply negb_true_iff in H
  | H : negb _ = false |- _ => apply negb_false_iff in H
  | H : bool_decide _ = true |- _ => apply bool_decide_eq_true_1 in H
  | H : bool_decide _ = false |- _ => apply bool_decide_eq_false_1 in H
  end.

(** ** Lists *)
Lemma lookup_Forall {A} (P : A → Prop) (l : list A) i x :
  Forall P l → l !! i = Some x → P x.
Proof. intros H Hi. by eapply Forall_lookup_1 in Hi. Qed.

Lemma insert_as_alter {A} (f : A → A) (l : list A) i x :
  l !! i = Some x → <[i := f x]> l = alter f i l.
Proof. intros H. rewrite list_insert_alter. apply list_alter_ext; [|done]. naive_solver. Qed.

(** [Forall] through an option-valued [mapM]. *)
Lemma mapM_ext_Forall {A B} (f g : A → option B) (l : list A) :
  Forall (λ x, f x = g x) l → mapM f l = mapM g l.
Proof. induction 1 as [|x l Hx _ IH]; [done|]. simpl. by rewrite Hx, IH. Qed.

Lemma forallb_false_elem {A} (f : A → bool) l : forallb f l = false → ∃ x, x ∈ l ∧ f x = false.
Proof.
  induction l as [|x l IH]; [done|]. simpl. destruct (f x) eqn:E; [|set_solver].
  intros (y & ? & ?)%IH. set_solver.
Qed.

(** The pairs of an association list without duplicate keys. *)
Lemma NoDup_fst_func {A B} (l : list (A * B)) k v w :
  NoDup l.*1 → (k, v) ∈ l → (k, w) ∈ l → v = w.
Proof.
  induction l as [|[k' v'] l IH]; csimpl; [by intros _ ?%not_elem_of_nil|]. intros [Hk Hn]%NoDup_cons.
  assert (∀ v, (k', v) ∉ l) as Hl by (intros ? ?; apply Hk, list_elem_of_fmap; by eexists (_, _)).
  rewrite !elem_of_cons. naive_solver.
Qed.

(** [flat_map] and [omap]. *)
Lemma flat_map_omap_swap {A B C} (h : A → B → option C) (L : list A) (E : list B) :
  flat_map (λ x, omap (h x) E) L ≡ₚ flat_map (λ e, omap (λ x, h x e) L) E.
Proof.
  revert E. induction L as [|x L IH]; intros E; csimpl.
  - induction E; [done|]. csimpl. done.
  - rewrite IH. clear IH. induction E as [|e E IH]; [done|]. csimpl.
    destruct (h x e) as [c|]; csimpl; rewrite <-IH.
    + constructor. rewrite !app_assoc. apply Permutation_app_tail, Permutation_app_comm.
    + rewrite !app_assoc. apply Permutation_app_tail, Permutation_app_comm.
Qed.

Lemma flat_map_perm {A B} (f g : A → list B) l :
  (∀ x, x ∈ l → f x ≡ₚ g x) → flat_map f l ≡ₚ flat_map g l.
Proof.
  induction l as [|x l IH]; [done|]. intros H. csimpl. rewrite (H x) by set_solver.
  apply Permutation_app_head, IH. set_solver.
Qed.

Lemma omap_omap {A B C} (f : A → option B) (k : B → option C) (l : list A) :
  omap k (omap f l) = omap (λ x, f x ≫= k) l.
Proof.
  induction l as [|x l IH]; [done|]. csimpl. destruct (f x); csimpl; by rewrite IH.
Qed.

Lemma omap_none {A B} (f : A → option B) (l : list A) : (∀ x, x ∈ l → f x = None) → omap f l = [].
Proof.
  induction l as [|x l IH]; [done|]. intros H. csimpl. rewrite (H x) by set_solver.
  apply IH. set_solver.
Qed.

Lemma flat_map_option_list {A B} (f : A → list B) (k : A → option B) (l : list A) :
  (∀ x, x ∈ l → f x = option_list (k x)) → flat_map f l = omap k l.
Proof.
  induction l as [|x l IH]; [done|]. intros H. csimpl. rewrite (H x), IH by set_solver.
  by destruct (k x).
Qed.

Lemma omap_all {A B} (f : A → option B) (l : list A) k : Forall2 (λ x y, f x = Some y) l k → omap f l = k.
Proof. induction 1 as [|x y l k H _ IH]; [done|]. csimpl. by rewrite H, IH. Qed.

(** Boolean filters and positions. *)
Lemma elem_of_filter_bool {A} (f : A → bool) (l : list A) x : x ∈ List.filter f l ↔ x ∈ l ∧ f x = true.
Proof. by rewrite !list_elem_of_In, filter_In. Qed.

Lemma StronglySorted_snoc {A} (R : A → A → Prop) (l : list A) x :
  StronglySorted R (l ++ [x]) → StronglySorted R l ∧ Forall (λ y, R y x) l.
Proof.
  induction l as [|y l IH]; intros H; [split; constructor|].
  apply StronglySorted_inv in H as [Hs Hy]. apply IH in Hs as [Hs Hx].
  apply Forall_app in Hy as [Hy Hyx]. apply Forall_cons in Hyx as [Hyx _].
  split; constructor; assumption.
Qed.

Lemma filter_ext_elem {A} (f g : A → bool) (l : list A) :
  (∀ x, x ∈ l → f x = g x) → List.filter f l = List.filter g l.
Proof.
  induction l as [|x l IH]; [done|]. intros H. simpl. rewrite (H x) by set_solver.
  rewrite IH by set_solver. done.
Qed.

Lemma filter_all {A} (f : A → bool) (l : list A) : (∀ x, x ∈ l → f x = true) → List.filter f l = l.
Proof.
  intros H. rewrite (filter_ext_elem f (λ _, true)) by done. clear H. induction l; simpl; congruence.
Qed.

Lemma seq_split n k : k < n → seq 0 n = seq 0 k ++ k :: seq (S k) (n - S k).
Proof.
  intros H. replace n with (k + S (n - S k)) at 1 by lia. by rewrite seq_app.
Qed.

Lemma filter_split {A} (f : A → bool) (l : list A) :
  length (List.filter f l) + length (List.filter (λ x, negb (f x)) l) = length l.
Proof. induction l as [|x l IH]; [done|]. simpl. destruct (f x); simpl; lia. Qed.

Lemma NoDup_filter_bool {A} (f : A → bool) (l : list A) : NoDup l → NoDup (List.filter f l).
Proof. rewrite !NoDup_ListNoDup. apply List.NoDup_filter. Qed.

Lemma delete_map {A B} (f : A → B) i (l : list A) : map f (delete i l) = delete i (map f l).
Proof. revert i. induction l as [|x l IH]; intros [|i]; try done. simpl. f_equal. apply IH. Qed.

(** ** Bits of integers *)

(** Equations between bitwise expressions, bit by bit. *)
Ltac z_bits :=
  apply Z.bits_inj'; intros ? ?;
  repeat (rewrite ?Z.land_spec, ?Z.lor_spec, ?Z.lxor_spec, ?Z.ldiff_spec, ?Z.lnot_spec, ?Z.bits_0
            by done);
  repeat match goal with |- context [Z.testbit ?x ?n] => destruct (Z.testbit x n) end;
  reflexivity.

Section bits.
Local Open Scope Z_scope.

Lemma add_disjoint a b : Z.land a b = 0 → a + b = Z.lor a b.
Proof. intros H. by rewrite Z.add_nocarry_lxor, Z.lxor_lor. Qed.

Lemma land_shiftl_r x y a : 0 ≤ a → Z.land x (Z.shiftl y a) = Z.shiftl (Z.land (Z.shiftr x a) y) a.
Proof.
  intros Ha. apply Z.bits_inj'. intros n Hn. rewrite Z.land_spec, !Z.shiftl_spec by lia.
  rewrite Z.land_spec. destruct (decide (n < a)).
  - rewrite !(Z.testbit_neg_r _ (n - a)) by lia. by rewrite !andb_false_r.
  - rewrite Z.shiftr_spec by lia. by replace (n - a + a) with n by lia.
Qed.

(** Extracting the bits [a .. a+L-1] of [x] by division is masking them. *)
Lemma window_land x a L : 0 ≤ a → 0 ≤ L →
  (x mod 2 ^ (a + L) / 2 ^ a) mod 2 ^ L * 2 ^ a = Z.land x (Z.shiftl (Z.ones L) a).
Proof.
  intros Ha HL. assert (0 < 2 ^ a ∧ 0 < 2 ^ L) as [Pa PL] by (split; apply Z.pow_pos_nonneg; lia).
  pose proof (Z.mod_pos_bound x _ Pa).
  rewrite land_shiftl_r, Z.land_ones, Z.shiftl_mul_pow2, Z.shiftr_div_pow2 by lia.
  f_equal. rewrite Z.pow_add_r by lia. rewrite Z.rem_mul_r by lia.
  rewrite Z.mul_comm, Z.div_add, Z.div_small, Z.add_0_l, Z.mod_mod by lia. done.
Qed.

Lemma land_add_disjoint x a b :
  Z.land a b = 0 → Z.land x (a + b) = Z.land x a + Z.land x b.
Proof.
  intros H. rewrite (Z.add_nocarry_lxor a b), Z.lxor_lor by done.
  rewrite Z.land_lor_distr_r, <-Z.lxor_lor, <-Z.add_nocarry_lxor; [done|..];
  apply Z.bits_inj'; intros n Hn; apply (f_equal (λ z, Z.testbit z n)) in H;
  rewrite ?Z.land_spec, ?Z.bits_0 in *;
  destruct (Z.testbit x n), (Z.testbit a n), (Z.testbit b n); done.
Qed.

Lemma land_ones_shifted_disjoint m a L : 0 ≤ a → 0 ≤ L →
  Z.land (Z.shiftl (Z.ones L) a) (Z.shiftl m (a + L)) = 0.
Proof.
  intros Ha HL. replace (a + L) with (L + a) by lia. rewrite <-Z.shiftl_shiftl by lia.
  rewrite <-Z.shiftl_land. rewrite Z.land_comm, Z.land_ones by lia.
  rewrite (Z.shiftl_mul_pow2 m) by lia.
  rewrite Z.mod_mul by (apply Z.pow_nonzero; lia). apply Z.shiftl_0_l.
Qed.
End bits.

(** Bitwise operations stay within a width. *)
Section width.
Local Open Scope N_scope.

Lemma N_lt_pow2_iff x w : x < 2 ^ w ↔ N.land x (N.ones w) = x.
Proof.
  rewrite N.land_ones. split; [apply N.mod_small|].
  intros <-. by apply N.mod_lt, N.pow_nonzero.
Qed.

Lemma N_bitop_bound x y w :
  x < 2 ^ w → y < 2 ^ w → N.land x y < 2 ^ w ∧ N.lor x y < 2 ^ w ∧ N.lxor x y < 2 ^ w.
Proof.
  rewrite !N_lt_pow2_iff. intros Hx Hy.
  rewrite <-N.land_assoc, Hy, N.land_lor_distr_l, Hx, Hy. split_and!; [done|done|].
  rewrite <-Hx, <-Hy at 2. apply N.bits_inj. intros n.
  rewrite !N.land_spec, !N.lxor_spec, !N.land_spec.
  by destruct (N.testbit x n), (N.testbit y n), (N.testbit (N.ones w) n).
Qed.
End width.
