(* ===== verification/Types.v ===== *)
(** * Types: the data of [movy-types]

    Addresses, abilities, type tags, signature tokens, ABIs, input arguments
    and call sequences of [crates/movy-types/src/{abi,input}.rs], with
    decidable equality and countability so that they can key finite maps. *)
From S2P Require Import Prelude.

(** ** Addresses *)

(** A [B256]: the 256-bit big-endian value. *)
Record MoveAddress := MkMoveAddress { addr_val : N }.

#[export] Instance MoveAddress_eq_dec : EqDecision MoveAddress.
Proof. solve_decision. Defined.
#[export] Instance MoveAddress_countable : Countable MoveAddress.
Proof. by refine (inj_countable' addr_val MkMoveAddress _); intros []. Defined.

Definition addr_zero : MoveAddress := MkMoveAddress 0.
Definition addr_one : MoveAddress := MkMoveAddress 1.
Definition addr_two : MoveAddress := MkMoveAddress 2.

Definition addr_is_zero (a : MoveAddress) : bool := bool_decide (a = addr_zero).

(** [AccountAddress::from_suffix(n)] for a one-byte suffix is the address [n]. *)
Definition is_sui_std (a : MoveAddress) : bool :=
  bool_decide (a = addr_one) || bool_decide (a = addr_two)
  || bool_decide (a = MkMoveAddress 3) || bool_decide (a = MkMoveAddress 13).

(** ** Abilities: the [MoveAbility] bit flags (a [u8]) *)
Definition MoveAbility : Type := N.
Definition ability_COPY : MoveAbility := 1%N.
Definition ability_DROP : MoveAbility := 2%N.
Definition ability_STORE : MoveAbility := 4%N.
Definition ability_KEY : MoveAbility := 8%N.
Definition ability_PRIMITIVES : MoveAbility := 7%N.
Definition ability_empty : MoveAbility := 0%N.

(** [bitflags]' [contains]. *)
Definition ability_contains (a b : MoveAbility) : bool := (N.land a b =? b)%N.
Definition ability_is_hot_potato (a : MoveAbility) : bool :=
  negb (ability_contains a ability_DROP) && negb (ability_contains a ability_STORE).
Definition is_subset_of (a other : MoveAbility) : bool := (N.land a other =? a)%N.

(** The four queries the code makes on [move_binary_format]'s [AbilitySet]. *)
Record AbilitySet := {
  has_copy : bool; has_drop : bool; has_store : bool; has_key : bool }.

Definition ability_from_set (value : AbilitySet) : MoveAbility :=
  let a := ability_empty in
  let a := if has_copy value then N.lor a ability_COPY else a in
  let a := if has_key value then N.lor a ability_KEY else a in
  let a := if has_store value then N.lor a ability_STORE else a in
  if has_drop value then N.lor a ability_DROP else a.

(** ** Identifiers *)
Record MoveModuleId := MkModuleId {
  module_address : MoveAddress; module_name : string }.
#[export] Instance MoveModuleId_eq_dec : EqDecision MoveModuleId.
Proof. solve_decision. Defined.
#[export] Instance MoveModuleId_countable : Countable MoveModuleId.
Proof.
  by refine (inj_countable' (λ m, (module_address m, module_name m))
    (λ p, MkModuleId p.1 p.2) _); intros [].
Defined.

Record FunctionIdent := MkFunctionIdent {
  fi_module : MoveModuleId; fi_name : string }.
#[export] Instance FunctionIdent_eq_dec : EqDecision FunctionIdent.
Proof. solve_decision. Defined.
#[export] Instance FunctionIdent_countable : Countable FunctionIdent.
Proof.
  by refine (inj_countable' (λ f, (fi_module f, fi_name f))
    (λ p, MkFunctionIdent p.1 p.2) _); intros [].
Defined.

Definition FunctionIdent_new (a : MoveAddress) (m f : string) : FunctionIdent :=
  MkFunctionIdent (MkModuleId a m) f.

(** ** Concrete types: [MoveTypeTag] *)
Record StructTagOf (T : Type) := MkStructTag {
  st_address : MoveAddress; st_module : string; st_name : string; st_tys : list T }.
Arguments MkStructTag {T} _ _ _ _.
Arguments st_address {T} _.
Arguments st_module {T} _.
Arguments st_name {T} _.
Arguments st_tys {T} _.

#[local] Unset Elimination Schemes.
Inductive MoveTypeTag :=
| Tag_Bool | Tag_U8 | Tag_U16 | Tag_U32 | Tag_U64 | Tag_U128 | Tag_U256
| Tag_Vector (inner : MoveTypeTag)
| Tag_Address | Tag_Signer
| Tag_Struct (tag : StructTagOf MoveTypeTag).
#[local] Set Elimination Schemes.
Definition MoveStructTag : Type := StructTagOf MoveTypeTag.

Section tag_ind.
  Variable P : MoveTypeTag → Prop.
  Hypothesis Hbool : P Tag_Bool.
  Hypothesis Hu8 : P Tag_U8.
  Hypothesis Hu16 : P Tag_U16.
  Hypothesis Hu32 : P Tag_U32.
  Hypothesis Hu64 : P Tag_U64.
  Hypothesis Hu128 : P Tag_U128.
  Hypothesis Hu256 : P Tag_U256.
  Hypothesis Hvec : ∀ t, P t → P (Tag_Vector t).
  Hypothesis Haddr : P Tag_Address.
  Hypothesis Hsigner : P Tag_Signer.
  Hypothesis Hstruct : ∀ a m n tys,
    Forall P tys → P (Tag_Struct (MkStructTag a m n tys)).

Fixpoint MoveTypeTag_ind (t : MoveTypeTag) : P t :=
    match t with
    | Tag_Bool => Hbool | Tag_U8 => Hu8 | Tag_U16 => Hu16 | Tag_U32 => Hu32
    | Tag_U64 => Hu64 | Tag_U128 => Hu128 | Tag_U256 => Hu256
    | Tag_Vector inner => Hvec inner (MoveTypeTag_ind inner)
    | Tag_Address => Haddr | Tag_Signer => Hsigner
    | Tag_Struct (MkStructTag a m n tys) => Hstruct a m n tys
        ((fix go (l : list MoveTypeTag) : Forall P l :=
            match l with
            | [] => Forall_nil_2 P
            | x :: l' => Forall_cons_2 P x l' (MoveTypeTag_ind x) (go l')
            end) tys)
    end.
End tag_ind.

(** Structural equality ([derive(PartialEq)]). *)
Fixpoint list_eqb {A} (f : A → A → bool) (l k : list A) : bool :=
  match l, k with
  | [], [] => true
  | x :: l, y :: k => f x y && list_eqb f l k
  | _, _ => false
  end.

Lemma list_eqb_eq {A} (f : A → A → bool) (l : list A) :
  Forall (λ x, ∀ y, f x y = true ↔ x = y) l →
  ∀ k, list_eqb f l k = true ↔ l = k.
Proof.
  induction 1 as [|x l Hx _ IH]; intros [|y k]; simpl; try (split; congruence).
  rewrite andb_true_iff, Hx, IH. split; [intros [-> ->]; done | by intros [= -> ->]].
Qed.

Fixpoint tag_eqb (x y : MoveTypeTag) : bool :=
  match x, y with
  | Tag_Bool, Tag_Bool | Tag_U8, Tag_U8 | Tag_U16, Tag_U16 | Tag_U32, Tag_U32
  | Tag_U64, Tag_U64 | Tag_U128, Tag_U128 | Tag_U256, Tag_U256
  | Tag_Address, Tag_Address | Tag_Signer, Tag_Signer => true
  | Tag_Vector x, Tag_Vector y => tag_eqb x y
  | Tag_Struct (MkStructTag a m n tys), Tag_Struct (MkStructTag a' m' n' tys') =>
      bool_decide (a = a') && bool_decide (m = m') && bool_decide (n = n')
      && list_eqb tag_eqb tys tys'
  | _, _ => false
  end.

Lemma tag_eqb_eq x y : tag_eqb x y = true ↔ x = y.
Proof.
  revert y. induction x as [| | | | | | |x IH| | |a m n tys IH] using MoveTypeTag_ind;
    intros [| | | | | | |y| | |[a' m' n' tys']]; simpl; try (split; congruence).
  - rewrite IH. split; congruence.
  - rewrite !andb_true_iff, !bool_decide_eq_true, (list_eqb_eq _ _ IH).
    split; [by intros [[[-> ->] ->] ->] | by intros [= -> -> -> ->]].
Qed.

#[export] Instance MoveTypeTag_eq_dec : EqDecision MoveTypeTag.
Proof.
  intros x y. destruct (tag_eqb x y) eqn:E.
  - left. by apply tag_eqb_eq.
  - right. intros ->. by rewrite (proj2 (tag_eqb_eq y y) eq_refl) in E.
Defined.

Fixpoint tag_to_tree (t : MoveTypeTag) : gen_tree (MoveAddress * string * string) :=
  match t with
  | Tag_Bool => GenNode 0 [] | Tag_U8 => GenNode 1 [] | Tag_U16 => GenNode 2 []
  | Tag_U32 => GenNode 3 [] | Tag_U64 => GenNode 4 [] | Tag_U128 => GenNode 5 []
  | Tag_U256 => GenNode 6 [] | Tag_Vector t => GenNode 7 [tag_to_tree t]
  | Tag_Address => GenNode 8 [] | Tag_Signer => GenNode 9 []
  | Tag_Struct (MkStructTag a m n tys) =>
      GenNode 10 (GenLeaf (a, m, n) :: (tag_to_tree <$> tys))
  end.

Fixpoint tag_of_tree (t : gen_tree (MoveAddress * string * string)) : MoveTypeTag :=
  match t with
  | GenNode 0 _ => Tag_Bool | GenNode 1 _ => Tag_U8 | GenNode 2 _ => Tag_U16
  | GenNode 3 _ => Tag_U32 | GenNode 4 _ => Tag_U64 | GenNode 5 _ => Tag_U128
  | GenNode 6 _ => Tag_U256 | GenNode 7 [t] => Tag_Vector (tag_of_tree t)
  | GenNode 8 _ => Tag_Address | GenNode 9 _ => Tag_Signer
  | GenNode 10 (GenLeaf (a, m, n) :: tys) =>
      Tag_Struct (MkStructTag a m n (tag_of_tree <$> tys))
  | _ => Tag_Bool
  end.

#[export] Instance MoveTypeTag_countable : Countable MoveTypeTag.
Proof.
  refine (inj_countable' tag_to_tree tag_of_tree _).
  intros t. induction t as [| | | | | | |x IH| | |a m n tys IH] using MoveTypeTag_ind;
    simpl; try congruence.
  do 2 f_equal. induction IH as [|x l Hx _ IHl]; [done|]. csimpl. by rewrite Hx, IHl.
Defined.

(** ** Signature tokens *)
Record MoveStructTypeParameters := {
  tp_constraints : MoveAbility; tp_phantom : bool }.
#[export] Instance MoveStructTypeParameters_eq_dec : EqDecision MoveStructTypeParameters.
Proof. unfold EqDecision, MoveAbility in *. solve_decision. Defined.

Record MoveStructHandle := MkStructHandle {
  sh_module_id : MoveModuleId;
  sh_struct_name : string;
  sh_abilities : MoveAbility;
  sh_type_parameters : list MoveStructTypeParameters }.
#[export] Instance MoveStructHandle_eq_dec : EqDecision MoveStructHandle.
Proof. unfold EqDecision, MoveAbility in *. solve_decision. Defined.

#[local] Unset Elimination Schemes.
Inductive MoveAbiSignatureToken :=
| Tok_Bool | Tok_U8 | Tok_U16 | Tok_U32 | Tok_U64 | Tok_U128 | Tok_U256
| Tok_Address | Tok_Signer
| Tok_Vector (inner : MoveAbiSignatureToken)
| Tok_Struct (h : MoveStructHandle)
| Tok_StructInstantiation (h : MoveStructHandle) (insts : list MoveAbiSignatureToken)
| Tok_TypeParameter (idx : N) (ability : MoveAbility)
| Tok_Reference (inner : MoveAbiSignatureToken)
| Tok_MutableReference (inner : MoveAbiSignatureToken).
#[local] Set Elimination Schemes.

Section token_ind.
  Variable P : MoveAbiSignatureToken → Prop.
  Hypothesis Hbool : P Tok_Bool.
  Hypothesis Hu8 : P Tok_U8.
  Hypothesis Hu16 : P Tok_U16.
  Hypothesis Hu32 : P Tok_U32.
  Hypothesis Hu64 : P Tok_U64.
  Hypothesis Hu128 : P Tok_U128.
  Hypothesis Hu256 : P Tok_U256.
  Hypothesis Haddr : P Tok_Address.
  Hypothesis Hsigner : P Tok_Signer.
  Hypothesis Hvec : ∀ t, P t → P (Tok_Vector t).
  Hypothesis Hstruct : ∀ h, P (Tok_Struct h).
  Hypothesis Hinst : ∀ h insts, Forall P insts → P (Tok_StructInstantiation h insts).
  Hypothesis Hparam : ∀ i a, P (Tok_TypeParameter i a).
  Hypothesis Href : ∀ t, P t → P (Tok_Reference t).
  Hypothesis Hmut : ∀ t, P t → P (Tok_MutableReference t).

Fixpoint MoveAbiSignatureToken_ind (t : MoveAbiSignatureToken) : P t :=
    match t with
    | Tok_Bool => Hbool | Tok_U8 => Hu8 | Tok_U16 => Hu16 | Tok_U32 => Hu32
    | Tok_U64 => Hu64 | Tok_U128 => Hu128 | Tok_U256 => Hu256
    | Tok_Address => Haddr | Tok_Signer => Hsigner
    | Tok_Vector inner => Hvec inner (MoveAbiSignatureToken_ind inner)
    | Tok_Struct h => Hstruct h
    | Tok_StructInstantiation h insts => Hinst h insts
        ((fix go (l : list MoveAbiSignatureToken) : Forall P l :=
            match l with
            | [] => Forall_nil_2 P
            | x :: l' => Forall_cons_2 P x l' (MoveAbiSignatureToken_ind x) (go l')
            end) insts)
    | Tok_TypeParameter i a => Hparam i a
    | Tok_Reference inner => Href inner (MoveAbiSignatureToken_ind inner)
    | Tok_MutableReference inner => Hmut inner (MoveAbiSignatureToken_ind inner)
    end.
End token_ind.

Fixpoint token_eqb (x y : MoveAbiSignatureToken) : bool :=
  match x, y with
  | Tok_Bool, Tok_Bool | Tok_U8, Tok_U8 | Tok_U16, Tok_U16 | Tok_U32, Tok_U32
  | Tok_U64, Tok_U64 | Tok_U128, Tok_U128 | Tok_U256, Tok_U256
  | Tok_Address, Tok_Address | Tok_Signer, Tok_Signer => true
  | Tok_Vector x, Tok_Vector y => token_eqb x y
  | Tok_Struct h, Tok_Struct h' => bool_decide (h = h')
  | Tok_StructInstantiation h l, Tok_StructInstantiation h' l' =>
      bool_decide (h = h') && list_eqb token_eqb l l'
  | Tok_TypeParameter i a, Tok_TypeParameter i' a' => (i =? i')%N && (a =? a')%N
  | Tok_Reference x, Tok_Reference y => token_eqb x y
  | Tok_MutableReference x, Tok_MutableReference y => token_eqb x y
  | _, _ => false
  end.

Lemma token_eqb_eq x y : token_eqb x y = true ↔ x = y.
Proof.
  revert y. induction x as [| | | | | | | | |x IH|h|h l IH|i a|x IH|x IH]
    using MoveAbiSignatureToken_ind;
    intros [| | | | | | | | |y|h'|h' l'|i' a'|y|y]; simpl;
    try (rewrite IH); try (rewrite bool_decide_eq_true); try (split; congruence).
  - rewrite andb_true_iff, bool_decide_eq_true, (list_eqb_eq _ _ IH).
    split; [by intros [-> ->] | by intros [= -> ->]].
  - rewrite andb_true_iff, !N.eqb_eq. split; [by intros [-> ->] | by intros [= -> ->]].
Qed.

#[export] Instance MoveAbiSignatureToken_eq_dec : EqDecision MoveAbiSignatureToken.
Proof.
  intros x y. destruct (token_eqb x y) eqn:E.
  - left. by apply token_eqb_eq.
  - right. intros ->. by rewrite (proj2 (token_eqb_eq y y) eq_refl) in E.
Defined.

(** ** ABIs *)
Record MoveStructField := { sf_name : string; sf_ty : MoveAbiSignatureToken }.
Record MoveStructAbi := {
  sa_handle : MoveStructHandle; sa_fields : list MoveStructField }.

Inductive MoveFunctionVisibility := Public | Private | Friend.
#[export] Instance MoveFunctionVisibility_eq_dec : EqDecision MoveFunctionVisibility.
Proof. solve_decision. Defined.

Record MoveFunctionAbi := {
  fa_name : string;
  fa_parameters : list MoveAbiSignatureToken;
  fa_return_paramters : list MoveAbiSignatureToken;
  fa_type_parameters : list MoveAbility;
  fa_visibility : MoveFunctionVisibility;
  fa_is_entry : bool }.
#[export] Instance MoveFunctionAbi_eq_dec : EqDecision MoveFunctionAbi.
Proof. unfold EqDecision, MoveAbility in *. solve_decision. Defined.

Record MoveModuleAbi := {
  ma_module_id : MoveModuleId;
  ma_structs : list MoveStructAbi;
  ma_functions : list MoveFunctionAbi }.

Record MovePackageAbi := {
  pa_package_id : MoveAddress; pa_modules : list MoveModuleAbi }.

(** ** Input arguments and call sequences *)

(** [ObjectRef]: id, sequence number, digest. *)
Definition ObjectRef : Type := MoveAddress * N * N.

Inductive SuiObjectInputArgument :=
| ImmOrOwnedObject (r : ObjectRef)
| SharedObject (id : MoveAddress) (initial_shared_version : N) (mutable : bool)
| Receiving (r : ObjectRef).
#[export] Instance SuiObjectInputArgument_eq_dec : EqDecision SuiObjectInputArgument.
Proof. unfold EqDecision, ObjectRef in *. solve_decision. Defined.

Definition object_arg_id (o : SuiObjectInputArgument) : MoveAddress :=
  match o with
  | ImmOrOwnedObject (id, _, _) => id
  | Receiving (id, _, _) => id
  | SharedObject id _ _ => id
  end.

#[local] Unset Elimination Schemes.
Inductive InputArgument :=
| Arg_Bool (v : bool)
| Arg_U8 (v : N) | Arg_U16 (v : N) | Arg_U32 (v : N) | Arg_U64 (v : N)
| Arg_U128 (v : N) | Arg_U256 (v : N)
| Arg_Vector (ty : MoveTypeTag) (vs : list InputArgument)
| Arg_Signer (a : MoveAddress) | Arg_Address (a : MoveAddress)
| Arg_Object (ty : MoveTypeTag) (o : SuiObjectInputArgument).
#[local] Set Elimination Schemes.

Section arg_ind.
  Variable P : InputArgument → Prop.
  Hypothesis Hbool : ∀ b, P (Arg_Bool b).
  Hypothesis Hu8 : ∀ v, P (Arg_U8 v).
  Hypothesis Hu16 : ∀ v, P (Arg_U16 v).
  Hypothesis Hu32 : ∀ v, P (Arg_U32 v).
  Hypothesis Hu64 : ∀ v, P (Arg_U64 v).
  Hypothesis Hu128 : ∀ v, P (Arg_U128 v).
  Hypothesis Hu256 : ∀ v, P (Arg_U256 v).
  Hypothesis Hvec : ∀ t vs, Forall P vs → P (Arg_Vector t vs).
  Hypothesis Hsigner : ∀ a, P (Arg_Signer a).
  Hypothesis Haddr : ∀ a, P (Arg_Address a).
  Hypothesis Hobj : ∀ t o, P (Arg_Object t o).

Fixpoint InputArgument_ind (v : InputArgument) : P v :=
    match v with
    | Arg_Bool b => Hbool b | Arg_U8 v => Hu8 v | Arg_U16 v => Hu16 v
    | Arg_U32 v => Hu32 v | Arg_U64 v => Hu64 v | Arg_U128 v => Hu128 v
    | Arg_U256 v => Hu256 v
    | Arg_Vector t vs => Hvec t vs
        ((fix go (l : list InputArgument) : Forall P l :=
            match l with
            | [] => Forall_nil_2 P
            | x :: l' => Forall_cons_2 P x l' (InputArgument_ind x) (go l')
            end) vs)
    | Arg_Signer a => Hsigner a | Arg_Address a => Haddr a
    | Arg_Object t o => Hobj t o
    end.
End arg_ind.

(** [InputArgument::ty]. *)
Definition arg_ty (v : InputArgument) : MoveTypeTag :=
  match v with
  | Arg_Bool _ => Tag_Bool | Arg_Address _ => Tag_Address | Arg_Signer _ => Tag_Signer
  | Arg_Vector ty _ => ty | Arg_Object ty _ => ty
  | Arg_U8 _ => Tag_U8 | Arg_U16 _ => Tag_U16 | Arg_U32 _ => Tag_U32
  | Arg_U64 _ => Tag_U64 | Arg_U128 _ => Tag_U128 | Arg_U256 _ => Tag_U256
  end.

Inductive SequenceArgument :=
| GasCoin
| Input (i : N)
| Result (i : N)
| NestedResult (i j : N).
#[export] Instance SequenceArgument_eq_dec : EqDecision SequenceArgument.
Proof. solve_decision. Defined.

Record MoveCall := {
  mc_module_id : MoveAddress;
  mc_module_name : string;
  mc_function : string;
  mc_type_arguments : list MoveTypeTag;
  mc_arguments : list SequenceArgument }.
#[export] Instance MoveCall_eq_dec : EqDecision MoveCall.
Proof. solve_decision. Defined.

Definition is_split (mc : MoveCall) : bool :=
  bool_decide (mc_module_id mc = addr_two)
  && (bool_decide (mc_module_name mc = "coin") || bool_decide (mc_module_name mc = "balance"))
  && bool_decide (mc_function mc = "split").

(** Module bytes are opaque byte strings. *)
Inductive MoveSequenceCall :=
| Call (mc : MoveCall)
| TransferObjects (args : list SequenceArgument) (dst : SequenceArgument)
| SplitCoins (src : SequenceArgument) (amounts : list SequenceArgument)
| MergeCoins (dst : SequenceArgument) (srcs : list SequenceArgument)
| Publish (modules : list (list Byte.byte)) (deps : list MoveAddress)
| MakeMoveVec (ty : MoveTypeTag) (args : list SequenceArgument)
| Upgrade (modules : list (list Byte.byte)) (deps : list MoveAddress)
    (package : MoveAddress) (ticket : SequenceArgument).

Record MoveSequence := MkSequence {
  seq_inputs : list InputArgument; seq_commands : list MoveSequenceCall }.
