(* ===== verification/Abi.v ===== *)
(** * Abi: classification of signature tokens and ABIs

    The pure queries of [MoveAbiSignatureToken], [MoveFunctionAbi] and
    [MovePackageAbi] in [crates/movy-types/src/abi.rs]. *)
From S2P Require Import Prelude Types.

(** ** Token queries *)
Definition as_struct (t : MoveAbiSignatureToken) : option MoveStructHandle :=
  match t with
  | Tok_Struct h => Some h
  | Tok_StructInstantiation h _ => Some h
  | _ => None
  end.

Definition as_struct_ref (t : MoveAbiSignatureToken) : option (MoveStructHandle * bool) :=
  match t with
  | Tok_Reference inner => (λ h, (h, false)) <$> as_struct inner
  | Tok_MutableReference inner => (λ h, (h, true)) <$> as_struct inner
  | _ => None
  end.

Definition dereference (t : MoveAbiSignatureToken) : option MoveAbiSignatureToken :=
  match t with
  | Tok_Reference v => Some v
  | Tok_MutableReference v => Some v
  | _ => None
  end.

Definition handle_is (h : MoveStructHandle) (a : MoveAddress) (m n : string) : bool :=
  bool_decide (module_address (sh_module_id h) = a)
  && bool_decide (module_name (sh_module_id h) = m)
  && bool_decide (sh_struct_name h = n).

Fixpoint is_mutable (t : MoveAbiSignatureToken) : bool :=
  match t with
  | Tok_Bool | Tok_Address | Tok_U8 | Tok_U16 | Tok_U32 | Tok_U64 | Tok_U128 | Tok_U256 => true
  | Tok_Vector inner => is_mutable inner
  | _ => false
  end.

Fixpoint is_tx_context (t : MoveAbiSignatureToken) : bool :=
  match t with
  | Tok_Struct inner => handle_is inner addr_two "tx_context" "TxContext"
  | Tok_Reference inner => is_tx_context inner
  | Tok_MutableReference inner => is_tx_context inner
  | _ => false
  end.

Definition is_balance (t : MoveAbiSignatureToken) : bool :=
  match t with
  | Tok_StructInstantiation inner _ => handle_is inner addr_two "balance" "Balance"
  | _ => false
  end.

Definition is_coin (t : MoveAbiSignatureToken) : bool :=
  match t with
  | Tok_StructInstantiation inner _ => handle_is inner addr_two "coin" "Coin"
  | _ => false
  end.

Fixpoint is_hot_potato (t : MoveAbiSignatureToken) : bool :=
  match t with
  | Tok_Struct inner | Tok_StructInstantiation inner _ =>
      if is_balance t || is_tx_context t then false
      else ability_is_hot_potato (sh_abilities inner)
  | Tok_Vector inner => is_hot_potato inner
  | _ => false
  end.

(** A, &A, &mut A, Vec<A>, T, &T, &mut T need sample *)
Fixpoint needs_sample (t : MoveAbiSignatureToken) : bool :=
  if is_tx_context t then false else
  match t with
  | Tok_Struct _ => true
  | Tok_StructInstantiation _ _ => true
  | Tok_Reference b | Tok_MutableReference b | Tok_Vector b =>
      match b with
      | Tok_Struct _ => true
      | Tok_StructInstantiation _ _ => true
      | Tok_TypeParameter _ _ => true
      | _ => needs_sample b
      end
  | Tok_TypeParameter _ _ => true
  | _ => false
  end.

Definition has_copy_ability (t : MoveAbiSignatureToken) : bool :=
  match t with
  | Tok_Struct inner | Tok_StructInstantiation inner _ =>
      ability_contains (sh_abilities inner) ability_COPY
  | _ => false
  end.

Definition is_key_store (t : MoveAbiSignatureToken) : bool :=
  match t with
  | Tok_Struct inner | Tok_StructInstantiation inner _ =>
      ability_contains (sh_abilities inner) (N.lor ability_KEY ability_STORE)
  | _ => false
  end.

Definition ability (t : MoveAbiSignatureToken) : option MoveAbility :=
  match t with
  | Tok_Bool | Tok_Address | Tok_U8 | Tok_U16 | Tok_U32 | Tok_U64 | Tok_U128 | Tok_U256 =>
      Some ability_PRIMITIVES
  | Tok_Signer => Some ability_DROP
  | Tok_Vector _ => Some ability_PRIMITIVES
  | Tok_Struct inner | Tok_StructInstantiation inner _ => Some (sh_abilities inner)
  | _ => None
  end.

Fixpoint to_type_tag (t : MoveAbiSignatureToken) : option MoveTypeTag :=
  match t with
  | Tok_Bool => Some Tag_Bool | Tok_U8 => Some Tag_U8 | Tok_U16 => Some Tag_U16
  | Tok_U32 => Some Tag_U32 | Tok_U64 => Some Tag_U64 | Tok_U128 => Some Tag_U128
  | Tok_U256 => Some Tag_U256 | Tok_Address => Some Tag_Address
  | Tok_Signer => Some Tag_Signer
  | Tok_Vector v => Tag_Vector <$> to_type_tag v
  | Tok_StructInstantiation st tys =>
      if (length (sh_type_parameters st) =? length tys)%nat then
        insts ← mapM to_type_tag tys;
        Some (Tag_Struct (MkStructTag (module_address (sh_module_id st))
          (module_name (sh_module_id st)) (sh_struct_name st) insts))
      else None
  | _ => None
  end.

(** [gen_input_arg]: the initial value of a pure parameter. [Panic] is the
    [expect("Vector inner type tag")]. *)
Fixpoint gen_input_arg (t : MoveAbiSignatureToken) : panics (option InputArgument) :=
  match t with
  | Tok_Bool => Ret (Some (Arg_Bool false))
  | Tok_Address => Ret (Some (Arg_Address addr_zero))
  | Tok_U8 => Ret (Some (Arg_U8 0)) | Tok_U16 => Ret (Some (Arg_U16 0))
  | Tok_U32 => Ret (Some (Arg_U32 0)) | Tok_U64 => Ret (Some (Arg_U64 0))
  | Tok_U128 => Ret (Some (Arg_U128 0)) | Tok_U256 => Ret (Some (Arg_U256 0))
  | Tok_Signer => Ret (Some (Arg_Signer addr_zero))
  | Tok_Vector inner =>
      v ← gen_input_arg inner;
      match v with
      | None => Ret None
      | Some v => ty ← unwrap (to_type_tag inner); Ret (Some (Arg_Vector ty (replicate 1024 v)))
      end
  | Tok_Reference inner | Tok_MutableReference inner =>
      inner_value ← gen_input_arg inner;
      if negb (needs_sample inner) then Ret inner_value else Ret None
  | _ => Ret None
  end.

Fixpoint contains_type_param (index : N) (t : MoveAbiSignatureToken) : bool :=
  match t with
  | Tok_TypeParameter i _ => (i =? index)%N
  | Tok_Vector inner => contains_type_param index inner
  | Tok_Reference inner | Tok_MutableReference inner => contains_type_param index inner
  | Tok_StructInstantiation _ type_params => existsb (contains_type_param index) type_params
  | _ => false
  end.

(** ** Relocation of a package: [published_at] *)
Definition handle_published_at (previous address : MoveAddress) (st : MoveStructHandle) :
    MoveStructHandle :=
  if decide (module_address (sh_module_id st) = previous) then
    MkStructHandle (MkModuleId address (module_name (sh_module_id st)))
      (sh_struct_name st) (sh_abilities st) (sh_type_parameters st)
  else st.

Fixpoint token_published_at (previous address : MoveAddress) (t : MoveAbiSignatureToken) :
    MoveAbiSignatureToken :=
  match t with
  | Tok_Struct st => Tok_Struct (handle_published_at previous address st)
  | Tok_StructInstantiation st insts =>
      Tok_StructInstantiation (handle_published_at previous address st)
        (map (token_published_at previous address) insts)
  | Tok_MutableReference mt => Tok_MutableReference (token_published_at previous address mt)
  | Tok_Reference rf => Tok_Reference (token_published_at previous address rf)
  | Tok_Vector v => Tok_Vector (token_published_at previous address v)
  | _ => t
  end.

Definition set_module_address (a : MoveAddress) (m : MoveModuleId) : MoveModuleId :=
  MkModuleId a (module_name m).

Definition package_published_at (address : MoveAddress) (p : MovePackageAbi) : MovePackageAbi :=
  let prev := pa_package_id p in
  {| pa_package_id := address;
     pa_modules := map (λ md,
       {| ma_module_id := set_module_address address (ma_module_id md);
          ma_structs := map (λ st,
            {| sa_handle := MkStructHandle
                 (set_module_address address (sh_module_id (sa_handle st)))
                 (sh_struct_name (sa_handle st)) (sh_abilities (sa_handle st))
                 (sh_type_parameters (sa_handle st));
               sa_fields := sa_fields st |}) (ma_structs md);
          ma_functions := map (λ fc,
            {| fa_name := fa_name fc;
               fa_parameters := map (token_published_at prev address) (fa_parameters fc);
               fa_return_paramters :=
                 map (token_published_at prev address) (fa_return_paramters fc);
               fa_type_parameters := fa_type_parameters fc;
               fa_visibility := fa_visibility fc;
               fa_is_entry := fa_is_entry fc |}) (ma_functions md) |}) (pa_modules p) |}.
