(* ===== verification/TypeArgs.v ===== *)
(** * TypeArgs: substitution, matching and unification of type arguments

    The type-argument inference of [crates/movy-types/src/abi.rs]:
    [subst], [partial_subst], [from_type_tag_lossy], [extract_ty_args] and
    [partial_extract_ty_args], with the theorems that relate them. *)
From S2P Require Import Prelude Types Abi.

(** A [BTreeMap<u16, MoveTypeTag>]. *)
Abbreviation TyArgs := (gmap N MoveTypeTag).

(** ** Definitions *)
Definition struct_tag_of (h : MoveStructHandle) (tys : list MoveTypeTag) : MoveTypeTag :=
  Tag_Struct (MkStructTag (module_address (sh_module_id h)) (module_name (sh_module_id h))
    (sh_struct_name h) tys).

Fixpoint subst (ty_args : TyArgs) (t : MoveAbiSignatureToken) : option MoveTypeTag :=
  match t with
  | Tok_Vector inner => Tag_Vector <$> subst ty_args inner
  | Tok_StructInstantiation inner type_params =>
      tys ← mapM (subst ty_args) type_params;
      Some (struct_tag_of inner tys)
  | Tok_Struct inner =>
      match sh_type_parameters inner with
      | [] => Some (struct_tag_of inner [])
      | _ => None
      end
  | Tok_Reference inner => subst ty_args inner
  | Tok_MutableReference inner => subst ty_args inner
  | Tok_TypeParameter index _ => ty_args !! index
  | Tok_Bool => Some Tag_Bool | Tok_Address => Some Tag_Address
  | Tok_U8 => Some Tag_U8 | Tok_U16 => Some Tag_U16 | Tok_U32 => Some Tag_U32
  | Tok_U64 => Some Tag_U64 | Tok_U128 => Some Tag_U128 | Tok_U256 => Some Tag_U256
  | Tok_Signer => Some Tag_Signer
  end.

Fixpoint from_type_tag_lossy (ty : MoveTypeTag) : MoveAbiSignatureToken :=
  match ty with
  | Tag_Bool => Tok_Bool | Tag_Address => Tok_Address
  | Tag_U8 => Tok_U8 | Tag_U16 => Tok_U16 | Tag_U32 => Tok_U32
  | Tag_U64 => Tok_U64 | Tag_U128 => Tok_U128 | Tag_U256 => Tok_U256
  | Tag_Signer => Tok_Signer
  | Tag_Vector inner => Tok_Vector (from_type_tag_lossy inner)
  | Tag_Struct (MkStructTag a m n tys) =>
      let h := MkStructHandle (MkModuleId a m) n ability_empty [] in
      match tys with
      | [] => Tok_Struct h
      | _ => Tok_StructInstantiation h (map from_type_tag_lossy tys)
      end
  end.

Fixpoint partial_subst (ty_args : TyArgs) (t : MoveAbiSignatureToken) : MoveAbiSignatureToken :=
  match t with
  | Tok_Vector inner => Tok_Vector (partial_subst ty_args inner)
  | Tok_StructInstantiation inner type_params =>
      Tok_StructInstantiation inner (map (partial_subst ty_args) type_params)
  | Tok_Reference inner => Tok_Reference (partial_subst ty_args inner)
  | Tok_MutableReference inner => Tok_MutableReference (partial_subst ty_args inner)
  | Tok_TypeParameter index _ =>
      default t (from_type_tag_lossy <$> ty_args !! index)
  | _ => t
  end.

(** The loop [for (index, ty) in sub { if acc.contains_key(&index) &&
    acc[&index] != ty { return None } acc.insert(index, ty) }]. *)
Fixpoint merge_entries (acc : TyArgs) (entries : list (N * MoveTypeTag)) : option TyArgs :=
  match entries with
  | [] => Some acc
  | (index, ty) :: rest =>
      match acc !! index with
      | Some ty' => if decide (ty' = ty) then merge_entries (<[index := ty]> acc) rest else None
      | None => merge_entries (<[index := ty]> acc) rest
      end
  end.
Definition merge_ty_args (acc sub : TyArgs) : option TyArgs := merge_entries acc (btree_iter sub).

(** The struct guard: same address, module and name. *)
Definition struct_matches (h : MoveStructHandle) (tag : MoveStructTag) : bool :=
  bool_decide (module_address (sh_module_id h) = st_address tag)
  && bool_decide (module_name (sh_module_id h) = st_module tag)
  && bool_decide (sh_struct_name h = st_name tag).

(** The loop over [type_args.iter().zip(tag.tys.iter())]. *)
Fixpoint extract_zip (f : MoveAbiSignatureToken → MoveTypeTag → option TyArgs)
    (acc : TyArgs) (args : list MoveAbiSignatureToken) (tys : list MoveTypeTag) :
    option TyArgs :=
  match args, tys with
  | a :: args, t :: tys =>
      sub ← f a t; acc ← merge_ty_args acc sub; extract_zip f acc args tys
  | _, _ => Some acc
  end.

Fixpoint extract_ty_args (self : MoveAbiSignatureToken) (instantiated_ty : MoveTypeTag)
    {struct self} : option TyArgs :=
  match self, instantiated_ty with
  | Tok_Vector inner, Tag_Vector inner_ty => extract_ty_args inner inner_ty
  | Tok_StructInstantiation inner type_args, Tag_Struct tag =>
      if negb (struct_matches inner tag) then None
      else extract_zip extract_ty_args ∅ type_args (st_tys tag)
  | Tok_Struct inner, Tag_Struct tag =>
      if negb (struct_matches inner tag) then None
      else match sh_type_parameters inner with [] => Some ∅ | _ => None end
  | Tok_Reference inner, _ => extract_ty_args inner instantiated_ty
  | Tok_MutableReference inner, _ => extract_ty_args inner instantiated_ty
  | Tok_TypeParameter index _, _ => Some {[ index := instantiated_ty ]}
  | Tok_Bool, Tag_Bool | Tok_Address, Tag_Address | Tok_U8, Tag_U8 | Tok_U16, Tag_U16
  | Tok_U32, Tag_U32 | Tok_U64, Tag_U64 | Tok_U128, Tag_U128 | Tok_U256, Tag_U256
  | Tok_Signer, Tag_Signer => Some ∅
  | _, _ => None
  end.

(** Unification of a consumer type [self] with a producer type [other]:
    bindings for the parameters of each, and the pairs of parameters that
    must be instantiated alike. *)
Abbreviation Unifier := (TyArgs * TyArgs * list (N * N))%type.

Fixpoint partial_zip (f : MoveAbiSignatureToken → MoveAbiSignatureToken → option Unifier)
    (acc : Unifier) (args args' : list MoveAbiSignatureToken) : option Unifier :=
  match args, args' with
  | a :: args, b :: args' =>
      '(s, o, m) ← f a b;
      s' ← merge_ty_args acc.1.1 s;
      o' ← merge_ty_args acc.1.2 o;
      partial_zip f (s', o', acc.2 ++ m) args args'
  | _, _ => Some acc
  end.

Fixpoint partial_extract_ty_args (self other : MoveAbiSignatureToken) {struct self} :
    option Unifier :=
  match self, other with
  | Tok_TypeParameter index _, Tok_TypeParameter other_index _ =>
      Some (∅, ∅, [(index, other_index)])
  | Tok_TypeParameter index _, _ =>
      t ← subst ∅ other; Some ({[ index := t ]}, ∅, [])
  | _, Tok_TypeParameter other_index _ =>
      t ← subst ∅ self; Some (∅, {[ other_index := t ]}, [])
  | Tok_Struct inner, Tok_Struct other_inner =>
      if bool_decide (sh_module_id inner ≠ sh_module_id other_inner)
         || bool_decide (sh_struct_name inner ≠ sh_struct_name other_inner)
         || negb (length (sh_type_parameters inner) =? length (sh_type_parameters other_inner))%nat
      then None else Some (∅, ∅, [])
  | Tok_StructInstantiation inner type_args, Tok_StructInstantiation other_inner other_type_args =>
      if bool_decide (sh_module_id inner ≠ sh_module_id other_inner)
         || bool_decide (sh_struct_name inner ≠ sh_struct_name other_inner)
         || negb (length type_args =? length other_type_args)%nat
      then None
      else partial_zip partial_extract_ty_args (∅, ∅, []) type_args other_type_args
  | Tok_MutableReference inner, Tok_MutableReference other_inner
  | Tok_Reference inner, Tok_MutableReference other_inner
  | Tok_Reference inner, Tok_Reference other_inner
  | Tok_Vector inner, Tok_Vector other_inner => partial_extract_ty_args inner other_inner
  | Tok_MutableReference inner, _ => partial_extract_ty_args inner other
  | Tok_Reference inner, _ => partial_extract_ty_args inner other
  | _, _ => if decide (self = other) then Some (∅, ∅, []) else None
  end.


(** ** Arity environments

    On chain, a struct has a fixed number of type parameters. [ar] gives it;
    a token or tag is [arity_ok] when each struct it names is applied to that
    many arguments. *)
Section arity.
  Variable ar : MoveAddress → string → string → nat.

Fixpoint tag_arity_ok (t : MoveTypeTag) : bool :=
    match t with
    | Tag_Vector t => tag_arity_ok t
    | Tag_Struct tag =>
        bool_decide (length (st_tys tag) = ar (st_address tag) (st_module tag) (st_name tag))
        && forallb tag_arity_ok (st_tys tag)
    | _ => true
    end.

Definition handle_arity (h : MoveStructHandle) : nat :=
    ar (module_address (sh_module_id h)) (module_name (sh_module_id h)) (sh_struct_name h).

Fixpoint token_arity_ok (t : MoveAbiSignatureToken) : bool :=
    match t with
    | Tok_Vector t | Tok_Reference t | Tok_MutableReference t => token_arity_ok t
    | Tok_Struct h => bool_decide (length (sh_type_parameters h) = handle_arity h)
    | Tok_StructInstantiation h args =>
        bool_decide (length args = handle_arity h) && forallb token_arity_ok args
    | _ => true
    end.
End arity.

(** ** Merging *)
Lemma merge_entries_Some acc l r :
  merge_entries acc l = Some r →
  acc ⊆ r ∧ (∀ i t, (i, t) ∈ l → r !! i = Some t) ∧
  (∀ i, is_Some (r !! i) → is_Some (acc !! i) ∨ i ∈ l.*1).
Proof.
  revert acc. induction l as [|[i t] l IH]; intros acc Hr; simpl in Hr.
  { simplify_eq. split_and!; [done| |auto]. intros ? ? Hin. by apply elem_of_nil in Hin. }
  assert (merge_entries (<[i:=t]> acc) l = Some r ∧ acc ⊆ <[i:=t]> acc) as [H Hsub].
  { destruct (acc !! i) as [t'|] eqn:E; [|split; [done|by apply insert_subseteq]].
    case_decide; simplify_eq. split; [done|]. by rewrite insert_id. }
  destruct (IH _ H) as (H1 & H2 & H3). split_and!.
  - by transitivity (<[i:=t]> acc).
  - intros j u [[= -> ->]|Hin]%elem_of_cons; [|by apply H2].
    eapply lookup_weaken; [|exact H1]. apply lookup_insert_eq.
  - intros j Hj. destruct (H3 j Hj) as [[u Hu]|Hin]; [|right; set_solver].
    destruct (decide (i = j)) as [->|Hne]; [right; set_solver|].
    left. rewrite lookup_insert_ne in Hu by done. eauto.
Qed.

Lemma merge_entries_complete acc l M :
  acc ⊆ M → (∀ i t, (i, t) ∈ l → M !! i = Some t) →
  ∃ r, merge_entries acc l = Some r ∧ r ⊆ M.
Proof.
  revert acc. induction l as [|[i t] l IH]; intros acc Hacc Hl; simpl; [eauto|].
  assert (M !! i = Some t) as Hi by (apply Hl; set_solver).
  assert (<[i:=t]> acc ⊆ M) as Hins by (by apply insert_subseteq_l).
  destruct (IH (<[i:=t]> acc) Hins) as (r & Hr & HrM).
  { intros; apply Hl; set_solver. }
  exists r. split; [|done]. destruct (acc !! i) as [t'|] eqn:E; [|done].
  rewrite decide_True; [done|]. apply (lookup_weaken _ M) in E; [|done]. congruence.
Qed.

Lemma merge_ty_args_Some acc sub r :
  merge_ty_args acc sub = Some r →
  acc ⊆ r ∧ sub ⊆ r ∧ (∀ i, is_Some (r !! i) ↔ is_Some (acc !! i) ∨ is_Some (sub !! i)).
Proof.
  intros (H1 & H2 & H3)%merge_entries_Some.
  assert (sub ⊆ r) as Hsub.
  { apply map_subseteq_spec. intros i t Hi. by apply H2, elem_of_btree_iter. }
  split_and!; [done|done|]. intros i. split.
  - intros [?|Hin]%H3; [by left|]. right. apply list_elem_of_fmap in Hin as ([j t] & -> & Hin).
    apply elem_of_btree_iter in Hin. by eexists.
  - intros [[t Ht]|[t Ht]]; exists t; by eapply lookup_weaken.
Qed.

Lemma merge_ty_args_complete acc sub M :
  acc ⊆ M → sub ⊆ M → ∃ r, merge_ty_args acc sub = Some r ∧ r ⊆ M.
Proof.
  intros H1 H2. apply merge_entries_complete; [done|].
  intros i t Hin%elem_of_btree_iter. by eapply lookup_weaken.
Qed.

(** ** Substitution *)
Lemma subst_mono m1 m2 t g : m1 ⊆ m2 → subst m1 t = Some g → subst m2 t = Some g.
Proof.
  intros Hsub. revert g. induction t as [| | | | | | | | |t IH|h|h args IH|i a|t IH|t IH]
    using MoveAbiSignatureToken_ind; intros g Hg; simpl in *; try done; eauto.
  - apply fmap_Some in Hg as (g' & Hg' & ->). by rewrite (IH _ Hg').
  - apply bind_Some in Hg as (tys & Htys & [= <-]).
    assert (mapM (subst m2) args = Some tys) as ->; [|done].
    apply mapM_Some in Htys. apply mapM_Some.
    induction Htys as [|x y l k Hxy _ IHl]; decompose_Forall_hyps; constructor; auto.
  - by eapply lookup_weaken.
Qed.

Lemma subst_lossy m g : subst m (from_type_tag_lossy g) = Some g.
Proof.
  induction g as [| | | | | | |g IH| | |a mo n tys IH] using MoveTypeTag_ind; simpl; try done.
  - by rewrite IH.
  - destruct tys as [|ty tys]; [done|].
    assert (mapM (subst m) (map from_type_tag_lossy (ty :: tys)) = Some (ty :: tys)) as Hm.
    { apply mapM_Some. clear -IH. induction IH; constructor; auto. }
    cbn [map] in *. cbn [subst]. by rewrite Hm.
Qed.

Lemma subst_partial_subst m1 m2 t : subst m2 (partial_subst m1 t) = subst (m1 ∪ m2) t.
Proof.
  induction t as [| | | | | | | | |t IH|h|h args IH|i a|t IH|t IH]
    using MoveAbiSignatureToken_ind; simpl; try done.
  - by rewrite IH.
  - assert (mapM (subst m2) (map (partial_subst m1) args) = mapM (subst (m1 ∪ m2)) args) as ->;
      [|done].
    induction IH as [|x l Hx _ IHl]; simpl; [done|]. by rewrite Hx, IHl.
  - rewrite lookup_union. destruct (m1 !! i) as [g|] eqn:E; simpl.
    + rewrite subst_lossy. by destruct (m2 !! i).
    + by destruct (m2 !! i).
Qed.

(** Only the parameters a token contains matter. *)
Lemma subst_agree m1 m2 t :
  (∀ i, contains_type_param i t = true → m1 !! i = m2 !! i) → subst m1 t = subst m2 t.
Proof.
  induction t as [| | | | | | | | |t IH|h|h args IH|i a|t IH|t IH]
    using MoveAbiSignatureToken_ind; simpl; intros Hag; try done; auto.
  - by rewrite IH.
  - assert (mapM (subst m1) args = mapM (subst m2) args) as ->; [|done].
    apply mapM_ext_Forall. apply Forall_forall. intros x Hx.
    rewrite Forall_forall in IH. apply IH; [done|]. intros i Hi. apply Hag.
    apply existsb_exists. exists x. split; [by apply list_elem_of_In|done].
  - apply Hag. by rewrite N.eqb_refl.
Qed.

(** ** Matching: lemmas *)
Lemma struct_matches_tag h tag :
  struct_matches h tag = true → Tag_Struct tag = struct_tag_of h (st_tys tag).
Proof.
  unfold struct_matches, struct_tag_of. intros H. bool_hyps. destruct tag. simpl in *. congruence.
Qed.

Lemma struct_matches_of h tys : struct_matches h (MkStructTag (module_address (sh_module_id h))
  (module_name (sh_module_id h)) (sh_struct_name h) tys) = true.
Proof. unfold struct_matches. simpl. by rewrite !bool_decide_eq_true_2. Qed.

(** The bindings of an extraction are exactly the parameters of the token;
    [zip] may drop trailing type arguments, so this needs the arities. *)
Lemma extract_zip_Some f acc args tys r :
  extract_zip f acc args tys = Some r → length args = length tys →
  acc ⊆ r ∧ Forall2 (λ a t, ∃ s, f a t = Some s ∧ s ⊆ r) args tys.
Proof.
  revert acc tys. induction args as [|a args IH]; intros acc [|t tys] Hr Hlen; simplify_eq/=.
  { split; [done|constructor]. }
  apply bind_Some in Hr as (s & Hs & (acc' & Hm & Hr)%bind_Some).
  destruct (merge_ty_args_Some _ _ _ Hm) as (Ha & Hsub & _).
  destruct (IH _ _ Hr) as (H1 & H2); [congruence|].
  split; [by transitivity acc'|]. constructor; [|done].
  exists s. split; [done|]. by transitivity acc'.
Qed.

Lemma extract_zip_dom f acc args tys r i :
  extract_zip f acc args tys = Some r → is_Some (r !! i) →
  is_Some (acc !! i) ∨ ∃ a t s, a ∈ args ∧ f a t = Some s ∧ is_Some (s !! i).
Proof.
  revert acc tys. induction args as [|a args IH]; intros acc [|t tys] Hr Hi; simplify_eq/=; auto.
  apply bind_Some in Hr as (s & Hs & (acc' & Hm & Hr)%bind_Some).
  destruct (merge_ty_args_Some _ _ _ Hm) as (_ & _ & Hd).
  destruct (IH _ _ Hr Hi) as [[?|?]%Hd|(b & u & s' & Hb & Hu & Hs')]; [by left| |].
  - right. exists a, t, s. set_solver.
  - right. exists b, u, s'. set_solver.
Qed.

Lemma extract_zip_complete f acc args tys M :
  acc ⊆ M → Forall2 (λ a t, ∃ s, f a t = Some s ∧ s ⊆ M) args tys →
  ∃ r, extract_zip f acc args tys = Some r ∧ r ⊆ M.
Proof.
  intros Hacc H. revert acc Hacc.
  induction H as [|a t args tys (s & Hs & Hsub) _ IH]; intros acc Hacc; simpl; [eauto|].
  rewrite Hs. simpl. destruct (merge_ty_args_complete acc s M Hacc Hsub) as (acc' & -> & Hacc').
  simpl. by apply IH.
Qed.

Lemma extract_sound ar t g m :
  token_arity_ok ar t = true → tag_arity_ok ar g = true →
  extract_ty_args t g = Some m → subst m t = Some g.
Proof.
  revert g m. induction t as [| | | | | | | | |t IH|h|h args IH|i a|t IH|t IH]
    using MoveAbiSignatureToken_ind; intros g m Ht Hg Hm.
  all: try (destruct g; simplify_eq/=; try done; fail).
  - destruct g; simplify_eq/=. by rewrite (IH _ _ Ht Hg Hm).
  - destruct g as [| | | | | | | | | |tag]; simplify_eq/=.
    destruct (struct_matches h tag) eqn:Hst; simplify_eq/=.
    destruct (sh_type_parameters h) eqn:Hp; simplify_eq/=. bool_hyps.
    f_equal. rewrite (struct_matches_tag _ _ Hst). f_equal.
    apply symmetry, length_zero_iff_nil.
    unfold struct_matches, handle_arity in *. bool_hyps. simpl in *. congruence.
  - destruct g as [| | | | | | | | | |tag]; simplify_eq/=.
    destruct (struct_matches h tag) eqn:Hst; simplify_eq/=. bool_hyps.
    destruct (extract_zip_Some _ _ _ _ _ Hm) as (_ & Hall).
    { unfold struct_matches, handle_arity in *. bool_hyps. congruence. }
    rewrite (struct_matches_tag _ _ Hst). apply bind_Some. exists (st_tys tag).
    split; [|done]. apply mapM_Some. rewrite forallb_forall in *.
    apply Forall2_same_length_lookup_2; [by eapply Forall2_length|].
    intros i x y Hx Hy. destruct (Forall2_lookup_lr _ _ _ _ _ _ Hall Hx Hy) as (s & Hs & Hsub).
    eapply subst_mono; [exact Hsub|].
    apply list_elem_of_lookup_2, list_elem_of_In in Hy.
    eapply (Forall_lookup_1 _ _ _ _ IH Hx); [|by eauto|exact Hs].
    by eapply list_elem_of_lookup_2, list_elem_of_In in Hx; eauto.
  - simplify_eq/=. apply lookup_singleton_eq.
  - simplify_eq/=. eauto.
  - simplify_eq/=. eauto.
Qed.

Lemma subst_Some_params m t g i :
  subst m t = Some g → contains_type_param i t = true → is_Some (m !! i).
Proof.
  revert g. induction t as [| | | | | | | | |t IH|h|h args IH|j a|t IH|t IH]
    using MoveAbiSignatureToken_ind; intros g Hg Hi; simpl in *; try done; eauto.
  - apply fmap_Some in Hg as (g' & Hg' & _). eauto.
  - apply bind_Some in Hg as (tys & Htys & _). apply mapM_Some in Htys.
    apply existsb_exists in Hi as (x & Hx & Hi). apply list_elem_of_In in Hx.
    rewrite Forall_forall in IH. apply list_elem_of_lookup in Hx as [k Hk].
    destruct (Forall2_lookup_l _ _ _ _ _ Htys Hk) as (y & _ & Hy).
    eapply IH; eauto using list_elem_of_lookup_2.
  - apply N.eqb_eq in Hi as ->. eauto.
Qed.

Lemma extract_params t g m i :
  extract_ty_args t g = Some m → is_Some (m !! i) → contains_type_param i t = true.
Proof.
  revert g m. induction t as [| | | | | | | | |t IH|h|h args IH|j a|t IH|t IH]
    using MoveAbiSignatureToken_ind; intros g m Hm Hi.
  all: try (destruct g; simplify_eq/=; by destruct Hi).
  - destruct g; simplify_eq/=. eauto.
  - destruct g; simplify_eq/=. destruct (negb _); [done|].
    destruct (sh_type_parameters h); simplify_eq. by destruct Hi.
  - destruct g; simplify_eq/=. destruct (negb _); [done|].
    destruct (extract_zip_dom _ _ _ _ _ _ Hm Hi) as [[? []%lookup_empty_Some]|Hx].
    destruct Hx as (a & t & s & Ha & Hs & Hsi). apply existsb_exists. exists a.
    split; [by apply list_elem_of_In|]. rewrite Forall_forall in IH. eauto.
  - simplify_eq/=. destruct Hi as [u Hu]. apply lookup_singleton_Some in Hu as [-> _].
    by rewrite N.eqb_refl.
  - simpl in *. eauto.
  - simpl in *. eauto.
Qed.

Lemma extract_complete m t g :
  subst m t = Some g → ∃ m', extract_ty_args t g = Some m' ∧ m' ⊆ m.
Proof.
  revert g. induction t as [| | | | | | | | |t IH|h|h args IH|i a|t IH|t IH]
    using MoveAbiSignatureToken_ind; intros g Hg; simpl in Hg; simplify_eq/=; eauto.
  all: try (exists ∅; split; [done|apply map_empty_subseteq]; fail).
  - apply fmap_Some in Hg as (g' & Hg' & ->). eauto.
  - destruct (sh_type_parameters h) eqn:Hp; simplify_eq/=.
    rewrite struct_matches_of. simpl. exists ∅. split; [done|apply map_empty_subseteq].
  - apply bind_Some in Hg as (tys & Htys & [= <-]). simpl. rewrite struct_matches_of. simpl.
    apply extract_zip_complete; [apply map_empty_subseteq|]. apply mapM_Some in Htys.
    induction Htys as [|x y l k Hxy _ IHl]; decompose_Forall_hyps; constructor; auto.
  - exists {[ i := g ]}. split; [done|]. by apply map_singleton_subseteq_l.
Qed.

(** ** Unification: lemmas *)
Section unify.
  Variables σ1 σ2 : TyArgs.

  (** [σ1] and [σ2] satisfy a unifier. *)
Definition satisfies (u : Unifier) : Prop :=
    u.1.1 ⊆ σ1 ∧ u.1.2 ⊆ σ2 ∧ ∀ i j, (i, j) ∈ u.2 → σ1 !! i = σ2 !! j.

Lemma partial_zip_satisfies f acc args args' u :
    partial_zip f acc args args' = Some u → satisfies u → length args = length args' →
    satisfies acc ∧ Forall2 (λ a b, ∃ v, f a b = Some v ∧ satisfies v) args args'.
  Proof.
    revert acc args'. induction args as [|a args IH]; intros acc [|b args'] Hu Hsat Hlen;
      simplify_eq/=; [done|].
    apply bind_Some in Hu as ([[s o] m] & Hf & (s' & Hs & (o' & Ho & Hu)%bind_Some)%bind_Some).
    destruct (IH _ _ Hu Hsat) as [(H1 & H2 & H3) Hall]; [congruence|]. simpl in *.
    destruct (merge_ty_args_Some _ _ _ Hs) as (? & ? & _).
    destruct (merge_ty_args_Some _ _ _ Ho) as (? & ? & _).
    split.
    - split_and!; [by etransitivity|by etransitivity|]. intros i j Hin. apply H3. set_solver.
    - constructor; [|done]. exists (s, o, m). split; [done|]. split_and!; simpl;
        [by etransitivity|by etransitivity|]. intros i j Hin. apply H3. set_solver.
  Qed.

Lemma subst_closed σ t g : subst ∅ t = Some g → subst σ t = Some g.
  Proof. apply subst_mono, map_empty_subseteq. Qed.

Lemma param_l_satisfies i other u :
    (t ← subst ∅ other; Some ({[i := t]}, ∅, [])) = Some u → satisfies u →
    σ1 !! i = subst σ2 other.
  Proof.
    intros (g & Hg & [= <-])%bind_Some (H1 & _ & _). apply (subst_closed σ2) in Hg.
    rewrite Hg. by apply map_singleton_subseteq_l.
  Qed.

Lemma param_r_satisfies j self u :
    (t ← subst ∅ self; Some (∅, {[j := t]}, [])) = Some u → satisfies u →
    subst σ1 self = σ2 !! j.
  Proof.
    intros (g & Hg & [= <-])%bind_Some (_ & H2 & _). apply (subst_closed σ1) in Hg.
    rewrite Hg. symmetry. by apply map_singleton_subseteq_l.
  Qed.

Lemma partial_extract_sound self other u :
    partial_extract_ty_args self other = Some u → satisfies u →
    subst σ1 self = subst σ2 other.
  Proof.
    revert other u. induction self as [| | | | | | | | |t IH|h|h args IH|i a|t IH|t IH]
      using MoveAbiSignatureToken_ind; intros other u Hu Hsat.
    all: destruct other as [| | | | | | | | |t'|h'|h' args'|j a'|t'|t'];
      try reflexivity;
      try (cbn [partial_extract_ty_args] in Hu; case_decide; congruence);
      try match goal with
      | |- subst _ ?s = subst _ (Tok_TypeParameter ?j _) =>
          exact (param_r_satisfies j s u Hu Hsat)
      | |- subst _ (Tok_TypeParameter ?i _) = subst _ ?o =>
          exact (param_l_satisfies i o u Hu Hsat)
      end;
      try exact (IH _ _ Hu Hsat).
    - simpl. by rewrite (IH t' u Hu Hsat).
    - simpl in Hu. destruct (_ || _ || _) eqn:E; [done|]. bool_hyps. apply Nat.eqb_eq in H0.
      simpl. unfold struct_tag_of. apply dec_stable in H, H1. rewrite H, H1.
      destruct (sh_type_parameters h), (sh_type_parameters h'); done.
    - simpl in Hu. destruct (_ || _ || _) eqn:E; [done|]. bool_hyps. apply Nat.eqb_eq in H0.
      destruct (partial_zip_satisfies _ _ _ _ _ Hu Hsat H0) as [_ Hall].
      simpl. unfold struct_tag_of. apply dec_stable in H, H1. rewrite H, H1.
      assert (mapM (subst σ1) args = mapM (subst σ2) args') as ->; [|done].
      clear Hu H0. induction Hall as [|x y l k (v & Hv & Hs) _ IHl]; [done|].
      apply Forall_cons in IH as [Hx Hl]. simpl. rewrite (Hx _ _ Hv Hs). by rewrite IHl.
    - simplify_eq/=. apply Hsat. set_solver.
  Qed.
End unify.

(** ** Properties *)

(** C6: on arity-consistent types, [extract_ty_args] succeeds with [m] exactly
    when [m] is the substitution of the token's own type parameters that
    instantiates the token to the given concrete type: matching and
    substitution are inverse to each other. *)
Theorem extract_ty_args_iff_subst ar t g m :
  token_arity_ok ar t = true → tag_arity_ok ar g = true →
  extract_ty_args t g = Some m ↔
  subst m t = Some g ∧ ∀ i, is_Some (m !! i) ↔ contains_type_param i t = true.
Proof.
  intros Ht Hg. split.
  - intros Hm. pose proof (extract_sound _ _ _ _ Ht Hg Hm) as Hs. split; [done|].
    intros i. split; [by eapply extract_params|by eapply subst_Some_params].
  - intros [Hs Hdom]. destruct (extract_complete _ _ _ Hs) as (m' & Hm' & Hsub).
    pose proof (extract_sound _ _ _ _ Ht Hg Hm') as Hs'.
    rewrite Hm'. f_equal. apply map_eq. intros i.
    destruct (m !! i) as [ty|] eqn:E.
    + destruct (subst_Some_params _ _ _ i Hs') as [ty' Hi]; [apply Hdom; eauto|].
      rewrite Hi. pose proof (lookup_weaken _ _ _ _ Hi Hsub). congruence.
    + by eapply lookup_weaken_None.
Qed.

(** [extract_ty_args] is complete: whatever instantiation [m] turns the
    token into the concrete type, extraction succeeds and finds no more than
    the bindings of [m] - without any assumption on arities. *)
Theorem extract_ty_args_complete m t g :
  subst m t = Some g →
  ∃ m', extract_ty_args t g = Some m' ∧ m' ⊆ m ∧
    ∀ i, is_Some (m' !! i) → contains_type_param i t = true.
Proof.
  intros (m' & Hm' & Hsub)%extract_complete. exists m'. split_and!; [done|done|].
  intros i. by eapply extract_params.
Qed.

(** Unification is sound: if a consumer parameter unifies with a producer
    return type, then every pair of instantiations that extends the computed
    bindings and agrees on the mapped parameters makes both types the same
    concrete type. *)
Theorem partial_extract_ty_args_sound self other s o mapping σ1 σ2 :
  partial_extract_ty_args self other = Some (s, o, mapping) →
  s ⊆ σ1 → o ⊆ σ2 → (∀ i j, (i, j) ∈ mapping → σ1 !! i = σ2 !! j) →
  subst σ1 self = subst σ2 other.
Proof. intros Hu H1 H2 H3. eapply partial_extract_sound; [exact Hu|by split_and!]. Qed.

(** Partial substitution composes: substituting first some and then the
    remaining type arguments is substituting the (left-biased) union at once,
    and the lossy token of a concrete type always substitutes back to it. *)
Theorem partial_subst_compose m1 m2 t g :
  subst m2 (partial_subst m1 t) = subst (m1 ∪ m2) t ∧
  subst m2 (from_type_tag_lossy g) = Some g.
Proof. split; [apply subst_partial_subst|apply subst_lossy]. Qed.

(** ** Witnesses *)
Definition coin_handle : MoveStructHandle :=
  MkStructHandle (MkModuleId addr_two "coin") "Coin" (N.lor ability_KEY ability_STORE)
    [{| tp_constraints := 0%N; tp_phantom := true |}].
Definition sui_tag : MoveTypeTag := Tag_Struct (MkStructTag addr_two "sui" "SUI" []).
Definition coin_of (t : MoveTypeTag) : MoveTypeTag :=
  Tag_Struct (MkStructTag addr_two "coin" "Coin" [t]).
Definition coin_arity (a : MoveAddress) (m n : string) : nat :=
  if decide (n = "Coin") then 1 else 0.

Definition coin_T0 : MoveAbiSignatureToken :=
  Tok_MutableReference (Tok_StructInstantiation coin_handle [Tok_TypeParameter 0%N 0%N]).

Lemma extract_ty_args_iff_subst_witness :
  extract_ty_args coin_T0 (coin_of sui_tag) = Some {[ 0%N := sui_tag ]} ∧
  subst {[ 0%N := sui_tag ]} coin_T0 = Some (coin_of sui_tag).
Proof.
  split; [vm_compute; reflexivity|].
  apply (extract_ty_args_iff_subst coin_arity coin_T0 (coin_of sui_tag) {[ 0%N := sui_tag ]});
    vm_compute; reflexivity.
Defined.

Lemma extract_ty_args_complete_witness :
  ∃ m', extract_ty_args coin_T0 (coin_of Tag_U64) = Some m' ∧ m' ⊆ {[ 0%N := Tag_U64 ]} ∧
    ∀ i, is_Some (m' !! i) → contains_type_param i coin_T0 = true.
Proof. apply extract_ty_args_complete. vm_compute. reflexivity. Defined.

Lemma partial_extract_ty_args_sound_witness :
  subst {[ 0%N := sui_tag ]} coin_T0 =
  subst {[ 3%N := sui_tag ]} (Tok_StructInstantiation coin_handle [Tok_TypeParameter 3%N 0%N]).
Proof.
  apply (partial_extract_ty_args_sound _ _ ∅ ∅ [(0%N, 3%N)]).
  - vm_compute. reflexivity.
  - apply map_empty_subseteq.
  - apply map_empty_subseteq.
  - intros i j [= -> ->]%list_elem_of_singleton. reflexivity.
Defined.
