(* ===== verification/Text.v ===== *)
(** * Text: printing and parsing of identifiers, types and sequences

    The [Display] and [FromStr] implementations of
    [crates/movy-types/src/input.rs] and of [MoveModuleId] in [abi.rs]. The hex
    form of addresses is printed and parsed by [sui_types]: [AddressText] is
    that interface, [hex_text] a concrete instance. *)
From S2P Require Import Prelude Types.
From stdpp Require Import pretty.
From Stdlib Require Import Ascii.
From Stdlib Require String.
Local Open Scope string_scope.

(** ** Strings *)

(** [s.split("::").collect()] *)
Fixpoint split_colons (s : string) : list string :=
  match s with
  | "" => [""]
  | String c s' =>
      match s' with
      | "" => [String c ""]
      | String c' s'' =>
          if Ascii.eqb c ":"%char && Ascii.eqb c' ":"%char then "" :: split_colons s''
          else match split_colons s' with
               | h :: t => String c h :: t
               | [] => [String c ""]
               end
      end
  end.

(** [s.trim_start_matches('0')] *)
Fixpoint trim_zeros (s : string) : string :=
  match s with
  | String c s' => if Ascii.eqb c "0"%char then trim_zeros s' else s
  | "" => ""
  end.

(** [iter.join(sep)] *)
Definition join (sep : string) (l : list string) : string := String.concat sep l.

Definition show_bool (b : bool) : string := if b then "true" else "false".
Definition show_N (n : N) : string := pretty n.

(** ** Addresses *)
Class AddressText := {
  to_canonical_string : bool → MoveAddress → string;
  object_id_from_str : string → option MoveAddress;
  show_object_id : MoveAddress → string;
  show_sequence_number : N → string;
  parse_canonical a : (addr_val a < 2 ^ 256)%N → object_id_from_str (to_canonical_string true a) = Some a;
  canonical_no_colon p a c : c ∈ String.list_ascii_of_string (to_canonical_string p a) → c ≠ ":"%char;
}.

Section text.
Context `{AT : AddressText}.

(** [canonical_short]: the canonical hex without leading zeros. *)
Definition address_canonical_short (a : MoveAddress) : string :=
  let canonical := to_canonical_string false a in
  let stripped := trim_zeros canonical in
  if bool_decide (stripped = "") then "0x0" else "0x" +:+ stripped.

Definition address_from_str (s : string) : option MoveAddress := object_id_from_str s.
Definition show_address (a : MoveAddress) : string := to_canonical_string true a.

(** ** Identifiers *)
Definition show_module_id (m : MoveModuleId) : string :=
  show_address (module_address m) +:+ "::" +:+ module_name m.
Definition module_to_canonical_string (prefix : bool) (m : MoveModuleId) : string :=
  to_canonical_string prefix (module_address m) +:+ "::" +:+ module_name m.
Definition module_canonical_short (m : MoveModuleId) : string :=
  address_canonical_short (module_address m) +:+ "::" +:+ module_name m.

Definition module_id_from_str (s : string) : option MoveModuleId :=
  match split_colons s with
  | [a; m] => module_address ← address_from_str a; Some (MkModuleId module_address m)
  | _ => None
  end.

Definition show_function_ident (f : FunctionIdent) : string :=
  show_module_id (fi_module f) +:+ "::" +:+ fi_name f.

Definition function_ident_from_str (s : string) : option FunctionIdent :=
  match split_colons s with
  | [a; m; f] =>
      module_address ← address_from_str a;
      Some (MkFunctionIdent (MkModuleId module_address m) f)
  | _ => None
  end.

(** ** Types *)
Definition show_type_args (tys : list string) : string :=
  match tys with [] => "" | _ => "<" +:+ join ", " tys +:+ ">" end.

Fixpoint show_type (t : MoveTypeTag) : string :=
  match t with
  | Tag_Bool => "bool" | Tag_U8 => "u8" | Tag_U16 => "u16" | Tag_U32 => "u32"
  | Tag_U64 => "u64" | Tag_U128 => "u128" | Tag_U256 => "u256"
  | Tag_Address => "address" | Tag_Signer => "signer"
  | Tag_Vector inner => "vector<" +:+ show_type inner +:+ ">"
  | Tag_Struct tag =>
      show_address (st_address tag) +:+ "::" +:+ st_module tag +:+ "::" +:+ st_name tag
        +:+ show_type_args (map show_type (st_tys tag))
  end.

Definition show_struct_tag (tag : MoveStructTag) : string :=
  show_address (st_address tag) +:+ "::" +:+ st_module tag +:+ "::" +:+ st_name tag
    +:+ show_type_args (map show_type (st_tys tag)).

(** The addresses and struct types inside a type. *)
Fixpoint flat_addresses (t : MoveTypeTag) : list MoveAddress :=
  match t with
  | Tag_Struct s => flat_map flat_addresses (st_tys s) ++ [st_address s]
  | Tag_Vector inner => flat_addresses inner
  | _ => []
  end.

Fixpoint flat_structs (t : MoveTypeTag) : list MoveStructTag :=
  match t with
  | Tag_Struct st => st :: flat_map flat_structs (st_tys st)
  | Tag_Vector st => flat_structs st
  | _ => []
  end.

(** ** Arguments and commands *)
Definition show_object_arg (o : SuiObjectInputArgument) : string :=
  match o with
  | ImmOrOwnedObject (id, _, _) => "ImmOrOwnedObject(" +:+ show_object_id id +:+ ")"
  | Receiving (id, _, _) => "Receiving(" +:+ show_object_id id +:+ ")"
  | SharedObject id v m =>
      "SharedObject(" +:+ show_object_id id +:+ ", version=" +:+ show_sequence_number v
        +:+ ", mutable=" +:+ show_bool m +:+ ")"
  end.

Fixpoint show_input (v : InputArgument) : string :=
  match v with
  | Arg_Bool v => "Bool(" +:+ show_bool v +:+ ")"
  | Arg_U8 v => "U8(" +:+ show_N v +:+ ")"
  | Arg_U16 v => "U16(" +:+ show_N v +:+ ")"
  | Arg_U32 v => "U32(" +:+ show_N v +:+ ")"
  | Arg_U64 v => "U64(" +:+ show_N v +:+ ")"
  | Arg_U128 v => "U128(" +:+ show_N v +:+ ")"
  | Arg_U256 v => "U256(" +:+ show_N v +:+ ")"
  | Arg_Vector ty values =>
      "Vector<" +:+ show_type ty +:+ ">[" +:+ join ", " (map show_input values) +:+ "]"
  | Arg_Signer a => "Signer(" +:+ show_address a +:+ ")"
  | Arg_Address a => "Address(" +:+ show_address a +:+ ")"
  | Arg_Object ty obj => "Object<" +:+ show_type ty +:+ ">(" +:+ show_object_arg obj +:+ ")"
  end.

Definition show_arg (a : SequenceArgument) : string :=
  match a with
  | GasCoin => "GasCoin"
  | Input idx => "Input(" +:+ show_N idx +:+ ")"
  | Result idx => "Result(" +:+ show_N idx +:+ ")"
  | NestedResult m n => "NestedResult(" +:+ show_N m +:+ ", " +:+ show_N n +:+ ")"
  end.

Definition fmt_call_with (fmt_arg : SequenceArgument → string) (mc : MoveCall) : string :=
  show_address (mc_module_id mc) +:+ "::" +:+ mc_module_name mc +:+ "::" +:+ mc_function mc
    +:+ show_type_args (map show_type (mc_type_arguments mc))
    +:+ "(" +:+ join ", " (map fmt_arg (mc_arguments mc)) +:+ ")".

Definition fmt_command_with (fmt_arg : SequenceArgument → string) (c : MoveSequenceCall) :
    string :=
  let fmt_args args := join ", " (map fmt_arg args) in
  match c with
  | Call mc => "MoveCall(" +:+ fmt_call_with fmt_arg mc +:+ ")"
  | TransferObjects args dst =>
      "TransferObjects([" +:+ fmt_args args +:+ "], " +:+ fmt_arg dst +:+ ")"
  | SplitCoins src amounts => "SplitCoins(" +:+ fmt_arg src +:+ ", [" +:+ fmt_args amounts +:+ "])"
  | MergeCoins dst srcs => "MergeCoins(" +:+ fmt_arg dst +:+ ", [" +:+ fmt_args srcs +:+ "])"
  | Publish modules deps =>
      "Publish(" +:+ pretty (length modules) +:+ " modules, ["
        +:+ join ", " (map show_address deps) +:+ "])"
  | MakeMoveVec ty args => "MakeMoveVec(" +:+ show_type ty +:+ ", [" +:+ fmt_args args +:+ "])"
  | Upgrade modules deps package ticket =>
      "Upgrade(" +:+ pretty (length modules) +:+ " modules, ["
        +:+ join ", " (map show_address deps) +:+ "], " +:+ show_address package +:+ ", "
        +:+ fmt_arg ticket +:+ ")"
  end.

(** An input argument is printed with its value, when it has one. *)
Definition fmt_arg_in (inputs : list string) (a : SequenceArgument) : string :=
  match a with
  | Input idx =>
      match inputs !! N.to_nat idx with
      | Some v => "Input(" +:+ show_N idx +:+ ", " +:+ v +:+ ")"
      | None => "Input(" +:+ show_N idx +:+ ")"
      end
  | _ => show_arg a
  end.

Definition newline_tab : string := String "010" (String "009" "").
Definition newline : string := String "010" "".

Definition show_sequence (s : MoveSequence) : string :=
  let inputs := map show_input (seq_inputs s) in
  let calls := map (fmt_command_with (fmt_arg_in inputs)) (seq_commands s) in
  let display l := match l with [] => "<none>" | _ => join newline_tab l end in
  "Inputs:" +:+ newline_tab +:+ display inputs +:+ newline +:+ "Commands:" +:+ newline_tab
    +:+ display calls.


(** ** Splitting what was joined *)
Definition no_colon (s : string) : Prop :=
  ∀ c, c ∈ String.list_ascii_of_string s → c ≠ ":"%char.

Lemma string_app_assoc (s t u : string) : (s +:+ t) +:+ u = s +:+ t +:+ u.
Proof. induction s as [|c s IH]; [done|].
  change (String c ((s +:+ t) +:+ u) = String c (s +:+ t +:+ u)). by rewrite IH.
Qed.

Lemma no_colon_cons c s : no_colon (String c s) → c ≠ ":"%char ∧ no_colon s.
Proof. unfold no_colon. simpl. set_solver. Qed.

Lemma split_colons_plain s : no_colon s → split_colons s = [s].
Proof.
  induction s as [|c s IH]; [done|]. intros [Hc Hs]%no_colon_cons. simpl.
  destruct s as [|c' s']; [done|].
  destruct (Ascii.eqb_spec c ":"%char); [done|]. simpl andb. cbv iota. by rewrite IH.
Qed.

Lemma split_colons_app s rest :
  no_colon s → split_colons (s +:+ "::" +:+ rest) = s :: split_colons rest.
Proof.
  induction s as [|c s IH]; [done|]. intros [Hc Hs]%no_colon_cons.
  change (String c s +:+ "::" +:+ rest) with (String c (s +:+ "::" +:+ rest)).
  specialize (IH Hs). remember (s +:+ "::" +:+ rest) as tl eqn:Etl.
  simpl. destruct tl as [|c' s']; [by destruct s|].
  destruct (Ascii.eqb_spec c ":"%char); [done|]. simpl andb. cbv iota. by rewrite IH.
Qed.

(** Identifiers survive printing and parsing: the text of a module id and
    of a function identifier parses back to it, for every address and all
    names without a colon; and a text with any other number of [::]-separated
    parts is rejected. *)
Theorem ident_round_trip (f : FunctionIdent) :
  (addr_val (module_address (fi_module f)) < 2 ^ 256)%N →
  no_colon (module_name (fi_module f)) → no_colon (fi_name f) →
  module_id_from_str (show_module_id (fi_module f)) = Some (fi_module f) ∧
  function_ident_from_str (show_function_ident f) = Some f ∧
  (∀ s, length (split_colons s) ≠ 3 → function_ident_from_str s = None).
Proof.
  intros Ha Hm Hf. destruct f as [[a m] n]; simpl in *.
  assert (no_colon (show_address a)) as Hna by (intros c; apply canonical_no_colon).
  split_and!.
  - unfold module_id_from_str, show_module_id. simpl.
    rewrite split_colons_app, split_colons_plain by done.
    unfold address_from_str, show_address. by rewrite parse_canonical.
  - unfold function_ident_from_str, show_function_ident, show_module_id. simpl.
    rewrite !string_app_assoc. rewrite !split_colons_app, split_colons_plain by done.
    unfold address_from_str, show_address. by rewrite parse_canonical.
  - intros s Hs. unfold function_ident_from_str.
    by destruct (split_colons s) as [|? [|? [|? [|]]]].
Qed.

Lemma elem_of_flat_map {A B} (f : A → list B) (l : list A) y :
  y ∈ flat_map f l ↔ ∃ x, x ∈ l ∧ y ∈ f x.
Proof.
  rewrite list_elem_of_In, in_flat_map. split; intros (x & Hx & Hy); exists x;
    rewrite ?list_elem_of_In in *; done.
Qed.

(** The addresses and structs collected from a type are those of its
    struct tags: an address is in [flat_addresses] exactly when some tag of
    [flat_structs] has it. *)
Theorem flat_addresses_structs t a :
  a ∈ flat_addresses t ↔ ∃ st, st ∈ flat_structs t ∧ st_address st = a.
Proof.
  induction t as [| | | | | | |t IH| | |ad m n tys IH] using MoveTypeTag_ind; simpl;
    try set_solver.
  rewrite Forall_forall in IH. rewrite elem_of_app, list_elem_of_singleton, elem_of_flat_map. split.
  - intros [(x & Hx & Ha)| ->]; [|eexists; split; [by left|done]].
    apply IH in Ha as (st & Hst & Ha); [|done]. exists st. split; [|done].
    right. apply elem_of_flat_map. eauto.
  - intros (st & [-> |(x & Hx & Hst)%elem_of_flat_map]%elem_of_cons & Ha); [by right|left].
    exists x. split; [done|]. apply IH; eauto.
Qed.
End text.

(** ** A concrete text form: [0x] and 64 hex digits *)
Definition hex_digit (n : N) : ascii := ascii_of_N (if (n <? 10)%N then 48 + n else 87 + n)%N.
Definition hex_value (c : ascii) : option N :=
  let n := N_of_ascii c in
  if ((48 <=? n) && (n <=? 57))%N then Some (n - 48)%N
  else if ((97 <=? n) && (n <=? 102))%N then Some (n - 87)%N else None.

Fixpoint hex_digits (k : nat) (n : N) (tl : string) : string :=
  match k with
  | O => tl
  | S k => hex_digits k (n / 16) (String (hex_digit (n mod 16)) tl)
  end.

Fixpoint hex_parse (s : string) (acc : N) : option N :=
  match s with
  | "" => Some acc
  | String c s => d ← hex_value c; hex_parse s (acc * 16 + d)%N
  end.

Lemma hex_digit_value n : (n < 16)%N → hex_value (hex_digit n) = Some n ∧ hex_digit n ≠ ":"%char.
Proof.
  intros Hn. rewrite <-(N2Nat.id n). assert (N.to_nat n < 16) as Hk by lia.
  revert Hk. generalize (N.to_nat n). intros k Hk.
  do 16 (destruct k as [|k]; [by vm_compute|]). lia.
Qed.

Lemma hex_parse_digits k n tl acc :
  (n < 16 ^ N.of_nat k)%N →
  hex_parse (hex_digits k n tl) acc = hex_parse tl (acc * 16 ^ N.of_nat k + n)%N.
Proof.
  revert n tl. induction k as [|k IH]; intros n tl Hn.
  - simpl. f_equal. change (16 ^ N.of_nat 0)%N with 1%N in *. lia.
  - rewrite Nat2N.inj_succ, N.pow_succ_r' in *. cbn [hex_digits].
    pose proof (N.div_mod' n 16). pose proof (N.mod_lt n 16).
    rewrite IH by (apply N.Div0.div_lt_upper_bound; lia). cbn [hex_parse].
    destruct (hex_digit_value (n mod 16)) as [-> _]; [lia|]. simpl. f_equal. lia.
Qed.

Lemma hex_digits_no_colon k n tl : no_colon tl → no_colon (hex_digits k n tl).
Proof.
  revert n tl. induction k as [|k IH]; intros n tl Htl; [done|]. apply IH.
  intros c. simpl. intros [->|Hc]%elem_of_cons; [|by apply Htl].
  apply hex_digit_value, N.mod_lt. done.
Qed.

Lemma no_colon_nil : no_colon "".
Proof. intros c Hc. by apply elem_of_nil in Hc. Qed.

#[export, refine] Instance hex_text : AddressText := {
  to_canonical_string p a := (if p then "0x" else "") +:+ hex_digits 64 (addr_val a) "";
  object_id_from_str s :=
    match s with
    | String "0" (String "x" s') => n ← hex_parse s' 0; Some (MkMoveAddress n)
    | _ => None
    end;
  show_object_id a := "0x" +:+ hex_digits 64 (addr_val a) "";
  show_sequence_number n := pretty n;
}.
Proof.
  - intros [a] Ha. simpl in Ha.
    change ((n ← hex_parse (hex_digits 64 a "") 0; Some (MkMoveAddress n)) = Some (MkMoveAddress a)).
    rewrite hex_parse_digits; [done|]. by change (16 ^ N.of_nat 64)%N with (2 ^ 256)%N.
  - intros p [a] c. destruct p; [|apply hex_digits_no_colon, no_colon_nil].
    change (c ∈ "0"%char :: "x"%char :: String.list_ascii_of_string (hex_digits 64 a "") → c ≠ ":"%char).
    intros [->|[->|Hc]%elem_of_cons]%elem_of_cons; [done|done|].
    revert Hc. apply hex_digits_no_colon, no_colon_nil.
Defined.

Definition mint_ident : FunctionIdent := FunctionIdent_new addr_two "coin" "mint".

Lemma ident_round_trip_witness :
  module_id_from_str (show_module_id (fi_module mint_ident)) = Some (fi_module mint_ident) ∧
  function_ident_from_str (show_function_ident mint_ident) = Some mint_ident ∧
  (∀ s, length (split_colons s) ≠ 3 → function_ident_from_str s = None).
Proof.
  apply (ident_round_trip mint_ident); [reflexivity|..];
    intros c Hc; vm_compute in Hc;
    repeat (apply elem_of_cons in Hc as [->|Hc]; [discriminate|]); by apply elem_of_nil in Hc.
Defined.
