(* ===== verification/Ptb.v ===== *)
(** * Ptb: from call sequences to programmable transactions

    The conversions of [crates/movy-types/src/input.rs] into Sui's types and
    [MoveSequence::to_ptb]. Sui's types are generic in how names are stored:
    [TypeOf string] is [TypeInput], [TypeOf Identifier] is [TypeTag].
    [PtbBuilder] is the interface of [ProgrammableTransactionBuilder] with its
    documented behaviour for values and objects it does not hold yet;
    [list_builder] is a concrete instance. *)
From S2P Require Import Prelude Types.

(** ** Sui's types *)
Record StructOf (Id T : Type) := MkStructOf {
  so_address : MoveAddress; so_module : Id; so_name : Id; so_type_params : list T }.
Arguments MkStructOf {Id T} _ _ _ _.
Arguments so_address {Id T} _.
Arguments so_module {Id T} _.
Arguments so_name {Id T} _.
Arguments so_type_params {Id T} _.

#[local] Unset Elimination Schemes.
Inductive TypeOf (Id : Type) :=
| Ty_Bool | Ty_U8 | Ty_U16 | Ty_U32 | Ty_U64 | Ty_U128 | Ty_U256 | Ty_Address | Ty_Signer
| Ty_Vector (inner : TypeOf Id)
| Ty_Struct (st : StructOf Id (TypeOf Id)).
#[local] Set Elimination Schemes.
Arguments Ty_Bool {Id}. Arguments Ty_U8 {Id}. Arguments Ty_U16 {Id}. Arguments Ty_U32 {Id}.
Arguments Ty_U64 {Id}. Arguments Ty_U128 {Id}. Arguments Ty_U256 {Id}.
Arguments Ty_Address {Id}. Arguments Ty_Signer {Id}.
Arguments Ty_Vector {Id} _. Arguments Ty_Struct {Id} _.

Section type_of_ind.
Variables (Id : Type) (P : TypeOf Id → Prop).
Hypothesis Hbase : ∀ t, match t with Ty_Vector _ | Ty_Struct _ => True | _ => P t end.
Hypothesis Hvec : ∀ t, P t → P (Ty_Vector t).
Hypothesis Hstruct : ∀ a m n tys, Forall P tys → P (Ty_Struct (MkStructOf a m n tys)).

Fixpoint TypeOf_ind (t : TypeOf Id) : P t :=
  match t with
  | Ty_Vector inner => Hvec inner (TypeOf_ind inner)
  | Ty_Struct (MkStructOf a m n tys) => Hstruct a m n tys
      ((fix go (l : list (TypeOf Id)) : Forall P l :=
          match l with
          | [] => Forall_nil_2 P
          | x :: l' => Forall_cons_2 P x l' (TypeOf_ind x) (go l')
          end) tys)
  | t => Hbase t
  end.
End type_of_ind.

Definition TypeInput : Type := TypeOf string.

(** [Identifier]: a validated name. *)
Class IdentLib := {
  Identifier : Type;
  identifier_new : string → option Identifier;
  identifier_string : Identifier → string;
  identifier_new_string i : identifier_new (identifier_string i) = Some i;
  identifier_string_new s i : identifier_new s = Some i → identifier_string i = s;
}.

#[export, refine] Instance nonempty_ident : IdentLib := {
  Identifier := { s : string | negb (bool_decide (s = EmptyString)) = true };
  identifier_new s :=
    match decide (negb (bool_decide (s = EmptyString)) = true) with
    | left H => Some (exist _ s H) | right _ => None
    end;
  identifier_string := proj1_sig;
}.
Proof.
  - intros [s H]. simpl. destruct (decide _) as [H'|]; [|done].
    do 2 f_equal. apply eq_pi, _.
  - intros s i. destruct (decide _); [by intros [= <-]|done].
Defined.

Section conversions.
Context `{IL : IdentLib}.
Definition TypeTag : Type := TypeOf Identifier.

(** [From<TypeTag> for MoveTypeTag] and [From<StructTag> for MoveStructTag]. *)
Fixpoint from_type_tag (value : TypeTag) : MoveTypeTag :=
  match value with
  | Ty_Address => Tag_Address | Ty_Bool => Tag_Bool
  | Ty_Struct v =>
      Tag_Struct (MkStructTag (so_address v) (identifier_string (so_module v))
        (identifier_string (so_name v)) (map from_type_tag (so_type_params v)))
  | Ty_Signer => Tag_Signer
  | Ty_U8 => Tag_U8 | Ty_U16 => Tag_U16 | Ty_U32 => Tag_U32 | Ty_U128 => Tag_U128
  | Ty_U64 => Tag_U64 | Ty_U256 => Tag_U256
  | Ty_Vector v => Tag_Vector (from_type_tag v)
  end.

(** [TryFrom<MoveTypeTag> for TypeTag]: names are validated. *)
Fixpoint try_type_tag (value : MoveTypeTag) : option TypeTag :=
  match value with
  | Tag_Address => Some Ty_Address | Tag_Bool => Some Ty_Bool | Tag_Signer => Some Ty_Signer
  | Tag_U8 => Some Ty_U8 | Tag_U16 => Some Ty_U16 | Tag_U32 => Some Ty_U32
  | Tag_U128 => Some Ty_U128 | Tag_U64 => Some Ty_U64 | Tag_U256 => Some Ty_U256
  | Tag_Vector v => t ← try_type_tag v; Some (Ty_Vector t)
  | Tag_Struct v =>
      module ← identifier_new (st_module v);
      name ← identifier_new (st_name v);
      type_params ← mapM try_type_tag (st_tys v);
      Some (Ty_Struct (MkStructOf (st_address v) module name type_params))
  end.

Lemma mapM_round_trip {A B} (f : A → B) (g : B → option A) (l : list A) :
  Forall (λ x, g (f x) = Some x) l → mapM g (map f l) = Some l.
Proof. induction 1 as [|x l Hx _ IH]; [done|]. simpl. by rewrite Hx, IH. Qed.

Lemma mapM_round_trip_inv {A B} (f : A → B) (g : B → option A) (l : list B) k :
  Forall (λ y, ∀ x, g y = Some x → f x = y) l → mapM g l = Some k → map f k = l.
Proof.
  intros Hl. revert k. induction Hl as [|y l Hy _ IH]; intros k Hk; simpl in Hk.
  - by injection Hk as <-.
  - destruct (g y) as [x|] eqn:Hx; [|done]. simpl in Hk.
    destruct (mapM g l) as [k'|]; [|done]. injection Hk as <-. simpl. by rewrite (Hy x), (IH k').
Qed.

(** The two forms of a type are interchangeable: a validated type survives
    the conversion to [MoveTypeTag] and back, and a conversion that succeeds
    is undone by the other direction (so [try_type_tag] only fails on names
    that are not identifiers and never changes a type). *)
Theorem type_tag_round_trip :
  (∀ t, try_type_tag (from_type_tag t) = Some t) ∧
  (∀ m t, try_type_tag m = Some t → from_type_tag t = m).
Proof.
  split.
  - apply (TypeOf_ind Identifier (λ t, try_type_tag (from_type_tag t) = Some t)).
    + intros t. by destruct t.
    + intros t IH. simpl. by rewrite IH.
    + intros a m n tys IH. simpl. rewrite !identifier_new_string. simpl. by rewrite mapM_round_trip.
  - intros m. induction m as [| | | | | | |m IH| | |a mo n tys IH] using MoveTypeTag_ind;
      intros t H; simpl in H; try (injection H as <-; reflexivity).
    + apply bind_Some in H as (t' & Ht' & [= <-]). simpl. by rewrite (IH t').
    + apply bind_Some in H as (i & Hi & H). apply bind_Some in H as (j & Hj & H).
      apply bind_Some in H as (ts & Hts & [= <-]). simpl.
      rewrite (identifier_string_new _ _ Hi), (identifier_string_new _ _ Hj).
      do 2 f_equal. by eapply mapM_round_trip_inv.
Qed.
End conversions.

(** ** The transaction *)
Inductive Argument := A_GasCoin | A_Input (i : N) | A_Result (i : N) | A_NestedResult (i j : N).

Inductive ObjectArg :=
| OA_ImmOrOwned (r : ObjectRef)
| OA_Shared (id : MoveAddress) (initial_shared_version : N) (exclusive : bool)
| OA_Receiving (r : ObjectRef).

Definition Bytes : Type := list Byte.byte.
Inductive CallArg := CA_Pure (bytes : Bytes) | CA_Object (o : ObjectArg).

Record ProgrammableMoveCall := MkPMC {
  pm_package : MoveAddress; pm_module : string; pm_function : string;
  pm_type_arguments : list TypeInput; pm_arguments : list Argument }.

Inductive Command :=
| Cmd_MoveCall (c : ProgrammableMoveCall)
| Cmd_TransferObjects (srcs : list Argument) (dst : Argument)
| Cmd_SplitCoins (src : Argument) (amounts : list Argument)
| Cmd_MergeCoins (dst : Argument) (srcs : list Argument)
| Cmd_Publish (modules : list Bytes) (deps : list MoveAddress)
| Cmd_MakeMoveVec (ty : option TypeInput) (args : list Argument)
| Cmd_Upgrade (modules : list Bytes) (deps : list MoveAddress) (package : MoveAddress)
    (ticket : Argument).

(** The values the source passes to [builder.pure]. *)
Inductive PureValue :=
| PuBool (b : bool) | PuU8 (n : N) | PuU16 (n : N) | PuU32 (n : N) | PuU64 (n : N)
| PuU128 (n : N) | PuU256 (n : N) | PuAddress (a : MoveAddress) | PuBytes (l : Bytes).

(** [From<MoveTypeTag> for TypeInput]. *)
Fixpoint type_input (value : MoveTypeTag) : TypeInput :=
  match value with
  | Tag_Address => Ty_Address | Tag_Bool => Ty_Bool | Tag_Signer => Ty_Signer
  | Tag_U8 => Ty_U8 | Tag_U16 => Ty_U16 | Tag_U32 => Ty_U32 | Tag_U128 => Ty_U128
  | Tag_U64 => Ty_U64 | Tag_U256 => Ty_U256
  | Tag_Vector v => Ty_Vector (type_input v)
  | Tag_Struct v =>
      Ty_Struct (MkStructOf (st_address v) (st_module v) (st_name v) (map type_input (st_tys v)))
  end.

Definition to_argument (a : SequenceArgument) : Argument :=
  match a with
  | GasCoin => A_GasCoin
  | Input v => A_Input v
  | NestedResult l r => A_NestedResult l r
  | Result v => A_Result v
  end.

Definition to_object_arg (o : SuiObjectInputArgument) : ObjectArg :=
  match o with
  | ImmOrOwnedObject v => OA_ImmOrOwned v
  | Receiving v => OA_Receiving v
  | SharedObject id initial_shared_version mutable => OA_Shared id initial_shared_version mutable
  end.

Definition to_move_call (c : MoveCall) : ProgrammableMoveCall :=
  MkPMC (mc_module_id c) (mc_module_name c) (mc_function c) (map type_input (mc_type_arguments c))
    (map to_argument (mc_arguments c)).

Definition to_command (cmd : MoveSequenceCall) : Command :=
  match cmd with
  | Call call => Cmd_MoveCall (to_move_call call)
  | MakeMoveVec ty args => Cmd_MakeMoveVec (Some (type_input ty)) (map to_argument args)
  | Publish modules address => Cmd_Publish modules address
  | TransferObjects args dst => Cmd_TransferObjects (map to_argument args) (to_argument dst)
  | MergeCoins dst src => Cmd_MergeCoins (to_argument dst) (map to_argument src)
  | SplitCoins src amounts => Cmd_SplitCoins (to_argument src) (map to_argument amounts)
  | Upgrade modules deps package ticket =>
      Cmd_Upgrade modules deps package (to_argument ticket)
  end.

(** ** The builder *)
Definition object_id (o : ObjectArg) : MoveAddress :=
  match o with
  | OA_ImmOrOwned (id, _, _) | OA_Receiving (id, _, _) => id
  | OA_Shared id _ _ => id
  end.

(** Whether the inputs of the builder already hold this value or object. *)
Definition conflicts (x y : CallArg) : Prop :=
  match x, y with
  | CA_Pure b, CA_Pure b' => b = b'
  | CA_Object o, CA_Object o' => object_id o = object_id o'
  | _, _ => False
  end.
Definition fresh (x : CallArg) (l : list CallArg) : Prop := Forall (λ y, ¬ conflicts x y) l.

Class PtbBuilder (Bd : Type) := {
  builder_new : Bd;
  bcs : PureValue → Bytes;
  builder_pure : PureValue → Bd → Bd * Argument;
  builder_obj : ObjectArg → Bd → option (Bd * Argument);
  builder_command : Command → Bd → Bd * Argument;
  builder_finish : Bd → list CallArg * list Command;
  finish_new : builder_finish builder_new = ([], []);
  finish_pure v b ins cmds :
    builder_finish b = (ins, cmds) → fresh (CA_Pure (bcs v)) ins →
    ∃ b', builder_pure v b = (b', A_Input (N.of_nat (length ins))) ∧
      builder_finish b' = (ins ++ [CA_Pure (bcs v)], cmds);
  finish_obj o b ins cmds :
    builder_finish b = (ins, cmds) → fresh (CA_Object o) ins →
    ∃ b', builder_obj o b = Some (b', A_Input (N.of_nat (length ins))) ∧
      builder_finish b' = (ins ++ [CA_Object o], cmds);
  finish_command c b ins cmds :
    builder_finish b = (ins, cmds) →
    ∃ b', builder_command c b = (b', A_Result (N.of_nat (length cmds))) ∧
      builder_finish b' = (ins, cmds ++ [c]);
}.

Section to_ptb.
Context `{PB : PtbBuilder Bd}.

(** Thread the builder through a list of inputs. *)
Fixpoint map_inputs (f : InputArgument → Bd → option (Bd * Argument)) (vs : list InputArgument)
    (builder : Bd) : option (Bd * list Argument) :=
  match vs with
  | [] => Some (builder, [])
  | v :: vs =>
      '(builder, a) ← f v builder;
      '(builder, args) ← map_inputs f vs builder;
      Some (builder, a :: args)
  end.

Fixpoint sui_builder_input_arg (arg : InputArgument) (builder : Bd) : option (Bd * Argument) :=
  match arg with
  | Arg_Bool v => Some (builder_pure (PuBool v) builder)
  | Arg_U8 v => Some (builder_pure (PuU8 v) builder)
  | Arg_U16 v => Some (builder_pure (PuU16 v) builder)
  | Arg_U32 v => Some (builder_pure (PuU32 v) builder)
  | Arg_U64 v => Some (builder_pure (PuU64 v) builder)
  | Arg_U128 v => Some (builder_pure (PuU128 v) builder)
  | Arg_U256 v => Some (builder_pure (PuU256 v) builder)
  | Arg_Address v | Arg_Signer v => Some (builder_pure (PuAddress v) builder)
  | Arg_Vector ty vs =>
      '(builder, args) ← map_inputs sui_builder_input_arg vs builder;
      Some (builder_command (Cmd_MakeMoveVec (Some (type_input ty)) args) builder)
  | Arg_Object _ v => builder_obj (to_object_arg v) builder
  end.

Definition to_ptb (s : MoveSequence) : option (list CallArg * list Command) :=
  '(builder, _) ← map_inputs sui_builder_input_arg (seq_inputs s) builder_new;
  Some (builder_finish
    (fold_left (λ builder cmd, (builder_command (to_command cmd) builder).1) (seq_commands s) builder)).

(** ** What the transaction holds *)

(** The transaction inputs an argument needs, and how many vectors it is made of. *)
Fixpoint leaves (arg : InputArgument) : list CallArg :=
  match arg with
  | Arg_Bool v => [CA_Pure (bcs (PuBool v))]
  | Arg_U8 v => [CA_Pure (bcs (PuU8 v))]
  | Arg_U16 v => [CA_Pure (bcs (PuU16 v))]
  | Arg_U32 v => [CA_Pure (bcs (PuU32 v))]
  | Arg_U64 v => [CA_Pure (bcs (PuU64 v))]
  | Arg_U128 v => [CA_Pure (bcs (PuU128 v))]
  | Arg_U256 v => [CA_Pure (bcs (PuU256 v))]
  | Arg_Address v | Arg_Signer v => [CA_Pure (bcs (PuAddress v))]
  | Arg_Vector _ vs => flat_map leaves vs
  | Arg_Object _ v => [CA_Object (to_object_arg v)]
  end.

Fixpoint vectors (arg : InputArgument) : nat :=
  match arg with Arg_Vector _ vs => S (sum_list_with vectors vs) | _ => 0 end.

(** No two inputs coincide. *)
Fixpoint all_fresh (before l : list CallArg) : Prop :=
  match l with
  | [] => True
  | x :: l => fresh x before ∧ all_fresh (before ++ [x]) l
  end.

Lemma all_fresh_app before l1 l2 :
  all_fresh before (l1 ++ l2) ↔ all_fresh before l1 ∧ all_fresh (before ++ l1) l2.
Proof.
  revert before. induction l1 as [|x l1 IH]; intros before; simpl.
  - rewrite app_nil_r. naive_solver.
  - rewrite IH, <-app_assoc. naive_solver.
Qed.

Definition input_ok (arg : InputArgument) : Prop :=
  ∀ b ins cmds, builder_finish b = (ins, cmds) → all_fresh ins (leaves arg) →
  ∃ b' a vcmds, sui_builder_input_arg arg b = Some (b', a) ∧
    builder_finish b' = (ins ++ leaves arg, cmds ++ vcmds) ∧ length vcmds = vectors arg ∧
    (vectors arg = 0 → a = A_Input (N.of_nat (length ins))).

Lemma map_inputs_ok vs :
  Forall input_ok vs → ∀ b ins cmds, builder_finish b = (ins, cmds) →
  all_fresh ins (flat_map leaves vs) →
  ∃ b' args vcmds, map_inputs sui_builder_input_arg vs b = Some (b', args) ∧
    builder_finish b' = (ins ++ flat_map leaves vs, cmds ++ vcmds) ∧
    length vcmds = sum_list_with vectors vs.
Proof.
  induction 1 as [|v vs Hv _ IH]; intros b ins cmds Hb Hf; simpl.
  - exists b, [], []. by rewrite !app_nil_r.
  - simpl in Hf. apply all_fresh_app in Hf as [Hfv Hf].
    destruct (Hv _ _ _ Hb Hfv) as (b1 & a & v1 & -> & Hb1 & Hl1 & _). simpl.
    destruct (IH _ _ _ Hb1 Hf) as (b2 & args & v2 & -> & Hb2 & Hl2). simpl.
    exists b2, (a :: args), (v1 ++ v2). split_and!; [done| |].
    + by rewrite Hb2, !app_assoc.
    + rewrite length_app. lia.
Qed.

Lemma pure_input_ok v b ins cmds :
  builder_finish b = (ins, cmds) → all_fresh ins [CA_Pure (bcs v)] →
  ∃ b' a vcmds, Some (builder_pure v b) = Some (b', a) ∧
    builder_finish b' = (ins ++ [CA_Pure (bcs v)], cmds ++ vcmds) ∧ length vcmds = 0 ∧
    (0 = 0 → a = A_Input (N.of_nat (length ins))).
Proof.
  intros Hb [Hf _]. destruct (finish_pure v b ins cmds Hb Hf) as (b' & -> & Hb').
  eexists b', _, []. by rewrite app_nil_r.
Qed.

Lemma input_arg_ok arg : input_ok arg.
Proof.
  induction arg as [| | | | | | |ty vs IH| | |ty o] using InputArgument_ind;
    intros bd ins cmds Hb Hf; simpl in *; try by apply pure_input_ok.
  - destruct (map_inputs_ok vs IH bd ins cmds Hb Hf) as (b1 & args & v1 & -> & Hb1 & Hl). simpl.
    destruct (finish_command (Cmd_MakeMoveVec (Some (type_input ty)) args) b1 _ _ Hb1)
      as (b2 & -> & Hb2). eexists b2, _, (v1 ++ [_]). split_and!; [done| | |done].
    + by rewrite Hb2, app_assoc.
    + rewrite length_app. simpl. lia.
  - destruct Hf as [Hf _]. destruct (finish_obj _ bd ins cmds Hb Hf) as (b' & -> & Hb').
    eexists b', _, []. by rewrite app_nil_r.
Qed.

Lemma commands_ok cmds b ins cs :
  builder_finish b = (ins, cs) →
  builder_finish (fold_left (λ b cmd, (builder_command (to_command cmd) b).1) cmds b) =
    (ins, cs ++ map to_command cmds).
Proof.
  revert b cs. induction cmds as [|c cmds IH]; intros b cs Hb; simpl; [by rewrite app_nil_r|].
  destruct (finish_command (to_command c) b ins cs Hb) as (b' & -> & Hb'). simpl.
  rewrite (IH _ _ Hb'). by rewrite <-app_assoc.
Qed.

(** C34: [to_ptb] is faithful on distinct inputs: it succeeds, the
    transaction's inputs are exactly the leaves of the sequence's inputs in
    order, and its commands are the converted commands - preceded by one
    [MakeMoveVec] per vector value among the inputs. So without vector inputs
    command and input indices are those of the sequence, and every vector
    value shifts all result indices by one. *)
Theorem to_ptb_faithful s :
  all_fresh [] (flat_map leaves (seq_inputs s)) →
  ∃ vcmds, to_ptb s = Some (flat_map leaves (seq_inputs s), vcmds ++ map to_command (seq_commands s)) ∧
    length vcmds = sum_list_with vectors (seq_inputs s).
Proof.
  intros Hf. destruct (map_inputs_ok (seq_inputs s)) with builder_new ([] : list CallArg) ([] : list Command)
    as (b & args & vcmds & Hm & Hb & Hl); [|apply finish_new|done|].
  - apply Forall_forall. intros v _. apply input_arg_ok.
  - exists vcmds. split; [|done]. unfold to_ptb. rewrite Hm. simpl.
    by rewrite (commands_ok _ _ _ _ Hb).
Qed.
End to_ptb.

(** ** A concrete builder: two lists *)
Definition le_bytes (k : nat) (n : N) : Bytes :=
  (fix go k n := match k with
   | O => [] | S k => default Byte.x00 (Byte.of_N (n mod 256)) :: go k (n / 256)%N end) k n.

Definition demo_bcs (v : PureValue) : Bytes :=
  match v with
  | PuBool b => le_bytes 1 (if b then 1 else 0)%N
  | PuU8 n => le_bytes 1 n | PuU16 n => le_bytes 2 n | PuU32 n => le_bytes 4 n
  | PuU64 n => le_bytes 8 n | PuU128 n => le_bytes 16 n | PuU256 n => le_bytes 32 n
  | PuAddress a => reverse (le_bytes 32 (addr_val a))
  | PuBytes l => le_bytes 1 (N.of_nat (length l)) ++ l
  end.

#[export, refine] Instance list_builder : PtbBuilder (list CallArg * list Command) := {
  builder_new := ([], []);
  bcs := demo_bcs;
  builder_pure v b := ((b.1 ++ [CA_Pure (demo_bcs v)], b.2), A_Input (N.of_nat (length b.1)));
  builder_obj o b := Some ((b.1 ++ [CA_Object o], b.2), A_Input (N.of_nat (length b.1)));
  builder_command c b := ((b.1, b.2 ++ [c]), A_Result (N.of_nat (length b.2)));
  builder_finish b := b;
}.
Proof.
  - done.
  - intros v b ins cmds -> _. by eexists.
  - intros o b ins cmds -> _. by eexists.
  - intros c b ins cmds ->. by eexists.
Defined.

Definition demo_sequence : MoveSequence :=
  MkSequence [Arg_Vector Tag_U8 [Arg_U8 1; Arg_U8 2]; Arg_U64 7]
    [Call {| mc_module_id := addr_two; mc_module_name := "coin"; mc_function := "mint";
             mc_type_arguments := []; mc_arguments := [Input 1] |}].

Lemma to_ptb_faithful_witness :
  ∃ vcmds, to_ptb demo_sequence =
      Some (flat_map leaves (seq_inputs demo_sequence), vcmds ++ map to_command (seq_commands demo_sequence)) ∧
    length vcmds = 1.
Proof.
  apply (to_ptb_faithful demo_sequence). simpl. unfold fresh.
  repeat (split || constructor); intros H; vm_compute in H; discriminate H.
Defined.
