(* ===== verification/Z3.v ===== *)
(** * Z3: the solver terms the concolic executor builds

    [z3::ast::Int] and [z3::ast::Bool] and the 256-bit integer type of
    [move_core_types] are libraries. [Z3Ast] is the interface to the terms the
    source builds; [Z3Laws] is the documented meaning of those terms in a model
    of the constants (SMT-LIB integer arithmetic, stated only for the positive
    divisors for which division is total and [rem] and [mod] agree).
    [U256Lib] is the part of the [U256] interface the masks and the overflow
    oracle are computed with. [TermAst] and [u256_wrapping] are concrete instances. *)
From S2P Require Import Prelude.
Local Open Scope Z_scope.

Class Z3Ast (I B : Type) := {
  int_new_const : string → I;
  int_from : Z → I;  (** [from_u64], and [from_str] of a printed number *)
  int_add : I → I → I;
  int_sub : I → I → I;
  int_mul : I → I → I;
  int_div : I → I → I;
  int_rem : I → I → I;
  int_modulo : I → I → I;
  int_le : I → I → B;
  int_lt : I → I → B;
  int_ge : I → I → B;
  int_gt : I → I → B;
  int_eq : I → I → B;
  bool_not : B → B;
  bool_ite : B → I → I → I;
}.

Class Z3Laws (I B : Type) `{!Z3Ast I B} := {
  evalI : (string → Z) → I → Z;
  evalB : (string → Z) → B → bool;
  eval_const ρ x : evalI ρ (int_new_const x) = ρ x;
  eval_from ρ n : evalI ρ (int_from n) = n;
  eval_add ρ a b : evalI ρ (int_add a b) = evalI ρ a + evalI ρ b;
  eval_sub ρ a b : evalI ρ (int_sub a b) = evalI ρ a - evalI ρ b;
  eval_mul ρ a b : evalI ρ (int_mul a b) = evalI ρ a * evalI ρ b;
  eval_div ρ a b : 0 < evalI ρ b → evalI ρ (int_div a b) = evalI ρ a / evalI ρ b;
  eval_rem ρ a b : 0 < evalI ρ b → evalI ρ (int_rem a b) = evalI ρ a mod evalI ρ b;
  eval_modulo ρ a b : 0 < evalI ρ b → evalI ρ (int_modulo a b) = evalI ρ a mod evalI ρ b;
  eval_le ρ a b : evalB ρ (int_le a b) = (evalI ρ a <=? evalI ρ b);
  eval_lt ρ a b : evalB ρ (int_lt a b) = (evalI ρ a <? evalI ρ b);
  eval_ge ρ a b : evalB ρ (int_ge a b) = (evalI ρ b <=? evalI ρ a);
  eval_gt ρ a b : evalB ρ (int_gt a b) = (evalI ρ b <? evalI ρ a);
  eval_eq ρ a b : evalB ρ (int_eq a b) = (evalI ρ a =? evalI ρ b);
  eval_not ρ a : evalB ρ (bool_not a) = negb (evalB ρ a);
  eval_ite ρ c a b : evalI ρ (bool_ite c a b) = if evalB ρ c then evalI ρ a else evalI ρ b;
}.

Create Rewrite HintDb z3_eval.
#[export] Hint Rewrite @eval_const @eval_from @eval_add @eval_sub @eval_mul @eval_le
  @eval_lt @eval_ge @eval_gt @eval_eq @eval_not @eval_ite : z3_eval.

(** ** [U256]: the shift of one and the subtraction used to build masks *)
Class U256Lib := {
  u256_shl : N → N → N;  (** [U256 << u32] *)
  u256_sub : N → N → N;  (** [U256 - U256] *)
  u256_as_u32 : N → N;  (** [U256::unchecked_as_u32] *)
  u256_leading_zeros : N → N;  (** [U256::leading_zeros] *)
  u256_shl_one n : (n < 256)%N → u256_shl 1 n = (2 ^ n)%N;
  u256_sub_le a b : (b ≤ a < 2 ^ 256)%N → u256_sub a b = (a - b)%N;
  u256_as_u32_small a : (a < 2 ^ 32)%N → u256_as_u32 a = a;
  u256_leading_zeros_size a : (a < 2 ^ 256)%N → u256_leading_zeros a = (256 - N.size a)%N;
}.

(** The wrapping library: bits shifted past 256 are lost. *)
#[export, refine] Instance u256_wrapping : U256Lib := {
  u256_shl a n := (a * 2 ^ n mod 2 ^ 256)%N;
  u256_sub a b := ((a + 2 ^ 256 - b) mod 2 ^ 256)%N;
  u256_as_u32 a := (a mod 2 ^ 32)%N;
  u256_leading_zeros a := (256 - N.size a)%N;
}.
Proof.
  - intros n Hn. rewrite N.mul_1_l. apply N.mod_small. by apply N.pow_lt_mono_r.
  - intros a b [Hb Ha]. replace (a + 2 ^ 256 - b)%N with (a - b + 1 * 2 ^ 256)%N by lia.
    rewrite N.Div0.mod_add. apply N.mod_small. lia.
  - intros a Ha. by apply N.mod_small.
  - done.
Defined.

(** ** A concrete term language *)
Inductive IntTerm :=
| T_const (x : string) | T_num (n : Z)
| T_add (a b : IntTerm) | T_sub (a b : IntTerm) | T_mul (a b : IntTerm)
| T_div (a b : IntTerm) | T_rem (a b : IntTerm) | T_modulo (a b : IntTerm)
| T_ite (c : BoolTerm) (a b : IntTerm)
with BoolTerm :=
| T_le (a b : IntTerm) | T_lt (a b : IntTerm) | T_ge (a b : IntTerm)
| T_gt (a b : IntTerm) | T_eq (a b : IntTerm) | T_not (c : BoolTerm).

Fixpoint term_evalI (ρ : string → Z) (t : IntTerm) : Z :=
  match t with
  | T_const x => ρ x
  | T_num n => n
  | T_add a b => term_evalI ρ a + term_evalI ρ b
  | T_sub a b => term_evalI ρ a - term_evalI ρ b
  | T_mul a b => term_evalI ρ a * term_evalI ρ b
  | T_div a b => term_evalI ρ a / term_evalI ρ b
  | T_rem a b => term_evalI ρ a mod term_evalI ρ b
  | T_modulo a b => term_evalI ρ a mod term_evalI ρ b
  | T_ite c a b => if term_evalB ρ c then term_evalI ρ a else term_evalI ρ b
  end
with term_evalB (ρ : string → Z) (c : BoolTerm) : bool :=
  match c with
  | T_le a b => term_evalI ρ a <=? term_evalI ρ b
  | T_lt a b => term_evalI ρ a <? term_evalI ρ b
  | T_ge a b => term_evalI ρ b <=? term_evalI ρ a
  | T_gt a b => term_evalI ρ b <? term_evalI ρ a
  | T_eq a b => term_evalI ρ a =? term_evalI ρ b
  | T_not c => negb (term_evalB ρ c)
  end.

#[export] Instance TermAst : Z3Ast IntTerm BoolTerm := {
  int_new_const := T_const; int_from := T_num;
  int_add := T_add; int_sub := T_sub; int_mul := T_mul;
  int_div := T_div; int_rem := T_rem; int_modulo := T_modulo;
  int_le := T_le; int_lt := T_lt; int_ge := T_ge; int_gt := T_gt; int_eq := T_eq;
  bool_not := T_not; bool_ite := T_ite;
}.

#[export, refine] Instance TermLaws : Z3Laws IntTerm BoolTerm := {
  evalI := term_evalI; evalB := term_evalB;
}.
Proof. all: done. Defined.
