(* ===== verification/BitOps.v ===== *)
(** * BitOps: bit-vector operations as integer terms

    [crates/movy-replay/src/tracer/concolic.rs], lines 118-223: the functions
    that express bitwise and, or, not and xor with a constant mask using only
    integer arithmetic, and their correctness against the bitwise operations. *)
From S2P Require Import Prelude Z3.
Local Open Scope Z_scope.

Section bitops.
Context {I B : Type} `{Z : Z3Ast I B} `{U : U256Lib}.

(** [U256::one() << bits], then printed and parsed as a numeral. *)
Definition int_two_pow (bits : N) : I := int_from (Z.of_N (u256_shl 1 bits)).

Definition int_mod_2n (x : I) (bits : N) : I := int_modulo x (int_two_pow bits).

Definition int_from_u256 (u : N) : I := int_from (Z.of_N u).

(** [while m != 0 && (m & 1) == 0 { m >>= 1; i += 1 }] *)
Fixpoint skip_zeros (fuel : nat) (m i : N) : N * N :=
  match fuel with
  | O => (m, i)
  | S fuel =>
      if negb (m =? 0)%N && (N.land m 1 =? 0)%N
      then skip_zeros fuel (N.shiftr m 1) (i + 1)%N else (m, i)
  end.

(** [while (m & 1) == 1 { m >>= 1; i += 1 }] *)
Fixpoint consume_ones (fuel : nat) (m i : N) : N * N :=
  match fuel with
  | O => (m, i)
  | S fuel =>
      if (N.land m 1 =? 1)%N then consume_ones fuel (N.shiftr m 1) (i + 1)%N else (m, i)
  end.

(** The runs [a..=b] of ones of the mask, lowest first. A 256-bit mask has at
    most 256 shifts in each inner loop and 128 runs, so 256 is enough fuel. *)
Fixpoint mask_runs (fuel : nat) (m i : N) : list (N * N) :=
  match fuel with
  | O => []
  | S fuel =>
      if (m =? 0)%N then [] else
      let '(m, i) := skip_zeros 256 m i in
      if (m =? 0)%N then [] else
      let a := i in
      let '(m, i) := consume_ones 256 m i in
      let b := (i - 1)%N in
      (a, b) :: mask_runs fuel m i
  end.

(** [(x0 % 2^(b+1) / 2^a) % 2^L * 2^a] *)
Definition run_term (x0 : I) (r : N * N) : I :=
  let '(a, b) := r in
  let L := (b - a + 1)%N in
  int_mul (int_rem (int_div (int_rem x0 (int_two_pow (b + 1))) (int_two_pow a)) (int_two_pow L))
    (int_two_pow a).

Definition full_mask (bits : N) : N := u256_sub (u256_shl 1 bits) 1.

Definition int_bvand_const (x : I) (mask bits : N) : I :=
  let x0 := int_mod_2n x bits in
  if (mask =? 0)%N then int_from 0 else
  let mask_w := N.land mask (full_mask bits) in
  let terms := map (run_term x0) (mask_runs 256 mask_w 0) in
  fold_left int_add terms (int_from 0).

Definition int_bvor_const (x : I) (mask bits : N) : I :=
  let full := full_mask bits in
  let mask_w := N.land mask full in
  let not_mask_w := N.lxor full mask_w in
  let kept := int_bvand_const x not_mask_w bits in
  int_add kept (int_from_u256 mask_w).

Definition int_bvnot (x : I) (bits : N) : I :=
  let x0 := int_mod_2n x bits in
  let full := int_sub (int_two_pow bits) (int_from 1) in
  int_sub full x0.

Definition int_bvxor_const (x : I) (mask bits : N) : I :=
  let full := full_mask bits in
  let mask_w := N.land mask full in
  let not_mask_w := N.lxor full mask_w in
  let part_keep := int_bvand_const x not_mask_w bits in
  let x_not := int_bvnot x bits in
  let part_flip := int_bvand_const x_not mask_w bits in
  int_mod_2n (int_add part_keep part_flip) bits.

End bitops.

(** ** The run decomposition *)
Lemma N_land_1 m : N.land m 1 = (m mod 2)%N.
Proof. change 1%N with (N.ones 1). by rewrite N.land_ones. Qed.

Lemma N_shiftr_1 m : N.shiftr m 1 = (m / 2)%N.
Proof. by rewrite N.shiftr_div_pow2. Qed.

Lemma N_half m : ∃ q r, (m = 2 * q + r ∧ r < 2 ∧ m / 2 = q ∧ m mod 2 = r)%N.
Proof.
  exists (m / 2)%N, (m mod 2)%N.
  split_and!; [apply N.div_mod'|by apply N.mod_lt|done..].
Qed.

Lemma skip_zeros_spec fuel m i m' i' :
  (m < 2 ^ N.of_nat fuel)%N → m ≠ 0%N → skip_zeros fuel m i = (m', i') →
  (m' ≠ 0 ∧ m' mod 2 = 1 ∧ i ≤ i' ∧ m' ≤ m ∧ m * 2 ^ i = m' * 2 ^ i')%N.
Proof.
  revert m i. induction fuel as [|fuel IH]; intros m i Hm Hnz; simpl skip_zeros.
  { change (2 ^ N.of_nat 0)%N with 1%N in Hm. lia. }
  rewrite N_land_1, N_shiftr_1. rewrite Nat2N.inj_succ, N.pow_succ_r' in Hm.
  destruct (N_half m) as (q & r & Hqr & Hr & Hd & Hmod). rewrite Hd, Hmod.
  destruct (N.eqb_spec m 0) as [|_]; [done|].
  destruct (N.eqb_spec r 0) as [H0|H0]; simpl.
  - intros H. apply IH in H; [|lia|lia]. destruct H as (? & ? & ? & ? & Heq).
    split_and!; [done|done|lia|lia|]. rewrite <-Heq, N.add_1_r, N.pow_succ_r'. subst. lia.
  - intros [= <- <-]. lia.
Qed.

Lemma consume_ones_spec fuel m i m' i' :
  (m < 2 ^ N.of_nat fuel)%N → consume_ones fuel m i = (m', i') →
  (i ≤ i' ∧ m' ≤ m ∧ (m mod 2 = 1 → i < i' ∧ m' < m) ∧
   m = (2 ^ (i' - i) - 1) + m' * 2 ^ (i' - i))%N.
Proof.
  revert m i. induction fuel as [|fuel IH]; intros m i Hm; simpl consume_ones.
  { change (2 ^ N.of_nat 0)%N with 1%N in Hm. intros [= <- <-].
    assert (m = 0)%N as -> by lia. rewrite N.sub_diag. change (0 mod 2)%N with 0%N. lia. }
  rewrite N_land_1, N_shiftr_1. rewrite Nat2N.inj_succ, N.pow_succ_r' in Hm.
  destruct (N_half m) as (q & r & Hqr & Hr & Hd & Hmod). rewrite Hd, Hmod.
  destruct (N.eqb_spec r 1) as [H1|H1].
  - intros H. apply IH in H; [|lia]. destruct H as (? & ? & _ & Heq).
    split_and!; [lia|lia|lia|].
    replace (i' - i)%N with (N.succ (i' - (i + 1)))%N by lia. rewrite N.pow_succ_r'.
    assert (0 < 2 ^ (i' - (i + 1)))%N by (apply N.neq_0_lt_0, N.pow_nonzero; done).
    nia.
  - intros [= <- <-]. rewrite N.sub_diag. split_and!; lia.
Qed.

(** One step of the loop splits the mask into its lowest run and the rest. *)
Lemma run_split m i m1 i1 m2 i2 :
  (m < 2 ^ 256)%N → m ≠ 0%N → skip_zeros 256 m i = (m1, i1) → consume_ones 256 m1 i1 = (m2, i2) →
  (m1 ≠ 0 ∧ i ≤ i1 ∧ i1 < i2 ∧ 2 * m2 < m ∧
   m * 2 ^ i = (2 ^ (i2 - i1) - 1) * 2 ^ i1 + m2 * 2 ^ i2)%N.
Proof.
  intros Hm Hnz Hs Hc.
  apply skip_zeros_spec in Hs as (? & Hodd & ? & ? & Heq); [|done..].
  apply consume_ones_spec in Hc as (? & ? & Hlt & Heq'); [|change (N.of_nat 256) with 256%N; lia].
  destruct (Hlt Hodd) as [Hi Hm2].
  assert (2 ^ i2 = 2 ^ (i2 - i1) * 2 ^ i1)%N as Hpow by (rewrite <-N.pow_add_r; f_equal; lia).
  assert (2 ≤ 2 ^ (i2 - i1))%N.
  { change 2%N with (2 ^ 1)%N at 1. apply N.pow_le_mono_r; lia. }
  split_and!; [done|done|done|nia|]. rewrite Heq, Heq' at 1. rewrite Hpow. nia.
Qed.

Lemma run_bound m2 i1 i2 bits :
  (i1 < i2)%N → ((2 ^ (i2 - i1) - 1) * 2 ^ i1 + m2 * 2 ^ i2 < 2 ^ bits)%N → (i2 ≤ bits)%N.
Proof.
  intros Hi Hlt. assert (2 ^ i2 = 2 ^ (i2 - i1) * 2 ^ i1)%N as Hpow
    by (rewrite <-N.pow_add_r; f_equal; lia).
  assert (2 ^ (i2 - 1) < 2 ^ bits)%N as H; [|apply N.pow_lt_mono_r_iff in H; lia].
  eapply N.le_lt_trans; [|exact Hlt].
  assert (2 ^ (i2 - i1) = 2 * 2 ^ (i2 - i1 - 1))%N as H2
    by (rewrite <-N.pow_succ_r'; f_equal; lia).
  assert (2 ^ (i2 - 1) = 2 ^ (i2 - i1 - 1) * 2 ^ i1)%N as ->
    by (rewrite <-N.pow_add_r; f_equal; lia).
  assert (0 < 2 ^ (i2 - i1 - 1))%N by (apply N.neq_0_lt_0, N.pow_nonzero; done).
  rewrite H2. nia.
Qed.

Lemma N2Z_pow2 n : Z.of_N (2 ^ n) = 2 ^ Z.of_N n.
Proof. by rewrite N2Z.inj_pow. Qed.

Lemma pow2_pos n : 0 < 2 ^ Z.of_N n.
Proof. apply Z.pow_pos_nonneg; lia. Qed.
#[export] Hint Resolve pow2_pos : movy.

Lemma N2Z_ones L a :
  Z.of_N ((2 ^ L - 1) * 2 ^ a) = Z.shiftl (Z.ones (Z.of_N L)) (Z.of_N a).
Proof.
  assert (0 < 2 ^ L)%N by (apply N.neq_0_lt_0, N.pow_nonzero; done).
  rewrite Z.shiftl_mul_pow2, Z.ones_equiv by lia.
  rewrite N2Z.inj_mul, N2Z.inj_sub by lia. rewrite !N2Z_pow2. lia.
Qed.

(** ** Meaning of the terms *)
Section soundness.
Context {I B : Type} `{ZL : Z3Laws I B} `{U : U256Lib}.
Variable ρ : string → Z.

Lemma eval_two_pow bits : (bits < 256)%N → evalI ρ (int_two_pow bits) = 2 ^ Z.of_N bits.
Proof.
  intros H. unfold int_two_pow. autorewrite with z3_eval. by rewrite u256_shl_one, N2Z_pow2.
Qed.

Lemma eval_mod_2n x bits :
  (bits < 256)%N → evalI ρ (int_mod_2n x bits) = evalI ρ x mod 2 ^ Z.of_N bits.
Proof.
  intros H. unfold int_mod_2n. rewrite eval_modulo; rewrite eval_two_pow by done; auto with movy.
Qed.

Lemma full_mask_ones bits : (bits < 256)%N → full_mask bits = N.ones bits.
Proof.
  intros H. unfold full_mask. rewrite u256_shl_one by done. rewrite N.ones_equiv.
  rewrite u256_sub_le; [lia|]. split.
  - assert (0 < 2 ^ bits)%N by (apply N.neq_0_lt_0, N.pow_nonzero; done). lia.
  - by apply N.pow_lt_mono_r.
Qed.

Lemma eval_run_term x0 (a b : N) :
  (a ≤ b)%N → (b + 1 < 256)%N →
  evalI ρ (run_term x0 (a, b)) =
    Z.land (evalI ρ x0) (Z.shiftl (Z.ones (Z.of_N (b - a + 1))) (Z.of_N a)).
Proof.
  intros Hab Hb. unfold run_term. rewrite eval_mul.
  rewrite eval_rem; rewrite eval_two_pow by lia; auto with movy.
  rewrite eval_div; rewrite eval_two_pow by lia; auto with movy.
  rewrite eval_rem; rewrite eval_two_pow by lia; auto with movy.
  rewrite <-window_land by lia. repeat f_equal. lia.
Qed.

Lemma eval_runs fuel x0 m i bits acc :
  (m < 2 ^ N.of_nat fuel)%N → (m < 2 ^ 256)%N → (m * 2 ^ i < 2 ^ bits)%N → (bits < 256)%N →
  evalI ρ (fold_left int_add (map (run_term x0) (mask_runs fuel m i)) acc) =
    evalI ρ acc + Z.land (evalI ρ x0) (Z.of_N (m * 2 ^ i)).
Proof.
  revert m i acc. induction fuel as [|fuel IH]; intros m i acc Hf Hm Hlt Hbits; cbn [mask_runs].
  { change (2 ^ N.of_nat 0)%N with 1%N in Hf. assert (m = 0)%N as -> by lia.
    simpl. rewrite Z.land_0_r. lia. }
  rewrite Nat2N.inj_succ, N.pow_succ_r' in Hf.
  destruct (N.eqb_spec m 0) as [->|Hnz]; [simpl; rewrite Z.land_0_r; lia|].
  destruct (skip_zeros _ m i) as [m1 i1] eqn:Hs.
  destruct (consume_ones _ m1 i1) as [m2 i2] eqn:Hc.
  destruct (run_split _ _ _ _ _ _ Hm Hnz Hs Hc) as (Hm1 & ? & ? & ? & Heq).
  destruct (N.eqb_spec m1 0) as [|_]; [done|]. rewrite Heq in Hlt |- *.
  assert (i2 ≤ bits)%N by by eapply run_bound.
  cbn [map fold_left]. rewrite IH; [|nia..|done]. rewrite eval_add, eval_run_term by lia.
  replace (i2 - 1 - i1 + 1)%N with (i2 - i1)%N by lia.
  assert (Z.of_N (m2 * 2 ^ i2) = Z.shiftl (Z.of_N m2) (Z.of_N i1 + Z.of_N (i2 - i1))) as Hm2.
  { rewrite Z.shiftl_mul_pow2 by lia. rewrite N2Z.inj_mul, N2Z_pow2. do 2 f_equal. lia. }
  rewrite N2Z.inj_add, N2Z_ones, land_add_disjoint; [lia|].
  rewrite Hm2. apply land_ones_shifted_disjoint; lia.
Qed.

(** A constant-mask [and] is the bitwise one on the low [bits] bits. *)
Lemma eval_bvand x mask bits :
  (bits < 256)%N → (mask < 2 ^ 256)%N →
  evalI ρ (int_bvand_const x mask bits) = Z.land (evalI ρ x mod 2 ^ Z.of_N bits) (Z.of_N mask).
Proof.
  intros Hb Hm. unfold int_bvand_const. rewrite full_mask_ones by done.
  destruct (N.eqb_spec mask 0) as [->|Hnz].
  { rewrite eval_from. by rewrite Z.land_0_r. }
  rewrite N.land_ones. assert (mask mod 2 ^ bits < 2 ^ bits)%N as Hlt.
  { apply N.mod_lt. by apply N.pow_nonzero. }
  assert (2 ^ bits < 2 ^ 256)%N by by apply N.pow_lt_mono_r.
  rewrite (eval_runs _ _ _ _ bits); [|change (N.of_nat 256) with 256%N; lia|lia|lia|done].
  rewrite eval_from, eval_mod_2n by done. rewrite Z.add_0_l, N.mul_1_r, N2Z.inj_mod, N2Z_pow2.
  rewrite <-!Z.land_ones by lia. rewrite (Z.land_comm (Z.of_N mask)), Z.land_assoc.
  by rewrite <-(Z.land_assoc (evalI ρ x)), Z.land_diag.
Qed.

Lemma masked_small mask bits : (bits < 256)%N → (N.land mask (N.ones bits) < 2 ^ 256)%N.
Proof.
  intros H. rewrite N.land_ones. transitivity (2 ^ bits)%N; [|by apply N.pow_lt_mono_r].
  apply N.mod_lt. by apply N.pow_nonzero.
Qed.

(** The complement of the mask inside the width. *)
Lemma N2Z_ones_plain bits : Z.of_N (N.ones bits) = Z.ones (Z.of_N bits).
Proof.
  rewrite N.ones_equiv, Z.ones_equiv.
  assert (0 < 2 ^ bits)%N by (apply N.neq_0_lt_0, N.pow_nonzero; done).
  rewrite N2Z.inj_pred by done. by rewrite N2Z_pow2.
Qed.

Lemma N2Z_mask mask bits :
  Z.of_N (N.land mask (N.ones bits)) = Z.land (Z.of_N mask) (Z.ones (Z.of_N bits)).
Proof. by rewrite N2Z.inj_land, N2Z_ones_plain. Qed.

Lemma not_mask_Z mask bits :
  Z.of_N (N.lxor (N.ones bits) (N.land mask (N.ones bits))) =
    Z.ldiff (Z.ones (Z.of_N bits)) (Z.of_N mask).
Proof. rewrite N2Z.inj_lxor, N2Z_mask, N2Z_ones_plain. z_bits. Qed.

Lemma mod_pow2_land x bits : x mod 2 ^ Z.of_N bits = Z.land x (Z.ones (Z.of_N bits)).
Proof. by rewrite Z.land_ones by lia. Qed.

Lemma ldiff_ones_mod x bits :
  Z.ldiff (Z.ones (Z.of_N bits)) x = Z.lnot x mod 2 ^ Z.of_N bits.
Proof. rewrite mod_pow2_land. z_bits. Qed.

Lemma eval_bvnot x bits :
  (bits < 256)%N →
  evalI ρ (int_bvnot x bits) = Z.ldiff (Z.ones (Z.of_N bits)) (evalI ρ x).
Proof.
  intros Hb. unfold int_bvnot. rewrite !eval_sub, eval_from, eval_two_pow, eval_mod_2n by done.
  rewrite mod_pow2_land, (Z.land_comm (evalI ρ x)).
  replace (2 ^ Z.of_N bits - 1) with (Z.ones (Z.of_N bits)) by (rewrite Z.ones_equiv; lia).
  rewrite Z.sub_land_same_l. z_bits.
Qed.

Lemma not_mask_small mask bits :
  (bits < 256)%N → (N.lxor (N.ones bits) (N.land mask (N.ones bits)) < 2 ^ 256)%N.
Proof.
  intros Hb. replace (N.lxor _ _) with (N.land (N.lnot mask bits) (N.ones bits));
    [by apply masked_small|].
  apply N.bits_inj. intros n. unfold N.lnot.
  rewrite N.land_spec, !N.lxor_spec, N.land_spec. by destruct (N.testbit mask n), (N.testbit (N.ones bits) n).
Qed.

Lemma eval_bvor x mask bits :
  (bits < 256)%N →
  evalI ρ (int_bvor_const x mask bits) =
    Z.lor (evalI ρ x mod 2 ^ Z.of_N bits) (Z.of_N mask mod 2 ^ Z.of_N bits).
Proof.
  intros Hb. unfold int_bvor_const. rewrite full_mask_ones by done.
  rewrite eval_add, eval_bvand by eauto using not_mask_small.
  unfold int_from_u256. rewrite eval_from, not_mask_Z, N2Z_mask, !mod_pow2_land.
  rewrite add_disjoint by z_bits. z_bits.
Qed.

Lemma eval_bvxor x mask bits :
  (bits < 256)%N →
  evalI ρ (int_bvxor_const x mask bits) =
    Z.lxor (evalI ρ x mod 2 ^ Z.of_N bits) (Z.of_N mask mod 2 ^ Z.of_N bits).
Proof.
  intros Hb. unfold int_bvxor_const. rewrite full_mask_ones by done.
  rewrite eval_mod_2n, eval_add, !eval_bvand by eauto using not_mask_small, masked_small.
  rewrite eval_bvnot, not_mask_Z, N2Z_mask, !mod_pow2_land by done.
  rewrite add_disjoint by z_bits. z_bits.
Qed.

Lemma eval_bvnot_sub x bits :
  (bits < 256)%N →
  evalI ρ (int_bvnot x bits) = 2 ^ Z.of_N bits - 1 - evalI ρ x mod 2 ^ Z.of_N bits.
Proof.
  intros Hb. unfold int_bvnot. by rewrite !eval_sub, eval_from, eval_two_pow, eval_mod_2n.
Qed.

(** C3: the integer terms built for [x & mask], [x | mask], [x ^ mask] and
    [!x] at a width below 256 bits evaluate, in every model, to the bitwise
    operations of the mask and the low [bits] bits of [x]. *)
Theorem int_bv_terms_correct x mask bits :
  (bits < 256)%N → (mask < 2 ^ 256)%N →
  evalI ρ (int_bvand_const x mask bits) = Z.land (evalI ρ x mod 2 ^ Z.of_N bits) (Z.of_N mask) ∧
  evalI ρ (int_bvor_const x mask bits) =
    Z.lor (evalI ρ x mod 2 ^ Z.of_N bits) (Z.of_N mask mod 2 ^ Z.of_N bits) ∧
  evalI ρ (int_bvxor_const x mask bits) =
    Z.lxor (evalI ρ x mod 2 ^ Z.of_N bits) (Z.of_N mask mod 2 ^ Z.of_N bits) ∧
  evalI ρ (int_bvnot x bits) = Z.lnot (evalI ρ x) mod 2 ^ Z.of_N bits.
Proof.
  intros Hb Hm. split_and!; [by apply eval_bvand|by apply eval_bvor|by apply eval_bvxor|].
  by rewrite eval_bvnot, ldiff_ones_mod.
Qed.
End soundness.

(** ** Witnesses: [0b10110110 & 0b1101], ... at eight bits *)
Definition x_182 : string → Z := λ _, 182.
Definition x_term : IntTerm := int_new_const "x".

Lemma int_bv_terms_correct_witness :
  evalI x_182 (int_bvand_const x_term 13 8) = 4 ∧
  evalI x_182 (int_bvor_const x_term 13 8) = 191 ∧
  evalI x_182 (int_bvxor_const x_term 13 8) = 187 ∧
  evalI x_182 (int_bvnot x_term 8) = 73.
Proof. exact (int_bv_terms_correct x_182 x_term 13 8 eq_refl eq_refl). Defined.
