(* ===== verification/TraceState.v ===== *)
(** * TraceState: the events of a Move execution, and their replay

    The data types of [move_binary_format] and [move_trace_format] are library
    types; what is declared here are the constructors and fields that
    [crates/movy-replay/src/tracer] matches on (every other bytecode is
    [Bc_Other]). [TraceLib] is the interface to the two accessors of
    [TraceValue] the source calls, with their documented behaviour.

    A concrete [sui_types::TypeTag] is the [MoveTypeTag] of [Types] (the two
    types have the same constructors).

    The replay is [crates/movy-replay/src/tracer/state.rs]. The operand stack has its top at
    the head of the list. Every [unwrap], [expect] and [panic!] is a [Panic]. *)
From S2P Require Import Prelude Types.

(** ** [Bytecode] *)
Inductive Bytecode :=
| Bc_Pop | Bc_Ret | Bc_BrTrue (off : N) | Bc_BrFalse (off : N) | Bc_Branch (off : N)
| Bc_LdU8 (n : N) | Bc_LdU16 (n : N) | Bc_LdU32 (n : N) | Bc_LdU64 (n : N)
| Bc_LdU128 (n : N) | Bc_LdU256 (n : N) | Bc_LdConst (idx : N) | Bc_LdTrue | Bc_LdFalse
| Bc_CastU8 | Bc_CastU16 | Bc_CastU32 | Bc_CastU64 | Bc_CastU128 | Bc_CastU256
| Bc_CopyLoc (idx : nat) | Bc_MoveLoc (idx : nat) | Bc_StLoc (idx : nat)
| Bc_MutBorrowLoc (idx : nat) | Bc_ImmBorrowLoc (idx : nat)
| Bc_WriteRef
| Bc_Call (idx : N) | Bc_CallGeneric (idx : N)
| Bc_Pack (idx : N) | Bc_PackGeneric (idx : N) | Bc_Unpack (idx : N) | Bc_UnpackGeneric (idx : N)
| Bc_PackVariant (idx : N) | Bc_PackVariantGeneric (idx : N)
| Bc_UnpackVariant (idx : N) | Bc_UnpackVariantImmRef (idx : N) | Bc_UnpackVariantMutRef (idx : N)
| Bc_UnpackVariantGeneric (idx : N) | Bc_UnpackVariantGenericImmRef (idx : N)
| Bc_UnpackVariantGenericMutRef (idx : N) | Bc_VariantSwitch (idx : N)
| Bc_Add | Bc_Sub | Bc_Mul | Bc_Div | Bc_Mod
| Bc_BitAnd | Bc_BitOr | Bc_Xor | Bc_Shl | Bc_Shr
| Bc_And | Bc_Or | Bc_Not
| Bc_Eq | Bc_Neq | Bc_Lt | Bc_Le | Bc_Gt | Bc_Ge
| Bc_Abort
| Bc_VecPack (sig : N) (len : nat) | Bc_VecUnpack (sig : N) (len : nat)
| Bc_VecImmBorrow (sig : N) | Bc_VecMutBorrow (sig : N) | Bc_VecPushBack (sig : N)
| Bc_VecSwap (sig : N)
| Bc_Other (opcode : N).

#[export] Instance Bytecode_eq_dec : EqDecision Bytecode.
Proof. solve_decision. Defined.

(** ** Values *)
#[local] Unset Elimination Schemes.
Inductive SerializableMoveValue :=
| SmvAddress (a : MoveAddress)
| SmvBool (b : bool)
| SmvU8 (v : N) | SmvU16 (v : N) | SmvU32 (v : N) | SmvU64 (v : N) | SmvU128 (v : N) | SmvU256 (v : N)
| SmvStruct (type_ : MoveStructTag) (fields : list (string * SerializableMoveValue))
| SmvVector (elems : list SerializableMoveValue)
| SmvVariant (type_ : MoveStructTag) (variant_name : string)
    (fields : list (string * SerializableMoveValue)).
#[local] Set Elimination Schemes.

Abbreviation TraceIndex := N.

Inductive Location :=
| Loc_Local (frame_idx : TraceIndex) (idx : nat)
| Loc_Indexed (loc : Location) (offset : nat)
| Loc_Global (id : TraceIndex).

Inductive TraceValue :=
| RuntimeValue (value : SerializableMoveValue)
| ImmRef (location : Location) (snapshot : SerializableMoveValue)
| MutRef (location : Location) (snapshot : SerializableMoveValue).

(** [TraceValue::snapshot] reads the value a trace value shows;
    [TraceValue::value_mut] gives mutable access to the value of a
    [RuntimeValue] and is [None] on references: [value_set v] is the effect of
    writing through it. *)
Class TraceLib := {
  snapshot : TraceValue → SerializableMoveValue;
  value_set : TraceValue → SerializableMoveValue → option TraceValue;
  snapshot_runtime v : snapshot (RuntimeValue v) = v;
  snapshot_imm l v : snapshot (ImmRef l v) = v;
  snapshot_mut l v : snapshot (MutRef l v) = v;
  value_set_runtime v w : value_set (RuntimeValue v) w = Some (RuntimeValue w);
  value_set_snapshot t w t' : value_set t w = Some t' → snapshot t' = w;
}.

#[export, refine] Instance TraceLib_plain : TraceLib := {
  snapshot t := match t with RuntimeValue v | ImmRef _ v | MutRef _ v => v end;
  value_set t w := match t with RuntimeValue _ => Some (RuntimeValue w) | _ => None end;
}.
Proof.
  1-4: done. intros [] w t' [= <-]; done.
Defined.

(** ** Frames and events *)
Record TypeTagWithRefs := MkTagRef {
  tt_type : MoveTypeTag; tt_ref_type : option bool (* [Some true]: mutable *) }.

Record Frame := MkFrame {
  fr_frame_id : TraceIndex;
  fr_module : MoveModuleId;
  fr_version_id : MoveAddress;
  fr_binary_member_index : N;
  fr_function_name : string;
  fr_parameters : list TraceValue;
  fr_locals_types : list TypeTagWithRefs;
  fr_return_types : list TypeTagWithRefs;
  fr_is_native : bool;
  fr_type_instantiation : list MoveTypeTag }.

Inductive Effect :=
| Eff_Push (value : TraceValue)
| Eff_Pop (value : TraceValue)
| Eff_Read (location : Location) (root_value_read : TraceValue) (moved : bool)
| Eff_Write (location : Location) (root_value_after_write : TraceValue)
| Eff_DataLoad (location : Location) (snapshot : SerializableMoveValue)
| Eff_ExecutionError (message : string).

(** [External] carries a JSON value; only [as_str] of it is read. *)
Inductive TraceEvent :=
| Ev_OpenFrame (frame : Frame) (gas_left : N)
| Ev_CloseFrame (frame_id : TraceIndex) (return_ : list TraceValue) (gas_left : N)
| Ev_Instruction (type_parameters : list MoveTypeTag) (pc : N) (gas_left : N)
    (instruction : Bytecode)
| Ev_Effect (effect : Effect)
| Ev_External (as_str : option string).

Definition is_move_call_start (as_str : option string) : bool :=
  bool_decide (as_str = Some "MoveCallStart").

Section state.
Context `{TL : TraceLib}.

Abbreviation Locals := (gmap nat TraceValue).

Record TraceState := MkTraceState {
  loaded_state : gmap TraceIndex SerializableMoveValue;
  operand_stack : list TraceValue;
  call_stack : gmap TraceIndex (Locals * bool) }.

Definition trace_state_new : TraceState := MkTraceState ∅ [] ∅.

Definition with_stack (s : TraceState) (st : list TraceValue) : TraceState :=
  MkTraceState (loaded_state s) st (call_stack s).
Definition with_calls (s : TraceState) (cs : gmap TraceIndex (Locals * bool)) : TraceState :=
  MkTraceState (loaded_state s) (operand_stack s) cs.
Definition with_loaded (s : TraceState) (ld : gmap TraceIndex SerializableMoveValue) :
    TraceState := MkTraceState ld (operand_stack s) (call_stack s).

(** The loop over the parameters of an opened frame: one pop (which may fail
    silently) and one local per parameter. *)
Fixpoint open_params (i : nat) (ps : list TraceValue) (stack : list TraceValue) (locals : Locals) :
    list TraceValue * Locals :=
  match ps with
  | [] => (stack, locals)
  | p :: ps => open_params (S i) ps (tail stack) (<[i := p]> locals)
  end.

(** [get_mut_location] followed by the assignment [*val = w]. *)
Fixpoint set_location (s : TraceState) (location : Location) (w : SerializableMoveValue) :
    panics TraceState :=
  match location with
  | Loc_Local frame_idx idx =>
      frame ← unwrap (call_stack s !! frame_idx);
      tv ← unwrap (frame.1 !! idx);
      tv' ← unwrap (value_set tv w);
      Ret (with_calls s (<[frame_idx := (<[idx := tv']> frame.1, frame.2)]> (call_stack s)))
  | Loc_Indexed loc _ => set_location s loc w
  | Loc_Global id =>
      _ ← unwrap (loaded_state s !! id);
      Ret (with_loaded s (<[id := w]> (loaded_state s)))
  end.

Definition apply_read (s : TraceState) (location : Location) (moved : bool) : panics TraceState :=
  if moved then
    match location with
    | Loc_Local frame_idx idx =>
        frame ← unwrap (call_stack s !! frame_idx);
        Ret (with_calls s (<[frame_idx := (delete idx frame.1, frame.2)]> (call_stack s)))
    | Loc_Indexed _ _ => Panic
    | Loc_Global _ => Panic
    end
  else Ret s.

Definition apply_write (s : TraceState) (location : Location) (value_written : TraceValue) :
    panics TraceState :=
  match location with
  | Loc_Local frame_idx idx =>
      frame ← unwrap (call_stack s !! frame_idx);
      Ret (with_calls s
        (<[frame_idx := (<[idx := value_written]> frame.1, frame.2)]> (call_stack s)))
  | Loc_Indexed location _ => set_location s location (snapshot value_written)
  | Loc_Global id =>
      _ ← unwrap (loaded_state s !! id);
      Ret (with_loaded s (<[id := snapshot value_written]> (loaded_state s)))
  end.

Definition apply_effect (s : TraceState) (ef : Effect) : panics TraceState :=
  match ef with
  | Eff_ExecutionError _ => Ret s
  | Eff_Push value => Ret (with_stack s (value :: operand_stack s))
  | Eff_Pop _ =>
      match operand_stack s with
      | [] => Panic
      | _ :: rest => Ret (with_stack s rest)
      end
  | Eff_Read location _ moved => apply_read s location moved
  | Eff_Write location value_written => apply_write s location value_written
  | Eff_DataLoad location snapshot =>
      match location with
      | Loc_Global id => Ret (with_loaded s (<[id := snapshot]> (loaded_state s)))
      | _ => Panic
      end
  end.

Definition apply_event (s : TraceState) (event : TraceEvent) : panics TraceState :=
  match event with
  | Ev_OpenFrame frame _ =>
      let '(stack, locals) := open_params 0 (fr_parameters frame) (operand_stack s) ∅ in
      Ret (MkTraceState (loaded_state s) stack
        (<[fr_frame_id frame := (locals, fr_is_native frame)]> (call_stack s)))
  | Ev_CloseFrame _ _ _ =>
      last ← unwrap (btree_last (call_stack s));
      Ret (with_calls s (delete last.1 (call_stack s)))
  | Ev_Effect ef => apply_effect s ef
  | Ev_External as_str =>
      if is_move_call_start as_str then Ret trace_state_new else Ret s
  | Ev_Instruction _ _ _ _ => Ret s
  end.

Fixpoint apply_events (s : TraceState) (evs : list TraceEvent) : panics TraceState :=
  match evs with
  | [] => Ret s
  | e :: evs => s' ← apply_event s e; apply_events s' evs
  end.

(** ** Lemmas *)

Lemma open_params_spec i ps stack locals :
  (open_params i ps stack locals).1 = drop (length ps) stack ∧
  ∀ j, (open_params i ps stack locals).2 !! j =
    if decide (i ≤ j < i + length ps) then ps !! (j - i) else locals !! j.
Proof.
  revert i stack locals. induction ps as [|p ps IH]; intros i stack locals; simpl.
  - split; [done|]. intros j. case_decide; [lia|done].
  - destruct (IH (S i) (tail stack) (<[i:=p]> locals)) as [IHs IHl]. split.
    + rewrite IHs. destruct stack; simpl; by rewrite ?drop_nil.
    + intros j. rewrite IHl, lookup_insert. repeat case_decide; subst; try lia.
      * replace (j - i) with (S (j - S i)) by lia. done.
      * by rewrite Nat.sub_diag.
      * done.
Qed.

(** The value a location denotes (specification). *)
Fixpoint get_location (s : TraceState) (location : Location) : option SerializableMoveValue :=
  match location with
  | Loc_Local frame_idx idx =>
      frame ← call_stack s !! frame_idx; tv ← frame.1 !! idx; Some (snapshot tv)
  | Loc_Indexed loc _ => get_location s loc
  | Loc_Global id => loaded_state s !! id
  end.

(** The location at the root of a chain of indexings. *)
Fixpoint loc_root (location : Location) : Location :=
  match location with Loc_Indexed loc _ => loc_root loc | l => l end.

Lemma set_location_root s l w : set_location s l w = set_location s (loc_root l) w.
Proof. by induction l. Qed.

Lemma get_location_root s l : get_location s l = get_location s (loc_root l).
Proof. by induction l. Qed.

Lemma loc_root_not_indexed l l' o : loc_root l ≠ Loc_Indexed l' o.
Proof. by induction l. Qed.

Lemma get_set_location_root s l w s' :
  set_location s (loc_root l) w = Ret s' →
  get_location s' (loc_root l) = Some w ∧ operand_stack s' = operand_stack s ∧
  dom (call_stack s') = dom (call_stack s) ∧
  ∀ l', loc_root l' ≠ loc_root l → get_location s' (loc_root l') = get_location s (loc_root l').
Proof.
  intros H. destruct (loc_root l) as [f i|l0 o|id] eqn:E; [|by apply loc_root_not_indexed in E|].
  - cbn [set_location] in H. panics_inv. subst s'.
    destruct x as [locals native]; simpl in *. split_and!; [|done|..].
    + simpl. rewrite lookup_insert_eq. simpl. rewrite lookup_insert_eq. simpl.
      f_equal. by eapply value_set_snapshot.
    + rewrite dom_insert_L. apply elem_of_dom_2 in H. set_solver.
    + intros l' Hne. destruct (loc_root l') as [f' i'|l1 o|id'] eqn:E'; [|by apply loc_root_not_indexed in E'|done].
      simpl. destruct (decide (f' = f)) as [->|]; [|by rewrite lookup_insert_ne].
      rewrite lookup_insert_eq, H. simpl. rewrite lookup_insert_ne; [done|naive_solver].
  - cbn [set_location] in H. panics_inv. subst s'. simpl. split_and!; [by rewrite lookup_insert_eq|done..|].
    intros l' Hne. destruct (loc_root l') as [f' i'|l1 o|id'] eqn:E'; [done|by apply loc_root_not_indexed in E'|].
    simpl. rewrite lookup_insert_ne; [done|naive_solver].
Qed.

(** ** Balanced traces

    The call discipline of a trace: frame ids grow along nesting and every
    opened frame is closed. [plain] events leave the call stack's frames
    alone. *)
Definition plain (e : TraceEvent) : bool :=
  match e with
  | Ev_Effect _ | Ev_Instruction _ _ _ _ => true
  | Ev_External o => negb (is_move_call_start o)
  | _ => false
  end.

Inductive balanced : N → list TraceEvent → Prop :=
| bal_nil lo : balanced lo []
| bal_plain lo e evs : plain e = true → balanced lo evs → balanced lo (e :: evs)
| bal_frame lo f g body id r g' evs :
    (lo ≤ fr_frame_id f)%N → balanced (fr_frame_id f + 1) body → balanced lo evs →
    balanced lo (Ev_OpenFrame f g :: body ++ Ev_CloseFrame id r g' :: evs).

Lemma apply_events_app s l1 l2 :
  apply_events s (l1 ++ l2) = (s' ← apply_events s l1; apply_events s' l2).
Proof.
  revert s. induction l1 as [|e l1 IH]; intros s; [done|]. simpl.
  destruct (apply_event s e) as [s'|]; [apply IH|done].
Qed.

Lemma apply_plain_dom s e s' :
  plain e = true → apply_event s e = Ret s' → dom (call_stack s') = dom (call_stack s).
Proof.
  intros Hp H. destruct e as [| | |ef|o]; simpl in *; [done|done|by simplify_eq| |].
  - destruct ef as [v|v|l v moved|l v|l sn|msg]; simpl in *; simplify_eq; try done.
    + destruct (operand_stack s); by simplify_eq.
    + unfold apply_read in H. destruct moved; [|by simplify_eq].
      destruct l; [|done..]. panics_inv. subst s'. simpl.
      rewrite dom_insert_L. apply elem_of_dom_2 in H. set_solver.
    + destruct l as [f i|l o|id]; cbn [apply_write] in H.
      * panics_inv. subst s'. simpl. rewrite dom_insert_L. apply elem_of_dom_2 in H. set_solver.
      * rewrite set_location_root in H. by apply get_set_location_root in H as (_ & _ & ? & _).
      * panics_inv. by subst s'.
    + destruct l; by simplify_eq.
  - destruct (is_move_call_start o); by simplify_eq.
Qed.

Lemma open_frame_state s f g :
  ∃ locals, apply_event s (Ev_OpenFrame f g) =
    Ret (MkTraceState (loaded_state s) (drop (length (fr_parameters f)) (operand_stack s))
      (<[fr_frame_id f := (locals, fr_is_native f)]> (call_stack s))) ∧
    ∀ j, locals !! j = fr_parameters f !! j.
Proof.
  destruct (open_params_spec 0 (fr_parameters f) (operand_stack s) ∅) as [Hs Hl].
  simpl. destruct (open_params _ _ _ _) as [st locals]; simpl in *; subst st.
  exists locals. split; [done|]. intros j. rewrite Hl, Nat.sub_0_r.
  case_decide; [done|]. rewrite lookup_empty. symmetry. apply lookup_ge_None. lia.
Qed.

Lemma balanced_dom lo evs s s' :
  balanced lo evs → (∀ id, is_Some (call_stack s !! id) → (id < lo)%N) →
  apply_events s evs = Ret s' → dom (call_stack s') = dom (call_stack s).
Proof.
  intros Hb. revert s s'. induction Hb as [lo|lo e evs Hp _ IH|lo f g body id r g' evs Hlo _ IHb _ IH];
    intros s s' Hids H.
  - by simplify_eq/=.
  - cbn [apply_events] in H. apply panics_bind_Ret in H as (s1 & He & H).
    pose proof (apply_plain_dom _ _ _ Hp He) as Hd. rewrite <-Hd. apply IH; [|done].
    intros id Hid%elem_of_dom. apply Hids, elem_of_dom. by rewrite <-Hd.
  - destruct (open_frame_state s f g) as (locals & Hopen & _).
    cbn [apply_events] in H. rewrite Hopen in H. cbn [mbind panics_mbind panics_bind] in H.
    rewrite apply_events_app in H. apply panics_bind_Ret in H as (s1 & Hbody & H).
    assert (∀ i, is_Some (call_stack s !! i) → (i < fr_frame_id f)%N) as Hlt
      by (intros i Hi; specialize (Hids _ Hi); lia).
    apply IHb in Hbody; simpl.
    2:{ intros i [<-|[_ Hi]]%lookup_insert_is_Some; [lia|]. specialize (Hlt _ Hi). lia. }
    simpl in Hbody. rewrite dom_insert_L in Hbody.
    cbn [apply_events apply_event] in H. apply panics_bind_Ret in H as (s2 & Hclose & H).
    apply panics_bind_Ret in Hclose as ([k v] & Hlast%unwrap_Ret & [= <-]).
    apply btree_last_Some in Hlast as [Hk Hmax].
    assert (k = fr_frame_id f) as ->.
    { assert (fr_frame_id f ≤ k)%N by (apply Hmax, elem_of_dom; rewrite Hbody; set_solver).
      apply elem_of_dom_2 in Hk. rewrite Hbody, elem_of_union, elem_of_singleton in Hk.
      destruct Hk as [?|Hk%elem_of_dom%Hlt]; [done|lia]. }
    assert (dom (delete (fr_frame_id f) (call_stack s1)) = dom (call_stack s)) as Hd.
    { rewrite dom_delete_L, Hbody. apply set_eq. intros x.
      rewrite elem_of_difference, elem_of_union, elem_of_singleton.
      split; [naive_solver|]. intros Hx. split; [by right|].
      intros ->. apply elem_of_dom, Hlt in Hx. lia. }
    rewrite <-Hd. change (delete _ (call_stack s1)) with
      (call_stack (with_calls s1 (delete (fr_frame_id f) (call_stack s1)))).
    apply IH; [|done]. simpl. intros i Hi%elem_of_dom. rewrite Hd in Hi. by apply Hids, elem_of_dom.
Qed.

(** Events that cannot abort the replay by themselves: everything but pops,
    moves and writes. *)
Definition quiet (e : TraceEvent) : bool :=
  match e with
  | Ev_Effect (Eff_Push _) | Ev_Effect (Eff_ExecutionError _)
  | Ev_Effect (Eff_DataLoad (Loc_Global _) _) | Ev_Effect (Eff_Read _ _ false) => true
  | Ev_Effect _ => false
  | _ => true
  end.

Lemma quiet_step s e :
  quiet e = true → (∀ id r g, e ≠ Ev_CloseFrame id r g) → ∃ s', apply_event s e = Ret s'.
Proof.
  intros Hq Hne. destruct e as [f g|id r g| |ef|o]; [|by destruct (Hne id r g)|by eexists| |].
  - destruct (open_frame_state s f g) as (? & ? & _). by eexists.
  - destruct ef as [| |l v []| |[] sn|]; simpl in *; try done; by eexists.
  - simpl. destruct (is_move_call_start o); by eexists.
Qed.

Lemma balanced_quiet_total lo evs s :
  balanced lo evs → (∀ id, is_Some (call_stack s !! id) → (id < lo)%N) →
  Forall (λ e, quiet e = true) evs → ∃ s', apply_events s evs = Ret s'.
Proof.
  intros Hb. revert s. induction Hb as [lo|lo e evs Hp Hb IH|lo f g body id r g' evs Hlo Hbody IHb _ IH];
    intros s Hids Hq; [by eexists|..].
  - apply Forall_cons in Hq as [Hqe Hq].
    destruct (quiet_step s e Hqe) as [s1 H1]; [by intros ? ? ? ->|].
    cbn [apply_events]. rewrite H1. apply IH; [|done].
    intros i Hi%elem_of_dom. rewrite (apply_plain_dom _ _ _ Hp H1) in Hi. by apply Hids, elem_of_dom.
  - rewrite Forall_cons, Forall_app, Forall_cons in Hq. destruct Hq as (_ & Hqb & _ & Hq).
    destruct (open_frame_state s f g) as (locals & Hopen & _).
    cbn [apply_events]. rewrite Hopen. cbn [mbind panics_mbind panics_bind].
    set (s0 := MkTraceState (loaded_state s) _ _).
    assert (∀ i, is_Some (call_stack s0 !! i) → (i < fr_frame_id f + 1)%N) as Hids0.
    { intros i Hi. simpl in Hi. apply lookup_insert_is_Some in Hi as [<-|[_ Hi]]; [lia|].
      specialize (Hids _ Hi). lia. }
    destruct (IHb s0 Hids0 Hqb) as [s1 H1]. rewrite apply_events_app, H1.
    cbn [mbind panics_mbind panics_bind]. pose proof (balanced_dom _ _ _ _ Hbody Hids0 H1) as Hd.
    cbn [apply_events apply_event].
    destruct (btree_last (call_stack s1)) as [[k v]|] eqn:E.
    + apply IH; [|done]. intros i Hi. simpl in Hi. apply lookup_delete_is_Some in Hi as [Hne Hi].
      apply elem_of_dom in Hi. rewrite Hd in Hi. apply elem_of_dom in Hi. simpl in Hi.
      apply lookup_insert_is_Some in Hi as [<-|[_ Hi]]; [|by apply Hids].
      apply btree_last_Some in E as [Hk Hmax]. destruct Hne.
      assert (fr_frame_id f ≤ k)%N by (apply Hmax, elem_of_dom; rewrite Hd; simpl; set_solver).
      apply elem_of_dom_2 in Hk. rewrite Hd in Hk. apply elem_of_dom, Hids0 in Hk. simpl. lia.
    + apply btree_last_None in E. rewrite E in Hd. simpl in Hd. set_solver.
Qed.

(** ** Properties *)

(** When a frame is opened, its locals are exactly the frame's
    parameters, in order, and as many values are gone from the operand stack;
    the rest of the stack, the loaded state and every other frame are
    untouched. *)
Theorem open_frame_locals s f g :
  ∃ locals, apply_event s (Ev_OpenFrame f g) =
    Ret (MkTraceState (loaded_state s) (drop (length (fr_parameters f)) (operand_stack s))
      (<[fr_frame_id f := (locals, fr_is_native f)]> (call_stack s))) ∧
    ∀ j, locals !! j = fr_parameters f !! j.
Proof. apply open_frame_state. Qed.

(** A write through a reference that succeeds is read back at that
    location and changes no location with another root. *)
Theorem write_reference_read_back s l o v s' :
  apply_event s (Ev_Effect (Eff_Write (Loc_Indexed l o) v)) = Ret s' →
  get_location s' l = Some (snapshot v) ∧
  operand_stack s' = operand_stack s ∧
  ∀ l', loc_root l' ≠ loc_root l → get_location s' l' = get_location s l'.
Proof.
  intros H. cbn [apply_event apply_effect apply_write] in H. rewrite set_location_root in H.
  apply get_set_location_root in H as (Hget & Hst & _ & Hother).
  split_and!; [by rewrite get_location_root|done|].
  intros l' Hne. rewrite (get_location_root s'), (get_location_root s). by apply Hother.
Qed.


End state.

(** ** Witnesses *)
Definition demo_frame (id : N) (ps : list TraceValue) : Frame :=
  MkFrame id (MkModuleId addr_two "coin") addr_two 0 "value" ps [] [] false [].
Definition demo_u64 (n : N) : TraceValue := RuntimeValue (SmvU64 n).

Definition demo_trace : list TraceEvent :=
  [Ev_Instruction [] 0 100 (Bc_LdU64 7); Ev_Effect (Eff_Push (demo_u64 7));
   Ev_OpenFrame (demo_frame 5 [demo_u64 7]) 90; Ev_Instruction [] 0 80 (Bc_CopyLoc 0);
   Ev_Effect (Eff_Push (demo_u64 7)); Ev_CloseFrame 5 [demo_u64 7] 70;
   Ev_Instruction [] 1 60 Bc_Pop].
Definition demo_state : TraceState := MkTraceState ∅ [] {[ 2%N := (∅, false) ]}.

Lemma write_reference_read_back_witness :
  ∃ s', apply_event (MkTraceState ∅ [] {[ 2%N := ({[ 0 := demo_u64 1 ]}, false) ]})
          (Ev_Effect (Eff_Write (Loc_Indexed (Loc_Local 2 0) 0) (demo_u64 9))) = Ret s' ∧
    get_location s' (Loc_Local 2 0) = Some (SmvU64 9).
Proof.
  eexists. split; [vm_compute; reflexivity|].
  refine (proj1 (write_reference_read_back
    (MkTraceState ∅ [] {[ 2%N := ({[ 0 := demo_u64 1 ]}, false) ]})
    (Loc_Local 2 0) 0 (demo_u64 9) _ _)).
  vm_compute. reflexivity.
Defined.

