(* ===== verification/Concolic.v ===== *)
(** * Concolic: symbolic execution alongside the VM

    [crates/movy-replay/src/tracer/concolic.rs], lines 18-108 and 232-1009. The
    symbolic operand stack, like the VM's, has its top at the head of the list;
    [locals] has the innermost frame at the head. Every [unwrap],
    [unreachable!] and out-of-range index is a [Panic]. *)
From S2P Require Import Prelude Types Z3 BitOps TraceState.
From stdpp Require Import pretty.

(** ** Concrete primitive values *)
Inductive PrimitiveValue :=
| PV_Bool (b : bool) | PV_U8 (u : N) | PV_U16 (u : N) | PV_U32 (u : N) | PV_U64 (u : N)
| PV_U128 (u : N) | PV_U256 (u : N).

Definition bitwidth (p : PrimitiveValue) : N :=
  match p with
  | PV_Bool _ => 1 | PV_U8 _ => 8 | PV_U16 _ => 16 | PV_U32 _ => 32
  | PV_U64 _ => 64 | PV_U128 _ => 128 | PV_U256 _ => 256
  end%N.

Definition as_u256 (p : PrimitiveValue) : N :=
  match p with
  | PV_Bool b => if b then 1%N else 0%N
  | PV_U8 u | PV_U16 u | PV_U32 u | PV_U64 u | PV_U128 u | PV_U256 u => u
  end.

Section concrete.
Context `{TL : TraceLib}.

Definition extract_primitive_value (v : TraceValue) : panics PrimitiveValue :=
  match snapshot v with
  | SmvBool b => Ret (PV_Bool b)
  | SmvU8 u => Ret (PV_U8 u)
  | SmvU16 u => Ret (PV_U16 u)
  | SmvU32 u => Ret (PV_U32 u)
  | SmvU64 u => Ret (PV_U64 u)
  | SmvU128 u => Ret (PV_U128 u)
  | SmvU256 u => Ret (PV_U256 u)
  | _ => Panic
  end.

Definition compare_value_impl (v1 v2 : PrimitiveValue) : panics comparison :=
  match v1, v2 with
  | PV_Bool l, PV_Bool r => Ret (N.compare (N.b2n l) (N.b2n r))
  | PV_U8 l, PV_U8 r | PV_U16 l, PV_U16 r | PV_U32 l, PV_U32 r | PV_U64 l, PV_U64 r
  | PV_U128 l, PV_U128 r | PV_U256 l, PV_U256 r => Ret (N.compare l r)
  | _, _ => Panic
  end.

Definition compare_value (v1 v2 : TraceValue) : panics comparison :=
  p1 ← extract_primitive_value v1;
  p2 ← extract_primitive_value v2;
  compare_value_impl p1 p2.

Definition value_to_u256 (v : TraceValue) : panics N :=
  p ← extract_primitive_value v; Ret (as_u256 p).
Definition value_bitwidth (v : TraceValue) : panics N :=
  p ← extract_primitive_value v; Ret (bitwidth p).

Definition stack_top2 (stack : list TraceValue) : panics (TraceValue * TraceValue) :=
  match stack with rhs :: lhs :: _ => Ret (lhs, rhs) | _ => Panic end.
Definition stack_top1 (stack : list TraceValue) : panics TraceValue :=
  match stack with v :: _ => Ret v | [] => Panic end.

End concrete.

(** ** The static information about packs and unpacks *)
Inductive InstructionExtraInformation :=
| Ex_Pack (n : nat) | Ex_PackGeneric (n : nat) | Ex_PackVariant (n : nat)
| Ex_PackVariantGeneric (n : nat) | Ex_Unpack (n : nat) | Ex_UnpackVariant (n : nat)
| Ex_UnpackGeneric (n : nat) | Ex_UnpackVariantGeneric (n : nat).

(** ** The symbolic state *)
Inductive SymbolValue (I : Type) := SV_Value (i : I) | SV_Unknown.
Arguments SV_Value {I} i.
Arguments SV_Unknown {I}.

Record ConcolicState (I : Type) := MkConcolic {
  cs_stack : list (SymbolValue I);
  cs_locals : list (list (SymbolValue I));
  cs_args : list (gmap nat I);
  cs_disable : bool }.
Arguments MkConcolic {I} _ _ _ _.
Arguments cs_stack {I} _.
Arguments cs_locals {I} _.
Arguments cs_args {I} _.
Arguments cs_disable {I} _.

Section concolic.
Context {I B : Type} `{ZA : Z3Ast I B} `{U : U256Lib} `{TL : TraceLib}.
Abbreviation SV := (SymbolValue I).
Abbreviation CS := (ConcolicState I).

Definition concolic_new : CS := MkConcolic [] [] [] false.
Definition set_stack (s : CS) (st : list SV) : CS :=
  MkConcolic st (cs_locals s) (cs_args s) (cs_disable s).
Definition set_locals (s : CS) (ls : list (list SV)) : CS :=
  MkConcolic (cs_stack s) ls (cs_args s) (cs_disable s).
Definition set_disable (s : CS) : CS :=
  MkConcolic (cs_stack s) (cs_locals s) (cs_args s) true.
Definition push (v : SV) (s : CS) : CS := set_stack s (v :: cs_stack s).

Definition max_u_bits (n : N) : panics I :=
  if (n <=? 63)%N then Ret (int_from (2 ^ Z.of_N n - 1))
  else match n with
  | 64 => Ret (int_from 18446744073709551615)
  | 128 => Ret (int_from 340282366920938463463374607431768211455)
  | 256 => Ret (int_from
      115792089237316195423570985008687907853269984665640564039457584007913129639935)
  | _ => Panic
  end%N.

(** The symbolic constant of parameter [param_index] of command [cmd_index]. *)
Definition arg_name (cmd_index param_index : nat) : string :=
  pretty cmd_index +:+ "." +:+ pretty param_index.

Definition resolve_arg (cmd_index param_index : nat) (ty : TypeTagWithRefs) : SV :=
  match tt_ref_type ty with
  | Some _ => SV_Unknown
  | None =>
      match tt_type ty with
      | Tag_Bool | Tag_U8 | Tag_U16 | Tag_U32 | Tag_U64 | Tag_U128 | Tag_U256 =>
          SV_Value (int_new_const (arg_name cmd_index param_index))
      | _ => SV_Unknown
      end
  end.

Definition resolve_value (value : TraceValue) : panics I :=
  p ← extract_primitive_value value;
  match p with
  | PV_Bool b => Ret (int_from (if b then 1 else 0)%Z)
  | PV_U8 u | PV_U16 u | PV_U32 u | PV_U64 u | PV_U128 u | PV_U256 u =>
      Ret (int_from (Z.of_N u))
  end.

(** [let (rhs, lhs) = (self.stack.pop().unwrap(), self.stack.pop().unwrap())] *)
Definition pop2 (st : list SV) : panics (SV * SV * list SV) :=
  match st with rhs :: lhs :: rest => Ret (lhs, rhs, rest) | _ => Panic end.

(** The concrete value stands in for the operand that is not symbolic. *)
Definition resolve_operands (lhs rhs : SV) (true_lhs true_rhs : TraceValue) :
    panics (option (I * I)) :=
  match lhs, rhs with
  | SV_Value l, SV_Value r => Ret (Some (l, r))
  | SV_Value l, SV_Unknown => r ← resolve_value true_rhs; Ret (Some (l, r))
  | SV_Unknown, SV_Value r => l ← resolve_value true_lhs; Ret (Some (l, r))
  | SV_Unknown, SV_Unknown => Ret None
  end.

Definition process_binary_op (s : CS) (stack : list TraceValue) : panics (CS * option (I * I)) :=
  '(lhs, rhs, rest) ← pop2 (cs_stack s);
  '(true_lhs, true_rhs) ← stack_top2 stack;
  o ← resolve_operands lhs rhs true_lhs true_rhs;
  Ret (set_stack s rest, o).

(** ** Frames and raw events *)
Definition on_move_call_inner (s : CS) : CS :=
  MkConcolic [] [] (cs_args s) (cs_disable s).

(** Whether to go on, and the new state: a height mismatch at an instruction
    disables the executor for good. *)
Definition on_raw_event_inner (s : CS) (ev : TraceEvent) (trace_state : TraceState) : CS * bool :=
  if cs_disable s then (s, false) else
  let stack := operand_stack trace_state in
  match ev with
  | Ev_Instruction _ _ _ _ =>
      if negb (length (cs_stack s) =? length stack)%nat then (set_disable s, false) else (s, true)
  | Ev_Effect (Eff_ExecutionError _) => (set_stack s (tail (cs_stack s)), true)
  | _ => (s, true)
  end.

Definition resize_unknown (n : nat) (l : list SV) : list SV :=
  l ++ replicate (n - length l) SV_Unknown.

(** The symbolic arguments of a command, by parameter index. *)
Definition symbolic_args (locals : list SV) : gmap nat I :=
  list_to_map (omap (λ p : nat * SV, match p.2 with SV_Value bv => Some (p.1, bv) | SV_Unknown => None end)
    (imap pair locals)).

Definition on_open_frame_inner (s : CS) (frame : Frame) : CS :=
  let param_count := length (fr_parameters frame) in
  match cs_locals s with
  | [] =>
      let locals :=
        match fr_locals_types frame with
        | [] => replicate param_count SV_Unknown
        | tys => imap (λ i ty, resolve_arg (length (cs_args s)) i ty) tys
        end in
      let locals := if (length locals <? param_count)%nat then resize_unknown param_count locals
                    else locals in
      MkConcolic (cs_stack s) [locals] (cs_args s ++ [symbolic_args (take param_count locals)])
        (cs_disable s)
  | ls =>
      let arg_len := Nat.min param_count (length (cs_stack s)) in
      let locals := reverse (take arg_len (cs_stack s)) in
      let stack := drop arg_len (cs_stack s) in
      let locals := if (length locals <? length (fr_locals_types frame))%nat
                    then resize_unknown (length (fr_locals_types frame)) locals else locals in
      let stack := if fr_is_native frame
                   then replicate (length (fr_return_types frame)) SV_Unknown ++ stack
                   else stack in
      MkConcolic stack (locals :: ls) (cs_args s) (cs_disable s)
  end.

Definition on_close_frame_inner (s : CS) : CS := set_locals s (tail (cs_locals s)).

(** ** Instructions *)
Definition Step : Type := panics (CS * option B).
Definition done_with (s : CS) : Step := Ret (s, None).

(** [CastU8] .. [CastU128]: the constraint that the value fits. *)
Definition step_cast (bits : N) (s : CS) : Step :=
  match cs_stack s with
  | SV_Value int :: _ => m ← max_u_bits bits; Ret (s, Some (int_le int m))
  | _ => done_with s
  end.

(** [Add], [Sub], [Mul], [Div], [Mod]. *)
Definition step_arith (mk : I → I → I) (stack : list TraceValue) (s : CS) : Step :=
  '(s, o) ← process_binary_op s stack;
  match o with
  | Some (l, r) => done_with (push (SV_Value (mk l r)) s)
  | None => done_with (push SV_Unknown s)
  end.

(** [And], [Or], [Xor] and their bitwise variants. *)
Definition step_bitop (mk : I → N → N → I) (stack : list TraceValue) (s : CS) : Step :=
  '(lhs, rhs, rest) ← pop2 (cs_stack s);
  '(true_lhs, true_rhs) ← stack_top2 stack;
  bit_width ← value_bitwidth true_lhs;
  true_l ← value_to_u256 true_lhs;
  true_r ← value_to_u256 true_rhs;
  let s := set_stack s rest in
  match lhs, rhs with
  | SV_Value l, SV_Unknown => done_with (push (SV_Value (mk l true_r bit_width)) s)
  | SV_Unknown, SV_Value r => done_with (push (SV_Value (mk r true_l bit_width)) s)
  | SV_Value _, SV_Value _ | SV_Unknown, SV_Unknown => done_with (push SV_Unknown s)
  end.

Definition step_shl (stack : list TraceValue) (s : CS) : Step :=
  '(lhs, rhs, rest) ← pop2 (cs_stack s);
  '(true_lhs, true_rhs) ← stack_top2 stack;
  bit_width ← value_bitwidth true_lhs;
  r ← value_to_u256 true_rhs;
  let true_r := u256_as_u32 r in
  threshold ← max_u_bits bit_width;
  let s := set_stack s rest in
  match lhs, rhs with
  | SV_Value l, SV_Unknown =>
      let shl := int_mul l (int_two_pow true_r) in
      let shl_mod := int_modulo shl (int_two_pow bit_width) in
      Ret (push (SV_Value shl_mod) s, Some (int_gt shl threshold))
  | _, _ => done_with (push SV_Unknown s)
  end.

Definition step_shr (stack : list TraceValue) (s : CS) : Step :=
  '(lhs, rhs, rest) ← pop2 (cs_stack s);
  '(_, true_rhs) ← stack_top2 stack;
  r ← value_to_u256 true_rhs;
  let true_r := u256_as_u32 r in
  let s := set_stack s rest in
  match lhs, rhs with
  | SV_Value l, SV_Unknown => done_with (push (SV_Value (int_div l (int_two_pow true_r))) s)
  | _, _ => done_with (push SV_Unknown s)
  end.

Definition step_not (stack : list TraceValue) (s : CS) : Step :=
  match cs_stack s with
  | SV_Value n :: rest =>
      top ← stack_top1 stack;
      bit_width ← value_bitwidth top;
      done_with (set_stack s (SV_Value (int_bvnot n bit_width) :: rest))
  | SV_Unknown :: rest => done_with (set_stack s (SV_Unknown :: rest))
  | [] => done_with s
  end.

(** [CopyLoc], [MutBorrowLoc], [ImmBorrowLoc]. *)
Definition step_copy_loc (idx : nat) (s : CS) : Step :=
  match cs_locals s with
  | locals :: _ =>
      match locals !! idx with
      | Some v => done_with (push v s)
      | None => done_with (push SV_Unknown s)
      end
  | [] => done_with (push SV_Unknown s)
  end.

Definition step_move_loc (idx : nat) (s : CS) : Step :=
  match cs_locals s with
  | locals :: ls =>
      match locals !! idx with
      | Some v => done_with (set_locals (push v s) (<[idx := SV_Unknown]> locals :: ls))
      | None => done_with (push SV_Unknown s)
      end
  | [] => done_with (push SV_Unknown s)
  end.

Definition step_st_loc (idx : nat) (s : CS) : Step :=
  match cs_stack s with
  | v :: rest =>
      let s := set_stack s rest in
      match cs_locals s with
      | locals :: ls =>
          let locals := if (idx <? length locals)%nat then locals
                        else resize_unknown (S idx) locals in
          done_with (set_locals s (<[idx := v]> locals :: ls))
      | [] => done_with s
      end
  | [] => done_with s
  end.

(** The comparisons but [Neq]: the pushed symbol and the constraint both say
    what the concrete comparison said. *)
Definition step_cmp (mk : I → I → B) (holds : comparison → bool) (stack : list TraceValue)
    (s : CS) : Step :=
  '(lhs, rhs, rest) ← pop2 (cs_stack s);
  '(true_lhs, true_rhs) ← stack_top2 stack;
  o ← resolve_operands lhs rhs true_lhs true_rhs;
  let s := set_stack s rest in
  match o with
  | None => done_with (push SV_Unknown s)
  | Some (new_l, new_r) =>
      c ← compare_value true_lhs true_rhs;
      let b := if holds c then mk new_l new_r else bool_not (mk new_l new_r) in
      Ret (push (SV_Value (bool_ite b (int_from 1) (int_from 0))) s, Some b)
  end.

Definition step_neq (stack : list TraceValue) (s : CS) : Step :=
  '(lhs, rhs, rest) ← pop2 (cs_stack s);
  '(true_lhs, true_rhs) ← stack_top2 stack;
  o ← resolve_operands lhs rhs true_lhs true_rhs;
  let s := set_stack s rest in
  match o with
  | None => done_with (push SV_Unknown s)
  | Some (new_l, new_r) =>
      c ← compare_value true_lhs true_rhs;
      if negb (bool_decide (c = Eq)) then
        let neq := bool_not (int_eq new_l new_r) in
        Ret (push (SV_Value (bool_ite neq (int_from 1) (int_from 0))) s, Some neq)
      else
        let eq := int_eq new_l new_r in
        Ret (push (SV_Value (bool_ite eq (int_from 1) (int_from 0))) s, Some (bool_not eq))
  end.

Definition pop_n (n : nat) (s : CS) : CS := set_stack s (drop n (cs_stack s)).
Definition push_unknowns (n : nat) (s : CS) : CS :=
  set_stack s (replicate n SV_Unknown ++ cs_stack s).

Definition is_less (c : comparison) : bool := bool_decide (c = Lt).
Definition is_equal (c : comparison) : bool := bool_decide (c = Eq).
Definition is_greater (c : comparison) : bool := bool_decide (c = Gt).

Definition step_pack (extra : option InstructionExtraInformation) (s : CS) : Step :=
  e ← unwrap extra;
  match e with
  | Ex_Pack count | Ex_PackGeneric count => done_with (push SV_Unknown (pop_n count s))
  | _ => Panic
  end.

Definition step_unpack (extra : option InstructionExtraInformation) (s : CS) : Step :=
  let s := pop_n 1 s in
  e ← unwrap extra;
  match e with
  | Ex_Unpack count | Ex_UnpackGeneric count => done_with (push_unknowns count s)
  | _ => Panic
  end.

Definition step_pack_variant (extra : option InstructionExtraInformation) (s : CS) : Step :=
  e ← unwrap extra;
  match e with
  | Ex_PackVariant count | Ex_PackVariantGeneric count =>
      done_with (push SV_Unknown (pop_n count s))
  | _ => Panic
  end.

Definition step_unpack_variant (extra : option InstructionExtraInformation) (s : CS) : Step :=
  let s := pop_n 1 s in
  match extra with
  | None => done_with (set_disable s)
  | Some (Ex_UnpackVariant count) | Some (Ex_UnpackVariantGeneric count) =>
      done_with (push_unknowns count s)
  | Some _ => Panic
  end.

Definition step_instruction (instruction : Bytecode) (stack : list TraceValue)
    (extra : option InstructionExtraInformation) (s : CS) : Step :=
  match instruction with
  | Bc_Pop | Bc_BrTrue _ | Bc_BrFalse _ | Bc_Abort | Bc_VecImmBorrow _ | Bc_VecMutBorrow _ =>
      done_with (pop_n 1 s)
  | Bc_LdU8 _ | Bc_LdU16 _ | Bc_LdU32 _ | Bc_LdU64 _ | Bc_LdU128 _ | Bc_LdU256 _
  | Bc_LdConst _ => done_with (push SV_Unknown s)
  | Bc_LdFalse => done_with (push (SV_Value (int_from 0)) s)
  | Bc_LdTrue => done_with (push (SV_Value (int_from 1)) s)
  | Bc_CastU8 => step_cast 8 s
  | Bc_CastU16 => step_cast 16 s
  | Bc_CastU32 => step_cast 32 s
  | Bc_CastU64 => step_cast 64 s
  | Bc_CastU128 => step_cast 128 s
  | Bc_Add => step_arith int_add stack s
  | Bc_Sub => step_arith int_sub stack s
  | Bc_Mul => step_arith int_mul stack s
  | Bc_Div => step_arith int_div stack s
  | Bc_Mod => step_arith int_rem stack s
  | Bc_And | Bc_BitAnd => step_bitop int_bvand_const stack s
  | Bc_Or | Bc_BitOr => step_bitop int_bvor_const stack s
  | Bc_Xor => step_bitop int_bvxor_const stack s
  | Bc_Shl => step_shl stack s
  | Bc_Shr => step_shr stack s
  | Bc_Not => step_not stack s
  | Bc_CopyLoc idx | Bc_MutBorrowLoc idx | Bc_ImmBorrowLoc idx => step_copy_loc idx s
  | Bc_MoveLoc idx => step_move_loc idx s
  | Bc_StLoc idx => step_st_loc idx s
  | Bc_WriteRef | Bc_VecPushBack _ => done_with (pop_n 2 s)
  | Bc_Eq => step_cmp int_eq is_equal stack s
  | Bc_Neq => step_neq stack s
  | Bc_Lt => step_cmp int_lt is_less stack s
  | Bc_Le => step_cmp int_le (λ c, negb (is_greater c)) stack s
  | Bc_Gt => step_cmp int_gt is_greater stack s
  | Bc_Ge => step_cmp int_ge (λ c, negb (is_less c)) stack s
  | Bc_VecPack _ len => done_with (push SV_Unknown (pop_n len s))
  | Bc_VecUnpack _ len => done_with (push_unknowns len (pop_n 1 s))
  | Bc_VecSwap _ => done_with (pop_n 3 s)
  | Bc_Pack _ | Bc_PackGeneric _ => step_pack extra s
  | Bc_Unpack _ | Bc_UnpackGeneric _ => step_unpack extra s
  | Bc_PackVariant _ | Bc_PackVariantGeneric _ => step_pack_variant extra s
  | Bc_UnpackVariant _ | Bc_UnpackVariantImmRef _ | Bc_UnpackVariantMutRef _
  | Bc_UnpackVariantGeneric _ | Bc_UnpackVariantGenericImmRef _
  | Bc_UnpackVariantGenericMutRef _ => step_unpack_variant extra s
  | Bc_VariantSwitch _ => done_with (pop_n 1 s)
  | _ => done_with s
  end.

Definition on_before_instruction_inner (s : CS) (instruction : Bytecode)
    (trace_state : TraceState) (extra : option InstructionExtraInformation) : Step :=
  let stack := operand_stack trace_state in
  if negb (length (cs_stack s) =? length stack)%nat || cs_disable s then
    Ret (set_disable s, None)
  else step_instruction instruction stack extra s.

End concolic.
