(* ===== verification/ConcolicSpec.v ===== *)
(** * ConcolicSpec: what the concolic executor promises

    A specification of the Move instructions on primitive values ([vm_step]),
    the relation between the symbolic and the concrete operand stack
    ([stack_ok]) and the theorems: every handler of [Concolic] preserves the
    relation and changes the height of the stack like the VM, and the path
    constraints it returns are true of the execution that produced them. *)
From S2P Require Import Prelude Types Z3 BitOps TraceState Concolic.
Local Open Scope N_scope.

(** ** Move's instructions on primitive values *)
Definition with_value (p : PrimitiveValue) (n : N) : PrimitiveValue :=
  match p with
  | PV_Bool _ => PV_Bool (negb (n =? 0))
  | PV_U8 _ => PV_U8 n | PV_U16 _ => PV_U16 n | PV_U32 _ => PV_U32 n
  | PV_U64 _ => PV_U64 n | PV_U128 _ => PV_U128 n | PV_U256 _ => PV_U256 n
  end.

Definition to_smv (p : PrimitiveValue) : SerializableMoveValue :=
  match p with
  | PV_Bool b => SmvBool b
  | PV_U8 n => SmvU8 n | PV_U16 n => SmvU16 n | PV_U32 n => SmvU32 n
  | PV_U64 n => SmvU64 n | PV_U128 n => SmvU128 n | PV_U256 n => SmvU256 n
  end.
Definition runtime (p : PrimitiveValue) : TraceValue := RuntimeValue (to_smv p).

(** A machine integer is below its width. *)
Definition prim_wf (p : PrimitiveValue) : Prop := as_u256 p < 2 ^ bitwidth p.

(** The result of a binary instruction; [None] where the VM aborts. *)
Definition vm_binary (i : Bytecode) (a b : PrimitiveValue) : option N :=
  let x := as_u256 a in let y := as_u256 b in let w := bitwidth a in
  match i with
  | Bc_Add => if x + y <? 2 ^ w then Some (x + y) else None
  | Bc_Sub => if y <=? x then Some (x - y) else None
  | Bc_Mul => if x * y <? 2 ^ w then Some (x * y) else None
  | Bc_Div => if y =? 0 then None else Some (x / y)
  | Bc_Mod => if y =? 0 then None else Some (x mod y)
  | Bc_BitAnd | Bc_And => Some (N.land x y)
  | Bc_BitOr | Bc_Or => Some (N.lor x y)
  | Bc_Xor => Some (N.lxor x y)
  | Bc_Shl => if y <? w then Some ((x * 2 ^ y) mod 2 ^ w) else None
  | Bc_Shr => if y <? w then Some (x / 2 ^ y) else None
  | _ => None
  end.

(** The result of a comparison. *)
Definition vm_compare (i : Bytecode) (a b : PrimitiveValue) : option bool :=
  let x := as_u256 a in let y := as_u256 b in
  match i with
  | Bc_Eq => Some (x =? y) | Bc_Neq => Some (negb (x =? y))
  | Bc_Lt => Some (x <? y) | Bc_Le => Some (x <=? y)
  | Bc_Gt => Some (y <? x) | Bc_Ge => Some (y <=? x)
  | _ => None
  end.

Definition is_shift (i : Bytecode) : bool := match i with Bc_Shl | Bc_Shr => true | _ => false end.

(** Instructions executed through bit masks or moduli at the operand width. *)
Definition uses_modulus (i : Bytecode) : bool :=
  match i with
  | Bc_BitAnd | Bc_And | Bc_BitOr | Bc_Or | Bc_Xor | Bc_Shl => true
  | _ => false
  end.

Definition is_neq (i : Bytecode) : bool := match i with Bc_Neq => true | _ => false end.

Definition same_type (a b : PrimitiveValue) : bool := bitwidth a =? bitwidth b.

Section spec.
Context {I B : Type} `{ZL : Z3Laws I B} `{U : U256Lib} `{TL : TraceLib}.
Variable ρ : string → Z.

(** ** The relation between symbolic and concrete values *)
Definition sym_ok (sv : SymbolValue I) (tv : TraceValue) : Prop :=
  match sv with
  | SV_Unknown => True
  | SV_Value t => ∃ p, extract_primitive_value tv = Ret p ∧ evalI ρ t = Z.of_N (as_u256 p)
  end.
Definition stack_ok (st : list (SymbolValue I)) (stack : list TraceValue) : Prop :=
  Forall2 sym_ok st stack.

Lemma extract_runtime p : extract_primitive_value (runtime p) = Ret p.
Proof. unfold extract_primitive_value, runtime. rewrite snapshot_runtime. by destruct p. Qed.

Lemma as_u256_with_value p n : n < 2 ^ bitwidth p → as_u256 (with_value p n) = n.
Proof.
  destruct p; simpl; try done. change (2 ^ 1) with 2. intros H.
  destruct (N.eqb_spec n 0) as [->|]; simpl; lia.
Qed.

Lemma sym_ok_runtime t p n :
  n < 2 ^ bitwidth p → evalI ρ t = Z.of_N n →
  sym_ok (SV_Value t) (runtime (with_value p n)).
Proof.
  intros Hn Ht. exists (with_value p n). split; [apply extract_runtime|].
  by rewrite as_u256_with_value.
Qed.

Lemma resolve_value_ok tv p :
  extract_primitive_value tv = Ret p →
  ∃ t, resolve_value tv = Ret t ∧ evalI ρ t = Z.of_N (as_u256 p).
Proof.
  intros H. unfold resolve_value. rewrite H. cbn [mbind panics_mbind panics_bind].
  destruct p as [[]| | | | | |]; eexists; (split; [reflexivity|]); apply eval_from.
Qed.

Lemma sym_ok_value t tv p :
  sym_ok (SV_Value t) tv → extract_primitive_value tv = Ret p → evalI ρ t = Z.of_N (as_u256 p).
Proof. intros (q & Hq & ->) Hp. rewrite Hp in Hq. by injection Hq as ->. Qed.

(** With a symbolic operand the executor gets terms for both. *)
Lemma resolve_operands_ok sl sr tl tr a b :
  sym_ok sl tl → sym_ok sr tr →
  extract_primitive_value tl = Ret a → extract_primitive_value tr = Ret b →
  (sl = SV_Unknown ∧ sr = SV_Unknown ∧ resolve_operands sl sr tl tr = Ret None) ∨
  ∃ l r, resolve_operands sl sr tl tr = Ret (Some (l, r)) ∧
    evalI ρ l = Z.of_N (as_u256 a) ∧ evalI ρ r = Z.of_N (as_u256 b).
Proof.
  intros Hl Hr Ha Hb.
  destruct (resolve_value_ok tl a Ha) as (tl' & Htl & Etl).
  destruct (resolve_value_ok tr b Hb) as (tr' & Htr & Etr).
  destruct sl as [l|], sr as [r|]; cbn [resolve_operands]; rewrite ?Htl, ?Htr;
    cbn [mbind panics_mbind panics_bind].
  - right. do 2 eexists. split; [reflexivity|]. split; first [done|by eapply sym_ok_value].
  - right. do 2 eexists. split; [reflexivity|]. split; first [done|by eapply sym_ok_value].
  - right. do 2 eexists. split; [reflexivity|]. split; first [done|by eapply sym_ok_value].
  - by left.
Qed.

(** ** Terms for the binary instructions *)
Definition arith_term (i : Bytecode) : option (I → I → I) :=
  match i with
  | Bc_Add => Some int_add | Bc_Sub => Some int_sub | Bc_Mul => Some int_mul
  | Bc_Div => Some int_div | Bc_Mod => Some int_rem | _ => None
  end.

Lemma arith_term_ok i mk l r a b n :
  arith_term i = Some mk → vm_binary i a b = Some n →
  evalI ρ l = Z.of_N (as_u256 a) → evalI ρ r = Z.of_N (as_u256 b) →
  evalI ρ (mk l r) = Z.of_N n.
Proof.
  intros Hmk Hvm Hl Hr. destruct i; simplify_eq/=.
  - destruct (_ <? _); simplify_eq. rewrite eval_add. lia.
  - destruct (N.leb_spec (as_u256 b) (as_u256 a)); simplify_eq. rewrite eval_sub. lia.
  - destruct (_ <? _); simplify_eq. rewrite eval_mul. lia.
  - destruct (N.eqb_spec (as_u256 b) 0); simplify_eq. rewrite eval_div, Hl, Hr by lia.
    by rewrite N2Z.inj_div.
  - destruct (N.eqb_spec (as_u256 b) 0); simplify_eq. rewrite eval_rem, Hl, Hr by lia.
    by rewrite N2Z.inj_mod.
Qed.

Lemma vm_binary_bound i a b n :
  prim_wf a → prim_wf b → is_shift i = false → same_type a b = true →
  vm_binary i a b = Some n → n < 2 ^ bitwidth a.
Proof.
  unfold prim_wf, same_type. intros Ha Hb Hs Hw%N.eqb_eq Hvm. rewrite <-Hw in Hb.
  destruct i; simplify_eq/=.
  - destruct (N.ltb_spec (as_u256 a + as_u256 b) (2 ^ bitwidth a)); by simplify_eq.
  - destruct (_ <=? _); simplify_eq. lia.
  - destruct (N.ltb_spec (as_u256 a * as_u256 b) (2 ^ bitwidth a)); by simplify_eq.
  - destruct (N.eqb_spec (as_u256 b) 0); simplify_eq. eapply N.le_lt_trans; [|exact Ha].
    apply N.Div0.div_le_upper_bound. nia.
  - destruct (N.eqb_spec (as_u256 b) 0); simplify_eq.
    pose proof (N.mod_lt (as_u256 a) (as_u256 b)). lia.
  - by apply N_bitop_bound.
  - by apply N_bitop_bound.
  - by apply N_bitop_bound.
  - by apply N_bitop_bound.
  - by apply N_bitop_bound.
Qed.

Definition bit_term (i : Bytecode) : option (I → N → N → I) :=
  match i with
  | Bc_And | Bc_BitAnd => Some int_bvand_const
  | Bc_Or | Bc_BitOr => Some int_bvor_const
  | Bc_Xor => Some int_bvxor_const
  | _ => None
  end.

Lemma mod_width n w : n < 2 ^ w → (Z.of_N n mod 2 ^ Z.of_N w)%Z = Z.of_N n.
Proof. intros H. rewrite <-N2Z_pow2, <-N2Z.inj_mod. by rewrite N.mod_small. Qed.

Lemma width_below_256 n w : n < 2 ^ w → w < 256 → n < 2 ^ 256.
Proof. intros Hn Hw. transitivity (2 ^ w); [done|]. by apply N.pow_lt_mono_r. Qed.

(** The mask may be either operand: the three operations commute. *)
Lemma bit_term_ok i mk t x y w (a b : PrimitiveValue) n :
  bit_term i = Some mk → vm_binary i a b = Some n → w < 256 →
  (x = as_u256 a ∧ y = as_u256 b ∨ x = as_u256 b ∧ y = as_u256 a) →
  x < 2 ^ w → y < 2 ^ w → evalI ρ t = Z.of_N x → evalI ρ (mk t y w) = Z.of_N n.
Proof.
  intros Hmk Hvm Hw Hxy Hx Hy Ht. pose proof (width_below_256 y w Hy Hw).
  assert (∀ op : N → N → N, (∀ u v, op u v = op v u) → op x y = op (as_u256 a) (as_u256 b)) as Hop
    by (intros op Hc; destruct Hxy as [[-> ->]|[-> ->]]; auto).
  destruct i; simplify_eq/=;
    rewrite ?eval_bvand, ?eval_bvor, ?eval_bvxor, Ht, ?mod_width by done;
    rewrite <-?N2Z.inj_land, <-?N2Z.inj_lor, <-?N2Z.inj_lxor; f_equal; apply Hop;
    [apply N.lxor_comm || apply N.lor_comm || apply N.land_comm..].
Qed.

Lemma max_u_bits_ok p :
  ∃ t, max_u_bits (bitwidth p) = Ret t ∧ evalI ρ t = (2 ^ Z.of_N (bitwidth p) - 1)%Z.
Proof. destruct p; eexists; (split; [reflexivity|]); by rewrite eval_from. Qed.

Lemma bitwidth_bounds p : 0 < bitwidth p ≤ 256.
Proof. by destruct p. Qed.

Lemma int_two_pow_shift t (n m : N) :
  m < 256 → evalI ρ t = Z.of_N n →
  evalI ρ (int_mul t (int_two_pow m)) = Z.of_N (n * 2 ^ m) ∧
  evalI ρ (int_div t (int_two_pow m)) = Z.of_N (n / 2 ^ m).
Proof.
  intros Hm Ht. split.
  - rewrite eval_mul, Ht, eval_two_pow by done. by rewrite N2Z.inj_mul, N2Z_pow2.
  - rewrite eval_div; rewrite eval_two_pow by done; [|auto with movy].
    rewrite Ht. by rewrite N2Z.inj_div, N2Z_pow2.
Qed.

(** ** One handler at a time *)
Section binary.
Variables (s : ConcolicState I) (sl sr : SymbolValue I) (srest : list (SymbolValue I)).
Variables (tl tr : TraceValue) (trest : list TraceValue) (a b : PrimitiveValue).
Hypothesis Hstack : cs_stack s = sr :: sl :: srest.
Hypothesis Hsl : sym_ok sl tl.
Hypothesis Hsr : sym_ok sr tr.
Hypothesis Hrest : stack_ok srest trest.
Hypothesis Ha : extract_primitive_value tl = Ret a.
Hypothesis Hb : extract_primitive_value tr = Ret b.
Hypothesis Hwa : prim_wf a.
Hypothesis Hwb : prim_wf b.

(** The outcome of a step whose result is [n]. *)
Definition step_ok (r : Step) (n : N) (φ : B → Prop) : Prop :=
  ∃ sv c, r = Ret (set_stack s (sv :: srest), c) ∧
    sym_ok sv (runtime (with_value a n)) ∧ (∀ c', c = Some c' → φ c').

Lemma step_arith_ok i mk n :
  arith_term i = Some mk → vm_binary i a b = Some n → n < 2 ^ bitwidth a →
  step_ok (step_arith mk (tr :: tl :: trest) s) n (λ _, False).
Proof using Type*.
  intros Hmk Hvm Hn. unfold step_arith, process_binary_op. rewrite Hstack.
  cbn [mbind panics_mbind panics_bind pop2 stack_top2].
  destruct (resolve_operands_ok sl sr tl tr a b) as [(-> & -> & ->)|(l & r & -> & Hl & Hr)];
    [done..| |]; cbn [mbind panics_mbind panics_bind].
  - eexists SV_Unknown, None. by split_and!.
  - eexists (SV_Value (mk l r)), None. split_and!; [done| |done].
    eapply sym_ok_runtime; [done|]. by eapply arith_term_ok.
Qed.

Lemma step_bitop_ok i mk n :
  bit_term i = Some mk → vm_binary i a b = Some n → n < 2 ^ bitwidth a →
  bitwidth a < 256 → bitwidth b = bitwidth a →
  step_ok (step_bitop mk (tr :: tl :: trest) s) n (λ _, False).
Proof using Type*.
  intros Hmk Hvm Hn Hw Hwab. unfold step_bitop, value_bitwidth, value_to_u256. rewrite Hstack.
  cbn [pop2 stack_top2 mbind panics_mbind panics_bind]. rewrite Ha, Hb.
  cbn [mbind panics_mbind panics_bind]. unfold prim_wf in *. rewrite Hwab in Hwb.
  destruct sl as [l|], sr as [r|].
  - eexists SV_Unknown, None. by split_and!.
  - eexists _, None. split_and!; [done| |done]. eapply sym_ok_runtime; [done|].
    eapply bit_term_ok; [done|done|done|by left|done|done|]. by eapply sym_ok_value.
  - eexists _, None. split_and!; [done| |done]. eapply sym_ok_runtime; [done|].
    eapply bit_term_ok; [done|done|done|by right|done|done|]. by eapply sym_ok_value.
  - eexists SV_Unknown, None. by split_and!.
Qed.

Lemma step_shl_ok n :
  vm_binary Bc_Shl a b = Some n → bitwidth a < 256 →
  step_ok (step_shl (tr :: tl :: trest) s) n
    (λ φ, evalB ρ φ = (2 ^ bitwidth a <=? as_u256 a * 2 ^ as_u256 b)).
Proof using Type*.
  intros Hvm Hw. unfold step_shl, value_bitwidth, value_to_u256. rewrite Hstack.
  cbn [pop2 stack_top2 mbind panics_mbind panics_bind]. rewrite Ha, Hb.
  cbn [mbind panics_mbind panics_bind].
  destruct (max_u_bits_ok a) as (m & -> & Hm). cbn [mbind panics_mbind panics_bind].
  cbn [vm_binary] in Hvm. destruct (N.ltb_spec (as_u256 b) (bitwidth a)) as [Hlt|]; simplify_eq.
  rewrite u256_as_u32_small by lia.
  destruct sl as [l|], sr as [r|]; try (eexists SV_Unknown, None; by split_and!).
  assert (evalI ρ l = Z.of_N (as_u256 a)) as Hl by by eapply sym_ok_value.
  destruct (int_two_pow_shift l (as_u256 a) (as_u256 b)) as [Hmul _]; [lia|done|].
  eexists _, _. split_and!; [done| |].
  - eapply sym_ok_runtime; [apply N.mod_lt, N.pow_nonzero; done|].
    rewrite eval_modulo; rewrite eval_two_pow by done; [|auto with movy].
    by rewrite Hmul, N2Z.inj_mod, N2Z_pow2.
  - intros ? [= <-]. rewrite eval_gt, Hmul, Hm, <-N2Z_pow2.
    pose proof (pow2_pos (bitwidth a)) as Hp. rewrite <-N2Z_pow2 in Hp.
    destruct (N.leb_spec (2 ^ bitwidth a) (as_u256 a * 2 ^ as_u256 b));
      [apply Z.ltb_lt|apply Z.ltb_ge]; lia.
Qed.

Lemma step_shr_ok n :
  vm_binary Bc_Shr a b = Some n → step_ok (step_shr (tr :: tl :: trest) s) n (λ _, False).
Proof using Type*.
  intros Hvm. unfold step_shr, value_to_u256. rewrite Hstack.
  cbn [pop2 stack_top2 mbind panics_mbind panics_bind]. rewrite Hb.
  cbn [mbind panics_mbind panics_bind vm_binary] in *. pose proof (bitwidth_bounds a).
  destruct (N.ltb_spec (as_u256 b) (bitwidth a)) as [Hlt|]; simplify_eq.
  rewrite u256_as_u32_small by lia.
  destruct sl as [l|], sr as [r|]; try (eexists SV_Unknown, None; by split_and!).
  eexists _, None. split_and!; [done| |done]. eapply sym_ok_runtime.
  - eapply N.le_lt_trans; [|exact Hwa]. apply N.Div0.div_le_upper_bound.
    assert (0 < 2 ^ as_u256 b) by (apply N.neq_0_lt_0, N.pow_nonzero; done). nia.
  - eapply int_two_pow_shift; [lia|]. by eapply sym_ok_value.
Qed.

(** The comparisons: what was observed is what the terms say. *)
Lemma compare_value_ok :
  same_type a b = true → compare_value tl tr = Ret (as_u256 a ?= as_u256 b).
Proof using Type*.
  intros Hw. unfold compare_value. rewrite Ha, Hb. cbn [mbind panics_mbind panics_bind].
  destruct a as [[]| | | | | |], b as [[]| | | | | |]; try discriminate Hw; reflexivity.
Qed.

Definition compare_true (i : Bytecode) (φ : B) : Prop :=
  evalB ρ φ = negb (is_neq i && (as_u256 a =? as_u256 b)).

Definition compare_step (i : Bytecode) (stack : list TraceValue) : option Step :=
  match i with
  | Bc_Eq => Some (step_cmp int_eq is_equal stack s)
  | Bc_Neq => Some (step_neq stack s)
  | Bc_Lt => Some (step_cmp int_lt is_less stack s)
  | Bc_Le => Some (step_cmp int_le (λ c, negb (is_greater c)) stack s)
  | Bc_Gt => Some (step_cmp int_gt is_greater stack s)
  | Bc_Ge => Some (step_cmp int_ge (λ c, negb (is_less c)) stack s)
  | _ => None
  end.

Lemma compare_step_ok i r :
  same_type a b = true → compare_step i (tr :: tl :: trest) = Some r →
  (r = Ret (set_stack s (SV_Unknown :: srest), None) ∧ sl = SV_Unknown ∧ sr = SV_Unknown) ∨
  ∃ t φ, r = Ret (set_stack s (SV_Value t :: srest), Some φ) ∧
    evalI ρ t = 1%Z ∧ compare_true i φ.
Proof using Type*.
  intros Hty Hr. pose proof (compare_value_ok Hty) as Hc.
  destruct (resolve_operands_ok sl sr tl tr a b) as [(-> & -> & Ho)|(l & r' & Ho & Hl & Hr')];
    [done..|left|right].
  - split; [|done]. destruct i; try discriminate Hr; injection Hr as <-; unfold step_cmp, step_neq; rewrite Hstack;
      cbn [pop2 stack_top2 mbind panics_mbind panics_bind]; by rewrite Ho.
  - unfold compare_true.
    destruct i; try discriminate Hr; injection Hr as <-; unfold step_cmp, step_neq; rewrite Hstack;
      cbn [pop2 stack_top2 mbind panics_mbind panics_bind]; rewrite Ho;
      cbn [mbind panics_mbind panics_bind]; rewrite Hc; cbn [mbind panics_mbind panics_bind];
      destruct (N.compare_spec (as_u256 a) (as_u256 b)) as [Heq|Hlt|Hgt]; simpl;
      do 2 eexists; (split; [reflexivity|]); autorewrite with z3_eval; rewrite Hl, Hr';
      repeat match goal with
      | |- context [(Z.of_N ?x =? Z.of_N ?y)%Z] => destruct (Z.eqb_spec (Z.of_N x) (Z.of_N y))
      | |- context [(Z.of_N ?x <=? Z.of_N ?y)%Z] => destruct (Z.leb_spec (Z.of_N x) (Z.of_N y))
      | |- context [(Z.of_N ?x <? Z.of_N ?y)%Z] => destruct (Z.ltb_spec (Z.of_N x) (Z.of_N y))
      | |- context [?x =? ?y] => destruct (N.eqb_spec x y)
      end; first [exfalso; lia|by split].
Qed.
End binary.

(** ** The height of the stack *)

(** How many operands the VM takes off the stack and how many results it
    leaves ([None]: instructions the source does not name, and packs whose
    field count could not be resolved). *)
Definition stack_effect (i : Bytecode) (extra : option InstructionExtraInformation) :
    option (nat * nat) :=
  match i with
  | Bc_Pop | Bc_BrTrue _ | Bc_BrFalse _ | Bc_Abort | Bc_StLoc _ | Bc_VariantSwitch _ => Some (1, 0)
  | Bc_LdU8 _ | Bc_LdU16 _ | Bc_LdU32 _ | Bc_LdU64 _ | Bc_LdU128 _ | Bc_LdU256 _
  | Bc_LdConst _ | Bc_LdTrue | Bc_LdFalse
  | Bc_CopyLoc _ | Bc_MoveLoc _ | Bc_MutBorrowLoc _ | Bc_ImmBorrowLoc _ => Some (0, 1)
  | Bc_CastU8 | Bc_CastU16 | Bc_CastU32 | Bc_CastU64 | Bc_CastU128 | Bc_CastU256
  | Bc_Not => Some (1, 1)
  | Bc_Add | Bc_Sub | Bc_Mul | Bc_Div | Bc_Mod | Bc_BitAnd | Bc_BitOr | Bc_Xor | Bc_Shl | Bc_Shr
  | Bc_And | Bc_Or | Bc_Eq | Bc_Neq | Bc_Lt | Bc_Le | Bc_Gt | Bc_Ge
  | Bc_VecImmBorrow _ | Bc_VecMutBorrow _ => Some (2, 1)
  | Bc_WriteRef | Bc_VecPushBack _ => Some (2, 0)
  | Bc_VecSwap _ => Some (3, 0)
  | Bc_VecPack _ len => Some (len, 1)
  | Bc_VecUnpack _ len => Some (1, len)
  | Bc_Pack _ | Bc_PackGeneric _ =>
      match extra with Some (Ex_Pack n | Ex_PackGeneric n) => Some (n, 1) | _ => None end
  | Bc_PackVariant _ | Bc_PackVariantGeneric _ =>
      match extra with Some (Ex_PackVariant n | Ex_PackVariantGeneric n) => Some (n, 1) | _ => None end
  | Bc_Unpack _ | Bc_UnpackGeneric _ =>
      match extra with Some (Ex_Unpack n | Ex_UnpackGeneric n) => Some (1, n) | _ => None end
  | Bc_UnpackVariant _ | Bc_UnpackVariantImmRef _ | Bc_UnpackVariantMutRef _
  | Bc_UnpackVariantGeneric _ | Bc_UnpackVariantGenericImmRef _
  | Bc_UnpackVariantGenericMutRef _ =>
      match extra with
      | Some (Ex_UnpackVariant n | Ex_UnpackVariantGeneric n) => Some (1, n)
      | _ => None
      end
  | Bc_Branch _ | Bc_Ret | Bc_Call _ | Bc_CallGeneric _ => Some (0, 0)
  | Bc_Other _ => None
  end%nat.

Definition height (s : ConcolicState I) : nat := length (cs_stack s).

(** What every handler keeps: the frames, the recorded arguments, and the
    executor enabled. *)
Definition frames_kept (s s' : ConcolicState I) : Prop :=
  length (cs_locals s') = length (cs_locals s) ∧ cs_args s' = cs_args s ∧
  cs_disable s' = cs_disable s.

Definition effect_ok (pops pushes : nat) (s s' : ConcolicState I) : Prop :=
  height s' = (height s - pops + pushes)%nat ∧ frames_kept s s'.

Lemma effect_set_stack pops pushes s st :
  length st = (height s - pops + pushes)%nat → effect_ok pops pushes s (set_stack s st).
Proof. by intros H. Qed.

Lemma effect_refl s : effect_ok 0 0 s s.
Proof. unfold effect_ok. split; [lia|by split_and!]. Qed.

Lemma effect_push v s : effect_ok 0 1 s (push v s).
Proof. apply effect_set_stack. simpl. unfold height. lia. Qed.

Lemma resize_length n (l : list (SymbolValue I)) :
  length (resize_unknown n l) = Nat.max n (length l).
Proof. unfold resize_unknown. rewrite length_app, length_replicate. lia. Qed.

(** The operations on two operands leave one result. *)
Lemma pop2_inv (s : ConcolicState I) l r rest :
  pop2 (cs_stack s) = Ret (l, r, rest) → cs_stack s = r :: l :: rest.
Proof. unfold pop2. destruct (cs_stack s) as [|x [|y st]]; intros; by simplify_eq. Qed.

Lemma effect_binary s l r rest v :
  pop2 (cs_stack s) = Ret (l, r, rest) → effect_ok 2 1 s (set_stack s (v :: rest)).
Proof. intros H%pop2_inv. apply effect_set_stack. unfold height. rewrite H. simpl. lia. Qed.

Lemma step_arith_effect mk stack s s' (c : option B) :
  step_arith mk stack s = Ret (s', c) → effect_ok 2 1 s s'.
Proof.
  intros H. unfold step_arith, process_binary_op in H.
  apply panics_bind_Ret in H as ([s1 o] & E & H).
  apply panics_bind_Ret in E as ([[l r] rest] & Hp & E).
  apply panics_bind_Ret in E as ([tl tr] & _ & E).
  apply panics_bind_Ret in E as (o' & _ & [= <- <-]).
  unfold done_with, push in H. destruct o' as [[]|]; injection H as <- <-; by eapply (effect_binary s).
Qed.

Lemma step_bitop_effect mk stack s s' (c : option B) :
  step_bitop mk stack s = Ret (s', c) → effect_ok 2 1 s s'.
Proof.
  intros H. unfold step_bitop in H.
  apply panics_bind_Ret in H as ([[l r] rest] & Hp & H).
  apply panics_bind_Ret in H as ([tl tr] & _ & H).
  do 3 apply panics_bind_Ret in H as (? & _ & H).
  unfold done_with, push in H. destruct l, r; injection H as <- <-; by eapply (effect_binary s).
Qed.

Lemma step_shl_effect stack s s' (c : option B) : step_shl stack s = Ret (s', c) → effect_ok 2 1 s s'.
Proof.
  intros H. unfold step_shl in H.
  apply panics_bind_Ret in H as ([[l r] rest] & Hp & H).
  apply panics_bind_Ret in H as ([tl tr] & _ & H).
  do 3 apply panics_bind_Ret in H as (? & _ & H).
  unfold done_with, push in H. destruct l, r; injection H as <- <-; by eapply (effect_binary s).
Qed.

Lemma step_shr_effect stack s s' (c : option B) : step_shr stack s = Ret (s', c) → effect_ok 2 1 s s'.
Proof.
  intros H. unfold step_shr in H.
  apply panics_bind_Ret in H as ([[l r] rest] & Hp & H).
  apply panics_bind_Ret in H as ([tl tr] & _ & H).
  apply panics_bind_Ret in H as (? & _ & H).
  unfold done_with, push in H. destruct l, r; injection H as <- <-; by eapply (effect_binary s).
Qed.

Lemma step_cmp_effect mk holds stack s s' (c : option B) :
  step_cmp mk holds stack s = Ret (s', c) → effect_ok 2 1 s s'.
Proof.
  intros H. unfold step_cmp in H.
  apply panics_bind_Ret in H as ([[l r] rest] & Hp & H).
  apply panics_bind_Ret in H as ([tl tr] & _ & H).
  apply panics_bind_Ret in H as (o & _ & H). unfold done_with, push in H.
  destruct o as [[]|]; [apply panics_bind_Ret in H as (? & _ & H)|];
    injection H as <- <-; by eapply (effect_binary s).
Qed.

Lemma step_neq_effect stack s s' (c : option B) : step_neq stack s = Ret (s', c) → effect_ok 2 1 s s'.
Proof.
  intros H. unfold step_neq in H.
  apply panics_bind_Ret in H as ([[l r] rest] & Hp & H).
  apply panics_bind_Ret in H as ([tl tr] & _ & H).
  apply panics_bind_Ret in H as (o & _ & H). unfold done_with, push in H.
  destruct o as [[]|].
  - apply panics_bind_Ret in H as (cmp & _ & H).
    destruct (negb (bool_decide (cmp = Eq))); injection H as <- <-; by eapply (effect_binary s).
  - injection H as <- <-; by eapply (effect_binary s).
Qed.

Lemma step_cast_effect bits s s' (c : option B) :
  step_cast bits s = Ret (s', c) → s' = s.
Proof.
  unfold step_cast, done_with. destruct (cs_stack s) as [|[] ?]; [by intros [= <- <-]| |by intros [= <- <-]].
  intros H. by apply panics_bind_Ret in H as (? & _ & [= <- _]).
Qed.

Lemma effect_unary s : (1 ≤ height s)%nat → effect_ok 1 1 s s.
Proof. unfold effect_ok. split; [lia|by split_and!]. Qed.

Lemma step_not_effect stack s s' (c : option B) :
  (1 ≤ height s)%nat → step_not stack s = Ret (s', c) → effect_ok 1 1 s s'.
Proof.
  unfold step_not, done_with, height. intros Hh H.
  destruct (cs_stack s) as [|[n|] rest] eqn:E; simpl in Hh; [lia| |].
  - do 2 apply panics_bind_Ret in H as (? & _ & H). injection H as <- <-.
    apply effect_set_stack. unfold height. rewrite E. simpl. lia.
  - injection H as <- <-. apply effect_set_stack. unfold height. rewrite E. simpl. lia.
Qed.

Lemma step_copy_loc_effect idx s s' (c : option B) :
  step_copy_loc idx s = Ret (s', c) → effect_ok 0 1 s s'.
Proof.
  unfold step_copy_loc, done_with. destruct (cs_locals s) as [|ls ?]; [|destruct (ls !! idx)];
    intros [= <- <-]; apply effect_push.
Qed.

Lemma step_move_loc_effect idx s s' (c : option B) :
  step_move_loc idx s = Ret (s', c) → effect_ok 0 1 s s'.
Proof.
  unfold step_move_loc, done_with. destruct (cs_locals s) as [|ls lss] eqn:E; [|destruct (ls !! idx)];
    intros [= <- <-]; try apply effect_push.
  split; [unfold height; simpl; lia|]. unfold frames_kept. by rewrite E.
Qed.

Lemma step_st_loc_effect idx s s' (c : option B) :
  (1 ≤ height s)%nat → step_st_loc idx s = Ret (s', c) → effect_ok 1 0 s s'.
Proof.
  unfold step_st_loc, done_with, height. intros Hh H.
  destruct (cs_stack s) as [|v rest] eqn:E; simpl in Hh; [lia|].
  simpl in H. destruct (cs_locals s) as [|ls lss] eqn:El; injection H as <- <-;
    (split; [unfold height; simpl; rewrite E; simpl; lia|unfold frames_kept; simpl; by rewrite El]).
Qed.

Lemma effect_pop_n n s : (n ≤ height s)%nat → effect_ok n 0 s (pop_n n s).
Proof. intros H. apply effect_set_stack. rewrite length_drop. unfold height in *. lia. Qed.

Lemma effect_pop_push n v s : (n ≤ height s)%nat → effect_ok n 1 s (push v (pop_n n s)).
Proof.
  intros H. apply (effect_set_stack n 1 s (v :: drop n (cs_stack s))). simpl.
  rewrite length_drop. unfold height in *. lia.
Qed.

Lemma effect_unpack n s : (1 ≤ height s)%nat → effect_ok 1 n s (push_unknowns n (pop_n 1 s)).
Proof.
  intros H. apply (effect_set_stack 1 n s (replicate n SV_Unknown ++ drop 1 (cs_stack s))).
  rewrite length_app, length_replicate, length_drop. unfold height in *. lia.
Qed.
Lemma effect_borrow s : (2 ≤ height s)%nat → effect_ok 2 1 s (pop_n 1 s).
Proof. intros H. apply effect_set_stack. rewrite length_drop. unfold height in *. lia. Qed.
#[local] Hint Resolve effect_borrow effect_refl effect_push effect_pop_n effect_pop_push effect_unpack effect_unary
  step_arith_effect step_bitop_effect step_shl_effect step_shr_effect step_cmp_effect
  step_neq_effect step_not_effect step_copy_loc_effect step_move_loc_effect
  step_st_loc_effect : movy.

Lemma step_instruction_effect i stack extra s s' (c : option B) pops pushes :
  stack_effect i extra = Some (pops, pushes) → (pops ≤ height s)%nat →
  step_instruction i stack extra s = Ret (s', c) → effect_ok pops pushes s s'.
Proof.
  intros He Hlen H.
  destruct i; cbn [stack_effect] in He; try discriminate He;
    repeat match type of He with
    | match ?x with _ => _ end = Some _ => destruct x; try discriminate He end;
    injection He as <- <-; cbn [step_instruction] in H;
    first [apply step_cast_effect in H as -> | injection H as <- <- | idtac];
    eauto with movy.
Qed.

Lemma before_instruction_enabled s i ts extra :
  cs_disable s = false → height s = length (operand_stack ts) →
  on_before_instruction_inner s i ts extra = step_instruction i (operand_stack ts) extra s.
Proof.
  unfold height, on_before_instruction_inner. intros Hd Hh.
  by rewrite Hd, Hh, Nat.eqb_refl.
Qed.

(** ** Properties *)

(** C4: the symbolic stack stays in step with the VM: for every instruction
    the executor models, the symbolic height changes by the operands the VM
    takes and the results it leaves, no frame is lost, and the height check
    of the next instruction event passes instead of disabling the executor. *)
Theorem concolic_stays_in_sync s i ts ts' extra pops pushes s' (c : option B) tys pc gas j :
  cs_disable s = false → height s = length (operand_stack ts) →
  stack_effect i extra = Some (pops, pushes) → (pops ≤ height s)%nat →
  on_before_instruction_inner s i ts extra = Ret (s', c) →
  length (operand_stack ts') = (length (operand_stack ts) - pops + pushes)%nat →
  height s' = length (operand_stack ts') ∧ frames_kept s s' ∧
  on_raw_event_inner s' (Ev_Instruction tys pc gas j) ts' = (s', true).
Proof.
  intros Hd Hh He Hp H Hl. rewrite before_instruction_enabled in H by done.
  apply (step_instruction_effect _ _ _ _ _ _ pops pushes) in H as [Hh' Hk]; [|done..].
  assert (height s' = length (operand_stack ts')) as Hsync by lia. split_and!; [done|done|].
  destruct Hk as (_ & _ & Hdis). unfold on_raw_event_inner. rewrite Hdis, Hd.
  unfold height in Hsync. by rewrite Hsync, Nat.eqb_refl.
Qed.

(** C2: arithmetic, bitwise and shift instructions are tracked soundly: when
    the symbolic stack describes the concrete one and the VM does not abort,
    the executor returns, its new stack describes the VM's new stack, locals
    are kept, and the only constraint it may return is that of [Shl], which
    says exactly whether bits are shifted out. Masks and moduli are exact up
    to 128-bit operands; at 256 bits the modulus [1 << 256] is outside the
    guarantee. *)
Theorem concolic_binary_sound s i ts extra sl sr srest tl tr trest a b n :
  cs_disable s = false → cs_stack s = sr :: sl :: srest → operand_stack ts = tr :: tl :: trest →
  stack_ok (cs_stack s) (operand_stack ts) →
  extract_primitive_value tl = Ret a → extract_primitive_value tr = Ret b →
  prim_wf a → prim_wf b → (is_shift i = false → same_type a b = true) →
  (uses_modulus i = true → bitwidth a < 256) → vm_binary i a b = Some n →
  ∃ s' c, on_before_instruction_inner s i ts extra = Ret (s', c) ∧
    stack_ok (cs_stack s') (runtime (with_value a n) :: trest) ∧ cs_locals s' = cs_locals s ∧
    (∀ φ, c = Some φ → i = Bc_Shl ∧ evalB ρ φ = (2 ^ bitwidth a <=? as_u256 a * 2 ^ as_u256 b)).
Proof.
  intros Hd Hs Ht Hok Ha Hb Hwa Hwb Hty Hmod Hvm. unfold stack_ok in Hok.
  rewrite before_instruction_enabled; [|done|].
  2:{ apply Forall2_length in Hok. done. }
  rewrite Hs, Ht in Hok. apply Forall2_cons in Hok as [Hr Hok].
  apply Forall2_cons in Hok as [Hl Hrest]. rewrite Ht.
  assert (∃ φ, step_ok s srest a (step_instruction i (tr :: tl :: trest) extra s) n φ ∧
    ∀ c, φ c → i = Bc_Shl ∧ evalB ρ c = (2 ^ bitwidth a <=? as_u256 a * 2 ^ as_u256 b))
    as (φ & (sv & c & Hr' & Hsv & Hc) & Hφ).
  { destruct (is_shift i) eqn:Hsh.
    - destruct i; try discriminate Hsh.
      + eexists. split; [by eapply step_shl_ok; eauto|]. intros c Hc. by split.
      + eexists. split; [by eapply step_shr_ok|]. done.
    - specialize (Hty eq_refl). pose proof Hty as Hw%N.eqb_eq.
      pose proof (vm_binary_bound i a b n Hwa Hwb Hsh Hty Hvm) as Hn.
      exists (λ _, False). split; [|done].
      destruct i; try discriminate Hvm; try discriminate Hsh; cbn [step_instruction];
        first
        [eapply (step_arith_ok s sl sr srest tl tr trest a b); try done; reflexivity
        |eapply (step_bitop_ok s sl sr srest tl tr trest a b); try done;
           [reflexivity|apply Hmod; reflexivity]]. }
  exists (set_stack s (sv :: srest)), c. split_and!; [done| |done|].
  - by apply Forall2_cons.
  - intros ψ ->. by apply Hφ, Hc.
Qed.

(** C1: path constraints hold on the recorded path: for a comparison with a
    symbolic operand the executor returns a constraint that is true in every
    model of the inputs of this execution - except for [Neq] of equal values,
    where it returns the negated equality, which is false. The symbol pushed
    for the result always evaluates to 1, so it describes the VM's result
    exactly when that result is [true]. With no symbolic operand nothing is
    returned. *)
Theorem concolic_path_constraint s i ts extra sl sr srest tl tr trest a b v :
  cs_disable s = false → cs_stack s = sr :: sl :: srest → operand_stack ts = tr :: tl :: trest →
  stack_ok (cs_stack s) (operand_stack ts) →
  extract_primitive_value tl = Ret a → extract_primitive_value tr = Ret b →
  prim_wf a → prim_wf b → same_type a b = true → vm_compare i a b = Some v →
  (on_before_instruction_inner s i ts extra = Ret (set_stack s (SV_Unknown :: srest), None)
     ∧ sl = SV_Unknown ∧ sr = SV_Unknown) ∨
  ∃ t φ, on_before_instruction_inner s i ts extra =
      Ret (set_stack s (SV_Value t :: srest), Some φ) ∧
    evalB ρ φ = negb (is_neq i && (as_u256 a =? as_u256 b)) ∧ evalI ρ t = 1%Z ∧
    (stack_ok (SV_Value t :: srest) (runtime (PV_Bool v) :: trest) ↔ v = true).
Proof.
  intros Hd Hs Ht Hok Ha Hb Hwa Hwb Hty Hvm. unfold stack_ok in Hok.
  rewrite before_instruction_enabled; [|done|by apply Forall2_length in Hok].
  rewrite Hs, Ht in Hok. apply Forall2_cons in Hok as [Hr Hok].
  apply Forall2_cons in Hok as [Hl Hrest]. rewrite Ht.
  assert (compare_step s i (tr :: tl :: trest) =
    Some (step_instruction i (tr :: tl :: trest) extra s)) as Hstep.
  { by destruct i; try discriminate Hvm. }
  destruct (compare_step_ok s sl sr srest tl tr trest a b Hs Hl Hr Hrest Ha Hb Hwa Hwb i _ Hty Hstep)
    as [?|(t & φ & -> & Hev & Hφ)]; [by left|right].
  exists t, φ. split_and!; [done|done|done|]. unfold stack_ok. rewrite Forall2_cons.
  cbn [sym_ok]. rewrite extract_runtime. split.
  - intros [(p & [= <-] & Hp) _]. rewrite Hev in Hp. by destruct v.
  - intros ->. split; [by exists (PV_Bool true)|done].
Qed.

Definition cast_bits (i : Bytecode) : option N :=
  match i with
  | Bc_CastU8 => Some 8 | Bc_CastU16 => Some 16 | Bc_CastU32 => Some 32
  | Bc_CastU64 => Some 64 | Bc_CastU128 => Some 128 | _ => None
  end.

Lemma max_u_bits_cast i bits :
  cast_bits i = Some bits →
  ∃ t, max_u_bits bits = Ret t ∧ evalI ρ t = (2 ^ Z.of_N bits - 1)%Z.
Proof. destruct i; intros [= <-]; eexists; (split; [reflexivity|]); by rewrite eval_from. Qed.

(** A cast leaves the symbolic stack alone and, when its operand is
    symbolic, returns the constraint that is true exactly when the concrete
    cast does not overflow; [Not] below 256 bits leaves a symbol describing
    the complement within the operand's width. *)
Theorem concolic_unary_sound s i ts extra sv srest tv trest a :
  cs_disable s = false → cs_stack s = sv :: srest → operand_stack ts = tv :: trest →
  stack_ok (cs_stack s) (operand_stack ts) → extract_primitive_value tv = Ret a → prim_wf a →
  (∀ bits, cast_bits i = Some bits →
     ∃ c, on_before_instruction_inner s i ts extra = Ret (s, c) ∧
       (c = None ↔ sv = SV_Unknown) ∧
       ∀ φ, c = Some φ → evalB ρ φ = (as_u256 a <? 2 ^ bits)) ∧
  (i = Bc_Not → bitwidth a < 256 →
     ∃ sv', on_before_instruction_inner s i ts extra = Ret (set_stack s (sv' :: srest), None) ∧
       sym_ok sv' (runtime (with_value a (2 ^ bitwidth a - 1 - as_u256 a)))).
Proof.
  intros Hd Hs Ht Hok Ha Hwa. unfold stack_ok in Hok.
  rewrite before_instruction_enabled; [|done|by apply Forall2_length in Hok].
  rewrite Hs, Ht in Hok. apply Forall2_cons in Hok as [Hsv _]. rewrite Ht. split.
  - intros bits Hbits. destruct (max_u_bits_cast _ _ Hbits) as (m & Hm & Em).
    assert (step_instruction i (tv :: trest) extra s = step_cast bits s) as ->
      by (destruct i; try discriminate Hbits; by injection Hbits as <-).
    unfold step_cast. rewrite Hs. destruct sv as [t|]; [|by exists None].
    rewrite Hm. cbn [mbind panics_mbind panics_bind]. eexists. split_and!; [done|done|].
    intros φ [= <-]. rewrite eval_le, Em, (sym_ok_value t tv a Hsv Ha), <-N2Z_pow2.
    assert (0 < 2 ^ bits) by (apply N.neq_0_lt_0, N.pow_nonzero; done).
    destruct (N.ltb_spec (as_u256 a) (2 ^ bits)); [apply Z.leb_le|apply Z.leb_gt]; lia.
  - intros -> Hw. cbn [step_instruction]. unfold step_not, value_bitwidth. rewrite Hs.
    destruct sv as [t|]; [|by exists SV_Unknown]. cbn [stack_top1 mbind panics_mbind panics_bind].
    rewrite Ha. cbn [mbind panics_mbind panics_bind]. eexists. split; [done|].
    unfold prim_wf in Hwa. eapply sym_ok_runtime; [lia|].
    rewrite eval_bvnot_sub, (sym_ok_value t tv a Hsv Ha), mod_width, <-N2Z_pow2 by done. lia.
Qed.

Lemma Forall2_reverse_args n (st : list (SymbolValue I)) (stack : list TraceValue) :
  stack_ok st stack → Forall2 sym_ok (reverse (take n st)) (reverse (take n stack)).
Proof. intros H. by apply Forall2_reverse, Forall2_take. Qed.

End spec.

(** ** Witnesses: one symbolic [u64] argument "0.0" with the value 12 *)
Definition demo_rho : string → Z := λ _, 12%Z.
Definition demo_arg : IntTerm := int_new_const (arg_name 0 0).
Definition demo_concolic : ConcolicState IntTerm :=
  MkConcolic [SV_Unknown; SV_Value demo_arg] [[SV_Value demo_arg]] [{[0%nat := demo_arg]}] false.
Definition demo_vm : TraceState :=
  MkTraceState ∅ [runtime (PV_U64 5); runtime (PV_U64 12)] ∅.
Definition demo_vm8 (n : N) : TraceState :=
  MkTraceState ∅ [runtime (PV_U8 n); runtime (PV_U64 12)] ∅.

Lemma demo_stack_ok x : stack_ok demo_rho (cs_stack demo_concolic) [x; runtime (PV_U64 12)].
Proof.
  constructor; [done|]. constructor; [|constructor]. exists (PV_U64 12). by split.
Qed.

Lemma concolic_stays_in_sync_witness :
  ∃ s' c, on_before_instruction_inner (B := BoolTerm) demo_concolic Bc_Add demo_vm None = Ret (s', c) ∧
    on_raw_event_inner s' (Ev_Instruction [] 1 90 Bc_Ret)
      (MkTraceState ∅ [runtime (PV_U64 17)] ∅) = (s', true).
Proof.
  eexists _, _. split; [reflexivity|].
  eapply (concolic_stays_in_sync demo_concolic Bc_Add demo_vm _ None 2 1);
    [reflexivity..|unfold height; simpl; lia|reflexivity|reflexivity].
Defined.

Lemma concolic_binary_sound_witness :
  ∃ s' c, on_before_instruction_inner (B := BoolTerm) demo_concolic Bc_Shl (demo_vm8 63) None = Ret (s', c) ∧
    stack_ok demo_rho (cs_stack s') [runtime (PV_U64 0)] ∧ cs_locals s' = cs_locals demo_concolic ∧
    (∀ φ, c = Some φ → Bc_Shl = Bc_Shl ∧ evalB demo_rho φ = true).
Proof.
  apply (concolic_binary_sound demo_rho demo_concolic Bc_Shl (demo_vm8 63) None
    (SV_Value demo_arg) SV_Unknown [] (runtime (PV_U64 12)) (runtime (PV_U8 63)) []
    (PV_U64 12) (PV_U8 63) 0);
    [reflexivity..|apply demo_stack_ok|reflexivity|reflexivity|reflexivity|reflexivity
    |discriminate|reflexivity|vm_compute; reflexivity].
Defined.

Lemma concolic_path_constraint_witness :
  ∃ t φ, on_before_instruction_inner demo_concolic Bc_Gt demo_vm None =
      Ret (set_stack demo_concolic [SV_Value t], Some φ) ∧ evalB demo_rho φ = true.
Proof.
  destruct (concolic_path_constraint demo_rho demo_concolic Bc_Gt demo_vm None
    (SV_Value demo_arg) SV_Unknown [] (runtime (PV_U64 12)) (runtime (PV_U64 5)) []
    (PV_U64 12) (PV_U64 5) true) as [(_ & ? & _)|(t & φ & H & Hφ & _)];
    [reflexivity..|apply demo_stack_ok|reflexivity|reflexivity|reflexivity|reflexivity
    |reflexivity|reflexivity|discriminate|].
  exists t, φ. by split.
Defined.

Lemma concolic_unary_sound_witness :
  ∃ c, on_before_instruction_inner (demo_concolic) Bc_CastU8
         (MkTraceState ∅ [runtime (PV_U64 300); runtime (PV_U64 12)] ∅) None =
         Ret (demo_concolic, c) ∧
       (c = None ↔ @SV_Unknown IntTerm = SV_Unknown) ∧
       ∀ φ : BoolTerm, c = Some φ → evalB demo_rho φ = (300 <? 2 ^ 8).
Proof.
  apply (concolic_unary_sound demo_rho demo_concolic Bc_CastU8
    (MkTraceState ∅ [runtime (PV_U64 300); runtime (PV_U64 12)] ∅) None SV_Unknown
    [SV_Value demo_arg] (runtime (PV_U64 300)) [runtime (PV_U64 12)] (PV_U64 300));
    [reflexivity..|apply demo_stack_ok|reflexivity|reflexivity|reflexivity].
Defined.

Definition demo_call : Frame :=
  MkFrame 7 (MkModuleId addr_two "math") addr_two 0 "min"
    [runtime (PV_U64 12); runtime (PV_U64 5)] [] [] false [].


(** At 256 bits the modulus the code computes is [1 << 256], which is 0. *)
Lemma int_two_pow_256_is_zero : int_two_pow (I := IntTerm) (B := BoolTerm) 256 = T_num 0.
Proof. vm_compute. reflexivity. Qed.

(** [Neq] on equal values returns a constraint its own execution violates. *)
Lemma neq_constraint_false :
  ∃ s' φ, on_before_instruction_inner demo_concolic Bc_Neq
      (MkTraceState ∅ [runtime (PV_U64 12); runtime (PV_U64 12)] ∅) None = Ret (s', Some φ) ∧
    evalB demo_rho φ = false.
Proof. eexists _, _. split; reflexivity. Qed.
