(* ===== verification/Tracer.v ===== *)
(** * Tracer: dispatching trace events to observers

    [crates/movy-replay/src/tracer/mod.rs]: the observer interface
    [MovySuiTracerExt], the wrapper that replays the VM's memory and calls the
    observer's handlers, and the combinators. A handler takes the observer's
    state and returns the new one; handlers may panic. *)
From S2P Require Import Prelude Types TraceState.

Class MovySuiTracerExt (T : Type) := {
  on_raw_event : TraceState → TraceEvent → T → panics (T * bool);
  on_move_call : TraceState → T → panics T;
  on_effect : TraceState → Effect → T → panics T;
  open_frame : TraceState → Frame → N → T → panics T;
  close_frame : TraceState → TraceIndex → list TraceValue → N → T → panics T;
  before_instruction : TraceState → list MoveTypeTag → N → N → Bytecode → T → panics T;
}.

(** The trait's default bodies. *)
Definition default_raw_event {T} (s : TraceState) (ev : TraceEvent) (t : T) : panics (T * bool) :=
  Ret (t, false).
Definition default_move_call {T} (s : TraceState) (t : T) : panics T := Ret t.
Definition default_effect {T} (s : TraceState) (e : Effect) (t : T) : panics T := Ret t.

Record NopTracer := MkNop {}.
#[export] Instance nop_ext : MovySuiTracerExt NopTracer := {
  on_raw_event := default_raw_event;
  on_move_call := default_move_call;
  on_effect := default_effect;
  open_frame _ _ _ t := Ret t;
  close_frame _ _ _ _ t := Ret t;
  before_instruction _ _ _ _ _ t := Ret t;
}.

(** ** The wrapper *)
Record MovySuiTracerWrapper (T : Type) := MkWrapper { wr_tracer : T; wr_state : TraceState }.
Arguments MkWrapper {T} _ _.
Arguments wr_tracer {T} _.
Arguments wr_state {T} _.

Section wrapper.
Context `{TL : TraceLib} {T : Type} `{ME : MovySuiTracerExt T}.

Definition wrapper_from (value : T) : MovySuiTracerWrapper T := MkWrapper value trace_state_new.

(** The handler an event is dispatched to. *)
Definition dispatch (state : TraceState) (event : TraceEvent) (t : T) : panics T :=
  match event with
  | Ev_External e => if is_move_call_start e then on_move_call state t else Ret t
  | Ev_OpenFrame frame gas_left => open_frame state frame gas_left t
  | Ev_CloseFrame frame_id return_ gas_left => close_frame state frame_id return_ gas_left t
  | Ev_Effect e => on_effect state e t
  | Ev_Instruction type_parameters pc gas_left instruction =>
      before_instruction state type_parameters pc gas_left instruction t
  end.

Definition notify (w : MovySuiTracerWrapper T) (event : TraceEvent) :
    panics (MovySuiTracerWrapper T * bool) :=
  '(tracer, keep) ← on_raw_event (wr_state w) event (wr_tracer w);
  if keep : bool then
    tracer ← dispatch (wr_state w) event tracer;
    state ← apply_event (wr_state w) event;
    Ret (MkWrapper tracer state, false)
  else
    state ← apply_event (wr_state w) event;
    Ret (MkWrapper tracer state, false).

Fixpoint notify_all (w : MovySuiTracerWrapper T) (evs : list TraceEvent) :
    panics (MovySuiTracerWrapper T) :=
  match evs with
  | [] => Ret w
  | e :: evs => '(w, _) ← notify w e; notify_all w evs
  end.

Lemma notify_inv w ev w' b :
  notify w ev = Ret (w', b) →
  ∃ t keep, on_raw_event (wr_state w) ev (wr_tracer w) = Ret (t, keep) ∧ b = false ∧
    apply_event (wr_state w) ev = Ret (wr_state w') ∧
    (if keep then dispatch (wr_state w) ev t else Ret t) = Ret (wr_tracer w').
Proof.
  unfold notify. intros H. apply panics_bind_Ret in H as ([t keep] & Hraw & H).
  exists t, keep. destruct keep.
  - apply panics_bind_Ret in H as (t' & Ht & H). apply panics_bind_Ret in H as (s' & Hs & H).
    injection H as <- <-. by split_and!.
  - apply panics_bind_Ret in H as (s' & Hs & H). injection H as <- <-. by split_and!.
Qed.

Lemma notify_all_state w evs w' :
  notify_all w evs = Ret w' → apply_events (wr_state w) evs = Ret (wr_state w').
Proof.
  revert w. induction evs as [|e evs IH]; intros w H; simpl in *; [by injection H as <-|].
  apply panics_bind_Ret in H as ([w1 b] & Hn & H).
  apply notify_inv in Hn as (t & keep & _ & _ & Hs & _). rewrite Hs. by apply IH.
Qed.
(** A relation kept by every notification is kept by a run. *)
Lemma notify_all_app (w : MovySuiTracerWrapper T) l1 l2 :
  notify_all w (l1 ++ l2) = (w' ← notify_all w l1; notify_all w' l2).
Proof.
  revert w. induction l1 as [|e l1 IH]; intros w; [done|]. simpl.
  destruct (notify w e) as [[w' b]|]; [apply IH|done].
Qed.

Lemma notify_all_rel (R : T → T → Prop) `{!PreOrder R} w evs w' :
  (∀ w e w' b, e ∈ evs → notify w e = Ret (w', b) → R (wr_tracer w) (wr_tracer w')) →
  notify_all w evs = Ret w' → R (wr_tracer w) (wr_tracer w').
Proof.
  revert w. induction evs as [|e evs IH]; intros w Hstep H; simpl in H; [by injection H as <-|].
  apply panics_bind_Ret in H as ([w1 b] & Hn & H).
  etrans; [eapply Hstep; [left|done]|]. eapply IH; [|done].
  intros ?????. eapply Hstep. by right.
Qed.
End wrapper.

(** ** Combinators *)
Record TeeTracer (T1 T2 : Type) := MkTee { tee_l : T1; tee_r : T2 }.
Arguments MkTee {T1 T2} _ _.
Arguments tee_l {T1 T2} _.
Arguments tee_r {T1 T2} _.

(** Both observers, the left one first. *)
Definition tee_map {T1 T2} (f : T1 → panics T1) (g : T2 → panics T2) (t : TeeTracer T1 T2) :
    panics (TeeTracer T1 T2) :=
  l ← f (tee_l t); r ← g (tee_r t); Ret (MkTee l r).

#[export] Instance tee_ext {T1 T2} `{!MovySuiTracerExt T1, !MovySuiTracerExt T2} :
    MovySuiTracerExt (TeeTracer T1 T2) := {
  on_raw_event state ev t :=
    '(l, keep_left) ← on_raw_event state ev (tee_l t);
    '(r, keep_right) ← on_raw_event state ev (tee_r t);
    Ret (MkTee l r, keep_left || keep_right);
  on_move_call state := tee_map (on_move_call state) (on_move_call state);
  on_effect state effect := tee_map (on_effect state effect) (on_effect state effect);
  open_frame state frame gas_left :=
    tee_map (open_frame state frame gas_left) (open_frame state frame gas_left);
  close_frame state frame_id return_ gas_left :=
    tee_map (close_frame state frame_id return_ gas_left)
      (close_frame state frame_id return_ gas_left);
  before_instruction state tys pc gas_left instruction :=
    tee_map (before_instruction state tys pc gas_left instruction)
      (before_instruction state tys pc gas_left instruction);
}.

Inductive SelectiveTracer (T1 T2 : Type) := Sel_T1 (v : T1) | Sel_T2 (v : T2).
Arguments Sel_T1 {T1 T2} v.
Arguments Sel_T2 {T1 T2} v.

Definition sel_map {T1 T2} (f : T1 → panics T1) (g : T2 → panics T2) (t : SelectiveTracer T1 T2) :
    panics (SelectiveTracer T1 T2) :=
  match t with
  | Sel_T1 v => v ← f v; Ret (Sel_T1 v)
  | Sel_T2 v => v ← g v; Ret (Sel_T2 v)
  end.

#[export] Instance selective_ext {T1 T2} `{!MovySuiTracerExt T1, !MovySuiTracerExt T2} :
    MovySuiTracerExt (SelectiveTracer T1 T2) := {
  on_raw_event state ev t :=
    match t with
    | Sel_T1 v => '(v, keep) ← on_raw_event state ev v; Ret (Sel_T1 v, keep)
    | Sel_T2 v => '(v, keep) ← on_raw_event state ev v; Ret (Sel_T2 v, keep)
    end;
  on_move_call state := sel_map (on_move_call state) (on_move_call state);
  on_effect state effect := sel_map (on_effect state effect) (on_effect state effect);
  open_frame state frame gas_left :=
    sel_map (open_frame state frame gas_left) (open_frame state frame gas_left);
  close_frame state frame_id return_ gas_left :=
    sel_map (close_frame state frame_id return_ gas_left)
      (close_frame state frame_id return_ gas_left);
  before_instruction state tys pc gas_left instruction :=
    sel_map (before_instruction state tys pc gas_left instruction)
      (before_instruction state tys pc gas_left instruction);
}.

(** ** Properties *)
Section tee.
Context `{TL : TraceLib} {T1 T2 : Type} `{M1 : MovySuiTracerExt T1} `{M2 : MovySuiTracerExt T2}.

(** An observer that wants every event. *)
Definition attentive (T : Type) `{MovySuiTracerExt T} : Prop :=
  ∀ state ev (t t' : T) keep, on_raw_event state ev t = Ret (t', keep) → keep = true.

Lemma tee_dispatch state ev (l : T1) (r : T2) :
  dispatch state ev (MkTee l r) =
    (l' ← dispatch state ev l; r' ← dispatch state ev r; Ret (MkTee l' r')).
Proof.
  destruct ev as [f g|id ret g|tys pc g i|e|o]; try reflexivity. simpl.
  by destruct (is_move_call_start o).
Qed.

(** Observers cannot disturb each other or the replay: running two
    attentive observers side by side on a trace gives exactly the results of
    running each of them alone, and in every run the memory the wrapper shows
    to its observer is the plain replay of the events. *)
Theorem tee_independent evs s (l : T1) (r : T2) w :
  attentive T1 → attentive T2 →
  notify_all (MkWrapper (MkTee l r) s) evs = Ret w ↔
  ∃ wl wr, notify_all (MkWrapper l s) evs = Ret wl ∧ notify_all (MkWrapper r s) evs = Ret wr ∧
    apply_events s evs = Ret (wr_state w) ∧ wr_state wl = wr_state w ∧ wr_state wr = wr_state w ∧
    wr_tracer w = MkTee (wr_tracer wl) (wr_tracer wr).
Proof.
  intros A1 A2. revert s l r. induction evs as [|e evs IH]; intros s l r.
  - simpl. split.
    + intros [= <-]. by eexists _, _.
    + intros (wl & wr & [= <-] & [= <-] & [= Hs] & _ & _ & Ht). destruct w; simpl in *. by subst.
  - cbn [notify_all apply_events]. unfold notify at 1 2 3. cbn [wr_state wr_tracer on_raw_event tee_ext tee_l tee_r].
    destruct (on_raw_event s e l) as [[l1 k1]|] eqn:E1; simpl; [|naive_solver].
    destruct (on_raw_event s e r) as [[r1 k2]|] eqn:E2; simpl; [|naive_solver].
    rewrite (A1 _ _ _ _ _ E1), (A2 _ _ _ _ _ E2). simpl. rewrite tee_dispatch.
    destruct (dispatch s e l1) as [l2|] eqn:D1; simpl; [|naive_solver].
    destruct (dispatch s e r1) as [r2|] eqn:D2; simpl; [|naive_solver].
    destruct (apply_event s e) as [s1|]; simpl; [|naive_solver]. apply IH.
Qed.
End tee.

(** ** Observers inside combinators *)
Section project.
Context `{TL : TraceLib} {T1 T2 : Type} `{M1 : MovySuiTracerExt T1} `{M2 : MovySuiTracerExt T2}.

(** The left observer of a pair, if it is attentive, runs as if alone. *)
Lemma tee_runs_left evs s (l : T1) (r : T2) w : attentive T1 →
  notify_all (MkWrapper (MkTee l r) s) evs = Ret w →
  ∃ wl, notify_all (MkWrapper l s) evs = Ret wl ∧ wr_state wl = wr_state w ∧
    tee_l (wr_tracer w) = wr_tracer wl.
Proof.
  intros A. revert s l r. induction evs as [|e evs IH]; intros s l r; cbn [notify_all].
  { intros [= <-]. by eexists. }
  unfold notify at 1 2. cbn [wr_state wr_tracer on_raw_event tee_ext tee_l tee_r].
  destruct (on_raw_event s e l) as [[l1 k1]|] eqn:E1; simpl; [|done].
  destruct (on_raw_event s e r) as [[r1 k2]|] eqn:E2; simpl; [|done].
  rewrite (A _ _ _ _ _ E1). simpl. rewrite tee_dispatch.
  destruct (dispatch s e l1) as [l2|] eqn:D1; simpl; [|done].
  destruct (dispatch s e r1) as [r2|] eqn:D2; simpl; [|done].
  destruct (apply_event s e) as [s1|]; simpl; [|done]. apply IH.
Qed.

(** An observer that only wraps another runs as if it were alone. *)
Definition sel_wrap {T T'} (inj : T → T') (w : MovySuiTracerWrapper T) : MovySuiTracerWrapper T' :=
  MkWrapper (inj (wr_tracer w)) (wr_state w).

Lemma wrapped_runs {T T'} `{!MovySuiTracerExt T, !MovySuiTracerExt T'} (inj : T → T') evs s v :
  (∀ s ev v, on_raw_event s ev (inj v) = ('(v, k) ← on_raw_event s ev v; Ret (inj v, k))) →
  (∀ s ev v, dispatch s ev (inj v) = (v ← dispatch s ev v; Ret (inj v))) →
  notify_all (MkWrapper (inj v) s) evs = (w ← notify_all (MkWrapper v s) evs; Ret (sel_wrap inj w)).
Proof.
  intros Hraw Hd. revert s v. induction evs as [|e evs IH]; intros s v; [done|]. cbn [notify_all].
  unfold notify at 1 2. cbn [wr_state wr_tracer]. rewrite Hraw.
  destruct (on_raw_event s e v) as [[v1 [|]]|]; simpl; [rewrite Hd| |done].
  - destruct (dispatch s e v1) as [v2|]; simpl; [|done]. destruct (apply_event s e); simpl; [apply IH|done].
  - destruct (apply_event s e); simpl; [apply IH|done].
Qed.

Lemma selected_left evs s (v : T1) :
  notify_all (MkWrapper (Sel_T1 (T2 := T2) v) s) evs =
    (w ← notify_all (MkWrapper v s) evs; Ret (sel_wrap Sel_T1 w)).
Proof.
  apply wrapped_runs; [done|]. intros s' ev v'. destruct ev as [f g|id ret g|tys pc g i|ef|o]; try done.
  simpl. by destruct (is_move_call_start o).
Qed.
Lemma selected_right evs s (v : T2) :
  notify_all (MkWrapper (Sel_T2 (T1 := T1) v) s) evs =
    (w ← notify_all (MkWrapper v s) evs; Ret (sel_wrap Sel_T2 w)).
Proof.
  apply wrapped_runs; [done|]. intros s' ev v'. destruct ev as [f g|id ret g|tys pc g i|ef|o]; try done.
  simpl. by destruct (is_move_call_start o).
Qed.
End project.
