(* ===== verification/TreeTracer.v ===== *)
(** * TreeTracer: reconstructing the tree of calls

    [crates/movy-replay/src/tracer/tree.rs]. A position in the forest is the
    list of child indices [call_idxs]; what is printed of the tree is in
    [Pretty]. *)
From S2P Require Import Prelude Types TraceState Text Tracer.

#[local] Unset Elimination Schemes.
Inductive FrameTraced := MkFrameTraced {
  ft_open : Frame; ft_subcalls : list FrameTraced; ft_close : option (list TraceValue) }.
#[local] Set Elimination Schemes.

Section frame_ind.
Variable P : FrameTraced → Prop.
Hypothesis Hnode : ∀ o subs c, Forall P subs → P (MkFrameTraced o subs c).
Fixpoint FrameTraced_ind (t : FrameTraced) : P t :=
  match t with
  | MkFrameTraced o subs c => Hnode o subs c
      ((fix go (l : list FrameTraced) : Forall P l :=
          match l with
          | [] => Forall_nil_2 P
          | x :: l' => Forall_cons_2 P x l' (FrameTraced_ind x) (go l')
          end) subs)
  end.
End frame_ind.

Record TreeTraceResult := MkTree {
  tr_calls : list FrameTraced;
  tr_call_idxs : list nat;
  tr_error_call_idxs : option (list nat);
  tr_error_message : option string;
  tr_evs : list TraceEvent }.

Definition tree_default : TreeTraceResult := MkTree [] [] None None [].

(** [current_calls]: the list of calls at a path, updated by [f]. *)
Fixpoint update_calls (path : list nat) (f : list FrameTraced → list FrameTraced)
    (calls : list FrameTraced) : panics (list FrameTraced) :=
  match path with
  | [] => Ret (f calls)
  | idx :: path =>
      fr ← unwrap (calls !! idx);
      subs ← update_calls path f (ft_subcalls fr);
      Ret (<[idx := MkFrameTraced (ft_open fr) subs (ft_close fr)]> calls)
  end.

Fixpoint calls_at (path : list nat) (calls : list FrameTraced) : panics (list FrameTraced) :=
  match path with
  | [] => Ret calls
  | idx :: path => fr ← unwrap (calls !! idx); calls_at path (ft_subcalls fr)
  end.

(** [current_frame]: the frame at a non-empty path, updated by [f]. *)
Fixpoint update_frame (idx : nat) (path : list nat) (f : FrameTraced → FrameTraced)
    (calls : list FrameTraced) : panics (list FrameTraced) :=
  fr ← unwrap (calls !! idx);
  match path with
  | [] => Ret (<[idx := f fr]> calls)
  | idx' :: path' =>
      subs ← update_frame idx' path' f (ft_subcalls fr);
      Ret (<[idx := MkFrameTraced (ft_open fr) subs (ft_close fr)]> calls)
  end.

Definition set_close (return_ : list TraceValue) (fr : FrameTraced) : FrameTraced :=
  MkFrameTraced (ft_open fr) (ft_subcalls fr) (Some return_).

Definition open_frame_inner (frame : Frame) (t : TreeTraceResult) : panics TreeTraceResult :=
  current ← calls_at (tr_call_idxs t) (tr_calls t);
  let idx_len := length current in
  calls ← update_calls (tr_call_idxs t) (λ l, l ++ [MkFrameTraced frame [] None]) (tr_calls t);
  Ret (MkTree calls (tr_call_idxs t ++ [idx_len]) (tr_error_call_idxs t) (tr_error_message t)
    (tr_evs t)).

Definition close_frame_inner (return_ : list TraceValue) (t : TreeTraceResult) :
    panics TreeTraceResult :=
  calls ← match tr_call_idxs t with
          | [] => Ret (tr_calls t)
          | idx :: path => update_frame idx path (set_close return_) (tr_calls t)
          end;
  Ret (MkTree calls (removelast (tr_call_idxs t)) (tr_error_call_idxs t) (tr_error_message t)
    (tr_evs t)).

Definition tree_raw_event (ev : TraceEvent) (t : TreeTraceResult) : TreeTraceResult :=
  let t :=
    match ev, tr_error_call_idxs t with
    | Ev_Effect (Eff_ExecutionError message), None =>
        MkTree (tr_calls t) (tr_call_idxs t) (Some (tr_call_idxs t)) (Some message) (tr_evs t)
    | _, _ => t
    end in
  MkTree (tr_calls t) (tr_call_idxs t) (tr_error_call_idxs t) (tr_error_message t)
    (tr_evs t ++ [ev]).

#[export] Instance tree_ext : MovySuiTracerExt TreeTraceResult := {
  on_raw_event _ ev t := Ret (tree_raw_event ev t, true);
  on_move_call := default_move_call;
  on_effect := default_effect;
  open_frame _ frame _ t := open_frame_inner frame t;
  close_frame _ _ return_ _ t := close_frame_inner return_ t;
  before_instruction _ _ _ _ _ t := Ret t;
}.

(** ** The error trace *)
Definition frame_at_path (calls : list FrameTraced) (path : list nat) : option FrameTraced :=
  match path with
  | [] => None
  | first :: rest =>
      fr ← calls !! first;
      fold_left (λ acc idx, current ← acc; ft_subcalls current !! idx) rest (Some fr)
  end.

(** ** Paths *)
Fixpoint valid_path (path : list nat) (calls : list FrameTraced) : Prop :=
  match path with
  | [] => True
  | idx :: path => ∃ fr, calls !! idx = Some fr ∧ valid_path path (ft_subcalls fr)
  end.

Lemma update_calls_at path f calls cur :
  calls_at path calls = Ret cur →
  ∃ calls', update_calls path f calls = Ret calls' ∧ calls_at path calls' = Ret (f cur).
Proof.
  revert calls. induction path as [|idx path IH]; intros calls H; simpl in *.
  - injection H as ->. by eexists.
  - apply panics_bind_Ret in H as (fr & Hfr%unwrap_Ret & H). rewrite Hfr. simpl.
    destruct (IH _ H) as (subs & -> & Hs). simpl. eexists. split; [done|].
    rewrite list_lookup_insert_eq; [done|by eapply lookup_lt_Some].
Qed.

Lemma update_calls_compose path f g calls calls' :
  update_calls path f calls = Ret calls' →
  update_calls path g calls' = update_calls path (λ l, g (f l)) calls.
Proof.
  revert calls calls'. induction path as [|idx path IH]; intros calls calls' H; simpl in *.
  - by injection H as <-.
  - apply panics_bind_Ret in H as (fr & Hfr%unwrap_Ret & H). rewrite Hfr. simpl.
    apply panics_bind_Ret in H as (subs & Hs & H). injection H as <-.
    rewrite list_lookup_insert_eq by by eapply lookup_lt_Some. simpl. rewrite (IH _ _ Hs).
    destruct (update_calls path (λ l, g (f l)) (ft_subcalls fr)); [|done]. simpl.
    by rewrite list_insert_insert_eq.
Qed.

Lemma update_calls_ext path f g calls cur :
  calls_at path calls = Ret cur → f cur = g cur → update_calls path f calls = update_calls path g calls.
Proof.
  revert calls. induction path as [|idx path IH]; intros calls H Hfg; simpl in *.
  - injection H as ->. by rewrite Hfg.
  - apply panics_bind_Ret in H as (fr & Hfr%unwrap_Ret & H). rewrite Hfr. simpl. by rewrite (IH _ H Hfg).
Qed.

(** Updating at a child position is updating the child in its parent's list. *)
Lemma update_calls_child path n f calls cur fr :
  calls_at path calls = Ret cur → cur !! n = Some fr →
  update_calls (path ++ [n]) f calls =
    update_calls path (alter (λ fr, MkFrameTraced (ft_open fr) (f (ft_subcalls fr)) (ft_close fr)) n) calls.
Proof.
  revert calls. induction path as [|idx path IH]; intros calls H Hn; simpl in *.
  - injection H as ->. rewrite Hn. simpl. f_equal. by apply (insert_as_alter (λ fr, MkFrameTraced (ft_open fr) (f (ft_subcalls fr)) (ft_close fr))).
  - apply panics_bind_Ret in H as (fr' & Hfr%unwrap_Ret & H). rewrite Hfr. simpl. by rewrite (IH _ H Hn).
Qed.

Lemma calls_at_child path n calls cur fr :
  calls_at path calls = Ret cur → cur !! n = Some fr →
  calls_at (path ++ [n]) calls = Ret (ft_subcalls fr).
Proof.
  revert calls. induction path as [|idx path IH]; intros calls H Hn; simpl in *.
  - injection H as ->. by rewrite Hn.
  - apply panics_bind_Ret in H as (fr' & Hfr%unwrap_Ret & H). rewrite Hfr. simpl. by apply IH.
Qed.

Lemma update_frame_child path idx p n f calls cur fr :
  path ++ [n] = idx :: p → calls_at path calls = Ret cur → cur !! n = Some fr →
  update_frame idx p f calls = update_calls path (alter f n) calls.
Proof.
  revert idx p calls. induction path as [|i path IH]; intros idx p calls Hp H Hn; simpl in *.
  - injection Hp as <- <-. injection H as ->. simpl. rewrite Hn. simpl. f_equal. by apply insert_as_alter.
  - injection Hp as <- <-. apply panics_bind_Ret in H as (fr' & Hfr%unwrap_Ret & H).
    destruct (path ++ [n]) as [|i' p'] eqn:E; [by destruct path|].
    simpl. rewrite Hfr. simpl. by rewrite (IH _ _ _ eq_refl H Hn).
Qed.

(** ** The events of a finished call tree *)
Fixpoint tree_events (t : FrameTraced) : list TraceEvent :=
  Ev_OpenFrame (ft_open t) 0 :: flat_map tree_events (ft_subcalls t)
    ++ [Ev_CloseFrame (fr_frame_id (ft_open t)) (default [] (ft_close t)) 0].

Fixpoint finished (t : FrameTraced) : bool :=
  bool_decide (is_Some (ft_close t)) && forallb finished (ft_subcalls t).

Section run.
Context `{TL : TraceLib}.

(** The part of the tracer's state the tree is in. *)
Definition at_calls (t : TreeTraceResult) (calls : list FrameTraced) (path : list nat) : Prop :=
  tr_calls t = calls ∧ tr_call_idxs t = path ∧ tr_error_call_idxs t = None.

(** Running the events [evs] from any state appends [ts] at the current path. *)
Definition appends (evs : list TraceEvent) (ts : list FrameTraced) : Prop :=
  ∀ t s s' calls path cur, at_calls t calls path → calls_at path calls = Ret cur →
    apply_events s evs = Ret s' →
    ∃ t' calls', notify_all (MkWrapper t s) evs = Ret (MkWrapper t' s') ∧
      update_calls path (λ l, l ++ ts) calls = Ret calls' ∧ at_calls t' calls' path.

Lemma appends_nil : appends [] [].
Proof.
  intros t s s' calls path cur Ht Hcur [= <-]. exists t, calls. split_and!; [done| |done].
  clear Ht. revert calls Hcur. induction path as [|i path IH]; intros calls Hcur; simpl in *.
  - by rewrite app_nil_r.
  - apply panics_bind_Ret in Hcur as (fr & Hfr%unwrap_Ret & H). rewrite Hfr. simpl.
    rewrite (IH _ H). simpl. destruct fr. simpl. by rewrite list_insert_id.
Qed.

Lemma appends_app e1 t1 e2 t2 : appends e1 t1 → appends e2 t2 → appends (e1 ++ e2) (t1 ++ t2).
Proof.
  intros H1 H2 t s s' calls path cur Ht Hcur Happ. rewrite apply_events_app in Happ.
  apply panics_bind_Ret in Happ as (s1 & Hs1 & Hs2).
  destruct (H1 _ _ _ _ _ _ Ht Hcur Hs1) as (t1' & calls1 & Hn1 & Hu1 & Ht1).
  destruct (update_calls_at _ (λ l, l ++ t1) _ _ Hcur) as (x & Hu1' & Hcur1).
  rewrite Hu1 in Hu1'. injection Hu1' as <-.
  destruct (H2 _ _ _ _ _ _ Ht1 Hcur1 Hs2) as (t2' & calls2 & Hn2 & Hu2 & Ht2).
  exists t2', calls2. split_and!; [|rewrite (update_calls_compose _ _ _ _ _ Hu1) in Hu2|done].
  - rewrite notify_all_app, Hn1. done.
  - rewrite <-Hu2. eapply update_calls_ext; [done|]. by rewrite <-app_assoc.
Qed.

Lemma notify_open t s s1 f g calls path cur calls1 :
  at_calls t calls path → calls_at path calls = Ret cur →
  update_calls path (λ l, l ++ [MkFrameTraced f [] None]) calls = Ret calls1 →
  apply_event s (Ev_OpenFrame f g) = Ret s1 →
  ∃ t1, notify (MkWrapper t s) (Ev_OpenFrame f g) = Ret (MkWrapper t1 s1, false) ∧
    at_calls t1 calls1 (path ++ [length cur]).
Proof.
  intros (Hc & Hp & He) Hcur Hu Happ. unfold notify.
  cbn [on_raw_event tree_ext wr_tracer wr_state dispatch mbind panics_mbind panics_bind open_frame].
  unfold open_frame_inner.
  cbn [tree_raw_event tr_call_idxs tr_calls tr_error_call_idxs tr_error_message tr_evs].
  rewrite Hc, Hp, Hcur. cbn [mbind panics_mbind panics_bind]. rewrite Hu.
  cbn [mbind panics_mbind panics_bind]. rewrite Happ. cbn [mbind panics_mbind panics_bind].
  eexists. split; [done|]. by split_and!.
Qed.

Lemma notify_close t s s1 id r g calls path cur fr calls1 :
  at_calls t calls (path ++ [length cur]) → calls_at path calls = Ret (cur ++ [fr]) →
  update_calls path (alter (set_close r) (length cur)) calls = Ret calls1 →
  apply_event s (Ev_CloseFrame id r g) = Ret s1 →
  ∃ t1, notify (MkWrapper t s) (Ev_CloseFrame id r g) = Ret (MkWrapper t1 s1, false) ∧
    at_calls t1 calls1 path.
Proof.
  intros (Hc & Hp & He) Hcur Hu Happ. unfold notify.
  cbn [on_raw_event tree_ext wr_tracer wr_state dispatch mbind panics_mbind panics_bind close_frame].
  unfold close_frame_inner.
  cbn [tree_raw_event tr_call_idxs tr_calls tr_error_call_idxs tr_error_message tr_evs].
  rewrite Hc, Hp. destruct (path ++ [length cur]) as [|i p] eqn:Epath; [by destruct path|].
  assert ((cur ++ [fr]) !! length cur = Some fr) as Hn by by apply list_lookup_middle.
  rewrite (update_frame_child path i p _ _ _ _ _ Epath Hcur Hn), Hu.
  cbn [mbind panics_mbind panics_bind]. rewrite Happ. cbn [mbind panics_mbind panics_bind].
  eexists. split; [done|]. split_and!; [done| |done].
  change (removelast (i :: p) = path). by rewrite <-Epath, removelast_last.
Qed.

Lemma appends_tree f r evs subs :
  appends evs subs →
  appends (Ev_OpenFrame f 0 :: evs ++ [Ev_CloseFrame (fr_frame_id f) r 0])
    [MkFrameTraced f subs (Some r)].
Proof.
  intros Hsub t s s' calls path cur Ht Hcur Happ.
  set (node := MkFrameTraced f [] None).
  destruct (update_calls_at path (λ l, l ++ [node]) _ _ Hcur) as (calls1 & Hu1 & Hcur1).
  cbn [apply_events] in Happ. apply panics_bind_Ret in Happ as (s1 & Hs1 & Happ).
  rewrite apply_events_app in Happ. apply panics_bind_Ret in Happ as (s2 & Hs2 & Happ).
  cbn [apply_events] in Happ. apply panics_bind_Ret in Happ as (s3 & Hs3 & [= <-]).
  destruct (notify_open _ _ _ _ _ _ _ _ _ Ht Hcur Hu1 Hs1) as (t1 & Hn1 & Ht1).
  assert ((cur ++ [node]) !! length cur = Some node) as Hn by by apply list_lookup_middle.
  destruct (Hsub t1 _ _ _ _ [] Ht1 (calls_at_child _ _ _ _ _ Hcur1 Hn) Hs2)
    as (t2 & calls2 & Hn2 & Hu2 & Ht2).
  rewrite (update_calls_child _ _ _ _ _ _ Hcur1 Hn), (update_calls_compose _ _ _ _ _ Hu1) in Hu2.
  destruct (update_calls_at path (λ l, alter (λ fr, MkFrameTraced (ft_open fr)
    (ft_subcalls fr ++ subs) (ft_close fr)) (length cur) (l ++ [node])) _ _ Hcur)
    as (x & Hu2' & Hcur3). rewrite Hu2' in Hu2. injection Hu2 as ->.
  rewrite alter_app_r_alt, Nat.sub_diag in Hcur3 by lia. simpl in Hcur3.
  destruct (update_calls_at path (alter (set_close r) (length cur)) _ _ Hcur3) as (calls3 & Hu3 & _).
  destruct (notify_close _ _ _ (fr_frame_id f) _ 0 _ _ _ _ _ Ht2 Hcur3 Hu3 Hs3) as (t3 & Hn3 & Ht3).
  exists t3, calls3. split_and!; [| |done].
  - cbn [notify_all]. rewrite Hn1. cbn [mbind panics_mbind panics_bind].
    rewrite notify_all_app, Hn2. cbn [mbind panics_mbind panics_bind notify_all]. by rewrite Hn3.
  - rewrite (update_calls_compose _ _ _ _ _ Hu2') in Hu3. rewrite <-Hu3.
    eapply update_calls_ext; [done|]. rewrite alter_app_r_alt, Nat.sub_diag by lia. simpl.
    rewrite alter_app_r_alt, Nat.sub_diag by lia. done.
Qed.

Lemma tree_appends t : finished t = true → appends (tree_events t) [t].
Proof.
  induction t as [f subs c IH]. cbn [finished ft_close ft_subcalls]. intros [Hc Hs]%andb_true_iff.
  apply bool_decide_eq_true_1 in Hc as [r ->]. cbn [tree_events ft_open ft_close ft_subcalls default].
  apply appends_tree. induction IH as [|t subs Ht _ IH]; [apply appends_nil|].
  cbn [forallb] in Hs. apply andb_true_iff in Hs as [Hst Hs].
  cbn [flat_map]. apply (appends_app _ [t]); [by apply Ht|by apply IH].
Qed.

(** C35: the tracer reconstructs the calls: on the events of any forest of
    finished calls (open, the callees' events, close, in order) that the
    memory replay accepts, the tracer never panics and ends with exactly that
    forest and no call open - recording events and reading the tree back are
    inverse. *)
Theorem tree_tracer_round_trip ts s s' :
  forallb finished ts = true → apply_events s (flat_map tree_events ts) = Ret s' →
  ∃ t, notify_all (MkWrapper tree_default s) (flat_map tree_events ts) = Ret (MkWrapper t s') ∧
    tr_calls t = ts ∧ tr_call_idxs t = [] ∧ tr_error_call_idxs t = None.
Proof.
  intros Hf Happ. assert (appends (flat_map tree_events ts) ts) as H.
  { clear Happ. induction ts as [|t ts IH]; [apply appends_nil|].
    cbn [forallb] in Hf. apply andb_true_iff in Hf as [Ht Hf].
    cbn [flat_map]. apply (appends_app _ [t]); [by apply tree_appends|by apply IH]. }
  destruct (H tree_default s s' [] [] []) as (t & calls' & Hn & Hu & Hc & Hp & He); [done|done|done|].
  exists t. simpl in Hu. injection Hu as <-. by split_and!.
Qed.

(** ** Paths never dangle *)
Definition paths_valid (t : TreeTraceResult) : Prop :=
  valid_path (tr_call_idxs t) (tr_calls t) ∧
  ∀ p, tr_error_call_idxs t = Some p → valid_path p (tr_calls t).

Lemma valid_calls_at path calls : valid_path path calls → ∃ cur, calls_at path calls = Ret cur.
Proof.
  revert calls. induction path as [|i path IH]; intros calls H; simpl in *; [by eexists|].
  destruct H as (fr & -> & H). simpl. by apply IH.
Qed.

Lemma valid_update_calls q path x calls calls' :
  valid_path q calls → update_calls path (λ l, l ++ [x]) calls = Ret calls' → valid_path q calls'.
Proof.
  revert path calls calls'. induction q as [|i q IH]; intros path calls calls' Hq Hu; [done|].
  destruct Hq as (fr & Hfr & Hq). destruct path as [|j path]; simpl in Hu.
  - injection Hu as <-. exists fr. split; [by apply lookup_app_l_Some|done].
  - apply panics_bind_Ret in Hu as (fr' & Hfr'%unwrap_Ret & Hu).
    apply panics_bind_Ret in Hu as (subs & Hs & [= <-]). simpl.
    destruct (decide (j = i)) as [->|Hne].
    + assert (fr' = fr) as -> by congruence.
      rewrite list_lookup_insert_eq by by eapply lookup_lt_Some. eexists. split; [done|]. by eapply IH.
    + rewrite list_lookup_insert_ne by done. eauto.
Qed.

Lemma valid_snoc path x calls cur calls' :
  calls_at path calls = Ret cur → update_calls path (λ l, l ++ [x]) calls = Ret calls' →
  valid_path (path ++ [length cur]) calls'.
Proof.
  intros Hcur Hu. destruct (update_calls_at path (λ l, l ++ [x]) _ _ Hcur) as (c & Hu' & Hcur').
  rewrite Hu in Hu'. injection Hu' as <-. clear Hu Hcur. revert calls' Hcur'.
  induction path as [|i path IH]; intros calls' H; simpl in *.
  - injection H as ->. exists x. split; [by apply list_lookup_middle|done].
  - apply panics_bind_Ret in H as (fr & Hfr%unwrap_Ret & H). eauto.
Qed.

Lemma valid_update_frame idx path r calls :
  valid_path (idx :: path) calls →
  ∃ calls', update_frame idx path (set_close r) calls = Ret calls' ∧
    ∀ q, valid_path q calls → valid_path q calls'.
Proof.
  assert (∀ (calls : list FrameTraced) idx fr subs c, calls !! idx = Some fr →
    (∀ q, valid_path q (ft_subcalls fr) → valid_path q subs) →
    ∀ q, valid_path q calls → valid_path q (<[idx := MkFrameTraced (ft_open fr) subs c]> calls)) as Hins.
  { intros l i fr subs c Hi Hsub [|j q] Hq; [done|]. destruct Hq as (fr' & Hj & Hq). simpl.
    destruct (decide (i = j)) as [->|]; [|rewrite list_lookup_insert_ne by done; eauto].
    rewrite list_lookup_insert_eq by by eapply lookup_lt_Some. eexists. split; [done|].
    apply Hsub. by simplify_eq. }
  revert idx calls. induction path as [|j path IH]; intros idx calls (fr & Hfr & Hp); simpl.
  - rewrite Hfr. simpl. eexists. split; [done|]. by apply Hins.
  - rewrite Hfr. simpl. destruct (IH j (ft_subcalls fr) Hp) as (subs & -> & Hs). simpl.
    eexists. split; [done|]. by apply Hins.
Qed.

Lemma valid_removelast path calls : valid_path path calls → valid_path (removelast path) calls.
Proof.
  revert calls. induction path as [|i path IH]; intros calls H; [done|].
  destruct H as (fr & Hfr & H). simpl. destruct path as [|j path]; [done|].
  exists fr. split; [done|]. by apply IH.
Qed.

Lemma raw_event_valid ev t : paths_valid t → paths_valid (tree_raw_event ev t).
Proof.
  intros [Hv He]. unfold tree_raw_event.
  destruct ev as [| | |[]|]; try by split. destruct (tr_error_call_idxs t) eqn:E; [by split; rewrite ?E|].
  split; [done|]. by intros p [= <-].
Qed.

Lemma dispatch_valid s ev t : paths_valid t → ∃ t', dispatch s ev t = Ret t' ∧ paths_valid t'.
Proof.
  intros [Hv He]. destruct ev as [f g|id r g|tys pc g i|e|o]; try by eexists.
  - cbn [dispatch open_frame tree_ext]. unfold open_frame_inner.
    destruct (valid_calls_at _ _ Hv) as [cur Hcur]. rewrite Hcur. simpl.
    destruct (update_calls_at _ (λ l, l ++ [MkFrameTraced f [] None]) _ _ Hcur) as (c & Hu & _).
    rewrite Hu. simpl. eexists. split; [done|]. split; simpl; [by eapply valid_snoc|].
    intros p Hp. eapply valid_update_calls; eauto.
  - cbn [dispatch close_frame tree_ext]. unfold close_frame_inner.
    destruct (tr_call_idxs t) as [|i p] eqn:Ep.
    + eexists. split; [done|]. by split.
    + destruct (valid_update_frame i p r _ Hv) as (c & -> & Hq). simpl. eexists. split; [done|].
      split; simpl; [|by auto]. apply (valid_removelast (i :: p)). by apply Hq.
  - simpl. destruct (is_move_call_start o); by eexists.
Qed.

Lemma frame_at_prefix calls p depth :
  valid_path p calls → depth < length p → is_Some (frame_at_path calls (take (S depth) p)).
Proof.
  assert (∀ p subs n fr, valid_path p subs → subs = ft_subcalls fr →
    is_Some (fold_left (λ acc idx, current ← acc; ft_subcalls current !! idx) (take n p) (Some fr))) as H.
  { clear. induction p as [|i p IH]; intros subs n fr Hv ->; [by destruct n|].
    destruct n as [|n]; [done|]. destruct Hv as (fr' & Hi & Hv). simpl. rewrite Hi. by eapply IH. }
  destruct p as [|i p]; intros Hv Hd; simpl in Hd; [lia|]. destruct Hv as (fr & Hi & Hv).
  simpl. rewrite Hi. simpl. by eapply H.
Qed.

(** The tree tracer never panics and its error trace never dangles: on
    every event sequence the memory replay accepts - balanced or not - it
    returns, and when an execution error was recorded each prefix of the
    recorded path designates a frame of the final tree, so the error trace
    can be printed in full. *)
Theorem tree_tracer_total evs s s' :
  apply_events s evs = Ret s' →
  ∃ t, notify_all (MkWrapper tree_default s) evs = Ret (MkWrapper t s') ∧
    ∀ p depth, tr_error_call_idxs t = Some p → depth < length p →
      is_Some (frame_at_path (tr_calls t) (take (S depth) p)).
Proof.
  intros Happ. assert (∀ t, paths_valid t →
    ∃ t', notify_all (MkWrapper t s) evs = Ret (MkWrapper t' s') ∧ paths_valid t') as H.
  { revert s Happ. induction evs as [|e evs IH]; intros s Happ t Ht; simpl in *.
    - injection Happ as <-. by eexists.
    - apply panics_bind_Ret in Happ as (s1 & Hs1 & Happ). unfold notify.
      cbn [on_raw_event tree_ext wr_tracer wr_state mbind panics_mbind panics_bind].
      destruct (dispatch_valid s e _ (raw_event_valid e t Ht)) as (t1 & Hd & Ht1).
      rewrite Hd. cbn [mbind panics_mbind panics_bind]. rewrite Hs1. by apply IH. }
  destruct (H tree_default) as (t & Hn & _ & He); [by split|]. exists t. split; [done|].
  intros p depth Hp Hd. by apply frame_at_prefix; [apply He|].
Qed.
End run.

(** ** Witnesses *)
Definition demo_tree : FrameTraced :=
  MkFrameTraced (demo_frame 1 []) [MkFrameTraced (demo_frame 2 []) [] (Some []);
    MkFrameTraced (demo_frame 3 []) [] (Some [demo_u64 4])] (Some []).

Lemma tree_tracer_round_trip_witness :
  ∃ s' t, apply_events trace_state_new (flat_map tree_events [demo_tree]) = Ret s' ∧
    notify_all (MkWrapper tree_default trace_state_new) (flat_map tree_events [demo_tree]) =
      Ret (MkWrapper t s') ∧ tr_calls t = [demo_tree].
Proof.
  destruct (apply_events trace_state_new (flat_map tree_events [demo_tree])) as [s'|] eqn:E;
    [|vm_compute in E; discriminate E].
  destruct (tree_tracer_round_trip [demo_tree] trace_state_new s' eq_refl E) as (t & Ht & Hc & _).
  by exists s', t.
Defined.

Lemma tree_tracer_total_witness :
  ∃ t, notify_all (MkWrapper tree_default trace_state_new)
      [Ev_OpenFrame (demo_frame 1 []) 9; Ev_Effect (Eff_ExecutionError "abort")] =
      Ret (MkWrapper t (MkTraceState ∅ [] {[ 1%N := (∅, false) ]})) ∧
    ∀ p depth, tr_error_call_idxs t = Some p → depth < length p →
      is_Some (frame_at_path (tr_calls t) (take (S depth) p)).
Proof. apply tree_tracer_total. reflexivity. Defined.

Lemma tree_attentive : attentive TreeTraceResult.
Proof. intros state ev t t' keep. cbn [on_raw_event tree_ext]. by intros [= _ <-]. Qed.

Lemma tee_independent_witness :
  ∃ w wl wr, notify_all (MkWrapper (MkTee tree_default tree_default) trace_state_new)
      [Ev_OpenFrame (demo_frame 1 []) 9] = Ret w ∧
    notify_all (MkWrapper tree_default trace_state_new) [Ev_OpenFrame (demo_frame 1 []) 9] = Ret wl ∧
    wr_tracer w = MkTee (wr_tracer wl) (wr_tracer wr).
Proof.
  destruct (notify_all (MkWrapper (MkTee tree_default tree_default) trace_state_new)
    [Ev_OpenFrame (demo_frame 1 []) 9]) as [w|] eqn:E; [|vm_compute in E; discriminate E].
  destruct (proj1 (tee_independent [Ev_OpenFrame (demo_frame 1 []) 9] trace_state_new tree_default
    tree_default w tree_attentive tree_attentive) E) as (wl & wr & Hl & _ & _ & _ & _ & Ht).
  by exists w, wl, wr.
Defined.
