(* ===== verification/Lcov.v ===== *)
(** * Lcov: line coverage

    [crates/movy-replay/src/tracer/lcov.rs] (the observer that collects the
    locations a run executes) and [crates/movy-sui/src/lcov.rs] (the map from
    locations to source lines, and the report). Compiled units, source maps
    and file tables come from the Move compiler: [SourceMaps] is what the code
    reads of them. A path is the list of its components, the root ["/"] first
    when it is absolute, as Rust compares paths. *)
From S2P Require Import Prelude Types Text TraceState Tracer TreeTracer.
From Stdlib Require String.
Local Open Scope string_scope.

Record BytecodeLocation := MkLoc { bl_module : MoveModuleId; bl_function : N; bl_pc : N }.
#[export] Instance BytecodeLocation_eq_dec : EqDecision BytecodeLocation.
Proof. solve_decision. Defined.
#[export] Instance BytecodeLocation_countable : Countable BytecodeLocation.
Proof.
  by refine (inj_countable' (λ l, (bl_module l, bl_function l, bl_pc l))
    (λ p, MkLoc p.1.1 p.1.2 p.2) _); intros [].
Defined.

(** ** The observer *)

(** The collector's [Rc] is shared with its tracers: a tracer starts with the
    collector's hits, and the collector has the tracer's when the run ends.
    [lt_frames] is a stack, its top first. *)
Record LineCoverageTracer := MkLineTracer {
  lt_hits : gset BytecodeLocation; lt_frames : list BytecodeLocation }.
Definition collector_tracer (hits : gset BytecodeLocation) : LineCoverageTracer :=
  MkLineTracer hits [].

Definition line_open_frame (frame : Frame) (t : LineCoverageTracer) : LineCoverageTracer :=
  MkLineTracer (lt_hits t) (MkLoc (fr_module frame) (fr_binary_member_index frame) 0 :: lt_frames t).
Definition line_close_frame (t : LineCoverageTracer) : LineCoverageTracer :=
  MkLineTracer (lt_hits t) (tail (lt_frames t)).
Definition line_before_instruction (pc : N) (t : LineCoverageTracer) : LineCoverageTracer :=
  match lt_frames t with
  | [] => t
  | current :: _ =>
      MkLineTracer ({[ MkLoc (bl_module current) (bl_function current) pc ]} ∪ lt_hits t) (lt_frames t)
  end.

#[export] Instance line_ext : MovySuiTracerExt LineCoverageTracer := {
  on_raw_event := default_raw_event;
  on_move_call := default_move_call;
  on_effect := default_effect;
  open_frame _ frame _ t := Ret (line_open_frame frame t);
  close_frame _ _ _ _ t := Ret (line_close_frame t);
  before_instruction _ _ pc _ _ t := Ret (line_before_instruction pc t);
}.

(** ** The coverage map *)
Definition PathBuf := list string.
#[export] Instance PathBuf_eq_dec : EqDecision PathBuf := _.
#[export] Instance PathBuf_countable : Countable PathBuf := _.

Definition path_display (p : PathBuf) : string :=
  match p with
  | "/" :: p => "/" ++ join "/" p
  | _ => join "/" p
  end.
Fixpoint path_leb (p q : PathBuf) : bool :=
  match p, q with
  | [], _ => true
  | _, [] => false
  | x :: p, y :: q =>
      match String.compare x y with Lt => true | Eq => path_leb p q | Gt => false end
  end.
Definition path_key_le {V} (x y : PathBuf * V) : Prop := path_leb x.1 y.1 = true.
#[export] Instance path_key_le_dec {V} : RelDecision (@path_key_le V).
Proof. intros x y. unfold path_key_le. apply _. Defined.
Definition path_iter {V} (m : gmap PathBuf V) : list (PathBuf * V) :=
  merge_sort path_key_le (map_to_list m).

Record FileCoverageMap := MkFile { fc_functions : gmap string N; fc_lines : gset N }.
Definition FunctionLocation : Type := MoveModuleId * N.
Record LineCoverageMap := MkCoverage {
  lc_files : gmap PathBuf FileCoverageMap;
  lc_function_to_source : gmap FunctionLocation (PathBuf * string);
  lc_pc_to_line : gmap BytecodeLocation (PathBuf * N) }.
Definition coverage_map_new : LineCoverageMap := MkCoverage ∅ ∅ ∅.

(** What is read of a compiled unit: the module's identifier; the function
    definitions, each with the name its handle gives and its code; the source
    map's location of a definition and of an instruction ([None]: [Err]);
    whether the map names its file. [start_line] is [start_position_opt] and
    [user_line] of the file table. *)
Class SourceMaps (U Loc : Type) := {
  unit_self_id : U → MoveModuleId;
  unit_function_defs : U → list (string * option (list Bytecode));
  unit_definition_location : U → N → option Loc;
  unit_code_location : U → N → N → option Loc;
  unit_has_file_path : U → bool;
  loc_is_valid : Loc → bool;
  start_line : Loc → option N;
}.

Section build.
Context {U Loc : Type} `{SM : SourceMaps U Loc}.

Definition line_for_loc (unit : U) (loc : Loc) : option N :=
  if negb (loc_is_valid loc) || negb (unit_has_file_path unit) then None else start_line loc.

(** [entry(k).or_insert(v)] *)
Definition or_insert {V} (k : string) (v : V) (m : gmap string V) : gmap string V :=
  <[k := default v (m !! k)]> m.

Definition add_line (line : N) (f : FileCoverageMap) : FileCoverageMap :=
  MkFile (fc_functions f) ({[ line ]} ∪ fc_lines f).
Definition add_definition (function_name : string) (line : N) (f : FileCoverageMap) : FileCoverageMap :=
  add_line line (MkFile (or_insert function_name line (fc_functions f)) (fc_lines f)).

(** The file entry is edited in place. *)
Definition with_file (path : PathBuf) (g : FileCoverageMap → FileCoverageMap) (m : LineCoverageMap) :
    LineCoverageMap :=
  MkCoverage (alter g path (lc_files m)) (lc_function_to_source m) (lc_pc_to_line m).

Definition add_pc (unit : U) (module_id : MoveModuleId) (path : PathBuf) (idx : nat)
    (m : LineCoverageMap) (pc : nat) : LineCoverageMap :=
  match unit_code_location unit (as_u16 idx) (as_u16 pc) ≫= line_for_loc unit with
  | None => m
  | Some line =>
      let m := with_file path (add_line line) m in
      MkCoverage (lc_files m) (lc_function_to_source m)
        (<[MkLoc module_id (as_u16 idx) (as_u16 pc) := (path, line)]> (lc_pc_to_line m))
  end.

Definition add_function (unit : U) (module_id : MoveModuleId) (path : PathBuf) (m : LineCoverageMap)
    (x : nat * (string * option (list Bytecode))) : LineCoverageMap :=
  let '(idx, (function_name, code)) := x in
  let m := MkCoverage (lc_files m)
    (<[(module_id, as_u16 idx) := (path, function_name)]> (lc_function_to_source m)) (lc_pc_to_line m) in
  let m := match unit_definition_location unit (as_u16 idx) ≫= line_for_loc unit with
           | Some line => with_file path (add_definition function_name line) m
           | None => m
           end in
  match code with
  | None => m
  | Some code => fold_left (add_pc unit module_id path idx) (seq 0 (length code)) m
  end.

(** [std::fs::canonicalize] *)
Context (canonicalize : PathBuf → option PathBuf).

Definition add_unit (unit : U) (source_path : PathBuf) (package_id : MoveAddress) (m : LineCoverageMap) :
    LineCoverageMap :=
  let module_id := MkModuleId package_id (module_name (unit_self_id unit)) in
  let source_path := default source_path (canonicalize source_path) in
  let m := MkCoverage (<[source_path := default (MkFile ∅ ∅) (lc_files m !! source_path)]> (lc_files m))
    (lc_function_to_source m) (lc_pc_to_line m) in
  let defs := unit_function_defs unit in
  fold_left (add_function unit module_id source_path) (zip (seq 0 (length defs)) defs) m.

(** Artifacts of a package: its [published_at] and its root units, each with
    its source path. Compilation and [canonicalize] may fail. *)
Context (compile_package_artifacts : PathBuf → bool → option (option MoveAddress * list (U * PathBuf))).

Definition add_local (test_mode : bool) (package_ids : list MoveAddress) (out : LineCoverageMap)
    (x : nat * PathBuf) : option LineCoverageMap :=
  let '(idx, local) := x in
  local ← canonicalize local;
  '(published_at, units) ← compile_package_artifacts local test_mode;
  let package_id := default (default (MkMoveAddress 0) published_at) (package_ids !! idx) in
  Some (fold_left (λ out u, add_unit u.1 u.2 package_id out) units out).

Fixpoint add_locals (test_mode : bool) (package_ids : list MoveAddress) (locals : list (nat * PathBuf))
    (out : LineCoverageMap) : option LineCoverageMap :=
  match locals with
  | [] => Some out
  | x :: locals => out ← add_local test_mode package_ids out x; add_locals test_mode package_ids locals out
  end.

(** The outer [None] is [Err]. *)
Definition for_locals_with_package_ids (locals : list PathBuf) (test_mode : bool)
    (package_ids : list MoveAddress) : option (option LineCoverageMap) :=
  match locals with
  | [] => Some None
  | _ => out ← add_locals test_mode package_ids (zip (seq 0 (length locals)) locals) coverage_map_new;
         Some (Some out)
  end.
Definition for_locals (locals : list PathBuf) (test_mode : bool) : option (option LineCoverageMap) :=
  for_locals_with_package_ids locals test_mode [].
End build.

(** ** The report *)
Definition function_of (hit : BytecodeLocation) : FunctionLocation := (bl_module hit, bl_function hit).

(** [entry(file).or_default().insert(x)] *)
Definition add_hit {A} `{Countable A} (file : PathBuf) (x : A) (m : gmap PathBuf (gset A)) :
    gmap PathBuf (gset A) :=
  <[file := {[ x ]} ∪ default ∅ (m !! file)]> m.

Definition count_hit (map : LineCoverageMap) (acc : gmap PathBuf (gset N) * gmap PathBuf (gset string))
    (hit : BytecodeLocation) : gmap PathBuf (gset N) * gmap PathBuf (gset string) :=
  let '(line_hits, function_hits) := acc in
  let function_hits := match lc_function_to_source map !! function_of hit with
                       | Some (file, name) => add_hit file name function_hits
                       | None => function_hits
                       end in
  match lc_pc_to_line map !! hit with
  | None => (line_hits, function_hits)
  | Some (file, line) => (add_hit file line line_hits, function_hits)
  end.

Definition show_nat (n : nat) : string := show_N (N.of_nat n).
Definition show_count (b : bool) : string := if b then "1" else "0".
Definition writeln (s : string) : string := s ++ newline.

Definition render_file (line_hits : gmap PathBuf (gset N)) (function_hits : gmap PathBuf (gset string))
    (x : PathBuf * FileCoverageMap) : string :=
  let '(path, file) := x in
  let lines := line_hits !! path in
  let hit_functions := function_hits !! path in
  let functions := string_iter (fc_functions file) in
  writeln ("SF:" ++ path_display path)
  ++ String.concat "" (map (λ f, writeln ("FN:" ++ show_N f.2 ++ "," ++ f.1)) functions)
  ++ String.concat "" (map (λ f, writeln ("FNDA:"
       ++ show_count (bool_decide (f.1 ∈ default ∅ hit_functions)) ++ "," ++ f.1)) functions)
  ++ writeln ("FNF:" ++ show_nat (size (fc_functions file)))
  ++ writeln ("FNH:" ++ show_nat (size (default ∅ hit_functions)))
  ++ String.concat "" (map (λ line, writeln ("DA:" ++ show_N line ++ ","
       ++ show_count (bool_decide (line ∈ default ∅ lines)))) (number_iter (fc_lines file)))
  ++ writeln ("LF:" ++ show_nat (size (fc_lines file)))
  ++ writeln ("LH:" ++ show_nat (size (default ∅ lines)))
  ++ writeln "end_of_record".

Definition render_lcov (map : LineCoverageMap) (hits : list BytecodeLocation) : string :=
  let '(line_hits, function_hits) := fold_left (count_hit map) hits (∅, ∅) in
  String.concat "" (List.map (render_file line_hits function_hits) (path_iter (lc_files map))).

(** ** The report states what was hit *)
Definition line_hit (m : LineCoverageMap) (hits : list BytecodeLocation) (path : PathBuf) (line : N) : bool :=
  existsb (λ h, bool_decide (lc_pc_to_line m !! h = Some (path, line))) hits.
Definition function_hit (m : LineCoverageMap) (hits : list BytecodeLocation) (path : PathBuf) (name : string) :
    bool :=
  existsb (λ h, bool_decide (lc_function_to_source m !! function_of h = Some (path, name))) hits.

(** The functions of the hits that belong to a file. *)
Definition functions_hit (m : LineCoverageMap) (hits : list BytecodeLocation) (path : PathBuf) : gset string :=
  list_to_set (omap (λ h, x ← lc_function_to_source m !! function_of h;
    if decide (x.1 = path) then Some x.2 else None) hits).

(** The record of a file, from the definitions above. Hit functions the
    compiler gave no position are counted, but not listed. *)
Definition record_of (m : LineCoverageMap) (hits : list BytecodeLocation) (x : PathBuf * FileCoverageMap) :
    string :=
  let '(path, file) := x in
  let functions := string_iter (fc_functions file) in
  let lines := number_iter (fc_lines file) in
  let listed := base.filter (λ f, function_hit m hits path f.1 = true) functions in
  let unlisted := functions_hit m hits path ∖ dom (fc_functions file) in
  let hit_lines := base.filter (λ l, line_hit m hits path l = true) lines in
  writeln ("SF:" ++ path_display path)
  ++ String.concat "" (map (λ f, writeln ("FN:" ++ show_N f.2 ++ "," ++ f.1)) functions)
  ++ String.concat "" (map (λ f, writeln ("FNDA:"
       ++ show_count (function_hit m hits path f.1) ++ "," ++ f.1)) functions)
  ++ writeln ("FNF:" ++ show_nat (length functions))
  ++ writeln ("FNH:" ++ show_nat (length listed + size unlisted))
  ++ String.concat "" (map (λ line, writeln ("DA:" ++ show_N line ++ ","
       ++ show_count (line_hit m hits path line))) lines)
  ++ writeln ("LF:" ++ show_nat (length lines))
  ++ writeln ("LH:" ++ show_nat (length hit_lines))
  ++ writeln "end_of_record".

Lemma add_hit_lookup {A} `{Countable A} file (x y : A) m path :
  y ∈ default ∅ (add_hit file x m !! path) ↔ (path = file ∧ y = x) ∨ y ∈ default ∅ (m !! path).
Proof.
  unfold add_hit. destruct (decide (path = file)) as [->|Hne].
  - rewrite lookup_insert_eq. simpl. set_solver.
  - rewrite lookup_insert_ne by done. naive_solver.
Qed.

Lemma line_hit_true m hits path l :
  line_hit m hits path l = true ↔ ∃ h, h ∈ hits ∧ lc_pc_to_line m !! h = Some (path, l).
Proof.
  unfold line_hit. rewrite existsb_exists. setoid_rewrite bool_decide_eq_true.
  by setoid_rewrite list_elem_of_In.
Qed.
Lemma function_hit_true m hits path n :
  function_hit m hits path n = true ↔
  ∃ h, h ∈ hits ∧ lc_function_to_source m !! function_of h = Some (path, n).
Proof.
  unfold function_hit. rewrite existsb_exists. setoid_rewrite bool_decide_eq_true.
  by setoid_rewrite list_elem_of_In.
Qed.
Lemma elem_of_functions_hit m hits path n :
  n ∈ functions_hit m hits path ↔ function_hit m hits path n = true.
Proof.
  unfold functions_hit. rewrite elem_of_list_to_set, list_elem_of_omap, function_hit_true.
  split; intros (h & Hh & H); exists h; split; [done| |done|].
  - apply bind_Some in H as ([p k] & -> & H). simpl in H. case_decide; simplify_eq. done.
  - rewrite H. simpl. by rewrite decide_True.
Qed.

(** The two maps the loop over the hits builds. *)
Lemma count_hits_spec m hits acc path :
  (∀ l, l ∈ default ∅ ((fold_left (count_hit m) hits acc).1 !! path) ↔
     line_hit m hits path l = true ∨ l ∈ default ∅ (acc.1 !! path)) ∧
  (∀ n, n ∈ default ∅ ((fold_left (count_hit m) hits acc).2 !! path) ↔
     function_hit m hits path n = true ∨ n ∈ default ∅ (acc.2 !! path)).
Proof.
  revert acc. induction hits as [|h hits IH]; intros [ls fs]; [naive_solver|].
  cbn [fold_left]. destruct (IH (count_hit m (ls, fs) h)) as [IH1 IH2].
  unfold line_hit, function_hit in *. cbn [existsb].
  setoid_rewrite orb_true_iff. setoid_rewrite bool_decide_eq_true.
  split; intros y; [rewrite IH1|rewrite IH2]; unfold count_hit;
    destruct (lc_function_to_source m !! function_of h) as [[f n]|] eqn:Ef,
      (lc_pc_to_line m !! h) as [[f' l]|] eqn:El; simpl; rewrite ?add_hit_lookup; naive_solver.
Qed.

(** ** The lines of the instructions are among those of the file *)
Definition lines_recorded (m : LineCoverageMap) : Prop :=
  ∀ h path line, lc_pc_to_line m !! h = Some (path, line) →
    ∃ f, lc_files m !! path = Some f ∧ line ∈ fc_lines f.

Definition keeps_lines (g : FileCoverageMap → FileCoverageMap) : Prop := ∀ f, fc_lines f ⊆ fc_lines (g f).

Lemma with_file_recorded path g m : keeps_lines g → lines_recorded m → lines_recorded (with_file path g m).
Proof.
  intros Hg H h p l (f & Hf & Hl)%H. simpl.
  destruct (decide (p = path)) as [->|Hne].
  - rewrite lookup_alter_eq, Hf. simpl. exists (g f). split; [done|]. by apply Hg.
  - rewrite lookup_alter_ne by done. by exists f.
Qed.
Lemma add_line_keeps l : keeps_lines (add_line l).
Proof. intros f. unfold add_line. simpl. set_solver. Qed.
Lemma add_definition_keeps n l : keeps_lines (add_definition n l).
Proof. intros f. unfold add_definition, add_line. simpl. set_solver. Qed.

Section recorded.
Context {U Loc : Type} `{SM : SourceMaps U Loc}.

Definition ready (path : PathBuf) (m : LineCoverageMap) : Prop :=
  lines_recorded m ∧ is_Some (lc_files m !! path).

Lemma with_file_ready path g m : keeps_lines g → ready path m → ready path (with_file path g m).
Proof.
  intros Hg [H [f Hf]]. split; [by apply with_file_recorded|].
  simpl. rewrite lookup_alter_eq, Hf. by eexists.
Qed.

Lemma add_pc_ready unit module_id path idx m pc : ready path m → ready path (add_pc unit module_id path idx m pc).
Proof.
  intros H. unfold add_pc. destruct (_ ≫= _) as [line|]; [|done].
  destruct (with_file_ready path (add_line line) m (add_line_keeps _) H) as [H' Hf].
  split; [|done]. intros h p l. simpl. destruct (decide (h = MkLoc module_id (as_u16 idx) (as_u16 pc))) as [->|Hne].
  - rewrite lookup_insert_eq. intros [= <- <-]. destruct H as [_ [f Hf']].
    rewrite lookup_alter_eq, Hf'. simpl. exists (add_line line f). split; [done|]. unfold add_line. simpl. set_solver.
  - rewrite lookup_insert_ne by done. apply H'.
Qed.

Lemma add_function_ready unit module_id path m x : ready path m → ready path (add_function unit module_id path m x).
Proof.
  intros H. destruct x as [idx [n code]]. unfold add_function.
  set (m0 := MkCoverage (lc_files m) _ _). assert (ready path m0) as H0 by done.
  set (m1 := match _ ≫= _ with Some _ => _ | None => _ end).
  assert (ready path m1) as H1.
  { unfold m1. destruct (_ ≫= _) as [line|]; [|done]. apply with_file_ready; [apply add_definition_keeps|done]. }
  destruct code as [code|]; [|done]. clearbody m1. revert m1 H1.
  induction (seq 0 (length code)) as [|pc pcs IH]; intros m1 H1; [done|]. apply IH, add_pc_ready, H1.
Qed.

Lemma add_unit_recorded canonicalize (unit : U) source_path package_id m :
  lines_recorded m → lines_recorded (add_unit canonicalize unit source_path package_id m).
Proof.
  intros H. unfold add_unit. set (path := default source_path (canonicalize source_path)).
  set (m0 := MkCoverage (<[path := _]> _) _ _). set (defs := zip _ _).
  assert (ready path m0) as H0.
  { split; [|simpl; rewrite lookup_insert_eq; by eexists].
    intros h p l (f & Hf & Hl)%H. simpl. destruct (decide (p = path)) as [->|Hne].
    - rewrite lookup_insert_eq, Hf. simpl. by exists f.
    - rewrite lookup_insert_ne by done. by exists f. }
  clearbody m0 path defs. revert m0 H0.
  induction defs as [|d defs IH]; intros m0 H0; [by apply H0|]. apply IH. by apply add_function_ready.
Qed.

Lemma for_locals_recorded canonicalize compile locals test_mode ids m :
  for_locals_with_package_ids (U := U) canonicalize compile locals test_mode ids = Some (Some m) →
  lines_recorded m.
Proof.
  destruct locals as [|x locals]; [done|]. unfold for_locals_with_package_ids.
  generalize (zip (seq 0 (length (x :: locals))) (x :: locals)). intros l H.
  apply bind_Some in H as (m' & H & [= <-]).
  assert (lines_recorded coverage_map_new) as H0 by by intros h p l'.
  revert H H0. generalize coverage_map_new.
  induction l as [|[idx local] l IH]; intros m0 H H0; simpl in H; [by simplify_eq|].
  apply bind_Some in H as (m1 & H1 & H). apply (IH m1 H).
  apply bind_Some in H1 as (c & _ & H1). apply bind_Some in H1 as ([at_ units] & _ & [= <-]).
  clear H. revert m0 H0. induction units as [|u units IHu]; intros m0 H0; [done|].
  apply IHu. by apply add_unit_recorded.
Qed.
End recorded.

(** ** Counting *)
Lemma size_filtered {A} `{Countable A} (X : gset A) (l : list A) (p : A → bool) :
  NoDup l → (∀ x, x ∈ X ↔ x ∈ l ∧ p x = true) → size X = length (base.filter (λ x, p x = true) l).
Proof.
  intros Hl HX. assert (X = list_to_set (base.filter (λ x, p x = true) l)) as ->.
  { apply set_eq. intros x. rewrite HX, elem_of_list_to_set, list_elem_of_filter. naive_solver. }
  apply size_list_to_set. by apply NoDup_filter.
Qed.

Lemma length_string_iter {V} (m : gmap string V) : length (string_iter m) = size m.
Proof. unfold string_iter. rewrite merge_sort_Permutation. apply length_map_to_list. Qed.

Lemma filter_keys {V} (p : string → bool) (l : list (string * V)) :
  length (base.filter (λ f, p f.1 = true) l) = length (base.filter (λ n, p n = true) l.*1).
Proof.
  induction l as [|[n v] l IH]; [done|]. rewrite fmap_cons, !filter_cons. simpl.
  destruct (decide (p n = true)); simpl; by rewrite ?IH.
Qed.

(** The distinct names hit are the listed ones and the others. *)
Lemma size_functions_hit m hits path (fns : gmap string N) :
  size (functions_hit m hits path) =
    length (base.filter (λ f, function_hit m hits path f.1 = true) (string_iter fns))
    + size (functions_hit m hits path ∖ dom fns).
Proof.
  rewrite (filter_keys (function_hit m hits path)).
  rewrite <-(size_filtered (functions_hit m hits path ∩ dom fns)).
  - rewrite <-size_union by set_solver. f_equal. apply set_eq. intros x.
    destruct (decide (x ∈ dom fns)); set_solver.
  - apply NoDup_string_iter.
  - intros n. rewrite elem_of_intersection, elem_of_functions_hit, elem_of_dom, list_elem_of_fmap. split.
    + intros [Hn [v Hv]]. split; [|done]. exists (n, v). by rewrite elem_of_string_iter.
    + intros [([n' v] & -> & Hv%elem_of_string_iter) Hn]. split; [done|]. by exists v.
Qed.

Lemma bool_decide_bool (P : Prop) `{Decision P} (b : bool) : (P ↔ b = true) → bool_decide P = b.
Proof. intros E. destruct b; [apply bool_decide_eq_true|apply bool_decide_eq_false]; naive_solver. Qed.

Lemma render_file_record m hits path file :
  lines_recorded m → lc_files m !! path = Some file →
  render_file (fold_left (count_hit m) hits (∅, ∅)).1 (fold_left (count_hit m) hits (∅, ∅)).2 (path, file)
  = record_of m hits (path, file).
Proof.
  intros Hm Hf. destruct (count_hits_spec m hits (∅, ∅) path) as [Hl Hn].
  cbn [fst snd] in Hl, Hn. rewrite lookup_empty in Hl. rewrite lookup_empty in Hn. simpl in Hl, Hn.
  set (ls := (fold_left (count_hit m) hits (∅, ∅)).1) in *.
  set (fs := (fold_left (count_hit m) hits (∅, ∅)).2) in *.
  assert (default ∅ (fs !! path) = functions_hit m hits path) as Efs.
  { apply set_eq. intros n. rewrite Hn, elem_of_functions_hit. set_solver. }
  unfold render_file, record_of.
  rewrite Efs, (size_functions_hit m hits path (fc_functions file)).
  rewrite length_string_iter, length_number_iter.
  rewrite (size_filtered (default ∅ (ls !! path)) (number_iter (fc_lines file)) (line_hit m hits path)).
  - rewrite (map_ext (λ f : string * N, writeln ("FNDA:" ++ show_count (bool_decide
      (f.1 ∈ functions_hit m hits path)) ++ "," ++ f.1))
      (λ f, writeln ("FNDA:" ++ show_count (function_hit m hits path f.1) ++ "," ++ f.1))).
    + do 7 f_equal. apply map_ext. intros l. do 5 f_equal. apply bool_decide_bool. rewrite Hl. set_solver.
    + intros f. do 4 f_equal. apply bool_decide_bool, elem_of_functions_hit.
  - apply NoDup_number_iter.
  - intros l. rewrite Hl, elem_of_number_iter. split; [intros [H|H]; [|set_solver]|naive_solver].
    split; [|done]. apply line_hit_true in H as (h & _ & H). destruct (Hm _ _ _ H) as (f & Hf' & ?).
    by simplify_eq.
Qed.

Section report.
Context {U Loc : Type} `{SM : SourceMaps U Loc}.
Context (canonicalize : PathBuf → option PathBuf).
Context (compile_package_artifacts : PathBuf → bool → option (option MoveAddress * list (U * PathBuf))).

Lemma elem_of_path_iter {V} (m : gmap PathBuf V) p v : (p, v) ∈ path_iter m ↔ m !! p = Some v.
Proof. unfold path_iter. by rewrite merge_sort_Permutation, elem_of_map_to_list. Qed.

(** C40: the coverage report states what was hit: for the map of any set of
    packages and any hits, in any order and with any repetitions, the report
    is one record per source file in which a line or a function counts as hit
    exactly when some hit is an instruction of it, the number of lines hit is
    the number of listed lines that are marked as hit, and the number of
    functions hit is the number of listed ones marked as hit plus that of the
    functions hit which the compiler gave no position. *)
Theorem lcov_report_exact locals test_mode ids m hits :
  for_locals_with_package_ids canonicalize compile_package_artifacts locals test_mode ids = Some (Some m) →
  render_lcov m hits = String.concat "" (map (record_of m hits) (path_iter (lc_files m))).
Proof.
  intros Hm%for_locals_recorded. unfold render_lcov.
  destruct (fold_left (count_hit m) hits (∅, ∅)) as [ls fs] eqn:E. f_equal. apply map_ext_in.
  intros [path file] Hx%list_elem_of_In%elem_of_path_iter.
  pose proof (render_file_record m hits path file Hm Hx) as H. by rewrite E in H.
Qed.
End report.

(** ** A run hits what it executes *)
Local Close Scope string_scope.
#[local] Unset Elimination Schemes.
(** A step of a run: an instruction, an effect, a message, or a whole call. *)
Inductive run_step :=
| Step_Instruction (tys : list MoveTypeTag) (pc gas : N) (i : Bytecode)
| Step_Effect (e : Effect)
| Step_External (s : option string)
| Step_Call (f : Frame) (g : N) (body : list run_step) (ret : list TraceValue) (g' : N).
#[local] Set Elimination Schemes.

Section run_step_ind.
Variable P : run_step → Prop.
Hypothesis Hi : ∀ tys pc gas i, P (Step_Instruction tys pc gas i).
Hypothesis He : ∀ e, P (Step_Effect e).
Hypothesis Hx : ∀ s, P (Step_External s).
Hypothesis Hc : ∀ f g body ret g', Forall P body → P (Step_Call f g body ret g').
Fixpoint run_step_ind (t : run_step) : P t :=
  match t with
  | Step_Instruction tys pc gas i => Hi tys pc gas i
  | Step_Effect e => He e
  | Step_External s => Hx s
  | Step_Call f g body ret g' => Hc f g body ret g'
      ((fix go (l : list run_step) : Forall P l :=
          match l with
          | [] => Forall_nil_2 P
          | x :: l' => Forall_cons_2 P x l' (run_step_ind x) (go l')
          end) body)
  end.
End run_step_ind.

Fixpoint step_events (t : run_step) : list TraceEvent :=
  match t with
  | Step_Instruction tys pc gas i => [Ev_Instruction tys pc gas i]
  | Step_Effect e => [Ev_Effect e]
  | Step_External s => [Ev_External s]
  | Step_Call f g body ret g' =>
      Ev_OpenFrame f g :: flat_map step_events body ++ [Ev_CloseFrame (fr_frame_id f) ret g']
  end.

(** The instructions executed, in the function they are in. *)
Fixpoint step_locations (inside : option (MoveModuleId * N)) (t : run_step) : list BytecodeLocation :=
  match t with
  | Step_Instruction _ pc _ _ =>
      match inside with Some (md, fn) => [MkLoc md fn pc] | None => [] end
  | Step_Effect _ | Step_External _ => []
  | Step_Call f _ body _ _ =>
      flat_map (step_locations (Some (fr_module f, fr_binary_member_index f))) body
  end.

Section hits.
Context `{TL : TraceLib} {T : Type} `{ME : MovySuiTracerExt T}.
Abbreviation Tee := (TeeTracer T LineCoverageTracer).

Definition inside (frames : list BytecodeLocation) : option (MoveModuleId * N) :=
  (λ f, (bl_module f, bl_function f)) <$> head frames.

(** What running [evs] next to an attentive observer does to the line tracer. *)
Definition line_runs (evs : list TraceEvent) (hits : list BytecodeLocation → list BytecodeLocation)
    (frames' : list BytecodeLocation → list BytecodeLocation) : Prop :=
  ∀ (w w' : MovySuiTracerWrapper Tee), notify_all w evs = Ret w' →
    let t := tee_r (wr_tracer w) in let t' := tee_r (wr_tracer w') in
    lt_hits t' = list_to_set (hits (lt_frames t)) ∪ lt_hits t ∧ lt_frames t' = frames' (lt_frames t).

Lemma line_runs_app e1 e2 h1 h2 f1 f2 :
  line_runs e1 h1 f1 → line_runs e2 h2 f2 →
  line_runs (e1 ++ e2) (λ fs, h1 fs ++ h2 (f1 fs)) (λ fs, f2 (f1 fs)).
Proof.
  intros H1 H2 w w' H. rewrite notify_all_app in H.
  apply panics_bind_Ret in H as (w1 & Hw1 & Hw2).
  destruct (H1 _ _ Hw1) as [E1 F1], (H2 _ _ Hw2) as [E2 F2]. cbn zeta in *.
  rewrite E2, F2, E1, F1. split; [|done]. rewrite list_to_set_app_L. set_solver.
Qed.

Lemma line_runs_nil : line_runs [] (λ _, []) id.
Proof. intros w w' [= <-]. simpl. split; [set_solver|done]. Qed.

(** One event, dispatched because the other observer wants it. *)
Lemma line_runs_event ev hits frames' :
  attentive T →
  (∀ s (t t' : LineCoverageTracer), dispatch s ev t = Ret t' →
     lt_hits t' = list_to_set (hits (lt_frames t)) ∪ lt_hits t ∧ lt_frames t' = frames' (lt_frames t)) →
  line_runs [ev] hits frames'.
Proof.
  intros HA Hd [[l r] s] w' H. cbn [notify_all] in H.
  apply panics_bind_Ret in H as ([w1 b] & Hn & [= <-]).
  unfold notify in Hn. cbn [wr_state wr_tracer on_raw_event tee_ext tee_l tee_r] in Hn.
  apply panics_bind_Ret in Hn as ([tt keep] & Hraw & Hn).
  apply panics_bind_Ret in Hraw as ([l1 k1] & Hl & Hraw).
  apply HA in Hl as ->. cbn in Hraw. injection Hraw as <- <-.
  rewrite tee_dispatch in Hn. apply panics_bind_Ret in Hn as (tee & Ht & Hn).
  apply panics_bind_Ret in Ht as (l2 & _ & Ht). apply panics_bind_Ret in Ht as (r2 & Hr & [= <-]).
  apply panics_bind_Ret in Hn as (s1 & _ & [= <- <-]). simpl. by apply (Hd s).
Qed.

Lemma inside_cons f fs : inside (f :: fs) = Some (bl_module f, bl_function f).
Proof. done. Qed.

Lemma step_runs t : attentive T →
  line_runs (step_events t) (λ fs, step_locations (inside fs) t) id.
Proof.
  intros HA. induction t as [tys pc gas i|e|s|f g body ret g' IH] using run_step_ind.
  - apply line_runs_event; [done|]. intros s t t' [= <-]. unfold line_before_instruction. simpl.
    destruct (lt_frames t) as [|c fs] eqn:E; simpl; [set_solver|]. split; [set_solver|done].
  - apply line_runs_event; [done|]. intros s t t' [= <-]. simpl. split; [set_solver|done].
  - apply line_runs_event; [done|]. intros st t t' H. simpl in H. destruct (is_move_call_start s);
      injection H as <-; (split; [simpl; set_solver|done]).
  - assert (Hbody : line_runs (flat_map step_events body)
      (λ fs, flat_map (step_locations (inside fs)) body) id).
    { induction IH as [|t body Ht _ IH]; [apply line_runs_nil|]. cbn [flat_map].
      apply (line_runs_app _ _ _ _ _ _ Ht IH). }
    assert (Hopen : line_runs [Ev_OpenFrame f g] (λ _, [])
      (cons (MkLoc (fr_module f) (fr_binary_member_index f) 0))).
    { apply line_runs_event; [done|]. intros s t t' [= <-]. simpl. split; [set_solver|done]. }
    assert (Hclose : line_runs [Ev_CloseFrame (fr_frame_id f) ret g'] (λ _, []) tail).
    { apply line_runs_event; [done|]. intros s t t' [= <-]. simpl. split; [set_solver|done]. }
    pose proof (line_runs_app _ _ _ _ _ _ Hopen (line_runs_app _ _ _ _ _ _ Hbody Hclose)) as H.
    intros w w' Hw. destruct (H w w' Hw) as [E F]. cbn zeta in *. rewrite E, F. split; [|done].
    cbn [step_locations]. by rewrite app_nil_r.
Qed.

(** The hits are what ran: next to an observer that wants every event, on
    the trace of any steps - instructions, effects, messages and calls nested
    in any way - the line tracer adds to the collected hits exactly the
    instructions executed, each in the innermost call it belongs to, and
    leaves its stack of calls as it was. *)
Theorem line_hits_exact steps (w w' : MovySuiTracerWrapper Tee) :
  attentive T → notify_all w (flat_map step_events steps) = Ret w' →
  let t := tee_r (wr_tracer w) in let t' := tee_r (wr_tracer w') in
  lt_hits t' = list_to_set (flat_map (step_locations (inside (lt_frames t))) steps) ∪ lt_hits t ∧
  lt_frames t' = lt_frames t.
Proof.
  intros HA. revert w w'. change (line_runs (flat_map step_events steps)
    (λ fs, flat_map (step_locations (inside fs)) steps) id).
  induction steps as [|s steps IH]; [apply line_runs_nil|]. cbn [flat_map].
  apply (line_runs_app _ _ _ _ _ _ (step_runs s HA) IH).
Qed.

(** Alone the line tracer sees nothing: it does not ask for events. *)
Lemma line_tracer_alone s t evs w :
  notify_all (MkWrapper (T := LineCoverageTracer) t s) evs = Ret w → wr_tracer w = t.
Proof.
  revert s. induction evs as [|e evs IH]; intros s H; [by injection H as <-|]. cbn [notify_all] in H.
  apply panics_bind_Ret in H as ([w1 b] & Hn & H). unfold notify in Hn. cbn in Hn.
  apply panics_bind_Ret in Hn as (s1 & _ & [= <- <-]). by apply (IH s1).
Qed.
End hits.

(** ** Witnesses *)
Definition demo_lcov_module : MoveModuleId := MkModuleId (MkMoveAddress 7) "m"%string.
Definition demo_steps : list run_step :=
  [Step_Call (demo_frame 1 []) 9
     [Step_Instruction [] 0 8 Bc_LdTrue; Step_Call (demo_frame 2 []) 7 [Step_Instruction [] 5 6 Bc_Ret] [] 5;
      Step_Instruction [] 1 4 Bc_Ret] [] 3].

Lemma line_hits_exact_witness :
  ∃ w, notify_all (MkWrapper (MkTee tree_default (collector_tracer ∅)) trace_state_new)
      (flat_map step_events demo_steps) = Ret w ∧
    lt_hits (tee_r (wr_tracer w)) = list_to_set (flat_map (step_locations None) demo_steps) ∪ ∅ ∧
    length (flat_map (step_locations None) demo_steps) = 3.
Proof.
  destruct (notify_all (MkWrapper (MkTee tree_default (collector_tracer ∅)) trace_state_new)
    (flat_map step_events demo_steps)) as [w|] eqn:E; [|vm_compute in E; discriminate E].
  exists w. split; [done|]. split; [|reflexivity].
  exact (proj1 (line_hits_exact demo_steps _ w tree_attentive E)).
Defined.

(** A unit with two functions in one file; the second has no position. *)
#[export] Instance demo_maps : SourceMaps unit N := {
  unit_self_id _ := demo_lcov_module;
  unit_function_defs _ := [("f", Some [Bc_LdTrue; Bc_Ret]); ("g", Some [Bc_Ret])];
  unit_definition_location _ i := if (i =? 0)%N then Some 1%N else None;
  unit_code_location _ i pc := if (i =? 0)%N then Some (2 + pc)%N else None;
  unit_has_file_path _ := true;
  loc_is_valid _ := true;
  start_line l := Some l;
}.
Definition demo_compile (p : PathBuf) (test_mode : bool) :
    option (option MoveAddress * list (unit * PathBuf)) := Some (None, [(tt, ["/"; "m.move"])]).
Definition demo_hit (fn pc : N) : BytecodeLocation := MkLoc (MkModuleId (MkMoveAddress 0) "m") fn pc.

(** Function [g] is counted (FNH) but not listed: more functions are hit than
    found (FNF). *)
Lemma lcov_report_exact_witness :
  ∃ m, for_locals_with_package_ids Some demo_compile [["/"; "p"]] false [] = Some (Some m) ∧
    render_lcov m [demo_hit 0 0; demo_hit 1 0; demo_hit 0 0] =
      String.concat "" (map (record_of m [demo_hit 0 0; demo_hit 1 0; demo_hit 0 0]) (path_iter (lc_files m))) ∧
    render_lcov m [demo_hit 0 0; demo_hit 1 0; demo_hit 0 0] =
      String.concat "" (map writeln ["SF:/m.move"; "FN:1,f"; "FNDA:1,f"; "FNF:1"; "FNH:2"; "DA:1,0"; "DA:2,1";
        "DA:3,0"; "LF:3"; "LH:1"; "end_of_record"]).
Proof.
  destruct (for_locals_with_package_ids Some demo_compile [["/"; "p"]] false []) as [[m|]|] eqn:E;
    [|vm_compute in E; discriminate E|vm_compute in E; discriminate E].
  exists m. split; [done|]. split.
  - exact (lcov_report_exact Some demo_compile [["/"; "p"]] false [] m
      [demo_hit 0 0; demo_hit 1 0; demo_hit 0 0] E).
  - vm_compute in E. injection E as <-. vm_compute. reflexivity.
Defined.
