(* ===== verification/Logs.v ===== *)
(** * Logs: what the tracer records about comparisons, shifts and casts

    [crates/movy-replay/src/tracer/op.rs] and
    [crates/movy-replay/src/tracer/extra.rs]. Compiled modules are library
    objects: [ModuleTables] is the interface to the tables the code reads. *)
From S2P Require Import Prelude Types Z3 TraceState Concolic.
From Stdlib Require Import Ascii.
From Stdlib Require String.

Inductive Magic :=
| Mg_U8 (v : N) | Mg_U16 (v : N) | Mg_U32 (v : N) | Mg_U64 (v : N) | Mg_U128 (v : N)
| Mg_U256 (v : N) | Mg_Bytes (bs : list N).
#[export] Instance Magic_eq_dec : EqDecision Magic.
Proof. solve_decision. Defined.

(** The 32 bytes of an address, most significant first. *)
Definition be_bytes (k : nat) (n : N) : list N :=
  map (λ i, (N.shiftr n (8 * N.of_nat (k - S i)) mod 256)%N) (seq 0 k).
Definition address_bytes (a : MoveAddress) : list N := be_bytes 32 (addr_val a).
Definition string_bytes (s : string) : list N := map N_of_ascii (String.list_ascii_of_string s).

(** [TryFrom<&SerializableMoveValue> for Magic]. *)
Definition magic_of_value (value : SerializableMoveValue) : option Magic :=
  match value with
  | SmvBool v => Some (Mg_U8 (if v then 1 else 0))
  | SmvU8 v => Some (Mg_U8 v)
  | SmvU16 v => Some (Mg_U16 v)
  | SmvU32 v => Some (Mg_U32 v)
  | SmvU64 v => Some (Mg_U64 v)
  | SmvU128 v => Some (Mg_U128 v)
  | SmvU256 v => Some (Mg_U256 v)
  | SmvAddress a => Some (Mg_Bytes (address_bytes a))
  | SmvStruct type_ _ =>
      Some (Mg_Bytes (address_bytes (st_address type_) ++ string_bytes (st_module type_)
        ++ string_bytes (st_name type_)))
  | _ => None
  end%N.

Section magic.
Context `{TL : TraceLib}.
Definition magic_of_trace_value (value : TraceValue) : option Magic :=
  magic_of_value (snapshot value).
End magic.

Inductive CmpOp := Cmp_LT | Cmp_LE | Cmp_GT | Cmp_GE | Cmp_NEQ | Cmp_EQ.
#[export] Instance CmpOp_eq_dec : EqDecision CmpOp.
Proof. solve_decision. Defined.

(** [TryFrom<&Bytecode> for CmpOp]. *)
Definition cmp_op_of (value : Bytecode) : option CmpOp :=
  match value with
  | Bc_Le => Some Cmp_LE | Bc_Lt => Some Cmp_LT | Bc_Ge => Some Cmp_GE | Bc_Gt => Some Cmp_GT
  | Bc_Neq => Some Cmp_NEQ | Bc_Eq => Some Cmp_EQ
  | _ => None
  end.

Inductive Log (B : Type) :=
| CmpLog (lhs rhs : Magic) (op : CmpOp) (constraint : option B)
| ShlLog (lhs rhs : Magic) (constraint : option B)
| CastLog (lhs : Magic) (constraint : option B).
Arguments CmpLog {B} _ _ _ _.
Arguments ShlLog {B} _ _ _.
Arguments CastLog {B} _ _.

(** ** Field counts *)
Inductive StructFieldInformation := SFI_Native | SFI_Declared (fields : nat).

Class ModuleTables (M : Type) := {
  module_self_id : M → MoveModuleId;
  struct_def_at : M → N → panics StructFieldInformation;
  struct_instantiation_def : M → N → panics N;
  variant_handle_at : M → N → panics (N * N);
  variant_instantiation_handle_at : M → N → panics (N * N);
  enum_instantiation_def : M → N → panics N;
  variant_def_fields : M → N → N → panics nat;
}.

Section extra.
Context `{MT : ModuleTables M}.

Definition PackageCache : Type := gmap MoveAddress (gmap MoveModuleId M).

Definition module_ref (c : PackageCache) (module_id : MoveModuleId) (package_id : MoveAddress) :
    option M :=
  v ← c !! package_id; v !! module_id.

Definition field_count (i : StructFieldInformation) : nat :=
  match i with SFI_Native => 0 | SFI_Declared fields => fields end.

Definition struct_fields (m : M) (sidx : N) : panics nat :=
  i ← struct_def_at m sidx; Ret (field_count i).
Definition struct_inst_fields (m : M) (sidx : N) : panics nat :=
  d ← struct_instantiation_def m sidx; struct_fields m d.
Definition variant_fields (m : M) (vidx : N) : panics nat :=
  '(enum_def, variant) ← variant_handle_at m vidx; variant_def_fields m enum_def variant.
Definition variant_inst_fields (m : M) (vidx : N) : panics nat :=
  '(enum_def, variant) ← variant_instantiation_handle_at m vidx;
  d ← enum_instantiation_def m enum_def;
  variant_def_fields m d variant.

(** The [?] of [module_ref]: without the module there is no information. *)
Definition with_module (o : option M) (f : M → panics InstructionExtraInformation) :
    panics (option InstructionExtraInformation) :=
  match o with Some m => e ← f m; Ret (Some e) | None => Ret None end.

Definition from_resolver (instruction : Bytecode) (resolver : PackageCache)
    (package_id : MoveAddress) (module_id : MoveModuleId) :
    panics (option InstructionExtraInformation) :=
  let module := module_ref resolver module_id package_id in
  match instruction with
  | Bc_Unpack sidx => with_module module (λ m, n ← struct_fields m sidx; Ret (Ex_Unpack n))
  | Bc_UnpackVariant vidx | Bc_UnpackVariantImmRef vidx | Bc_UnpackVariantMutRef vidx =>
      with_module module (λ m, n ← variant_fields m vidx; Ret (Ex_UnpackVariant n))
  | Bc_UnpackGeneric sidx =>
      with_module module (λ m, n ← struct_inst_fields m sidx; Ret (Ex_UnpackGeneric n))
  | Bc_UnpackVariantGeneric vidx | Bc_UnpackVariantGenericImmRef vidx
  | Bc_UnpackVariantGenericMutRef vidx =>
      with_module module (λ m, n ← variant_inst_fields m vidx; Ret (Ex_UnpackVariantGeneric n))
  | Bc_Pack sidx => with_module module (λ m, n ← struct_fields m sidx; Ret (Ex_Pack n))
  | Bc_PackGeneric sidx =>
      with_module module (λ m, n ← struct_inst_fields m sidx; Ret (Ex_PackGeneric n))
  | Bc_PackVariant vidx =>
      with_module module (λ m, n ← variant_fields m vidx; Ret (Ex_PackVariant n))
  | Bc_PackVariantGeneric vidx =>
      with_module module (λ m, n ← variant_inst_fields m vidx; Ret (Ex_PackVariantGeneric n))
  | _ => Ret None
  end.

(** The instructions whose stack effect depends on a field count. *)
Definition is_pack (i : Bytecode) : bool :=
  match i with
  | Bc_Pack _ | Bc_PackGeneric _ | Bc_PackVariant _ | Bc_PackVariantGeneric _ => true
  | _ => false
  end.
Definition is_unpack (i : Bytecode) : bool :=
  match i with
  | Bc_Unpack _ | Bc_UnpackGeneric _ | Bc_UnpackVariant _ | Bc_UnpackVariantImmRef _
  | Bc_UnpackVariantMutRef _ | Bc_UnpackVariantGeneric _ | Bc_UnpackVariantGenericImmRef _
  | Bc_UnpackVariantGenericMutRef _ => true
  | _ => false
  end.

Lemma with_module_inv o f e :
  with_module o f = Ret (Some e) → ∃ m, o = Some m ∧ f m = Ret e.
Proof.
  destruct o as [m|]; [|done]. simpl. intros H. apply panics_bind_Ret in H as (e' & He & [= <-]). eauto.
Qed.
End extra.

Definition info_fields (e : InstructionExtraInformation) : nat :=
  match e with
  | Ex_Pack n | Ex_PackGeneric n | Ex_PackVariant n | Ex_PackVariantGeneric n | Ex_Unpack n
  | Ex_UnpackVariant n | Ex_UnpackGeneric n | Ex_UnpackVariantGeneric n => n
  end.

Section extra_sound.
Context {I B : Type} `{ZA : Z3Ast I B} `{U : U256Lib} `{TL : TraceLib} `{MT : ModuleTables M}.

(** The field counts fit the handlers: whatever [from_resolver] finds for
    an instruction is the kind of information the symbolic step of that
    instruction expects, so that step returns (no [unreachable!] is reached)
    and moves exactly that many fields; and information is missing only when
    the module is not in the cache. *)
Theorem extra_information_fits i (resolver : PackageCache (M := M)) pkg md (s : ConcolicState I) stack extra :
  from_resolver i resolver pkg md = Ret extra → is_pack i || is_unpack i = true →
  match extra with
  | Some e => is_Some (module_ref resolver md pkg) ∧
      ∃ s', step_instruction (B := B) i stack extra s = Ret (s', None) ∧
        cs_stack s' = if is_pack i then SV_Unknown :: drop (info_fields e) (cs_stack s)
                      else replicate (info_fields e) SV_Unknown ++ drop 1 (cs_stack s)
  | None => module_ref resolver md pkg = None
  end.
Proof.
  intros Hr Hi. destruct extra as [e|].
  - destruct i; try discriminate Hi; cbn [from_resolver] in Hr;
      apply with_module_inv in Hr as (m & Hmod & Hm);
      apply panics_bind_Ret in Hm as (n & _ & [= <-]); (split; [by exists m|]);
      eexists; (split; [reflexivity|]); reflexivity.
  - destruct (module_ref resolver md pkg) as [m|] eqn:E; [|done].
    destruct i; try discriminate Hi; cbn [from_resolver] in Hr; rewrite E in Hr; simpl in Hr;
      by apply panics_bind_Ret in Hr as (e & _ & [=]).
Qed.
End extra_sound.

(** ** Witness: a module whose tables are lists of field counts *)
#[export] Instance list_tables : ModuleTables (MoveModuleId * list nat) := {
  module_self_id m := m.1;
  struct_def_at m i := n ← unwrap (m.2 !! N.to_nat i); Ret (SFI_Declared n);
  struct_instantiation_def m i := Ret i;
  variant_handle_at m i := Ret (i, 0%N);
  variant_instantiation_handle_at m i := Ret (i, 0%N);
  enum_instantiation_def m i := Ret i;
  variant_def_fields m i _ := unwrap (m.2 !! N.to_nat i);
}.

Definition demo_module : MoveModuleId := MkModuleId addr_two "coin".
Definition demo_cache : PackageCache (M := MoveModuleId * list nat) :=
  {[ addr_two := {[ demo_module := (demo_module, [2; 3]) ]} ]}.

Lemma extra_information_fits_witness :
  from_resolver (Bc_Pack 1) demo_cache addr_two demo_module = Ret (Some (Ex_Pack 3)) ∧
  ∃ s', step_instruction (I := IntTerm) (B := BoolTerm) (Bc_Pack 1) [] (Some (Ex_Pack 3))
      concolic_new = Ret (s', None) ∧ cs_stack s' = SV_Unknown :: drop 3 [].
Proof.
  split; [vm_compute; reflexivity|].
  apply (extra_information_fits (I := IntTerm) (B := BoolTerm) (Bc_Pack 1) demo_cache addr_two
    demo_module concolic_new [] (Some (Ex_Pack 3))); [vm_compute; reflexivity|reflexivity].
Defined.
