(* ===== verification/FuzzTracer.v ===== *)
(** * FuzzTracer: the tracer that drives coverage, logs, oracles and the
    concolic executor

    [crates/movy-replay/src/tracer/fuzz.rs] and the oracle interface of
    [crates/movy-replay/src/tracer/oracle.rs]. *)
From S2P Require Import Prelude Types Text Z3 TraceState Concolic Tracer Logs.

(** ** Findings ([crates/movy-types/src/oracle.rs]) *)
Inductive Severity := Discussion | Informational | Minor | Medium | Major | Critical.
#[export] Instance Severity_eq_dec : EqDecision Severity.
Proof. solve_decision. Defined.

(** The JSON objects the oracles attach to a finding. *)
Inductive Json := J_str (s : string) | J_num (n : N) | J_arr (items : list Json) | J_obj (fields : list (string * Json)).

Record OracleFinding := MkFinding { of_oracle : string; of_severity : Severity; of_extra : Json }.

(** A fallible computation that may also panic: [Err] is [Result::Err]. *)
Inductive result (A : Type) := Ok (a : A) | Err.
Arguments Ok {A} a.
Arguments Err {A}.
#[export] Instance result_mbind : MBind result := λ A B k r, match r with Ok a => k a | Err => Err end.
#[export] Instance result_mret : MRet result := @Ok.

(** ** The oracle interface

    [St] is the fuzzer's state, [Fx] the transaction effects, [D] the object
    store; an oracle's handler returns its findings and the new oracle and
    fuzzer states. *)
Class SuiGeneralOracle (I St Fx D O : Type) := {
  pre_execution : D → MoveSequence → O → St → panics (result () * O * St);
  oracle_open_frame : Frame → TraceState → ConcolicState I → FunctionIdent → O → St →
    panics (result (list OracleFinding) * O * St);
  oracle_before_instruction : N → Bytecode → TraceState → ConcolicState I → FunctionIdent → O → St →
    panics (result (list OracleFinding) * O * St);
  done_execution : D → Fx → O → St → panics (result (list OracleFinding) * O * St);
}.

Definition no_findings {O St} (o : O) (st : St) : panics (result (list OracleFinding) * O * St) :=
  Ret (Ok [], o, st).

#[export] Instance unit_oracle I St Fx D : SuiGeneralOracle I St Fx D () := {
  pre_execution _ _ o st := Ret (Ok (), o, st);
  oracle_open_frame _ _ _ _ := no_findings;
  oracle_before_instruction _ _ _ _ _ := no_findings;
  done_execution _ _ := no_findings;
}.

(** Two handlers in sequence: an error of the first stops, the findings of
    the first come first. *)
Definition chain {O1 O2 St}
    (h1 : O1 → St → panics (result (list OracleFinding) * O1 * St))
    (h2 : O2 → St → panics (result (list OracleFinding) * O2 * St))
    (o : O1 * O2) (st : St) : panics (result (list OracleFinding) * (O1 * O2) * St) :=
  '(r1, o1, st) ← h1 o.1 st;
  match r1 with
  | Err => Ret (Err, (o1, o.2), st)
  | Ok f1 =>
      '(r2, o2, st) ← h2 o.2 st;
      match r2 with
      | Err => Ret (Err, (o1, o2), st)
      | Ok f2 => Ret (Ok (f1 ++ f2), (o1, o2), st)
      end
  end.

#[export] Instance pair_oracle I St Fx D O1 O2 `{!SuiGeneralOracle I St Fx D O1}
    `{!SuiGeneralOracle I St Fx D O2} : SuiGeneralOracle I St Fx D (O1 * O2) := {
  pre_execution db sequence o st :=
    '(r1, o1, st) ← pre_execution db sequence o.1 st;
    match r1 with
    | Err => Ret (Err, (o1, o.2), st)
    | Ok _ => '(r2, o2, st) ← pre_execution db sequence o.2 st; Ret (r2, (o1, o2), st)
    end;
  oracle_open_frame frame ts cs f :=
    chain (oracle_open_frame frame ts cs f) (oracle_open_frame frame ts cs f);
  oracle_before_instruction pc bytecode ts cs f :=
    chain (oracle_before_instruction pc bytecode ts cs f)
      (oracle_before_instruction pc bytecode ts cs f);
  done_execution db effects := chain (done_execution db effects) (done_execution db effects);
}.

Record CouldDisabledOralce (O : Type) := MkCouldDisabled { cd_oracle : O; cd_disabled : bool }.
Arguments MkCouldDisabled {O} _ _.
Arguments cd_oracle {O} _.
Arguments cd_disabled {O} _.

Definition unless_disabled {O St A} (default : A) (h : O → St → panics (result A * O * St))
    (o : CouldDisabledOralce O) (st : St) : panics (result A * CouldDisabledOralce O * St) :=
  if cd_disabled o then Ret (Ok default, o, st) else
  '(r, o', st) ← h (cd_oracle o) st; Ret (r, MkCouldDisabled o' (cd_disabled o), st).

#[export] Instance could_disabled_oracle I St Fx D O `{!SuiGeneralOracle I St Fx D O} :
    SuiGeneralOracle I St Fx D (CouldDisabledOralce O) := {
  pre_execution db sequence := unless_disabled () (pre_execution db sequence);
  oracle_open_frame frame ts cs f := unless_disabled [] (oracle_open_frame frame ts cs f);
  oracle_before_instruction pc bytecode ts cs f :=
    unless_disabled [] (oracle_before_instruction pc bytecode ts cs f);
  done_execution db effects := unless_disabled [] (done_execution db effects);
}.

(** ** Coverage *)
Section coverage.
(** [libafl_bolts::hash_std] on the bytes of a package's name. *)
Context (hash_std : string → N).

Record CoverageTracer := MkCoverage {
  cov_packages : list N;  (** innermost first *)
  cov_had_br : bool;
  cov_prev : N;
  cov_map : option (list N)  (** the observer's map, if it is installed *) }.

Definition coverage_new (map : option (list N)) : CoverageTracer := MkCoverage [] false 0 map.

Definition u64 (n : N) : N := (n mod 2 ^ 64)%N.

(** The edge identifier and the slot of the map it is counted in. *)
Definition edge_id (pkg pc : N) : N :=
  N.lxor (N.lxor (N.shiftr pc 4) (u64 (N.shiftl pc 8))) pkg.

Definition hit_cov (pc : N) (c : CoverageTracer) : panics CoverageTracer :=
  match cov_map c with
  | None => Ret c
  | Some [] => Ret c
  | Some map =>
      pkg ← unwrap (head (cov_packages c));
      let pc := edge_id pkg pc in
      let len := N.of_nat (length map) in
      let hit := N.to_nat ((N.lxor (cov_prev c) pc) mod len) in
      v ← unwrap (map !! hit);
      Ret (MkCoverage (cov_packages c) (cov_had_br c) pc
        (Some (<[hit := N.min (v + 1) 255]> map)))
  end.

Definition call_package (package : string) (c : CoverageTracer) : CoverageTracer :=
  MkCoverage (hash_std package :: cov_packages c) true (cov_prev c) (cov_map c).
Definition call_end_package (c : CoverageTracer) : CoverageTracer :=
  MkCoverage (tail (cov_packages c)) true (cov_prev c) (cov_map c).
Definition will_branch (c : CoverageTracer) : CoverageTracer :=
  MkCoverage (cov_packages c) true (cov_prev c) (cov_map c).
Definition may_do_coverage (pc : N) (c : CoverageTracer) : panics CoverageTracer :=
  if cov_had_br c
  then hit_cov pc (MkCoverage (cov_packages c) false (cov_prev c) (cov_map c))
  else Ret c.
End coverage.

(** ** Loading packages *)
Section resolver.
Context {M : Type} `{MT : ModuleTables M}.
(** [BackingPackageStore::get_package_object] (the serialized modules, [None]
    when the package does not exist, [Err] on a store error) and
    [CompiledModule::deserialize_with_defaults]. *)
Context (Serialized : Type) (get_package : MoveAddress → result (option (list Serialized)))
  (deserialize : Serialized → option M).

Definition insert_module (package_id : MoveAddress) (module : M) (c : PackageCache (M := M)) :
    PackageCache :=
  <[package_id := <[module_self_id module := module]> (default ∅ (c !! package_id))]> c.

(** The loop over the modules; it stops at the first one that does not
    deserialize, what was inserted before stays. *)
Fixpoint load_modules (package_id : MoveAddress) (mds : list Serialized) (c : PackageCache (M := M)) :
    result () * PackageCache :=
  match mds with
  | [] => (Ok (), c)
  | md :: mds =>
      match deserialize md with
      | None => (Err, c)
      | Some module => load_modules package_id mds (insert_module package_id module c)
      end
  end.

Definition may_load_package (package_id : MoveAddress) (c : PackageCache (M := M)) :
    result () * PackageCache :=
  match c !! package_id with
  | Some _ => (Ok (), c)
  | None =>
      match get_package package_id with
      | Err => (Err, c)
      | Ok None => (Err, c)
      | Ok (Some mds) => load_modules package_id mds c
      end
  end.
End resolver.

(** ** The tracer *)
Inductive ExitKind := Exit_Ok | Exit_Crash.

(** [pending_error], which nothing in the repository writes, is left out. *)
Record TraceOutcome (I B : Type) := MkOutcome {
  to_logs : gmap FunctionIdent (list (Log B));
  to_verdict : ExitKind;
  to_findings : list OracleFinding;
  to_concolic : ConcolicState I }.
Arguments MkOutcome {I B} _ _ _ _.
Arguments to_logs {I B} _.
Arguments to_verdict {I B} _.
Arguments to_findings {I B} _.
Arguments to_concolic {I B} _.

Record SuiFuzzTracer (I B St O M : Type) := MkFuzzTracer {
  sf_current_functions : list (MoveAddress * FunctionIdent);  (** innermost first *)
  sf_coverage : CoverageTracer;
  sf_state : St;
  sf_outcome : TraceOutcome I B;
  sf_oracles : O;
  sf_skip_concolic : bool;
  sf_cache : gmap MoveAddress (gmap MoveModuleId M) }.
Arguments MkFuzzTracer {I B St O M} _ _ _ _ _ _ _.
Arguments sf_current_functions {I B St O M} _.
Arguments sf_coverage {I B St O M} _.
Arguments sf_state {I B St O M} _.
Arguments sf_outcome {I B St O M} _.
Arguments sf_oracles {I B St O M} _.
Arguments sf_skip_concolic {I B St O M} _.
Arguments sf_cache {I B St O M} _.

Section fuzz.
Context {I B St Fx D O M : Type} `{ZA : Z3Ast I B} `{U : U256Lib} `{TL : TraceLib}
  `{MT : !ModuleTables M} `{SO : !SuiGeneralOracle I St Fx D O} `{AT : AddressText}.
Context (hash_std : string → N).
Context (Serialized : Type) (get_package : MoveAddress → result (option (list Serialized)))
  (deserialize : Serialized → option M).
Abbreviation FT := (SuiFuzzTracer I B St O M).

Definition outcome_new : TraceOutcome I B := MkOutcome ∅ Exit_Ok [] concolic_new.
Definition fuzz_tracer_new (map : option (list N)) (state : St) (oracles : O)
    (cache : PackageCache (M := M)) : FT :=
  MkFuzzTracer [] (coverage_new map) state outcome_new oracles false cache.

Definition set_coverage (c : CoverageTracer) (t : FT) : FT :=
  MkFuzzTracer (sf_current_functions t) c (sf_state t) (sf_outcome t) (sf_oracles t)
    (sf_skip_concolic t) (sf_cache t).
Definition set_outcome (o : TraceOutcome I B) (t : FT) : FT :=
  MkFuzzTracer (sf_current_functions t) (sf_coverage t) (sf_state t) o (sf_oracles t)
    (sf_skip_concolic t) (sf_cache t).
Definition set_oracles (o : O) (st : St) (t : FT) : FT :=
  MkFuzzTracer (sf_current_functions t) (sf_coverage t) st (sf_outcome t) o
    (sf_skip_concolic t) (sf_cache t).
Definition set_concolic (c : ConcolicState I) (t : FT) : FT :=
  let o := sf_outcome t in
  set_outcome (MkOutcome (to_logs o) (to_verdict o) (to_findings o) c) t.

Definition add_findings (fs : list OracleFinding) (t : FT) : FT :=
  let o := sf_outcome t in
  set_outcome (MkOutcome (to_logs o) (match fs with [] => to_verdict o | _ => Exit_Crash end)
    (to_findings o ++ fs) (to_concolic o)) t.

(** [logs.entry(f).or_default().push(log)], under the outermost function. *)
Definition add_log (log : Log B) (t : FT) : FT :=
  match last (sf_current_functions t) with
  | None => t
  | Some (_, f) =>
      let o := sf_outcome t in
      set_outcome (MkOutcome (<[f := default [] (to_logs o !! f) ++ [log]]> (to_logs o))
        (to_verdict o) (to_findings o) (to_concolic o)) t
  end.

Definition bin_ops (stack : list TraceValue) : option (Magic * Magic) :=
  match stack with
  | r :: l :: _ =>
      lhs ← magic_of_trace_value l; rhs ← magic_of_trace_value r; Some (lhs, rhs)
  | _ => None
  end.

(** What an instruction adds to the logs. *)
Definition log_instruction (instruction : Bytecode) (stack : list TraceValue)
    (constraint : option B) (t : FT) : result () * FT :=
  match instruction with
  | Bc_BrFalse _ | Bc_BrTrue _ | Bc_Branch _ | Bc_VariantSwitch _ =>
      (Ok (), set_coverage (will_branch (sf_coverage t)) t)
  | Bc_Lt | Bc_Le | Bc_Ge | Bc_Gt | Bc_Neq | Bc_Eq =>
      match bin_ops stack, cmp_op_of instruction with
      | Some (lhs, rhs), Some op => (Ok (), add_log (CmpLog lhs rhs op constraint) t)
      | _, _ => (Ok (), t)
      end
  | Bc_Shl =>
      match bin_ops stack with
      | Some (lhs, rhs) => (Ok (), add_log (ShlLog lhs rhs constraint) t)
      | None => (Ok (), t)
      end
  | Bc_CastU8 | Bc_CastU16 | Bc_CastU32 | Bc_CastU64 | Bc_CastU128 =>
      match stack with
      | [] => (Ok (), t)
      | v :: _ =>
          match magic_of_trace_value v with
          | None => (Err, t)
          | Some lhs => (Ok (), add_log (CastLog lhs constraint) t)
          end
      end
  | _ => (Ok (), t)
  end.

Definition run_oracles (state : TraceState) (pc : N) (instruction : Bytecode) (t : FT) :
    panics (result () * FT) :=
  match sf_current_functions t with
  | [] => Ret (Ok (), t)
  | (_, current_function) :: _ =>
      '(r, o, st) ← oracle_before_instruction pc instruction state (to_concolic (sf_outcome t))
        current_function (sf_oracles t) (sf_state t);
      let t := set_oracles o st t in
      match r with
      | Err => Ret (Err, t)
      | Ok findings => Ret (Ok (), add_findings findings t)
      end
  end.

Definition run_concolic (state : TraceState) (instruction : Bytecode) (t : FT) :
    panics (FT * option B) :=
  extra ← match sf_current_functions t with
          | [] => Ret None
          | (pkg, md) :: _ => from_resolver instruction (sf_cache t) pkg (fi_module md)
          end;
  if sf_skip_concolic t then Ret (t, None) else
  '(c, constraint) ← on_before_instruction_inner (to_concolic (sf_outcome t)) instruction state extra;
  Ret (set_concolic c t, constraint).

(** The inherent [before_instruction]; its error is only logged. *)
Definition fuzz_before_instruction (state : TraceState) (pc : N) (instruction : Bytecode) (t : FT) :
    panics (result () * FT) :=
  '(r, t) ← run_oracles state pc instruction t;
  match r with
  | Err => Ret (Err, t)
  | Ok _ =>
      '(t, constraint) ← run_concolic state instruction t;
      c ← may_do_coverage pc (sf_coverage t);
      Ret (log_instruction instruction (operand_stack state) constraint (set_coverage c t))
  end.

Definition package_label (frame : Frame) : string :=
  to_canonical_string true (module_address (fr_module frame)) +:+ "::"
    +:+ module_name (fr_module frame) +:+ "::" +:+ fr_function_name frame.

Definition fuzz_open_frame (frame : Frame) (t : FT) : FT :=
  let '(_, cache) := may_load_package Serialized get_package deserialize (fr_version_id frame) (sf_cache t) in
  let concolic := if sf_skip_concolic t then to_concolic (sf_outcome t)
                  else on_open_frame_inner (to_concolic (sf_outcome t)) frame in
  let t := set_concolic concolic t in
  MkFuzzTracer
    ((fr_version_id frame, MkFunctionIdent (fr_module frame) (fr_function_name frame))
       :: sf_current_functions t)
    (call_package hash_std (package_label frame) (sf_coverage t)) (sf_state t) (sf_outcome t)
    (sf_oracles t) (sf_skip_concolic t) cache.

Definition fuzz_close_frame (t : FT) : FT :=
  let concolic := if sf_skip_concolic t then to_concolic (sf_outcome t)
                  else on_close_frame_inner (to_concolic (sf_outcome t)) in
  let t := set_concolic concolic t in
  MkFuzzTracer (tail (sf_current_functions t)) (call_end_package (sf_coverage t)) (sf_state t)
    (sf_outcome t) (sf_oracles t) (sf_skip_concolic t) (sf_cache t).

Definition fuzz_raw_event (state : TraceState) (ev : TraceEvent) (t : FT) : FT :=
  let '(c, go_on) := on_raw_event_inner (to_concolic (sf_outcome t)) ev state in
  let t := set_concolic c t in
  MkFuzzTracer (sf_current_functions t) (sf_coverage t) (sf_state t) (sf_outcome t)
    (sf_oracles t) (negb go_on) (sf_cache t).

#[export] Instance fuzz_ext : MovySuiTracerExt FT := {
  on_raw_event state ev t := Ret (fuzz_raw_event state ev t, true);
  on_move_call _ t :=
    if sf_skip_concolic t then Ret t
    else Ret (set_concolic (on_move_call_inner (to_concolic (sf_outcome t))) t);
  on_effect _ _ t := Ret t;
  open_frame _ frame _ t := Ret (fuzz_open_frame frame t);
  close_frame _ _ _ _ t := Ret (fuzz_close_frame t);
  before_instruction state _ pc _ instruction t :=
    '(_, t) ← fuzz_before_instruction state pc instruction t; Ret t;
}.

(** ** Properties *)
Abbreviation concolic_of t := (to_concolic (sf_outcome t)).

Lemma log_instruction_keeps i stack c t :
  let t' := (log_instruction i stack c t).2 in
  sf_oracles t' = sf_oracles t ∧ concolic_of t' = concolic_of t ∧
  to_verdict (sf_outcome t') = to_verdict (sf_outcome t) ∧
  to_findings (sf_outcome t') = to_findings (sf_outcome t) ∧
  cov_packages (sf_coverage t') = cov_packages (sf_coverage t) ∧
  sf_current_functions t' = sf_current_functions t.
Proof.
  assert (∀ log, let t' := add_log log t in
    sf_oracles t' = sf_oracles t ∧ concolic_of t' = concolic_of t ∧
    to_verdict (sf_outcome t') = to_verdict (sf_outcome t) ∧
    to_findings (sf_outcome t') = to_findings (sf_outcome t) ∧
    cov_packages (sf_coverage t') = cov_packages (sf_coverage t) ∧
    sf_current_functions t' = sf_current_functions t) as Hadd.
  { intros log. unfold add_log. by destruct (last _) as [[? ?]|]. }
  unfold log_instruction.
  destruct i; try (by split_and!); try (destruct stack as [|v ?]; [by split_and!|];
    destruct (magic_of_trace_value v); [apply Hadd|by split_and!]);
    destruct (bin_ops stack) as [[l r]|]; try (by split_and!); apply Hadd.
Qed.

(** The stages of an instruction, and what they leave alone. *)
Lemma run_oracles_keeps state pc i t r t' :
  run_oracles state pc i t = Ret (r, t') →
  sf_current_functions t' = sf_current_functions t ∧ sf_coverage t' = sf_coverage t ∧
  concolic_of t' = concolic_of t ∧ sf_skip_concolic t' = sf_skip_concolic t ∧
  ∃ fs, to_findings (sf_outcome t') = to_findings (sf_outcome t) ++ fs ∧
    to_verdict (sf_outcome t') = match fs with [] => to_verdict (sf_outcome t) | _ => Exit_Crash end.
Proof.
  unfold run_oracles. destruct (sf_current_functions t) as [|[pkg f] l] eqn:E.
  - intros [= <- <-]. split_and!; try done. exists []. by rewrite app_nil_r.
  - intros H. apply panics_bind_Ret in H as ([[r' o] st] & _ & H).
    destruct r' as [fs|]; injection H as <- <-.
    + split_and!; try done. by exists fs.
    + split_and!; try done. exists []. by rewrite app_nil_r.
Qed.

Lemma run_concolic_keeps state i t t' c :
  run_concolic state i t = Ret (t', c) →
  sf_current_functions t' = sf_current_functions t ∧ sf_coverage t' = sf_coverage t ∧
  to_findings (sf_outcome t') = to_findings (sf_outcome t) ∧
  to_verdict (sf_outcome t') = to_verdict (sf_outcome t) ∧
  (sf_skip_concolic t = true → concolic_of t' = concolic_of t).
Proof.
  unfold run_concolic. intros H. apply panics_bind_Ret in H as (extra & _ & H).
  destruct (sf_skip_concolic t) eqn:E; [by injection H as <- <-|].
  apply panics_bind_Ret in H as ([c' co] & _ & H). by injection H as <- <-.
Qed.

Lemma hit_cov_packages pc c c' : hit_cov pc c = Ret c' → cov_packages c' = cov_packages c.
Proof.
  unfold hit_cov. destruct (cov_map c) as [[|v m]|]; [by intros [= <-]| |by intros [= <-]].
  intros H. apply panics_bind_Ret in H as (pkg & _ & H).
  apply panics_bind_Ret in H as (x & _ & [= <-]). done.
Qed.

Lemma may_do_coverage_packages pc c c' :
  may_do_coverage pc c = Ret c' → cov_packages c' = cov_packages c.
Proof. unfold may_do_coverage. destruct (cov_had_br c); [by intros H%hit_cov_packages|by intros [= <-]]. Qed.

(** What an instruction does to the parts the properties below are about. *)
Lemma before_instruction_keeps state pc i t r t' :
  fuzz_before_instruction state pc i t = Ret (r, t') →
  sf_current_functions t' = sf_current_functions t ∧
  cov_packages (sf_coverage t') = cov_packages (sf_coverage t) ∧
  (sf_skip_concolic t = true → concolic_of t' = concolic_of t) ∧
  ∃ fs, to_findings (sf_outcome t') = to_findings (sf_outcome t) ++ fs ∧
    to_verdict (sf_outcome t') = match fs with [] => to_verdict (sf_outcome t) | _ => Exit_Crash end.
Proof.
  unfold fuzz_before_instruction. intros H. apply panics_bind_Ret in H as ([r1 t1] & H1 & H).
  apply run_oracles_keeps in H1 as (Hf1 & Hc1 & Hco1 & Hs1 & fs & Hfs & Hv).
  destruct r1 as [[]|].
  - apply panics_bind_Ret in H as ([t2 c] & H2 & H).
    apply run_concolic_keeps in H2 as (Hf2 & Hc2 & Hfs2 & Hv2 & Hco2).
    apply panics_bind_Ret in H as (cov & Hcov & [= H]).
    apply may_do_coverage_packages in Hcov.
    pose proof (log_instruction_keeps i (operand_stack state) c (set_coverage cov t2))
      as (_ & Hco & Hv' & Hfs' & Hp & Hf).
    replace t' with (log_instruction i (operand_stack state) c (set_coverage cov t2)).2
      by (by rewrite H).
    split_and!.
    + rewrite Hf. simpl. congruence.
    + rewrite Hp. simpl. congruence.
    + intros Hskip. rewrite Hco. simpl. rewrite Hco2 by congruence. done.
    + exists fs. rewrite Hfs', Hv'. simpl. split; congruence.
  - injection H as <- <-. split_and!; try congruence. by exists fs.
Qed.

Definition ev_is_instruction (e : TraceEvent) : bool :=
  match e with Ev_Instruction _ _ _ _ => true | _ => false end.

(** Every notification of the fuzz tracer. *)
Lemma fuzz_dispatch_inv (w w' : MovySuiTracerWrapper FT) e b :
  notify w e = Ret (w', b) →
  dispatch (wr_state w) e (fuzz_raw_event (wr_state w) e (wr_tracer w)) = Ret (wr_tracer w').
Proof.
  intros H. apply notify_inv in H as (t & keep & Hraw & _ & _ & Hd).
  cbn [on_raw_event fuzz_ext] in Hraw. injection Hraw as <- <-. done.
Qed.

Lemma raw_event_keeps s e t :
  let t' := fuzz_raw_event s e t in
  sf_current_functions t' = sf_current_functions t ∧ sf_coverage t' = sf_coverage t ∧
  sf_oracles t' = sf_oracles t ∧
  to_findings (sf_outcome t') = to_findings (sf_outcome t) ∧
  to_verdict (sf_outcome t') = to_verdict (sf_outcome t) ∧
  (cs_disable (concolic_of t) = true → concolic_of t' = concolic_of t ∧ sf_skip_concolic t' = true).
Proof.
  unfold fuzz_raw_event. destruct (on_raw_event_inner _ e s) as [c g] eqn:E. split_and!; try done.
  intros Hd. unfold on_raw_event_inner in E. rewrite Hd in E. by injection E as <- <-.
Qed.

(** Disabling the concolic executor is final: once it is disabled, no
    event of any trace changes its state again - no handler runs on a stack
    that is out of step with the VM. *)
Theorem concolic_disable_final (w w' : MovySuiTracerWrapper FT) evs :
  cs_disable (concolic_of (wr_tracer w)) = true → notify_all w evs = Ret w' →
  concolic_of (wr_tracer w') = concolic_of (wr_tracer w).
Proof.
  intros Hd H. refine (notify_all_rel (λ t t' : FT, cs_disable (concolic_of t) = true →
    concolic_of t' = concolic_of t) w evs w' _ H Hd).
  - split; [by intros ?|]. intros t1 t2 t3 H12 H23 Hd1. rewrite H23; [by apply H12|]. by rewrite H12.
  - clear. intros w e w' b _ H%fuzz_dispatch_inv Hd.
    destruct (raw_event_keeps (wr_state w) e (wr_tracer w)) as (_ & _ & _ & _ & _ & Hk).
    destruct (Hk Hd) as [Hc Hs]. rewrite <-Hc.
    set (t := fuzz_raw_event _ _ _) in *. clearbody t.
    destruct e as [f g|id ret g|tys pc g i|ef|o]; cbn [dispatch fuzz_ext open_frame close_frame
      on_effect on_move_call before_instruction] in H.
    + injection H as <-. unfold fuzz_open_frame. rewrite Hs.
      by destruct (may_load_package _ _ _ _ _).
    + injection H as <-. unfold fuzz_close_frame. by rewrite Hs.
    + apply panics_bind_Ret in H as ([r t'] & H & [= <-]).
      apply before_instruction_keeps in H as (_ & _ & Hco & _). by apply Hco.
    + by injection H as <-.
    + destruct (is_move_call_start o); [rewrite Hs in H|]; by injection H as <-.
Qed.

(** The verdict is the findings: along any trace findings are only added,
    and the verdict turns to a crash exactly when one is reported, so a
    tracer that starts clean ends with a crash verdict if and only if it has
    findings. *)
Lemma verdict_iff_findings (w w' : MovySuiTracerWrapper FT) evs :
  notify_all w evs = Ret w' →
  ∃ fs, to_findings (sf_outcome (wr_tracer w')) = to_findings (sf_outcome (wr_tracer w)) ++ fs ∧
    to_verdict (sf_outcome (wr_tracer w')) =
      match fs with [] => to_verdict (sf_outcome (wr_tracer w)) | _ => Exit_Crash end.
Proof.
  intros H. refine (notify_all_rel (λ t t' : FT,
    ∃ fs, to_findings (sf_outcome t') = to_findings (sf_outcome t) ++ fs ∧
      to_verdict (sf_outcome t') = match fs with [] => to_verdict (sf_outcome t) | _ => Exit_Crash end)
    w evs w' _ H).
  - split.
    + intros t. exists []. by rewrite app_nil_r.
    + intros t1 t2 t3 (f1 & H1 & V1) (f2 & H2 & V2). exists (f1 ++ f2). split.
      * by rewrite H2, H1, app_assoc.
      * rewrite V2, V1. by destruct f2, f1.
  - clear. intros w e w' b _ H%fuzz_dispatch_inv.
    destruct (raw_event_keeps (wr_state w) e (wr_tracer w)) as (_ & _ & _ & Hf & Hv & _).
    rewrite <-Hf, <-Hv. set (t := fuzz_raw_event _ _ _) in *. clearbody t. clear Hf Hv.
    assert (wr_tracer w' = t ∨ to_findings (sf_outcome (wr_tracer w')) = to_findings (sf_outcome t) ∧
      to_verdict (sf_outcome (wr_tracer w')) = to_verdict (sf_outcome t) ∨
      ∃ pc i, ∃ r, fuzz_before_instruction (wr_state w) pc i t = Ret (r, wr_tracer w'))
      as [->|[[-> ->]|(pc & i & r & Hi)]].
    { destruct e as [f g|id ret g|tys pc g i|ef|o]; cbn [dispatch fuzz_ext open_frame close_frame
        on_effect on_move_call before_instruction] in H.
      - injection H as <-. right; left. unfold fuzz_open_frame.
        by destruct (may_load_package _ _ _ _ _).
      - injection H as <-. by right; left.
      - apply panics_bind_Ret in H as ([r t'] & H & [= <-]). right; right. eauto.
      - injection H as <-. by left.
      - destruct (is_move_call_start o); [destruct (sf_skip_concolic t)|]; injection H as <-;
          auto. }
    + exists []. by rewrite app_nil_r.
    + exists []. by rewrite app_nil_r.
    + by apply before_instruction_keeps in Hi as (_ & _ & _ & ?).
Qed.

Lemma hit_cov_map pc c c' : hit_cov pc c = Ret c' → length <$> cov_map c' = length <$> cov_map c.
Proof.
  unfold hit_cov. destruct (cov_map c) as [[|v m]|] eqn:Em; [by intros [= <-]; rewrite Em| |by intros [= <-]; rewrite Em].
  intros H. apply panics_bind_Ret in H as (pkg & _ & H).
  apply panics_bind_Ret in H as (x & _ & [= <-]). cbn [cov_map]. simpl. by rewrite length_insert.
Qed.

Lemma log_instruction_map i stack c t :
  cov_map (sf_coverage (log_instruction i stack c t).2) = cov_map (sf_coverage t).
Proof.
  assert (∀ log, cov_map (sf_coverage (add_log log t)) = cov_map (sf_coverage t)) as Hadd.
  { intros log. unfold add_log. by destruct (last _) as [[? ?]|]. }
  unfold log_instruction.
  destruct i; try done; try (destruct stack as [|v ?]; [done|];
    destruct (magic_of_trace_value v); [apply Hadd|done]);
    destruct (bin_ops stack) as [[l r]|]; try done; apply Hadd.
Qed.

(** The coverage map keeps its length. *)
Lemma coverage_length (w w' : MovySuiTracerWrapper FT) evs : notify_all w evs = Ret w' →
  length <$> cov_map (sf_coverage (wr_tracer w')) = length <$> cov_map (sf_coverage (wr_tracer w)).
Proof.
  intros H. refine (notify_all_rel (λ t t' : FT, length <$> cov_map (sf_coverage t') =
    length <$> cov_map (sf_coverage t)) w evs w' _ H).
  { split; [done|]. intros t1 t2 t3 H12 H23. congruence. }
  clear. intros w e w' b _ H%fuzz_dispatch_inv.
  destruct (raw_event_keeps (wr_state w) e (wr_tracer w)) as (_ & <- & _).
  set (t := fuzz_raw_event _ _ _) in *. clearbody t.
  destruct e as [f g|id ret g|tys pc g i|ef|o]; cbn [dispatch fuzz_ext open_frame close_frame
    on_effect on_move_call before_instruction] in H.
  - injection H as <-. unfold fuzz_open_frame. by destruct (may_load_package _ _ _ _ _).
  - by injection H as <-.
  - apply panics_bind_Ret in H as ([r t'] & H & [= <-]). unfold fuzz_before_instruction in H.
    apply panics_bind_Ret in H as ([r1 t1] & (_ & Hc1 & _)%run_oracles_keeps & H).
    destruct r1 as [[]|]; [|injection H as <- <-; by rewrite Hc1].
    apply panics_bind_Ret in H as ([t2 c] & (_ & Hc2 & _)%run_concolic_keeps & H).
    apply panics_bind_Ret in H as (cov & Hcov & [= H]).
    replace t' with (log_instruction i (operand_stack (wr_state w)) c (set_coverage cov t2)).2 by (by rewrite H).
    rewrite log_instruction_map. simpl. unfold may_do_coverage in Hcov. rewrite <-Hc1, <-Hc2.
    destruct (cov_had_br _); [|by injection Hcov as <-]. by apply hit_cov_map in Hcov.
  - by injection H as <-.
  - destruct (is_move_call_start o); [destruct (sf_skip_concolic t)|]; by injection H as <-.
Qed.

Lemma fuzz_attentive : attentive FT.
Proof. intros state ev t t' keep. cbn [on_raw_event fuzz_ext]. by intros [= _ <-]. Qed.

Lemma hit_cov_ok pc c :
  cov_packages c ≠ [] →
  ∃ c', hit_cov pc c = Ret c' ∧ length <$> cov_map c' = length <$> cov_map c ∧
    ∀ m, cov_map c = Some m → Forall (λ v, v < 256)%N m →
      ∃ m', cov_map c' = Some m' ∧ Forall (λ v, v < 256)%N m'.
Proof.
  intros Hp. unfold hit_cov. destruct (cov_map c) as [[|v m]|] eqn:Em; [exists c; rewrite Em; eauto 7| |exists c; rewrite Em; eauto 7].
  destruct (cov_packages c) as [|pkg l]; [done|].
  change (unwrap (head (pkg :: l))) with (Ret pkg). cbn [mbind panics_mbind panics_bind].
  match goal with |- context [(v :: m) !! ?h] => set (hit := h) end.
  destruct (lookup_lt_is_Some_2 (v :: m) hit) as [x Hx].
  { subst hit. pose proof (N.mod_lt (N.lxor (cov_prev c) (edge_id pkg pc)) (N.of_nat (length (v :: m)))).
    simpl length in *. lia. }
  rewrite Hx. cbn [unwrap mbind panics_mbind panics_bind]. eexists. split; [done|]. split.
  - cbn [cov_map]. simpl fmap. by rewrite length_insert.
  - intros m' [= <-] Hm. eexists. split; [done|]. apply Forall_insert; [done|]. lia.
Qed.

(** The coverage stack follows the call stack: along any trace of the
    tracer the stack of package hashes is as high as the stack of current
    functions, so the [expect] of [hit_cov] cannot fail while a function is
    being executed, and the slot it counts is always inside the map: with a
    function on the stack [may_do_coverage] returns, and keeps the length of
    the map and its counters within a byte. *)
Theorem coverage_never_panics (w w' : MovySuiTracerWrapper FT) evs pc :
  length (sf_current_functions (wr_tracer w)) = length (cov_packages (sf_coverage (wr_tracer w))) →
  notify_all w evs = Ret w' → sf_current_functions (wr_tracer w') ≠ [] →
  ∃ c, may_do_coverage pc (sf_coverage (wr_tracer w')) = Ret c ∧
    length <$> cov_map c = length <$> cov_map (sf_coverage (wr_tracer w')) ∧
    ∀ m, cov_map (sf_coverage (wr_tracer w')) = Some m → Forall (λ v, v < 256)%N m →
      ∃ m', cov_map c = Some m' ∧ Forall (λ v, v < 256)%N m'.
Proof.
  intros Hlen H Hne.
  assert (length (sf_current_functions (wr_tracer w')) =
    length (cov_packages (sf_coverage (wr_tracer w')))) as Hlen'.
  { refine (notify_all_rel (λ t t' : FT, length (sf_current_functions t) =
      length (cov_packages (sf_coverage t)) → length (sf_current_functions t') =
      length (cov_packages (sf_coverage t'))) w evs w' _ H Hlen).
    { split; [by intros ??|]. intros t1 t2 t3 H12 H23 H1. by apply H23, H12. }
    clear. intros w e w' b _ H%fuzz_dispatch_inv.
    destruct (raw_event_keeps (wr_state w) e (wr_tracer w)) as (Hf & Hc & _).
    rewrite <-Hf, <-Hc. set (t := fuzz_raw_event _ _ _) in *. clearbody t. intros Hl.
    destruct e as [f g|id ret g|tys pc g i|ef|o]; cbn [dispatch fuzz_ext open_frame close_frame
      on_effect on_move_call before_instruction] in H.
    - injection H as <-. unfold fuzz_open_frame. destruct (may_load_package _ _ _ _ _). simpl. congruence.
    - injection H as <-. simpl.
      by destruct (sf_current_functions t), (cov_packages (sf_coverage t)); simplify_eq/=.
    - apply panics_bind_Ret in H as ([r t'] & H & [= <-]).
      by apply before_instruction_keeps in H as (-> & -> & _).
    - by injection H as <-.
    - destruct (is_move_call_start o); [destruct (sf_skip_concolic t)|]; by injection H as <-. }
  assert (cov_packages (sf_coverage (wr_tracer w')) ≠ []) as Hp.
  { intros E. rewrite E in Hlen'. by destruct (sf_current_functions (wr_tracer w')). }
  unfold may_do_coverage. destruct (cov_had_br _); [|eauto 7].
  by apply (hit_cov_ok pc (MkCoverage _ false _ _)).
Qed.

(** The oracles' [open_frame] handlers are never run: over any trace
    without instructions - whatever frames are opened - the state of the
    oracles is what it was. *)
Theorem oracle_open_frame_not_called (w w' : MovySuiTracerWrapper FT) evs :
  Forall (λ e, ev_is_instruction e = false) evs → notify_all w evs = Ret w' →
  sf_oracles (wr_tracer w') = sf_oracles (wr_tracer w).
Proof.
  intros Hno H. refine (notify_all_rel (λ t t' : FT, sf_oracles t' = sf_oracles t) w evs w' _ H).
  { split; [done|]. intros t1 t2 t3 H12 H23. congruence. }
  clear H w w'. intros w e w' b Hin H%fuzz_dispatch_inv. rewrite Forall_forall in Hno.
  specialize (Hno e Hin). destruct (raw_event_keeps (wr_state w) e (wr_tracer w)) as (_ & _ & Ho & _).
  rewrite <-Ho. destruct e as [f g|id ret g|tys pc g i|ef|o]; try discriminate Hno;
    cbn [dispatch fuzz_ext open_frame close_frame on_effect on_move_call before_instruction] in H.
  - injection H as <-. unfold fuzz_open_frame. by destruct (may_load_package _ _ _ _ _).
  - by injection H as <-.
  - by injection H as <-.
  - destruct (is_move_call_start o); [destruct (sf_skip_concolic _)|]; by injection H as <-.
Qed.
End fuzz.

(** ** Witnesses *)
Definition demo_ext : MovySuiTracerExt
    (SuiFuzzTracer IntTerm BoolTerm () () (MoveModuleId * list nat)) :=
  fuzz_ext (Fx := ()) (D := ()) (λ s, N.of_nat (String.length s)) (MoveModuleId * list nat)
    (λ a, if decide (a = addr_two) then Ok (Some [(demo_module, [2; 3])]) else Err) Some.

Definition demo_tracer (disabled : bool) :
    SuiFuzzTracer IntTerm BoolTerm () () (MoveModuleId * list nat) :=
  set_concolic (MkConcolic [] [] [] disabled)
    (fuzz_tracer_new (Some [0; 0; 0; 255]%N) () () ∅).
Definition demo_wrapper (disabled : bool) :=
  MkWrapper (demo_tracer disabled) trace_state_new.
Definition demo_events : list TraceEvent :=
  [Ev_OpenFrame (demo_frame 1 []) 100; Ev_Instruction [] 0 90 Bc_LdTrue;
   Ev_Effect (Eff_Push (RuntimeValue (SmvBool true))); Ev_Instruction [] 1 80 (Bc_BrTrue 4)].

Definition demo_run disabled evs :=
  notify_all (ME := demo_ext) (demo_wrapper disabled) evs.

Lemma concolic_disable_final_witness :
  ∃ w', demo_run true demo_events = Ret w' ∧
    to_concolic (sf_outcome (wr_tracer w')) = MkConcolic [] [] [] true.
Proof.
  destruct (returns_true (λ _, true) (demo_run true demo_events) ltac:(vm_compute; reflexivity))
    as (w' & E & _).
  exists w'. split; [done|].
  exact (concolic_disable_final _ _ _ _ (demo_wrapper true) w' demo_events eq_refl E).
Defined.

Lemma verdict_iff_findings_witness :
  ∃ w' fs, demo_run false demo_events = Ret w' ∧
    to_findings (sf_outcome (wr_tracer w')) = [] ++ fs ∧
    to_verdict (sf_outcome (wr_tracer w')) = match fs with [] => Exit_Ok | _ => Exit_Crash end.
Proof.
  destruct (returns_true (λ _, true) (demo_run false demo_events) ltac:(vm_compute; reflexivity))
    as (w' & E & _).
  destruct (verdict_iff_findings _ _ _ _ (demo_wrapper false) w' demo_events E) as (fs & Hf & Hv).
  by exists w', fs.
Defined.

Lemma coverage_never_panics_witness :
  ∃ w' c, demo_run false demo_events = Ret w' ∧
    may_do_coverage 2 (sf_coverage (wr_tracer w')) = Ret c.
Proof.
  destruct (returns_true (λ w, match sf_current_functions (wr_tracer w) with [] => false | _ => true end)
    (demo_run false demo_events) ltac:(vm_compute; reflexivity)) as (w' & E & Hne).
  destruct (coverage_never_panics _ _ _ _ (demo_wrapper false) w' demo_events 2 eq_refl E)
    as (c & Hc & _).
  - intros Hnil. by rewrite Hnil in Hne.
  - by exists w', c.
Defined.

Lemma oracle_open_frame_not_called_witness :
  ∃ w', demo_run false [Ev_OpenFrame (demo_frame 1 []) 100] = Ret w' ∧
    sf_oracles (wr_tracer w') = ().
Proof.
  destruct (returns_true (λ _, true) (demo_run false [Ev_OpenFrame (demo_frame 1 []) 100])
    ltac:(vm_compute; reflexivity)) as (w' & E & _).
  exists w'. split; [done|].
  assert (Hno : Forall (λ e, ev_is_instruction e = false) [Ev_OpenFrame (demo_frame 1 []) 100])
    by repeat constructor.
  exact (oracle_open_frame_not_called (Fx := ()) (D := ()) _ _ _ _ (demo_wrapper false) w'
    [Ev_OpenFrame (demo_frame 1 []) 100] Hno E).
Defined.
