(* ===== verification/TypeGraph.v ===== *)
(** * TypeGraph: which functions produce and consume a type

    [crates/movy-analysis/src/type_graph.rs]. [PetGraph] is the interface of
    [petgraph::Graph] with its documented behaviour, [list_graph] a concrete
    instance. The [BTreeMap] [tys] is kept in insertion order, so the order of
    the results of a query is not that of the code: the theorems are about
    permutations. *)
From S2P Require Import Prelude Types Abi TypeArgs.

Inductive TypeGraphNode :=
| TG_Function (m : MoveModuleId) (f : MoveFunctionAbi)
| TG_Type (ty : MoveAbiSignatureToken).
#[export] Instance TypeGraphNode_eq_dec : EqDecision TypeGraphNode.
Proof. solve_decision. Defined.

Inductive TypeGraphEdge := TE_FunctionReturn | TE_MutableReference | TE_Reference | TE_Value.

(** An edge: source, target, weight. *)
Definition Edge : Type := nat * nat * TypeGraphEdge.
Inductive Direction := Outgoing | Incoming.
#[export] Instance Direction_eq_dec : EqDecision Direction.
Proof. solve_decision. Defined.

(** The end of an edge at the node it is looked up from, and the other one. *)
Definition near (d : Direction) (e : Edge) : nat :=
  match d with Outgoing => e.1.1 | Incoming => e.1.2 end.
Definition far (d : Direction) (e : Edge) : nat :=
  match d with Outgoing => e.1.2 | Incoming => e.1.1 end.

(** [edges_directed] returns the weights of the nodes at the other end; the
    order of edges is left open. Indices are bounded by [graph_limit]. *)
Class PetGraph (G : Type) := {
  graph_new : G;
  add_node : TypeGraphNode → G → panics (G * nat);
  add_edge : nat → nat → TypeGraphEdge → G → panics G;
  edges_directed : G → Direction → nat → list TypeGraphNode;
  graph_limit : N;
  g_nodes : G → list TypeGraphNode;
  g_edges : G → list Edge;
  graph_new_spec : g_nodes graph_new = [] ∧ g_edges graph_new = [];
  add_node_spec n g :
    (N.of_nat (length (g_nodes g)) < graph_limit)%N →
    ∃ g', add_node n g = Ret (g', length (g_nodes g)) ∧
      g_nodes g' = g_nodes g ++ [n] ∧ g_edges g' = g_edges g;
  add_edge_spec a b w g :
    (N.of_nat (length (g_edges g)) < graph_limit)%N →
    a < length (g_nodes g) → b < length (g_nodes g) →
    ∃ g', add_edge a b w g = Ret g' ∧
      g_nodes g' = g_nodes g ∧ g_edges g' = g_edges g ++ [(a, b, w)];
  edges_directed_spec g d n :
    edges_directed g d n ≡ₚ
      omap (λ e, if decide (near d e = n) then g_nodes g !! far d e else None) (g_edges g);
}.

Record MoveTypeGraph (G : Type) := MkTypeGraph {
  tg_graph : G;
  tg_tys : list (TypeGraphNode * nat);
  tg_modules : gset MoveModuleId }.
Arguments MkTypeGraph {G} _ _ _.
Arguments tg_graph {G} _.
Arguments tg_tys {G} _.
Arguments tg_modules {G} _.

Definition producer_allowed (module_id : MoveModuleId) (function : MoveFunctionAbi) : bool :=
  let addr := module_address module_id in
  let module := module_name module_id in
  let name := fa_name function in
  let is_stdlib := bool_decide (addr = addr_one) in
  let is_sui := bool_decide (addr = addr_two) in
  let is_other_sui_std := is_sui_std addr && negb is_stdlib && negb is_sui in
  if negb is_stdlib && negb is_sui && negb is_other_sui_std then true else
  bool_decide (addr = addr_two) && bool_decide (module = "coin") && bool_decide (name = "into_balance")
  || bool_decide (addr = addr_one) && bool_decide (module = "ascii") && bool_decide (name = "string")
  || bool_decide (addr = addr_one) && bool_decide (module = "string") && bool_decide (name = "utf8")
  || bool_decide (addr = addr_one) && bool_decide (module = "uq32_32")
     && bool_decide (name = "from_quotient")
  || bool_decide (addr = addr_one) && bool_decide (module = "uq64_64")
     && bool_decide (name = "from_quotient").

Section type_graph.
Context `{PG : PetGraph G}.
Abbreviation TG := (MoveTypeGraph G).

Definition type_graph_new : TG := MkTypeGraph graph_new [] ∅.

Definition tys_get (node : TypeGraphNode) (tys : list (TypeGraphNode * nat)) : option nat :=
  snd <$> find (λ x, bool_decide (x.1 = node)) tys.

Definition may_add_ty (ty : MoveAbiSignatureToken) (g : TG) : panics (TG * nat) :=
  let node := TG_Type ty in
  match tys_get node (tg_tys g) with
  | Some idx => Ret (g, idx)
  | None =>
      '(graph, idx) ← add_node node (tg_graph g);
      Ret (MkTypeGraph graph (tg_tys g ++ [(node, idx)]) (tg_modules g), idx)
  end.

Definition set_graph (graph : G) (g : TG) : TG := MkTypeGraph graph (tg_tys g) (tg_modules g).

Definition param_edge (param : MoveAbiSignatureToken) : MoveAbiSignatureToken * TypeGraphEdge :=
  match param with
  | Tok_Reference v => (v, TE_Reference)
  | Tok_MutableReference v => (v, TE_MutableReference)
  | _ => (param, TE_Value)
  end.

Fixpoint add_params (fidx : nat) (params : list MoveAbiSignatureToken) (g : TG) : panics TG :=
  match params with
  | [] => Ret g
  | param :: params =>
      let '(ty, edge) := param_edge param in
      '(g, ty_node_idx) ← may_add_ty ty g;
      graph ← add_edge ty_node_idx fidx edge (tg_graph g);
      add_params fidx params (set_graph graph g)
  end.

Fixpoint add_returns (fidx : nat) (rts : list MoveAbiSignatureToken) (g : TG) : panics TG :=
  match rts with
  | [] => Ret g
  | rt :: rts =>
      let ty := match dereference rt with Some deref => deref | None => rt end in
      '(g, node_idx) ← may_add_ty ty g;
      graph ← add_edge fidx node_idx TE_FunctionReturn (tg_graph g);
      add_returns fidx rts (set_graph graph g)
  end.

Definition add_function (function : MoveFunctionAbi) (module_id : MoveModuleId) (g : TG) :
    panics TG :=
  '(graph, fidx) ← add_node (TG_Function module_id function) (tg_graph g);
  g ← add_params fidx (fa_parameters function) (set_graph graph g);
  add_returns fidx (fa_return_paramters function) g.

Fixpoint add_functions (functions : list MoveFunctionAbi) (module_id : MoveModuleId) (g : TG) :
    panics TG :=
  match functions with
  | [] => Ret g
  | func :: functions => g ← add_function func module_id g; add_functions functions module_id g
  end.

Definition add_module (module : MoveModuleAbi) (g : TG) : panics TG :=
  if decide (ma_module_id module ∈ tg_modules g) then Ret g else
  add_functions (ma_functions module) (ma_module_id module)
    (MkTypeGraph (tg_graph g) (tg_tys g) ({[ma_module_id module]} ∪ tg_modules g)).

Fixpoint add_modules (modules : list MoveModuleAbi) (g : TG) : panics TG :=
  match modules with
  | [] => Ret g
  | module :: modules => g ← add_module module g; add_modules modules g
  end.

Definition add_package (abi : MovePackageAbi) : TG → panics TG := add_modules (pa_modules abi).

Fixpoint add_packages (abis : list MovePackageAbi) (g : TG) : panics TG :=
  match abis with
  | [] => Ret g
  | abi :: abis => g ← add_package abi g; add_packages abis g
  end.

(** The loop of both queries: the functions kept by [keep] at the other end of
    the edges of every type that unifies with [ty]. *)
Definition unifies (ty t : MoveAbiSignatureToken) : bool :=
  match partial_extract_ty_args t ty with Some _ => true | None => false end.

Definition keep_function (keep : MoveModuleId → MoveFunctionAbi → bool) (n : TypeGraphNode) :
    option (MoveModuleId * MoveFunctionAbi) :=
  match n with
  | TG_Function m f => if keep m f then Some (m, f) else None
  | TG_Type _ => None
  end.

Definition scan (g : TG) (d : Direction) (ty : MoveAbiSignatureToken)
    (keep : MoveModuleId → MoveFunctionAbi → bool) : list (MoveModuleId * MoveFunctionAbi) :=
  flat_map (λ '(graph_ty, node),
    match graph_ty with
    | TG_Type t =>
        if unifies ty t then omap (keep_function keep) (edges_directed (tg_graph g) d node) else []
    | TG_Function _ _ => []
    end) (tg_tys g).

Definition visible (public_only : bool) (f : MoveFunctionAbi) : bool :=
  negb (public_only && negb (bool_decide (fa_visibility f = Public))).

Definition find_consumers (g : TG) (ty : MoveAbiSignatureToken) (public_only : bool) :
    list (MoveModuleId * MoveFunctionAbi) :=
  scan g Outgoing ty (λ _ f, visible public_only f).

Definition is_excluded (excluded : option (MoveAddress * string * string)) (m : MoveModuleId)
    (f : MoveFunctionAbi) : bool :=
  match excluded with
  | Some (excluded_addr, excluded_module, excluded_name) =>
      bool_decide (module_address m = excluded_addr)
      && bool_decide (module_name m = excluded_module) && bool_decide (fa_name f = excluded_name)
  | None => false
  end.

Definition find_producers (g : TG) (ty : MoveAbiSignatureToken) (public_only : bool)
    (excluded : option (MoveAddress * string * string)) : list (MoveModuleId * MoveFunctionAbi) :=
  let ty := match dereference ty with Some inner => inner | None => ty end in
  scan g Incoming ty (λ m f,
    visible public_only f && negb (is_excluded excluded m f) && producer_allowed m f).

(** ** The edges as pairs of a type and a function *)
Abbreviation nodes g := (g_nodes (tg_graph g)).
Abbreviation edges g := (g_edges (tg_graph g)).

Definition edge_view (ns : list TypeGraphNode) (d : Direction) (e : Edge) :
    option (MoveAbiSignatureToken * (MoveModuleId * MoveFunctionAbi)) :=
  match ns !! near d e, ns !! far d e with
  | Some (TG_Type t), Some (TG_Function m f) => Some (t, (m, f))
  | _, _ => None
  end.
Definition view (d : Direction) (g : TG) := omap (edge_view (nodes g) d) (edges g).

Record wf (g : TG) : Prop := {
  wf_tys n i : (n, i) ∈ tg_tys g → nodes g !! i = Some n ∧ ∃ t, n = TG_Type t;
  wf_unique : NoDup (tg_tys g).*2;
  wf_complete t i : nodes g !! i = Some (TG_Type t) → (TG_Type t, i) ∈ tg_tys g;
  wf_edges e d : e ∈ edges g → near d e < length (nodes g) }.

Lemma omap_unique {A C} (h : A * nat → option C) (l : list (A * nat)) n i :
  NoDup l.*2 → (n, i) ∈ l → (∀ x, x.2 ≠ i → h x = None) →
  omap h l = option_list (h (n, i)).
Proof.
  intros Hnd Hin Hh.
  assert (Hnone : ∀ k : list (A * nat), i ∉ k.*2 → omap h k = []).
  { induction k as [|y k IH]; [done|]. csimpl. rewrite not_elem_of_cons. intros [Hy Hk].
    rewrite (Hh y) by congruence. by apply IH. }
  induction l as [|y l IH]; [set_solver|]. csimpl in *. apply NoDup_cons in Hnd as [Hy Hnd].
  apply elem_of_cons in Hin as [<-|Hin].
  - rewrite (Hnone l Hy). by destruct (h (n, i)).
  - rewrite (Hh y); [by apply IH|]. intros <-. apply Hy. apply list_elem_of_fmap. by exists (n, y.2).
Qed.

Definition keep_view (ty : MoveAbiSignatureToken) (keep : MoveModuleId → MoveFunctionAbi → bool)
    (x : MoveAbiSignatureToken * (MoveModuleId * MoveFunctionAbi)) :=
  if unifies ty x.1 && keep x.2.1 x.2.2 then Some x.2 else None.

(** What the loop of a query finds at one entry of [tys] along one edge. *)
Definition hit (g : TG) (d : Direction) (ty : MoveAbiSignatureToken)
    (keep : MoveModuleId → MoveFunctionAbi → bool) (x : TypeGraphNode * nat) (e : Edge) :=
  match x.1 with
  | TG_Type t =>
      if unifies ty t then
        (if decide (near d e = x.2) then nodes g !! far d e else None) ≫= keep_function keep
      else None
  | TG_Function _ _ => None
  end.

Lemma hit_edge g d ty keep e : wf g → e ∈ edges g →
  omap (λ x, hit g d ty keep x e) (tg_tys g) = option_list (edge_view (nodes g) d e ≫= keep_view ty keep).
Proof.
  intros Hg He. unfold edge_view, keep_view.
  destruct (nodes g !! near d e) as [[m f|t]|] eqn:Hn.
  - apply omap_none. intros [n i] Hx. unfold hit. csimpl.
    destruct n as [|t]; [done|]. destruct (unifies ty t); [|done].
    destruct (decide (near d e = i)) as [<-|]; [|done].
    apply (wf_tys g Hg) in Hx as [Hx _]. congruence.
  - rewrite (omap_unique _ _ (TG_Type t) (near d e)).
    + unfold hit. csimpl. rewrite decide_True by done.
      destruct (nodes g !! far d e) as [[m f|]|]; csimpl; destruct (unifies ty t); csimpl; try done;
        by destruct (keep m f).
    + apply wf_unique, Hg.
    + by apply wf_complete.
    + intros [n i] Hi. unfold hit. csimpl. rewrite decide_False by (csimpl in Hi; congruence).
      destruct n as [|t']; [done|]. by destruct (unifies ty t').
  - apply (wf_edges g Hg e d) in He. apply lookup_ge_None in Hn. lia.
Qed.

Lemma scan_view g d ty keep : wf g →
  scan g d ty keep ≡ₚ omap (keep_view ty keep) (view d g).
Proof.
  intros Hg. unfold scan, view.
  trans (flat_map (λ x, omap (hit g d ty keep x) (edges g)) (tg_tys g)).
  - apply flat_map_perm. intros [[m f|t] i] _; unfold hit; csimpl.
    + by rewrite omap_none.
    + destruct (unifies ty t); [|by rewrite omap_none].
      rewrite edges_directed_spec, omap_omap. done.
  - rewrite flat_map_omap_swap, omap_omap. erewrite flat_map_option_list; [done|].
    intros e. by apply hit_edge.
Qed.

(** ** Building the graph *)
Definition room (g : TG) (n : nat) : Prop :=
  (N.of_nat (length (nodes g) + n) ≤ graph_limit)%N ∧
  (N.of_nat (length (edges g) + n) ≤ graph_limit)%N.

(** [g'] extends [g] by the pairs [xs] and at most [n] nodes and edges. *)
Definition grows (g g' : TG)
    (xs : Direction → list (MoveAbiSignatureToken * (MoveModuleId * MoveFunctionAbi))) (n : nat) : Prop :=
  wf g' ∧ (∃ k, nodes g' = nodes g ++ k ∧ length k ≤ n) ∧
  length (edges g') ≤ length (edges g) + n ∧ ∀ d, view d g' = view d g ++ xs d.

Lemma grows_refl g : wf g → grows g g (λ _, []) 0.
Proof.
  intros Hg. split_and!; [done|exists []; by rewrite app_nil_r|lia|].
  intros d. by rewrite app_nil_r.
Qed.

Lemma grows_trans g1 g2 g3 xs ys n m :
  grows g1 g2 xs n → grows g2 g3 ys m → grows g1 g3 (λ d, xs d ++ ys d) (n + m).
Proof.
  intros (_ & (k & Hk & Hkn) & He & Hv) (Hw & (l & Hl & Hlm) & He' & Hv'). split_and!.
  - done.
  - exists (k ++ l). by rewrite Hl, Hk, app_assoc, length_app; split; [|lia].
  - lia.
  - intros d. by rewrite Hv', Hv, app_assoc.
Qed.

Lemma room_grows g g' xs n m : room g (n + m) → grows g g' xs n → room g' m.
Proof.
  intros [Hn He] (_ & (k & Hk & Hkn) & He' & _). unfold room.
  rewrite Hk, length_app. split; lia.
Qed.

Lemma grows_lookup g g' xs n i x : grows g g' xs n → nodes g !! i = Some x → nodes g' !! i = Some x.
Proof. intros (_ & (k & Hk & _) & _) H. rewrite Hk. by apply lookup_app_l_Some. Qed.

Lemma view_app g k d : wf g → omap (edge_view (nodes g ++ k) d) (edges g) = view d g.
Proof.
  intros Hg. unfold view. pose proof (wf_edges g Hg) as He. revert He.
  generalize (edges g) as E. induction E as [|e E IH]; intros He; [done|]. csimpl.
  rewrite IH by (intros ???; apply He; by right).
  assert (Hl : ∀ i, i < length (nodes g) → (nodes g ++ k) !! i = nodes g !! i)
    by (intros; by apply lookup_app_l).
  unfold edge_view. rewrite !Hl; [done|..].
  - destruct d; [apply (He e Incoming)|apply (He e Outgoing)]; by left.
  - by apply He; left.
Qed.

(** A node that [tys] need not know: a function, or a type entered with it. *)
Lemma wf_add_node g n graph tys :
  wf g → g_nodes graph = nodes g ++ [n] → g_edges graph = edges g →
  tys = tg_tys g ++ match n with TG_Type _ => [(n, length (nodes g))] | _ => [] end →
  grows g (MkTypeGraph graph tys (tg_modules g)) (λ _, []) 1.
Proof.
  intros Hg Hn He ->. split_and!; csimpl.
  - constructor; csimpl; rewrite ?Hn, ?He.
    + intros x i [Hx|Hx]%elem_of_app.
      * apply (wf_tys g Hg) in Hx as [Hx Ht]. by rewrite (lookup_app_l_Some _ _ _ _ Hx).
      * destruct n as [|t]; [set_solver|]. apply list_elem_of_singleton in Hx as [= -> ->].
        rewrite lookup_app_r, Nat.sub_diag by lia. split; [done|eauto].
    + rewrite fmap_app. apply NoDup_app. split_and!; [apply Hg| |by destruct n; constructor; (set_solver || constructor)].
      intros i ([x i'] & -> & Hx)%list_elem_of_fmap Hi. apply (wf_tys g Hg) in Hx as [Hx _].
      apply lookup_lt_Some in Hx. destruct n; csimpl in Hi; [set_solver|].
      apply list_elem_of_singleton in Hi. csimpl in *. lia.
    + intros t i [Hi|[Hi Hx]]%lookup_app_Some; apply elem_of_app.
      * left. by apply wf_complete.
      * right. apply list_lookup_singleton_Some in Hx as [Hi0 ->].
        apply list_elem_of_singleton. f_equal. lia.
    + intros e d Hd. rewrite length_app. pose proof (wf_edges g Hg e d Hd). lia.
  - exists [n]. by rewrite Hn.
  - rewrite He. lia.
  - intros d. unfold view. csimpl. by rewrite Hn, He, view_app, app_nil_r.
Qed.

(** An edge between a type and a function adds the pair in its direction. *)
Lemma connect_ok g d a b w ty m f : wf g → (N.of_nat (length (edges g)) < graph_limit)%N →
  nodes g !! near d (a, b, w) = Some (TG_Type ty) →
  nodes g !! far d (a, b, w) = Some (TG_Function m f) →
  ∃ graph, add_edge a b w (tg_graph g) = Ret graph ∧
    wf (set_graph graph g) ∧ g_nodes graph = nodes g ∧
    length (g_edges graph) = S (length (edges g)) ∧
    ∀ d', view d' (set_graph graph g) =
      view d' g ++ if decide (d' = d) then [(ty, (m, f))] else [].
Proof.
  intros Hg Hl Ht Hf.
  assert (a < length (nodes g) ∧ b < length (nodes g)) as [Ha Hb].
  { apply lookup_lt_Some in Ht, Hf. by destruct d. }
  destruct (add_edge_spec a b w (tg_graph g) Hl Ha Hb) as (graph & Hadd & Hn & He).
  exists graph. split; [done|]. unfold set_graph, view. csimpl. rewrite Hn, He. split_and!.
  - destruct Hg as [Hg1 Hg2 Hg3 Hg4].
    constructor; csimpl; rewrite ?Hn, ?He; [done..|].
    intros e d' [Hin|Hin]%elem_of_app; [by apply Hg4|].
    apply list_elem_of_singleton in Hin as ->. by destruct d'.
  - done.
  - rewrite length_app. csimpl. lia.
  - intros d'. rewrite omap_app. f_equal. csimpl. unfold edge_view.
    destruct (decide (d' = d)) as [->|Hd].
    + by rewrite Ht, Hf.
    + assert (near d' (a, b, w) = far d (a, b, w)) as -> by (by destruct d, d'). by rewrite Hf.
Qed.

Lemma tys_get_Some node g i : wf g → tys_get node (tg_tys g) = Some i → nodes g !! i = Some node.
Proof.
  intros Hg. unfold tys_get. destruct (find _ _) as [[x j]|] eqn:Hf; [|done]. intros [= ->].
  apply find_some in Hf as [Hin Hd]. csimpl in Hd. apply bool_decide_eq_true in Hd as ->.
  apply list_elem_of_In in Hin. by apply (wf_tys g Hg) in Hin as [Hin _].
Qed.

Lemma may_add_ty_ok ty g : wf g → room g 1 →
  ∃ g' i, may_add_ty ty g = Ret (g', i) ∧ grows g g' (λ _, []) 1 ∧
    edges g' = edges g ∧ nodes g' !! i = Some (TG_Type ty) ∧ tg_modules g' = tg_modules g.
Proof.
  intros Hg [Hn _]. unfold may_add_ty. destruct (tys_get (TG_Type ty) (tg_tys g)) as [i|] eqn:Hi.
  - exists g, i. split_and!; try done; [|by apply tys_get_Some].
    destruct (grows_refl g Hg) as (? & (k & Hk & ?) & ? & ?). split_and!; [done| |lia|done].
    exists k. split; [done|lia].
  - destruct (add_node_spec (TG_Type ty) (tg_graph g)) as (graph & -> & Hgn & Hge); [lia|].
    csimpl. do 2 eexists. split_and!; [done|by apply (wf_add_node g (TG_Type ty))|done| |done].
    csimpl. by rewrite Hgn, lookup_app_r, Nat.sub_diag by lia.
Qed.

(** The type a parameter or return is filed under. *)
Definition base_type (t : MoveAbiSignatureToken) : MoveAbiSignatureToken :=
  match dereference t with Some v => v | None => t end.

(** Entering a type and an edge to or from a function. *)
Lemma enter_ok g d ty m f fidx (mk : nat → Edge) : wf g → room g 1 →
  nodes g !! fidx = Some (TG_Function m f) →
  (∀ i, near d (mk i) = i ∧ far d (mk i) = fidx) →
  ∃ g1 i graph, may_add_ty ty g = Ret (g1, i) ∧
    add_edge (mk i).1.1 (mk i).1.2 (mk i).2 (tg_graph g1) = Ret graph ∧
    grows g (set_graph graph g1) (λ d', if decide (d' = d) then [(ty, (m, f))] else []) 1 ∧
    tg_modules g1 = tg_modules g.
Proof.
  intros Hg Hr Hf Hmk. destruct (may_add_ty_ok ty g Hg Hr) as (g1 & i & E & Hgr & He & Hi & Hm).
  destruct (Hmk i) as [Hnear Hfar]. destruct (mk i) as [[a b] w] eqn:Hmki.
  destruct (connect_ok g1 d a b w ty m f) as (graph & Hadd & Hw & Hn & Hlen & Hv).
  - apply Hgr.
  - rewrite He. destruct Hr. lia.
  - by rewrite Hnear.
  - rewrite Hfar. by eapply grows_lookup.
  - exists g1, i, graph. rewrite Hmki. split_and!; [done|done| |done].
    destruct Hgr as (_ & (k & Hk & Hkn) & _ & Hv1). split_and!; [done| | |].
    + exists k. by rewrite <-Hk.
    + csimpl. rewrite Hlen, He. lia.
    + intros d'. by rewrite Hv, Hv1, app_nil_r.
Qed.

(** Both loops of [add_function]. *)
Fixpoint enter_all (mk : MoveAbiSignatureToken → nat → Edge) (l : list MoveAbiSignatureToken)
    (g : TG) : panics TG :=
  match l with
  | [] => Ret g
  | t :: l =>
      '(g, i) ← may_add_ty (base_type t) g;
      graph ← add_edge (mk t i).1.1 (mk t i).1.2 (mk t i).2 (tg_graph g);
      enter_all mk l (set_graph graph g)
  end.

Lemma add_params_enter fidx l g :
  add_params fidx l g = enter_all (λ t i, (i, fidx, (param_edge t).2)) l g.
Proof.
  revert g. induction l as [|t l IH]; intros g; [done|]. csimpl.
  assert (param_edge t = (base_type t, (param_edge t).2)) as E by (by destruct t).
  rewrite E at 1. destruct (may_add_ty (base_type t) g) as [[g1 i]|]; [|done]. csimpl.
  by destruct (add_edge _ _ _ _); csimpl; rewrite ?IH.
Qed.

Lemma add_returns_enter fidx l g :
  add_returns fidx l g = enter_all (λ _ i, (fidx, i, TE_FunctionReturn)) l g.
Proof.
  revert g. induction l as [|t l IH]; intros g; [done|]. csimpl. unfold base_type.
  destruct (may_add_ty _ g) as [[g1 i]|]; [|done]. csimpl.
  by destruct (add_edge _ _ _ _); csimpl; rewrite ?IH.
Qed.

(** The pairs a list of types gives a function in direction [d]. *)
Definition pairs (d : Direction) (l : list MoveAbiSignatureToken) m f (d' : Direction) :
    list (MoveAbiSignatureToken * (MoveModuleId * MoveFunctionAbi)) :=
  if decide (d' = d) then map (λ t, (base_type t, (m, f))) l else [].

Lemma grows_ext g g' xs ys n : (∀ d, xs d = ys d) → grows g g' xs n → grows g g' ys n.
Proof.
  intros He (Hw & Hk & Hl & Hv). split_and!; [done..|]. intros d. by rewrite Hv, He.
Qed.

Lemma enter_all_ok d m f fidx mk l g :
  (∀ t i, near d (mk t i) = i ∧ far d (mk t i) = fidx) →
  wf g → room g (length l) → nodes g !! fidx = Some (TG_Function m f) →
  ∃ g', enter_all mk l g = Ret g' ∧ grows g g' (pairs d l m f) (length l) ∧
    tg_modules g' = tg_modules g.
Proof.
  intros Hmk. revert g. induction l as [|t l IH]; intros g Hg Hr Hf; csimpl.
  - exists g. split_and!; [done| |done]. eapply grows_ext; [|by apply grows_refl].
    intros d'. unfold pairs. by case_decide.
  - assert (Hr1 : room g 1) by (destruct Hr; csimpl in *; split; lia).
    destruct (enter_ok g d (base_type t) m f fidx (mk t) Hg Hr1 Hf (Hmk t))
      as (g1 & i & graph & -> & Hadd & Hgr & Hm). csimpl. rewrite Hadd. csimpl.
    destruct (IH (set_graph graph g1)) as (g' & -> & Hgr' & Hm').
    + apply Hgr.
    + exact (room_grows g _ _ 1 (length l) Hr Hgr).
    + by eapply grows_lookup.
    + exists g'. split_and!; [done| |by rewrite Hm'].
      eapply grows_ext; [|exact (grows_trans _ _ _ _ _ _ _ Hgr Hgr')].
      intros d'. unfold pairs. by case_decide.
Qed.

(** Nodes and edges a function may need. *)
Definition function_size (f : MoveFunctionAbi) : nat :=
  S (length (fa_parameters f) + length (fa_return_paramters f)).

Definition function_pairs (m : MoveModuleId) (f : MoveFunctionAbi) (d : Direction) :=
  pairs Outgoing (fa_parameters f) m f d ++ pairs Incoming (fa_return_paramters f) m f d.

Lemma add_function_ok f m g : wf g → room g (function_size f) →
  ∃ g', add_function f m g = Ret g' ∧ grows g g' (function_pairs m f) (function_size f) ∧
    tg_modules g' = tg_modules g.
Proof.
  intros Hg Hr. unfold add_function.
  destruct (add_node_spec (TG_Function m f) (tg_graph g)) as (graph & -> & Hn & He).
  { destruct Hr. unfold function_size in *. lia. }
  csimpl. assert (grows g (set_graph graph g) (λ _, []) 1) as Hgr.
  { apply (wf_add_node g (TG_Function m f)); try done. csimpl. by rewrite app_nil_r. }
  assert (nodes (set_graph graph g) !! length (nodes g) = Some (TG_Function m f)) as Hf.
  { csimpl. by rewrite Hn, lookup_app_r, Nat.sub_diag by lia. }
  assert (Hr1 := room_grows _ _ _ 1 (length (fa_parameters f) + length (fa_return_paramters f)) Hr Hgr). rewrite add_params_enter.
  destruct (enter_all_ok Outgoing m f (length (nodes g))
    (λ t i, (i, length (nodes g), (param_edge t).2)) (fa_parameters f) (set_graph graph g))
    as (g2 & -> & Hgr2 & Hm2); [done|apply Hgr|destruct Hr1; split; lia|done|].
  csimpl. rewrite add_returns_enter.
  destruct (enter_all_ok Incoming m f (length (nodes g))
    (λ _ i, (length (nodes g), i, TE_FunctionReturn)) (fa_return_paramters f) g2)
    as (g3 & -> & Hgr3 & Hm3); [done|apply Hgr2|by apply (room_grows _ _ _ _ _ Hr1 Hgr2)
    |by eapply grows_lookup|].
  exists g3. split_and!; [done| |by rewrite Hm3, Hm2].
  exact (grows_trans _ _ _ _ _ _ _ Hgr (grows_trans _ _ _ _ _ _ _ Hgr2 Hgr3)).
Qed.

(** ** The reference: a scan of all functions *)

(** The functions of the modules, the first module of each id. *)
Fixpoint analysed (seen : gset MoveModuleId) (modules : list MoveModuleAbi) :
    list (MoveModuleId * MoveFunctionAbi) :=
  match modules with
  | [] => []
  | m :: ms =>
      if decide (ma_module_id m ∈ seen) then analysed seen ms
      else map (pair (ma_module_id m)) (ma_functions m) ++ analysed ({[ma_module_id m]} ∪ seen) ms
  end.
Definition package_functions (pkgs : list MovePackageAbi) : list (MoveModuleId * MoveFunctionAbi) :=
  analysed ∅ (flat_map pa_modules pkgs).

Definition all_pairs (fs : list (MoveModuleId * MoveFunctionAbi)) (d : Direction) :=
  flat_map (λ x, function_pairs x.1 x.2 d) fs.
Definition all_size (fs : list (MoveModuleId * MoveFunctionAbi)) : nat :=
  sum_list_with (λ x, function_size x.2) fs.

(** The functions kept by [keep], once for each type of theirs that unifies. *)
Definition matching (ty : MoveAbiSignatureToken) (types : MoveFunctionAbi → list MoveAbiSignatureToken)
    (keep : MoveModuleId → MoveFunctionAbi → bool) (fs : list (MoveModuleId * MoveFunctionAbi)) :=
  flat_map (λ x, omap (λ t, if unifies ty (base_type t) && keep x.1 x.2 then Some x else None)
    (types x.2)) fs.

Lemma add_functions_ok fs m g : wf g → room g (all_size (map (pair m) fs)) →
  ∃ g', add_functions fs m g = Ret g' ∧
    grows g g' (all_pairs (map (pair m) fs)) (all_size (map (pair m) fs)) ∧
    tg_modules g' = tg_modules g.
Proof.
  revert g. induction fs as [|f fs IH]; intros g Hg Hr.
  - exists g. split_and!; [done|by apply grows_refl|done].
  - change (room g (function_size f + all_size (map (pair m) fs))) in Hr.
    destruct (add_function_ok f m g Hg) as (g1 & E & Hgr & Hm).
    { destruct Hr. split; lia. }
    csimpl. rewrite E. csimpl.
    destruct (IH g1) as (g' & -> & Hgr' & Hm'); [apply Hgr|by apply (room_grows g _ _ _ _ Hr Hgr)|].
    exists g'. split_and!; [done| |by rewrite Hm'].
    exact (grows_trans _ _ _ _ _ _ _ Hgr Hgr').
Qed.

Lemma all_pairs_app l k d : all_pairs (l ++ k) d = all_pairs l d ++ all_pairs k d.
Proof. apply flat_map_app. Qed.

Lemma add_modules_ok ms g : wf g → room g (all_size (analysed (tg_modules g) ms)) →
  ∃ g', add_modules ms g = Ret g' ∧
    grows g g' (all_pairs (analysed (tg_modules g) ms)) (all_size (analysed (tg_modules g) ms)).
Proof.
  revert g. induction ms as [|m ms IH]; intros g Hg Hr.
  - exists g. split; [done|by apply grows_refl].
  - csimpl in *. unfold add_module. case_decide as Hseen; [by apply IH|].
    unfold all_size in Hr. rewrite sum_list_with_app in Hr.
    set (g0 := MkTypeGraph _ _ _).
    assert (Hg0 : wf g0) by (destruct Hg; by constructor).
    destruct (add_functions_ok (ma_functions m) (ma_module_id m) g0 Hg0) as (g1 & E & Hgr & Hm).
    { destruct Hr. unfold all_size. split; subst g0; cbn [tg_graph]; lia. }
    csimpl. rewrite E. csimpl. csimpl in Hm.
    destruct (IH g1) as (g' & -> & Hgr'); [apply Hgr| |].
    { rewrite Hm. by apply (room_grows g0 _ _ _ _ Hr Hgr). }
    exists g'. split; [done|]. rewrite Hm in Hgr'.
    eapply grows_ext; [|unfold all_size; rewrite sum_list_with_app;
      exact (grows_trans g g1 g' _ _ _ _ Hgr Hgr')].
    intros d. by rewrite all_pairs_app.
Qed.

Lemma add_modules_app ms ks g :
  add_modules (ms ++ ks) g = g' ← add_modules ms g; add_modules ks g'.
Proof.
  revert g. induction ms as [|m ms IH]; intros g; [done|]. csimpl.
  destruct (add_module m g); [|done]. apply IH.
Qed.

Lemma add_packages_modules pkgs g : add_packages pkgs g = add_modules (flat_map pa_modules pkgs) g.
Proof.
  revert g. induction pkgs as [|p pkgs IH]; intros g; [done|]. csimpl. rewrite add_modules_app.
  unfold add_package. by destruct (add_modules (pa_modules p) g); csimpl.
Qed.

Lemma type_graph_new_wf : wf type_graph_new.
Proof.
  destruct graph_new_spec as [Hn He]. constructor; csimpl; rewrite ?Hn, ?He; try set_solver.
  constructor.
Qed.

Lemma omap_pairs ty keep m f (ts : list MoveAbiSignatureToken) :
  omap (keep_view ty keep) (map (λ t, (base_type t, (m, f))) ts) =
  omap (λ t, if unifies ty (base_type t) && keep m f then Some (m, f) else None) ts.
Proof.
  induction ts as [|t ts IH]; [done|]. csimpl. unfold keep_view at 1. csimpl. by rewrite IH.
Qed.

Lemma omap_all_pairs ty keep d fs :
  omap (keep_view ty keep) (all_pairs fs d) =
  matching ty (match d with Outgoing => fa_parameters | Incoming => fa_return_paramters end) keep fs.
Proof.
  induction fs as [|[m f] fs IH]; [done|]. csimpl. rewrite omap_app, IH. f_equal.
  unfold function_pairs, pairs. destruct d; csimpl; rewrite ?app_nil_r; by rewrite omap_pairs.
Qed.

(** C33: the graph answers queries like a scan of all functions: building it
    from packages succeeds as long as its size fits the index type, a module
    is analysed once however often it occurs, and then the consumers
    (producers) of a type are exactly the functions with a parameter (return)
    that unifies with it up to one reference, once for each such parameter,
    that are visible - and, for producers, neither the excluded function nor
    a standard library function outside the allow list. *)
Theorem type_graph_queries pkgs :
  (N.of_nat (all_size (package_functions pkgs)) ≤ graph_limit)%N →
  ∃ g, add_packages pkgs type_graph_new = Ret g ∧
    (∀ ty public_only, find_consumers g ty public_only ≡ₚ
      matching ty fa_parameters (λ _ f, visible public_only f) (package_functions pkgs)) ∧
    (∀ ty public_only excluded, find_producers g ty public_only excluded ≡ₚ
      matching (base_type ty) fa_return_paramters
        (λ m f, visible public_only f && negb (is_excluded excluded m f) && producer_allowed m f)
        (package_functions pkgs)).
Proof.
  intros Hsize. rewrite add_packages_modules. pose proof type_graph_new_wf as Hnew.
  destruct graph_new_spec as [Hn He].
  destruct (add_modules_ok (flat_map pa_modules pkgs) type_graph_new Hnew) as (g & -> & Hw & _ & _ & Hv).
  { split; csimpl; rewrite ?Hn, ?He; exact Hsize. }
  exists g. split_and!; [done|intros..]; unfold find_consumers, find_producers;
    rewrite scan_view by done; rewrite Hv; unfold view at 1; csimpl; rewrite He; csimpl;
    by rewrite omap_all_pairs.
Qed.

End type_graph.

(** ** Witness: a graph as two lists *)
Record ListGraph := MkListGraph { lg_nodes : list TypeGraphNode; lg_edges : list Edge }.

#[export, refine] Instance list_graph : PetGraph ListGraph := {
  graph_new := MkListGraph [] [];
  add_node n g := Ret (MkListGraph (lg_nodes g ++ [n]) (lg_edges g), length (lg_nodes g));
  add_edge a b w g :=
    if decide (a < length (lg_nodes g) ∧ b < length (lg_nodes g))
    then Ret (MkListGraph (lg_nodes g) (lg_edges g ++ [(a, b, w)])) else Panic;
  edges_directed g d n :=
    omap (λ e, if decide (near d e = n) then lg_nodes g !! far d e else None) (reverse (lg_edges g));
  graph_limit := 4294967295%N;
  g_nodes := lg_nodes;
  g_edges := lg_edges;
}.
Proof.
  - done.
  - intros n g _. by eexists.
  - intros a b w g _ Ha Hb. rewrite decide_True by done. by eexists.
  - intros g d n. by rewrite reverse_Permutation.
Defined.

Definition demo_coin_handle : MoveStructHandle :=
  MkStructHandle (MkModuleId addr_two "coin") "Coin" ability_KEY [].
Definition demo_mint : MoveFunctionAbi :=
  {| fa_name := "mint"; fa_parameters := [Tok_U64];
     fa_return_paramters := [Tok_Struct demo_coin_handle]; fa_type_parameters := [];
     fa_visibility := Public; fa_is_entry := false |}.
Definition demo_burn : MoveFunctionAbi :=
  {| fa_name := "burn"; fa_parameters := [Tok_MutableReference (Tok_Struct demo_coin_handle)];
     fa_return_paramters := []; fa_type_parameters := [];
     fa_visibility := Public; fa_is_entry := false |}.
Definition demo_coin_id : MoveModuleId := MkModuleId (MkMoveAddress 7) "coin".
Definition demo_package : MovePackageAbi :=
  {| pa_package_id := MkMoveAddress 7;
     pa_modules := [{| ma_module_id := demo_coin_id; ma_structs := [];
                       ma_functions := [demo_mint; demo_burn] |}] |}.

Lemma type_graph_queries_witness :
  ∃ g, add_packages (G := ListGraph) [demo_package] type_graph_new = Ret g ∧
    find_consumers g (Tok_Struct demo_coin_handle) true ≡ₚ [(demo_coin_id, demo_burn)] ∧
    find_producers g (Tok_Struct demo_coin_handle) true None ≡ₚ [(demo_coin_id, demo_mint)].
Proof.
  destruct (type_graph_queries (G := ListGraph) [demo_package]) as (g & Hg & Hc & Hp).
  { by vm_compute. }
  exists g. split_and!; [done| |].
  - rewrite Hc. reflexivity.
  - rewrite Hp. reflexivity.
Defined.
