(* ===== verification/Meta.v ===== *)
(** * Meta: the metadata of a fuzzing campaign

    [crates/movy-replay/src/meta.rs] (lookups and indices over the ABIs),
    [crates/movy-fuzz/src/meta.rs] (target selection, scores and hooks) and the
    naming conventions of test functions in [crates/movy-types/src/abi.rs]. *)
From S2P Require Import Prelude Types Abi TypeArgs TypeGraph.
From Stdlib Require Import Ascii.
From Stdlib Require String.
Local Open Scope string_scope.
Local Open Scope list_scope.

(** ** Names of test functions *)
Definition MOVY_INIT : string := "movy_init".
Definition MOVY_ORACLE : string := "movy_oracle".
Definition MOVY_PRE : string := "movy_pre".
Definition MOVY_POST : string := "movy_post".
Definition MOVY_SEQUENCE : string := "ptb".

(** [&s[n..]]: panics when [n] is beyond the end. *)
Fixpoint slice_from (n : nat) (s : string) : panics string :=
  match n, s with
  | 0, _ => Ret s
  | S n, String _ s => slice_from n s
  | S _, EmptyString => Panic
  end.

Definition is_movy_init (f : MoveFunctionAbi) : bool := bool_decide (fa_name f = MOVY_INIT).
Definition is_movy_oracle (f : MoveFunctionAbi) : bool := String.prefix MOVY_ORACLE (fa_name f).

Definition try_derive (prefix : string) (f : MoveFunctionAbi) : panics (option string) :=
  if String.prefix prefix (fa_name f)
  then s ← slice_from (String.length prefix + 1) (fa_name f); Ret (Some s)
  else Ret None.
Definition try_derive_movy_pre : MoveFunctionAbi → panics (option string) := try_derive MOVY_PRE.
Definition try_derive_movy_post : MoveFunctionAbi → panics (option string) := try_derive MOVY_POST.

Definition is_movy_pre_ptb (f : MoveFunctionAbi) : panics bool :=
  o ← try_derive_movy_pre f; Ret (bool_decide (o = Some MOVY_SEQUENCE)).
Definition is_movy_post_ptb (f : MoveFunctionAbi) : panics bool :=
  o ← try_derive_movy_post f; Ret (bool_decide (o = Some MOVY_SEQUENCE)).

Definition locate_movy_init (m : MoveModuleAbi) : option MoveFunctionAbi :=
  find is_movy_init (ma_functions m).
Definition movy_oracles (m : MoveModuleAbi) : list MoveFunctionAbi :=
  List.filter is_movy_oracle (ma_functions m).
Definition is_test_only_module (m : MoveModuleAbi) : bool :=
  existsb (λ v, bool_decide (fa_name v = "unit_test_poison")) (ma_functions m).

(** ** Orders *)
Definition address_le (a b : MoveAddress) : Prop := (addr_val a ≤ addr_val b)%N.
#[export] Instance address_le_dec : RelDecision address_le.
Proof. intros a b. unfold address_le. apply _. Defined.

(** The derived order: address, then module name, then function name. *)
Definition ident_le (f g : FunctionIdent) : Prop :=
  let a f := addr_val (module_address (fi_module f)) in
  let m f := module_name (fi_module f) in
  (a f < a g)%N ∨ a f = a g ∧
    ((m f ≠ m g ∧ String.le (m f) (m g)) ∨ m f = m g ∧ String.le (fi_name f) (fi_name g)).
#[export] Instance ident_le_dec : RelDecision ident_le.
Proof. intros f g. unfold ident_le. apply _. Defined.

(** [Vec::dedup]: drop consecutive repetitions. *)
Fixpoint dedup {A} `{EqDecision A} (l : list A) : list A :=
  match l with
  | [] => []
  | x :: l =>
      match dedup l with
      | y :: k => if decide (x = y) then y :: k else x :: y :: k
      | [] => [x]
      end
  end.
Definition sort_dedup {A} `{EqDecision A} (R : A → A → Prop) `{!RelDecision R} (l : list A) : list A :=
  dedup (merge_sort R l).

Lemma elem_of_dedup {A} `{EqDecision A} (l : list A) x : x ∈ dedup l ↔ x ∈ l.
Proof.
  induction l as [|y l IH]; [done|]. csimpl. rewrite elem_of_cons, <-IH.
  destruct (dedup l) as [|z k]; [set_solver|]. case_decide; set_solver.
Qed.

Lemma elem_of_sort_dedup {A} `{EqDecision A} (R : A → A → Prop) `{!RelDecision R} l x :
  x ∈ sort_dedup R l ↔ x ∈ l.
Proof. unfold sort_dedup. by rewrite elem_of_dedup, merge_sort_Permutation. Qed.

Lemma NoDup_dedup {A} `{EqDecision A} (R : A → A → Prop) `{!AntiSymm eq R} (l : list A) :
  StronglySorted R l → StronglySorted R (dedup l) ∧ NoDup (dedup l).
Proof.
  induction 1 as [|x l Hs [IH IHn] Hx]; [split; constructor|]. csimpl.
  assert (Forall (R x) (dedup l)) as Hd.
  { rewrite Forall_forall in *. intros y Hy. apply Hx. by apply elem_of_dedup. }
  destruct (dedup l) as [|z k] eqn:E; [split; [repeat constructor|apply NoDup_singleton]|].
  case_decide as Hz; [done|]. split; [by constructor|]. apply NoDup_cons. split; [|done].
  intros [->|Hin]%elem_of_cons; [done|]. apply Hz, (anti_symm R).
  - by apply Forall_cons in Hd as [? _].
  - apply StronglySorted_inv in IH as [_ IH]. rewrite Forall_forall in IH. by apply IH.
Qed.

(** Iteration over a [BTreeMap<MoveAddress, V>]. *)
Definition address_iter {V} (m : gmap MoveAddress V) : list (MoveAddress * V) :=
  map (λ x, (MkMoveAddress x.1, x.2)) (btree_iter (kmap addr_val m)).

#[export] Instance addr_val_inj : Inj (=) (=) addr_val.
Proof. by intros [x] [y] [= ->]. Qed.

Lemma elem_of_address_iter {V} (m : gmap MoveAddress V) a v :
  (a, v) ∈ address_iter m ↔ m !! a = Some v.
Proof.
  unfold address_iter. rewrite list_elem_of_fmap. split.
  - intros ([n w] & [= -> ->] & H%elem_of_btree_iter). csimpl.
    apply lookup_kmap_Some in H as ([n'] & -> & H); [done|apply _].
  - intros H. exists (addr_val a, v). split; [by destruct a|].
    apply elem_of_btree_iter. by rewrite lookup_kmap by apply _.
Qed.

(** ** Metadata of the packages on chain *)
Record Metadata (G : Type) := MkMetadata {
  md_type_graph : MoveTypeGraph G;
  md_abis : gmap MoveAddress MovePackageAbi;
  md_testing_abis : gmap MoveAddress MovePackageAbi;
  md_types_pool : gmap MoveTypeTag (gset MoveAddress);
  md_module_address_to_package : gmap MoveAddress MoveAddress;
  md_ability_to_type_tag : gmap N (list MoveTypeTag);
  md_function_name_to_idents : gmap string (list FunctionIdent);
  md_structs_mapping : gmap (MoveModuleId * string) MoveStructAbi }.
Arguments MkMetadata {G} _ _ _ _ _ _ _ _.
Arguments md_type_graph {G} _.
Arguments md_abis {G} _.
Arguments md_testing_abis {G} _.
Arguments md_types_pool {G} _.
Arguments md_module_address_to_package {G} _.
Arguments md_ability_to_type_tag {G} _.
Arguments md_function_name_to_idents {G} _.
Arguments md_structs_mapping {G} _.

Section metadata.
Context {G : Type}.
Implicit Types base : Metadata G.

Definition package_of base (package_id : MoveAddress) : MoveAddress :=
  default package_id (md_module_address_to_package base !! package_id).
Definition get_package_metadata base (package_id : MoveAddress) : option MovePackageAbi :=
  md_testing_abis base !! package_of base package_id.
Definition get_original_package_metadata base (package_id : MoveAddress) : option MovePackageAbi :=
  md_abis base !! package_of base package_id.

Definition get_module base (package_id : MoveAddress) (module : string) : option MoveModuleAbi :=
  pkg ← get_package_metadata base package_id;
  find (λ m, bool_decide (module_name (ma_module_id m) = module)) (pa_modules pkg).
Definition get_function base (package_id : MoveAddress) (module function : string) :
    option MoveFunctionAbi :=
  m ← get_module base package_id module;
  find (λ f, bool_decide (fa_name f = function)) (ma_functions m).
Definition get_struct base (package_id : MoveAddress) (module struct_name : string) :
    option MoveStructAbi :=
  m ← get_module base package_id module;
  find (λ s, bool_decide (sh_struct_name (sa_handle s) = struct_name)) (ma_structs m).
Definition get_enum base (package_id : MoveAddress) (module enum_name : string) :
    option MoveStructAbi := get_struct base package_id module enum_name.
Definition get_abilities base (package_id : MoveAddress) (module struct_name : string) :
    option MoveAbility :=
  match get_struct base package_id module struct_name with
  | Some s => Some (sh_abilities (sa_handle s))
  | None => (λ e, sh_abilities (sa_handle e)) <$> get_enum base package_id module struct_name
  end.

(** The functions of a map of packages, in iteration order. *)
Definition abi_functions (abis : gmap MoveAddress MovePackageAbi) :
    list (MoveAddress * MoveModuleAbi * MoveFunctionAbi) :=
  flat_map (λ '(package_addr, package_meta),
    flat_map (λ module_data, map (pair (package_addr, module_data)) (ma_functions module_data))
      (pa_modules package_meta)) (address_iter abis).
Definition iter_functions base := abi_functions (md_abis base).

(** The identifier of a function under the package it is listed in. *)
Definition listed_ident (x : MoveAddress * MoveModuleAbi * MoveFunctionAbi) : FunctionIdent :=
  FunctionIdent_new x.1.1 (module_name (ma_module_id x.1.2)) (fa_name x.2).

(** ** Indices built by [from_env_filtered] *)

(** Module address to package: the package with the greatest version. *)
Fixpoint map_modules (get_version : MoveAddress → option N) (pkg_id : MoveAddress)
    (modules : list MoveModuleAbi) (acc : gmap MoveAddress MoveAddress) :
    option (gmap MoveAddress MoveAddress) :=
  match modules with
  | [] => Some acc
  | module :: modules =>
      let address := module_address (ma_module_id module) in
      acc ← match acc !! address with
            | Some old_pkg_id =>
                v_old ← get_version old_pkg_id;
                v_new ← get_version pkg_id;
                Some (if (v_old <? v_new)%N then <[address := pkg_id]> acc else acc)
            | None => Some (<[address := pkg_id]> acc)
            end;
      map_modules get_version pkg_id modules acc
  end.
Fixpoint map_packages (get_version : MoveAddress → option N)
    (abis : list (MoveAddress * MovePackageAbi)) (acc : gmap MoveAddress MoveAddress) :
    option (gmap MoveAddress MoveAddress) :=
  match abis with
  | [] => Some acc
  | (pkg_id, abi) :: abis =>
      acc ← map_modules get_version pkg_id (pa_modules abi) acc;
      map_packages get_version abis acc
  end.
Definition module_packages (get_version : MoveAddress → option N)
    (abis : gmap MoveAddress MovePackageAbi) : option (gmap MoveAddress MoveAddress) :=
  map_packages get_version (address_iter abis) ∅.

(** Function name to the functions of that name, under their module's address. *)
Definition function_names (testing_abis : gmap MoveAddress MovePackageAbi) :
    gmap string (list FunctionIdent) :=
  fold_left (λ acc '(_, module, f),
    let ident := MkFunctionIdent (ma_module_id module) (fa_name f) in
    <[fa_name f := default [] (acc !! fa_name f) ++ [ident]]> acc)
    (abi_functions testing_abis) ∅.

Definition filter_types_pool (types_pool : gmap MoveTypeTag (gset MoveAddress))
    (include_types exclude_types : option (list MoveTypeTag)) :
    gmap MoveTypeTag (gset MoveAddress) :=
  let types_pool :=
    match include_types with
    | Some include => filter (λ x, x.1 ∈ include) types_pool | None => types_pool end in
  let types_pool :=
    match exclude_types with
    | Some exclude => filter (λ x, x.1 ∉ exclude) types_pool | None => types_pool end in
  filter (λ x, x.2 ≠ ∅) types_pool.
End metadata.

(** ** The package a module address stands for *)
Section module_packages.
Context (get_version : MoveAddress → option N).

(** The packages with a module at an address, in order, once per module. *)
Definition hosts (abis : list (MoveAddress * MovePackageAbi)) (a : MoveAddress) : list MoveAddress :=
  flat_map (λ x, omap (λ m, if decide (module_address (ma_module_id m) = a) then Some x.1 else None)
    (pa_modules x.2)) abis.

Definition version (p : MoveAddress) : N := default 0%N (get_version p).

(** The first of the newest. *)
Fixpoint newest (best : option MoveAddress) (l : list MoveAddress) : option MoveAddress :=
  match l with
  | [] => best
  | p :: l =>
      newest (match best with
              | None => Some p
              | Some b => if (version b <? version p)%N then Some p else best
              end) l
  end.

Lemma map_modules_lookup pkg_id modules acc acc' a :
  map_modules get_version pkg_id modules acc = Some acc' →
  acc' !! a = newest (acc !! a) (omap (λ m,
    if decide (module_address (ma_module_id m) = a) then Some pkg_id else None) modules).
Proof.
  revert acc. induction modules as [|m modules IH]; intros acc H; csimpl in *; [by injection H as <-|].
  apply bind_Some in H as (acc1 & H1 & H). rewrite (IH acc1 H).
  set (b := module_address (ma_module_id m)) in *. destruct (acc !! b) as [old|] eqn:Eb.
  - apply bind_Some in H1 as (vo & Hvo & H1). apply bind_Some in H1 as (vn & Hvn & [= <-]).
    case_decide as Hb; csimpl.
    + subst a. rewrite Eb. unfold version. rewrite Hvo, Hvn. csimpl.
      destruct (vo <? vn)%N; [by rewrite lookup_insert_eq|by rewrite Eb].
    + f_equal. destruct (vo <? vn)%N; [|done]. by apply lookup_insert_ne.
  - injection H1 as <-. case_decide as Hb; csimpl.
    + subst a. by rewrite lookup_insert_eq, Eb.
    + f_equal. by apply lookup_insert_ne.
Qed.

Lemma newest_app best l k : newest best (l ++ k) = newest (newest best l) k.
Proof. revert best. induction l as [|p l IH]; intros best; [done|]. csimpl. by rewrite IH. Qed.

Lemma map_packages_lookup abis acc acc' a :
  map_packages get_version abis acc = Some acc' →
  acc' !! a = newest (acc !! a) (hosts abis a).
Proof.
  revert acc. induction abis as [|[p abi] abis IH]; intros acc H; csimpl in *; [by injection H as <-|].
  apply bind_Some in H as (acc1 & H1 & H). rewrite (IH acc1 H), newest_app.
  f_equal. by apply map_modules_lookup.
Qed.

Lemma newest_spec best l p : newest best l = Some p →
  (p ∈ l ∨ best = Some p) ∧
  (∀ q, q ∈ l → (version q ≤ version p)%N) ∧ (∀ b, best = Some b → (version b ≤ version p)%N).
Proof.
  revert best. induction l as [|q l IH]; intros best H; csimpl in *.
  - subst. split_and!; [by right|set_solver|]. by intros b [= ->].
  - apply IH in H as (Hin & Hmax & Hb). split_and!.
    + destruct Hin as [Hin|Hin]; [left; set_solver|].
      destruct best as [b|]; [|left; set_solver]. destruct (_ <? _)%N; [left; set_solver|by right].
    + intros r [->|Hr]%elem_of_cons; [|by apply Hmax]. destruct best as [b|]; [|by apply Hb].
      destruct (N.ltb_spec (version b) (version q)); [by apply Hb|].
      specialize (Hb b eq_refl). lia.
    + intros b ->. destruct (N.ltb_spec (version b) (version q)); [|by apply Hb].
      specialize (Hb q eq_refl). lia.
Qed.

Lemma newest_None best l : newest best l = None → best = None ∧ l = [].
Proof.
  revert best. induction l as [|q l IH]; intros best H; csimpl in *; [done|].
  apply IH in H as [H _]. destruct best; [by destruct (_ <? _)%N|done].
Qed.

Lemma elem_of_hosts abis a p :
  p ∈ hosts abis a ↔ ∃ abi m, (p, abi) ∈ abis ∧ m ∈ pa_modules abi ∧ module_address (ma_module_id m) = a.
Proof.
  unfold hosts. rewrite list_elem_of_In, in_flat_map. split.
  - intros ([q abi] & Hin & Hp%list_elem_of_In). apply list_elem_of_omap in Hp as (m & Hm & Hp).
    case_decide; [|done]. injection Hp as ->. exists abi, m. by rewrite list_elem_of_In.
  - intros (abi & m & Hin%list_elem_of_In & Hm & Ha). exists (p, abi). split; [done|].
    apply list_elem_of_In, list_elem_of_omap. exists m. split; [done|]. by rewrite decide_True.
Qed.

(** A module address stands for the newest package: when the versions of
    the packages are known, an address is mapped exactly when some package has
    a module at it, to a package that has one and whose version no other such
    package exceeds - so after an upgrade functions are looked up in the
    upgraded package. *)
Theorem module_packages_newest abis m a :
  module_packages get_version abis = Some m →
  match m !! a with
  | Some p =>
      let at_address q := ∃ abi md, abis !! q = Some abi ∧ md ∈ pa_modules abi ∧
                            module_address (ma_module_id md) = a in
      at_address p ∧ ∀ q, at_address q → (version q ≤ version p)%N
  | None => ∀ q abi md, abis !! q = Some abi → md ∈ pa_modules abi → module_address (ma_module_id md) ≠ a
  end.
Proof.
  intros H. rewrite (map_packages_lookup _ _ _ a H), lookup_empty.
  assert (Hat : ∀ q, q ∈ hosts (address_iter abis) a ↔ ∃ abi md, abis !! q = Some abi ∧
    md ∈ pa_modules abi ∧ module_address (ma_module_id md) = a).
  { intros q. rewrite elem_of_hosts. by setoid_rewrite elem_of_address_iter. }
  destruct (newest None _) as [p|] eqn:E.
  - apply newest_spec in E as ([Hin|?] & Hmax & _); [|done].
    split; [by apply Hat|]. intros q Hq. by apply Hmax, Hat.
  - apply newest_None in E as [_ E]. intros q abi md Hq Hmd Ha.
    assert (q ∈ hosts (address_iter abis) a) as Hin by (apply Hat; eauto). rewrite E in Hin. set_solver.
Qed.
End module_packages.

(** ** Hooks *)
Record FunctionHook := MkHook { pre_hooks : list FunctionIdent; post_hooks : list FunctionIdent }.
Definition hook_default : FunctionHook := MkHook [] [].
Definition push_pre (h : FunctionIdent) (k : FunctionHook) : FunctionHook :=
  MkHook (pre_hooks k ++ [h]) (post_hooks k).
Definition push_post (h : FunctionIdent) (k : FunctionHook) : FunctionHook :=
  MkHook (pre_hooks k) (post_hooks k ++ [h]).

Section hooks.
Context (function_name_to_idents : gmap string (list FunctionIdent)).
Abbreviation Listed := (MoveAddress * MoveModuleAbi * MoveFunctionAbi)%type.

(** The function a hook is for: the only one of that name, or the one among
    several that [is_target] singles out; [Panic] when there is none. *)
Definition hook_target (is_target : FunctionIdent → bool) (name : string) : panics FunctionIdent :=
  match function_name_to_idents !! name with
  | Some [ident] => Ret ident
  | Some idents => unwrap (find is_target idents)
  | None => Panic
  end.

Definition pre_target (x : Listed) : panics (option FunctionIdent) :=
  is_ptb ← is_movy_pre_ptb x.2;
  if is_ptb : bool then Ret None else
  o ← try_derive_movy_pre x.2;
  match o with
  | None => Ret None
  | Some pre_func =>
      t ← hook_target (λ ident, bool_decide (module_address (fi_module ident) = x.1.1)
             && bool_decide ("movy_" +:+ module_name (fi_module ident) = module_name (ma_module_id x.1.2)))
            pre_func;
      Ret (Some t)
  end.

Definition post_target (x : Listed) : panics (option FunctionIdent) :=
  is_ptb ← is_movy_post_ptb x.2;
  if is_ptb : bool then Ret None else
  o ← try_derive_movy_post x.2;
  match o with
  | None => Ret None
  | Some post_func =>
      t ← hook_target (λ ident, bool_decide (module_address (fi_module ident) = x.1.1)
             && bool_decide (module_name (fi_module ident) = module_name (ma_module_id x.1.2)))
            post_func;
      Ret (Some t)
  end.

(** [entry(target).or_default()] updated by [f]. *)
Definition update_hook (target : option FunctionIdent) (f : FunctionHook → FunctionHook)
    (hooks : gmap FunctionIdent FunctionHook) : gmap FunctionIdent FunctionHook :=
  match target with
  | Some t => <[t := f (default hook_default (hooks !! t))]> hooks
  | None => hooks
  end.

Fixpoint add_hooks (fs : list Listed) (hooks : gmap FunctionIdent FunctionHook) :
    panics (gmap FunctionIdent FunctionHook) :=
  match fs with
  | [] => Ret hooks
  | x :: fs =>
      pre ← pre_target x;
      let hooks := update_hook pre (push_pre (listed_ident x)) hooks in
      post ← post_target x;
      let hooks := update_hook post (push_post (listed_ident x)) hooks in
      add_hooks fs hooks
  end.
Definition derive_function_hooks (abis : gmap MoveAddress MovePackageAbi) :
    panics (gmap FunctionIdent FunctionHook) := add_hooks (abi_functions abis) ∅.

Fixpoint add_sequence_hooks (fs : list Listed) (k : FunctionHook) : panics FunctionHook :=
  match fs with
  | [] => Ret k
  | x :: fs =>
      pre ← is_movy_pre_ptb x.2;
      let k := if pre : bool then push_pre (listed_ident x) k else k in
      post ← is_movy_post_ptb x.2;
      let k := if post : bool then push_post (listed_ident x) k else k in
      add_sequence_hooks fs k
  end.
Definition derive_sequence_hooks (abis : gmap MoveAddress MovePackageAbi) : panics FunctionHook :=
  add_sequence_hooks (abi_functions abis) hook_default.

(** *** What the hooks are *)
Definition targets (p : Listed → panics (option FunctionIdent)) (t : FunctionIdent) (x : Listed) : Prop :=
  p x = Ret (Some t).
#[export] Instance targets_dec p t x : Decision (targets p t x).
Proof.
  unfold targets. destruct (p x) as [[t'|]|]; [|by right..].
  destruct (decide (t' = t)) as [->|]; [by left|right; congruence].
Defined.

Definition hooks_of (p : Listed → panics (option FunctionIdent)) (t : FunctionIdent) (fs : list Listed) :
    list FunctionIdent := map listed_ident (filter (targets p t) fs).

Lemma update_hook_lookup o f hooks t :
  default hook_default (update_hook o f hooks !! t) =
  (if decide (o = Some t) then f else id) (default hook_default (hooks !! t)).
Proof.
  destruct o as [t'|]; csimpl; [|done].
  case_decide as E; [injection E as ->; by rewrite lookup_insert_eq|].
  by rewrite lookup_insert_ne by congruence.
Qed.

Lemma filter_targets p t x fs o : p x = Ret o →
  hooks_of p t (x :: fs) = (if decide (o = Some t) then [listed_ident x] else []) ++ hooks_of p t fs.
Proof.
  intros E. unfold hooks_of. rewrite filter_cons.
  destruct (decide (targets p t x)) as [Ht|Ht]; unfold targets in Ht; rewrite E in Ht.
  - injection Ht as ->. by rewrite decide_True.
  - by rewrite decide_False by congruence.
Qed.

Lemma add_hooks_spec fs hooks hooks' t :
  add_hooks fs hooks = Ret hooks' →
  pre_hooks (default hook_default (hooks' !! t)) =
    pre_hooks (default hook_default (hooks !! t)) ++ hooks_of pre_target t fs ∧
  post_hooks (default hook_default (hooks' !! t)) =
    post_hooks (default hook_default (hooks !! t)) ++ hooks_of post_target t fs.
Proof.
  revert hooks. induction fs as [|x fs IH]; intros hooks H; csimpl in H.
  - injection H as <-. by rewrite !app_nil_r.
  - apply panics_bind_Ret in H as (pre & Hpre & H). apply panics_bind_Ret in H as (post & Hpost & H).
    apply IH in H as [-> ->].
    rewrite (filter_targets pre_target t x fs pre Hpre), (filter_targets post_target t x fs post Hpost).
    rewrite !update_hook_lookup.
    by destruct (decide (pre = Some t)), (decide (post = Some t)); csimpl; rewrite <-?app_assoc.
Qed.

Lemma slice_from_app (n : nat) (s r : string) :
  slice_from n s = Ret r → ∃ p, String.length p = n ∧ s = p +:+ r.
Proof.
  revert s. induction n as [|n IH]; intros s H.
  - destruct s; injection H as <-; by exists "".
  - destruct s as [|c s]; [done|]. apply IH in H as (p & <- & ->). by exists (String c p).
Qed.

Lemma prefix_slice (p s r : string) :
  String.prefix p s = true → slice_from (String.length p + 1) s = Ret r → ∃ c, s = p +:+ String c r.
Proof.
  revert s. induction p as [|a p IH]; intros s Hp H; csimpl in *.
  - destruct s as [|c s]; [done|]. destruct s; injection H as <-; eauto.
  - destruct s as [|b s]; [done|]. simpl in Hp. destruct (ascii_dec a b) as [->|]; [|done].
    destruct (IH s Hp H) as (c & ->). eauto.
Qed.

Lemma try_derive_name prefix f name :
  try_derive prefix f = Ret (Some name) → ∃ c, fa_name f = prefix +:+ String c name.
Proof.
  unfold try_derive. destruct (String.prefix _ _) eqn:Hp; [|done]. intros H.
  apply panics_bind_Ret in H as (s & Hs & [= ->]). by apply prefix_slice.
Qed.

(** Every function is indexed under its own name. *)
Definition index_ok : Prop :=
  ∀ name idents, function_name_to_idents !! name = Some idents → Forall (λ i, fi_name i = name) idents.

Lemma hook_target_name is_target name t :
  index_ok → hook_target is_target name = Ret t → fi_name t = name.
Proof.
  intros Hok. unfold hook_target. destruct (_ !! name) as [idents|] eqn:E; [|done].
  apply Hok in E. assert (unwrap (find is_target idents) = Ret t → fi_name t = name) as Hfind.
  { intros (Hin%list_elem_of_In & _)%unwrap_Ret%find_some. rewrite Forall_forall in E. by apply E. }
  destruct idents as [|i [|j l]]; [done| |exact Hfind].
  intros [= <-]. by apply Forall_cons in E as [? _].
Qed.

(** Hooks belong to the functions they are named after: when the hooks of
    the test modules can be derived at all, the pre-hooks and the post-hooks
    of a function are exactly the functions that designate it, in the order of
    the packages, and each of them is called [movy_pre] (or [movy_post]), one
    character, and the name of that function, which is not [ptb]. *)
Theorem function_hooks_spec abis hooks t :
  index_ok → derive_function_hooks abis = Ret hooks →
  let k := default hook_default (hooks !! t) in
  pre_hooks k = hooks_of pre_target t (abi_functions abis) ∧
  post_hooks k = hooks_of post_target t (abi_functions abis) ∧
  (∀ h, h ∈ pre_hooks k → ∃ c, fi_name h = MOVY_PRE +:+ String c (fi_name t) ∧ fi_name t ≠ MOVY_SEQUENCE) ∧
  (∀ h, h ∈ post_hooks k → ∃ c, fi_name h = MOVY_POST +:+ String c (fi_name t) ∧ fi_name t ≠ MOVY_SEQUENCE).
Proof.
  intros Hok H k. destruct (add_hooks_spec _ _ _ t H) as [Hpre Hpost].
  rewrite lookup_empty in Hpre, Hpost. csimpl in Hpre. csimpl in Hpost. fold k in Hpre, Hpost.
  rewrite Hpre, Hpost. split_and!; [done|done| |].
  all: intros h Hh; apply list_elem_of_fmap in Hh as (x & -> & Hx);
    apply list_elem_of_filter in Hx as [Hx _]; unfold targets, pre_target, post_target in Hx;
    apply panics_bind_Ret in Hx as (b & Hb & Hx); destruct b; [done|];
    apply panics_bind_Ret in Hx as ([name|] & Ho & Hx); [|done];
    apply panics_bind_Ret in Hx as (t' & Ht & [= ->]);
    apply (hook_target_name _ _ _ Hok) in Ht as <-;
    unfold is_movy_pre_ptb, is_movy_post_ptb in Hb; rewrite Ho in Hb; csimpl in Hb;
    injection Hb as Hb; apply bool_decide_eq_false in Hb;
    apply try_derive_name in Ho as (c & Hname); exists c; (split; [done|congruence]).
Qed.
End hooks.

(** ** Selecting the targets of a campaign *)
Definition INIT_FUNCTION_SCORE : N := 100.

Record TargetFilters := {
  include_packages : option (list MoveAddress); exclude_packages : option (list MoveAddress);
  include_modules : option (list MoveModuleId); exclude_modules : option (list MoveModuleId);
  include_functions : option (list FunctionIdent); exclude_functions : option (list FunctionIdent);
  include_types : option (list MoveTypeTag); exclude_types : option (list MoveTypeTag) }.

Definition is_included {A} `{EqDecision A} (o : option (list A)) (x : A) : bool :=
  match o with Some l => bool_decide (x ∈ l) | None => true end.
Definition is_not_excluded {A} `{EqDecision A} (o : option (list A)) (x : A) : bool :=
  match o with Some l => negb (bool_decide (x ∈ l)) | None => true end.

Definition normalize_packages (target_packages : list MoveAddress) (filters : TargetFilters) :
    list MoveAddress :=
  let packages := List.filter (is_included (include_packages filters)) target_packages in
  let packages := List.filter (is_not_excluded (exclude_packages filters)) packages in
  sort_dedup address_le packages.

Definition function_allowed (filters : TargetFilters) (func : FunctionIdent) : bool :=
  let module_id := fi_module func in
  let pkg := module_address module_id in
  is_included (include_packages filters) pkg && is_not_excluded (exclude_packages filters) pkg
  && is_included (include_functions filters) func
  && is_not_excluded (exclude_functions filters) func
  && is_included (include_modules filters) module_id
  && is_not_excluded (exclude_modules filters) module_id.
Definition apply_function_filters (target_functions : list FunctionIdent) (filters : TargetFilters) :
    list FunctionIdent := List.filter (function_allowed filters) target_functions.

Definition has_drop_ability (t : MoveAbiSignatureToken) : bool :=
  match ability t with Some a => ability_contains a ability_DROP | None => false end.

Inductive SkipReason :=
| NonPublic | ReadOnlySignature
| ReturnsReference (t : MoveAbiSignatureToken)
| UnconsumableHotPotato (t : MoveAbiSignatureToken).

Section selection.
Context `{PG : PetGraph G} {Rand : Type}.
Implicit Types base : Metadata G.

Fixpoint skip_return_reason base (rets : list MoveAbiSignatureToken) : option SkipReason :=
  match rets with
  | [] => None
  | ret_ty :: rets =>
      let ret_ref := match ret_ty with Tok_Reference _ | Tok_MutableReference _ => true | _ => false end in
      let hanging_hot_potato := is_hot_potato ret_ty &&
        match find_consumers (md_type_graph base) ret_ty true with [] => true | _ => false end in
      if ret_ref then Some (ReturnsReference ret_ty)
      else if hanging_hot_potato then Some (UnconsumableHotPotato ret_ty)
      else skip_return_reason base rets
  end.

Definition skip_function_reason base (func_data : MoveFunctionAbi) : option SkipReason :=
  if negb (bool_decide (fa_visibility func_data = Public)) then Some NonPublic else
  if forallb (λ t, has_drop_ability t || match t with Tok_Reference _ => true | _ => false end
                   || is_tx_context t) (fa_parameters func_data)
     && forallb (λ t, is_mutable t || has_drop_ability t) (fa_return_paramters func_data)
  then Some ReadOnlySignature
  else skip_return_reason base (fa_return_paramters func_data).

(** The functions of the target packages that [keep] accepts, identified by
    the address the target was given by. *)
Definition collect (lookup : MoveAddress → option MovePackageAbi) (keep : MoveFunctionAbi → bool)
    (target_packages : list MoveAddress) : list FunctionIdent :=
  flat_map (λ package_addr,
    match lookup package_addr with
    | None => []
    | Some package_meta =>
        flat_map (λ module,
          map (λ func_data, FunctionIdent_new package_addr (module_name (ma_module_id module)) (fa_name func_data))
            (List.filter keep (ma_functions module))) (pa_modules package_meta)
    end) target_packages.

Definition not_skipped base (f : MoveFunctionAbi) : bool :=
  match skip_function_reason base f with None => true | Some _ => false end.
Definition collect_target_functions base : list MoveAddress → list FunctionIdent :=
  collect (get_original_package_metadata base) (not_skipped base).
Definition collect_testing_target_functions base : list MoveAddress → list FunctionIdent :=
  collect (get_package_metadata base) (not_skipped base).
Definition collect_validation_target_functions base : list MoveAddress → list FunctionIdent :=
  collect (get_package_metadata base)
    (λ f, bool_decide (fa_visibility f = Public) && String.prefix "movy_validate" (fa_name f)).
Definition fallback_target_functions base (target_packages : list MoveAddress) : list FunctionIdent :=
  map listed_ident (List.filter (λ x, bool_decide (x.1.1 ∈ target_packages))
    (abi_functions (md_abis base) ++ abi_functions (md_testing_abis base))).

Definition derive_function_scores (target_functions : list FunctionIdent)
    (specific_function_scores : gmap FunctionIdent N) : gmap FunctionIdent N :=
  fold_left (λ scores func_ident,
    match scores !! func_ident with
    | Some _ => scores
    | None => <[func_ident := default INIT_FUNCTION_SCORE (specific_function_scores !! func_ident)]> scores
    end) target_functions ∅.

Definition collect_target_packages_from_functions (functions : list FunctionIdent) : list MoveAddress :=
  sort_dedup address_le (map (λ f, module_address (fi_module f)) functions).

Inductive MutatorKind := Mutator_Sequence | Mutator_Arg | Mutator_Magic.

Record FuzzMetadata := MkFuzzMetadata {
  fm_base : Metadata G; fm_rand : Rand; fm_attacker : MoveAddress;
  fm_callers_pool : list MoveAddress; fm_addresses_pool : list MoveAddress;
  fm_function_scores : gmap FunctionIdent N; fm_current_mutator : option MutatorKind;
  fm_specific_function_scores : gmap FunctionIdent N;
  fm_target_functions : list FunctionIdent; fm_target_packages : list MoveAddress;
  fm_function_hooks : gmap FunctionIdent FunctionHook; fm_sequence_hooks : FunctionHook;
  fm_gas_id : MoveAddress; fm_checkpoint : N; fm_epoch : N; fm_epoch_ms : N }.

(** The three rounds of target selection. *)
Definition select_targets base (filtered_packages : list MoveAddress) (filters : TargetFilters) :
    list FunctionIdent :=
  let select fs := sort_dedup ident_le (apply_function_filters fs filters) in
  let target_functions := select (collect_target_functions base filtered_packages
    ++ collect_validation_target_functions base filtered_packages) in
  let target_functions := match target_functions with
    | [] => select (collect_testing_target_functions base filtered_packages
              ++ collect_validation_target_functions base filtered_packages)
    | fs => fs end in
  match target_functions with
  | [] => apply_function_filters (fallback_target_functions base filtered_packages) filters
  | fs => fs
  end.

Definition from_metadata base (rand : Rand) (function_scores : list (FunctionIdent * N))
    (target_packages : list MoveAddress) (attacker admin gas_id : MoveAddress)
    (local_testing_abis : gmap MoveAddress MovePackageAbi) (checkpoint epoch epoch_ms : N)
    (filters : TargetFilters) : panics FuzzMetadata :=
  let specific_function_scores := fold_left (λ m f, <[f.1 := f.2]> m) function_scores ∅ in
  let filtered_packages := normalize_packages target_packages filters in
  let target_functions := select_targets base filtered_packages filters in
  let function_scores := derive_function_scores target_functions specific_function_scores in
  let target_packages := collect_target_packages_from_functions target_functions in
  function_hooks ← derive_function_hooks (md_function_name_to_idents base) local_testing_abis;
  sequence_hooks ← derive_sequence_hooks local_testing_abis;
  Ret (MkFuzzMetadata base rand attacker [attacker] [attacker; admin] function_scores None
    specific_function_scores target_functions target_packages function_hooks sequence_hooks
    gas_id checkpoint epoch epoch_ms).

(** The functions [movy sui test] runs. *)
Definition select_test_functions (m : FuzzMetadata) : list FunctionIdent :=
  sort_dedup ident_le (map listed_ident
    (List.filter (λ x, bool_decide (x.1.1 ∈ fm_target_packages m) && String.prefix "test_" (fa_name x.2))
      (abi_functions (md_testing_abis (fm_base m))))).

(** *** Pools of callers and addresses *)
Definition add_once (a : MoveAddress) (pool : list MoveAddress) : list MoveAddress :=
  if bool_decide (a ∈ pool) then pool else pool ++ [a].

(** *** What is selected *)
Lemma elem_of_collect lookup keep pkgs f :
  f ∈ collect lookup keep pkgs → module_address (fi_module f) ∈ pkgs.
Proof.
  unfold collect. rewrite list_elem_of_In, in_flat_map. intros (p & Hp & Hf).
  destruct (lookup p) as [abi|]; [|done]. apply in_flat_map in Hf as (m & _ & Hf).
  apply in_map_iff in Hf as (d & <- & _). by apply list_elem_of_In.
Qed.

Lemma elem_of_fallback base pkgs f :
  f ∈ fallback_target_functions base pkgs → module_address (fi_module f) ∈ pkgs.
Proof.
  unfold fallback_target_functions. intros (x & -> & Hx)%list_elem_of_fmap.
  apply elem_of_filter_bool in Hx as [_ Hx]. bool_hyps. done.
Qed.

Lemma select_targets_sound base pkgs filters f :
  f ∈ select_targets base pkgs filters →
  function_allowed filters f = true ∧ module_address (fi_module f) ∈ pkgs.
Proof.
  assert (Hsel : ∀ look keep look' keep',
    f ∈ sort_dedup ident_le (apply_function_filters (collect look keep pkgs ++ collect look' keep' pkgs) filters) →
    function_allowed filters f = true ∧ module_address (fi_module f) ∈ pkgs).
  { intros look keep look' keep'. rewrite elem_of_sort_dedup. unfold apply_function_filters.
    rewrite elem_of_filter_bool, elem_of_app. intros [[H|H] Ha]; (split; [done|]); by eapply elem_of_collect. }
  unfold select_targets. intros H.
  destruct (sort_dedup ident_le _) as [|x l] eqn:E1 in H; [|rewrite <-E1 in H; by eapply Hsel].
  destruct (sort_dedup ident_le _) as [|x l] eqn:E2 in H; [|rewrite <-E2 in H; by eapply Hsel].
  apply elem_of_filter_bool in H as [H Ha]. split; [done|]. by eapply elem_of_fallback.
Qed.

Lemma derive_function_scores_lookup fs (specific scores : gmap FunctionIdent N) (f : FunctionIdent) :
  fold_left (λ scores func_ident,
    match scores !! func_ident with
    | Some _ => scores
    | None => <[func_ident := default INIT_FUNCTION_SCORE (specific !! func_ident)]> scores
    end) fs scores !! f =
  match scores !! f with
  | Some s => Some s
  | None => if bool_decide (f ∈ fs) then Some (default INIT_FUNCTION_SCORE (specific !! f)) else None
  end.
Proof.
  revert scores. induction fs as [|g fs IH]; intros scores; csimpl; [by destruct (scores !! f)|].
  rewrite IH. destruct (decide (f = g)) as [<-|Hne].
  - rewrite (bool_decide_eq_true_2 (f ∈ f :: fs)) by set_solver.
    destruct (scores !! f) as [s|] eqn:E; [by rewrite E|by rewrite lookup_insert_eq].
  - rewrite (bool_decide_ext (f ∈ g :: fs) (f ∈ fs)) by set_solver.
    destruct (scores !! g); [done|]. by rewrite lookup_insert_ne.
Qed.

Lemma is_included_spec {A} `{EqDecision A} (o : option (list A)) x :
  is_included o x = true ↔ ∀ l, o = Some l → x ∈ l.
Proof. destruct o; csimpl; rewrite ?bool_decide_eq_true; naive_solver. Qed.
Lemma is_not_excluded_spec {A} `{EqDecision A} (o : option (list A)) x :
  is_not_excluded o x = true ↔ ∀ l, o = Some l → x ∉ l.
Proof. destruct o; csimpl; rewrite ?negb_true_iff, ?bool_decide_eq_false; naive_solver. Qed.

#[export] Instance address_le_anti_symm : AntiSymm eq address_le.
Proof. intros [x] [y]. unfold address_le. csimpl. intros. f_equal. lia. Qed.
#[export] Instance address_le_total : Total address_le.
Proof. intros x y. unfold address_le. lia. Qed.
#[export] Instance address_le_trans : Transitive address_le.
Proof. intros x y z. unfold address_le. lia. Qed.

(** C34: a campaign targets what was asked for: every target function lies in a
    requested package and passes every include and exclude list given; the
    functions with a score are exactly the targets, with the score requested
    for them or else the initial one; and the target packages are exactly the
    packages of the targets, strictly increasing. *)
Theorem targets_respect_filters base rand scores pkgs attacker admin gas abis cp ep ms filters m :
  from_metadata base rand scores pkgs attacker admin gas abis cp ep ms filters = Ret m →
  (∀ f, f ∈ fm_target_functions m →
    let md := fi_module f in
    module_address md ∈ pkgs ∧
    (∀ l, include_packages filters = Some l → module_address md ∈ l) ∧
    (∀ l, exclude_packages filters = Some l → module_address md ∉ l) ∧
    (∀ l, include_modules filters = Some l → md ∈ l) ∧
    (∀ l, exclude_modules filters = Some l → md ∉ l) ∧
    (∀ l, include_functions filters = Some l → f ∈ l) ∧
    (∀ l, exclude_functions filters = Some l → f ∉ l)) ∧
  (∀ f, fm_function_scores m !! f =
    if bool_decide (f ∈ fm_target_functions m)
    then Some (default INIT_FUNCTION_SCORE (fm_specific_function_scores m !! f)) else None) ∧
  (∀ a, a ∈ fm_target_packages m ↔ ∃ f, f ∈ fm_target_functions m ∧ module_address (fi_module f) = a) ∧
  StronglySorted address_le (fm_target_packages m) ∧ NoDup (fm_target_packages m).
Proof.
  unfold from_metadata. intros H. apply panics_bind_Ret in H as (hooks & _ & H).
  apply panics_bind_Ret in H as (seq_hooks & _ & [= <-]). csimpl. split_and!.
  - intros f Hf. apply select_targets_sound in Hf as [Ha Hp].
    unfold normalize_packages in Hp. rewrite elem_of_sort_dedup, !elem_of_filter_bool in Hp.
    unfold function_allowed in Ha. bool_hyps. destruct Hp as [[Hp _] _].
    split_and!; [done|..]; by (apply is_included_spec || apply is_not_excluded_spec).
  - intros f. unfold derive_function_scores. by rewrite derive_function_scores_lookup, lookup_empty.
  - intros a. unfold collect_target_packages_from_functions.
    rewrite elem_of_sort_dedup, list_elem_of_fmap. naive_solver.
  - apply NoDup_dedup; [apply _|]. apply StronglySorted_merge_sort; apply _.
  - apply (NoDup_dedup address_le). apply StronglySorted_merge_sort; apply _.
Qed.
End selection.

(** ** Witnesses *)
Definition demo_version (p : MoveAddress) : option N := Some (addr_val p).
Definition demo_abis : gmap MoveAddress MovePackageAbi :=
  {[ MkMoveAddress 7 := demo_package; MkMoveAddress 9 := demo_package ]}.

Lemma module_packages_newest_witness :
  ∃ m, module_packages demo_version demo_abis = Some m ∧
    ∀ p, m !! MkMoveAddress 7 = Some p → (9 ≤ addr_val p)%N.
Proof.
  destruct (module_packages demo_version demo_abis) as [m|] eqn:E; [|by vm_compute in E].
  exists m. split; [done|]. intros p Hp.
  pose proof (module_packages_newest demo_version demo_abis m (MkMoveAddress 7) E) as H.
  rewrite Hp in H. destruct H as [_ H]. apply (H (MkMoveAddress 9)).
  exists demo_package. eexists. by split_and!; [reflexivity|left|].
Defined.

Definition demo_names : gmap string (list FunctionIdent) :=
  {[ "mint" := [MkFunctionIdent demo_coin_id "mint"] ]}.
Definition demo_hook (name : string) : MoveFunctionAbi :=
  {| fa_name := name; fa_parameters := []; fa_return_paramters := []; fa_type_parameters := [];
     fa_visibility := Public; fa_is_entry := false |}.
Definition demo_tests (names : list string) : gmap MoveAddress MovePackageAbi :=
  {[ MkMoveAddress 7 := {| pa_package_id := MkMoveAddress 7; pa_modules :=
       [{| ma_module_id := MkModuleId (MkMoveAddress 7) "movy_coin"; ma_structs := [];
           ma_functions := map demo_hook names |}] |} ]}.

Lemma demo_names_ok : index_ok demo_names.
Proof. intros name idents H. unfold demo_names in H. apply lookup_singleton_Some in H as [<- <-]. by repeat constructor. Qed.

Lemma function_hooks_spec_witness :
  ∃ hooks, derive_function_hooks demo_names (demo_tests ["movy_pre_mint"; "movy_pre_ptb"]) = Ret hooks ∧
    let k := default hook_default (hooks !! MkFunctionIdent demo_coin_id "mint") in
    pre_hooks k = [FunctionIdent_new (MkMoveAddress 7) "movy_coin" "movy_pre_mint"] ∧ post_hooks k = [].
Proof.
  destruct (returns_true (λ _, true)
    (derive_function_hooks demo_names (demo_tests ["movy_pre_mint"; "movy_pre_ptb"]))
    ltac:(vm_compute; reflexivity)) as (hooks & E & _).
  exists hooks. split; [done|].
  destruct (function_hooks_spec demo_names _ hooks (MkFunctionIdent demo_coin_id "mint")
    demo_names_ok E) as (Hpre & Hpost & _).
  cbv zeta. rewrite Hpre, Hpost. split; vm_compute; reflexivity.
Defined.

(** A test function whose name only starts like a hook makes the derivation
    panic: after [movy_pre] any character is skipped. *)
Example movy_prepare_panics :
  derive_function_hooks demo_names (demo_tests ["movy_prepare"]) = Panic.
Proof. vm_compute. reflexivity. Qed.

Definition demo_metadata : Metadata ListGraph :=
  MkMetadata (match add_packages [demo_package] type_graph_new with Ret g => g | Panic => type_graph_new end)
    demo_abis ∅ ∅ ∅ ∅ demo_names ∅.
Definition demo_filters : TargetFilters :=
  {| include_packages := Some [MkMoveAddress 7]; exclude_packages := None; include_modules := None;
     exclude_modules := None; include_functions := None;
     exclude_functions := Some [MkFunctionIdent demo_coin_id "burn"];
     include_types := None; exclude_types := None |}.
Definition demo_campaign : panics (FuzzMetadata (G := ListGraph) (Rand := ())) :=
  from_metadata demo_metadata () [] [MkMoveAddress 7; MkMoveAddress 9] addr_one addr_two addr_zero
    ∅ 0 0 0 demo_filters.

Lemma targets_respect_filters_witness :
  ∃ m, demo_campaign = Ret m ∧ length (fm_target_functions m) = 1 ∧
    ∀ f, f ∈ fm_target_functions m → module_address (fi_module f) ∈ [MkMoveAddress 7].
Proof.
  destruct (returns_true (λ m, (length (fm_target_functions m) =? 1)%nat) demo_campaign
    ltac:(vm_compute; reflexivity)) as (m & E & Hlen).
  exists m. split; [done|]. split; [by apply Nat.eqb_eq|].
  destruct (targets_respect_filters demo_metadata () [] [MkMoveAddress 7; MkMoveAddress 9] addr_one
    addr_two addr_zero ∅ 0 0 0 demo_filters m E) as (H & _).
  intros f Hf. destruct (H f Hf) as (_ & Hi & _). by apply Hi.
Defined.

(** The state of a campaign on the demo package, for the mutators. *)
Definition demo_fuzz_metadata : FuzzMetadata (G := ListGraph) (Rand := ()) :=
  MkFuzzMetadata (MkMetadata (md_type_graph demo_metadata) demo_abis demo_abis ∅ ∅ ∅ demo_names ∅) () addr_one
    [addr_one] [addr_one; addr_two] ∅ None ∅ [MkFunctionIdent demo_coin_id "mint"] [MkMoveAddress 7] ∅ hook_default
    addr_zero 0 0 0.
