(* ===== verification/Remap.v ===== *)
(** * Remap: re-indexing the commands of a sequence

    [crates/movy-fuzz/src/mutators/sequence/remap.rs], the stripping of
    generated commands in [hooks.rs] and [post.rs] and the removal of commands
    in [sequence.rs]. A command refers to the results of earlier commands by
    their index, so every insertion or removal has to re-index. *)
From S2P Require Import Prelude Types Abi TypeGraph Meta.

(** ** Rewriting the arguments of a command *)
Definition set_arguments (mc : MoveCall) (arguments : list SequenceArgument) : MoveCall :=
  {| mc_module_id := mc_module_id mc; mc_module_name := mc_module_name mc;
     mc_function := mc_function mc; mc_type_arguments := mc_type_arguments mc;
     mc_arguments := arguments |}.

(** The body [remap_command] and [remap_command_with_map] share; the monad is
    the panic or the [None] of the argument's remapping. *)
Definition traverse_command {M : Type → Type} `{!MBind M, !MRet M}
    (remap_args : SequenceArgument → M SequenceArgument) (cmd : MoveSequenceCall) : M MoveSequenceCall :=
  match cmd with
  | Call movecall =>
      arguments ← mapM remap_args (mc_arguments movecall);
      mret (Call (set_arguments movecall arguments))
  | TransferObjects args dst =>
      args ← mapM remap_args args; dst ← remap_args dst; mret (TransferObjects args dst)
  | SplitCoins src amts =>
      src ← remap_args src; amts ← mapM remap_args amts; mret (SplitCoins src amts)
  | MergeCoins dst srcs =>
      dst ← remap_args dst; srcs ← mapM remap_args srcs; mret (MergeCoins dst srcs)
  | MakeMoveVec ty args => args ← mapM remap_args args; mret (MakeMoveVec ty args)
  | Publish mods deps => mret (Publish mods deps)
  | Upgrade mods deps package ticket =>
      ticket ← remap_args ticket; mret (Upgrade mods deps package ticket)
  end.

Definition remap_arg_with_map (mapping : list (option N)) (arg : SequenceArgument) :
    option SequenceArgument :=
  match arg with
  | Result i => new ← mapping !! N.to_nat i; Result <$> new
  | NestedResult i j => new ← mapping !! N.to_nat i; (λ n, NestedResult n j) <$> new
  | _ => Some arg
  end.
Definition remap_command_with_map (cmd : MoveSequenceCall) (mapping : list (option N)) :
    option MoveSequenceCall := traverse_command (remap_arg_with_map mapping) cmd.

Definition remap_arg (mapping : list N) (arg : SequenceArgument) : panics SequenceArgument :=
  match arg with
  | Result i => n ← unwrap (mapping !! N.to_nat i); Ret (Result n)
  | NestedResult i j => n ← unwrap (mapping !! N.to_nat i); Ret (NestedResult n j)
  | _ => Ret arg
  end.
Definition remap_command (cmd : MoveSequenceCall) (mapping : list N) : panics MoveSequenceCall :=
  traverse_command (remap_arg mapping) cmd.

(** ** Stripping hooks *)
Section strip.
Context `{PG : PetGraph G} {Rand : Type}.
Implicit Types meta : FuzzMetadata (G := G) (Rand := Rand).

Definition context_ident meta (name : string) : option FunctionIdent :=
  v ← md_function_name_to_idents (fm_base meta) !! name;
  match find (λ ident, bool_decide (module_name (fi_module ident) = "context"%string)) v with
  | Some ident => Some ident
  | None => head v
  end.
Definition context_idents meta : option (FunctionIdent * FunctionIdent) :=
  create ← context_ident meta "create_context";
  destroy ← context_ident meta "destroy_context";
  Some (create, destroy).

(** Whether an identifier is in the set of hooks. *)
Definition hook_idents meta : list FunctionIdent :=
  pre_hooks (fm_sequence_hooks meta) ++ post_hooks (fm_sequence_hooks meta)
  ++ flat_map (λ x, pre_hooks x.2 ++ post_hooks x.2) (map_to_list (fm_function_hooks meta))
  ++ match context_idents meta with Some (create, destroy) => [create; destroy] | None => [] end.

Definition call_ident (mc : MoveCall) : FunctionIdent :=
  FunctionIdent_new (mc_module_id mc) (mc_module_name mc) (mc_function mc).
Definition is_hook (hooks : list FunctionIdent) (cmd : MoveSequenceCall) : bool :=
  match cmd with Call mc => bool_decide (call_ident mc ∈ hooks) | _ => false end.

(** The loop that drops the hooks and records where each command went. *)
Fixpoint strip_loop (hooks : list FunctionIdent) (cmds : list MoveSequenceCall)
    (mapping : list (option N)) (kept : list MoveSequenceCall) :
    list (option N) * list MoveSequenceCall :=
  match cmds with
  | [] => (mapping, kept)
  | cmd :: cmds =>
      if is_hook hooks cmd then strip_loop hooks cmds (mapping ++ [None]) kept
      else strip_loop hooks cmds (mapping ++ [Some (as_u16 (length kept))]) (kept ++ [cmd])
  end.

Definition strip_hooks_only (ptb : MoveSequence) meta : MoveSequence :=
  let '(mapping, kept) := strip_loop (hook_idents meta) (seq_commands ptb) [] [] in
  MkSequence (seq_inputs ptb) (omap (λ cmd, remap_command_with_map cmd mapping) kept).

Definition remove_process_key_store (ptb : MoveSequence) : MoveSequence :=
  match last (seq_commands ptb) with
  | Some (TransferObjects _ (Input _)) =>
      MkSequence (removelast (seq_inputs ptb)) (removelast (seq_commands ptb))
  | _ => ptb
  end.

Definition is_from_balance (cmd : MoveSequenceCall) : bool :=
  match cmd with
  | Call movecall =>
      bool_decide (mc_module_id movecall = addr_two)
      && bool_decide (mc_module_name movecall = "coin"%string)
      && bool_decide (mc_function movecall = "from_balance"%string)
  | _ => false
  end.

(** The loop from the last index down, until a command is something else. *)
Fixpoint drop_from_balance (i : nat) (cmds : list MoveSequenceCall) : list MoveSequenceCall :=
  match i with
  | 0 => cmds
  | S i =>
      match cmds !! i with
      | Some cmd => if is_from_balance cmd then drop_from_balance i (delete i cmds) else cmds
      | None => cmds
      end
  end.
Definition remove_process_balance (ptb : MoveSequence) : MoveSequence :=
  MkSequence (seq_inputs ptb) (drop_from_balance (length (seq_commands ptb)) (seq_commands ptb)).

Definition strip_generated (ptb : MoveSequence) meta : MoveSequence :=
  remove_process_balance (remove_process_key_store (strip_hooks_only ptb meta)).

(** ** Weaving hooks into a sequence

    [apply_hooks] copies the base commands in order, re-indexed by
    [index_map], and puts hook calls before, between and after them. *)
Definition append_non_call_command (ptb : list MoveSequenceCall) (index_map : list N)
    (cmd : MoveSequenceCall) : panics (list MoveSequenceCall * list N) :=
  let new_idx := as_u16 (length ptb) in
  cmd ← remap_command cmd index_map;
  Ret (ptb ++ [cmd], index_map ++ [new_idx]).

Definition append_call_without_hooks (ptb : list MoveSequenceCall) (index_map : list N)
    (remapped_call : MoveCall) : list MoveSequenceCall * list N :=
  let new_idx := as_u16 (length ptb) in
  (ptb ++ [Call remapped_call], index_map ++ [new_idx]).

Inductive weave (hooks : list FunctionIdent) :
    list MoveSequenceCall → list N → list MoveSequenceCall → Prop :=
| weave_nil : weave hooks [] [] []
| weave_hook base index_map ptb cmd :
    weave hooks base index_map ptb → is_hook hooks cmd = true →
    weave hooks base index_map (ptb ++ [cmd])
| weave_call base index_map ptb mc mc' ptb' index_map' :
    weave hooks base index_map ptb → is_hook hooks (Call mc) = false →
    remap_command (Call mc) index_map = Ret (Call mc') →
    append_call_without_hooks ptb index_map mc' = (ptb', index_map') →
    weave hooks (base ++ [Call mc]) index_map' ptb'
| weave_other base index_map ptb cmd ptb' index_map' :
    weave hooks base index_map ptb → is_hook hooks cmd = false →
    append_non_call_command ptb index_map cmd = Ret (ptb', index_map') →
    weave hooks (base ++ [cmd]) index_map' ptb'.

(** *** Stripping undoes weaving *)
Lemma strip_loop_app hooks l k mapping kept :
  strip_loop hooks (l ++ k) mapping kept =
  let '(mapping, kept) := strip_loop hooks l mapping kept in strip_loop hooks k mapping kept.
Proof.
  revert mapping kept. induction l as [|c l IH]; intros mapping kept; [done|]. csimpl.
  by destruct (is_hook hooks c).
Qed.

Lemma remap_keeps_hook hooks cmd cmd' index_map :
  remap_command cmd index_map = Ret cmd' → is_hook hooks cmd' = is_hook hooks cmd.
Proof.
  destruct cmd; intros H; unfold remap_command in H; csimpl in H; panics_inv; subst; try done;
    unfold mret, panics_mret in *; by simplify_eq.
Qed.

(** A mapping that inverts an index map. *)
Definition inverts (mapping : list (option N)) (index_map : list N) : Prop :=
  ∀ i n, index_map !! i = Some n → mapping !! N.to_nat n = Some (Some (N.of_nat i)).

Lemma remap_arg_inverse mapping index_map a a' :
  inverts mapping index_map → remap_arg index_map a = Ret a' → remap_arg_with_map mapping a' = Some a.
Proof.
  intros Hinv H. destruct a; csimpl in H; panics_inv; subst; try done; simplify_eq; csimpl;
    by erewrite Hinv by done; csimpl; rewrite N2Nat.id.
Qed.

Lemma mapM_remap_inverse mapping index_map l l' :
  inverts mapping index_map → mapM (remap_arg index_map) l = Ret l' →
  mapM (remap_arg_with_map mapping) l' = Some l.
Proof.
  intros Hinv. revert l'. induction l as [|a l IH]; intros l' H; csimpl in H.
  - by injection H as <-.
  - apply panics_bind_Ret in H as (a' & Ha & H). apply panics_bind_Ret in H as (k & Hk & [= <-]).
    simpl. rewrite (remap_arg_inverse _ _ _ _ Hinv Ha). simpl. by rewrite (IH k Hk).
Qed.

Lemma remap_inverse mapping index_map cmd cmd' :
  inverts mapping index_map → remap_command cmd index_map = Ret cmd' →
  remap_command_with_map cmd' mapping = Some cmd.
Proof.
  intros Hinv H. unfold remap_command in H.
  destruct cmd; cbn [traverse_command] in H; panics_inv; unfold mret, panics_mret in *; simplify_eq;
    unfold remap_command_with_map; cbn [traverse_command mc_arguments set_arguments];
    repeat match goal with
    | H : mapM (remap_arg _) _ = Ret _ |- _ => apply (mapM_remap_inverse _ _ _ _ Hinv) in H; rewrite H; clear H
    | H : remap_arg _ _ = Ret _ |- _ => apply (remap_arg_inverse _ _ _ _ Hinv) in H; rewrite H; clear H; simpl
    end; try done.
  by destruct mc.
Qed.

Definition keeps (mapping : list (option N)) (index_map : list N) (kept base : list MoveSequenceCall) : Prop :=
  inverts mapping index_map ∧ length index_map = length base ∧
  Forall2 (λ c b, ∀ more, remap_command_with_map c (mapping ++ more) = Some b) kept base.

Lemma inverts_app mapping index_map more : inverts mapping index_map → inverts (mapping ++ more) index_map.
Proof. intros H i n Hi. by apply lookup_app_l_Some, H. Qed.

(** What stripping a woven sequence gives. *)
Definition stripped hooks (ptb : list MoveSequenceCall) index_map base : Prop :=
  ∃ mapping kept, strip_loop hooks ptb [] [] = (mapping, kept) ∧ length mapping = length ptb ∧
    length kept = length base ∧ length kept ≤ length ptb ∧ keeps mapping index_map kept base.

Lemma stripped_step hooks ptb index_map base cmd cmd' :
  is_hook hooks cmd = false → remap_command cmd index_map = Ret cmd' →
  (N.of_nat (length (ptb ++ [cmd'])) < 65536)%N → stripped hooks ptb index_map base →
  stripped hooks (ptb ++ [cmd']) (index_map ++ [as_u16 (length ptb)]) (base ++ [cmd]).
Proof.
  intros Hc Hr Hlen (mapping & kept & E & Hm & Hk & Hle & Hinv & Hi & Hf).
  rewrite length_app in Hlen. csimpl in Hlen. unfold stripped. rewrite strip_loop_app, E. csimpl.
  rewrite (remap_keeps_hook _ _ _ _ Hr), Hc. do 2 eexists. split_and!; [done|..].
  1-3: rewrite !length_app; csimpl; lia.
  split_and!.
  - intros i n [Hl|[Hge Hl]]%lookup_app_Some; [by apply (inverts_app mapping index_map)|].
    apply list_lookup_singleton_Some in Hl as [Hi0 <-].
    rewrite as_u16_small, lookup_app_r, Hm, Nat.sub_diag by lia. csimpl.
    rewrite as_u16_of_nat by lia. do 2 f_equal. lia.
  - rewrite !length_app. csimpl. lia.
  - apply Forall2_app.
    + eapply Forall2_impl; [exact Hf|]. intros c b H more. by rewrite <-app_assoc.
    + repeat constructor. intros more. eapply remap_inverse; [|done]. by do 2 apply inverts_app.
Qed.

Lemma stripped_hook hooks ptb index_map base cmd :
  is_hook hooks cmd = true → stripped hooks ptb index_map base →
  stripped hooks (ptb ++ [cmd]) index_map base.
Proof.
  intros Hc (mapping & kept & E & Hm & Hk & Hle & Hinv & Hi & Hf). unfold stripped.
  rewrite strip_loop_app, E. csimpl. rewrite Hc. do 2 eexists. split_and!; [done|..].
  1-3: rewrite ?length_app; csimpl; lia.
  split_and!; [by apply inverts_app|done|].
  eapply Forall2_impl; [exact Hf|]. intros c b H more. by rewrite <-app_assoc.
Qed.

Lemma weave_stripped hooks base index_map ptb :
  weave hooks base index_map ptb → (N.of_nat (length ptb) < 65536)%N →
  stripped hooks ptb index_map base.
Proof.
  induction 1 as [|base im ptb cmd Hw IH Hc|base im ptb mc mc' ptb' im' Hw IH Hc Hr Ha
    |base im ptb cmd ptb' im' Hw IH Hc Ha]; intros Hlen.
  - exists [], []. by split_and!.
  - apply stripped_hook; [done|]. apply IH. rewrite length_app in Hlen. csimpl in Hlen. lia.
  - injection Ha as <- <-. eapply stripped_step; [done..|]. apply IH.
    rewrite length_app in Hlen. csimpl in Hlen. lia.
  - apply panics_bind_Ret in Ha as (cmd' & Hr & [= <- <-]). eapply stripped_step; [done..|].
    apply IH. rewrite length_app in Hlen. csimpl in Hlen. lia.
Qed.

(** Stripping hooks undoes weaving them in: whatever hook calls are put
    before, between and after the commands of a base sequence, with the base
    commands re-indexed on the way, [strip_hooks_only] gives back exactly the
    base sequence - every reference points to the same command as before. *)
Theorem strip_weave meta inputs base index_map ptb :
  weave (hook_idents meta) base index_map ptb → (N.of_nat (length ptb) < 65536)%N →
  strip_hooks_only (MkSequence inputs ptb) meta = MkSequence inputs base.
Proof.
  intros Hw Hlen. destruct (weave_stripped _ _ _ _ Hw Hlen) as (mapping & kept & E & _ & _ & _ & _ & _ & Hf).
  unfold strip_hooks_only. csimpl. rewrite E. f_equal. apply omap_all.
  eapply Forall2_impl; [exact Hf|]. intros c b H. rewrite <-(app_nil_r mapping). apply H.
Qed.
End strip.

(** ** Witness *)
Definition demo_pre : FunctionIdent := FunctionIdent_new (MkMoveAddress 7) "movy_coin" "movy_pre_ptb".
Definition demo_fuzz_meta : FuzzMetadata (G := ListGraph) (Rand := ()) :=
  MkFuzzMetadata (MkMetadata type_graph_new demo_abis demo_abis ∅ ∅ ∅ ∅ ∅) () addr_one [] [] ∅ None ∅
    [] [] ∅ (MkHook [demo_pre] []) addr_zero 0 0 0.
Definition demo_call (f : string) (args : list SequenceArgument) : MoveSequenceCall :=
  Call {| mc_module_id := MkMoveAddress 7; mc_module_name := if decide (f = "movy_pre_ptb"%string) then "movy_coin" else "coin";
          mc_function := f; mc_type_arguments := []; mc_arguments := args |}.

Lemma strip_weave_witness :
  strip_hooks_only (MkSequence [] [demo_call "movy_pre_ptb" []; demo_call "mint" [];
                                   demo_call "movy_pre_ptb" []; demo_call "burn" [Result 1]]) demo_fuzz_meta =
  MkSequence [] [demo_call "mint" []; demo_call "burn" [Result 0]].
Proof.
  apply (strip_weave demo_fuzz_meta [] _ [1%N; 3%N]); [|reflexivity].
  assert (H0 := weave_hook (hook_idents demo_fuzz_meta) _ _ _ (demo_call "movy_pre_ptb" [])
    (weave_nil _) eq_refl).
  assert (H1 := weave_call _ _ _ _ _ _ _ _ H0 (eq_refl : is_hook (hook_idents demo_fuzz_meta) (demo_call "mint" []) = false)
    eq_refl eq_refl).
  assert (H2 := weave_hook _ _ _ _ (demo_call "movy_pre_ptb" []) H1 eq_refl).
  exact (weave_call _ _ _ _ _ _ _ _ H2 (eq_refl : is_hook (hook_idents demo_fuzz_meta) (demo_call "burn" [Result 0]) = false)
    eq_refl eq_refl).
Defined.
