(* ===== verification/Removal.v ===== *)
(** * Removal: taking commands out of a sequence

    [gen_remove_idxes] and [remove_command] of
    [crates/movy-fuzz/src/mutators/sequence.rs]: which commands have to go
    with a removed one, and re-indexing what stays. *)
From S2P Require Import Prelude Types Abi TypeGraph Meta Remap.
From Stdlib Require Import Sorted.

(** [crates/movy-fuzz/src/flash.rs] *)
Inductive FlashProvider :=
| Cetus (package : MoveAddress) (coin_a coin_b : MoveTypeTag)
    (global_config pool clock : SuiObjectInputArgument)
| Nemo (package : MoveAddress) (coin : MoveTypeTag)
    (version py_state clock : SuiObjectInputArgument).

Inductive MutationResult := Mutated | Skipped.

(** [a - b] on [usize]: an underflow panics. *)
Definition usize_sub (a b : nat) : panics nat := if a <? b then Panic else Ret (a - b).

Definition refers_to (idx : N) (arg : SequenceArgument) : bool :=
  match arg with Result i | NestedResult i _ => (i =? idx)%N | _ => false end.

(** The later move calls that use a result of command [idx]. *)
Definition dependents (cmds : list MoveSequenceCall) (idx : N) : list N :=
  omap (λ '(post_idx, post_cmd),
    match post_cmd with
    | Call movecall =>
        if existsb (refers_to idx) (mc_arguments movecall)
        then Some (as_u16 (N.to_nat idx + post_idx + 1)) else None
    | _ => None
    end) (imap pair (drop (N.to_nat idx + 1) cmds)).

(** The earlier commands whose hot potatoes the call consumes by value. *)
Definition consumed_potatoes (arguments : list SequenceArgument) (params : list MoveAbiSignatureToken) :
    list N :=
  omap (λ '(arg, param),
    match param with
    | Tok_Struct _ | Tok_StructInstantiation _ _ =>
        if is_hot_potato param then
          match arg with Result i | NestedResult i _ => Some i | _ => None end
        else None
    | _ => None
    end) (zip arguments params).

(** [sort_unstable] and [dedup]. *)
Definition sort_idxs : list N → list N := sort_dedup N.le.

(** Visit the indices that are not removed yet. *)
Fixpoint visit (rec : N → list N → panics (list N)) (idxs : list N) (removed_idxes : list N) :
    panics (list N) :=
  match idxs with
  | [] => Ret removed_idxes
  | idx :: idxs =>
      removed_idxes ← if decide (idx ∈ removed_idxes) then Ret removed_idxes else rec idx removed_idxes;
      visit rec idxs removed_idxes
  end.

(** Visit the splits right before a command, from its index down. *)
Fixpoint visit_splits (rec : N → list N → panics (list N)) (cmds : list MoveSequenceCall) (idx : nat)
    (removed_idxes : list N) : panics (list N) :=
  match idx with
  | 0 => Ret removed_idxes
  | S i =>
      if decide (N.of_nat i ∈ removed_idxes) then visit_splits rec cmds i removed_idxes else
      match cmds !! i with
      | Some (Call mc) =>
          if is_split mc then
            removed_idxes ← rec (N.of_nat i) removed_idxes; visit_splits rec cmds i removed_idxes
          else Ret removed_idxes
      | _ => Ret removed_idxes
      end
  end.

Section removal.
Context `{PG : PetGraph G} {Rand : Type}.
Context (flash : option FlashProvider) (meta : FuzzMetadata (G := G) (Rand := Rand)).

(** The early returns: commands that must stay. *)
Definition must_keep (len : nat) (idx : N) : panics bool :=
  match flash with
  | Some (Cetus _ _ _ _ _ _) =>
      last ← usize_sub len 3; Ret ((last <=? N.to_nat idx) || (idx =? 0)%N)
  | Some (Nemo _ _ _ _ _) =>
      last ← usize_sub len 1; Ret ((last <=? N.to_nat idx) || (idx <=? 1)%N)
  | None => Ret (len <=? N.to_nat idx)
  end.

(** [fuel] bounds the depth of the recursion; [gen_remove_total] shows that
    the number of commands is enough. *)
Fixpoint gen_remove_idxes (fuel : nat) (cmds : list MoveSequenceCall) (idx : N)
    (removed_idxes : list N) : panics (list N) :=
  match fuel with
  | 0 => Panic
  | S fuel =>
      keep ← must_keep (length cmds) idx;
      if keep : bool then Ret removed_idxes else
      let removed_idxes := removed_idxes ++ [idx] in
      let deleting_idxes := sort_idxs (dependents cmds idx) in
      removed_idxes ← visit (gen_remove_idxes fuel cmds) (reverse deleting_idxes) removed_idxes;
      cmd ← unwrap (cmds !! N.to_nat idx);
      match cmd with
      | Call movecall =>
          removed_idxes ← visit_splits (gen_remove_idxes fuel cmds) cmds (N.to_nat idx) removed_idxes;
          function ← unwrap (get_function (fm_base meta) (mc_module_id movecall)
                       (mc_module_name movecall) (mc_function movecall));
          let deleting_prev_idxes :=
            sort_idxs (consumed_potatoes (mc_arguments movecall) (fa_parameters function)) in
          removed_idxes ← visit (gen_remove_idxes fuel cmds) (reverse deleting_prev_idxes) removed_idxes;
          Ret (sort_idxs removed_idxes)
      | _ => Ret removed_idxes
      end
  end.

(** [Vec::remove]: panics out of range. *)
Definition vec_remove {A} (l : list A) (i : nat) : panics (list A) :=
  if decide (i < length l) then Ret (delete i l) else Panic.
Fixpoint remove_all {A} (idxs : list N) (l : list A) : panics (list A) :=
  match idxs with
  | [] => Ret l
  | i :: idxs => l ← vec_remove l (N.to_nat i); remove_all idxs l
  end.

Definition shift (removed_idxes : list N) (i : N) : N :=
  (i - N.of_nat (length (List.filter (λ r, (r <? i)%N) removed_idxes)))%N.
Definition shift_arg (removed_idxes : list N) (arg : SequenceArgument) : SequenceArgument :=
  match arg with
  | Result i => Result (shift removed_idxes i)
  | NestedResult i j => NestedResult (shift removed_idxes i) j
  | _ => arg
  end.
(** Only the arguments of move calls are shifted. *)
Definition shift_command (removed_idxes : list N) (cmd : MoveSequenceCall) : MoveSequenceCall :=
  match cmd with
  | Call movecall => Call (set_arguments movecall (map (shift_arg removed_idxes) (mc_arguments movecall)))
  | _ => cmd
  end.

Definition remove_command (ptb : MoveSequence) (idx : N) : panics (MutationResult * MoveSequence) :=
  let cmds := seq_commands ptb in
  removed_idxes ← gen_remove_idxes (S (length cmds)) cmds idx [];
  if (length cmds <=? length removed_idxes) || match removed_idxes with [] => true | _ => false end
  then Ret (Skipped, ptb) else
  cmds ← remove_all (reverse removed_idxes) cmds;
  Ret (Mutated, MkSequence (seq_inputs ptb) (map (shift_command removed_idxes) cmds)).

(** ** The set of removed commands *)
Section set.
Context (cmds : list MoveSequenceCall) (stay : N → bool).
Notation n := (length cmds).
Hypothesis Hstay : ∀ idx, must_keep n idx = Ret (stay idx).
Hypothesis Hrange : ∀ idx, stay idx = false → N.to_nat idx < n.
Hypothesis Hn : (N.of_nat n < 65536)%N.
Hypothesis Hfun : ∀ k mc, cmds !! k = Some (Call mc) →
  is_Some (get_function (fm_base meta) (mc_module_id mc) (mc_module_name mc) (mc_function mc)).

Definition calls (cmd : option MoveSequenceCall) : bool :=
  match cmd with Some (Call _) => true | _ => false end.

Lemma elem_of_dependents idx d :
  d ∈ dependents cmds idx ↔ ∃ mc, cmds !! N.to_nat d = Some (Call mc) ∧ (idx < d)%N ∧
    existsb (refers_to idx) (mc_arguments mc) = true.
Proof.
  unfold dependents. rewrite list_elem_of_omap. split.
  - intros ([p c] & Hin & Hd). apply list_elem_of_lookup in Hin as (j & Hj).
    rewrite list_lookup_imap in Hj. apply fmap_Some in Hj as (c' & Hc & [= -> ->]).
    destruct c' as [mc| | | | | |]; try done. destruct (existsb _ _) eqn:He; [|done].
    injection Hd as <-. rewrite lookup_drop in Hc. pose proof (lookup_lt_Some _ _ _ Hc).
    rewrite as_u16_of_nat by lia. rewrite Nat2N.id. exists mc. split_and!; [|lia|done].
    rewrite <-Hc. f_equal. lia.
  - intros (mc & Hc & Hlt & He). exists (N.to_nat d - (N.to_nat idx + 1), Call mc).
    pose proof (lookup_lt_Some _ _ _ Hc). split.
    + apply list_elem_of_lookup. exists (N.to_nat d - (N.to_nat idx + 1)).
      rewrite list_lookup_imap, lookup_drop.
      replace (N.to_nat idx + 1 + (N.to_nat d - (N.to_nat idx + 1))) with (N.to_nat d) by lia.
      by rewrite Hc.
    + rewrite He. f_equal. rewrite as_u16_of_nat by lia. lia.
Qed.

(** From [a] to [b] only removable commands are added, each with all its
    removable dependents. *)
Definition extends (a b : list N) : Prop :=
  a ⊆ b ∧ (NoDup a → NoDup b) ∧
  (∀ k, k ∈ b → k ∉ a → stay k = false ∧ ∀ d, d ∈ dependents cmds k → stay d = false → d ∈ b).

#[export] Instance extends_preorder : PreOrder extends.
Proof.
  split.
  - intros a. split_and!; [done|done|]. intros. done.
  - intros a b c (Hab & Nab & Dab) (Hbc & Nbc & Dbc). split_and!; [set_solver|auto|].
    intros k Hk Hka. destruct (decide (k ∈ b)) as [Hb|Hb]; [|by apply Dbc].
    destruct (Dab k Hb Hka) as [Hs Hd]. split; [done|]. intros d H1 H2. by apply Hbc, Hd.
Qed.

Definition valid (l : list N) : Prop := NoDup l ∧ ∀ k, k ∈ l → N.to_nat k < n.

Lemma valid_extends a b : valid a → extends a b → valid b.
Proof.
  intros [Hnd Hv] (_ & HN & Hd). split; [by apply HN|]. intros k Hk.
  destruct (decide (k ∈ a)); [by apply Hv|]. by apply Hrange, Hd.
Qed.

Lemma valid_length l : valid l → length l ≤ n.
Proof.
  intros [Hnd Hv]. trans (length (seq 0 n)); [|by rewrite length_seq].
  rewrite <-(length_map N.to_nat l).
  apply submseteq_length, NoDup_submseteq; [apply NoDup_fmap_2; [intros ??; lia|done]|].
  intros x (k & -> & Hk)%list_elem_of_fmap. apply elem_of_seq. pose proof (Hv k Hk). lia.
Qed.

Lemma extends_length a b : valid a → extends a b → length a ≤ length b.
Proof. intros [Hnd _] (Hsub & _). by apply submseteq_length, NoDup_submseteq. Qed.

(** What a recursive call is assumed, and shown, to do. *)
Definition removes (rec : N → list N → panics (list N)) (m : nat) : Prop :=
  ∀ idx removed, valid removed → idx ∉ removed → n < m + length removed →
  ∃ r, rec idx removed = Ret r ∧ extends removed r ∧ (stay idx = false → idx ∈ r) ∧
    (calls (cmds !! N.to_nat idx) = true ∨ StronglySorted N.le (removed ++ [idx]) →
      StronglySorted N.le removed → StronglySorted N.le r).

Lemma visit_ok rec m idxs removed : removes rec m →
  valid removed → n < m + length removed →
  ∃ r, visit rec idxs removed = Ret r ∧ extends removed r ∧
    (∀ i, i ∈ idxs → stay i = false → i ∈ r) ∧
    ((∀ i, i ∈ idxs → calls (cmds !! N.to_nat i) = true) →
      StronglySorted N.le removed → StronglySorted N.le r).
Proof.
  intros Hrec. revert removed. induction idxs as [|i idxs IH]; intros removed Hv Hm.
  - exists removed. split_and!; [done|reflexivity|set_solver|done].
  - simpl. assert (∃ r1, (if decide (i ∈ removed) then Ret removed else rec i removed) = Ret r1 ∧
      extends removed r1 ∧ (stay i = false → i ∈ r1) ∧
      (calls (cmds !! N.to_nat i) = true → StronglySorted N.le removed → StronglySorted N.le r1))
      as (r1 & -> & H1 & Hi & Hs1).
    { case_decide as Hin; [exists removed; split_and!; try done; reflexivity|].
      destruct (Hrec i removed Hv Hin Hm) as (r1 & ? & ? & ? & Hs). exists r1. split_and!; auto. }
    pose proof (valid_extends _ _ Hv H1) as Hv1. pose proof (extends_length _ _ Hv H1).
    simpl. destruct (IH r1 Hv1) as (r & -> & H2 & Hin & Hs2); [lia|]. exists r. split_and!; [done| | |].
    + by etrans.
    + intros j [->|Hj]%elem_of_cons Hst; [|by apply Hin]. destruct H2 as [Hsub _]. by apply Hsub, Hi.
    + intros Hc Hs. apply Hs2; [intros j Hj; apply Hc; by right|]. apply Hs1; [apply Hc; by left|done].
Qed.

Lemma visit_splits_ok rec m k removed : removes rec m →
  valid removed → n < m + length removed →
  ∃ r, visit_splits rec cmds k removed = Ret r ∧ extends removed r.
Proof.
  intros Hrec. revert removed. induction k as [|i IH]; intros removed Hv Hm.
  - exists removed. split; [done|reflexivity].
  - simpl. case_decide as Hin; [by apply IH|].
    destruct (cmds !! i) as [[mc| | | | | |]|]; try (exists removed; split; [done|reflexivity]).
    destruct (is_split mc); [|exists removed; split; [done|reflexivity]].
    destruct (Hrec (N.of_nat i) removed Hv Hin Hm) as (r1 & -> & H1 & _). simpl.
    pose proof (valid_extends _ _ Hv H1) as Hv1. pose proof (extends_length _ _ Hv H1).
    destruct (IH r1 Hv1) as (r & -> & H2); [lia|]. exists r. split; [done|by etrans].
Qed.

Lemma extends_sort l : extends l (sort_idxs l).
Proof.
  split_and!.
  - intros k. unfold sort_idxs. by rewrite elem_of_sort_dedup.
  - intros _. unfold sort_idxs, sort_dedup.
    apply (NoDup_dedup N.le), StronglySorted_merge_sort; apply _.
  - intros k Hk Hn'. unfold sort_idxs in Hk. by rewrite elem_of_sort_dedup in Hk.
Qed.

Lemma sort_idxs_sorted l : StronglySorted N.le (sort_idxs l).
Proof. apply (NoDup_dedup N.le), StronglySorted_merge_sort; apply _. Qed.

Lemma extends_push removed idx r : stay idx = false → idx ∉ removed →
  extends (removed ++ [idx]) r →
  (∀ d, d ∈ dependents cmds idx → stay d = false → d ∈ r) → extends removed r.
Proof.
  intros Hs Hni (Hsub & Hnd & Hd) Hdeps. split_and!.
  - set_solver.
  - intros H. apply Hnd. apply NoDup_app. split_and!; [done|set_solver|apply NoDup_singleton].
  - intros k Hk Hnk. destruct (decide (k = idx)) as [->|Hne]; [done|]. apply Hd; set_solver.
Qed.

Lemma gen_ok fuel : removes (gen_remove_idxes fuel cmds) fuel.
Proof.
  induction fuel as [|fuel IH]; intros idx removed Hv Hni Hm.
  { pose proof (valid_length _ Hv). lia. }
  cbn [gen_remove_idxes]. rewrite Hstay. simpl. destruct (stay idx) eqn:Hs.
  { exists removed. by split_and!. }
  pose proof (Hrange idx Hs) as Hidx.
  assert (Hv0 : valid (removed ++ [idx])).
  { destruct Hv as [Hnd Hr]. split.
    - apply NoDup_app. split_and!; [done|set_solver|apply NoDup_singleton].
    - intros k [Hk|Hk]%elem_of_app; [by apply Hr|]. apply list_elem_of_singleton in Hk as ->. done. }
  assert (Hm0 : n < fuel + length (removed ++ [idx])) by (rewrite length_app; simpl; lia).
  destruct (visit_ok _ _ (reverse (sort_idxs (dependents cmds idx))) _ IH Hv0 Hm0)
    as (r1 & -> & H1 & Hin & Hs1). simpl.
  assert (Hdeps : ∀ i, i ∈ reverse (sort_idxs (dependents cmds idx)) ↔ i ∈ dependents cmds idx).
  { intros i. rewrite elem_of_reverse. unfold sort_idxs. by rewrite elem_of_sort_dedup. }
  assert (Hr1 : extends removed r1).
  { apply (extends_push removed idx); [done..|]. intros d Hd. by apply Hin, Hdeps. }
  assert (Hidx1 : idx ∈ r1) by (destruct H1 as [H1 _]; apply H1; set_solver).
  destruct (lookup_lt_is_Some_2 cmds _ Hidx) as [cmd Hcmd]. rewrite Hcmd. simpl.
  assert (Hcalls : ∀ i, i ∈ reverse (sort_idxs (dependents cmds idx)) → calls (cmds !! N.to_nat i) = true).
  { intros i (mc & -> & _)%Hdeps%elem_of_dependents. done. }
  destruct cmd as [mc| | | | | |]; try (exists r1; split_and!; try done;
    intros [|Hs0] Hs'; [done|]; apply Hs1; [exact Hcalls|done]).
  pose proof (valid_extends _ _ Hv0 H1) as Hv1. pose proof (extends_length _ _ Hv0 H1).
  destruct (visit_splits_ok _ _ (N.to_nat idx) r1 IH Hv1) as (r2 & -> & H2); [lia|]. simpl.
  pose proof (valid_extends _ _ Hv1 H2) as Hv2. pose proof (extends_length _ _ Hv1 H2).
  destruct (Hfun _ _ Hcmd) as [f ->]. simpl.
  destruct (visit_ok _ _ (reverse (sort_idxs (consumed_potatoes (mc_arguments mc) (fa_parameters f))))
    r2 IH Hv2) as (r3 & -> & H3 & _); [lia|]. simpl.
  exists (sort_idxs r3). assert (extends r1 (sort_idxs r3)) as Hfin
    by (etrans; [exact H2|]; etrans; [exact H3|apply extends_sort]).
  split_and!; [done|by etrans| |].
  - intros _. destruct Hfin as [Hsub _]. by apply Hsub.
  - intros _ _. apply sort_idxs_sorted.
Qed.
End set.

Lemma must_keep_stay (cmds : list MoveSequenceCall) :
  (flash = None ∨ 3 ≤ length cmds) → ∃ stay, (∀ idx, must_keep (length cmds) idx = Ret (stay idx)) ∧
    ∀ idx, stay idx = false → N.to_nat idx < length cmds.
Proof.
  intros H. unfold must_keep. destruct flash as [[]|].
  - destruct H as [|H]; [done|].
    exists (λ idx, (length cmds - 3 <=? N.to_nat idx) || (idx =? 0)%N). split.
    + intros idx. unfold usize_sub. replace (length cmds <? 3) with false; [done|]. symmetry. by apply Nat.ltb_ge.
    + intros idx Hi. bool_hyps. apply Nat.leb_gt in H0. lia.
  - destruct H as [|H]; [done|].
    exists (λ idx, (length cmds - 1 <=? N.to_nat idx) || (idx <=? 1)%N). split.
    + intros idx. unfold usize_sub. replace (length cmds <? 1) with false; [done|]. symmetry. apply Nat.ltb_ge. lia.
    + intros idx Hi. bool_hyps. apply Nat.leb_gt in H0. lia.
  - exists (λ idx, length cmds <=? N.to_nat idx). split; [done|].
    intros idx Hi. by apply Nat.leb_gt in Hi.
Qed.

(** Every move call of the sequence is to a known function. *)
Definition known_functions (cmds : list MoveSequenceCall) : Prop :=
  ∀ k mc, cmds !! k = Some (Call mc) →
  is_Some (get_function (fm_base meta) (mc_module_id mc) (mc_module_name mc) (mc_function mc)).

Lemma gen_remove_spec cmds idx :
  (N.of_nat (length cmds) < 65536)%N → known_functions cmds → flash = None ∨ 3 ≤ length cmds →
  ∃ r, gen_remove_idxes (S (length cmds)) cmds idx [] = Ret r ∧
    StronglySorted N.lt r ∧ (∀ k, k ∈ r → N.to_nat k < length cmds) ∧
    (must_keep (length cmds) idx = Ret false → idx ∈ r) ∧
    ∀ k d, k ∈ r → d ∈ dependents cmds k → must_keep (length cmds) d = Ret false → d ∈ r.
Proof.
  intros Hn Hfun Hfl. destruct (must_keep_stay cmds Hfl) as (stay & Hst & Hrange).
  assert (Hv : valid cmds []) by (split; [constructor|set_solver]).
  destruct (gen_ok cmds stay Hst Hrange Hn Hfun (S (length cmds)) idx [] Hv)
    as (r & -> & Hext & Hin & Hs); [set_solver|simpl; lia|].
  destruct (valid_extends cmds stay Hrange _ _ Hv Hext) as [Hnd Hr].
  exists r. split_and!; [done| |done| |].
  - assert (StronglySorted N.le r) as Hle by (apply Hs; [right|]; repeat constructor).
    clear -Hnd Hle. induction Hle as [|k r Hle IH Hall]; [constructor|]. apply NoDup_cons in Hnd as [Hk Hnd].
    constructor; [by apply IH|]. rewrite Forall_forall in *. intros j Hj. specialize (Hall j Hj).
    assert (k ≠ j) by congruence. lia.
  - intros H. apply Hin. rewrite Hst in H. by injection H.
  - intros k d Hk Hd H. rewrite Hst in H. injection H as H.
    destruct Hext as (_ & _ & Hc). by apply (Hc k Hk ltac:(set_solver)).
Qed.

(** C9: choosing what to remove terminates with a closed set: on a sequence
    of known functions [gen_remove_idxes] returns within a recursion depth of
    the number of commands, its result is strictly increasing and in range,
    holds the requested command unless that one has to stay, and with every
    command also each move call that uses its results and may be removed. *)
Theorem gen_remove_total cmds idx :
  (N.of_nat (length cmds) < 65536)%N → known_functions cmds → flash = None ∨ 3 ≤ length cmds →
  ∃ r, gen_remove_idxes (S (length cmds)) cmds idx [] = Ret r ∧
    StronglySorted N.lt r ∧ (∀ k, k ∈ r → N.to_nat k < length cmds) ∧
    (must_keep (length cmds) idx = Ret false → idx ∈ r) ∧
    ∀ k d, k ∈ r → d ∈ dependents cmds k → must_keep (length cmds) d = Ret false → d ∈ r.
Proof. apply gen_remove_spec. Qed.

(** ** What stays, and where *)
Definition kept_idxs (removed : list N) (n : nat) : list nat :=
  List.filter (λ k, negb (bool_decide (N.of_nat k ∈ removed))) (seq 0 n).

Lemma remove_all_app {A} (idxs : list N) (l1 l2 l1' : list A) :
  remove_all idxs l1 = Ret l1' → remove_all idxs (l1 ++ l2) = Ret (l1' ++ l2).
Proof.
  revert l1. induction idxs as [|i idxs IH]; intros l1 H; simpl in *; [by injection H as ->|].
  apply panics_bind_Ret in H as (k & Hk & H). unfold vec_remove in Hk.
  case_decide as Hlt; [|done]. injection Hk as <-.
  unfold vec_remove at 1. rewrite decide_True by (rewrite length_app; lia). simpl.
  rewrite delete_take_drop, take_app_le, drop_app_le by lia. rewrite app_assoc, <-delete_take_drop.
  by apply IH.
Qed.

Lemma remove_all_map {A B} (f : A → B) (idxs : list N) (l l' : list A) :
  remove_all idxs l = Ret l' → remove_all idxs (map f l) = Ret (map f l').
Proof.
  revert l. induction idxs as [|i idxs IH]; intros l H; simpl in *; [by injection H as ->|].
  apply panics_bind_Ret in H as (k & Hk & H). unfold vec_remove in *.
  case_decide as Hlt; [|done]. injection Hk as <-. rewrite length_map, decide_True by done. simpl.
  rewrite <-delete_map. by apply IH.
Qed.

Lemma remove_all_seq (removed : list N) n :
  StronglySorted N.lt removed → (∀ k, k ∈ removed → N.to_nat k < n) →
  remove_all (reverse removed) (seq 0 n) = Ret (kept_idxs removed n).
Proof.
  revert n. induction removed as [|m removed IH] using rev_ind; intros n Hs Hr.
  - unfold kept_idxs. rewrite filter_all; [done|]. intros k _. by rewrite bool_decide_false by set_solver.
  - apply StronglySorted_snoc in Hs as [Hs Hm]. rewrite Forall_forall in Hm.
    assert (N.to_nat m < n) as Hmn by (apply Hr; set_solver).
    rewrite reverse_snoc. simpl. unfold vec_remove. rewrite length_seq, decide_True by done. simpl.
    rewrite (seq_split n (N.to_nat m) Hmn).
    rewrite delete_take_drop, (take_app_length' (seq 0 (N.to_nat m))) by (by rewrite length_seq).
    replace (S (N.to_nat m)) with (length (seq 0 (N.to_nat m)) + 1) at 1 by (rewrite length_seq; lia).
    rewrite <-drop_drop, drop_app_length. simpl. rewrite drop_0.
    erewrite remove_all_app; [|apply IH; [done|]].
    2: { intros k Hk. specialize (Hm k Hk). lia. }
    f_equal. unfold kept_idxs. rewrite (seq_split n (N.to_nat m) Hmn), List.filter_app. f_equal.
    + apply filter_ext_elem. intros k Hk%elem_of_seq. f_equal. apply bool_decide_ext.
      rewrite elem_of_app, list_elem_of_singleton. split; [by left|]. intros [?|?]; [done|lia].
    + simpl. rewrite bool_decide_true by (rewrite N2Nat.id; set_solver). simpl.
      symmetry. apply filter_all. intros k Hk%elem_of_seq. apply negb_true_iff, bool_decide_false.
      intros [Hin|Hin]%elem_of_app; [specialize (Hm _ Hin); lia|].
      apply list_elem_of_singleton in Hin. lia.
Qed.

(** The shifted index of a kept command is its position among the kept. *)
Lemma shift_kept removed n j k :
  NoDup removed → kept_idxs removed n !! j = Some k → shift removed (N.of_nat k) = N.of_nat j.
Proof.
  intros Hnd Hj. set (out := λ k, bool_decide (N.of_nat k ∈ removed)).
  assert (k ∈ kept_idxs removed n) as Hk by (by eapply list_elem_of_lookup_2).
  apply elem_of_filter_bool in Hk as [Hk Hout]. apply elem_of_seq in Hk.
  assert (Hpos : kept_idxs removed n !! length (List.filter (λ k, negb (out k)) (seq 0 k)) = Some k).
  { unfold kept_idxs. rewrite (seq_split n k) by lia. rewrite List.filter_app. simpl. rewrite Hout.
    by apply list_lookup_middle. }
  assert (j = length (List.filter (λ k, negb (out k)) (seq 0 k))) as ->.
  { eapply NoDup_lookup; [|exact Hj|exact Hpos]. apply NoDup_filter_bool, NoDup_seq. }
  pose proof (filter_split out (seq 0 k)) as Hsum. rewrite length_seq in Hsum.
  assert (Hcount : length (List.filter (λ r, (r <? N.of_nat k)%N) removed) =
    length (List.filter out (seq 0 k))).
  { rewrite <-(length_map N.of_nat (List.filter out _)). apply Permutation_length.
    apply NoDup_Permutation.
    - by apply NoDup_filter_bool.
    - apply NoDup_fmap_2; [intros ??; lia|]. apply NoDup_filter_bool, NoDup_seq.
    - intros r. rewrite elem_of_filter_bool, list_elem_of_fmap, N.ltb_lt. split.
      + intros [Hr Hlt]. exists (N.to_nat r). rewrite N2Nat.id. split; [done|].
        apply elem_of_filter_bool. rewrite elem_of_seq. split; [lia|].
        unfold out. rewrite N2Nat.id. by apply bool_decide_true.
      + intros (i & -> & Hi). apply elem_of_filter_bool in Hi as [Hi Ho].
        apply elem_of_seq in Hi. apply bool_decide_eq_true in Ho. split; [done|lia]. }
  unfold shift. rewrite Hcount. lia.
Qed.

(** Two arguments that mean the same, before and after the removal. *)
Definition same_ref (kept : list nat) (a a' : SequenceArgument) : Prop :=
  match a, a' with
  | Result i, Result i' => kept !! N.to_nat i' = Some (N.to_nat i)
  | NestedResult i j, NestedResult i' j' => j' = j ∧ kept !! N.to_nat i' = Some (N.to_nat i)
  | _, _ => a' = a
  end.

(** Move calls refer to earlier commands only. *)
Definition backward (cmds : list MoveSequenceCall) : Prop :=
  ∀ k mc i, cmds !! k = Some (Call mc) → existsb (refers_to i) (mc_arguments mc) = true → N.to_nat i < k.

Definition kept_command (kept : list nat) (cmds : list MoveSequenceCall) (k : nat)
    (c' : MoveSequenceCall) : Prop :=
  match cmds !! k with
  | Some (Call mc) => ∃ args, c' = Call (set_arguments mc args) ∧
      Forall2 (same_ref kept) (mc_arguments mc) args
  | Some c => c' = c
  | None => False
  end.

Lemma shift_args_same removed n args : NoDup removed →
  (∀ i, existsb (refers_to i) args = true → N.to_nat i ∈ kept_idxs removed n) →
  Forall2 (same_ref (kept_idxs removed n)) args (map (shift_arg removed) args).
Proof.
  intros Hnd. induction args as [|a args IH]; intros H; simpl; constructor.
  - destruct a as [|i|i|i j]; simpl; try done.
    all: destruct (proj1 (list_elem_of_lookup _ _) (H i ltac:(simpl; by rewrite N.eqb_refl))) as [p Hp];
      pose proof (shift_kept _ _ _ _ Hnd Hp) as Hs; rewrite N2Nat.id in Hs; rewrite Hs, Nat2N.id.
    + done.
    + by split.
  - apply IH. intros i Hi. apply H. simpl. rewrite Hi. apply orb_true_r.
Qed.

Lemma NoDup_sorted r : StronglySorted N.lt r → NoDup r.
Proof.
  induction 1 as [|x l _ IH Hx]; constructor; [|done].
  intros Hin. rewrite Forall_forall in Hx. specialize (Hx x Hin). lia.
Qed.

Lemma elem_of_kept r n k : k ∈ kept_idxs r n ↔ k < n ∧ N.of_nat k ∉ r.
Proof.
  unfold kept_idxs. rewrite elem_of_filter_bool, elem_of_seq, negb_true_iff, bool_decide_eq_false.
  split; intros [? ?]; (split; [lia|done]).
Qed.

Lemma kept_sorted r n : StronglySorted lt (kept_idxs r n).
Proof.
  unfold kept_idxs. generalize 0 as s. induction n as [|m IH]; intros s; [constructor|].
  simpl. destruct (negb _); [|apply IH]. constructor; [apply IH|].
  rewrite Forall_forall. intros k Hk%elem_of_filter_bool. rewrite elem_of_seq in Hk. lia.
Qed.

Lemma kept_nonempty r n : NoDup r → (∀ k, k ∈ r → N.to_nat k < n) → length r < n → kept_idxs r n ≠ [].
Proof.
  intros Hnd Hr Hlt Hnil. assert (Hsub : seq 0 n ⊆ map N.to_nat r).
  { intros k Hk%elem_of_seq. apply list_elem_of_fmap. exists (N.of_nat k). split; [lia|].
    destruct (decide (N.of_nat k ∈ r)) as [|Hni]; [done|].
    assert (k ∈ kept_idxs r n) as Hin by (apply elem_of_kept; split; [lia|done]). rewrite Hnil in Hin. set_solver. }
  apply NoDup_submseteq, submseteq_length in Hsub; [|apply NoDup_seq].
  rewrite length_seq, length_map in Hsub. lia.
Qed.

Definition command_at (cmds : list MoveSequenceCall) (k : nat) : MoveSequenceCall :=
  default (Publish [] []) (cmds !! k).

Lemma remove_all_kept r cmds : StronglySorted N.lt r → (∀ k, k ∈ r → N.to_nat k < length cmds) →
  remove_all (reverse r) cmds = Ret (map (command_at cmds) (kept_idxs r (length cmds))).
Proof.
  intros Hs Hr. assert (Hcmds : cmds = map (command_at cmds) (seq 0 (length cmds))).
  { apply list_eq. intros k. unfold command_at. rewrite list_lookup_fmap.
    destruct (decide (k < length cmds)) as [Hk|Hk].
    - rewrite lookup_seq_lt by done. simpl. by destruct (lookup_lt_is_Some_2 cmds k Hk) as [c ->].
    - rewrite (lookup_ge_None_2 cmds) by lia. by rewrite lookup_seq_ge by lia. }
  rewrite Hcmds at 1. apply remove_all_map. by apply remove_all_seq.
Qed.

Lemma kept_command_shift r cmds k : NoDup r → k ∈ kept_idxs r (length cmds) →
  (∀ mc i, cmds !! k = Some (Call mc) → existsb (refers_to i) (mc_arguments mc) = true →
    N.to_nat i ∈ kept_idxs r (length cmds)) →
  kept_command (kept_idxs r (length cmds)) cmds k (shift_command r (command_at cmds k)).
Proof.
  intros Hnd Hk Href. apply elem_of_kept in Hk as [Hlen _]. unfold kept_command, command_at.
  destruct (lookup_lt_is_Some_2 cmds k Hlen) as [c Hc]. rewrite Hc. simpl.
  destruct c as [mc| | | | | |]; try done. eexists. split; [done|].
  apply shift_args_same; [done|]. intros i. by apply Href.
Qed.

(** C8: removing a command keeps the meaning of the rest: on a sequence of
    known functions whose calls refer backwards, [remove_command] never
    panics; it either skips and changes nothing, or drops the requested
    command and more, but not everything: what stays is in the old order, and
    each move call refers to the very commands it referred to before. The
    other kinds of command are left as they are, their indices included. *)
Theorem remove_command_sound ptb idx :
  let cmds := seq_commands ptb in
  flash = None → (N.of_nat (length cmds) < 65536)%N → known_functions cmds → backward cmds →
  ∃ res ptb', remove_command ptb idx = Ret (res, ptb') ∧ seq_inputs ptb' = seq_inputs ptb ∧
    match res with
    | Skipped => ptb' = ptb
    | Mutated => ∃ kept, StronglySorted lt kept ∧ N.to_nat idx ∉ kept ∧ kept ≠ [] ∧
        Forall2 (kept_command kept cmds) kept (seq_commands ptb')
    end.
Proof.
  intros cmds Hfl Hn Hfun Hback.
  destruct (gen_remove_spec cmds idx Hn Hfun (or_introl Hfl)) as (r & Hr & Hs & Hrange & Hidx & Hclosed).
  unfold remove_command. fold cmds. rewrite Hr. simpl.
  destruct (_ || _) eqn:Hskip; [by exists Skipped, ptb|]. apply orb_false_iff in Hskip as [Hlt Hne].
  apply Nat.leb_gt in Hlt.
  pose proof (NoDup_sorted r Hs) as Hnd. rewrite (remove_all_kept r cmds Hs Hrange). simpl.
  do 2 eexists. split_and!; [done|done|]. exists (kept_idxs r (length cmds)). split_and!.
  - apply kept_sorted.
  - rewrite elem_of_kept, N2Nat.id. intros [Hlen Hni]. apply Hni, Hidx. unfold must_keep. rewrite Hfl.
    f_equal. by apply Nat.leb_gt.
  - by apply kept_nonempty.
  - simpl. rewrite !Forall2_fmap_r. apply Forall_Forall2_diag, Forall_forall. intros k Hk.
    apply (kept_command_shift r cmds k Hnd); [done|]. intros mc i Hc Hi.
    apply elem_of_kept in Hk as [Hlen Hnr]. pose proof (Hback k mc i Hc Hi). apply elem_of_kept.
    split; [lia|]. rewrite N2Nat.id. intros Hir. apply Hnr, (Hclosed i); [done| |].
    + apply (elem_of_dependents cmds); [done|]. exists mc. rewrite Nat2N.id. split_and!; [done|lia|done].
    + unfold must_keep. rewrite Hfl. f_equal. apply Nat.leb_gt. lia.
Qed.
End removal.

(** ** Witness: a mint, another one, and a burn of the first *)
Definition demo_cmds : list MoveSequenceCall :=
  [demo_call "mint" []; demo_call "mint" []; demo_call "burn" [Result 0]].

Lemma demo_known : known_functions demo_fuzz_meta demo_cmds.
Proof.
  intros [|[|[|k]]] mc H; try done; injection H as <-; vm_compute; by eexists.
Qed.

Lemma demo_backward : backward demo_cmds.
Proof.
  intros [|[|[|k]]] mc i H Hi; try done; injection H as <-; simpl in Hi; try done.
  by destruct i; [simpl; lia|].
Qed.

Lemma gen_remove_total_witness :
  ∃ r, gen_remove_idxes None demo_fuzz_meta 4 demo_cmds 0 [] = Ret r ∧ StronglySorted N.lt r ∧ (0 ∈ r)%N.
Proof.
  destruct (gen_remove_total None demo_fuzz_meta demo_cmds 0 eq_refl demo_known (or_introl eq_refl))
    as (r & Hr & Hs & _ & H0 & _).
  exists r. split_and!; [done|done|]. by apply H0.
Defined.

Lemma remove_command_sound_witness :
  ∃ res ptb', remove_command None demo_fuzz_meta (MkSequence [] demo_cmds) 0 = Ret (res, ptb') ∧
    seq_inputs ptb' = [].
Proof.
  destruct (remove_command_sound None demo_fuzz_meta (MkSequence [] demo_cmds) 0 eq_refl eq_refl
    demo_known demo_backward) as (res & ptb' & H & Hin & _).
  by exists res, ptb'.
Defined.

Example remove_first_mint :
  remove_command None demo_fuzz_meta (MkSequence [] demo_cmds) 0 =
  Ret (Mutated, MkSequence [] [demo_call "mint" []]).
Proof. vm_compute. reflexivity. Qed.

(** A transfer of a removed result stays, with its index. *)
Example remove_leaves_transfer :
  remove_command None demo_fuzz_meta
    (MkSequence [] [demo_call "mint" []; demo_call "mint" []; TransferObjects [Result 1] GasCoin]) 1 =
  Ret (Mutated, MkSequence [] [demo_call "mint" []; TransferObjects [Result 1] GasCoin]).
Proof. vm_compute. reflexivity. Qed.
