(* ===== verification/Cache.v ===== *)
(** * Cache: the object cache in front of a forked store

    [crates/movy-sui/src/database/cache.rs]: [CachedSnapshot] and the storage
    traits of [CachedStore]. The objects and the wrapped store are not code of
    the repository: [ObjectLib] and [Backing] are their interfaces. A
    [RefCell] borrow is state passing. *)
From S2P Require Import Prelude Types FuzzTracer.

Class ObjectLib := {
  Object : Type;
  obj_id : Object → MoveAddress;
  obj_version : Object → N;
}.

(** The wrapped store [T]. *)
Record Backing `{OL : ObjectLib} := {
  bk_get_package_object : MoveAddress → result (option Object);
  bk_get_object : MoveAddress → option Object;
  bk_get_object_by_key : MoveAddress → N → option Object;
  bk_get_object_received_at_version : MoveAddress → MoveAddress → N → N → result (option Object);
  bk_read_child_object : MoveAddress → MoveAddress → N → result (option Object);
}.

(** [objects: BTreeMap<ObjectID, BTreeMap<u64, Option<Object>>>] *)
Abbreviation CachedSnapshot := (gmap MoveAddress (gmap N (option Object))).

Section cache.
Context `{OL : ObjectLib}.

Inductive ResolvedResult := Unbound | KnownNotExisting | Existing (object : Object).
Definition into_object (r : ResolvedResult) : option Object :=
  match r with Existing obj => Some obj | _ => None end.

Definition entry (s : CachedSnapshot) (object : MoveAddress) (version : N) : option (option Object) :=
  t ← s !! object; t !! version.

Definition object_exact_version (s : CachedSnapshot) (object : MoveAddress) (version : N) :
    option Object := o ← entry s object version; o.

(** [vmap.range(0..=upbound).max_by_key(|v| v.0)] *)
Definition newest_below (vmap : gmap N (option Object)) (upbound : N) : option (N * option Object) :=
  btree_last (filter (λ x, (x.1 ≤ upbound)%N) vmap).

Definition object_resolve_upperbound_details (s : CachedSnapshot) (object : MoveAddress) (upbound : N) :
    ResolvedResult :=
  match s !! object with
  | Some vmap =>
      match newest_below vmap upbound with
      | Some (_, Some object) => Existing object
      | Some (_, None) => KnownNotExisting
      | None => Unbound
      end
  | None => Unbound
  end.
Definition object_resolved_upperbound (s : CachedSnapshot) (object : MoveAddress) (upbound : N) :
    option Object := into_object (object_resolve_upperbound_details s object upbound).

Definition u64_max : N := 18446744073709551615.
Definition object_id_cached (s : CachedSnapshot) (object : MoveAddress) : option Object :=
  object_resolved_upperbound s object u64_max.

Definition cache_query (object_id : MoveAddress) (version : N) (object : option Object)
    (s : CachedSnapshot) : CachedSnapshot :=
  <[object_id := <[version := object]> (default ∅ (s !! object_id))]> s.
Definition cache_object_only (object : Object) : CachedSnapshot → CachedSnapshot :=
  cache_query (obj_id object) (obj_version object) (Some object).

(** Snapshots: [reset] takes the cache away, [restore_snapshot] merges one in,
    its entries first. *)
Definition reset (s : CachedSnapshot) : CachedSnapshot * CachedSnapshot := (s, ∅).
Definition restore_snapshot (dump inner : CachedSnapshot) : CachedSnapshot :=
  union_with (λ old mp, Some (mp ∪ old)) inner dump.

(** ** Reads *)
Section reads.
Context (store : Backing).

Definition get_package_object (package_id : MoveAddress) (s : CachedSnapshot) :
    result (option Object) * CachedSnapshot :=
  match object_id_cached s package_id with
  | Some hit => (Ok (Some hit), s)
  | None =>
      match bk_get_package_object store package_id with
      | Err => (Err, s)
      | Ok (Some hit) => (Ok (Some hit), cache_object_only hit s)
      | Ok None => (Ok None, s)
      end
  end.

Definition get_object (object_id : MoveAddress) (s : CachedSnapshot) : option Object * CachedSnapshot :=
  match object_id_cached s object_id with
  | Some hit => (Some hit, s)
  | None =>
      match bk_get_object store object_id with
      | Some hit => (Some hit, cache_object_only hit s)
      | None => (None, s)
      end
  end.

Definition get_object_by_key (object_id : MoveAddress) (version : N) (s : CachedSnapshot) :
    option Object * CachedSnapshot :=
  match object_exact_version s object_id version with
  | Some hit => (Some hit, s)
  | None =>
      match bk_get_object_by_key store object_id version with
      | Some hit => (Some hit, cache_object_only hit s)
      | None => (None, s)
      end
  end.

Definition get_object_received_at_version (owner receiving_object_id : MoveAddress)
    (receive_object_at_version epoch_id : N) (s : CachedSnapshot) : result (option Object) * CachedSnapshot :=
  match object_exact_version s receiving_object_id receive_object_at_version with
  | Some hit => (Ok (Some hit), s)
  | None =>
      match bk_get_object_received_at_version store owner receiving_object_id
              receive_object_at_version epoch_id with
      | Err => (Err, s)
      | Ok (Some hit) => (Ok (Some hit), cache_object_only hit s)
      | Ok None => (Ok None, s)
      end
  end.

(** A miss: the store is asked and its answer, also a negative one, cached. *)
Definition read_child_miss (parent child : MoveAddress) (bound : N) (s : CachedSnapshot) :
    result (option Object) * CachedSnapshot :=
  match bk_read_child_object store parent child bound with
  | Err => (Err, s)
  | Ok (Some hit) => (Ok (Some hit), cache_object_only hit s)
  | Ok None => (Ok None, cache_query child bound None s)
  end.

Definition read_child_object (parent child : MoveAddress) (child_version_upper_bound : N)
    (s : CachedSnapshot) : result (option Object) * CachedSnapshot :=
  match object_resolve_upperbound_details s child child_version_upper_bound with
  | KnownNotExisting => (Ok None, s)
  | Existing hit =>
      if (obj_version hit =? child_version_upper_bound)%N then (Ok (Some hit), s)
      else read_child_miss parent child child_version_upper_bound s
  | Unbound => read_child_miss parent child child_version_upper_bound s
  end.
End reads.

(** ** Commits *)
Record InnerTemporaryStore := {
  its_written : gmap MoveAddress Object;
  its_input_objects : gmap MoveAddress Object;
  its_lamport_version : N;
  its_stream_ended_consensus_objects : gmap MoveAddress N }.

(** What [commit_store] reads of the effects: ids with versions. *)
Record TransactionEffects := {
  fx_deleted : list (MoveAddress * N);
  fx_transferred_from_consensus : list (MoveAddress * N);
  fx_consensus_owner_changed : list (MoveAddress * N);
  fx_stream_ended : list MoveAddress }.

(** [deleted().chain(transferred_from_consensus()).chain(consensus_owner_changed())] *)
Definition removed_refs (effects : TransactionEffects) : list (MoveAddress * N) :=
  fx_deleted effects ++ fx_transferred_from_consensus effects ++ fx_consensus_owner_changed effects.

(** [filter_map(|(id, version)| input_objects.remove(&id).map(|_| ..))] *)
Fixpoint take_inputs (orefs : list (MoveAddress * N)) (input_objects : gmap MoveAddress Object) :
    list (MoveAddress * N) * gmap MoveAddress Object :=
  match orefs with
  | [] => ([], input_objects)
  | (id, version) :: orefs =>
      match input_objects !! id with
      | Some _ =>
          let '(l, input_objects) := take_inputs orefs (delete id input_objects) in
          ((id, version) :: l, input_objects)
      | None => take_inputs orefs input_objects
      end
  end.

Fixpoint ended_ids (ids : list MoveAddress) (input_objects : gmap MoveAddress Object)
    (stream_ended : gmap MoveAddress N) : panics (list MoveAddress) :=
  match ids with
  | [] => Ret []
  | object_id :: ids =>
      id ← match input_objects !! object_id with
           | Some obj => Ret (obj_id obj)
           | None => _ ← unwrap (stream_ended !! object_id); Ret object_id
           end;
      l ← ended_ids ids input_objects stream_ended;
      Ret (id :: l)
  end.

(** An entry of the cache that is written: [None] marks a removed object. *)
Abbreviation Write := (MoveAddress * N * option Object)%type.
Definition cache_write (w : Write) : CachedSnapshot → CachedSnapshot := cache_query w.1.1 w.1.2 w.2.

Definition apply_writes (ws : list Write) (s : CachedSnapshot) : CachedSnapshot :=
  fold_left (λ s w, cache_write w s) ws s.

(** The entries [commit_store] writes, in order. *)
Definition commit_writes (store : InnerTemporaryStore) (effects : TransactionEffects) :
    panics (list Write) :=
  let written := map (λ x, (obj_id x.2, obj_version x.2, Some x.2)) (map_to_list (its_written store)) in
  let '(removed, input_objects) := take_inputs (removed_refs effects) (its_input_objects store) in
  ended ← ended_ids (fx_stream_ended effects) input_objects (its_stream_ended_consensus_objects store);
  Ret (written ++ map (λ x, (x.1, x.2, None)) removed
    ++ map (λ id, (id, its_lamport_version store, None)) ended).

Definition commit_store (store : InnerTemporaryStore) (effects : TransactionEffects)
    (s : CachedSnapshot) : panics CachedSnapshot :=
  writes ← commit_writes store effects;
  Ret (apply_writes writes s).
Definition commit_single_object (object : Object) : CachedSnapshot → CachedSnapshot :=
  cache_object_only object.

(** ** The calls a client makes *)
Inductive ReadCall :=
| ReadPackage (package_id : MoveAddress)
| ReadObject (object_id : MoveAddress)
| ReadByKey (object_id : MoveAddress) (version : N)
| ReadReceived (owner receiving_object_id : MoveAddress) (receive_object_at_version epoch_id : N)
| ReadChild (parent child : MoveAddress) (child_version_upper_bound : N).
Inductive Call :=
| CallRead (c : ReadCall)
| CallCommitStore (store : InnerTemporaryStore) (effects : TransactionEffects)
| CallCommitSingle (object : Object).

Definition read (store : Backing) (c : ReadCall) (s : CachedSnapshot) :
    result (option Object) * CachedSnapshot :=
  match c with
  | ReadPackage id => get_package_object store id s
  | ReadObject id => let '(r, s) := get_object store id s in (Ok r, s)
  | ReadByKey id v => let '(r, s) := get_object_by_key store id v s in (Ok r, s)
  | ReadReceived owner id v epoch => get_object_received_at_version store owner id v epoch s
  | ReadChild parent child bound => read_child_object store parent child bound s
  end.

Definition call_writes (c : Call) : panics (list Write) :=
  match c with
  | CallRead _ => Ret []
  | CallCommitStore store effects => commit_writes store effects
  | CallCommitSingle o => Ret [(obj_id o, obj_version o, Some o)]
  end.
Definition call (store : Backing) (c : Call) (s : CachedSnapshot) : panics CachedSnapshot :=
  match c with
  | CallRead c => Ret (read store c s).2
  | CallCommitStore st effects => commit_store st effects s
  | CallCommitSingle o => Ret (commit_single_object o s)
  end.
Fixpoint run_calls (store : Backing) (cs : list Call) (s : CachedSnapshot) : panics CachedSnapshot :=
  match cs with [] => Ret s | c :: cs => s ← call store c s; run_calls store cs s end.
Fixpoint calls_writes (cs : list Call) : panics (list Write) :=
  match cs with [] => Ret [] | c :: cs => w ← call_writes c; ws ← calls_writes cs; Ret (w ++ ws) end.

(** The abstract store a client sees by key: what was committed last, over
    the wrapped store. *)
Fixpoint written (ws : list Write) (id : MoveAddress) (v : N) : option (option Object) :=
  match ws with
  | [] => None
  | w :: ws =>
      match written ws id v with
      | Some o => Some o
      | None => if decide (w.1 = (id, v)) then Some w.2 else None
      end
  end.
Definition view (store : Backing) (ws : list Write) (id : MoveAddress) (v : N) : option Object :=
  match written ws id v with Some (Some o) => Some o | _ => bk_get_object_by_key store id v end.

(** What a store promises: every object it returns is the one asked for, and
    the one it has under that id and version. *)
Definition has (store : Backing) (o : Object) : Prop :=
  bk_get_object_by_key store (obj_id o) (obj_version o) = Some o.
Class BackingLaws (store : Backing) : Prop := {
  by_key_keyed id v o : bk_get_object_by_key store id v = Some o → obj_id o = id ∧ obj_version o = v;
  package_has id o : bk_get_package_object store id = Ok (Some o) → obj_id o = id ∧ has store o;
  object_has id o : bk_get_object store id = Some o → obj_id o = id ∧ has store o;
  received_has owner id v e o : bk_get_object_received_at_version store owner id v e = Ok (Some o) →
    obj_id o = id ∧ obj_version o = v ∧ has store o;
  child_has parent id b o : bk_read_child_object store parent id b = Ok (Some o) →
    obj_id o = id ∧ (obj_version o ≤ b)%N ∧ has store o;
}.

(** ** Resolution *)
Definition newest (s : CachedSnapshot) (id : MoveAddress) (b v : N) (o : option Object) : Prop :=
  entry s id v = Some o ∧ (v ≤ b)%N ∧ ∀ v', (v' ≤ b)%N → is_Some (entry s id v') → (v' ≤ v)%N.

Lemma newest_below_spec vmap b :
  match newest_below vmap b with
  | Some (v, o) => vmap !! v = Some o ∧ (v ≤ b)%N ∧ ∀ v', (v' ≤ b)%N → is_Some (vmap !! v') → (v' ≤ v)%N
  | None => ∀ v, (v ≤ b)%N → vmap !! v = None
  end.
Proof.
  unfold newest_below. destruct (btree_last _) as [[v o]|] eqn:E.
  - apply btree_last_Some in E as [[H Hv]%map_lookup_filter_Some Hmax].
    repeat split; [done..|]. intros v' ? [o' ?]. apply Hmax. exists o'. by apply map_lookup_filter_Some.
  - apply btree_last_None in E. intros v Hv. destruct (vmap !! v) as [o|] eqn:Ho; [|done].
    assert (filter (λ x, (x.1 ≤ b)%N) vmap !! v = Some o) as H by (by apply map_lookup_filter_Some).
    by rewrite E, lookup_empty in H.
Qed.

Lemma resolve_spec s id b :
  match object_resolve_upperbound_details s id b with
  | Existing o => ∃ v, newest s id b v (Some o)
  | KnownNotExisting => ∃ v, newest s id b v None
  | Unbound => ∀ v, (v ≤ b)%N → entry s id v = None
  end.
Proof.
  unfold object_resolve_upperbound_details, newest, entry. destruct (s !! id) as [t|]; csimpl; [|done].
  pose proof (newest_below_spec t b). destruct (newest_below t b) as [[v [o|]]|]; csimpl; eauto.
Qed.

Lemma resolve_newest s id b v o : newest s id b v o →
  object_resolve_upperbound_details s id b = match o with Some o => Existing o | None => KnownNotExisting end.
Proof.
  intros (Hv & Hb & Hmax). pose proof (resolve_spec s id b) as H.
  destruct (object_resolve_upperbound_details s id b).
  - rewrite H in Hv; done.
  - destruct H as (w & Hw & ? & Hm).
    assert (v = w) as -> by (apply N.le_antisymm; [apply Hm|apply Hmax]; eauto). by simplify_eq.
  - destruct H as (w & Hw & ? & Hm).
    assert (v = w) as -> by (apply N.le_antisymm; [apply Hm|apply Hmax]; eauto). by simplify_eq.
Qed.

Lemma resolve_unbound s id b : (∀ v, (v ≤ b)%N → entry s id v = None) →
  object_resolve_upperbound_details s id b = Unbound.
Proof.
  intros H. pose proof (resolve_spec s id b) as Hs.
  destruct (object_resolve_upperbound_details s id b); [done|..];
    destruct Hs as (v & Hv & Hb & _); by rewrite H in Hv.
Qed.

(** ** Entries *)
Lemma entry_cache_query s id v o id' v' :
  entry (cache_query id v o s) id' v' = if decide ((id, v) = (id', v')) then Some o else entry s id' v'.
Proof.
  unfold entry, cache_query. destruct (decide (id = id')) as [->|?].
  - rewrite lookup_insert_eq. csimpl. rewrite lookup_insert.
    case_decide; case_decide; simplify_eq; [done|]. destruct (s !! id'); csimpl; [done|].
    by rewrite lookup_empty.
  - rewrite lookup_insert_ne by done. case_decide; [naive_solver|done].
Qed.

Lemma entry_apply_writes ws s id v :
  entry (apply_writes ws s) id v = match written ws id v with Some o => Some o | None => entry s id v end.
Proof.
  revert s. induction ws as [|w ws IH]; intros s; [done|]. simpl. rewrite IH.
  destruct (written ws id v); [done|]. unfold cache_write. rewrite entry_cache_query.
  destruct w as [[id' v'] o]; simpl. by case_decide.
Qed.

Lemma written_app ws ws' id v :
  written (ws ++ ws') id v = match written ws' id v with Some o => Some o | None => written ws id v end.
Proof.
  induction ws as [|w ws IH]; simpl; [by destruct (written ws' id v)|]. rewrite IH.
  by destruct (written ws' id v).
Qed.

Lemma written_elem ws id v o : written ws id v = Some o → (id, v, o) ∈ ws.
Proof.
  induction ws as [|[[id' v'] o'] ws IH]; simpl; [done|]. destruct (written ws id v).
  - intros [= ->]. right. by apply IH.
  - case_decide; [|done]. intros [= ->]. simplify_eq. left.
Qed.

Lemma elem_written ws id v o : (id, v, o) ∈ ws → is_Some (written ws id v).
Proof.
  induction ws as [|[[id' v'] o'] ws IH]; simpl; [by intros ?%not_elem_of_nil|].
  intros [[= -> -> ->]|H]%elem_of_cons.
  - destruct (written ws id' v'); [eauto|]. rewrite decide_True by done. eauto.
  - destruct (IH H) as [? ->]. eauto.
Qed.

(** ** Reading through the cache *)
Definition agrees (store : Backing) (ws : list Write) (s : CachedSnapshot) : Prop :=
  ∀ id v,
    match written ws id v with
    | Some o => entry s id v = Some o
    | None => ∀ o, entry s id v = Some (Some o) → bk_get_object_by_key store id v = Some o
    end.
Definition keyed (s : CachedSnapshot) : Prop :=
  ∀ id v o, entry s id v = Some (Some o) → obj_id o = id ∧ obj_version o = v.
(** The committed keys are new: the wrapped store has nothing there. *)
Definition fresh (store : Backing) (ws : list Write) : Prop :=
  ∀ w, w ∈ ws → bk_get_object_by_key store w.1.1 w.1.2 = None.

Section laws.
Context (store : Backing) `{!BackingLaws store}.

Lemma fresh_has ws o : fresh store ws → has store o → written ws (obj_id o) (obj_version o) = None.
Proof.
  intros Hf Ho. destruct (written ws (obj_id o) (obj_version o)) as [o'|] eqn:E; [|done].
  apply written_elem, Hf in E. simpl in E. unfold has in Ho. by rewrite E in Ho.
Qed.

Lemma agrees_cache_hit ws s o : fresh store ws → has store o → agrees store ws s → keyed s →
  agrees store ws (cache_object_only o s) ∧ keyed (cache_object_only o s).
Proof.
  intros Hf Ho Ha Hk. split.
  - intros id v. unfold cache_object_only. rewrite entry_cache_query. case_decide; [|apply Ha].
    simplify_eq. rewrite (fresh_has ws o) by done. naive_solver.
  - intros id v o'. unfold cache_object_only. rewrite entry_cache_query. case_decide; [|apply Hk].
    naive_solver.
Qed.

Lemma agrees_tombstone ws s id v : written ws id v = None → agrees store ws s → keyed s →
  agrees store ws (cache_query id v None s) ∧ keyed (cache_query id v None s).
Proof.
  intros Hw Ha Hk. split.
  - intros id' v'. rewrite entry_cache_query. case_decide; [|apply Ha]. simplify_eq. by rewrite Hw.
  - intros id' v' o'. rewrite entry_cache_query. case_decide; [done|apply Hk].
Qed.

Lemma resolve_cached s id b o : object_resolved_upperbound s id b = Some o →
  ∃ v, newest s id b v (Some o).
Proof.
  unfold object_resolved_upperbound. pose proof (resolve_spec s id b) as H.
  destruct (object_resolve_upperbound_details s id b); simpl; naive_solver.
Qed.

(** A cached object is the one the client sees under its key. *)
Lemma agrees_entry ws s id v o : agrees store ws s → keyed s → entry s id v = Some (Some o) →
  obj_id o = id ∧ obj_version o = v ∧ view store ws (obj_id o) (obj_version o) = Some o.
Proof.
  intros Ha Hk He. destruct (Hk _ _ _ He) as [<- <-]. repeat split. unfold view.
  specialize (Ha (obj_id o) (obj_version o)).
  destruct (written ws (obj_id o) (obj_version o)) as [o'|]; [by simplify_eq|by apply Ha].
Qed.

Lemma fresh_view ws o : fresh store ws → has store o → view store ws (obj_id o) (obj_version o) = Some o.
Proof. intros Hf Ho. unfold view. by rewrite fresh_has. Qed.

(** What a read asks for. *)
Definition asked (c : ReadCall) (o : Object) : Prop :=
  match c with
  | ReadPackage id | ReadObject id => obj_id o = id
  | ReadByKey id v | ReadReceived _ id v _ => obj_id o = id ∧ obj_version o = v
  | ReadChild _ id b => obj_id o = id ∧ (obj_version o ≤ b)%N
  end.

Lemma exact_entry s id v o : object_exact_version s id v = Some o ↔ entry s id v = Some (Some o).
Proof. unfold object_exact_version. destruct (entry s id v) as [[?|]|]; simpl; naive_solver. Qed.

(** An answer satisfies [P] and is what the client sees; the cache stays consistent. *)
Definition answers (ws : list Write) (P : Object → Prop) (a : result (option Object) * CachedSnapshot) : Prop :=
  agrees store ws a.2 ∧ keyed a.2 ∧
  ∀ o, a.1 = Ok (Some o) → P o ∧ view store ws (obj_id o) (obj_version o) = Some o.

Lemma answers_hit ws s id v o (P : Object → Prop) :
  agrees store ws s → keyed s → entry s id v = Some (Some o) →
  (obj_id o = id → obj_version o = v → P o) → answers ws P (Ok (Some o), s).
Proof.
  intros Ha Hk He HP. do 2 (split; [done|]). intros ? [= <-].
  destruct (agrees_entry ws s id v o) as (? & ? & ?); auto.
Qed.
Lemma answers_fetch ws s o (P : Object → Prop) : fresh store ws → agrees store ws s → keyed s →
  has store o → P o → answers ws P (Ok (Some o), cache_object_only o s).
Proof.
  intros Hf Ha Hk Ho HP. destruct (agrees_cache_hit ws s o) as [? ?]; [done..|].
  do 2 (split; [done|]). intros ? [= <-]. auto using fresh_view.
Qed.
Lemma answers_none ws s P r : agrees store ws s → keyed s → (∀ o, r ≠ Ok (Some o)) → answers ws P (r, s).
Proof. intros Ha Hk Hr. do 2 (split; [done|]). intros o Ho. by destruct (Hr o). Qed.

Lemma read_child_miss_unwritten ws s child b : agrees store ws s → keyed s →
  match object_resolve_upperbound_details s child b with
  | Existing o => obj_version o ≠ b | KnownNotExisting => False | Unbound => True
  end → written ws child b = None.
Proof.
  intros Ha Hk Hr. destruct (written ws child b) as [o|] eqn:E; [|done].
  pose proof (Ha child b) as He. rewrite E in He.
  assert (newest s child b b o) as Hn by (repeat split; auto; lia).
  rewrite (resolve_newest _ _ _ _ _ Hn) in Hr. destruct o as [o|]; [|done].
  destruct (Hk _ _ _ He). congruence.
Qed.

Lemma answers_child_miss ws s parent id b : fresh store ws → agrees store ws s → keyed s →
  written ws id b = None →
  answers ws (asked (ReadChild parent id b)) (read_child_miss store parent id b s).
Proof.
  intros Hf Ha Hk Hw. unfold read_child_miss.
  destruct (bk_read_child_object store parent id b) as [[o|]|] eqn:Eb.
  - apply child_has in Eb as (? & ? & ?). by apply answers_fetch.
  - destruct (agrees_tombstone ws s id b) as [? ?]; [done..|]. by apply answers_none.
  - by apply answers_none.
Qed.

Lemma read_agrees c ws s : fresh store ws → agrees store ws s → keyed s →
  answers ws (asked c) (read store c s).
Proof.
  intros Hf Ha Hk. destruct c as [id|id|id v|owner id v e|parent id b]; simpl.
  - unfold get_package_object, object_id_cached.
    destruct (object_resolved_upperbound s id u64_max) as [o|] eqn:E.
    + apply resolve_cached in E as (v & He & _). by eapply answers_hit.
    + destruct (bk_get_package_object store id) as [[o|]|] eqn:Eb; [|by apply answers_none..].
      apply package_has in Eb as [? ?]. by apply answers_fetch.
  - unfold get_object, object_id_cached.
    destruct (object_resolved_upperbound s id u64_max) as [o|] eqn:E.
    + apply resolve_cached in E as (v & He & _). by eapply answers_hit.
    + destruct (bk_get_object store id) as [o|] eqn:Eb; [|by apply answers_none].
      apply object_has in Eb as [? ?]. by apply answers_fetch.
  - unfold get_object_by_key. destruct (object_exact_version s id v) as [o|] eqn:E.
    + apply exact_entry in E. by eapply answers_hit.
    + destruct (bk_get_object_by_key store id v) as [o|] eqn:Eb; [|by apply answers_none].
      pose proof (by_key_keyed _ _ _ Eb) as [<- <-]. by apply answers_fetch.
  - unfold get_object_received_at_version. destruct (object_exact_version s id v) as [o|] eqn:E.
    + apply exact_entry in E. by eapply answers_hit.
    + destruct (bk_get_object_received_at_version store owner id v e) as [[o|]|] eqn:Eb;
        [|by apply answers_none..].
      apply received_has in Eb as (? & ? & ?). by apply answers_fetch.
  - pose proof (read_child_miss_unwritten ws s id b Ha Hk) as Hw. pose proof (resolve_spec s id b) as Hs.
    unfold read_child_object. destruct (object_resolve_upperbound_details s id b) as [| |o].
    + apply answers_child_miss; auto.
    + by apply answers_none.
    + destruct (N.eqb_spec (obj_version o) b) as [Hb|?]; [|apply answers_child_miss; auto].
      destruct Hs as (v & He & _). eapply answers_hit; [done..|]. simpl. split; [done|lia].
Qed.

Lemma agrees_writes ws ws' s : agrees store ws s → keyed s →
  (∀ id v o, written ws' id v = Some (Some o) → obj_id o = id ∧ obj_version o = v) →
  agrees store (ws ++ ws') (apply_writes ws' s) ∧ keyed (apply_writes ws' s).
Proof.
  intros Ha Hk Hw. split.
  - intros id v. rewrite written_app, entry_apply_writes. destruct (written ws' id v); [done|]. apply Ha.
  - intros id v o. rewrite entry_apply_writes. destruct (written ws' id v) eqn:E; [|by apply Hk].
    intros [= ->]. by apply Hw.
Qed.

Lemma commit_writes_keyed st fx ws w o : commit_writes st fx = Ret ws → w ∈ ws → w.2 = Some o →
  w.1 = (obj_id o, obj_version o).
Proof.
  unfold commit_writes. destruct (take_inputs _ _) as [removed inputs]. intros H. panics_inv. subst ws.
  intros [(y & -> & _)%list_elem_of_fmap|[(y & -> & _)%list_elem_of_fmap|(y & -> & _)%list_elem_of_fmap]%elem_of_app]%elem_of_app;
    naive_solver.
Qed.

Lemma call_agrees c ws ws' s s' : call_writes c = Ret ws' → call store c s = Ret s' →
  fresh store ws → agrees store ws s → keyed s → agrees store (ws ++ ws') s' ∧ keyed s'.
Proof.
  intros Hw Hc Hf Ha Hk. destruct c as [c|st fx|o]; simpl in *.
  - injection Hw as <-. injection Hc as <-. rewrite app_nil_r.
    destruct (read_agrees c ws s) as (? & ? & _); done.
  - unfold commit_store in Hc. rewrite Hw in Hc. injection Hc as <-.
    apply agrees_writes; [done..|]. intros id v o E%written_elem.
    pose proof (commit_writes_keyed _ _ _ _ o Hw E eq_refl) as [= -> ->]. done.
  - injection Hw as <-. injection Hc as <-. apply (agrees_writes ws [(obj_id o, obj_version o, Some o)]); [done..|].
    intros id v o'. simpl. case_decide; [|done]. naive_solver.
Qed.

Lemma fresh_app ws ws' : fresh store (ws ++ ws') → fresh store ws.
Proof. intros H w Hw. apply H. set_solver. Qed.

Lemma run_calls_agrees cs ws ws' s s' : calls_writes cs = Ret ws' → run_calls store cs s = Ret s' →
  fresh store (ws ++ ws') → agrees store ws s → keyed s → agrees store (ws ++ ws') s' ∧ keyed s'.
Proof.
  revert ws ws' s. induction cs as [|c cs IH]; intros ws ws' s Hw Hr Hf Ha Hk; simpl in *.
  - panics_inv. subst. by rewrite app_nil_r.
  - destruct (call_writes c) as [w|] eqn:Ew; [|done]. destruct (call store c s) as [s1|] eqn:Ec; [|done].
    simpl in *. panics_inv. subst. rewrite app_assoc in *.
    destruct (call_agrees c ws w s s1) as [? ?]; [eauto using fresh_app..|]. by eapply IH.
Qed.
End laws.

Lemma agrees_empty store : agrees store [] ∅.
Proof. intros id v. simpl. unfold entry. by rewrite lookup_empty. Qed.
Lemma keyed_empty : keyed ∅.
Proof. intros id v o. unfold entry. by rewrite lookup_empty. Qed.

(** ** Repeated reads *)
Lemma entry_cached s id v o : entry (cache_query id v o s) id v = Some o.
Proof. rewrite entry_cache_query. by rewrite decide_True. Qed.

Lemma cache_query_twice id v o s : cache_query id v o (cache_query id v o s) = cache_query id v o s.
Proof.
  unfold cache_query. rewrite lookup_insert_eq. simpl. by rewrite !insert_insert_eq.
Qed.

Lemma newest_keep s id v o id' b w x : newest s id' b w x → ¬ (id = id' ∧ (v ≤ b)%N ∧ (w ≤ v)%N) →
  newest (cache_query id v o s) id' b w x.
Proof.
  intros (Hw & Hb & Hm) Hn. repeat split; [|done|].
  - rewrite entry_cache_query. case_decide; [|done]. simplify_eq. exfalso. apply Hn. split; [done|lia].
  - intros w' Hw'. rewrite entry_cache_query. case_decide; [|by apply Hm]. simplify_eq. intros _.
    destruct (decide (w' ≤ w)%N); [done|]. exfalso. apply Hn. repeat split; [done|lia].
Qed.

Lemma newest_new s id v o b : (v ≤ b)%N → (∀ w, (w ≤ b)%N → is_Some (entry s id w) → (w ≤ v)%N) →
  newest (cache_query id v o s) id b v o.
Proof.
  intros Hv Hm. repeat split; [apply entry_cached|done|].
  intros w' Hw'. rewrite entry_cache_query. case_decide; [naive_solver|]. by apply Hm.
Qed.

(** Another entry makes a resolution find it, or leaves it as it was. *)
Lemma resolve_cache_query s id v o id' b :
  object_resolve_upperbound_details (cache_query id v o s) id' b
    = object_resolve_upperbound_details s id' b ∨
  id = id' ∧ newest (cache_query id v o s) id' b v o.
Proof.
  pose proof (resolve_spec s id' b) as Hs.
  assert (∀ w x, newest s id' b w x →
    newest (cache_query id v o s) id' b w x ∨ id = id' ∧ newest (cache_query id v o s) id' b v o) as Hn.
  { intros w x Hn. destruct (decide (id = id')) as [->|?]; [|left; apply newest_keep; naive_solver].
    destruct (decide (v ≤ b ∧ w ≤ v)%N) as [[? ?]|?]; [right; split; [done|]|left; apply newest_keep; naive_solver].
    apply newest_new; [done|]. intros w' ? ?. etrans; [by apply Hn|done]. }
  destruct (object_resolve_upperbound_details s id' b) as [| |x].
  - destruct (decide (id = id' ∧ (v ≤ b)%N)) as [[-> Hv]|Hd].
    + right. split; [done|]. apply newest_new; [done|]. intros w Hw. rewrite Hs by done. by intros [].
    + left. apply resolve_unbound. intros w Hw. rewrite entry_cache_query. case_decide; [|by apply Hs].
      naive_solver.
  - destruct Hs as [w [Hk|]%Hn]; [|by right]. left. by rewrite (resolve_newest _ _ _ _ _ Hk).
  - destruct Hs as [w [Hk|]%Hn]; [|by right]. left. by rewrite (resolve_newest _ _ _ _ _ Hk).
Qed.

Lemma resolved_cache_query s o id b : object_resolved_upperbound s id b = None →
  object_resolved_upperbound (cache_object_only o s) id b = None ∨
  object_resolved_upperbound (cache_object_only o s) id b = Some o.
Proof.
  unfold object_resolved_upperbound, cache_object_only. intros H.
  destruct (resolve_cache_query s (obj_id o) (obj_version o) (Some o) id b) as [->|[_ Hn]].
  - by left.
  - right. by rewrite (resolve_newest _ _ _ _ _ Hn).
Qed.

Lemma exact_cache_query s o id v : object_exact_version s id v = None →
  object_exact_version (cache_object_only o s) id v = None ∨
  object_exact_version (cache_object_only o s) id v = Some o.
Proof.
  unfold object_exact_version, cache_object_only. intros H. rewrite entry_cache_query.
  case_decide; simpl; auto.
Qed.

Definition is_child_miss (r : ResolvedResult) (b : N) : Prop :=
  match r with Existing o => obj_version o ≠ b | KnownNotExisting => False | Unbound => True end.

Lemma read_child_is_miss store parent id b s :
  is_child_miss (object_resolve_upperbound_details s id b) b →
  read_child_object store parent id b s = read_child_miss store parent id b s.
Proof.
  unfold read_child_object, is_child_miss. destruct (object_resolve_upperbound_details s id b); [done..|].
  intros H%N.eqb_neq. by rewrite H.
Qed.

Lemma reread_child_miss store parent id b s :
  is_child_miss (object_resolve_upperbound_details s id b) b →
  read_child_object store parent id b (read_child_miss store parent id b s).2
    = read_child_miss store parent id b s.
Proof.
  intros Hm. unfold read_child_miss at 1 2.
  destruct (bk_read_child_object store parent id b) as [[o|]|] eqn:Eb; simpl.
  - assert (read_child_miss store parent id b (cache_object_only o s) = (Ok (Some o), cache_object_only o s)) as Hr.
    { unfold read_child_miss, cache_object_only. by rewrite Eb, cache_query_twice. }
    unfold cache_object_only in *.
    destruct (resolve_cache_query s (obj_id o) (obj_version o) (Some o) id b) as [H|[<- Hn]].
    + rewrite read_child_is_miss; [done|by rewrite H].
    + destruct (decide (obj_version o = b)) as [<-|?].
      * unfold read_child_object. by rewrite (resolve_newest _ _ _ _ _ Hn), N.eqb_refl.
      * rewrite read_child_is_miss; [done|]. by rewrite (resolve_newest _ _ _ _ _ Hn).
  - assert (newest (cache_query id b None s) id b b None) as Hn by (by apply newest_new).
    unfold read_child_object. by rewrite (resolve_newest _ _ _ _ _ Hn).
  - rewrite read_child_is_miss by done. unfold read_child_miss. by rewrite Eb.
Qed.

Lemma reread_child store parent id b s :
  read_child_object store parent id b (read_child_object store parent id b s).2
    = read_child_object store parent id b s.
Proof.
  destruct (object_resolve_upperbound_details s id b) as [| |o] eqn:E.
  - rewrite (read_child_is_miss _ _ _ _ s) by (by rewrite E). apply reread_child_miss. by rewrite E.
  - unfold read_child_object. rewrite E. simpl. by rewrite E.
  - destruct (decide (obj_version o = b)) as [<-|?].
    + unfold read_child_object. rewrite E, N.eqb_refl. simpl. by rewrite E, N.eqb_refl.
    + rewrite (read_child_is_miss _ _ _ _ s) by (by rewrite E). apply reread_child_miss. by rewrite E.
Qed.

(** A lookup [q] that the fetched object at most satisfies, in front of a fetch. *)
Lemma reread_lookup {R} (q : CachedSnapshot → option Object) (fetch : option Object) (ok : option Object → R) s :
  (∀ o s, q s = None → q (cache_object_only o s) = None ∨ q (cache_object_only o s) = Some o) →
  let f s := match q s with
             | Some hit => (ok (Some hit), s)
             | None => match fetch with Some hit => (ok (Some hit), cache_object_only hit s) | None => (ok None, s) end
             end in f (f s).2 = f s.
Proof.
  intros Hq f. unfold f. destruct (q s) as [hit|] eqn:E; [simpl; by rewrite E|].
  destruct fetch as [o|]; simpl; [|by rewrite E].
  assert (cache_object_only o (cache_object_only o s) = cache_object_only o s) as ->
    by apply cache_query_twice.
  by destruct (Hq o s E) as [-> | ->].
Qed.

Lemma resolved_as_lookup id : ∀ o s, object_id_cached s id = None →
  object_id_cached (cache_object_only o s) id = None ∨ object_id_cached (cache_object_only o s) id = Some o.
Proof. intros. by apply resolved_cache_query. Qed.
Lemma exact_as_lookup id v : ∀ o s, object_exact_version s id v = None →
  object_exact_version (cache_object_only o s) id v = None ∨
  object_exact_version (cache_object_only o s) id v = Some o.
Proof. intros. by apply exact_cache_query. Qed.

(** ** What a commit writes *)
Lemma take_inputs_spec orefs inputs : NoDup orefs.*1 →
  (∀ x, x ∈ (take_inputs orefs inputs).1 ↔ x ∈ orefs ∧ is_Some (inputs !! x.1)) ∧
  (∀ id, (take_inputs orefs inputs).2 !! id = if decide (id ∈ orefs.*1) then None else inputs !! id).
Proof.
  revert inputs. induction orefs as [|[id v] orefs IH]; intros inputs Hn; csimpl in *.
  { split; [set_solver|]. done. }
  apply NoDup_cons in Hn as [Hid Hn].
  assert (∀ x, x ∈ orefs → x.1 ≠ id) as Hne.
  { intros x Hx <-. apply Hid. apply list_elem_of_fmap. by exists x. }
  destruct (inputs !! id) as [o|] eqn:E.
  - destruct (IH (delete id inputs) Hn) as [H1 H2]. destruct (take_inputs _ _) as [l m]; simpl in *. split.
    + intros x. rewrite !elem_of_cons, H1. split.
      * intros [->|[Hx Hi]]; [simpl; eauto|]. rewrite lookup_delete_ne in Hi by naive_solver. eauto.
      * intros [[->|Hx] Hi]; [by left|right]. by rewrite lookup_delete_ne by naive_solver.
    + intros k. rewrite H2. destruct (decide (id = k)) as [<-|?].
      * rewrite lookup_delete_eq. repeat case_decide; set_solver.
      * rewrite lookup_delete_ne by done. repeat case_decide; set_solver.
  - destruct (IH inputs Hn) as [H1 H2]. split.
    + intros x. rewrite H1, elem_of_cons. split; [naive_solver|]. intros [[->|?] Hi]; [|done].
      simpl in Hi. rewrite E in Hi. by destruct Hi.
    + intros k. rewrite H2. destruct (decide (id = k)) as [<-|?]; repeat case_decide; set_solver.
Qed.

Definition id_keyed (m : gmap MoveAddress Object) : Prop := ∀ id o, m !! id = Some o → obj_id o = id.

Lemma ended_ids_spec ids inputs ended : id_keyed inputs →
  match ended_ids ids inputs ended with
  | Ret l => l = ids ∧ ∀ id, id ∈ ids → is_Some (inputs !! id) ∨ is_Some (ended !! id)
  | Panic => ∃ id, id ∈ ids ∧ inputs !! id = None ∧ ended !! id = None
  end.
Proof.
  intros Hk. induction ids as [|id ids IH]; simpl; [set_solver|].
  destruct (inputs !! id) as [o|] eqn:E; simpl.
  - rewrite (Hk _ _ E). destruct (ended_ids ids inputs ended) as [l|]; simpl; [|set_solver].
    destruct IH as [-> IH]. split; [done|]. intros ? [->|?]%elem_of_cons; eauto.
  - destruct (ended !! id) eqn:E'; simpl; [|set_solver].
    destruct (ended_ids ids inputs ended) as [l|]; simpl; [|set_solver].
    destruct IH as [-> IH]. split; [done|]. intros ? [->|?]%elem_of_cons; eauto.
Qed.

Lemma id_keyed_take orefs inputs : NoDup orefs.*1 → id_keyed inputs → id_keyed (take_inputs orefs inputs).2.
Proof.
  intros Hn Hk id o. rewrite (proj2 (take_inputs_spec _ _ Hn)). case_decide; [done|]. apply Hk.
Qed.

(** The entries of a commit, by the part of the transaction they come from. *)
Lemma elem_of_commit_writes st fx ws : commit_writes st fx = Ret ws → NoDup (removed_refs fx).*1 →
  id_keyed (its_written st) → id_keyed (its_input_objects st) → ∀ id v o,
  (id, v, o) ∈ ws ↔ (∃ x, its_written st !! id = Some x ∧ v = obj_version x ∧ o = Some x) ∨
    (o = None ∧ (id, v) ∈ removed_refs fx ∧ is_Some (its_input_objects st !! id)) ∨
    (o = None ∧ v = its_lamport_version st ∧ id ∈ fx_stream_ended fx).
Proof.
  unfold commit_writes. intros H Hn Hkw Hki id v o.
  pose proof (take_inputs_spec (removed_refs fx) (its_input_objects st) Hn) as [Hr _].
  pose proof (id_keyed_take (removed_refs fx) (its_input_objects st) Hn Hki) as Hk.
  destruct (take_inputs _ _) as [removed inputs]. simpl in *.
  pose proof (ended_ids_spec (fx_stream_ended fx) inputs (its_stream_ended_consensus_objects st) Hk) as He.
  destruct (ended_ids _ _ _) as [l|]; [|done]. destruct He as [-> _]. simpl in H. injection H as <-.
  rewrite !elem_of_app, !list_elem_of_fmap. f_equiv; [|f_equiv].
  - split.
    + intros ([k x] & [= -> -> ->] & Hx%elem_of_map_to_list). rewrite (Hkw _ _ Hx) in *. eauto.
    + intros (x & Hx & -> & ->). exists (id, x). simpl. rewrite (Hkw _ _ Hx).
      split; [done|by apply elem_of_map_to_list].
  - split; [intros ([k w] & [= -> -> ->] & Hx%Hr); done|].
    intros (-> & Hx & Hi). exists (id, v). split; [done|by apply Hr].
  - split; [intros (k & [= -> -> ->] & Hx); done|]. intros (-> & -> & Hx). by exists id.
Qed.

Lemma newest_written ws s id v o b : (id, v, o) ∈ ws → (∀ v' o', (id, v', o') ∈ ws → v' = v ∧ o' = o) →
  (v ≤ b)%N → (∀ v', is_Some (entry s id v') → (v' ≤ v)%N) → newest (apply_writes ws s) id b v o.
Proof.
  intros Hw Hu Hv Hc. repeat split; [|done|].
  - rewrite entry_apply_writes. destruct (elem_written ws id v o Hw) as [o' E]. rewrite E.
    apply written_elem, Hu in E as [_ ->]. done.
  - intros v' Hb. rewrite entry_apply_writes. destruct (written ws id v') as [o'|] eqn:E; [|apply Hc].
    apply written_elem, Hu in E as [-> _]. done.
Qed.

(** ** Properties *)

(** C24: whatever is read and committed through the cache, a client sees one
    store keyed by id and version: reading a key returns the object committed
    there last, else the wrapped store's; every other read that returns an
    object returns the one of its key, and one that was asked for (its id, its
    exact version or a version below the bound). Committed keys are new to
    the wrapped store. *)
Theorem cache_refines_view store `{!BackingLaws store} cs ws :
  calls_writes cs = Ret ws → fresh store ws →
  ∃ s, run_calls store cs ∅ = Ret s ∧
    (∀ id v, (get_object_by_key store id v s).1 = view store ws id v) ∧
    ∀ c o, (read store c s).1 = Ok (Some o) → asked c o ∧ view store ws (obj_id o) (obj_version o) = Some o.
Proof.
  intros Hw Hf. assert (∃ s, run_calls store cs ∅ = Ret s) as [s Hs].
  { clear Hf. generalize (∅ : CachedSnapshot). revert ws Hw.
    induction cs as [|c cs IH]; simpl; [eauto|]. intros ws Hw s. panics_inv.
    destruct c as [c|st fx|o]; simpl in *; [by eapply IH| |by eapply IH].
    unfold commit_store. match goal with H : commit_writes _ _ = _ |- _ => rewrite H end.
    by eapply IH. }
  exists s. split; [done|].
  destruct (run_calls_agrees store cs [] ws ∅ s) as [Ha Hk]; auto using agrees_empty, keyed_empty.
  split; [|intros c o; by apply read_agrees].
  intros id v. unfold get_object_by_key, view. specialize (Ha id v). simpl in Ha.
  destruct (object_exact_version s id v) as [o|] eqn:E.
  - apply exact_entry in E. rewrite E in Ha. destruct (written ws id v); [naive_solver|].
    simpl. symmetry. by apply Ha.
  - destruct (written ws id v) as [[o|]|].
    + by rewrite (proj2 (exact_entry s id v o) Ha) in E.
    + by destruct (bk_get_object_by_key store id v).
    + by destruct (bk_get_object_by_key store id v).
Qed.

(** Reading again right away gives the same answer and leaves the cache as
    the first read left it, for every read the storage traits offer, whatever
    is cached and whatever the wrapped store answers. *)
Theorem reads_idempotent store c s : read store c (read store c s).2 = read store c s.
Proof.
  destruct c as [id|id|id v|owner id v e|parent id b]; simpl; [| | | |apply reread_child].
  - unfold get_package_object. destruct (bk_get_package_object store id) as [r|].
    + exact (reread_lookup (λ s, object_id_cached s id) r Ok s (resolved_as_lookup id)).
    + destruct (object_id_cached s id) eqn:E; simpl; by rewrite E.
  - pose proof (reread_lookup (λ s, object_id_cached s id) (bk_get_object store id) (λ o, o) s
      (resolved_as_lookup id) : get_object store id (get_object store id s).2 = get_object store id s) as H.
    destruct (get_object store id s). simpl in *. by rewrite H.
  - pose proof (reread_lookup (λ s, object_exact_version s id v) (bk_get_object_by_key store id v) (λ o, o) s
      (exact_as_lookup id v) :
      get_object_by_key store id v (get_object_by_key store id v s).2 = get_object_by_key store id v s) as H.
    destruct (get_object_by_key store id v s). simpl in *. by rewrite H.
  - unfold get_object_received_at_version.
    destruct (bk_get_object_received_at_version store owner id v e) as [r|].
    + exact (reread_lookup (λ s, object_exact_version s id v) r Ok s (exact_as_lookup id v)).
    + destruct (object_exact_version s id v) eqn:E; simpl; by rewrite E.
Qed.

(** A commit panics exactly when a stream-ended object is neither an
    input (left after the removals) nor registered as stream-ended. Otherwise
    an object it writes above every cached version is what [get_object]
    returns and what a child read at its version returns; an object it
    removes or whose stream it ends is reported as not existing by every child
    read at or above the version of the removal; every other object is cached
    as before. *)
Theorem commit_store_visible store st fx s :
  NoDup (removed_refs fx).*1 → id_keyed (its_written st) → id_keyed (its_input_objects st) →
  match commit_store st fx s with
  | Panic => ∃ id, id ∈ fx_stream_ended fx ∧ its_stream_ended_consensus_objects st !! id = None ∧
      (its_input_objects st !! id = None ∨ id ∈ (removed_refs fx).*1)
  | Ret s' => ∀ id,
      let written := its_written st !! id in
      let removed v := (id, v) ∈ removed_refs fx ∧ is_Some (its_input_objects st !! id) in
      let ended := id ∈ fx_stream_ended fx in
      let below v := ∀ v', is_Some (entry s id v') → (v' ≤ v)%N in
      (∀ o, written = Some o → (∀ v, ¬ removed v) → ¬ ended → below (obj_version o) →
         (∀ parent, read_child_object store parent id (obj_version o) s' = (Ok (Some o), s')) ∧
         ((obj_version o ≤ u64_max)%N → get_object store id s' = (Some o, s'))) ∧
      (∀ v b parent, removed v → written = None → ¬ ended → below v → (v ≤ b)%N →
         read_child_object store parent id b s' = (Ok None, s')) ∧
      (∀ b parent, ended → written = None → (∀ v, ¬ removed v) → below (its_lamport_version st) →
         (its_lamport_version st ≤ b)%N → read_child_object store parent id b s' = (Ok None, s')) ∧
      (written = None → (∀ v, ¬ removed v) → ¬ ended → ∀ v, entry s' id v = entry s id v)
  end.
Proof.
  intros Hn Hkw Hki. unfold commit_store. destruct (commit_writes st fx) as [ws|] eqn:Hw; simpl.
  - intros id. pose proof (elem_of_commit_writes st fx ws Hw Hn Hkw Hki id) as He. simpl. repeat split.
    + intros parent. assert (newest (apply_writes ws s) id (obj_version o) (obj_version o) (Some o)) as Hnew.
      { apply newest_written; [apply He; eauto| |done|done]. intros v' o' Ho. apply He in Ho. naive_solver. }
      unfold read_child_object. by rewrite (resolve_newest _ _ _ _ _ Hnew), N.eqb_refl.
    + intros Hu. assert (newest (apply_writes ws s) id u64_max (obj_version o) (Some o)) as Hnew.
      { apply newest_written; [apply He; eauto| |done|done]. intros v' o' Ho. apply He in Ho. naive_solver. }
      unfold get_object, object_id_cached, object_resolved_upperbound. by rewrite (resolve_newest _ _ _ _ _ Hnew).
    + intros v b parent [Hv Hi] Hx Hne Hb Hvb. assert (newest (apply_writes ws s) id b v None) as Hnew.
      { apply newest_written; [apply He; eauto| |done|done]. intros v' o' Ho. apply He in Ho.
        destruct Ho as [(x & ? & _)|[(-> & Hv' & _)|(_ & _ & ?)]]; [congruence| |done]. split; [|done].
        eapply NoDup_fst_func; [apply Hn|done..]. }
      unfold read_child_object. by rewrite (resolve_newest _ _ _ _ _ Hnew).
    + intros b parent Hd Hx Hr Hb Hvb.
      assert (newest (apply_writes ws s) id b (its_lamport_version st) None) as Hnew.
      { apply newest_written; [apply He; eauto| |done|done]. intros v' o' Ho. apply He in Ho. naive_solver. }
      unfold read_child_object. by rewrite (resolve_newest _ _ _ _ _ Hnew).
    + intros Hx Hr Hd v. rewrite entry_apply_writes. destruct (written ws id v) as [o|] eqn:E; [|done].
      apply written_elem, He in E. naive_solver.
  - unfold commit_writes in Hw.
    pose proof (take_inputs_spec (removed_refs fx) (its_input_objects st) Hn) as [_ Hin].
    pose proof (id_keyed_take (removed_refs fx) (its_input_objects st) Hn Hki) as Hk.
    destruct (take_inputs _ _) as [removed inputs]. simpl in *.
    pose proof (ended_ids_spec (fx_stream_ended fx) inputs (its_stream_ended_consensus_objects st) Hk) as He.
    destruct (ended_ids _ _ _) as [l|]; [done|]. destruct He as (id & ? & Hi & ?). exists id.
    rewrite Hin in Hi. case_decide; auto.
Qed.
End cache.

(** ** A store of finitely many objects *)
#[local] Instance pair_objects : ObjectLib :=
  {| Object := MoveAddress * N; obj_id := fst; obj_version := snd |}.

Definition list_store (l : list (MoveAddress * N)) : Backing :=
  let key id v := head (filter (λ o, o = (id, v)) l) in
  let below id b := last (filter (λ o, o.1 = id ∧ (o.2 ≤ b)%N) l) in
  {| bk_get_package_object id := Ok (last (filter (λ o, o.1 = id) l));
     bk_get_object id := last (filter (λ o, o.1 = id) l);
     bk_get_object_by_key := key;
     bk_get_object_received_at_version _ id v _ := Ok (key id v);
     bk_read_child_object _ id b := Ok (below id b) |}.

Lemma list_store_has l o : o ∈ l → has (list_store l) o.
Proof.
  intros Ho. unfold has. simpl. destruct (head _) as [o'|] eqn:E.
  - apply head_Some_elem_of, list_elem_of_filter in E as [-> _]. by destruct o.
  - apply head_None in E. assert (o ∈ filter (λ o', o' = (o.1, o.2)) l) as Hin
      by (apply list_elem_of_filter; by destruct o). rewrite E in Hin. set_solver.
Qed.

#[local] Instance list_store_laws l : BackingLaws (list_store l).
Proof.
  assert (∀ (P : MoveAddress * N → Prop) `{∀ o, Decision (P o)} o, last (filter P l) = Some o → P o ∧ o ∈ l) as Hl.
  { intros P ? o H%last_Some_elem_of%list_elem_of_filter. done. }
  assert (∀ id v o, head (filter (λ o, o = (id, v)) l) = Some o → o = (id, v) ∧ o ∈ l) as Hh.
  { intros id v o H%head_Some_elem_of%list_elem_of_filter. done. }
  split; simpl.
  - intros id v o H%Hh. naive_solver.
  - intros id o [= H%Hl]. naive_solver eauto using list_store_has.
  - intros id o H%Hl. naive_solver eauto using list_store_has.
  - intros _ id v _ o [= H%Hh]. naive_solver eauto using list_store_has.
  - intros _ id b o [= H%Hl]. naive_solver eauto using list_store_has.
Qed.

Definition obj1 : MoveAddress := MkMoveAddress 1.
Definition forked : Backing := list_store [(obj1, 3%N)].
Definition no_effects : TransactionEffects := Build_TransactionEffects [] [] [] [].
(** A transaction that wrote object 1 at version 6, and one that deletes it at version 7. *)
Definition write_6 : Call := CallCommitSingle ((obj1, 6%N) : Object).
Definition delete_store : InnerTemporaryStore :=
  Build_InnerTemporaryStore ∅ {[obj1 := ((obj1, 6%N) : Object)]} 7 ∅.
Definition delete_effects : TransactionEffects := Build_TransactionEffects [(obj1, 7%N)] [] [] [].
Definition delete_7 : Call := CallCommitStore delete_store delete_effects.

Lemma cache_refines_view_witness : ∃ s,
  run_calls forked [CallRead (ReadByKey obj1 3); write_6; delete_7] ∅ = Ret s ∧
  (get_object_by_key forked obj1 6 s).1 = Some (obj1, 6%N).
Proof.
  destruct (cache_refines_view forked [CallRead (ReadByKey obj1 3); write_6; delete_7]
    [(obj1, 6%N, Some (obj1, 6%N)); (obj1, 7%N, None)]) as (s & Hs & Hk & _).
  - vm_compute. reflexivity.
  - intros w Hw. repeat (apply elem_of_cons in Hw as [-> | Hw]; [vm_compute; reflexivity|]).
    by apply not_elem_of_nil in Hw.
  - exists s. split; [exact Hs|]. rewrite Hk. vm_compute. reflexivity.
Defined.

Lemma commit_store_visible_witness : ∃ s',
  commit_store delete_store delete_effects (commit_single_object ((obj1, 6%N) : Object) ∅) = Ret s' ∧
  read_child_object forked obj1 obj1 9 s' = (Ok None, s').
Proof.
  pose proof (commit_store_visible forked delete_store delete_effects
    (commit_single_object ((obj1, 6%N) : Object) ∅)) as H.
  destruct (commit_store _ _ _) as [s'|] eqn:E; [|vm_compute in E; discriminate].
  exists s'. split; [reflexivity|]. apply H with (v := 7%N).
  - apply NoDup_singleton.
  - intros id o Ho. vm_compute in Ho. discriminate.
  - intros id o Ho. cbn [its_input_objects delete_store] in Ho. apply lookup_singleton_Some in Ho as [<- <-]. reflexivity.
  - split; [apply list_elem_of_singleton; reflexivity|]. vm_compute. eauto.
  - reflexivity.
  - apply not_elem_of_nil.
  - intros v' Hv. unfold commit_single_object, cache_object_only in Hv.
    rewrite entry_cache_query in Hv. case_decide as Hd; [simplify_eq; simpl; lia|].
    unfold entry in Hv. rewrite lookup_empty in Hv. by destruct Hv.
  - lia.
Defined.

Definition demo_state (cs : list Call) : CachedSnapshot :=
  match run_calls forked cs ∅ with Ret s => s | Panic => ∅ end.

(** The deleted object is back for [get_object]: its removal is cached, but a
    removal is not a hit, so the forked store's old version is returned. *)
Example deleted_object_returns :
  (get_object forked obj1 (demo_state [write_6; delete_7])).1 = Some (obj1, 3%N).
Proof. vm_compute. reflexivity. Qed.

(** A child read passes over the committed version 6 below its bound. *)
Example child_read_passes_commit :
  (read_child_object forked obj1 obj1 8 (demo_state [write_6])).1 = Ok (Some (obj1, 3%N)).
Proof. vm_compute. reflexivity. Qed.

(** [get_object] returns the newest version that happens to be cached. *)
Example stale_get_object :
  (get_object (list_store [(obj1, 3%N); (obj1, 5%N)]) obj1
     (get_object_by_key (list_store [(obj1, 3%N); (obj1, 5%N)]) obj1 3 ∅).2).1 = Some (obj1, 3%N).
Proof. vm_compute. reflexivity. Qed.
