(* ===== verification/Oracles.v ===== *)
(** * Oracles: the detectors that watch a run

    [crates/movy-fuzz/src/oracles/sui]: overflowing shifts, redundant casts,
    loops without progress, products of quotients and comparisons of constants.
    The first two look at the operand stack, the others at the symbolic stack
    of [Concolic]. Solver terms are visited through [Z3Dynamic], hashes and
    printed terms are arguments. *)
From S2P Require Import Prelude Types Text Ptb Z3 BitOps TraceState Concolic FuzzTracer.
From stdpp Require Import pretty.
From Stdlib Require String.
Local Open Scope string_scope.
Local Open Scope list_scope.

(** [z3::ast::Dynamic]: the nodes of a term. *)
Inductive DeclKind := DK_Div | DK_Idiv | DK_Uninterpreted | DK_Other.
#[export] Instance DeclKind_eq_dec : EqDecision DeclKind.
Proof. solve_decision. Defined.

Class Z3Dynamic (I : Type) := {
  Dynamic : Type;
  dynamic_from : I → Dynamic;
  children : Dynamic → list Dynamic;
  safe_decl : Dynamic → result DeclKind;  (** the kind of [safe_decl()] *)
  is_const : Dynamic → bool;
}.

Section oracles.
Context {I B : Type} `{ZA : Z3Ast I B} `{ZD : !Z3Dynamic I} `{U : U256Lib} `{TL : TraceLib}
  `{AT : AddressText} `{IL : IdentLib}.
(** [DefaultHasher] on a string, [Display] of an integer term and of a frame's module. *)
Context (hash_to_u64 : string → N) (show_int : I → string) (show_frame_module : MoveModuleId → string).

Definition report (oracle : string) (severity : Severity) (current_function : FunctionIdent) (pc : N) :
    OracleFinding :=
  MkFinding oracle severity (J_obj [("oracle", J_str oracle);
    ("function", J_str (show_function_ident current_function)); ("pc", J_num pc)]).

(** ** [overflow.rs] *)
Definition value_sig_bits (v : TraceValue) : panics N :=
  n ← value_to_u256 v;
  Ret (if (n =? 0)%N then 0%N else (256 - u256_leading_zeros n)%N).

Definition overflow_before_instruction (pc : N) (instruction : Bytecode) (trace_state : TraceState)
    (current_function : FunctionIdent) : panics (result (list OracleFinding)) :=
  match instruction with
  | Bc_Shl =>
      match operand_stack trace_state with
      | rhs :: lhs :: _ =>
          lhs_width_bits ← value_bitwidth lhs;
          lhs_sig_bits ← value_sig_bits lhs;
          rhs_bits ← value_to_u256 rhs;
          let overflow :=
            if (lhs_width_bits <=? rhs_bits)%N then true
            else let shift := u256_as_u32 rhs_bits in (lhs_width_bits <? lhs_sig_bits + shift)%N in
          Ret (Ok (if overflow then [report "OverflowOracle" Medium current_function pc] else []))
      | _ => Ret (Ok [])
      end
  | _ => Ret (Ok [])
  end.

(** ** [type_conversion.rs] *)
Definition unnecessary_cast (instruction : Bytecode) (val : TraceValue) : panics bool :=
  let same width := w ← value_bitwidth val; Ret (w =? width)%N in
  match instruction with
  | Bc_CastU8 => same 8%N
  | Bc_CastU16 => same 16%N
  | Bc_CastU32 => same 32%N
  | Bc_CastU64 => same 64%N
  | Bc_CastU128 => same 128%N
  | Bc_CastU256 => same 256%N
  | _ => Ret false
  end.

Definition type_conversion_before_instruction (pc : N) (instruction : Bytecode) (trace_state : TraceState)
    (current_function : FunctionIdent) : panics (result (list OracleFinding)) :=
  match operand_stack trace_state with
  | [] => Ret (Ok [])
  | val :: _ =>
      unnecessary ← unnecessary_cast instruction val;
      Ret (Ok (if unnecessary : bool then [report "TypeConversionOracle" Minor current_function pc] else []))
  end.

(** ** [infinite_loop.rs] *)

(** [branch_counts]: by function and program counter, the hash of the last
    condition and a counter. *)
Abbreviation BranchCounts := (gmap N (gmap N (N * N))).

Definition function_key (f : FunctionIdent) : N :=
  hash_to_u64 (show_module_id (fi_module f) +:+ "::" +:+ fi_name f).
Definition frame_key (frame : Frame) : N :=
  hash_to_u64 (show_frame_module (fr_module frame) +:+ "::" +:+ fr_function_name frame).

Definition infinite_loop_open_frame (frame : Frame) (branch_counts : BranchCounts) : BranchCounts :=
  delete (frame_key frame) branch_counts.

(** One visit of a branch whose condition hashes to [v]. *)
Definition count_visit (count : N * N) (v : N) : bool * (N * N) :=
  if (count.1 =? v)%N then
    if (1000 <=? count.2)%N then (true, (count.1, 0%N)) else (false, (count.1, (count.2 + 1)%N))
  else (false, (v, 1%N)).

Definition visit_branch (key pc v : N) (branch_counts : BranchCounts) : bool * BranchCounts :=
  let counts := default ∅ (branch_counts !! key) in
  let '(found, count) := count_visit (default (0, 0)%N (counts !! pc)) v in
  (found, <[key := <[pc := count]> counts]> branch_counts).

Definition infinite_loop_before_instruction (pc : N) (instruction : Bytecode) (symbol_stack : ConcolicState I)
    (current_function : FunctionIdent) (branch_counts : BranchCounts) :
    result (list OracleFinding) * BranchCounts :=
  match instruction with
  | Bc_BrFalse _ | Bc_BrTrue _ =>
      match cs_stack symbol_stack with
      | SV_Value v :: _ =>
          let '(found, branch_counts) :=
            visit_branch (function_key current_function) pc (hash_to_u64 (show_int v)) branch_counts in
          (Ok (if found : bool then [report "InfiniteLoopOracle" Major current_function pc] else []), branch_counts)
      | _ => (Ok [], branch_counts)
      end
  | _ => (Ok [], branch_counts)
  end.

(** ** Terms: [precision_loss.rs] and [bool_judgement.rs]

    Both loops keep a stack of nodes and give up at the 10001st node they
    take from it: [budget] is the number of nodes they may still look at. *)
Definition is_division (node : Dynamic) : bool :=
  match safe_decl node with Ok DK_Div | Ok DK_Idiv => true | _ => false end.
Definition is_variable (node : Dynamic) : bool :=
  is_const node && match safe_decl node with Ok DK_Uninterpreted => true | _ => false end.

Fixpoint contains_division_loop (budget : nat) (stack : list Dynamic) : bool :=
  match stack with
  | [] => false
  | node :: stack =>
      match budget with
      | O => false
      | S budget =>
          if is_division node then true
          else contains_division_loop budget (reverse (children node) ++ stack)
      end
  end.
Definition max_nodes : nat := N.to_nat 10000.
Definition contains_division (expr : I) : bool :=
  contains_division_loop max_nodes [dynamic_from expr].

Fixpoint int_has_variable_loop (budget : nat) (stack : list Dynamic) : option bool :=
  match stack with
  | [] => Some false
  | node :: stack =>
      match budget with
      | O => None
      | S budget =>
          if is_variable node then Some true
          else int_has_variable_loop budget (reverse (children node) ++ stack)
      end
  end.
Definition int_has_variable (expr : I) : option bool :=
  int_has_variable_loop max_nodes [dynamic_from expr].

Definition precision_loss_before_instruction (pc : N) (instruction : Bytecode)
    (symbol_stack : ConcolicState I) (current_function : FunctionIdent) : result (list OracleFinding) :=
  match instruction with
  | Bc_Mul =>
      match cs_stack symbol_stack with
      | rhs :: lhs :: _ =>
          let loss :=
            match lhs, rhs with
            | SV_Value l, _ => contains_division l
            | _, SV_Value r => contains_division r
            | _, _ => false
            end in
          Ok (if loss then [report "PrecisionLossOracle" Medium current_function pc] else [])
      | _ => Ok []
      end
  | _ => Ok []
  end.

(** [common.rs]. *)
Definition to_module_func (fid : FunctionIdent) : option ((MoveAddress * Identifier) * string) :=
  name ← identifier_new (module_name (fi_module fid));
  Some ((module_address (fi_module fid), name), fi_name fid).

Definition format_vulnerability_info (base : string)
    (current_function : option ((MoveAddress * Identifier) * string)) (pc : option N) : string :=
  let parts := [base]
    ++ match current_function with
       | Some ((address, name), function) =>
           ["location=" +:+ to_canonical_string true address +:+ "::" +:+ identifier_string name
              +:+ "::" +:+ function]
       | None => []
       end
    ++ match pc with Some pc => ["pc=" +:+ pretty pc] | None => [] end in
  String.concat " | " parts.

Definition is_comparison (instruction : Bytecode) : bool :=
  match instruction with
  | Bc_Eq | Bc_Neq | Bc_Lt | Bc_Le | Bc_Gt | Bc_Ge => true
  | _ => false
  end.

Definition bool_judgement_finding (pc : N) (current_function : FunctionIdent) : OracleFinding :=
  MkFinding "BoolJudgementOracle" Minor
    (J_str (format_vulnerability_info "Unnecessary bool judgement (two constants)"
              (to_module_func current_function) (Some pc))).

Definition bool_judgement_before_instruction (pc : N) (instruction : Bytecode)
    (symbol_stack : ConcolicState I) (current_function : FunctionIdent) : result (list OracleFinding) :=
  if is_comparison instruction then
    match cs_stack symbol_stack with
    | rhs :: lhs :: _ =>
        let loss :=
          match lhs, rhs with
          | SV_Value l, SV_Value r =>
              bool_decide (int_has_variable l = Some false) && bool_decide (int_has_variable r = Some false)
          | _, _ => false
          end in
        Ok (if loss then [bool_judgement_finding pc current_function] else [])
    | _ => Ok []
    end
  else Ok [].

(** ** Shifts and casts *)
Lemma sig_bits_spec v n : value_to_u256 v = Ret n → (n < 2 ^ 256)%N → value_sig_bits v = Ret (N.size n).
Proof.
  intros Hv Hn. unfold value_sig_bits. rewrite Hv. simpl. f_equal.
  destruct (N.eqb_spec n 0) as [->|Hz]; [done|]. rewrite u256_leading_zeros_size by done.
  assert (N.size n ≤ 256)%N; [|lia]. rewrite N.size_log2 by done.
  assert (N.log2 n < 256)%N; [|lia]. apply N.log2_lt_pow2; lia.
Qed.

Lemma size_shift l r w : (r < w)%N → (N.size l + r ≤ w ↔ l * 2 ^ r < 2 ^ w)%N.
Proof.
  intros Hr. destruct (decide (l = 0%N)) as [->|Hl].
  - simpl. assert (0 < 2 ^ w)%N by (apply N.neq_0_lt_0, N.pow_nonzero; lia). lia.
  - rewrite N.size_log2 by done. assert (0 < 2 ^ r)%N by (apply N.neq_0_lt_0, N.pow_nonzero; lia).
    rewrite N.log2_lt_pow2 by nia. rewrite N.log2_mul_pow2; lia.
Qed.

(** The shift an executed [Shl] asks for: value, amount and width. *)
Definition shift_operands (trace_state : TraceState) (l r w : N) : Prop :=
  ∃ lhs rhs rest, operand_stack trace_state = rhs :: lhs :: rest ∧
    value_to_u256 lhs = Ret l ∧ value_to_u256 rhs = Ret r ∧ value_bitwidth lhs = Ret w ∧
    (l < 2 ^ w)%N ∧ (w ≤ 256)%N.

(** The width an executed cast converts to. *)
Definition cast_width (instruction : Bytecode) : option N :=
  match instruction with
  | Bc_CastU8 => Some 8 | Bc_CastU16 => Some 16 | Bc_CastU32 => Some 32
  | Bc_CastU64 => Some 64 | Bc_CastU128 => Some 128 | Bc_CastU256 => Some 256
  | _ => None
  end%N.

(** C21: on a shift of an in-range value the overflow oracle reports exactly
    when the amount reaches the width or the shifted value loses bits, i.e.
    differs from the product; the conversion oracle reports exactly the casts
    to the width the operand already has. Neither reports anything else, and
    neither panics while the operands are integers. *)
Theorem operand_oracles_exact pc trace_state f :
  (∀ l r w, shift_operands trace_state l r w →
     overflow_before_instruction pc Bc_Shl trace_state f =
       Ret (Ok (if bool_decide (r < w ∧ (l * 2 ^ r) mod 2 ^ w = l * 2 ^ r)%N then []
                else [report "OverflowOracle" Medium f pc]))) ∧
  (∀ i, i ≠ Bc_Shl → overflow_before_instruction pc i trace_state f = Ret (Ok [])) ∧
  (∀ i, type_conversion_before_instruction pc i trace_state f =
     match operand_stack trace_state, cast_width i with
     | v :: _, Some w =>
         w' ← value_bitwidth v;
         Ret (Ok (if bool_decide (w' = w) then [report "TypeConversionOracle" Minor f pc] else []))
     | _, _ => Ret (Ok [])
     end).
Proof.
  split; [|split].
  - intros l r w (lhs & rhs & rest & Hs & Hl & Hr & Hw & Hlw & Hw256).
    assert (l < 2 ^ 256)%N as Hl256.
    { eapply N.lt_le_trans; [done|]. by apply N.pow_le_mono_r. }
    unfold overflow_before_instruction. rewrite Hs, Hw. cbn [mbind panics_mbind panics_bind].
    rewrite (sig_bits_spec lhs l) by done. cbn [mbind panics_mbind panics_bind]. rewrite Hr.
    cbn [mbind panics_mbind panics_bind]. do 2 f_equal.
    destruct (N.leb_spec w r) as [Hwr|Hwr]; [rewrite bool_decide_false by lia; done|].
    rewrite u256_as_u32_small by (eapply N.lt_trans; [exact Hwr|lia]).
    pose proof (size_shift l r w Hwr) as Hs'.
    destruct (N.ltb_spec w (N.size l + r)) as [Hlt|Hle].
    + rewrite bool_decide_false; [done|]. intros [_ Hm].
      assert ((l * 2 ^ r) mod 2 ^ w < 2 ^ w)%N by (apply N.mod_lt, N.pow_nonzero; done). lia.
    + rewrite bool_decide_true; [done|]. split; [done|]. apply N.mod_small. lia.
  - intros i Hi. by destruct i.
  - intros i. unfold type_conversion_before_instruction. destruct (operand_stack trace_state) as [|v st]; [done|].
    destruct i; try done; cbn [unnecessary_cast cast_width];
      (destruct (value_bitwidth v) as [w|]; [|done]); cbn [mbind panics_mbind panics_bind];
      do 2 f_equal; (case_bool_decide; [subst; done|by rewrite (proj2 (N.eqb_neq _ _))]).
Qed.

(** ** Loops *)
Inductive LoopCall :=
| Call_open (frame : Frame)
| Call_before (pc : N) (instruction : Bytecode) (symbol_stack : ConcolicState I)
    (current_function : FunctionIdent).

Definition loop_call (c : LoopCall) (branch_counts : BranchCounts) : BranchCounts :=
  match c with
  | Call_open frame => infinite_loop_open_frame frame branch_counts
  | Call_before pc i cs f => (infinite_loop_before_instruction pc i cs f branch_counts).2
  end.
(** The oracle after a sequence of calls, the latest first. *)
Definition loop_state (cs : list LoopCall) : BranchCounts := fold_right loop_call ∅ cs.

(** The branch a call visits: function, program counter, hash of the condition. *)
Definition visited (c : LoopCall) : option (N * N * N) :=
  match c with
  | Call_before pc (Bc_BrFalse _ | Bc_BrTrue _) cs f =>
      match cs_stack cs with SV_Value v :: _ => Some (function_key f, pc, hash_to_u64 (show_int v)) | _ => None end
  | _ => None
  end.

(** What a branch saw since its function was opened last, the latest first. *)
Fixpoint history (key pc : N) (cs : list LoopCall) : list N :=
  match cs with
  | [] => []
  | c :: cs =>
      match c with
      | Call_open frame => if (frame_key frame =? key)%N then [] else history key pc cs
      | _ =>
          match visited c with
          | Some (k, p, v) =>
              if (k =? key)%N && (p =? pc)%N then v :: history key pc cs else history key pc cs
          | None => history key pc cs
          end
      end
  end.

Fixpoint streak (v : N) (h : list N) : nat :=
  match h with [] => 0 | x :: h => if (x =? v)%N then S (streak v h) else 0 end.

Definition branch_count (counts : BranchCounts) (key pc : N) : N * N :=
  default (0, 0)%N (default ∅ (counts !! key) !! pc).

(** The counter of a branch says how often its last value was seen in a row. *)
Definition count_of (h : list N) (count : N * N) : Prop :=
  match h with
  | [] => count = (0, 0)%N
  | v :: _ => count = (v, N.of_nat (streak v h mod 1001))
  end.

Lemma count_visit_spec h count v : count_of h count →
  count_of (v :: h) (count_visit count v).2 ∧
  (count_visit count v).1 = bool_decide (S (streak v h) mod 1001 = 0).
Proof.
  assert (count_of h count → count.1 = v → count.2 = N.of_nat (streak v h mod 1001)) as Hseen.
  { destruct h as [|x h]; simpl; intros -> <-; done. }
  assert (count_of h count → count.1 ≠ v → streak v h = 0) as Hnew.
  { destruct h as [|x h]; simpl; intros -> Hv; [done|]. simpl in Hv. by rewrite (proj2 (N.eqb_neq _ _)). }
  intros Hc. unfold count_visit, count_of. cbn [streak]. rewrite N.eqb_refl.
  assert (∀ n, S n mod 1001 = if decide (n mod 1001 = 1000) then 0 else S (n mod 1001)) as Hm.
  { intros n. pose proof (Nat.div_mod_eq n 1001). pose proof (Nat.mod_upper_bound n 1001).
    case_decide.
    - symmetry. apply (Nat.mod_unique _ _ (S (n / 1001))); lia.
    - symmetry. apply (Nat.mod_unique _ _ (n / 1001)); lia. }
  rewrite (Hm (streak v h)). destruct (N.eqb_spec (count.1) v) as [Hv|Hv].
  - specialize (Hseen Hc Hv). pose proof (Nat.mod_upper_bound (streak v h) 1001).
    revert Hseen H. generalize (streak v h mod 1001). intros m Hseen H.
    destruct (N.leb_spec 1000 (count.2)); case_decide; cbn [fst snd]; rewrite ?Hv; split; try lia;
      try (f_equal; lia); try case_bool_decide; (done || lia).
  - rewrite (Hnew Hc Hv). done.
Qed.

Lemma branch_count_visit counts key pc v key' pc' :
  branch_count (visit_branch key pc v counts).2 key' pc' =
    if decide (key = key' ∧ pc = pc') then (count_visit (branch_count counts key pc) v).2
    else branch_count counts key' pc'.
Proof.
  unfold visit_branch, branch_count. destruct (count_visit _ v) as [found count] eqn:E. simpl.
  destruct (decide (key = key')) as [<-|?].
  - rewrite lookup_insert_eq. simpl. rewrite lookup_insert. repeat case_decide; naive_solver.
  - rewrite lookup_insert_ne by done. rewrite decide_False by naive_solver. done.
Qed.

Lemma loop_call_before c counts : (∀ frame, c ≠ Call_open frame) →
  loop_call c counts = match visited c with Some (k, p, v) => (visit_branch k p v counts).2 | None => counts end.
Proof.
  destruct c as [frame|pc i cs f]; [intros H; by destruct (H frame)|]. intros _. simpl.
  destruct i; try done; simpl; (destruct (cs_stack cs) as [|[v|] st]; [done| |done]);
    by destruct (visit_branch _ _ _ _).
Qed.

Lemma loop_state_counts cs key pc : count_of (history key pc cs) (branch_count (loop_state cs) key pc).
Proof.
  induction cs as [|c cs IH]; [done|]. cbn [loop_state fold_right]. fold (loop_state cs).
  destruct c as [frame|pc' i st f].
  - simpl. unfold infinite_loop_open_frame, branch_count.
    destruct (N.eqb_spec (frame_key frame) key) as [<-|?].
    + by rewrite lookup_delete_eq.
    + by rewrite lookup_delete_ne.
  - rewrite loop_call_before by done. cbn [history]. destruct (visited _) as [[[k p] v]|] eqn:E; [|done].
    rewrite branch_count_visit.
    destruct (N.eqb_spec k key) as [->|?], (N.eqb_spec p pc) as [->|?]; simpl;
      rewrite ?decide_False by naive_solver; try done.
    rewrite decide_True by done. by apply count_visit_spec.
Qed.

(** C22: whatever calls the oracle received before, at a branch on a symbolic
    condition it reports exactly when the condition was the same as at the
    preceding visits of this branch since its function was opened, and this is
    the 1001st visit of such a streak, or the 2002nd, and so on. So a loop that
    branches on one condition is always reported, and one whose condition
    changes at least every thousand visits never is. *)
Theorem infinite_loop_oracle_exact cs pc i st f v rest :
  (∃ off, i = Bc_BrTrue off ∨ i = Bc_BrFalse off) →
  cs_stack st = SV_Value v :: rest →
  (infinite_loop_before_instruction pc i st f (loop_state cs)).1 =
    Ok (if bool_decide (S (streak (hash_to_u64 (show_int v)) (history (function_key f) pc cs)) mod 1001 = 0)
        then [report "InfiniteLoopOracle" Major f pc] else []).
Proof.
  intros Hi Hst. set (key := function_key f). set (h := hash_to_u64 (show_int v)).
  assert (infinite_loop_before_instruction pc i st f (loop_state cs) =
    let '(found, counts) := visit_branch key pc h (loop_state cs) in
    (Ok (if found : bool then [report "InfiniteLoopOracle" Major f pc] else []), counts)) as ->.
  { unfold infinite_loop_before_instruction. rewrite Hst. by destruct Hi as (off & [-> | ->]). }
  unfold visit_branch. pose proof (count_visit_spec _ _ h (loop_state_counts cs key pc)) as [_ H].
  unfold branch_count in H. destruct (count_visit _ h) as [found count]. simpl in *. by rewrite H.
Qed.

(** ** Terms *)

(** The nodes of a finite term in the order the loops take them: a node, then
    its children, the last child first. *)
Inductive node_order : Dynamic → list Dynamic → Prop :=
| Node_order node ls : Forall2 node_order (reverse (children node)) ls → node_order node (node :: concat ls).

Lemma contains_division_loop_spec budget stack ls : Forall2 node_order stack ls →
  contains_division_loop budget stack = existsb is_division (take budget (concat ls)).
Proof.
  revert stack ls. induction budget as [|budget IH]; intros stack ls H.
  { by destruct stack. }
  destruct H as [|node ? stack ls Hn H]; [done|]. destruct Hn as [node ls' Hn]. simpl.
  destruct (is_division node); [done|]. simpl. rewrite (IH _ (ls' ++ ls)) by (by apply Forall2_app).
  by rewrite concat_app.
Qed.

Lemma int_has_variable_loop_spec budget stack ls : Forall2 node_order stack ls →
  int_has_variable_loop budget stack =
    if existsb is_variable (take budget (concat ls)) then Some true
    else if (budget <? length (concat ls))%nat then None else Some false.
Proof.
  revert stack ls. induction budget as [|budget IH]; intros stack ls H.
  { by destruct H as [|? ? ? ? []]. }
  destruct H as [|node ? stack ls Hn H]; [done|]. destruct Hn as [node ls' Hn]. simpl.
  destruct (is_variable node); [done|]. simpl. rewrite (IH _ (ls' ++ ls)) by (by apply Forall2_app).
  by rewrite concat_app.
Qed.

(** No variable anywhere, and few enough nodes to see that. *)
Definition is_constant_term (l : list Dynamic) : bool :=
  negb (existsb is_variable l) && (length l <=? max_nodes)%nat.

Lemma int_has_variable_constant expr l : node_order (dynamic_from expr) l →
  bool_decide (int_has_variable expr = Some false) = is_constant_term l.
Proof.
  intros H. unfold int_has_variable, is_constant_term. generalize max_nodes. intros n.
  rewrite (int_has_variable_loop_spec n _ [l]) by (by repeat constructor). simpl. rewrite app_nil_r.
  destruct (Nat.ltb_spec n (length l)) as [Hn|Hn].
  - rewrite (proj2 (Nat.leb_gt _ _)) by done. rewrite andb_false_r. by destruct (existsb _ _).
  - rewrite (proj2 (Nat.leb_le _ _)) by done. rewrite take_ge by done. by destruct (existsb _ _).
Qed.

(** Let [nodes e] be the nodes of every term in visiting order. Before a
    multiplication the precision oracle reports exactly when there is a
    division among the first 10000 nodes of the left operand's term - of the
    right operand's if the left one is not symbolic. Before a comparison the
    judgement oracle reports exactly when both operands are symbolic and their
    terms have no variable and at most 10000 nodes. Neither reports at any
    other instruction. *)
Theorem term_oracles_exact (nodes : I → list Dynamic) pc st f lhs rhs rest :
  (∀ e, node_order (dynamic_from e) (nodes e)) →
  cs_stack st = rhs :: lhs :: rest →
  (∀ i, precision_loss_before_instruction pc i st f =
    Ok (if bool_decide (i = Bc_Mul) && existsb is_division (take max_nodes
          match lhs, rhs with SV_Value l, _ => nodes l | SV_Unknown, SV_Value r => nodes r | _, _ => [] end)
        then [report "PrecisionLossOracle" Medium f pc] else [])) ∧
  (∀ i, bool_judgement_before_instruction pc i st f =
    Ok (if is_comparison i && match lhs, rhs with
          | SV_Value l, SV_Value r => is_constant_term (nodes l) && is_constant_term (nodes r)
          | _, _ => false end
        then [bool_judgement_finding pc f] else [])).
Proof.
  intros Hn Hst.
  assert (∀ e, contains_division e = existsb is_division (take max_nodes (nodes e))) as Hd.
  { intros e. unfold contains_division. rewrite (contains_division_loop_spec _ _ [nodes e]).
    - simpl. by rewrite app_nil_r.
    - repeat constructor. apply Hn. }
  split; intros i.
  - unfold precision_loss_before_instruction. rewrite Hst. destruct i; try done. rewrite bool_decide_true by done.
    cbn [andb]. rewrite <-(take_nil max_nodes). destruct lhs, rhs; rewrite ?Hd; try done.
  - unfold bool_judgement_before_instruction. rewrite Hst. destruct (is_comparison i); [|done].
    destruct lhs as [l|], rhs as [r|]; try done.
    by rewrite (int_has_variable_constant l (nodes l)), (int_has_variable_constant r (nodes r)).
Qed.
End oracles.

(** ** The nodes of the concrete terms *)
Definition term_children (d : IntTerm + BoolTerm) : list (IntTerm + BoolTerm) :=
  match d with
  | inl (T_const _) | inl (T_num _) => []
  | inl (T_add a b) | inl (T_sub a b) | inl (T_mul a b) | inl (T_div a b) | inl (T_rem a b)
  | inl (T_modulo a b) => [inl a; inl b]
  | inl (T_ite c a b) => [inr c; inl a; inl b]
  | inr (T_le a b) | inr (T_lt a b) | inr (T_ge a b) | inr (T_gt a b) | inr (T_eq a b) => [inl a; inl b]
  | inr (T_not c) => [inr c]
  end.
#[export] Instance term_dynamic : Z3Dynamic IntTerm := {
  Dynamic := IntTerm + BoolTerm;
  dynamic_from := inl;
  children := term_children;
  safe_decl d := Ok match d with inl (T_div _ _) => DK_Idiv | inl (T_const _) => DK_Uninterpreted | _ => DK_Other end;
  is_const d := match term_children d with [] => true | _ => false end;
}.

Fixpoint int_nodes (t : IntTerm) : list (IntTerm + BoolTerm) :=
  inl t :: match t with
  | T_const _ | T_num _ => []
  | T_add a b | T_sub a b | T_mul a b | T_div a b | T_rem a b | T_modulo a b => int_nodes b ++ int_nodes a
  | T_ite c a b => int_nodes b ++ int_nodes a ++ bool_nodes c
  end
with bool_nodes (c : BoolTerm) : list (IntTerm + BoolTerm) :=
  inr c :: match c with
  | T_le a b | T_lt a b | T_ge a b | T_gt a b | T_eq a b => int_nodes b ++ int_nodes a
  | T_not c => bool_nodes c
  end.

Abbreviation term_order := (@node_order IntTerm term_dynamic).

Lemma node_order_leaf d : term_children d = [] → term_order d [d].
Proof. intros H. apply (@Node_order IntTerm term_dynamic d []). simpl. rewrite H. constructor. Qed.
Lemma node_order_one d a la : term_children d = [a] → term_order a la → term_order d (d :: la).
Proof.
  intros H Ha. rewrite <-(app_nil_r la). apply (@Node_order IntTerm term_dynamic d [la]). simpl. rewrite H. by repeat constructor.
Qed.
Lemma node_order_two d a b la lb : term_children d = [a; b] → term_order a la → term_order b lb →
  term_order d (d :: lb ++ la).
Proof.
  intros H Ha Hb. rewrite <-(app_nil_r la). apply (@Node_order IntTerm term_dynamic d [lb; la]). simpl. rewrite H.
  by repeat constructor.
Qed.
Lemma node_order_three d a b c la lb lc : term_children d = [a; b; c] →
  term_order a la → term_order b lb → term_order c lc → term_order d (d :: lc ++ lb ++ la).
Proof.
  intros H Ha Hb Hc. rewrite <-(app_nil_r la). apply (@Node_order IntTerm term_dynamic d [lc; lb; la]). simpl. rewrite H.
  by repeat constructor.
Qed.

Lemma int_nodes_order t : term_order (inl t) (int_nodes t)
with bool_nodes_order c : term_order (inr c) (bool_nodes c).
Proof.
  - destruct t; cbn [int_nodes];
      [by apply node_order_leaf..|by eapply node_order_two|by eapply node_order_two|by eapply node_order_two
      |by eapply node_order_two|by eapply node_order_two|by eapply node_order_two|by eapply node_order_three].
  - destruct c; cbn [bool_nodes];
      [by eapply node_order_two|by eapply node_order_two|by eapply node_order_two|by eapply node_order_two
      |by eapply node_order_two|by eapply node_order_one].
Qed.

(** ** Witnesses and examples *)
Definition swap_ident : FunctionIdent := MkFunctionIdent (MkModuleId (MkMoveAddress 5) "pool") "swap".
Definition shl_state (l r : N) : TraceState :=
  with_stack trace_state_new [RuntimeValue (SmvU8 r); RuntimeValue (SmvU8 l)].

(** [0x81u8 << 1] loses its top bit. *)
Lemma operand_oracles_exact_witness :
  shift_operands (shl_state 129 1) 129 1 8 ∧
  overflow_before_instruction 3 Bc_Shl (shl_state 129 1) swap_ident =
    Ret (Ok [report "OverflowOracle" Medium swap_ident 3]).
Proof.
  assert (shift_operands (shl_state 129 1) 129 1 8) as H.
  { exists (RuntimeValue (SmvU8 129)), (RuntimeValue (SmvU8 1)), []. repeat split; lia. }
  split; [exact H|]. rewrite (proj1 (operand_oracles_exact 3 (shl_state 129 1) swap_ident) 129 1 8 H)%N.
  vm_compute. reflexivity.
Defined.

Definition symbolic_top (vs : list (SymbolValue IntTerm)) : ConcolicState IntTerm := MkConcolic vs [] [] false.
Definition constant_hash (_ : string) : N := 7.
Definition loop_visit : LoopCall (I := IntTerm) :=
  Call_before 4 (Bc_BrTrue 0) (symbolic_top [SV_Value (T_const "x")]) swap_ident.

(** The first thousand visits are silent, the next one is reported. *)
Lemma infinite_loop_oracle_exact_witness :
  (infinite_loop_before_instruction constant_hash (λ _, "x") 4 (Bc_BrTrue 0)
     (symbolic_top [SV_Value (T_const "x")]) swap_ident
     (loop_state constant_hash (λ _, "x") (λ _, "") (repeat loop_visit (N.to_nat 1000)))).1
  = Ok [report "InfiniteLoopOracle" Major swap_ident 4].
Proof.
  rewrite (infinite_loop_oracle_exact constant_hash (λ _, "x") (λ _, "") _ 4 (Bc_BrTrue 0)
    (symbolic_top [SV_Value (T_const "x")]) swap_ident (T_const "x") []).
  - vm_compute. reflexivity.
  - exists 0%N. left. reflexivity.
  - reflexivity.
Defined.

Definition quotient : IntTerm := T_div (T_const "a") (T_num 3).
Lemma term_oracles_exact_witness :
  precision_loss_before_instruction 1 Bc_Mul (symbolic_top [SV_Value (T_const "b"); SV_Value quotient]) swap_ident
    = Ok [report "PrecisionLossOracle" Medium swap_ident 1].
Proof.
  rewrite (proj1 (term_oracles_exact (I:=IntTerm) (ZD:=term_dynamic) int_nodes 1 (symbolic_top [SV_Value (T_const "b"); SV_Value quotient])
    swap_ident (SV_Value quotient) (SV_Value (T_const "b")) [] int_nodes_order eq_refl)).
  vm_compute. reflexivity.
Defined.

(** The same product with its operands swapped goes unreported. *)
Example precision_loss_order :
  precision_loss_before_instruction 1 Bc_Mul (symbolic_top [SV_Value quotient; SV_Value (T_const "b")]) swap_ident
    = Ok [].
Proof. vm_compute. reflexivity. Qed.
