(* ===== verification/Proceeds.v ===== *)
(** * Proceeds: the oracles that judge a finished run, and the oracle of a campaign

    [proceeds.rs] and [typed_bug.rs] of [crates/movy-fuzz/src/oracles/sui], and
    [oracles] of [crates/movy-fuzz/src/operations/sui_fuzz.rs], which combines
    every oracle. Objects and transaction effects are [sui_types]: [CoinLib]
    and [TransactionEffects] are the accessors the source calls. Balances are
    exact integers (an [i128] holds the sum of 2^62 coins). *)
From S2P Require Import Prelude Types Text Ptb Z3 BitOps TraceState Concolic FuzzTracer Oracles.
Local Open Scope string_scope.
Local Open Scope list_scope.

Class CoinLib := {
  Object : Type;
  MoveObjectType : Type;
  Owner : Type;
  CoinType : Type;  (** [TypeTag], as the type of a coin *)
  owner_eq_dec :: EqDecision Owner;
  owner_countable :: Countable Owner;
  coin_type_eq_dec :: EqDecision CoinType;
  coin_type_countable :: Countable CoinType;
  object_type : Object → option MoveObjectType;
  is_coin : MoveObjectType → bool;
  into_type_params : MoveObjectType → list CoinType;
  object_digest : Object → N;
  object_owner : Object → Owner;
  extract_balance_if_coin : Object → result (option (CoinType * N));
  gas_type_tag : CoinType;
}.

(** A coin has one type parameter and a balance. *)
Class CoinLaws `{CL : CoinLib} := {
  coin_well_formed o t : object_type o = Some t → is_coin t = true →
    ∃ c n, into_type_params t = [c] ∧ extract_balance_if_coin o = Ok (Some (c, n));
}.

(** [MoveAbort] failures carry their code; the gas owner and the net gas usage
    are parts of the effects. *)
Inductive ExecutionStatus := Success | MoveAbort (code : N) | OtherFailure.
#[export] Instance ExecutionStatus_eq_dec : EqDecision ExecutionStatus.
Proof. solve_decision. Defined.

Record TransactionEffects `{CL : CoinLib} := MkEffects {
  fx_status : ExecutionStatus;
  fx_gas_owner : Owner;
  fx_net_gas_usage : Z;
  fx_all_changed_objects : list (MoveAddress * N * N);
  fx_unwrapped_then_deleted : list MoveAddress;
  fx_modified_at_versions : list (MoveAddress * N);
}.

(** [Event] ([movy-types/src/oracle.rs]) and the parts of the fuzzing state
    the oracles read. *)
Record Event := MkEvent { ev_ty : MoveStructTag; ev_contents : list Byte.byte }.
Record ExecutionOutcome := MkExecution { eo_events : list Event; eo_allowed_success : bool }.
Class FuzzStateLib (St : Type) := {
  global_outcome : St → option ExecutionOutcome;
  gas_id : St → MoveAddress;
}.

(** The kinds of input objects of a transaction. *)
Inductive InputObjectKind :=
| MovePackage (id : MoveAddress)
| ImmOrOwnedMoveObject (r : ObjectRef)
| SharedMoveObject (id : MoveAddress) (initial_shared_version : N) (mutable : bool).

Section proceeds.
Context `{CL : CoinLib} {St : Type} `{FS : !FuzzStateLib St}.

Record BalanceChange := MkBalanceChange { bc_owner : Owner; bc_coin_type : CoinType; bc_amount : Z }.
Abbreviation Balances := (gmap (Owner * CoinType) Z).
(** The order of owners and types in a [BTreeMap], the JSON of changes and events. *)
Context (balance_iter : Balances → list ((Owner * CoinType) * Z))
  (json_changes : list BalanceChange → Json) (json_event : Event → Json).

(** The object provider: [get_object_by_key]. *)
Abbreviation Provider := (MoveAddress → N → option Object).
Abbreviation Versioned := (MoveAddress * N * option N)%type.

(** ** Balance changes *)
Fixpoint fetch_coins (object_provider : Provider) (objects : list Versioned) :
    panics (option (list (Owner * CoinType * N))) :=
  match objects with
  | [] => Ret (Some [])
  | (id, version, digest_opt) :: objects =>
      match object_provider id version with
      | None => Ret None
      | Some o =>
          coin ← match object_type o with
                 | Some type_ =>
                     if is_coin type_ then
                       _ ← match digest_opt with
                           | Some digest => if (digest =? object_digest o)%N then Ret () else Panic
                           | None => Ret ()
                           end;
                       coin_type ← match into_type_params type_ with [c] => Ret c | _ => Panic end;
                       balance ← match extract_balance_if_coin o with Ok (Some b) => Ret b.2 | _ => Panic end;
                       Ret [(object_owner o, coin_type, balance)]
                     else Ret []
                 | None => Ret []
                 end;
          rest ← fetch_coins object_provider objects;
          Ret (l ← rest; Some (coin ++ l))
      end
  end.

(** [*acc.entry((owner, type_)).or_default() += sign * amount] *)
Definition add_coin (sign : Z) (acc : Balances) (coin : Owner * CoinType * N) : Balances :=
  let '(key, amount) := coin in <[key := (default 0 (acc !! key) + sign * Z.of_N amount)%Z]> acc.

Definition get_balance_changes (object_provider : Provider) (modified_at_version all_mutated : list Versioned) :
    panics (option (list BalanceChange)) :=
  inputs ← fetch_coins object_provider modified_at_version;
  match inputs with
  | None => Ret None
  | Some inputs =>
      let balances := fold_left (add_coin (-1)) inputs ∅ in
      outputs ← fetch_coins object_provider all_mutated;
      match outputs with
      | None => Ret None
      | Some outputs =>
          let balances := fold_left (add_coin 1) outputs balances in
          Ret (Some (omap (λ x, if (x.2 =? 0)%Z then None else Some (MkBalanceChange x.1.1 x.1.2 x.2))
                       (balance_iter balances)))
      end
  end.

Definition all_mutated (effects : TransactionEffects) (mocked_coin : MoveAddress) : list Versioned :=
  omap (λ x, let '(id, version, digest) := x in
    if bool_decide (id = mocked_coin) then None else Some (id, version, Some digest))
    (fx_all_changed_objects effects).
Definition input_objs_to_digest (input_objs : list InputObjectKind) : gmap MoveAddress N :=
  fold_left (λ m k, match k with
    | ImmOrOwnedMoveObject (id, _, digest) => <[id := digest]> m
    | MovePackage _ | SharedMoveObject _ _ _ => m
    end) input_objs ∅.
Definition modified_inputs (effects : TransactionEffects) (input_objs : list InputObjectKind)
    (mocked_coin : MoveAddress) : list Versioned :=
  omap (λ x, let '(id, version) := x in
    if bool_decide (id = mocked_coin) then None
    else if bool_decide (id ∈ fx_unwrapped_then_deleted effects) then None
    else Some (id, version, input_objs_to_digest input_objs !! id))
    (fx_modified_at_versions effects).

Definition get_balance_changes_from_effect (object_provider : Provider) (effects : TransactionEffects)
    (input_objs : list InputObjectKind) (mocked_coin : MoveAddress) : panics (option (list BalanceChange)) :=
  if bool_decide (fx_status effects ≠ Success) then
    Ret (Some [MkBalanceChange (fx_gas_owner effects) gas_type_tag (- fx_net_gas_usage effects)])
  else
    get_balance_changes object_provider (modified_inputs effects input_objs mocked_coin)
      (all_mutated effects mocked_coin).

(** ** The oracle: its state is [input_objects] *)
Definition input_object_kinds (sequence : MoveSequence) : list InputObjectKind :=
  omap (λ input, match input with
    | Arg_Object _ (ImmOrOwnedObject obj_ref) => Some (ImmOrOwnedMoveObject obj_ref)
    | Arg_Object _ (SharedObject id initial_shared_version mutable) =>
        Some (SharedMoveObject id initial_shared_version mutable)
    | _ => None
    end) (seq_inputs sequence).

Definition proceeds_finding (bc : list BalanceChange) : OracleFinding :=
  MkFinding "ProceedsOracle" Critical
    (J_obj [("message", J_str "Positive proceeds detected"); ("balance_changes", json_changes bc)]).

Definition allowed_success (state : St) : bool :=
  match global_outcome state with Some o => eo_allowed_success o | None => false end.

Definition proceeds_done_execution (db : Provider) (effects : TransactionEffects)
    (input_objects : list InputObjectKind) (state : St) : panics (result (list OracleFinding)) :=
  if negb (allowed_success state) then Ret (Ok []) else
  balance_change ← get_balance_changes_from_effect db effects input_objects (gas_id state);
  Ret (Ok match balance_change with
      | Some bc =>
          let has_positive := existsb (λ c, (0 <? bc_amount c)%Z) bc in
          if forallb (λ c, (0 <=? bc_amount c)%Z) bc && has_positive then [proceeds_finding bc] else []
      | None => []
      end).

(** ** [typed_bug.rs] *)
Definition TYPED_BUG_ABORT_CODE : N := 19260817.
Definition is_crash_event (event : Event) : bool :=
  match ev_ty event with
  | MkStructTag _ module name _ => bool_decide (module = "oracle") && bool_decide (name = "Crash")
  end.

Definition typed_bug_done_execution (use_abort : bool) (effects : TransactionEffects) (state : St) :
    result (list OracleFinding) :=
  if use_abort then
    match fx_status effects with
    | MoveAbort code =>
        if (code =? TYPED_BUG_ABORT_CODE)%N
        then Ok [MkFinding "TypedBugOracle" Critical (J_obj [("abort_code", J_num code)])] else Ok []
    | _ => Ok []
    end
  else
    match global_outcome state with
    | None => Ok []
    | Some outcome =>
        if negb (eo_allowed_success outcome) then Ok [] else
        match List.find is_crash_event (eo_events outcome) with
        | Some event => Ok [MkFinding "TypedBugOracle" Critical (J_obj [("event", json_event event)])]
        | None => Ok []
        end
    end.

(** ** What the balances amount to *)
Definition coin_of (object_provider : Provider) (x : Versioned) : option (Owner * CoinType * N) :=
  o ← object_provider x.1.1 x.1.2;
  t ← object_type o;
  if is_coin t then
    match into_type_params t, extract_balance_if_coin o with
    | [c], Ok (Some b) => Some (object_owner o, c, b.2)
    | _, _ => None
    end
  else None.

(** The provider has the object, with the digest that is known of it. *)
Definition readable (object_provider : Provider) (x : Versioned) : Prop :=
  ∃ o, object_provider x.1.1 x.1.2 = Some o ∧ ∀ d, x.2 = Some d → d = object_digest o.

Fixpoint total (coins : list (Owner * CoinType * N)) (k : Owner * CoinType) : Z :=
  match coins with
  | [] => 0
  | (k', n) :: coins => (if decide (k' = k) then Z.of_N n else 0) + total coins k
  end%Z.

(** What [k] owns of a coin type after a run, less what it owned before. *)
Definition gain (object_provider : Provider) (inputs outputs : list Versioned) (k : Owner * CoinType) : Z :=
  (total (omap (coin_of object_provider) outputs) k - total (omap (coin_of object_provider) inputs) k)%Z.

Lemma fetch_coins_readable `{!CoinLaws} p l : Forall (readable p) l →
  fetch_coins p l = Ret (Some (omap (coin_of p) l)).
Proof.
  induction 1 as [|[[id v] d] l (o & Ho & Hd) _ IH]; [done|]. cbn [fetch_coins]. csimpl in *.
  unfold coin_of at 1. simpl. rewrite Ho. simpl. destruct (object_type o) as [t|] eqn:Et; simpl; [|by rewrite IH].
  destruct (is_coin t) eqn:Ec; simpl; [|by rewrite IH].
  destruct (coin_well_formed o t Et Ec) as (c & n & -> & ->).
  destruct d as [d|]; simpl; [rewrite (Hd d eq_refl), N.eqb_refl; simpl|]; by rewrite IH.
Qed.

Lemma fetch_coins_missing p l : (∃ x, x ∈ l ∧ p x.1.1 x.1.2 = None) →
  ∀ r, fetch_coins p l = Ret r → r = None.
Proof.
  induction l as [|[[id v] d] l IH]; intros (x & Hx & Hp) r Hr; [by apply not_elem_of_nil in Hx|].
  cbn [fetch_coins] in Hr. destruct (p id v) as [o|] eqn:Ho; [|congruence].
  apply elem_of_cons in Hx as [->|Hx]; [simpl in Hp; congruence|].
  panics_inv. subst. match goal with H : fetch_coins p l = Ret ?r |- _ => by rewrite (IH (ex_intro _ x (conj Hx Hp)) r H) end.
Qed.

Lemma add_coins_lookup sign l m k :
  default 0%Z (fold_left (add_coin sign) l m !! k) = (default 0 (m !! k) + sign * total l k)%Z.
Proof.
  revert m. induction l as [|[k' n] l IH]; intros m; cbn [fold_left total]; [lia|].
  rewrite IH. unfold add_coin. rewrite lookup_insert. repeat case_decide; subst; try done; cbn [default from_option id]; lia.
Qed.

Context (balance_iter_perm : ∀ m, balance_iter m ≡ₚ map_to_list m).

Lemma get_balance_changes_spec `{!CoinLaws} p inputs outputs :
  Forall (readable p) inputs → Forall (readable p) outputs →
  ∃ bc, get_balance_changes p inputs outputs = Ret (Some bc) ∧
    ∀ c, c ∈ bc ↔ bc_amount c = gain p inputs outputs (bc_owner c, bc_coin_type c) ∧ bc_amount c ≠ 0%Z.
Proof.
  intros Hi Ho. unfold get_balance_changes. rewrite (fetch_coins_readable p inputs Hi).
  cbn [mbind panics_mbind panics_bind]. rewrite (fetch_coins_readable p outputs Ho).
  cbn [mbind panics_mbind panics_bind]. eexists. split; [done|]. intros [o t a]. simpl.
  assert (gain p inputs outputs (o, t) = default 0%Z
    (fold_left (add_coin 1) (omap (coin_of p) outputs) (fold_left (add_coin (-1)) (omap (coin_of p) inputs) ∅) !! (o, t)))
    as ->.
  { rewrite !add_coins_lookup, lookup_empty. unfold gain. simpl. lia. }
  rewrite list_elem_of_omap. generalize (fold_left (add_coin 1) (omap (coin_of p) outputs)
    (fold_left (add_coin (-1)) (omap (coin_of p) inputs) ∅)). intros m. split.
  - intros ([[o' t'] a'] & Hm & Hx). rewrite balance_iter_perm, elem_of_map_to_list in Hm. simpl in Hx.
    destruct (Z.eqb_spec a' 0); [done|]. injection Hx as -> -> ->. by rewrite Hm.
  - intros [-> Ha]. exists (o, t, default 0%Z (m !! (o, t))). rewrite balance_iter_perm, elem_of_map_to_list.
    destruct (m !! (o, t)) as [a|]; [|done]. simpl in *. split; [done|]. by rewrite (proj2 (Z.eqb_neq _ _)).
Qed.

(** C23: on a successful run of a sequence the fuzzer is allowed to succeed
    with, all of whose objects the store has, the oracle reports exactly when
    no owner has less of any coin than before and some owner has more of one;
    the balance changes it attaches are the nonzero differences. A failed run
    is reported when its gas usage is negative, and nothing is reported when
    success is not allowed or when an input object is missing. *)
Theorem proceeds_oracle_exact `{!CoinLaws} p fx input_objects state :
  let inputs := modified_inputs fx input_objects (gas_id state) in
  let outputs := all_mutated fx (gas_id state) in
  let d := gain p inputs outputs in
  let run := proceeds_done_execution p fx input_objects state in
  (allowed_success state = true → fx_status fx = Success → Forall (readable p) (inputs ++ outputs) →
     ∃ bc, (∀ c, c ∈ bc ↔ bc_amount c = d (bc_owner c, bc_coin_type c) ∧ bc_amount c ≠ 0%Z) ∧
       ((run = Ret (Ok [proceeds_finding bc]) ∧ (∀ k, 0 ≤ d k)%Z ∧ ∃ k, (0 < d k)%Z) ∨
        (run = Ret (Ok []) ∧ ((∃ k, (d k < 0)%Z) ∨ ∀ k, (d k ≤ 0)%Z)))) ∧
  (allowed_success state = true → fx_status fx ≠ Success →
     run = Ret (Ok (if (fx_net_gas_usage fx <? 0)%Z
       then [proceeds_finding [MkBalanceChange (fx_gas_owner fx) gas_type_tag (- fx_net_gas_usage fx)]] else []))) ∧
  (allowed_success state = false → run = Ret (Ok [])) ∧
  (fx_status fx = Success → (∃ x, x ∈ inputs ∧ p x.1.1 x.1.2 = None) → run = Ret (Ok []) ∨ run = Panic).
Proof.
  intros inputs outputs d run. unfold run, proceeds_done_execution, get_balance_changes_from_effect.
  split; [|split; [|split]].
  - intros Ha Hs [Hi Ho]%Forall_app. rewrite Ha, bool_decide_false by naive_solver. simpl.
    fold inputs outputs. destruct (get_balance_changes_spec p inputs outputs Hi Ho) as (bc & -> & Hbc).
    change (gain p inputs outputs) with d in Hbc. exists bc. split; [done|].
    cbn [mbind panics_mbind panics_bind].
    assert (∀ k, d k ≠ 0%Z → MkBalanceChange k.1 k.2 (d k) ∈ bc) as Hin.
    { intros [o t] Hk. by apply Hbc. }
    destruct (forallb _ bc) eqn:Ef; simpl.
    + rewrite forallb_forall in Ef.
      assert (∀ k, (0 ≤ d k)%Z) as Hpos.
      { intros k. destruct (decide (d k = 0%Z)) as [->|Hk]; [done|].
        specialize (Hin k Hk). apply list_elem_of_In, Ef in Hin. simpl in Hin. lia. }
      destruct (existsb _ bc) eqn:Ee.
      * left. split; [done|]. split; [done|]. apply existsb_exists in Ee as (c & Hc%list_elem_of_In & Hp).
        apply Hbc in Hc as [Hc _]. exists (bc_owner c, bc_coin_type c). lia.
      * right. split; [done|]. right. intros k. destruct (decide (d k = 0%Z)) as [->|Hk]; [done|].
        assert (existsb (λ c, (0 <? bc_amount c)%Z) bc = true); [|congruence].
        apply existsb_exists. eexists. split; [apply list_elem_of_In, (Hin k Hk)|]. simpl.
        specialize (Hpos k). lia.
    + right. split; [done|]. left. apply forallb_false_elem in Ef as (c & Hc & Hn).
      apply Hbc in Hc as [Hc _]. exists (bc_owner c, bc_coin_type c). lia.
  - intros Ha Hs. rewrite Ha, bool_decide_true by done. simpl. do 2 f_equal.
    rewrite andb_true_r, orb_false_r. destruct (Z.ltb_spec (fx_net_gas_usage fx) 0).
    + rewrite (proj2 (Z.leb_le _ _)), (proj2 (Z.ltb_lt _ _)) by lia. done.
    + rewrite (proj2 (Z.ltb_ge _ _)) by lia. by rewrite andb_false_r.
  - intros ->. done.
  - intros Hs Hm. rewrite bool_decide_false by naive_solver. destruct (allowed_success state); simpl; [|by left].
    fold inputs outputs. unfold get_balance_changes.
    destruct (fetch_coins p inputs) as [r|] eqn:E; [|by right]. rewrite (fetch_coins_missing p inputs Hm r E). by left.
Qed.
End proceeds.

(** ** The oracle of a campaign *)
Inductive BoolJudgementOracle := BoolJudgement.
Record InfiniteLoopOracle := MkInfiniteLoop { branch_counts : gmap N (gmap N (N * N)) }.
Inductive PrecisionLossOracle := PrecisionLoss.
Inductive TypeConversionOracle := TypeConversion.
Inductive OverflowOracle := Overflow.
Record ProceedsOracle := MkProceeds { input_objects : list InputObjectKind }.
Record TypedBugOracle := MkTypedBug { use_abort : bool }.

Section campaign.
Context {I B St : Type} `{ZA : Z3Ast I B} `{ZD : !Z3Dynamic I} `{U : U256Lib} `{TL : TraceLib}
  `{AT : AddressText} `{IL : IdentLib} `{CL : CoinLib} `{FS : !FuzzStateLib St}.
Context (hash_to_u64 : string → N) (show_int : I → string) (show_frame_module : MoveModuleId → string)
  (balance_iter : gmap (Owner * CoinType) Z → list ((Owner * CoinType) * Z))
  (json_changes : list BalanceChange → Json) (json_event : Event → Json).
Abbreviation Oracle := (SuiGeneralOracle I St TransactionEffects (MoveAddress → N → option Object)).

(** The default handlers of the trait. *)
Definition no_pre_execution {O} (_ : MoveAddress → N → option Object) (_ : MoveSequence) (o : O) (st : St) :
    panics (result () * O * St) := Ret (Ok (), o, st).
Definition stateless {O} (r : panics (result (list OracleFinding))) (o : O) (st : St) :
    panics (result (list OracleFinding) * O * St) := fs ← r; Ret (fs, o, st).

#[local] Instance bool_judgement_oracle : Oracle BoolJudgementOracle := {
  pre_execution := no_pre_execution;
  oracle_open_frame _ _ _ _ := no_findings;
  oracle_before_instruction pc i _ cs f := stateless (Ret (bool_judgement_before_instruction pc i cs f));
  done_execution _ _ := no_findings;
}.
#[local] Instance infinite_loop_oracle : Oracle InfiniteLoopOracle := {
  pre_execution := no_pre_execution;
  oracle_open_frame frame _ _ _ o st :=
    Ret (Ok [], MkInfiniteLoop (infinite_loop_open_frame hash_to_u64 show_frame_module frame (branch_counts o)), st);
  oracle_before_instruction pc i _ cs f o st :=
    let '(r, counts) := infinite_loop_before_instruction hash_to_u64 show_int pc i cs f (branch_counts o) in
    Ret (r, MkInfiniteLoop counts, st);
  done_execution _ _ := no_findings;
}.
#[local] Instance precision_loss_oracle : Oracle PrecisionLossOracle := {
  pre_execution := no_pre_execution;
  oracle_open_frame _ _ _ _ := no_findings;
  oracle_before_instruction pc i _ cs f := stateless (Ret (precision_loss_before_instruction pc i cs f));
  done_execution _ _ := no_findings;
}.
#[local] Instance type_conversion_oracle : Oracle TypeConversionOracle := {
  pre_execution := no_pre_execution;
  oracle_open_frame _ _ _ _ := no_findings;
  oracle_before_instruction pc i ts _ f := stateless (type_conversion_before_instruction pc i ts f);
  done_execution _ _ := no_findings;
}.
#[local] Instance overflow_oracle : Oracle OverflowOracle := {
  pre_execution := no_pre_execution;
  oracle_open_frame _ _ _ _ := no_findings;
  oracle_before_instruction pc i ts _ f := stateless (overflow_before_instruction pc i ts f);
  done_execution _ _ := no_findings;
}.
#[local] Instance proceeds_oracle : Oracle ProceedsOracle := {
  pre_execution _ sequence _ st := Ret (Ok (), MkProceeds (input_object_kinds sequence), st);
  oracle_open_frame _ _ _ _ := no_findings;
  oracle_before_instruction _ _ _ _ _ := no_findings;
  done_execution db fx o st :=
    stateless (proceeds_done_execution balance_iter json_changes db fx (input_objects o) st) o st;
}.
#[local] Instance typed_bug_oracle : Oracle TypedBugOracle := {
  pre_execution := no_pre_execution;
  oracle_open_frame _ _ _ _ := no_findings;
  oracle_before_instruction _ _ _ _ _ := no_findings;
  done_execution _ fx o st := stateless (Ret (typed_bug_done_execution json_event (use_abort o) fx st)) o st;
}.

Abbreviation CampaignOracle := (CouldDisabledOralce BoolJudgementOracle * (CouldDisabledOralce InfiniteLoopOracle *
  (CouldDisabledOralce PrecisionLossOracle * (CouldDisabledOralce TypeConversionOracle *
  (CouldDisabledOralce OverflowOracle * (CouldDisabledOralce ProceedsOracle *
  (CouldDisabledOralce TypedBugOracle * ())))))))%type.

(** The oracles of a campaign with the states of the three that have one. *)
Definition campaign (disable_profit_oracle disable_defects_oracle : bool) (il : InfiniteLoopOracle)
    (pr : ProceedsOracle) (tb : TypedBugOracle) : CampaignOracle :=
  let d := disable_defects_oracle in
  (MkCouldDisabled BoolJudgement d, (MkCouldDisabled il d, (MkCouldDisabled PrecisionLoss d,
    (MkCouldDisabled TypeConversion d, (MkCouldDisabled Overflow d, (MkCouldDisabled pr disable_profit_oracle,
    (MkCouldDisabled tb false, ()))))))).
Definition oracles (typed_bug_abort disable_profit_oracle disable_defects_oracle : bool) : CampaignOracle :=
  campaign disable_profit_oracle disable_defects_oracle (MkInfiniteLoop ∅) (MkProceeds [])
    (MkTypedBug typed_bug_abort).

Lemma bool_judgement_ok pc i (cs : ConcolicState I) f : ∃ a, bool_judgement_before_instruction pc i cs f = Ok a.
Proof.
  unfold bool_judgement_before_instruction. destruct (is_comparison i), (cs_stack cs) as [|? [|? ?]]; eauto.
Qed.
Lemma infinite_loop_ok pc i (cs : ConcolicState I) f m :
  ∃ b m', infinite_loop_before_instruction hash_to_u64 show_int pc i cs f m = (Ok b, m').
Proof.
  unfold infinite_loop_before_instruction. destruct i, (cs_stack cs) as [|[v|] ?]; eauto;
    destruct (visit_branch _ _ _ _); eauto.
Qed.
Lemma precision_loss_ok pc i (cs : ConcolicState I) f : ∃ c, precision_loss_before_instruction pc i cs f = Ok c.
Proof.
  unfold precision_loss_before_instruction. destruct i, (cs_stack cs) as [|? [|? ?]]; eauto.
Qed.
Lemma type_conversion_not_err pc i ts f : type_conversion_before_instruction pc i ts f ≠ Ret Err.
Proof.
  unfold type_conversion_before_instruction. destruct (operand_stack ts); [done|].
  by destruct (unnecessary_cast _ _).
Qed.
Lemma overflow_not_err pc i ts f : overflow_before_instruction pc i ts f ≠ Ret Err.
Proof.
  unfold overflow_before_instruction. destruct i, (operand_stack ts) as [|r [|l ?]]; try done.
  by destruct (value_bitwidth l), (value_sig_bits l), (value_to_u256 r).
Qed.
Lemma proceeds_not_err db fx objs st :
  proceeds_done_execution balance_iter json_changes db fx objs st ≠ Ret Err.
Proof.
  unfold proceeds_done_execution. destruct (negb _); [done|].
  by destruct (get_balance_changes_from_effect _ _ _ _ _).
Qed.
Lemma typed_bug_ok b fx st : ∃ fs, typed_bug_done_execution json_event b fx st = Ok fs.
Proof.
  unfold typed_bug_done_execution. destruct b.
  - destruct (fx_status fx) as [|code|]; [eauto| |eauto]. destruct (code =? _)%N; eauto.
  - destruct (global_outcome st) as [o|]; [|eauto]. destruct (negb _); [eauto|].
    destruct (List.find _ _); eauto.
Qed.

(** The combined oracle of a campaign keeps its shape through every
    handler and never touches the fuzzing state. Muted defect oracles find
    nothing and cannot panic; otherwise the findings before an instruction are
    those of the five defect oracles in order, and a panic is one of the shift
    or cast oracle. At the end of a run the findings are those of the profit
    oracle, unless it is muted, and of the typed-bug oracle, which is never
    muted; the profit oracle judges the inputs of the sequence that ran. *)
Theorem campaign_oracles_combine dp dd il pr tb st :
  let o := campaign dp dd il pr tb in
  (∀ pc i ts cs f,
     let run := oracle_before_instruction pc i ts cs f o st in
     if dd then run = Ret (Ok [], o, st)
     else match type_conversion_before_instruction pc i ts f, overflow_before_instruction pc i ts f with
          | Ret (Ok d), Ret (Ok e) => ∃ a b c counts,
              bool_judgement_before_instruction pc i cs f = Ok a ∧
              infinite_loop_before_instruction hash_to_u64 show_int pc i cs f (branch_counts il) = (Ok b, counts) ∧
              precision_loss_before_instruction pc i cs f = Ok c ∧
              run = Ret (Ok (a ++ b ++ c ++ d ++ e), campaign dp dd (MkInfiniteLoop counts) pr tb, st)
          | _, _ => run = Panic
          end) ∧
  (∀ db sequence, pre_execution db sequence o st =
     Ret (Ok (), campaign dp dd il (if dp then pr else MkProceeds (input_object_kinds sequence)) tb, st)) ∧
  (∀ db fx,
     let run := done_execution db fx o st in
     match (if dp then Ret (Ok []) else
            proceeds_done_execution balance_iter json_changes db fx (input_objects pr) st) with
     | Ret (Ok fs) => ∃ ts, typed_bug_done_execution json_event (use_abort tb) fx st = Ok ts ∧
         run = Ret (Ok (fs ++ ts), o, st)
     | _ => run = Panic
     end).
Proof.
  intros o. split; [|split].
  - intros pc i ts cs f run. unfold run, o, campaign. destruct dd; [by destruct dp|].
    destruct (bool_judgement_ok pc i cs f) as [a Ha]. destruct (precision_loss_ok pc i cs f) as [c Hc].
    destruct (infinite_loop_ok pc i cs f (branch_counts il)) as (b & m & Hb).
    pose proof (type_conversion_not_err pc i ts f). pose proof (overflow_not_err pc i ts f).
    cbn. unfold chain, unless_disabled, stateless. cbn. rewrite Ha, Hb. cbn. rewrite Hc. cbn.
    destruct (type_conversion_before_instruction pc i ts f) as [[d|]|]; [|done|done]. cbn.
    destruct (overflow_before_instruction pc i ts f) as [[e|]|]; [|done|done]. cbn.
    exists a, b, c, m. destruct dp; cbn; by rewrite app_nil_r.
  - intros db sequence. unfold o, campaign. by destruct dd, dp.
  - intros db fx run. unfold run, o, campaign. destruct (typed_bug_ok (use_abort tb) fx st) as [ts Ht].
    pose proof (proceeds_not_err db fx (input_objects pr) st).
    destruct dd, dp; cbn; unfold chain, unless_disabled, stateless; cbn; rewrite ?Ht; cbn;
      try (eexists; split; [done|]; by rewrite app_nil_r);
      (destruct (proceeds_done_execution _ _ _ _ _ _) as [[fs|]|]; [|done|done]); cbn; rewrite Ht; cbn;
      eexists; (split; [done|]; by rewrite app_nil_r).
Qed.
End campaign.

(** ** A concrete run *)
Record DemoCoin := MkDemoCoin { dc_owner : N; dc_type : option N; dc_balance : N }.
#[export] Instance demo_coins : CoinLib := {
  Object := DemoCoin; MoveObjectType := N; Owner := N; CoinType := N;
  object_type := dc_type; is_coin _ := true; into_type_params t := [t]; object_digest _ := 0%N;
  object_owner := dc_owner;
  extract_balance_if_coin o := Ok (t ← dc_type o; Some (t, dc_balance o));
  gas_type_tag := 2%N;
}.
#[export] Instance demo_coin_laws : CoinLaws.
Proof. intros. split. intros [o t b] t' Ht _. simpl in Ht. subst t. simpl. eauto. Qed.
#[export] Instance demo_fuzz_state : FuzzStateLib bool :=
  { global_outcome allowed := Some (MkExecution [] allowed); gas_id _ := MkMoveAddress 99 }.

(** Coin 1 of owner 7 grows from 10 to 15. *)
Definition demo_provider (id : MoveAddress) (version : N) : option DemoCoin :=
  if bool_decide (id = MkMoveAddress 1) then
    Some (MkDemoCoin 7 (Some 2%N) (if (version =? 1)%N then 10 else 15))
  else None.
Definition demo_effects : TransactionEffects :=
  MkEffects _ Success 7%N 0%Z [(MkMoveAddress 1, 2, 0)%N] [] [(MkMoveAddress 1, 1%N)].

Lemma proceeds_oracle_exact_witness : ∃ fs,
  proceeds_done_execution (CL:=demo_coins) (FS:=demo_fuzz_state) map_to_list (λ _, J_num 0) demo_provider demo_effects [] true = Ret (Ok fs) ∧ length fs = 1%nat.
Proof.
  destruct (proj1 (proceeds_oracle_exact (CL:=demo_coins) (FS:=demo_fuzz_state) map_to_list (λ _, J_num 0) (λ _, Permutation_refl _)
    demo_provider demo_effects [] true) eq_refl eq_refl) as (bc & _ & [(H & _)|(H & _)]).
  - change (Forall (readable (CL:=demo_coins) demo_provider)
      [(MkMoveAddress 1, 1%N, None); (MkMoveAddress 1, 2%N, Some 0%N)]).
    repeat (apply Forall_cons; split); [| |apply Forall_nil_2];
      eexists; (split; [reflexivity|]); simpl; congruence.
  - exists [proceeds_finding (CL:=demo_coins) (λ _, J_num 0) bc]. split; [exact H|reflexivity].
  - vm_compute in H. discriminate H.
Defined.
