(* ===== verification/Random.v ===== *)
(** * Random: computations that draw random numbers

    [libafl_bolts::rands::Rand] is a library: [RandLib] is the part of it the
    mutators use. A computation on a fuzzing state that only draws numbers is
    a function of the generator that may panic: [rnd A]. *)
From S2P Require Import Prelude.

Class RandLib := {
  Rng : Type;
  below_or_zero : N → Rng → N * Rng;
  below_or_zero_lt n r : (0 < n)%N → ((below_or_zero n r).1 < n)%N;
  below_or_zero_zero r : (below_or_zero 0 r).1 = 0%N;
  choose_index : N → Rng → N * Rng;  (** the index [choose] picks *)
  choose_index_lt n r : (0 < n)%N → ((choose_index n r).1 < n)%N;
}.

(** A generator that replays a list of numbers, then draws zeros. *)
#[export, refine] Instance replay_rand : RandLib := {
  Rng := list N;
  below_or_zero n r := (if (n =? 0)%N then 0 else (hd 0 r) mod n, tail r)%N;
  choose_index n r := (if (n =? 0)%N then 0 else (hd 0 r) mod n, tail r)%N;
}.
Proof.
  - intros n r Hn. simpl. destruct (N.eqb_spec n 0); [lia|]. by apply N.mod_lt.
  - done.
  - intros n r Hn. simpl. destruct (N.eqb_spec n 0); [lia|]. by apply N.mod_lt.
Defined.

Definition rnd `{RandLib} (A : Type) : Type := Rng → panics (A * Rng).

#[export] Instance rnd_mret `{RandLib} : MRet rnd := λ A a r, Ret (a, r).
#[export] Instance rnd_mbind `{RandLib} : MBind rnd := λ A B k m r, '(a, r) ← m r; k a r.

Definition lift `{RandLib} {A} (m : panics A) : rnd A := λ r, a ← m; Ret (a, r).
Definition below `{RandLib} (n : nat) : rnd nat :=
  λ r, let '(k, r) := below_or_zero (N.of_nat n) r in Ret (N.to_nat k, r).
(** [&v[rand.below_or_zero(v.len())]]: indexing an empty vector panics. *)
Definition pick `{RandLib} {A} (v : list A) : rnd A := i ← below (length v); lift (unwrap (v !! i)).

(** [rand.choose(v)]: [None] when there is nothing to choose. *)
Definition choose `{RandLib} {A} (v : list A) : rnd (option A) :=
  λ r, match v with
       | [] => Ret (None, r)
       | _ => let '(k, r) := choose_index (N.of_nat (length v)) r in Ret (v !! N.to_nat k, r)
       end.

Section rnd.
Context `{RandLib}.

Lemma rnd_bind_Ret {A B} (m : rnd A) (k : A → rnd B) r b r' :
  (m ≫= k) r = Ret (b, r') ↔ ∃ a r1, m r = Ret (a, r1) ∧ k a r1 = Ret (b, r').
Proof.
  unfold mbind, rnd_mbind, mbind, panics_mbind. destruct (m r) as [[a r1]|]; simpl; naive_solver.
Qed.

Lemma lift_Ret {A} (m : panics A) r a r' : lift m r = Ret (a, r') ↔ m = Ret a ∧ r' = r.
Proof. unfold lift. destruct m; simpl; naive_solver. Qed.

Lemma mret_Ret {A} (a b : A) r r' : (mret a : rnd A) r = Ret (b, r') ↔ a = b ∧ r' = r.
Proof. unfold mret, rnd_mret. naive_solver. Qed.

Lemma pick_elem {A} (v : list A) r a r' : pick v r = Ret (a, r') → a ∈ v.
Proof.
  intros (i & r1 & _ & Hi)%rnd_bind_Ret. apply lift_Ret in Hi as [Hi _].
  apply unwrap_Ret in Hi. by apply list_elem_of_lookup_2 in Hi.
Qed.

Lemma choose_elem {A} (v : list A) r o r' : choose v r = Ret (o, r') →
  match o with Some a => a ∈ v | None => v = [] end.
Proof.
  unfold choose. destruct v as [|x v]; [by intros [= <- _]|].
  pose proof (choose_index_lt (N.of_nat (length (x :: v))) r) as Hlt.
  destruct (choose_index _ r) as [k r1]. intros [= <- _].
  destruct ((x :: v) !! N.to_nat k) as [a|] eqn:E; [by apply list_elem_of_lookup_2 in E|].
  apply lookup_ge_None in E. simpl in *. lia.
Qed.

Lemma pick_total {A} (v : list A) r : v ≠ [] → ∃ a r', pick v r = Ret (a, r').
Proof.
  intros Hv. unfold pick, mbind, rnd_mbind, below. pose proof (below_or_zero_lt (N.of_nat (length v)) r) as Hlt.
  destruct (below_or_zero (N.of_nat (length v)) r) as [k r1]. simpl in *.
  assert (k < N.of_nat (length v))%N as Hk by (apply Hlt; destruct v; simpl in *; [done|lia]).
  destruct (lookup_lt_is_Some_2 v (N.to_nat k)) as [a Ha]; [lia|]. exists a, r1.
  unfold lift. by rewrite Ha.
Qed.
End rnd.

(** Split the binds of a returning random computation. *)
Ltac rnd_inv :=
  repeat match goal with
  | H : mbind (M := rnd) _ _ _ = Ret _ |- _ => apply rnd_bind_Ret in H as (? & ? & ? & ?)
  | H : lift _ _ = Ret _ |- _ => apply lift_Ret in H as [? ->]
  | H : mret (M := rnd) _ _ = Ret _ |- _ => apply mret_Ret in H as [? ->]
  | _ => progress panics_inv
  end.
