(* ===== verification/Objects.v ===== *)
(** * Objects: the objects a sequence has at hand, and arguments made of them

    [crates/movy-fuzz/src/mutators/object_data.rs]. [ObjectData] replays a
    sequence against the ABI and keeps, by type, the arguments that hold an
    object; [try_construct_args] picks arguments for the parameters of a call
    among them and among the objects of the store. The store is the function
    [object_info] ([ObjectStoreInfo::get_move_object_info]). *)
From S2P Require Import Prelude Types Abi TypeArgs TypeGraph Meta Random.
From stdpp Require Import sorting.
From Stdlib Require String.

(** ** [MoveTypeTag] is ordered by its variants, then by their fields *)
Definition tag_index (t : MoveTypeTag) : nat :=
  match t with
  | Tag_Bool => 0 | Tag_U8 => 1 | Tag_U16 => 2 | Tag_U32 => 3 | Tag_U64 => 4 | Tag_U128 => 5
  | Tag_U256 => 6 | Tag_Vector _ => 7 | Tag_Address => 8 | Tag_Signer => 9 | Tag_Struct _ => 10
  end.
Definition then_compare (c d : comparison) : comparison := match c with Eq => d | _ => c end.
Fixpoint list_compare {A} (cmp : A → A → comparison) (l k : list A) : comparison :=
  match l, k with
  | [], [] => Eq
  | [], _ => Lt
  | _, [] => Gt
  | x :: l, y :: k => then_compare (cmp x y) (list_compare cmp l k)
  end.
Fixpoint tag_compare (x y : MoveTypeTag) {struct x} : comparison :=
  match x, y with
  | Tag_Vector a, Tag_Vector b => tag_compare a b
  | Tag_Struct (MkStructTag a m n tys), Tag_Struct (MkStructTag a' m' n' tys') =>
      then_compare (N.compare (addr_val a) (addr_val a'))
        (then_compare (String.compare m m') (then_compare (String.compare n n')
          (list_compare tag_compare tys tys')))
  | _, _ => Nat.compare (tag_index x) (tag_index y)
  end.
Definition tag_le (x y : MoveTypeTag) : Prop := tag_compare x y ≠ Gt.
#[export] Instance tag_le_dec : RelDecision tag_le.
Proof. intros x y. unfold tag_le. apply _. Defined.

(** Iteration over maps and sets in key order. *)
Definition tag_iter {V} (m : gmap MoveTypeTag V) : list (MoveTypeTag * V) :=
  merge_sort (λ x y, tag_le x.1 y.1) (map_to_list m).
Definition set_iter (s : gset MoveAddress) : list MoveAddress := merge_sort address_le (elements s).

Lemma elem_of_tag_iter {V} (m : gmap MoveTypeTag V) t v : (t, v) ∈ tag_iter m ↔ m !! t = Some v.
Proof. unfold tag_iter. by rewrite merge_sort_Permutation, elem_of_map_to_list. Qed.

(** ** Objects of the store ([movy-types/src/object.rs]) *)
Inductive MoveOwner :=
| AddressOwner (a : MoveAddress) | ObjectOwner (a : MoveAddress) | Immutable_
| Shared_ (initial_shared_version : N) | ConsensusAddressOwner (start_version : N) (owner : MoveAddress).
Record MoveObjectInfo := MkObjectInfo {
  oi_id : MoveAddress; oi_ty : MoveTypeTag; oi_owner : MoveOwner; oi_version : N; oi_digest : N }.

Inductive Gate := Owned | Immutable | Shared.
#[export] Instance Gate_eq_dec : EqDecision Gate.
Proof. solve_decision. Defined.

Definition owner_matches_gate (owner : MoveOwner) (gate : Gate) (current_sender : MoveAddress) : bool :=
  match owner with
  | AddressOwner addr => bool_decide (addr = current_sender)
  | Shared_ _ => true
  | Immutable_ => bool_decide (gate = Immutable)
  | _ => false
  end.

(** ** [ObjectData] *)
Abbreviation Existing := (gmap MoveTypeTag (list (SequenceArgument * Gate))).
Record ObjectData := MkObjectData {
  od_existing_objects : Existing;
  od_key_store_objects : list SequenceArgument;
  od_hot_potatoes : list MoveTypeTag;
  od_used_object_ids : list MoveAddress;
  od_balances : list SequenceArgument }.
Definition object_data_new : ObjectData := MkObjectData ∅ [] [] [] [].

Definition set_existing (e : Existing) (d : ObjectData) : ObjectData :=
  MkObjectData e (od_key_store_objects d) (od_hot_potatoes d) (od_used_object_ids d) (od_balances d).
Definition set_key_store (l : list SequenceArgument) (d : ObjectData) : ObjectData :=
  MkObjectData (od_existing_objects d) l (od_hot_potatoes d) (od_used_object_ids d) (od_balances d).
Definition set_hot_potatoes (l : list MoveTypeTag) (d : ObjectData) : ObjectData :=
  MkObjectData (od_existing_objects d) (od_key_store_objects d) l (od_used_object_ids d) (od_balances d).
Definition push_used (id : MoveAddress) (d : ObjectData) : ObjectData :=
  MkObjectData (od_existing_objects d) (od_key_store_objects d) (od_hot_potatoes d)
    (od_used_object_ids d ++ [id]) (od_balances d).
Definition set_balances (l : list SequenceArgument) (d : ObjectData) : ObjectData :=
  MkObjectData (od_existing_objects d) (od_key_store_objects d) (od_hot_potatoes d)
    (od_used_object_ids d) l.

(** [entry(ty).or_default().push((arg, gate))] *)
Definition push_existing (ty : MoveTypeTag) (arg : SequenceArgument) (gate : Gate) (d : ObjectData) :
    ObjectData :=
  set_existing (<[ty := default [] (od_existing_objects d !! ty) ++ [(arg, gate)]]> (od_existing_objects d)) d.
(** [retain(|a| *a != *arg)] *)
Definition without (arg : SequenceArgument) (l : list SequenceArgument) : list SequenceArgument :=
  List.filter (λ a, bool_decide (a ≠ arg)) l.
Definition candidates_without (arg : SequenceArgument) (l : list (SequenceArgument * Gate)) :
    list (SequenceArgument * Gate) := List.filter (λ x, bool_decide (x.1 ≠ arg)) l.
(** [position(|x| x == &ty)] and [remove] *)
Fixpoint remove_first (ty : MoveTypeTag) (l : list MoveTypeTag) : option (list MoveTypeTag) :=
  match l with
  | [] => None
  | x :: l => if bool_decide (x = ty) then Some l else cons x <$> remove_first ty l
  end.

(** Positional type arguments as a map. *)
Definition ty_args_map (tys : list MoveTypeTag) : TyArgs :=
  list_to_map (imap (λ i ty, (as_u16 i, ty)) tys).

Definition is_reference (t : MoveAbiSignatureToken) : bool :=
  match t with Tok_Reference _ | Tok_MutableReference _ => true | _ => false end.

Section object_data.
Context `{PG : PetGraph G} {Rand : Type}.
Context (meta : FuzzMetadata (G := G) (Rand := Rand)) (object_info : MoveAddress → option MoveObjectInfo).

Definition available_objects (ty : MoveTypeTag) (gate : Gate) : list MoveAddress :=
  match md_types_pool (fm_base meta) !! ty with
  | Some ids =>
      omap (λ id, info ← object_info id;
        if owner_matches_gate (oi_owner info) gate (fm_attacker meta) then Some id else None) (set_iter ids)
  | None => []
  end.

(** *** The inputs of a sequence *)
Definition gate_of_owner (owner : MoveOwner) : panics Gate :=
  match owner with
  | AddressOwner _ => Ret Owned
  | Immutable_ => Ret Immutable
  | Shared_ _ => Ret Shared
  | _ => Panic
  end.

Fixpoint scan_inputs (i : nat) (inputs : list InputArgument) (d : ObjectData) : panics ObjectData :=
  match inputs with
  | [] => Ret d
  | Arg_Object _ obj :: inputs =>
      obj_id ← match obj with
               | ImmOrOwnedObject (id, _, _) => Ret id
               | SharedObject id _ _ => Ret id
               | Receiving _ => Panic
               end;
      let d := push_used obj_id d in
      object ← unwrap (object_info obj_id);
      gate ← gate_of_owner (oi_owner object);
      scan_inputs (S i) inputs (push_existing (oi_ty object) (Input (as_u16 i)) gate d)
  | _ :: inputs => scan_inputs (S i) inputs d
  end.

(** *** The arguments a call consumes *)
Definition consume_argument (ty_args : TyArgs) (arg : SequenceArgument) (param : MoveAbiSignatureToken)
    (d : ObjectData) : panics ObjectData :=
  if negb (needs_sample param) || is_reference param then Ret d else
  instantiated_param ← unwrap (subst ty_args param);
  let partial_instantiation := partial_subst ty_args param in
  candidates ← unwrap (od_existing_objects d !! instantiated_param);
  let d := set_existing (match candidates_without arg candidates with
    | [] => delete instantiated_param (od_existing_objects d)
    | l => <[instantiated_param := l]> (od_existing_objects d)
    end) d in
  match arg with
  | Input _ => Ret d
  | _ =>
      let d := if is_balance partial_instantiation then set_balances (without arg (od_balances d)) d else d in
      let d := if is_key_store partial_instantiation
               then set_key_store (without arg (od_key_store_objects d)) d else d in
      if is_hot_potato partial_instantiation then
        hot_potatoes ← unwrap (remove_first instantiated_param (od_hot_potatoes d));
        Ret (set_hot_potatoes hot_potatoes d)
      else Ret d
  end.

Fixpoint consume_arguments (ty_args : TyArgs) (arguments : list (SequenceArgument * MoveAbiSignatureToken))
    (d : ObjectData) : panics ObjectData :=
  match arguments with
  | [] => Ret d
  | (arg, param) :: arguments => d ← consume_argument ty_args arg param d; consume_arguments ty_args arguments d
  end.

(** *** The values a call returns *)
Definition return_vector (ty_args : TyArgs) (ret_ty inner : MoveAbiSignatureToken) (d : ObjectData) :
    panics ObjectData :=
  instantiated_ret_ty ← unwrap (subst ty_args ret_ty);
  let push_unless_drop abilities :=
    if ability_contains abilities ability_DROP then Ret d
    else Ret (set_hot_potatoes (od_hot_potatoes d ++ [instantiated_ret_ty]) d) in
  match inner with
  | Tok_Struct inner | Tok_StructInstantiation inner _ => push_unless_drop (sh_abilities inner)
  | Tok_TypeParameter idx _ =>
      ty_tag ← unwrap (ty_args !! idx);
      match ty_tag with
      | Tag_Struct (MkStructTag address module name _) =>
          abilities ← unwrap (get_abilities (fm_base meta) address module name);
          push_unless_drop abilities
      | _ => Ret d
      end
  | _ => Ret d
  end.

Definition return_value (ty_args : TyArgs) (res_arg : SequenceArgument) (ret_ty : MoveAbiSignatureToken)
    (d : ObjectData) : panics ObjectData :=
  match ret_ty with
  | Tok_Vector inner => return_vector ty_args ret_ty inner d
  | _ =>
      instantiated_ret_ty ← unwrap (subst ty_args ret_ty);
      let partial_instantiation := partial_subst ty_args ret_ty in
      match instantiated_ret_ty with
      | Tag_Struct _ =>
          let d := push_existing instantiated_ret_ty res_arg Owned d in
          let d := if is_balance partial_instantiation then set_balances (od_balances d ++ [res_arg]) d else d in
          let d := if is_key_store partial_instantiation
                   then set_key_store (od_key_store_objects d ++ [res_arg]) d else d in
          Ret (if is_hot_potato partial_instantiation
               then set_hot_potatoes (od_hot_potatoes d ++ [instantiated_ret_ty]) d else d)
      | _ => Ret d
      end
  end.

(** [Result(i)] of a call with one value, [NestedResult(i, j)] otherwise. *)
Definition result_argument (returns : nat) (i : N) (j : nat) : SequenceArgument :=
  if (returns =? 1)%nat then Result i else NestedResult i (as_u16 j).

Fixpoint return_values (ty_args : TyArgs) (returns : nat) (i : N) (j : nat)
    (rets : list MoveAbiSignatureToken) (d : ObjectData) : panics ObjectData :=
  match rets with
  | [] => Ret d
  | ret_ty :: rets =>
      d ← return_value ty_args (result_argument returns i j) ret_ty d;
      return_values ty_args returns i (S j) rets d
  end.

(** *** The commands in order *)
Definition scan_command (i : nat) (cmd : MoveSequenceCall) (d : ObjectData) : panics ObjectData :=
  match cmd with
  | Call movecall =>
      function ← unwrap (get_function (fm_base meta) (mc_module_id movecall) (mc_module_name movecall)
        (mc_function movecall));
      let ty_args := ty_args_map (mc_type_arguments movecall) in
      d ← consume_arguments ty_args (zip (mc_arguments movecall) (fa_parameters function)) d;
      return_values ty_args (length (fa_return_paramters function)) (as_u16 i) 0 (fa_return_paramters function) d
  | _ => Ret d
  end.
Fixpoint scan_commands (i : nat) (cmds : list MoveSequenceCall) (d : ObjectData) : panics ObjectData :=
  match cmds with
  | [] => Ret d
  | cmd :: cmds => d ← scan_command i cmd d; scan_commands (S i) cmds d
  end.

Definition from_ptb (ptb : MoveSequence) : panics ObjectData :=
  let d := push_used (fm_gas_id meta) object_data_new in
  match seq_commands ptb with
  | [] => Ret d
  | cmds => d ← scan_inputs 0 (seq_inputs ptb) d; scan_commands 0 cmds d
  end.

(** *** Leaving out used arguments *)
Definition remove_used_from (arg : SequenceArgument) (x : MoveTypeTag * list (SequenceArgument * Gate))
    (acc : Existing * list MoveTypeTag) : Existing * list MoveTypeTag :=
  let '(ty_tag, candidates) := x in
  let '(existing, hot_potatoes) := acc in
  if forallb (λ c, bool_decide (c.1 ≠ arg)) candidates then acc else
  (<[ty_tag := candidates_without arg candidates]> existing,
   match remove_first ty_tag hot_potatoes with Some l => l | None => hot_potatoes end).

Definition remove_used (arg : SequenceArgument) (d : ObjectData) : ObjectData :=
  let '(existing, hot_potatoes) :=
    fold_left (λ acc x, remove_used_from arg x acc) (tag_iter (od_existing_objects d))
      (od_existing_objects d, od_hot_potatoes d) in
  MkObjectData (filter (λ x, x.2 ≠ []) existing) (without arg (od_key_store_objects d)) hot_potatoes
    (od_used_object_ids d) (without arg (od_balances d)).

Definition from_ptb_and_remove_used (ptb : MoveSequence) (used_arguments : list SequenceArgument) :
    panics ObjectData :=
  data ← from_ptb ptb;
  Ret (fold_left (λ d arg, remove_used arg d) used_arguments data).
End object_data.
