(* ===== verification/Construct.v ===== *)
(** * Construct: arguments for the parameters of a call

    The sampling half of [crates/movy-fuzz/src/mutators/object_data.rs]:
    [try_construct_args], [try_construct_args_from_db] and [update_score].
    Type arguments are sampled parameter by parameter and intersected, then an
    object of the instantiated type is drawn for every parameter. *)
From S2P Require Import Prelude Types Abi TypeArgs TypeGraph Meta Random Objects.

(** ** Type arguments *)

(** The union of assignments that agree. *)
Fixpoint intersect_generics (result : TyArgs) (type_args : list TyArgs) : option TyArgs :=
  match type_args with
  | [] => Some result
  | type_arg :: type_args => result ← merge_ty_args result type_arg; intersect_generics result type_args
  end.

(** [itertools::multi_cartesian_product]: the last row varies fastest. *)
Fixpoint multi_cartesian_product {A} (rows : list (list A)) : list (list A) :=
  match rows with
  | [] => [[]]
  | row :: rows => flat_map (λ x, map (cons x) (multi_cartesian_product rows)) row
  end.

Definition get_ty_args_candidates (rows : list (list TyArgs)) : list TyArgs :=
  omap (intersect_generics ∅) (multi_cartesian_product rows).

Inductive ConstructResult :=
| ConstructOk (args : list SequenceArgument) (ty_args : list MoveTypeTag) (inputs : list InputArgument)
| PartialFound (args : list (option SequenceArgument)) (ty_args : TyArgs) (inputs : list InputArgument)
| Unsolvable.

(** [any] with a predicate that may panic. *)
Fixpoint any_panics {A} (p : A → panics bool) (l : list A) : panics bool :=
  match l with
  | [] => Ret false
  | x :: l => b ← p x; if b : bool then Ret true else any_panics p l
  end.
(** A loop that keeps some elements and may panic. *)
Fixpoint filter_map_panics {A B} (f : A → panics (option B)) (l : list A) : panics (list B) :=
  match l with
  | [] => Ret []
  | x :: l => y ← f x; k ← filter_map_panics f l; Ret (option_list y ++ k)
  end.
Fixpoint mapM_rnd `{RandLib} {A B} (f : A → rnd B) (l : list A) : rnd (list B) :=
  match l with
  | [] => mret []
  | x :: l => y ← f x; k ← mapM_rnd f l; mret (y :: k)
  end.

Section construct.
Context `{PG : PetGraph G} {Rand : Type} `{RL : RandLib}.
Context (meta : FuzzMetadata (G := G) (Rand := Rand)) (object_info : MoveAddress → option MoveObjectInfo).

Definition gen_type_tag_by_abilities (abilities : MoveAbility) : rnd MoveTypeTag :=
  match md_ability_to_type_tag (fm_base meta) !! abilities with
  | Some [] | None => mret Tag_U64
  | Some type_tags => pick type_tags
  end.

Definition get_type_tag_ability (type_tag : MoveTypeTag) : panics MoveAbility :=
  match type_tag with
  | Tag_Signer => Ret ability_DROP
  | Tag_Struct (MkStructTag address module name _) =>
      unwrap (get_abilities (fm_base meta) address module name)
  | _ => Ret ability_PRIMITIVES
  end.

(** Some type argument lacks an ability the function asks for. *)
Definition lacks_ability (function_abilities : list MoveAbility) (ty_args : TyArgs) : panics bool :=
  any_panics (λ '(idx, ty_tag),
    ability_set ← get_type_tag_ability ty_tag;
    wanted ← unwrap (function_abilities !! N.to_nat idx);
    Ret (negb (is_subset_of wanted ability_set))) (btree_iter ty_args).

Definition is_struct_tag (t : MoveTypeTag) : bool := match t with Tag_Struct _ => true | _ => false end.

Definition try_sample_object_from_db (ty : MoveAbiSignatureToken) (db_type_tags : list MoveTypeTag)
    (function_abilities : list MoveAbility) (gate : Gate) : panics (list TyArgs) :=
  filter_map_panics (λ db_ty_tag,
    match extract_ty_args ty db_ty_tag with
    | None => Ret None
    | Some ty_args =>
        lacks ← lacks_ability function_abilities ty_args;
        if lacks : bool then Ret None else
        if negb (is_struct_tag db_ty_tag) then Panic else
        match md_types_pool (fm_base meta) !! db_ty_tag with
        | None => Ret None
        | Some addresses =>
            let has_gate_match := existsb (λ addr,
              match object_info addr with
              | Some info => owner_matches_gate (oi_owner info) gate (fm_attacker meta)
              | None => false
              end) (set_iter addresses) in
            Ret (if has_gate_match then Some ty_args else None)
        end
    end) db_type_tags.

Definition gate_has_candidates (gate : Gate) (candidates : list (SequenceArgument * Gate)) : bool :=
  match gate with
  | Owned => negb (forallb (λ c, bool_decide (c.2 ≠ Owned)) candidates)
  | Immutable => true
  | Shared => negb (forallb (λ c, bool_decide (c.2 = Immutable)) candidates)
  end.

Definition try_sample_object_from_cache (existing_objects : Existing) (ty : MoveAbiSignatureToken)
    (function_abilities : list MoveAbility) (gate : Gate) : panics (list TyArgs) :=
  filter_map_panics (λ '(db_ty_tag, candidates),
    match extract_ty_args ty db_ty_tag with
    | None => Ret None
    | Some ty_args =>
        lacks ← lacks_ability function_abilities ty_args;
        if lacks : bool then Ret None else
        if negb (is_struct_tag db_ty_tag) then Panic else
        Ret (if gate_has_candidates gate candidates then Some ty_args else None)
    end) (tag_iter existing_objects).

(** ** Parameters *)
Definition is_struct_param (t : MoveAbiSignatureToken) : bool :=
  match t with Tok_Struct _ | Tok_StructInstantiation _ _ => true | _ => false end.

(** The struct a parameter is about and what the object must allow. *)
Definition gated (param : MoveAbiSignatureToken) : option (MoveAbiSignatureToken * Gate) :=
  match param with
  | Tok_Struct _ | Tok_StructInstantiation _ _ => Some (param, Owned)
  | Tok_Reference b => if is_struct_param b then Some (b, Immutable) else None
  | Tok_MutableReference b => if is_struct_param b then Some (b, Shared) else None
  | _ => None
  end.

Definition gate_param (fixed_ty_args : TyArgs) (param : MoveAbiSignatureToken) :
    panics (MoveAbiSignatureToken * Gate) :=
  if is_tx_context param then Panic else unwrap (gated (partial_subst fixed_ty_args param)).

(** ** Candidates *)
Definition pool_type_tags : list MoveTypeTag := map fst (tag_iter (md_types_pool (fm_base meta))).

Definition param_candidates (existing_objects : Existing) (function_abilities : list MoveAbility)
    (x : MoveAbiSignatureToken * Gate) : panics (list TyArgs) :=
  let '(param, gate) := x in
  from_cache ← try_sample_object_from_cache existing_objects param function_abilities gate;
  abilities ← unwrap (ability param);
  from_db ← (if ability_contains abilities ability_KEY
             then try_sample_object_from_db param pool_type_tags function_abilities gate else Ret []);
  Ret (from_cache ++ from_db).

(** The rows of candidates, and the parameters without any. *)
Fixpoint collect_candidates (existing_objects : Existing) (function_abilities : list MoveAbility) (i : nat)
    (params : list (MoveAbiSignatureToken * Gate)) : panics (list (list TyArgs) * list N) :=
  match params with
  | [] => Ret ([], [])
  | x :: params =>
      candidates ← param_candidates existing_objects function_abilities x;
      '(rows, missing_idx) ← collect_candidates existing_objects function_abilities (S i) params;
      Ret match candidates with
          | [] => (rows, as_u16 i :: missing_idx)
          | _ => (candidates :: rows, missing_idx)
          end
  end.

(** ** Drawing the objects *)
Definition allowed_gate (gate g : Gate) : bool :=
  match gate with Owned | Shared => bool_decide (g ≠ Immutable) | Immutable => true end.

Record Sampling := MkSampling {
  sm_existing_objects : Existing;
  sm_used_object_ids : list MoveAddress;
  sm_return_args : list (option SequenceArgument);
  sm_inputs : list InputArgument;
  sm_missing_idx : list N }.

Definition push_return (arg : option SequenceArgument) (s : Sampling) : Sampling :=
  MkSampling (sm_existing_objects s) (sm_used_object_ids s) (sm_return_args s ++ [arg]) (sm_inputs s)
    (sm_missing_idx s).
Definition push_missing (i : nat) (s : Sampling) : Sampling :=
  MkSampling (sm_existing_objects s) (sm_used_object_ids s) (sm_return_args s ++ [None]) (sm_inputs s)
    (sm_missing_idx s ++ [as_u16 i]).

(** One of the arguments at hand: taken away when it is needed by value. *)
Definition sample_existing (i : nat) (gate : Gate) (ty : MoveTypeTag) (args : list (SequenceArgument * Gate))
    (s : Sampling) : rnd Sampling :=
  match List.filter (λ k, match args !! k with Some (_, g) => allowed_gate gate g | None => false end)
          (seq 0 (length args)) with
  | [] => mret (push_missing i s)
  | filtered_idxes =>
      k ← pick filtered_idxes;
      '(arg, _) ← lift (unwrap (args !! k));
      let existing := if bool_decide (gate = Owned)
        then <[ty := delete k args]> (sm_existing_objects s) else sm_existing_objects s in
      mret (push_return (Some arg) (MkSampling existing (sm_used_object_ids s) (sm_return_args s)
        (sm_inputs s) (sm_missing_idx s)))
  end.

(** The input argument for an object of the store; [None]: unsupported owner. *)
Definition object_input (object_id : MoveAddress) (object : MoveObjectInfo) : option InputArgument :=
  match oi_owner object with
  | AddressOwner _ | Immutable_ =>
      Some (Arg_Object (oi_ty object) (ImmOrOwnedObject (object_id, oi_version object, oi_digest object)))
  | Shared_ initial_shared_version =>
      Some (Arg_Object (oi_ty object) (SharedObject object_id initial_shared_version true))
  | _ => None
  end.

(** An object of the store as a new input; [None]: give up. *)
Definition sample_from_db (input_len i : nat) (gate : Gate) (ty : MoveTypeTag) (s : Sampling) :
    rnd (option Sampling) :=
  let object_ids := List.filter (λ id, bool_decide (id ∉ sm_used_object_ids s))
    (available_objects meta object_info ty gate) in
  match object_ids with
  | [] => mret (Some (push_missing i s))
  | _ =>
      object_id ← pick object_ids;
      match object_info object_id ≫= object_input object_id with
      | None => mret None
      | Some input =>
          let inputs := sm_inputs s ++ [input] in
          mret (Some (MkSampling (sm_existing_objects s) (sm_used_object_ids s ++ [object_id])
            (sm_return_args s ++ [Some (Input (as_u16 (input_len + length inputs - 1)))]) inputs
            (sm_missing_idx s)))
      end
  end.

Definition sample_param (input_len i : nat) (ty_args_map : TyArgs) (x : MoveAbiSignatureToken * Gate)
    (s : Sampling) : rnd (option Sampling) :=
  let '(param, gate) := x in
  if bool_decide (as_u16 i ∈ sm_missing_idx s) then mret (Some (push_return None s)) else
  instantiated_ty ← lift (unwrap (subst ty_args_map param));
  if negb (is_struct_tag instantiated_ty) then lift Panic else
  if negb (is_struct_param param) then lift Panic else
  match sm_existing_objects s !! instantiated_ty with
  | Some args => s ← sample_existing i gate instantiated_ty args s; mret (Some s)
  | None => sample_from_db input_len i gate instantiated_ty s
  end.

Fixpoint sample_params (input_len i : nat) (ty_args_map : TyArgs)
    (params : list (MoveAbiSignatureToken * Gate)) (s : Sampling) : rnd (option Sampling) :=
  match params with
  | [] => mret (Some s)
  | x :: params =>
      r ← sample_param input_len i ty_args_map x s;
      match r with
      | None => mret None
      | Some s => sample_params input_len (S i) ty_args_map params s
      end
  end.

(** The type arguments of the call: sampled, fixed, or any of the right
    abilities (which is drawn even when a fixed one is used). *)
Definition final_ty_arg (ty_args_map fixed_ty_args : TyArgs) (x : nat * MoveAbility) : rnd MoveTypeTag :=
  match ty_args_map !! as_u16 x.1 with
  | Some ty => mret ty
  | None =>
      generated ← gen_type_tag_by_abilities x.2;
      mret (default generated (fixed_ty_args !! as_u16 x.1))
  end.

Definition try_construct_args (input_len : nat) (params : list MoveAbiSignatureToken)
    (function_abilities : list MoveAbility) (fixed_ty_args : TyArgs) (object_data : ObjectData) :
    rnd ConstructResult :=
  let existing_objects := od_existing_objects object_data in
  if existsb (λ param, match gated param with None => true | Some _ => false end) params then mret Unsolvable else
  param_with_gate ← lift (mapM (gate_param fixed_ty_args) params);
  '(rows, missing_idx) ← lift (collect_candidates existing_objects function_abilities 0 param_with_gate);
  match get_ty_args_candidates rows with
  | [] => mret Unsolvable
  | ty_args_candidates =>
      ty_args_map ← pick ty_args_candidates;
      r ← sample_params input_len 0 ty_args_map param_with_gate
        (MkSampling existing_objects (od_used_object_ids object_data) [] [] missing_idx);
      match r with
      | None => mret Unsolvable
      | Some s =>
          match sm_missing_idx s with
          | [] =>
              ty_args ← mapM_rnd (final_ty_arg ty_args_map fixed_ty_args) (imap pair function_abilities);
              mret (ConstructOk (omap id (sm_return_args s)) ty_args (sm_inputs s))
          | _ => mret (PartialFound (sm_return_args s) (fixed_ty_args ∪ ty_args_map) (sm_inputs s))
          end
      end
  end.

(** ** Objects of the store for all parameters at once *)
Definition gated_with_index (parameters : list MoveAbiSignatureToken) :
    list (N * (MoveAbiSignatureToken * Gate)) :=
  omap (λ '(i, param), if is_tx_context param then None else pair (as_u16 i) <$> gated param)
    (imap pair parameters).

(** The rows of candidates, unless a parameter has none. *)
Fixpoint collect_db_candidates (function_abilities : list MoveAbility)
    (params : list (N * (MoveAbiSignatureToken * Gate))) : panics (option (list (list TyArgs))) :=
  match params with
  | [] => Ret (Some [])
  | (_, (param, gate)) :: params =>
      candidates ← try_sample_object_from_db param pool_type_tags function_abilities gate;
      match candidates with
      | [] => Ret None
      | _ => rows ← collect_db_candidates function_abilities params; Ret (option_map (cons candidates) rows)
      end
  end.

Definition db_ty_arg (ty_args_map : TyArgs) (x : nat * MoveAbility) : rnd MoveTypeTag :=
  match ty_args_map !! as_u16 x.1 with Some ty => mret ty | None => gen_type_tag_by_abilities x.2 end.

Definition object_candidates (ty_args_map : TyArgs) (x : N * (MoveAbiSignatureToken * Gate)) :
    panics (N * list MoveAddress) :=
  let '(i, (param, gate)) := x in
  instantiated_ty ← unwrap (subst ty_args_map param);
  if negb (is_struct_tag instantiated_ty) then Panic else
  Ret (i, available_objects meta object_info instantiated_ty gate).

Definition try_construct_args_from_db (movecall : MoveCall) :
    rnd (option (gmap N MoveAddress * list MoveTypeTag)) :=
  function ← lift (unwrap (get_function (fm_base meta) (mc_module_id movecall) (mc_module_name movecall)
    (mc_function movecall)));
  let function_abilities := fa_type_parameters function in
  let param_with_gate := gated_with_index (fa_parameters function) in
  rows ← lift (collect_db_candidates function_abilities param_with_gate);
  match get_ty_args_candidates <$> rows with
  | None | Some [] => mret None
  | Some ty_args_candidates =>
      ty_args_map ← pick ty_args_candidates;
      ty_args ← mapM_rnd (db_ty_arg ty_args_map) (imap pair function_abilities);
      candidates ← lift (mapM (object_candidates ty_args_map) param_with_gate);
      let candidates := btree_iter (list_to_map (M := gmap N (list MoveAddress)) (reverse candidates)) in
      if existsb (λ x, match x.2 with [] => true | _ => false end) candidates then mret None else
      objects ← mapM_rnd (λ x, id ← pick x.2; mret (x.1, id)) candidates;
      mret (Some (list_to_map objects, ty_args))
  end.

(** ** Scores *)
Definition SCORE_TICK : N := 5000.

Definition hot_potato_consumers (hot_potatoes : list MoveTypeTag) : list FunctionIdent :=
  flat_map (λ type_tag, map (λ '(module_id, f), MkFunctionIdent module_id (fa_name f))
    (find_consumers (md_type_graph (fm_base meta)) (from_type_tag_lossy type_tag) true)) hot_potatoes.

(** The consumers of pending hot potatoes gain a tick each time, the other
    functions fall back to their initial score. *)
Definition update_score (hot_potatoes : list MoveTypeTag) : FuzzMetadata (G := G) (Rand := Rand) :=
  let consumers := hot_potato_consumers hot_potatoes in
  let raised := fold_left (λ scores func, alter (λ s, s + SCORE_TICK)%N func scores) consumers
    (fm_function_scores meta) in
  let scores := map_imap (λ func score,
    Some (if bool_decide (func ∈ consumers) then score
          else default INIT_FUNCTION_SCORE (fm_specific_function_scores meta !! func))) raised in
  MkFuzzMetadata (fm_base meta) (fm_rand meta) (fm_attacker meta) (fm_callers_pool meta)
    (fm_addresses_pool meta) scores (fm_current_mutator meta) (fm_specific_function_scores meta)
    (fm_target_functions meta) (fm_target_packages meta) (fm_function_hooks meta) (fm_sequence_hooks meta)
    (fm_gas_id meta) (fm_checkpoint meta) (fm_epoch meta) (fm_epoch_ms meta).
End construct.
