(* ===== verification/ConstructSpec.v ===== *)
(** * ConstructSpec: what sampled arguments are

    The arguments [try_construct_args] finds ([Construct]) have the types of
    the parameters under the type arguments it returns, allow what the
    parameter does with them, and are objects of the sequence or objects of
    the store that are new to it. *)
From S2P Require Import Prelude Types Abi TypeArgs TypeGraph Meta Random Objects Construct.

(** ** Type arguments *)
Lemma lossy_no_params i g : contains_type_param i (from_type_tag_lossy g) = false.
Proof.
  induction g as [| | | | | | |g IH| | |a mo n tys IH] using MoveTypeTag_ind; simpl; try done.
  destruct tys as [|ty tys]; [done|]. change (existsb (contains_type_param i)
    (map from_type_tag_lossy (ty :: tys)) = false). induction IH as [|t l Ht _ IH]; [done|].
  simpl. by rewrite Ht.
Qed.

Lemma partial_subst_params m t i : contains_type_param i (partial_subst m t) = true →
  m !! i = None ∧ contains_type_param i t = true.
Proof.
  induction t as [| | | | | | | | |t IH|h|h args IH|j a|t IH|t IH] using MoveAbiSignatureToken_ind;
    simpl; try done.
  - intros H. induction IH as [|t l Ht _ IH]; [done|]. simpl in *.
    apply orb_true_iff in H as [H|H]; [apply Ht in H as [? ->]; done|].
    destruct (IH H) as [? ->]. by rewrite orb_true_r.
  - destruct (m !! j) as [g|] eqn:E; simpl; [by rewrite lossy_no_params|].
    intros ->%N.eqb_eq. by rewrite E, N.eqb_refl.
Qed.

Lemma intersect_generics_elem rows m : ∀ acc, intersect_generics acc rows = Some m →
  ∀ i t, m !! i = Some t → acc !! i = Some t ∨ ∃ row, row ∈ rows ∧ row !! i = Some t.
Proof.
  induction rows as [|row rows IH]; intros acc H i t Hi; simpl in H; [simplify_eq; auto|].
  apply bind_Some in H as (acc' & Hm & H). destruct (merge_ty_args_Some _ _ _ Hm) as (H1 & H2 & H3).
  destruct (IH _ H i t Hi) as [Hacc|(row' & Hin & Hrow)].
  - destruct (proj1 (H3 i)) as [[u Hu]|[u Hu]]; [by eexists| |].
    + left. rewrite (lookup_weaken _ _ _ _ Hu H1) in Hacc. congruence.
    + right. exists row. split; [left|]. rewrite (lookup_weaken _ _ _ _ Hu H2) in Hacc. congruence.
  - right. exists row'. split; [by right|done].
Qed.

Lemma elem_of_product {A} (rows : list (list A)) combination x :
  combination ∈ multi_cartesian_product rows → x ∈ combination → ∃ row, row ∈ rows ∧ x ∈ row.
Proof.
  revert combination. induction rows as [|row rows IH]; intros combination Hc Hx; simpl in Hc.
  - apply list_elem_of_singleton in Hc as ->. by apply elem_of_nil in Hx.
  - apply list_elem_of_In, in_flat_map in Hc as (y & Hy%list_elem_of_In & Hc%list_elem_of_In).
    apply list_elem_of_fmap in Hc as (c & -> & Hc). apply elem_of_cons in Hx as [->|Hx].
    + exists row. split; [left|done].
    + destruct (IH c Hc Hx) as (row' & ? & ?). exists row'. split; [by right|done].
Qed.

Lemma candidates_elem rows m i t : m ∈ get_ty_args_candidates rows → m !! i = Some t →
  ∃ row c, row ∈ rows ∧ c ∈ row ∧ c !! i = Some t.
Proof.
  intros (combination & Hc & Hm)%list_elem_of_omap Hi.
  destruct (intersect_generics_elem _ _ _ Hm i t Hi) as [H|(c & Hin & Hci)]; [by rewrite lookup_empty in H|].
  destruct (elem_of_product _ _ _ Hc Hin) as (row & Hrow & Hcr). by exists row, c.
Qed.

(** ** Loops that may panic *)
Lemma filter_map_panics_elem {A B} (f : A → panics (option B)) l k y : filter_map_panics f l = Ret k →
  y ∈ k → ∃ x, x ∈ l ∧ f x = Ret (Some y).
Proof.
  revert k. induction l as [|x l IH]; intros k E Hy; simpl in E.
  - injection E as <-. by apply elem_of_nil in Hy.
  - panics_inv. subst. apply elem_of_app in Hy as [Hy|Hy].
    + destruct x0 as [z|]; simpl in Hy; [|by apply elem_of_nil in Hy].
      apply list_elem_of_singleton in Hy as ->. exists x. split; [left|done].
    + destruct (IH _ H0 Hy) as (x' & ? & ?). exists x'. split; [by right|done].
Qed.

Lemma any_panics_false {A} (p : A → panics bool) l x : any_panics p l = Ret false → x ∈ l → p x = Ret false.
Proof.
  induction l as [|y l IH]; intros E Hx; [by apply elem_of_nil in Hx|]. simpl in E. panics_inv.
  destruct x0; [discriminate|]. apply elem_of_cons in Hx as [->|Hx]; auto.
Qed.

Lemma mapM_rnd_Forall2 `{RandLib} {A B} (f : A → rnd B) l r k r' : mapM_rnd f l r = Ret (k, r') →
  Forall2 (λ x y, ∃ r1 r2, f x r1 = Ret (y, r2)) l k.
Proof.
  revert r k. induction l as [|x l IH]; intros r k E; simpl in E; rnd_inv; subst; constructor; eauto.
Qed.

Section construct_spec.
Context `{PG : PetGraph G} {Rand : Type} `{RL : RandLib}.
Context (meta : FuzzMetadata (G := G) (Rand := Rand)) (object_info : MoveAddress → option MoveObjectInfo).
Abbreviation available := (available_objects meta object_info).

(** A sampled type argument has an index of the function and its abilities. *)
Definition able (function_abilities : list MoveAbility) (i : N) (ty : MoveTypeTag) : Prop :=
  ∃ wanted have, function_abilities !! N.to_nat i = Some wanted ∧
    get_type_tag_ability meta ty = Ret have ∧ is_subset_of wanted have = true.

Lemma lacks_ability_false function_abilities ty_args i ty :
  lacks_ability meta function_abilities ty_args = Ret false → ty_args !! i = Some ty →
  able function_abilities i ty.
Proof.
  intros E Hi. apply (any_panics_false _ _ (i, ty)) in E; [|by apply elem_of_btree_iter].
  simpl in E. panics_inv. apply negb_false_iff in H1. by exists x0, x.
Qed.

Lemma from_db_able ty tags abilities gate l m i t :
  try_sample_object_from_db meta object_info ty tags abilities gate = Ret l → m ∈ l → m !! i = Some t →
  able abilities i t ∧ contains_type_param i ty = true.
Proof.
  intros E Hm Hi. destruct (filter_map_panics_elem _ _ _ _ E Hm) as (tag & _ & Ht). simpl in Ht.
  destruct (extract_ty_args ty tag) as [m'|] eqn:Ex; [|done]. panics_inv. destruct x; [done|].
  destruct (negb _); [done|]. destruct (md_types_pool _ !! tag) as [ads|]; [|done].
  panics_inv. destruct (existsb _ _); simplify_eq. split; [by eapply lacks_ability_false|].
  eapply extract_params; [done|by eexists].
Qed.

Lemma from_cache_able E0 ty abilities gate l m i t :
  try_sample_object_from_cache meta E0 ty abilities gate = Ret l → m ∈ l → m !! i = Some t →
  able abilities i t ∧ contains_type_param i ty = true.
Proof.
  intros E Hm Hi. destruct (filter_map_panics_elem _ _ _ _ E Hm) as ([tag cs] & _ & Ht). simpl in Ht.
  destruct (extract_ty_args ty tag) as [m'|] eqn:Ex; [|done]. panics_inv. destruct x; [done|].
  destruct (negb _); [done|]. panics_inv. destruct (gate_has_candidates _ _); simplify_eq.
  split; [by eapply lacks_ability_false|]. eapply extract_params; [done|by eexists].
Qed.

Lemma collect_candidates_able E0 abilities params : ∀ i0 rows missing,
  collect_candidates meta object_info E0 abilities i0 params = Ret (rows, missing) →
  ∀ row m i t, row ∈ rows → m ∈ row → m !! i = Some t →
  able abilities i t ∧ ∃ x, x ∈ params ∧ contains_type_param i x.1 = true.
Proof.
  induction params as [|[param gate] params IH]; intros i0 rows missing E row m i t Hrow Hm Hi; simpl in E.
  - injection E as <- _. by apply elem_of_nil in Hrow.
  - apply panics_bind_Ret in E as (cs & Ecs & E). apply panics_bind_Ret in E as ([rows' missing'] & Er & E).
    assert (row = cs ∨ row ∈ rows') as [->|Hin].
    { destruct cs; injection E as <- <-; [by right|]. by apply elem_of_cons in Hrow. }
    + panics_inv. subst. apply elem_of_app in Hm as [Hm|Hm].
      * destruct (from_cache_able _ _ _ _ _ _ _ _ H Hm Hi) as [? ?]. split; [done|].
        exists (param, gate). split; [left|done].
      * destruct (ability_contains _ _); [|injection H1 as <-; by apply elem_of_nil in Hm].
        destruct (from_db_able _ _ _ _ _ _ _ _ H1 Hm Hi) as [? ?]. split; [done|].
        exists (param, gate). split; [left|done].
    + destruct (IH _ _ _ Er row m i t Hin Hm Hi) as (? & x & ? & ?). split; [done|].
      exists x. split; [by right|done].
Qed.

(** ** Sampling *)

(** Where an argument of type [ty] comes from: an argument of the sequence the
    gate allows, or an input made of an object of the store. *)
Definition from_sequence (E0 : Existing) (gate : Gate) (ty : MoveTypeTag) (arg : SequenceArgument) : Prop :=
  ∃ args g, E0 !! ty = Some args ∧ (arg, g) ∈ args ∧ allowed_gate gate g = true.
Definition from_store (input_len : nat) (inputs : list InputArgument) (gate : Gate) (ty : MoveTypeTag)
    (arg : SequenceArgument) : Prop :=
  ∃ k id input, arg = Input (as_u16 (input_len + k)) ∧ inputs !! k = Some input ∧ id ∈ available ty gate ∧
    object_info id ≫= object_input id = Some input.
Definition provided E0 input_len inputs gate ty arg : Prop :=
  from_sequence E0 gate ty arg ∨ from_store input_len inputs gate ty arg.

(** The new inputs are the objects of the store that were marked as used. *)
Record sampled (E0 : Existing) (U0 : list MoveAddress) (s : Sampling) : Prop := {
  sampled_existing ty args : sm_existing_objects s !! ty = Some args →
    ∃ args0, E0 !! ty = Some args0 ∧ args ⊆ args0;
  sampled_inputs : ∃ ids, sm_used_object_ids s = U0 ++ ids ∧ NoDup ids ∧ (∀ id, id ∈ ids → id ∉ U0) ∧
    Forall2 (λ id input, object_info id ≫= object_input id = Some input) ids (sm_inputs s) }.

(** What one parameter adds. *)
Definition sampled_param E0 input_len (tmap : TyArgs) (i : nat) (x : MoveAbiSignatureToken * Gate)
    (s s' : Sampling) (oa : option SequenceArgument) : Prop :=
  sm_return_args s' = sm_return_args s ++ [oa] ∧
  (sm_inputs s' = sm_inputs s ∨
   ∃ input, sm_inputs s' = sm_inputs s ++ [input] ∧ oa = Some (Input (as_u16 (input_len + length (sm_inputs s))))) ∧
  (∃ k, sm_missing_idx s' = sm_missing_idx s ++ k) ∧
  match oa with
  | None => sm_missing_idx s' ≠ []
  | Some arg => ∃ ty, subst tmap x.1 = Some ty ∧ provided E0 input_len (sm_inputs s') x.2 ty arg
  end.

Lemma push_missing_spec E0 U0 input_len tmap i x s : sampled E0 U0 s →
  sampled E0 U0 (push_missing i s) ∧ sampled_param E0 input_len tmap i x s (push_missing i s) None.
Proof.
  intros [H1 H2]. split; [by split|]. split; [done|]. split; [by left|].
  split; [by eexists|]. simpl. by destruct (sm_missing_idx s).
Qed.

Lemma sample_existing_spec E0 U0 input_len tmap i param gate ty args s r s' r' :
  sampled E0 U0 s → subst tmap param = Some ty → sm_existing_objects s !! ty = Some args →
  sample_existing i gate ty args s r = Ret (s', r') →
  sampled E0 U0 s' ∧ ∃ oa, sampled_param E0 input_len tmap i (param, gate) s s' oa.
Proof.
  intros Hs Hty Hargs E. unfold sample_existing in E. destruct (List.filter _ _) as [|k0 ks] eqn:Ef.
  { apply mret_Ret in E as [<- _]. destruct (push_missing_spec E0 U0 input_len tmap i (param, gate) s Hs). eauto. }
  apply rnd_bind_Ret in E as (k & r1 & Ek & E). apply rnd_bind_Ret in E as ([arg g] & r2 & Ea & E).
  apply lift_Ret in Ea as [Ea%unwrap_Ret _]. apply mret_Ret in E as [<- _].
  apply pick_elem in Ek. rewrite <- Ef in Ek. apply elem_of_filter_bool in Ek as [_ Ek]. rewrite Ea in Ek.
  destruct Hs as [H1 H2]. destruct (H1 _ _ Hargs) as (args0 & Hargs0 & Hsub).
  split; [split; [|exact H2]|].
  - simpl. intros ty' args' Hty'. case_bool_decide; [|by apply H1].
    destruct (decide (ty' = ty)) as [->|]; [|rewrite lookup_insert_ne in Hty' by done; by apply H1].
    rewrite lookup_insert_eq in Hty'. injection Hty' as <-. exists args0. split; [done|].
    etrans; [|exact Hsub]. intros z Hz. eapply sublist_subseteq; [apply sublist_delete|exact Hz].
  - exists (Some arg). split; [done|]. split; [by left|].
    split; [exists []; by rewrite app_nil_r|]. exists ty. split; [done|]. left. exists args0, g.
    split; [done|]. split; [|done]. apply Hsub. by apply list_elem_of_lookup_2 in Ea.
Qed.

Lemma sample_from_db_spec E0 U0 input_len tmap i param gate ty s r s' r' :
  sampled E0 U0 s → subst tmap param = Some ty →
  sample_from_db meta object_info input_len i gate ty s r = Ret (Some s', r') →
  sampled E0 U0 s' ∧ ∃ oa, sampled_param E0 input_len tmap i (param, gate) s s' oa.
Proof.
  intros Hs Hty E. unfold sample_from_db in E. destruct (List.filter _ _) as [|k0 ks] eqn:Ef.
  { apply mret_Ret in E as [[= <-] _].
    destruct (push_missing_spec E0 U0 input_len tmap i (param, gate) s Hs). eauto. }
  apply rnd_bind_Ret in E as (id & r1 & Ek & E). apply pick_elem in Ek. rewrite <- Ef in Ek.
  apply elem_of_filter_bool in Ek as [Hid Hnew%bool_decide_eq_true].
  destruct (object_info id ≫= object_input id) as [input|] eqn:Ei; apply mret_Ret in E as [E _]; [|done].
  injection E as <-. destruct Hs as [H1 (ids & Hu & Hnd & Hfresh & Hids)].
  split; [split; [exact H1|]|].
  - exists (ids ++ [id]). simpl. rewrite Hu, <- app_assoc. split; [done|].
    rewrite Hu in Hnew. split; [apply NoDup_app; split_and!; [done| |apply NoDup_singleton]|]; [set_solver|].
    split; [|apply Forall2_app; [done|by constructor]].
    intros id' [H|H]%elem_of_app; [by apply Hfresh|]. apply list_elem_of_singleton in H as ->. set_solver.
  - eexists (Some _). split; [done|]. split; [right; exists input; split; [done|]; cbn [sm_inputs];
      do 3 f_equal; rewrite length_app; simpl; lia|]. split; [exists []; by rewrite app_nil_r|].
    exists ty. split; [done|]. right. exists (length (sm_inputs s)), id, input. cbn [sm_inputs].
    split; [do 2 f_equal; rewrite length_app; simpl; lia|].
    split; [|done]. rewrite lookup_app_r, Nat.sub_diag by lia. done.
Qed.

Lemma sample_param_spec E0 U0 input_len tmap i x s r s' r' : sampled E0 U0 s →
  sample_param meta object_info input_len i tmap x s r = Ret (Some s', r') →
  sampled E0 U0 s' ∧ ∃ oa, sampled_param E0 input_len tmap i x s s' oa.
Proof.
  intros Hs E. destruct x as [param gate]. unfold sample_param in E.
  case_bool_decide as Hm.
  { apply mret_Ret in E as [[= <-] _]. split; [by destruct Hs|]. exists None.
    split; [done|]. split; [by left|]. split; [exists []; by rewrite app_nil_r|].
    simpl. intros Hn. rewrite Hn in Hm. by apply elem_of_nil in Hm. }
  apply rnd_bind_Ret in E as (ty & r1 & Hty & E). apply lift_Ret in Hty as [Hty%unwrap_Ret ->].
  destruct (negb (is_struct_tag ty)); [by apply lift_Ret in E as [? _]|].
  destruct (negb (is_struct_param param)); [by apply lift_Ret in E as [? _]|].
  destruct (sm_existing_objects s !! ty) as [args|] eqn:Ea.
  - apply rnd_bind_Ret in E as (s1 & r2 & E1 & E). apply mret_Ret in E as [[= ->] _].
    by eapply sample_existing_spec.
  - by eapply sample_from_db_spec.
Qed.

Lemma provided_mono E0 input_len inputs k gate ty arg :
  provided E0 input_len inputs gate ty arg → provided E0 input_len (inputs ++ k) gate ty arg.
Proof.
  intros [H|(j & id & input & ? & Hj & ?)]; [by left|right]. exists j, id, input.
  split; [done|]. split; [|done]. by apply lookup_app_l_Some.
Qed.

Lemma sample_params_spec E0 U0 input_len tmap params : ∀ i s r s' r', sampled E0 U0 s →
  sample_params meta object_info input_len i tmap params s r = Ret (Some s', r') →
  sampled E0 U0 s' ∧ ∃ oas, sm_return_args s' = sm_return_args s ++ oas ∧
    (∃ k, sm_inputs s' = sm_inputs s ++ k) ∧ (∃ k, sm_missing_idx s' = sm_missing_idx s ++ k) ∧
    (∀ k, length (sm_inputs s) ≤ k < length (sm_inputs s') → Some (Input (as_u16 (input_len + k))) ∈ oas) ∧
    length (sm_inputs s') ≤ length (sm_inputs s) + length params ∧
    Forall2 (λ x oa, match oa with
      | None => sm_missing_idx s' ≠ []
      | Some arg => ∃ ty, subst tmap x.1 = Some ty ∧ provided E0 input_len (sm_inputs s') x.2 ty arg
      end) params oas.
Proof.
  induction params as [|x params IH]; intros i s r s' r' Hs E; simpl in E.
  - apply mret_Ret in E as [[= <-] _]. split; [done|]. exists []. rewrite !app_nil_r.
    split; [done|]. split; [exists []; by rewrite app_nil_r|]. split; [exists []; by rewrite app_nil_r|].
    split; [lia|]. split; [lia|constructor].
  - apply rnd_bind_Ret in E as (o & r1 & E1 & E). destruct o as [s1|]; [|by apply mret_Ret in E as [? _]].
    destruct (sample_param_spec _ _ _ _ _ _ _ _ _ _ Hs E1) as (Hs1 & oa & Hr & Hi & [m1 Hm] & Hoa).
    destruct (IH _ _ _ _ _ Hs1 E) as (Hs' & oas & Hr' & [k2 Hi'] & [m2 Hm'] & Hcov & Hbnd & Hoas).
    split; [done|]. exists (oa :: oas). rewrite Hr', Hr, <- app_assoc. split; [done|].
    split; [destruct Hi as [Hi|(input & Hi & _)]; rewrite Hi', Hi, <- ?app_assoc; by eexists|].
    split; [exists (m1 ++ m2); by rewrite Hm', Hm, <- app_assoc|]. split; [|split; [|constructor; [|done]]].
    { intros k Hk. destruct Hi as [Hi|(input & Hi & ->)]; rewrite Hi, ?length_app in Hcov; simpl in Hcov.
      - right. by apply Hcov.
      - destruct (decide (k = length (sm_inputs s))) as [->|]; [left|right; apply Hcov; lia]. }
    { destruct Hi as [Hi|(input & Hi & _)]; rewrite Hi, ?length_app in Hbnd; simpl in *; lia. }
    destruct oa as [arg|]; [|rewrite Hm'; by destruct (sm_missing_idx s1)].
    destruct Hoa as (ty & ? & ?). exists ty. split; [done|]. rewrite Hi'. by apply provided_mono.
Qed.

(** ** [try_construct_args] *)
Lemma gated_partial_subst fixed p b gate : gated p = Some (b, gate) →
  gated (partial_subst fixed p) = Some (partial_subst fixed b, gate) ∧
  (∀ m, subst m p = subst m b) ∧ (∀ i, contains_type_param i p = contains_type_param i b).
Proof. destruct p as [| | | | | | | | |t|h|h l|j a|t|t]; simpl; try done; [by intros [= <- <-]..| |]; destruct t; simpl; try done; by intros [= <- <-]. Qed.

Lemma mapM_panics_Forall2 {A B} (f : A → panics B) l k : mapM f l = Ret k → Forall2 (λ x y, f x = Ret y) l k.
Proof.
  revert k. induction l as [|x l IH]; intros k E; [injection E as <-; constructor|].
  apply panics_bind_Ret in E as (y & Hy & E). apply panics_bind_Ret in E as (k' & Hk & E).
  injection E as <-. constructor; auto.
Qed.
Lemma Forall2_impl_l {A B} (P : A → Prop) (R S : A → B → Prop) l k : Forall P l → Forall2 R l k →
  (∀ x y, P x → R x y → S x y) → Forall2 S l k.
Proof. intros HP HR Himpl. induction HR; inversion_clear HP; constructor; auto. Qed.

(** The sampling behind a result. *)
Record construction (input_len : nat) (params : list MoveAbiSignatureToken) (abilities : list MoveAbility)
    (fixed : TyArgs) (d : ObjectData) (tmap : TyArgs) (xs : list (MoveAbiSignatureToken * Gate)) (s : Sampling) : Prop := {
  con_gated : Forall2 (λ p x, ∃ b, gated p = Some (b, x.2) ∧ x.1 = partial_subst fixed b) params xs;
  con_able i t : tmap !! i = Some t →
    able abilities i t ∧ ∃ x, x ∈ xs ∧ contains_type_param i x.1 = true;
  con_sampled : sampled (od_existing_objects d) (od_used_object_ids d) s;
  con_covered k : k < length (sm_inputs s) → Some (Input (as_u16 (input_len + k))) ∈ sm_return_args s;
  con_inputs : length (sm_inputs s) ≤ length params;
  con_args : Forall2 (λ x oa, match oa with
      | None => sm_missing_idx s ≠ []
      | Some arg => ∃ ty, subst tmap x.1 = Some ty ∧
          provided (od_existing_objects d) input_len (sm_inputs s) x.2 ty arg
      end) xs (sm_return_args s) }.

Lemma try_construct_args_inv input_len params abilities fixed d r res r' :
  try_construct_args meta object_info input_len params abilities fixed d r = Ret (res, r') →
  match res with
  | Unsolvable => True
  | ConstructOk args ty_args inputs => ∃ tmap xs s,
      construction input_len params abilities fixed d tmap xs s ∧ inputs = sm_inputs s ∧
      sm_return_args s = map Some args ∧
      Forall2 (λ x t, ∃ r1 r2, final_ty_arg meta tmap fixed x r1 = Ret (t, r2)) (imap pair abilities) ty_args
  | PartialFound args ty_args inputs => ∃ tmap xs s,
      construction input_len params abilities fixed d tmap xs s ∧ inputs = sm_inputs s ∧
      args = sm_return_args s ∧ ty_args = fixed ∪ tmap
  end.
Proof.
  unfold try_construct_args. destruct (existsb _ params) eqn:Eg; [by intros [<- _]%mret_Ret|].
  intros (xs & r1 & Hxs & E)%rnd_bind_Ret. apply lift_Ret in Hxs as [Hxs%mapM_panics_Forall2 ->].
  apply rnd_bind_Ret in E as ([rows missing] & r2 & Hrows & E). apply lift_Ret in Hrows as [Hrows ->].
  destruct (get_ty_args_candidates rows) as [|c0 cs] eqn:Ec; [by apply mret_Ret in E as [<- _]|].
  apply rnd_bind_Ret in E as (tmap & r3 & Ht & E). apply pick_elem in Ht. rewrite <- Ec in Ht.
  apply rnd_bind_Ret in E as (o & r4 & Es & E). destruct o as [s|]; [|by apply mret_Ret in E as [<- _]].
  assert (construction input_len params abilities fixed d tmap xs s) as Hcon.
  { apply sample_params_spec with (E0 := od_existing_objects d) (U0 := od_used_object_ids d) in Es
      as (Hs & oas & Hr & _ & _ & Hcov & Hbnd & Hoas).
    - assert (length params = length xs) as Hlen by (by eapply Forall2_length).
      split; [|..|done| | |].
      + apply (Forall2_impl_l (λ p, gated p ≠ None) _ _ _ _) with (2 := Hxs).
        * apply Forall_forall. intros p Hp Egp. apply not_true_iff_false in Eg. apply Eg, existsb_exists.
          exists p. split; [by apply list_elem_of_In|by rewrite Egp].
        * intros p [b g] Hp Hg. unfold gate_param in Hg. destruct (is_tx_context p); [done|].
          apply unwrap_Ret in Hg. destruct (gated p) as [[b' g']|] eqn:Egp; [|done].
          destruct (gated_partial_subst fixed p b' g' Egp) as [Hb _]. rewrite Hg in Hb. injection Hb as -> ->. eauto.
      + intros i t Hi. destruct (candidates_elem _ _ _ _ Ht Hi) as (row & c & Hrow & Hc & Hci).
        by eapply collect_candidates_able.
      + intros k Hk. simpl in Hr, Hcov. rewrite Hr. apply Hcov. lia.
      + simpl in Hbnd. lia.
      + simpl in Hr. by rewrite Hr.
    - split; [by eauto|]. exists []. rewrite app_nil_r. repeat split; [constructor|set_solver|constructor]. }
  destruct (sm_missing_idx s) as [|m ms] eqn:Em.
  - apply rnd_bind_Ret in E as (ty_args & r5 & Hty & E). apply mret_Ret in E as [<- _].
    exists tmap, xs, s. split; [done|]. split; [done|]. split; [|by eapply mapM_rnd_Forall2].
    pose proof (con_args _ _ _ _ _ _ _ _ Hcon) as Ha. rewrite Em in Ha. clear -Ha.
    induction Ha as [|x oa l k Hoa _ IH]; [done|]. destruct oa; [|done]. simpl. by f_equal.
  - apply mret_Ret in E as [<- _]. by exists tmap, xs, s.
Qed.

Lemma ty_args_map_lookup l i : (N.of_nat (length l) ≤ 65536)%N → N.to_nat i < length l →
  ty_args_map l !! i = l !! N.to_nat i.
Proof.
  intros Hl Hi. destruct (l !! N.to_nat i) as [t|] eqn:E; [|apply lookup_ge_None in E; lia].
  unfold ty_args_map. apply elem_of_list_to_map_1'.
  - intros t' Ht'. apply elem_of_lookup_imap in Ht' as (j & t'' & [= Hj ->] & Hjt).
    apply lookup_lt_Some in Hjt as Hlt. rewrite as_u16_of_nat in Hj by lia.
    assert (N.to_nat i = j) as Hij by lia. rewrite Hij in E. congruence.
  - apply elem_of_lookup_imap. exists (N.to_nat i), t. split; [|done]. rewrite as_u16_of_nat by lia.
    by rewrite N2Nat.id.
Qed.

Lemma final_ty_args_agree input_len params abilities fixed d tmap xs s ty_args b m ty :
  construction input_len params abilities fixed d tmap xs s →
  Forall2 (λ x t, ∃ r1 r2, final_ty_arg meta tmap fixed x r1 = Ret (t, r2)) (imap pair abilities) ty_args →
  (N.of_nat (length abilities) ≤ 65536)%N →
  (∀ i, contains_type_param i b = true → N.to_nat i < length abilities) →
  m = partial_subst fixed b → subst tmap m = Some ty → subst (ty_args_map ty_args) b = Some ty.
Proof.
  intros Hcon Hfin Hlen Hb -> Hs. rewrite subst_partial_subst in Hs. rewrite <- Hs. apply subst_agree.
  intros i Hi. destruct (subst_Some_params _ _ _ _ Hs Hi) as [t Ht]. rewrite Ht. specialize (Hb i Hi).
  pose proof (Forall2_length _ _ _ Hfin) as Hl. rewrite length_imap in Hl.
  rewrite ty_args_map_lookup by lia.
  destruct (lookup_lt_is_Some_2 ty_args (N.to_nat i)) as [t' Ht']; [lia|]. rewrite Ht'. f_equal.
  destruct (lookup_lt_is_Some_2 abilities (N.to_nat i)) as [a Ha]; [lia|].
  destruct (Forall2_lookup_lr _ _ _ (N.to_nat i) (N.to_nat i, a) t' Hfin) as (r1 & r2 & Ef);
    [by rewrite list_lookup_imap, Ha|done|].
  unfold final_ty_arg in Ef. cbn [fst snd] in Ef. rewrite as_u16_of_nat, N2Nat.id in Ef by lia.
  destruct (tmap !! i) as [t''|] eqn:Et.
  - apply mret_Ret in Ef as [<- _]. apply (con_able _ _ _ _ _ _ _ _ Hcon) in Et as Hx.
    destruct Hx as (_ & x & Hx & Hxi).
    apply list_elem_of_lookup in Hx as [k Hk].
    destruct (Forall2_lookup_r _ _ _ _ _ (con_gated _ _ _ _ _ _ _ _ Hcon) Hk) as (p & _ & b' & _ & Hxb).
    rewrite Hxb in Hxi. apply partial_subst_params in Hxi as [Hfix _].
    rewrite lookup_union_r in Ht by done. congruence.
  - rnd_inv. apply lookup_union_Some_raw in Ht as [Ht|[_ Ht]]; [|congruence].
    rewrite Ht in *. simpl in *. done.
Qed.

(** C11: When [try_construct_args] finds all arguments, it finds exactly one for every
    parameter and a type argument for every type parameter; under these type
    arguments each argument has the type of its parameter and allows the access
    (value, [&] or [&mut]): it is an argument of the sequence that holds an object of
    that type, or a new input with an object of that type of the store. The new inputs
    are different objects, none of which the sequence used before, and the sampled type
    arguments have the abilities the function asks for. *)
Theorem construct_args_typed input_len params abilities fixed d r args ty_args inputs r' :
  (N.of_nat (length abilities) ≤ 65536)%N →
  (∀ p i, p ∈ params → contains_type_param i p = true → N.to_nat i < length abilities) →
  try_construct_args meta object_info input_len params abilities fixed d r =
    Ret (ConstructOk args ty_args inputs, r') →
  length ty_args = length abilities ∧
  Forall2 (λ p arg, ∃ b gate ty, gated p = Some (b, gate) ∧ subst (ty_args_map ty_args) p = Some ty ∧
    provided (od_existing_objects d) input_len inputs gate ty arg) params args ∧
  (∃ ids, NoDup ids ∧ (∀ id, id ∈ ids → id ∉ od_used_object_ids d) ∧
    Forall2 (λ id input, object_info id ≫= object_input id = Some input) ids inputs) ∧
  (∀ i t, ty_args !! N.to_nat i = Some t → fixed !! i = Some t ∨ able abilities i t ∨
    ∃ a r1 r2, abilities !! N.to_nat i = Some a ∧ gen_type_tag_by_abilities meta a r1 = Ret (t, r2)).
Proof.
  intros Hlen Hps E. apply try_construct_args_inv in E as (tmap & xs & s & Hcon & -> & Hr & Hfin).
  pose proof (Forall2_length _ _ _ Hfin) as Hl. rewrite length_imap in Hl.
  split; [done|]. split; [|split].
  - pose proof (con_args _ _ _ _ _ _ _ _ Hcon) as Ha. rewrite Hr in Ha. apply Forall2_fmap_r in Ha.
    pose proof (con_gated _ _ _ _ _ _ _ _ Hcon) as Hg.
    apply Forall2_same_length_lookup. split.
    { apply Forall2_length in Ha, Hg. congruence. }
    intros k p arg Hp Harg. destruct (Forall2_lookup_l _ _ _ _ _ Hg Hp) as (x & Hx & b & Hgate & Hxb).
    destruct (Forall2_lookup_lr _ _ _ _ _ _ Ha Hx Harg) as (ty & Hty & Hprov).
    destruct (gated_partial_subst fixed p b x.2 Hgate) as (_ & Hsub & Hcont).
    exists b, x.2, ty. split; [done|]. split; [|done]. rewrite Hsub.
    eapply final_ty_args_agree; [done..| |exact Hxb|done].
    intros i Hi. apply (Hps p); [by apply list_elem_of_lookup_2 in Hp|by rewrite Hcont].
  - destruct (con_sampled _ _ _ _ _ _ _ _ Hcon) as [_ (ids & Hu & Hnd & Hf & Hids)]. by exists ids.
  - intros i t Ht. apply lookup_lt_Some in Ht as Hlt.
    destruct (lookup_lt_is_Some_2 abilities (N.to_nat i)) as [a Ha]; [lia|].
    destruct (Forall2_lookup_lr _ _ _ (N.to_nat i) (N.to_nat i, a) t Hfin) as (r1 & r2 & Ef);
      [by rewrite list_lookup_imap, Ha|done|].
    unfold final_ty_arg in Ef. cbn [fst snd] in Ef. rewrite as_u16_of_nat, N2Nat.id in Ef by lia.
    destruct (tmap !! i) as [t''|] eqn:Et.
    + apply mret_Ret in Ef as [<- _]. right; left. by apply (con_able _ _ _ _ _ _ _ _ Hcon).
    + rnd_inv. destruct (fixed !! i) as [f|]; simpl in *; subst; [by left|right; right]. by exists a, r1, x0.
Qed.
End construct_spec.

(** ** Witness *)
Definition demo_pool_metadata : FuzzMetadata (G := ListGraph) (Rand := ()) :=
  MkFuzzMetadata (MkMetadata type_graph_new ∅ ∅ {[ coin_of Tag_U64 := {[ MkMoveAddress 5 ]} ]} ∅ ∅ ∅ ∅) ()
    addr_one [addr_one] [addr_one] ∅ None ∅ [] [] ∅ hook_default addr_zero 0 0 0.
Definition demo_coin_object : MoveObjectInfo :=
  MkObjectInfo (MkMoveAddress 5) (coin_of Tag_U64) (AddressOwner addr_one) 3 99.
Definition demo_object_info (id : MoveAddress) : option MoveObjectInfo :=
  if bool_decide (id = MkMoveAddress 5) then Some demo_coin_object else None.
Definition demo_coin_input : InputArgument :=
  Arg_Object (coin_of Tag_U64) (ImmOrOwnedObject (MkMoveAddress 5, 3, 99)%N).

Lemma construct_args_typed_witness :
  try_construct_args demo_pool_metadata demo_object_info 2 [coin_T0] [ability_STORE] ∅ object_data_new [] =
    Ret (ConstructOk [Input 2] [Tag_U64] [demo_coin_input], []) ∧
  ∃ ty, subst (ty_args_map [Tag_U64]) coin_T0 = Some ty.
Proof.
  assert (try_construct_args demo_pool_metadata demo_object_info 2 [coin_T0] [ability_STORE] ∅ object_data_new [] =
    Ret (ConstructOk [Input 2] [Tag_U64] [demo_coin_input], [])) as E by (vm_compute; reflexivity).
  split; [exact E|].
  destruct (construct_args_typed (RL := replay_rand) demo_pool_metadata demo_object_info 2 [coin_T0] [ability_STORE] ∅ object_data_new []
    [Input 2] [Tag_U64] [demo_coin_input] []) as (_ & H & _); [done| |exact E|].
  - intros p i Hp Hi. apply list_elem_of_singleton in Hp as ->. simpl in Hi.
    destruct i; [simpl; lia|done].
  - inversion H as [|? ? ? ? (b & gate & ty & _ & Hty & _) _]. by exists ty.
Defined.
