(* ===== verification/Values.v ===== *)
(** * Values: mutating the pure arguments of a call

    [crates/movy-fuzz/src/mutators/mutation_utils.rs]. Bytes are numbers below
    256. The scheduled mutators of [libafl] are an argument: [havoc m bytes]
    runs [HavocScheduledMutator] with the single mutator [m] on [bytes]. *)
From S2P Require Import Prelude Types TypeGraph Meta Random Removal.

Abbreviation Bytes := (list N).

(** ** Little-endian integers *)
Fixpoint to_le_bytes (n : nat) (v : N) : Bytes :=
  match n with O => [] | S n => (v mod 256)%N :: to_le_bytes n (v / 256)%N end.
Fixpoint from_le_bytes (bytes : Bytes) : N :=
  match bytes with [] => 0%N | b :: bytes => (b + 256 * from_le_bytes bytes)%N end.
(** [from_le_bytes(bytes.try_into().unwrap())] *)
Definition read_le (n : nat) (bytes : Bytes) : panics N :=
  if (length bytes =? n)%nat then Ret (from_le_bytes bytes) else Panic.

Fixpoint sync (value : InputArgument) : panics Bytes :=
  match value with
  | Arg_U128 v => Ret (to_le_bytes 16 v)
  | Arg_U256 v => Ret (to_le_bytes 32 v)
  | Arg_U64 v => Ret (to_le_bytes 8 v)
  | Arg_U32 v => Ret (to_le_bytes 4 v)
  | Arg_U16 v => Ret (to_le_bytes 2 v)
  | Arg_U8 v => Ret (to_le_bytes 1 v)
  | Arg_Vector _ vs =>
      (fix go (vs : list InputArgument) : panics Bytes :=
         match vs with [] => Ret [] | v :: vs => b ← sync v; k ← go vs; Ret (b ++ k) end) vs
  | _ => Panic
  end.

Definition chunk_size (t : MoveTypeTag) : panics nat :=
  match t with
  | Tag_U8 => Ret 1 | Tag_U16 => Ret 2 | Tag_U32 => Ret 4 | Tag_U64 => Ret 8 | Tag_U128 => Ret 16
  | Tag_U256 => Ret 32 | _ => Panic
  end.

(** [&bytes[start..end]] *)
Definition slice (bytes : Bytes) (start end_ : nat) : panics Bytes :=
  if (start <=? end_)%nat && (end_ <=? length bytes)%nat then Ret (take (end_ - start) (drop start bytes)) else Panic.

Fixpoint commit (bytes : Bytes) (value : InputArgument) {struct value} : panics InputArgument :=
  match value with
  | Arg_U128 _ => n ← read_le 16 bytes; Ret (Arg_U128 n)
  | Arg_U64 _ => n ← read_le 8 bytes; Ret (Arg_U64 n)
  | Arg_U32 _ => n ← read_le 4 bytes; Ret (Arg_U32 n)
  | Arg_U16 _ => n ← read_le 2 bytes; Ret (Arg_U16 n)
  | Arg_U8 _ => n ← read_le 1 bytes; Ret (Arg_U8 n)
  | Arg_U256 _ => n ← read_le 32 bytes; Ret (Arg_U256 n)
  | Arg_Vector t vs =>
      vs ← (fix go (i : nat) (vs : list InputArgument) : panics (list InputArgument) :=
         match vs with
         | [] => Ret []
         | v :: vs =>
             chunk_size ← chunk_size t;
             let start := i * chunk_size in
             chunk ← slice bytes start (start + chunk_size);
             v ← commit chunk v;
             vs ← go (S i) vs;
             Ret (v :: vs)
         end) 0 vs;
      Ret (Arg_Vector t vs)
  | _ => Panic
  end.

(** ** Mutators *)
Abbreviation ByteMutator := (Bytes → rnd (MutationResult * Bytes)).
Section mutate.
Context `{PG : PetGraph G} {Rand : Type} `{RL : RandLib}.
Context (meta : FuzzMetadata (G := G) (Rand := Rand)).
Context (havoc : ByteMutator → ByteMutator) (dword_interesting : ByteMutator).

(** [MagicNumberMutator]: overwrite the bytes with a constant of their length. *)
Definition magic_number_mutate (magic_number_pool : list Bytes) : ByteMutator := λ input_bytes,
  match List.filter (λ x, (length x =? length input_bytes)%nat) magic_number_pool with
  | [] => mret (Skipped, input_bytes)
  | fit_pool =>
      magic_number ← pick fit_pool;
      mret (Mutated,
        if (length input_bytes <? length magic_number)%nat then take (length input_bytes) magic_number
        else replicate (length input_bytes - length magic_number) 0%N ++ magic_number)
  end.

Record MutableValue := MkMutable { mv_value : InputArgument; mv_bytes : Bytes }.
Definition mutable_new (value : InputArgument) : MutableValue := MkMutable value [].

Definition below_N (n : N) : rnd N := λ r, Ret (below_or_zero n r).

Definition mutate_by (magic_number_pool : list Bytes) (split : bool) (mv : MutableValue) :
    rnd (MutationResult * MutableValue) :=
  bytes ← lift (sync (mv_value mv));
  '(res, self_bytes) ← havoc (magic_number_mutate magic_number_pool) (mv_bytes mv);
  '(res, bytes, self_bytes) ←
    (if (length bytes =? 4)%nat then
       k ← below_N 10;
       if (0 <? k)%N then v ← below_N 443636; mret (Mutated, to_le_bytes 4 v, self_bytes)
       else mret (res, bytes, self_bytes)
     else if (length bytes =? 8)%nat then
       k ← below_N 10;
       if (5 <? k)%N then s ← below_N 64; mret (Mutated, to_le_bytes 8 (2 ^ s)%N, self_bytes)
       else mret (res, bytes, self_bytes)
     else if (length bytes =? 16)%nat then
       k ← below_N 10;
       if (0 <? k)%N then s ← below_N 128; mret (Mutated, to_le_bytes 16 (2 ^ s)%N, self_bytes)
       else mret (res, bytes, self_bytes)
     else if split && bool_decide (magic_number_pool = []) then mret (Mutated, to_le_bytes 8 0, self_bytes)
     else
       '(res, self_bytes) ← havoc dword_interesting self_bytes;
       mret (res, bytes, self_bytes));
  value ← lift (commit bytes (mv_value mv));
  mret (res, MkMutable value self_bytes).

(** [while *v == orig { *v = rand.below_or_zero(u8::MAX) }]; [None]: the loop
    has not ended after [fuel] draws. *)
Fixpoint redraw (fuel : nat) (orig : N) : rnd (option N) :=
  match fuel with
  | O => mret None
  | S fuel => v ← below_N 255; if (v =? orig)%N then redraw fuel orig else mret (Some v)
  end.

Definition mutate (fuel : nat) (magic_number_pool : list Bytes) (split : bool) (mv : MutableValue) :
    rnd (option (MutationResult * MutableValue)) :=
  match mv_value mv with
  | Arg_Bool _ =>
      k ← below_N 2; mret (Some (Mutated, MkMutable (Arg_Bool (k =? 1)%N) (mv_bytes mv)))
  | Arg_U8 orig =>
      v ← redraw fuel orig;
      mret (match v with Some v => Some (Mutated, MkMutable (Arg_U8 v) (mv_bytes mv)) | None => None end)
  | Arg_U16 _ | Arg_U32 _ | Arg_U64 _ | Arg_U128 _ | Arg_U256 _ =>
      r ← mutate_by magic_number_pool split mv; mret (Some r)
  | Arg_Address _ =>
      k ← below_N 2;
      a ← pick (if (k =? 1)%N then fm_addresses_pool meta else fm_callers_pool meta);
      mret (Some (Mutated, MkMutable (Arg_Address a) (mv_bytes mv)))
  | _ => mret (Some (Skipped, mv))
  end.

Definition samples_magic (value : InputArgument) : bool :=
  match value with
  | Arg_U8 _ | Arg_U16 _ | Arg_U32 _ | Arg_U64 _ | Arg_U128 _ | Arg_U256 _ => true
  | Arg_Vector (Tag_U8 | Tag_U16 | Tag_U32 | Tag_U64 | Tag_U128 | Tag_U256) _ => true
  | _ => false
  end.

Definition sample_magic_number (magic_number_pool : list Bytes) (mv : MutableValue) :
    rnd (MutationResult * MutableValue) :=
  if samples_magic (mv_value mv) then
    bytes ← lift (sync (mv_value mv));
    match List.filter (λ num, (length num =? length bytes)%nat) magic_number_pool with
    | [] => mret (Skipped, mv)
    | fit_values =>
        bytes ← choose fit_values;
        bytes ← lift (unwrap bytes);
        value ← lift (commit bytes (mv_value mv));
        mret (Mutated, MkMutable value (mv_bytes mv))
    end
  else mret (Skipped, mv).
End mutate.

(** ** What the byte form keeps *)

(** The type, width in bytes and value of an integer argument. *)
Definition int_arg (v : InputArgument) : option (MoveTypeTag * nat * N) :=
  match v with
  | Arg_U8 n => Some (Tag_U8, 1, n) | Arg_U16 n => Some (Tag_U16, 2, n) | Arg_U32 n => Some (Tag_U32, 4, n)
  | Arg_U64 n => Some (Tag_U64, 8, n) | Arg_U128 n => Some (Tag_U128, 16, n)
  | Arg_U256 n => Some (Tag_U256, 32, n) | _ => None
  end.
Definition int_sized (t : MoveTypeTag) (v : InputArgument) : Prop :=
  ∃ w n, int_arg v = Some (t, w, n) ∧ (n < 256 ^ N.of_nat w)%N.

(** Integers within their width, and vectors of integers of their type. *)
Definition well_sized (v : InputArgument) : Prop :=
  match v with
  | Arg_Vector t vs => Forall (int_sized t) vs ∧ ∃ w, chunk_size t = Ret w
  | _ => ∃ t, int_sized t v
  end.
(** What a mutation must not change. *)
Definition shape (v : InputArgument) : MoveTypeTag * option nat :=
  match v with Arg_Vector t vs => (t, Some (length vs)) | _ => (arg_ty v, None) end.
Definition byte_width (v : InputArgument) : nat :=
  match v with
  | Arg_Vector t vs => match chunk_size t with Ret w => length vs * w | Panic => 0 end
  | _ => match int_arg v with Some (_, w, _) => w | None => 0 end
  end.
Definition octets (bytes : Bytes) : Prop := Forall (λ b, (b < 256)%N) bytes.

Lemma to_le_bytes_length n v : length (to_le_bytes n v) = n.
Proof. revert v; induction n as [|n IH]; intros v; simpl; [done|by rewrite IH]. Qed.
Lemma to_le_bytes_octets n v : octets (to_le_bytes n v).
Proof.
  revert v; induction n as [|n IH]; intros v; cbn [to_le_bytes]; constructor; [by apply N.mod_lt|apply IH].
Qed.

Lemma from_to_le_bytes n v : (v < 256 ^ N.of_nat n)%N → from_le_bytes (to_le_bytes n v) = v.
Proof.
  revert v; induction n as [|n IH]; intros v Hv; cbn [to_le_bytes from_le_bytes].
  - rewrite N.pow_0_r in Hv. lia.
  - rewrite IH.
    + pose proof (N.div_mod v 256). lia.
    + rewrite Nat2N.inj_succ, N.pow_succ_r' in Hv. apply N.Div0.div_lt_upper_bound. lia.
Qed.
Lemma to_from_le_bytes bytes : octets bytes → to_le_bytes (length bytes) (from_le_bytes bytes) = bytes.
Proof.
  induction 1 as [|b bytes Hb _ IH]; [done|]. cbn [length to_le_bytes from_le_bytes].
  replace ((b + 256 * from_le_bytes bytes) mod 256)%N with b.
  2: { rewrite (N.mul_comm 256), N.Div0.mod_add. by rewrite N.mod_small. }
  replace ((b + 256 * from_le_bytes bytes) / 256)%N with (from_le_bytes bytes); [by rewrite IH|].
  rewrite (N.mul_comm 256), N.div_add, N.div_small by done. lia.
Qed.
Lemma from_le_bytes_lt bytes : octets bytes → (from_le_bytes bytes < 256 ^ N.of_nat (length bytes))%N.
Proof.
  induction 1 as [|b bytes Hb _ IH]; [done|]. cbn [length from_le_bytes].
  rewrite Nat2N.inj_succ, N.pow_succ_r'. lia.
Qed.

Lemma int_sync t w n v : int_arg v = Some (t, w, n) → sync v = Ret (to_le_bytes w n) ∧ chunk_size t = Ret w.
Proof. destruct v; simpl; intros [= <- <- <-]; done. Qed.
Lemma int_commit t w n v bytes : int_arg v = Some (t, w, n) → length bytes = w →
  ∃ v', commit bytes v = Ret v' ∧ int_arg v' = Some (t, w, from_le_bytes bytes).
Proof.
  destruct v; simpl; intros [= <- <- <-]; unfold read_le; intros ->; simpl; eauto.
Qed.
Lemma int_arg_inj v v' x : int_arg v = Some x → int_arg v' = Some x → v = v'.
Proof. destruct v, v'; simpl; congruence. Qed.
Lemma int_arg_shape v v' t w n n' : int_arg v = Some (t, w, n) → int_arg v' = Some (t, w, n') → shape v' = shape v.
Proof. destruct v, v'; simpl; congruence. Qed.

(** One chunk of a vector. *)
Lemma chunk_round_trip t w v bytes : chunk_size t = Ret w → int_sized t v → length bytes = w → octets bytes →
  ∃ v', commit bytes v = Ret v' ∧ sync v' = Ret bytes ∧ int_sized t v' ∧ shape v' = shape v.
Proof.
  intros Hw (w' & n & Hv & Hn) Hl Ho. destruct (int_sync _ _ _ _ Hv) as [_ Hc]. simplify_eq.
  destruct (int_commit _ _ _ _ bytes Hv) as (v' & E & Hv'); [congruence|]. exists v'.
  destruct (int_sync _ _ _ _ Hv') as [Hs _]. split; [done|]. rewrite Hs.
  replace w' with (length bytes) at 1 by congruence. rewrite to_from_le_bytes by done. split; [done|].
  split; [|by eapply int_arg_shape]. eexists _, _. split; [done|].
  replace w' with (length bytes) by congruence. by apply from_le_bytes_lt.
Qed.

(** The two loops over a vector. *)
Definition sync_all : list InputArgument → panics Bytes :=
  fix go vs := match vs with [] => Ret [] | v :: vs => b ← sync v; k ← go vs; Ret (b ++ k) end.
Definition commit_all (t : MoveTypeTag) (bytes : Bytes) : nat → list InputArgument → panics (list InputArgument) :=
  fix go i vs :=
    match vs with
    | [] => Ret []
    | v :: vs =>
        chunk_size ← chunk_size t;
        let start := i * chunk_size in
        chunk ← slice bytes start (start + chunk_size);
        v ← commit chunk v;
        vs ← go (S i) vs;
        Ret (v :: vs)
    end.

Lemma sync_all_sized t w vs : chunk_size t = Ret w → Forall (int_sized t) vs →
  ∃ bytes, sync_all vs = Ret bytes ∧ length bytes = length vs * w ∧ octets bytes.
Proof.
  intros Hw. induction 1 as [|v vs (w' & n & Hv & _) _ (bytes & E & Hl & Ho)].
  - exists []. repeat split; constructor.
  - destruct (int_sync _ _ _ _ Hv) as [Hs Hc]. simplify_eq. exists (to_le_bytes w' n ++ bytes).
    change (sync_all (v :: vs)) with (b ← sync v; k ← sync_all vs; Ret (b ++ k)). rewrite Hs, E. split; [done|].
    rewrite length_app, to_le_bytes_length, Hl. split; [simpl; congruence|].
    apply Forall_app; split; [apply to_le_bytes_octets|done].
Qed.

Lemma commit_all_sized t w bytes vs i : chunk_size t = Ret w → Forall (int_sized t) vs → octets bytes →
  length bytes = (i + length vs) * w →
  ∃ vs', commit_all t bytes i vs = Ret vs' ∧ Forall (int_sized t) vs' ∧ length vs' = length vs ∧
         sync_all vs' = Ret (drop (i * w) bytes).
Proof.
  intros Hw Hvs Ho. revert i. induction Hvs as [|v vs Hv _ IH]; intros i Hl.
  - exists []. simpl in *. rewrite drop_ge by lia. done.
  - destruct (IH (S i)) as (vs' & E & Hvs' & Hlen & Hs); [simpl in *; lia|].
    change (commit_all t bytes i (v :: vs)) with
      (chunk_size ← chunk_size t; chunk ← slice bytes (i * chunk_size) (i * chunk_size + chunk_size);
       v ← commit chunk v; vs ← commit_all t bytes (S i) vs; Ret (v :: vs)).
    rewrite Hw, E. simpl in Hl. unfold slice. cbn [mbind panics_mbind panics_bind].
    rewrite (proj2 (Nat.leb_le (i * w) _)), (proj2 (Nat.leb_le (i * w + w) _)) by lia.
    cbn [mbind panics_mbind panics_bind andb]. replace (i * w + w - i * w) with w by lia.
    destruct (chunk_round_trip t w v (take w (drop (i * w) bytes)) Hw Hv) as (v' & Ec & Hsv & Hv' & _).
    + rewrite length_take, length_drop. lia.
    + by apply Forall_take, Forall_drop.
    + exists (v' :: vs'). rewrite Ec. cbn [mbind panics_mbind panics_bind]. split; [done|].
      split; [by constructor|]. split; [cbn; congruence|].
      change (sync_all (v' :: vs')) with (b ← sync v'; k ← sync_all vs'; Ret (b ++ k)).
      rewrite Hsv, Hs. cbn. f_equal. rewrite (Nat.add_comm w).
      rewrite <- drop_drop. apply take_drop.
Qed.

(** A value is rewritten by any bytes of its width, and those are its new bytes. *)
Lemma commit_sync_bytes v bytes : well_sized v → length bytes = byte_width v → octets bytes →
  ∃ v', commit bytes v = Ret v' ∧ sync v' = Ret bytes ∧ well_sized v' ∧ shape v' = shape v.
Proof.
  intros Hv Hl Ho. destruct v; try (destruct Hv as (t & w & n & [=] & _); fail);
    try (destruct Hv as (t & Hv); pose proof Hv as (w & n & Ei & _);
      destruct (int_sync _ _ _ _ Ei) as [_ Hw]; destruct (chunk_round_trip _ _ _ bytes Hw Hv) as (v' & ? & ? & Hv' & ?);
      [rewrite Hl; unfold byte_width; by rewrite Ei|done|]; exists v'; repeat split; try done;
      destruct v'; try (exists t; done); by destruct Hv' as (? & ? & [=] & _)).
  destruct Hv as [Hvs [w Hw]]. cbn [byte_width] in Hl. rewrite Hw in Hl.
  destruct (commit_all_sized _ _ bytes _ 0 Hw Hvs Ho) as (vs' & E & Hvs' & Hlen & Hs); [done|].
  exists (Arg_Vector ty vs'). split.
  - change (commit bytes (Arg_Vector ty vs)) with (k ← commit_all ty bytes 0 vs; Ret (Arg_Vector ty k)). by rewrite E.
  - repeat split; [done|done|by exists w|]. simpl. by rewrite Hlen.
Qed.

Lemma sync_sized v : well_sized v → ∃ bytes, sync v = Ret bytes ∧ length bytes = byte_width v ∧ octets bytes.
Proof.
  intros Hv. destruct v; try (destruct Hv as (t & w & n & [=] & _); fail);
    try (destruct Hv as (t & w & n & Ei & _); destruct (int_sync _ _ _ _ Ei) as [Hs _]; eexists; split; [done|];
      unfold byte_width; rewrite Ei, to_le_bytes_length; split; [done|apply to_le_bytes_octets]).
  destruct Hv as [Hvs [w Hw]]. cbn [byte_width]. rewrite Hw. by apply (sync_all_sized ty).
Qed.

Lemma int_sync_inj t v v' : int_sized t v → int_sized t v' → sync v = sync v' → v = v'.
Proof.
  intros (w & n & Ei & Hn) (w' & n' & Ei' & Hn') E.
  destruct (int_sync _ _ _ _ Ei) as [Hs Hc], (int_sync _ _ _ _ Ei') as [Hs' Hc']. simplify_eq.
  rewrite Hs, Hs' in E. injection E as E. eapply int_arg_inj; [done|].
  apply (f_equal from_le_bytes) in E. rewrite !from_to_le_bytes in E by done. subst. by assert (w' = w) as -> by congruence.
Qed.

Lemma sync_all_inj t w vs vs' : chunk_size t = Ret w → Forall (int_sized t) vs → Forall (int_sized t) vs' →
  length vs = length vs' → sync_all vs = sync_all vs' → vs = vs'.
Proof.
  intros Hw Hvs. revert vs'. induction Hvs as [|v vs Hv Hvs IH]; intros [|v' vs'] Hvs' Hl E; try done.
  apply Forall_cons in Hvs' as [Hv' Hvs'].
  change (sync_all (?v :: ?vs)) with (b ← sync v; k ← sync_all vs; Ret (b ++ k)) in E.
  destruct (sync_all_sized t w vs Hw Hvs) as (k & Ek & _), (sync_all_sized t w vs' Hw Hvs') as (k' & Ek' & _).
  pose proof Hv as (u & n & Ei & _). pose proof Hv' as (u' & n' & Ei' & _).
  destruct (int_sync _ _ _ _ Ei) as [Hs Hc], (int_sync _ _ _ _ Ei') as [Hs' Hc']. simplify_eq.
  assert (u' = u) as -> by congruence. rewrite Hs, Hs', Ek, Ek' in E. cbn in E. injection E as E.
  apply app_inj_1 in E as [E1 E2]; [|by rewrite !to_le_bytes_length].
  f_equal; [apply (int_sync_inj t); [done..|congruence]|apply IH; [done|simpl in Hl; lia|congruence]].
Qed.

Lemma sync_inj v v' : well_sized v → well_sized v' → shape v = shape v' → sync v = sync v' → v = v'.
Proof.
  intros Hv Hv' Hs E.
  destruct v, v'; try (destruct Hv as (t & w & n & [=] & _); fail); try (destruct Hv' as (t & w & n & [=] & _); fail);
    try discriminate Hs; try (destruct Hv as [t Hv]; pose proof Hv as (w & n & [= <- <- <-] & _);
      destruct Hv' as [t' Hv']; pose proof Hv' as (w' & n' & [= <- <- <-] & _); by eapply int_sync_inj).
  injection Hs as <- Hl. destruct Hv as [Hvs [w Hw]], Hv' as [Hvs' _].
  f_equal. by apply (sync_all_inj ty w).
Qed.

Lemma commit_sync v bytes : well_sized v → sync v = Ret bytes → commit bytes v = Ret v.
Proof.
  intros Hv E. destruct (sync_sized v Hv) as (bytes' & E' & Hl & Ho). rewrite E in E'. injection E' as <-.
  destruct (commit_sync_bytes v bytes Hv Hl Ho) as (v' & Ec & Es & Hv' & Hsh).
  rewrite Ec. f_equal. apply sync_inj; [done..|congruence].
Qed.

(** The byte form of an integer, or of a vector of integers of one type, has the
    width of its type, and writing it back gives the value; any other bytes of that
    width can be written too, keep the kind and the length, and are read back. *)
Theorem sync_commit_round_trip v : well_sized v →
  ∃ bytes, sync v = Ret bytes ∧ length bytes = byte_width v ∧ octets bytes ∧ commit bytes v = Ret v ∧
  ∀ bytes', length bytes' = byte_width v → octets bytes' →
    ∃ v', commit bytes' v = Ret v' ∧ sync v' = Ret bytes' ∧ well_sized v' ∧ shape v' = shape v.
Proof.
  intros Hv. destruct (sync_sized v Hv) as (bytes & Es & Hlen & Ho). exists bytes.
  repeat split; [done..|by apply commit_sync|]. intros bytes' Hl Ho'. by apply commit_sync_bytes.
Qed.

(** ** What a mutation may do to a value *)
Definition mutated_from (addresses : list MoveAddress) (v v' : InputArgument) : Prop :=
  match v, v' with
  | Arg_Bool _, Arg_Bool _ => True
  | Arg_U8 o, Arg_U8 n => n ≠ o ∧ (n < 255)%N
  | Arg_U32 o, Arg_U32 n => n = o ∨ (n < 443636)%N
  | Arg_U64 o, Arg_U64 n => n = o ∨ ∃ s, (s < 64)%N ∧ n = (2 ^ s)%N
  | Arg_U128 o, Arg_U128 n => n = o ∨ ∃ s, (s < 128)%N ∧ n = (2 ^ s)%N
  | Arg_Address _, Arg_Address a => a ∈ addresses
  | _, _ => v' = v
  end.

Section mutate_spec.
Context `{PG : PetGraph G} {Rand : Type} `{RL : RandLib}.
Context (meta : FuzzMetadata (G := G) (Rand := Rand)).
Context (havoc : ByteMutator → ByteMutator) (dword_interesting : ByteMutator).

Lemma below_N_Ret n r k r' : below_N n r = Ret (k, r') → (k, r') = below_or_zero n r ∧ ((0 < n)%N → (k < n)%N).
Proof.
  unfold below_N. intros [= E]. split; [done|]. intros Hn.
  pose proof (below_or_zero_lt n r Hn) as H. by rewrite E in H.
Qed.

Lemma redraw_Ret fuel orig r v r' : redraw fuel orig r = Ret (Some v, r') → v ≠ orig ∧ (v < 255)%N.
Proof.
  revert r. induction fuel as [|fuel IH]; intros r E; cbn in E; [done|]. rnd_inv.
  match goal with H : below_N _ _ = _ |- _ => apply below_N_Ret in H as [_ Hlt] end.
  destruct (N.eqb_spec x orig); [by eapply IH|]. apply mret_Ret in H0 as [[= <-] _]. auto with lia.
Qed.

(** The bytes [mutate_by] commits: those of the value, or a draw of their width. *)
Definition committed (bytes bytes' : Bytes) : Prop :=
  bytes' = bytes ∨
  (length bytes = 4 ∧ ∃ v, (v < 443636)%N ∧ bytes' = to_le_bytes 4 v) ∨
  (length bytes = 8 ∧ ∃ s, (s < 64)%N ∧ bytes' = to_le_bytes 8 (2 ^ s)) ∨
  (length bytes = 16 ∧ ∃ s, (s < 128)%N ∧ bytes' = to_le_bytes 16 (2 ^ s)) ∨
  (length bytes ≠ 4 ∧ length bytes ≠ 8 ∧ length bytes ≠ 16 ∧ length bytes' = 8).

Lemma mutate_by_Ret pool split mv r res mv' r' :
  mutate_by havoc dword_interesting pool split mv r = Ret (res, mv', r') →
  ∃ bytes bytes', sync (mv_value mv) = Ret bytes ∧ commit bytes' (mv_value mv) = Ret (mv_value mv') ∧
    committed bytes bytes' ∧ (res = Skipped → bytes' = bytes).
Proof.
  unfold mutate_by. intros E. apply rnd_bind_Ret in E as (bytes & r1 & Eb & E). rnd_inv.
  destruct x as [res0 self_bytes]. apply rnd_bind_Ret in H0 as ([[res1 bytes'] sb] & r2 & Em & E).
  rnd_inv. simplify_eq. exists bytes, bytes'. cbn. split; [done|]. split; [done|].
  unfold committed.
  destruct (Nat.eqb_spec (length bytes) 4) as [H4|H4]; [|destruct (Nat.eqb_spec (length bytes) 8) as [H8|H8];
    [|destruct (Nat.eqb_spec (length bytes) 16) as [H16|H16]]].
  all: try (apply rnd_bind_Ret in Em as (k & r4 & _ & Em); destruct (_ <? k)%N;
    [apply rnd_bind_Ret in Em as (s & r5 & Es & Em); apply below_N_Ret in Es as [_ Hs]|];
    apply mret_Ret in Em as [[= <- <- <-] _]; [|by auto]; split; [|done]).
  - right; left. split; [done|]. exists s. split; [by apply Hs|done].
  - right; right; left. split; [done|]. exists s. split; [by apply Hs|done].
  - right; right; right; left. split; [done|]. exists s. split; [by apply Hs|done].
  - destruct (split && _).
    + apply mret_Ret in Em as [[= <- <- <-] _]. split; [|done]. by repeat right.
    + apply rnd_bind_Ret in Em as ([] & r4 & _ & Em). apply mret_Ret in Em as [[= <- <- <-] _]. auto.
Qed.

Lemma mutate_by_int pool split mv r res mv' r' : well_sized (mv_value mv) →
  match mv_value mv with Arg_U16 _ | Arg_U32 _ | Arg_U64 _ | Arg_U128 _ | Arg_U256 _ => True | _ => False end →
  mutate_by havoc dword_interesting pool split mv r = Ret (res, mv', r') →
  mutated_from [] (mv_value mv) (mv_value mv') ∧ (res = Skipped → mv_value mv' = mv_value mv).
Proof.
  intros Hv Hint E. destruct (mutate_by_Ret _ _ _ _ _ _ _ E) as (bytes & bytes' & Es & Ec & Hb & Hskip).
  pose proof (commit_sync _ _ Hv Es) as Hsame. split.
  2: { intros Hres. rewrite (Hskip Hres), Hsame in Ec. by injection Ec. }
  destruct Hb as [->|Hb]; [rewrite Hsame in Ec; injection Ec as <-; destruct (mv_value mv); simpl; auto; done|].
  destruct (sync_sized _ Hv) as (bs & Es' & Hlen & _). rewrite Es in Es'. injection Es' as <-.
  destruct (mv_value mv) as [| |o|o|o|o|o| | | |] eqn:Ev; try done; cbn in Hlen; rewrite Hlen in Hb;
    (destruct Hb as [[Hw (s & Hs & ->)]|[[Hw (s & Hs & ->)]|[[Hw (s & Hs & ->)]|(H4 & H8 & H16 & Hl)]]];
     try discriminate Hw; try (exfalso; lia)).
  all: try (cbn in Ec; unfold read_le in Ec; rewrite Hl in Ec; discriminate Ec).
  all: cbn [commit] in Ec; unfold read_le in Ec; rewrite to_le_bytes_length, from_to_le_bytes in Ec; cbn in Ec.
  all: try (injection Ec as <-; right; eauto).
  all: try (change (256 ^ N.of_nat 4)%N with 4294967296%N; lia).
  - change (256 ^ N.of_nat 8)%N with (2 ^ 64)%N. apply N.pow_lt_mono_r; lia.
  - change (256 ^ N.of_nat 16)%N with (2 ^ 128)%N. apply N.pow_lt_mono_r; lia.
Qed.

Lemma mutated_from_mono as1 as2 v v' : as1 ⊆ as2 → mutated_from as1 v v' → mutated_from as2 v v'.
Proof. intros Has. destruct v, v'; simpl; auto. Qed.

Lemma mutated_from_refl as_ v : match v with Arg_U8 _ | Arg_Address _ => False | _ => True end →
  mutated_from as_ v v.
Proof. destruct v; simpl; auto; done. Qed.

(** Mutating a value never changes its kind: a [bool] stays a [bool], a [u8]
    becomes another one below 255, a [u32] is kept or drawn below 443636, a [u64] and
    a [u128] are kept or become a power of two of their width, an address is one of
    the pools, a vector or an object is left alone, and so are a [u16] and a [u256].
    A mutation that reports [Skipped] has changed nothing. *)
Theorem mutate_keeps_type fuel pool split mv r res mv' r' :
  (∃ t, int_sized t (mv_value mv)) ∨ int_arg (mv_value mv) = None →
  mutate meta havoc dword_interesting fuel pool split mv r = Ret (Some (res, mv'), r') →
  mutated_from (fm_addresses_pool meta ++ fm_callers_pool meta) (mv_value mv) (mv_value mv') ∧
  (res = Skipped → mv_value mv' = mv_value mv).
Proof.
  intros Hv E. unfold mutate in E.
  assert (int_arg (mv_value mv) ≠ None → well_sized (mv_value mv)) as Hws.
  { destruct Hv as [Hv|]; [|done]. intros _. destruct (mv_value mv); try exact Hv.
    by destruct Hv as (? & ? & ? & [=] & _). }
  pose proof (mutate_by_int pool split mv) as Hint.
  destruct (mv_value mv) as [b|o|o|o|o|o|o|t vs|a|a|t ob] eqn:Ev;
    try (apply mret_Ret in E as [[= <- <-] _]; rewrite Ev; by split; [apply mutated_from_refl|]).
  all: apply rnd_bind_Ret in E as (k & r1 & Ek & E).
  all: try (apply mret_Ret in E as [[= ->] _];
    destruct (Hint r res mv' r1) as [H1 H2]; [by apply Hws|done|done|];
    split; [eapply mutated_from_mono, H1; set_solver|done]).
  - apply mret_Ret in E as [[= <- <-] _]. done.
  - destruct k as [k|]; apply mret_Ret in E as [E _]; [|done]. injection E as <- <-.
    by apply redraw_Ret in Ek.
  - apply rnd_bind_Ret in E as (a' & r2 & Ea & E). apply mret_Ret in E as [[= <- <-] _].
    apply pick_elem in Ea. split; [|done]. cbn. apply elem_of_app. destruct (k =? 1)%N; auto.
Qed.

(** *** Mutations return *)
Definition returns_always {A B} (m : A → rnd B) : Prop := ∀ a r, ∃ b r', m a r = Ret (b, r').

(** What the [k]-th draw of the loop over a [u8] gives. *)
Fixpoint nth_draw (k : nat) (r : Rng) : N :=
  let '(v, r) := below_or_zero 255 r in match k with O => v | S k => nth_draw k r end.

Lemma redraw_ends fuel orig r : (∃ k, k < fuel ∧ nth_draw k r ≠ orig) →
  ∃ v r', redraw fuel orig r = Ret (Some v, r').
Proof.
  revert r. induction fuel as [|fuel IH]; intros r (k & Hk & Hd); [lia|].
  cbn [redraw]. unfold mbind, rnd_mbind, below_N. destruct k as [|k]; cbn [nth_draw] in Hd;
    destruct (below_or_zero 255 r) as [v r1]; cbn [mbind panics_mbind panics_bind].
  - rewrite (proj2 (N.eqb_neq v orig)) by done. by eexists _, _.
  - destruct (v =? orig)%N; [|by eexists _, _]. apply IH. exists k. split; [lia|done].
Qed.

Lemma magic_number_mutate_returns pool : returns_always (magic_number_mutate pool).
Proof.
  intros bytes r. unfold magic_number_mutate. destruct (List.filter _ pool) as [|m ms]; [by eexists _, _|].
  destruct (pick_total (m :: ms) r) as (a & r' & E); [done|]. unfold mbind, rnd_mbind. rewrite E. by eexists _, _.
Qed.

(** Nothing is forced on a value of another width. *)
Definition split_fits (pool : list Bytes) (split : bool) (v : InputArgument) : Prop :=
  (split && bool_decide (pool = [])) = false ∨ byte_width v ∈ [4; 8; 16].

Lemma mutate_by_returns pool split mv r :
  (∀ m, returns_always m → returns_always (havoc m)) → returns_always dword_interesting →
  well_sized (mv_value mv) → split_fits pool split (mv_value mv) →
  ∃ x r', mutate_by havoc dword_interesting pool split mv r = Ret (x, r').
Proof.
  intros Hhavoc Hdword Hv Hfits. destruct (sync_sized _ Hv) as (bytes & Es & Hlen & Ho).
  pose proof (commit_sync _ _ Hv Es) as Hsame. unfold mutate_by, mbind, rnd_mbind, lift, below_N.
  rewrite Es. cbn [mbind panics_mbind panics_bind].
  destruct (Hhavoc _ (magic_number_mutate_returns pool) (mv_bytes mv) r) as ([res sb] & r1 & E). rewrite E.
  assert (∀ w n, length bytes = w → ∃ v', commit (to_le_bytes w n) (mv_value mv) = Ret v') as Hc.
  { intros w n Hw. destruct (commit_sync_bytes _ (to_le_bytes w n) Hv) as (v' & Ec & _); [|apply to_le_bytes_octets|eauto].
    rewrite to_le_bytes_length. congruence. }
  unfold split_fits in Hfits. rewrite <- Hlen in Hfits.
  repeat match goal with
    | |- context [(length bytes =? ?w)%nat] => destruct (Nat.eqb_spec (length bytes) w)
    | |- context [let '(_, _) := below_or_zero ?n ?r in _] => destruct (below_or_zero n r)
    | |- context [if (?a <? ?k)%N then _ else _] => destruct (a <? k)%N
    | |- context [below_or_zero ?n ?r] => destruct (below_or_zero n r)
    | _ => progress cbn [mbind panics_mbind panics_bind mret rnd_mret]
    end; try (rewrite Hsame; by eexists _, _);
    try match goal with |- context [to_le_bytes ?w ?n] => destruct (Hc w n) as [v' Ec]; [done|rewrite Ec; by eexists _, _] end.
  destruct Hfits as [->|Hin]; [|by repeat (apply elem_of_cons in Hin as [?|Hin]; [done|]); apply elem_of_nil in Hin].
  destruct (Hhavoc _ Hdword sb r1) as ([res' sb'] & r2 & E'). cbn. rewrite E'.
  cbn [mbind panics_mbind panics_bind mret rnd_mret]. rewrite Hsame. by eexists _, _.
Qed.

(** [mutate] returns: the loop that redraws a [u8] ends with the first draw that
    differs from it, and the other values need no loop. Only addresses need pools
    with something in them, and only a value of 1, 2 or 32 bytes cannot take the zero
    that the amount of a split is given when there is no pool of constants. *)
Theorem mutate_returns fuel pool split mv r :
  (∀ m, returns_always m → returns_always (havoc m)) → returns_always dword_interesting →
  (∀ a, mv_value mv = Arg_Address a → fm_addresses_pool meta ≠ [] ∧ fm_callers_pool meta ≠ []) →
  int_arg (mv_value mv) = None ∨ well_sized (mv_value mv) ∧ split_fits pool split (mv_value mv) →
  (∀ orig, mv_value mv = Arg_U8 orig → ∃ k, k < fuel ∧ nth_draw k r ≠ orig) →
  ∃ res mv' r', mutate meta havoc dword_interesting fuel pool split mv r = Ret (Some (res, mv'), r').
Proof.
  intros Hhavoc Hdword Hpools Hv Hu8. unfold mutate.
  pose proof (mutate_by_returns pool split mv r Hhavoc Hdword) as Hint.
  destruct (mv_value mv) as [b|o|o|o|o|o|o|t vs|a|a|t ob] eqn:Ev; try (by eexists _, _, _).
  3-7: destruct Hv as [|[Hv Hfits]]; [done|]; destruct Hint as ([res mv'] & r' & E); [done..|];
    unfold mbind, rnd_mbind; rewrite E; by eexists _, _, _.
  - unfold mbind, rnd_mbind, below_N. destruct (below_or_zero 2 r). by eexists _, _, _.
  - destruct (redraw_ends fuel o r) as (v & r' & E); [by apply Hu8|].
    unfold mbind, rnd_mbind. rewrite E. by eexists _, _, _.
  - unfold mbind, rnd_mbind, below_N. destruct (below_or_zero 2 r) as [k r1]. cbn [mbind panics_mbind panics_bind].
    destruct (pick_total (if (k =? 1)%N then fm_addresses_pool meta else fm_callers_pool meta) r1) as (x & r2 & E);
      [destruct (Hpools a eq_refl); by destruct (k =? 1)%N|]. rewrite E. by eexists _, _, _.
Qed.

(** [sample_magic_number] replaces an integer, or a vector of integers, by a
    constant of the pool of exactly its size: the bytes of the new value are that
    constant, its kind and length are kept, and the call never panics. Without such
    a constant, or for another kind of value, it is skipped and nothing changes. *)
Theorem sample_magic_exact pool mv r :
  (samples_magic (mv_value mv) = true → well_sized (mv_value mv)) → Forall octets pool →
  ∃ res mv' r', sample_magic_number pool mv r = Ret (res, mv', r') ∧
    match res with
    | Skipped => mv' = mv ∧ (samples_magic (mv_value mv) = true →
        ∀ num, num ∈ pool → length num ≠ byte_width (mv_value mv))
    | Mutated => samples_magic (mv_value mv) = true ∧ well_sized (mv_value mv') ∧
        shape (mv_value mv') = shape (mv_value mv) ∧ mv_bytes mv' = mv_bytes mv ∧
        ∃ num, num ∈ pool ∧ sync (mv_value mv') = Ret num
    end.
Proof.
  intros Hv Hpool. unfold sample_magic_number.
  destruct (samples_magic (mv_value mv)); [|by eexists _, _, _; split].
  specialize (Hv eq_refl). destruct (sync_sized _ Hv) as (bytes & Es & Hlen & Ho).
  unfold mbind, rnd_mbind, lift. rewrite Es. cbn [mbind panics_mbind panics_bind].
  destruct (List.filter _ pool) as [|m ms] eqn:Ef.
  - eexists _, _, _. split; [done|]. split; [done|]. intros _ num Hnum Hl.
    assert (num ∈ List.filter (λ num, (length num =? length bytes)%nat) pool) as Hin.
    { apply elem_of_filter_bool. split; [done|]. apply Nat.eqb_eq. congruence. }
    rewrite Ef in Hin. by apply elem_of_nil in Hin.
  - destruct (choose (m :: ms) r) as [[[num|] r1]|] eqn:Ec.
    + pose proof (choose_elem _ _ _ _ Ec) as Hin. cbn in Hin. rewrite <- Ef in Hin.
      apply elem_of_filter_bool in Hin as [Hin Hl%Nat.eqb_eq]. cbn [unwrap mbind panics_mbind panics_bind].
      destruct (commit_sync_bytes _ num Hv) as (v' & Ecm & Hs & Hv' & Hsh);
        [congruence|by eapply Forall_forall in Hpool|].
      rewrite Ecm. eexists _, _, _. split; [done|]. cbn. repeat split; try done. by exists num.
    + by apply choose_elem in Ec.
    + unfold choose in Ec. by destruct (choose_index _ r).
Qed.
End mutate_spec.

(** ** Witnesses *)
Definition demo_vector : InputArgument := Arg_Vector Tag_U16 [Arg_U16 258; Arg_U16 7].
Lemma demo_vector_sized : well_sized demo_vector.
Proof. split; [|by eexists]. repeat constructor; eexists _, _; (split; [done|]); by vm_compute. Qed.

Lemma sync_commit_round_trip_witness : well_sized demo_vector ∧ sync demo_vector = Ret [2; 1; 7; 0]%N ∧
  ∃ v', commit [1; 0; 0; 1]%N demo_vector = Ret v' ∧ sync v' = Ret [1; 0; 0; 1]%N.
Proof.
  split; [exact demo_vector_sized|]. split; [by vm_compute|].
  destruct (sync_commit_round_trip demo_vector demo_vector_sized) as (_ & _ & _ & _ & _ & H).
  destruct (H [1; 0; 0; 1]%N) as (v' & Hc & Hs & _); [done|by repeat constructor|]. by exists v'.
Defined.

Definition no_havoc (m : ByteMutator) : ByteMutator := m.
Definition no_dword : ByteMutator := λ bytes, mret (Mutated, bytes).

Lemma mutate_keeps_type_witness :
  mutate demo_fuzz_metadata no_havoc no_dword 5 [] false (mutable_new (Arg_U64 9)) [7; 3]%N
    = Ret (Some (Mutated, mutable_new (Arg_U64 8)), []) ∧
  mutated_from (fm_addresses_pool demo_fuzz_metadata ++ fm_callers_pool demo_fuzz_metadata) (Arg_U64 9) (Arg_U64 8).
Proof.
  split; [by vm_compute|].
  destruct (mutate_keeps_type demo_fuzz_metadata no_havoc no_dword 5 [] false (mutable_new (Arg_U64 9)) [7; 3]%N
    Mutated (mutable_new (Arg_U64 8)) []) as [H _]; [|by vm_compute|exact H].
  left. exists Tag_U64. by exists 8, 9%N.
Defined.

Lemma mutate_returns_witness :
  ∃ res mv' r', mutate demo_fuzz_metadata no_havoc no_dword 3 [] false (mutable_new (Arg_U8 4)) [4; 4; 9]%N
    = Ret (Some (res, mv'), r').
Proof.
  apply mutate_returns.
  - done.
  - intros bytes r. by eexists _, _.
  - done.
  - right. split; [exists Tag_U8; by exists 1, 4%N|by left].
  - intros orig [= <-]. exists 2. split; [lia|done].
Defined.

Lemma sample_magic_exact_witness :
  ∃ res mv' r', sample_magic_number (RL := replay_rand) [[9; 9]; [1; 0; 0; 1]]%N (mutable_new demo_vector) []
    = Ret (res, mv', r') ∧ res = Mutated ∧ sync (mv_value mv') = Ret [1; 0; 0; 1]%N.
Proof.
  destruct (sample_magic_exact (RL := replay_rand) [[9; 9]; [1; 0; 0; 1]]%N (mutable_new demo_vector) [])
    as (res & mv' & r' & E & H); [intros _; exact demo_vector_sized|by repeat constructor|].
  vm_compute in E. injection E as <- <- <-. eexists _, _, _. split; [by vm_compute|].
  split; [done|]. by vm_compute.
Defined.

(** The 8 zero bytes meant for the amount of a split do not fit a [u16]. *)
Example split_u16_panics :
  mutate demo_fuzz_metadata no_havoc no_dword 1 [] true (mutable_new (Arg_U16 1)) []%N = Panic.
Proof. by vm_compute. Qed.
