(* ===== verification/Append.v ===== *)
(** * Append: adding a call with everything it needs

    [crates/movy-fuzz/src/mutators/sequence/append.rs]. [append_function] builds
    the arguments of a call ([Construct]); for those that neither the sequence
    nor the store provides it appends a producer of the type first, recursively
    up to a depth of ten, and it splits coins and balances so that the call
    takes a part only. The sequence is passed by mutable reference: it is part
    of the result, also when the call could not be appended. *)
From S2P Require Import Prelude Types Abi TypeArgs TypeGraph Meta Removal Random Objects Construct Values.

(** ** Drawing by weight *)
Section weighted.
Context `{RL : RandLib}.

(** The loop over the cumulative weights; [unreachable!] at its end. *)
Fixpoint weighted_loop {A} (random_number cumulative_weight : N) (items : list (A * N)) : panics A :=
  match items with
  | [] => Panic
  | (item, weight) :: items =>
      let cumulative_weight := (cumulative_weight + weight)%N in
      if (random_number <=? cumulative_weight)%N then Ret item
      else weighted_loop random_number cumulative_weight items
  end.

Definition weighted_sample {A} (items : list A) (weights : list N) : rnd A :=
  if negb (length items =? length weights)%nat then lift Panic else
  match weights with
  | [] => lift Panic
  | _ =>
      let total_weight := foldr N.add 0%N weights in
      if (18446744073709551616 <=? total_weight)%N || (total_weight =? 0)%N then lift Panic else
      random_number ← below_N total_weight;
      lift (weighted_loop (random_number + 1) 0 (zip items weights))
  end.
End weighted.

(** ** Computations with loops that may not have ended

    [None]: the redraw of a [u8] has not ended within its fuel. *)
Definition spin `{RandLib} (A : Type) : Type := Rng → panics (option (A * Rng)).
#[export] Instance spin_mret `{RandLib} : MRet spin := λ A a r, Ret (Some (a, r)).
#[export] Instance spin_mbind `{RandLib} : MBind spin := λ A B k m r,
  o ← m r; match o with Some (a, r) => k a r | None => Ret None end.
Definition draw `{RandLib} {A} (m : rnd A) : spin A := λ r, '(a, r) ← m r; Ret (Some (a, r)).
Definition call `{RandLib} {A} (m : panics A) : spin A := draw (lift m).
Definition until `{RandLib} {A} (m : rnd (option A)) : spin A := λ r,
  '(o, r) ← m r; match o with Some a => Ret (Some (a, r)) | None => Ret None end.

(** ** Indices *)
Definition u16_add (a b : N) : panics N := if (a + b <? 65536)%N then Ret (a + b)%N else Panic.
Definition u16_sub (a b : N) : panics N := if (b <=? a)%N then Ret (a - b)%N else Panic.

(** [ptb.inputs.contains(input)] and [position] *)
Fixpoint position {A} (p : A → bool) (l : list A) : option nat :=
  match l with [] => None | x :: l => if p x then Some 0 else S <$> position p l end.
Definition same_object (ty : MoveTypeTag) (object : SuiObjectInputArgument) (input : InputArgument) : bool :=
  match input with
  | Arg_Object ty' object' => bool_decide (ty' = ty) && bool_decide (object' = object)
  | _ => false
  end.

Section append.
Context `{PG : PetGraph G} {Rand : Type} `{RL : RandLib}.
Context (meta : FuzzMetadata (G := G) (Rand := Rand)) (object_info : MoveAddress → option MoveObjectInfo).
Context (havoc : ByteMutator → ByteMutator) (dword_interesting : ByteMutator) (redraw_fuel : nat).

Abbreviation FixedArgs := (gmap N (SequenceArgument * MoveTypeTag)).

(** The parameters whose arguments are objects to be found. *)
Definition struct_params (fixed_args : FixedArgs) (parameters : list MoveAbiSignatureToken) :
    list MoveAbiSignatureToken :=
  omap (λ '(i, p), if bool_decide (is_Some (fixed_args !! as_u16 i)) then None
                   else if needs_sample p then Some p else None) (imap pair parameters).

(** A fresh value for a parameter that is no object. *)
Definition initial_value (param : MoveAbiSignatureToken) : spin InputArgument :=
  init_value ← call (gen_input_arg param);
  init_value ← call (unwrap init_value);
  '(_, mv) ← until (mutate meta havoc dword_interesting redraw_fuel [] false (mutable_new init_value));
  mret (mv_value mv).

(** *** All arguments are at hand *)
Fixpoint complete_arguments (fixed_args : FixedArgs) (input_len i : nat) (params : list MoveAbiSignatureToken)
    (args : list SequenceArgument) (inputs : list InputArgument) (arguments : list SequenceArgument) :
    spin (list SequenceArgument * list InputArgument) :=
  match params with
  | [] => mret (arguments, inputs)
  | param :: params =>
      match fixed_args !! as_u16 i with
      | Some (arg, _) => complete_arguments fixed_args input_len (S i) params args inputs (arguments ++ [arg])
      | None =>
          if is_tx_context param then complete_arguments fixed_args input_len (S i) params args inputs arguments else
          if needs_sample param then
            match args with
            | [] => call Panic
            | arg :: args => complete_arguments fixed_args input_len (S i) params args inputs (arguments ++ [arg])
            end
          else
            init_value ← initial_value param;
            let inputs := inputs ++ [init_value] in
            complete_arguments fixed_args input_len (S i) params args inputs
              (arguments ++ [Input (as_u16 (input_len + length inputs - 1))])
      end
  end.

(** *** Some arguments have to be produced *)
Record Partial := MkPartial {
  pa_ptb : MoveSequence;
  pa_arguments : list SequenceArgument;
  pa_inputs : list InputArgument;
  pa_partial_args : list (option SequenceArgument);
  pa_struct_params : list MoveAbiSignatureToken;
  pa_type_arguments : TyArgs;
  pa_used : list SequenceArgument }.

(** By-value arguments may not be used again by the producers. *)
Definition taken (partial_args : list (option SequenceArgument)) (params : list MoveAbiSignatureToken) :
    list SequenceArgument :=
  omap (λ '(arg, param), match arg with
    | Some arg => if is_reference param then None else Some arg
    | None => None
    end) (zip partial_args params).

(** Type arguments that both sides share must agree. *)
Fixpoint agree_ty_args (type_arguments : TyArgs) (mapping : list (N * N)) (producing_ty_arg : TyArgs) :
    option TyArgs :=
  match mapping with
  | [] => Some producing_ty_arg
  | (self_, other) :: mapping =>
      match type_arguments !! self_ with
      | None => agree_ty_args type_arguments mapping producing_ty_arg
      | Some ty_arg =>
          match producing_ty_arg !! other with
          | Some other_ty_arg =>
              if bool_decide (ty_arg ≠ other_ty_arg) then None
              else agree_ty_args type_arguments mapping producing_ty_arg
          | None => agree_ty_args type_arguments mapping (<[other := ty_arg]> producing_ty_arg)
          end
      end
  end.

(** The first returned value that can be the argument. *)
Fixpoint producing_return (arg_type : MoveAbiSignatureToken) (i : nat) (rets : list MoveAbiSignatureToken) :
    option (TyArgs * TyArgs * list (N * N) * N) :=
  match rets with
  | [] => None
  | ret_ty :: rets =>
      match partial_extract_ty_args arg_type ret_ty with
      | Some u => Some (u, as_u16 i)
      | None => producing_return arg_type (S i) rets
      end
  end.

Fixpoint insert_mapping (mapping : list (N * N)) (type_arguments : list MoveTypeTag) (ty_args : TyArgs) :
    panics TyArgs :=
  match mapping with
  | [] => Ret ty_args
  | (self_, other) :: mapping =>
      ty ← unwrap (type_arguments !! N.to_nat other);
      insert_mapping mapping type_arguments (<[self_ := ty]> ty_args)
  end.

Definition last_call (ptb : MoveSequence) : panics MoveCall :=
  match last (seq_commands ptb) with Some (Call mc) => Ret mc | _ => Panic end.

(** [append_function] itself, as the loop over the parameters calls it. *)
Abbreviation Appended := (option (list SequenceArgument * list SequenceArgument)).
Abbreviation Appender := (MoveSequence → FunctionIdent → FixedArgs → TyArgs → list SequenceArgument → bool →
  spin (MoveSequence * Appended)).

(** Append a producer for a missing argument; [inr]: give up with this sequence. *)
Definition produce_argument (append : Appender) (excluded : MoveAddress * string * string) (ty_args : TyArgs)
    (param missing : MoveAbiSignatureToken) (s : Partial) : spin (Partial + MoveSequence) :=
  let arg_type := partial_subst ty_args missing in
  let funcs := find_producers (md_type_graph (fm_base meta)) arg_type true (Some excluded) in
  match funcs with
  | [] => mret (inr (pa_ptb s))
  | _ =>
      '(pre_module, pre_abi) ← draw (pick funcs);
      match producing_return arg_type 0 (fa_return_paramters pre_abi) with
      | None => mret (inr (pa_ptb s))
      | Some (arg_ty_arg, producing_ty_arg, mapping, ret_idx) =>
          match agree_ty_args (pa_type_arguments s) mapping producing_ty_arg with
          | None => mret (inr (pa_ptb s))
          | Some producing_ty_arg =>
              '(ptb, r) ← append (pa_ptb s) (MkFunctionIdent pre_module (fa_name pre_abi)) ∅ producing_ty_arg
                (pa_used s) false;
              match r with
              | None => mret (inr ptb)
              | Some (_, new_rets) =>
                  new_movecall ← call (last_call ptb);
                  ty_args ← call (insert_mapping mapping (mc_type_arguments new_movecall) (arg_ty_arg ∪ ty_args));
                  ret ← call (unwrap (new_rets !! N.to_nat ret_idx));
                  mret (inl (MkPartial ptb (pa_arguments s ++ [ret]) (pa_inputs s) (pa_partial_args s)
                    (pa_struct_params s) (ty_args ∪ pa_type_arguments s)
                    (if is_reference param then pa_used s else pa_used s ++ [ret])))
              end
          end
      end
  end.

Definition push_argument (arg : SequenceArgument) (s : Partial) : Partial :=
  MkPartial (pa_ptb s) (pa_arguments s ++ [arg]) (pa_inputs s) (pa_partial_args s) (pa_struct_params s)
    (pa_type_arguments s) (pa_used s).

Definition partial_argument (append : Appender) (excluded : MoveAddress * string * string)
    (fixed_args : FixedArgs) (input_len : nat) (ty_args : TyArgs) (i : nat) (param : MoveAbiSignatureToken)
    (s : Partial) : spin (Partial + MoveSequence) :=
  match fixed_args !! as_u16 i with
  | Some (arg, _) => mret (inl (push_argument arg s))
  | None =>
      if is_tx_context param then mret (inl s) else
      if needs_sample param then
        match pa_partial_args s, pa_struct_params s with
        | arg :: partial_args, missing :: struct_params =>
            let s := MkPartial (pa_ptb s) (pa_arguments s) (pa_inputs s) partial_args struct_params
              (pa_type_arguments s) (pa_used s) in
            match arg with
            | Some arg => mret (inl (push_argument arg s))
            | None => produce_argument append excluded ty_args param missing s
            end
        | _, _ => call Panic
        end
      else
        init_value ← initial_value param;
        let inputs := pa_inputs s ++ [init_value] in
        mret (inl (MkPartial (pa_ptb s) (pa_arguments s ++ [Input (as_u16 (input_len + length inputs - 1))])
          inputs (pa_partial_args s) (pa_struct_params s) (pa_type_arguments s) (pa_used s)))
  end.

Fixpoint partial_arguments (append : Appender) (excluded : MoveAddress * string * string)
    (fixed_args : FixedArgs) (input_len : nat) (ty_args : TyArgs) (i : nat)
    (params : list MoveAbiSignatureToken) (s : Partial) : spin (Partial + MoveSequence) :=
  match params with
  | [] => mret (inl s)
  | param :: params =>
      r ← partial_argument append excluded fixed_args input_len ty_args i param s;
      match r with
      | inl s => partial_arguments append excluded fixed_args input_len ty_args (S i) params s
      | inr ptb => mret (inr ptb)
      end
  end.

(** A type argument no producer fixed: the replacement is drawn in any case. *)
Definition partial_ty_arg (type_arguments : TyArgs) (x : nat * MoveAbility) : rnd MoveTypeTag :=
  generated ← gen_type_tag_by_abilities meta x.2;
  mret (default generated (type_arguments !! as_u16 x.1)).

Definition cons_reused (arg : SequenceArgument) (fixed : list nat) (removed : list N)
    (r : option (list SequenceArgument * list nat * list N)) : option (list SequenceArgument * list nat * list N) :=
  option_map (λ '(l, fixed_idxs, remove_idxs), (arg :: l, fixed ++ fixed_idxs, removed ++ remove_idxs)) r.

(** *** Objects that a producer has brought in already

    The new inputs an argument refers to are replaced by equal inputs of the
    sequence when the parameter is a reference; a by-value object cannot be
    used twice ([None]). With the arguments come the positions that were
    redirected and the inputs they no longer need. *)
Fixpoint reuse_objects (ptb_inputs inputs : list InputArgument) (input_len i : nat)
    (arguments : list SequenceArgument) (params : list MoveAbiSignatureToken) :
    panics (option (list SequenceArgument * list nat * list N)) :=
  match arguments, params with
  | arg :: arguments, param :: params =>
      let keep arg fixed removed :=
        r ← reuse_objects ptb_inputs inputs input_len (S i) arguments params;
        Ret (cons_reused arg fixed removed r) in
      match arg with
      | Input input_idx =>
          if (N.to_nat input_idx <? input_len)%nat then keep arg [] [] else
          let offset := (input_idx - N.of_nat input_len)%N in
          input ← unwrap (inputs !! N.to_nat offset);
          match input with
          | Arg_Object ty object =>
              match position (same_object ty object) ptb_inputs with
              | None => keep arg [] []
              | Some p => if is_reference param then keep (Input (as_u16 p)) [i] [offset] else Ret None
              end
          | _ => keep arg [] []
          end
      | _ => keep arg [] []
      end
  | _, _ => Ret (Some (arguments, [], []))
  end.

(** The new inputs come after those of the producers. *)
Definition adjust_argument (fixed_idxs : list nat) (remove_idxs : list N) (input_len grown i : nat)
    (arg : SequenceArgument) : panics SequenceArgument :=
  match arg with
  | Input input_idx =>
      if bool_decide (i ∈ fixed_idxs) || (N.to_nat input_idx <? input_len)%nat then Ret arg else
      let offset := (input_idx - N.of_nat input_len)%N in
      let adjust := length (List.filter (λ x, x <? offset)%N remove_idxs) in
      input_idx ← u16_sub input_idx (as_u16 adjust);
      input_idx ← u16_add input_idx (as_u16 grown);
      Ret (Input input_idx)
  | _ => Ret arg
  end.
Fixpoint adjust_arguments (fixed_idxs : list nat) (remove_idxs : list N) (input_len grown i : nat)
    (arguments : list SequenceArgument) : panics (list SequenceArgument) :=
  match arguments with
  | [] => Ret []
  | arg :: arguments =>
      arg ← adjust_argument fixed_idxs remove_idxs input_len grown i arg;
      arguments ← adjust_arguments fixed_idxs remove_idxs input_len grown (S i) arguments;
      Ret (arg :: arguments)
  end.

(** *** Splitting coins and balances *)
Definition split_call (module : string) (tys : list MoveTypeTag) (arg amount : SequenceArgument) : MoveSequenceCall :=
  Call {| mc_module_id := addr_two; mc_module_name := module; mc_function := "split";
          mc_type_arguments := tys; mc_arguments := [arg; amount] |}.

Fixpoint split_arguments (type_arguments : list MoveTypeTag) (ptb_inputs_len : nat)
    (arguments : list SequenceArgument) (params : list MoveAbiSignatureToken)
    (commands : list MoveSequenceCall) (inputs : list InputArgument) :
    panics (list SequenceArgument * list MoveSequenceCall * list InputArgument) :=
  match arguments, params with
  | arg :: arguments, param :: params =>
      if is_balance param || is_coin param then
        let special_string := if is_balance param then "balance"%string else "coin"%string in
        ty ← unwrap (subst (ty_args_map type_arguments) param);
        match ty with
        | Tag_Struct (MkStructTag _ _ _ tys) =>
            let inputs := inputs ++ [Arg_U64 0] in
            amount ← u16_sub (as_u16 (ptb_inputs_len + length inputs)) 1;
            let split_cmd := split_call special_string tys arg (Input amount) in
            '(l, cmds, inputs) ← split_arguments type_arguments ptb_inputs_len arguments params
              (commands ++ [split_cmd]) inputs;
            Ret (Result (as_u16 (length commands)) :: l, cmds, inputs)
        | _ => Panic
        end
      else
        '(l, cmds, inputs) ← split_arguments type_arguments ptb_inputs_len arguments params commands inputs;
        Ret (arg :: l, cmds, inputs)
  | _, _ => Ret (arguments, commands, inputs)
  end.

(** *** The call itself *)
Definition returned_values (n : nat) (idx : N) : list SequenceArgument :=
  if (n =? 1)%nat then [Result idx] else map (λ j, NestedResult idx (as_u16 j)) (seq 0 n).

(** What [append_function] does once the arguments are found. *)
Definition finish_call (ident : FunctionIdent) (function : MoveFunctionAbi) (disable_split : bool)
    (input_len : nat) (ptb : MoveSequence) (arguments : list SequenceArgument)
    (type_arguments : list MoveTypeTag) (inputs : list InputArgument) :
    panics (MoveSequence * Appended) :=
  r ← reuse_objects (seq_inputs ptb) inputs input_len 0 arguments (fa_parameters function);
  match r with
  | None => Ret (ptb, None)
  | Some (arguments, fixed_idxs, remove_idxs) =>
      let remove_idxs := sort_idxs remove_idxs in
      inputs ← remove_all (reverse remove_idxs) inputs;
      arguments ← adjust_arguments fixed_idxs remove_idxs input_len (length (seq_inputs ptb) - input_len) 0 arguments;
      '(arguments, commands, inputs) ←
        (if disable_split then Ret (arguments, seq_commands ptb, inputs)
         else split_arguments type_arguments (length (seq_inputs ptb)) arguments (fa_parameters function)
           (seq_commands ptb) inputs);
      if negb (length type_arguments =? length (fa_type_parameters function))%nat then Panic else
      let movecall := {| mc_module_id := module_address (fi_module ident);
        mc_module_name := module_name (fi_module ident); mc_function := fi_name ident;
        mc_type_arguments := type_arguments; mc_arguments := arguments |} in
      Ret (MkSequence (seq_inputs ptb ++ inputs) (commands ++ [Call movecall]),
        Some (arguments, returned_values (length (fa_return_paramters function)) (as_u16 (length commands))))
  end.

(** [append_function ... recursion_depth] with [11 - recursion_depth] levels left. *)
Fixpoint append_function (levels : nat) (ptb : MoveSequence) (ident : FunctionIdent) (fixed_args : FixedArgs)
    (fixed_ty_args : TyArgs) (used_arguments : list SequenceArgument) (disable_split : bool) {struct levels} :
    spin (MoveSequence * Appended) :=
  match levels with
  | O => mret (ptb, None)
  | S levels =>
      object_data ← call (from_ptb_and_remove_used meta object_info ptb used_arguments);
      let addr := module_address (fi_module ident) in
      let mname := module_name (fi_module ident) in
      let fname := fi_name ident in
      function ← call (unwrap (get_function (fm_base meta) addr mname fname));
      let struct_params := struct_params fixed_args (fa_parameters function) in
      let fixed_ty_args := fixed_ty_args ∪ (snd <$> fixed_args) in
      let input_len := length (seq_inputs ptb) in
      r ← draw (try_construct_args meta object_info input_len struct_params (fa_type_parameters function)
        fixed_ty_args object_data);
      match r with
      | ConstructOk args ty_args inputs =>
          '(arguments, inputs) ← complete_arguments fixed_args input_len 0 (fa_parameters function) args inputs [];
          call (finish_call ident function disable_split input_len ptb arguments ty_args inputs)
      | PartialFound partial_args ty_args inputs =>
          if negb (length partial_args =? length struct_params)%nat then call Panic else
          r ← partial_arguments (append_function levels) (addr, mname, fname) fixed_args input_len ty_args 0
            (fa_parameters function)
            (MkPartial ptb [] inputs partial_args struct_params ∅ (taken partial_args struct_params ++ used_arguments));
          match r with
          | inr ptb => mret (ptb, None)
          | inl s =>
              type_arguments ← draw (mapM_rnd (partial_ty_arg (pa_type_arguments s))
                (imap pair (fa_type_parameters function)));
              call (finish_call ident function disable_split input_len (pa_ptb s) (pa_arguments s) type_arguments
                (pa_inputs s))
          end
      | Unsolvable => mret (ptb, None)
      end
  end.

(** A call from outside: [recursion_depth] is zero. *)
Definition MAX_LEVELS : nat := 11.
End append.
