(* ===== verification/AppendSpec.v ===== *)
(** * AppendSpec: what appending a call keeps

    Theorems about [Append]: the drawing by weight is exact, and a sequence that
    [append_function] has extended is well formed whatever it had to produce on
    the way, also when it gave up. *)
From S2P Require Import Prelude Types Abi TypeArgs TypeGraph Meta Removal Random Objects Construct ConstructSpec Values Append.

(** ** Drawing by weight *)
Abbreviation total weights := (foldr N.add 0%N weights).

Section weighted_spec.
Context `{RL : RandLib}.

Lemma weighted_loop_spec {A} (items : list A) weights n c : length items = length weights →
  (c < n ≤ c + total weights)%N →
  ∃ j item, weighted_loop n c (zip items weights) = Ret item ∧ items !! j = Some item ∧
    (c + total (take j weights) < n ≤ c + total (take (S j) weights))%N.
Proof.
  revert items c. induction weights as [|w weights IH]; intros [|item items] c Hl Hn; try done.
  { simpl in Hn. lia. }
  cbn [zip zip_with weighted_loop]. cbn [foldr] in Hn. destruct (N.leb_spec n (c + w)).
  - exists 0, item. split; [done|]. split; [done|]. simpl. lia.
  - destruct (IH items (c + w)%N) as (j & x & E & Hx & Hj); [simpl in Hl; lia|lia|].
    exists (S j), x. split; [done|]. split; [done|]. cbn [take foldr]. cbn [take] in Hj. lia.
Qed.

(** [weighted_sample] returns the item whose interval of cumulative weights the
    draw falls in: every item is drawn for exactly as many numbers below the total as
    its weight says, an item of weight zero never, and the [unreachable!] after the
    loop is not reached. It panics only for lists of different lengths, no weights or
    a total of zero or beyond 64 bits. *)
Theorem weighted_sample_exact {A} (items : list A) weights r :
  (length items = length weights ∧ (0 < total weights < 2 ^ 64)%N →
   let '(n, r') := below_or_zero (total weights) r in
   ∃ j item, weighted_sample items weights r = Ret (item, r') ∧ items !! j = Some item ∧
     (total (take j weights) ≤ n < total (take (S j) weights))%N) ∧
  (¬ (length items = length weights ∧ (0 < total weights < 2 ^ 64)%N) → weighted_sample items weights r = Panic).
Proof.
  unfold weighted_sample. split.
  - intros [Hl [Hpos Hlt]]. pose proof (below_or_zero_lt (total weights) r Hpos) as Hn.
    destruct (below_or_zero (total weights) r) as [n r'] eqn:En. simpl in Hn.
    rewrite (proj2 (Nat.eqb_eq _ _) Hl). destruct weights as [|w weights]; [simpl in Hpos; lia|].
    destruct (weighted_loop_spec items (w :: weights) (n + 1) 0) as (j & item & E & Hj & Hb); [done|lia|].
    exists j, item. split; [|split; [done|lia]]. cbn [negb].
    rewrite (proj2 (N.leb_gt _ _)) by done. rewrite (proj2 (N.eqb_neq _ 0)) by lia. cbn [orb].
    unfold mbind, rnd_mbind, below_N. rewrite En. cbn [mbind panics_mbind panics_bind].
    unfold lift. by rewrite E.
  - intros H. destruct (Nat.eqb_spec (length items) (length weights)) as [Hl|]; [|done].
    destruct weights as [|w weights]; [done|]. cbn [negb].
    destruct (N.leb_spec 18446744073709551616 (total (w :: weights))); [done|].
    destruct (N.eqb_spec (total (w :: weights)) 0); [done|]. exfalso. apply H. split; [done|]. lia.
Qed.
End weighted_spec.

(** ** Arguments in scope *)
Definition in_scope (inputs commands : nat) (arg : SequenceArgument) : Prop :=
  match arg with
  | GasCoin => True
  | Input i => N.to_nat i < inputs
  | Result i | NestedResult i _ => N.to_nat i < commands
  end.

Lemma in_scope_mono ni nc ni' nc' arg : ni ≤ ni' → nc ≤ nc' → in_scope ni nc arg → in_scope ni' nc' arg.
Proof. destruct arg; simpl; lia. Qed.

Lemma as_u16_le n : N.to_nat (as_u16 n) ≤ n.
Proof. unfold as_u16. pose proof (N.Div0.mod_le (N.of_nat n) 65536). lia. Qed.

(** *** The arguments of [ObjectData] *)
Definition held (ni nc : nat) (d : ObjectData) : Prop := ∀ ty args arg g,
  od_existing_objects d !! ty = Some args → (arg, g) ∈ args → in_scope ni nc arg.

Lemma held_push ni nc ty arg gate d : held ni nc d → in_scope ni nc arg → held ni nc (push_existing ty arg gate d).
Proof.
  intros Hd Ha ty' args arg' g H Hin. unfold push_existing, set_existing in H. simpl in H.
  destruct (decide (ty' = ty)) as [->|]; [|rewrite lookup_insert_ne in H by done; by eapply Hd].
  rewrite lookup_insert_eq in H. injection H as <-. apply elem_of_app in Hin as [Hin|Hin].
  - destruct (od_existing_objects d !! ty) eqn:E; simpl in Hin; [by eapply Hd|by apply elem_of_nil in Hin].
  - apply list_elem_of_singleton in Hin. congruence.
Qed.

Lemma elem_of_candidates_without arg l x : x ∈ candidates_without arg l → x ∈ l.
Proof. unfold candidates_without. by intros [? _]%elem_of_filter_bool. Qed.

(** Removing arguments keeps the rest in scope. *)
Lemma held_shrink ni nc d E : held ni nc d →
  (∀ ty args x, E !! ty = Some args → x ∈ args → ∃ args', od_existing_objects d !! ty = Some args' ∧ x ∈ args') →
  held ni nc (set_existing E d).
Proof. intros Hd HE ty args arg g H Hin. destruct (HE _ _ _ H Hin) as (args' & ? & ?). by eapply Hd. Qed.

Section scope.
Context `{PG : PetGraph G} {Rand : Type} `{RL : RandLib}.
Context (meta : FuzzMetadata (G := G) (Rand := Rand)) (object_info : MoveAddress → option MoveObjectInfo).

Lemma held_scan_inputs ni nc inputs : ∀ i d d', i + length inputs ≤ ni →
  scan_inputs object_info i inputs d = Ret d' → held ni nc d → held ni nc d'.
Proof.
  induction inputs as [|input inputs IH]; intros i d d' Hi E Hd; [by injection E as <-|].
  cbn [length] in Hi. destruct input; cbn [scan_inputs] in E; try (eapply IH; [|exact E|exact Hd]; lia).
  apply panics_bind_Ret in E as (obj_id & _ & E). apply panics_bind_Ret in E as (info & _ & E).
  apply panics_bind_Ret in E as (gate & _ & E). eapply IH; [|exact E|]; [lia|].
  apply held_push; [done|]. simpl. pose proof (as_u16_le i). lia.
Qed.

Lemma held_consume ni nc ty_args arg param d d' :
  consume_argument ty_args arg param d = Ret d' → held ni nc d → held ni nc d'.
Proof.
  unfold consume_argument. intros E Hd. destruct (_ || _); [by injection E as <-|].
  apply panics_bind_Ret in E as (ty & _ & E). apply panics_bind_Ret in E as (cs & Hcs & E).
  apply unwrap_Ret in Hcs. match type of E with context [set_existing ?e d] => set (E0 := e) in * end.
  assert (held ni nc (set_existing E0 d)) as Hs.
  { apply held_shrink; [done|]. intros ty' args x H Hx. unfold E0 in H.
    destruct (decide (ty' = ty)) as [->|Hne].
    - exists cs. split; [done|]. apply (elem_of_candidates_without arg).
      destruct (candidates_without arg cs) eqn:Ec; [by rewrite lookup_delete_eq in H|].
      rewrite lookup_insert_eq in H. congruence.
    - exists args. split; [|done].
      destruct (candidates_without arg cs); [by rewrite lookup_delete_ne in H|by rewrite lookup_insert_ne in H]. }
  clearbody E0. destruct arg; [|by injection E as <-|..];
    (destruct (is_hot_potato _); [apply panics_bind_Ret in E as (l & _ & E)|]; injection E as <-;
     repeat match goal with |- context [if ?b then _ else _] => destruct b end; exact Hs).
Qed.

Lemma held_return_values ni nc ty_args n i rets : ∀ j d d', N.to_nat i < nc →
  return_values meta ty_args n i j rets d = Ret d' → held ni nc d → held ni nc d'.
Proof.
  induction rets as [|ret rets IH]; intros j d d' Hi E Hd; [by injection E as <-|].
  cbn [return_values] in E. apply panics_bind_Ret in E as (d1 & E1 & E). eapply IH; [done|exact E|].
  clear IH E. unfold return_value in E1.
  assert (∀ inner, return_vector meta ty_args ret inner d = Ret d1 → held ni nc d1) as Hvec.
  { intros inner Ev. unfold return_vector in Ev. apply panics_bind_Ret in Ev as (ty & _ & Ev).
    destruct inner; try (by injection Ev as <-); try (destruct (ability_contains _ _); by injection Ev as <-).
    apply panics_bind_Ret in Ev as ([] & _ & Ev); try (by injection Ev as <-).
    match goal with s : StructTagOf _ |- _ => destruct s end. apply panics_bind_Ret in Ev as (a & _ & Ev). destruct (ability_contains _ _); by injection Ev as <-. }
  destruct ret; try (by eapply Hvec); apply panics_bind_Ret in E1 as (ty & _ & E1);
    (destruct ty; try (by injection E1 as <-); injection E1 as <-;
     match goal with |- context [push_existing ?t ?a ?g d] =>
       assert (held ni nc (push_existing t a g d)) as Hp by
         (apply held_push; [done|]; unfold result_argument; destruct (n =? 1)%nat; simpl; lia) end;
     repeat match goal with |- context [if ?b then _ else _] => destruct b end; exact Hp).
Qed.

Lemma held_scan_commands ni nc cmds : ∀ i d d', i + length cmds ≤ nc →
  scan_commands meta i cmds d = Ret d' → held ni nc d → held ni nc d'.
Proof.
  induction cmds as [|cmd cmds IH]; intros i d d' Hi E Hd; [by injection E as <-|].
  cbn [scan_commands] in E. apply panics_bind_Ret in E as (d1 & E1 & E). cbn [length] in Hi.
  eapply IH; [|exact E|]; [lia|]. clear IH E. destruct cmd; try (by injection E1 as <-).
  cbn [scan_command] in E1. apply panics_bind_Ret in E1 as (f & _ & E1).
  apply panics_bind_Ret in E1 as (d2 & E2 & E1). eapply held_return_values; [|exact E1|].
  { pose proof (as_u16_le i). lia. }
  clear E1. revert d d2 Hd E2. generalize (zip (mc_arguments mc) (fa_parameters f)) as args.
  induction args as [|[arg param] args IH]; intros d d2 Hd E2; [by injection E2 as <-|].
  cbn [consume_arguments] in E2. apply panics_bind_Ret in E2 as (d3 & E3 & E2).
  eapply IH; [|exact E2]. by eapply held_consume.
Qed.

Lemma held_from_ptb ptb d : from_ptb meta object_info ptb = Ret d →
  held (length (seq_inputs ptb)) (length (seq_commands ptb)) d.
Proof.
  unfold from_ptb. intros E. assert (∀ ni nc, held ni nc (push_used (fm_gas_id meta) object_data_new)) as H0.
  { intros ni nc ty args arg g H. simpl in H. by rewrite lookup_empty in H. }
  destruct (seq_commands ptb) as [|cmd cmds]; [injection E as <-; apply H0|].
  apply panics_bind_Ret in E as (d1 & E1 & E). eapply held_scan_commands; [|exact E|]; [done|].
  by eapply held_scan_inputs; [|exact E1|].
Qed.

Lemma held_remove_used ni nc arg d : held ni nc d → held ni nc (remove_used arg d).
Proof.
  intros Hd. unfold remove_used.
  assert (∀ l acc, (∀ t v, (t, v) ∈ l → od_existing_objects d !! t = Some v) →
    (∀ ty args x, acc.1 !! ty = Some args → x ∈ args → ∃ args', od_existing_objects d !! ty = Some args' ∧ x ∈ args') →
    ∀ ty args x, (fold_left (λ acc x, remove_used_from arg x acc) l acc).1 !! ty = Some args → x ∈ args →
      ∃ args', od_existing_objects d !! ty = Some args' ∧ x ∈ args') as Hfold.
  { induction l as [|[t v] l IH]; intros acc Hl Hacc; [exact Hacc|]. cbn [fold_left]. apply IH.
    { intros t' v' Hin. apply Hl. by right. }
    intros ty args x. unfold remove_used_from. destruct acc as [e hp]. destruct (forallb _ _); [apply Hacc|].
    simpl. destruct (decide (ty = t)) as [->|]; [|rewrite lookup_insert_ne by done; apply Hacc].
    rewrite lookup_insert_eq. intros [= <-] Hx. exists v. split; [apply Hl; left|].
    by eapply elem_of_candidates_without. }
  specialize (Hfold (tag_iter (od_existing_objects d)) (od_existing_objects d, od_hot_potatoes d)).
  destruct (fold_left _ _ _) as [e hp]. intros ty args a g H Hin. simpl in H.
  apply map_lookup_filter_Some in H as [H _].
  destruct (Hfold ltac:(intros; by apply elem_of_tag_iter) ltac:(eauto) ty args (a, g) H Hin) as (args' & ? & ?).
  by eapply Hd.
Qed.

Lemma held_from_ptb_and_remove_used ptb used d : from_ptb_and_remove_used meta object_info ptb used = Ret d →
  held (length (seq_inputs ptb)) (length (seq_commands ptb)) d.
Proof.
  intros E. apply panics_bind_Ret in E as (d0 & E0 & E). injection E as <-. apply held_from_ptb in E0.
  revert d0 E0. induction used as [|arg used IH]; intros d0 E0; [done|]. simpl. by apply IH, held_remove_used.
Qed.
End scope.

(** ** Runs that end *)
Section spin.
Context `{RL : RandLib}.
Lemma spin_bind_Ret {A B} (m : spin A) (k : A → spin B) r b r' :
  (m ≫= k) r = Ret (Some (b, r')) ↔ ∃ a r1, m r = Ret (Some (a, r1)) ∧ k a r1 = Ret (Some (b, r')).
Proof.
  unfold mbind, spin_mbind, mbind, panics_mbind. destruct (m r) as [[[a r1]|]|]; simpl; naive_solver.
Qed.
Lemma spin_mret_Ret {A} (a b : A) r r' : (mret a : spin A) r = Ret (Some (b, r')) ↔ a = b ∧ r' = r.
Proof. unfold mret, spin_mret. naive_solver. Qed.
Lemma draw_Ret {A} (m : rnd A) r a r' : draw m r = Ret (Some (a, r')) ↔ m r = Ret (a, r').
Proof. unfold draw. destruct (m r) as [[]|]; simpl; naive_solver. Qed.
Lemma call_Ret {A} (m : panics A) r a r' : call m r = Ret (Some (a, r')) ↔ m = Ret a ∧ r' = r.
Proof. unfold call. by rewrite draw_Ret, lift_Ret. Qed.
Lemma until_Ret {A} (m : rnd (option A)) r a r' : until m r = Ret (Some (a, r')) ↔ m r = Ret (Some a, r').
Proof. unfold until. destruct (m r) as [[[] ]|]; simpl; naive_solver. Qed.
End spin.

(** Take the last bind of a returning run apart. *)
Ltac spin_bind E x Hx :=
  let r1 := fresh "r" in apply spin_bind_Ret in E as (x & r1 & Hx & E).

(** ** Fresh values are no objects *)
Definition is_object (v : InputArgument) : bool := match v with Arg_Object _ _ => true | _ => false end.

Lemma commit_no_object bytes v v' : commit bytes v = Ret v' → is_object v' = false.
Proof.
  destruct v; cbn [commit]; try done; try (intros (n & _ & E)%panics_bind_Ret; by injection E as <-).
Qed.

Section values.
Context `{PG : PetGraph G} {Rand : Type} `{RL : RandLib}.
Context (meta : FuzzMetadata (G := G) (Rand := Rand)).
Context (havoc : ByteMutator → ByteMutator) (dword_interesting : ByteMutator) (redraw_fuel : nat).

Lemma mutate_no_object fuel pool split mv r res mv' r' : is_object (mv_value mv) = false →
  mutate meta havoc dword_interesting fuel pool split mv r = Ret (Some (res, mv'), r') →
  is_object (mv_value mv') = false.
Proof.
  intros Hv E. unfold mutate in E. destruct (mv_value mv) eqn:Ev; try done.
  all: try (apply mret_Ret in E as [[= <- <-] _]; by rewrite Ev).
  all: apply rnd_bind_Ret in E as (k & r1 & Ek & E).
  all: try (apply mret_Ret in E as [[= ->] _]; apply mutate_by_Ret in Ek as (b & b' & _ & Ec & _);
    by eapply commit_no_object).
  - by apply mret_Ret in E as [[= <- <-] _].
  - destruct k; apply mret_Ret in E as [E _]; [by injection E as <- <-|done].
  - apply rnd_bind_Ret in E as (a' & r2 & _ & E). by apply mret_Ret in E as [[= <- <-] _].
Qed.

Lemma gen_input_arg_no_object t v : gen_input_arg t = Ret (Some v) → is_object v = false.
Proof.
  revert v. induction t using MoveAbiSignatureToken_ind; intros w E; cbn [gen_input_arg] in E; try (by injection E as <-);
    try done.
  - apply panics_bind_Ret in E as ([u|] & _ & E); [|done]. apply panics_bind_Ret in E as (ty & _ & E). by injection E as <-.
  - apply panics_bind_Ret in E as (u & Hu & E). destruct (negb _); [|done]. injection E as ->. auto.
  - apply panics_bind_Ret in E as (u & Hu & E). destruct (negb _); [|done]. injection E as ->. auto.
Qed.

Lemma initial_value_no_object param r v r' :
  initial_value meta havoc dword_interesting redraw_fuel param r = Ret (Some (v, r')) → is_object v = false.
Proof.
  intros E. unfold initial_value in E. spin_bind E o Ho. spin_bind E v0 Hv. spin_bind E x Hx. destruct x as [res mv].
  apply spin_mret_Ret in E as [<- _]. apply call_Ret in Ho as [Ho ->], Hv as [Hv ->]. apply unwrap_Ret in Hv as ->.
  apply until_Ret in Hx. eapply mutate_no_object; [|exact Hx]. simpl. by eapply gen_input_arg_no_object.
Qed.
End values.

(** ** Re-using objects *)

(** An input the sequence does not have yet, if it is an object. *)
Definition fresh_object (ptb_inputs : list InputArgument) (input : InputArgument) : Prop :=
  match input with Arg_Object ty object => position (same_object ty object) ptb_inputs = None | _ => True end.

Lemma position_lt {A} (p : A → bool) l k : position p l = Some k → k < length l.
Proof.
  revert k. induction l as [|x l IH]; intros k E; [done|]. simpl in *. destruct (p x); [injection E as <-; lia|].
  apply fmap_Some in E as (j & Hj & ->). specialize (IH j Hj). lia.
Qed.
Lemma position_None {A} (p : A → bool) l x : position p l = None → x ∈ l → p x = false.
Proof.
  induction l as [|y l IH]; intros E Hx; [by apply elem_of_nil in Hx|]. simpl in E.
  destruct (p y) eqn:Ey; [done|]. apply fmap_None in E. apply elem_of_cons in Hx as [->|Hx]; auto.
Qed.

(** What becomes of the argument at one position. *)
Definition reused (ptb_inputs inputs : list InputArgument) (input_len : nat) (removed : list N)
    (fixed : Prop) (a a' : SequenceArgument) : Prop :=
  (fixed ∧ ∃ idx p, a = Input idx ∧ (idx - N.of_nat input_len)%N ∈ removed ∧ a' = Input (as_u16 p) ∧
     p < length ptb_inputs) ∨
  (¬ fixed ∧ a' = a ∧ ∀ idx, a = Input idx → input_len ≤ N.to_nat idx →
     ∃ input, inputs !! N.to_nat (idx - N.of_nat input_len) = Some input ∧ fresh_object ptb_inputs input).

Record reuse_spec ptb_inputs inputs input_len i (args : list SequenceArgument) (args' : list SequenceArgument) (fixed : list nat)
    (removed : list N) : Prop := {
  reuse_length : length args' = length args;
  reuse_fixed k : k ∈ fixed → i ≤ k;
  reuse_removed x : x ∈ removed → ∃ input, inputs !! N.to_nat x = Some input ∧ ¬ fresh_object ptb_inputs input;
  reuse_args k a a' : args !! k = Some a → args' !! k = Some a' →
    reused ptb_inputs inputs input_len removed (i + k ∈ fixed) a a' }.

Lemma reuse_spec_keep ptb_inputs inputs input_len i args args' fixed removed a :
  reuse_spec ptb_inputs inputs input_len (S i) args args' fixed removed →
  (∀ idx, a = Input idx → input_len ≤ N.to_nat idx →
     ∃ input, inputs !! N.to_nat (idx - N.of_nat input_len) = Some input ∧ fresh_object ptb_inputs input) →
  reuse_spec ptb_inputs inputs input_len i (a :: args) (a :: args') fixed removed.
Proof.
  intros [H1 H2 H3 H4] Ha. split; [simpl; congruence| |done|].
  - intros k Hk. specialize (H2 k Hk). lia.
  - intros [|k] b b' Hb Hb'; simpl in Hb, Hb'.
    + injection Hb as <-. injection Hb' as <-. right. split; [|done]. intros Hin. specialize (H2 _ Hin). lia.
    + rewrite <- plus_n_Sm. by apply H4.
Qed.

Lemma reuse_objects_spec ptb_inputs inputs input_len args : ∀ i params args' fixed removed,
  length args ≤ length params →
  reuse_objects ptb_inputs inputs input_len i args params = Ret (Some (args', fixed, removed)) →
  reuse_spec ptb_inputs inputs input_len i args args' fixed removed.
Proof.
  induction args as [|a args IH]; intros i params args' fixed removed Hl E.
  { destruct params; injection E as <- <- <-; split; try done; intros ? H; by apply elem_of_nil in H. }
  destruct params as [|param params]; [simpl in Hl; lia|]. simpl in Hl.
  cbn [reuse_objects] in E.
  assert (∀ b f r, (∃ args1 fixed1 removed1, reuse_spec ptb_inputs inputs input_len (S i) args args1 fixed1 removed1 ∧
      args' = b :: args1 ∧ fixed = f ++ fixed1 ∧ removed = r ++ removed1) ∨
    (o ← reuse_objects ptb_inputs inputs input_len (S i) args params; Ret (cons_reused b f r o)) ≠
    Ret (Some (args', fixed, removed))) as Hkeep.
  { intros b f r. destruct (reuse_objects ptb_inputs inputs input_len (S i) args params) as [[[[l fi] re]|]|] eqn:Er;
      [|by right..]. destruct (decide (args' = b :: l ∧ fixed = f ++ fi ∧ removed = r ++ re)) as [(-> & -> & ->)|Hne].
    - left. exists l, fi, re. split; [|done]. eapply IH; [|exact Er]. lia.
    - right. intros [= <- <- <-]. by apply Hne. }
  assert (∀ b, (∀ idx, b = Input idx → input_len ≤ N.to_nat idx →
      ∃ input, inputs !! N.to_nat (idx - N.of_nat input_len) = Some input ∧ fresh_object ptb_inputs input) →
    (o ← reuse_objects ptb_inputs inputs input_len (S i) args params; Ret (cons_reused b [] [] o)) =
    Ret (Some (args', fixed, removed)) → reuse_spec ptb_inputs inputs input_len i (b :: args) args' fixed removed) as Hsame.
  { intros b Hb Eb. destruct (Hkeep b [] []) as [(l & fi & re & Hs & -> & -> & ->)|Hne]; [|by destruct Hne].
    by apply reuse_spec_keep. }
  destruct a as [|idx|idx|idx j]; try (by apply Hsame).
  destruct (Nat.ltb_spec (N.to_nat idx) input_len) as [Hlt|Hge].
  { apply Hsame; [|exact E]. intros idx' [= <-]. lia. }
  apply panics_bind_Ret in E as (input & Hin & E). apply unwrap_Ret in Hin.
  destruct input as [| | | | | | | | | |ty object] eqn:Einput;
    try (apply Hsame; [intros idx' [= <-] _; eexists; split; [exact Hin|done]|exact E]).
  destruct (position (same_object ty object) ptb_inputs) as [p|] eqn:Ep.
  - destruct (is_reference param); [|done].
    destruct (Hkeep (Input (as_u16 p)) [i] [idx - N.of_nat input_len]%N) as [(l & fi & re & [H1 H2 H3 H4] & -> & -> & ->)|Hne];
      [|by destruct Hne].
    split.
    + simpl. congruence.
    + intros k [->|Hk]%elem_of_cons; [done|]. specialize (H2 k Hk). lia.
    + intros x [->|Hx]%elem_of_cons; [|by apply H3]. eexists. split; [exact Hin|]. simpl. by rewrite Ep.
    + intros [|k] b b' Hb Hb'; simpl in Hb, Hb'.
      * injection Hb as <-. injection Hb' as <-. left. split; [rewrite Nat.add_0_r; left|].
        exists idx, p. split; [done|]. split; [left|]. split; [done|]. by eapply position_lt.
      * specialize (H4 k b b' Hb Hb'). rewrite <- plus_n_Sm.
        destruct H4 as [[Hf (x & q & ? & ? & ?)]|[Hf ?]]; [left|right].
        -- split; [by right|]. exists x, q. split; [done|]. split; [by right|done].
        -- split; [|done]. intros [Hi|Hi]%elem_of_cons; [simpl in Hi; lia|by apply Hf].
  - apply Hsame; [|exact E]. intros idx' [= <-] _. eexists. split; [exact Hin|done].
Qed.

(** ** Well-formed sequences *)
Definition command_args (cmd : MoveSequenceCall) : list SequenceArgument :=
  match cmd with
  | Call mc => mc_arguments mc
  | TransferObjects args dst => args ++ [dst]
  | SplitCoins src amounts => src :: amounts
  | MergeCoins dst srcs => dst :: srcs
  | Publish _ _ => []
  | MakeMoveVec _ args => args
  | Upgrade _ _ _ ticket => [ticket]
  end.

(** Every command refers to inputs of the sequence and to earlier commands. *)
Definition scoped (inputs : nat) (cmds : list MoveSequenceCall) : Prop :=
  ∀ k cmd, cmds !! k = Some cmd → Forall (in_scope inputs k) (command_args cmd).

Lemma scoped_mono ni ni' cmds : ni ≤ ni' → scoped ni cmds → scoped ni' cmds.
Proof. intros H Hs k cmd Hk. eapply Forall_impl; [by eapply Hs|]. intros a. by apply in_scope_mono. Qed.

Lemma scoped_snoc ni cmds cmd : scoped ni cmds → Forall (in_scope ni (length cmds)) (command_args cmd) →
  scoped ni (cmds ++ [cmd]).
Proof.
  intros Hs Hc k c Hk. destruct (decide (k < length cmds)).
  - rewrite lookup_app_l in Hk by done. by eapply Hs.
  - rewrite lookup_app_r in Hk by lia. apply list_lookup_singleton_Some in Hk as [Hk <-].
    by replace k with (length cmds) by lia.
Qed.

Lemma Forall_in_scope_mono ni nc ni' nc' args : ni ≤ ni' → nc ≤ nc' →
  Forall (in_scope ni nc) args → Forall (in_scope ni' nc') args.
Proof. intros Hi Hc H. eapply Forall_impl; [exact H|]. intros a. by apply in_scope_mono. Qed.

Lemma split_arguments_spec tys n args : ∀ params cmds inputs args' cmds' inputs',
  split_arguments tys n args params cmds inputs = Ret (args', cmds', inputs') →
  (∃ k, cmds' = cmds ++ k) ∧ (∃ k, inputs' = inputs ++ replicate k (Arg_U64 0)) ∧
  (scoped (n + length inputs) cmds → Forall (in_scope (n + length inputs) (length cmds)) args →
   scoped (n + length inputs') cmds' ∧ Forall (in_scope (n + length inputs') (length cmds')) args').
Proof.
  induction args as [|a args IH]; intros params cmds inputs args' cmds' inputs' E.
  { destruct params; injection E as <- <- <-; (split; [exists []; by rewrite app_nil_r|]);
      (split; [exists 0; by rewrite app_nil_r|done]). }
  destruct params as [|param params].
  { injection E as <- <- <-. split; [exists []; by rewrite app_nil_r|]. split; [exists 0; by rewrite app_nil_r|done]. }
  cbn [split_arguments] in E. destruct (is_balance param || is_coin param).
  - apply panics_bind_Ret in E as (ty & _ & E). destruct ty; try done.
    match goal with s : StructTagOf _ |- _ => destruct s end.
    apply panics_bind_Ret in E as (amount & Ha & E). apply panics_bind_Ret in E as ([[l k] ins] & Er & E).
    injection E as <- <- <-. destruct (IH _ _ _ _ _ _ Er) as ([k1 ->] & [k2 ->] & Hs).
    split; [rewrite <- app_assoc; by eexists|]. split; [exists (S k2); by rewrite <- app_assoc|].
    intros Hc Hargs. apply Forall_cons in Hargs as [Hhead Hargs].
    rewrite !length_app in *. simpl in Hs. unfold u16_sub in Ha. destruct (1 <=? _)%N eqn:Hle; [|done].
    injection Ha as <-. apply N.leb_le in Hle.
    destruct Hs as [Hs1 Hs2].
    + apply scoped_snoc; [eapply scoped_mono; [|exact Hc]; lia|]. constructor.
      * eapply in_scope_mono; [| |exact Hhead]; lia.
      * constructor; [|done]. cbn [in_scope]. pose proof (as_u16_le (n + (length inputs + 1))). simpl in *. lia.
    + eapply Forall_in_scope_mono; [| |exact Hargs]; lia.
    + rewrite length_replicate in *. split; [eapply scoped_mono; [|exact Hs1]; simpl; lia|].
      constructor; [simpl; pose proof (as_u16_le (length cmds)); lia|].
      eapply Forall_in_scope_mono; [| |exact Hs2]; simpl; lia.
  - apply panics_bind_Ret in E as ([[l k] ins] & Er & E). injection E as <- <- <-.
    destruct (IH _ _ _ _ _ _ Er) as ([k1 ->] & [k2 ->] & Hs). split; [by eexists|]. split; [by eexists|].
    intros Hc Hargs. apply Forall_cons in Hargs as [Hhead Hargs]. destruct (Hs Hc Hargs) as [Hs1 Hs2].
    split; [done|]. constructor; [|done]. eapply in_scope_mono; [| |exact Hhead]; rewrite ?length_app; lia.
Qed.

(** *** Objects *)
Definition input_ids (inputs : list InputArgument) : list MoveAddress :=
  omap (λ v, match v with Arg_Object _ o => Some (object_arg_id o) | _ => None end) inputs.

Lemma input_ids_app l k : input_ids (l ++ k) = input_ids l ++ input_ids k.
Proof. apply omap_app. Qed.
Lemma elem_of_input_ids inputs id :
  id ∈ input_ids inputs ↔ ∃ ty o, Arg_Object ty o ∈ inputs ∧ object_arg_id o = id.
Proof.
  unfold input_ids. rewrite list_elem_of_omap. split.
  - intros (v & Hv & E). destruct v; try done. injection E as <-. by eexists _, _.
  - intros (ty & o & Hv & <-). by exists (Arg_Object ty o).
Qed.
Lemma input_ids_no_object inputs : Forall (λ v, is_object v = false) inputs → input_ids inputs = [].
Proof. induction 1 as [|v l Hv _ IH]; [done|]. simpl. destruct v; simpl in *; done. Qed.

(** The kept elements of a list. *)
Definition input_at (inputs : list InputArgument) (k : nat) : InputArgument := default (Arg_Bool false) (inputs !! k).
Lemma remove_all_inputs r inputs : StronglySorted N.lt r → (∀ k, k ∈ r → N.to_nat k < length inputs) →
  remove_all (reverse r) inputs = Ret (map (input_at inputs) (kept_idxs r (length inputs))).
Proof.
  intros Hs Hr. assert (Hin : inputs = map (input_at inputs) (seq 0 (length inputs))).
  { apply list_eq. intros k. unfold input_at. rewrite list_lookup_fmap.
    destruct (decide (k < length inputs)) as [Hk|Hk].
    - rewrite lookup_seq_lt by done. simpl. by destruct (lookup_lt_is_Some_2 inputs k Hk) as [c ->].
    - rewrite (lookup_ge_None_2 inputs) by lia. by rewrite lookup_seq_ge by lia. }
  rewrite Hin at 1. apply remove_all_map. by apply remove_all_seq.
Qed.

Lemma sort_idxs_lt l : StronglySorted N.lt (sort_idxs l).
Proof.
  unfold sort_idxs, sort_dedup. destruct (NoDup_dedup N.le (merge_sort N.le l)) as [Hs Hn].
  { apply StronglySorted_merge_sort; apply _. }
  revert Hs Hn. generalize (dedup (merge_sort N.le l)). intros k. induction 1 as [|x k Hs IH Hx]; intros Hn; constructor.
  - apply IH. by apply NoDup_cons in Hn as [_ ?].
  - apply NoDup_cons in Hn as [Hn _]. rewrite Forall_forall in *. intros y Hy. specialize (Hx y Hy).
    assert (x ≠ y) by (by intros ->). lia.
Qed.

Section append_spec.
Context `{PG : PetGraph G} {Rand : Type} `{RL : RandLib}.
Context (meta : FuzzMetadata (G := G) (Rand := Rand)) (object_info : MoveAddress → option MoveObjectInfo).
Context (havoc : ByteMutator → ByteMutator) (dword_interesting : ByteMutator) (redraw_fuel : nat).

(** An object input is the one made of the object in the store. *)
Definition standard (input : InputArgument) : Prop :=
  match input with
  | Arg_Object _ o => object_info (object_arg_id o) ≫= object_input (object_arg_id o) = Some input
  | _ => True
  end.

(** Commands refer backwards, and no object is an input twice. *)
Record wf_sequence (ptb : MoveSequence) : Prop := {
  wf_scoped : scoped (length (seq_inputs ptb)) (seq_commands ptb);
  wf_objects : NoDup (input_ids (seq_inputs ptb));
  wf_standard : Forall standard (seq_inputs ptb) }.

Definition extends (ptb ptb' : MoveSequence) : Prop :=
  (∃ k, seq_inputs ptb' = seq_inputs ptb ++ k) ∧ (∃ k, seq_commands ptb' = seq_commands ptb ++ k).

(** The appended call is the last command; it takes the arguments and gives the values returned. *)
Definition appended (ident : FunctionIdent) (ptb' : MoveSequence)
    (r : option (list SequenceArgument * list SequenceArgument)) : Prop :=
  match r with
  | None => True
  | Some (args, rets) => ∃ cmds tys f,
      seq_commands ptb' = cmds ++ [Call {| mc_module_id := module_address (fi_module ident);
        mc_module_name := module_name (fi_module ident); mc_function := fi_name ident;
        mc_type_arguments := tys; mc_arguments := args |}] ∧
      get_function (fm_base meta) (module_address (fi_module ident)) (module_name (fi_module ident)) (fi_name ident)
        = Some f ∧
      length tys = length (fa_type_parameters f) ∧
      rets = returned_values (length (fa_return_paramters f)) (as_u16 (length cmds))
  end.

Lemma extends_refl ptb : extends ptb ptb.
Proof. split; exists []; by rewrite app_nil_r. Qed.
Lemma extends_trans p q r : extends p q → extends q r → extends p r.
Proof. intros [[a Ha] [b Hb]] [[c Hc] [d Hd]]. split; [rewrite Hc, Ha|rewrite Hd, Hb]; rewrite <- app_assoc; by eexists. Qed.
Lemma sequence_extends_length p q : extends p q →
  length (seq_inputs p) ≤ length (seq_inputs q) ∧ length (seq_commands p) ≤ length (seq_commands q).
Proof. intros [[a ->] [b ->]]. rewrite !length_app. lia. Qed.

(** What the last part of [append_function] relies on. *)
Record ready (ptb : MoveSequence) (ni : nat) (params : nat) (arguments : list SequenceArgument)
    (inputs : list InputArgument) : Prop := {
  ready_length : length arguments ≤ params;
  ready_scope : Forall (in_scope (ni + length inputs) (length (seq_commands ptb))) arguments;
  ready_standard : Forall standard inputs;
  ready_objects : NoDup (input_ids inputs);
  ready_covered k ty o : inputs !! k = Some (Arg_Object ty o) → Input (N.of_nat (ni + k)) ∈ arguments;
  ready_inputs : ni ≤ length (seq_inputs ptb);
  ready_bound : (N.of_nat (length inputs) < 65536)%N }.

Lemma standard_fresh inputs ty o : Forall standard inputs → standard (Arg_Object ty o) →
  fresh_object inputs (Arg_Object ty o) → object_arg_id o ∉ input_ids inputs.
Proof.
  intros Hs Ho Hf Hin. apply elem_of_input_ids in Hin as (ty' & o' & Hin & Hid).
  rewrite Forall_forall in Hs. specialize (Hs _ Hin). simpl in Hs, Ho. rewrite Hid, Ho in Hs.
  injection Hs as -> ->. simpl in Hf. apply (position_None _ _ _ Hf) in Hin. simpl in Hin.
  by rewrite !bool_decide_eq_true_2 in Hin.
Qed.

Lemma input_ids_kept inputs r n : NoDup (input_ids inputs) → n = length inputs →
  NoDup (input_ids (map (input_at inputs) (kept_idxs r n))).
Proof.
  intros Hnd ->. assert (map (input_at inputs) (kept_idxs r (length inputs)) `sublist_of` inputs) as Hsub.
  { assert (Hin : map (input_at inputs) (seq 0 (length inputs)) = inputs).
    { apply list_eq. intros k. unfold input_at. rewrite list_lookup_fmap.
      destruct (decide (k < length inputs)) as [Hk|Hk].
      - rewrite lookup_seq_lt by done. simpl. by destruct (lookup_lt_is_Some_2 inputs k Hk) as [c ->].
      - rewrite (lookup_ge_None_2 inputs) by lia. by rewrite lookup_seq_ge by lia. }
    rewrite <- Hin at 3. unfold kept_idxs. generalize (seq 0 (length inputs)). intros l.
    induction l as [|x l IH]; [constructor|]. simpl. destruct (negb _); simpl; by constructor. }
  eapply sublist_NoDup; [exact Hnd|]. unfold input_ids. clear Hnd. induction Hsub as [|x l k _ IH|x l k _ IH]; simpl.
  - constructor.
  - destruct x; simpl; try exact IH. by constructor.
  - destruct x; simpl; try exact IH. by constructor.
Qed.

Lemma adjust_arguments_spec fixed R ni grown args : ∀ i args',
  adjust_arguments fixed R ni grown i args = Ret args' → length args' = length args ∧
  ∀ k a', args' !! k = Some a' → ∃ a, args !! k = Some a ∧ adjust_argument fixed R ni grown (i + k) a = Ret a'.
Proof.
  induction args as [|a args IH]; intros i args' E; cbn [adjust_arguments] in E; [by injection E as <-|].
  apply panics_bind_Ret in E as (b & Hb & E). apply panics_bind_Ret in E as (l & Hl & E). injection E as <-.
  destruct (IH _ _ Hl) as [Hlen Hk]. split; [simpl; congruence|]. intros [|k] a' Ha'; simpl in Ha'.
  - injection Ha' as <-. exists a. rewrite Nat.add_0_r. done.
  - rewrite <- plus_n_Sm. by apply Hk.
Qed.

Lemma length_bounded (R : list N) n : NoDup R → (∀ x, x ∈ R → N.to_nat x < n) → length R ≤ n.
Proof.
  intros Hnd Hr. rewrite <- (length_map N.to_nat R), <- (length_seq n 0). apply submseteq_length, NoDup_submseteq.
  - apply NoDup_fmap_2; [intros ??; lia|done].
  - intros x (y & -> & Hy)%list_elem_of_fmap. apply elem_of_seq. specialize (Hr y Hy). lia.
Qed.

(** The arguments after the adjustment. *)
Lemma adjusted_in_scope ptb ni params args inputs args1 fixed removed args2 :
  ready ptb ni params args inputs →
  reuse_spec (seq_inputs ptb) inputs ni 0 args args1 fixed removed →
  adjust_arguments fixed (sort_idxs removed) ni (length (seq_inputs ptb) - ni) 0 args1 = Ret args2 →
  Forall (in_scope (length (seq_inputs ptb) + length (kept_idxs (sort_idxs removed) (length inputs)))
    (length (seq_commands ptb))) args2.
Proof.
  intros [Hlen Hscope _ _ _ Hni Hbound] Hreuse Hadj. set (R := sort_idxs removed) in *.
  assert (∀ x, x ∈ R ↔ x ∈ removed) as HR by (intros x; apply elem_of_sort_dedup).
  pose proof (NoDup_sorted R (sort_idxs_lt removed)) as Hnd.
  assert (length R ≤ length inputs) as HlenR.
  { apply length_bounded; [done|]. intros x Hx. apply HR in Hx.
    destruct (reuse_removed _ _ _ _ _ _ _ _ Hreuse x Hx) as (v & Hv & _). by apply lookup_lt_Some in Hv. }
  destruct (adjust_arguments_spec _ _ _ _ _ _ _ Hadj) as [Hl2 H2]. apply Forall_lookup. intros k a2 Ha2.
  destruct (H2 k a2 Ha2) as (a1 & Ha1 & E). simpl in E.
  destruct (lookup_lt_is_Some_2 args k) as [a Ha].
  { apply lookup_lt_Some in Ha1. rewrite (reuse_length _ _ _ _ _ _ _ _ Hreuse) in Ha1. done. }
  pose proof (proj1 (Forall_lookup _ _) Hscope k a Ha) as Hsc.
  destruct (reuse_args _ _ _ _ _ _ _ _ Hreuse k a a1 Ha Ha1) as
    [(Hf & idx & p & _ & _ & -> & Hp)|(Hf & -> & Hfresh)]; simpl in Hf.
  { cbn [adjust_argument] in E. rewrite bool_decide_eq_true_2 in E by done. injection E as <-. simpl.
    pose proof (as_u16_le p). lia. }
  destruct a as [|idx|idx|idx j]; cbn [adjust_argument] in E; try (injection E as <-; exact Hsc).
  rewrite bool_decide_eq_false_2 in E by done. cbn [orb] in E.
  destruct (Nat.ltb_spec (N.to_nat idx) ni) as [Hlt|Hge]; [injection E as <-; simpl; lia|].
  apply panics_bind_Ret in E as (idx1 & E1 & E). apply panics_bind_Ret in E as (idx2 & E2 & E). injection E as <-.
  destruct (Hfresh idx eq_refl Hge) as (input & Hin & Hfr). set (offset := (idx - N.of_nat ni)%N) in *.
  assert (N.to_nat offset ∈ kept_idxs R (length inputs)) as Hk.
  { apply elem_of_kept. rewrite N2Nat.id. split; [by apply lookup_lt_Some in Hin|]. intros Hr%HR.
    destruct (reuse_removed _ _ _ _ _ _ _ _ Hreuse _ Hr) as (v & Hv & Hnf). rewrite Hin in Hv. by simplify_eq. }
  apply list_elem_of_lookup in Hk as [j Hj]. apply lookup_lt_Some in Hj as Hjl.
  pose proof (shift_kept _ _ _ _ Hnd Hj) as Hs. rewrite N2Nat.id in Hs. unfold shift in Hs.
  assert (length (List.filter (λ x, (x <? offset)%N) R) ≤ length R) as Hcount by apply List.filter_length_le.
  rewrite as_u16_of_nat in E1 by lia. unfold u16_sub in E1. unfold u16_add in E2.
  destruct (_ <=? _)%N in E1; [|done]. injection E1 as <-. destruct (_ <? _)%N in E2; [|done]. injection E2 as <-.
  simpl. pose proof (as_u16_le (length (seq_inputs ptb) - ni)). unfold offset in *. lia.
Qed.

(** The inputs that stay are objects the sequence does not have. *)
Lemma kept_objects_fresh ptb ni params args inputs args1 fixed removed :
  ready ptb ni params args inputs → Forall standard (seq_inputs ptb) →
  reuse_spec (seq_inputs ptb) inputs ni 0 args args1 fixed removed →
  Forall (λ v, standard v) (map (input_at inputs) (kept_idxs (sort_idxs removed) (length inputs))) ∧
  ∀ id, id ∈ input_ids (map (input_at inputs) (kept_idxs (sort_idxs removed) (length inputs))) →
    id ∉ input_ids (seq_inputs ptb).
Proof.
  intros [Hlen _ Hstd _ Hcov Hni Hbound] Hstd0 Hreuse. split.
  - apply Forall_fmap, Forall_forall. intros k Hk. apply elem_of_kept in Hk as [Hk _].
    destruct (lookup_lt_is_Some_2 inputs k Hk) as [v Hv]. simpl. unfold input_at. rewrite Hv. simpl.
    by eapply (proj1 (Forall_lookup _ _) Hstd).
  - intros id Hid. apply elem_of_input_ids in Hid as (ty & o & Hin & <-).
    apply list_elem_of_fmap in Hin as (x & Hx & Hk). apply elem_of_kept in Hk as [Hk Hnr].
    destruct (lookup_lt_is_Some_2 inputs x Hk) as [v Hv]. unfold input_at in Hx. rewrite Hv in Hx. simpl in Hx. subst v.
    apply standard_fresh with (ty := ty); [done|by eapply (proj1 (Forall_lookup _ _) Hstd)|].
    pose proof (Hcov x ty o Hv) as Harg. apply list_elem_of_lookup in Harg as [k Ha].
    destruct (lookup_lt_is_Some_2 args1 k) as [a1 Ha1].
    { rewrite (reuse_length _ _ _ _ _ _ _ _ Hreuse). by eapply lookup_lt_Some. }
    assert (N.of_nat (ni + x) - N.of_nat ni = N.of_nat x)%N as Hoff by lia.
    destruct (reuse_args _ _ _ _ _ _ _ _ Hreuse k _ _ Ha Ha1) as
      [(_ & idx & p & [= <-] & Hrem & _)|(_ & _ & Hfresh)].
    + exfalso. apply Hnr. unfold sort_idxs. apply elem_of_sort_dedup. by rewrite Hoff in Hrem.
    + destruct (Hfresh _ eq_refl ltac:(lia)) as (v & Hv' & Hf). rewrite Hoff, Nat2N.id, Hv in Hv'. by injection Hv' as <-.
Qed.

Lemma finish_call_spec ident f ds ni ptb args tys inputs ptb' r :
  get_function (fm_base meta) (module_address (fi_module ident)) (module_name (fi_module ident)) (fi_name ident) = Some f →
  finish_call ident f ds ni ptb args tys inputs = Ret (ptb', r) →
  extends ptb ptb' ∧
  (wf_sequence ptb → ready ptb ni (length (fa_parameters f)) args inputs → wf_sequence ptb' ∧ appended ident ptb' r).
Proof.
  intros Hf E. unfold finish_call in E. apply panics_bind_Ret in E as (o & Er & E).
  destruct o as [[[args1 fixed] removed]|]; [|injection E as <- <-; split; [apply extends_refl|done]].
  apply panics_bind_Ret in E as (inputs1 & Ei & E). apply panics_bind_Ret in E as (args2 & Ea & E).
  apply panics_bind_Ret in E as ([[args3 cmds3] inputs3] & Es & E).
  destruct (Nat.eqb_spec (length tys) (length (fa_type_parameters f))) as [Htys|]; [|done]. injection E as <- <-.
  assert (∃ kc ki, cmds3 = seq_commands ptb ++ kc ∧ inputs3 = inputs1 ++ replicate ki (Arg_U64 0) ∧
    (scoped (length (seq_inputs ptb) + length inputs1) (seq_commands ptb) →
     Forall (in_scope (length (seq_inputs ptb) + length inputs1) (length (seq_commands ptb))) args2 →
     scoped (length (seq_inputs ptb) + length inputs3) cmds3 ∧
     Forall (in_scope (length (seq_inputs ptb) + length inputs3) (length cmds3)) args3)) as (kc & ki & Hc & Hi & Hs).
  { destruct ds; [injection Es as <- <- <-; exists [], 0; rewrite !app_nil_r; done|].
    apply split_arguments_spec in Es as ([kc ->] & [ki ->] & Hs). by exists kc, ki. }
  clear Es. split; [split; simpl; [by eexists|rewrite Hc, <- app_assoc; by eexists]|].
  intros [Hw1 Hw2 Hw3] Hready. pose proof (ready_length _ _ _ _ _ Hready) as Hlen.
  pose proof (reuse_objects_spec _ _ _ _ _ _ _ _ _ Hlen Er) as Hreuse.
  rewrite remove_all_inputs in Ei; [|apply sort_idxs_lt|].
  2: { intros x Hx. unfold sort_idxs in Hx. rewrite elem_of_sort_dedup in Hx.
       destruct (reuse_removed _ _ _ _ _ _ _ _ Hreuse x Hx) as (v & Hv & _). by apply lookup_lt_Some in Hv. }
  injection Ei as <-.
  pose proof (adjusted_in_scope _ _ _ _ _ _ _ _ _ Hready Hreuse Ea) as Hargs2.
  rewrite <- (length_map (input_at inputs)) in Hargs2.
  destruct (kept_objects_fresh _ _ _ _ _ _ _ _ Hready Hw3 Hreuse) as [Hstd Hfresh].
  pose proof (input_ids_kept inputs (sort_idxs removed) (length inputs) (ready_objects _ _ _ _ _ Hready) eq_refl) as Hnd.
  set (inputs1 := map (input_at inputs) (kept_idxs (sort_idxs removed) (length inputs))) in *.
  destruct Hs as [Hs1 Hs2]; [by eapply scoped_mono; [|exact Hw1]; lia|exact Hargs2|].
  assert (input_ids (replicate ki (Arg_U64 0)) = []) as Hnoid by (apply input_ids_no_object, Forall_replicate; done).
  split; [split; cbn [seq_inputs seq_commands]|].
  - rewrite length_app. apply scoped_snoc; [done|]. exact Hs2.
  - rewrite Hi, !input_ids_app, Hnoid, app_nil_r. apply NoDup_app. split_and!; [done| |done].
    intros id Hid Hid'. by apply (Hfresh id).
  - rewrite Hi. repeat apply Forall_app_2; [done|done|]. by apply Forall_replicate.
  - simpl. eexists cmds3, tys, f. by split_and!.
Qed.

(** ** Filling in the arguments *)
Abbreviation FixedArgs := (gmap N (SequenceArgument * MoveTypeTag)).

(** The parameters from position [i] on that need an object. *)
Fixpoint needed (fixed_args : FixedArgs) (i : nat) (params : list MoveAbiSignatureToken) : nat :=
  match params with
  | [] => 0
  | p :: params =>
      (if bool_decide (is_Some (fixed_args !! as_u16 i)) then 0 else if needs_sample p then 1 else 0)
      + needed fixed_args (S i) params
  end.

Lemma struct_params_length fixed_args params : length (struct_params fixed_args params) = needed fixed_args 0 params.
Proof.
  unfold struct_params. replace (imap pair params) with (imap (λ j p, (0 + j, p)) params) by done.
  generalize 0. induction params as [|p params IH]; intros i; [done|]. cbn [imap needed omap list_omap].
  rewrite Nat.add_0_r. replace (imap ((λ j p0, (i + j, p0)) ∘ S) params) with (imap (λ j p, (S i + j, p)) params).
  2: { apply imap_ext. intros j x _. simpl. f_equal. lia. }
  specialize (IH (S i)). destruct (bool_decide _); [exact IH|]. destruct (needs_sample p); simpl; [f_equal|]; exact IH.
Qed.

Lemma tx_context_not_sampled p : is_tx_context p = true → needs_sample p = false.
Proof. intros H. destruct p; cbn [needs_sample]; try done; by rewrite H. Qed.


Lemma complete_arguments_spec fixed_args ni nc params : ∀ i args inputs arguments r arguments' inputs' r',
  complete_arguments meta havoc dword_interesting redraw_fuel fixed_args ni i params args inputs arguments r
    = Ret (Some ((arguments', inputs'), r')) →
  length args = needed fixed_args i params →
  ∃ new vals, arguments' = arguments ++ new ∧ inputs' = inputs ++ vals ∧
    Forall (λ v, is_object v = false) vals ∧ length new ≤ length params ∧
    length vals + needed fixed_args i params ≤ length params ∧ (∀ a, a ∈ args → a ∈ new) ∧
    (Forall (in_scope (ni + length inputs) nc) args → map_Forall (λ _ x, in_scope ni nc x.1) fixed_args →
     Forall (in_scope (ni + length inputs') nc) new).
Proof.
  induction params as [|p params IH]; intros i args inputs arguments r arguments' inputs' r' E Hl.
  { apply spin_mret_Ret in E as [[= <- <-] _]. exists [], []. rewrite !app_nil_r. simpl in Hl.
    destruct args; [|done]. by split_and!. }
  cbn [complete_arguments] in E. cbn [needed] in *.
  destruct (fixed_args !! as_u16 i) as [[arg ty]|] eqn:Ef.
  - rewrite bool_decide_eq_true_2 in * by by eexists. destruct (IH _ _ _ _ _ _ _ _ E Hl) as
      (new & vals & -> & -> & Hv & Hn & Hb & Ha & Hs).
    exists (arg :: new), vals. rewrite <- app_assoc. split_and!; try done; [simpl; lia|simpl in *; lia|intros a Hin; right; by apply Ha|].
    intros H1 H2. constructor; [|by apply Hs]. specialize (H2 _ _ Ef). eapply in_scope_mono; [| |exact H2]; lia.
  - rewrite bool_decide_eq_false_2 in * by by intros []. destruct (is_tx_context p) eqn:Etx.
    { rewrite (tx_context_not_sampled p Etx) in *. destruct (IH _ _ _ _ _ _ _ _ E Hl) as
        (new & vals & -> & -> & Hv & Hn & Hb & Ha & Hs). exists new, vals. split_and!; try done; simpl; lia. }
    destruct (needs_sample p) eqn:Ens.
    + destruct args as [|arg args]; [by apply call_Ret in E as [? _]|]. simpl in Hl.
      destruct (IH _ _ _ _ _ _ _ _ E ltac:(lia)) as (new & vals & -> & -> & Hv & Hn & Hb & Ha & Hs).
      exists (arg :: new), vals. rewrite <- app_assoc. split_and!; try done; [simpl; lia|simpl; lia| |].
      * intros a [->|Hin]%elem_of_cons; [left|right; by apply Ha].
      * intros H1 H2. apply Forall_cons in H1 as [H1 H1']. constructor; [|by apply Hs].
        eapply in_scope_mono; [| |exact H1]; rewrite ?length_app; lia.
    + spin_bind E v Hv. apply initial_value_no_object in Hv.
      destruct (IH _ _ _ _ _ _ _ _ E Hl) as (new & vals & -> & -> & Hvs & Hn & Hb & Ha & Hs).
      exists (Input (as_u16 (ni + length (inputs ++ [v]) - 1)) :: new), (v :: vals).
      rewrite <- !app_assoc. split_and!; try done; [by constructor|simpl; lia|simpl; lia|intros a Hin; right; by apply Ha|].
      intros H1 H2. constructor.
      * simpl. pose proof (as_u16_le (ni + length (inputs ++ [v]) - 1)). rewrite !length_app in *. simpl in *. lia.
      * rewrite <- app_assoc in Hs. apply Hs; [|done]. eapply Forall_in_scope_mono; [| |exact H1]; rewrite ?length_app; lia.
Qed.

(** ** Producing arguments *)
Context (max_params : nat).
Hypothesis max_params_known : ∀ addr m f abi, get_function (fm_base meta) addr m f = Some abi →
  length (fa_parameters abi) ≤ max_params.

(** Room for the inputs of one more call. *)
Definition bounded (ptb : MoveSequence) : Prop := (N.of_nat (length (seq_inputs ptb) + max_params) < 65536)%N.
Lemma bounded_mono p q : extends p q → bounded q → bounded p.
Proof. intros H%sequence_extends_length. unfold bounded. lia. Qed.

Definition fixed_in_scope (fixed_args : FixedArgs) (ptb : MoveSequence) : Prop :=
  map_Forall (λ _ x, in_scope (length (seq_inputs ptb)) (length (seq_commands ptb)) x.1) fixed_args.

(** The contract of [append_function]. *)
Definition appends (append : MoveSequence → FunctionIdent → FixedArgs → TyArgs → list SequenceArgument → bool →
    spin (MoveSequence * option (list SequenceArgument * list SequenceArgument))) : Prop :=
  ∀ ptb ident fixed_args fixed_ty_args used disable_split r ptb' res r',
  append ptb ident fixed_args fixed_ty_args used disable_split r = Ret (Some ((ptb', res), r')) →
  extends ptb ptb' ∧
  (bounded ptb' → wf_sequence ptb → fixed_in_scope fixed_args ptb → wf_sequence ptb' ∧ appended ident ptb' res).

Lemma returned_in_scope n (cmds : list MoveSequenceCall) ni ret k : returned_values n (as_u16 (length cmds)) !! k = Some ret →
  in_scope ni (S (length cmds)) ret.
Proof.
  unfold returned_values. pose proof (as_u16_le (length cmds)). destruct (n =? 1)%nat.
  - destruct k; intros [= <-]; simpl; lia.
  - rewrite list_lookup_fmap. intros (j & _ & ->)%fmap_Some. simpl. lia.
Qed.

(** One step of the loop over the parameters, or the rest of it. *)
Definition progress_spec (ni : nat) (fixed_args : FixedArgs) (need params : nat) (s s' : Partial) : Prop :=
  extends (pa_ptb s) (pa_ptb s') ∧ ∃ gone new vals,
  pa_partial_args s = gone ++ pa_partial_args s' ∧ length gone = need ∧
  pa_arguments s' = pa_arguments s ++ new ∧ pa_inputs s' = pa_inputs s ++ vals ∧
  Forall (λ v, is_object v = false) vals ∧ length new ≤ params ∧ length vals + need ≤ params ∧
  (∀ a, Some a ∈ gone → a ∈ new) ∧
  (bounded (pa_ptb s') → wf_sequence (pa_ptb s) → wf_sequence (pa_ptb s')) ∧
  (bounded (pa_ptb s') → wf_sequence (pa_ptb s) →
   map_Forall (λ _ x, in_scope ni (length (seq_commands (pa_ptb s))) x.1) fixed_args →
   (∀ a, Some a ∈ gone → in_scope (ni + length (pa_inputs s)) (length (seq_commands (pa_ptb s))) a) →
   Forall (in_scope (ni + length (pa_inputs s')) (length (seq_commands (pa_ptb s')))) new).
Definition stop_spec (s : Partial) (ptb' : MoveSequence) : Prop :=
  extends (pa_ptb s) ptb' ∧ (bounded ptb' → wf_sequence (pa_ptb s) → wf_sequence ptb').

Lemma push_argument_spec ni fixed_args need gone arg s s0 :
  pa_ptb s = pa_ptb s0 → pa_arguments s = pa_arguments s0 → pa_inputs s = pa_inputs s0 →
  pa_partial_args s0 = gone ++ pa_partial_args s → length gone = need → need ≤ 1 → (∀ a, Some a ∈ gone → a = arg) →
  (map_Forall (λ _ x, in_scope ni (length (seq_commands (pa_ptb s0))) x.1) fixed_args →
   (∀ a, Some a ∈ gone → in_scope (ni + length (pa_inputs s0)) (length (seq_commands (pa_ptb s0))) a) →
   in_scope (ni + length (pa_inputs s0)) (length (seq_commands (pa_ptb s0))) arg) →
  progress_spec ni fixed_args need 1 s0 (push_argument arg s).
Proof.
  intros E1 E2 E3 E4 Hg Hn Ha Hs. unfold progress_spec. simpl. rewrite E1. split; [apply extends_refl|].
  exists gone, [arg], []. rewrite E2, E3, app_nil_r. split_and!; try done; simpl.
  - intros a Hin. rewrite (Ha a Hin). left.
  - intros _ Hw Hf Hgone. constructor; [by apply Hs|done].
Qed.

Lemma produce_argument_spec append ni fixed_args excluded ty_args param missing s r x r' : appends append →
  produce_argument meta append excluded ty_args param missing s r = Ret (Some (x, r')) →
  match x with
  | inr ptb' => stop_spec s ptb'
  | inl s' => progress_spec ni fixed_args 0 1 s s' ∧ pa_inputs s' = pa_inputs s
  end.
Proof.
  intros Happ E. unfold produce_argument in E.
  assert (stop_spec s (pa_ptb s)) as Hstop by (split; [apply extends_refl|done]).
  destruct (find_producers _ _ _ _) as [|f0 fs]; [by apply spin_mret_Ret in E as [<- _]|].
  spin_bind E pre Hpre. destruct pre as [m abi].
  destruct (producing_return _ _ _) as [[[[arg_ty other] mapping] idx]|]; [|by apply spin_mret_Ret in E as [<- _]].
  destruct (agree_ty_args _ _ _) as [other'|]; [|by apply spin_mret_Ret in E as [<- _]].
  spin_bind E o Ho. destruct o as [ptb o].
  destruct (Happ _ _ _ _ _ _ _ _ _ _ Ho) as [Hext Hwf].
  destruct o as [[args rets]|]; [|apply spin_mret_Ret in E as [<- _]; split; [done|]; intros Hb Hw; by apply Hwf].
  spin_bind E mc Hmc. spin_bind E ty Hty. spin_bind E ret Hret. apply spin_mret_Ret in E as [<- _].
  apply call_Ret in Hret as [Hret _]. apply unwrap_Ret in Hret.
  split; [|done]. split; [done|]. exists [], [ret], []. simpl. rewrite !app_nil_r. split_and!; try done; [lia|intros a Ha; by apply elem_of_nil in Ha|..].
  { intros Hb Hw. by apply Hwf. }
  intros Hb Hw _ _. destruct (Hwf Hb Hw) as [Hw' (cmds & tys & f & Hc & Hf & _ & ->)]; [done|].
  constructor; [|done]. rewrite Hc, length_app, Nat.add_1_r. by eapply returned_in_scope.
Qed.

Lemma partial_argument_spec append ni excluded fixed_args ty_args i param s r x r' : appends append →
  partial_argument meta havoc dword_interesting redraw_fuel append excluded fixed_args ni ty_args i param s r
    = Ret (Some (x, r')) →
  match x with
  | inr ptb' => stop_spec s ptb'
  | inl s' => progress_spec ni fixed_args (needed fixed_args i [param]) 1 s s'
  end.
Proof.
  intros Happ E. unfold partial_argument in E. cbn [needed]. rewrite Nat.add_0_r.
  destruct (fixed_args !! as_u16 i) as [[arg ty]|] eqn:Ef.
  { apply spin_mret_Ret in E as [<- _]. rewrite bool_decide_eq_true_2 by by eexists.
    apply (push_argument_spec _ _ 0 []); try done; [lia|intros a Ha; by apply elem_of_nil in Ha|].
    intros Hf _. specialize (Hf _ _ Ef). eapply in_scope_mono; [| |exact Hf]; lia. }
  rewrite bool_decide_eq_false_2 by by intros [].
  destruct (is_tx_context param) eqn:Etx.
  { apply spin_mret_Ret in E as [<- _]. rewrite (tx_context_not_sampled _ Etx). split; [apply extends_refl|].
    exists [], [], []. rewrite !app_nil_r. split_and!; try done; [simpl; lia|simpl; lia|intros a Ha; by apply elem_of_nil in Ha]. }
  destruct (needs_sample param) eqn:Ens.
  - destruct (pa_partial_args s) as [|oa rest] eqn:Ep; [by apply call_Ret in E as [? _]|].
    destruct (pa_struct_params s) as [|missing params']; [by apply call_Ret in E as [? _]|].
    destruct oa as [a|].
    + apply spin_mret_Ret in E as [<- _]. apply (push_argument_spec _ _ 1 [Some a]); try done.
      * intros a' Ha'. apply list_elem_of_singleton in Ha'. congruence.
      * intros _ Hg. apply Hg. left.
    + apply (produce_argument_spec _ ni fixed_args) in E; [|done]. destruct x as [s'|ptb']; [|exact E].
      destruct E as [[Hext (gone & new & vals & Hg & Hl & Ha & Hi & Hv & Hn & Hb & Hin & Hwf & Hs)] Hsame].
      rewrite Hsame in Hi. simpl in Hi. rewrite <- (app_nil_r (pa_inputs s)) in Hi at 1. apply app_inv_head in Hi as <-.
      apply nil_length_inv in Hl as ->. simpl in Hg. split; [done|]. exists [None], new, [].
      rewrite Ep. simpl. split_and!; try done; [by f_equal|by rewrite app_nil_r| |].
      * intros a Hin'. apply list_elem_of_singleton in Hin'. done.
      * intros Hbd Hw Hf _. apply Hs; try done. intros a Hin'. by apply elem_of_nil in Hin'.
  - spin_bind E v Hv. apply initial_value_no_object in Hv. apply spin_mret_Ret in E as [<- _].
    split; [apply extends_refl|]. exists [], [Input (as_u16 (ni + length (pa_inputs s ++ [v]) - 1))], [v].
    simpl. split_and!; try done; [by constructor|intros a Ha; by apply elem_of_nil in Ha|].
    intros _ Hw _ _. constructor; [|done]. simpl.
    pose proof (as_u16_le (ni + length (pa_inputs s ++ [v]) - 1)). rewrite !length_app in *. simpl in *. lia.
Qed.

Lemma partial_arguments_spec append ni excluded fixed_args ty_args params : ∀ i s r x r', appends append →
  partial_arguments meta havoc dword_interesting redraw_fuel append excluded fixed_args ni ty_args i params s r
    = Ret (Some (x, r')) →
  match x with
  | inr ptb' => stop_spec s ptb'
  | inl s' => progress_spec ni fixed_args (needed fixed_args i params) (length params) s s'
  end.
Proof.
  induction params as [|p params IH]; intros i s r x r' Happ E.
  { apply spin_mret_Ret in E as [<- _]. split; [apply extends_refl|]. exists [], [], []. rewrite !app_nil_r.
    split_and!; try done. intros a Ha. by apply elem_of_nil in Ha. }
  cbn [partial_arguments] in E. spin_bind E x1 E1. apply partial_argument_spec in E1; [|done].
  destruct x1 as [s1|ptb1]; [|apply spin_mret_Ret in E as [<- _]; exact E1].
  specialize (IH _ _ _ _ _ Happ E). destruct E1 as [X1 (g1 & n1 & v1 & Hg1 & Hl1 & Ha1 & Hi1 & Hv1 & Hn1 & Hb1 & Hin1 & Hw1 & Hs1)].
  destruct x as [s'|ptb'].
  - destruct IH as [X2 (g2 & n2 & v2 & Hg2 & Hl2 & Ha2 & Hi2 & Hv2 & Hn2 & Hb2 & Hin2 & Hw2 & Hs2)].
    split; [by eapply extends_trans|]. exists (g1 ++ g2), (n1 ++ n2), (v1 ++ v2).
    rewrite Hg1, Hg2, Ha2, Ha1, Hi2, Hi1, <- !app_assoc, !length_app. split_and!; try done.
    + rewrite Hl1, Hl2. cbn [needed]. lia.
    + by apply Forall_app.
    + simpl. lia.
    + cbn [needed length] in *. lia.
    + intros a Ha. apply elem_of_app in Ha as [Ha|Ha]; apply elem_of_app; [left; by apply Hin1|right; by apply Hin2].
    + intros Hb Hw. apply Hw2; [done|]. apply Hw1; [by eapply bounded_mono|done].
    + intros Hb Hw Hf Hg. pose proof (sequence_extends_length _ _ X1) as [_ Hc1]. pose proof (sequence_extends_length _ _ X2) as [_ Hc2].
      assert (bounded (pa_ptb s1)) as Hbd1 by (by eapply bounded_mono).
      assert (Forall (in_scope (ni + length (pa_inputs s1)) (length (seq_commands (pa_ptb s1)))) n1) as Hsc1.
      { apply Hs1; try done. intros a Ha. apply Hg, elem_of_app. by left. }
      assert (Forall (in_scope (ni + length (pa_inputs s')) (length (seq_commands (pa_ptb s')))) n2) as Hsc2.
      { apply Hs2; [done|by apply Hw1|..].
        - intros k y Hy. specialize (Hf k y Hy). eapply in_scope_mono; [| |exact Hf]; lia.
        - intros a Ha. eapply in_scope_mono; [| |apply Hg, elem_of_app; by right]; rewrite ?Hi1, ?length_app; lia. }
      rewrite Hi2, Hi1, <- app_assoc in Hsc2. rewrite Hi1 in Hsc1. rewrite !length_app in *.
      apply Forall_app_2; [|done]. eapply Forall_in_scope_mono; [| |exact Hsc1]; lia.
  - destruct IH as [X2 Hs2]. split; [by eapply extends_trans|]. intros Hb Hw.
    apply Hs2; [done|]. apply Hw1; [by eapply bounded_mono|done].
Qed.

(** ** The whole call *)
Lemma object_input_standard id input : object_info id ≫= object_input id = Some input →
  standard input ∧ ∃ ty o, input = Arg_Object ty o ∧ object_arg_id o = id.
Proof.
  intros E. apply bind_Some in E as (info & Hinfo & E). unfold object_input in E.
  destruct (oi_owner info) eqn:Eo; try done; injection E as <-; (split; [|by eexists _, _]); simpl; rewrite Hinfo;
    simpl; unfold object_input; by rewrite Eo.
Qed.

Lemma construction_facts ni nc ps abilities fixed d tmap xs s : held ni nc d →
  construction meta object_info ni ps abilities fixed d tmap xs s → (N.of_nat (ni + length ps) < 65536)%N →
  (∀ a, Some a ∈ sm_return_args s → in_scope (ni + length (sm_inputs s)) nc a) ∧
  Forall standard (sm_inputs s) ∧ NoDup (input_ids (sm_inputs s)) ∧
  (∀ k, k < length (sm_inputs s) → Some (Input (N.of_nat (ni + k))) ∈ sm_return_args s).
Proof.
  intros Hheld Hcon Hb. split_and!.
  - intros a Ha. apply list_elem_of_lookup in Ha as [k Hk].
    destruct (Forall2_lookup_r _ _ _ _ _ (con_args _ _ _ _ _ _ _ _ _ _ Hcon) Hk) as ([b gate] & _ & ty & _ & Hp).
    destruct Hp as [(args & g & He & Hin & _)|(j & id & input & -> & Hj & _)].
    + eapply in_scope_mono; [| |by eapply Hheld]; lia.
    + simpl. apply lookup_lt_Some in Hj. pose proof (as_u16_le (ni + j)). lia.
  - destruct (con_sampled _ _ _ _ _ _ _ _ _ _ Hcon) as [_ (ids & _ & _ & _ & Hids)].
    apply Forall_lookup. intros k input Hk. destruct (Forall2_lookup_r _ _ _ _ _ Hids Hk) as (id & _ & E).
    by apply object_input_standard in E as [? _].
  - destruct (con_sampled _ _ _ _ _ _ _ _ _ _ Hcon) as [_ (ids & _ & Hnd & _ & Hids)].
    assert (input_ids (sm_inputs s) = ids) as ->; [|done]. clear -Hids.
    induction Hids as [|id input l k E _ IH]; [done|].
    apply object_input_standard in E as (_ & ty & o & -> & <-). simpl. by f_equal.
  - intros k Hk. pose proof (con_covered _ _ _ _ _ _ _ _ _ _ Hcon k Hk) as H.
    pose proof (con_inputs _ _ _ _ _ _ _ _ _ _ Hcon). rewrite as_u16_of_nat in H by lia. done.
Qed.

(** The arguments are complete: what is left is [finish_call]. *)
Lemma ready_filled ptb ptb' nc ni params need (ps : list MoveAbiSignatureToken) new vals inputs
    (gone : list (option SequenceArgument)) :
  ni = length (seq_inputs ptb) → extends ptb ptb' → (N.of_nat (ni + params) < 65536)%N →
  length ps = need → length inputs ≤ length ps → length vals + need ≤ params → length new ≤ params →
  Forall (in_scope (ni + length (inputs ++ vals)) nc) new → nc = length (seq_commands ptb') →
  Forall standard inputs → NoDup (input_ids inputs) → Forall (λ v, is_object v = false) vals →
  (∀ k, k < length inputs → Some (Input (N.of_nat (ni + k))) ∈ gone) → (∀ a, Some a ∈ gone → a ∈ new) →
  ready ptb' ni params new (inputs ++ vals).
Proof.
  intros -> Hext Hb Hps Hin Hv Hn Hsc -> Hstd Hnd Hvals Hcov Hgone. apply sequence_extends_length in Hext as [Hi Hc]. split.
  - done.
  - done.
  - apply Forall_app_2; [done|]. eapply Forall_impl; [exact Hvals|]. by intros [].
  - by rewrite input_ids_app, (input_ids_no_object vals), app_nil_r.
  - intros k ty o Hk. destruct (decide (k < length inputs)); [by apply Hgone, Hcov|].
    rewrite lookup_app_r in Hk by lia. by apply (proj1 (Forall_lookup _ _) Hvals) in Hk.
  - lia.
  - rewrite length_app. lia.
Qed.

Lemma append_function_appends levels :
  appends (append_function meta object_info havoc dword_interesting redraw_fuel levels).
Proof.
  induction levels as [|levels IH]; intros ptb ident fixed_args fixed_ty_args used ds r ptb' res r' E.
  { apply spin_mret_Ret in E as [[= <- <-] _]. split; [apply extends_refl|done]. }
  cbn [append_function] in E. spin_bind E d Hd. apply call_Ret in Hd as [Hd%held_from_ptb_and_remove_used _].
  spin_bind E f Hf. apply call_Ret in Hf as [Hf _]. apply unwrap_Ret in Hf. pose proof (max_params_known _ _ _ _ Hf) as Hmax.
  set (ps := struct_params fixed_args (fa_parameters f)) in *.
  pose proof (struct_params_length fixed_args (fa_parameters f)) as Hps. fold ps in Hps.
  spin_bind E o Ho. apply draw_Ret in Ho. apply try_construct_args_inv in Ho. destruct o as [args tys inputs|pargs tys inputs|].
  - destruct Ho as (tmap & xs & s & Hcon & -> & Hr & _). spin_bind E x Hx. destruct x as [new inputs'].
    assert (length args = needed fixed_args 0 (fa_parameters f)) as Hargs.
    { pose proof (Forall2_length _ _ _ (con_args _ _ _ _ _ _ _ _ _ _ Hcon)) as H1.
      pose proof (Forall2_length _ _ _ (con_gated _ _ _ _ _ _ _ _ _ _ Hcon)) as H2. rewrite Hr, length_map in H1. congruence. }
    apply complete_arguments_spec with (nc := length (seq_commands ptb)) in Hx as
      (new' & vals & -> & -> & Hvals & Hn & Hb & Hin & Hsc); [|done].
    apply call_Ret in E as [E _]. destruct (finish_call_spec _ _ _ _ _ _ _ _ _ _ Hf E) as [Hext Hfin].
    split; [done|]. intros Hbd Hw Hfix. apply Hfin; [done|]. apply sequence_extends_length in Hext as [Hle _].
    unfold bounded in Hbd. destruct (construction_facts _ _ _ _ _ _ _ _ _ Hd Hcon) as (C1 & C2 & C3 & C4); [lia|].
    apply (ready_filled ptb ptb (length (seq_commands ptb)) _ _ (needed fixed_args 0 (fa_parameters f)) ps new' vals _ (map Some args)); try done.
    + apply extends_refl.
    + lia.
    + apply (con_inputs _ _ _ _ _ _ _ _ _ _ Hcon).
    + apply Hsc; [|done]. apply Forall_forall. intros a Ha. apply C1. rewrite Hr. by apply list_elem_of_fmap_2.
    + by rewrite <- Hr.
    + intros a Ha. apply list_elem_of_fmap in Ha as (b & [= ->] & Hb'). by apply Hin.
  - destruct Ho as (tmap & xs & s & Hcon & -> & -> & ->).
    destruct (Nat.eqb_spec (length (sm_return_args s)) (length ps)) as [Hlen|]; [|by apply call_Ret in E as [? _]].
    cbn [negb] in E. spin_bind E x Hx. apply partial_arguments_spec in Hx; [|done]. destruct x as [s'|ptb1].
    2: { apply spin_mret_Ret in E as [[= <- <-] _]. destruct Hx as [Hext Hw]. split; [done|]. intros Hb Hwf _. by split; [apply Hw|]. }
    spin_bind E ts Hts. apply call_Ret in E as [E _]. destruct (finish_call_spec _ _ _ _ _ _ _ _ _ _ Hf E) as [Hext2 Hfin].
    destruct Hx as [Hext1 (gone & new & vals & Hg & Hl & Ha & Hi & Hvals & Hn & Hb & Hin & Hw1 & Hsc)]. simpl in *.
    split; [by eapply extends_trans|]. intros Hbd Hw Hfix.
    assert (bounded (pa_ptb s')) as Hbd1 by (by eapply bounded_mono).
    pose proof (sequence_extends_length _ _ Hext1) as [Hle1 _]. unfold bounded in Hbd1.
    destruct (construction_facts _ _ _ _ _ _ _ _ _ Hd Hcon) as (C1 & C2 & C3 & C4); [lia|].
    assert (pa_partial_args s' = []) as Hrest.
    { apply nil_length_inv. apply (f_equal length) in Hg. rewrite length_app in Hg. lia. }
    rewrite Hrest, app_nil_r in Hg. subst gone.
    apply Hfin; [by apply Hw1|]. rewrite Ha, Hi.
    apply (ready_filled ptb (pa_ptb s') (length (seq_commands (pa_ptb s'))) _ _ (needed fixed_args 0 (fa_parameters f)) ps new vals _ (sm_return_args s)); try done.
    + lia.
    + apply (con_inputs _ _ _ _ _ _ _ _ _ _ Hcon).
    + rewrite <- Hi. by apply Hsc.
  - apply spin_mret_Ret in E as [[= <- <-] _]. split; [apply extends_refl|done].
Qed.

(** C10: [append_function] only ever adds to a sequence, whether it succeeds or gives up
    half-way: its inputs and commands stay where they are. A well-formed sequence -
    every command refers to its inputs and to earlier commands, and no object of the
    store is an input twice - stays well formed, through producers, their producers,
    re-used inputs and splits. On success the call is the last command, with a type
    argument for every type parameter, the arguments returned are its arguments and the
    values returned are the results of that command. *)
Theorem append_function_well_formed levels ptb ident fixed_args fixed_ty_args used disable_split r ptb' res r' :
  append_function meta object_info havoc dword_interesting redraw_fuel levels ptb ident fixed_args fixed_ty_args
    used disable_split r = Ret (Some ((ptb', res), r')) →
  extends ptb ptb' ∧
  (bounded ptb' → wf_sequence ptb → fixed_in_scope fixed_args ptb → wf_sequence ptb' ∧ appended ident ptb' res).
Proof. apply append_function_appends. Qed.
End append_spec.

(** ** Witnesses *)
Lemma demo_max_params addr m f abi : get_function (fm_base demo_fuzz_metadata) addr m f = Some abi →
  length (fa_parameters abi) ≤ 1.
Proof.
  intros (module & (pkg & Hpkg & Hm)%bind_Some & Hf)%bind_Some.
  assert (pkg = demo_package) as ->.
  { unfold get_package_metadata in Hpkg. simpl in Hpkg. unfold demo_abis in Hpkg.
    apply lookup_insert_Some in Hpkg as [[_ <-]|[_ Hpkg]]; [done|]. by apply lookup_singleton_Some in Hpkg as [_ <-]. }
  apply find_some in Hm as [Hm _]. simpl in Hm. destruct Hm as [<-|[]].
  apply find_some in Hf as [Hf _]. simpl in Hf. destruct Hf as [<-|[<-|[]]]; simpl; lia.
Qed.

Definition demo_append (f : string) (ptb : MoveSequence) :
    panics (option (MoveSequence * option (list SequenceArgument * list SequenceArgument) * Rng)) :=
  append_function (RL := replay_rand) demo_fuzz_metadata (λ _, None) no_havoc no_dword 5 MAX_LEVELS ptb
    (MkFunctionIdent demo_coin_id f) ∅ ∅ [] false [].
Definition demo_move_call (f : string) (args : list SequenceArgument) : MoveSequenceCall :=
  Call {| mc_module_id := MkMoveAddress 7; mc_module_name := "coin"; mc_function := f; mc_type_arguments := [];
          mc_arguments := args |}.
(** [burn] needs a coin: [mint] is appended first. *)
Definition demo_burnt : MoveSequence :=
  MkSequence [Arg_U64 0] [demo_move_call "mint" [Input 0]; demo_move_call "burn" [Result 0]].

Lemma append_function_well_formed_witness :
  demo_append "burn" (MkSequence [] []) = Ret (Some (demo_burnt, Some ([Result 0], []), [])) ∧
  wf_sequence (λ _, None) demo_burnt.
Proof.
  assert (demo_append "burn" (MkSequence [] []) = Ret (Some (demo_burnt, Some ([Result 0], []), []))) as E
    by (vm_compute; reflexivity).
  split; [exact E|].
  destruct (append_function_well_formed (RL := replay_rand) demo_fuzz_metadata (λ _, None) no_havoc no_dword 5 1
    demo_max_params MAX_LEVELS (MkSequence [] []) (MkFunctionIdent demo_coin_id "burn") ∅ ∅ [] false []
    demo_burnt (Some ([Result 0], [])) [] E) as [_ H].
  apply H.
  - vm_compute. reflexivity.
  - split; simpl; [intros k cmd Hk; by rewrite lookup_nil in Hk|constructor|constructor].
  - apply map_Forall_empty.
Defined.

(** Items of weight 3, 0 and 2: the draws 0 to 2 give the first, 3 and 4 the last. *)
Example weighted_draws :
  map (λ n, weighted_sample (RL := replay_rand) ["a"; "b"; "c"]%string [3; 0; 2]%N [n]) [0; 1; 2; 3; 4]%N =
  map (λ s, Ret (s, [])) ["a"; "a"; "a"; "c"; "c"]%string.
Proof. vm_compute. reflexivity. Qed.

(** A call that needs a coin and a gem nobody makes: it is not appended, but the
    [mint] for its first argument is. *)
Definition demo_gem : MoveAbiSignatureToken :=
  Tok_Struct (MkStructHandle (MkModuleId (MkMoveAddress 8) "gem") "Gem" ability_STORE []).
Definition demo_swap : MoveFunctionAbi :=
  {| fa_name := "swap"; fa_parameters := [Tok_Struct demo_coin_handle; demo_gem]; fa_return_paramters := [];
     fa_type_parameters := []; fa_visibility := Public; fa_is_entry := false |}.
Definition demo_swap_metadata : FuzzMetadata (G := ListGraph) (Rand := ()) :=
  MkFuzzMetadata (MkMetadata (md_type_graph demo_metadata) ∅
    (<[MkMoveAddress 8 := {| pa_package_id := MkMoveAddress 8; pa_modules :=
       [{| ma_module_id := MkModuleId (MkMoveAddress 8) "gem"; ma_structs := []; ma_functions := [demo_swap] |}] |}]>
      demo_abis) ∅ ∅ ∅ ∅ ∅) () addr_one [addr_one] [addr_one] ∅ None ∅ [] [] ∅ hook_default addr_zero 0 0 0.

Example failure_keeps_producers :
  append_function (RL := replay_rand) demo_swap_metadata (λ _, None) no_havoc no_dword 5 MAX_LEVELS (MkSequence [] [])
    (MkFunctionIdent (MkModuleId (MkMoveAddress 8) "gem") "swap") ∅ ∅ [] false [] =
  Ret (Some (MkSequence [Arg_U64 0] [demo_move_call "mint" [Input 0]], None, [])).
Proof. vm_compute. reflexivity. Qed.
