(* ===== verification/Stage.v ===== *)
(** * Stage: replaying a mutated sequence stage by stage

    [StageReplay] of [crates/movy-fuzz/src/mutators/utils.rs]: after a mutator
    had success with a sequence, the next rounds replay that sequence and
    mutate one command at a time, from the one the last run reached. The
    fingerprint of a sequence is the hash of the standard library. *)
From S2P Require Import Prelude Types TypeGraph Meta.

#[export] Instance MutatorKind_eq_dec : EqDecision MutatorKind.
Proof. solve_decision. Defined.

Definition MAX_STAGE_REPLAY_ATTEMPTS : N := 30.

Inductive StageReplayAction := Fresh | Replay (stage_idx : nat) (snapshot : MoveSequence).

Record StageReplay := MkStageReplay {
  sr_kind : MutatorKind;
  sr_cached : option MoveSequence;
  sr_cached_fingerprint : option N;
  sr_stage_idx : option nat;
  sr_attempts : N }.

Definition stage_replay_new (kind : MutatorKind) : StageReplay := MkStageReplay kind None None None 0.

Definition record_success (ptb : MoveSequence) (s : StageReplay) : StageReplay :=
  MkStageReplay (sr_kind s) (Some ptb) (sr_cached_fingerprint s) (sr_stage_idx s) (sr_attempts s).
Definition invalidate_cache (s : StageReplay) : StageReplay :=
  MkStageReplay (sr_kind s) None None (sr_stage_idx s) (sr_attempts s).
Definition reset_progress (s : StageReplay) : StageReplay :=
  MkStageReplay (sr_kind s) (sr_cached s) (sr_cached_fingerprint s) None 0.
Definition restart_progress (s : StageReplay) : StageReplay :=
  MkStageReplay (sr_kind s) (sr_cached s) (sr_cached_fingerprint s) (Some 0) 0.
Definition set_fingerprint (fingerprint : N) (s : StageReplay) : StageReplay :=
  MkStageReplay (sr_kind s) (sr_cached s) (Some fingerprint) (sr_stage_idx s) (sr_attempts s).

(** The stage and the number of attempts after a run that reached [stage_idx]. *)
Definition advance (stage_idx : nat) (s : StageReplay) : StageReplay :=
  let next := match sr_stage_idx s with
    | Some current => if current <? stage_idx then Some (current + 1) else Some stage_idx
    | None => Some stage_idx
    end in
  let attempts := if bool_decide (next = sr_stage_idx s) then sr_attempts s else 0%N in
  let s := MkStageReplay (sr_kind s) (sr_cached s) (sr_cached_fingerprint s) next (attempts + 1) in
  if (MAX_STAGE_REPLAY_ATTEMPTS <=? sr_attempts s)%N then restart_progress s else s.

(** [outcome]: the outcome of the last run and the stage it reached. *)
Definition decide_stage (current_mutator : option MutatorKind) (outcome : option (option nat))
    (current_fingerprint : N) (s : StageReplay) : StageReplay * StageReplayAction :=
  let same := match sr_cached_fingerprint s with Some fp => bool_decide (fp = current_fingerprint) | None => true end in
  if negb same then (set_fingerprint current_fingerprint (reset_progress (invalidate_cache s)), Fresh) else
  let s := match sr_cached_fingerprint s with None => set_fingerprint current_fingerprint s | Some _ => s end in
  if bool_decide (current_mutator ≠ Some (sr_kind s)) then (reset_progress s, Fresh) else
  match outcome with
  | Some (Some stage_idx) =>
      let s := advance stage_idx s in
      match sr_cached s with
      | Some snapshot => (s, Replay (default 0 (sr_stage_idx s)) snapshot)
      | None => (s, Fresh)
      end
  | _ => (reset_progress s, Fresh)
  end.

(** ** What is replayed *)

(** The calls of a mutator, in order. *)
Inductive StageCall :=
| Decide (current_mutator : option MutatorKind) (outcome : option (option nat)) (fingerprint : N)
| RecordSuccess (ptb : MoveSequence).
Definition stage_call (c : StageCall) (s : StageReplay) : StageReplay :=
  match c with
  | Decide m o fp => (decide_stage m o fp s).1
  | RecordSuccess ptb => record_success ptb s
  end.
Definition run_stage (cs : list StageCall) (s : StageReplay) : StageReplay := fold_left (λ s c, stage_call c s) cs s.

Record stage_ok (s : StageReplay) : Prop := {
  stage_attempts : (sr_attempts s < MAX_STAGE_REPLAY_ATTEMPTS)%N;
  stage_none : sr_stage_idx s = None → sr_attempts s = 0%N }.

Lemma advance_ok k s : stage_ok s → stage_ok (advance k s) ∧ sr_cached (advance k s) = sr_cached s ∧
  ∃ i, sr_stage_idx (advance k s) = Some i ∧ i ≤ k.
Proof.
  intros [H1 H2]. unfold advance, MAX_STAGE_REPLAY_ATTEMPTS in *. cbn [sr_attempts].
  set (next := match sr_stage_idx s with Some c => _ | None => _ end).
  assert (∃ i, next = Some i ∧ i ≤ k) as (i & Hi & Hik).
  { unfold next. destruct (sr_stage_idx s) as [c|]; [|by exists k].
    destruct (Nat.ltb_spec c k); [exists (c + 1); split; [done|lia]|by exists k]. }
  destruct (N.leb_spec 30 ((if bool_decide (next = sr_stage_idx s) then sr_attempts s else 0) + 1)) as [Hge|Hlt].
  - split; [by split|]. split; [done|]. exists 0. split; [done|lia].
  - split; [split; cbn; [exact Hlt|by rewrite Hi]|]. split; [done|]. by exists i.
Qed.

Lemma stage_call_ok c s : stage_ok s → stage_ok (stage_call c s).
Proof.
  intros Hs. destruct c as [m o fp|ptb]; [|by destruct Hs; split]. simpl. unfold decide_stage.
  destruct (negb _); [by split|]. set (s1 := match sr_cached_fingerprint s with Some _ => s | None => _ end).
  assert (stage_ok s1) as Hs1 by (unfold s1; destruct (sr_cached_fingerprint s); [done|by destruct Hs; split]).
  case_bool_decide; [by split|]. destruct o as [[k|]|]; [|by split..].
  destruct (advance_ok k s1 Hs1) as (H1 & _ & _). by destruct (sr_cached (advance k s1)).
Qed.

(** The last success recorded since the sequence last changed. *)
Fixpoint last_success (fp : option N) (cached : option MoveSequence) (cs : list StageCall) : option MoveSequence :=
  match cs with
  | [] => cached
  | RecordSuccess ptb :: cs => last_success fp (Some ptb) cs
  | Decide _ _ fp' :: cs =>
      last_success (Some fp') (if bool_decide (fp = None ∨ fp = Some fp') then cached else None) cs
  end.

Lemma decide_cached m o fp s : let s' := (decide_stage m o fp s).1 in
  sr_kind s' = sr_kind s ∧ sr_cached_fingerprint s' = Some fp ∧
  sr_cached s' = if bool_decide (sr_cached_fingerprint s = None ∨ sr_cached_fingerprint s = Some fp)
                 then sr_cached s else None.
Proof.
  cbv zeta. unfold decide_stage. destruct (sr_cached_fingerprint s) as [fp0|] eqn:Efp.
  - destruct (decide (fp0 = fp)) as [->|Hne].
    + rewrite (bool_decide_eq_true_2 (fp = fp)), (bool_decide_eq_true_2 (_ ∨ _)) by auto. cbn [negb].
      case_bool_decide; [by cbn; rewrite ?Efp|]. destruct o as [[k|]|]; cbn; rewrite ?Efp; try done.
      unfold advance. cbn. destruct (_ <=? _)%N; destruct (sr_cached s); cbn; by rewrite Efp.
    + rewrite (bool_decide_eq_false_2 (fp0 = fp)), (bool_decide_eq_false_2 (_ ∨ _)) by naive_solver. done.
  - rewrite (bool_decide_eq_true_2 (_ ∨ _)) by auto. cbn [negb].
    case_bool_decide; [done|]. destruct o as [[k|]|]; cbn; try done.
    unfold advance. cbn. destruct (_ <=? _)%N; destruct (sr_cached s); done.
Qed.

Lemma run_stage_spec cs s : stage_ok s → let s' := run_stage cs s in
  stage_ok s' ∧ sr_kind s' = sr_kind s ∧ sr_cached s' = last_success (sr_cached_fingerprint s) (sr_cached s) cs.
Proof.
  revert s. induction cs as [|c cs IH]; intros s Hs; [done|]. cbv zeta in *.
  destruct (IH (stage_call c s)) as (H1 & H2 & H3); [by apply stage_call_ok|].
  cbn [run_stage fold_left] in *. unfold run_stage in *. split; [done|]. rewrite H2, H3.
  destruct c as [m o fp|ptb]; [|done]. simpl. destruct (decide_cached m o fp s) as (K1 & K2 & K3).
  by rewrite K1, K2, K3.
Qed.

(** A replay only happens for the mutator that owns the cache, after a run that
    reported a stage; the command it goes to is never beyond the one the run reached,
    and the sequence it returns is the last success the mutator recorded since the
    fingerprint of its input changed. A stage is retried less than thirty times in a row. *)
Theorem stage_replay_sound kind cs m o fp :
  let s := run_stage cs (stage_replay_new kind) in
  let '(s', action) := decide_stage m o fp s in
  (sr_attempts s' < MAX_STAGE_REPLAY_ATTEMPTS)%N ∧
  match action with
  | Fresh => True
  | Replay stage snapshot => ∃ reached, m = Some kind ∧ o = Some (Some reached) ∧ stage ≤ reached ∧
      sr_stage_idx s' = Some stage ∧
      last_success None None (cs ++ [Decide m o fp]) = Some snapshot
  end.
Proof.
  cbv zeta. set (s := run_stage cs (stage_replay_new kind)).
  assert (stage_ok (stage_replay_new kind)) as H0 by by split.
  destruct (run_stage_spec cs _ H0) as (Hs & Hk & _).
  destruct (run_stage_spec (cs ++ [Decide m o fp]) _ H0) as (Hs' & _ & Hc).
  unfold run_stage in Hs', Hc. rewrite fold_left_app in Hs', Hc. cbn [fold_left stage_call] in Hs', Hc.
  fold (run_stage cs (stage_replay_new kind)) in Hs', Hc. fold s in Hs', Hc, Hs, Hk. cbn [sr_cached_fingerprint sr_cached stage_replay_new] in Hc.
  destruct (decide_stage m o fp s) as [s' action] eqn:E. simpl in Hs', Hc. split; [apply Hs'|].
  destruct action as [|stage snapshot]; [done|]. rewrite <- Hc. unfold decide_stage in E. destruct (negb _); [done|].
  set (s1 := match sr_cached_fingerprint s with Some _ => s | None => _ end) in *.
  assert (stage_ok s1 ∧ sr_kind s1 = kind) as [Hs1 Hk1].
  { change (sr_kind s = kind) in Hk. unfold s1. destruct (sr_cached_fingerprint s); [done|].
    split; [by destruct Hs; split|exact Hk]. }
  case_bool_decide as Hm; [done|]. destruct o as [[k|]|]; try done.
  destruct (advance_ok k s1 Hs1) as (_ & _ & i & Hi & Hik).
  destruct (sr_cached (advance k s1)) as [snap|] eqn:Ec; [|done]. injection E as <- <- <-.
  exists k. rewrite Hi. simpl. by rewrite Hm, Hk1.
Qed.

(** *** Every stage comes round *)

(** Runs of one sequence that always reach stage [k]. *)
Fixpoint advances (n k : nat) (s : StageReplay) : StageReplay :=
  match n with O => s | S n => advances n k (advance k s) end.

Lemma advances_add a b k s : advances (a + b) k s = advances b k (advances a k s).
Proof. revert s. induction a as [|a IH]; intros s; [done|]. apply IH. Qed.

Lemma advance_climb k s c : sr_stage_idx s = Some c → c < k →
  sr_stage_idx (advance k s) = Some (c + 1) ∧ sr_attempts (advance k s) = 1%N.
Proof.
  intros Hc Hk. unfold advance. rewrite Hc. rewrite (proj2 (Nat.ltb_lt c k)) by done.
  rewrite bool_decide_eq_false_2 by (intros [=]; lia). done.
Qed.
Lemma advance_wait k s : sr_stage_idx s = Some k →
  advance k s = if (MAX_STAGE_REPLAY_ATTEMPTS <=? sr_attempts s + 1)%N then restart_progress s
    else MkStageReplay (sr_kind s) (sr_cached s) (sr_cached_fingerprint s) (Some k) (sr_attempts s + 1).
Proof. intros Hk. unfold advance. rewrite Hk, Nat.ltb_irrefl, bool_decide_eq_true_2 by done. destruct (_ <=? _)%N; done. Qed.

Lemma advances_climb d k s c : sr_stage_idx s = Some c → c + d ≤ k → sr_stage_idx (advances d k s) = Some (c + d).
Proof.
  revert s c. induction d as [|d IH]; intros s c Hc Hk; [by rewrite Nat.add_0_r|]. cbn [advances].
  rewrite (IH _ (c + 1)); [f_equal; lia|apply advance_climb; [done|lia]|lia].
Qed.

Lemma advances_restart n k s : sr_stage_idx s = Some k →
  (sr_attempts s + N.of_nat n + 1 = MAX_STAGE_REPLAY_ATTEMPTS)%N → sr_stage_idx (advances (S n) k s) = Some 0.
Proof.
  revert s. induction n as [|n IH]; intros s Hk Ha; cbn [advances]; rewrite (advance_wait k s Hk).
  - rewrite (proj2 (N.leb_le _ _)) by lia. done.
  - rewrite (proj2 (N.leb_gt _ _)) by lia. apply IH; [done|cbn; lia].
Qed.

(** A mutator that stays successful replays every stage: as long as the runs of the
    cached sequence reach stage [k], at most [k + 30] rounds after any round that
    replayed a stage up to [k] the replay is back at stage 0, and [stage] rounds later at
    any [stage] up to [k]. *)
Theorem stage_replay_comes_round k s c stage : stage_ok s → sr_stage_idx s = Some c → c ≤ k → stage ≤ k →
  ∃ n, n ≤ k + N.to_nat MAX_STAGE_REPLAY_ATTEMPTS + stage ∧ sr_stage_idx (advances n k s) = Some stage.
Proof.
  intros Hs Hc Hck Hstage. pose proof (advances_climb (k - c) k s c Hc ltac:(lia)) as Hk.
  replace (c + (k - c)) with k in Hk by lia. set (s1 := advances (k - c) k s) in *.
  assert (stage_ok s1) as Hs1.
  { unfold s1. generalize (k - c). intros d. clear -Hs. revert s Hs. induction d as [|d IH]; intros s Hs; [done|].
    apply IH. by apply advance_ok. }
  destruct Hs1 as [Ha _]. unfold MAX_STAGE_REPLAY_ATTEMPTS in *.
  set (w := N.to_nat (29 - sr_attempts s1)).
  pose proof (advances_restart w k s1 Hk) as H0. unfold MAX_STAGE_REPLAY_ATTEMPTS in H0. specialize (H0 ltac:(unfold w; lia)).
  exists ((k - c) + (S w + stage)). split; [unfold w; lia|].
  rewrite advances_add, advances_add. fold s1. by rewrite (advances_climb stage k _ 0 H0 ltac:(lia)).
Qed.

(** ** Witness *)
Lemma stage_replay_comes_round_witness :
  ∃ n, n ≤ 2 + 30 + 1 ∧
    sr_stage_idx (advances n 2 (MkStageReplay Mutator_Magic (Some (MkSequence [] [])) (Some 5%N) (Some 2) 4)) = Some 1.
Proof.
  apply (stage_replay_comes_round 2 _ 2 1); [by split|done|lia|lia].
Defined.
