(* ===== verification/Mutate.v ===== *)
(** * Mutate: changing one argument or type argument of a sequence

    The rest of [crates/movy-fuzz/src/mutators/utils.rs]: which commands can be
    mutated, [mutate_ty_arg] and [mutate_arg]. The leading commands and inputs
    of a flash loan ([flash_command_limits]) are left alone. *)
From S2P Require Import Prelude Types Abi TypeGraph Meta Removal Random Construct Values Append.

Definition flash_command_limits (flash : option FlashProvider) : nat * nat :=
  match flash with
  | Some (Cetus _ _ _ _ _ _) => (1, 8)
  | Some (Nemo _ _ _ _ _) => (2, 4)
  | None => (0, 0)
  end.

(** The call has a pure parameter that is not one of the protected inputs. *)
Definition command_has_mutable_user_arg (function : MoveFunctionAbi) (movecall : MoveCall) (input_limit : nat) : bool :=
  existsb (λ '(param, arg),
    is_mutable param && match arg with Input input_idx => negb (N.to_nat input_idx <? input_limit)%nat | _ => true end)
    (zip (fa_parameters function) (mc_arguments movecall)).

Section mutate_arg.
Context `{PG : PetGraph G} {Rand : Type} `{RL : RandLib}.
Context (meta : FuzzMetadata (G := G) (Rand := Rand)) (flash : option FlashProvider).
Context (havoc : ByteMutator → ByteMutator) (dword_interesting : ByteMutator) (redraw_fuel : nat).

Definition call_function (movecall : MoveCall) : panics MoveFunctionAbi :=
  unwrap (get_function (fm_base meta) (mc_module_id movecall) (mc_module_name movecall) (mc_function movecall)).

(** ** Candidates *)

(** The splits right before a command, from its index down. *)
Fixpoint splits_before (ptb : MoveSequence) (idx : nat) : list nat :=
  match idx with
  | O => []
  | S idx =>
      match seq_commands ptb !! idx with
      | Some (Call prev) => if is_split prev then idx :: splits_before ptb idx else []
      | _ => []
      end
  end.

Definition stage_candidate_indices (ptb : MoveSequence) (stage_idx input_limit : nat) : panics (list nat) :=
  match seq_commands ptb !! stage_idx with
  | Some (Call movecall) =>
      function ← call_function movecall;
      Ret ((if command_has_mutable_user_arg function movecall input_limit then [stage_idx] else [])
           ++ splits_before ptb stage_idx)
  | _ => Ret []
  end.

Definition general_candidate_indices (ptb : MoveSequence) (start_idx input_limit : nat) : panics (list nat) :=
  filter_map_panics (λ '(idx, cmd),
    match cmd with
    | Call movecall =>
        function ← call_function movecall;
        Ret (if command_has_mutable_user_arg function movecall input_limit then Some idx else None)
    | _ => Ret None
    end) (drop start_idx (imap pair (seq_commands ptb))).

Definition candidate_move_call_indices (ptb : MoveSequence) (stage_idx : option nat) : panics (list nat) :=
  let '(start_idx, input_limit) := flash_command_limits flash in
  match stage_idx with
  | Some stage_idx => stage_candidate_indices ptb stage_idx input_limit
  | None => general_candidate_indices ptb start_idx input_limit
  end.

(** ** Type arguments *)

(** The type arguments of a command that no parameter and no returned value
    mentions, with the abilities they must have. *)
Definition free_ty_args (cmd_idx : nat) (movecall : MoveCall) : panics (list (MoveAbility * (nat * nat))) :=
  function ← call_function movecall;
  filter_map_panics (λ '(i, _),
    if existsb (contains_type_param (as_u16 i)) (fa_parameters function ++ fa_return_paramters function) then Ret None
    else type_param ← unwrap (fa_type_parameters function !! i); Ret (Some (type_param, (cmd_idx, i))))
    (imap pair (mc_type_arguments movecall)).

Definition set_ty_arg (i : nat) (ty : MoveTypeTag) (cmd : MoveSequenceCall) : MoveSequenceCall :=
  match cmd with
  | Call mc => Call {| mc_module_id := mc_module_id mc; mc_module_name := mc_module_name mc;
      mc_function := mc_function mc; mc_type_arguments := <[i := ty]> (mc_type_arguments mc);
      mc_arguments := mc_arguments mc |}
  | _ => cmd
  end.

Definition ty_arg_candidates (ptb : MoveSequence) (stage_idx : option nat) : panics (list (MoveAbility * (nat * nat))) :=
  match stage_idx with
  | Some stage_idx =>
      match seq_commands ptb !! stage_idx with Some (Call movecall) => free_ty_args stage_idx movecall | _ => Ret [] end
  | None =>
      results ← filter_map_panics (λ '(idx, cmd),
        match cmd with Call movecall => r ← free_ty_args idx movecall; Ret (Some r) | _ => Ret None end)
        (drop (flash_command_limits flash).1 (imap pair (seq_commands ptb)));
      Ret (concat results)
  end.

Definition mutate_ty_arg (ptb : MoveSequence) (stage_idx : option nat) : rnd (MutationResult * MoveSequence) :=
  match seq_commands ptb with
  | [] => mret (Skipped, ptb)
  | _ =>
      ty_args ← lift (ty_arg_candidates ptb stage_idx);
      match ty_args with
      | [] => mret (Skipped, ptb)
      | _ =>
          '(abilities, (cmd_idx, i)) ← pick ty_args;
          new_ty_arg ← choose (default [] (md_ability_to_type_tag (fm_base meta) !! abilities));
          mret match new_ty_arg with
               | None => (Skipped, ptb)
               | Some ty => (Mutated, MkSequence (seq_inputs ptb) (alter (set_ty_arg i ty) cmd_idx (seq_commands ptb)))
               end
      end
  end.

(** ** Arguments *)

(** The function whose constants a call is mutated with: for a split, the next
    call that is none. *)
Definition magic_function_ident (commands : list MoveSequenceCall) (cmd_idx : nat) (movecall : MoveCall) : FunctionIdent :=
  let ident mc := FunctionIdent_new (mc_module_id mc) (mc_module_name mc) (mc_function mc) in
  if is_split movecall then
    match find (λ cmd, match cmd with Call mc => negb (is_split mc) | _ => false end) (drop cmd_idx commands) with
    | Some (Call mc) => ident mc
    | _ => ident movecall
    end
  else ident movecall.

Definition arg_idx_candidates (function : MoveFunctionAbi) (movecall : MoveCall) (input_limit : nat) : list N :=
  omap (λ '(i, (param, arg)),
    match arg with
    | Input input_idx =>
        if is_mutable param && (input_limit <=? N.to_nat input_idx)%nat then Some (as_u16 i) else None
    | _ => None
    end) (imap pair (zip (fa_parameters function) (mc_arguments movecall))).

(** A new value for one input. *)
Definition mutate_value (magic split : bool) (pool : list Bytes) (value : InputArgument) : spin InputArgument :=
  if magic then '(_, mv) ← draw (sample_magic_number pool (mutable_new value)); mret (mv_value mv)
  else '(_, mv) ← until (mutate meta havoc dword_interesting redraw_fuel pool split (mutable_new value));
       mret (mv_value mv).

Definition mutate_call_arg (magic_number_pool : gmap FunctionIdent (list Bytes)) (magic : bool) (ptb : MoveSequence)
    (cmd_idx : nat) (movecall : MoveCall) : spin (MutationResult * MoveSequence) :=
  let input_limit := (flash_command_limits flash).2 in
  function ← call (call_function movecall);
  match arg_idx_candidates function movecall input_limit with
  | [] => mret (Skipped, ptb)
  | candidates =>
      idx ← draw (choose candidates);
      idx ← call (unwrap idx);
      arg ← call (unwrap (mc_arguments movecall !! N.to_nat idx));
      match arg with
      | Input input_idx =>
          value ← call (unwrap (seq_inputs ptb !! N.to_nat input_idx));
          param ← call (unwrap (fa_parameters function !! N.to_nat idx));
          if negb (is_mutable param) then mret (Skipped, ptb) else
          let pool := default [] (magic_number_pool !! magic_function_ident (seq_commands ptb) cmd_idx movecall) in
          value ← mutate_value magic (is_split movecall) pool value;
          mret (Mutated, MkSequence (<[N.to_nat input_idx := value]> (seq_inputs ptb)) (seq_commands ptb))
      | _ => mret (Skipped, ptb)
      end
  end.

Definition mutate_arg (magic_number_pool : gmap FunctionIdent (list Bytes)) (magic : bool) (stage_idx : option nat)
    (ptb : MoveSequence) : spin (MutationResult * MoveSequence) :=
  match seq_commands ptb with
  | [] => mret (Skipped, ptb)
  | _ =>
      chance ← draw (below_N 10);
      '(res, ptb) ← draw (if (chance =? 0)%N then mutate_ty_arg ptb stage_idx else mret (Skipped, ptb));
      match res with
      | Mutated => mret (Mutated, ptb)
      | Skipped =>
          cmd_candidates ← call (candidate_move_call_indices ptb stage_idx);
          match cmd_candidates with
          | [] => mret (Skipped, ptb)
          | _ =>
              cmd_idx ← draw (pick cmd_candidates);
              cmd ← call (unwrap (seq_commands ptb !! cmd_idx));
              match cmd with
              | Call movecall => mutate_call_arg magic_number_pool magic ptb cmd_idx movecall
              | _ => mret (Skipped, ptb)
              end
          end
      end
  end.
End mutate_arg.
