(* ===== verification/MutateSpec.v ===== *)
(** * MutateSpec: a mutation changes one thing

    [mutate_arg] ([Mutate]) changes one unmentioned type argument or one pure
    input outside the part that belongs to a flash loan, and keeps sequences
    well formed. *)
From S2P Require Import Prelude Types Abi TypeGraph Meta Removal Random Objects Construct ConstructSpec Values Append AppendSpec Mutate.

(** [position]: an element of an enumerated list. *)
Lemma elem_of_drop_imap {A} (l : list A) n i x : (i, x) ∈ drop n (imap pair l) → n ≤ i ∧ l !! i = Some x.
Proof.
  intros (k & Hk)%list_elem_of_lookup. rewrite lookup_drop, list_lookup_imap in Hk.
  destruct (l !! (n + k)) as [y|] eqn:E; [|done]. injection Hk as <- <-. split; [lia|done].
Qed.

Section mutate_spec.
Context `{PG : PetGraph G} {Rand : Type} `{RL : RandLib}.
Context (meta : FuzzMetadata (G := G) (Rand := Rand)) (flash : option FlashProvider).
Context (havoc : ByteMutator → ByteMutator) (dword_interesting : ByteMutator) (redraw_fuel : nat).
Abbreviation start_idx := (flash_command_limits flash).1.
Abbreviation input_limit := (flash_command_limits flash).2.

Lemma mutate_value_object magic split pool v r v' r' :
  mutate_value meta havoc dword_interesting redraw_fuel magic split pool v r = Ret (Some (v', r')) →
  is_object v' = is_object v ∧ (is_object v = true → v' = v).
Proof.
  intros E. unfold mutate_value in E. destruct magic.
  - spin_bind E x Hx. destruct x as [res mv]. apply draw_Ret in Hx. apply spin_mret_Ret in E as [<- _].
    unfold sample_magic_number in Hx. cbn [mv_value mutable_new] in Hx. destruct (samples_magic v) eqn:Es.
    2: { by apply mret_Ret in Hx as [[= <- <-] _]. }
    assert (is_object v = false) as Hv by (by destruct v). rewrite Hv. split; [|done].
    apply rnd_bind_Ret in Hx as (bytes & r2 & _ & Hx). destruct (List.filter _ pool); [by apply mret_Ret in Hx as [[= <- <-] _]|].
    apply rnd_bind_Ret in Hx as (o & r3 & _ & Hx). apply rnd_bind_Ret in Hx as (b & r4 & _ & Hx).
    apply rnd_bind_Ret in Hx as (w & r5 & Hw & Hx). apply lift_Ret in Hw as [Hw _].
    apply mret_Ret in Hx as [[= <- <-] _]. cbn. by eapply commit_no_object.
  - spin_bind E x Hx. destruct x as [res mv]. apply until_Ret in Hx. apply spin_mret_Ret in E as [<- _].
    destruct (is_object v) eqn:Hv.
    + destruct v; try done. unfold mutate in Hx. simpl in Hx. by apply mret_Ret in Hx as [[= <- <-] _].
    + split; [|done]. eapply mutate_no_object; [|exact Hx]. done.
Qed.

(** *** Type arguments *)
Definition free_ty_arg (cmds : list MoveSequenceCall) (abilities : MoveAbility) (idx i : nat) : Prop :=
  ∃ mc f, cmds !! idx = Some (Call mc) ∧ call_function meta mc = Ret f ∧ i < length (mc_type_arguments mc) ∧
    fa_type_parameters f !! i = Some abilities ∧
    ∀ t, t ∈ fa_parameters f ++ fa_return_paramters f → contains_type_param (as_u16 i) t = false.

Lemma free_ty_args_spec idx mc l x : free_ty_args meta idx mc = Ret l → x ∈ l →
  ∃ f i abilities, x = (abilities, (idx, i)) ∧ call_function meta mc = Ret f ∧ i < length (mc_type_arguments mc) ∧
    fa_type_parameters f !! i = Some abilities ∧
    ∀ t, t ∈ fa_parameters f ++ fa_return_paramters f → contains_type_param (as_u16 i) t = false.
Proof.
  unfold free_ty_args. intros (f & Hf & E)%panics_bind_Ret Hx.
  destruct (filter_map_panics_elem _ _ _ _ E Hx) as ([i t] & Hi & Hit).
  destruct (existsb _ _) eqn:Ee; [done|]. apply panics_bind_Ret in Hit as (a & Ha & [= <-]). apply unwrap_Ret in Ha.
  exists f, i, a. split_and!; try done.
  - apply (elem_of_drop_imap _ 0) in Hi as [_ Hi]. by apply lookup_lt_Some in Hi.
  - intros u Hu. destruct (contains_type_param (as_u16 i) u) eqn:Ec; [|done].
    rewrite <- Ee. symmetry. apply existsb_exists. exists u. by rewrite <- list_elem_of_In.
Qed.

Lemma ty_arg_candidates_spec ptb stage_idx l abilities idx i : ty_arg_candidates meta flash ptb stage_idx = Ret l →
  (abilities, (idx, i)) ∈ l →
  free_ty_arg (seq_commands ptb) abilities idx i ∧ match stage_idx with Some k => idx = k | None => start_idx ≤ idx end.
Proof.
  unfold ty_arg_candidates. destruct stage_idx as [k|].
  - destruct (seq_commands ptb !! k) as [[mc| | | | | |]|] eqn:Ek; try (intros [= <-] H; by apply elem_of_nil in H).
    intros E Hx. destruct (free_ty_args_spec _ _ _ _ E Hx) as (f & j & a & [= -> -> ->] & ?). split; [|done]. by exists mc, f.
  - intros (rs & E & [= <-])%panics_bind_Ret Hx. apply list_elem_of_In, in_concat in Hx as (y & Hy & Hx).
    apply list_elem_of_In in Hy, Hx. destruct (filter_map_panics_elem _ _ _ _ E Hy) as ([k cmd] & Hk & Hc).
    apply elem_of_drop_imap in Hk as [Hk Hcmd]. destruct cmd as [mc| | | | | |]; try done.
    apply panics_bind_Ret in Hc as (r & Hr & [= ->]).
    destruct (free_ty_args_spec _ _ _ _ Hr Hx) as (f & j & a & [= -> -> ->] & ?). split; [by exists mc, f|done].
Qed.

(** ** Well-formedness does not depend on types and pure values *)
Lemma set_ty_arg_args i ty cmd : command_args (set_ty_arg i ty cmd) = command_args cmd.
Proof. by destruct cmd. Qed.

Lemma scoped_set_ty_arg ni cmds idx i ty : scoped ni cmds → scoped ni (alter (set_ty_arg i ty) idx cmds).
Proof.
  intros Hs k cmd Hk. destruct (decide (k = idx)) as [->|Hne].
  - rewrite list_lookup_alter, decide_True in Hk by done. apply fmap_Some in Hk as (c & Hc & ->).
    rewrite set_ty_arg_args. by apply Hs.
  - rewrite list_lookup_alter_ne in Hk by done. by apply Hs.
Qed.

Lemma insert_pure_objects info inputs i v v' : inputs !! i = Some v → is_object v' = is_object v →
  (is_object v = true → v' = v) →
  input_ids (<[i := v']> inputs) = input_ids inputs ∧
  (Forall (standard info) inputs → Forall (standard info) (<[i := v']> inputs)).
Proof.
  intros Hi Ho Hsame. destruct (is_object v) eqn:Ev.
  { rewrite Hsame by done. by rewrite list_insert_id. }
  split.
  - assert (inputs = take i inputs ++ v :: drop (S i) inputs) as E by (symmetry; by apply take_drop_middle).
    rewrite insert_take_drop by by eapply lookup_lt_Some. rewrite E at 3. rewrite !input_ids_app. f_equal.
    destruct v, v'; done.
  - intros H. apply Forall_insert; [done|]. by destruct v'.
Qed.

(** *** One argument *)
Definition protected_input (i : nat) : Prop := i < input_limit.

Lemma arg_idx_candidates_spec f mc k : k ∈ arg_idx_candidates f mc input_limit →
  ∃ j p idx, k = as_u16 j ∧ fa_parameters f !! j = Some p ∧ mc_arguments mc !! j = Some (Input idx) ∧
    is_mutable p = true ∧ input_limit ≤ N.to_nat idx.
Proof.
  intros (x & Hx & E)%list_elem_of_omap. destruct x as [j [p arg]]. apply (elem_of_drop_imap _ 0) in Hx as [_ Hx].
  apply lookup_zip_with_Some in Hx as (p' & arg' & [= -> ->] & Hp & Harg).
  destruct arg' as [|idx| |]; try done. destruct (is_mutable p') eqn:Em; [|done].
  destruct (Nat.leb_spec input_limit (N.to_nat idx)); [|done]. injection E as <-. by exists j, p', idx.
Qed.

Lemma mutate_ty_arg_spec ptb stage_idx r res ptb' r' : mutate_ty_arg meta flash ptb stage_idx r = Ret ((res, ptb'), r') →
  match res with
  | Skipped => ptb' = ptb
  | Mutated => ∃ abilities idx i ty tags, free_ty_arg (seq_commands ptb) abilities idx i ∧
      match stage_idx with Some k => idx = k | None => start_idx ≤ idx end ∧
      md_ability_to_type_tag (fm_base meta) !! abilities = Some tags ∧ ty ∈ tags ∧
      ptb' = MkSequence (seq_inputs ptb) (alter (set_ty_arg i ty) idx (seq_commands ptb))
  end.
Proof.
  unfold mutate_ty_arg. intros E. destruct (seq_commands ptb) as [|cmd0 cmds] eqn:Ec; [by apply mret_Ret in E as [[= <- <-] _]|].
  rewrite <- Ec in *. apply rnd_bind_Ret in E as (l & r1 & Hl & E). apply lift_Ret in Hl as [Hl _].
  destruct l as [|x0 xs]; [by apply mret_Ret in E as [[= <- <-] _]|].
  apply rnd_bind_Ret in E as ([a [idx i]] & r2 & Hx & E). apply pick_elem in Hx.
  apply rnd_bind_Ret in E as (o & r3 & Ho & E). apply choose_elem in Ho. apply mret_Ret in E as [E _].
  destruct o as [ty|]; injection E as <- <-; [|done].
  destruct (ty_arg_candidates_spec _ _ _ _ _ _ Hl Hx) as [Hfree Hidx].
  destruct (md_ability_to_type_tag (fm_base meta) !! a) as [tags|] eqn:Et; [|by apply elem_of_nil in Ho].
  by exists a, idx, i, ty, tags.
Qed.

(** One input is replaced: not a protected one, and no object. *)
Definition one_input (ptb ptb' : MoveSequence) : Prop :=
  seq_commands ptb' = seq_commands ptb ∧ ∃ k idx mc j p f v v',
    seq_commands ptb !! k = Some (Call mc) ∧ mc_arguments mc !! j = Some (Input idx) ∧
    call_function meta mc = Ret f ∧ fa_parameters f !! j = Some p ∧ is_mutable p = true ∧
    input_limit ≤ N.to_nat idx ∧ seq_inputs ptb !! N.to_nat idx = Some v ∧
    is_object v' = is_object v ∧ (is_object v = true → v' = v) ∧
    seq_inputs ptb' = <[N.to_nat idx := v']> (seq_inputs ptb).

Lemma mutate_call_arg_spec pool magic ptb cmd_idx mc r res ptb' r' :
  seq_commands ptb !! cmd_idx = Some (Call mc) → (N.of_nat (length (mc_arguments mc)) ≤ 65536)%N →
  mutate_call_arg meta flash havoc dword_interesting redraw_fuel pool magic ptb cmd_idx mc r
    = Ret (Some ((res, ptb'), r')) →
  match res with Skipped => ptb' = ptb | Mutated => one_input ptb ptb' end.
Proof.
  intros Hmc Hlen E. unfold mutate_call_arg in E. spin_bind E f Hf. apply call_Ret in Hf as [Hf _].
  destruct (arg_idx_candidates f mc input_limit) as [|c0 cs] eqn:Ec; [by apply spin_mret_Ret in E as [[= <- <-] _]|].
  spin_bind E o Ho. apply draw_Ret, choose_elem in Ho. spin_bind E idx Hi. apply call_Ret in Hi as [Hi _].
  apply unwrap_Ret in Hi. subst o. rewrite <- Ec in Ho.
  destruct (arg_idx_candidates_spec _ _ _ Ho) as (j & p & input_idx & -> & Hp & Harg & Hmut & Hlim).
  assert (N.to_nat (as_u16 j) = j) as Hj by (apply as_u16_small; apply lookup_lt_Some in Harg; lia).
  spin_bind E arg Ha. apply call_Ret in Ha as [Ha _]. apply unwrap_Ret in Ha. rewrite Hj, Harg in Ha. injection Ha as <-.
  spin_bind E v Hv. apply call_Ret in Hv as [Hv _]. apply unwrap_Ret in Hv.
  spin_bind E q Hq. apply call_Ret in Hq as [Hq _]. apply unwrap_Ret in Hq. rewrite Hj, Hp in Hq. injection Hq as <-.
  rewrite Hmut in E. cbn [negb] in E. spin_bind E v' Hv'. apply spin_mret_Ret in E as [[= <- <-] _].
  apply mutate_value_object in Hv' as [Hobj Hsame]. split; [done|].
  by exists cmd_idx, input_idx, mc, j, p, f, v, v'.
Qed.

(** C37: [mutate_arg] changes one thing: a type argument that no parameter and no returned
    value of its call mentions, to a type of the abilities its type parameter asks for,
    or one input that a call takes for a pure parameter. The inputs and commands of a
    flash loan are left alone, objects stay what they are, the sequence stays well
    formed, and a skipped mutation changes nothing. *)
Theorem mutate_arg_confined pool magic stage_idx ptb r res ptb' r' :
  (∀ k mc, seq_commands ptb !! k = Some (Call mc) → (N.of_nat (length (mc_arguments mc)) ≤ 65536)%N) →
  mutate_arg meta flash havoc dword_interesting redraw_fuel pool magic stage_idx ptb r
    = Ret (Some ((res, ptb'), r')) →
  match res with
  | Skipped => ptb' = ptb
  | Mutated => one_input ptb ptb' ∨
      ∃ abilities idx i ty tags, free_ty_arg (seq_commands ptb) abilities idx i ∧
        match stage_idx with Some k => idx = k | None => start_idx ≤ idx end ∧
        md_ability_to_type_tag (fm_base meta) !! abilities = Some tags ∧ ty ∈ tags ∧
        ptb' = MkSequence (seq_inputs ptb) (alter (set_ty_arg i ty) idx (seq_commands ptb))
  end ∧
  ∀ info, wf_sequence info ptb → wf_sequence info ptb'.
Proof.
  intros Hargs E. match goal with |- ?P ∧ _ => assert P as HP; [|split; [exact HP|]] end.
  - unfold mutate_arg in E. destruct (seq_commands ptb) as [|cmd0 cmds] eqn:Ec; [by apply spin_mret_Ret in E as [[= <- <-] _]|].
    rewrite <- Ec in *. spin_bind E chance Hch. spin_bind E x Hx. destruct x as [res1 ptb1]. apply draw_Ret in Hx.
    assert (match res1 with Skipped => ptb1 = ptb | Mutated => ∃ ra rb, mutate_ty_arg meta flash ptb stage_idx ra = Ret ((Mutated, ptb1), rb) end) as H1.
    { destruct (chance =? 0)%N; [|by apply mret_Ret in Hx as [[= <- <-] _]].
      destruct res1; [by eexists _, _|]. by apply mutate_ty_arg_spec in Hx. }
    destruct res1; [apply spin_mret_Ret in E as [[= <- <-] _]; right; destruct H1 as (ra & rb & H1); by apply mutate_ty_arg_spec in H1|]. subst ptb1.
    spin_bind E cand Hc. destruct cand as [|c0 cs]; [by apply spin_mret_Ret in E as [[= <- <-] _]|].
    spin_bind E cmd_idx Hi. spin_bind E cmd Hcmd. apply call_Ret in Hcmd as [Hcmd _]. apply unwrap_Ret in Hcmd.
    destruct cmd as [mc| | | | | |]; try (by apply spin_mret_Ret in E as [[= <- <-] _]).
    apply mutate_call_arg_spec in E; [|done|by eapply Hargs]. destruct res; [by left|done].
  - intros info [W1 W2 W3]. destruct res; [|by subst].
    destruct HP as [(Hc & k & idx & mc & j & p & f & v & v' & _ & _ & _ & _ & _ & _ & Hv & Ho & Hs & Hi)|
      (a & idx & i & ty & tags & _ & _ & _ & _ & ->)].
    + destruct (insert_pure_objects info _ _ _ _ Hv Ho Hs) as [Hids Hstd]. split; rewrite ?Hi, ?Hc.
      * by rewrite length_insert.
      * by rewrite Hids.
      * by apply Hstd.
    + split; simpl; [by apply scoped_set_ty_arg|done|done].
Qed.
End mutate_spec.

(** ** Witness *)
Definition demo_mutated : MoveSequence := MkSequence [Arg_U64 8] (seq_commands demo_burnt).

Lemma demo_burnt_wf : wf_sequence (λ _, None) demo_burnt.
Proof.
  split; simpl.
  - intros [|[|k]] cmd Hk; [injection Hk as <-|injection Hk as <-|done]; repeat constructor.
  - constructor.
  - by repeat constructor.
Qed.

Lemma mutate_arg_confined_witness :
  mutate_arg demo_fuzz_metadata None no_havoc no_dword 5 ∅ false None demo_burnt [1; 0; 0; 7; 3]%N
    = Ret (Some ((Mutated, demo_mutated), [])) ∧ wf_sequence (λ _, None) demo_mutated.
Proof.
  assert (mutate_arg demo_fuzz_metadata None no_havoc no_dword 5 ∅ false None demo_burnt [1; 0; 0; 7; 3]%N
    = Ret (Some ((Mutated, demo_mutated), []))) as E by (vm_compute; reflexivity).
  split; [exact E|].
  destruct (mutate_arg_confined (RL := replay_rand) demo_fuzz_metadata None no_havoc no_dword 5 ∅ false None
    demo_burnt [1; 0; 0; 7; 3]%N Mutated demo_mutated []) as [_ H]; [|exact E|apply H, demo_burnt_wf].
  intros [|[|k]] mc Hk; [by injection Hk as <-|by injection Hk as <-|done].
Defined.
