(* ===== verification/Hooks.v ===== *)
(** * Hooks: calls around the calls of a sequence

    [crates/movy-fuzz/src/mutators/sequence/hooks.rs] and [post.rs]:
    [apply_hooks] copies a base sequence and puts hook calls before, between and
    after its commands ([append_function] without splits); then the balances and
    key-store objects left over are converted and transferred. Stripping is in
    [Remap]. *)
From S2P Require Import Prelude Types Abi TypeArgs TypeGraph Meta Remap Removal Random Objects Construct Values Append.

Section hooks.
Context `{PG : PetGraph G} {Rand : Type} `{RL : RandLib}.
Context (meta : FuzzMetadata (G := G) (Rand := Rand)) (object_info : MoveAddress → option MoveObjectInfo).
Context (havoc : ByteMutator → ByteMutator) (dword_interesting : ByteMutator) (redraw_fuel : nat).

Abbreviation FixedArgs := (gmap N (SequenceArgument * MoveTypeTag)).

Definition known_function (ident : FunctionIdent) : option MoveFunctionAbi :=
  get_function (fm_base meta) (module_address (fi_module ident)) (module_name (fi_module ident)) (fi_name ident).

(** A hook is appended without splits. *)
Definition append_hook (ident : FunctionIdent) (fixed_args : FixedArgs) (fixed_ty_args : TyArgs)
    (used_arguments : list SequenceArgument) (ptb : MoveSequence) :
    spin (MoveSequence * option (list SequenceArgument * list SequenceArgument)) :=
  append_function meta object_info havoc dword_interesting redraw_fuel MAX_LEVELS ptb ident fixed_args fixed_ty_args
    used_arguments true.

(** ** One hook *)

(** The target's arguments become the hook's, parameter by parameter; [None]: the
    signatures differ and the hook is skipped. *)
Fixpoint mirror_arguments (ty_args : TyArgs) (param_offset i : nat)
    (params : list (MoveAbiSignatureToken * MoveAbiSignatureToken)) (arguments : list SequenceArgument)
    (fixed_args : FixedArgs) : option FixedArgs :=
  match params with
  | [] => Some fixed_args
  | (hook_param, target_param) :: params =>
      hook_ty ← subst ty_args hook_param;
      target_ty ← subst ty_args target_param;
      if bool_decide (hook_ty ≠ target_ty) then None else
      if is_tx_context target_param then mirror_arguments ty_args param_offset (S i) params arguments fixed_args else
      arg ← arguments !! i;
      mirror_arguments ty_args param_offset (S i) params arguments
        (<[as_u16 (param_offset + i) := (arg, hook_ty)]> fixed_args)
  end.

Definition context_argument (hook_abi : MoveFunctionAbi) (ctx_arg : option SequenceArgument) : FixedArgs :=
  match ctx_arg, head (fa_parameters hook_abi) ≫= subst ∅ with
  | Some ctx, Some param_ty => {[ 0%N := (ctx, param_ty) ]}
  | _, _ => ∅
  end.

(** The arguments a hook must take; [None]: it is skipped. *)
Definition hook_arguments (hook_abi : MoveFunctionAbi) (target : option (MoveCall * MoveFunctionAbi))
    (ctx_arg : option SequenceArgument) : option (FixedArgs * TyArgs) :=
  let param_offset := match ctx_arg with Some _ => 1 | None => 0 end in
  let fixed_args := context_argument hook_abi ctx_arg in
  match target with
  | None => Some (fixed_args, ∅)
  | Some (target_call, target_abi) =>
      if negb (length (fa_type_parameters hook_abi) =? length (mc_type_arguments target_call))%nat then None else
      let fixed_ty_args := ty_args_map (mc_type_arguments target_call) in
      if negb (length (fa_parameters hook_abi) =? param_offset + length (fa_parameters target_abi))%nat then None else
      fixed_args ← mirror_arguments fixed_ty_args param_offset 0
        (zip (drop param_offset (fa_parameters hook_abi)) (fa_parameters target_abi)) (mc_arguments target_call) fixed_args;
      Some (fixed_args, fixed_ty_args)
  end.

Definition append_hook_call (hook_ident : FunctionIdent) (target : option (MoveCall * MoveFunctionAbi))
    (ctx_arg : option SequenceArgument) (ptb : MoveSequence) : spin MoveSequence :=
  match known_function hook_ident with
  | None => mret ptb
  | Some hook_abi =>
      match hook_arguments hook_abi target ctx_arg with
      | None => mret ptb
      | Some (fixed_args, fixed_ty_args) =>
          let used_arguments := map (λ x, x.2.1) (btree_iter fixed_args) in
          '(ptb, _) ← append_hook hook_ident fixed_args fixed_ty_args used_arguments ptb;
          mret ptb
      end
  end.

Fixpoint append_hook_calls (hooks : list FunctionIdent) (target : option (MoveCall * MoveFunctionAbi))
    (ctx_arg : option SequenceArgument) (ptb : MoveSequence) : spin MoveSequence :=
  match hooks with
  | [] => mret ptb
  | hook :: hooks =>
      ptb ← append_hook_call hook target ctx_arg ptb;
      append_hook_calls hooks target ctx_arg ptb
  end.

(** ** The context object *)
Definition resolve_destroy_param_ty (idents : option (FunctionIdent * FunctionIdent)) : option MoveTypeTag :=
  '(_, destroy_ctx) ← idents;
  abi ← known_function destroy_ctx;
  p ← head (fa_parameters abi);
  subst ∅ p.

Definition append_context_creation (idents : option (FunctionIdent * FunctionIdent)) (ptb : MoveSequence) :
    spin (MoveSequence * option SequenceArgument) :=
  match idents with
  | None => mret (ptb, None)
  | Some (create_ctx, _) =>
      '(ptb, r) ← append_hook create_ctx ∅ ∅ [] ptb;
      mret (ptb, '(_, rets) ← r; head rets)
  end.

Definition append_context_destruction (idents : option (FunctionIdent * FunctionIdent))
    (destroy_param_ty : option MoveTypeTag) (ctx_arg : option SequenceArgument) (ptb : MoveSequence) :
    spin MoveSequence :=
  match ctx_arg, idents, destroy_param_ty with
  | Some ctx_arg, Some (_, destroy_ctx), Some param_ty =>
      '(ptb, _) ← append_hook destroy_ctx {[ 0%N := (ctx_arg, param_ty) ]} ∅ [] ptb;
      mret ptb
  | _, _, _ => mret ptb
  end.

(** ** Hooks around one call *)
Definition push_command (cmd : MoveSequenceCall) (ptb : MoveSequence) : MoveSequence :=
  MkSequence (seq_inputs ptb) (seq_commands ptb ++ [cmd]).

(** [None]: the call has no hooks. *)
Definition handle_function_call_hooks (idents : option (FunctionIdent * FunctionIdent))
    (destroy_param_ty : option MoveTypeTag) (movecall remapped_call : MoveCall) (ptb : MoveSequence)
    (index_map : list N) : spin (option (MoveSequence * list N)) :=
  let func_ident := call_ident movecall in
  match get_function (fm_base meta) (mc_module_id movecall) (mc_module_name movecall) (mc_function movecall),
        fm_function_hooks meta !! func_ident with
  | Some target_abi, Some hooks =>
      '(ptb, hook_ctx) ← append_context_creation idents ptb;
      ptb ← append_hook_calls (pre_hooks hooks) (Some (remapped_call, target_abi)) hook_ctx ptb;
      let main_idx := as_u16 (length (seq_commands ptb)) in
      let ptb := push_command (Call remapped_call) ptb in
      let index_map := index_map ++ [main_idx] in
      ptb ← append_hook_calls (post_hooks hooks) (Some (remapped_call, target_abi)) hook_ctx ptb;
      ptb ← append_context_destruction idents destroy_param_ty hook_ctx ptb;
      mret (Some (ptb, index_map))
  | _, _ => mret None
  end.

(** One command of the base sequence. *)
Definition apply_command (idents : option (FunctionIdent * FunctionIdent)) (destroy_param_ty : option MoveTypeTag)
    (cmd : MoveSequenceCall) (ptb : MoveSequence) (index_map : list N) : spin (MoveSequence * list N) :=
  match cmd with
  | Call movecall =>
      remapped ← call (remap_command cmd index_map);
      match remapped with
      | Call remapped_call =>
          r ← handle_function_call_hooks idents destroy_param_ty movecall remapped_call ptb index_map;
          mret match r with
               | Some done => done
               | None =>
                   let '(cmds, index_map) := append_call_without_hooks (seq_commands ptb) index_map remapped_call in
                   (MkSequence (seq_inputs ptb) cmds, index_map)
               end
      | _ => call Panic
      end
  | _ =>
      '(cmds, index_map) ← call (append_non_call_command (seq_commands ptb) index_map cmd);
      mret (MkSequence (seq_inputs ptb) cmds, index_map)
  end.

Fixpoint apply_commands (idents : option (FunctionIdent * FunctionIdent)) (destroy_param_ty : option MoveTypeTag)
    (cmds : list MoveSequenceCall) (ptb : MoveSequence) (index_map : list N) : spin (MoveSequence * list N) :=
  match cmds with
  | [] => mret (ptb, index_map)
  | cmd :: cmds =>
      '(ptb, index_map) ← apply_command idents destroy_param_ty cmd ptb index_map;
      apply_commands idents destroy_param_ty cmds ptb index_map
  end.

(** ** What is left over *)

(** The type argument of the [Balance] that a call returned. *)
Definition balance_ty_arg (cmds : list MoveSequenceCall) (balance : SequenceArgument) : panics MoveTypeTag :=
  '(idx, ret_idx) ← match balance with
    | Result i => Ret (i, 0%N)
    | NestedResult i j => Ret (i, j)
    | _ => Panic
    end;
  cmd ← unwrap (cmds !! N.to_nat idx);
  match cmd with
  | Call movecall =>
      function ← unwrap (get_function (fm_base meta) (mc_module_id movecall) (mc_module_name movecall)
        (mc_function movecall));
      match fa_return_paramters function !! N.to_nat ret_idx with
      | Some (Tok_StructInstantiation _ type_arguments) =>
          ty ← unwrap (type_arguments !! 0);
          match ty with
          | Tok_TypeParameter j _ => unwrap (mc_type_arguments movecall !! N.to_nat j)
          | ty => unwrap (subst ∅ ty)
          end
      | _ => Panic
      end
  | _ => Panic
  end.

Definition from_balance_call (ty_arg : MoveTypeTag) (balance : SequenceArgument) : MoveSequenceCall :=
  Call {| mc_module_id := addr_two; mc_module_name := "coin"; mc_function := "from_balance";
          mc_type_arguments := [ty_arg]; mc_arguments := [balance] |}.

Fixpoint convert_balances (balances : list SequenceArgument) (ptb : MoveSequence) : panics MoveSequence :=
  match balances with
  | [] => Ret ptb
  | balance :: balances =>
      ty_arg ← balance_ty_arg (seq_commands ptb) balance;
      convert_balances balances (push_command (from_balance_call ty_arg balance) ptb)
  end.
Definition process_balance (ptb : MoveSequence) : panics MoveSequence :=
  object_data ← from_ptb meta object_info ptb;
  convert_balances (od_balances object_data) ptb.

Definition process_key_store (ptb : MoveSequence) : panics MoveSequence :=
  object_data ← from_ptb meta object_info ptb;
  match od_key_store_objects object_data with
  | [] => Ret ptb
  | objects =>
      let inputs := seq_inputs ptb ++ [Arg_Address (fm_attacker meta)] in
      dst ← u16_sub (as_u16 (length inputs)) 1;
      Ret (MkSequence inputs (seq_commands ptb ++ [TransferObjects objects (Input dst)]))
  end.

(** ** The whole sequence *)

(** Everything but the conversions at the end, with the new index of each base command. *)
Definition weave_hooks (base : MoveSequence) : spin (MoveSequence * list N) :=
  let idents := context_idents meta in
  let destroy_param_ty := resolve_destroy_param_ty idents in
  let ptb := MkSequence (seq_inputs base) [] in
  '(ptb, global_ctx) ← append_context_creation idents ptb;
  ptb ← append_hook_calls (pre_hooks (fm_sequence_hooks meta)) None global_ctx ptb;
  '(ptb, index_map) ← apply_commands idents destroy_param_ty (seq_commands base) ptb [];
  ptb ← append_hook_calls (post_hooks (fm_sequence_hooks meta)) None global_ctx ptb;
  ptb ← append_context_destruction idents destroy_param_ty global_ctx ptb;
  mret (ptb, index_map).

Definition apply_hooks (base : MoveSequence) : spin MoveSequence :=
  '(ptb, _) ← weave_hooks base;
  ptb ← call (process_balance ptb);
  call (process_key_store ptb).
End hooks.
