(* ===== verification/HooksSpec.v ===== *)
(** * HooksSpec: hooks leave the sequence they decorate alone

    [apply_hooks] ([Hooks]) keeps sequences well formed, contains the base
    commands in their order, re-indexed, and can be undone by [strip_generated]
    ([Remap]) when hooks bring nothing but themselves. *)
From S2P Require Import Prelude Types Abi TypeArgs TypeGraph Meta Remap Removal Random Objects Construct ConstructSpec Values Append AppendSpec Hooks.

(** ** Re-indexing *)
Definition remapped_args (index_map : list N) : list SequenceArgument → list SequenceArgument → Prop :=
  Forall2 (λ a a', remap_arg index_map a = Ret a').

Lemma mapM_remapped index_map l l' : mapM (remap_arg index_map) l = Ret l' → remapped_args index_map l l'.
Proof.
  revert l'. induction l as [|a l IH]; intros l' H; csimpl in H; [by injection H as <-; constructor|].
  apply panics_bind_Ret in H as (a' & Ha & H). apply panics_bind_Ret in H as (k & Hk & [= <-]).
  constructor; [done|by apply IH].
Qed.

Lemma remap_command_args index_map cmd cmd' : remap_command cmd index_map = Ret cmd' →
  remapped_args index_map (command_args cmd) (command_args cmd').
Proof.
  intros E. destruct cmd; cbn [remap_command traverse_command] in E;
    repeat (apply panics_bind_Ret in E as (? & ?%mapM_remapped & E) || apply panics_bind_Ret in E as (? & ? & E));
    injection E as <-; cbn [command_args set_arguments mc_arguments]; unfold remapped_args in *;
    first [done|by apply Forall2_app; [|repeat constructor]|by repeat constructor].
Qed.

Lemma remap_command_scope index_map cmd cmd' ni k nc : remap_command cmd index_map = Ret cmd' →
  Forall (λ n, N.to_nat n < nc) index_map → Forall (in_scope ni k) (command_args cmd) →
  Forall (in_scope ni nc) (command_args cmd').
Proof.
  intros E%remap_command_args Him Hsc. induction E as [|a a' l l' Ha _ IH]; [done|].
  apply Forall_cons in Hsc as [Hs Hsc]. constructor; [|by apply IH].
  destruct a; cbn [remap_arg] in Ha; try (injection Ha as <-; done);
    apply panics_bind_Ret in Ha as (n & Hn & [= <-]); apply unwrap_Ret in Hn; cbn [in_scope];
    by eapply (Forall_lookup_1 _ _ _ _ Him).
Qed.

Lemma remap_arg_app index_map more a a' : remap_arg index_map a = Ret a' → remap_arg (index_map ++ more) a = Ret a'.
Proof.
  destruct a; cbn [remap_arg]; try done; intros (n & Hn & [= <-])%panics_bind_Ret; apply unwrap_Ret in Hn;
    by rewrite (lookup_app_l_Some _ _ _ _ Hn).
Qed.
Lemma mapM_remap_app index_map more l l' : mapM (remap_arg index_map) l = Ret l' →
  mapM (remap_arg (index_map ++ more)) l = Ret l'.
Proof.
  revert l'. induction l as [|a l IH]; intros l' H; [done|]. csimpl in H. cbn [mapM].
  apply panics_bind_Ret in H as (a' & Ha & H). apply panics_bind_Ret in H as (k & Hk & [= <-]).
  rewrite (remap_arg_app _ _ _ _ Ha). specialize (IH _ Hk). unfold mbind, panics_mbind in *. simpl. by rewrite IH.
Qed.
Lemma remap_command_app index_map more cmd cmd' : remap_command cmd index_map = Ret cmd' →
  remap_command cmd (index_map ++ more) = Ret cmd'.
Proof.
  unfold remap_command. destruct cmd; cbn [traverse_command]; intros E; try done;
    repeat match type of E with
    | _ = Ret _ => apply panics_bind_Ret in E as (? & H & E);
        first [rewrite (mapM_remap_app _ more _ _ H)|rewrite (remap_arg_app _ more _ _ H)]; clear H; cbn [mbind panics_mbind panics_bind]
    end; exact E.
Qed.

(** ** A base sequence inside a longer one *)
Inductive woven : list MoveSequenceCall → list N → list MoveSequenceCall → Prop :=
| woven_nil : woven [] [] []
| woven_insert base im cmds cmd : woven base im cmds → woven base im (cmds ++ [cmd])
| woven_base base im cmds cmd cmd' : woven base im cmds → remap_command cmd im = Ret cmd' →
    woven (base ++ [cmd]) (im ++ [as_u16 (length cmds)]) (cmds ++ [cmd']).

Lemma woven_inserts base im cmds k : woven base im cmds → woven base im (cmds ++ k).
Proof.
  intros H. revert cmds H. induction k as [|c k IH]; intros cmds H; [by rewrite app_nil_r|].
  replace (cmds ++ c :: k) with ((cmds ++ [c]) ++ k) by by rewrite <- app_assoc. apply IH. by constructor.
Qed.

Lemma woven_range base im cmds : woven base im cmds →
  length im = length base ∧ Forall (λ n, N.to_nat n < length cmds) im.
Proof.
  induction 1 as [|base im cmds cmd H [IH1 IH2]|base im cmds cmd cmd' H [IH1 IH2] Hr]; [done|..];
    rewrite !length_app; simpl; (split; [lia|]).
  - eapply Forall_impl; [exact IH2|]. simpl. lia.
  - apply Forall_app_2; [eapply Forall_impl; [exact IH2|]; simpl; lia|].
    repeat constructor. pose proof (as_u16_le (length cmds)). lia.
Qed.

(** Where the base commands are. *)
Lemma woven_lookup base im cmds : woven base im cmds → (N.of_nat (length cmds) < 65536)%N →
  StronglySorted N.lt im ∧ ∀ k cmd, base !! k = Some cmd → ∃ n cmd', im !! k = Some n ∧
    cmds !! N.to_nat n = Some cmd' ∧ remap_command cmd im = Ret cmd'.
Proof.
  induction 1 as [|base im cmds cmd H IH|base im cmds cmd cmd' H IH Hr]; intros Hb.
  - split; [constructor|intros k cmd Hk; by rewrite lookup_nil in Hk].
  - rewrite length_app in Hb. simpl in Hb. destruct IH as [IH1 IH2]; [lia|]. split; [done|].
    intros k c Hk. destruct (IH2 k c Hk) as (n & c' & Hn & Hc' & Hr). exists n, c'. split_and!; [done| |done].
    by apply lookup_app_l_Some.
  - rewrite length_app in Hb. simpl in Hb. destruct IH as [IH1 IH2]; [lia|].
    destruct (woven_range _ _ _ H) as [Hl Hrange]. split.
    + apply StronglySorted_app_2; [|done|by repeat constructor]. intros n m Hn Hm%list_elem_of_singleton.
      subst m. rewrite Forall_forall in Hrange. specialize (Hrange n Hn).
      pose proof (as_u16_of_nat (length cmds) ltac:(lia)) as Hu. rewrite Hu. lia.
    + intros k c [Hk|[Hk Hc]]%lookup_app_Some.
      * destruct (IH2 k c Hk) as (n & c' & Hn & Hc' & Hr'). exists n, c'. split_and!; [by apply lookup_app_l_Some|by apply lookup_app_l_Some|].
        by apply remap_command_app.
      * apply list_lookup_singleton_Some in Hc as [Hk0 <-]. exists (as_u16 (length cmds)), cmd'. split_and!.
        -- rewrite lookup_app_r by lia. by replace (k - length im) with 0 by lia.
        -- rewrite as_u16_small by lia. by rewrite lookup_app_r, Nat.sub_diag by lia.
        -- by apply remap_command_app.
Qed.

(** When only hooks were added, the base sequence is woven in in the sense of [Remap]. *)
Lemma woven_weave hooks base im cmds : woven base im cmds → (N.of_nat (length cmds) < 65536)%N →
  (∀ n cmd, cmds !! n = Some cmd → N.of_nat n ∉ im → is_hook hooks cmd = true) →
  Forall (λ c, is_hook hooks c = false) base → weave hooks base im cmds.
Proof.
  induction 1 as [|base im cmds cmd H IH|base im cmds cmd cmd' H IH Hr]; intros Hb Hins Hbase; [constructor|..];
    rewrite length_app in Hb; simpl in Hb; destruct (woven_range _ _ _ H) as [_ Hrange];
    rewrite Forall_forall in Hrange.
  - constructor; [apply IH; [lia| |done]|].
    + intros n c Hn. apply Hins. by apply lookup_app_l_Some.
    + apply (Hins (length cmds)); [by rewrite lookup_app_r, Nat.sub_diag by lia|].
      intros Hin. specialize (Hrange _ Hin). simpl in Hrange. lia.
  - apply Forall_app in Hbase as [Hbase Hcmd]. apply Forall_cons in Hcmd as [Hcmd _].
    assert (weave hooks base im cmds) as Hw.
    { apply IH; [lia| |done]. intros n c Hn Hni. apply (Hins n); [by apply lookup_app_l_Some|].
      intros [Hin|Hin%list_elem_of_singleton]%elem_of_app; [done|]. apply lookup_lt_Some in Hn.
      rewrite as_u16_of_nat in Hin by lia. lia. }
    eapply weave_other; [done|done|]. unfold append_non_call_command. by rewrite Hr.
Qed.

(** *** Stripping what is put after the hooks *)
Lemma strip_loop_no_hooks hooks l : ∀ mapping kept, Forall (λ c, is_hook hooks c = false) l →
  ∃ more, strip_loop hooks l mapping kept = (mapping ++ more, kept ++ l).
Proof.
  induction l as [|c l IH]; intros mapping kept H; [exists []; by rewrite !app_nil_r|].
  apply Forall_cons in H as [Hc H]. cbn [strip_loop]. rewrite Hc. destruct (IH (mapping ++ [Some (as_u16 (length kept))]) (kept ++ [c]) H) as [more ->].
  rewrite <- !app_assoc. by eexists.
Qed.

Definition is_transfer_to_input (cmd : MoveSequenceCall) : bool :=
  match cmd with TransferObjects _ (Input _) => true | _ => false end.

Lemma remap_keeps_from_balance mapping cmd cmd' : remap_command_with_map cmd mapping = Some cmd' →
  is_from_balance cmd' = is_from_balance cmd.
Proof.
  unfold remap_command_with_map. destruct cmd; cbn [traverse_command]; intros E;
    repeat (apply bind_Some in E as (? & _ & E)); injection E as <-; done.
Qed.
Lemma remap_keeps_transfer mapping l i cmd' :
  remap_command_with_map (TransferObjects l (Input i)) mapping = Some cmd' → is_transfer_to_input cmd' = true.
Proof.
  unfold remap_command_with_map. cbn [traverse_command remap_arg_with_map]. intros E.
  apply bind_Some in E as (args & _ & E). by injection E as <-.
Qed.

Lemma drop_from_balance_app l fb : Forall (λ c, is_from_balance c = true) fb →
  (∀ c, last l = Some c → is_from_balance c = false) → drop_from_balance (length (l ++ fb)) (l ++ fb) = l.
Proof.
  intros Hfb Hl. induction fb as [|c fb IH] using rev_ind.
  - rewrite app_nil_r. destruct l as [|x l _] using rev_ind; [done|]. rewrite last_snoc in Hl. specialize (Hl x eq_refl).
    rewrite length_app, Nat.add_comm. cbn [drop_from_balance length Nat.add].
    rewrite lookup_app_r, Nat.sub_diag by done. simpl. by rewrite Hl.
  - apply Forall_app in Hfb as [Hfb Hc]. apply Forall_cons in Hc as [Hc _]. rewrite app_assoc, length_app, Nat.add_comm.
    cbn [drop_from_balance length Nat.add]. rewrite lookup_app_r, Nat.sub_diag by done. simpl. rewrite Hc.
    rewrite delete_middle, app_nil_r. by apply IH.
Qed.

(** ** The functions of a hooked sequence *)
Section hooks_spec.
Context `{PG : PetGraph G} {Rand : Type} `{RL : RandLib}.
Context (meta : FuzzMetadata (G := G) (Rand := Rand)) (object_info : MoveAddress → option MoveObjectInfo).
Context (havoc : ByteMutator → ByteMutator) (dword_interesting : ByteMutator) (redraw_fuel : nat).
Context (max_params : nat).
Hypothesis max_params_known : ∀ addr m f abi, get_function (fm_base meta) addr m f = Some abi →
  length (fa_parameters abi) ≤ max_params.

Abbreviation append_hook := (append_hook meta object_info havoc dword_interesting redraw_fuel).
Abbreviation append_hook_call := (append_hook_call meta object_info havoc dword_interesting redraw_fuel).
Abbreviation append_hook_calls := (append_hook_calls meta object_info havoc dword_interesting redraw_fuel).
Abbreviation creation := (append_context_creation meta object_info havoc dword_interesting redraw_fuel).
Abbreviation destruction := (append_context_destruction meta object_info havoc dword_interesting redraw_fuel).

Definition scope_of (ptb : MoveSequence) (arg : SequenceArgument) : Prop :=
  in_scope (length (seq_inputs ptb)) (length (seq_commands ptb)) arg.
Lemma scope_of_mono p q arg : extends p q → scope_of p arg → scope_of q arg.
Proof. intros [H1 H2]%sequence_extends_length. by apply in_scope_mono. Qed.

(** A step that only adds, and keeps a sequence with room for inputs well formed if [pre] holds. *)
Definition adds (pre : Prop) (ptb ptb' : MoveSequence) : Prop :=
  extends ptb ptb' ∧ (bounded max_params ptb' → wf_sequence object_info ptb → pre → wf_sequence object_info ptb').

Lemma adds_refl pre ptb : adds pre ptb ptb.
Proof. split; [apply extends_refl|done]. Qed.
Lemma adds_trans (pre pre2 : Prop) p q r : adds pre p q →
  (extends p q → bounded max_params q → wf_sequence object_info p → pre → pre2) → adds pre2 q r → adds pre p r.
Proof.
  intros [X1 W1] Hpre [X2 W2]. split; [by eapply extends_trans|]. intros Hb Hw Hp.
  assert (bounded max_params q) as Hbq by by eapply bounded_mono.
  apply W2; [done| |by apply Hpre]. by apply W1.
Qed.

Lemma append_hook_appends ident fixed_args fixed_ty_args used ptb r ptb' res r' :
  append_hook ident fixed_args fixed_ty_args used ptb r = Ret (Some ((ptb', res), r')) →
  adds (fixed_in_scope fixed_args ptb) ptb ptb' ∧
  (bounded max_params ptb' → wf_sequence object_info ptb → fixed_in_scope fixed_args ptb →
   match res with Some (_, rets) => ∀ ret, ret ∈ rets → scope_of ptb' ret | None => True end).
Proof.
  intros E. unfold Hooks.append_hook in E.
  apply (append_function_appends meta object_info havoc dword_interesting redraw_fuel max_params max_params_known) in E.
  destruct E as [X H]. split; [split; [done|intros; by apply H]|]. intros Hb Hw Hf.
  destruct (H Hb Hw Hf) as [_ Ha]. destruct res as [[args rets]|]; [|done].
  destruct Ha as (cmds & tys & f & Hc & _ & _ & ->). intros ret (k & Hk)%list_elem_of_lookup.
  unfold scope_of. rewrite Hc, length_app, Nat.add_1_r. by eapply returned_in_scope.
Qed.

(** *** One hook *)
Lemma mirror_arguments_scope ty_args offset params arguments ptb : Forall (scope_of ptb) arguments →
  ∀ i fixed_args fixed_args', fixed_in_scope fixed_args ptb →
  mirror_arguments ty_args offset i params arguments fixed_args = Some fixed_args' → fixed_in_scope fixed_args' ptb.
Proof.
  intros Hargs. induction params as [|[hp tp] params IH]; intros i fixed fixed' Hf E; [by injection E as <-|].
  cbn [mirror_arguments] in E. apply bind_Some in E as (hook_ty & _ & E). apply bind_Some in E as (target_ty & _ & E).
  case_bool_decide; [done|]. destruct (is_tx_context tp); [by eapply IH|].
  apply bind_Some in E as (arg & Ha & E). eapply IH; [|exact E].
  apply map_Forall_insert_2; [|done]. by apply (Forall_lookup_1 _ _ _ _ Hargs Ha).
Qed.

Definition target_scope (ptb : MoveSequence) (target : option (MoveCall * MoveFunctionAbi)) : Prop :=
  match target with Some (mc, _) => Forall (scope_of ptb) (mc_arguments mc) | None => True end.
Definition ctx_scope (ptb : MoveSequence) (ctx : option SequenceArgument) : Prop :=
  match ctx with Some arg => scope_of ptb arg | None => True end.

Lemma target_scope_mono p q target : extends p q → target_scope p target → target_scope q target.
Proof. intros X. destruct target as [[mc f]|]; [|done]. intros H. eapply Forall_impl; [exact H|]. intros a. by apply scope_of_mono. Qed.
Lemma ctx_scope_mono p q ctx : extends p q → ctx_scope p ctx → ctx_scope q ctx.
Proof. intros X. destruct ctx; [by apply scope_of_mono|done]. Qed.

Lemma hook_arguments_scope hook_abi target ctx fixed_args tys ptb : target_scope ptb target → ctx_scope ptb ctx →
  hook_arguments hook_abi target ctx = Some (fixed_args, tys) → fixed_in_scope fixed_args ptb.
Proof.
  intros Ht Hc E. assert (fixed_in_scope (context_argument hook_abi ctx) ptb) as H0.
  { unfold context_argument. destruct ctx as [c|]; [|apply map_Forall_empty].
    destruct (head _ ≫= _); [|apply map_Forall_empty]. by apply map_Forall_singleton. }
  unfold hook_arguments in E. destruct target as [[mc f]|]; [|by injection E as <- <-].
  destruct (negb _); [done|]. destruct (negb _); [done|].
  apply bind_Some in E as (fixed & Hm & [= <- <-]). by eapply mirror_arguments_scope.
Qed.

Lemma append_hook_call_adds hook target ctx ptb r ptb' r' :
  append_hook_call hook target ctx ptb r = Ret (Some (ptb', r')) →
  adds (target_scope ptb target ∧ ctx_scope ptb ctx) ptb ptb'.
Proof.
  intros E. unfold Hooks.append_hook_call in E. destruct (known_function meta hook) as [f|];
    [|apply spin_mret_Ret in E as [<- _]; apply adds_refl].
  destruct (hook_arguments f target ctx) as [[fixed tys]|] eqn:Eh; [|apply spin_mret_Ret in E as [<- _]; apply adds_refl].
  spin_bind E x Hx. destruct x as [p res]. apply spin_mret_Ret in E as [<- _].
  apply append_hook_appends in Hx as [[X W] _]. split; [done|]. intros Hb Hw [Ht Hc]. apply W; [done|done|].
  by eapply hook_arguments_scope.
Qed.

Lemma append_hook_calls_adds hooks target ctx : ∀ ptb r ptb' r',
  append_hook_calls hooks target ctx ptb r = Ret (Some (ptb', r')) →
  adds (target_scope ptb target ∧ ctx_scope ptb ctx) ptb ptb'.
Proof.
  induction hooks as [|h hooks IH]; intros ptb r ptb' r' E; [apply spin_mret_Ret in E as [<- _]; apply adds_refl|].
  cbn [Hooks.append_hook_calls] in E. spin_bind E p Hp. apply append_hook_call_adds in Hp.
  eapply adds_trans; [exact Hp| |by eapply IH]. intros X _ _ [? ?]. split; [by eapply target_scope_mono|by eapply ctx_scope_mono].
Qed.

Lemma creation_adds idents ptb r ptb' ctx r' : creation idents ptb r = Ret (Some ((ptb', ctx), r')) →
  adds True ptb ptb' ∧ (bounded max_params ptb' → wf_sequence object_info ptb → ctx_scope ptb' ctx).
Proof.
  intros E. unfold append_context_creation in E. destruct idents as [[c d]|];
    [|apply spin_mret_Ret in E as [[= <- <-] _]; split; [apply adds_refl|done]].
  spin_bind E x Hx. destruct x as [p res]. apply spin_mret_Ret in E as [[= <- <-] _].
  apply append_hook_appends in Hx as [[X W] Hr]. split.
  - split; [done|]. intros Hb Hw _. apply W; [done|done|apply map_Forall_empty].
  - intros Hb Hw. specialize (Hr Hb Hw (map_Forall_empty _)). destruct res as [[args [|ret rets]]|]; simpl; try done.
    apply Hr. by left.
Qed.

Lemma destruction_adds idents ty ctx ptb r ptb' r' : destruction idents ty ctx ptb r = Ret (Some (ptb', r')) →
  adds (ctx_scope ptb ctx) ptb ptb'.
Proof.
  intros E. unfold append_context_destruction in E.
  destruct ctx as [arg|], idents as [[c d]|], ty as [t|]; try (apply spin_mret_Ret in E as [<- _]; apply adds_refl).
  spin_bind E x Hx. destruct x as [p res]. apply spin_mret_Ret in E as [<- _].
  apply append_hook_appends in Hx as [[X W] _]. split; [done|]. intros Hb Hw Hs. apply W; [done|done|].
  by apply map_Forall_singleton.
Qed.

Lemma push_command_adds cmd ptb : adds (Forall (scope_of ptb) (command_args cmd)) ptb (push_command cmd ptb).
Proof.
  split; [split; simpl; [exists []; by rewrite app_nil_r|by eexists]|].
  intros _ [W1 W2 W3] Hs. split; simpl; [by apply scoped_snoc|done|done].
Qed.

(** *** The commands of the base sequence *)
Definition args_inputs (ptb : MoveSequence) (cmd : MoveSequenceCall) : Prop :=
  ∃ k, Forall (in_scope (length (seq_inputs ptb)) k) (command_args cmd).
Lemma args_inputs_mono p q cmd : extends p q → args_inputs p cmd → args_inputs q cmd.
Proof. intros [H _]%sequence_extends_length [k Hk]. exists k. eapply Forall_in_scope_mono; [exact H| |exact Hk]. lia. Qed.

Lemma extends_commands p q : extends p q → ∃ k, seq_commands q = seq_commands p ++ k.
Proof. by intros [_ ?]. Qed.
Lemma woven_extends base im p q : extends p q → woven base im (seq_commands p) → woven base im (seq_commands q).
Proof. intros [_ [k ->]]. apply woven_inserts. Qed.

Abbreviation handle := (handle_function_call_hooks meta object_info havoc dword_interesting redraw_fuel).
Abbreviation apply_command := (apply_command meta object_info havoc dword_interesting redraw_fuel).
Abbreviation apply_commands := (apply_commands meta object_info havoc dword_interesting redraw_fuel).

Lemma handle_adds idents ty movecall remapped base im ptb r ptb' im' r' :
  handle idents ty movecall remapped ptb im r = Ret (Some (Some (ptb', im'), r')) →
  woven base im (seq_commands ptb) → remap_command (Call movecall) im = Ret (Call remapped) →
  adds (Forall (scope_of ptb) (mc_arguments remapped)) ptb ptb' ∧
  woven (base ++ [Call movecall]) im' (seq_commands ptb').
Proof.
  intros E Hw Hr. unfold handle_function_call_hooks in E.
  destruct (get_function _ _ _ _) as [f|]; [|by apply spin_mret_Ret in E as [? _]].
  destruct (fm_function_hooks meta !! _) as [hooks|]; [|by apply spin_mret_Ret in E as [? _]].
  spin_bind E x H1. destruct x as [p1 ctx]. spin_bind E p2 H2. spin_bind E p4 H4. spin_bind E p5 H5.
  apply spin_mret_Ret in E as [[= <- <-] _].
  apply creation_adds in H1 as [A1 C1]. apply append_hook_calls_adds in H2, H4. apply destruction_adds in H5.
  set (p3 := push_command (Call remapped) p2) in *. pose proof (push_command_adds (Call remapped) p2) as A3. fold p3 in A3.
  pose proof (proj1 A1) as X1. pose proof (proj1 H2) as X2. pose proof (proj1 A3) as X3. pose proof (proj1 H4) as X4.
  split.
  - set (pre1 := Forall (scope_of ptb) (mc_arguments remapped)).
    set (pre2 := λ p, Forall (scope_of p) (mc_arguments remapped) ∧ ctx_scope p ctx).
    assert (∀ p q, extends p q → pre2 p → pre2 q) as Hmono.
    { intros p q X [Ha Hc]. split; [by apply (target_scope_mono p q (Some (remapped, f)))|by eapply ctx_scope_mono]. }
    assert (adds pre1 ptb p1) as A1' by (split; [done|]; intros Hb Hwf _; by apply A1).
    eapply (adds_trans pre1 (pre2 p1)); [exact A1'| |].
    { intros _ Hb Hwf Ha. split; [by apply (target_scope_mono ptb p1 (Some (remapped, f)))|by apply C1]. }
    eapply (adds_trans _ (pre2 p2)); [exact H2|intros X _ _; by apply Hmono|].
    eapply (adds_trans _ (pre2 p3)); [|intros X _ _; by apply Hmono|].
    { split; [done|]. intros Hb Hwf [Ha _]. by apply A3. }
    eapply (adds_trans _ (pre2 p4)); [exact H4|intros X _ _; by apply Hmono|].
    split; [apply H5|]. intros Hb Hwf [_ Hc]. by apply H5.
  - eapply woven_extends; [apply H5|]. eapply woven_extends; [exact X4|]. simpl. apply woven_base; [|done].
    eapply woven_extends; [exact X2|]. by eapply woven_extends.
Qed.

Lemma apply_command_adds idents ty cmd base im ptb r ptb' im' r' :
  apply_command idents ty cmd ptb im r = Ret (Some ((ptb', im'), r')) → woven base im (seq_commands ptb) →
  adds (args_inputs ptb cmd) ptb ptb' ∧ woven (base ++ [cmd]) im' (seq_commands ptb').
Proof.
  intros E Hw. destruct (woven_range _ _ _ Hw) as [_ Hrange].
  assert (∀ cmd', remap_command cmd im = Ret cmd' → args_inputs ptb cmd → Forall (scope_of ptb) (command_args cmd')) as Hsc.
  { intros cmd' Hr [k Hk]. by eapply remap_command_scope. }
  assert (∀ cmd', remap_command cmd im = Ret cmd' → adds (args_inputs ptb cmd) ptb (push_command cmd' ptb)) as Hpush.
  { intros cmd' Hr. destruct (push_command_adds cmd' ptb) as [X W]. split; [done|]. intros Hb Hwf Ha. apply W; [done|done|].
    by apply Hsc. }
  destruct cmd as [movecall| | | | | |]; cbn [Hooks.apply_command] in E.
  2-7: spin_bind E x Hx; destruct x as [cmds im1]; apply spin_mret_Ret in E as [[= <- <-] _];
    apply call_Ret in Hx as [Hx _]; apply panics_bind_Ret in Hx as (cmd' & Hr & [= <- <-]);
    (split; [exact (Hpush _ Hr)|by apply woven_base]).
  spin_bind E cmd' Hr. apply call_Ret in Hr as [Hr _]. destruct cmd' as [remapped| | | | | |]; try (by apply call_Ret in E as [? _]).
  spin_bind E o Ho. apply spin_mret_Ret in E as [E _]. destruct o as [[p1 im1]|].
  - injection E as <- <-. eapply handle_adds in Ho as [[X W] Hw']; [|done|done]. split; [|done].
    split; [done|]. intros Hb Hwf Ha. apply W; [done|done|]. exact (Hsc _ Hr Ha).
  - injection E as <- <-. split; [exact (Hpush _ Hr)|by apply woven_base].
Qed.

Lemma apply_commands_adds idents ty cmds : ∀ base im ptb r ptb' im' r',
  apply_commands idents ty cmds ptb im r = Ret (Some ((ptb', im'), r')) → woven base im (seq_commands ptb) →
  adds (Forall (args_inputs ptb) cmds) ptb ptb' ∧ woven (base ++ cmds) im' (seq_commands ptb').
Proof.
  induction cmds as [|cmd cmds IH]; intros base im ptb r ptb' im' r' E Hw.
  { apply spin_mret_Ret in E as [[= <- <-] _]. rewrite app_nil_r. split; [apply adds_refl|done]. }
  cbn [Hooks.apply_commands] in E. spin_bind E x Hx. destruct x as [p im1].
  eapply apply_command_adds in Hx as [A1 Hw1]; [|done]. eapply IH in E as [A2 Hw2]; [|exact Hw1].
  rewrite <- app_assoc in Hw2. split; [|done]. eapply (adds_trans _ (Forall (args_inputs p) cmds)); [| |exact A2].
  - split; [apply A1|]. intros Hb Hwf [Ha _]%Forall_cons. by apply A1.
  - intros X _ _ [_ Ha]%Forall_cons. eapply Forall_impl; [exact Ha|]. intros c. by apply args_inputs_mono.
Qed.

Abbreviation weave_hooks := (weave_hooks meta object_info havoc dword_interesting redraw_fuel).

Lemma weave_hooks_adds base r ptb' im r' : weave_hooks base r = Ret (Some ((ptb', im), r')) →
  adds (Forall (args_inputs base) (seq_commands base)) (MkSequence (seq_inputs base) []) ptb' ∧
  woven (seq_commands base) im (seq_commands ptb').
Proof.
  intros E. unfold Hooks.weave_hooks in E. spin_bind E x H1. destruct x as [p1 ctx]. spin_bind E p2 H2. spin_bind E x H3.
  destruct x as [p3 im3]. spin_bind E p4 H4. spin_bind E p5 H5. apply spin_mret_Ret in E as [[= <- <-] _].
  apply creation_adds in H1 as [A1 C1]. apply append_hook_calls_adds in H2, H4. apply destruction_adds in H5.
  eapply (apply_commands_adds _ _ _ []) in H3 as [A3 Hw].
  2: { destruct (proj2 (proj1 A1)) as [k1 Hk1]. destruct (proj2 (proj1 H2)) as [k2 Hk2]. rewrite Hk2, Hk1. simpl.
       apply (woven_inserts [] [] []). constructor. }
  set (p0 := MkSequence (seq_inputs base) []) in *.
  set (pre1 := Forall (args_inputs base) (seq_commands base)).
  set (pre2 := λ p, Forall (args_inputs p) (seq_commands base) ∧ ctx_scope p ctx).
  assert (∀ p q, extends p q → pre2 p → pre2 q) as Hmono.
  { intros p q X [Ha Hc]. split; [|by eapply ctx_scope_mono]. eapply Forall_impl; [exact Ha|]. intros c. by apply args_inputs_mono. }
  split.
  - assert (adds pre1 p0 p1) as A1' by (split; [apply A1|]; intros Hb Hwf _; by apply A1).
    eapply (adds_trans pre1 (pre2 p1)); [exact A1'| |].
    { intros X Hb Hwf Ha. split; [|by apply C1]. eapply Forall_impl; [exact Ha|]. intros c. by apply (args_inputs_mono p0 p1). }
    eapply (adds_trans _ (pre2 p2)); [|intros X _ _; by apply Hmono|].
    { split; [apply H2|]. intros Hb Hwf [_ Hc]. by apply H2. }
    eapply (adds_trans _ (pre2 p3)); [|intros X _ _; by apply Hmono|].
    { split; [apply A3|]. intros Hb Hwf [Ha _]. by apply A3. }
    eapply (adds_trans _ (pre2 p4)); [|intros X _ _; by apply Hmono|].
    { split; [apply H4|]. intros Hb Hwf [_ Hc]. by apply H4. }
    split; [apply H5|]. intros Hb Hwf [_ Hc]. by apply H5.
  - eapply woven_extends; [apply H5|]. eapply woven_extends; [apply H4|]. exact Hw.
Qed.

(** *** Balances and key-store objects *)
Definition leftover (ni nc : nat) (d : ObjectData) : Prop :=
  Forall (in_scope ni nc) (od_balances d) ∧ Forall (in_scope ni nc) (od_key_store_objects d).

Lemma without_Forall P arg l : Forall P l → Forall P (without arg l).
Proof. intros H. apply Forall_forall. intros x [Hx _]%elem_of_filter_bool. by eapply Forall_forall in H. Qed.

Lemma leftover_scan_inputs ni nc inputs : ∀ i d d', scan_inputs object_info i inputs d = Ret d' →
  leftover ni nc d → leftover ni nc d'.
Proof.
  induction inputs as [|input inputs IH]; intros i d d' E Hd; [by injection E as <-|].
  destruct input; cbn [scan_inputs] in E; try (by eapply IH).
  apply panics_bind_Ret in E as (obj_id & _ & E). apply panics_bind_Ret in E as (info & _ & E).
  apply panics_bind_Ret in E as (gate & _ & E). eapply IH; [exact E|]. exact Hd.
Qed.

Lemma leftover_consume ni nc tys args : ∀ d d', consume_arguments tys args d = Ret d' → leftover ni nc d → leftover ni nc d'.
Proof.
  induction args as [|[arg param] args IH]; intros d d' E Hd; [by injection E as <-|].
  cbn [consume_arguments] in E. apply panics_bind_Ret in E as (d1 & E1 & E). eapply IH; [exact E|]. clear IH E.
  unfold consume_argument in E1. destruct (_ || _); [by injection E1 as <-|].
  apply panics_bind_Ret in E1 as (ty & _ & E1). apply panics_bind_Ret in E1 as (cs & _ & E1). destruct Hd as [Hb Hk].
  destruct arg; [|by injection E1 as <-|..];
    (destruct (is_hot_potato _); [apply panics_bind_Ret in E1 as (l & _ & E1)|]; injection E1 as <-;
     destruct (is_balance _), (is_key_store _); split; simpl; try apply without_Forall; done).
Qed.

Lemma leftover_returns ni nc tys n i rets : N.to_nat i < nc → ∀ j d d',
  return_values meta tys n i j rets d = Ret d' → leftover ni nc d → leftover ni nc d'.
Proof.
  intros Hi. induction rets as [|ret rets IH]; intros j d d' E Hd; [by injection E as <-|].
  cbn [return_values] in E. apply panics_bind_Ret in E as (d1 & E1 & E). eapply IH; [exact E|]. clear IH E.
  assert (∀ inner, return_vector meta tys ret inner d = Ret d1 → leftover ni nc d1) as Hvec.
  { intros inner Ev. unfold return_vector in Ev. apply panics_bind_Ret in Ev as (ty & _ & Ev).
    destruct inner; try (by injection Ev as <-); try (destruct (ability_contains _ _); by injection Ev as <-).
    apply panics_bind_Ret in Ev as ([] & _ & Ev); try (by injection Ev as <-).
    match goal with s : StructTagOf _ |- _ => destruct s end. apply panics_bind_Ret in Ev as (a & _ & Ev).
    destruct (ability_contains _ _); by injection Ev as <-. }
  unfold return_value in E1. destruct ret; try (by eapply Hvec); apply panics_bind_Ret in E1 as (ty & _ & E1);
    (destruct ty; try (by injection E1 as <-); injection E1 as <-; destruct Hd as [Hb Hk];
     assert (in_scope ni nc (result_argument n i j)) as Hr by (unfold result_argument; destruct (n =? 1)%nat; simpl; lia);
     repeat match goal with |- context [if ?b then _ else _] => destruct b end; split; simpl;
       try (apply Forall_app_2; [|by constructor]); done).
Qed.

Lemma leftover_from_ptb ptb d : from_ptb meta object_info ptb = Ret d →
  leftover (length (seq_inputs ptb)) (length (seq_commands ptb)) d.
Proof.
  unfold from_ptb. intros E. assert (∀ ni nc, leftover ni nc (push_used (fm_gas_id meta) object_data_new)) as H0 by done.
  destruct (seq_commands ptb) as [|cmd0 cmds0]; [injection E as <-; apply H0|].
  apply panics_bind_Ret in E as (d1 & E1 & E). eapply leftover_scan_inputs in E1; [|apply H0].
  assert (∀ cmds i d d' nc, i + length cmds ≤ nc → scan_commands meta i cmds d = Ret d' →
    leftover (length (seq_inputs ptb)) nc d → leftover (length (seq_inputs ptb)) nc d') as Hscan.
  { clear. induction cmds as [|cmd cmds IH]; intros i d d' nc Hi E Hd; [by injection E as <-|].
    cbn [scan_commands] in E. apply panics_bind_Ret in E as (d1 & E1 & E). simpl in Hi.
    eapply IH; [|exact E|]; [lia|]. destruct cmd; try (by injection E1 as <-).
    cbn [scan_command] in E1. apply panics_bind_Ret in E1 as (f & _ & E1). apply panics_bind_Ret in E1 as (d2 & E2 & E1).
    eapply leftover_returns; [|exact E1|by eapply leftover_consume]. pose proof (as_u16_le i). lia. }
  eapply Hscan; [|exact E|exact E1]. done.
Qed.

(** What is put after the hooks: conversions of balances, then at most one transfer. *)
Lemma convert_balances_adds balances : ∀ ptb ptb', convert_balances meta balances ptb = Ret ptb' →
  adds (Forall (scope_of ptb) balances) ptb ptb' ∧ seq_inputs ptb' = seq_inputs ptb ∧
  ∃ tys, seq_commands ptb' = seq_commands ptb ++ zip_with from_balance_call tys balances ∧ length tys = length balances.
Proof.
  induction balances as [|b balances IH]; intros ptb ptb' E.
  { injection E as <-. split; [apply adds_refl|]. split; [done|]. exists []. by rewrite app_nil_r. }
  cbn [convert_balances] in E. apply panics_bind_Ret in E as (ty & _ & E).
  destruct (IH _ _ E) as (A & Hi & tys & Hc & Hl). split_and!.
  - eapply (adds_trans _ (Forall (scope_of (push_command (from_balance_call ty b) ptb)) balances)); [| |exact A].
    + destruct (push_command_adds (from_balance_call ty b) ptb) as [X W]. split; [done|].
      intros Hb Hw [H1 _]%Forall_cons. apply W; [done|done|]. by repeat constructor.
    + intros X _ _ [_ H]%Forall_cons. eapply Forall_impl; [exact H|]. intros a. by apply scope_of_mono.
  - exact Hi.
  - exists (ty :: tys). rewrite Hc. simpl. by rewrite <- app_assoc, Hl.
Qed.

Lemma process_balance_adds ptb ptb' : process_balance meta object_info ptb = Ret ptb' →
  adds True ptb ptb' ∧ seq_inputs ptb' = seq_inputs ptb ∧
  ∃ tys balances, seq_commands ptb' = seq_commands ptb ++ zip_with from_balance_call tys balances.
Proof.
  intros (d & Hd & E)%panics_bind_Ret. apply convert_balances_adds in E as ([X W] & Hi & tys & Hc & _).
  split_and!; [|done|by eexists _, _]. split; [done|]. intros Hb Hw _. apply W; [done|done|]. by apply leftover_from_ptb in Hd as [? _].
Qed.

Lemma process_key_store_adds ptb ptb' : process_key_store meta object_info ptb = Ret ptb' →
  adds True ptb ptb' ∧
  (ptb' = ptb ∨ ∃ objects, seq_inputs ptb' = seq_inputs ptb ++ [Arg_Address (fm_attacker meta)] ∧
    seq_commands ptb' = seq_commands ptb ++ [TransferObjects objects (Input (as_u16 (length (seq_inputs ptb'))- 1))]).
Proof.
  intros (d & Hd & E)%panics_bind_Ret. apply leftover_from_ptb in Hd as [_ Hk].
  destruct (od_key_store_objects d) as [|o os]; [injection E as <-; split; [apply adds_refl|by left]|].
  apply panics_bind_Ret in E as (dst & Hdst & [= <-]). unfold u16_sub in Hdst. destruct (1 <=? _)%N eqn:Hle; [|done].
  injection Hdst as <-. apply N.leb_le in Hle. split; [|right; by eexists]. split; [split; by eexists|].
  intros _ [W1 W2 W3] _. rewrite length_app in *. simpl in Hle.
  assert (in_scope (length (seq_inputs ptb) + 1) (length (seq_commands ptb)) (Input (as_u16 (length (seq_inputs ptb) + 1) - 1))) as Hin.
  { simpl. pose proof (as_u16_le (length (seq_inputs ptb) + 1)). lia. }
  split; simpl; rewrite ?length_app; simpl.
  - apply scoped_snoc; [eapply scoped_mono; [|exact W1]; lia|]. simpl. constructor.
    + eapply in_scope_mono; [| |by apply Forall_cons in Hk as [Hk _]]; lia.
    + apply Forall_app_2; [|by repeat constructor]. apply Forall_cons in Hk as [_ Hk].
      eapply Forall_in_scope_mono; [| |exact Hk]; lia.
  - by rewrite input_ids_app, app_nil_r.
  - by apply Forall_app_2; [|repeat constructor].
Qed.

(** ** Decorated sequences *)
Abbreviation apply_hooks := (apply_hooks meta object_info havoc dword_interesting redraw_fuel).

Lemma apply_hooks_inv base r ptb' r' : apply_hooks base r = Ret (Some (ptb', r')) →
  ∃ ptb1 im ptb2, weave_hooks base r = Ret (Some ((ptb1, im), r')) ∧
    process_balance meta object_info ptb1 = Ret ptb2 ∧ process_key_store meta object_info ptb2 = Ret ptb'.
Proof.
  intros E. unfold Hooks.apply_hooks in E. spin_bind E x Hx. destruct x as [ptb1 im]. spin_bind E ptb2 H2.
  apply call_Ret in H2 as [H2 ->]. apply call_Ret in E as [H3 ->]. by exists ptb1, im, ptb2.
Qed.

Lemma apply_hooks_keeps base r ptb' r' : apply_hooks base r = Ret (Some (ptb', r')) →
  (∃ k, seq_inputs ptb' = seq_inputs base ++ k) ∧
  (∃ im, length im = length (seq_commands base) ∧
    ((N.of_nat (length (seq_commands ptb')) < 65536)%N → StronglySorted N.lt im ∧
     ∀ k cmd, seq_commands base !! k = Some cmd → ∃ n cmd', im !! k = Some n ∧
       seq_commands ptb' !! N.to_nat n = Some cmd' ∧ remap_command cmd im = Ret cmd')) ∧
  (bounded max_params ptb' → wf_sequence object_info base → wf_sequence object_info ptb').
Proof.
  intros E. apply apply_hooks_inv in E as (ptb1 & im & ptb2 & H1 & H2 & H3).
  apply weave_hooks_adds in H1 as [[X1 W1] Hw]. apply process_balance_adds in H2 as ([X2 W2] & _).
  apply process_key_store_adds in H3 as ([X3 W3] & _).
  pose proof (extends_trans _ _ _ X2 X3) as X23. split_and!.
  - destruct (extends_trans _ _ _ X1 X23) as [[k Hk] _]. by exists k.
  - exists im. pose proof (woven_extends _ _ _ _ X23 Hw) as Hw3. split; [by apply woven_range in Hw3 as [? _]|].
    intros Hb. by apply woven_lookup.
  - intros Hb [Hs Hids Hstd].
    assert (bounded max_params ptb2) as Hb2 by by eapply bounded_mono. apply W3; [done| |done].
    assert (bounded max_params ptb1) as Hb1 by by eapply bounded_mono. apply W2; [done| |done].
    apply W1; [done| |].
    + split; simpl; [intros k cmd Hk; by rewrite lookup_nil in Hk|done|done].
    + apply Forall_lookup. intros k cmd Hk. exists k. by apply Hs.
Qed.

(** C20: [apply_hooks] leaves the sequence it decorates alone: its inputs stay in front, and
    every command is found again, in the same order, with its references to earlier
    commands sent to where those are now - whatever hooks, contexts, producers,
    conversions of balances and transfers are put around them. A well-formed sequence
    stays well formed. *)
Theorem apply_hooks_contains_base base r ptb' r' : apply_hooks base r = Ret (Some (ptb', r')) →
  (∃ k, seq_inputs ptb' = seq_inputs base ++ k) ∧
  (∃ im, length im = length (seq_commands base) ∧
    ((N.of_nat (length (seq_commands ptb')) < 65536)%N → StronglySorted N.lt im ∧
     ∀ k cmd, seq_commands base !! k = Some cmd → ∃ n cmd', im !! k = Some n ∧
       seq_commands ptb' !! N.to_nat n = Some cmd' ∧ remap_command cmd im = Ret cmd')) ∧
  (bounded max_params ptb' → wf_sequence object_info base → wf_sequence object_info ptb').
Proof. apply apply_hooks_keeps. Qed.

(** Stripping undoes [apply_hooks]: if the hooks bring nothing but calls to hooks with
    them - no producers for extra arguments - [strip_generated] gives back exactly the
    commands that were decorated; the transfer to the attacker, its input and the
    conversions of balances are gone too. The inputs the hooks needed stay. *)
Theorem strip_apply_hooks base r ptb1 im ptb' r' :
  weave_hooks base r = Ret (Some ((ptb1, im), r')) → apply_hooks base r = Ret (Some (ptb', r')) →
  (N.of_nat (length (seq_commands ptb1)) < 65536)%N →
  (∀ n cmd, seq_commands ptb1 !! n = Some cmd → N.of_nat n ∉ im → is_hook (hook_idents meta) cmd = true) →
  Forall (λ c, is_hook (hook_idents meta) c = false) (seq_commands base) →
  (∀ ty arg, is_hook (hook_idents meta) (from_balance_call ty arg) = false) →
  (∀ c, last (seq_commands base) = Some c → is_from_balance c = false ∧ is_transfer_to_input c = false) →
  seq_commands (strip_generated ptb' meta) = seq_commands base ∧
  ∃ k, seq_inputs (strip_generated ptb' meta) = seq_inputs base ++ k.
Proof.
  intros Hweave E Hlen Hins Hbase Hfb Hlast. apply apply_hooks_inv in E as (p1 & im' & ptb2 & H1 & H2 & H3).
  rewrite Hweave in H1. injection H1 as <- <-. apply weave_hooks_adds in Hweave as [[[[ki Hki] _] _] Hw].
  simpl in Hki. apply (woven_weave _ _ _ _ Hw Hlen Hins) in Hbase.
  destruct (weave_stripped _ _ _ _ Hbase Hlen) as (mapping & kept & Es & _ & _ & _ & _ & _ & Hf).
  apply process_balance_adds in H2 as (_ & Hi2 & tys & bals & Hc2). set (fb := zip_with from_balance_call tys bals) in *.
  apply process_key_store_adds in H3 as [_ H3].
  assert (∃ tail more, seq_commands ptb' = seq_commands ptb1 ++ fb ++ tail ∧ seq_inputs ptb' = seq_inputs ptb1 ++ more ∧
    (tail = [] ∧ more = [] ∨ ∃ objects i, tail = [TransferObjects objects (Input i)] ∧ length more = 1)) as
    (tail & more & Hc & Hi & Htail).
  { destruct H3 as [->|(objects & Hi3 & Hc3)].
    - exists [], []. rewrite Hc2, Hi2, !app_nil_r. split_and!; auto.
    - exists [TransferObjects objects (Input (as_u16 (length (seq_inputs ptb')) - 1))], [Arg_Address (fm_attacker meta)].
      rewrite Hc3, Hc2, Hi3, Hi2, <- app_assoc. split_and!; [done|done|right; by eexists _, _]. }
  assert (Forall (λ c, is_from_balance c = true) fb) as Hfb1.
  { apply Forall_lookup. intros k c Hk. apply lookup_zip_with_Some in Hk as (? & ? & -> & _). done. }
  assert (Forall (λ c, is_hook (hook_idents meta) c = false) (fb ++ tail)) as Hno.
  { apply Forall_app_2.
    - apply Forall_lookup. intros k c Hk. apply lookup_zip_with_Some in Hk as (? & ? & -> & _). apply Hfb.
    - destruct Htail as [[-> _]|(o & i & -> & _)]; by repeat constructor. }
  destruct (strip_loop_no_hooks _ _ mapping kept Hno) as [mm Hloop].
  set (rc := λ cmd, remap_command_with_map cmd (mapping ++ mm)).
  assert (strip_hooks_only ptb' meta = MkSequence (seq_inputs ptb') (seq_commands base ++ omap rc fb ++ omap rc tail)) as Hstrip.
  { unfold strip_hooks_only. rewrite Hc, strip_loop_app, Es, Hloop. simpl. f_equal.
    rewrite !omap_app. f_equal. apply omap_all. eapply Forall2_impl; [exact Hf|]. intros c b H. apply H. }
  assert (Forall (λ c, is_from_balance c = true) (omap rc fb)) as Hfb2.
  { apply Forall_forall. intros c (x & Hx & Hrx)%list_elem_of_omap. rewrite Forall_forall in Hfb1.
    by rewrite (remap_keeps_from_balance _ _ _ Hrx), Hfb1. }
  assert (remove_process_key_store (strip_hooks_only ptb' meta) =
    MkSequence match omap rc tail : list MoveSequenceCall with [] => seq_inputs ptb1 ++ more | _ => seq_inputs ptb1 end
      (seq_commands base ++ omap rc fb)) as Hks.
  { rewrite Hstrip. unfold remove_process_key_store. simpl. destruct (omap rc tail) as [|t ts] eqn:Et.
    - rewrite app_nil_r, Hi. destruct (omap rc fb) as [|f fs _] using rev_ind.
      + rewrite app_nil_r. destruct (last (seq_commands base)) as [c|]; [|done].
        destruct (Hlast c eq_refl) as [_ Ht]. destruct c as [|? []| | | | |]; done.
      + rewrite app_assoc, last_snoc. apply Forall_app in Hfb2 as [_ Hf1]. apply Forall_cons in Hf1 as [Hf1 _]. by destruct f as [?|? []| | | | |].
    - destruct Htail as [[-> _]|(o & i & -> & Hone)]; [done|]. cbn [omap list_omap] in Et.
      destruct (rc (TransferObjects o (Input i))) as [c|] eqn:Erc; [|done].
      injection Et as <- <-. apply remap_keeps_transfer in Erc. rewrite app_assoc, last_snoc.
      destruct c as [|? []| | | | |]; try done. destruct more as [|a [|]]; try done.
      by rewrite Hi, !removelast_last. }
  unfold strip_generated. rewrite Hks. unfold remove_process_balance. simpl. split.
  - apply drop_from_balance_app; [done|]. intros c Hcl. by apply Hlast.
  - rewrite Hki. destruct (omap rc tail); [exists (ki ++ more); by rewrite <- app_assoc|by exists ki].
Qed.
End hooks_spec.

(** ** Witnesses: a call with hooks before and after it, and a context for them *)
Definition demo_ctx_handle : MoveStructHandle :=
  MkStructHandle (MkModuleId (MkMoveAddress 7) "context") "Context" ability_KEY [].
Definition demo_function (name : string) (params rets : list MoveAbiSignatureToken) : MoveFunctionAbi :=
  {| fa_name := name; fa_parameters := params; fa_return_paramters := rets; fa_type_parameters := [];
     fa_visibility := Public; fa_is_entry := false |}.
Definition demo_hook_functions : list MoveFunctionAbi :=
  [demo_function "create_context" [] [Tok_Struct demo_ctx_handle];
   demo_function "destroy_context" [Tok_Struct demo_ctx_handle] [];
   demo_function "movy_pre_mint" [Tok_MutableReference (Tok_Struct demo_ctx_handle); Tok_U64] [];
   demo_function "movy_post_mint" [Tok_MutableReference (Tok_Struct demo_ctx_handle); Tok_U64] []].
Definition demo_context_id : MoveModuleId := MkModuleId (MkMoveAddress 7) "context".
Definition demo_hook_package : MovePackageAbi :=
  {| pa_package_id := MkMoveAddress 7;
     pa_modules := [{| ma_module_id := demo_coin_id; ma_structs := []; ma_functions := [demo_mint; demo_burn] |};
                    {| ma_module_id := demo_context_id; ma_structs := []; ma_functions := demo_hook_functions |}] |}.
Definition demo_hook_metadata : FuzzMetadata (G := ListGraph) (Rand := ()) :=
  MkFuzzMetadata (MkMetadata (md_type_graph demo_metadata) ∅ {[ MkMoveAddress 7 := demo_hook_package ]} ∅ ∅ ∅
    {[ "create_context" := [MkFunctionIdent demo_context_id "create_context"];
       "destroy_context" := [MkFunctionIdent demo_context_id "destroy_context"] ]}%string ∅)
    () addr_one [addr_one] [addr_one] ∅ None ∅ [MkFunctionIdent demo_coin_id "mint"] [MkMoveAddress 7]
    {[ MkFunctionIdent demo_coin_id "mint" :=
       MkHook [MkFunctionIdent demo_context_id "movy_pre_mint"] [MkFunctionIdent demo_context_id "movy_post_mint"] ]}
    hook_default addr_zero 0 0 0.

Definition demo_base : MoveSequence :=
  MkSequence [Arg_U64 5] [demo_move_call "mint" [Input 0]; demo_move_call "burn" [Result 0]].
Definition demo_hook_call (f : string) (args : list SequenceArgument) : MoveSequenceCall :=
  Call {| mc_module_id := MkMoveAddress 7; mc_module_name := "context"; mc_function := f; mc_type_arguments := [];
          mc_arguments := args |}.
Definition demo_hooked : MoveSequence :=
  MkSequence [Arg_U64 5]
    [demo_hook_call "create_context" []; demo_hook_call "create_context" [];
     demo_hook_call "movy_pre_mint" [Result 1; Input 0]; demo_move_call "mint" [Input 0];
     demo_hook_call "movy_post_mint" [Result 1; Input 0]; demo_hook_call "destroy_context" [Result 1];
     demo_move_call "burn" [Result 3]; demo_hook_call "destroy_context" [Result 0]].

Lemma demo_hooked_run :
  weave_hooks (RL := replay_rand) demo_hook_metadata (λ _, None) no_havoc no_dword 5 demo_base []
    = Ret (Some ((demo_hooked, [3; 6]%N), [])) ∧
  apply_hooks (RL := replay_rand) demo_hook_metadata (λ _, None) no_havoc no_dword 5 demo_base []
    = Ret (Some (demo_hooked, [])).
Proof. split; vm_compute; reflexivity. Qed.

Lemma demo_hook_max_params addr m f abi : get_function (fm_base demo_hook_metadata) addr m f = Some abi →
  length (fa_parameters abi) ≤ 2.
Proof.
  intros (module & (pkg & Hpkg & Hm)%bind_Some & Hf)%bind_Some.
  unfold get_package_metadata in Hpkg. simpl in Hpkg. apply lookup_singleton_Some in Hpkg as [_ <-].
  apply find_some in Hm as [Hm _]. simpl in Hm.
  destruct Hm as [<-|[<-|[]]]; apply find_some in Hf as [Hf _]; simpl in Hf;
    repeat destruct Hf as [<-|Hf]; simpl; try lia; done.
Qed.

Lemma apply_hooks_contains_base_witness :
  apply_hooks (RL := replay_rand) demo_hook_metadata (λ _, None) no_havoc no_dword 5 demo_base []
    = Ret (Some (demo_hooked, [])) ∧ ∃ k, seq_inputs demo_hooked = seq_inputs demo_base ++ k.
Proof.
  split; [apply demo_hooked_run|].
  destruct (apply_hooks_contains_base (RL := replay_rand) demo_hook_metadata (λ _, None) no_havoc no_dword 5 2
    demo_hook_max_params demo_base [] demo_hooked [] (proj2 demo_hooked_run)) as [H _]. exact H.
Defined.

Lemma strip_apply_hooks_witness : seq_commands (strip_generated demo_hooked demo_hook_metadata) = seq_commands demo_base.
Proof.
  apply (strip_apply_hooks (RL := replay_rand) demo_hook_metadata (λ _, None) no_havoc no_dword 5 2
    demo_hook_max_params demo_base [] demo_hooked [3; 6]%N demo_hooked []).
  - apply demo_hooked_run.
  - apply demo_hooked_run.
  - vm_compute. reflexivity.
  - assert (∀ k, k < 8 → N.of_nat k ∉ [3; 6]%N →
      match seq_commands demo_hooked !! k with
      | Some cmd => is_hook (hook_idents demo_hook_metadata) cmd = true | None => True end) as H.
    { intros k Hk Hni. do 8 (destruct k as [|k]; [first [vm_compute; reflexivity|exfalso; apply Hni; by left|exfalso; apply Hni; right; by left]|]). lia. }
    intros n cmd Hn Hni. specialize (H n ltac:(by apply lookup_lt_Some in Hn) Hni). by rewrite Hn in H.
  - repeat constructor.
  - intros ty arg. apply bool_decide_eq_false_2. intros Hin.
    assert (forallb (λ i, bool_decide (fi_module i = demo_context_id)) (hook_idents demo_hook_metadata) = true) as H
      by (vm_compute; reflexivity).
    rewrite forallb_forall in H. apply list_elem_of_In, H, bool_decide_eq_true in Hin. discriminate Hin.
  - intros c [= <-]. by split.
Defined.

(** The inputs drawn for a hook of the sequence stay behind when the hook is stripped,
    so every round of decorating and stripping leaves one more. *)
Definition demo_sequence_hook_metadata : FuzzMetadata (G := ListGraph) (Rand := ()) :=
  MkFuzzMetadata (fm_base demo_hook_metadata) () addr_one [addr_one] [addr_one] ∅ None ∅ [] [] ∅
    (MkHook [MkFunctionIdent demo_context_id "movy_pre_mint"] []) addr_zero 0 0 0.
Definition demo_round (ptb : MoveSequence) : MoveSequence :=
  match apply_hooks (RL := replay_rand) demo_sequence_hook_metadata (λ _, None) no_havoc no_dword 5 ptb [] with
  | Ret (Some (ptb, _)) => strip_generated ptb demo_sequence_hook_metadata
  | _ => ptb
  end.
Example stripped_inputs_stay :
  demo_round (MkSequence [] []) = MkSequence [Arg_U64 0] [] ∧
  demo_round (demo_round (MkSequence [] [])) = MkSequence [Arg_U64 0; Arg_U64 0] [].
Proof. split; vm_compute; reflexivity. Qed.
