(* ===== verification/Sequence.v ===== *)
(** * Sequence: the sequence mutator

    [SequenceMutator] of [crates/movy-fuzz/src/mutators/sequence.rs]: a round
    strips the hooks, appends or removes a call until no hot potato is left
    ([mutate_sequence]), changes an argument and decorates the sequence again -
    or replays the last success at one stage. The coin flip that compares a
    random float with [ADD_MOVECALL_PROB * 7 / len] is an argument. *)
From S2P Require Import Prelude Types Abi TypeArgs TypeGraph Meta Remap Removal Random Objects Construct Values Append Stage Mutate Hooks.

Section sequence.
Context `{PG : PetGraph G} {Rand : Type} `{RL : RandLib}.
Abbreviation Meta := (FuzzMetadata (G := G) (Rand := Rand)).
Context (object_info : MoveAddress → option MoveObjectInfo).
Context (havoc : ByteMutator → ByteMutator) (dword_interesting : ByteMutator) (redraw_fuel : nat).
Context (add_movecall : nat → rnd bool).
Context (flash : option FlashProvider).

(** ** Appending calls *)

(** Where the commands that repay a flash loan begin, and the argument that may not be used. *)
Definition template_start (len : nat) : panics (nat * list SequenceArgument) :=
  match flash with
  | Some (Cetus _ _ _ _ _ _) => idx ← usize_sub len 3; Ret (idx, [NestedResult 0 2])
  | Some (Nemo _ _ _ _ _) => idx ← usize_sub len 1; Ret (idx, [NestedResult 1 1])
  | None => Ret (len, [])
  end.

Definition count_splits (cmds : list MoveSequenceCall) : nat :=
  length (List.filter (λ cmd, match cmd with Call mc => is_split mc | _ => false end) cmds).

(** How the loop ends: by [break], or by the [return] when no function has a score. *)
Inductive LoopExit := Break (result : MutationResult) | Return.

(** [times] rounds are left of ten. *)
Fixpoint select_loop (times : nat) (snapshot : MoveSequence) (meta : Meta) (ptb : MoveSequence) :
    spin (LoopExit * Meta * MoveSequence) :=
  match times with
  | O => mret (Break Skipped, meta, ptb)
  | S times =>
      let functions := fm_target_functions meta in
      let weights := map (λ f, default 0%N (fm_function_scores meta !! f)) functions in
      if forallb (λ w, (w =? 0)%N) weights then mret (Return, meta, ptb) else
      function ← draw (weighted_sample functions weights);
      '(idx, used_arguments) ← call (template_start (length (seq_commands ptb)));
      let template_cmds := drop idx (seq_commands ptb) in
      '(ptb, r) ← append_function meta object_info havoc dword_interesting redraw_fuel MAX_LEVELS
        (MkSequence (seq_inputs ptb) (take idx (seq_commands ptb))) function ∅ ∅ used_arguments false;
      match r with
      | None => select_loop times snapshot meta snapshot
      | Some _ =>
          let ptb := MkSequence (seq_inputs ptb) (seq_commands ptb ++ template_cmds) in
          if (10 <? count_splits (seq_commands ptb))%nat then mret (Break Skipped, meta, ptb) else
          object_data ← call (from_ptb meta object_info ptb);
          let meta := update_score meta (od_hot_potatoes object_data) in
          match od_hot_potatoes object_data with
          | [] => mret (Break Mutated, meta, ptb)
          | _ => select_loop times snapshot meta ptb
          end
      end
  end.

Definition mutate_sequence (meta : Meta) (ptb : MoveSequence) : spin (MutationResult * Meta * MoveSequence) :=
  match fm_target_functions meta with
  | [] => call Panic
  | _ =>
      inc ← draw (if (length (seq_commands ptb) <=? 3)%nat then mret true else add_movecall (length (seq_commands ptb)));
      if negb inc then
        idx ← draw (below (length (seq_commands ptb)));
        '(res, ptb) ← call (remove_command flash meta ptb (as_u16 idx));
        mret (res, meta, ptb)
      else
        '(ended, meta, ptb') ← select_loop 10 ptb meta ptb;
        match ended with
        | Return => mret (Skipped, meta, ptb')
        | Break result =>
            let ptb' := match result with Skipped => ptb | Mutated => ptb' end in
            object_data ← call (from_ptb meta object_info ptb');
            mret (result, update_score meta (od_hot_potatoes object_data), ptb')
        end
  end.

(** ** One round of the mutator *)
Definition set_current_mutator (m : option MutatorKind) (meta : Meta) : Meta :=
  MkFuzzMetadata (fm_base meta) (fm_rand meta) (fm_attacker meta) (fm_callers_pool meta)
    (fm_addresses_pool meta) (fm_function_scores meta) m (fm_specific_function_scores meta)
    (fm_target_functions meta) (fm_target_packages meta) (fm_function_hooks meta) (fm_sequence_hooks meta)
    (fm_gas_id meta) (fm_checkpoint meta) (fm_epoch meta) (fm_epoch_ms meta).

Record MutatorState := MkMutatorState { ms_meta : Meta; ms_stage : StageReplay; ms_sequence : MoveSequence }.

(** A success is recorded for the replay. *)
Definition record (kind : MutatorKind) (res : MutationResult) (s : MutatorState) : MutatorState :=
  match res with
  | Mutated => MkMutatorState (set_current_mutator (Some kind) (ms_meta s))
      (record_success (ms_sequence s) (ms_stage s)) (ms_sequence s)
  | Skipped => s
  end.

(** [outcome]: the stage the last run ended at; [pool]: the constants of its
    comparisons by function; [fingerprint]: the hash of the sequence. *)
Definition sequence_mutate (outcome : option (option nat)) (fingerprint : N)
    (pool : gmap FunctionIdent (list Bytes)) (s : MutatorState) : spin (MutationResult * MutatorState) :=
  let meta := ms_meta s in
  let arg := mutate_arg meta flash havoc dword_interesting redraw_fuel pool in
  let '(stage, action) := decide_stage (fm_current_mutator meta) outcome fingerprint (ms_stage s) in
  match action with
  | Replay stage_idx snapshot =>
      magic ← draw (below_N 2);
      '(res, ptb) ← arg (magic =? 0)%N (Some stage_idx) snapshot;
      mret (res, record Mutator_Sequence res (MkMutatorState meta stage ptb))
  | Fresh =>
      let base := strip_generated (ms_sequence s) meta in
      '(res, meta, ptb) ← mutate_sequence meta base;
      magic ← draw (below_N 2);
      '(_, ptb) ← mutate_arg meta flash havoc dword_interesting redraw_fuel pool (magic =? 0)%N None ptb;
      ptb ← apply_hooks meta object_info havoc dword_interesting redraw_fuel ptb;
      mret (res, record Mutator_Sequence res (MkMutatorState meta stage ptb))
  end.
End sequence.
