(* ===== verification/SequenceSpec.v ===== *)
(** * SequenceSpec: what a round of the sequence mutator does

    [mutate_sequence] ([Sequence]) ends with no hot potato left or gives the
    sequence back, and the next round replays what a round recorded. *)
From S2P Require Import Prelude Types Abi TypeArgs TypeGraph Meta Remap Removal Random Objects Construct ConstructSpec Values Append AppendSpec Stage Mutate MutateSpec Hooks HooksSpec Sequence.

Section sequence_spec.
Context `{PG : PetGraph G} {Rand : Type} `{RL : RandLib}.
Context (meta : FuzzMetadata (G := G) (Rand := Rand)) (object_info : MoveAddress → option MoveObjectInfo).
Context (havoc : ByteMutator → ByteMutator) (dword_interesting : ByteMutator) (redraw_fuel : nat).
Context (add_movecall : nat → rnd bool).
Context (max_params : nat).
Hypothesis max_params_known : ∀ addr m f abi, get_function (fm_base meta) addr m f = Some abi →
  length (fa_parameters abi) ≤ max_params.

(** Only the scores change. *)
Definition set_scores (scores : gmap FunctionIdent N) : FuzzMetadata (G := G) (Rand := Rand) :=
  MkFuzzMetadata (fm_base meta) (fm_rand meta) (fm_attacker meta) (fm_callers_pool meta)
    (fm_addresses_pool meta) scores (fm_current_mutator meta) (fm_specific_function_scores meta)
    (fm_target_functions meta) (fm_target_packages meta) (fm_function_hooks meta) (fm_sequence_hooks meta)
    (fm_gas_id meta) (fm_checkpoint meta) (fm_epoch meta) (fm_epoch_ms meta).

Lemma set_scores_same : set_scores (fm_function_scores meta) = meta.
Proof using. clear -meta. unfold set_scores. generalize meta. clear. by intros []. Qed.

Definition no_scores (scores : gmap FunctionIdent N) : Prop :=
  ∀ f, f ∈ fm_target_functions meta → default 0%N (scores !! f) = 0%N.

(** A sequence that calls were appended to. *)
Definition grown (ptb ptb' : MoveSequence) : Prop :=
  extends ptb ptb' ∧ (bounded max_params ptb' → wf_sequence object_info ptb → wf_sequence object_info ptb').

Lemma grown_refl ptb : grown ptb ptb.
Proof. split; [apply extends_refl|done]. Qed.

(** The last command calls a target function. *)
Definition ends_with_target (ptb : MoveSequence) : Prop := ∃ f cmds tys args, f ∈ fm_target_functions meta ∧
  seq_commands ptb = cmds ++ [Call {| mc_module_id := module_address (fi_module f);
    mc_module_name := module_name (fi_module f); mc_function := fi_name f; mc_type_arguments := tys; mc_arguments := args |}].

(** A successful round of the loop. *)
Definition settled (ptb ptb' : MoveSequence) : Prop :=
  grown ptb ptb' ∧ count_splits (seq_commands ptb') ≤ 10 ∧
  (bounded max_params ptb' → wf_sequence object_info ptb → ends_with_target ptb') ∧
  ∃ d, from_ptb meta object_info ptb' = Ret d ∧ od_hot_potatoes d = [].

Lemma weighted_sample_elem {A} (items : list A) weights r x r' : weighted_sample items weights r = Ret (x, r') → x ∈ items.
Proof.
  unfold weighted_sample. destruct (negb _); [done|]. destruct weights as [|w ws]; [done|]. destruct (_ || _); [done|].
  intros (n & r1 & _ & E)%rnd_bind_Ret. apply lift_Ret in E as [E _]. revert E. generalize (w :: ws) 0%N.
  induction items as [|y items IH]; intros weights c E; [by destruct weights|]. destruct weights as [|w' weights]; [done|].
  cbn [zip zip_with weighted_loop] in E. destruct (_ <=? _)%N; [injection E as <-; left|right; by eapply IH].
Qed.

Lemma append_grown scores ident used ptb r ptb' res r' :
  append_function (set_scores scores) object_info havoc dword_interesting redraw_fuel MAX_LEVELS ptb ident ∅ ∅ used false r
    = Ret (Some ((ptb', Some res), r')) → ident ∈ fm_target_functions meta →
  grown ptb ptb' ∧ (bounded max_params ptb' → wf_sequence object_info ptb → ends_with_target ptb').
Proof.
  intros E Hi. eapply (append_function_appends (set_scores scores) _ _ _ _ max_params max_params_known) in E.
  destruct E as [X H]. split; [split; [done|]; intros Hb Hw; by apply H|]. intros Hb Hw.
  destruct (H Hb Hw (map_Forall_empty _)) as [_ Ha]. destruct res as [args rets].
  destruct Ha as (cmds & tys & f & Hc & _). by exists ident, cmds, tys, args.
Qed.

Abbreviation select_loop := (select_loop object_info havoc dword_interesting redraw_fuel None).

Lemma grown_trans p q r : grown p q → grown q r → grown p r.
Proof.
  intros [X1 W1] [X2 W2]. split; [by eapply extends_trans|]. intros Hb Hw.
  apply W2; [done|]. apply W1; [by eapply bounded_mono|done].
Qed.

Lemma select_loop_spec times snapshot : ∀ scores ptb r ended meta' ptb' r', grown snapshot ptb →
  select_loop times snapshot (set_scores scores) ptb r = Ret (Some ((ended, meta', ptb'), r')) →
  ∃ scores', meta' = set_scores scores' ∧
  match ended with
  | Break Mutated => settled snapshot ptb'
  | Break Skipped => True
  | Return => grown snapshot ptb' ∧ no_scores scores'
  end.
Proof.
  induction times as [|times IH]; intros scores ptb r ended meta' ptb' r' Hg E.
  { apply spin_mret_Ret in E as [[= <- <- <-] _]. by exists scores. }
  cbn [Sequence.select_loop] in E. cbv zeta in E. destruct (forallb _ _) eqn:Hz.
  { apply spin_mret_Ret in E as [[= <- <- <-] _]. exists scores. split; [done|]. split; [done|].
    intros f Hf. rewrite forallb_forall in Hz. apply N.eqb_eq, Hz, in_map_iff. exists f. split; [done|]. by apply list_elem_of_In. }
  spin_bind E ident Hident. apply draw_Ret, weighted_sample_elem in Hident. spin_bind E x Hx. destruct x as [idx used].
  apply call_Ret in Hx as [[= <- <-] _]. rewrite drop_all, firstn_all in E. spin_bind E y Hy. destruct y as [ptb1 res].
  destruct res as [res|].
  2: { eapply IH; [|exact E]. apply grown_refl. }
  rewrite app_nil_r in E.
  assert (MkSequence (seq_inputs ptb) (seq_commands ptb) = ptb) as Hptb by by destruct ptb. rewrite Hptb in Hy.
  apply append_grown in Hy as [G1 Hlast]; [|done].
  assert (MkSequence (seq_inputs ptb1) (seq_commands ptb1) = ptb1) as Hp1 by by destruct ptb1. rewrite Hp1 in E.
  pose proof (grown_trans _ _ _ Hg G1) as Gr.
  destruct (Nat.ltb_spec 10 (count_splits (seq_commands ptb1))) as [|Hsplits]; [apply spin_mret_Ret in E as [[= <- <- <-] _]; by exists scores|].
  spin_bind E d Hd. apply call_Ret in Hd as [Hd _]. destruct (od_hot_potatoes d) eqn:Ehp.
  - apply spin_mret_Ret in E as [[= <- <- <-] _]. eexists. split; [reflexivity|]. split; [done|]. split; [done|].
    split; [|by exists d]. intros Hb Hw. apply Hlast; [done|]. apply Hg; [|done]. eapply bounded_mono; [apply G1|done].
  - eapply (IH _ ptb1); [exact Gr|exact E].
Qed.

(** C12: [mutate_sequence] never gives back a half-built sequence as a success: a mutated
    sequence either has lost a command and what depends on it, or the old sequence
    continues up to a call of a target function, with at most ten splits and without
    any hot potato that nobody consumes. What was well formed stays so. A skipped
    mutation gives the old sequence back - unless no target function has a score left:
    then the calls appended so far stay. Of the metadata only the scores change. *)
Theorem mutate_sequence_settles ptb r res meta' ptb' r' :
  mutate_sequence object_info havoc dword_interesting redraw_fuel add_movecall None meta ptb r
    = Ret (Some ((res, meta', ptb'), r')) →
  ∃ scores, meta' = set_scores scores ∧
  match res with
  | Mutated => settled ptb ptb' ∨ ∃ idx, remove_command None meta ptb idx = Ret (Mutated, ptb')
  | Skipped => ptb' = ptb ∨ grown ptb ptb' ∧ no_scores scores
  end.
Proof.
  intros E. unfold mutate_sequence in E. destruct (fm_target_functions meta) as [|f0 fs] eqn:Ef; [by apply call_Ret in E as [? _]|].
  spin_bind E inc Hinc. destruct (negb inc).
  { spin_bind E idx Hi. spin_bind E x Hx. destruct x as [res1 ptb1]. apply call_Ret in Hx as [Hx _].
    apply spin_mret_Ret in E as [[= <- <- <-] _]. exists (fm_function_scores meta). split; [by rewrite set_scores_same|].
    destruct res1; [right; by eexists|left]. apply panics_bind_Ret in Hx as (removed & _ & Hx).
    destruct (_ || _); [by injection Hx as <-|]. by apply panics_bind_Ret in Hx as (? & _ & Hx). }
  spin_bind E x Hx. destruct x as [[ended meta1] ptb1].
  assert (meta = set_scores (fm_function_scores meta)) as Hmeta by by rewrite set_scores_same.
  rewrite Hmeta in Hx. apply select_loop_spec in Hx as (scores & -> & Hx); [|apply grown_refl].
  destruct ended as [[]|].
  - spin_bind E d Hd. apply spin_mret_Ret in E as [[= <- <- <-] _]. eexists. split; [reflexivity|]. by left.
  - spin_bind E d Hd. apply spin_mret_Ret in E as [[= <- <- <-] _]. eexists. split; [reflexivity|]. by left.
  - apply spin_mret_Ret in E as [[= <- <- <-] _]. exists scores. split; [done|]. by right.
Qed.
End sequence_spec.

(** ** From one round to the next *)
Section rounds.
Context `{PG : PetGraph G} {Rand : Type} `{RL : RandLib}.
Context (object_info : MoveAddress → option MoveObjectInfo).
Context (havoc : ByteMutator → ByteMutator) (dword_interesting : ByteMutator) (redraw_fuel : nat).
Context (add_movecall : nat → rnd bool) (flash : option FlashProvider).
Abbreviation sequence_mutate := (sequence_mutate (G := G) (Rand := Rand) object_info havoc dword_interesting redraw_fuel add_movecall flash).
Abbreviation MutatorState := (MutatorState (G := G) (Rand := Rand)).

Definition sequence_stage_ok (s : MutatorState) : Prop := stage_ok (ms_stage s) ∧ sr_kind (ms_stage s) = Mutator_Sequence.

Lemma decide_ok m o fp stage stage' action : stage_ok stage → decide_stage m o fp stage = (stage', action) →
  stage_ok stage' ∧ sr_kind stage' = sr_kind stage ∧ sr_cached_fingerprint stage' = Some fp.
Proof.
  intros Hs E. pose proof (stage_call_ok (Decide m o fp) stage Hs) as H1. simpl in H1.
  destruct (decide_cached m o fp stage) as (H2 & H3 & _). by rewrite E in *.
Qed.

Lemma record_mutated kind (s : MutatorState) : sequence_stage_ok s → sr_kind (ms_stage s) = kind →
  sequence_stage_ok (record kind Mutated s) ∧ sr_cached (ms_stage (record kind Mutated s)) = Some (ms_sequence s) ∧
  sr_cached_fingerprint (ms_stage (record kind Mutated s)) = sr_cached_fingerprint (ms_stage s) ∧
  fm_current_mutator (ms_meta (record kind Mutated s)) = Some kind ∧ ms_sequence (record kind Mutated s) = ms_sequence s.
Proof. intros [[H1 H2] Hk] <-. by split_and!. Qed.

(** What a round leaves behind. *)
Lemma sequence_mutate_records outcome fp pool s r s' r' : sequence_stage_ok s →
  sequence_mutate outcome fp pool s r = Ret (Some ((Mutated, s'), r')) →
  sequence_stage_ok s' ∧ sr_cached (ms_stage s') = Some (ms_sequence s') ∧
  sr_cached_fingerprint (ms_stage s') = Some fp ∧ fm_current_mutator (ms_meta s') = Some Mutator_Sequence.
Proof.
  intros [Hs Hk] E. unfold Sequence.sequence_mutate in E. cbv zeta in E.
  destruct (decide_stage _ _ _ _) as [stage action] eqn:Ed. destruct (decide_ok _ _ _ _ _ _ Hs Ed) as (Hs1 & Hk1 & Hf1).
  rewrite Hk in Hk1. destruct action as [|idx snap].
  - spin_bind E x Hx. destruct x as [[res meta1] ptb1]. spin_bind E magic Hm. spin_bind E y Hy. destruct y as [res2 ptb2].
    spin_bind E ptb3 H3. apply spin_mret_Ret in E as [[= -> <-] _].
    destruct (record_mutated Mutator_Sequence (MkMutatorState meta1 stage ptb3)) as (R1 & R2 & R3 & R4 & R5); [done|done|].
    split_and!; [exact R1|by rewrite R2, R5|by rewrite R3|done].
  - spin_bind E magic Hm. spin_bind E y Hy. destruct y as [res ptb]. apply spin_mret_Ret in E as [[= -> <-] _].
    destruct (record_mutated Mutator_Sequence (MkMutatorState (ms_meta s) stage ptb)) as (R1 & R2 & R3 & R4 & R5); [done|done|].
    split_and!; [exact R1|by rewrite R2, R5|by rewrite R3|done].
Qed.

(** A success is built on: when a round of the sequence mutator reports a mutation, the
    next round on the same input (the same fingerprint), after a run that reached stage
    [reached], takes up the sequence the first round ended with - whatever sequence it is
    given - and changes one argument of it at a stage not beyond [reached]; it neither
    strips nor decorates it again. *)
Theorem next_round_replays outcome fp pool s r s1 r1 other reached pool2 r2 res s2 r3 : sequence_stage_ok s →
  sequence_mutate outcome fp pool s r = Ret (Some ((Mutated, s1), r1)) →
  sequence_mutate (Some (Some reached)) fp pool2 (MkMutatorState (ms_meta s1) (ms_stage s1) other) r2
    = Ret (Some ((res, s2), r3)) →
  ∃ stage magic r4, stage ≤ reached ∧
    mutate_arg (ms_meta s1) flash havoc dword_interesting redraw_fuel pool2 magic (Some stage) (ms_sequence s1) r4
      = Ret (Some ((res, ms_sequence s2), r3)).
Proof.
  intros Hok E1 E2. apply sequence_mutate_records in E1 as ([Hs Hk] & Hc & Hf & Hm); [|done].
  unfold Sequence.sequence_mutate in E2. cbv zeta in E2. cbn [ms_meta ms_stage ms_sequence] in E2. rewrite Hm in E2.
  unfold decide_stage in E2. rewrite Hf, (bool_decide_eq_true_2 (fp = fp)) in E2 by done. cbn [negb] in E2.
  rewrite Hk, (bool_decide_eq_false_2 (_ ≠ _)) in E2 by (intros H; by apply H).
  destruct (advance_ok reached (ms_stage s1) Hs) as (_ & Hcached & i & Hi & Hle). rewrite Hcached, Hc, Hi in E2.
  cbn [default] in E2. spin_bind E2 magic Hmagic. spin_bind E2 y Hy. destruct y as [res2 ptb].
  apply spin_mret_Ret in E2 as [[= -> <-] ->]. exists i. do 2 eexists. split; [exact Hle|].
  replace (ms_sequence (record _ _ _)) with ptb by by destruct res. exact Hy.
Qed.
End rounds.

(** ** Witnesses: a module with one function that takes a number *)
Definition demo_ledger_id : MoveModuleId := MkModuleId (MkMoveAddress 7) "ledger".
Definition demo_deposit : FunctionIdent := MkFunctionIdent demo_ledger_id "deposit".
Definition demo_ledger_metadata : FuzzMetadata (G := ListGraph) (Rand := ()) :=
  MkFuzzMetadata (MkMetadata type_graph_new ∅ {[ MkMoveAddress 7 := {| pa_package_id := MkMoveAddress 7; pa_modules :=
       [{| ma_module_id := demo_ledger_id; ma_structs := []; ma_functions := [demo_function "deposit" [Tok_U64] []] |}] |} ]}
    ∅ ∅ ∅ ∅ ∅) () addr_one [addr_one] [addr_one] {[ demo_deposit := 100%N ]} None ∅ [demo_deposit] [MkMoveAddress 7] ∅
    hook_default addr_zero 0 0 0.
Definition demo_deposited (amount : N) : MoveSequence :=
  MkSequence [Arg_U64 amount] [Call {| mc_module_id := MkMoveAddress 7; mc_module_name := "ledger";
    mc_function := "deposit"; mc_type_arguments := []; mc_arguments := [Input 0] |}].
Definition always_add (n : nat) : @rnd replay_rand bool := mret true.

Lemma demo_ledger_max_params addr m f abi : get_function (fm_base demo_ledger_metadata) addr m f = Some abi →
  length (fa_parameters abi) ≤ 1.
Proof.
  intros (module & (pkg & Hpkg & Hm)%bind_Some & Hf)%bind_Some.
  unfold get_package_metadata in Hpkg. simpl in Hpkg. apply lookup_singleton_Some in Hpkg as [_ <-].
  apply find_some in Hm as [Hm _]. simpl in Hm. destruct Hm as [<-|[]].
  apply find_some in Hf as [Hf _]. simpl in Hf. destruct Hf as [<-|[]]. simpl. lia.
Qed.

Lemma mutate_sequence_settles_witness :
  ∃ meta', mutate_sequence (RL := replay_rand) (λ _, None) no_havoc no_dword 5 always_add None demo_ledger_metadata
    (MkSequence [] []) [] = Ret (Some ((Mutated, meta', demo_deposited 0), [])) ∧
  ∃ scores, meta' = set_scores demo_ledger_metadata scores.
Proof.
  eexists. match goal with |- ?P ∧ _ => assert P as E by (vm_compute; reflexivity) end. split; [exact E|].
  destruct (mutate_sequence_settles (RL := replay_rand) demo_ledger_metadata (λ _, None) no_havoc no_dword 5 always_add 1
    demo_ledger_max_params (MkSequence [] []) [] Mutated _ (demo_deposited 0) [] E) as (scores & H & _).
  by exists scores.
Defined.

Definition demo_mutator (ptb : MoveSequence) : MutatorState (G := ListGraph) (Rand := ()) :=
  MkMutatorState demo_ledger_metadata (stage_replay_new Mutator_Sequence) ptb.
Definition demo_rounds (outcome : option (option nat)) (s : MutatorState (G := ListGraph) (Rand := ())) (r : list N) :=
  sequence_mutate (RL := replay_rand) (λ _, None) no_havoc no_dword 5 always_add None outcome 77%N ∅ s r.
Definition demo_state (m : panics (option (MutationResult * MutatorState (G := ListGraph) (Rand := ()) * list N))) :=
  match m with Ret (Some ((_, s), _)) => s | _ => demo_mutator (MkSequence [] []) end.
Definition demo_first : MutatorState := demo_state (demo_rounds None (demo_mutator (MkSequence [] [])) []).
Definition demo_second_input : MutatorState :=
  MkMutatorState (ms_meta demo_first) (ms_stage demo_first) (MkSequence [] []).
Definition demo_second : MutatorState := demo_state (demo_rounds (Some (Some 0)) demo_second_input [1; 1; 0; 0; 7; 9]%N).

Lemma next_round_replays_witness :
  (ms_sequence demo_first = demo_deposited 0 ∧ ms_sequence demo_second = demo_deposited 512) ∧
  ∃ stage magic r4, stage ≤ 0 ∧
    mutate_arg (RL := replay_rand) (ms_meta demo_first) None no_havoc no_dword 5 ∅ magic (Some stage) (ms_sequence demo_first) r4
      = Ret (Some ((Mutated, ms_sequence demo_second), [])).
Proof.
  split; [split; vm_compute; reflexivity|].
  apply (next_round_replays (RL := replay_rand) (λ _, None) no_havoc no_dword 5 always_add None None 77%N ∅
    (demo_mutator (MkSequence [] [])) [] demo_first [] (MkSequence [] []) 0 ∅ [1; 1; 0; 0; 7; 9]%N Mutated demo_second []).
  - by repeat split.
  - vm_compute. reflexivity.
  - vm_compute. reflexivity.
Defined.
