(* ===== verification/Solver.v ===== *)
(** * Solver: argument values from path constraints

    [crates/movy-fuzz/src/solver.rs]. [solve] asserts the constraints of a run
    with the ranges of the symbolic arguments and turns a model of them into
    input values. Z3 ([solver.check] and the model, as printed text) and the
    wide integers of [alloy_primitives] are libraries; the worker thread may
    also be late or gone. Text is ASCII. *)
From S2P Require Import Prelude Types Z3.
From stdpp Require Import pretty.
From Stdlib Require Import Ascii.
From Stdlib Require String.

(** ** Reading the printed values *)
Abbreviation Chars := (list ascii).
Abbreviation chars := String.list_ascii_of_string.

(** [char::is_whitespace] on ASCII. *)
Definition is_whitespace (c : ascii) : bool :=
  let n := N_of_ascii c in ((9 <=? n) && (n <=? 13) || (n =? 32))%N.
Fixpoint drop_matching (p : ascii → bool) (s : Chars) : Chars :=
  match s with [] => [] | c :: s' => if p c then drop_matching p s' else s end.
Definition trim_matching (p : ascii → bool) (s : Chars) : Chars :=
  reverse (drop_matching p (reverse (drop_matching p s))).
Definition trim : Chars → Chars := trim_matching is_whitespace.

Definition starts_with (p s : Chars) : bool := bool_decide (take (length p) s = p).
Definition ends_with (p s : Chars) : bool := bool_decide (drop (length s - length p) s = p) && (length p <=? length s)%nat.

(** [split_whitespace]: [word] is the word being read, reversed. *)
Fixpoint split_words (word s : Chars) : list Chars :=
  match s with
  | [] => match word with [] => [] | _ => [reverse word] end
  | c :: s => if is_whitespace c then match word with [] => split_words [] s | _ => reverse word :: split_words [] s end
              else split_words (c :: word) s
  end.
Definition split_whitespace : Chars → list Chars := split_words [].

Definition normalize_model_value (raw : Chars) : Chars :=
  let trimmed := trim raw in
  if starts_with ["("%char] trimmed && ends_with [")"%char] trimmed && (2 <=? length trimmed)%nat
  then List.filter (λ c, negb (Ascii.eqb c " "%char)) (removelast (tail trimmed))
  else trimmed.

(** [str::parse] for unsigned integers of the language, below [limit]. *)
Definition digit_value (c : ascii) : option N :=
  let n := N_of_ascii c in if ((48 <=? n) && (n <=? 57))%N then Some (n - 48)%N else None.
Fixpoint parse_digits (limit acc : N) (s : Chars) : option N :=
  match s with
  | [] => Some acc
  | c :: s => d ← digit_value c;
      let acc := (acc * 10 + d)%N in if (acc <? limit)%N then parse_digits limit acc s else None
  end.
Definition parse_unsigned (limit : N) (s : Chars) : option N :=
  match s with
  | [] => None
  | ["+"%char] => None
  | c :: s' => parse_digits limit 0 (if Ascii.eqb c "+"%char then s' else s)
  end.

(** The integers of [alloy_primitives]: [from_str_radix] and [from_str]. *)
Class WideText := {
  u256_from_str_radix : Chars → N → option N;
  u128_from_str : Chars → option N;
  u256_from_str : Chars → option N;
  u128_decimal n : (n < 2 ^ 128)%N → u128_from_str (chars (pretty n)) = Some n;
  u256_decimal n : (n < 2 ^ 256)%N → u256_from_str (chars (pretty n)) = Some n;
}.

Section parse.
Context `{WT : WideText}.

Definition parse_numeric_value (raw : Chars) : option Chars :=
  let trimmed := trim raw in
  let plain := Some (normalize_model_value trimmed) in
  if starts_with (chars "(_ bv") trimmed && ends_with [")"%char] trimmed then
    let inner := trim_matching (λ c, Ascii.eqb c "("%char || Ascii.eqb c ")"%char) trimmed in
    match split_whitespace inner with
    | first :: second :: _ =>
        if bool_decide (first = chars "_") && starts_with (chars "bv") second then Some (drop 2 second) else plain
    | _ => None
    end
  else if starts_with (chars "#x") trimmed then
    value ← u256_from_str_radix (drop 2 trimmed) 16; Some (chars (pretty value))
  else if starts_with (chars "#b") trimmed then
    value ← u256_from_str_radix (drop 2 trimmed) 2; Some (chars (pretty value))
  else plain.

Definition bool_text (v : Chars) : option bool :=
  if bool_decide (v = chars "true") || bool_decide (v = chars "1") then Some true
  else if bool_decide (v = chars "false") || bool_decide (v = chars "0") then Some false
  else None.

(** [parse::<u128>] and a check of the range. *)
Definition small_value (max : N) (raw_value : Chars) : option N :=
  num ← parse_numeric_value raw_value ≫= parse_unsigned (2 ^ 128);
  if (max <? num)%N then None else Some num.

Definition value_from_assignment (ty : MoveAbiSignatureToken) (raw_value : Chars) : panics (option InputArgument) :=
  match ty with
  | Tok_Bool =>
      let v := trim raw_value in
      Ret (Arg_Bool <$> match bool_text v with Some b => Some b | None => bool_text (normalize_model_value v) end)
  | Tok_U8 => Ret (Arg_U8 <$> small_value 255 raw_value)
  | Tok_U16 => Ret (Arg_U16 <$> small_value 65535 raw_value)
  | Tok_U32 => Ret (Arg_U32 <$> small_value 4294967295 raw_value)
  | Tok_U64 => Ret (Arg_U64 <$> (parse_numeric_value raw_value ≫= parse_unsigned (2 ^ 64)))
  | Tok_U128 => Ret (Arg_U128 <$> (parse_numeric_value raw_value ≫= u128_from_str))
  | Tok_U256 => Ret (Arg_U256 <$> (parse_numeric_value raw_value ≫= u256_from_str))
  | _ => Panic
  end.
End parse.

(** ** Solving *)

(** [solver.check] and its model: the text of the value a constant evaluates to. *)
Inductive CheckResult := Check_Sat (model : option (string → option Chars)) | Check_Unsat | Check_Unknown.
Inductive SolveOutcome := Solve_Sat (assignments : gmap nat Chars) | Solve_Unsat | Solve_Unknown | Solve_Timeout.
(** How the thread of the worker ends: it sends its outcome in time, is late, or is gone. *)
Inductive WorkerEnd := Delivered | Late | Gone.

Section solve.
Context {I B : Type} `{ZA : Z3Ast I B} `{WT : WideText}.
Context (check : list B → CheckResult) (decl_name : I → string).

Definition run_solver_worker (asserted : list B) (arg_names : gmap nat string) : SolveOutcome :=
  match check asserted with
  | Check_Sat (Some model) => Solve_Sat (omap model arg_names)
  | Check_Sat None => Solve_Unknown
  | Check_Unsat => Solve_Unsat
  | Check_Unknown => Solve_Unknown
  end.

Definition max_value (ty : MoveAbiSignatureToken) : panics Z :=
  match ty with
  | Tok_Bool => Ret 1
  | Tok_U8 => Ret 255
  | Tok_U16 => Ret 65535
  | Tok_U32 => Ret 4294967295
  | Tok_U64 => Ret 18446744073709551615
  | Tok_U128 => Ret 340282366920938463463374607431768211455
  | Tok_U256 => Ret 115792089237316195423570985008687907853269984665640564039457584007913129639935
  | _ => Panic
  end%Z.

(** The range of one argument. *)
Definition range_constraints (function_params : list MoveAbiSignatureToken) (x : nat * I) : panics (list B) :=
  ty ← unwrap (function_params !! x.1);
  max ← max_value ty;
  Ret [int_ge x.2 (int_from 0); int_le x.2 (int_from max)].

Definition read_assignment (function_params : list MoveAbiSignatureToken) (x : nat * Chars) :
    panics (option (nat * InputArgument)) :=
  ty ← unwrap (function_params !! x.1);
  value ← value_from_assignment ty x.2;
  Ret (option_map (pair x.1) value).

Definition solve (function : MoveFunctionAbi) (args : gmap nat I) (constraints : list B) (ending : WorkerEnd) :
    panics (option (gmap nat InputArgument)) :=
  match constraints with
  | [] => Ret None
  | _ =>
      let function_params := fa_parameters function in
      ranges ← mapM (range_constraints function_params) (map_to_list args);
      let solver_outcome := match ending with
        | Delivered => run_solver_worker (constraints ++ concat ranges) (decl_name <$> args)
        | Late => Solve_Timeout
        | Gone => Solve_Unknown
        end in
      match solver_outcome with
      | Solve_Sat assignments =>
          values ← mapM (read_assignment function_params) (map_to_list assignments);
          Ret (Some (list_to_map (omap id values)))
      | _ => Ret None
      end
  end.
End solve.
