(* ===== verification/SolverSpec.v ===== *)
(** * SolverSpec: solved values satisfy the constraints

    Theorems about [Solver]: the text of a model is read back exactly, and the
    arguments [solve] returns are a solution of the constraints, each in the
    range of its type. *)
From S2P Require Import Prelude Types Z3 Solver.
From stdpp Require Import pretty.
From Stdlib Require Import Ascii.
From Stdlib Require String.

(** ** Decimal text *)
Definition is_digit (c : ascii) : Prop := is_Some (digit_value c).
Definition digits (s : list ascii) : Prop := s ≠ [] ∧ Forall is_digit s.

Lemma digit_char d : (d < 10)%N → digit_value (pretty_N_char d) = Some d.
Proof. intros H. destruct d as [|p]; [done|]. do 4 (destruct p as [p|p|]; try done; try lia). Qed.

Lemma parse_digits_go limit x : ∀ s, (x < limit)%N →
  parse_digits limit 0 (String.list_ascii_of_string (pretty_N_go x s)) = parse_digits limit x (String.list_ascii_of_string s).
Proof.
  induction x as [x IH] using (well_founded_induction N.lt_wf_0). intros s Hx.
  destruct (decide (x = 0)%N) as [->|Hne]; [by rewrite pretty_N_go_0|].
  rewrite pretty_N_go_step by lia. pose proof (N.div_lt x 10 ltac:(lia) ltac:(lia)).
  rewrite IH by lia. simpl. rewrite digit_char by by apply N.mod_lt. cbn [mbind option_bind].
  replace (x `div` 10 * 10 + x `mod` 10)%N with x by (pose proof (N.div_mod x 10); lia).
  by rewrite (proj2 (N.ltb_lt _ _) Hx).
Qed.

Lemma digits_go x : ∀ s, Forall is_digit (String.list_ascii_of_string s) → (0 < x)%N ∨ s ≠ ""%string →
  digits (String.list_ascii_of_string (pretty_N_go x s)).
Proof.
  induction x as [x IH] using (well_founded_induction N.lt_wf_0). intros s Hs Hne.
  destruct (decide (x = 0)%N) as [->|Hx].
  - rewrite pretty_N_go_0. split; [|done]. destruct Hne as [?|Hne]; [lia|]. by destruct s.
  - rewrite pretty_N_go_step by lia. apply IH; [apply N.div_lt; lia| |by right].
    constructor; [|done]. eexists. apply digit_char. by apply N.mod_lt.
Qed.
Lemma pretty_digits (n : N) : digits (String.list_ascii_of_string (pretty n)).
Proof.
  unfold pretty, pretty_N. destruct (decide (n = 0)%N); [split; [done|simpl; constructor; [by eexists|constructor]]|].
  apply digits_go; [constructor|left; lia].
Qed.

Lemma digit_range c : is_digit c → (48 ≤ N_of_ascii c ≤ 57)%N.
Proof.
  unfold is_digit, digit_value. destruct ((48 <=? N_of_ascii c) && (N_of_ascii c <=? 57))%N eqn:E; [|by intros [? ?]].
  apply andb_true_iff in E as [H1%N.leb_le H2%N.leb_le]. done.
Qed.
Lemma digit_not_white c : is_digit c → is_whitespace c = false.
Proof.
  intros H%digit_range. unfold is_whitespace. destruct (N.leb_spec 9 (N_of_ascii c)), (N.leb_spec (N_of_ascii c) 13),
    (N.eqb_spec (N_of_ascii c) 32); try done; lia.
Qed.
Lemma digit_not c d : is_digit c → ¬ (48 ≤ N_of_ascii d ≤ 57)%N → c ≠ d.
Proof. intros H%digit_range Hd ->. done. Qed.

Lemma drop_matching_head p c s : p c = false → drop_matching p (c :: s) = c :: s.
Proof. intros H. simpl. by rewrite H. Qed.

Lemma trim_digits s : digits s → trim s = s.
Proof.
  intros [Hne Hs]. unfold trim, trim_matching.
  assert (drop_matching is_whitespace s = s) as ->.
  { destruct s as [|c s]; [done|]. apply Forall_cons in Hs as [Hc _]. apply drop_matching_head. by apply digit_not_white. }
  destruct s as [|c s _] using rev_ind; [done|]. rewrite reverse_snoc, drop_matching_head.
  - by rewrite reverse_cons, reverse_involutive.
  - apply Forall_app in Hs as [_ Hc]. apply Forall_cons in Hc as [Hc _]. by apply digit_not_white.
Qed.

(** No digits begin with a character that is none. *)
Lemma starts_with_digits d p s : digits s → ¬ (48 ≤ N_of_ascii d ≤ 57)%N → starts_with (d :: p) s = false.
Proof.
  intros [Hne Hs] Hd. apply bool_decide_eq_false_2. destruct s as [|c s]; [done|]. apply Forall_cons in Hs as [Hc _].
  simpl. intros [= -> _]. by apply (digit_not d d Hc Hd).
Qed.

Lemma normalize_digits s : digits s → normalize_model_value s = s.
Proof.
  intros H. unfold normalize_model_value. rewrite (trim_digits s H), starts_with_digits; [done|done|].
  intros [Hle _]. by apply Hle.
Qed.

Section parse.
Context `{WT : WideText}.
Lemma parse_numeric_digits s : digits s → parse_numeric_value s = Some s.
Proof.
  intros H. unfold parse_numeric_value. rewrite (trim_digits s H).
  change (chars "(_ bv") with ("("%char :: chars "_ bv"). change (chars "#x") with ("#"%char :: chars "x").
  change (chars "#b") with ("#"%char :: chars "b").
  rewrite !starts_with_digits by (done || (intros [Hle _]; by apply Hle)). simpl. by rewrite normalize_digits.
Qed.
Lemma parse_unsigned_digits limit s : digits s → parse_unsigned limit s = parse_digits limit 0 s.
Proof.
  intros [Hne Hs]. destruct s as [|c s]; [done|]. apply Forall_cons in Hs as [Hc _].
  assert (c ≠ "+"%char) as Hplus by (apply digit_not; [done|]; intros [Hle _]; by apply Hle).
  unfold parse_unsigned. apply Ascii.eqb_neq in Hplus. destruct s as [|c' s];
    destruct c as [[] [] [] [] [] [] [] []]; done.
Qed.
End parse.

Lemma parse_unsigned_pretty limit (n : N) : (n < limit)%N → parse_unsigned limit (chars (pretty n)) = Some n.
Proof.
  intros H. rewrite parse_unsigned_digits by apply pretty_digits.
  unfold pretty, pretty_N. destruct (decide (n = 0)%N) as [->|].
  - destruct limit; [lia|done].
  - by rewrite parse_digits_go.
Qed.

(** A library that reads decimal numbers only. *)
#[export, refine] Instance decimal_text : WideText := {
  u256_from_str_radix s radix := None;
  u128_from_str := parse_unsigned (2 ^ 128);
  u256_from_str := parse_unsigned (2 ^ 256);
}.
Proof. all: intros n; apply parse_unsigned_pretty. Defined.

(** ** Bit-vector numerals *)
Lemma split_words_solid word w rest : Forall (λ c, is_whitespace c = false) w →
  split_words word (w ++ rest) = split_words (reverse w ++ word) rest.
Proof.
  revert word. induction w as [|c w IH]; intros word Hw; [done|]. apply Forall_cons in Hw as [Hc Hw].
  simpl. rewrite Hc, IH by done. by rewrite reverse_cons, <- app_assoc.
Qed.
Lemma split_words_next word w c rest : word ++ w ≠ [] → Forall (λ c, is_whitespace c = false) w → is_whitespace c = true →
  split_words word (w ++ c :: rest) = reverse (reverse w ++ word) :: split_words [] rest.
Proof.
  intros Hne Hw Hc. rewrite split_words_solid by done. simpl. rewrite Hc.
  destruct (reverse w ++ word) eqn:E; [|done]. exfalso. apply Hne. apply app_nil in E as [E1 ->].
  apply (f_equal reverse) in E1. rewrite reverse_involutive in E1. by rewrite E1.
Qed.

Definition bit_vector_text (n width : N) : list ascii :=
  chars "(_ bv" ++ chars (pretty n) ++ [" "%char] ++ chars (pretty width) ++ [")"%char].

Lemma trim_matching_ends p c d s : p c = false → p d = false → trim_matching p (c :: s ++ [d]) = c :: s ++ [d].
Proof.
  intros Hc Hd. unfold trim_matching. rewrite drop_matching_head by done. rewrite reverse_cons, reverse_snoc.
  cbn [app]. rewrite drop_matching_head by done. by rewrite reverse_cons, reverse_app, !reverse_involutive.
Qed.

Lemma trim_parens p a c d z s : p a = true → p c = false → p d = false → p z = true →
  trim_matching p (a :: (c :: s ++ [d]) ++ [z]) = c :: s ++ [d].
Proof.
  intros Ha Hc Hd Hz. unfold trim_matching. cbn [drop_matching]. rewrite Ha. cbn [app drop_matching]. rewrite Hc.
  rewrite app_comm_cons, reverse_snoc. cbn [drop_matching]. rewrite Hz.
  rewrite reverse_cons, reverse_snoc. cbn [app drop_matching]. rewrite Hd.
  by rewrite app_comm_cons, reverse_snoc, reverse_cons, reverse_involutive.
Qed.

Lemma digits_solid s : digits s → Forall (λ c, is_whitespace c = false) s.
Proof. intros [_ H]. eapply Forall_impl; [exact H|]. intros c. apply digit_not_white. Qed.

Lemma bit_vector_stands_for `{WT : WideText} n width : parse_numeric_value (bit_vector_text n width) = Some (chars (pretty n)).
Proof.
  pose proof (pretty_digits n) as Hn. pose proof (pretty_digits width) as [Hwne Hw].
  assert (bit_vector_text n width = "("%char :: (chars "_ bv" ++ chars (pretty n) ++ " "%char :: chars (pretty width)) ++ [")"%char]) as Ht.
  { unfold bit_vector_text. cbn [chars app]. by rewrite <- !app_assoc. }
  unfold parse_numeric_value. rewrite Ht.
  rewrite (trim_matching_ends is_whitespace) by done.
  set (inner := chars "_ bv" ++ chars (pretty n) ++ " "%char :: chars (pretty width)).
  assert (starts_with (chars "(_ bv") ("("%char :: inner ++ [")"%char]) = true) as -> by (by apply bool_decide_eq_true_2).
  assert (ends_with [")"%char] ("("%char :: inner ++ [")"%char]) = true) as ->.
  { unfold ends_with. cbn [length]. rewrite length_app. cbn [length].
    replace (S (length inner + 1) - 1) with (S (length inner)) by lia. cbn [drop].
    rewrite drop_app_length, bool_decide_eq_true_2 by done. by rewrite (proj2 (Nat.leb_le _ _)) by lia. }
  cbn [andb]. set (paren := λ c : ascii, Ascii.eqb c "(" || Ascii.eqb c ")").
  assert (trim_matching paren ("("%char :: inner ++ [")"%char]) = inner) as ->.
  { destruct (chars (pretty width)) as [|d ds _] eqn:Ew using rev_ind; [done|].
    apply Forall_app in Hw as [_ Hd]. apply Forall_cons in Hd as [Hd _].
    assert (paren d = false) as Hpd.
    { unfold paren. apply orb_false_iff. split; apply Ascii.eqb_neq, digit_not; try done; intros [Hle _]; by apply Hle. }
    assert (inner = "_"%char :: (chars " bv" ++ chars (pretty n) ++ " "%char :: ds) ++ [d]) as ->.
    { unfold inner. cbn [chars app]. by rewrite <- !app_assoc. }
    by apply trim_parens. }
  assert (split_whitespace inner = [chars "_"; chars "bv" ++ chars (pretty n); chars (pretty width)]) as ->.
  { unfold split_whitespace, inner. change (chars "_ bv" ++ ?x) with (chars "_" ++ " "%char :: (chars "bv" ++ x)).
    rewrite split_words_next by (done || by repeat constructor). rewrite app_assoc.
    rewrite split_words_next by (done || by apply Forall_app_2; [repeat constructor|by apply digits_solid]).
    rewrite <- (app_nil_r (chars (pretty width))) at 1. rewrite split_words_solid by by apply digits_solid.
    cbn [split_words]. rewrite !app_nil_r, !reverse_involutive. destruct (reverse (chars (pretty width))) eqn:E.
    - exfalso. apply Hwne. apply (f_equal reverse) in E. by rewrite reverse_involutive in E.
    - done. }
  cbv iota beta. assert (starts_with (chars "bv") (chars "bv" ++ chars (pretty n)) = true) as -> by (by apply bool_decide_eq_true_2).
  by rewrite bool_decide_eq_true_2 by done.
Qed.

Section values.
Context `{WT : WideText}.

(** The value of a type that a number stands for. *)
Definition value_for (ty : MoveAbiSignatureToken) (n : N) : InputArgument :=
  match ty with
  | Tok_U8 => Arg_U8 n | Tok_U16 => Arg_U16 n | Tok_U32 => Arg_U32 n | Tok_U64 => Arg_U64 n
  | Tok_U128 => Arg_U128 n | Tok_U256 => Arg_U256 n
  | _ => Arg_Bool (n =? 1)%N
  end.

Lemma small_value_spec max s n : (max < 2 ^ 128)%N → (n < 2 ^ 128)%N → parse_numeric_value s = Some (chars (pretty n)) →
  small_value max s = if (n <=? max)%N then Some n else None.
Proof.
  intros Hm Hn Hs. unfold small_value. rewrite Hs. simpl. rewrite parse_unsigned_pretty by done. simpl.
  destruct (N.ltb_spec max n), (N.leb_spec n max); done || lia.
Qed.

(** Text that stands for the number [n]. *)
Definition stands_for (s : list ascii) (n : N) : Prop := parse_numeric_value s = Some (chars (pretty n)).

Lemma decimal_stands_for (n : N) : stands_for (chars (pretty n)) n.
Proof. apply parse_numeric_digits, pretty_digits. Qed.

Lemma integer_value ty s n max : max_value ty = Ret (Z.of_N max) → ty ≠ Tok_Bool → stands_for s n → (n ≤ max)%N →
  value_from_assignment ty s = Ret (Some (value_for ty n)).
Proof.
  intros Hmax Hb Hs Hn. destruct ty; try done; injection Hmax as Hmax; cbn [value_from_assignment value_for].
  1-3: match goal with H : stands_for ?s ?n |- context [small_value ?m ?s] =>
      rewrite (small_value_spec m s n) by (done || lia); by rewrite (proj2 (N.leb_le n m)) by lia end.
  all: unfold stands_for in *; match goal with H : parse_numeric_value _ = _ |- _ => rewrite H end; cbn [mbind option_bind].
  - by rewrite parse_unsigned_pretty by lia.
  - by rewrite u128_decimal by lia.
  - by rewrite u256_decimal by lia.
Qed.

Lemma bool_text_pretty (n : N) :
  bool_text (chars (pretty n)) = if (n =? 1)%N then Some true else if (n =? 0)%N then Some false else None.
Proof.
  assert (∀ (m : N) s, chars (pretty m) = chars s → pretty m = s) as Hinj.
  { intros m s H. apply (f_equal String.string_of_list_ascii) in H. by rewrite !String.string_of_list_ascii_of_string in H. }
  assert (∀ d, ¬ (48 ≤ N_of_ascii d ≤ 57)%N → ∀ p, chars (pretty n) ≠ d :: p) as Hno.
  { intros d Hd p H. destruct (pretty_digits n) as [_ Hf]. rewrite H in Hf. apply Forall_cons in Hf as [Hf _].
    by apply digit_range in Hf. }
  unfold bool_text. rewrite (bool_decide_eq_false_2 (_ = chars "true")) by (apply (Hno "t"%char); intros [? H]; by apply H).
  rewrite (bool_decide_eq_false_2 (_ = chars "false")) by (apply (Hno "f"%char); intros [? H]; by apply H). simpl orb.
  destruct (N.eqb_spec n 1) as [->|H1]; [done|]. rewrite bool_decide_eq_false_2.
  2: { intros H. apply (Hinj n "1"%string) in H. apply H1. by apply (inj pretty n 1%N). }
  destruct (N.eqb_spec n 0) as [->|H0]; [done|]. rewrite bool_decide_eq_false_2; [done|].
  intros H. apply (Hinj n "0"%string) in H. apply H0. by apply (inj pretty n 0%N).
Qed.

Lemma decimal_value ty max (n : N) : max_value ty = Ret (Z.of_N max) → (n ≤ max)%N →
  value_from_assignment ty (chars (pretty n)) = Ret (Some (value_for ty n)).
Proof.
  intros Hmax Hn. destruct (decide (ty = Tok_Bool)) as [->|Hne].
  - injection Hmax as Hmax. cbn [value_from_assignment value_for]. rewrite trim_digits by apply pretty_digits.
    rewrite bool_text_pretty. assert (n = 0 ∨ n = 1)%N as [-> | ->] by lia; done.
  - by eapply integer_value; [..|apply decimal_stands_for|].
Qed.

(** The text of a model is read back exactly: a number in the range of a parameter's
    type, printed in decimal or as a bit-vector numeral, becomes the value of that type;
    a number out of the range of an integer type up to 64 bits, or of [bool], is refused. *)
Theorem model_value_read_back ty max (n width : N) : max_value ty = Ret (Z.of_N max) →
  ((n ≤ max)%N → value_from_assignment ty (chars (pretty n)) = Ret (Some (value_for ty n)) ∧
    (ty ≠ Tok_Bool → value_from_assignment ty (bit_vector_text n width) = Ret (Some (value_for ty n)))) ∧
  ((max < n < 2 ^ 64)%N → value_from_assignment ty (chars (pretty n)) = Ret None).
Proof.
  intros Hmax. split.
  - intros Hn. split; [by eapply decimal_value|]. intros Hb.
    by eapply integer_value; [..|apply bit_vector_stands_for|].
  - intros Hn. destruct ty; try done; injection Hmax as Hmax; try lia; cbn [value_from_assignment].
    + rewrite trim_digits, normalize_digits, bool_text_pretty by apply pretty_digits.
      by rewrite (proj2 (N.eqb_neq n 1)), (proj2 (N.eqb_neq n 0)) by lia.
    + rewrite (small_value_spec _ _ n) by (done || lia || apply decimal_stands_for). by rewrite (proj2 (N.leb_gt _ _)) by lia.
    + rewrite (small_value_spec _ _ n) by (done || lia || apply decimal_stands_for). by rewrite (proj2 (N.leb_gt _ _)) by lia.
    + rewrite (small_value_spec _ _ n) by (done || lia || apply decimal_stands_for). by rewrite (proj2 (N.leb_gt _ _)) by lia.
Qed.
End values.

(** ** Solutions *)
Lemma mapM_Ret_Forall2 {A B} (f : A → panics B) l k : mapM f l = Ret k → Forall2 (λ x y, f x = Ret y) l k.
Proof.
  revert k. induction l as [|x l IH]; intros k H; csimpl in H; [by injection H as <-|].
  apply panics_bind_Ret in H as (y & Hy & H). apply panics_bind_Ret in H as (k' & Hk & [= <-]).
  constructor; [done|by apply IH].
Qed.
Lemma Forall2_mapM_Ret {A B} (f : A → panics B) l k : Forall2 (λ x y, f x = Ret y) l k → mapM f l = Ret k.
Proof.
  induction 1 as [|x y l k H _ IH]; [done|]. cbn [mapM]. rewrite H. unfold mbind, panics_mbind in *. simpl. by rewrite IH.
Qed.

Lemma mapM_total {A B} (f : A → panics B) l : (∀ x, x ∈ l → ∃ y, f x = Ret y) → ∃ k, mapM f l = Ret k.
Proof.
  induction l as [|x l IH]; intros Hl; [by eexists|]. destruct (Hl x) as [y Hy]; [left|].
  destruct IH as [k Hk]; [intros z Hz; apply Hl; by right|]. exists (y :: k). apply Forall2_mapM_Ret.
  constructor; [done|by apply mapM_Ret_Forall2].
Qed.

Section solutions.
Context {I B : Type} `{ZA : Z3Ast I B} `{ZL : !Z3Laws I B} `{WT : WideText}.
Context (check : list B → CheckResult) (decl_name : I → string).
Hypothesis decl_name_const : ∀ x, decl_name (int_new_const x) = x.
(** A model satisfies what was asserted, and is printed faithfully. *)
Hypothesis check_sound : ∀ asserted model, check asserted = Check_Sat (Some model) →
  ∃ ρ, Forall (λ c, evalB ρ c = true) asserted ∧
    ∀ x, (0 ≤ ρ x)%Z → model x = Some (chars (pretty (Z.to_N (ρ x)))).

(** Every symbolic argument is a constant for a parameter of a solvable type. *)
Definition symbolic_params (params : list MoveAbiSignatureToken) (names : gmap nat string) : Prop :=
  map_Forall (λ i _, ∃ ty max, params !! i = Some ty ∧ max_value ty = Ret max) names.

Lemma range_constraints_spec ρ params x cs : range_constraints params x = Ret cs →
  ∃ ty max, params !! x.1 = Some ty ∧ max_value ty = Ret max ∧
    (Forall (λ c, evalB ρ c = true) cs → (0 ≤ evalI ρ x.2 ≤ max)%Z).
Proof.
  intros (ty & Hty & E)%panics_bind_Ret. apply panics_bind_Ret in E as (max & Hmax & [= <-]). apply unwrap_Ret in Hty.
  exists ty, max. split_and!; [done|done|]. intros [H1 H2]%Forall_cons. apply Forall_cons in H2 as [H2 _].
  rewrite eval_ge, eval_from in H1. rewrite eval_le, eval_from in H2. lia.
Qed.

Lemma max_value_pos ty max : max_value ty = Ret max → ∃ m, max = Z.of_N m.
Proof. intros E. exists (Z.to_N max). destruct ty; try done; by injection E as <-. Qed.

(** What a model of the constraints and the ranges is turned into. *)
Definition solution_for (params : list MoveAbiSignatureToken) (names : gmap nat string) (ρ : string → Z)
    (solution : gmap nat InputArgument) : Prop :=
  ∀ i, solution !! i = x ← names !! i; ty ← params !! i; Some (value_for ty (Z.to_N (ρ x))).

Lemma ranges_hold params args ranges ρ i a : mapM (range_constraints params) (map_to_list args) = Ret ranges →
  Forall (λ c, evalB ρ c = true) (concat ranges) → args !! i = Some a →
  ∃ ty max, params !! i = Some ty ∧ max_value ty = Ret max ∧ (0 ≤ evalI ρ a ≤ max)%Z.
Proof.
  intros E%mapM_Ret_Forall2 H Ha. apply elem_of_map_to_list, list_elem_of_lookup in Ha as [k Hk].
  destruct (Forall2_lookup_l _ _ _ _ _ E Hk) as (cs & Hcs & Er).
  destruct (range_constraints_spec ρ _ _ _ Er) as (ty & max & Hty & Hmax & Hb). simpl in *.
  rewrite Forall_concat in H. exists ty, max. split; [done|]. split; [done|]. apply Hb.
  exact (Forall_lookup_1 _ _ _ _ H Hcs).
Qed.

Lemma read_assignments params names model ρ values :
  (∀ i x, names !! i = Some x → ∃ ty max, params !! i = Some ty ∧ max_value ty = Ret max ∧ (0 ≤ ρ x ≤ max)%Z) →
  (∀ x, (0 ≤ ρ x)%Z → model x = Some (chars (pretty (Z.to_N (ρ x))))) →
  mapM (read_assignment params) (map_to_list (omap model names)) = Ret values →
  solution_for params names ρ (list_to_map (omap id values)).
Proof.
  intros Hnames Hmodel E%mapM_Ret_Forall2.
  assert (∀ i y, (i, y) ∈ omap id values ↔ ∃ x ty, names !! i = Some x ∧ params !! i = Some ty ∧
    y = value_for ty (Z.to_N (ρ x))) as Hin.
  { assert (∀ i s v, (i, s) ∈ map_to_list (omap model names) → read_assignment params (i, s) = Ret v →
      ∃ x ty, names !! i = Some x ∧ params !! i = Some ty ∧ v = Some (i, value_for ty (Z.to_N (ρ x)))) as Hread.
    { intros i s v Hi Hv. apply elem_of_map_to_list in Hi. rewrite lookup_omap in Hi. apply bind_Some in Hi as (x & Hx & Hs).
      destruct (Hnames i x Hx) as (ty & max & Hty & Hmax & Hr). rewrite (Hmodel x ltac:(lia)) in Hs. injection Hs as <-.
      exists x, ty. split_and!; [done|done|]. unfold read_assignment in Hv. simpl in Hv. rewrite Hty in Hv. simpl in Hv.
      destruct (max_value_pos _ _ Hmax) as [m ->]. rewrite (decimal_value ty m) in Hv; [by injection Hv as <-|done|lia]. }
    intros i y. rewrite list_elem_of_omap. split.
    - intros (v & Hv & Ev). simpl in Ev. subst v. apply list_elem_of_lookup in Hv as [k Hk].
      destruct (Forall2_lookup_r _ _ _ _ _ E Hk) as ([i' s] & Hs & Er).
      destruct (Hread i' s _ (list_elem_of_lookup_2 _ _ _ Hs) Er) as (x & ty & Hx & Hty & [= -> ->]). by exists x, ty.
    - intros (x & ty & Hx & Hty & ->). destruct (Hnames i x Hx) as (ty' & max & _ & _ & Hr).
      assert ((i, chars (pretty (Z.to_N (ρ x)))) ∈ map_to_list (omap model names)) as Hi.
      { apply elem_of_map_to_list. rewrite lookup_omap, Hx. apply Hmodel. lia. }
      apply list_elem_of_lookup in Hi as [k Hk]. destruct (Forall2_lookup_l _ _ _ _ _ E Hk) as (v & Hv & Er).
      exists v. split; [by eapply list_elem_of_lookup_2|].
      destruct (Hread i _ v (list_elem_of_lookup_2 _ _ _ Hk) Er) as (x' & ty2 & Hx' & Hty' & ->). simpl. by simplify_eq. }
  intros i. destruct (names !! i) as [x|] eqn:Hx.
  - destruct (Hnames i x Hx) as (ty & max & Hty & _). rewrite Hty. apply elem_of_list_to_map_1'.
    + intros y Hy. apply Hin in Hy as (x' & ty' & Hx' & Hty' & ->). by simplify_eq.
    + apply Hin. by exists x, ty.
  - apply not_elem_of_list_to_map_1. intros Hi. apply list_elem_of_fmap in Hi as ([j y] & -> & Hy).
    apply Hin in Hy as (x' & ty & Hx' & _). simpl in Hx. congruence.
Qed.

Lemma solve_spec function names constraints ending :
  let args := int_new_const <$> names in
  symbolic_params (fa_parameters function) names →
  ∃ o, solve check decl_name function args constraints ending = Ret o ∧
  match o with
  | Some solution => ∃ ρ, Forall (λ c, evalB ρ c = true) constraints ∧
      solution_for (fa_parameters function) names ρ solution ∧
      ∀ i x ty max, names !! i = Some x → fa_parameters function !! i = Some ty → max_value ty = Ret max →
        (0 ≤ ρ x ≤ max)%Z
  | None => constraints = [] ∨ ending ≠ Delivered ∨
      ∃ ranges, ∀ model, check (constraints ++ ranges) ≠ Check_Sat (Some model)
  end.
Proof.
  intros args Hnames. unfold solve. destruct constraints as [|c0 cs]; [exists None; by split; [|left]|].
  set (constraints := c0 :: cs). set (params := fa_parameters function) in *.
  assert (∃ ranges, mapM (range_constraints params) (map_to_list args) = Ret ranges) as [ranges Hranges].
  { apply mapM_total. intros [i a] Hi. apply elem_of_map_to_list in Hi. unfold args in Hi. rewrite lookup_fmap in Hi.
    apply fmap_Some in Hi as (x & Hx & ->). destruct (Hnames i x Hx) as (ty & max & Hty & Hmax).
    eexists. unfold range_constraints. simpl. rewrite Hty. simpl. by rewrite Hmax. }
  rewrite Hranges. cbn [mbind panics_mbind panics_bind].
  destruct ending; [|exists None; split; [done|right; by left]..]. unfold run_solver_worker.
  destruct (check (constraints ++ concat ranges)) as [[model|]| |] eqn:Echeck;
    [|exists None; split; [done|right; right; exists (concat ranges); intros m; by rewrite Echeck]..].
  destruct (check_sound _ _ Echeck) as (ρ & Hsat & Hmodel). apply Forall_app in Hsat as [Hcs Hrs].
  assert (decl_name <$> args = names) as ->.
  { unfold args. rewrite <- map_fmap_compose. apply map_eq. intros i. rewrite lookup_fmap. destruct (names !! i); [|done].
    simpl. by rewrite decl_name_const. }
  assert (∀ i x, names !! i = Some x → ∃ ty max, params !! i = Some ty ∧ max_value ty = Ret max ∧ (0 ≤ ρ x ≤ max)%Z) as Hbound.
  { intros i x Hx. destruct (ranges_hold params args ranges ρ i (int_new_const x) Hranges Hrs) as (ty & max & Hty & Hmax & Hr).
    { unfold args. by rewrite lookup_fmap, Hx. }
    rewrite eval_const in Hr. by exists ty, max. }
  assert (∃ values, mapM (read_assignment params) (map_to_list (omap model names)) = Ret values) as [values Hvalues].
  { apply mapM_total. intros [i s] Hi. apply elem_of_map_to_list in Hi. rewrite lookup_omap in Hi. apply bind_Some in Hi as (x & Hx & Hs).
    destruct (Hbound i x Hx) as (ty & max & Hty & Hmax & Hr). rewrite (Hmodel x ltac:(lia)) in Hs. injection Hs as <-.
    destruct (max_value_pos _ _ Hmax) as [m ->]. eexists. unfold read_assignment. simpl. rewrite Hty. simpl.
    by rewrite (decimal_value ty m) by (done || lia). }
  rewrite Hvalues. eexists. split; [reflexivity|]. exists ρ. split_and!; [exact Hcs|by eapply read_assignments|].
  intros i x ty max Hx Hty Hmax. destruct (Hbound i x Hx) as (ty' & max' & Hty' & Hmax' & Hr).
  rewrite Hty in Hty'. injection Hty' as <-. rewrite Hmax in Hmax'. by injection Hmax' as <-.
Qed.

End solutions.

(** ** Witnesses *)
(** A solver that knows one assignment. *)
Definition demo_check (n : Z) (asserted : list BoolTerm) : CheckResult :=
  if forallb (term_evalB (λ _, n)) asserted then Check_Sat (Some (λ _, Some (chars (pretty (Z.to_N n))))) else Check_Unknown.
Definition demo_decl_name (t : IntTerm) : string := match t with T_const x => x | _ => ""%string end.
Lemma demo_check_sound n asserted model : demo_check n asserted = Check_Sat (Some model) →
  ∃ ρ, Forall (λ c, evalB ρ c = true) asserted ∧
    ∀ x, (0 ≤ ρ x)%Z → model x = Some (chars (pretty (Z.to_N (ρ x)))).
Proof.
  unfold demo_check. destruct (forallb _ _) eqn:E; [|done]. intros [= <-]. exists (λ _, n). split; [|done].
  rewrite forallb_forall in E. apply Forall_forall. intros c Hc. by apply E, list_elem_of_In.
Qed.

Lemma demo_decl_name_const x : demo_decl_name (int_new_const x) = x.
Proof. done. Qed.

Definition demo_transfer : MoveFunctionAbi :=
  {| fa_name := "transfer"; fa_parameters := [Tok_U64; Tok_Address]; fa_return_paramters := []; fa_type_parameters := [];
     fa_visibility := Public; fa_is_entry := false |}.
Definition demo_constraint : BoolTerm := T_gt (T_const "0.0") (T_num 1000).


Lemma model_value_read_back_witness :
  value_from_assignment Tok_U16 (bit_vector_text 65535 16) = Ret (Some (Arg_U16 65535)) ∧
  value_from_assignment Tok_U16 (chars "65536") = Ret None.
Proof.
  destruct (model_value_read_back Tok_U16 65535 65535 16) as [H1 _]; [done|].
  destruct (model_value_read_back Tok_U16 65535 65536 16) as [_ H2]; [done|].
  split; [apply H1; done|]. by apply H2.
Defined.
