(* ===== verification/Input.v ===== *)
(** * Input: the constants a fuzz input is mutated with

    [update_magic_number] and [magic_number_pool] of
    [crates/movy-fuzz/src/input.rs]: the operands of the comparisons a run has
    made, by the function that made them. The pool is kept by the text of the
    address, the module and the function; the map the mutators read is by
    function of the current package. *)
From S2P Require Import Prelude Types Text TraceState Logs TypeGraph Meta Values.
From stdpp Require Import sorting.
From Stdlib Require String.

Abbreviation Pool := (gmap string (gmap string (gmap string (gset Bytes)))).

(** ** Collecting constants *)
Definition magic_bytes (magic : Magic) : option Bytes :=
  match magic with
  | Mg_U8 v => Some [v]
  | Mg_U16 v => Some (to_le_bytes 2 v)
  | Mg_U32 v => Some (to_le_bytes 4 v)
  | Mg_U64 v => Some (to_le_bytes 8 v)
  | Mg_U128 v => Some (to_le_bytes 16 v)
  | Mg_U256 v => Some (to_le_bytes 32 v)
  | Mg_Bytes [] => None
  | Mg_Bytes v => Some v
  end.

(** [EQ], [GE] and [LE] only. *)
Definition log_constants {B} (log : Log B) : list Bytes :=
  match log with
  | CmpLog lhs rhs (Cmp_EQ | Cmp_GE | Cmp_LE) _ => omap magic_bytes [lhs; rhs]
  | _ => []
  end.
Definition insert_constants {B} (cmps : list (Log B)) (function_pool : gset Bytes) : gset Bytes :=
  fold_left (λ s b, {[ b ]} ∪ s) (flat_map log_constants cmps) function_pool.

Section input.
Context `{AT : AddressText} {B : Type}.

(** [entry(..).or_default()], three times. *)
Definition add_function_logs (pool : Pool) (x : FunctionIdent * list (Log B)) : Pool :=
  let '(func, cmps) := x in
  let pkg := show_address (module_address (fi_module func)) in
  let modules := default ∅ (pool !! pkg) in
  let functions := default ∅ (modules !! module_name (fi_module func)) in
  let function_pool := default ∅ (functions !! fi_name func) in
  <[pkg := <[module_name (fi_module func) :=
    <[fi_name func := insert_constants cmps function_pool]> functions]> modules]> pool.

(** The old pool is dropped. *)
Definition update_magic_number (logs : gmap FunctionIdent (list (Log B))) : Pool :=
  fold_left add_function_logs (map_to_list logs) ∅.

(** ** Reading the pool *)

Definition pool_entries (pool : Pool) : list (string * string * string * gset Bytes) :=
  flat_map (λ '(pkg, module_map), flat_map (λ '(module, func_map),
    map (λ '(func, cmps), (pkg, module, func, cmps)) (string_iter func_map)) (string_iter module_map)) (string_iter pool).

Context `{PG : PetGraph G}.
Definition pool_ident (base : Metadata G) (x : string * string * string * gset Bytes) :
    panics (FunctionIdent * gset Bytes) :=
  let '(pkg, module, func, cmps) := x in
  pkg ← unwrap (address_from_str pkg);
  Ret (FunctionIdent_new (package_of base pkg) module func, cmps).

(** A later entry for the same function replaces an earlier one. *)
Definition magic_number_pool (base : Metadata G) (pool : Pool) : panics (gmap FunctionIdent (gset Bytes)) :=
  res ← mapM (pool_ident base) (pool_entries pool);
  Ret (list_to_map (reverse res)).
End input.

(** ** What is in the pool *)
Section pool_spec.
Context `{AT : AddressText} {B : Type}.

Definition pool_lookup (pool : Pool) (k : string * string * string) : option (gset Bytes) :=
  modules ← pool !! k.1.1; functions ← modules !! k.1.2; functions !! k.2.
Definition pool_key (f : FunctionIdent) : string * string * string :=
  (show_address (module_address (fi_module f)), module_name (fi_module f), fi_name f).

Lemma elem_of_insert_constants (cmps : list (Log B)) s b :
  b ∈ insert_constants cmps s ↔ b ∈ s ∨ ∃ lhs rhs op c, CmpLog lhs rhs op c ∈ cmps ∧
    (op = Cmp_EQ ∨ op = Cmp_GE ∨ op = Cmp_LE) ∧ (magic_bytes lhs = Some b ∨ magic_bytes rhs = Some b).
Proof.
  assert (∀ l s, b ∈ fold_left (λ s b, {[ b ]} ∪ s) l s ↔ b ∈ (s : gset Bytes) ∨ b ∈ l) as Hfold.
  { induction l as [|x l IH]; intros s0; simpl; [set_solver|]. rewrite IH. set_solver. }
  unfold insert_constants. rewrite Hfold. f_equiv. rewrite list_elem_of_In, in_flat_map. split.
  - intros (log & Hlog & Hb). apply list_elem_of_In in Hlog, Hb.
    destruct log as [lhs rhs op c| |]; try (by apply elem_of_nil in Hb).
    exists lhs, rhs, op, c. split; [done|].
    assert ((op = Cmp_EQ ∨ op = Cmp_GE ∨ op = Cmp_LE) ∧ b ∈ omap magic_bytes [lhs; rhs]) as [Hop Hin].
    { destruct op; try (by apply elem_of_nil in Hb); auto. }
    split; [done|]. apply list_elem_of_omap in Hin as (m & Hm & Hmb). set_solver.
  - intros (lhs & rhs & op & c & Hlog & Hop & Hb). exists (CmpLog lhs rhs op c). rewrite <- list_elem_of_In. split; [done|].
    apply list_elem_of_In.
    assert (b ∈ omap magic_bytes [lhs; rhs]) as Hin.
    { apply list_elem_of_omap. destruct Hb; [exists lhs|exists rhs]; split; set_solver. }
    by destruct Hop as [-> | [-> | ->]].
Qed.

Definition valid_ident (f : FunctionIdent) : Prop := (addr_val (module_address (fi_module f)) < 2 ^ 256)%N.

Lemma pool_key_inj f g : valid_ident f → valid_ident g → pool_key f = pool_key g → f = g.
Proof.
  unfold valid_ident. intros Hf Hg [= Ha Hm Hn]. destruct f as [[a m] n], g as [[a' m'] n']; simpl in *.
  apply parse_canonical in Hf, Hg. unfold show_address in Ha. rewrite Ha in Hf. rewrite Hf in Hg. by simplify_eq.
Qed.

Lemma pool_lookup_add pool f (cmps : list (Log B)) k :
  pool_lookup (add_function_logs pool (f, cmps)) k =
  if decide (k = pool_key f) then Some (insert_constants cmps (default ∅ (pool_lookup pool k))) else pool_lookup pool k.
Proof.
  destruct k as [[p m] n]. unfold pool_lookup, add_function_logs, pool_key. simpl.
  set (pf := show_address (module_address (fi_module f))). set (mf := module_name (fi_module f)).
  destruct (decide (p = pf)) as [->|Hp].
  2: { rewrite lookup_insert_ne by done. rewrite decide_False by congruence. done. }
  rewrite lookup_insert_eq. simpl. destruct (decide (m = mf)) as [->|Hm].
  2: { rewrite lookup_insert_ne by done. rewrite decide_False by congruence.
       destruct (pool !! pf); [done|]. simpl. by rewrite lookup_empty. }
  rewrite lookup_insert_eq. simpl. destruct (decide (n = fi_name f)) as [->|Hn].
  - rewrite lookup_insert_eq, decide_True by done. destruct (pool !! pf) as [mm|]; simpl; [|by rewrite lookup_empty].
    destruct (mm !! mf) as [ff|]; simpl; [done|by rewrite lookup_empty].
  - rewrite lookup_insert_ne, decide_False by congruence. destruct (pool !! pf) as [mm|]; simpl; [|by rewrite !lookup_empty].
    destruct (mm !! mf) as [ff|]; simpl; [done|by rewrite lookup_empty].
Qed.

Lemma update_magic_number_spec (logs : gmap FunctionIdent (list (Log B))) k s :
  map_Forall (λ f _, valid_ident f) logs →
  pool_lookup (update_magic_number logs) k = Some s ↔
  ∃ f cmps, logs !! f = Some cmps ∧ k = pool_key f ∧ s = insert_constants cmps ∅.
Proof.
  intros Hvalid. unfold update_magic_number.
  assert (∀ l pool, NoDup l.*1 → Forall (λ x, valid_ident x.1) l → (∀ x, x ∈ l → pool_lookup pool (pool_key x.1) = None) →
    pool_lookup (fold_left add_function_logs l pool) k = Some s ↔
    pool_lookup pool k = Some s ∨ ∃ f (cmps : list (Log B)), (f, cmps) ∈ l ∧ k = pool_key f ∧ s = insert_constants cmps ∅) as Hfold.
  { induction l as [|[f cmps] l IH]; intros pool Hnd Hv Hfresh; cbn [fold_left].
    { split; [by left|]. intros [H|(? & ? & H & _)]; [done|by apply elem_of_nil in H]. }
    apply NoDup_cons in Hnd as [Hni Hnd]. apply Forall_cons in Hv as [Hf Hv].
    assert (∀ x, x ∈ l → pool_key x.1 ≠ pool_key f) as Hne.
    { intros x Hx Hk. apply Hni. assert (x.1 = f) as <-; [apply pool_key_inj; [by eapply (proj1 (Forall_forall _ _) Hv)|done|done]|].
      exact (list_elem_of_fmap_2 fst l x Hx). }
    rewrite IH; [|done|done|].
    2: { intros x Hx. rewrite pool_lookup_add, decide_False by by apply Hne. apply Hfresh. by right. }
    rewrite pool_lookup_add. destruct (decide (k = pool_key f)) as [->|Hk].
    - assert (pool_lookup pool (pool_key f) = None) as -> by (apply (Hfresh (f, cmps)); left). simpl. split.
      + intros [[= <-]|(g & c & Hg & Hkg & _)]; [right; exists f, cmps; split; [left|done]|].
        exfalso. by apply (Hne (g, c) Hg).
      + intros [H|(g & c & [[= -> ->]|Hg]%elem_of_cons & Hkg & ->)]; [done|by left|]. exfalso. by apply (Hne (g, c) Hg).
    - split.
      + intros [H|(g & c & Hg & -> & ->)]; [by left|right]. exists g, c. split; [by right|done].
      + intros [H|(g & c & [[= -> ->]|Hg]%elem_of_cons & Hkg & ->)]; [by left|done|right]. by exists g, c. }
  rewrite Hfold.
  - split.
    + intros [H|(f & cmps & Hf & ?)]; [unfold pool_lookup in H; by rewrite lookup_empty in H|].
      apply elem_of_map_to_list in Hf. by exists f, cmps.
    + intros (f & cmps & Hf & ?). right. exists f, cmps. split; [by apply elem_of_map_to_list|done].
  - apply NoDup_fst_map_to_list.
  - apply Forall_forall. intros [f c] Hf%elem_of_map_to_list. by apply (Hvalid f c).
  - intros x _. unfold pool_lookup. by rewrite lookup_empty.
Qed.

Lemma elem_of_pool_entries pool k s : (k, s) ∈ pool_entries pool ↔ pool_lookup pool k = Some s.
Proof.
  destruct k as [[p m] n]. unfold pool_entries, pool_lookup. rewrite list_elem_of_In, in_flat_map. simpl. split.
  - intros ([p' mm] & Hp & H). apply in_flat_map in H as ([m' ff] & Hm & H). apply in_map_iff in H as ([n' s'] & [= -> -> -> ->] & Hn).
    apply list_elem_of_In, elem_of_string_iter in Hp, Hm, Hn. rewrite Hp. simpl. rewrite Hm. simpl. exact Hn.
  - intros (mm & Hp & H)%bind_Some. apply bind_Some in H as (ff & Hm & Hn). exists (p, mm).
    rewrite <- list_elem_of_In, elem_of_string_iter. split; [done|]. apply in_flat_map. exists (m, ff).
    rewrite <- list_elem_of_In, elem_of_string_iter. split; [done|]. apply in_map_iff. exists (n, s).
    by rewrite <- list_elem_of_In, elem_of_string_iter.
Qed.

Context `{PG : PetGraph G}.
(** The function of the current package. *)
Definition current_ident (base : Metadata G) (f : FunctionIdent) : FunctionIdent :=
  FunctionIdent_new (package_of base (module_address (fi_module f))) (module_name (fi_module f)) (fi_name f).

Lemma pool_ident_key (base : Metadata G) f s : valid_ident f →
  pool_ident base (pool_key f, s) = Ret (current_ident base f, s).
Proof. intros Hf. unfold pool_ident, pool_key, address_from_str, show_address. by rewrite (parse_canonical _ Hf). Qed.

(** The constants a call is mutated with are exactly the operands of its own
    comparisons: after [update_magic_number] the map [magic_number_pool] reads has, for
    every function in the log of the run and for no other, the little-endian bytes (in
    the width of the operand) of both sides of its [==], [<=] and [>=] comparisons - and
    nothing of earlier runs. The functions are those of the current packages, which
    must be different for different functions. *)
Theorem magic_pool_exact (base : Metadata G) (logs : gmap FunctionIdent (list (Log B))) :
  map_Forall (λ f _, valid_ident f) logs →
  (∀ f g, is_Some (logs !! f) → is_Some (logs !! g) → current_ident base f = current_ident base g → f = g) →
  ∃ res, magic_number_pool base (update_magic_number logs) = Ret res ∧
    (∀ f cmps, logs !! f = Some cmps → ∃ constants, res !! current_ident base f = Some constants ∧
       ∀ b, b ∈ constants ↔ ∃ lhs rhs op c, CmpLog lhs rhs op c ∈ cmps ∧
         (op = Cmp_EQ ∨ op = Cmp_GE ∨ op = Cmp_LE) ∧ (magic_bytes lhs = Some b ∨ magic_bytes rhs = Some b)) ∧
    (∀ g, is_Some (res !! g) → ∃ f, is_Some (logs !! f) ∧ g = current_ident base f).
Proof.
  intros Hvalid Hinj.
  assert (∀ k s, (k, s) ∈ pool_entries (update_magic_number logs) ↔
    ∃ f cmps, logs !! f = Some cmps ∧ k = pool_key f ∧ s = insert_constants cmps ∅) as Hent.
  { intros k s. by rewrite elem_of_pool_entries, update_magic_number_spec. }
  assert (∃ res, mapM (pool_ident base) (pool_entries (update_magic_number logs)) = Ret res ∧
    ∀ g s, (g, s) ∈ res ↔ ∃ f cmps, logs !! f = Some cmps ∧ g = current_ident base f ∧ s = insert_constants cmps ∅) as (res & Hres & Hin).
  { revert Hent. generalize (pool_entries (update_magic_number logs)). intros l Hent.
    assert (∀ l, (∀ k s, (k, s) ∈ l → ∃ f, valid_ident f ∧ k = pool_key f) → ∃ res, mapM (pool_ident base) l = Ret res ∧
      ∀ g s, (g, s) ∈ res ↔ ∃ f, valid_ident f ∧ (pool_key f, s) ∈ l ∧ g = current_ident base f) as Hmap.
    { clear l Hent. induction l as [|[k s] l IH]; intros Hl.
      { exists []. split; [done|]. intros g s. split; [intros H; by apply elem_of_nil in H|intros (? & _ & H & _); by apply elem_of_nil in H]. }
      destruct IH as (res & Hr & Hres); [intros k' s' H; apply (Hl k' s'); by right|].
      destruct (Hl k s) as (f & Hf & ->); [left|]. exists ((current_ident base f, s) :: res). split.
      { cbn [mapM]. rewrite pool_ident_key by done. unfold mbind, panics_mbind in *. simpl. by rewrite Hr. }
      intros g t. rewrite elem_of_cons, Hres. split.
      - intros [[= -> ->]|(f' & Hf' & Hk & ->)]; [exists f|exists f']; (split; [done|]); (split; [|done]); [left|by right].
      - intros (f' & Hf' & [Hk|Hk]%elem_of_cons & ->); [left|right; by exists f'].
        apply pair_eq in Hk as [Hk ->]. by rewrite (pool_key_inj f' f). }
    destruct (Hmap l) as (res & Hr & Hres).
    { intros k s Hk. apply Hent in Hk as (f & cmps & Hf & -> & _). exists f. split; [by apply (Hvalid f cmps)|done]. }
    exists res. split; [done|]. intros g s. rewrite Hres. split.
    - intros (f & Hf & Hk & ->). apply Hent in Hk as (f' & cmps & Hf' & Hk & ->).
      rewrite (pool_key_inj f f' Hf (Hvalid _ _ Hf') Hk). by exists f', cmps.
    - intros (f & cmps & Hf & -> & ->). exists f. split_and!; [by apply (Hvalid f cmps)|apply Hent; by exists f, cmps|done]. }
  exists (list_to_map (reverse res)). split; [unfold magic_number_pool; rewrite Hres; done|]. split.
  - intros f cmps Hf. exists (insert_constants cmps ∅). split.
    + apply elem_of_list_to_map_1'.
      * intros s Hs. apply elem_of_reverse, Hin in Hs as (f' & cmps' & Hf' & Hc & ->).
        rewrite (Hinj f' f) in Hf' by (done || by eexists). congruence.
      * apply elem_of_reverse, Hin. by exists f, cmps.
    + intros b. rewrite elem_of_insert_constants. set_solver.
  - intros g [s Hs]. apply elem_of_list_to_map_2, elem_of_reverse, Hin in Hs as (f & cmps & Hf & -> & _).
    exists f. by split; [eexists|].
Qed.
End pool_spec.

(** ** Witness *)
Definition demo_logged : FunctionIdent := MkFunctionIdent demo_coin_id "mint".
Definition demo_cmp_logs : gmap FunctionIdent (list (Log ())) :=
  {[ demo_logged := [CmpLog (Mg_U16 1000) (Mg_U16 7) Cmp_EQ None; CmpLog (Mg_U16 5) (Mg_U16 6) Cmp_LT None] ]}.

Lemma magic_pool_exact_witness :
  ∃ res constants, magic_number_pool (AT := hex_text) demo_metadata (update_magic_number demo_cmp_logs) = Ret res ∧
    res !! demo_logged = Some constants ∧ [232; 3]%N ∈ constants ∧ [5; 0]%N ∉ constants.
Proof.
  destruct (magic_pool_exact (AT := hex_text) demo_metadata demo_cmp_logs) as (res & Hres & Hin & _).
  - unfold demo_cmp_logs. intros f cmps [<- _]%lookup_singleton_Some. by vm_compute.
  - unfold demo_cmp_logs. intros f g [? [<- _]%lookup_singleton_Some] [? [<- _]%lookup_singleton_Some] _. done.
  - destruct (Hin demo_logged _ (lookup_singleton_eq _ _)) as (constants & Hc & Hb).
    exists res, constants. split; [exact Hres|]. split; [exact Hc|]. rewrite !Hb. split.
    + exists (Mg_U16 1000), (Mg_U16 7), Cmp_EQ, None. split; [left|]. split; [by left|by left].
    + intros (lhs & rhs & op & c & Hlog & Hop & Hm). apply elem_of_cons in Hlog as [[= -> -> -> ->]|Hlog].
      { by destruct Hm. }
      apply list_elem_of_singleton in Hlog as [= -> -> -> ->]. by destruct Hop as [?|[?|?]].
Defined.
