(* ===== verification/ArgMutator.v ===== *)
(** * ArgMutator: the argument mutator

    [solve_arg] and [ArgMutator] of [crates/movy-fuzz/src/mutators/arg.rs]: half of
    the rounds after a run put the solution of its path constraints ([Solver]),
    one comparison of them flipped in half of the cases, into one argument; the
    others mutate one argument ([Mutate]). *)
From S2P Require Import Prelude Types Abi Z3 TypeGraph Meta Removal Random Objects Construct ConstructSpec Values Append AppendSpec Stage Mutate MutateSpec Logs Concolic Solver SolverSpec Sequence SequenceSpec.

Section arg.
Context `{PG : PetGraph G} {Rand : Type} `{RL : RandLib}.
Context {I B : Type} `{ZA : Z3Ast I B} `{WT : WideText}.
Abbreviation Meta := (FuzzMetadata (G := G) (Rand := Rand)).
Context (havoc : ByteMutator → ByteMutator) (dword_interesting : ByteMutator) (redraw_fuel : nat).
Context (check : list B → CheckResult) (decl_name : I → string).
Context (flash : option FlashProvider).

(** *** The constraints of a function *)
Definition cmp_constraints (logs : list (Log B)) : list B :=
  omap (λ log, match log with CmpLog _ _ _ constraint => constraint | _ => None end) logs.
Definition other_constraints (logs : list (Log B)) : list B :=
  omap (λ log, match log with CastLog _ constraint => constraint | ShlLog _ _ constraint => constraint | _ => None end) logs.

(** One comparison may be flipped: [choose] picks its position. *)
Definition flip_one (constraints : list B) : rnd (list B) :=
  match constraints with
  | [] => mret []
  | _ =>
      coin ← below_N 2;
      if (coin =? 0)%N then
        k ← choose (seq 0 (length constraints));
        mret match k with Some k => alter bool_not k constraints | None => constraints end
      else mret constraints
  end.

(** [ending]: how the solver thread ends this time. *)
Definition solve_arg (meta : Meta) (cmps : gmap FunctionIdent (list (Log B))) (solver_args : list (gmap nat I))
    (ending : WorkerEnd) (stage_idx : option nat) (ptb : MoveSequence) : rnd (MutationResult * MoveSequence) :=
  match seq_commands ptb with
  | [] => mret (Skipped, ptb)
  | _ =>
      let input_limit := (flash_command_limits flash).2 in
      cmd_candidates ← lift (candidate_move_call_indices meta flash ptb stage_idx);
      match cmd_candidates with
      | [] => mret (Skipped, ptb)
      | _ =>
          cmd_idx ← pick cmd_candidates;
          cmd ← lift (unwrap (seq_commands ptb !! cmd_idx));
          match cmd with
          | Call movecall =>
              function ← lift (call_function meta movecall);
              match arg_idx_candidates function movecall input_limit with
              | [] => mret (Skipped, ptb)
              | candidates =>
                  idx ← choose candidates;
                  idx ← lift (unwrap idx);
                  arg ← lift (unwrap (mc_arguments movecall !! N.to_nat idx));
                  match solver_args !! cmd_idx with
                  | None => mret (Skipped, ptb)
                  | Some solving_arg =>
                      let target_function := FunctionIdent_new (mc_module_id movecall) (mc_module_name movecall)
                        (mc_function movecall) in
                      _ ← lift (unwrap (get_package_metadata (fm_base meta) (mc_module_id movecall)));
                      match cmps !! target_function with
                      | None => mret (Skipped, ptb)
                      | Some target_function_logs =>
                          flipped ← flip_one (cmp_constraints target_function_logs);
                          let constraints := flipped ++ other_constraints target_function_logs in
                          solution ← lift (solve check decl_name function solving_arg constraints ending);
                          match solution ≫= lookup (N.to_nat idx), arg with
                          | Some new_value, Input input_idx =>
                              _ ← lift (unwrap (seq_inputs ptb !! N.to_nat input_idx));
                              mret (Mutated, MkSequence (<[N.to_nat input_idx := new_value]> (seq_inputs ptb)) (seq_commands ptb))
                          | _, _ => mret (Skipped, ptb)
                          end
                      end
                  end
              end
          | _ => mret (Skipped, ptb)
          end
      end
  end.

(** ** One round of the mutator *)

(** What is left of the last run. *)
Record LastRun := MkLastRun { lr_stage_idx : option nat; lr_logs : gmap FunctionIdent (list (Log B));
  lr_args : list (gmap nat I) }.

Definition arg_mutate (outcome : option LastRun) (fingerprint : N) (pool : gmap FunctionIdent (list Bytes))
    (ending : WorkerEnd) (s : MutatorState (G := G) (Rand := Rand)) :
    spin (MutationResult * MutatorState (G := G) (Rand := Rand)) :=
  let meta := ms_meta s in
  let '(stage, action) := decide_stage (fm_current_mutator meta) (lr_stage_idx <$> outcome) fingerprint (ms_stage s) in
  let '(ptb, stage_idx) := match action with
    | Replay stage_idx snapshot => (snapshot, Some stage_idx)
    | Fresh => (ms_sequence s, None)
    end in
  let mutate_arg := mutate_arg meta flash havoc dword_interesting redraw_fuel pool false in
  '(res, ptb) ← match outcome with
    | Some ex =>
        coin ← draw (below_N 2);
        if (coin =? 0)%N then draw (solve_arg meta (lr_logs ex) (lr_args ex) ending stage_idx ptb)
        else mutate_arg stage_idx ptb
    | None => mutate_arg None ptb
    end;
  mret (res, record Mutator_Magic res (MkMutatorState meta stage ptb)).
End arg.

(** ** Solved arguments *)
Definition flips_one {B I} `{Z3Ast I B} (l l' : list B) : Prop :=
  l' = l ∨ ∃ k, k < length l ∧ l' = alter bool_not k l.

Section arg_spec.
Context `{PG : PetGraph G} {Rand : Type} `{RL : RandLib}.
Context {I B : Type} `{ZA : Z3Ast I B} `{ZL : !Z3Laws I B} `{WT : WideText}.
Context (check : list B → CheckResult) (decl_name : I → string).
Hypothesis decl_name_const : ∀ x, decl_name (int_new_const x) = x.
Hypothesis check_sound : ∀ asserted model, check asserted = Check_Sat (Some model) →
  ∃ ρ, Forall (λ c, evalB ρ c = true) asserted ∧
    ∀ x, (0 ≤ ρ x)%Z → model x = Some (chars (pretty.pretty (Z.to_N (ρ x)))).
Context (meta : FuzzMetadata (G := G) (Rand := Rand)) (flash : option FlashProvider).

Lemma flip_one_spec (l : list B) r l' r' : flip_one (I := I) l r = Ret (l', r') → flips_one (I := I) l l'.
Proof.
  intros E. unfold flip_one in E. destruct l as [|c l]; [apply mret_Ret in E as [<- _]; by left|].
  apply rnd_bind_Ret in E as (coin & r1 & _ & E). destruct (coin =? 0)%N; [|apply mret_Ret in E as [<- _]; by left].
  apply rnd_bind_Ret in E as (o & r2 & Ho & E). apply choose_elem in Ho. apply mret_Ret in E as [<- _].
  destruct o as [k|]; [right|by left]. exists k. split; [|done]. apply elem_of_seq in Ho. lia.
Qed.

(** The symbolic arguments of the calls are constants for parameters of solvable types. *)
Definition solvable_args (cmds : list MoveSequenceCall) (solver_args : list (gmap nat I)) : Prop :=
  ∀ k mc f args, cmds !! k = Some (Call mc) → call_function meta mc = Ret f → solver_args !! k = Some args →
  ∃ names, args = int_new_const <$> names ∧ symbolic_params (fa_parameters f) names.

(** One argument of one call is the value a solution gives it. *)
Definition solved_input (cmps : gmap FunctionIdent (list (Log B))) (solver_args : list (gmap nat I))
    (ptb ptb' : MoveSequence) : Prop :=
  ∃ k mc f j p i names x logs flipped ρ max,
    seq_commands ptb !! k = Some (Call mc) ∧ call_function meta mc = Ret f ∧
    fa_parameters f !! j = Some p ∧ max_value p = Ret max ∧
    mc_arguments mc !! j = Some (Input i) ∧ (flash_command_limits flash).2 ≤ N.to_nat i ∧
    solver_args !! k = Some (int_new_const <$> names) ∧ names !! j = Some x ∧
    cmps !! FunctionIdent_new (mc_module_id mc) (mc_module_name mc) (mc_function mc) = Some logs ∧
    flips_one (I := I) (cmp_constraints logs) flipped ∧
    Forall (λ c, evalB ρ c = true) (flipped ++ other_constraints logs) ∧ (0 ≤ ρ x ≤ max)%Z ∧
    ptb' = MkSequence (<[N.to_nat i := value_for p (Z.to_N (ρ x))]> (seq_inputs ptb)) (seq_commands ptb).

(** A solved argument solves the path: [solve_arg] changes nothing, or it replaces one
    pure input of one call - none that belongs to a flash loan - by the value that an
    assignment of the symbolic arguments gives it which satisfies all the constraints
    the last run of that function left, with at most one comparison flipped, and which
    is in the range of the parameter. *)
Theorem solve_arg_solves cmps solver_args ending stage_idx ptb r res ptb' r' :
  solvable_args (seq_commands ptb) solver_args →
  (∀ k mc, seq_commands ptb !! k = Some (Call mc) → (N.of_nat (length (mc_arguments mc)) ≤ 65536)%N) →
  solve_arg check decl_name flash meta cmps solver_args ending stage_idx ptb r = Ret ((res, ptb'), r') →
  match res with Skipped => ptb' = ptb | Mutated => solved_input cmps solver_args ptb ptb' end.
Proof.
  intros Hargs Hlen E. unfold solve_arg in E. destruct (seq_commands ptb) as [|c0 cs0] eqn:Ec; [by apply mret_Ret in E as [[= <- <-] _]|].
  rewrite <- Ec in *. apply rnd_bind_Ret in E as (cand & r1 & _ & E).
  destruct cand as [|k0 ks]; [by apply mret_Ret in E as [[= <- <-] _]|].
  apply rnd_bind_Ret in E as (k & r2 & _ & E). apply rnd_bind_Ret in E as (cmd & r3 & Hcmd & E).
  apply lift_Ret in Hcmd as [Hcmd%unwrap_Ret _].
  destruct cmd as [mc| | | | | |]; try (by apply mret_Ret in E as [[= <- <-] _]).
  apply rnd_bind_Ret in E as (f & r4 & Hf & E). apply lift_Ret in Hf as [Hf _].
  destruct (arg_idx_candidates f mc _) as [|i0 is0] eqn:Ecand; [by apply mret_Ret in E as [[= <- <-] _]|].
  apply rnd_bind_Ret in E as (o & r5 & Ho & E). apply choose_elem in Ho.
  apply rnd_bind_Ret in E as (idx & r6 & Hidx & E). apply lift_Ret in Hidx as [Hidx%unwrap_Ret _]. subst o.
  rewrite <- Ecand in Ho. destruct (arg_idx_candidates_spec flash _ _ _ Ho) as (j & p & i & -> & Hp & Harg & Hmut & Hlim).
  assert (N.to_nat (as_u16 j) = j) as Hj.
  { apply as_u16_small. apply lookup_lt_Some in Harg. specialize (Hlen _ _ Hcmd). lia. }
  apply rnd_bind_Ret in E as (arg & r7 & Ha & E). apply lift_Ret in Ha as [Ha%unwrap_Ret _]. rewrite Hj in *.
  rewrite Harg in Ha. injection Ha as <-.
  destruct (solver_args !! k) as [sargs|] eqn:Esa; [|by apply mret_Ret in E as [[= <- <-] _]].
  apply rnd_bind_Ret in E as (pkg & r8 & _ & E).
  destruct (cmps !! _) as [logs|] eqn:El; [|by apply mret_Ret in E as [[= <- <-] _]].
  apply rnd_bind_Ret in E as (flipped & r9 & Hflip & E). apply flip_one_spec in Hflip.
  apply rnd_bind_Ret in E as (solution & r10 & Hs & E). apply lift_Ret in Hs as [Hs _].
  destruct (solution ≫= lookup j) as [v|] eqn:Ev; [|by apply mret_Ret in E as [[= <- <-] _]].
  apply rnd_bind_Ret in E as (old & r11 & _ & E). apply mret_Ret in E as [[= <- <-] _].
  apply bind_Some in Ev as (sol & -> & Hv).
  destruct (Hargs k mc f sargs Hcmd Hf Esa) as (names & -> & Hsym).
  destruct (solve_spec check decl_name decl_name_const check_sound f names
    (flipped ++ other_constraints logs) ending Hsym) as (o & Ho' & H).
  rewrite Hs in Ho'. injection Ho' as <-. destruct H as (ρ & Hcs & Hsol & Hrange). rewrite Hsol in Hv.
  apply bind_Some in Hv as (x & Hx & Hv). apply bind_Some in Hv as (p' & Hp' & [= <-]).
  rewrite Hp in Hp'. injection Hp' as <-. destruct (Hsym j x Hx) as (p' & max & Hp' & Hmax). rewrite Hp in Hp'. injection Hp' as <-.
  exists k, mc, f, j, p, i, names, x, logs, flipped, ρ, max. split_and!; try done; by eapply Hrange.
Qed.
End arg_spec.

(** ** Witness: a deposit must be more than 1000 *)
Definition demo_deposit_logs : gmap FunctionIdent (list (Log BoolTerm)) :=
  {[ demo_deposit := [CmpLog (Mg_U64 0) (Mg_U64 1000) Cmp_GT (Some demo_constraint)] ]}.
Definition demo_deposit_args : list (gmap nat IntTerm) := [{[ 0 := T_const "0.0" ]}].

Lemma solve_arg_solves_witness :
  solve_arg (RL := replay_rand) (demo_check 1234) demo_decl_name None demo_ledger_metadata demo_deposit_logs
    demo_deposit_args Delivered None (demo_deposited 0) [0; 0; 1]%N = Ret ((Mutated, demo_deposited 1234), []) ∧
  solved_input demo_ledger_metadata None demo_deposit_logs demo_deposit_args (demo_deposited 0) (demo_deposited 1234).
Proof.
  assert (solve_arg (RL := replay_rand) (demo_check 1234) demo_decl_name None demo_ledger_metadata demo_deposit_logs
    demo_deposit_args Delivered None (demo_deposited 0) [0; 0; 1]%N = Ret ((Mutated, demo_deposited 1234), [])) as E
    by (vm_compute; reflexivity).
  split; [exact E|].
  apply (solve_arg_solves (RL := replay_rand) (demo_check 1234) demo_decl_name demo_decl_name_const (demo_check_sound 1234)
    demo_ledger_metadata None demo_deposit_logs demo_deposit_args Delivered None (demo_deposited 0) [0; 0; 1]%N Mutated
    (demo_deposited 1234) []); [| |exact E].
  - intros [|k] mc f args Hk Hf Ha; [|done]. injection Hk as <-. injection Ha as <-. vm_compute in Hf. injection Hf as <-.
    exists {[ 0 := "0.0"%string ]}. split; [by rewrite map_fmap_singleton|].
    apply map_Forall_singleton. exists Tok_U64. eexists. by split.
  - intros [|k] mc Hk; [by injection Hk as <-|done].
Defined.
