(* ===== verification/Testing.v ===== *)
(** * Testing: one run per test function

    [test] of [crates/movy-fuzz/src/operations/sui_test.rs] and its report
    ([crates/movy-types/src/test_report.rs]). Every target function is run once
    from the same snapshot of the object store: its arguments are fixed by the
    mapping of objects or found by [append_function], hooks are applied, the
    transaction is executed and its status and events decide the outcome. The
    VM is the argument [run_ptb]; the text of a call tree, the [bcs] decoder
    and the reading of the object store are arguments, too. *)
From S2P Require Import Prelude Types Abi TypeArgs Text Ptb TraceState Tracer TreeTracer Lcov FuzzTracer TypeGraph Meta Removal Cache Random Objects Construct Values Append Hooks.
From Stdlib Require String.

(** ** The report *)
Inductive Outcome :=
| Outcome_Ok
| SequenceBuildFailure
| ExecutionFailure (status_debug sequence : string) (trace : option string)
| OracleCrash (reason : option string) (sequence : string) (trace : option string).
#[export] Instance Outcome_eq_dec : EqDecision Outcome.
Proof. solve_decision. Defined.

Record FunctionResult := MkFunctionResult { fre_function : string; fre_outcome : Outcome }.
Record Summary := MkSummary {
  su_total : nat; su_ok : nat; su_sequence_build_failure : nat;
  su_execution_failure : nat; su_oracle_crash : nat }.
Record TestRunReport := MkReport {
  tr_version : N; tr_functions : list FunctionResult; tr_summary : Summary; tr_lcov : option string }.

Definition SCHEMA_VERSION : N := 2.
Definition report_empty : TestRunReport := MkReport SCHEMA_VERSION [] (MkSummary 0 0 0 0 0) None.

Definition observe (outcome : Outcome) (s : Summary) : Summary :=
  let total := S (su_total s) in
  match outcome with
  | Outcome_Ok => MkSummary total (S (su_ok s)) (su_sequence_build_failure s) (su_execution_failure s)
      (su_oracle_crash s)
  | SequenceBuildFailure => MkSummary total (su_ok s) (S (su_sequence_build_failure s))
      (su_execution_failure s) (su_oracle_crash s)
  | ExecutionFailure _ _ _ => MkSummary total (su_ok s) (su_sequence_build_failure s)
      (S (su_execution_failure s)) (su_oracle_crash s)
  | OracleCrash _ _ _ => MkSummary total (su_ok s) (su_sequence_build_failure s) (su_execution_failure s)
      (S (su_oracle_crash s))
  end.
Definition record_outcome (function : string) (outcome : Outcome) (r : TestRunReport) : TestRunReport :=
  MkReport (tr_version r) (tr_functions r ++ [MkFunctionResult function outcome])
    (observe outcome (tr_summary r)) (tr_lcov r).
Definition set_lcov (lcov : option string) (r : TestRunReport) : TestRunReport :=
  MkReport (tr_version r) (tr_functions r) (tr_summary r) lcov.

Definition all_ok (s : Summary) : bool := (0 <? su_total s)%nat && (su_ok s =? su_total s)%nat.
Definition any_oracle_crash (s : Summary) : bool := (0 <? su_oracle_crash s)%nat.

(** ** The reason of a crash *)

(** The decoded [movy::oracle::Crash]: a list of strings with optional keys. *)
Definition crash_reason (msg : list (option string * string)) : option string :=
  match List.find (λ entry, bool_decide (entry.1 = Some "reason"%string)) msg with
  | Some entry => Some entry.2
  | None =>
      match msg with
      | [] => None
      | _ => Some (join ", " (map (λ entry, match entry.1 with
               | Some key => (key +:+ "=" +:+ entry.2)%string
               | None => entry.2
               end) msg))
      end
  end.
Definition decode_crash_reason (from_bytes : list N → option (list (option string * string)))
    (contents : list N) : option string := from_bytes contents ≫= crash_reason.

(** ** Fixed arguments *)

(** The type of object a parameter expects, and whether it is borrowed immutably. *)
Definition object_param_info (param : MoveAbiSignatureToken) (ty_args : TyArgs) : option (MoveTypeTag * bool) :=
  match param with
  | Tok_Struct _ | Tok_StructInstantiation _ _ => ty ← subst ty_args param; Some (ty, false)
  | Tok_Reference ((Tok_Struct _ | Tok_StructInstantiation _ _) as inner) =>
      ty ← subst ty_args inner; Some (ty, true)
  | Tok_MutableReference ((Tok_Struct _ | Tok_StructInstantiation _ _) as inner) =>
      ty ← subst ty_args inner; Some (ty, false)
  | _ => None
  end.

Abbreviation FixedArgs := (gmap N (SequenceArgument * MoveTypeTag)).
Abbreviation Queues := (gmap MoveTypeTag (list MoveAddress)).

(** The input made of a mapped object; [Err]: its owner is not supported. *)
Definition fixed_input (id : MoveAddress) (info : MoveObjectInfo) (immutable_ref : bool) : result InputArgument :=
  match oi_owner info with
  | AddressOwner _ | Immutable_ =>
      Ok (Arg_Object (oi_ty info) (ImmOrOwnedObject (id, oi_version info, oi_digest info)))
  | Shared_ initial_shared_version =>
      Ok (Arg_Object (oi_ty info) (SharedObject id initial_shared_version (negb immutable_ref)))
  | _ => Err
  end.

(** The object a parameter takes from the queues, if any. *)
Definition take_mapped (fixed_ty_args : TyArgs) (param : MoveAbiSignatureToken) (remaining : Queues) :
    option (MoveTypeTag * bool * MoveAddress * Queues) :=
  if is_tx_context param then None else
  '(ty, immutable_ref) ← object_param_info param fixed_ty_args;
  queue ← remaining !! ty;
  match queue with
  | [] => None
  | id :: queue => Some (ty, immutable_ref, id, <[ty := queue]> remaining)
  end.

Fixpoint fixed_args_loop (object_info : MoveAddress → option MoveObjectInfo) (fixed_ty_args : TyArgs) (i : nat)
    (params : list MoveAbiSignatureToken) (inputs : list InputArgument) (remaining : Queues) (fixed : FixedArgs) :
    result (list InputArgument * FixedArgs) :=
  match params with
  | [] => Ok (inputs, fixed)
  | param :: params =>
      match take_mapped fixed_ty_args param remaining with
      | None => fixed_args_loop object_info fixed_ty_args (S i) params inputs remaining fixed
      | Some (ty, immutable_ref, id, remaining) =>
          match object_info id with
          | None => Err
          | Some info =>
              match fixed_input id info immutable_ref with
              | Err => Err
              | Ok input =>
                  let inputs := inputs ++ [input] in
                  fixed_args_loop object_info fixed_ty_args (S i) params inputs remaining
                    (<[as_u16 i := (Input (as_u16 (length inputs - 1)), ty)]> fixed)
              end
          end
      end
  end.

Definition build_test_fixed_args (object_info : MoveAddress → option MoveObjectInfo) (func : MoveFunctionAbi)
    (sequence : MoveSequence) (remaining : Queues) (fixed_ty_args : TyArgs) :
    result (MoveSequence * FixedArgs) :=
  match fixed_args_loop object_info fixed_ty_args 0 (fa_parameters func) (seq_inputs sequence) remaining ∅ with
  | Err => Err
  | Ok (inputs, fixed) => Ok (MkSequence inputs (seq_commands sequence), fixed)
  end.

(** ** One run *)

(** [char::is_whitespace] on UTF-8: [s.trim().is_empty()]. *)
Fixpoint blank (l : list N) : bool :=
  match l with
  | [] => true
  | 9 :: l | 10 :: l | 11 :: l | 12 :: l | 13 :: l | 32 :: l => blank l
  | 194 :: 133 :: l | 194 :: 160 :: l => blank l
  | 225 :: 154 :: 128 :: l => blank l
  | 226 :: 128 :: c :: l =>
      ((128 <=? c) && (c <=? 138) || (c =? 168) || (c =? 169) || (c =? 175)) && blank l
  | 226 :: 129 :: 159 :: l | 227 :: 128 :: 128 :: l => blank l
  | _ => false
  end%N.
Definition is_blank (s : string) : bool := blank (map Ascii.N_of_ascii (String.list_ascii_of_string s)).

Record RunEvent := MkRunEvent { ev_module : string; ev_name : string; ev_contents : list N }.
(** What the executor returns, and the events the VM sent to the tracer. *)
Record TestRun := MkTestRun {
  tn_is_ok : bool; tn_status_debug : string; tn_events : list RunEvent; tn_trace : list TraceEvent }.

Section test.
Context `{PG : PetGraph G} {Rand : Type} `{RL : RandLib} `{AT : AddressText} `{IL : IdentLib}
  `{PB : PtbBuilder Bd} `{TL : TraceLib} `{OL : ObjectLib}.
Context (meta : FuzzMetadata (G := G) (Rand := Rand)).
Context (havoc : ByteMutator → ByteMutator) (dword_interesting : ByteMutator) (redraw_fuel : nat).
(** [get_move_object_info] on the store with a cache; the executor, which
    leaves some cache behind; the text of a call tree; [bcs::from_bytes]. *)
Context (object_info : CachedSnapshot → MoveAddress → option MoveObjectInfo).
Context (run_ptb : CachedSnapshot → list CallArg * list Command → N → N → MoveAddress → MoveAddress →
  result (TestRun * CachedSnapshot)).
Context (pprint_failure_views : TreeTraceResult → string).
Context (from_bytes : list N → option (list (option string * string))).

Abbreviation TestTracer := (SelectiveTracer (TeeTracer TreeTraceResult LineCoverageTracer) TreeTraceResult).

(** The tree tracer, with the line tracer when coverage is collected. *)
Definition test_tracer (coverage : option (gset BytecodeLocation)) : TestTracer :=
  match coverage with
  | Some hits => Sel_T1 (MkTee tree_default (collector_tracer hits))
  | None => Sel_T2 tree_default
  end.
Definition tracer_tree (t : TestTracer) : TreeTraceResult :=
  match t with Sel_T1 t => tee_l t | Sel_T2 t => t end.
Definition tracer_hits (t : TestTracer) : option (gset BytecodeLocation) :=
  match t with Sel_T1 t => Some (lt_hits (tee_r t)) | Sel_T2 _ => None end.

Definition is_crash_event (event : RunEvent) : bool :=
  bool_decide (ev_module event = "oracle"%string) && bool_decide (ev_name event = "Crash"%string).

(** What a finished run is reported as. *)
Definition judge (run : TestRun) (sequence : MoveSequence) (tree : TreeTraceResult) : Outcome :=
  let trace_output := pprint_failure_views tree in
  let trace := if is_blank trace_output then None else Some trace_output in
  if negb (tn_is_ok run) then ExecutionFailure (tn_status_debug run) (show_sequence sequence) trace
  else match List.find is_crash_event (tn_events run) with
       | Some event =>
           OracleCrash (decode_crash_reason from_bytes (ev_contents event)) (show_sequence sequence) trace
       | None => Outcome_Ok
       end.

(** The sequence that calls a test function; [Ok None]: it could not be built. *)
Definition build_sequence (db : CachedSnapshot) (object_mapping : Queues)
    (type_args : gmap FunctionIdent TyArgs) (function : FunctionIdent) : spin (result (option MoveSequence)) :=
  let fixed_ty_args := default ∅ (type_args !! function) in
  let func_abi := get_function (fm_base meta) (module_address (fi_module function))
    (module_name (fi_module function)) (fi_name function) in
  let sequence := MkSequence [] [] in
  match match func_abi with
        | Some func => build_test_fixed_args (object_info db) func sequence object_mapping fixed_ty_args
        | None => Ok (sequence, ∅)
        end with
  | Err => mret Err
  | Ok (sequence, fixed_args) =>
      '(sequence, built) ← append_function meta (object_info db) havoc dword_interesting redraw_fuel MAX_LEVELS
        sequence function fixed_args fixed_ty_args [] false;
      match built with
      | None => mret (Ok None)
      | Some _ =>
          sequence ← apply_hooks meta (object_info db) havoc dword_interesting redraw_fuel sequence;
          mret (Ok (Some sequence))
      end
  end.

(** One target: its outcome, the hits and the cache it leaves. *)
Definition test_function (db : CachedSnapshot) (object_mapping : Queues) (type_args : gmap FunctionIdent TyArgs)
    (coverage : option (gset BytecodeLocation)) (function : FunctionIdent) :
    spin (result (Outcome * option (gset BytecodeLocation) * CachedSnapshot)) :=
  built ← build_sequence db object_mapping type_args function;
  match built with
  | Err => mret Err
  | Ok None => mret (Ok (SequenceBuildFailure, coverage, db))
  | Ok (Some sequence) =>
      match to_ptb sequence with
      | None => mret Err
      | Some ptb =>
          match run_ptb db ptb (fm_epoch meta) (fm_epoch_ms meta) (fm_attacker meta) (fm_gas_id meta) with
          | Err => mret Err
          | Ok (run, db) =>
              w ← call (notify_all (wrapper_from (test_tracer coverage)) (tn_trace run));
              mret (Ok (judge run sequence (tracer_tree (wr_tracer w)), tracer_hits (wr_tracer w), db))
          end
      end
  end.

Fixpoint test_loop (baseline : CachedSnapshot) (object_mapping : Queues) (type_args : gmap FunctionIdent TyArgs)
    (functions : list FunctionIdent) (db : CachedSnapshot) (coverage : option (gset BytecodeLocation))
    (report : TestRunReport) : spin (result (TestRunReport * option (gset BytecodeLocation))) :=
  match functions with
  | [] => mret (Ok (report, coverage))
  | function :: functions =>
      let db := restore_snapshot baseline (reset db).2 in
      r ← test_function db object_mapping type_args coverage function;
      match r with
      | Err => mret Err
      | Ok (outcome, coverage, db) =>
          test_loop baseline object_mapping type_args functions db coverage
            (record_outcome (show_function_ident function) outcome report)
      end
  end.

(** [test]: the environment's cache is [db]. *)
Definition test (db : CachedSnapshot) (lcov : option LineCoverageMap) (object_mapping : Queues)
    (type_args : gmap FunctionIdent TyArgs) : spin (result TestRunReport) :=
  match fm_target_functions meta with
  | [] => mret Err
  | target_functions =>
      let baseline := db in
      r ← test_loop baseline object_mapping type_args target_functions db ((λ _, ∅) <$> lcov) report_empty;
      match r with
      | Err => mret Err
      | Ok (report, coverage) =>
          mret (Ok (match lcov, coverage with
                    | Some map, Some hits => set_lcov (Some (render_lcov map (elements hits))) report
                    | _, _ => report
                    end))
      end
  end.
End test.
