(* ===== verification/TestingSpec.v ===== *)
(** * TestingSpec: every target is tested once, and called

    Theorems about [Testing]: the report has one entry per target, each judged
    on its own from the first state of the store, and the summary counts them;
    a transaction that is executed for a target calls it. *)
From S2P Require Import Prelude Types Abi TypeArgs Text Ptb TraceState Tracer TreeTracer Lcov FuzzTracer TypeGraph Meta Remap Removal Cache Random Objects Construct ConstructSpec Values Append AppendSpec Hooks HooksSpec Testing.

(** ** Counting outcomes *)
Definition count (p : Outcome → bool) (os : list Outcome) : nat := length (List.filter p os).
Definition is_ok (o : Outcome) : bool := match o with Outcome_Ok => true | _ => false end.
Definition is_build_failure (o : Outcome) : bool := match o with SequenceBuildFailure => true | _ => false end.
Definition is_execution_failure (o : Outcome) : bool := match o with ExecutionFailure _ _ _ => true | _ => false end.
Definition is_oracle_crash (o : Outcome) : bool := match o with OracleCrash _ _ _ => true | _ => false end.
Definition tally (os : list Outcome) : Summary :=
  MkSummary (length os) (count is_ok os) (count is_build_failure os) (count is_execution_failure os)
    (count is_oracle_crash os).

(** A report that holds the outcomes [os] of the functions named [ns]. *)
Definition reports (ns : list string) (os : list Outcome) (r : TestRunReport) : Prop :=
  tr_version r = SCHEMA_VERSION ∧ tr_functions r = zip_with MkFunctionResult ns os ∧ tr_summary r = tally os.

Lemma count_snoc p os o : count p (os ++ [o]) = count p os + (if p o then 1 else 0).
Proof. unfold count. rewrite List.filter_app, length_app. simpl. by destruct (p o). Qed.
Lemma tally_snoc os o : tally (os ++ [o]) = observe o (tally os).
Proof.
  unfold tally. rewrite !count_snoc, length_app.
  destruct o; cbn -[count]; f_equal; lia.
Qed.
Lemma reports_snoc ns os r n o : length ns = length os → reports ns os r →
  reports (ns ++ [n]) (os ++ [o]) (record_outcome n o r).
Proof.
  intros Hl (Hv & Hf & Hs). split_and!; [done| |]; simpl.
  - by rewrite Hf, zip_with_app.
  - by rewrite Hs, tally_snoc.
Qed.

Lemma count_all p os : count p os = length os ↔ Forall (λ o, p o = true) os.
Proof.
  unfold count. induction os as [|o os IH]; [simpl; split; [constructor|done]|]. simpl.
  pose proof (List.filter_length_le p os). rewrite Forall_cons, <-IH.
  destruct (p o); simpl.
  - split; [intros H'; split; [done|lia]|intros [_ H']; lia].
  - split; [lia|by intros [? _]].
Qed.
Lemma count_some p os : 0 < count p os ↔ ∃ o, o ∈ os ∧ p o = true.
Proof.
  unfold count. split.
  - intros H. destruct (List.filter p os) as [|o l] eqn:E; [simpl in H; lia|].
    exists o. rewrite list_elem_of_In. apply List.filter_In. rewrite E. by left.
  - intros (o & H). rewrite list_elem_of_In in H. apply List.filter_In in H.
    destruct (List.filter p os); [by destruct H|simpl; lia].
Qed.

(** ** The snapshot *)
Lemma restore_reset `{OL : ObjectLib} (baseline db : CachedSnapshot) :
  restore_snapshot baseline (reset db).2 = baseline.
Proof.
  apply map_eq. intros id. unfold restore_snapshot. simpl. rewrite lookup_union_with, lookup_empty.
  by destruct (baseline !! id).
Qed.

Section test_spec.
Context `{PG : PetGraph G} {Rand : Type} `{RL : RandLib} `{AT : AddressText} `{IL : IdentLib}
  `{PB : PtbBuilder Bd} `{TL : TraceLib} `{OL : ObjectLib}.
Context (meta : FuzzMetadata (G := G) (Rand := Rand)).
Context (havoc : ByteMutator → ByteMutator) (dword_interesting : ByteMutator) (redraw_fuel : nat).
Context (object_info : CachedSnapshot → MoveAddress → option MoveObjectInfo).
Context (run_ptb : CachedSnapshot → list CallArg * list Command → N → N → MoveAddress → MoveAddress →
  result (TestRun * CachedSnapshot)).
Context (pprint_failure_views : TreeTraceResult → string).
Context (from_bytes : list N → option (list (option string * string))).

Abbreviation test_function := (test_function meta havoc dword_interesting redraw_fuel object_info run_ptb
  pprint_failure_views from_bytes).
Abbreviation test_loop := (test_loop meta havoc dword_interesting redraw_fuel object_info run_ptb
  pprint_failure_views from_bytes).
Abbreviation test := (test meta havoc dword_interesting redraw_fuel object_info run_ptb
  pprint_failure_views from_bytes).
Abbreviation build_sequence := (build_sequence meta havoc dword_interesting redraw_fuel object_info).

(** The outcomes of targets that are each run on the store [baseline]; only
    the generator and the coverage go from one to the next. *)
Inductive each_on (baseline : CachedSnapshot) (mapping : Queues) (type_args : gmap FunctionIdent TyArgs) :
    list FunctionIdent → option (gset BytecodeLocation) → Rng → list Outcome →
    option (gset BytecodeLocation) → Rng → Prop :=
| each_nil coverage r : each_on baseline mapping type_args [] coverage r [] coverage r
| each_cons f fs coverage r o coverage1 db r1 os coverage' r' :
    test_function baseline mapping type_args coverage f r = Ret (Some (Ok (o, coverage1, db), r1)) →
    each_on baseline mapping type_args fs coverage1 r1 os coverage' r' →
    each_on baseline mapping type_args (f :: fs) coverage r (o :: os) coverage' r'.

Lemma each_on_length baseline mapping type_args fs coverage r os coverage' r' :
  each_on baseline mapping type_args fs coverage r os coverage' r' → length fs = length os.
Proof. induction 1; simpl; congruence. Qed.

Lemma test_loop_each baseline mapping type_args fs : ∀ db coverage report r report' coverage' r' ns os0,
  test_loop baseline mapping type_args fs db coverage report r = Ret (Some (Ok (report', coverage'), r')) →
  length ns = length os0 → reports ns os0 report → tr_lcov report = None →
  ∃ os, each_on baseline mapping type_args fs coverage r os coverage' r' ∧
    reports (ns ++ map show_function_ident fs) (os0 ++ os) report' ∧ tr_lcov report' = None.
Proof.
  induction fs as [|f fs IH]; intros db coverage report r report' coverage' r' ns os0 E Hl Hr Hlc.
  { apply spin_mret_Ret in E as [[= <- <-] ->]. exists []. rewrite !app_nil_r.
    split; [constructor|done]. }
  cbn [Testing.test_loop] in E. rewrite restore_reset in E. spin_bind E x Hx.
  destruct x as [[[o coverage1] db1]|]; [|by apply spin_mret_Ret in E as [? _]].
  apply (IH _ _ _ _ _ _ _ (ns ++ [show_function_ident f]) (os0 ++ [o])) in E as (os & He & Hrep & Hlc').
  - exists (o :: os). rewrite <-!app_assoc in Hrep. split; [|done]. by econstructor.
  - rewrite !length_app. simpl. lia.
  - by apply reports_snoc.
  - done.
Qed.

(** C39: a test run that returns has tested every target: the report has one
    entry per target, in order, with the outcome of running that target from
    the store as it was at the start - whatever the targets before it did to
    the store and however they ended -, the summary counts the entries by
    outcome, so that it is all right exactly when every outcome is, and the
    report's coverage is that of all the runs together. *)
Theorem test_reports_every_target db lcov mapping type_args r report r' :
  test db lcov mapping type_args r = Ret (Some (Ok report, r')) →
  ∃ os coverage, each_on db mapping type_args (fm_target_functions meta) ((λ _, ∅) <$> lcov) r os coverage r' ∧
    reports (map show_function_ident (fm_target_functions meta)) os report ∧
    length os = length (fm_target_functions meta) ∧ 0 < length os ∧
    (all_ok (tr_summary report) = true ↔ Forall (λ o, o = Outcome_Ok) os) ∧
    (any_oracle_crash (tr_summary report) = true ↔ ∃ o, o ∈ os ∧ is_oracle_crash o = true) ∧
    tr_lcov report = (map ← lcov; hits ← coverage; Some (render_lcov map (elements hits))).
Proof.
  unfold Testing.test. destruct (fm_target_functions meta) as [|f fs] eqn:Ef;
    [by intros [? _]%spin_mret_Ret|]. intros E. spin_bind E x Hx. destruct x as [[report0 coverage]|];
    [|by apply spin_mret_Ret in E as [? _]]. apply spin_mret_Ret in E as [[= Hrep] ->].
  apply (test_loop_each _ _ _ _ _ _ _ _ _ _ _ [] []) in Hx as (os & He & (Hv & Hf & Hs) & Hlc); [|done..].
  pose proof (each_on_length _ _ _ _ _ _ _ _ _ He) as Hlen. exists os, coverage.
  assert (tr_version report = SCHEMA_VERSION ∧ tr_functions report = tr_functions report0 ∧
    tr_summary report = tr_summary report0 ∧
    tr_lcov report = (map ← lcov; hits ← coverage; Some (render_lcov map (elements hits)))) as (H1 & H2 & H3 & H4).
  { rewrite <-Hrep. by destruct lcov, coverage. }
  split_and!; [done|split_and!; by rewrite ?H2, ?H3|by rewrite <-Hlen|rewrite <-Hlen; simpl; lia| | |done];
    rewrite H3, Hs; simpl.
  - unfold all_ok. simpl su_total. simpl su_ok. rewrite andb_true_iff, Nat.eqb_eq, Nat.ltb_lt, count_all.
    split.
    + intros [_ H]. eapply Forall_impl; [exact H|]. by intros [].
    + intros H. split; [simpl in Hlen; lia|]. eapply Forall_impl; [exact H|]. by intros ? ->.
  - unfold any_oracle_crash. simpl su_oracle_crash. by rewrite Nat.ltb_lt, count_some.
Qed.

(** ** The objects of the mapping *)
Definition mapped_ids (q : Queues) : list MoveAddress := flat_map snd (map_to_list q).

Lemma mapped_ids_take q ty id ids : q !! ty = Some (id :: ids) →
  mapped_ids q ≡ₚ id :: mapped_ids (<[ty := ids]> q).
Proof.
  intros H. unfold mapped_ids. rewrite <-(map_to_list_delete q ty (id :: ids) H).
  rewrite <-(insert_delete_eq q ty ids), map_to_list_insert by apply lookup_delete_eq. done.
Qed.

Lemma take_mapped_spec tys param q ty ir id q' : take_mapped tys param q = Some (ty, ir, id, q') →
  mapped_ids q ≡ₚ id :: mapped_ids q'.
Proof.
  unfold take_mapped. destruct (is_tx_context param); [done|]. intros ([ty' ir'] & _ & E)%bind_Some.
  apply bind_Some in E as (queue & Hq & E). destruct queue as [|x queue]; [done|]. injection E as <- <- <- <-.
  by apply mapped_ids_take.
Qed.

Lemma fixed_input_standard (oi : MoveAddress → option MoveObjectInfo) id info ir input :
  oi id = Some info → (∀ v, oi_owner info ≠ Shared_ v) → fixed_input id info ir = Ok input →
  standard oi input ∧ input_ids [input] = [id].
Proof.
  intros Hid Hn. unfold fixed_input. destruct (oi_owner info) as [a|a| |v|s a] eqn:Eo; try done.
  - intros [= <-]. simpl. split; [|done]. rewrite Hid. simpl. unfold object_input. by rewrite Eo.
  - intros [= <-]. simpl. split; [|done]. rewrite Hid. simpl. unfold object_input. by rewrite Eo.
  - by destruct (Hn v).
Qed.

Definition no_shared (oi : MoveAddress → option MoveObjectInfo) (ids : list MoveAddress) : Prop :=
  ∀ id info v, id ∈ ids → oi id = Some info → oi_owner info ≠ Shared_ v.

Lemma fixed_args_loop_spec oi tys : ∀ params i inputs q fixed inputs' fixed',
  fixed_args_loop oi tys i params inputs q fixed = Ok (inputs', fixed') →
  NoDup (input_ids inputs ++ mapped_ids q) → no_shared oi (mapped_ids q) → Forall (standard oi) inputs →
  map_Forall (λ _ x, in_scope (length inputs) 0 x.1) fixed →
  NoDup (input_ids inputs') ∧ Forall (standard oi) inputs' ∧
  map_Forall (λ _ x, in_scope (length inputs') 0 x.1) fixed'.
Proof.
  induction params as [|param params IH]; intros i inputs q fixed inputs' fixed' E Hnd Hsh Hstd Hsc.
  { injection E as <- <-. split_and!; [|done..]. by apply NoDup_app in Hnd as [? _]. }
  cbn [fixed_args_loop] in E. destruct (take_mapped tys param q) as [[[[ty ir] id] q']|] eqn:Et; [|by eapply IH].
  destruct (oi id) as [info|] eqn:Eid; [|done]. destruct (fixed_input id info ir) as [input|] eqn:Ei; [|done].
  pose proof (take_mapped_spec _ _ _ _ _ _ _ Et) as Hp.
  destruct (fixed_input_standard oi id info ir input Eid) as [Hst Hii]; [|done|].
  { intros v. apply (Hsh id info v); [|done]. rewrite Hp. by left. }
  eapply IH; [exact E|..].
  - rewrite input_ids_app, Hii, <-app_assoc. cbn [app]. by rewrite <-Hp.
  - intros id' info' v Hin. apply Hsh. rewrite Hp. by right.
  - apply Forall_app. by split; [|constructor].
  - apply map_Forall_insert_2.
    + cbn [fst in_scope]. pose proof (as_u16_le (length (inputs ++ [input]) - 1)).
      rewrite length_app in *. cbn [length] in *. lia.
    + eapply map_Forall_impl; [exact Hsc|]. intros k x Hx.
      eapply in_scope_mono; [| |exact Hx]; [rewrite length_app|]; lia.
Qed.

Context (max_params : nat).
Hypothesis max_params_known : ∀ addr m f abi, get_function (fm_base meta) addr m f = Some abi →
  length (fa_parameters abi) ≤ max_params.

Lemma remap_call mc im cmd' : remap_command (Types.Call mc) im = Ret cmd' →
  ∃ args, cmd' = Types.Call (set_arguments mc args).
Proof.
  unfold remap_command. cbn [traverse_command]. intros (args & _ & [= <-])%panics_bind_Ret. by exists args.
Qed.

(** The sequence that is executed for a target calls the target: with
    distinct mapped objects that are not shared, whatever producers and hooks
    [append_function] and [apply_hooks] had to add, the sequence is well
    formed - commands refer backwards and no object is an input twice - and
    one of its commands is a call of the target with as many type arguments
    as the target has type parameters. *)
Theorem built_sequence_calls_target db mapping type_args f r seq r' :
  build_sequence db mapping type_args f r = Ret (Some (Ok (Some seq), r')) →
  NoDup (mapped_ids mapping) → no_shared (object_info db) (mapped_ids mapping) →
  bounded max_params seq → (N.of_nat (length (seq_commands seq)) < 65536)%N →
  wf_sequence (object_info db) seq ∧
  ∃ n mc abi, seq_commands seq !! n = Some (Types.Call mc) ∧
    mc_module_id mc = module_address (fi_module f) ∧ mc_module_name mc = module_name (fi_module f) ∧
    mc_function mc = fi_name f ∧
    get_function (fm_base meta) (module_address (fi_module f)) (module_name (fi_module f)) (fi_name f) = Some abi ∧
    length (mc_type_arguments mc) = length (fa_type_parameters abi).
Proof.
  intros E Hnd Hsh Hb Hc. unfold Testing.build_sequence in E.
  destruct (match get_function _ _ _ _ with Some _ => _ | None => _ end) as [[base fixed]|] eqn:Eb;
    [|by apply spin_mret_Ret in E as [? _]].
  assert (wf_sequence (object_info db) base ∧ fixed_in_scope fixed base) as [Hw Hfix].
  { destruct (get_function _ _ _ _) as [abi|]; [|injection Eb as <- <-; split;
      [split; [intros k cmd Hk; simpl in Hk; by rewrite lookup_nil in Hk|constructor|constructor]|apply map_Forall_empty]].
    unfold build_test_fixed_args in Eb. destruct (fixed_args_loop _ _ _ _ _ _ _) as [[inputs fx]|] eqn:El; [|done].
    injection Eb as <- <-. apply fixed_args_loop_spec in El as (H1 & H2 & H3);
      [|done|done|constructor|apply map_Forall_empty].
    split; [|done]. split; [intros k cmd Hk; simpl in Hk; by rewrite lookup_nil in Hk|done|done]. }
  spin_bind E x Hx. destruct x as [mid built]. destruct built as [res|]; [|by apply spin_mret_Ret in E as [? _]].
  spin_bind E y Hy. apply spin_mret_Ret in E as [[= ->] ->].
  apply (append_function_appends _ _ _ _ _ max_params max_params_known) in Hx as [_ Hx].
  apply (apply_hooks_keeps _ _ _ _ _ max_params max_params_known) in Hy as ([k Hk] & (im & _ & Him) & Hwf).
  assert (bounded max_params mid) as Hbm.
  { unfold bounded in *. rewrite Hk, length_app in Hb. lia. }
  destruct (Hx Hbm Hw Hfix) as [Hwm Ha]. split; [by apply Hwf|]. destruct res as [args rets].
  destruct Ha as (cmds & tys & abi & Hcm & Hget & Htys & _). destruct (Him Hc) as [_ Hlook].
  destruct (Hlook (length cmds) (Types.Call {| mc_module_id := module_address (fi_module f);
    mc_module_name := module_name (fi_module f); mc_function := fi_name f;
    mc_type_arguments := tys; mc_arguments := args |})) as (n & cmd' & _ & Hn & Hr).
  { by rewrite Hcm, lookup_app_r, Nat.sub_diag. }
  apply remap_call in Hr as [args' ->]. eexists (N.to_nat n), _, abi. by split_and!.
Qed.
End test_spec.

(** ** Witnesses: one target, a run that emits the given events *)
#[local] Instance no_objects : ObjectLib := {| Object := (); obj_id _ := addr_zero; obj_version _ := 0%N |}.
Definition demo_run_ptb (events : list RunEvent) (db : CachedSnapshot)
    (ptb : list CallArg * list Command) (epoch epoch_ms : N) (sender gas : MoveAddress) :
    result (TestRun * CachedSnapshot) :=
  Ok (MkTestRun true "Success" events (flat_map step_events demo_steps), ∅).
Definition demo_test (events : list RunEvent) : panics (option (result TestRunReport * list N)) :=
  test (RL := replay_rand) (AT := hex_text) demo_hook_metadata no_havoc no_dword 5 (λ _ _, None)
    (demo_run_ptb events) (λ _, "tree"%string) (λ _, Some [(Some "reason", "drained")]%string) ∅
    (Some coverage_map_new) ∅ ∅ [].

Lemma test_reports_every_target_witness :
  ∃ report r' os, demo_test [MkRunEvent "oracle" "Crash" []] = Ret (Some (Ok report, r')) ∧
    reports (map show_function_ident (fm_target_functions demo_hook_metadata)) os report ∧ length os = 1 ∧ any_oracle_crash (tr_summary report) = true ∧
    (any_oracle_crash (tr_summary report) = true ↔ ∃ o, o ∈ os ∧ is_oracle_crash o = true).
Proof.
  destruct (demo_test [MkRunEvent "oracle" "Crash" []]) as [[[[report|] r']|]|] eqn:E;
    [|vm_compute in E; discriminate E..].
  destruct (test_reports_every_target (RL := replay_rand) (AT := hex_text) demo_hook_metadata no_havoc no_dword 5
    (λ _ _, None) (demo_run_ptb [MkRunEvent "oracle" "Crash" []]) (λ _, "tree"%string)
    (λ _, Some [(Some "reason", "drained")]%string) ∅ (Some coverage_map_new) ∅ ∅ [] report r' E)
    as (os & coverage & _ & Hr & Hl & _ & _ & Hc & _).
  exists report, r', os. split; [done|]. split; [exact Hr|]. split; [exact Hl|]. split; [|exact Hc].
  vm_compute in E. injection E as <- _. reflexivity.
Defined.

Definition demo_build : panics (option (result (option MoveSequence) * list N)) :=
  build_sequence (RL := replay_rand) demo_hook_metadata no_havoc no_dword 5 (λ _ _, None) ∅ ∅ ∅
    (MkFunctionIdent demo_coin_id "mint") [].

Lemma built_sequence_calls_target_witness :
  ∃ seq r' n mc, demo_build = Ret (Some (Ok (Some seq), r')) ∧ seq_commands seq !! n = Some (Types.Call mc) ∧
    mc_function mc = "mint"%string.
Proof.
  destruct demo_build as [[[[[seq|]|] r']|]|] eqn:E; [|vm_compute in E; discriminate E..].
  destruct (built_sequence_calls_target (RL := replay_rand) demo_hook_metadata no_havoc no_dword 5 (λ _ _, None) 2
    demo_hook_max_params ∅ ∅ ∅ (MkFunctionIdent demo_coin_id "mint") [] seq r' E) as (_ & n & mc & abi & Hn & _ & _ & Hf & _).
  - constructor.
  - intros id info v _ H. discriminate H.
  - vm_compute in E. injection E as <- _. vm_compute. reflexivity.
  - vm_compute in E. injection E as <- _. vm_compute. reflexivity.
  - exists seq, r', n, mc. split; [done|]. split; [exact Hn|exact Hf].
Defined.

(** A blank trace is not reported, a crash with keyed strings but no reason joins them. *)
Example blank_traces : is_blank (" "%string +:+ newline_tab) = true ∧ is_blank "tree" = false.
Proof. split; reflexivity. Qed.
Example crash_reasons :
  crash_reason [(None, "x"); (Some "reason", "drained")]%string = Some "drained"%string ∧
  crash_reason [(Some "a", "1"); (None, "2")]%string = Some "a=1, 2"%string ∧ crash_reason [] = None.
Proof. split_and!; reflexivity. Qed.
