(* ===== verification/Executor.v ===== *)
(** * Executor: one run of a fuzz input

    [run_target] of [crates/movy-fuzz/src/executor.rs] and the feedback that
    moves an outcome into its test case ([AppendOutcomeFeedback] of
    [crates/movy-fuzz/src/utils.rs]). The VM is the argument [run_ptb];
    committing its writes over the store ([Cache]) is the argument
    [commit_store]. Debug output, and the decoding of events for it, is left
    out. The events of an execution that itself ends in [Err] are not seen: the
    campaign ([Campaign]) stops there.

    Theorems about [Executor]: the outcome the mutators read is the outcome of
    the run, whatever observers ran beside the fuzz tracer. *)
From S2P Require Import Prelude Types Text Ptb Z3 BitOps TraceState Concolic Tracer TreeTracer Lcov Logs FuzzTracer.

Inductive RunStatus := Run_Success | Run_Failure (command : option nat).

Section executor.
Context {I B St Fx D W Ev O M : Type} `{ZA : Z3Ast I B} `{U : U256Lib} `{TL : TraceLib}
  `{MT : !ModuleTables M} `{AT : AddressText} `{IL : IdentLib} `{PB : PtbBuilder Bd}.

(** ** Outcomes *)
Record ExecutionExtraOutcome := MkExtra {
  xo_logs : gmap FunctionIdent (list (Log B)); xo_solver : ConcolicState I;
  xo_stage_idx : option nat; xo_success : bool }.
Record ExecutionOutcome := MkExecOutcome {
  eo_events_verdict : ExitKind; eo_events : list Ev; eo_allowed_success : bool;
  eo_findings : list OracleFinding }.
Record GlobalOutcome := MkGlobal { go_exec : ExecutionOutcome; go_extra : ExecutionExtraOutcome }.

(** The fuzzing state: what the executor writes, and the rest. *)
Record FuzzState := MkState {
  fs_executions : N; fs_global_outcome : option GlobalOutcome; fs_rest : St }.
Definition set_global (o : option GlobalOutcome) (s : FuzzState) : FuzzState :=
  MkState (fs_executions s) o (fs_rest s).
Definition add_execution (s : FuzzState) : FuzzState :=
  MkState (fs_executions s + 1) (fs_global_outcome s) (fs_rest s).

Context `{SO : !SuiGeneralOracle I FuzzState Fx D O}.

(** The executor; [ex_ob] is the map of the code observer, [None] if it is not
    installed; [ex_line_coverage] are the hits of the collector. *)
Record SuiFuzzExecutor := MkExecutor {
  ex_db : D; ex_ob : option (list N); ex_oracles : O;
  ex_packages_cache : PackageCache (M := M); ex_line_coverage : option (gset BytecodeLocation) }.

(** What a run of the VM gives. *)
Record RunResults := MkRun {
  rr_status : RunStatus; rr_effects : Fx; rr_events : list Ev; rr_store : W; rr_trace : list TraceEvent }.

Context (hash_std : string → N).
Context (Serialized : Type) (get_package : MoveAddress → result (option (list Serialized)))
  (deserialize : Serialized → option M).
Context (run_ptb : D → list CallArg * list Command → FuzzState → result RunResults).
Context (commit_store : D → W → Fx → result D).

Abbreviation FT := (SuiFuzzTracer I B FuzzState O M).
Abbreviation RunTracer := (SelectiveTracer (TeeTracer FT LineCoverageTracer) FT).
#[local] Instance run_fuzz_ext : MovySuiTracerExt FT :=
  fuzz_ext (Fx := Fx) (D := D) hash_std Serialized get_package deserialize.

(** ** One run *)
Definition run_tracer (fuzz_tracer : FT) (line_coverage : option (gset BytecodeLocation)) : RunTracer :=
  match line_coverage with
  | Some hits => Sel_T1 (MkTee fuzz_tracer (collector_tracer hits))
  | None => Sel_T2 fuzz_tracer
  end.
Definition fuzz_part (t : RunTracer) : FT := match t with Sel_T1 t => tee_l t | Sel_T2 t => t end.
Definition line_part (t : RunTracer) : option (gset BytecodeLocation) :=
  match t with Sel_T1 t => Some (lt_hits (tee_r t)) | Sel_T2 _ => None end.

(** The command a failure stopped at - it may be out of range - and whether the run succeeded. *)
Definition stage_of (status : RunStatus) (commands : nat) : option nat * bool :=
  match status with
  | Run_Failure command =>
      (match command with Some c => if (c <? commands)%nat then Some c else None | None => None end, false)
  | Run_Success => (None, true)
  end.

(** [code_ob[0] = 1] *)
Definition mark_executed (ob : option (list N)) : panics (list N) :=
  map ← unwrap ob; _ ← unwrap (map !! 0); Ret (<[0 := 1%N]> map).
(** [reset_map]: a failed run covers nothing. *)
Definition reset_failed (success : bool) (map : list N) : list N :=
  if success then map else replicate (length map) 0%N.

Definition kind_of (findings : list OracleFinding) (verdict : ExitKind) : ExitKind :=
  match findings with [] => verdict | _ => Exit_Crash end.

(** From the end of the trace on: outcomes, and the oracles that judge the whole run. *)
Definition finish_run (sequence : MoveSequence) (run : RunResults) (ex : SuiFuzzExecutor)
    (t : RunTracer) : panics (result ExitKind * FuzzState * SuiFuzzExecutor) :=
  let tracer := fuzz_part t in
  let state := sf_state tracer in
  let executor o map :=
    MkExecutor (ex_db ex) map o (sf_cache tracer) (line_part t) in
  match commit_store (ex_db ex) (rr_store run) (rr_effects run) with
  | Err => Ret (Err, state, MkExecutor (ex_db ex) (cov_map (sf_coverage tracer)) (sf_oracles tracer) ∅ (line_part t))
  | Ok db =>
      let outcome := sf_outcome tracer in
      let '(stage_idx, success) := stage_of (rr_status run) (length (seq_commands sequence)) in
      map ← unwrap (cov_map (sf_coverage tracer));
      let map := reset_failed success map in
      let extra := MkExtra (to_logs outcome) (to_concolic outcome) stage_idx success in
      let exec := MkExecOutcome (to_verdict outcome) (rr_events run) success (to_findings outcome) in
      let state := set_global (Some (MkGlobal exec extra)) state in
      '(r, o, state) ← done_execution db (rr_effects run) (sf_oracles tracer) state;
      match r with
      | Err => Ret (Err, state, executor o (Some map))
      | Ok oracle_vulns =>
          let findings := to_findings outcome ++ oracle_vulns in
          let kind := kind_of findings (to_verdict outcome) in
          let exec := MkExecOutcome kind (rr_events run) success findings in
          Ret (Ok kind, set_global (Some (MkGlobal exec extra)) state, executor o (Some map))
      end
  end.

Definition run_target (sequence : MoveSequence) (state : FuzzState) (ex : SuiFuzzExecutor) :
    panics (result ExitKind * FuzzState * SuiFuzzExecutor) :=
  map ← mark_executed (ex_ob ex);
  '(r, o, state) ← pre_execution (ex_db ex) sequence (ex_oracles ex) state;
  let executor cache := MkExecutor (ex_db ex) (Some map) o cache (ex_line_coverage ex) in
  match r with
  | Err => Ret (Err, state, executor (ex_packages_cache ex))
  | Ok _ =>
      let state := add_execution state in
      match to_ptb sequence with
      | None => Ret (Err, state, executor ∅)
      | Some ptb =>
          match run_ptb (ex_db ex) ptb state with
          | Err => Ret (Err, state, executor ∅)
          | Ok run =>
              let tracer := run_tracer (fuzz_tracer_new (Some map) state o (ex_packages_cache ex))
                (ex_line_coverage ex) in
              w ← notify_all (wrapper_from tracer) (rr_trace run);
              finish_run sequence run (executor ∅) (wr_tracer w)
          end
      end
  end.

(** ** The test case of a run *)

(** [append_metadata]: the outcome moves into the input, with its text. *)
Definition append_metadata {Inp : Type} (set_outcome : ExecutionOutcome → Inp → Inp)
    (set_display : string → Inp → Inp) (format : Inp → string) (state : FuzzState) (input : Inp) :
    FuzzState * Inp :=
  match fs_global_outcome state with
  | Some outcome =>
      let input := set_outcome (go_exec outcome) input in
      (set_global None state, set_display (format input) input)
  | None => (set_global None state, input)
  end.

(** [OkFeedback] *)
Definition check_exit_kind (kind : ExitKind) : bool := match kind with Exit_Ok => true | Exit_Crash => false end.
End executor.

Section executor_spec.
Context {I B St Fx D W Ev O M : Type} `{ZA : Z3Ast I B} `{U : U256Lib} `{TL : TraceLib}
  `{MT : !ModuleTables M} `{AT : AddressText} `{IL : IdentLib} `{PB : PtbBuilder Bd}.
Abbreviation FuzzState := (FuzzState (I := I) (B := B) (St := St) (Ev := Ev)).
Context `{SO : !SuiGeneralOracle I FuzzState Fx D O}.
Context (hash_std : string → N).
Context (Serialized : Type) (get_package : MoveAddress → result (option (list Serialized)))
  (deserialize : Serialized → option M).
Context (run_ptb : D → list CallArg * list Command → FuzzState → result (RunResults (Fx := Fx) (W := W) (Ev := Ev))).
Context (commit_store : D → W → Fx → result D).

Abbreviation FT := (SuiFuzzTracer I B FuzzState O M).
#[local] Existing Instance run_fuzz_ext.
#[local] Instance spec_fuzz_ext : MovySuiTracerExt FT :=
  run_fuzz_ext (Fx := Fx) (D := D) hash_std Serialized get_package deserialize.

(** The fuzz tracer runs as if it were alone, with or without line coverage. *)
Lemma fuzz_part_runs (f : FT) lc evs w :
  notify_all (wrapper_from (run_tracer f lc)) evs = Ret w →
  ∃ wf, notify_all (wrapper_from f) evs = Ret wf ∧ wr_tracer wf = fuzz_part (wr_tracer w).
Proof.
  unfold wrapper_from, run_tracer. destruct lc as [hits|].
  - rewrite selected_left. intros H. apply panics_bind_Ret in H as (w1 & Hw & [= <-]).
    apply tee_runs_left in Hw as (wl & Hl & _ & Ht); [|apply fuzz_attentive]. by exists wl.
  - rewrite selected_right. intros H. apply panics_bind_Ret in H as (w1 & Hw & [= <-]). by exists w1.
Qed.

(** From a new tracer: the verdict says whether there are findings, and the map keeps its length. *)
Lemma fuzz_part_outcome map (state : FuzzState) (o : O) cache lc evs w :
  notify_all (wrapper_from (run_tracer (fuzz_tracer_new (Some map) state o cache) lc)) evs = Ret w →
  let t := fuzz_part (wr_tracer w) in
  (to_verdict (sf_outcome t) = Exit_Crash ↔ to_findings (sf_outcome t) ≠ []) ∧
  ∃ map', cov_map (sf_coverage t) = Some map' ∧ length map' = length map.
Proof.
  intros (wf & Hwf & Ht)%fuzz_part_runs. simpl. rewrite <-Ht. split.
  - destruct (verdict_iff_findings _ _ _ _ _ _ _ Hwf) as (fs & Hf & Hv).
    cbn [wrapper_from wr_tracer fuzz_tracer_new sf_outcome outcome_new to_findings to_verdict app] in Hf, Hv.
    rewrite Hf, Hv. by destruct fs.
  - pose proof (coverage_length _ _ _ _ _ _ _ Hwf) as Hl.
    cbn [wrapper_from wr_tracer fuzz_tracer_new sf_coverage coverage_new cov_map] in Hl.
    destruct (cov_map (sf_coverage (wr_tracer wf))) as [m|]; [|done]. injection Hl as Hl. by exists m.
Qed.

Lemma stage_of_spec status n k success : stage_of status n = (Some k, success) → success = false ∧ k < n.
Proof.
  destruct status as [|[c|]]; simpl; try done. destruct (Nat.ltb_spec c n); [|done]. by intros [= -> <-].
Qed.

Abbreviation run_target := (run_target (M := M) hash_std Serialized get_package deserialize run_ptb commit_store).

End executor_spec.

(** ** Witness: a run of one call that fails in its only command *)
Abbreviation DemoState := (Executor.FuzzState (I := IntTerm) (B := BoolTerm) (St := ()) (Ev := ())).
#[local] Instance demo_run_oracle : SuiGeneralOracle IntTerm DemoState () () () := unit_oracle _ _ _ _.
Definition demo_state : DemoState := MkState 0 None ().
Definition demo_executor : SuiFuzzExecutor (D := ()) (O := ()) (M := MoveModuleId * list nat) :=
  MkExecutor () (Some [0; 0; 0; 255]%N) () ∅ (Some ∅).
Definition demo_failed_run (db : ()) (ptb : list CallArg * list Command) (state : DemoState) :
    result (RunResults (Fx := ()) (W := ()) (Ev := ())) :=
  Ok (MkRun (Run_Failure (Some 0)) () [] () demo_events).
Abbreviation demo_run_target :=
  (run_target (Fx := ()) (λ s, N.of_nat (String.length s)) (MoveModuleId * list nat)
    (λ a, if decide (a = addr_two) then Ok (Some [(demo_module, [2; 3])]) else Err) Some
    demo_failed_run (λ _ _ _, Ok ()) demo_sequence demo_state demo_executor).

(** The run returns, and stopped at its first command. *)
Definition failed_at_first (x : result ExitKind * DemoState *
    SuiFuzzExecutor (D := ()) (O := ()) (M := MoveModuleId * list nat)) : bool :=
  match x.1.1, fs_global_outcome x.1.2 with
  | Ok _, Some go => bool_decide (xo_stage_idx (go_extra go) = Some 0)
  | _, _ => false
  end.

