(* ===== verification/File.v ===== *)
(** * File: the store kept in RocksDB, and the keys below it

    What [crates/movy-sui/src/database/file.rs] uses of libraries: RocksDB
    keeps a column family in the order of its keys as byte strings
    ([RocksLib]); [mdbx_derive] encodes the keys of
    [crates/movy-sui/src/schema.rs] and the values ([TableCodec]). Both have a
    concrete instance: a finite map iterated in order, and big-endian keys.

    [RocksCachedStore] of [crates/movy-sui/src/database/file.rs]: every version
    of every object that was read or committed is kept under its id and
    version in a column family; the newest version below a bound is found by
    scanning the keys of an id. Errors of the disk are not modelled, those of a missing column
    family and of decoding are. Clones share the database: a store is one
    handle, passed as a state. *)
From S2P Require Import Prelude Types FuzzTracer Meta Cache.

(** ** Byte strings in lexicographic order *)
Abbreviation Bytes := (list N).
Fixpoint bytes_leb (p q : Bytes) : bool :=
  match p, q with
  | [], _ => true
  | _, [] => false
  | x :: p, y :: q => match (x ?= y)%N with Lt => true | Eq => bytes_leb p q | Gt => false end
  end.
Definition bytes_le (p q : Bytes) : Prop := bytes_leb p q = true.
#[export] Instance bytes_le_dec : RelDecision bytes_le.
Proof. intros p q. unfold bytes_le. apply _. Defined.

Lemma bytes_le_cons x y p q : bytes_le (x :: p) (y :: q) ↔ (x < y)%N ∨ x = y ∧ bytes_le p q.
Proof.
  unfold bytes_le. simpl. destruct (N.compare_spec x y) as [->| |]; split; try done; try naive_solver lia.
Qed.
#[export] Instance bytes_le_refl : Reflexive bytes_le.
Proof. intros p. induction p as [|x p IH]; [done|]. apply bytes_le_cons. by right. Qed.
#[export] Instance bytes_le_trans : Transitive bytes_le.
Proof.
  intros p. induction p as [|x p IH]; [done|]. intros [|y q] [|z r]; try done.
  rewrite !bytes_le_cons. intros [?|[-> Hp]] [?|[-> Hq]]; [left; lia|by left|by left|right; eauto].
Qed.
#[export] Instance bytes_le_total : Total bytes_le.
Proof.
  intros p. induction p as [|x p IH]; [by left|]. intros [|y q]; [by right|]. rewrite !bytes_le_cons.
  destruct (N.lt_trichotomy x y) as [|[->|]]; [auto| |auto]. destruct (IH q); auto.
Qed.
Lemma bytes_le_nil p : bytes_le [] p.
Proof. done. Qed.

(** The strings with one prefix are an interval. *)
Lemma prefix_between p a k c :
  p `prefix_of` a → p `prefix_of` c → bytes_le a k → bytes_le k c → p `prefix_of` k.
Proof.
  revert a k c. induction p as [|x p IH]; intros a k c Ha Hc Hak Hkc; [apply prefix_nil|].
  destruct Ha as [a' ->], Hc as [c' ->]. destruct k as [|y k]; [done|].
  simpl in Hak, Hkc. apply bytes_le_cons in Hak, Hkc.
  destruct Hak as [?|[-> Hak]], Hkc as [?|[? Hkc]]; try lia.
  apply prefix_cons. eapply (IH (p ++ a') k (p ++ c')); [by eexists|by eexists|done|done].
Qed.

(** Big-endian numbers of [n] bytes. *)
Fixpoint be_bytes (n : nat) (x : N) : Bytes :=
  match n with
  | 0 => []
  | S n => ((x / 256 ^ N.of_nat n) mod 256)%N :: be_bytes n x
  end.
Fixpoint from_be (l : Bytes) : N :=
  match l with [] => 0%N | x :: l => (x * 256 ^ N.of_nat (length l) + from_be l)%N end.

Lemma length_be_bytes n x : length (be_bytes n x) = n.
Proof. induction n; simpl; congruence. Qed.
Lemma be_bytes_mod n x : be_bytes n (x mod 256 ^ N.of_nat n)%N = be_bytes n x.
Proof.
  assert (∀ m x, (n ≤ m)%nat → be_bytes n (x mod 256 ^ N.of_nat m)%N = be_bytes n x) as H; [|by apply H].
  clear x. induction n as [|n IH]; intros m x Hm; [done|]. cbn [be_bytes]. f_equal; [|apply IH; lia].
  replace (N.of_nat m) with (N.of_nat n + (1 + N.of_nat (m - S n)))%N by lia.
  rewrite N.pow_add_r, N.Div0.mod_mul_r.
  rewrite N.mul_comm, N.div_add by (by apply N.pow_nonzero).
  rewrite (N.div_small (x mod _)) by (apply N.mod_lt; by apply N.pow_nonzero). rewrite N.add_0_l.
  rewrite N.pow_add_r, N.pow_1_r, N.Div0.mod_mul_r.
  by rewrite N.mul_comm, N.Div0.mod_add, N.Div0.mod_mod.
Qed.
Lemma from_be_bytes n x : (x < 256 ^ N.of_nat n)%N → from_be (be_bytes n x) = x.
Proof.
  revert x. induction n as [|n IH]; intros x Hx; [simpl in *; lia|]. cbn [be_bytes from_be].
  rewrite length_be_bytes, <-(be_bytes_mod n x), IH by (apply N.mod_lt; by apply N.pow_nonzero).
  rewrite N.mod_small; [|apply N.Div0.div_lt_upper_bound; by rewrite N.mul_comm, <-N.pow_succ_r', <-Nat2N.inj_succ].
  rewrite N.mul_comm. symmetry. by apply N.div_mod, N.pow_nonzero.
Qed.
Lemma be_bytes_le n x y : (x < 256 ^ N.of_nat n)%N → (y < 256 ^ N.of_nat n)%N →
  bytes_le (be_bytes n x) (be_bytes n y) ↔ (x ≤ y)%N.
Proof.
  revert x y. induction n as [|n IH]; intros x y Hx Hy; [simpl in *; split; [lia|done]|].
  cbn [be_bytes]. rewrite bytes_le_cons.
  assert (256 ^ N.of_nat n ≠ 0)%N as Hnz by (by apply N.pow_nonzero).
  rewrite Nat2N.inj_succ, N.pow_succ_r' in Hx, Hy.
  rewrite !(N.mod_small (_ / _)) by (apply N.Div0.div_lt_upper_bound; lia).
  rewrite <-(be_bytes_mod n x), <-(be_bytes_mod n y), IH by (by apply N.mod_lt).
  pose proof (N.div_mod x _ Hnz) as Ex. pose proof (N.div_mod y _ Hnz) as Ey.
  pose proof (N.mod_lt x _ Hnz) as Lx. pose proof (N.mod_lt y _ Hnz) as Ly.
  set (b := (256 ^ N.of_nat n)%N) in *. set (qx := (x / b)%N) in *. set (qy := (y / b)%N) in *.
  set (rx := (x mod b)%N) in *. set (ry := (y mod b)%N) in *.
  destruct (N.lt_trichotomy qx qy) as [H|[H|H]].
  - split; [intros _; nia|by left].
  - rewrite H in *. split; [intros [?|[_ ?]]; nia|right; nia].
  - split; [intros [?|[? _]]; lia|intros ?; nia].
Qed.

(** ** The store *)
Inductive BatchOp := PutCf (key value : Bytes) | DeleteCf (key : Bytes).
#[export] Instance BatchOp_eq_dec : EqDecision BatchOp.
Proof. solve_decision. Defined.

(** What a key holds after an operation. *)
Definition batch_get (key : Bytes) (held : option Bytes) (op : BatchOp) : option Bytes :=
  match op with
  | PutCf k v => if decide (k = key) then Some v else held
  | DeleteCf k => if decide (k = key) then None else held
  end.

(** A column family: [iterator_cf cf start] are the entries from [start] on,
    forward; [write] applies a batch, in its order. *)
Class RocksLib := {
  ColumnFamily : Type;
  empty_cf : ColumnFamily;
  get_cf : ColumnFamily → Bytes → option Bytes;
  iterator_cf : ColumnFamily → Bytes → list (Bytes * Bytes);
  write : list BatchOp → ColumnFamily → ColumnFamily;
  get_empty k : get_cf empty_cf k = None;
  get_write ops cf k : get_cf (write ops cf) k = fold_left (batch_get k) ops (get_cf cf k);
  iterator_elem cf start k v : (k, v) ∈ iterator_cf cf start ↔ get_cf cf k = Some v ∧ bytes_le start k;
  iterator_sorted cf start : StronglySorted (λ x y, bytes_le x.1 y.1) (iterator_cf cf start);
  iterator_keys cf start : NoDup (iterator_cf cf start).*1;
}.

Definition entry_le (x y : Bytes * Bytes) : Prop := bytes_le x.1 y.1.
#[export] Instance entry_le_dec : RelDecision entry_le.
Proof. intros x y. unfold entry_le. apply _. Defined.
#[export] Instance entry_le_trans : Transitive entry_le.
Proof. intros x y z. unfold entry_le. apply bytes_le_trans. Qed.
#[export] Instance entry_le_total : Total entry_le.
Proof. intros x y. unfold entry_le. apply bytes_le_total. Qed.

Definition map_write (m : gmap Bytes Bytes) (op : BatchOp) : gmap Bytes Bytes :=
  match op with PutCf k v => <[k := v]> m | DeleteCf k => delete k m end.
Definition map_iter (m : gmap Bytes Bytes) (start : Bytes) : list (Bytes * Bytes) :=
  merge_sort entry_le (map_to_list (filter (λ x, bytes_le start x.1) m)).

#[export] Program Instance map_rocks : RocksLib := {|
  ColumnFamily := gmap Bytes Bytes;
  empty_cf := ∅;
  get_cf m k := m !! k;
  iterator_cf := map_iter;
  write ops m := fold_left map_write ops m;
|}.
Next Obligation. intros k. apply lookup_empty. Qed.
Next Obligation.
  intros ops m k. revert m. induction ops as [|op ops IH]; intros m; [done|]. simpl. rewrite IH. f_equal.
  destruct op as [k' v|k']; simpl; [by rewrite lookup_insert|by rewrite lookup_delete].
Qed.
Next Obligation.
  intros m start k v. unfold map_iter. rewrite merge_sort_Permutation, elem_of_map_to_list.
  by rewrite map_lookup_filter_Some.
Qed.
Next Obligation. intros m start. apply (StronglySorted_merge_sort entry_le); apply _. Qed.
Next Obligation. intros m start. unfold map_iter. rewrite merge_sort_Permutation. apply NoDup_fst_map_to_list. Qed.

(** ** Keys and values *)
Definition key_valid (id : MoveAddress) (version : N) : Prop := (addr_val id < 2 ^ 256)%N ∧ (version < 2 ^ 64)%N.

(** [id_encode] is [key_encode] of an [ObjectIDKey], [key_encode] that of an
    [ObjectIDVersionedKey]; the objects have an address and a [u64] version. *)
Class TableCodec `{OL : ObjectLib} := {
  id_encode : MoveAddress → Bytes;
  key_encode : MoveAddress → N → Bytes;
  key_decode : Bytes → result (MoveAddress * N);
  table_encode : Object → Bytes;
  table_decode : Bytes → result Object;
  meta_encode : N → Bytes;
  meta_decode : Bytes → result N;
  object_valid o : key_valid (obj_id o) (obj_version o);
  key_decode_encode id v : key_valid id v → key_decode (key_encode id v) = Ok (id, v);
  id_prefix id id' v : key_valid id v → key_valid id' v → id_encode id `prefix_of` key_encode id' v ↔ id = id';
  key_order id v v' : key_valid id v → key_valid id v' →
    bytes_le (key_encode id v) (key_encode id v') ↔ (v ≤ v')%N;
  table_decode_encode o : table_decode (table_encode o) = Ok o;
  meta_decode_encode n : (n < 2 ^ 64)%N → meta_decode (meta_encode n) = Ok n;
}.

(** 32 bytes of address, then 8 of version. *)
Definition be_key (id : MoveAddress) (version : N) : Bytes := be_bytes 32 (addr_val id) ++ be_bytes 8 version.
Definition be_unkey (k : Bytes) : result (MoveAddress * N) :=
  if decide (length k = 40) then Ok (MkMoveAddress (from_be (take 32 k)), from_be (drop 32 k)) else Err.

Lemma id_bytes n : (n < 2 ^ 256)%N → (n < 256 ^ N.of_nat 32)%N.
Proof. by replace (256 ^ N.of_nat 32)%N with (2 ^ 256)%N by (vm_compute; reflexivity). Qed.
Lemma version_bytes n : (n < 2 ^ 64)%N → (n < 256 ^ N.of_nat 8)%N.
Proof. by replace (256 ^ N.of_nat 8)%N with (2 ^ 64)%N by (vm_compute; reflexivity). Qed.

Lemma be_unkey_key id v : key_valid id v → be_unkey (be_key id v) = Ok (id, v).
Proof.
  intros [Hi Hv]. unfold be_unkey, be_key. rewrite length_app, !length_be_bytes, decide_True by done.
  rewrite take_app_length', drop_app_length' by (by rewrite length_be_bytes).
  rewrite !from_be_bytes by auto using id_bytes, version_bytes. by destruct id.
Qed.
Lemma be_prefix id id' v : key_valid id v → key_valid id' v →
  be_bytes 32 (addr_val id) `prefix_of` be_key id' v ↔ id = id'.
Proof.
  intros [Hi _] [Hi' _]. split; [|intros ->; by eexists]. intros [l Hl]. unfold be_key in Hl.
  apply app_inj_1 in Hl as [Hl _]; [|by rewrite !length_be_bytes].
  apply (f_equal from_be) in Hl. rewrite !from_be_bytes in Hl by auto using id_bytes.
  destruct id, id'; simpl in *; congruence.
Qed.
Lemma bytes_le_app p a b : bytes_le (p ++ a) (p ++ b) ↔ bytes_le a b.
Proof. induction p as [|x p IH]; simpl; [done|]. rewrite bytes_le_cons. naive_solver lia. Qed.
Lemma be_order id v v' : key_valid id v → key_valid id v' →
  bytes_le (be_key id v) (be_key id v') ↔ (v ≤ v')%N.
Proof. intros [_ Hv] [_ Hv']. unfold be_key. rewrite bytes_le_app. apply be_bytes_le; by apply version_bytes. Qed.

Section file.
Context `{RL : RocksLib} `{OL : ObjectLib} `{TC : !TableCodec}.

(** What is on disk: the metadata and the column family of objects, if it exists. *)
Record RocksDb := MkDb { db_meta : option Bytes; db_objects : option ColumnFamily }.
Record RocksCachedStore := MkRocksStore { rs_db : RocksDb; rs_ro : bool }.

(** [disk] is what the path holds, [None] for nothing: a read-only store needs
    something, any other creates what is missing. *)
Definition open_db (disk : option RocksDb) (ro : bool) : result RocksDb :=
  match disk with
  | Some db => if ro then Ok db else Ok (MkDb (db_meta db) (Some (default empty_cf (db_objects db))))
  | None => if ro then Err else Ok (MkDb None (Some empty_cf))
  end.
Definition store_new (disk : option RocksDb) (fork_checkpoint : N) (ro : bool) : result RocksCachedStore :=
  db ← open_db disk ro;
  match db_meta db with
  | Some meta_bytes =>
      checkpoint ← meta_decode meta_bytes;
      if negb (checkpoint =? fork_checkpoint)%N then Err else Ok (MkRocksStore db ro)
  | None =>
      Ok (MkRocksStore (if ro then db else MkDb (Some (meta_encode fork_checkpoint)) (db_objects db)) ro)
  end.

Definition cf_objects (s : RocksCachedStore) : result ColumnFamily :=
  match db_objects (rs_db s) with Some cf => Ok cf | None => Err end.
Definition set_objects (cf : ColumnFamily) (s : RocksCachedStore) : RocksCachedStore :=
  MkRocksStore (MkDb (db_meta (rs_db s)) (Some cf)) (rs_ro s).

(** ** Snapshots *)

(** [entry(id).or_default().entry(version).or_insert(Some(object))] *)
Definition dump_entry (id : MoveAddress) (version : N) (object : Object) (snap : CachedSnapshot) : CachedSnapshot :=
  let versions := default ∅ (snap !! id) in
  <[id := <[version := default (Some object) (versions !! version)]> versions]> snap.
Fixpoint dump_loop (items : list (Bytes * Bytes)) (snap : CachedSnapshot) : result CachedSnapshot :=
  match items with
  | [] => Ok snap
  | (key_bytes, value_bytes) :: items =>
      '(id, version) ← key_decode key_bytes;
      value ← table_decode value_bytes;
      dump_loop items (dump_entry id version value snap)
  end.
Definition rocks_dump_snapshot (s : RocksCachedStore) : result CachedSnapshot :=
  cf ← cf_objects s;
  dump_loop (iterator_cf cf []) ∅.

(** [put_cf] of an object under its own id and version. *)
Definition put_op (object : Object) : BatchOp :=
  PutCf (key_encode (obj_id object) (obj_version object)) (table_encode object).
Definition restore_batch (snap : CachedSnapshot) : list BatchOp :=
  flat_map (λ x, omap (λ y, put_op <$> y.2) (btree_iter x.2)) (address_iter snap).
Definition rocks_restore_snapshot (snap : CachedSnapshot) (s : RocksCachedStore) : result RocksCachedStore :=
  if rs_ro s then Err else
  cf ← cf_objects s;
  Ok (set_objects (write (restore_batch snap) cf) s).

(** ** Objects in the database *)
Definition put_object (object : Object) (s : RocksCachedStore) : result () * RocksCachedStore :=
  if rs_ro s then (Ok (), s) else
  match cf_objects s with
  | Err => (Err, s)
  | Ok cf => (Ok (), set_objects (write [put_op object] cf) s)
  end.

Definition starts_with (prefix key_bytes : Bytes) : bool := bool_decide (prefix `prefix_of` key_bytes).

(** The scan of an id's keys: the last one below the bound. *)
Fixpoint upperbound_loop (id_prefix : Bytes) (upperbound : N) (items : list (Bytes * Bytes))
    (found : option Object) : result (option Object) :=
  match items with
  | [] => Ok found
  | (key_bytes, value_bytes) :: items =>
      if negb (starts_with id_prefix key_bytes) then Ok found else
      '(_, version) ← key_decode key_bytes;
      if (upperbound <? version)%N then Ok found else
      value ← table_decode value_bytes;
      upperbound_loop id_prefix upperbound items (Some value)
  end.
Definition get_object_upperbound (object_id : MoveAddress) (upperbound : N) (s : RocksCachedStore) :
    result (option Object) :=
  cf ← cf_objects s;
  upperbound_loop (id_encode object_id) upperbound (iterator_cf cf (key_encode object_id 0)) None.
Definition get_object_exact (object_id : MoveAddress) (exact : N) (s : RocksCachedStore) :
    result (option Object) :=
  cf ← cf_objects s;
  match get_cf cf (key_encode object_id exact) with
  | Some data => value ← table_decode data; Ok (Some value)
  | None => Ok None
  end.
Definition get_object_by_id_db (object_id : MoveAddress) (s : RocksCachedStore) : result (option Object) :=
  get_object_upperbound object_id u64_max s.

(** Deletes for all keys of an id the database has now. *)
Fixpoint delete_loop (id_prefix : Bytes) (items : list (Bytes * Bytes)) : list BatchOp :=
  match items with
  | [] => []
  | (key_bytes, _) :: items =>
      if negb (starts_with id_prefix key_bytes) then [] else DeleteCf key_bytes :: delete_loop id_prefix items
  end.
Definition delete_versions (cf : ColumnFamily) (id : MoveAddress) : list BatchOp :=
  delete_loop (id_encode id) (iterator_cf cf (key_encode id 0)).
Definition remove_all_versions (id : MoveAddress) (s : RocksCachedStore) : result RocksCachedStore :=
  if rs_ro s then Ok s else
  cf ← cf_objects s;
  Ok (set_objects (write (delete_versions cf id) cf) s).

Fixpoint list_ids_loop (items : list (Bytes * Bytes)) : result (list MoveAddress) :=
  match items with
  | [] => Ok []
  | (key_bytes, _) :: items => key ← key_decode key_bytes; ids ← list_ids_loop items; Ok (key.1 :: ids)
  end.
Definition list_object_ids (s : RocksCachedStore) : result (list MoveAddress) :=
  cf ← cf_objects s;
  list_ids_loop (iterator_cf cf []).

(** ** Reads *)
Section reads.
Context (store : Backing).

(** A read that hands on errors of the database: a package or a child. *)
Definition fetch (fetched : result (option Object)) (s : RocksCachedStore) :
    result (option Object) * RocksCachedStore :=
  match fetched with
  | Err => (Err, s)
  | Ok None => (Ok None, s)
  | Ok (Some hit) =>
      match put_object hit s with
      | (Err, s) => (Err, s)
      | (Ok _, s) => (Ok (Some hit), s)
      end
  end.
(** A read that only logs them. *)
Definition fetch_logged (fetched : option Object) (s : RocksCachedStore) : option Object * RocksCachedStore :=
  match fetched with
  | None => (None, s)
  | Some object => (Some object, (put_object object s).2)
  end.

Definition rocks_get_package_object (package_id : MoveAddress) (s : RocksCachedStore) :
    result (option Object) * RocksCachedStore :=
  match get_object_by_id_db package_id s with
  | Err => (Err, s)
  | Ok (Some hit) => (Ok (Some hit), s)
  | Ok None => fetch (bk_get_package_object store package_id) s
  end.
Definition rocks_get_object (object_id : MoveAddress) (s : RocksCachedStore) : option Object * RocksCachedStore :=
  match get_object_by_id_db object_id s with
  | Ok (Some hit) => (Some hit, s)
  | _ => fetch_logged (bk_get_object store object_id) s
  end.
Definition rocks_get_object_by_key (object_id : MoveAddress) (version : N) (s : RocksCachedStore) :
    option Object * RocksCachedStore :=
  match get_object_exact object_id version s with
  | Ok (Some hit) => (Some hit, s)
  | _ => fetch_logged (bk_get_object_by_key store object_id version) s
  end.
Definition rocks_get_object_received_at_version (owner receiving_object_id : MoveAddress)
    (receive_object_at_version epoch_id : N) (s : RocksCachedStore) : result (option Object) * RocksCachedStore :=
  match get_object_exact receiving_object_id receive_object_at_version s with
  | Err => (Err, s)
  | Ok (Some hit) => (Ok (Some hit), s)
  | Ok None =>
      fetch (bk_get_object_received_at_version store owner receiving_object_id receive_object_at_version epoch_id) s
  end.
Definition rocks_read_child_object (parent child : MoveAddress) (child_version_upper_bound : N)
    (s : RocksCachedStore) : result (option Object) * RocksCachedStore :=
  match get_object_upperbound child child_version_upper_bound s with
  | Err => (Err, s)
  | Ok hit =>
      match hit with
      | Some hit =>
          if (obj_version hit =? child_version_upper_bound)%N then (Ok (Some hit), s)
          else fetch (bk_read_child_object store parent child child_version_upper_bound) s
      | None => fetch (bk_read_child_object store parent child child_version_upper_bound) s
      end
  end.
End reads.

(** The reads a client makes, as in [Cache]. *)
Definition rocks_read (store : Backing) (c : ReadCall) (s : RocksCachedStore) :
    result (option Object) * RocksCachedStore :=
  match c with
  | ReadPackage id => rocks_get_package_object store id s
  | ReadObject id => let '(r, s) := rocks_get_object store id s in (Ok r, s)
  | ReadByKey id v => let '(r, s) := rocks_get_object_by_key store id v s in (Ok r, s)
  | ReadReceived owner id v epoch => rocks_get_object_received_at_version store owner id v epoch s
  | ReadChild parent child bound => rocks_read_child_object store parent child bound s
  end.

(** ** Commits *)
Definition rocks_commit_single_object (object : Object) (s : RocksCachedStore) : result () * RocksCachedStore :=
  put_object object s.

(** The ids a transaction removes, then those whose stream it ended. *)
Definition gone_ids (store : InnerTemporaryStore) (effects : TransactionEffects) : panics (list MoveAddress) :=
  let '(removed, input_objects) := take_inputs (removed_refs effects) (its_input_objects store) in
  ended ← ended_ids (fx_stream_ended effects) input_objects (its_stream_ended_consensus_objects store);
  Ret (removed.*1 ++ ended).

(** Written objects are put; of the ids that are gone every version the
    database had before is deleted. *)
Definition commit_batch (cf : ColumnFamily) (store : InnerTemporaryStore) (effects : TransactionEffects) :
    panics (list BatchOp) :=
  gone ← gone_ids store effects;
  Ret (map (λ x, put_op x.2) (address_iter (its_written store)) ++ flat_map (delete_versions cf) gone).
Definition rocks_commit_store (store : InnerTemporaryStore) (effects : TransactionEffects)
    (s : RocksCachedStore) : panics (result () * RocksCachedStore) :=
  if rs_ro s then Ret (Ok (), s) else
  match cf_objects s with
  | Err => Ret (Err, s)
  | Ok cf =>
      batch ← commit_batch cf store effects;
      Ret (Ok (), set_objects (write batch cf) s)
  end.
End file.
