(* ===== verification/FileSpec.v ===== *)
(** * FileSpec: the file cache is a snapshot

    Theorems about [File]: whatever is read, restored or committed, the store
    stays the image of a [CachedSnapshot] without removals, its scans answer as
    the lookups of the snapshot, and its reads as those of the cache in memory. *)
From S2P Require Import Prelude Types FuzzTracer Meta Cache File.

Section spec.
Context `{RL : RocksLib} `{OL : ObjectLib} `{TC : !TableCodec}.

(** ** What a column family holds *)
Definition okay {A} (r : result A) : option A := match r with Ok a => Some a | Err => None end.
Definition held (cf : ColumnFamily) (id : MoveAddress) (v : N) : option Object :=
  get_cf cf (key_encode id v) ≫= λ b, okay (table_decode b).

(** Every value is an object, and stands under its own key. *)
Definition is_item (x : Bytes * Bytes) (o : Object) : Prop :=
  table_decode x.2 = Ok o ∧ x.1 = key_encode (obj_id o) (obj_version o).
Lemma is_item_unique x o o' : is_item x o → is_item x o' → o = o'.
Proof. intros [H _] [H' _]. rewrite H in H'. by injection H'. Qed.
Definition wf_cf (cf : ColumnFamily) : Prop := ∀ k b, get_cf cf k = Some b → ∃ o, is_item (k, b) o.
Definition wf_store (s : RocksCachedStore) : Prop := ∀ cf, cf_objects s = Ok cf → wf_cf cf.

#[export] Instance key_valid_dec id v : Decision (key_valid id v).
Proof. unfold key_valid. apply _. Defined.

(** The snapshot a column family is the image of. *)
Definition shows (cf : ColumnFamily) (snap : CachedSnapshot) : Prop :=
  ∀ id v, entry snap id v = if decide (key_valid id v) then Some <$> held cf id v else None.

Lemma key_inj id v id' v' : key_valid id v → key_valid id' v' →
  key_encode id v = key_encode id' v' → id = id' ∧ v = v'.
Proof.
  intros H H' E. apply (f_equal key_decode) in E. rewrite !key_decode_encode in E by done. by simplify_eq.
Qed.

Lemma held_keyed cf id v o : wf_cf cf → key_valid id v → held cf id v = Some o →
  obj_id o = id ∧ obj_version o = v.
Proof.
  intros Hw Hv H. unfold held in H. apply bind_Some in H as (b & Hb & Ho).
  destruct (Hw _ _ Hb) as (o' & Hd & Hk). simpl in *. rewrite Hd in Ho. simplify_eq/=.
  by apply key_inj in Hk as [-> ->]; [|done|apply object_valid].
Qed.
Lemma item_held cf x o : get_cf cf x.1 = Some x.2 → is_item x o → held cf (obj_id o) (obj_version o) = Some o.
Proof. intros H [Hd Hk]. unfold held. rewrite <-Hk, H. simpl. by rewrite Hd. Qed.
Lemma held_item cf id v o start : wf_cf cf → key_valid id v → held cf id v = Some o →
  bytes_le start (key_encode id v) → ∃ x, x ∈ iterator_cf cf start ∧ is_item x o.
Proof.
  intros Hw Hv H Hs. destruct (held_keyed _ _ _ _ Hw Hv H) as [<- <-].
  unfold held in H. apply bind_Some in H as (b & Hb & Ho). destruct (table_decode b) as [o'|] eqn:Ed; [|done].
  simplify_eq/=. exists (key_encode (obj_id o) (obj_version o), b). split; [by apply iterator_elem|done].
Qed.
Lemma iterator_items cf start x : wf_cf cf → x ∈ iterator_cf cf start →
  ∃ o, is_item x o ∧ held cf (obj_id o) (obj_version o) = Some o ∧ bytes_le start x.1.
Proof.
  intros Hw Hx. destruct x as [k b]. apply iterator_elem in Hx as [Hb Hs].
  destruct (Hw _ _ Hb) as [o Ho]. exists o. split_and!; [done|by eapply (item_held cf (k, b))|done].
Qed.

(** ** Batches *)
Definition put_writes (os : list Object) : list (MoveAddress * N * option Object) :=
  map (λ o, (obj_id o, obj_version o, Some o)) os.

Lemma fold_puts os id v h : key_valid id v →
  fold_left (batch_get (key_encode id v)) (map put_op os) h =
    match written (put_writes os) id v with Some (Some o) => Some (table_encode o) | _ => h end.
Proof.
  intros Hv. revert h. induction os as [|o os IH]; intros h; [done|]. simpl. rewrite IH.
  destruct (written (put_writes os) id v) as [[o'|]|] eqn:E; [done| |].
  - apply written_elem in E. unfold put_writes in E. by apply list_elem_of_fmap in E as (? & ? & _).
  - destruct (decide (key_encode (obj_id o) (obj_version o) = key_encode id v)) as [Hk|Hk].
    + apply key_inj in Hk as [E1 E2]; [by rewrite E1, E2, decide_True|apply object_valid|done].
    + rewrite decide_False; [done|]. intros [= E1 E2]. by rewrite E1, E2 in Hk.
Qed.
Lemma written_puts os id v x : written (put_writes os) id v = Some x →
  ∃ o, x = Some o ∧ o ∈ os ∧ obj_id o = id ∧ obj_version o = v.
Proof.
  intros H%written_elem. unfold put_writes in H. apply list_elem_of_fmap in H as (o & [= -> -> ->] & Ho).
  by exists o.
Qed.

Definition is_delete (op : BatchOp) : Prop := ∃ k, op = DeleteCf k.
Lemma fold_deletes dels k h : Forall is_delete dels →
  fold_left (batch_get k) dels h = if bool_decide (DeleteCf k ∈ dels) then None else h.
Proof.
  intros H. revert h. induction H as [|op dels [k' ->] _ IH]; intros h; [done|]. simpl. rewrite IH.
  destruct (decide (k' = k)) as [->|Hne].
  - rewrite (bool_decide_true (DeleteCf k ∈ DeleteCf k :: dels)) by (by left). by case_bool_decide.
  - rewrite (bool_decide_ext (DeleteCf k ∈ DeleteCf k' :: dels) (DeleteCf k ∈ dels)); [done|].
    rewrite elem_of_cons. naive_solver.
Qed.

Lemma held_batch os dels cf id v : key_valid id v → Forall is_delete dels →
  held (write (map put_op os ++ dels) cf) id v =
    if bool_decide (DeleteCf (key_encode id v) ∈ dels) then None
    else match written (put_writes os) id v with Some (Some o) => Some o | _ => held cf id v end.
Proof.
  intros Hv Hd. unfold held. rewrite get_write, fold_left_app, fold_deletes, fold_puts by done.
  case_bool_decide; [done|].
  destruct (written (put_writes os) id v) as [[o|]|]; [|done..]. simpl. by rewrite table_decode_encode.
Qed.
Lemma wf_batch os dels cf : Forall is_delete dels → wf_cf cf → wf_cf (write (map put_op os ++ dels) cf).
Proof.
  intros Hd Hw k b. rewrite get_write, fold_left_app, fold_deletes by done. case_bool_decide; [done|].
  assert (∀ h, (∀ b, h = Some b → ∃ o, is_item (k, b) o) →
    ∀ b, fold_left (batch_get k) (map put_op os) h = Some b → ∃ o, is_item (k, b) o) as Hg; [|by apply Hg, Hw].
  clear b. induction os as [|o os IH]; intros h Hh b; [apply Hh|]. simpl. apply IH. intros b'.
  case_decide as Hk; [|apply Hh]. intros [= <-]. exists o. by split; [apply table_decode_encode|].
Qed.
Lemma shows_batch os dels cf snap snap' : Forall is_delete dels → shows cf snap →
  (∀ id v, entry snap' id v =
    if decide (key_valid id v ∧ DeleteCf (key_encode id v) ∈ dels) then None
    else match written (put_writes os) id v with Some x => Some x | None => entry snap id v end) →
  shows (write (map put_op os ++ dels) cf) snap'.
Proof.
  intros Hd Hs E id v. rewrite E, Hs. destruct (decide (key_valid id v)) as [Hv|Hv].
  - rewrite held_batch by done. case_bool_decide as Hk; [by rewrite decide_True|].
    rewrite decide_False by naive_solver.
    destruct (written (put_writes os) id v) as [x|] eqn:Ew; [|done].
    by apply written_puts in Ew as (o & -> & _).
  - rewrite decide_False by naive_solver. destruct (written (put_writes os) id v) as [x|] eqn:Ew; [|done].
    apply written_puts in Ew as (o & -> & _ & <- & <-). destruct Hv. apply object_valid.
Qed.

(** ** Dumps *)
Lemma entry_dump_entry id v o snap id' v' :
  entry (dump_entry id v o snap) id' v' =
    if decide ((id, v) = (id', v')) then Some (default (Some o) (entry snap id v)) else entry snap id' v'.
Proof.
  unfold entry, dump_entry. destruct (decide (id = id')) as [->|?].
  - rewrite lookup_insert_eq. csimpl. rewrite lookup_insert.
    case_decide; case_decide; simplify_eq; destruct (snap !! id'); csimpl;
      by rewrite ?lookup_empty.
  - rewrite lookup_insert_ne by done. case_decide; [naive_solver|done].
Qed.

(** No id without a version: what makes equal snapshots of equal entries. *)
Definition full (snap : CachedSnapshot) : Prop := ∀ id vs, snap !! id = Some vs → vs ≠ ∅.
Lemma full_eq snap snap' : full snap → full snap' → (∀ id v, entry snap id v = entry snap' id v) → snap = snap'.
Proof.
  intros Hf Hf' E. apply map_eq. intros id. specialize (E id). unfold entry in E.
  destruct (snap !! id) as [vs|] eqn:H1, (snap' !! id) as [vs'|] eqn:H2; cbn in E; [| | |done].
  - f_equal. by apply map_eq.
  - destruct (Hf _ _ H1). apply map_eq. intros v. by rewrite E, lookup_empty.
  - destruct (Hf' _ _ H2). apply map_eq. intros v. by rewrite <-E, lookup_empty.
Qed.
Lemma full_dump_entry id v o snap : full snap → full (dump_entry id v o snap).
Proof.
  intros Hf id' vs. unfold dump_entry. rewrite lookup_insert. case_decide; [|apply Hf].
  intros [= <-]. apply insert_non_empty.
Qed.

Lemma dump_loop_spec items snap : Forall (λ x, ∃ o, is_item x o) items → full snap →
  ∃ snap', dump_loop items snap = Ok snap' ∧ full snap' ∧ ∀ id v,
    match entry snap' id v with
    | Some x => entry snap id v = Some x ∨ ∃ y o, y ∈ items ∧ is_item y o ∧ x = Some o ∧ obj_id o = id ∧ obj_version o = v
    | None => entry snap id v = None ∧ ∀ y o, y ∈ items → is_item y o → ¬ (obj_id o = id ∧ obj_version o = v)
    end.
Proof.
  intros Hi. revert snap. induction Hi as [|[k b] items (o & Hd & Hk) _ IH]; intros snap Hf.
  - exists snap. split; [done|]. split; [done|]. intros id v. destruct (entry snap id v); [by left|].
    split; [done|]. by intros ? ? ?%not_elem_of_nil.
  - simpl in Hd, Hk. subst k. cbn [dump_loop]. rewrite key_decode_encode by apply object_valid. cbn [mbind result_mbind].
    rewrite Hd. destruct (IH (dump_entry (obj_id o) (obj_version o) o snap)) as (snap' & E & Hf' & Hs);
      [by apply full_dump_entry|].
    exists snap'. split; [done|]. split; [done|]. intros id v. specialize (Hs id v). rewrite entry_dump_entry in Hs.
    destruct (entry snap' id v) as [x|].
    + destruct Hs as [Hs|(y & o' & Hy & Ho')].
      * case_decide as Hid; [|by left]. injection Hid as <- <-. injection Hs as <-.
        destruct (entry snap (obj_id o) (obj_version o)) eqn:E'; [by left|]. right.
        exists (key_encode (obj_id o) (obj_version o), b), o. split; [by left|]. by split; [split|].
      * right. exists y, o'. split; [by right|done].
    + destruct Hs as [Hs Hn]. case_decide as Hid; [done|]. split; [done|].
      intros y o' [->|Hy]%elem_of_cons; [|by apply Hn]. intros Ho' [<- <-].
      by rewrite (is_item_unique _ _ o Ho') in Hid.
Qed.

Lemma dump_shows s cf : cf_objects s = Ok cf → wf_cf cf →
  ∃ snap, rocks_dump_snapshot s = Ok snap ∧ shows cf snap ∧ full snap.
Proof.
  intros Hcf Hw. unfold rocks_dump_snapshot. rewrite Hcf. cbn [mbind result_mbind].
  destruct (dump_loop_spec (iterator_cf cf []) ∅) as (snap & E & Hf & Hs).
  - apply Forall_forall. intros x Hx. destruct (iterator_items _ _ _ Hw Hx) as (o & Ho & _). by exists o.
  - intros id vs. by rewrite lookup_empty.
  - exists snap. split; [done|]. split; [|done]. intros id v. specialize (Hs id v).
    unfold entry in Hs at 2 3. rewrite lookup_empty in Hs. csimpl.
    destruct (entry snap id v) as [x|].
    + destruct Hs as [?|(y & o & Hy & Ho & -> & <- & <-)]; [done|].
      rewrite decide_True by apply object_valid.
      destruct (iterator_items _ _ _ Hw Hy) as (o' & Ho' & Hh & _).
      rewrite (is_item_unique _ _ _ Ho' Ho) in Hh. by rewrite Hh.
    + destruct Hs as [_ Hn]. case_decide as Hv; [|done]. destruct (held cf id v) as [o|] eqn:Eh; [|done].
      destruct (held_keyed _ _ _ _ Hw Hv Eh) as [H1 H2].
      destruct (held_item _ _ _ _ [] Hw Hv Eh (bytes_le_nil _)) as (x & Hx & Ho').
      destruct (iterator_items _ _ _ Hw Hx) as (o' & Ho'' & Hh & _).
      destruct (Hn x o); done.
Qed.

(** ** Scans *)
Lemma valid_at id v v' : key_valid id v → (v' < 2 ^ 64)%N → key_valid id v'.
Proof. by intros [? _]. Qed.

Lemma item_prefix id x o : key_valid id 0 → is_item x o →
  id_encode id `prefix_of` x.1 ↔ obj_id o = id.
Proof.
  intros Hv [_ ->]. destruct (object_valid o) as [? Hov]. rewrite id_prefix; [done|by eapply valid_at|done].
Qed.
Lemma item_start id x o : key_valid id 0 → is_item x o → obj_id o = id → bytes_le (key_encode id 0) x.1.
Proof. intros Hv [_ ->] <-. apply key_order; [done|apply object_valid|lia]. Qed.
Lemma item_order id x y o o' : is_item x o → is_item y o' → obj_id o = id → obj_id o' = id →
  bytes_le x.1 y.1 → (obj_version o ≤ obj_version o')%N.
Proof.
  intros [_ ->] [_ ->] H H'. pose proof (object_valid o) as Hv. pose proof (object_valid o') as Hv'.
  rewrite H in *. rewrite H' in *. by apply key_order.
Qed.
Lemma item_keyed x o o' : is_item x o → is_item x o' → (obj_id o = obj_id o' ∧ obj_version o = obj_version o').
Proof. intros H H'. by rewrite (is_item_unique _ _ _ H H'). Qed.

(** Once a key of another id is met, no key of the id follows. *)
Lemma scan_past id x l : key_valid id 0 → bytes_le (key_encode id 0) x.1 → (∀ y, y ∈ l → bytes_le x.1 y.1) →
  ¬ id_encode id `prefix_of` x.1 → ∀ y o, y ∈ x :: l → is_item y o → obj_id o ≠ id.
Proof.
  intros Hv Hs Hl Hx y o [->|Hy]%elem_of_cons Ho Hid; [by apply Hx, (item_prefix _ _ o)|].
  apply Hx. eapply (prefix_between _ (key_encode id 0) _ y.1).
  - by apply id_prefix.
  - by apply (item_prefix _ _ o).
  - done.
  - by apply Hl.
Qed.

Definition newest_item (id : MoveAddress) (b : N) (items : list (Bytes * Bytes)) (found r : option Object) : Prop :=
  (∃ x o, x ∈ items ∧ is_item x o ∧ obj_id o = id ∧ (obj_version o ≤ b)%N ∧ r = Some o ∧
     ∀ y o', y ∈ items → is_item y o' → obj_id o' = id → (obj_version o' ≤ b)%N → (obj_version o' ≤ obj_version o)%N) ∨
  r = found ∧ ∀ y o', y ∈ items → is_item y o' → obj_id o' = id → (b < obj_version o')%N.

Lemma upperbound_loop_spec id b items found : key_valid id 0 →
  Forall (λ x, ∃ o, is_item x o) items → StronglySorted (λ x y, bytes_le x.1 y.1) items →
  (∀ x, x ∈ items → bytes_le (key_encode id 0) x.1) →
  ∃ r, upperbound_loop (id_encode id) b items found = Ok r ∧ newest_item id b items found r.
Proof.
  intros Hv Hi. revert found. induction Hi as [|[k w] items (o & Ho) _ IH]; intros found Hs Hst.
  - exists found. split; [done|]. right. split; [done|]. by intros ? ? ?%not_elem_of_nil.
  - apply StronglySorted_inv in Hs as [Hs Hall]. rewrite Forall_forall in Hall. cbn [upperbound_loop].
    pose proof (item_prefix id _ _ Hv Ho) as Hpre. simpl in Hpre.
    unfold starts_with. case_bool_decide as Hp; cbn [negb].
    2: { exists found. split; [done|]. right. split; [done|]. intros y o' Hy Ho' Hid. exfalso.
         eapply (scan_past id (k, w) items); [done|by apply Hst; left|done|done|exact Hy|done|done]. }
    apply Hpre in Hp as Hid. pose proof Ho as [Hd Hk]. simpl in Hd, Hk.
    assert (key_decode k = Ok (obj_id o, obj_version o)) as ->
      by (rewrite Hk; apply key_decode_encode, object_valid). cbn [mbind result_mbind].
    destruct (N.ltb_spec b (obj_version o)) as [Hlt|Hle].
    + exists found. split; [done|]. right. split; [done|]. intros y o' [->|Hy]%elem_of_cons Ho' Hid'.
      * by destruct (item_keyed _ _ _ Ho Ho') as [_ <-].
      * eapply N.lt_le_trans; [exact Hlt|]. by eapply (item_order id (k, w) y); [done..|apply Hall].
    + rewrite Hd. destruct (IH (Some o) Hs) as (r & E & H); [intros x Hx; apply Hst; by right|].
      exists r. split; [done|]. left. destruct H as [(x & o' & Hx & Ho' & H1 & H2 & H3 & Hm)|[-> Hn]].
      * exists x, o'. split_and!; [by right|done..|]. intros y o2 [->|Hy]%elem_of_cons Ho2 Hid2 Hb; [|by eapply Hm].
        destruct (item_keyed _ _ _ Ho Ho2) as [_ <-]. by eapply (item_order id (k, w) x); [done..|apply Hall].
      * exists (k, w), o. split_and!; [by left|done..|]. intros y o2 [->|Hy]%elem_of_cons Ho2 Hid2 Hb.
        -- by destruct (item_keyed _ _ _ Ho Ho2) as [_ <-].
        -- specialize (Hn _ _ Hy Ho2 Hid2). lia.
Qed.

Lemma shows_item cf snap start x o : wf_cf cf → shows cf snap → x ∈ iterator_cf cf start → is_item x o →
  entry snap (obj_id o) (obj_version o) = Some (Some o).
Proof.
  intros Hw Hs Hx Ho. destruct (iterator_items _ _ _ Hw Hx) as (o' & Ho' & Hh & _).
  rewrite (is_item_unique _ _ _ Ho' Ho) in Hh. rewrite Hs, decide_True by apply object_valid. by rewrite Hh.
Qed.
Lemma shows_entry cf snap id v x start : wf_cf cf → shows cf snap → entry snap id v = Some x →
  bytes_le start (key_encode id v) →
  ∃ o y, x = Some o ∧ obj_id o = id ∧ obj_version o = v ∧ y ∈ iterator_cf cf start ∧ is_item y o.
Proof.
  intros Hw Hs He Hst. rewrite Hs in He. case_decide as Hv; [|done].
  destruct (held cf id v) as [o|] eqn:Eh; [|done]. simplify_eq/=.
  destruct (held_keyed _ _ _ _ Hw Hv Eh) as [H1 H2].
  destruct (held_item _ _ _ _ start Hw Hv Eh Hst) as (y & Hy & Ho).
  destruct (iterator_items _ _ _ Hw Hy) as (o' & Ho' & Hh & _).
  exists o, y. split_and!; try done.
Qed.

(** The scan of an id is the lookup of the snapshot. *)
Lemma upperbound_shows s cf snap id b : cf_objects s = Ok cf → wf_cf cf → shows cf snap → key_valid id 0 →
  get_object_upperbound id b s = Ok (object_resolved_upperbound snap id b).
Proof.
  intros Hcf Hw Hs Hv. unfold get_object_upperbound. rewrite Hcf. cbn [mbind result_mbind].
  destruct (upperbound_loop_spec id b (iterator_cf cf (key_encode id 0)) None Hv) as (r & -> & Hr).
  - apply Forall_forall. intros x Hx. destruct (iterator_items _ _ _ Hw Hx) as (o & Ho & _). by exists o.
  - apply iterator_sorted.
  - intros [k w] Hx. by apply iterator_elem in Hx as [_ Hx].
  - f_equal. symmetry. unfold object_resolved_upperbound.
    assert (∀ v x, entry snap id v = Some x → ∃ o y, x = Some o ∧ obj_id o = id ∧ obj_version o = v ∧
      y ∈ iterator_cf cf (key_encode id 0) ∧ is_item y o) as Hent.
    { intros v x He. apply (shows_entry cf snap); [done..|]. rewrite Hs in He. case_decide; [|done].
      apply key_order; [done|done|lia]. }
    destruct Hr as [(x & o & Hx & Ho & <- & Hb & -> & Hm)|[-> Hn]].
    + rewrite (resolve_newest _ _ _ (obj_version o) (Some o)); [done|]. split_and!; [by eapply shows_item|done|].
      intros v' Hv' [z Hz]. apply Hent in Hz as (o' & y & -> & H1 & <- & Hy & Ho'). by eapply Hm.
    + rewrite resolve_unbound; [done|]. intros v Hvb. destruct (entry snap id v) as [x|] eqn:He; [|done].
      apply Hent in He as (o' & y & -> & H1 & <- & Hy & Ho'). specialize (Hn _ _ Hy Ho' H1). lia.
Qed.
Lemma exact_shows s cf snap id v : cf_objects s = Ok cf → wf_cf cf → shows cf snap → key_valid id v →
  get_object_exact id v s = Ok (object_exact_version snap id v).
Proof.
  intros Hcf Hw Hs Hv. unfold get_object_exact, object_exact_version. rewrite Hcf, Hs, decide_True by done.
  unfold held. cbn [mbind result_mbind]. destruct (get_cf cf (key_encode id v)) as [w|] eqn:E; [|done].
  destruct (Hw _ _ E) as (o & Hd & _). simpl in Hd |- *. by rewrite Hd.
Qed.

(** ** A store and its snapshot *)
Definition images (s : RocksCachedStore) (snap : CachedSnapshot) : Prop :=
  ∃ cf, cf_objects s = Ok cf ∧ wf_cf cf ∧ shows cf snap.

Lemma dump_images s snap : wf_store s → rocks_dump_snapshot s = Ok snap → images s snap ∧ full snap.
Proof.
  intros Hw Hd. destruct (cf_objects s) as [cf|] eqn:E.
  - destruct (dump_shows s cf E) as (snap' & E' & Hs & Hf); [by apply Hw|]. rewrite Hd in E'.
    injection E' as <-. split; [|done]. exists cf. split_and!; auto.
  - unfold rocks_dump_snapshot in Hd. by rewrite E in Hd.
Qed.
Lemma images_dump s snap : images s snap →
  wf_store s ∧ ∃ snap', rocks_dump_snapshot s = Ok snap' ∧ full snap' ∧ ∀ id v, entry snap' id v = entry snap id v.
Proof.
  intros (cf & E & Hw & Hs). split; [intros cf' E'; rewrite E in E'; by injection E' as <-|].
  destruct (dump_shows s cf E Hw) as (snap' & E' & Hs' & Hf). exists snap'. split_and!; [done|done|].
  intros id v. by rewrite Hs, Hs'.
Qed.

Lemma images_live s snap id v x : images s snap → entry snap id v = Some x →
  ∃ o, x = Some o ∧ obj_id o = id ∧ obj_version o = v.
Proof.
  intros (cf & _ & Hw & Hs) He. rewrite Hs in He. case_decide as Hv; [|done].
  destruct (held cf id v) as [o|] eqn:Eh; [|done]. simplify_eq/=. exists o. split; [done|].
  by eapply held_keyed.
Qed.

Lemma images_batch s snap os dels snap' cf : cf_objects s = Ok cf → images s snap → Forall is_delete dels →
  (∀ id v, entry snap' id v =
    if decide (key_valid id v ∧ DeleteCf (key_encode id v) ∈ dels) then None
    else match written (put_writes os) id v with Some x => Some x | None => entry snap id v end) →
  images (set_objects (write (map put_op os ++ dels) cf) s) snap'.
Proof.
  intros E (cf' & E' & Hw & Hs) Hd He. rewrite E in E'. injection E' as <-.
  eexists. split; [reflexivity|]. split; [by apply wf_batch|]. by eapply shows_batch.
Qed.

Lemma put_images s snap o : images s snap →
  ∃ s', put_object o s = (Ok (), s') ∧ images s' (if rs_ro s then snap else cache_object_only o snap).
Proof.
  intros Hi. unfold put_object. destruct (rs_ro s); [by exists s|].
  pose proof Hi as (cf & E & _). rewrite E. eexists. split; [reflexivity|].
  apply (images_batch s snap [o] []); [done|done|constructor|]. intros id v.
  rewrite decide_False by (intros [_ H]; by apply not_elem_of_nil in H).
  unfold cache_object_only. rewrite entry_cache_query. simpl. by case_decide.
Qed.

(** ** Reads are those of the cache in memory *)
Definition live (e : option (option Object)) : option (option Object) :=
  match e with Some (Some o) => Some (Some o) | _ => None end.
Lemma live_entry s snap id v : images s snap → live (entry snap id v) = entry snap id v.
Proof.
  intros Hi. destruct (entry snap id v) as [x|] eqn:E; [|done].
  by destruct (images_live _ _ _ _ _ Hi E) as (o & -> & _).
Qed.

Definition read_valid (c : ReadCall) : Prop :=
  match c with
  | ReadPackage id | ReadObject id | ReadChild _ id _ => key_valid id 0
  | ReadByKey id v | ReadReceived _ id v _ => key_valid id v
  end.

(** The answer [r] and the state after it, as the cache in memory has them. *)
Definition same_read (s : RocksCachedStore) (snap : CachedSnapshot)
    (a : result (option Object) * RocksCachedStore) (mem : result (option Object) * CachedSnapshot) : Prop :=
  a.1 = mem.1 ∧ ∃ snap', images a.2 snap' ∧
    ∀ id v, entry snap' id v = if rs_ro s then entry snap id v else live (entry mem.2 id v).

Lemma same_hit s snap r : images s snap → same_read s snap (r, s) (r, snap).
Proof.
  intros Hi. split; [done|]. exists snap. split; [done|]. intros id v. rewrite (live_entry s) by done. by destruct (rs_ro s).
Qed.
Lemma same_put s snap o r s' : images s snap → put_object o s = (Ok (), s') →
  same_read s snap (r, s') (r, cache_object_only o snap).
Proof.
  intros Hi E. destruct (put_images s snap o Hi) as (s1 & E1 & Hi1). rewrite E in E1. injection E1 as <-.
  split; [done|]. eexists. split; [exact Hi1|]. intros id v. destruct (rs_ro s); [done|].
  cbn [snd]. by rewrite (live_entry s').
Qed.
Lemma same_fetch s snap f : images s snap →
  same_read s snap (fetch f s) (match f with
    | Err => (Err, snap) | Ok (Some hit) => (Ok (Some hit), cache_object_only hit snap) | Ok None => (Ok None, snap) end).
Proof.
  intros Hi. destruct f as [[o|]|]; [|by apply same_hit..]. unfold fetch.
  destruct (put_images s snap o Hi) as (s' & E & _). rewrite E. by apply same_put.
Qed.
Lemma same_fetch_logged s snap f : images s snap →
  same_read s snap (let '(r, s) := fetch_logged f s in (Ok r, s)) (let '(r, s) := (match f with
    | Some hit => (Some hit, cache_object_only hit snap) | None => (None, snap) end) in (Ok r, s)).
Proof.
  intros Hi. destruct f as [o|]; [|by apply same_hit]. unfold fetch_logged.
  destruct (put_images s snap o Hi) as (s' & E & _). rewrite E. by apply same_put.
Qed.

Lemma child_miss_entry s snap id b : images s snap →
  is_child_miss (object_resolve_upperbound_details snap id b) b → entry snap id b = None.
Proof.
  intros Hi Hm. destruct (entry snap id b) as [x|] eqn:E; [|done].
  destruct (images_live _ _ _ _ _ Hi E) as (o & -> & _ & Hv).
  assert (newest snap id b b (Some o)) as Hn by (split_and!; [done|lia|done]).
  by rewrite (resolve_newest _ _ _ _ _ Hn) in Hm.
Qed.
Lemma same_child_miss store s snap parent id b : images s snap → entry snap id b = None →
  same_read s snap (fetch (bk_read_child_object store parent id b) s) (read_child_miss store parent id b snap).
Proof.
  intros Hi He. pose proof (same_fetch s snap (bk_read_child_object store parent id b) Hi) as H.
  unfold read_child_miss. destruct (bk_read_child_object store parent id b) as [[o|]|]; [done| |done].
  destruct H as [H1 (snap' & H2 & H3)]. split; [done|]. exists snap'. split; [done|]. intros id' v'.
  rewrite H3. destruct (rs_ro s); [done|]. simpl. rewrite entry_cache_query. case_decide; [|done].
  simplify_eq. by rewrite He.
Qed.

Lemma read_same store c s snap : images s snap → read_valid c →
  same_read s snap (rocks_read store c s) (read store c snap).
Proof.
  intros Hi Hc. pose proof Hi as (cf & E & Hw & Hs). destruct c as [id|id|id v|owner id v e|parent id b]; simpl in *.
  - unfold rocks_get_package_object, get_package_object, get_object_by_id_db, object_id_cached.
    rewrite (upperbound_shows s cf snap) by done. destruct (object_resolved_upperbound snap id u64_max).
    + by apply same_hit.
    + by apply same_fetch.
  - unfold rocks_get_object, get_object, get_object_by_id_db, object_id_cached.
    rewrite (upperbound_shows s cf snap) by done. destruct (object_resolved_upperbound snap id u64_max).
    + by apply same_hit.
    + by apply same_fetch_logged.
  - unfold rocks_get_object_by_key, get_object_by_key. rewrite (exact_shows s cf snap) by done.
    destruct (object_exact_version snap id v); [by apply same_hit|by apply same_fetch_logged].
  - unfold rocks_get_object_received_at_version, get_object_received_at_version.
    rewrite (exact_shows s cf snap) by done.
    destruct (object_exact_version snap id v); [by apply same_hit|by apply same_fetch].
  - unfold rocks_read_child_object. rewrite (upperbound_shows s cf snap) by done.
    pose proof (child_miss_entry s snap id b Hi) as Hm. pose proof (resolve_spec snap id b) as Hr.
    unfold read_child_object, object_resolved_upperbound.
    destruct (object_resolve_upperbound_details snap id b) as [| |o]; simpl.
    + apply same_child_miss; auto.
    + destruct Hr as (v & Hr & _). by destruct (images_live _ _ _ _ _ Hi Hr) as (? & ? & _).
    + destruct (N.eqb_spec (obj_version o) b); [by apply same_hit|]. apply same_child_miss; auto.
Qed.

(** C14: the file cache answers as the cache in memory: from the snapshot it
    dumps, every read - of a package, an object, a version, a received or a
    child object - gives what the same read of the in-memory cache gives, and
    afterwards it dumps the snapshot that cache would have, without the marks
    for absent children; a read-only store stays as it is. *)
Theorem rocks_read_refines store c s snap r s' : wf_store s → rocks_dump_snapshot s = Ok snap → read_valid c →
  rocks_read store c s = (r, s') →
  wf_store s' ∧ r = (read store c snap).1 ∧
  ∃ snap', rocks_dump_snapshot s' = Ok snap' ∧
    ∀ id v, entry snap' id v = if rs_ro s then entry snap id v else live (entry (read store c snap).2 id v).
Proof.
  intros Hw Hd Hc E. destruct (dump_images s snap Hw Hd) as [Hi _].
  destruct (read_same store c s snap Hi Hc) as [H1 (snap1 & H2 & H3)]. rewrite E in H1, H2. simpl in *.
  destruct (images_dump s' snap1 H2) as [Hw' (snap' & Hd' & _ & He)]. split_and!; [done|done|].
  exists snap'. split; [done|]. intros id v. by rewrite He.
Qed.

(** ** Snapshots go round *)
Definition snapshot_objects (snap : CachedSnapshot) : list Object :=
  flat_map (λ x, omap snd (btree_iter x.2)) (address_iter snap).

Lemma omap_put (l : list (N * option Object)) : omap (λ y, put_op <$> y.2) l = map put_op (omap snd l).
Proof. induction l as [|[v [o|]] l IH]; csimpl; by rewrite ?IH. Qed.
Lemma restore_batch_objects snap : restore_batch snap = map put_op (snapshot_objects snap).
Proof.
  unfold restore_batch, snapshot_objects. induction (address_iter snap) as [|x l IH]; [done|]. simpl.
  by rewrite map_app, omap_put, IH.
Qed.
Lemma elem_of_snapshot_objects snap o : o ∈ snapshot_objects snap ↔ ∃ id v, entry snap id v = Some (Some o).
Proof.
  unfold snapshot_objects. rewrite list_elem_of_In, in_flat_map. setoid_rewrite <-list_elem_of_In. split.
  - intros ([id vs] & Hid%elem_of_address_iter & Ho). apply list_elem_of_omap in Ho as ([v x] & Hv & Hx).
    apply elem_of_btree_iter in Hv. simpl in *. subst x. exists id, v. unfold entry. by rewrite Hid.
  - intros (id & v & He). unfold entry in He. apply bind_Some in He as (vs & Hid & Hv). exists (id, vs).
    split; [by apply elem_of_address_iter|]. apply list_elem_of_omap. exists (v, Some o).
    split; [by apply elem_of_btree_iter|done].
Qed.
Lemma written_snapshot snap id v : keyed snap →
  written (put_writes (snapshot_objects snap)) id v = live (entry snap id v).
Proof.
  intros Hk. destruct (written _ id v) as [x|] eqn:E.
  - apply written_puts in E as (o & -> & Ho & <- & <-).
    apply elem_of_snapshot_objects in Ho as (id & v & He). by destruct (Hk _ _ _ He) as [-> ->]; rewrite He.
  - destruct (entry snap id v) as [[o|]|] eqn:He; [|done..]. exfalso.
    destruct (Hk _ _ _ He) as [Hid Hv]. assert (is_Some (written (put_writes (snapshot_objects snap)) id v)) as [? H].
    { apply (elem_written _ _ _ (Some o)). unfold put_writes. apply list_elem_of_fmap. exists o.
      rewrite Hid, Hv. split; [done|]. apply elem_of_snapshot_objects. by exists id, v. }
    by rewrite E in H.
Qed.

(** C27: snapshots go round: restoring a snapshot into a writable store puts
    its objects over the store's and keeps all others - removals recorded in
    the snapshot are not carried over -, and a snapshot that was dumped and is
    restored into an empty store is dumped again as it was. *)
Theorem rocks_snapshot_round_trip s0 snap0 snap : wf_store s0 → rs_ro s0 = false →
  rocks_dump_snapshot s0 = Ok snap0 → keyed snap →
  ∃ s1 snap1, rocks_restore_snapshot snap s0 = Ok s1 ∧ wf_store s1 ∧ rocks_dump_snapshot s1 = Ok snap1 ∧
    (∀ id v, entry snap1 id v = match live (entry snap id v) with Some x => Some x | None => entry snap0 id v end) ∧
    (∀ s, wf_store s → rocks_dump_snapshot s = Ok snap → snap0 = ∅ → snap1 = snap).
Proof.
  intros Hw Hro Hd Hk. destruct (dump_images s0 snap0 Hw Hd) as [Hi _]. pose proof Hi as (cf & E & _).
  unfold rocks_restore_snapshot. rewrite Hro, E. cbn [mbind result_mbind]. rewrite restore_batch_objects.
  rewrite <-(app_nil_r (map put_op _)).
  set (s1 := set_objects _ s0).
  assert (∃ snapm, images s1 snapm ∧ ∀ id v, entry snapm id v =
    match live (entry snap id v) with Some x => Some x | None => entry snap0 id v end) as (snapm & Him & Hem).
  { exists (apply_writes (put_writes (snapshot_objects snap)) snap0). split.
    - apply (images_batch s0 snap0); [done|done|constructor|]. intros id v.
      rewrite decide_False by (intros [_ H]; by apply not_elem_of_nil in H). apply entry_apply_writes.
    - intros id v. rewrite entry_apply_writes, written_snapshot by done. done. }
  destruct (images_dump s1 snapm Him) as (Hw1 & snap1 & Hd1 & Hf1 & He1). exists s1, snap1. split; [done|]. split; [done|]. split; [done|]. split.
  - intros id v. by rewrite He1.
  - intros s Hws Hds ->. destruct (dump_images s snap Hws Hds) as [His Hf]. apply full_eq; [done..|].
    intros id v. rewrite He1, Hem, (live_entry s) by done. unfold entry at 2. rewrite lookup_empty.
    by destruct (entry snap id v).
Qed.

(** ** Commits *)
Lemma delete_loop_elem id items k : key_valid id 0 → Forall (λ x, ∃ o, is_item x o) items →
  StronglySorted (λ x y, bytes_le x.1 y.1) items → (∀ x, x ∈ items → bytes_le (key_encode id 0) x.1) →
  DeleteCf k ∈ delete_loop (id_encode id) items ↔ ∃ x o, x ∈ items ∧ is_item x o ∧ obj_id o = id ∧ x.1 = k.
Proof.
  intros Hv Hi. induction Hi as [|[k' w] items (o & Ho) _ IH]; intros Hs Hst.
  - split; [by intros ?%not_elem_of_nil|]. by intros (? & ? & ?%not_elem_of_nil & _).
  - apply StronglySorted_inv in Hs as [Hs Hall]. rewrite Forall_forall in Hall. cbn [delete_loop].
    pose proof (item_prefix id _ _ Hv Ho) as Hpre. simpl in Hpre.
    unfold starts_with. case_bool_decide as Hp; cbn [negb].
    + rewrite elem_of_cons, IH; [|done|intros x Hx; apply Hst; by right]. split.
      * intros [[= ->]|(x & o' & Hx & Ho' & Hid & <-)].
        -- exists (k', w), o. split_and!; [by left|done|by apply Hpre|done].
        -- exists x, o'. split_and!; [by right|done..].
      * intros (x & o' & [->|Hx]%elem_of_cons & Ho' & Hid & <-); [by left|]. right. by exists x, o'.
    + split; [by intros ?%not_elem_of_nil|]. intros (x & o' & Hx & Ho' & Hid & _). exfalso.
      eapply (scan_past id (k', w) items); [done|by apply Hst; left|done|done|exact Hx|done|done].
Qed.
Lemma delete_loop_deletes p items : Forall is_delete (delete_loop p items).
Proof.
  induction items as [|[k w] items IH]; [constructor|]. simpl. destruct (negb _); [constructor|].
  constructor; [by exists k|done].
Qed.

(** The versions of an id that are deleted are those the snapshot has. *)
Lemma delete_versions_shows cf snap id id' v : wf_cf cf → shows cf snap → key_valid id 0 → key_valid id' v →
  DeleteCf (key_encode id' v) ∈ delete_versions cf id ↔ id' = id ∧ is_Some (entry snap id' v).
Proof.
  intros Hw Hs Hv Hv'. unfold delete_versions. rewrite delete_loop_elem; [|done| | |].
  - split.
    + intros (x & o & Hx & Ho & Hid & Hk). pose proof (shows_item _ _ _ _ _ Hw Hs Hx Ho) as He.
      pose proof Ho as [_ Hk']. rewrite Hk in Hk'. apply key_inj in Hk' as [E1 E2]; [|done|apply object_valid].
      rewrite E1, E2. split; [done|]. rewrite He. done.
    + intros [-> [x He]]. apply (shows_entry cf snap id v x (key_encode id 0)) in He as (o & y & _ & H1 & H2 & Hy & Ho);
        [|done|done|apply key_order; [done|done|lia]].
      exists y, o. split_and!; [done..|]. destruct Ho as [_ ->]. by rewrite H1, H2.
  - apply Forall_forall. intros x Hx. destruct (iterator_items _ _ _ Hw Hx) as (o & Ho & _). by exists o.
  - apply iterator_sorted.
  - intros [k w] Hx. by apply iterator_elem in Hx as [_ Hx].
Qed.

Definition its_objects (st : InnerTemporaryStore) : list Object := (address_iter (its_written st)).*2.
(** The object a transaction writes at a version. *)
Definition writes_at (st : InnerTemporaryStore) (id : MoveAddress) (v : N) : option Object :=
  o ← its_written st !! id; if decide (obj_version o = v) then Some o else None.
(** Written objects are listed under their ids. *)
Definition its_keyed (st : InnerTemporaryStore) : Prop := map_Forall (λ id o, obj_id o = id) (its_written st).

Lemma written_its st id v (os : list Object) : its_keyed st → (∀ o, o ∈ os ↔ ∃ id, its_written st !! id = Some o) →
  written (put_writes os) id v = Some <$> writes_at st id v.
Proof.
  intros Hk Hos. destruct (written _ id v) as [x|] eqn:E.
  - apply written_puts in E as (o & -> & Ho & <- & <-). apply Hos in Ho as [id Ho].
    unfold writes_at. pose proof (Hk _ _ Ho) as Hid. simpl in Hid. rewrite Hid, Ho. simpl. by rewrite decide_True.
  - destruct (writes_at st id v) as [o|] eqn:Ew; [|done]. exfalso. unfold writes_at in Ew.
    apply bind_Some in Ew as (o' & Ho & Ew). case_decide as Hv; [|done]. injection Ew as ->.
    pose proof (Hk _ _ Ho) as Hid. simpl in Hid.
    assert (is_Some (written (put_writes os) id v)) as [? H]; [|by rewrite E in H].
    apply (elem_written _ _ _ (Some o)). unfold put_writes. apply list_elem_of_fmap. exists o.
    rewrite Hid, Hv. split; [done|]. apply Hos. by exists id.
Qed.

Lemma elem_of_its_objects st o : o ∈ its_objects st ↔ ∃ id, its_written st !! id = Some o.
Proof.
  unfold its_objects. rewrite list_elem_of_fmap. split.
  - intros ([id o'] & -> & H%elem_of_address_iter). by exists id.
  - intros [id H]. exists (id, o). split; [done|]. by apply elem_of_address_iter.
Qed.

(** The two commits go wrong together. *)
Lemma gone_writes st fx : commit_writes st fx =
  (gone ← gone_ids st fx; ended ← ended_ids (fx_stream_ended fx) (take_inputs (removed_refs fx) (its_input_objects st)).2
     (its_stream_ended_consensus_objects st);
   Ret (map (λ x, (obj_id x.2, obj_version x.2, Some x.2)) (map_to_list (its_written st))
     ++ map (λ x, (x.1, x.2, None)) (take_inputs (removed_refs fx) (its_input_objects st)).1
     ++ map (λ id, (id, its_lamport_version st, None)) ended)).
Proof.
  unfold commit_writes, gone_ids. destruct (take_inputs _ _) as [removed inputs]. simpl.
  by destruct (ended_ids _ _ _).
Qed.

(** At ids that stay the cache in memory holds the same. *)
Lemma memory_commit st fx snap gone ws id v : its_keyed st → gone_ids st fx = Ret gone → commit_writes st fx = Ret ws →
  id ∉ gone → entry (apply_writes ws snap) id v =
    match writes_at st id v with Some o => Some (Some o) | None => entry snap id v end.
Proof.
  intros Hk Hg Hws Hid. rewrite entry_apply_writes. rewrite gone_writes, Hg in Hws. unfold gone_ids in Hg.
  destruct (take_inputs _ _) as [removed inputs]. simpl in *.
  destruct (ended_ids _ _ _) as [ended|]; [|done]. simpl in *. injection Hg as <-. injection Hws as <-.
  rewrite !written_app.
  assert (∀ l : list (MoveAddress * N * option Object), Forall (λ w, w.1.1 ≠ id) l → written l id v = None) as Hn.
  { intros l Hl. destruct (written l id v) as [x|] eqn:E; [|done]. apply written_elem in E.
    rewrite Forall_forall in Hl. by destruct (Hl _ E). }
  rewrite (Hn (map (λ id, (id, _, None)) ended)), (Hn (map (λ x, (x.1, x.2, None)) removed)).
  - rewrite <-(map_map (λ x, x.2) (λ o : Object, (obj_id o, obj_version o, Some o))).
    fold (put_writes (map (λ x, x.2) (map_to_list (its_written st)))).
    rewrite (written_its st); [by destruct (writes_at st id v)|done|].
    intros o. rewrite list_elem_of_fmap. split.
    + intros ([id' o'] & -> & H%elem_of_map_to_list). by exists id'.
    + intros [id' H]. exists (id', o). split; [done|]. by apply elem_of_map_to_list.
  - apply Forall_forall. intros w (x & -> & Hx)%list_elem_of_fmap. simpl. intros <-. apply Hid.
    apply elem_of_app. left. apply list_elem_of_fmap. by exists x.
  - apply Forall_forall. intros w (x & -> & Hx)%list_elem_of_fmap. simpl. intros <-. apply Hid.
    apply elem_of_app. by right.
Qed.

Lemma flat_deletes cf ids : Forall is_delete (flat_map (delete_versions cf) ids).
Proof. induction ids; [constructor|]. simpl. apply Forall_app. split; [apply delete_loop_deletes|done]. Qed.
Lemma flat_delete_elem cf snap ids id v : wf_cf cf → shows cf snap → Forall (λ id, key_valid id 0) ids →
  key_valid id v →
  DeleteCf (key_encode id v) ∈ flat_map (delete_versions cf) ids ↔ id ∈ ids ∧ is_Some (entry snap id v).
Proof.
  intros Hw Hs Hv Hid. induction Hv as [|i ids Hi _ IH]; simpl.
  - split; [by intros ?%not_elem_of_nil|by intros [?%not_elem_of_nil _]].
  - rewrite elem_of_app, IH, (delete_versions_shows cf snap), elem_of_cons by done. naive_solver.
Qed.

(** A commit to the file cache: it panics exactly when the commit to the
    cache in memory does; otherwise the new snapshot has the objects the
    transaction wrote at their versions and the old entries elsewhere - as the
    cache in memory has -, except that no version the store had of an id that
    was removed, left consensus or ended its stream is left. *)
Theorem rocks_commit_exact st fx s snap : wf_store s → rs_ro s = false → rocks_dump_snapshot s = Ok snap →
  its_keyed st → (∀ gone, gone_ids st fx = Ret gone → Forall (λ id, key_valid id 0) gone) →
  match commit_store st fx snap with
  | Panic => rocks_commit_store st fx s = Panic
  | Ret mem =>
      ∃ gone s' snap', gone_ids st fx = Ret gone ∧ rocks_commit_store st fx s = Ret (Ok (), s') ∧
        wf_store s' ∧ rocks_dump_snapshot s' = Ok snap' ∧
        (∀ id v, id ∉ gone → entry snap' id v = entry mem id v) ∧
        (∀ id v, id ∈ gone → entry snap' id v =
           if decide (is_Some (entry snap id v)) then None else Some <$> writes_at st id v)
  end.
Proof.
  intros Hw Hro Hd Hk Hgv. destruct (dump_images s snap Hw Hd) as [Hi _]. pose proof Hi as (cf & E & Hwc & Hs).
  unfold commit_store, rocks_commit_store. rewrite Hro, E. unfold commit_batch.
  destruct (commit_writes st fx) as [ws|] eqn:Ews; pose proof Ews as Eg; rewrite gone_writes in Eg;
    destruct (gone_ids st fx) as [gone|] eqn:Egone; [|done| |done].
  2: { exfalso. unfold gone_ids in Egone. destruct (take_inputs _ _). simpl in *.
       by destruct (ended_ids _ _ _). }
  cbn [mbind panics_mbind panics_bind]. specialize (Hgv _ eq_refl).
  rewrite <-(map_map (λ x, x.2) put_op). change (map (λ x, x.2) _) with (its_objects st).
  set (s1 := set_objects _ s). set (dels := flat_map (delete_versions cf) gone) in *.
  set (snapm id v := if decide (id ∈ gone ∧ is_Some (entry snap id v)) then None
    else match writes_at st id v with Some o => Some (Some o) | None => entry snap id v end).
  destruct (dump_shows s1 (write (map put_op (its_objects st) ++ dels) cf)) as (snap' & Hd' & Hs' & _);
    [done|apply wf_batch; [apply flat_deletes|done]|].
  assert (∀ id v, entry snap' id v = snapm id v) as He.
  { intros id v. rewrite Hs'. unfold snapm. destruct (decide (key_valid id v)) as [Hv|Hv].
    - rewrite held_batch by (done || apply flat_deletes).
      rewrite (written_its st) by (done || intros; apply elem_of_its_objects).
      rewrite (bool_decide_ext _ _ (flat_delete_elem cf snap gone id v Hwc Hs Hgv Hv)).
      destruct (decide (id ∈ gone ∧ is_Some (entry snap id v))) as [Hg|Hg];
        [by rewrite bool_decide_true|rewrite bool_decide_false by done].
      destruct (writes_at st id v); [done|]. simpl. by rewrite Hs, decide_True.
    - rewrite decide_False by (intros [_ [x Hx]]; by rewrite Hs, decide_False in Hx).
      rewrite Hs, decide_False by done. destruct (writes_at st id v) as [o|] eqn:Eo; [|done]. exfalso. apply Hv. unfold writes_at in Eo.
      apply bind_Some in Eo as (o' & Ho & Eo). case_decide as Hov; [|done]. injection Eo as ->.
      pose proof (Hk _ _ Ho) as Hid. simpl in Hid. rewrite <-Hid, <-Hov. apply object_valid. }
  exists gone, s1, snap'. split_and!; [done|done| |done| |].
  - intros cf' E'. injection E' as <-. apply wf_batch; [apply flat_deletes|done].
  - intros id v Hid. rewrite He, (memory_commit st fx snap gone ws) by done. unfold snapm.
    by rewrite decide_False by naive_solver.
  - intros id v Hid. rewrite He. unfold snapm. destruct (decide (is_Some (entry snap id v))) as [Hx|Hx].
    + by rewrite decide_True.
    + rewrite decide_False by naive_solver. apply eq_None_not_Some in Hx. rewrite Hx. by destruct (writes_at st id v).
Qed.

(** ** Opening, listing, and a database without the column family *)

(** A store that was opened for a checkpoint is opened again for it, as it is,
    and for no other. *)
Theorem store_reopen disk cp s cp' ro : (cp < 2 ^ 64)%N → store_new disk cp false = Ok s →
  store_new (Some (rs_db s)) cp' ro = if (cp =? cp')%N then Ok (MkRocksStore (rs_db s) ro) else Err.
Proof.
  intros Hcp. unfold store_new at 1. destruct (open_db disk false) as [db|] eqn:Eo; cbn [mbind result_mbind]; [|done].
  assert (is_Some (db_objects db)) as [cf Hcf].
  { unfold open_db in Eo. destruct disk as [d|]; injection Eo as <-; simpl; eauto. }
  assert (∀ m, open_db (Some (MkDb m (db_objects db))) ro = Ok (MkDb m (db_objects db))) as Hopen.
  { intros m. unfold open_db. rewrite Hcf. by destruct ro. }
  destruct db as [[m|] objs]; cbn [db_meta db_objects] in *.
  - destruct (meta_decode m) as [c|] eqn:Em; cbn [mbind result_mbind]; [|done]. destruct (N.eqb_spec c cp) as [->|]; [|done].
    intros [= <-]. unfold store_new. simpl rs_db. rewrite Hopen. cbn [mbind result_mbind db_meta]. rewrite Em.
    cbn. by destruct (cp =? cp')%N.
  - intros [= <-]. unfold store_new. simpl rs_db. rewrite Hopen. cbn [mbind result_mbind db_meta].
    rewrite meta_decode_encode by done. cbn. by destruct (cp =? cp')%N.
Qed.

(** Ids are listed once per version. *)
Lemma list_ids_spec s snap : wf_store s → rocks_dump_snapshot s = Ok snap →
  ∃ ids, list_object_ids s = Ok ids ∧ ∀ id, id ∈ ids ↔ ∃ v, is_Some (entry snap id v).
Proof.
  intros Hw Hd. destruct (dump_images s snap Hw Hd) as [(cf & E & Hwc & Hs) _]. unfold list_object_ids.
  rewrite E. cbn [mbind result_mbind].
  assert (∀ items, (∀ x, x ∈ items → ∃ o, is_item x o) → ∃ ids, list_ids_loop items = Ok ids ∧
    ∀ id, id ∈ ids ↔ ∃ x o, x ∈ items ∧ is_item x o ∧ obj_id o = id) as Hl.
  { induction items as [|[k w] items IH]; intros Hi.
    - exists []. split; [done|]. intros id. split; [by intros ?%not_elem_of_nil|].
      by intros (? & ? & ?%not_elem_of_nil & _).
    - destruct (Hi (k, w)) as (o & Ho); [by left|]. destruct IH as (ids & El & Hids); [intros x Hx; apply Hi; by right|].
      exists (obj_id o :: ids). cbn [list_ids_loop]. pose proof Ho as [_ Hk]. simpl in Hk.
      rewrite Hk, key_decode_encode, <-Hk by apply object_valid. cbn [mbind result_mbind]. rewrite El.
      split; [done|]. intros id. rewrite elem_of_cons, Hids. split.
      + intros [->|(x & o' & Hx & Ho' & <-)]; [exists (k, w), o; split; [by left|done]|].
        exists x, o'. split; [by right|done].
      + intros (x & o' & [->|Hx]%elem_of_cons & Ho' & <-); [left|right; by exists x, o'].
        by rewrite (is_item_unique _ _ _ Ho' Ho). }
  destruct (Hl (iterator_cf cf [])) as (ids & El & Hids).
  { intros x Hx. destruct (iterator_items _ _ _ Hwc Hx) as (o & Ho & _). by exists o. }
  exists ids. split; [done|]. intros id. rewrite Hids. split.
  - intros (x & o & Hx & Ho & <-). exists (obj_version o). by erewrite shows_item.
  - intros (v & y & He). apply (shows_entry cf snap id v y []) in He as (o & x & _ & H1 & _ & Hx & Ho); [|done..].
    by exists x, o.
Qed.

(** Without the column family nothing is cached: reads of the object store ask
    the wrapped store every time, the others fail. *)
Lemma reads_without_objects store c s : db_objects (rs_db s) = None →
  rocks_read store c s =
    (match c with
     | ReadObject id => Ok (bk_get_object store id)
     | ReadByKey id v => Ok (bk_get_object_by_key store id v)
     | _ => Err
     end, s).
Proof.
  intros E. assert (cf_objects s = Err) as Ec by (unfold cf_objects; by rewrite E).
  assert (∀ id b, get_object_upperbound id b s = Err) as Hu by (intros; unfold get_object_upperbound; by rewrite Ec).
  assert (∀ id b, get_object_exact id b s = Err) as He by (intros; unfold get_object_exact; by rewrite Ec).
  assert (∀ f, fetch_logged f s = (f, s)) as Hf.
  { intros [o|]; [|done]. unfold fetch_logged, put_object. rewrite Ec. by destruct (rs_ro s). }
  destruct c; simpl.
  - unfold rocks_get_package_object, get_object_by_id_db. by rewrite Hu.
  - unfold rocks_get_object, get_object_by_id_db. by rewrite Hu, Hf.
  - unfold rocks_get_object_by_key. by rewrite He, Hf.
  - unfold rocks_get_object_received_at_version. by rewrite He.
  - unfold rocks_read_child_object. by rewrite Hu.
Qed.

Lemma wf_objects os : wf_cf (write (map put_op os ++ []) empty_cf).
Proof. apply wf_batch; [constructor|]. intros k b. by rewrite get_empty. Qed.
End spec.

(** ** Witnesses: objects that are an id and a version *)
#[local] Instance pair_objects : ObjectLib := {|
  Object := N * N;
  obj_id o := MkMoveAddress (o.1 mod 2 ^ 256);
  obj_version o := (o.2 mod 2 ^ 64)%N;
|}.
Lemma pair_valid (o : Object) : key_valid (obj_id o) (obj_version o).
Proof. destruct o as [i v]. split; by apply N.mod_lt. Qed.
Definition pair_decode (b : Bytes) : result (N * N) := match b with [i; v] => Ok (i, v) | _ => Err end.
Lemma pair_decode_encode (o : N * N) : pair_decode [o.1; o.2] = Ok o.
Proof. by destruct o. Qed.
#[local] Instance pair_codec : TableCodec := {|
  id_encode id := be_bytes 32 (addr_val id);
  key_encode := be_key;
  key_decode := be_unkey;
  table_encode (o : Object) := [o.1; o.2];
  table_decode := pair_decode;
  meta_encode n := [n];
  meta_decode b := match b with [n] => Ok n | _ => Err end;
  object_valid := pair_valid;
  key_decode_encode := be_unkey_key;
  id_prefix := be_prefix;
  key_order := be_order;
  table_decode_encode := pair_decode_encode;
  meta_decode_encode _ _ := eq_refl;
|}.

Definition demo_rocks (os : list (N * N)) : RocksCachedStore :=
  MkRocksStore (MkDb (Some [5%N]) (Some (write (map put_op os ++ []) empty_cf))) false.
Lemma demo_rocks_wf os : wf_store (demo_rocks os).
Proof.
  intros cf Hcf. assert (cf = write (map put_op os ++ []) empty_cf) as -> by (by injection Hcf). apply wf_objects.
Qed.
Abbreviation demo_id := (MkMoveAddress 7).
(** The wrapped store has version 1 of one object. *)
Definition demo_below : Backing := {|
  bk_get_package_object _ := Ok None;
  bk_get_object id := if decide (id = demo_id) then Some (7, 1)%N else None;
  bk_get_object_by_key id v := if decide (id = demo_id ∧ v = 1%N) then Some (7, 1)%N else None;
  bk_get_object_received_at_version _ _ _ _ := Err;
  bk_read_child_object _ id b := Ok (if decide (id = demo_id ∧ (1 ≤ b)%N) then Some (7, 1)%N else None);
|}.
Definition dumped (s : RocksCachedStore) : list (MoveAddress * list (N * option (N * N))) :=
  match rocks_dump_snapshot s with Ok snap => map (λ x, (x.1, btree_iter x.2)) (address_iter snap) | Err => [] end.

(** A child below version 2: the store has only version 3, so it is fetched. *)
Lemma rocks_read_refines_witness :
  ∃ snap, rocks_dump_snapshot (demo_rocks [(7, 3); (8, 2)]%N) = Ok snap ∧
    (rocks_read demo_below (ReadChild addr_zero demo_id 2) (demo_rocks [(7, 3); (8, 2)]%N)).1
      = (read demo_below (ReadChild addr_zero demo_id 2) snap).1 ∧
    dumped (rocks_read demo_below (ReadChild addr_zero demo_id 2) (demo_rocks [(7, 3); (8, 2)]%N)).2
      = [(demo_id, [(1, Some (7, 1)); (3, Some (7, 3))]); (MkMoveAddress 8, [(2, Some (8, 2))])]%N.
Proof.
  destruct (rocks_dump_snapshot (demo_rocks [(7, 3); (8, 2)]%N)) as [snap|] eqn:E; [|vm_compute in E; discriminate E].
  exists snap. split; [done|]. split; [|vm_compute; reflexivity].
  destruct (rocks_read demo_below (ReadChild addr_zero demo_id 2) (demo_rocks [(7, 3); (8, 2)]%N)) as [r s'] eqn:Er.
  assert (read_valid (ReadChild addr_zero demo_id 2)) as Hv by (split; vm_compute; reflexivity).
  exact (proj1 (proj2 (rocks_read_refines demo_below _ _ snap r s' (demo_rocks_wf _) E Hv Er))).
Defined.

Lemma rocks_snapshot_round_trip_witness :
  ∃ snap s1, rocks_dump_snapshot (demo_rocks [(7, 3); (8, 2)]%N) = Ok snap ∧
    rocks_restore_snapshot snap (demo_rocks []) = Ok s1 ∧ rocks_dump_snapshot s1 = Ok snap.
Proof.
  destruct (rocks_dump_snapshot (demo_rocks [(7, 3); (8, 2)]%N)) as [snap|] eqn:E; [|vm_compute in E; discriminate E].
  destruct (rocks_snapshot_round_trip (demo_rocks []) ∅ snap) as (s1 & snap1 & H1 & _ & H2 & _ & H3).
  - apply demo_rocks_wf.
  - reflexivity.
  - vm_compute. reflexivity.
  - destruct (dump_images _ snap (demo_rocks_wf _) E) as [Hi _]. intros id v o He.
    by destruct (images_live _ _ _ _ _ Hi He) as (o' & [= <-] & ?).
  - exists snap, s1. split; [done|]. split; [done|]. by rewrite <-(H3 _ (demo_rocks_wf _) E eq_refl).
Defined.

(** A transaction deletes object 7 and writes version 4 of object 8. *)
Definition demo_its : InnerTemporaryStore := {|
  its_written := {[MkMoveAddress 8 := (8, 4)%N]}; its_input_objects := {[demo_id := (7, 3)%N]};
  its_lamport_version := 4; its_stream_ended_consensus_objects := ∅ |}.
Definition demo_fx : TransactionEffects := {|
  fx_deleted := [(demo_id, 4%N)]; fx_transferred_from_consensus := []; fx_consensus_owner_changed := [];
  fx_stream_ended := [] |}.
Lemma rocks_commit_exact_witness :
  ∃ s' snap', rocks_commit_store demo_its demo_fx (demo_rocks [(7, 3); (8, 2)]%N) = Ret (Ok (), s') ∧
    rocks_dump_snapshot s' = Ok snap' ∧ entry snap' demo_id 3 = None ∧
    entry snap' (MkMoveAddress 8) 4 = Some (Some (8, 4)%N) ∧ entry snap' (MkMoveAddress 8) 2 = Some (Some (8, 2)%N).
Proof.
  destruct (rocks_dump_snapshot (demo_rocks [(7, 3); (8, 2)]%N)) as [snap|] eqn:E; [|vm_compute in E; discriminate E].
  pose proof (rocks_commit_exact demo_its demo_fx (demo_rocks [(7, 3); (8, 2)]%N) snap (demo_rocks_wf _) eq_refl E) as H.
  destruct H as (gone & s' & snap' & Hg & Hc & _ & Hd & Hkeep & Hgone).
  - intros id o Ho. simpl in Ho. apply lookup_singleton_Some in Ho as [<- <-]. vm_compute. reflexivity.
  - intros gone [= <-]. constructor; [split; vm_compute; reflexivity|constructor].
  - injection Hg as <-. exists s', snap'. split; [done|]. split; [done|]. split; [|split].
    + rewrite Hgone by (by left). vm_compute in E. injection E as <-. vm_compute. reflexivity.
    + rewrite Hkeep by (by intros [[=]|?%not_elem_of_nil]%elem_of_cons). vm_compute in E. injection E as <-.
      vm_compute. reflexivity.
    + rewrite Hkeep by (by intros [[=]|?%not_elem_of_nil]%elem_of_cons). vm_compute in E. injection E as <-.
      vm_compute. reflexivity.
Defined.

(** The deleted object comes back from the wrapped store, in its old version. *)
Example deleted_object_fetched :
  match rocks_commit_store demo_its demo_fx (demo_rocks [(7, 3)]%N) with
  | Ret (_, s) => (rocks_get_object demo_below demo_id s).1 = Some (7, 1)%N
  | Panic => False
  end.
Proof. vm_compute. reflexivity. Qed.

(** Two versions of an object are two entries of the list. *)
Example ids_listed_twice : list_object_ids (demo_rocks [(7, 1); (7, 3)]%N) = Ok [demo_id; demo_id].
Proof. vm_compute. reflexivity. Qed.
