(* ===== verification/Compile.v ===== *)
(** * Compile: compiled packages

    [crates/movy-sui/src/compile.rs]: what is made of the artifacts of the Move
    package system - which modules belong to a package, how unpublished
    dependencies are linked to its address, what is verified - and the package
    that is deployed. The compiler, the package system and the file system are
    arguments. A [CompiledModule] is its public tables, as far as the code
    reads or writes them; an index out of range panics. *)
From S2P Require Import Prelude Types FuzzTracer TypeGraph Meta Objects.

(** A module handle: indices of an address and of a name. *)
Record ModuleHandle := MkHandle { mh_address : N; mh_name : N }.
(** A function handle: indices of a module handle and of a name. *)
Record FunctionHandle := MkFunctionHandle { fh_module : N; fh_name : N }.
Record CompiledModule := MkModule {
  cm_self : N; cm_module_handles : list ModuleHandle; cm_function_handles : list FunctionHandle;
  cm_function_defs : list N; cm_identifiers : list string; cm_address_identifiers : list MoveAddress;
  cm_publishable : bool }.
#[export] Instance CompiledModule_eq_dec : EqDecision CompiledModule.
Proof.
  assert (EqDecision ModuleHandle) by solve_decision. assert (EqDecision FunctionHandle) by solve_decision.
  solve_decision.
Defined.

Definition set_addresses (l : list MoveAddress) (m : CompiledModule) : CompiledModule :=
  MkModule (cm_self m) (cm_module_handles m) (cm_function_handles m) (cm_function_defs m) (cm_identifiers m) l
    (cm_publishable m).
Definition set_handles (l : list ModuleHandle) (m : CompiledModule) : CompiledModule :=
  MkModule (cm_self m) l (cm_function_handles m) (cm_function_defs m) (cm_identifiers m) (cm_address_identifiers m)
    (cm_publishable m).
Definition set_publishable (b : bool) (m : CompiledModule) : CompiledModule :=
  MkModule (cm_self m) (cm_module_handles m) (cm_function_handles m) (cm_function_defs m) (cm_identifiers m)
    (cm_address_identifiers m) b.

Definition at_index {A} (l : list A) (i : N) : panics A := unwrap (l !! N.to_nat i).
Definition self_handle (m : CompiledModule) : panics ModuleHandle := at_index (cm_module_handles m) (cm_self m).
(** [self_id().address()], [self_id().name()] *)
Definition module_self_address (m : CompiledModule) : panics MoveAddress :=
  sh ← self_handle m; at_index (cm_address_identifiers m) (mh_address sh).
Definition module_self_name (m : CompiledModule) : panics string :=
  sh ← self_handle m; at_index (cm_identifiers m) (mh_name sh).

Definition mock_module_address (address : MoveAddress) (m : CompiledModule) : panics CompiledModule :=
  sh ← self_handle m;
  _ ← at_index (cm_identifiers m) (mh_name sh);
  Ret (match cm_address_identifiers m !! N.to_nat (mh_address sh) with
       | Some _ => set_addresses (<[N.to_nat (mh_address sh) := address]> (cm_address_identifiers m)) m
       | None => m
       end).

(** ** Packages *)
Record SuiCompiledPackage := MkPackage {
  pk_package_id : MoveAddress; pk_package_name : string; pk_package_names : list string;
  pk_modules : list CompiledModule; pk_dependencies : list MoveAddress;
  pk_published_dependencies : list MoveAddress }.
Definition set_package_id (id : MoveAddress) (p : SuiCompiledPackage) : SuiCompiledPackage :=
  MkPackage id (pk_package_name p) (pk_package_names p) (pk_modules p) (pk_dependencies p)
    (pk_published_dependencies p).
Definition set_modules (l : list CompiledModule) (p : SuiCompiledPackage) : SuiCompiledPackage :=
  MkPackage (pk_package_id p) (pk_package_name p) (pk_package_names p) l (pk_dependencies p)
    (pk_published_dependencies p).

Definition into_deployment (p : SuiCompiledPackage) : list CompiledModule * list MoveAddress :=
  (pk_modules p, pk_dependencies p).

Fixpoint any_module (f : CompiledModule → panics bool) (l : list CompiledModule) : panics bool :=
  match l with
  | [] => Ret false
  | m :: l => b ← f m; if b : bool then Ret true else any_module f l
  end.
Definition contains_nonzero_modules (p : SuiCompiledPackage) : panics bool :=
  any_module (λ m, a ← module_self_address m; Ret (bool_decide (a = addr_zero))) (pk_modules p).

(** [all_equal_value]: [None] when there is none, or two that differ. *)
Definition all_same_address (p : SuiCompiledPackage) : panics (option MoveAddress) :=
  addresses ← mapM module_self_address (pk_modules p);
  Ret (match addresses with
       | [] => None
       | a :: rest => if bool_decide (Forall (λ b, b = a) rest) then Some a else None
       end).

(** A call of [0x1::unit_test::poison] marks a module compiled for tests. *)
Definition is_poison (m : CompiledModule) (fcall : FunctionHandle) : panics bool :=
  md ← at_index (cm_module_handles m) (fh_module fcall);
  fname ← at_index (cm_identifiers m) (fh_name fcall);
  maddress ← at_index (cm_address_identifiers m) (mh_address md);
  mname ← at_index (cm_identifiers m) (mh_name md);
  Ret (bool_decide (maddress = MkMoveAddress 1) && bool_decide (mname = "unit_test"%string)
       && bool_decide (fname = "poison"%string)).
Fixpoint unit_test_loop (m : CompiledModule) (l : list FunctionHandle) : panics bool :=
  match l with
  | [] => Ret false
  | fcall :: l => b ← is_poison m fcall; if b : bool then Ret true else unit_test_loop m l
  end.
Definition contains_unit_test (m : CompiledModule) : panics bool := unit_test_loop m (cm_function_handles m).
Fixpoint filter_modules (f : CompiledModule → panics bool) (l : list CompiledModule) : panics (list CompiledModule) :=
  match l with
  | [] => Ret []
  | m :: l => b ← f m; l ← filter_modules f l; Ret (if b : bool then m :: l else l)
  end.
Definition test_modules (p : SuiCompiledPackage) : panics (list CompiledModule) :=
  filter_modules contains_unit_test (pk_modules p).

Fixpoint movy_loop (m : CompiledModule) (l : list N) : panics bool :=
  match l with
  | [] => Ret false
  | fdef :: l =>
      func ← at_index (cm_function_handles m) fdef;
      fname ← at_index (cm_identifiers m) (fh_name func);
      if bool_decide (fname = MOVY_INIT) || String.prefix MOVY_ORACLE fname then Ret true else movy_loop m l
  end.
Definition contains_movy (m : CompiledModule) : panics bool := movy_loop m (cm_function_defs m).

Definition mock_module (m : CompiledModule) : panics CompiledModule :=
  _ ← module_self_address m;
  _ ← module_self_name m;
  Ret (if negb (cm_publishable m) then set_publishable true m else m).
Definition movy_mock (p : SuiCompiledPackage) : panics SuiCompiledPackage :=
  modules ← mapM mock_module (pk_modules p);
  Ret (MkPackage (pk_package_id p) (pk_package_name p) (pk_package_names p) modules
    (set_iter (list_to_set (pk_dependencies p))) (pk_published_dependencies p)).

(** ** From artifacts to a package *)

(** A named unit: the address it was compiled for, the name of that address
    and the module. *)
Record NamedUnit := MkUnit { un_address : MoveAddress; un_address_name : option string; un_module : CompiledModule }.
(** What is read of the artifacts. [ar_all_units] is [all_compiled_units()];
    [ar_published] the values of [dependency_ids.published]. *)
Record CompiledArtifacts := MkArtifacts {
  ar_published_at : option MoveAddress; ar_package_name : string;
  ar_deps_units : list (string * NamedUnit); ar_root_units : list NamedUnit; ar_all_units : list NamedUnit;
  ar_published : list MoveAddress }.

(** A [BTreeSet] of names, in order. *)
Definition name_iter (s : gset string) : list string := merge_sort String.le (elements s).

Fixpoint names_at (root_address : MoveAddress) (l : list (string * NamedUnit)) (names : gset string) :
    panics (gset string) :=
  match l with
  | [] => Ret names
  | (dep_name, unit) :: l =>
      module_addr ← module_self_address (un_module unit);
      names_at root_address l (if decide (module_addr = root_address) then {[ dep_name ]} ∪ names else names)
  end.

Definition dep_address (x : string * NamedUnit) : panics (MoveAddress * option string) :=
  a ← module_self_address (un_module x.2); Ret (a, un_address_name x.2).
Definition dep_addresses_of (l : list (string * NamedUnit)) : panics (list (MoveAddress * option string)) :=
  l ← mapM dep_address l; Ret (base.filter (λ v, v.1 ≠ addr_zero) l).

(** A module of a dependency among those of the root. *)
Definition is_dep (dep_addresses : list (MoveAddress * option string)) (a : MoveAddress) (name : option string) : bool :=
  existsb (λ d, bool_decide (d.1 = a)
    || match name, d.2 with Some u, Some n => bool_decide (n = u) | _, _ => false end) dep_addresses.

Fixpoint filter_deps (dep_addresses : list (MoveAddress * option string)) (l : list NamedUnit) :
    panics (list CompiledModule) :=
  match l with
  | [] => Ret []
  | v :: l =>
      a ← module_self_address (un_module v);
      rest ← filter_deps dep_addresses l;
      Ret (if is_dep dep_addresses a (un_address_name v) then rest else un_module v :: rest)
  end.

Definition select_modules (ar : CompiledArtifacts) (root_address : MoveAddress)
    (dep_addresses : list (MoveAddress * option string)) (test_mode with_unpublished : bool) :
    panics (list CompiledModule) :=
  if with_unpublished then
    Ret (map un_module (base.filter (λ m, root_address = un_address m ∨ un_address m = addr_zero) (ar_all_units ar)))
  else if test_mode then filter_deps dep_addresses (ar_root_units ar)
  else Ret (map un_module (ar_root_units ar)).

(** Linking of one handle - its original [hd] - to the root package. *)
Definition link_handle (root_address : MoveAddress) (md : CompiledModule) (hd_idx : nat) (hd : ModuleHandle) :
    panics CompiledModule :=
  _ ← at_index (cm_identifiers md) (mh_name hd);
  addr ← at_index (cm_address_identifiers md) (mh_address hd);
  if bool_decide (addr = addr_zero) && negb (bool_decide (root_address = addr_zero)) then
    match list_find (λ t, t = root_address) (cm_address_identifiers md) with
    | Some (t, _) =>
        h ← unwrap (cm_module_handles md !! hd_idx);
        Ret (set_handles (<[hd_idx := MkHandle (as_u16 t) (mh_name h)]> (cm_module_handles md)) md)
    | None =>
        Ret (set_addresses (<[N.to_nat (mh_address hd) := root_address]> (cm_address_identifiers md)) md)
    end
  else Ret md.
Fixpoint link_loop (root_address : MoveAddress) (md : CompiledModule) (l : list (nat * ModuleHandle)) :
    panics CompiledModule :=
  match l with
  | [] => Ret md
  | (hd_idx, hd) :: l => md ← link_handle root_address md hd_idx hd; link_loop root_address md l
  end.
Definition link_module (root_address : MoveAddress) (md : CompiledModule) : panics CompiledModule :=
  link_loop root_address md (zip (seq 0 (length (cm_module_handles md))) (cm_module_handles md)).
Definition link_modules (root_address : MoveAddress) (modules : list CompiledModule) : panics (list CompiledModule) :=
  modules ← mapM (link_module root_address) modules;
  mapM (mock_module_address root_address) modules.

Section build.
(** [CompiledModule::immediate_dependencies]: their addresses. *)
Context (immediate_dependencies : CompiledModule → list MoveAddress).
Context {Path : Type} (build_package_resolved : Path → bool → result CompiledArtifacts).

Definition unpublished_dep (ar : CompiledArtifacts) : bool :=
  existsb (λ d, bool_decide (un_address d.2 = addr_zero)) (ar_deps_units ar).
Definition zero_dependency (modules : list CompiledModule) : bool :=
  existsb (λ md, existsb (λ a, bool_decide (a = addr_zero)) (immediate_dependencies md)) modules.

Definition build_checked (folder : Path) (test_mode with_unpublished verify_deps : bool) :
    panics (result SuiCompiledPackage) :=
  match build_package_resolved folder test_mode with
  | Err => Ret Err
  | Ok artifacts =>
      let root_address := default addr_zero (ar_published_at artifacts) in
      let package_name := ar_package_name artifacts in
      package_names ← names_at root_address (ar_deps_units artifacts) {[ package_name ]};
      if verify_deps && negb with_unpublished && unpublished_dep artifacts then Ret Err else
      dep_addresses ← dep_addresses_of (ar_deps_units artifacts);
      modules ← select_modules artifacts root_address dep_addresses test_mode with_unpublished;
      modules ← (if with_unpublished then link_modules root_address modules else Ret modules);
      if verify_deps && negb (bool_decide (root_address = addr_zero)) && zero_dependency modules then Ret Err else
      match modules with
      | [] => Ret Err
      | _ =>
          let deps := base.filter (λ t, t ≠ addr_zero ∧ t ≠ root_address) (ar_published artifacts) in
          Ret (Ok (MkPackage root_address package_name (name_iter package_names) modules
            (set_iter (list_to_set deps)) (ar_published artifacts)))
      end
  end.
Definition build (folder : Path) (test_mode with_unpublished : bool) : panics (result SuiCompiledPackage) :=
  build_checked folder test_mode with_unpublished true.
Definition build_all_unpublished_from_folder (folder : Path) (test_mode : bool) : panics (result SuiCompiledPackage) :=
  build folder test_mode true.
End build.

(** ** Local dependencies *)
Section paths.
(** [sorted_packages] of the root package in a folder; the original id a
    package is published at; its path, canonicalised. *)
Context {Path Pkg : Type} `{EqDecision Path} `{Countable Path}.
Context (sorted_packages : Path → bool → result (list Pkg)).
Context (original_id : Pkg → option MoveAddress) (is_system_package : MoveAddress → bool).
Context (canonical_path : Pkg → result Path).

Fixpoint packages_loop (packages : list Pkg) (ordered : list Path) (seen : gset Path) :
    result (list Path * gset Path) :=
  match packages with
  | [] => Ok (ordered, seen)
  | package :: packages =>
      if match original_id package with Some id => is_system_package id | None => false end
      then packages_loop packages ordered seen
      else
        path ← canonical_path package;
        if decide (path ∈ seen) then packages_loop packages ordered seen
        else packages_loop packages (ordered ++ [path]) ({[ path ]} ∪ seen)
  end.
Fixpoint folders_loop (test_mode : bool) (folders : list Path) (ordered : list Path) (seen : gset Path) :
    result (list Path) :=
  match folders with
  | [] => Ok ordered
  | folder :: folders =>
      packages ← sorted_packages folder test_mode;
      '(ordered, seen) ← packages_loop (reverse packages) ordered seen;
      folders_loop test_mode folders ordered seen
  end.
Definition resolve_local_dependency_paths (folders : list Path) (test_mode : bool) : result (list Path) :=
  folders_loop test_mode folders [] ∅.
End paths.
