(* ===== verification/CompileSpec.v ===== *)
(** * CompileSpec: a compiled package is complete

    Theorems about [Compile]: linking redirects exactly the unpublished
    dependencies to the root package, [build_checked] never panics on modules
    with valid tables and fails for the reasons it states, and local
    dependencies come in an order in which they can be deployed. *)
From S2P Require Import Prelude Types FuzzTracer TypeGraph Meta Objects Compile.

(** ** Modules with valid tables *)
Definition handle_ok (m : CompiledModule) (h : ModuleHandle) : Prop :=
  N.to_nat (mh_address h) < length (cm_address_identifiers m) ∧ N.to_nat (mh_name h) < length (cm_identifiers m).
Record wf_module (m : CompiledModule) : Prop := {
  wf_self : N.to_nat (cm_self m) < length (cm_module_handles m);
  wf_handles : Forall (handle_ok m) (cm_module_handles m);
  wf_addresses : (N.of_nat (length (cm_address_identifiers m)) < 65536)%N }.

(** The address a module handle stands for. *)
Definition handle_address (m : CompiledModule) (i : nat) : option MoveAddress :=
  h ← cm_module_handles m !! i; cm_address_identifiers m !! N.to_nat (mh_address h).

Lemma at_index_Ret {A} (l : list A) i a : at_index l i = Ret a ↔ l !! N.to_nat i = Some a.
Proof. apply unwrap_Ret. Qed.
Lemma at_index_lt {A} (l : list A) i : N.to_nat i < length l → ∃ a, at_index l i = Ret a ∧ l !! N.to_nat i = Some a.
Proof. intros [a Ha]%lookup_lt_is_Some. exists a. split; [by apply at_index_Ret|done]. Qed.

Lemma self_address_Ret m a : module_self_address m = Ret a ↔ handle_address m (N.to_nat (cm_self m)) = Some a.
Proof.
  unfold module_self_address, self_handle, handle_address.
  destruct (cm_module_handles m !! N.to_nat (cm_self m)) as [h|] eqn:E.
  - assert (at_index (cm_module_handles m) (cm_self m) = Ret h) as -> by (by apply at_index_Ret). simpl. apply at_index_Ret.
  - assert (at_index (cm_module_handles m) (cm_self m) = Panic) as -> by (unfold at_index; by rewrite E). by split.
Qed.
Lemma handle_address_ok m i : wf_module m → i < length (cm_module_handles m) → is_Some (handle_address m i).
Proof.
  intros [_ Hh _] [h Hi]%lookup_lt_is_Some. unfold handle_address. rewrite Hi. simpl.
  rewrite Forall_forall in Hh. apply lookup_lt_is_Some, Hh. by apply list_elem_of_lookup_2 in Hi.
Qed.
Lemma self_address_ok m : wf_module m → ∃ a, module_self_address m = Ret a.
Proof.
  intros Hw. destruct (handle_address_ok m (N.to_nat (cm_self m)) Hw) as [a Ha]; [apply Hw|].
  exists a. by apply self_address_Ret.
Qed.

(** ** Linking *)

(** An unpublished dependency stands for the root package. *)
Definition at_root (root a : MoveAddress) : MoveAddress := if decide (a = addr_zero) then root else a.

(** The same module with its unpublished dependencies redirected. *)
Record linked (root : MoveAddress) (m m' : CompiledModule) : Prop := {
  ln_wf : wf_module m';
  ln_self : cm_self m' = cm_self m;
  ln_names : map mh_name (cm_module_handles m') = map mh_name (cm_module_handles m);
  ln_identifiers : cm_identifiers m' = cm_identifiers m;
  ln_functions : cm_function_handles m' = cm_function_handles m ∧ cm_function_defs m' = cm_function_defs m ∧
    cm_publishable m' = cm_publishable m;
  ln_addresses : ∀ i a, handle_address m i = Some a → handle_address m' i = Some (at_root root a) }.

(** The module after [k] handles were linked. *)
Record link_inv (root : MoveAddress) (m : CompiledModule) (k : nat) (md : CompiledModule) : Prop := {
  li_wf : wf_module md;
  li_self : cm_self md = cm_self m;
  li_names : map mh_name (cm_module_handles md) = map mh_name (cm_module_handles m);
  li_identifiers : cm_identifiers md = cm_identifiers m;
  li_functions : cm_function_handles md = cm_function_handles m ∧ cm_function_defs md = cm_function_defs m ∧
    cm_publishable md = cm_publishable m;
  li_later : ∀ i, k ≤ i → cm_module_handles md !! i = cm_module_handles m !! i;
  li_either : ∀ i a, handle_address m i = Some a → handle_address md i = Some a ∨
    a = addr_zero ∧ handle_address md i = Some root;
  li_done : ∀ i, i < k → handle_address m i = Some addr_zero → handle_address md i = Some root }.

Lemma handle_address_set_handles md k h i :
  handle_address (set_handles (<[k := h]> (cm_module_handles md)) md) i =
    if decide (i = k ∧ k < length (cm_module_handles md)) then cm_address_identifiers md !! N.to_nat (mh_address h)
    else handle_address md i.
Proof.
  unfold handle_address. simpl. destruct (decide (i = k ∧ k < length (cm_module_handles md))) as [[-> Hk]|Hk].
  - by rewrite list_lookup_insert_eq.
  - destruct (decide (i = k)) as [->|]; [|by rewrite list_lookup_insert_ne].
    rewrite list_insert_ge by lia. done.
Qed.
Lemma handle_address_set_addresses md j a i : j < length (cm_address_identifiers md) →
  handle_address (set_addresses (<[j := a]> (cm_address_identifiers md)) md) i =
    h ← cm_module_handles md !! i;
    if decide (N.to_nat (mh_address h) = j) then Some a else cm_address_identifiers md !! N.to_nat (mh_address h).
Proof.
  intros Hj. unfold handle_address. simpl. destruct (cm_module_handles md !! i) as [h|]; [|done]. simpl.
  destruct (decide (N.to_nat (mh_address h) = j)) as [->|]; [by apply list_lookup_insert_eq|].
  by apply list_lookup_insert_ne.
Qed.

Lemma map_mh_name_insert (l : list ModuleHandle) k h a : l !! k = Some h →
  map mh_name (<[k := MkHandle a (mh_name h)]> l) = map mh_name l.
Proof.
  intros Hk. apply list_eq. intros i. rewrite !list_lookup_fmap.
  destruct (decide (i = k)) as [->|]; [|by rewrite list_lookup_insert_ne].
  rewrite list_lookup_insert_eq by (by eapply lookup_lt_Some). by rewrite Hk.
Qed.

Lemma link_handle_inv root m k md hd : root ≠ addr_zero → wf_module m → cm_module_handles m !! k = Some hd →
  link_inv root m k md → ∃ md', link_handle root md k hd = Ret md' ∧ link_inv root m (S k) md'.
Proof.
  intros Hroot Hm Hhd [Hw Hself Hnames Hids Hfns Hlater Heither Hdone].
  assert (cm_module_handles md !! k = Some hd) as Hmd by (by rewrite Hlater).
  pose proof (lookup_lt_Some _ _ _ Hmd) as Hlen. pose proof Hw as [Hws Hwh Hwa].
  assert (handle_ok md hd) as [Ha Hn].
  { rewrite Forall_forall in Hwh. apply Hwh. by apply list_elem_of_lookup_2 in Hmd. }
  unfold link_handle. destruct (at_index_lt _ _ Hn) as (name & -> & _).
  destruct (at_index_lt _ _ Ha) as (addr & -> & Haddr). cbn [mbind panics_mbind panics_bind].
  assert (handle_address md k = Some addr) as Hka by (unfold handle_address; by rewrite Hmd).
  destruct (handle_address_ok m k Hm) as [a Hma]; [by apply lookup_lt_is_Some|].
  assert (∀ i, S k ≤ i → cm_module_handles md !! i = cm_module_handles m !! i) as Hlater' by (intros; apply Hlater; lia).
  destruct (decide (addr = addr_zero)) as [->|Hne].
  2: { rewrite bool_decide_false by done. exists md. split; [done|]. split; try done. intros i Hi Hz.
       destruct (decide (i = k)) as [->|]; [|apply Hdone; [lia|done]].
       destruct (Heither _ _ Hz) as [H|[_ H]]; [|done]. rewrite Hka in H. by injection H. }
  rewrite (bool_decide_true (addr_zero = addr_zero)), (bool_decide_false (root = addr_zero)) by done. cbn [andb negb].
  destruct (list_find _ _) as [[t r]|] eqn:Ef.
  - apply list_find_Some in Ef as (Ht & -> & _). rewrite Hmd. cbn [unwrap mbind panics_mbind panics_bind].
    pose proof (lookup_lt_Some _ _ _ Ht) as Htl.
    assert (N.to_nat (as_u16 t) = t) as Etl by (apply as_u16_small; lia).
    eexists. split; [reflexivity|].
    assert (∀ i, handle_address (set_handles (<[k := MkHandle (as_u16 t) (mh_name hd)]> (cm_module_handles md)) md) i
      = if decide (i = k) then Some root else handle_address md i) as Hset.
    { intros i. rewrite handle_address_set_handles. simpl. rewrite Etl, Ht.
      destruct (decide (i = k)) as [->|]; [by rewrite decide_True|by rewrite decide_False by naive_solver]. }
    split; [split|..]; try done; simpl.
    + by rewrite length_insert.
    + apply Forall_insert; [done|]. split; simpl; [by rewrite Etl|done].
    + by rewrite map_mh_name_insert.
    + intros i Hi. rewrite list_lookup_insert_ne by lia. by apply Hlater'.
    + intros i b Hb. rewrite Hset. destruct (decide (i = k)) as [->|]; [|by apply Heither].
      right. split; [|done]. destruct (Heither _ _ Hb) as [H|[H _]]; [|done]. rewrite Hka in H. by injection H.
    + intros i Hi Hz. rewrite Hset. destruct (decide (i = k)) as [->|]; [done|]. apply Hdone; [lia|done].
  - eexists. split; [reflexivity|].
    assert (∀ i, handle_address (set_addresses (<[N.to_nat (mh_address hd) := root]> (cm_address_identifiers md)) md) i =
      handle_address md i ∨ handle_address md i = Some addr_zero ∧
      handle_address (set_addresses (<[N.to_nat (mh_address hd) := root]> (cm_address_identifiers md)) md) i = Some root)
      as Hset.
    { intros i. rewrite handle_address_set_addresses by done. unfold handle_address.
      destruct (cm_module_handles md !! i) as [h|]; [|by left]. simpl.
      destruct (decide (N.to_nat (mh_address h) = N.to_nat (mh_address hd))) as [->|]; [right|by left].
      done. }
    assert (handle_address (set_addresses (<[N.to_nat (mh_address hd) := root]> (cm_address_identifiers md)) md) k
      = Some root) as Hk.
    { rewrite handle_address_set_addresses, Hmd by done. simpl. by rewrite decide_True. }
    split; [split|..]; try done; simpl.
    + eapply Forall_impl; [exact Hwh|]. intros h [H1 H2]. split; simpl; [by rewrite length_insert|done].
    + by rewrite length_insert.
    + intros i b Hb. destruct (Heither _ _ Hb) as [H|[-> H]], (Hset i) as [E|[E ->]].
      * left. by rewrite E.
      * right. split; [|done]. rewrite H in E. by injection E.
      * right. by rewrite E.
      * right. by split.
    + intros i Hi Hz. destruct (decide (i = k)) as [->|]; [done|].
      destruct (Hset i) as [->|[_ ->]]; [apply Hdone; [lia|done]|done].
Qed.

Lemma link_loop_inv root m l k md : root ≠ addr_zero → wf_module m → link_inv root m k md →
  drop k (cm_module_handles m) = l →
  ∃ md', link_loop root md (zip (seq k (length l)) l) = Ret md' ∧ link_inv root m (k + length l) md'.
Proof.
  intros Hroot Hm. revert k md. induction l as [|hd l IH]; intros k md Hi Hd.
  - exists md. split; [done|]. by rewrite Nat.add_0_r.
  - assert (cm_module_handles m !! k = Some hd) as Hk.
    { rewrite <-(Nat.add_0_r k), <-lookup_drop, Hd. done. }
    destruct (link_handle_inv root m k md hd Hroot Hm Hk Hi) as (md1 & E & Hi1). cbn [length seq zip zip_with link_loop].
    rewrite E. cbn [mbind panics_mbind panics_bind].
    destruct (IH (S k) md1 Hi1) as (md' & E' & Hi').
    { rewrite <-Nat.add_1_r, <-drop_drop, Hd. done. }
    exists md'. split; [done|]. by rewrite Nat.add_succ_r.
Qed.

(** Linking redirects the handles of unpublished dependencies, and no other. *)
Lemma link_module_linked root m : wf_module m → ∃ m', link_module root m = Ret m' ∧ linked root m m'.
Proof.
  intros Hm. unfold link_module. destruct (decide (root = addr_zero)) as [->|Hroot].
  - exists m. split.
    + assert (∀ l, Forall (handle_ok m) l.*2 → link_loop addr_zero m l = Ret m) as H.
      { induction l as [|[i h] l IH]; [done|]. rewrite fmap_cons. intros [[Ha Hn] Hl]%Forall_cons. simpl in Ha, Hn. cbn [link_loop].
        unfold link_handle. destruct (at_index_lt _ _ Hn) as (? & -> & _). destruct (at_index_lt _ _ Ha) as (? & -> & _).
        cbn [mbind panics_mbind panics_bind]. rewrite (bool_decide_true (addr_zero = addr_zero)), andb_false_r by done.
        by apply IH. }
      apply H. change (zip ?a ?b) with (zip_with pair a b). rewrite snd_zip by (by rewrite length_seq). apply Hm.
    + split; try done. intros i a ->. unfold at_root. by case_decide as E; rewrite ?E.
  - destruct (link_loop_inv root m (cm_module_handles m) 0 m Hroot Hm) as (m' & E & [Hw Hs Hn Hi Hf _ He Hd]).
    { split; try done; [by left|]. intros i ?. lia. }
    { done. }
    exists m'. split; [exact E|]. split; try done. intros i a Ha. unfold at_root. case_decide as Hz.
    + subst a. apply Hd; [|done]. unfold handle_address in Ha. destruct (cm_module_handles m !! i) eqn:Hx; [|done].
      by apply lookup_lt_Some in Hx.
    + by destruct (He _ _ Ha) as [?|[? _]].
Qed.

Lemma mock_address_id a m : wf_module m → module_self_address m = Ret a → mock_module_address a m = Ret m.
Proof.
  intros Hw Ha. apply self_address_Ret in Ha. unfold handle_address in Ha.
  destruct (cm_module_handles m !! N.to_nat (cm_self m)) as [sh|] eqn:Es; [|done]. simpl in Ha.
  unfold mock_module_address, self_handle.
  assert (at_index (cm_module_handles m) (cm_self m) = Ret sh) as -> by (by apply at_index_Ret).
  cbn [mbind panics_mbind panics_bind]. destruct Hw as [_ Hh _]. rewrite Forall_forall in Hh.
  destruct (Hh sh) as [_ Hn]; [by apply list_elem_of_lookup_2 in Es|].
  destruct (at_index_lt _ _ Hn) as (? & -> & _). cbn [mbind panics_mbind panics_bind].
  rewrite Ha, list_insert_id by done. by destruct m.
Qed.

Lemma linked_self root m m' : linked root m m' → wf_module m →
  (∃ a, module_self_address m = Ret a ∧ (a = root ∨ a = addr_zero)) → module_self_address m' = Ret root.
Proof.
  intros [_ Hs _ _ _ Ha] Hw (a & E & Hor). apply self_address_Ret in E. apply self_address_Ret. rewrite Hs.
  rewrite (Ha _ _ E). unfold at_root. destruct Hor as [->| ->]; by case_decide.
Qed.

Lemma link_modules_linked root ms :
  Forall (λ m, wf_module m ∧ ∃ a, module_self_address m = Ret a ∧ (a = root ∨ a = addr_zero)) ms →
  ∃ ms', link_modules root ms = Ret ms' ∧
    Forall2 (λ m m', linked root m m' ∧ module_self_address m' = Ret root) ms ms'.
Proof.
  intros H. unfold link_modules.
  destruct (mapM_returns (link_module root) (λ m m', linked root m m' ∧ module_self_address m' = Ret root) ms)
    as (ms' & -> & H2).
  { eapply Forall_impl; [exact H|]. intros m [Hw Hs]. destruct (link_module_linked root m Hw) as (m' & E & Hl).
    exists m'. split; [done|]. split; [done|]. by eapply linked_self. }
  exists ms'. split; [|done]. cbn [mbind panics_mbind panics_bind].
  induction H2 as [|m m' ms ms' [Hl Hs] _ IH]; [done|]. simpl.
  rewrite (mock_address_id root m') by (done || apply Hl). simpl. inversion H; subst. by rewrite IH.
Qed.

(** ** Building a package *)
Section build.
Context (immediate_dependencies : CompiledModule → list MoveAddress).
Context {Path : Type} (build_package_resolved : Path → bool → result CompiledArtifacts).
(** A dependency is a module some handle stands for. *)
Hypothesis dependency_handle : ∀ m a, a ∈ immediate_dependencies m → ∃ i, handle_address m i = Some a.

(** A unit has the address of its module. *)
Definition wf_unit (u : NamedUnit) : Prop :=
  wf_module (un_module u) ∧ module_self_address (un_module u) = Ret (un_address u).
Record wf_artifacts (ar : CompiledArtifacts) : Prop := {
  wf_deps_units : Forall wf_unit (ar_deps_units ar).*2;
  wf_root_units : Forall wf_unit (ar_root_units ar);
  wf_all_units : Forall wf_unit (ar_all_units ar) }.

Definition root_of (ar : CompiledArtifacts) : MoveAddress := default addr_zero (ar_published_at ar).
(** The published dependencies and the names of their addresses. *)
Definition published_deps (ar : CompiledArtifacts) : list (MoveAddress * option string) :=
  base.filter (λ v, v.1 ≠ addr_zero) (map (λ d, (un_address d.2, un_address_name d.2)) (ar_deps_units ar)).
(** The units whose modules make the package. *)
Definition selected (ar : CompiledArtifacts) (test_mode with_unpublished : bool) : list NamedUnit :=
  if with_unpublished then base.filter (λ m, root_of ar = un_address m ∨ un_address m = addr_zero) (ar_all_units ar)
  else if test_mode then
    base.filter (λ v, is_dep (published_deps ar) (un_address v) (un_address_name v) = false) (ar_root_units ar)
  else ar_root_units ar.

Lemma names_at_spec root l names : Forall wf_unit l.*2 →
  ∃ s, names_at root l names = Ret s ∧
    ∀ n, n ∈ s ↔ n ∈ names ∨ ∃ u, (n, u) ∈ l ∧ un_address u = root.
Proof.
  revert names. induction l as [|[d u] l IH]; intros names Hl.
  - exists names. split; [done|]. intros n. split; [by left|]. by intros [?|(? & ?%not_elem_of_nil & _)].
  - rewrite fmap_cons in Hl. apply Forall_cons in Hl as [[_ Hu] Hl]. cbn [names_at]. cbn [snd] in Hu. rewrite Hu.
    cbn [mbind panics_mbind panics_bind].
    destruct (IH (if decide (un_address u = root) then {[ d ]} ∪ names else names) Hl) as (s & -> & Hs).
    exists s. split; [done|]. intros n. rewrite Hs. setoid_rewrite elem_of_cons.
    case_decide; set_solver.
Qed.

Lemma dep_addresses_spec ar : wf_artifacts ar → dep_addresses_of (ar_deps_units ar) = Ret (published_deps ar).
Proof.
  intros [Hd _ _]. unfold dep_addresses_of, published_deps.
  assert (mapM dep_address (ar_deps_units ar) = Ret (map (λ d, (un_address d.2, un_address_name d.2)) (ar_deps_units ar)))
    as ->; [|done].
  induction (ar_deps_units ar) as [|[d u] l IH]; [done|]. rewrite fmap_cons in Hd. apply Forall_cons in Hd as [[_ Hu] Hl].
  cbn [mapM map]. assert (dep_address (d, u) = Ret (un_address u, un_address_name u)) as ->
    by (unfold dep_address; cbn [snd] in *; by rewrite Hu).
  cbn [mbind panics_mbind panics_bind]. by rewrite IH.
Qed.

Lemma filter_deps_spec ds l : Forall wf_unit l → filter_deps ds l =
  Ret (map un_module (base.filter (λ v, is_dep ds (un_address v) (un_address_name v) = false) l)).
Proof.
  induction 1 as [|v l [_ Hv] _ IH]; [done|]. cbn [filter_deps]. rewrite Hv. cbn [mbind panics_mbind panics_bind].
  rewrite IH. cbn [mbind panics_mbind panics_bind]. rewrite filter_cons.
  destruct (is_dep ds (un_address v) (un_address_name v)); [by rewrite decide_False|by rewrite decide_True].
Qed.

Lemma select_modules_spec ar tm wu : wf_artifacts ar →
  select_modules ar (root_of ar) (published_deps ar) tm wu = Ret (map un_module (selected ar tm wu)).
Proof.
  intros [_ Hr _]. unfold select_modules, selected. destruct wu; [done|]. destruct tm; [by apply filter_deps_spec|done].
Qed.

(** Why a build fails: there is nothing to build, or dependencies were to be
    verified without bundling and one has no address. *)
Definition build_fails (ar : CompiledArtifacts) (test_mode with_unpublished verify_deps : bool) : Prop :=
  selected ar test_mode with_unpublished = [] ∨
  verify_deps = true ∧ with_unpublished = false ∧
    ((∃ d, d ∈ ar_deps_units ar ∧ un_address d.2 = addr_zero) ∨
     root_of ar ≠ addr_zero ∧
       ∃ u, u ∈ selected ar test_mode with_unpublished ∧ addr_zero ∈ immediate_dependencies (un_module u)).

Lemma existsb_elem {A} (f : A → bool) l : existsb f l = true ↔ ∃ x, x ∈ l ∧ f x = true.
Proof. rewrite existsb_exists. by setoid_rewrite list_elem_of_In. Qed.

Lemma selected_wf ar tm wu : wf_artifacts ar → Forall wf_unit (selected ar tm wu).
Proof.
  intros [_ Hr Ha]. unfold selected. rewrite !Forall_forall in *.
  destruct wu; [|destruct tm; [|done]]; intros x [_ Hx]%list_elem_of_filter; auto.
Qed.

(** The modules of the package: the selected ones, linked when unpublished
    dependencies are bundled. *)
Definition built_from (ar : CompiledArtifacts) (with_unpublished : bool) (units : list NamedUnit)
    (modules : list CompiledModule) : Prop :=
  if with_unpublished then
    Forall2 (λ m m', linked (root_of ar) m m' ∧ module_self_address m' = Ret (root_of ar)) (map un_module units) modules
  else modules = map un_module units.

Lemma built_modules ar tm (wu : bool) : wf_artifacts ar →
  ∃ ms, (if wu then link_modules (root_of ar) (map un_module (selected ar tm wu))
         else Ret (map un_module (selected ar tm wu))) = Ret ms ∧ built_from ar wu (selected ar tm wu) ms.
Proof.
  intros Hw. unfold built_from. destruct wu; [|by eexists]. apply link_modules_linked.
  apply Forall_fmap, Forall_forall. intros u Hu. simpl. pose proof (selected_wf ar tm true Hw) as Hs.
  rewrite Forall_forall in Hs. destruct (Hs u Hu) as [H1 H2]. split; [done|]. exists (un_address u). split; [done|].
  unfold selected in Hu. apply list_elem_of_filter in Hu as [[->|?] _]; auto.
Qed.

(** Bundling leaves no dependency without an address. *)
Lemma linked_no_zero root m m' : root ≠ addr_zero → wf_module m → linked root m m' →
  addr_zero ∉ immediate_dependencies m'.
Proof.
  intros Hr Hw [Hw' _ Hn _ _ Ha] Hz. apply dependency_handle in Hz as [i Hi].
  assert (i < length (cm_module_handles m)) as Hlt.
  { rewrite <-(length_map mh_name), <-Hn, length_map. unfold handle_address in Hi.
    destruct (cm_module_handles m' !! i) eqn:E; [|done]. by apply lookup_lt_Some in E. }
  destruct (handle_address_ok m i Hw Hlt) as [a Hma]. rewrite (Ha _ _ Hma) in Hi. unfold at_root in Hi.
  case_decide; simplify_eq.
Qed.
Lemma bundled_no_zero ar tm ms : wf_artifacts ar → root_of ar ≠ addr_zero →
  built_from ar true (selected ar tm true) ms → ∀ m, m ∈ ms → addr_zero ∉ immediate_dependencies m.
Proof.
  intros Hw Hr Hb m Hm. apply list_elem_of_lookup in Hm as [i Hi].
  destruct (Forall2_lookup_r _ _ _ _ _ Hb Hi) as (m0 & Hm0 & Hl & _). eapply linked_no_zero; [done| |done].
  apply list_elem_of_lookup_2 in Hm0. apply list_elem_of_fmap in Hm0 as (u & -> & Hu).
  pose proof (selected_wf ar tm true Hw) as Hs. rewrite Forall_forall in Hs. by apply Hs.
Qed.

Lemma set_iter_spec (l : list MoveAddress) : StronglySorted address_le (set_iter (list_to_set l)) ∧
  NoDup (set_iter (list_to_set l)) ∧ ∀ a, a ∈ set_iter (list_to_set l) ↔ a ∈ l.
Proof.
  unfold set_iter. split; [apply StronglySorted_merge_sort; apply _|].
  split; [rewrite merge_sort_Permutation; apply NoDup_elements|].
  intros a. by rewrite merge_sort_Permutation, elem_of_elements, elem_of_list_to_set.
Qed.

(** C28: a package is built from the units that are its own, never panics on
    modules with valid tables, and fails for no other reason than those of
    [build_fails]. The package has the root's address and the units' modules -
    with unpublished dependencies bundled, every module linked: it stands at
    the root's address, handles of unpublished dependencies stand for the root
    and all others for what they stood for -; its dependencies are the
    published ones other than itself, sorted; and once it has an address and
    dependencies were bundled or verified, no module depends on one without. *)
Theorem build_checked_complete folder test_mode with_unpublished verify_deps ar :
  build_package_resolved folder test_mode = Ok ar → wf_artifacts ar →
  ∃ r, build_checked immediate_dependencies build_package_resolved folder test_mode with_unpublished verify_deps = Ret r ∧
    match r with
    | Err => build_fails ar test_mode with_unpublished verify_deps
    | Ok p =>
        ¬ build_fails ar test_mode with_unpublished verify_deps ∧
        pk_package_id p = root_of ar ∧
        built_from ar with_unpublished (selected ar test_mode with_unpublished) (pk_modules p) ∧
        (∀ n, n ∈ pk_package_names p ↔
           n = ar_package_name ar ∨ ∃ u, (n, u) ∈ ar_deps_units ar ∧ un_address u = root_of ar) ∧
        (StronglySorted address_le (pk_dependencies p) ∧ NoDup (pk_dependencies p) ∧
         ∀ a, a ∈ pk_dependencies p ↔ a ∈ ar_published ar ∧ a ≠ addr_zero ∧ a ≠ root_of ar) ∧
        (root_of ar ≠ addr_zero → with_unpublished || verify_deps = true →
           ∀ m, m ∈ pk_modules p → addr_zero ∉ immediate_dependencies m)
    end.
Proof.
  intros E Hw. unfold build_checked. rewrite E. fold (root_of ar).
  destruct (names_at_spec (root_of ar) (ar_deps_units ar) {[ ar_package_name ar ]} (wf_deps_units ar Hw))
    as (names & -> & Hnames).
  cbn [mbind panics_mbind panics_bind].
  destruct (verify_deps && negb with_unpublished && unpublished_dep ar) eqn:E1.
  { exists Err. split; [done|]. apply andb_true_iff in E1 as [[-> E1]%andb_true_iff E2]. apply negb_true_iff in E1 as ->.
    right. split_and!; [done|done|left]. apply existsb_elem in E2 as (d & Hd & Hz%bool_decide_eq_true). by exists d. }
  rewrite dep_addresses_spec by done. cbn [mbind panics_mbind panics_bind].
  rewrite select_modules_spec by done. cbn [mbind panics_mbind panics_bind].
  destruct (built_modules ar test_mode with_unpublished Hw) as (ms & -> & Hb). cbn [mbind panics_mbind panics_bind].
  destruct (verify_deps && negb (bool_decide (root_of ar = addr_zero)) && zero_dependency immediate_dependencies ms) eqn:E2.
  { exists Err. split; [done|]. apply andb_true_iff in E2 as [[-> E2]%andb_true_iff E3].
    apply negb_true_iff, bool_decide_eq_false in E2. apply existsb_elem in E3 as (m & Hm & E3).
    apply existsb_elem in E3 as (a & Ha & ->%bool_decide_eq_true). destruct with_unpublished.
    - by destruct (bundled_no_zero ar test_mode ms Hw E2 Hb m Hm).
    - right. split_and!; [done|done|right]. split; [done|]. rewrite Hb in Hm.
      apply list_elem_of_fmap in Hm as (u & -> & Hu). by exists u. }
  assert (ms = [] ↔ selected ar test_mode with_unpublished = []) as Hnil.
  { unfold built_from in Hb. destruct with_unpublished.
    - apply Forall2_length in Hb. rewrite length_map in Hb. by rewrite <-!length_zero_iff_nil, Hb.
    - rewrite Hb. by destruct (selected ar test_mode false). }
  destruct ms as [|m0 ms'].
  { exists Err. split; [done|]. left. by apply Hnil. }
  set (ms := m0 :: ms') in *. eexists. split; [reflexivity|]. cbn [pk_package_id pk_modules pk_package_names pk_dependencies].
  assert (root_of ar ≠ addr_zero → with_unpublished || verify_deps = true →
    ∀ m, m ∈ ms → addr_zero ∉ immediate_dependencies m) as Hz.
  { intros Hr Hor m Hm Hz. destruct with_unpublished; [by eapply (bundled_no_zero ar test_mode ms)|].
    simpl in Hor. subst verify_deps. rewrite (bool_decide_false (root_of ar = addr_zero)) in E2 by done.
    cbn [andb negb] in E2. apply not_true_iff_false in E2. apply E2. apply existsb_elem. exists m. split; [done|].
    apply existsb_elem. exists addr_zero. split; [done|]. by apply bool_decide_eq_true. }
  split_and!.
  - intros [Hs|(-> & -> & [(d & Hd & Hdz)|(Hr & u & Hu & Huz)])].
    + by apply Hnil in Hs.
    + cbn [andb negb] in E1. apply not_true_iff_false in E1. apply E1. apply existsb_elem. exists d.
      split; [done|]. by apply bool_decide_eq_true.
    + apply (Hz Hr eq_refl (un_module u)); [|done]. rewrite Hb. apply list_elem_of_fmap. by exists u.
  - done.
  - done.
  - intros n. unfold name_iter. rewrite merge_sort_Permutation, elem_of_elements, Hnames. set_solver.
  - apply set_iter_spec.
  - apply set_iter_spec.
  - intros a. destruct (set_iter_spec (base.filter (λ t, t ≠ addr_zero ∧ t ≠ root_of ar) (ar_published ar))) as (_ & _ & ->).
    rewrite list_elem_of_filter. naive_solver.
  - done.
Qed.
End build.

(** ** Local dependencies *)
Section paths.
Context {Path Pkg : Type} `{Countable Path}.
Context (sorted_packages : Path → bool → result (list Pkg)).
Context (original_id : Pkg → option MoveAddress) (is_system_package : MoveAddress → bool).
Context (canonical_path : Pkg → result Path).
(** [depends p d]: the package at [p] needs the one at [d] deployed first. *)
Context (depends : Path → Path → Prop).

Definition is_system (package : Pkg) : bool :=
  match original_id package with Some id => is_system_package id | None => false end.
(** A package with a path of its own. *)
Definition located (package : Pkg) (p : Path) : Prop := is_system package = false ∧ canonical_path package = Ok p.

(** Dependencies come before what depends on them. *)
Definition deps_first (l : list Path) : Prop :=
  ∀ i p d, l !! i = Some p → depends p d → ∃ j, j < i ∧ l !! j = Some d.
(** What [sorted_packages] promises of its order: a package stands before its dependencies. *)
Definition packages_sorted (ps : list Pkg) : Prop :=
  ∀ i x p d, ps !! i = Some x → located x p → depends p d →
    ∃ j y, i < j ∧ ps !! j = Some y ∧ located y d.

Lemma deps_first_snoc l p : deps_first l → (∀ d, depends p d → d ∈ l) → deps_first (l ++ [p]).
Proof.
  intros Hl Hp i q d Hi Hd. apply lookup_app_Some in Hi as [Hi|[Hle Hi]].
  - destruct (Hl i q d Hi Hd) as (j & ? & Hj). exists j. split; [done|]. apply lookup_app_Some. by left.
  - apply list_lookup_singleton_Some in Hi as [Hi <-].
    destruct (list_elem_of_lookup_1 _ _ (Hp d Hd)) as [j Hj]. pose proof (lookup_lt_Some _ _ _ Hj).
    exists j. split; [lia|]. apply lookup_app_Some. by left.
Qed.

Record paths_inv (ordered : list Path) (seen : gset Path) (from : Path → Prop) : Prop := {
  pi_seen : seen = list_to_set ordered;
  pi_nodup : NoDup ordered;
  pi_from : ∀ p, p ∈ ordered ↔ from p;
}.

Lemma packages_loop_inv before packages ordered seen from ordered' seen' :
  paths_inv ordered seen (λ p, from p ∨ ∃ x, x ∈ before ∧ located x p) →
  packages_loop original_id is_system_package canonical_path packages ordered seen = Ok (ordered', seen') →
  paths_inv ordered' seen' (λ p, from p ∨ ∃ x, x ∈ before ++ packages ∧ located x p) ∧
  (packages_sorted (reverse (before ++ packages)) → deps_first ordered → deps_first ordered').
Proof.
  revert before ordered seen. induction packages as [|x packages IH]; intros before ordered seen Hinv E.
  - injection E as <- <-. rewrite app_nil_r. by split.
  - rewrite (cons_middle x before packages), app_assoc.
    pose proof Hinv as [Hseen Hnd Hfrom]. cbn [packages_loop] in E. fold (is_system x) in E.
    destruct (is_system x) eqn:Es.
    + apply (IH (before ++ [x]) ordered seen); [|done]. split; [done|done|]. intros p. rewrite Hfrom. split.
      * intros [?|(y & Hy & Hl)]; [by left|right]. exists y. split; [|done]. apply elem_of_app. by left.
      * intros [?|(y & [Hy| ->%list_elem_of_singleton]%elem_of_app & Hl)]; [by left|right; by exists y|].
        destruct Hl as [Hl _]. congruence.
    + destruct (canonical_path x) as [path|] eqn:Ec; [|done]. cbn [mbind result_mbind] in E.
      assert (∀ p, located x p ↔ p = path) as Hx.
      { intros p. unfold located. rewrite Es, Ec. split; [by intros [_ [= ->]]|by intros ->]. }
      case_decide as Hin.
      * apply (IH (before ++ [x]) ordered seen); [|done]. split; [done|done|]. intros p. rewrite Hfrom. split.
        -- intros [?|(y & Hy & Hl)]; [by left|right]. exists y. split; [|done]. apply elem_of_app. by left.
        -- intros [?|(y & [Hy| ->%list_elem_of_singleton]%elem_of_app & Hl)]; [by left|right; by exists y|].
           apply Hx in Hl as ->. apply Hfrom. subst seen. by apply elem_of_list_to_set in Hin.
      * destruct (IH (before ++ [x]) (ordered ++ [path]) ({[ path ]} ∪ seen)) as [Hi Hd]; [split| |].
        -- rewrite Hseen, list_to_set_app_L. simpl. set_solver.
        -- apply NoDup_app. split_and!; [done| |apply NoDup_singleton]. intros q Hq ->%list_elem_of_singleton.
           apply Hin. rewrite Hseen. by apply elem_of_list_to_set.
        -- intros p. rewrite elem_of_app, list_elem_of_singleton, Hfrom. split.
           ++ intros [[?|(y & Hy & Hl)]| ->]; [by left|right..].
              ** exists y. split; [|done]. apply elem_of_app. by left.
              ** exists x. split; [|by apply Hx]. apply elem_of_app. right. by apply list_elem_of_singleton.
           ++ intros [?|(y & [Hy| ->%list_elem_of_singleton]%elem_of_app & Hl)]; [by left; left|left; right; by exists y|].
              right. by apply Hx.
        -- done.
        -- split; [done|]. intros Hs Hf. apply Hd; [done|]. apply deps_first_snoc; [done|].
           intros d Hdep. apply Hfrom. right.
           assert (reverse ((before ++ [x]) ++ packages) !! length packages = Some x) as Hpos.
           { rewrite reverse_app, lookup_app_r by (by rewrite length_reverse).
             rewrite length_reverse, Nat.sub_diag, reverse_snoc. done. }
           destruct (Hs _ _ path d Hpos) as (j & y & Hj & Hy & Hyd); [by apply Hx|done|].
           rewrite reverse_app, lookup_app_r in Hy by (rewrite length_reverse; lia).
           rewrite length_reverse, reverse_snoc in Hy. destruct (j - length packages) as [|k] eqn:Ek; [lia|].
           assert (reverse before !! k = Some y) as Hk by exact Hy. apply list_elem_of_lookup_2 in Hk.
           rewrite elem_of_reverse in Hk. by exists y.
Qed.

Definition found_in (test_mode : bool) (folders : list Path) (p : Path) : Prop :=
  ∃ folder ps x, folder ∈ folders ∧ sorted_packages folder test_mode = Ok ps ∧ x ∈ ps ∧ located x p.

Lemma folders_loop_inv tm before folders ordered seen paths :
  paths_inv ordered seen (found_in tm before) →
  folders_loop sorted_packages original_id is_system_package canonical_path tm folders ordered seen = Ok paths →
  NoDup paths ∧ (∀ p, p ∈ paths ↔ found_in tm (before ++ folders) p) ∧
  ((∀ folder ps, folder ∈ folders → sorted_packages folder tm = Ok ps → packages_sorted ps) →
     deps_first ordered → deps_first paths).
Proof.
  revert before ordered seen. induction folders as [|f folders IH]; intros before ordered seen Hinv E.
  - injection E as <-. rewrite app_nil_r. destruct Hinv as [_ Hn Hf]. by split_and!.
  - cbn [folders_loop] in E. destruct (sorted_packages f tm) as [ps|] eqn:Ef; [|done]. cbn [mbind result_mbind] in E.
    destruct (packages_loop _ _ _ _ _ _) as [[ordered1 seen1]|] eqn:El; [|done]. cbn [mbind result_mbind] in E.
    apply (packages_loop_inv [] _ _ _ (found_in tm before)) in El as [[Hs1 Hn1 Hf1] Hd1].
    + cbn [app] in Hf1, Hd1. rewrite reverse_involutive in Hd1.
      destruct (IH (before ++ [f]) ordered1 seen1) as (Hn & Hf & Hd); [split; [done|done|]|exact E|].
      * intros p. rewrite Hf1. unfold found_in. split.
        -- intros [(g & qs & x & Hg & Hr)|(x & Hx & Hl)]; [|rewrite elem_of_reverse in Hx].
           ++ exists g, qs, x. split; [apply elem_of_app; by left|done].
           ++ exists f, ps, x. split; [apply elem_of_app; right; by apply list_elem_of_singleton|done].
        -- intros (g & qs & x & [Hg| ->%list_elem_of_singleton]%elem_of_app & Hq & Hx & Hl).
           ++ left. by exists g, qs, x.
           ++ right. rewrite Ef in Hq. injection Hq as <-. exists x. split; [by apply elem_of_reverse|done].
      * split_and!; [done|..].
        -- intros p. rewrite Hf, <-app_assoc. done.
        -- intros Hso Hfirst. apply Hd; [intros; eapply Hso; [by right|done]|]. apply Hd1; [|done].
           apply (Hso f); [by left|done].
    + destruct Hinv as [? ? Hf]. split; [done|done|]. intros p. rewrite Hf. split; [by left|].
      intros [?|(x & ?%not_elem_of_nil & _)]; done.
Qed.

(** Local packages are listed once, in an order in which they can be
    deployed: the paths are those of the packages of all folders that are not
    system packages, each once, and if the package system lists every package
    before its dependencies, every package comes after its dependencies - also
    those it shares with earlier folders. *)
Theorem local_dependencies_ordered folders test_mode paths :
  resolve_local_dependency_paths sorted_packages original_id is_system_package canonical_path folders test_mode = Ok paths →
  (∀ folder ps, folder ∈ folders → sorted_packages folder test_mode = Ok ps → packages_sorted ps) →
  NoDup paths ∧ (∀ p, p ∈ paths ↔ found_in test_mode folders p) ∧ deps_first paths.
Proof.
  intros E Hs. apply (folders_loop_inv test_mode []) in E as (Hn & Hf & Hd).
  - split_and!; [done|done|]. apply Hd; [done|]. intros i p d Hi. by rewrite lookup_nil in Hi.
  - split; [done|constructor|]. intros p. split; [by intros ?%not_elem_of_nil|].
    by intros (? & ? & ? & ?%not_elem_of_nil & _).
Qed.
End paths.

(** ** Test packages *)
Lemma mock_module_spec m : wf_module m → mock_module m = Ret (set_publishable true m).
Proof.
  intros Hw. unfold mock_module. destruct (self_address_ok m Hw) as [a ->]. cbn [mbind panics_mbind panics_bind].
  unfold module_self_name, self_handle. pose proof Hw as [Hs Hh _].
  destruct (at_index_lt _ _ Hs) as (sh & -> & Hsh). cbn [mbind panics_mbind panics_bind].
  rewrite Forall_forall in Hh. destruct (Hh sh) as [_ Hn]; [by apply list_elem_of_lookup_2 in Hsh|].
  destruct (at_index_lt _ _ Hn) as (? & -> & _). cbn [mbind panics_mbind panics_bind].
  destruct (cm_publishable m) eqn:Ep; [|done]. by destruct m; simpl in *; subst.
Qed.

(** A package is made publishable and nothing else, whatever number of times. *)
Theorem movy_mock_publishable p : Forall wf_module (pk_modules p) →
  ∃ p', movy_mock p = Ret p' ∧ pk_modules p' = map (set_publishable true) (pk_modules p) ∧
    pk_package_id p' = pk_package_id p ∧ (∀ a, a ∈ pk_dependencies p' ↔ a ∈ pk_dependencies p) ∧
    movy_mock p' = Ret p'.
Proof.
  intros Hw. unfold movy_mock.
  assert (∀ ms, Forall wf_module ms → mapM mock_module ms = Ret (map (set_publishable true) ms)) as Hm.
  { induction 1 as [|m ms Hm _ IH]; [done|]. cbn [mapM map]. rewrite mock_module_spec by done.
    cbn [mbind panics_mbind panics_bind]. by rewrite IH. }
  rewrite Hm by done. cbn [mbind panics_mbind panics_bind]. eexists. split; [reflexivity|]. simpl.
  destruct (set_iter_spec (pk_dependencies p)) as (_ & _ & Hd). split_and!; [done|done|done|].
  rewrite Hm.
  - cbn [mbind panics_mbind panics_bind]. rewrite map_map. f_equal. f_equal. unfold set_iter. f_equal. f_equal.
    apply set_eq. intros a. rewrite !elem_of_list_to_set. apply Hd.
  - apply Forall_fmap. eapply Forall_impl; [exact Hw|]. by intros m [? ? ?].
Qed.

(** One address for all modules, if there is a module. *)
Lemma all_same_address_spec p a : Forall wf_module (pk_modules p) →
  all_same_address p = Ret (Some a) ↔
  pk_modules p ≠ [] ∧ Forall (λ m, module_self_address m = Ret a) (pk_modules p).
Proof.
  intros Hw. unfold all_same_address.
  assert (∃ l, mapM module_self_address (pk_modules p) = Ret l ∧
    Forall2 (λ m a, module_self_address m = Ret a) (pk_modules p) l) as (l & -> & Hl).
  { apply mapM_returns. eapply Forall_impl; [exact Hw|]. intros m Hm. destruct (self_address_ok m Hm) as [b Hb]. eauto. }
  cbn [mbind panics_mbind panics_bind]. destruct Hl as [|m b ms l Hb Hl]; [naive_solver|].
  assert (Forall (λ c, c = b) l ↔ Forall (λ m, module_self_address m = Ret b) ms) as Hiff.
  { clear -Hl. induction Hl as [|m c ms l Hc Hl IH]; [by split; constructor|]. rewrite !Forall_cons, IH.
    rewrite Hc. naive_solver. }
  case_bool_decide as Hall.
  - split; [intros [= <-]; split; [done|]; constructor; [done|by apply Hiff]|].
    intros [_ H]. apply Forall_cons in H as [H _]. rewrite Hb in H. by injection H as ->.
  - split; [done|]. intros [_ [H1 H2]%Forall_cons]. rewrite Hb in H1. injection H1 as ->. by destruct Hall; apply Hiff.
Qed.

(** ** Witnesses *)
Definition demo_deps (m : CompiledModule) : list MoveAddress :=
  omap (handle_address m) (base.filter (λ i, i ≠ N.to_nat (cm_self m)) (seq 0 (length (cm_module_handles m)))).
Lemma demo_deps_handle m a : a ∈ demo_deps m → ∃ i, handle_address m i = Some a.
Proof. unfold demo_deps. rewrite list_elem_of_omap. intros (i & _ & H). by exists i. Qed.

(** Package 5 with one module that uses a module of an unpublished dependency. *)
Definition demo_root_module : CompiledModule :=
  MkModule 0 [MkHandle 0 0; MkHandle 1 1] [] [] ["a"; "b"]%string [MkMoveAddress 5; addr_zero] true.
Definition demo_dep_module : CompiledModule := MkModule 0 [MkHandle 0 0] [] [] ["b"]%string [addr_zero] true.
Definition demo_root_unit : NamedUnit := MkUnit (MkMoveAddress 5) (Some "root"%string) demo_root_module.
Definition demo_dep_unit : NamedUnit := MkUnit addr_zero (Some "dep"%string) demo_dep_module.
Definition demo_artifacts : CompiledArtifacts :=
  MkArtifacts (Some (MkMoveAddress 5)) "root" [("dep"%string, demo_dep_unit)] [demo_root_unit]
    [demo_root_unit; demo_dep_unit] [MkMoveAddress 2; MkMoveAddress 1; MkMoveAddress 2].
Lemma demo_artifacts_wf : wf_artifacts demo_artifacts.
Proof.
  assert (wf_unit demo_root_unit ∧ wf_unit demo_dep_unit) as [? ?].
  { split; (split; [|vm_compute; reflexivity]); split; try (vm_compute; lia);
      repeat constructor; vm_compute; lia. }
  split; by repeat constructor.
Qed.

Lemma build_checked_complete_witness :
  ∃ p, build_checked demo_deps (λ _ : unit, λ _, Ok demo_artifacts) tt false true true = Ret (Ok p) ∧
    pk_package_id p = MkMoveAddress 5 ∧ pk_dependencies p = [MkMoveAddress 1; MkMoveAddress 2] ∧
    map demo_deps (pk_modules p) = [[MkMoveAddress 5]; []] ∧
    ∀ m, m ∈ pk_modules p → addr_zero ∉ demo_deps m.
Proof.
  destruct (build_checked_complete demo_deps (λ _ : unit, λ _, Ok demo_artifacts) demo_deps_handle tt false true true
    demo_artifacts eq_refl demo_artifacts_wf) as ([p|] & E & H).
  - exists p. split; [exact E|]. destruct H as (_ & Hid & _ & _ & _ & Hz). vm_compute in E. injection E as <-.
    split; [exact Hid|]. split; [reflexivity|]. split; [vm_compute; reflexivity|].
    apply Hz; [intros Hr; by vm_compute in Hr|reflexivity].
  - vm_compute in E. discriminate E.
Defined.

(** Packages 1 and 2 both need package 3; package 4 is a system package. *)
Definition demo_sorted (folder : N) (test_mode : bool) : result (list N) := Ok [folder; 3; 4]%N.
Definition demo_needs (p d : N) : Prop := (p = 1 ∨ p = 2)%N ∧ d = 3%N.
Lemma local_dependencies_ordered_witness :
  resolve_local_dependency_paths demo_sorted (λ x, Some (MkMoveAddress x)) (λ a, bool_decide (a = MkMoveAddress 4)) Ok
    [1; 2]%N true = Ok [3; 1; 2]%N ∧
  deps_first demo_needs [3; 1; 2]%N.
Proof.
  split; [vm_compute; reflexivity|].
  apply (local_dependencies_ordered demo_sorted (λ x, Some (MkMoveAddress x)) (λ a, bool_decide (a = MkMoveAddress 4)) Ok
    demo_needs [1; 2]%N true); [vm_compute; reflexivity|].
  intros folder ps Hf [= <-] i x p d Hi [_ [= ->]] [Hp ->].
  assert (i = 0) as ->.
  { destruct i as [|[|[|i]]]; [done|simpl in Hi; simplify_eq; lia..|].
    destruct Hp; subst; simplify_eq/=. }
  exists 1, 3%N. split; [lia|]. split; [done|]. split; vm_compute; reflexivity.
Defined.

(** [contains_nonzero_modules] looks for a module at address zero. *)
Example nonzero_modules_inverted :
  contains_nonzero_modules (MkPackage addr_zero "" [] [demo_root_module] [] []) = Ret false ∧
  contains_nonzero_modules (MkPackage addr_zero "" [] [demo_dep_module] [] []) = Ret true.
Proof. split; vm_compute; reflexivity. Qed.
