(* ===== verification/Db.v ===== *)
(** * Db: what the replay environment asks of a store

    [crates/movy-replay/src/db.rs]. [ObjectDb] is the interface behind the
    storage traits ([ObjectStore], [BackingPackageStore],
    [ObjectSuiStoreCommit], [ObjectStoreCachedStore]); the cache in memory
    ([Cache]) and the file cache ([File]) implement it. [ObjectDbLaws] is what
    the environment relies on. The facts about Sui's objects and the encodings
    are arguments. *)
From S2P Require Import Prelude Types FuzzTracer TypeGraph Meta Cache Objects File FileSpec.

Class ObjectDb `{OL : ObjectLib} (T : Type) := {
  db_get_package_object : MoveAddress → T → result (option Object) * T;
  db_get_object : MoveAddress → T → option Object * T;
  db_get_object_by_key : MoveAddress → N → T → option Object * T;
  db_commit_store : InnerTemporaryStore → TransactionEffects → T → panics (result () * T);
  db_commit_single_object : Object → T → result () * T;
  db_list_objects : T → result (list MoveAddress);
  db_dump_snapshot : T → result CachedSnapshot;
  db_restore_snapshot : CachedSnapshot → T → result T;
}.

#[export] Instance cache_db `{OL : ObjectLib} (store : Backing) : ObjectDb CachedSnapshot := {
  db_get_package_object := get_package_object store;
  db_get_object := get_object store;
  db_get_object_by_key := get_object_by_key store;
  db_commit_store st fx s := s ← commit_store st fx s; Ret (Ok (), s);
  db_commit_single_object o s := (Ok (), commit_single_object o s);
  db_list_objects s := Ok (address_iter s).*1;
  db_dump_snapshot s := Ok s;
  db_restore_snapshot dump s := Ok (restore_snapshot dump s);
}.
#[export] Instance rocks_db `{RL : RocksLib} `{OL : ObjectLib} `{TC : !TableCodec} (store : Backing) :
    ObjectDb RocksCachedStore := {
  db_get_package_object := rocks_get_package_object store;
  db_get_object := rocks_get_object store;
  db_get_object_by_key := rocks_get_object_by_key store;
  db_commit_store := rocks_commit_store;
  db_commit_single_object := rocks_commit_single_object;
  db_list_objects := list_object_ids;
  db_dump_snapshot := rocks_dump_snapshot;
  db_restore_snapshot := rocks_restore_snapshot;
}.

(** What is read of an object: whether it is a package, its type - [None] for
    a package -, its owner and its digest. *)
Class ObjectFacts `{OL : ObjectLib} := {
  obj_is_package : Object → bool;
  obj_type : Object → option MoveTypeTag;
  obj_owner : Object → MoveOwner;
  obj_digest : Object → N;
}.

Section db.
Context `{OL : ObjectLib} {T : Type} `{DB : !ObjectDb T} `{OF : !ObjectFacts}.

Definition object_info_of (value : Object) : result MoveObjectInfo :=
  match obj_type value with
  | Some ty => Ok (MkObjectInfo (obj_id value) ty (obj_owner value) (obj_version value) (obj_digest value))
  | None => Err
  end.
Definition sui_reference (info : MoveObjectInfo) : ObjectRef := (oi_id info, oi_version info, oi_digest info).

Definition get_version (object_id : MoveAddress) (s : T) : result N * T :=
  match db_get_object object_id s with
  | (Some object, s) => (Ok (obj_version object), s)
  | (None, s) => (Err, s)
  end.
Definition get_move_object_info (object_id : MoveAddress) (s : T) : result MoveObjectInfo * T :=
  match db_get_object object_id s with
  | (Some object, s) => (object_info_of object, s)
  | (None, s) => (Err, s)
  end.
(** [from_sui_object] is [MovePackageAbi::from_sui_object]. *)
Definition get_package_info {Abi : Type} (from_sui_object : Object → result Abi) (object_id : MoveAddress) (s : T) :
    result (option Abi) * T :=
  match db_get_object object_id s with
  | (Some object, s) => (abi ← from_sui_object object; Ok (Some abi), s)
  | (None, s) => (Ok None, s)
  end.

(** [new_coin] builds the object; it fails for types that are none. *)
Definition mint_coin_id (new_coin : MoveTypeTag → MoveOwner → MoveAddress → N → result Object)
    (coin : MoveTypeTag) (owner : MoveOwner) (id : MoveAddress) (value : N) (s : T) : result () * T :=
  match new_coin coin owner id value with
  | Err => (Err, s)
  | Ok coin => db_commit_single_object coin s
  end.
(** [address] is the random one. *)
Definition mint_coin (new_coin : MoveTypeTag → MoveOwner → MoveAddress → N → result Object)
    (address : MoveAddress) (coin : MoveTypeTag) (owner : MoveOwner) (value : N) (s : T) : result MoveAddress * T :=
  match mint_coin_id new_coin coin owner address value s with
  | (Err, s) => (Err, s)
  | (Ok _, s) => (Ok address, s)
  end.

Definition load_object (address : MoveAddress) (s : T) : result () * T :=
  match db_get_object address s with
  | (Some _, s) => (Ok (), s)
  | (None, s) => (Err, s)
  end.
Definition dump {B : Type} (to_bytes : CachedSnapshot → B) (s : T) : result B :=
  snap ← db_dump_snapshot s; Ok (to_bytes snap).
Definition restore {B : Type} (from_bytes : B → result CachedSnapshot) (bs : B) (s : T) : result T :=
  snap ← from_bytes bs; db_restore_snapshot snap s.
End db.

(** ** What the environment relies on *)
Definition found `{DB : ObjectDb T} (id : MoveAddress) (s : T) : Prop := is_Some (db_get_object id s).1.

(** An object that was committed is found, and stays found, and nothing else
    is found after it that was not before; [db_inv] are the
    states the store can be in, [db_id] the ids it can be asked for. *)
Class ObjectDbLaws `{OL : ObjectLib} (T : Type) `{DB : !ObjectDb T} := {
  db_inv : T → Prop;
  db_id : MoveAddress → Prop;
  get_inv id s : db_id id → db_inv s → db_inv (db_get_object id s).2;
  commit_ok o s : db_inv s → (db_commit_single_object o s).1 = Ok () ∧ db_inv (db_commit_single_object o s).2;
  found_commit o s : db_inv s → found (obj_id o) (db_commit_single_object o s).2;
  found_get id id' s : db_id id → db_id id' → db_inv s → found id s → found id (db_get_object id' s).2;
  found_stays id o s : db_id id → db_inv s → found id s → found id (db_commit_single_object o s).2;
  found_only_get id id' s : db_id id → db_id id' → db_inv s → found id (db_get_object id' s).2 → found id s;
  found_only id o s : db_id id → db_inv s → found id (db_commit_single_object o s).2 → id = obj_id o ∨ found id s;
}.

Section cache_laws.
Context `{OL : ObjectLib} (store : Backing).
(** Versions are [u64]. *)
Hypothesis version_bound : ∀ o, (obj_version o ≤ u64_max)%N.
(** The wrapped store has an object under its own id. *)
Hypothesis store_id : ∀ id o, bk_get_object store id = Some o → obj_id o = id.

(** No id is known not to exist: what child reads of absent objects leave. *)
Definition no_marks (s : CachedSnapshot) : Prop :=
  ∀ id v x, entry s id v = Some x → ∃ o, x = Some o ∧ (v ≤ u64_max)%N.

Lemma cached_found s id : no_marks s → is_Some (object_id_cached s id) ↔ ∃ v, is_Some (entry s id v).
Proof.
  intros Hn. unfold object_id_cached, object_resolved_upperbound. pose proof (resolve_spec s id u64_max) as Hr.
  destruct (object_resolve_upperbound_details s id u64_max) as [| |o]; simpl.
  - split; [by intros []|]. intros (v & x & Hx). destruct (Hn _ _ _ Hx) as (o & -> & Hv). by rewrite Hr in Hx.
  - destruct Hr as (v & Hx & _). by destruct (Hn _ _ _ Hx) as (? & ? & _).
  - destruct Hr as (v & Hx & _). split; [|done]. intros _. by exists v, (Some o).
Qed.
Lemma no_marks_commit o s : no_marks s → no_marks (cache_object_only o s).
Proof.
  intros Hn id v x. unfold cache_object_only. rewrite entry_cache_query. case_decide; [|apply Hn].
  simplify_eq. intros [= <-]. exists o. split; [done|]. apply version_bound.
Qed.
Lemma cached_commit o s id : no_marks s →
  id = obj_id o ∨ is_Some (object_id_cached s id) → is_Some (object_id_cached (cache_object_only o s) id).
Proof.
  intros Hn H. apply cached_found; [by apply no_marks_commit|]. unfold cache_object_only.
  destruct H as [->|H]; [exists (obj_version o); rewrite entry_cached; by eexists|].
  apply cached_found in H as [v Hv]; [|done]. exists v. rewrite entry_cache_query. by case_decide.
Qed.
Lemma cached_only o s id : no_marks s → is_Some (object_id_cached (cache_object_only o s) id) →
  id = obj_id o ∨ is_Some (object_id_cached s id).
Proof.
  intros Hn H. apply cached_found in H as [v Hv]; [|by apply no_marks_commit]. unfold cache_object_only in Hv.
  rewrite entry_cache_query in Hv. case_decide as E; [left; naive_solver|right]. apply cached_found; eauto.
Qed.
Lemma get_object_state id s : (get_object store id s).2 = s ∨
  ∃ o, bk_get_object store id = Some o ∧ (get_object store id s).2 = cache_object_only o s.
Proof.
  unfold get_object. destruct (object_id_cached s id); [by left|]. destruct (bk_get_object store id); [right; eauto|by left].
Qed.
Lemma cache_found_iff id s : found (DB := cache_db store) id s ↔
  is_Some (object_id_cached s id) ∨ is_Some (bk_get_object store id).
Proof.
  unfold found. simpl. unfold get_object. destruct (object_id_cached s id) eqn:E; [naive_solver|].
  destruct (bk_get_object store id); simpl; naive_solver.
Qed.
Lemma cache_found_commit id o s : no_marks s → found (DB := cache_db store) id s →
  found (DB := cache_db store) id (cache_object_only o s).
Proof.
  intros Hn. rewrite !cache_found_iff. intros [H|H]; [left|by right]. apply cached_commit; auto.
Qed.

Lemma cache_found_only id o s : no_marks s → found (DB := cache_db store) id (cache_object_only o s) →
  id = obj_id o ∨ found (DB := cache_db store) id s.
Proof. intros Hn. rewrite !cache_found_iff. intros [H|H]; [|by auto]. apply cached_only in H; naive_solver. Qed.
Lemma cache_found_get id id' s : no_marks s → found (DB := cache_db store) id (get_object store id' s).2 →
  found (DB := cache_db store) id s.
Proof.
  intros Hn. destruct (get_object_state id' s) as [->|(o & Ho & ->)]; [done|].
  intros [->|H]%cache_found_only; [|done..]. apply cache_found_iff. right. rewrite (store_id _ _ Ho). by eexists.
Qed.

Definition cache_laws : ObjectDbLaws CachedSnapshot (DB := cache_db store).
Proof.
  refine (Build_ObjectDbLaws _ _ (cache_db store) no_marks (λ _, True) _ _ _ _ _ _ _).
  - intros id s _ Hn. simpl. destruct (get_object_state id s) as [->|(o & _ & ->)]; [done|by apply no_marks_commit].
  - intros o s Hn. split; [done|by apply no_marks_commit].
  - intros o s Hn. apply cache_found_iff. left. apply cached_commit; auto.
  - intros id id' s _ _ Hn H. simpl. destruct (get_object_state id' s) as [->|(o & _ & ->)]; [done|by apply cache_found_commit].
  - intros id o s _ Hn H. by apply cache_found_commit.
  - intros id id' s _ _ Hn. by apply cache_found_get.
  - intros id o s _ Hn. by apply cache_found_only.
Defined.
End cache_laws.

Section rocks_laws.
Context `{RL : RocksLib} `{OL : ObjectLib} `{TC : !TableCodec} (store : Backing).

Hypothesis store_id : ∀ id o, bk_get_object store id = Some o → obj_id o = id.

(** A writable store with its column family; ids are those of objects. *)
Definition rocks_inv (s : RocksCachedStore) : Prop := rs_ro s = false ∧ ∃ snap, images s snap.

Lemma object_bound o : (obj_version o ≤ u64_max)%N.
Proof.
  destruct (object_valid o) as [_ Hov]. unfold u64_max. change (2 ^ 64)%N with 18446744073709551616%N in Hov. lia.
Qed.
Lemma images_put s snap o : images s snap → rs_ro s = false →
  ∃ s', put_object o s = (Ok (), s') ∧ images s' (cache_object_only o snap) ∧ rs_ro s' = false.
Proof.
  intros Hi Hro. destruct (put_images s snap o Hi) as (s' & E & Hi'). rewrite Hro in Hi'. exists s'. split_and!; [done..|].
  unfold put_object in E. rewrite Hro in E. destruct (cf_objects s); [|done]. by injection E as <-.
Qed.
Lemma rocks_get_state id s : rocks_inv s → (rocks_get_object store id s).2 = s ∨
  ∃ o, bk_get_object store id = Some o ∧ (rocks_get_object store id s).2 = (put_object o s).2.
Proof.
  intros _. unfold rocks_get_object. destruct (get_object_by_id_db id s) as [[o|]|]; [by left|..];
    unfold fetch_logged; destruct (bk_get_object store id); eauto.
Qed.
Lemma images_no_marks s snap : images s snap → no_marks snap.
Proof.
  intros Hi id v x Hx. destruct (images_live _ _ _ _ _ Hi Hx) as (o & -> & _ & <-). exists o. split; [done|].
  apply object_bound.
Qed.
Lemma rocks_found_iff id s snap : images s snap → key_valid id 0 →
  found (DB := rocks_db store) id s ↔ is_Some (object_id_cached snap id) ∨ is_Some (bk_get_object store id).
Proof.
  intros Hi Hv. destruct (read_same store (ReadObject id) s snap Hi Hv) as [H _]. simpl in H.
  pose proof (cache_found_iff store id snap) as Hc. unfold found in *. simpl in *.
  destruct (rocks_get_object store id s) as [r s'], (get_object store id snap) as [r' snap']. simpl in *.
  injection H as ->. done.
Qed.

Lemma rocks_put_inv o s : rocks_inv s → rocks_inv (put_object o s).2.
Proof.
  intros [Hro [snap Hi]]. destruct (images_put s snap o Hi Hro) as (s' & -> & Hi' & Hro'). split; [done|by eexists].
Qed.
Lemma rocks_found_put id o s : rocks_inv s → key_valid id 0 →
  id = obj_id o ∨ found (DB := rocks_db store) id s → found (DB := rocks_db store) id (put_object o s).2.
Proof.
  intros [Hro [snap Hi]] Hv H. destruct (images_put s snap o Hi Hro) as (s' & -> & Hi' & _). cbn [snd].
  apply (rocks_found_iff _ _ _ Hi' Hv). pose proof (images_no_marks _ _ Hi) as Hn.
  pose proof object_bound as Hb.
  destruct H as [->|H]; [left; apply cached_commit; auto|]. apply (rocks_found_iff _ _ _ Hi Hv) in H as [H|H]; [|by right].
  left. apply cached_commit; auto.
Qed.

Lemma rocks_only id o s : rocks_inv s → key_valid id 0 → found (DB := rocks_db store) id (put_object o s).2 →
  id = obj_id o ∨ found (DB := rocks_db store) id s.
Proof.
  intros [Hro [snap Hi]] Hv. destruct (images_put s snap o Hi Hro) as (s' & -> & Hi' & _). cbn [snd].
  rewrite (rocks_found_iff _ _ _ Hi' Hv), (rocks_found_iff _ _ _ Hi Hv). pose proof (images_no_marks _ _ Hi) as Hn.
  intros [H|H]; [|by auto]. apply cached_only in H; [naive_solver|apply object_bound|done].
Qed.

Definition rocks_laws : ObjectDbLaws RocksCachedStore (DB := rocks_db store).
Proof.
  refine (Build_ObjectDbLaws _ _ (rocks_db store) rocks_inv (λ id, key_valid id 0) _ _ _ _ _ _ _).
  - intros id s _ Hs. simpl. destruct (rocks_get_state id s Hs) as [->|(o & _ & ->)]; [done|by apply rocks_put_inv].
  - intros o s Hs. split; [|by apply rocks_put_inv]. destruct Hs as [Hro [snap Hi]]. simpl. unfold rocks_commit_single_object.
    by destruct (images_put s snap o Hi Hro) as (s' & -> & _).
  - intros o s Hs. apply rocks_found_put; [done| |by left].
    destruct (object_valid o) as [H _]. by split.
  - intros id id' s Hv _ Hs H. simpl. destruct (rocks_get_state id' s Hs) as [->|(o & _ & ->)]; [done|].
    apply rocks_found_put; auto.
  - intros id o s Hv Hs H. apply rocks_found_put; auto.
  - intros id id' s Hv _ Hs. simpl. destruct (rocks_get_state id' s Hs) as [->|(o & Ho & ->)]; [done|].
    intros [->|H]%rocks_only; [|done..]. destruct Hs as [_ [snap Hi]]. apply (rocks_found_iff _ _ _ Hi Hv). right.
    rewrite (store_id _ _ Ho). by eexists.
  - intros id o s Hv Hs. by apply rocks_only.
Defined.
End rocks_laws.
