(* ===== verification/Deploy.v ===== *)
(** * Deploy: running transactions and deploying packages

    [crates/movy-replay/src/exec.rs] over any store ([ObjectDb]): the inputs of
    a transaction are collected, the VM is called, a package is published at an
    address chosen beforehand ([TARGET_DEPLOYMENT], a table that is global to
    the process and passed as a state), and what the transaction created is
    looked up. The VM, digests, gas and the serialisation of modules are
    arguments. *)
From S2P Require Import Prelude Types Ptb TraceState Tracer FuzzTracer Cache Objects Db Compile.

Definition very_big_gas : N := 10000000000000000000.

Inductive TransactionKind :=
| ProgrammableTransaction (ptb : list CallArg * list Command)
| SystemTransaction (n : N).
Record TransactionData := MkTx {
  tx_kind : TransactionKind; tx_sender : MoveAddress; tx_gas : list ObjectRef; tx_budget : N; tx_price : N }.
Definition transaction_new (kind : TransactionKind) (sender : MoveAddress) (gas : ObjectRef) (budget price : N) :
    TransactionData := MkTx kind sender [gas] budget price.
Definition is_system_tx (tx : TransactionData) : bool :=
  match tx_kind tx with SystemTransaction _ => true | _ => false end.
Definition bump_budget (tx : TransactionData) : TransactionData :=
  MkTx (tx_kind tx) (tx_sender tx) (tx_gas tx) ((tx_budget tx + 1) mod 2 ^ 64) (tx_price tx).

Inductive InputObjectKind :=
| MovePackageInput (package : MoveAddress)
| ImmOrOwnedInput (r : ObjectRef)
| SharedInput (id : MoveAddress) (initial_shared_version : N).

(** [Owner::start_version] *)
Definition start_version (o : MoveOwner) : option N :=
  match o with
  | Shared_ v => Some v
  | ConsensusAddressOwner v _ => Some v
  | _ => None
  end.

(** [SuiFuzzMode] allows any call and looks for the address to deploy to. *)
Inductive ExecutionMode := Mode_Normal | Mode_Fuzz (targeted_deployment : N → option MoveAddress).

Inductive WriteKind := Write_Mutate | Write_Create | Write_Unwrap.
#[export] Instance WriteKind_eq_dec : EqDecision WriteKind.
Proof. solve_decision. Defined.

(** Effects are those of [Cache], with the changed objects and the status. *)
Record Effects := MkEffects {
  fx_commit : TransactionEffects; fx_is_ok : bool;
  fx_all_changed_objects : list (ObjectRef * MoveOwner * WriteKind) }.

Section exec.
Context `{OL : ObjectLib} {T : Type} `{DB : !ObjectDb T} `{OF : !ObjectFacts}.

(** The results of the VM; [er_trace] are the events it sent to a tracer. *)
Record ExecutionResults := MkResults {
  er_effects : Effects; er_store : InnerTemporaryStore; er_trace : list TraceEvent }.

(** The state of a process: the store and the target deployments. *)
Record World := MkWorld { w_db : T; w_deployments : gmap N MoveAddress }.
Definition set_db (db : T) (w : World) : World := MkWorld db (w_deployments w).
Definition set_deployments (d : gmap N MoveAddress) (w : World) : World := MkWorld (w_db w) d.

Context (tx_digest : TransactionData → N) (input_objects : TransactionData → result (list InputObjectKind)).
(** [SuiGasStatus::new] on budget and price: it may refuse. *)
Context (gas_ok : N → N → bool).
(** The VM, which reads the store and may fill its cache. *)
Context (execute : ExecutionMode → list (InputObjectKind * Object) → TransactionData → N → N → T →
  ExecutionResults * T).

(** ** Inputs *)
Definition collect_input (objref : InputObjectKind) (db : T) : panics (result Object * T) :=
  match objref with
  | MovePackageInput package =>
      Ret (match db_get_package_object package db with
           | (Ok (Some package), db) => (Ok package, db)
           | (_, db) => (Err, db)
           end)
  | ImmOrOwnedInput (obj_id, version, _) =>
      Ret (match db_get_object_by_key obj_id version db with
           | (Some object, db) => (Ok object, db)
           | (None, db) => (Err, db)
           end)
  | SharedInput id initial_shared_version =>
      match db_get_object id db with
      | (Some object, db) =>
          v ← unwrap (start_version (obj_owner object));
          Ret (if (initial_shared_version =? v)%N then (Ok object, db) else (Err, db))
      | (None, db) => Ret (Err, db)
      end
  end.
Fixpoint collect_inputs (objrefs : list InputObjectKind) (objects : list (InputObjectKind * Object)) (db : T) :
    panics (result (list (InputObjectKind * Object)) * T) :=
  match objrefs with
  | [] => Ret (Ok objects, db)
  | objref :: objrefs =>
      '(r, db) ← collect_input objref db;
      match r with
      | Err => Ret (Err, db)
      | Ok object => collect_inputs objrefs (objects ++ [(objref, object)]) db
      end
  end.

(** The gas objects of a transaction that is paid for. *)
Definition collect_gas (tx : TransactionData) (objects : list (InputObjectKind * Object)) (db : T) :
    panics (result (list (InputObjectKind * Object)) * T) :=
  if is_system_tx tx then Ret (Ok objects, db) else
  '(r, db) ← collect_inputs (map ImmOrOwnedInput (tx_gas tx)) objects db;
  match r with
  | Err => Ret (Err, db)
  | Ok objects => Ret (if gas_ok (tx_budget tx) (tx_price tx) then Ok objects else Err, db)
  end.

(** ** The table of target deployments *)

(** [GlobalDeployment::new]: the budget is raised until the digest is free;
    fuel for the attempts. *)
Fixpoint reserve (fuel : nat) (tx : TransactionData) (target : MoveAddress) (deployments : gmap N MoveAddress) :
    option (TransactionData * gmap N MoveAddress) :=
  match fuel with
  | 0 => None
  | S fuel =>
      match deployments !! tx_digest tx with
      | None => Some (tx, <[tx_digest tx := target]> deployments)
      | Some _ => reserve fuel (bump_budget tx) target deployments
      end
  end.
(** [drop] *)
Definition release (digest : N) (deployments : gmap N MoveAddress) : gmap N MoveAddress :=
  delete digest deployments.

(** ** Runs *)

(** One attempt more than there are entries is enough ([reserve_ends]); [None]: it was not. *)
Definition run_vm (tx : TransactionData) (epoch epoch_ms : N) (target_deployment : option MoveAddress)
    (allow_testing_calls : bool) (objects : list (InputObjectKind * Object)) (w : World) :
    option (ExecutionResults * World) :=
  match target_deployment with
  | Some target =>
      '(tx, deployments) ← reserve (S (size (w_deployments w))) tx target (w_deployments w);
      let '(results, db) := execute (Mode_Fuzz (λ d, deployments !! d)) objects tx epoch epoch_ms (w_db w) in
      Some (results, MkWorld db (release (tx_digest tx) deployments))
  | None =>
      let mode := if allow_testing_calls || is_system_tx tx then Mode_Fuzz (λ d, w_deployments w !! d) else Mode_Normal in
      let '(results, db) := execute mode objects tx epoch epoch_ms (w_db w) in
      Some (results, set_db db w)
  end.

(** [Ret (None, _)]: the reservation ran out of fuel. *)
Definition run_tx_trace_inner (tx : TransactionData) (epoch epoch_ms : N) (target_deployment : option MoveAddress)
    (allow_testing_calls : bool) (w : World) : panics (option (result ExecutionResults) * World) :=
  match input_objects tx with
  | Err => Ret (Some Err, w)
  | Ok objrefs =>
      '(r, db) ← collect_inputs objrefs [] (w_db w);
      let w := set_db db w in
      match r with
      | Err => Ret (Some Err, w)
      | Ok objects =>
          '(r, db) ← collect_gas tx objects (w_db w);
          let w := set_db db w in
          match r with
          | Err => Ret (Some Err, w)
          | Ok objects =>
              Ret (match run_vm tx epoch epoch_ms target_deployment allow_testing_calls objects w with
                   | Some (results, w) => (Some (Ok results), w)
                   | None => (None, w)
                   end)
          end
      end
  end.
Definition run_tx_trace (tx : TransactionData) (epoch epoch_ms : N) (w : World) :
    panics (option (result ExecutionResults) * World) := run_tx_trace_inner tx epoch epoch_ms None false w.

Definition run_ptb_with_gas_inner (ptb : list CallArg * list Command) (epoch epoch_ms : N) (sender gas : MoveAddress)
    (target_deployment : option MoveAddress) (allow_testing_calls : bool) (w : World) :
    panics (option (result ExecutionResults) * World) :=
  match get_move_object_info gas (w_db w) with
  | (Err, db) => Ret (Some Err, set_db db w)
  | (Ok info, db) =>
      let tx := transaction_new (ProgrammableTransaction ptb) sender (sui_reference info) (very_big_gas / 1000) 1 in
      run_tx_trace_inner tx epoch epoch_ms target_deployment allow_testing_calls (set_db db w)
  end.
Definition run_ptb_with_gas ptb epoch epoch_ms sender gas (w : World) :
    panics (option (result ExecutionResults) * World) :=
  run_ptb_with_gas_inner ptb epoch epoch_ms sender gas None false w.

(** A run observed by a tracer: it sees the events of the VM. *)
Section traced.
Context `{TL : TraceLib} {R : Type} `{ME : MovySuiTracerExt R}.
Definition traced (tracer : R) (run : World → panics (option (result ExecutionResults) * World)) (w : World) :
    panics (option (result (ExecutionResults * R)) * World) :=
  '(r, w) ← run w;
  match r with
  | Some (Ok results) =>
      t ← notify_all (wrapper_from tracer) (er_trace results);
      Ret (Some (Ok (results, wr_tracer t)), w)
  | Some Err => Ret (Some Err, w)
  | None => Ret (None, w)
  end.
Definition run_ptb_with_movy_tracer_gas ptb epoch epoch_ms sender gas (tracer : R) :=
  traced tracer (run_ptb_with_gas ptb epoch epoch_ms sender gas).
Definition run_ptb_with_movy_testing_tracer_gas ptb epoch epoch_ms sender gas (tracer : R) :=
  traced tracer (run_ptb_with_gas_inner ptb epoch epoch_ms sender gas None true).
End traced.

(** [gas_id] is random; [sui_coin] is the type of the coin. *)
Definition run_ptb_mint_gas (new_coin : MoveTypeTag → MoveOwner → MoveAddress → N → result Object)
    (sui_coin : MoveTypeTag) (gas_id : MoveAddress) ptb (epoch epoch_ms : N) (sender : MoveAddress) (w : World) :
    panics (option (result ExecutionResults) * World) :=
  match mint_coin_id new_coin sui_coin (AddressOwner sender) gas_id very_big_gas (w_db w) with
  | (Err, db) => Ret (Some Err, set_db db w)
  | (Ok _, db) =>
      match get_move_object_info gas_id db with
      | (Err, _) => Panic
      | (Ok info, db) => run_ptb_with_gas ptb epoch epoch_ms sender (sui_reference info).1.1 (set_db db w)
      end
  end.

(** ** Deployment *)
Context (serialize : CompiledModule → result Ptb.Bytes).
Context (compute_digest : list Ptb.Bytes → list MoveAddress → Ptb.Bytes).
Context (is_upgrade_cap : MoveTypeTag → bool).

Fixpoint serialize_all (modules : list CompiledModule) : result (list Ptb.Bytes) :=
  match modules with
  | [] => Ok []
  | m :: modules => buf ← serialize m; bufs ← serialize_all modules; Ok (buf :: bufs)
  end.

(** A module that is not at address zero cannot be published. *)
Definition has_nonzero (modules : list CompiledModule) : panics bool :=
  any_module (λ m, a ← module_self_address m; Ret (negb (bool_decide (a = addr_zero)))) modules.
Definition target_of (package_id : MoveAddress) : option MoveAddress :=
  if decide (package_id = addr_zero) then None else Some package_id.

Definition is_created_package (store : InnerTemporaryStore) (t : ObjectRef * MoveOwner * WriteKind) : panics bool :=
  let '(r, owner, kind) := t in
  match kind, owner with
  | Write_Create, Immutable_ => object ← unwrap (its_written store !! r.1.1); Ret (obj_is_package object)
  | _, _ => Ret false
  end.
(** [Owner::AddressOwner(_admin)] is a pattern that binds: any owner will do. *)
Definition is_created_cap (store : InnerTemporaryStore) (t : ObjectRef * MoveOwner * WriteKind) : panics bool :=
  let '(r, owner, kind) := t in
  match kind, owner with
  | Write_Create, AddressOwner _admin =>
      object ← unwrap (its_written store !! r.1.1);
      Ret (match obj_type object with Some ty => is_upgrade_cap ty | None => false end)
  | _, _ => Ret false
  end.

(** What the transaction created: the last package and the last upgrade cap. *)
Fixpoint find_created (store : InnerTemporaryStore) (l : list (ObjectRef * MoveOwner * WriteKind))
    (new_object upgrade_cap : option ObjectRef) : panics (option ObjectRef * option ObjectRef) :=
  match l with
  | [] => Ret (new_object, upgrade_cap)
  | t :: l =>
      p ← is_created_package store t;
      c ← is_created_cap store t;
      find_created store l (if p : bool then Some t.1.1 else new_object) (if c : bool then Some t.1.1 else upgrade_cap)
  end.
Fixpoint find_package (store : InnerTemporaryStore) (l : list (ObjectRef * MoveOwner * WriteKind))
    (new_package : option ObjectRef) : panics (option ObjectRef) :=
  match l with
  | [] => Ret new_package
  | t :: l =>
      p ← is_created_package store t;
      find_package store l (if p : bool then Some t.1.1 else new_package)
  end.

Definition misses_target (target : option MoveAddress) (deployed : ObjectRef) : bool :=
  match target with Some target => negb (bool_decide (deployed.1.1 = target)) | None => false end.

(** [self.db.commit_store(..)?] and the value after it. *)
Definition commit_then {A} (results : ExecutionResults) (a : A) (w : World) : panics (option (result A) * World) :=
  '(r, db) ← db_commit_store (er_store results) (fx_commit (er_effects results)) (w_db w);
  Ret (Some (match r with Ok _ => Ok a | Err => Err end), set_db db w).

(** The published modules: the transaction of [deploy_contract]. *)
Definition publish_ptb (to_bytes : MoveAddress → Ptb.Bytes) (admin : MoveAddress) (modules_bytes : list Ptb.Bytes)
    (dependencies : list MoveAddress) : list CallArg * list Command :=
  ([CA_Pure (to_bytes admin)],
   [Cmd_Publish modules_bytes dependencies; Cmd_TransferObjects [A_Result 0] (A_Input 0)]).

Definition finish_deploy (target : option MoveAddress) (results : ExecutionResults) (w : World) :
    panics (option (result (MoveAddress * MoveAddress)) * World) :=
  '(new_object, upgrade_cap) ← find_created (er_store results) (fx_all_changed_objects (er_effects results)) None None;
  match new_object with
  | None => Ret (Some Err, w)
  | Some new_object =>
      if misses_target target new_object then Ret (Some Err, w) else
      match upgrade_cap with
      | Some cap => commit_then results (new_object.1.1, cap.1.1) w
      | None => Ret (Some Err, w)
      end
  end.

Definition deploy_contract (to_bytes : MoveAddress → Ptb.Bytes) (epoch epoch_ms : N) (admin gas : MoveAddress)
    (project : SuiCompiledPackage) (w : World) : panics (option (result (MoveAddress * MoveAddress)) * World) :=
  let package_id := pk_package_id project in
  let '(modules, dependencies) := into_deployment project in
  nonzero ← has_nonzero modules;
  if nonzero : bool then Ret (Some Err, w) else
  match serialize_all modules with
  | Err => Ret (Some Err, w)
  | Ok modules_bytes =>
      let target := target_of package_id in
      '(r, w) ← run_ptb_with_gas_inner (publish_ptb to_bytes admin modules_bytes dependencies) epoch epoch_ms admin gas
        target false w;
      match r with
      | None => Ret (None, w)
      | Some Err => Ret (Some Err, w)
      | Some (Ok results) => finish_deploy target results w
      end
  end.

Section upgrade.
Context `{PB : PtbBuilder Bd}.

Definition package_call (function : string) (arguments : list Argument) : Command :=
  Cmd_MoveCall (MkPMC addr_two "package" function [] arguments).

(** The transaction of [upgrade_contract]; [None]: the builder refused. *)
Definition upgrade_ptb (original_id : MoveAddress) (cap : ObjectRef) (digest : Ptb.Bytes)
    (modules_bytes : list Ptb.Bytes) (dependencies : list MoveAddress) : option (list CallArg * list Command) :=
  let '(builder, policy) := builder_pure (PuU8 0) builder_new in
  let '(builder, digest) := builder_pure (PuBytes digest) builder in
  '(builder, cap) ← builder_obj (OA_ImmOrOwned cap) builder;
  let '(builder, upgrade_ticket) := builder_command (package_call "authorize_upgrade" [cap; policy; digest]) builder in
  let '(builder, upgrade_receipt) :=
    builder_command (Cmd_Upgrade modules_bytes dependencies original_id upgrade_ticket) builder in
  let '(builder, _) := builder_command (package_call "commit_upgrade" [cap; upgrade_receipt]) builder in
  Some (builder_finish builder).

Definition finish_upgrade (target : option MoveAddress) (results : ExecutionResults) (w : World) :
    panics (option (result MoveAddress) * World) :=
  new_package ← find_package (er_store results) (fx_all_changed_objects (er_effects results)) None;
  match new_package with
  | None => Ret (Some Err, w)
  | Some new_package =>
      if misses_target target new_package then Ret (Some Err, w)
      else commit_then results new_package.1.1 w
  end.

Definition upgrade_contract (epoch epoch_ms : N) (deployer gas original_id upgrade_cap : MoveAddress)
    (project : SuiCompiledPackage) (w : World) : panics (option (result MoveAddress) * World) :=
  match db_get_object original_id (w_db w) with
  | (None, db) => Ret (Some Err, set_db db w)
  | (Some _, db) =>
      match db_get_object upgrade_cap db with
      | (None, db) => Ret (Some Err, set_db db w)
      | (Some cap, db) =>
          let w := set_db db w in
          let package_id := pk_package_id project in
          let '(modules, dependencies) := into_deployment project in
          nonzero ← has_nonzero modules;
          if nonzero : bool then Ret (Some Err, w) else
          match serialize_all modules with
          | Err => Ret (Some Err, w)
          | Ok modules_bytes =>
              let digest := compute_digest modules_bytes dependencies in
              let target := target_of package_id in
              match upgrade_ptb original_id (obj_id cap, obj_version cap, obj_digest cap) digest modules_bytes dependencies with
              | None => Ret (Some Err, w)
              | Some ptb =>
                  '(r, w) ← run_ptb_with_gas_inner ptb epoch epoch_ms deployer gas target false w;
                  match r with
                  | None => Ret (None, w)
                  | Some Err => Ret (Some Err, w)
                  | Some (Ok results) => finish_upgrade target results w
                  end
              end
          end
      end
  end.
End upgrade.
End exec.
