(* ===== verification/DeploySpec.v ===== *)
(** * DeploySpec: runs and deployments

    A free digest is found for every target; a targeted run gives the VM that
    target alone and leaves the table as it was; a deployment commits exactly
    what was created at the requested address, and nothing when it fails; the
    upgrade transaction. *)
From S2P Require Import Prelude Types Ptb TraceState Tracer FuzzTracer Cache Objects Db Compile Deploy.

Section spec.
Context `{OL : ObjectLib} {T : Type} `{DB : !ObjectDb T} `{OF : !ObjectFacts}.
Context (tx_digest : TransactionData → N) (input_objects : TransactionData → result (list InputObjectKind)).
Context (gas_ok : N → N → bool).
Context (execute : ExecutionMode → list (InputObjectKind * Object) → TransactionData → N → N → T →
  ExecutionResults * T).
Implicit Types (w : World (T := T)) (tx : TransactionData).

(** ** The table of targets *)
Definition with_budget (tx : TransactionData) (b : N) : TransactionData :=
  MkTx (tx_kind tx) (tx_sender tx) (tx_gas tx) b (tx_price tx).
Definition bumped (k : nat) (tx : TransactionData) : TransactionData :=
  with_budget tx ((tx_budget tx + N.of_nat k) mod 2 ^ 64).

Lemma bumped_0 tx : (tx_budget tx < 2 ^ 64)%N → bumped 0 tx = tx.
Proof. intros H. destruct tx. unfold bumped, with_budget. simpl in *. by rewrite N.add_0_r, N.mod_small. Qed.
Lemma bumped_S k tx : bumped k (bump_budget tx) = bumped (S k) tx.
Proof.
  unfold bumped, with_budget, bump_budget. simpl. f_equal.
  rewrite N.Div0.add_mod_idemp_l. f_equal. lia.
Qed.
Lemma bump_bound tx : (tx_budget (bump_budget tx) < 2 ^ 64)%N.
Proof. by apply N.mod_lt. Qed.

Lemma reserve_spec fuel tx target d : (tx_budget tx < 2 ^ 64)%N →
  (∃ k, k < fuel ∧ d !! tx_digest (bumped k tx) = None ∧ (∀ i, i < k → is_Some (d !! tx_digest (bumped i tx))) ∧
    reserve tx_digest fuel tx target d = Some (bumped k tx, <[tx_digest (bumped k tx) := target]> d)) ∨
  (∀ i, i < fuel → is_Some (d !! tx_digest (bumped i tx))).
Proof.
  revert tx. induction fuel as [|fuel IH]; intros tx Hb; [right; lia|]. cbn [reserve].
  destruct (d !! tx_digest tx) as [t|] eqn:E.
  - destruct (IH (bump_budget tx) (bump_bound tx)) as [(k & Hk & Hf & Ht & Hr)|Ht].
    + left. exists (S k). rewrite bumped_S in Hf, Hr. split_and!; [lia|done| |done].
      intros [|i] Hi; [rewrite bumped_0 by done; eauto|]. rewrite <-bumped_S. apply Ht. lia.
    + right. intros [|i] Hi; [rewrite bumped_0 by done; eauto|]. rewrite <-bumped_S. apply Ht. lia.
  - left. exists 0. rewrite bumped_0 by done. split_and!; [lia|done|lia|done].
Qed.

(** Digests tell budgets apart. *)
Definition digest_of_budget : Prop := ∀ tx b b',
  (b < 2 ^ 64)%N → (b' < 2 ^ 64)%N → tx_digest (with_budget tx b) = tx_digest (with_budget tx b') → b = b'.

Lemma bumped_digests tx n : digest_of_budget → (N.of_nat n ≤ 2 ^ 64)%N →
  NoDup (map (λ i, tx_digest (bumped i tx)) (seq 0 n)).
Proof.
  intros Hd Hn. apply NoDup_fmap_2_strong; [|apply NoDup_seq]. intros i j Hi%elem_of_seq Hj%elem_of_seq He.
  apply Hd in He; [|by apply N.mod_lt..].
  assert (∀ k : nat, (k < n)%nat → ((tx_budget tx + N.of_nat k) mod 2 ^ 64 + 2 ^ 64 - tx_budget tx mod 2 ^ 64) mod 2 ^ 64
    = N.of_nat k)%N as Hs.
  { intros k Hk. assert (tx_budget tx mod 2 ^ 64 < 2 ^ 64)%N as Hm by (by apply N.mod_lt).
    rewrite <-N.Div0.add_mod_idemp_l. generalize dependent (tx_budget tx mod 2 ^ 64)%N. intros b Hm.
    destruct (N.lt_ge_cases (b + N.of_nat k) (2 ^ 64)).
    - rewrite (N.mod_small (b + _)) by done. replace (b + N.of_nat k + 2 ^ 64 - b)%N with (N.of_nat k + 1 * 2 ^ 64)%N by lia.
      rewrite N.Div0.mod_add. apply N.mod_small. lia.
    - replace (b + N.of_nat k)%N with (b + N.of_nat k - 2 ^ 64 + 1 * 2 ^ 64)%N by lia.
      rewrite N.Div0.mod_add, (N.mod_small (b + _ - _)) by lia. rewrite N.mod_small by lia. lia. }
  apply Nat2N.inj. rewrite <-(Hs i), <-(Hs j) by lia. by rewrite He.
Qed.

(** One attempt more than there are entries finds a free digest. *)
Lemma reserve_total tx target d : digest_of_budget → (tx_budget tx < 2 ^ 64)%N → (N.of_nat (size d) < 2 ^ 64)%N →
  ∃ k, k ≤ size d ∧ d !! tx_digest (bumped k tx) = None ∧ (∀ i, i < k → is_Some (d !! tx_digest (bumped i tx))) ∧
    reserve tx_digest (S (size d)) tx target d = Some (bumped k tx, <[tx_digest (bumped k tx) := target]> d).
Proof.
  intros Hd Hb Hs. destruct (reserve_spec (S (size d)) tx target d Hb) as [(k & Hk & H)|H]; [exists k; split; [lia|done]|].
  exfalso. pose proof (bumped_digests tx (S (size d)) Hd ltac:(lia)) as Hn.
  assert (list_to_set (map (λ i, tx_digest (bumped i tx)) (seq 0 (S (size d)))) ⊆ dom d) as Hsub.
  { intros x Hx. apply elem_of_list_to_set, list_elem_of_fmap in Hx as (i & -> & Hi%elem_of_seq).
    apply elem_of_dom, H. lia. }
  apply subseteq_size in Hsub. rewrite size_list_to_set in Hsub by done.
  rewrite size_dom, length_map, length_seq in Hsub. lia.
Qed.

(** C26: a run with a target ends: the budget is raised at most once per entry
    of the table until the digest is free, the VM is called once and finds the
    target under its own digest and every other entry as it was, and after the
    run the table is the one before it. *)
Theorem targeted_run_exact tx epoch ms target testing objects w :
  digest_of_budget → (tx_budget tx < 2 ^ 64)%N → (N.of_nat (size (w_deployments w)) < 2 ^ 64)%N →
  ∃ k f, k ≤ size (w_deployments w) ∧ f (tx_digest (bumped k tx)) = Some target ∧
    (∀ d, d ≠ tx_digest (bumped k tx) → f d = w_deployments w !! d) ∧
    (∀ i, i < k → is_Some (w_deployments w !! tx_digest (bumped i tx))) ∧
    let '(results, db) := execute (Mode_Fuzz f) objects (bumped k tx) epoch ms (w_db w) in
    run_vm tx_digest execute tx epoch ms (Some target) testing objects w
      = Some (results, MkWorld db (w_deployments w)).
Proof.
  intros Hd Hb Hs. destruct (reserve_total tx target (w_deployments w) Hd Hb Hs) as (k & Hk & Hf & Ht & Hr).
  exists k, (λ d, <[tx_digest (bumped k tx) := target]> (w_deployments w) !! d).
  split_and!; [done|apply lookup_insert_eq|intros d ?; by apply lookup_insert_ne|done|].
  unfold run_vm. rewrite Hr. cbn [mbind option_bind]. destruct (execute _ _ _ _ _ _) as [results db].
  unfold release. by rewrite delete_insert_id.
Qed.

(** ** Runs *)
Abbreviation World := (World (T := T)).
Abbreviation run_inner := (run_ptb_with_gas_inner tx_digest input_objects gas_ok execute).

Lemma collect_inputs_refs objrefs objects db objects' db' :
  collect_inputs objrefs objects db = Ret (Ok objects', db') → map fst objects' = map fst objects ++ objrefs.
Proof.
  revert objects db. induction objrefs as [|o objrefs IH]; intros objects db H.
  - injection H as <- <-. by rewrite app_nil_r.
  - cbn [collect_inputs] in H. apply panics_bind_Ret in H as ([[object|] db1] & _ & H); [|done].
    apply IH in H. by rewrite H, map_app, <-app_assoc.
Qed.

(** The runs on which the table is given back. *)
Definition can_reserve (w : World) : Prop := digest_of_budget ∧ (N.of_nat (size (w_deployments w)) < 2 ^ 64)%N.

Lemma run_vm_total tx epoch ms target testing objects w : can_reserve w → (tx_budget tx < 2 ^ 64)%N →
  ∃ results db, run_vm tx_digest execute tx epoch ms target testing objects w
    = Some (results, MkWorld db (w_deployments w)).
Proof.
  intros [Hd Hs] Hb. destruct target as [target|].
  - destruct (reserve_total tx target (w_deployments w) Hd Hb Hs) as (k & _ & Hf & _ & Hr).
    unfold run_vm. rewrite Hr. cbn [mbind option_bind]. destruct (execute _ _ _ _ _ _) as [results db].
    unfold release. rewrite delete_insert_id by done. by exists results, db.
  - unfold run_vm. destruct (execute _ _ _ _ _ _) as [results db]. by exists results, db.
Qed.
Lemma run_tx_total tx epoch ms target testing w r w' : can_reserve w → (tx_budget tx < 2 ^ 64)%N →
  run_tx_trace_inner tx_digest input_objects gas_ok execute tx epoch ms target testing w = Ret (r, w') →
  is_Some r ∧ w_deployments w' = w_deployments w.
Proof.
  intros Hw Hb H. unfold run_tx_trace_inner in H. destruct (input_objects tx) as [refs|]; [|by injection H as <- <-].
  apply panics_bind_Ret in H as ([[objects|] db1] & _ & H); [|by injection H as <- <-].
  apply panics_bind_Ret in H as ([[objects'|] db2] & _ & H); [|by injection H as <- <-].
  destruct (run_vm_total tx epoch ms target testing objects' (set_db db2 (set_db db1 w)) Hw Hb) as (results & db & E).
  rewrite E in H. by injection H as <- <-.
Qed.
Lemma run_inner_total ptb epoch ms sender gas target testing w r w' : can_reserve w →
  run_inner ptb epoch ms sender gas target testing w = Ret (r, w') →
  is_Some r ∧ w_deployments w' = w_deployments w.
Proof.
  intros Hw H. unfold run_ptb_with_gas_inner in H. destruct (get_move_object_info gas (w_db w)) as [[info|] db].
  - by apply run_tx_total in H.
  - by injection H as <- <-.
Qed.

(** ** Deployments *)
Context (serialize : CompiledModule → result Ptb.Bytes).
Context (compute_digest : list Ptb.Bytes → list MoveAddress → Ptb.Bytes).
Context (is_upgrade_cap : MoveTypeTag → bool).

Definition created_package (results : ExecutionResults) (id : MoveAddress) : Prop := ∃ r object,
  (r, Immutable_, Write_Create) ∈ fx_all_changed_objects (er_effects results) ∧ r.1.1 = id ∧
  its_written (er_store results) !! id = Some object ∧ obj_is_package object = true.
Definition created_cap (results : ExecutionResults) (id : MoveAddress) : Prop := ∃ r owner object ty,
  (r, AddressOwner owner, Write_Create) ∈ fx_all_changed_objects (er_effects results) ∧ r.1.1 = id ∧
  its_written (er_store results) !! id = Some object ∧ obj_type object = Some ty ∧ is_upgrade_cap ty = true.

Lemma is_created_package_true store t : is_created_package store t = Ret true → ∃ object,
  t.1.2 = Immutable_ ∧ t.2 = Write_Create ∧ its_written store !! t.1.1.1.1 = Some object ∧ obj_is_package object = true.
Proof.
  destruct t as [[r owner] kind]. destruct kind, owner; try done. cbn. intros H.
  apply panics_bind_Ret in H as (object & Ho%unwrap_Ret & [= H]). by exists object.
Qed.
Lemma is_created_cap_true store t : is_created_cap is_upgrade_cap store t = Ret true → ∃ owner object ty,
  t.1.2 = AddressOwner owner ∧ t.2 = Write_Create ∧ its_written store !! t.1.1.1.1 = Some object ∧
  obj_type object = Some ty ∧ is_upgrade_cap ty = true.
Proof.
  destruct t as [[r owner] kind]. destruct kind, owner as [a| | | |]; try done. cbn. intros H.
  apply panics_bind_Ret in H as (object & Ho%unwrap_Ret & [= H]).
  destruct (obj_type object) as [ty|] eqn:E; [|done]. by exists a, object, ty.
Qed.

Lemma find_package_spec results l p0 p :
  l ⊆ fx_all_changed_objects (er_effects results) → find_package (er_store results) l p0 = Ret p →
  from_option (λ r, p0 = Some r ∨ created_package results r.1.1) (p0 = None) p.
Proof.
  revert p0. induction l as [|t l IH]; intros p0 Hl H; cbn [find_package] in H.
  - injection H as <-. destruct p0; simpl; auto.
  - apply panics_bind_Ret in H as (b & Hb & H). apply IH in H; [|set_solver]. destruct b; [|done].
    destruct p as [r|]; [|done]. simpl in *. right. destruct H as [[= <-]|H]; [|done].
    apply is_created_package_true in Hb as (object & Ho & Hk & Hw & Hp). destruct t as [[r owner] kind]. simpl in *. subst.
    exists r, object. split_and!; [set_solver|done..].
Qed.
Lemma find_created_spec results l p0 c0 p c :
  l ⊆ fx_all_changed_objects (er_effects results) → find_created is_upgrade_cap (er_store results) l p0 c0 = Ret (p, c) →
  find_package (er_store results) l p0 = Ret p ∧
  from_option (λ r, c0 = Some r ∨ created_cap results r.1.1) (c0 = None) c.
Proof.
  revert p0 c0. induction l as [|t l IH]; intros p0 c0 Hl H; cbn [find_created] in H.
  - injection H as <- <-. split; [done|]. destruct c0; simpl; auto.
  - apply panics_bind_Ret in H as (b & Hb & H). apply panics_bind_Ret in H as (b' & Hb' & H).
    apply IH in H as [Hp H]; [|set_solver]. split.
    { cbn [find_package]. rewrite Hb. done. }
    destruct b'; [|done]. destruct c as [r|]; [|done]. simpl in *. right. destruct H as [[= <-]|H]; [|done].
    apply is_created_cap_true in Hb' as (owner & object & ty & Ho & Hk & Hw & Ht & Hc). destruct t as [[r o] kind].
    simpl in *. subst. exists r, owner, object, ty. split_and!; [set_solver|done..].
Qed.

(** What is deployed is committed; a run that is not is left as it was. *)
Abbreviation ran ptb epoch ms sender gas target w r w1 :=
  (run_inner ptb epoch ms sender gas target false w = Ret (r, w1)).
Definition committed (results : ExecutionResults) (r : result ()) (w1 w' : World) : Prop :=
  db_commit_store (er_store results) (fx_commit (er_effects results)) (w_db w1) = Ret (r, w_db w') ∧
  w_deployments w' = w_deployments w1.

Lemma commit_then_inv {A} results (a : A) w r w' : commit_then results a w = Ret (r, w') →
  (r = Some (Ok a) ∧ committed results (Ok ()) w w') ∨ (r = Some Err ∧ committed results Err w w').
Proof.
  intros H. unfold commit_then in H. apply panics_bind_Ret in H as ([r0 db] & Hc & H). unfold committed.
  destruct r0 as [[]|]; injection H as <- <-; auto.
Qed.
Lemma misses_target_false package_id (r : ObjectRef) : misses_target (target_of package_id) r = false →
  package_id ≠ addr_zero → r.1.1 = package_id.
Proof. unfold misses_target, target_of. case_decide; [done|]. case_bool_decide; done. Qed.

Lemma finish_deploy_inv target results w r w' : finish_deploy is_upgrade_cap target results w = Ret (r, w') →
  (r = Some Err ∧ (w' = w ∨ committed results Err w w')) ∨
  ∃ p cap, r = Some (Ok (p.1.1, cap)) ∧ created_package results p.1.1 ∧ created_cap results cap ∧
    misses_target target p = false ∧ committed results (Ok ()) w w'.
Proof.
  intros H. unfold finish_deploy in H. apply panics_bind_Ret in H as ([p c] & [Hp Hc]%find_created_spec & H); [|done].
  apply find_package_spec in Hp; [|done]. destruct p as [p|]; [|injection H as <- <-; auto].
  destruct (misses_target target p) eqn:E; [injection H as <- <-; auto|].
  destruct c as [c|]; [|injection H as <- <-; auto]. simpl in Hp, Hc.
  destruct Hp as [|Hp]; [done|]. destruct Hc as [|Hc]; [done|].
  apply commit_then_inv in H as [[-> H]|[-> H]]; [right|by auto]. by exists p, c.1.1.
Qed.
Lemma finish_upgrade_inv target results w r w' : finish_upgrade target results w = Ret (r, w') →
  (r = Some Err ∧ (w' = w ∨ committed results Err w w')) ∨
  ∃ p : ObjectRef, r = Some (Ok p.1.1) ∧ created_package results p.1.1 ∧ misses_target target p = false ∧
    committed results (Ok ()) w w'.
Proof.
  intros H. unfold finish_upgrade in H. apply panics_bind_Ret in H as (p & Hp%find_package_spec & H); [|done].
  destruct p as [p|]; [|injection H as <- <-; auto]. destruct (misses_target target p) eqn:E; [injection H as <- <-; auto|].
  simpl in Hp. destruct Hp as [|Hp]; [done|].
  apply commit_then_inv in H as [[-> H]|[-> H]]; [right|by auto]. by exists p.
Qed.

Lemma has_nonzero_false modules : has_nonzero modules = Ret false →
  Forall (λ m, module_self_address m = Ret addr_zero) modules.
Proof.
  unfold has_nonzero. induction modules as [|m l IH]; [done|]. cbn [any_module]. intros H.
  apply panics_bind_Ret in H as (b & Hb & H). destruct b; [done|]. constructor; [|auto].
  apply panics_bind_Ret in Hb as (a & Ha & [= Hb]). apply negb_false_iff, bool_decide_eq_true in Hb. by subst.
Qed.

(** Where the package goes. *)
Lemma deploy_contract_target to_bytes epoch ms admin gas project w p cap w' :
  deploy_contract tx_digest input_objects gas_ok execute serialize is_upgrade_cap to_bytes epoch ms admin gas project w
    = Ret (Some (Ok (p, cap)), w') →
  pk_package_id project ≠ addr_zero → p = pk_package_id project.
Proof.
  unfold deploy_contract, into_deployment. intros H Hz. apply panics_bind_Ret in H as (b & _ & H). destruct b; [done|].
  destruct (serialize_all serialize (pk_modules project)) as [bytes|]; [|done].
  apply panics_bind_Ret in H as ([[[results|]|] w1] & _ & H); [|done..].
  apply finish_deploy_inv in H as [[[=] _]|(r & c & [= -> ->] & _ & _ & Ht & _)]. by apply misses_target_false.
Qed.
Lemma upgrade_contract_target `{PB : PtbBuilder Bd} epoch ms deployer gas original_id upgrade_cap project w p w' :
  upgrade_contract tx_digest input_objects gas_ok execute serialize compute_digest epoch ms deployer gas original_id
    upgrade_cap project w = Ret (Some (Ok p), w') →
  pk_package_id project ≠ addr_zero → p = pk_package_id project.
Proof.
  unfold upgrade_contract, into_deployment. intros H Hz.
  destruct (db_get_object original_id (w_db w)) as [[o|] db]; [|done].
  destruct (db_get_object upgrade_cap db) as [[c|] db']; [|done].
  apply panics_bind_Ret in H as (b & _ & H). destruct b; [done|].
  destruct (serialize_all serialize (pk_modules project)) as [bytes|]; [|done].
  destruct (upgrade_ptb _ _ _ _ _) as [ptb|]; [|done].
  apply panics_bind_Ret in H as ([[[results|]|] w1] & _ & H); [|done..].
  apply finish_upgrade_inv in H as [[[=] _]|(r & [= ->] & _ & Ht & _)]. by apply misses_target_false.
Qed.

(** C15: a deployment that succeeds has published the modules, all at address
    zero, in one transaction that created a package - at the address asked for,
    if one was - and an upgrade cap, and committed its effects; one that fails
    committed nothing; either way the table of targets is as before. *)
Theorem deploy_contract_outcome to_bytes epoch ms admin gas project w r w' :
  can_reserve w →
  deploy_contract tx_digest input_objects gas_ok execute serialize is_upgrade_cap to_bytes epoch ms admin gas project w
    = Ret (r, w') →
  w_deployments w' = w_deployments w ∧
  ((r = Some Err ∧ w' = w) ∨
  ∃ bytes r1 w1, serialize_all serialize (pk_modules project) = Ok bytes ∧
    Forall (λ m, module_self_address m = Ret addr_zero) (pk_modules project) ∧
    ran (publish_ptb to_bytes admin bytes (pk_dependencies project)) epoch ms admin gas
      (target_of (pk_package_id project)) w r1 w1 ∧
    ((r = Some Err ∧ (w' = w1 ∨ ∃ results, r1 = Some (Ok results) ∧ committed results Err w1 w')) ∨
     ∃ results p cap, r = Some (Ok (p, cap)) ∧ r1 = Some (Ok results) ∧ created_package results p ∧
       created_cap results cap ∧ (pk_package_id project ≠ addr_zero → p = pk_package_id project) ∧
       committed results (Ok ()) w1 w')).
Proof.
  intros Hw H. unfold deploy_contract, into_deployment in H. apply panics_bind_Ret in H as (b & Hb & H).
  destruct b; [injection H as <- <-; auto|]. destruct (serialize_all serialize (pk_modules project)) as [bytes|] eqn:Es;
    [|injection H as <- <-; auto]. apply panics_bind_Ret in H as ([r1 w1] & Hr & H).
  destruct (run_inner_total _ _ _ _ _ _ _ _ _ _ Hw Hr) as [[r2 ->] Hd]. apply has_nonzero_false in Hb.
  destruct r2 as [results|]; [|injection H as <- <-; split; [done|]; right; exists bytes, (Some Err), w1; split_and!; auto].
  apply finish_deploy_inv in H as [(-> & Hf)|(p & cap & -> & Hp & Hc & Ht & Hf)].
  - split; [destruct Hf as [->|[_ ->]]; done|]. right. exists bytes, (Some (Ok results)), w1. split_and!; [done..|]. left.
    destruct Hf; eauto.
  - split; [by destruct Hf as [_ ->]|]. right. exists bytes, (Some (Ok results)), w1. split_and!; [done..|]. right.
    exists results, p.1.1, cap. split_and!; [done..| |done]. by apply misses_target_false.
Qed.

(** ** Upgrades *)
Ltac positions := cbn [length app] in *;
  change (N.of_nat 0) with 0%N in *; change (N.of_nat 1) with 1%N in *; change (N.of_nat 2) with 2%N in *.
Context `{PB : PtbBuilder Bd}.

(** The transaction of an upgrade: the ticket for the cap, the policy and
    the digest of the modules, the upgrade with that ticket, and the receipt
    given back to the same cap. *)
Theorem upgrade_ptb_exact original_id cap digest modules dependencies :
  bcs (PuU8 0) ≠ bcs (PuBytes digest) →
  upgrade_ptb (PB := PB) original_id cap digest modules dependencies = Some
    ([CA_Pure (bcs (PuU8 0)); CA_Pure (bcs (PuBytes digest)); CA_Object (OA_ImmOrOwned cap)],
     [package_call "authorize_upgrade" [A_Input 2; A_Input 0; A_Input 1];
      Cmd_Upgrade modules dependencies original_id (A_Result 0);
      package_call "commit_upgrade" [A_Input 2; A_Result 1]]).
Proof.
  intros Hne. unfold upgrade_ptb.
  destruct (finish_pure (PuU8 0) builder_new [] [] finish_new) as (b1 & -> & F1); [constructor|].
  destruct (finish_pure (PuBytes digest) b1 _ _ F1) as (b2 & -> & F2); [repeat constructor; by intros ?|].
  destruct (finish_obj (OA_ImmOrOwned cap) b2 _ _ F2) as (b3 & -> & F3); [repeat constructor; by intros ?|].
  cbn [mbind option_bind].
  destruct (finish_command (package_call "authorize_upgrade" [A_Input 2; A_Input 0; A_Input 1]) b3 _ _ F3) as (b4 & E4 & F4).
  positions. rewrite E4.
  destruct (finish_command (Cmd_Upgrade modules dependencies original_id (A_Result 0)) b4 _ _ F4) as (b5 & E5 & F5).
  positions. rewrite E5.
  destruct (finish_command (package_call "commit_upgrade" [A_Input 2; A_Result 1]) b5 _ _ F5) as (b6 & E6 & F6).
  positions. rewrite E6. by rewrite F6.
Qed.
End spec.

(** ** Witnesses: a VM that creates a package and a cap *)
#[local] Instance demo_objects : ObjectLib := {|
  Object := MoveAddress * N * option MoveTypeTag * MoveOwner;
  obj_id o := o.1.1.1; obj_version o := o.1.1.2 |}.
#[local] Instance demo_facts : ObjectFacts := {|
  obj_is_package o := bool_decide (o.1.2 = None); obj_type o := o.1.2; obj_owner o := o.2; obj_digest o := 0%N |}.
Abbreviation adr := MkMoveAddress.
Definition demo_sender : MoveAddress := adr 1.
Definition demo_store : Backing := {|
  bk_get_package_object _ := Ok None;
  bk_get_object id := if decide (id = adr 6) then Some (adr 6, 1%N, Some Tag_U8, AddressOwner demo_sender) else None;
  bk_get_object_by_key id v :=
    if decide (id = adr 6) then Some (adr 6, 1%N, Some Tag_U8, AddressOwner demo_sender) else None;
  bk_get_object_received_at_version _ _ _ _ := Err;
  bk_read_child_object _ _ _ := Err |}.
#[local] Instance demo_db : ObjectDb CachedSnapshot := cache_db demo_store.

(** The package goes to the target of the digest, if there is one. *)
Definition demo_results (package : MoveAddress) : ExecutionResults := MkResults
  (MkEffects {| fx_deleted := []; fx_transferred_from_consensus := []; fx_consensus_owner_changed := [];
                fx_stream_ended := [] |} true
     [((package, 1, 0)%N, Immutable_, Write_Create); ((adr 99, 1, 0)%N, AddressOwner demo_sender, Write_Create)])
  {| its_written := {[package := (package, 1%N, None, Immutable_);
                      adr 99 := (adr 99, 1%N, Some Tag_Address, AddressOwner demo_sender)]};
     its_input_objects := ∅; its_lamport_version := 1; its_stream_ended_consensus_objects := ∅ |} [].
Definition demo_execute (mode : ExecutionMode) (_ : list (InputObjectKind * Object)) (tx : TransactionData) (_ _ : N)
    (s : CachedSnapshot) : ExecutionResults * CachedSnapshot :=
  (demo_results (match mode with
                 | Mode_Fuzz f => default (adr 77) (f (tx_budget tx))
                 | Mode_Normal => adr 78
                 end), s).
(** The first digest is taken by another deployment. *)
Definition demo_world : World (T := CachedSnapshot) :=
  MkWorld ∅ {[ (very_big_gas / 1000)%N := adr 4 ]}.
Lemma demo_digests : digest_of_budget tx_budget.
Proof. by intros tx b b' _ _ H. Qed.
Lemma demo_reserve : can_reserve tx_budget demo_world.
Proof. split; [apply demo_digests|]. vm_compute. reflexivity. Qed.

Abbreviation demo_tx :=
  (transaction_new (SystemTransaction 0) demo_sender (adr 6, 1, 0)%N (very_big_gas / 1000) 1).
Lemma targeted_run_exact_witness :
  ∃ k f, k ≤ 1 ∧ f (tx_budget (bumped k demo_tx)) = Some (adr 5) ∧
    run_vm tx_budget demo_execute demo_tx 0 0 (Some (adr 5)) false [] demo_world = Some (demo_results (adr 5), demo_world).
Proof.
  destruct (targeted_run_exact tx_budget demo_execute demo_tx 0 0 (adr 5) false [] demo_world demo_digests
    ltac:(vm_compute; reflexivity) ltac:(vm_compute; reflexivity)) as (k & f & Hk & Hf & _ & _ & Hr).
  exists k, f. split; [exact Hk|]. split; [exact Hf|]. rewrite Hr. unfold demo_execute in *. rewrite Hf. done.
Defined.
(** The first digest is taken, so the budget is one higher. *)
Example demo_bumped :
  reserve tx_budget 2 demo_tx (adr 5) (w_deployments demo_world)
    = Some (bumped 1 demo_tx, <[10000000000000001%N := adr 5]> (w_deployments demo_world)).
Proof. vm_compute. reflexivity. Qed.

Definition demo_module : CompiledModule := MkModule 0 [MkHandle 0 0] [] [] ["m"]%string [addr_zero] true.
Definition demo_project : SuiCompiledPackage := MkPackage (adr 5) "p" [] [demo_module] [adr 1] [].
Definition demo_deploy (project : SuiCompiledPackage) :=
  deploy_contract tx_budget (λ _, Ok []) (λ _ _, true) demo_execute (λ _, Ok []) (λ ty, bool_decide (ty = Tag_Address))
    (λ _, []) 0 0 demo_sender (adr 6) project demo_world.
Lemma deploy_contract_outcome_witness :
  ∃ w', demo_deploy demo_project = Ret (Some (Ok (adr 5, adr 99)), w') ∧
    w_deployments w' = w_deployments demo_world ∧ is_Some (db_get_object (adr 5) (w_db w')).1 ∧
    created_package (demo_results (adr 5)) (adr 5) ∧
    ∀ r w, demo_deploy demo_project = Ret (r, w) → w_deployments w = {[ (very_big_gas / 1000)%N := adr 4 ]}.
Proof.
  destruct (demo_deploy demo_project) as [[r w']|] eqn:E; [|vm_compute in E; discriminate E].
  pose proof (deploy_contract_outcome tx_budget (λ _, Ok []) (λ _ _, true) demo_execute (λ _, Ok [])
    (λ ty, bool_decide (ty = Tag_Address)) (λ _, []) 0 0 demo_sender (adr 6) demo_project demo_world r w' demo_reserve E)
    as [Hd _].
  exists w'. vm_compute in E. injection E as <- <-. split; [reflexivity|]. split; [exact Hd|].
  split; [vm_compute; by eexists|]. split; [|intros r w [= <- <-]; vm_compute; reflexivity].
  exists (adr 5, 1, 0)%N, (adr 5, 1%N, None, Immutable_). split; [by left|]. split; [done|]. split; [vm_compute; reflexivity|done].
Defined.

Lemma upgrade_ptb_exact_witness :
  upgrade_ptb (PB := list_builder) (adr 5) (adr 99, 1, 0)%N [Byte.x07] [] [adr 1] = Some
    ([CA_Pure (demo_bcs (PuU8 0)); CA_Pure (demo_bcs (PuBytes [Byte.x07]));
      CA_Object (OA_ImmOrOwned (adr 99, 1, 0)%N)],
     [package_call "authorize_upgrade" [A_Input 2; A_Input 0; A_Input 1];
      Cmd_Upgrade [] [adr 1] (adr 5) (A_Result 0);
      package_call "commit_upgrade" [A_Input 2; A_Result 1]]).
Proof. apply (upgrade_ptb_exact (PB := list_builder)). vm_compute. discriminate. Defined.

(** Any owner will do for the cap: here one that is not the admin. *)
Example cap_of_another_owner :
  is_created_cap (λ ty, bool_decide (ty = Tag_Address)) (er_store (demo_results (adr 5)))
    ((adr 99, 1, 0)%N, AddressOwner (adr 2), Write_Create) = Ret true.
Proof. vm_compute. reflexivity. Qed.
