(* ===== verification/Env.v ===== *)
(** * Env: the replay environment

    [SuiTestingEnv] of [crates/movy-replay/src/env.rs] over any store: bundled
    packages are installed, packages and their dependencies fetched from the
    chain, a local project compiled, deployed (at a pinned address, as it is,
    or as an upgrade) and its [movy_init] run with objects found in the store.
    The chain ([rpc]), the compiler and the VM are arguments; the stored object
    of a package, its linkage table and its [MovePackageAbi] are, too. *)
From S2P Require Import Prelude Types Abi TypeArgs Text Ptb TraceState Tracer TreeTracer Lcov FuzzTracer TypeGraph Meta Cache Objects Testing Db Compile Deploy.

(** ** Failures of [movy_init] *)
Inductive ExecutionStatus := Status_Success | Status_Failure (error : string) (command : option N).
Definition newline : string := String (Ascii.ascii_of_nat 10) EmptyString.
Definition format_movy_init_failure (status : ExecutionStatus) (trace : option string) : string :=
  let out := match status with
             | Status_Success => "status: success"
             | Status_Failure error command =>
                 match command with
                 | Some command => "command: " +:+ show_N command +:+ newline
                 | None => ""
                 end +:+ "error: " +:+ error
             end in
  match trace with
  | Some trace => if is_blank trace then out else out +:+ newline +:+ trace
  | None => out
  end.

(** ** Objects for the parameters of [movy_init] *)
Inductive MovyInitObjectMode := OwnedValue | ImmutableRef | MutableRef.

Definition movy_init_param_ty_and_mode (param : MoveAbiSignatureToken) : option (MoveTypeTag * MovyInitObjectMode) :=
  match param with
  | Tok_Struct _ | Tok_StructInstantiation _ _ => ty ← subst ∅ param; Some (ty, OwnedValue)
  | Tok_Reference inner => ty ← subst ∅ inner; Some (ty, ImmutableRef)
  | Tok_MutableReference inner => ty ← subst ∅ inner; Some (ty, MutableRef)
  | _ => None
  end.

Definition movy_init_fits (deployer : MoveAddress) (used_ids : gset MoveAddress) (expected_ty : MoveTypeTag)
    (mode : MovyInitObjectMode) (object : MoveObjectInfo) : bool :=
  if bool_decide (oi_id object ∈ used_ids) || negb (bool_decide (oi_ty object = expected_ty)) then false else
  match oi_owner object, mode with
  | AddressOwner owner, _ => bool_decide (owner = deployer)
  | Immutable_, ImmutableRef => true
  | Shared_ _, ImmutableRef => true
  | Shared_ _, MutableRef => true
  | _, _ => false
  end.
Definition movy_init_object_arg (object : MoveObjectInfo) (mode : MovyInitObjectMode) : result ObjectArg :=
  match oi_owner object, mode with
  | AddressOwner _, _ | Immutable_, ImmutableRef => Ok (OA_ImmOrOwned (sui_reference object))
  | Shared_ initial_shared_version, ImmutableRef => Ok (OA_Shared (oi_id object) initial_shared_version false)
  | Shared_ initial_shared_version, MutableRef => Ok (OA_Shared (oi_id object) initial_shared_version true)
  | _, _ => Err
  end.
Definition movy_init_object_arg_for_param (param : MoveAbiSignatureToken) (deployer : MoveAddress)
    (objects : list MoveObjectInfo) (used_ids : gset MoveAddress) : result (MoveObjectInfo * ObjectArg) :=
  match movy_init_param_ty_and_mode param with
  | None => Err
  | Some (expected_ty, mode) =>
      match List.find (movy_init_fits deployer used_ids expected_ty mode) objects with
      | None => Err
      | Some object => object_arg ← movy_init_object_arg object mode; Ok (object, object_arg)
      end
  end.

(** ** Addresses *)

(** [--deploy-at]: the address of the names of a package. *)
Fixpoint pinned_address (pinned_addresses : gmap string MoveAddress) (names : list string)
    (matched : option MoveAddress) : result (option MoveAddress) :=
  match names with
  | [] => Ok matched
  | name :: names =>
      match pinned_addresses !! name with
      | Some addr =>
          match matched with
          | Some prev =>
              if decide (prev = addr) then pinned_address pinned_addresses names (Some addr) else Err
          | None => pinned_address pinned_addresses names (Some addr)
          end
      | None => pinned_address pinned_addresses names matched
      end
  end.

#[export] Instance MoveStructTag_eq_dec : EqDecision MoveStructTag.
Proof. intros x y. destruct (decide (Tag_Struct x = Tag_Struct y)) as [E|E]; [left; congruence|right; congruence]. Defined.
#[export] Instance MoveStructTag_countable : Countable MoveStructTag.
Proof.
  refine (inj_countable Tag_Struct (λ t, match t with Tag_Struct s => Some s | _ => None end) _). done.
Defined.

Section env.
Context `{OL : ObjectLib} {T : Type} `{DB : !ObjectDb T} `{OF : !ObjectFacts}.
Context (from_sui_object : Object → result MovePackageAbi).
(** [linkage_table] of a package object: ids with the ids they were upgraded
    to; [None]: the object is no package. *)
Context (linkage_table : Object → option (list (MoveAddress * MoveAddress))).
(** [GraphQlDatabase::get_object]. *)
Context (rpc_get_object : MoveAddress → result (option Object)).

(** ** Installing *)
Context (new_system_package : list CompiledModule → N → list MoveAddress → Object).

(** [movy] is the bundled package, [SequenceNumber::new()] zero. *)
Definition install_movy (movy : SuiCompiledPackage) (db : T) : result () * T :=
  let '(modules, deps) := into_deployment movy in
  db_commit_single_object (new_system_package modules 0 deps) db.

(** [stds] are [testing_std] or [sui_std]. *)
Fixpoint install_std (stds : list SuiCompiledPackage) (db : T) : panics (result () * T) :=
  match stds with
  | [] => Ret (Ok (), db)
  | out :: stds =>
      out ← movy_mock out;
      if decide (pk_package_id out = addr_zero) then install_std stds db else
      let '(modules, dependencies) := into_deployment out in
      match db_commit_single_object (new_system_package modules 255 dependencies) db with
      | (Err, db) => Ret (Err, db)
      | (Ok _, db) => install_std stds db
      end
  end.

(** ** Fetching from the chain *)
Definition deploy_object_id (package_id : MoveAddress) (db : T) : result () * T :=
  match rpc_get_object package_id with
  | Ok (Some object) => db_commit_single_object object db
  | _ => (Err, db)
  end.
Fixpoint fetch_linked (links : list (MoveAddress * MoveAddress)) (out : gset MoveAddress) (db : T) :
    result (gset MoveAddress) * T :=
  match links with
  | [] => (Ok out, db)
  | (id, upgraded_id) :: links =>
      match db_get_object upgraded_id db with
      | (Some _, db) => fetch_linked links ({[ id ]} ∪ out) db
      | (None, db) =>
          match deploy_object_id upgraded_id db with
          | (Err, db) => (Err, db)
          | (Ok _, db) => fetch_linked links ({[ id ]} ∪ out) db
          end
      end
  end.
Definition fetch_package_at_address (package_id : MoveAddress) (db : T) : result (gset MoveAddress) * T :=
  match rpc_get_object package_id with
  | Ok (Some object) =>
      match linkage_table object with
      | None => (Err, db)
      | Some links =>
          match fetch_linked links ∅ db with
          | (Err, db) => (Err, db)
          | (Ok out, db) =>
              match db_commit_single_object object db with
              | (Err, db) => (Err, db)
              | (Ok _, db) => (Ok out, db)
              end
          end
      end
  | _ => (Err, db)
  end.

(** The loop of [load_local]; [compiled] is the id of the project itself; fuel
    for the packages that are taken ([fetch_loop_ends]). *)
Fixpoint fetch_loop (fuel : nat) (compiled : MoveAddress) (packages_to_fetch : gset MoveAddress) (db : T) : option T :=
  match fuel with
  | 0 => None
  | S fuel =>
      match last (set_iter packages_to_fetch) with
      | None => Some db
      | Some dep =>
          let packages_to_fetch := packages_to_fetch ∖ {[ dep ]} in
          if decide (dep ≠ addr_zero ∧ dep ≠ compiled) then
            match db_get_object dep db with
            | (Some _, db) => fetch_loop fuel compiled packages_to_fetch db
            | (None, db) =>
                match fetch_package_at_address dep db with
                | (Ok nexts, db) => fetch_loop fuel compiled (packages_to_fetch ∪ nexts) db
                | (Err, db) => fetch_loop fuel compiled packages_to_fetch db
                end
            end
          else fetch_loop fuel compiled packages_to_fetch db
      end
  end.

(** ** Queries *)

(** A loop over the objects of the store whose body may stop it. *)
Fixpoint over_objects {A} (body : MoveAddress → A → T → result A * T) (objects : list MoveAddress) (acc : A) (db : T) :
    result A * T :=
  match objects with
  | [] => (Ok acc, db)
  | obj :: objects =>
      match body obj acc db with
      | (Err, db) => (Err, db)
      | (Ok acc, db) => over_objects body objects acc db
      end
  end.
Definition listed {A} (body : MoveAddress → A → T → result A * T) (acc : A) (db : T) : result A * T :=
  match db_list_objects db with
  | Err => (Err, db)
  | Ok objects => over_objects body objects acc db
  end.

Definition export_abi : T → result (gmap MoveAddress MovePackageAbi) * T :=
  listed (λ obj out db,
    let '(r, db) := get_package_info from_sui_object obj db in
    (Ok (match r with Ok (Some abi) => <[pa_package_id abi := abi]> out | _ => out end), db)) ∅.

Fixpoint load_addresses (addresses : list MoveAddress) (db : T) : result () * T :=
  match addresses with
  | [] => (Ok (), db)
  | addr :: addresses =>
      match load_object addr db with
      | (Err, db) => (Err, db)
      | (Ok _, db) => load_addresses addresses db
      end
  end.
Definition load_inner_types : T → result () * T :=
  listed (λ obj _ db,
    let '(r, db) := get_move_object_info obj db in
    match r with
    | Ok mv => load_addresses (flat_addresses (oi_ty mv)) db
    | Err => (Ok (), db)
    end) ().

Definition all_tys : T → result (gset MoveStructTag) * T :=
  listed (λ obj tags db,
    let '(r, db) := get_move_object_info obj db in
    (Ok (match r with Ok info => list_to_set (flat_structs (oi_ty info)) ∪ tags | Err => tags end), db)) ∅.

(** The objects of the types of a package, of any owner that shares them. *)
Section history.
Context `{AT : AddressText}.
(** [GraphQlClient::filter_objects] for shared objects of a type. *)
Context (filter_objects : N → string → result (list Object)).

Fixpoint commit_all (objects : list Object) (db : T) : result () * T :=
  match objects with
  | [] => (Ok (), db)
  | object :: objects =>
      match db_commit_single_object object db with
      | (Err, db) => (Err, db)
      | (Ok _, db) => commit_all objects db
      end
  end.
Fixpoint load_structs (ckpt : N) (structs : list MoveStructAbi) (db : T) : result () * T :=
  match structs with
  | [] => (Ok (), db)
  | s :: structs =>
      match filter_objects ckpt (module_to_canonical_string true (sh_module_id (sa_handle s))) with
      | Err => (Err, db)
      | Ok objects =>
          match commit_all objects db with
          | (Err, db) => (Err, db)
          | (Ok _, db) => load_structs ckpt structs db
          end
      end
  end.
Definition load_history (package_id : MoveAddress) (ckpt : N) (db : T) : result () * T :=
  match get_package_info from_sui_object package_id db with
  | (Err, db) => (Err, db)
  | (Ok (Some package), db) => load_structs ckpt (flat_map ma_structs (pa_modules package)) db
  | (Ok None, db) => (Ok (), db)
  end.
End history.

(** ** Arguments of [movy_init] *)
Section init.
Context `{PB : PtbBuilder Bd}.

Fixpoint infos_of (ids : list MoveAddress) (db : T) : list MoveObjectInfo * T :=
  match ids with
  | [] => ([], db)
  | id :: ids =>
      let '(r, db) := get_move_object_info id db in
      let '(infos, db) := infos_of ids db in
      (match r with Ok info => info :: infos | Err => infos end, db)
  end.

Fixpoint init_args_loop (objects : list MoveObjectInfo) (deployer attacker : MoveAddress) (idx : nat)
    (params : list MoveAbiSignatureToken) (used_ids : gset MoveAddress) (args : list Argument) (builder : Bd) :
    result (Bd * list Argument) :=
  match params with
  | [] => Ok (builder, args)
  | param :: params =>
      match idx with
      | 0 =>
          let '(builder, a) := builder_pure (PuAddress deployer) builder in
          init_args_loop objects deployer attacker 1 params used_ids (args ++ [a]) builder
      | 1 =>
          let '(builder, a) := builder_pure (PuAddress attacker) builder in
          init_args_loop objects deployer attacker 2 params used_ids (args ++ [a]) builder
      | S (S _) =>
          match movy_init_object_arg_for_param param deployer objects used_ids with
          | Err => Err
          | Ok (object, object_arg) =>
              match builder_obj object_arg builder with
              | None => Err
              | Some (builder, a) =>
                  init_args_loop objects deployer attacker (S idx) params ({[ oi_id object ]} ∪ used_ids) (args ++ [a]) builder
              end
          end
      end
  end.
Definition build_movy_init_args (builder : Bd) (init : MoveFunctionAbi) (deployer attacker : MoveAddress) (db : T) :
    result (Bd * list Argument) * T :=
  match db_list_objects db with
  | Err => (Err, db)
  | Ok ids =>
      let '(objects, db) := infos_of ids db in
      (init_args_loop objects deployer attacker 0 (fa_parameters init) ∅ [] builder, db)
  end.
End init.

(** ** A local project *)
Section local.
Context `{PB : PtbBuilder Bd} `{TL : TraceLib} `{IL : IdentLib}.
Context (tx_digest : TransactionData → N) (input_objects : TransactionData → result (list InputObjectKind)).
Context (gas_ok : N → N → bool).
Context (execute : ExecutionMode → list (InputObjectKind * Object) → TransactionData → N → N → T →
  ExecutionResults * T).
Context (serialize : CompiledModule → result Ptb.Bytes).
Context (compute_digest : list Ptb.Bytes → list MoveAddress → Ptb.Bytes).
Context (is_upgrade_cap : MoveTypeTag → bool).
Context (immediate_dependencies : CompiledModule → list MoveAddress).
Context {Path : Type} (build_package_resolved : Path → bool → result CompiledArtifacts).
(** [SuiCompiledPackage::abi]. *)
Context (package_abi : SuiCompiledPackage → result MovePackageAbi).

(** Where a project goes: the id to deploy at and, when the modules were
    compiled for another one, that original id. *)
Inductive Deployment := Deploy_At (project : SuiCompiledPackage) | Upgrade_From (original_id : MoveAddress) (project : SuiCompiledPackage).
Definition plan_deployment (pinned : option MoveAddress) (compiled_result : SuiCompiledPackage) :
    panics (result Deployment) :=
  module_address ← all_same_address compiled_result;
  match module_address with
  | None => Ret Err
  | Some module_address =>
      modules ← mapM (mock_module_address addr_zero) (pk_modules compiled_result);
      let compiled_result := set_modules modules compiled_result in
      let '(module_address, compiled_result) :=
        match pinned with
        | Some pinned => (addr_zero, set_package_id pinned compiled_result)
        | None => (module_address, compiled_result)
        end in
      Ret (Ok (if decide (module_address = addr_zero ∨ module_address = pk_package_id compiled_result)
               then Deploy_At compiled_result else Upgrade_From module_address compiled_result))
  end.

Definition deploy := deploy_contract tx_digest input_objects gas_ok execute serialize is_upgrade_cap (λ a, bcs (PuAddress a)).
Definition run_deployment (epoch epoch_ms : N) (deployer gas : MoveAddress) (d : Deployment) (w : World (T := T)) :
    panics (option (result MoveAddress) * World (T := T)) :=
  match d with
  | Deploy_At project =>
      '(r, w) ← deploy epoch epoch_ms deployer gas project w;
      Ret (match r with Some (Ok (address, _)) => Some (Ok address) | Some Err => Some Err | None => None end, w)
  | Upgrade_From original_id project =>
      '(r, w) ← deploy epoch epoch_ms deployer gas (set_package_id original_id project) w;
      match r with
      | Some (Ok (address, cap)) =>
          upgrade_contract tx_digest input_objects gas_ok execute serialize compute_digest epoch epoch_ms deployer gas
            address cap project w
      | Some Err => Ret (Some Err, w)
      | None => Ret (None, w)
      end
  end.

(** [movy_init] of a module: run, and committed when it succeeds. *)
Definition run_movy_init (address : MoveAddress) (deployer attacker : MoveAddress) (epoch epoch_ms : N) (gas : MoveAddress)
    (md : MoveModuleAbi) (init : MoveFunctionAbi) (lcov : option (gset BytecodeLocation)) (w : World (T := T)) :
    panics (option (result (option (gset BytecodeLocation))) * World (T := T)) :=
  match build_movy_init_args builder_new init deployer attacker (w_db w) with
  | (Err, db) => Ret (Some Err, set_db db w)
  | (Ok (builder, args), db) =>
      let w := set_db db w in
      _ ← unwrap (identifier_new (module_name (ma_module_id md)));
      _ ← unwrap (identifier_new (fa_name init));
      let '(builder, _) := builder_command
        (Cmd_MoveCall (MkPMC address (module_name (ma_module_id md)) (fa_name init) [] args)) builder in
      '(r, w) ← run_ptb_with_movy_tracer_gas tx_digest input_objects gas_ok execute (builder_finish builder) epoch epoch_ms
        deployer gas (test_tracer lcov) w;
      match r with
      | None => Ret (None, w)
      | Some Err => Ret (Some Err, w)
      | Some (Ok (results, tracer)) =>
          if negb (fx_is_ok (er_effects results)) then Ret (Some Err, w)
          else commit_then results (tracer_hits tracer) w
      end
  end.
Fixpoint run_movy_inits (address deployer attacker : MoveAddress) (epoch epoch_ms : N) (gas : MoveAddress)
    (modules : list MoveModuleAbi) (lcov : option (gset BytecodeLocation)) (w : World (T := T)) :
    panics (option (result (option (gset BytecodeLocation))) * World (T := T)) :=
  match modules with
  | [] => Ret (Some (Ok lcov), w)
  | md :: modules =>
      match (if is_test_only_module md then locate_movy_init md else None) with
      | None => run_movy_inits address deployer attacker epoch epoch_ms gas modules lcov w
      | Some init =>
          '(r, w) ← run_movy_init address deployer attacker epoch epoch_ms gas md init lcov w;
          match r with
          | Some (Ok lcov) => run_movy_inits address deployer attacker epoch epoch_ms gas modules lcov w
          | Some Err => Ret (Some Err, w)
          | None => Ret (None, w)
          end
      end
  end.

Record LoadOptions := MkLoad {
  lo_path : Path; lo_deployer : MoveAddress; lo_attacker : MoveAddress; lo_epoch : N; lo_epoch_ms : N;
  lo_gas : MoveAddress; lo_unpublished : bool; lo_verify_deps : bool; lo_onchain_fallback : bool;
  lo_pinned_addresses : gmap string MoveAddress }.
Definition dependencies_to_fetch (p : SuiCompiledPackage) : gset MoveAddress :=
  list_to_set (pk_dependencies p ++ flat_map immediate_dependencies (pk_modules p)).

(** What is loaded: the address, the two ABIs, the names; and the hits. *)
Definition Loaded : Type := MoveAddress * MovePackageAbi * MovePackageAbi * list string.

(** After the deployment: the ABI of what is in the store, and [movy_init]. *)
Definition finish_load (o : LoadOptions) (address : MoveAddress) (non_test_abi : MovePackageAbi) (package_names : list string)
    (lcov : option (gset BytecodeLocation)) (w : World (T := T)) :
    panics (option (result (Loaded * option (gset BytecodeLocation))) * World (T := T)) :=
  match get_package_info from_sui_object address (w_db w) with
  | (Err, db) => Ret (Some Err, set_db db w)
  | (Ok abi, db) =>
      abi ← unwrap abi;
      '(r, w) ← run_movy_inits address (lo_deployer o) (lo_attacker o) (lo_epoch o) (lo_epoch_ms o) (lo_gas o)
        (pa_modules abi) lcov (set_db db w);
      Ret (match r with
           | Some (Ok lcov) =>
               Some (Ok (address, package_published_at address abi, package_published_at address non_test_abi,
                 package_names, lcov))
           | Some Err => Some Err
           | None => None
           end, w)
  end.

(** [fuel] is for the packages that are fetched. *)
Definition load_local (fuel : nat) (o : LoadOptions) (lcov : option (gset BytecodeLocation)) (w : World (T := T)) :
    panics (option (result (Loaded * option (gset BytecodeLocation))) * World (T := T)) :=
  r ← build_checked immediate_dependencies build_package_resolved (lo_path o) false (lo_unpublished o) (lo_verify_deps o);
  match r with
  | Err => Ret (Some Err, w)
  | Ok abi_result =>
      match package_abi abi_result with
      | Err => Ret (Some Err, w)
      | Ok non_test_abi =>
          r ← build_checked immediate_dependencies build_package_resolved (lo_path o) true (lo_unpublished o)
            (lo_verify_deps o);
          match r with
          | Err => Ret (Some Err, w)
          | Ok compiled_result =>
              let package_names := pk_package_names compiled_result in
              compiled_result ← movy_mock compiled_result;
              match pinned_address (lo_pinned_addresses o) package_names None with
              | Err => Ret (Some Err, w)
              | Ok pinned =>
                  match (if lo_onchain_fallback o
                         then fetch_loop fuel (pk_package_id compiled_result) (dependencies_to_fetch abi_result) (w_db w)
                         else Some (w_db w)) with
                  | None => Ret (None, w)
                  | Some db =>
                      let w := set_db db w in
                      d ← plan_deployment pinned compiled_result;
                      match d with
                      | Err => Ret (Some Err, w)
                      | Ok d =>
                          '(r, w) ← run_deployment (lo_epoch o) (lo_epoch_ms o) (lo_deployer o) (lo_gas o) d w;
                          match r with
                          | Some (Ok address) => finish_load o address non_test_abi package_names lcov w
                          | Some Err => Ret (Some Err, w)
                          | None => Ret (None, w)
                          end
                      end
                  end
              end
          end
      end
  end.
End local.
End env.
