(* ===== verification/EnvSpec.v ===== *)
(** * EnvSpec: the replay environment

    Objects chosen for [movy_init] fit their parameters and are distinct; names
    pinned to addresses agree; fetching dependencies ends with all of them in
    the store that the chain has; a loaded project stands at the address that
    was asked for. *)
From S2P Require Import Prelude Types Abi TypeArgs Text Ptb TraceState Tracer TreeTracer Lcov FuzzTracer TypeGraph Meta Cache Objects Testing File FileSpec Db Compile CompileSpec Deploy DeploySpec Env.

(** ** Objects for [movy_init] *)

(** The ways an object can be passed: values only from the deployer, immutable
    objects by immutable reference, shared objects by any reference. *)
Inductive usable (deployer : MoveAddress) (object : MoveObjectInfo) : MovyInitObjectMode → ObjectArg → Prop :=
| Usable_owned mode : oi_owner object = AddressOwner deployer →
    usable deployer object mode (OA_ImmOrOwned (sui_reference object))
| Usable_immutable : oi_owner object = Immutable_ →
    usable deployer object ImmutableRef (OA_ImmOrOwned (sui_reference object))
| Usable_shared v : oi_owner object = Shared_ v →
    usable deployer object ImmutableRef (OA_Shared (oi_id object) v false)
| Usable_shared_mut v : oi_owner object = Shared_ v →
    usable deployer object MutableRef (OA_Shared (oi_id object) v true).
#[export] Hint Constructors usable : core.

Lemma movy_init_fits_spec deployer used ty mode object :
  if (movy_init_fits deployer used ty mode object)
  then (oi_id object ∉ used) ∧ oi_ty object = ty ∧
    ∃ arg, movy_init_object_arg object mode = Ok arg ∧ usable deployer object mode arg
  else ∀ arg, oi_id object ∉ used → oi_ty object = ty → ¬ usable deployer object mode arg.
Proof.
  unfold movy_init_fits, movy_init_object_arg.
  destruct (bool_decide (oi_id object ∈ used)) eqn:E1; simpl; [apply bool_decide_eq_true in E1; done|].
  destruct (bool_decide (oi_ty object = ty)) eqn:E2; simpl; [|apply bool_decide_eq_false in E2; done].
  apply bool_decide_eq_false in E1. apply bool_decide_eq_true in E2.
  destruct (oi_owner object) as [a|a| |v|v a] eqn:Eo, mode; try case_bool_decide; subst;
    solve [intros arg _ _ Hu; inversion Hu; congruence|split; [done|]; split; [done|]; eauto].
Qed.
Lemma object_arg_id deployer object mode arg : usable deployer object mode arg → object_id arg = oi_id object.
Proof. by destruct 1. Qed.

Lemma find_object_ok param deployer objects used object arg :
  movy_init_object_arg_for_param param deployer objects used = Ok (object, arg) →
  ∃ ty mode, movy_init_param_ty_and_mode param = Some (ty, mode) ∧
    object ∈ objects ∧ (oi_id object ∉ used) ∧ oi_ty object = ty ∧ usable deployer object mode arg.
Proof.
  unfold movy_init_object_arg_for_param. destruct (movy_init_param_ty_and_mode param) as [[ty mode]|]; [|done].
  destruct (List.find _ objects) as [object'|] eqn:E; [|done]. apply List.find_some in E as [Hin Hf].
  pose proof (movy_init_fits_spec deployer used ty mode object') as H. rewrite Hf in H.
  destruct H as (Hu & Ht & arg' & -> & Hus). cbn [mbind result_mbind]. intros [= <- <-].
  exists ty, mode. split_and!; [done|by apply list_elem_of_In|done..].
Qed.

(** An object for a parameter of [movy_init] is one of the store's that is
    not used yet, has the parameter's type and an owner that may pass it that
    way, and is passed that way; it fails only when there is none. *)
Theorem movy_init_object_fits param deployer objects used :
  match movy_init_object_arg_for_param param deployer objects used with
  | Ok (object, arg) => ∃ ty mode, movy_init_param_ty_and_mode param = Some (ty, mode) ∧
      object ∈ objects ∧ (oi_id object ∉ used) ∧ oi_ty object = ty ∧ usable deployer object mode arg
  | Err => ∀ ty mode object arg, movy_init_param_ty_and_mode param = Some (ty, mode) →
      object ∈ objects → oi_id object ∉ used → oi_ty object = ty → ¬ usable deployer object mode arg
  end.
Proof.
  destruct (movy_init_object_arg_for_param param deployer objects used) as [[object arg]|] eqn:E; [by apply find_object_ok|].
  intros ty mode object arg Hm Hin. unfold movy_init_object_arg_for_param in E. rewrite Hm in E.
  pose proof (movy_init_fits_spec deployer used ty mode object) as H. pose proof (λ o, movy_init_fits_spec deployer used ty mode o) as Hok.
  destruct (List.find _ objects) as [object'|] eqn:Ef.
  - apply List.find_some in Ef as [_ Hf]. specialize (Hok object'). rewrite Hf in Hok.
    destruct Hok as (_ & _ & arg' & Ea & _). by rewrite Ea in E.
  - rewrite (List.find_none _ _ Ef object) in H by (by apply list_elem_of_In). apply H.
Qed.

Section init.
Context `{OL : ObjectLib} {T : Type} `{DB : !ObjectDb T} `{OF : !ObjectFacts} `{PB : PtbBuilder Bd}.

(** The objects passed for parameters, in order, none twice. *)
Inductive passes (deployer : MoveAddress) (objects : list MoveObjectInfo) :
    list MoveAbiSignatureToken → gset MoveAddress → list ObjectArg → Prop :=
| Passes_nil used : passes deployer objects [] used []
| Passes_cons param params used object arg args ty mode :
    movy_init_param_ty_and_mode param = Some (ty, mode) → object ∈ objects → oi_id object ∉ used →
    oi_ty object = ty → usable deployer object mode arg → passes deployer objects params ({[ oi_id object ]} ∪ used) args →
    passes deployer objects (param :: params) used (arg :: args).

Lemma passes_fresh deployer objects params used args : passes deployer objects params used args →
  NoDup (map object_id args) ∧ ∀ a, a ∈ map object_id args → a ∉ used.
Proof.
  induction 1 as [|param params used object arg args ty mode _ _ Hu _ Hus _ [Hn Hd]]; [by split; [constructor|set_solver]|].
  rewrite map_cons, (object_arg_id _ _ _ _ Hus). split.
  - constructor; [|done]. intros Hin. apply Hd in Hin. set_solver.
  - set_solver.
Qed.

Definition input_args (from n : nat) : list Argument := map (λ i, A_Input (N.of_nat i)) (seq from n).

Lemma input_args_cons from n : input_args from (S n) = A_Input (N.of_nat from) :: input_args (S from) n.
Proof. done. Qed.

(** From the third parameter on: one object input each. *)
Lemma init_objects objects deployer attacker params idx used args b ins b' args' :
  (∀ x, x ∈ ins → match x with CA_Object o => object_id o ∈ used | CA_Pure _ => True end) →
  builder_finish b = (ins, []) →
  init_args_loop objects deployer attacker (S (S idx)) params used args b = Ok (b', args') →
  ∃ oargs, passes deployer objects params used oargs ∧
    args' = args ++ input_args (length ins) (length params) ∧ builder_finish b' = (ins ++ map CA_Object oargs, []).
Proof.
  revert idx used args b ins. induction params as [|param params IH]; intros idx used args b ins Hu Hb H.
  - injection H as <- <-. exists []. split; [constructor|]. by rewrite !app_nil_r.
  - cbn [init_args_loop] in H.
    destruct (movy_init_object_arg_for_param param deployer objects used) as [[object arg]|] eqn:Eo; [|done].
    apply find_object_ok in Eo as (ty & mode & Hm & Hin & Hni & Ht & Hus).
    destruct (finish_obj arg b ins [] Hb) as (b1 & E1 & F1).
    { apply Forall_forall. intros x Hx Hc. apply Hu in Hx. destruct x; [done|]. simpl in Hc.
      rewrite (object_arg_id _ _ _ _ Hus) in Hc. congruence. }
    rewrite E1 in H. apply (IH _ _ _ _ (ins ++ [CA_Object arg])) in H as (oargs & Hps & -> & Hf); [..|done].
    + exists (arg :: oargs). split; [by econstructor|]. cbn [map length]. rewrite input_args_cons, <-!app_assoc.
      rewrite length_app, Nat.add_1_r in *. split; [done|]. by rewrite Hf, <-app_assoc.
    + intros x [Hx|Hx]%elem_of_app; [apply Hu in Hx; destruct x; set_solver|].
      apply list_elem_of_singleton in Hx as ->. rewrite (object_arg_id _ _ _ _ Hus). set_solver.
Qed.

(** The arguments built for [movy_init]: the deployer, the attacker and
    then, for each further parameter, an object of the store that fits it and
    is used only once - each an input of its own, in this order. *)
Theorem movy_init_args_exact init deployer attacker p0 p1 params db b args db' :
  bcs (PuAddress deployer) ≠ bcs (PuAddress attacker) → fa_parameters init = p0 :: p1 :: params →
  build_movy_init_args builder_new init deployer attacker db = (Ok (b, args), db') →
  ∃ ids objects oargs, db_list_objects db = Ok ids ∧ (objects, db') = infos_of ids db ∧
    passes deployer objects params ∅ oargs ∧ NoDup (map object_id oargs) ∧
    args = input_args 0 (2 + length params) ∧
    builder_finish b =
      ([CA_Pure (bcs (PuAddress deployer)); CA_Pure (bcs (PuAddress attacker))] ++ map CA_Object oargs, []).
Proof.
  intros Hne Hp H. unfold build_movy_init_args in H. destruct (db_list_objects db) as [ids|]; [|done].
  destruct (infos_of ids db) as [objects db1] eqn:Ei. injection H as H <-. rewrite Hp in H. cbn [init_args_loop] in H.
  destruct (finish_pure (PuAddress deployer) builder_new [] [] finish_new) as (b1 & E1 & F1); [constructor|].
  rewrite E1 in H.
  destruct (finish_pure (PuAddress attacker) b1 _ _ F1) as (b2 & E2 & F2); [repeat constructor; by intros ?|].
  rewrite E2 in H. eapply init_objects in H as (oargs & Hps & -> & Hf); [| |exact F2].
  2: { intros x Hx. simpl in Hx. apply elem_of_cons in Hx as [->|Hx%list_elem_of_singleton]; [done|by subst]. }
  exists ids, objects, oargs. split_and!; [done..| |done|done]. by apply (passes_fresh _ _ _ _ _ Hps).
Qed.
End init.

(** ** Pinned addresses *)
Section pinned.
Context (pins : gmap string MoveAddress).
Definition pins_of (names : list string) : list MoveAddress := omap (λ n, pins !! n) names.

Lemma pinned_some names a :
  pinned_address pins names (Some a) = if bool_decide (Forall (eq a) (pins_of names)) then Ok (Some a) else Err.
Proof.
  induction names as [|n names IH]; [done|]. cbn [pinned_address]. unfold pins_of in *. cbn [omap list_omap].
  destruct (pins !! n) as [b|]; [|done]. case_decide as E.
  - subst b. rewrite IH. apply (f_equal (λ c : bool, if c then _ else _)). apply bool_decide_ext. rewrite Forall_cons. naive_solver.
  - rewrite bool_decide_false; [done|]. rewrite Forall_cons. naive_solver.
Qed.

(** A package is pinned to the one address all its pinned names have,
    to none when no name is pinned, and refused when two names disagree. *)
Theorem pinned_address_exact names :
  pinned_address pins names None =
    match pins_of names with
    | [] => Ok None
    | a :: rest => if bool_decide (Forall (eq a) rest) then Ok (Some a) else Err
    end.
Proof.
  induction names as [|n names IH]; [done|]. cbn [pinned_address]. unfold pins_of in *. cbn [omap list_omap].
  destruct (pins !! n) as [a|]; [|done]. apply pinned_some.
Qed.
End pinned.

(** ** Fetching dependencies *)
Section fetch.
Context `{OL : ObjectLib} {T : Type} `{DB : !ObjectDb T} `{OF : !ObjectFacts} `{!ObjectDbLaws T (DB := DB)}.
Context (linkage_table : Object → option (list (MoveAddress * MoveAddress))).
Context (rpc_get_object : MoveAddress → result (option Object)).

(** The package [a] on the chain, with its links. *)
Definition on_chain (a : MoveAddress) (o : Object) (links : list (MoveAddress * MoveAddress)) : Prop :=
  rpc_get_object a = Ok (Some o) ∧ linkage_table o = Some links.
(** The chain has the package and those it was linked with. *)
Definition available (a : MoveAddress) : Prop :=
  ∃ o links, on_chain a o links ∧ ∀ id up, (id, up) ∈ links → ∃ o', rpc_get_object up = Ok (Some o').

(** The chain answers with the object asked for, and its links stay in a
    finite set of ids. *)
Context (U : gset MoveAddress).
Hypothesis rpc_id : ∀ a o, rpc_get_object a = Ok (Some o) → obj_id o = a.
Hypothesis known_ids : ∀ a, a ∈ U → db_id a.
Hypothesis chain_ids : ∀ a o links id up, on_chain a o links → (id, up) ∈ links → id ∈ U ∧ db_id up.

Abbreviation fetch_linked := (fetch_linked rpc_get_object).
Abbreviation fetch_package := (fetch_package_at_address linkage_table rpc_get_object).
Abbreviation fetch_loop := (fetch_loop linkage_table rpc_get_object).

(** What a store becomes: it keeps what it has and gains only what [P] allows. *)
Definition gains (P : MoveAddress → Prop) (db db' : T) : Prop := db_inv db' ∧ ∀ id, db_id id →
  (found id db → found id db') ∧ (found id db' → P id ∨ found id db).
Lemma gains_refl P db : db_inv db → gains P db db.
Proof. intros Hi. split; [done|]. auto. Qed.
Lemma gains_trans P db db1 db2 : gains P db db1 → gains P db1 db2 → gains P db db2.
Proof. intros [_ H1] [Hi H2]. split; [done|]. intros id Hid. destruct (H1 id Hid), (H2 id Hid). naive_solver. Qed.
Lemma gains_mono (P Q : MoveAddress → Prop) db db' : (∀ a, P a → Q a) → gains P db db' → gains Q db db'.
Proof. intros HPQ [Hi H]. split; [done|]. intros id Hid. destruct (H id Hid). naive_solver. Qed.
Lemma gains_get P id db : db_id id → db_inv db → gains P db (db_get_object id db).2.
Proof.
  intros Hid Hi. split; [by apply get_inv|]. intros id' Hid'. split; [by apply found_get|].
  intros H. right. by eapply found_only_get, H.
Qed.
Lemma gains_commit (P : MoveAddress → Prop) o db : db_inv db → P (obj_id o) →
  (db_commit_single_object o db).1 = Ok () ∧
  gains P db (db_commit_single_object o db).2 ∧ found (obj_id o) (db_commit_single_object o db).2.
Proof.
  intros Hi Hp. destruct (commit_ok o db Hi) as [Hok Hi']. split; [done|]. split; [|by apply found_commit].
  split; [done|]. intros id Hid. split; [by apply found_stays|]. intros [->|H]%found_only; auto.
Qed.
Lemma gains_found P id db db' : gains P db db' → db_id id → found id db → found id db'.
Proof. intros [_ H] Hid. by apply (H id Hid). Qed.

(** Every link is in the store in the end, or the chain does not have one. *)
Lemma fetch_linked_spec links out db : db_inv db → (∀ id up, (id, up) ∈ links → db_id up) →
  let '(r, db') := fetch_linked links out db in
  gains (λ a, a ∈ map snd links) db db' ∧
  match r with
  | Ok out' => out' = list_to_set (map fst links) ∪ out ∧ Forall (λ l, found l.2 db') links
  | Err => ∃ id up, (id, up) ∈ links ∧ ∀ o, rpc_get_object up ≠ Ok (Some o)
  end.
Proof.
  revert out db. induction links as [|[id up] links IH]; intros out db Hi Hids; cbn [Env.fetch_linked].
  { split; [by apply gains_refl|]. split; [set_solver|constructor]. }
  assert (Hup : db_id up) by (apply (Hids id); by left).
  assert (Hids' : ∀ id up, (id, up) ∈ links → db_id up) by (intros i u Hl; apply (Hids i); by right).
  assert (Hrest : ∀ db1, gains (λ a, a ∈ map snd ((id, up) :: links)) db db1 → found up db1 →
    let '(r, db') := fetch_linked links ({[ id ]} ∪ out) db1 in
    gains (λ a, a ∈ map snd ((id, up) :: links)) db db' ∧
    match r with
    | Ok out' => out' = list_to_set (map fst ((id, up) :: links)) ∪ out ∧ Forall (λ l, found l.2 db') ((id, up) :: links)
    | Err => ∃ id' up', (id', up') ∈ (id, up) :: links ∧ ∀ o, rpc_get_object up' ≠ Ok (Some o)
    end).
  { intros db1 Hg Hf. specialize (IH ({[ id ]} ∪ out) db1 (proj1 Hg) Hids').
    destruct (fetch_linked links ({[ id ]} ∪ out) db1) as [r db2]. destruct IH as [Hg2 H].
    split. { eapply gains_trans; [exact Hg|]. eapply gains_mono; [|exact Hg2]. intros a Ha. by right. }
    destruct r as [out'|].
    - destruct H as [-> H]. split; [cbn [map list_to_set fst]; set_solver -H|].
      constructor; [by eapply gains_found|done].
    - destruct H as (id' & up' & Hl & H). exists id', up'. split; [by right|done]. }
  pose proof (gains_get (λ a, a ∈ map snd ((id, up) :: links)) up db Hup Hi) as Hg.
  destruct (db_get_object up db) as [[o|] db1] eqn:Eg; cbn [snd] in Hg.
  - apply Hrest; [done|]. assert (Hf : found up db) by (unfold found; rewrite Eg; by eexists).
    by eapply gains_found.
  - unfold deploy_object_id.
    destruct (rpc_get_object up) as [[o|]|] eqn:Er; [|split; [done|]; exists id, up; split; [by left|by rewrite Er]..].
    destruct (gains_commit (λ a, a ∈ map snd ((id, up) :: links)) o db1 (proj1 Hg)) as (Hok & Hgc & Hfc).
    { rewrite (rpc_id _ _ Er). by left. }
    rewrite (rpc_id _ _ Er) in Hfc. destruct (db_commit_single_object o db1) as [[[]|] db2]; [|done].
    apply Hrest; [by eapply gains_trans|done].
Qed.

(** A package that is fetched is in the store with all it was linked with. *)
Lemma fetch_package_spec a db : db_inv db →
  let '(r, db') := fetch_package a db in
  gains (λ b, b = a ∨ ∃ o links, on_chain a o links ∧ b ∈ map snd links) db db' ∧
  match r with
  | Ok nexts => found a db' ∧ ∃ o links, on_chain a o links ∧ nexts = list_to_set (map fst links) ∧
      Forall (λ l, found l.2 db') links
  | Err => ¬ available a
  end.
Proof.
  intros Hi. unfold fetch_package_at_address.
  assert (Hno : (∀ o links, ¬ on_chain a o links) → ¬ available a) by (intros H (o & links & Ho & _); by eapply H).
  destruct (rpc_get_object a) as [[o|]|] eqn:Er;
    [|split; [by apply gains_refl|apply Hno; intros o links [E _]; congruence]..].
  destruct (linkage_table o) as [links|] eqn:El; [|split; [by apply gains_refl|apply Hno; intros o' links [E ?]; congruence]].
  assert (Hon : on_chain a o links) by done.
  assert (Hids : ∀ id up, (id, up) ∈ links → db_id up) by (intros id up Hl; by eapply chain_ids).
  pose proof (fetch_linked_spec links ∅ db Hi Hids) as H.
  destruct (fetch_linked links ∅ db) as [r db1]. destruct H as [Hg H]. set (P := λ b, _).
  assert (HgP : gains P db db1) by (eapply gains_mono; [|exact Hg]; intros b Hb; right; eauto).
  destruct r as [out|].
  - destruct H as [-> Hf]. destruct (gains_commit P o db1 (proj1 Hg)) as (Hok & Hgc & Hfc); [left; by apply rpc_id|].
    rewrite (rpc_id _ _ Er) in Hfc. destruct (db_commit_single_object o db1) as [[[]|] db2]; [|done]. cbn [snd] in *.
    split; [by eapply gains_trans|]. split; [done|]. exists o, links. split_and!; [done|set_solver -Hf|].
    rewrite Forall_forall in *. intros [id up] Hl. eapply gains_found; [exact Hgc|by eapply Hids|by apply Hf].
  - split; [done|]. intros (o' & links' & [E1 E2] & Hav). destruct H as (id & up & Hl & H).
    assert (o' = o) as -> by congruence. assert (links' = links) as -> by congruence.
    destruct (Hav _ _ Hl) as [o2 Ho2]. by eapply H.
Qed.

(** ** The loop *)

(** The packages of [U] that are not in the store. *)
Definition missing (db : T) : gset MoveAddress := base.filter (λ a, ¬ found a db) U.
#[local] Instance found_dec id db : Decision (found id db) := ltac:(unfold found; apply _).

Lemma missing_gains P db db' : gains P db db' → missing db' ⊆ missing db.
Proof.
  intros Hg a. unfold missing. rewrite !elem_of_filter. intros [Hn Ha]. split; [|done]. intros Hf.
  apply Hn. eapply gains_found; eauto.
Qed.
Lemma missing_less P a db db' : gains P db db' → a ∈ U → ¬ found a db → found a db' → size (missing db') < size (missing db).
Proof.
  intros Hg Ha Hn Hf. apply subset_size. split; [by eapply missing_gains|]. intros H.
  assert (a ∈ missing db') as Hm by (apply H; unfold missing; by apply elem_of_filter).
  unfold missing in Hm. by apply elem_of_filter in Hm as [? _].
Qed.

(** Nothing is left to do for a package. *)
Definition settled (compiled a : MoveAddress) (db : T) : Prop :=
  a = addr_zero ∨ a = compiled ∨ found a db ∨ ¬ available a.
Definition complete (compiled a : MoveAddress) (db : T) : Prop := found a db ∧ ∃ o links, on_chain a o links ∧
  ∀ id up, (id, up) ∈ links → found up db ∧ settled compiled id db.
(** The packages that were fetched and those they were linked with. *)
Definition fetched (A : gset MoveAddress) (b : MoveAddress) : Prop :=
  b ∈ A ∨ ∃ a o links, a ∈ A ∧ on_chain a o links ∧ b ∈ map snd links.

Lemma settled_gains P compiled a db db' : gains P db db' → a ∈ U → settled compiled a db → settled compiled a db'.
Proof. intros Hg Ha [|[|[|]]]; unfold settled; auto. right; right; left. eapply gains_found; eauto. Qed.
Lemma last_set_iter (s : gset MoveAddress) :
  match last (set_iter s) with Some a => a ∈ s | None => s = ∅ end.
Proof.
  pose proof (merge_sort_Permutation address_le (elements s)) as Hp. unfold set_iter.
  destruct (last (merge_sort address_le (elements s))) as [a|] eqn:E.
  - apply last_Some_elem_of in E. rewrite Hp in E. by apply elem_of_elements in E.
  - apply last_None in E. apply leibniz_equiv, elements_empty_inv, Permutation_nil. by rewrite <-E.
Qed.

Lemma fetch_loop_spec compiled fuel todo db : db_inv db → todo ⊆ U → size todo + size (missing db) * S (size U) < fuel →
  ∃ db' A, fetch_loop fuel compiled todo db = Some db' ∧ gains (fetched A) db db' ∧
    (∀ a, a ∈ A → a ≠ addr_zero ∧ a ≠ compiled ∧ (complete compiled a db' ∨ ¬ available a)) ∧
    ∀ a, a ∈ todo → settled compiled a db'.
Proof.
  revert todo db. induction fuel as [|fuel IH]; intros todo db Hi HU Hf; [lia|]. cbn [Env.fetch_loop].
  pose proof (last_set_iter todo) as Hl. destruct (last (set_iter todo)) as [dep|].
  2: { exists db, ∅. subst todo. split_and!; [done|by apply gains_refl|set_solver..]. }
  assert (Hdep : dep ∈ U) by set_solver. set (rest := todo ∖ {[dep]}).
  assert (Hrest : size rest < size todo) by (apply subset_size; unfold rest; set_solver).
  (* the rest of the list, when [dep] is settled *)
  assert (Hgo : ∀ db1 A0, gains (fetched A0) db db1 → settled compiled dep db1 →
    (∀ a, a ∈ A0 → a ≠ addr_zero ∧ a ≠ compiled ∧ ¬ available a) →
    ∃ db' A, fetch_loop fuel compiled rest db1 = Some db' ∧ gains (fetched A) db db' ∧
    (∀ a, a ∈ A → a ≠ addr_zero ∧ a ≠ compiled ∧ (complete compiled a db' ∨ ¬ available a)) ∧
    ∀ a, a ∈ todo → settled compiled a db').
  { intros db1 A0 Hg Hs HA0. pose proof (missing_gains _ _ _ Hg) as Hm%subseteq_size.
    destruct (IH rest db1 (proj1 Hg)) as (db' & A & E & Hg' & HA & Ht); [unfold rest; set_solver|nia|].
    exists db', (A0 ∪ A). split; [done|]. split; [|split].
    - eapply gains_trans; [eapply gains_mono; [|exact Hg]|eapply gains_mono; [|exact Hg']];
        (intros b [Hb|(a & o & links & Ha & H)]; [left; set_solver|right; exists a, o, links; set_solver]).
    - intros a [Ha|Ha]%elem_of_union; [apply HA0 in Ha as (? & ? & ?); auto|auto].
    - intros a Ha. destruct (decide (a = dep)) as [->|]; [by eapply settled_gains|]. apply Ht. unfold rest. set_solver. }
  case_decide as Hsp.
  2: { apply (Hgo db ∅); [by apply gains_refl| |set_solver]. unfold settled.
       destruct (decide (dep = addr_zero)), (decide (dep = compiled)); naive_solver. }
  pose proof (gains_get (fetched ∅) dep db (known_ids _ Hdep) Hi) as Hg.
  destruct (db_get_object dep db) as [[o|] db1] eqn:Eg; cbn [snd] in Hg.
  { apply (Hgo db1 ∅); [done| |set_solver]. right; right; left. eapply gains_found; [exact Hg|by apply known_ids|].
    unfold found. rewrite Eg. by eexists. }
  pose proof (fetch_package_spec dep db1 (proj1 Hg)) as H.
  destruct (fetch_package dep db1) as [[nexts|] db2]; destruct H as [Hg2 H].
  2: { apply (Hgo db2 {[ dep ]}); [|by right; right; right|set_solver].
       eapply gains_trans; [eapply gains_mono; [|exact Hg]|eapply gains_mono; [|exact Hg2]].
       - intros b [?|(a & o & links & ? & _)]; set_solver.
       - intros b [->|(o & links & Ho & Hb)]; [left; set_solver|right; exists dep, o, links; set_solver]. }
  destruct H as (Hfd & o & links & Hon & -> & Hup).
  assert (Hnd : ¬ found dep db) by (unfold found; rewrite Eg; by intros []).
  assert (HgA : ∀ A, dep ∈ A → gains (fetched A) db db2).
  { intros A HA. eapply gains_trans; [eapply gains_mono; [|exact Hg]|eapply gains_mono; [|exact Hg2]].
    - intros b [?|(a & o' & ls & ? & _)]; set_solver.
    - intros b [->|(o' & ls & Ho & Hb)]; [by left|right; by exists dep, o', ls]. }
  assert (Hids : list_to_set (map fst links) ⊆ U).
  { intros b Hb%elem_of_list_to_set. apply list_elem_of_fmap in Hb as ([id up] & -> & Hk). by eapply chain_ids. }
  pose proof (missing_less _ dep _ _ (HgA {[dep]} ltac:(set_solver)) Hdep Hnd Hfd) as Hm.
  assert (Hsz : size (rest ∪ list_to_set (map fst links)) ≤ size U) by (apply subseteq_size; unfold rest; set_solver).
  destruct (IH (rest ∪ list_to_set (map fst links)) db2 (proj1 Hg2)) as (db' & A & E & Hg' & HA & Ht);
    [unfold rest; set_solver|nia|].
  assert (HA2 : gains (fetched ({[dep]} ∪ A)) db2 db').
  { eapply gains_mono; [|exact Hg']. intros b [Hb|(a & o' & ls & Ha & H)]; [left; set_solver|].
    right. exists a, o', ls. set_solver. }
  exists db', ({[dep]} ∪ A). split; [done|]. split; [|split].
  - eapply gains_trans; [apply HgA; set_solver|exact HA2].
  - intros a [->%elem_of_singleton|Ha]%elem_of_union; [|auto]. split; [apply Hsp|]. split; [apply Hsp|]. left.
    split; [by eapply gains_found; [exact HA2|apply known_ids|]|]. exists o, links. split; [done|].
    intros id up Hk. rewrite Forall_forall in Hup. split.
    + eapply gains_found; [exact HA2|by eapply chain_ids|by apply (Hup _ Hk)].
    + apply Ht, elem_of_union_r, elem_of_list_to_set, list_elem_of_fmap. by exists (id, up).
  - intros a Ha. destruct (decide (a = dep)) as [->|].
    + right; right; left. eapply gains_found; [exact HA2|by apply known_ids|done].
    + apply Ht. unfold rest. set_solver.
Qed.

(** C13: fetching the dependencies of a project ends - one more iteration than
    ids known, squared, is enough - and in the end each of them is settled: it
    is no package of the chain, the project itself, in the store, or not to be
    had; each package that was fetched is in the store with the packages it
    was linked with, and the ids of its links are settled, too; nothing else
    entered the store, and nothing left it. *)
Theorem fetch_loop_ends compiled todo db : db_inv db → todo ⊆ U →
  ∃ db' A, fetch_loop (S (S (size U) * S (size U))) compiled todo db = Some db' ∧
    gains (fetched A) db db' ∧
    (∀ a, a ∈ A → a ≠ addr_zero ∧ a ≠ compiled ∧ (complete compiled a db' ∨ ¬ available a)) ∧
    ∀ a, a ∈ todo → settled compiled a db'.
Proof.
  intros Hi HU. apply fetch_loop_spec; [done..|]. pose proof (subseteq_size _ _ HU).
  assert (size (missing db) ≤ size U) by (apply subseteq_size; unfold missing; set_solver). nia.
Qed.
End fetch.

(** ** A loaded project *)
Section load.
Context `{OL : ObjectLib} {T : Type} `{DB : !ObjectDb T} `{OF : !ObjectFacts} `{PB : PtbBuilder Bd} `{TL : TraceLib}
  `{IL : IdentLib}.
Context (from_sui_object : Object → result MovePackageAbi)
  (linkage_table : Object → option (list (MoveAddress * MoveAddress)))
  (rpc_get_object : MoveAddress → result (option Object)).
Context (tx_digest : TransactionData → N) (input_objects : TransactionData → result (list InputObjectKind)).
Context (gas_ok : N → N → bool).
Context (execute : ExecutionMode → list (InputObjectKind * Object) → TransactionData → N → N → T →
  ExecutionResults * T).
Context (serialize : CompiledModule → result Ptb.Bytes).
Context (compute_digest : list Ptb.Bytes → list MoveAddress → Ptb.Bytes).
Context (is_upgrade_cap : MoveTypeTag → bool).
Context (immediate_dependencies : CompiledModule → list MoveAddress).
Context {Path : Type} (build_package_resolved : Path → bool → result CompiledArtifacts).
Context (package_abi : SuiCompiledPackage → result MovePackageAbi).

Definition target_id (d : Deployment) : MoveAddress :=
  match d with Deploy_At p | Upgrade_From _ p => pk_package_id p end.

(** The project keeps the id it has or gets the pinned one. *)
Lemma plan_target pinned p d : plan_deployment pinned p = Ret (Ok d) →
  target_id d = default (pk_package_id p) pinned.
Proof.
  unfold plan_deployment. intros H. apply panics_bind_Ret in H as ([ma|] & _ & H); [|done].
  apply panics_bind_Ret in H as (modules & _ & H). destruct pinned as [a|]; injection H as <-; by (repeat case_match).
Qed.
Lemma run_target epoch ms deployer gas d w a w' :
  run_deployment tx_digest input_objects gas_ok execute serialize compute_digest is_upgrade_cap epoch ms deployer gas d w
    = Ret (Some (Ok a), w') →
  target_id d ≠ addr_zero → a = target_id d.
Proof.
  intros H Hz. destruct d as [p|original_id p]; cbn [run_deployment target_id] in *.
  - apply panics_bind_Ret in H as ([[[[a' cap]|]|] w1] & H & [= <- <-]). by eapply deploy_contract_target.
  - apply panics_bind_Ret in H as ([[[[a' cap]|]|] w1] & _ & H); [|done..]. by eapply upgrade_contract_target.
Qed.

Definition stands_at (address : MoveAddress) (abi : MovePackageAbi) : Prop :=
  pa_package_id abi = address ∧ Forall (λ m, module_address (ma_module_id m) = address) (pa_modules abi).
Lemma published_stands address abi : stands_at address (package_published_at address abi).
Proof. split; [done|]. simpl. apply Forall_map. by apply Forall_true. Qed.

Lemma load_local_parts fuel o lcov w address abi non_test names lcov' w' :
  load_local from_sui_object linkage_table rpc_get_object tx_digest input_objects gas_ok execute serialize compute_digest
    is_upgrade_cap immediate_dependencies build_package_resolved package_abi fuel o lcov w
    = Ret (Some (Ok (address, abi, non_test, names, lcov')), w') →
  ∃ compiled pinned stored_abi built_abi,
    build_checked immediate_dependencies build_package_resolved (lo_path o) true (lo_unpublished o) (lo_verify_deps o)
      = Ret (Ok compiled) ∧
    names = pk_package_names compiled ∧ pinned_address (lo_pinned_addresses o) names None = Ok pinned ∧
    (default (pk_package_id compiled) pinned ≠ addr_zero → address = default (pk_package_id compiled) pinned) ∧
    abi = package_published_at address stored_abi ∧ non_test = package_published_at address built_abi.
Proof.
  unfold load_local. intros H. apply panics_bind_Ret in H as ([abi_result|] & _ & H); [|done].
  destruct (package_abi abi_result) as [nabi|]; [|done].
  apply panics_bind_Ret in H as ([compiled|] & Hc & H); [|done]. apply panics_bind_Ret in H as (mocked & Hm & H).
  destruct (pinned_address _ _ _) as [pinned|] eqn:Hp; [|done].
  destruct (if lo_onchain_fallback o then _ else _) as [db|]; [|done].
  apply panics_bind_Ret in H as ([d|] & Hd & H); [|done].
  apply panics_bind_Ret in H as ([[[a|]|] w1] & Hr & H); [|done..].
  apply plan_target in Hd. unfold movy_mock in Hm. apply panics_bind_Ret in Hm as (ms & _ & [= <-]).
  unfold finish_load in H. destruct (get_package_info _ _ _) as [[info|] db1]; [|done].
  apply panics_bind_Ret in H as (abi0 & _ & H). apply panics_bind_Ret in H as ([[[l|]|] w2] & _ & H); [|done..].
  injection H as <- <- <- <- _ _. exists compiled, pinned, abi0, nabi. split; [done|]. split; [done|]. split; [done|].
  split; [|by split]. cbn [pk_package_id] in Hd. rewrite <-Hd. intros Hz. by eapply run_target.
Qed.

End load.

(** ** Witnesses *)
#[local] Existing Instance demo_objects.
#[local] Existing Instance demo_facts.
#[local] Existing Instance demo_db.
Abbreviation adr := MkMoveAddress.
Definition demo_coin : MoveObjectInfo := MkObjectInfo (adr 20) Tag_Address (AddressOwner demo_sender) 1 0.
Definition demo_frozen : MoveObjectInfo := MkObjectInfo (adr 21) Tag_Address Immutable_ 1 0.

Lemma movy_init_object_fits_witness :
  movy_init_object_arg_for_param (Tok_Reference Tok_Address) demo_sender [demo_coin; demo_frozen] {[adr 20]}
    = Ok (demo_frozen, OA_ImmOrOwned (adr 21, 1, 0)%N) ∧
  usable demo_sender demo_frozen ImmutableRef (OA_ImmOrOwned (adr 21, 1, 0)%N) ∧
  ∀ arg, ¬ usable demo_sender demo_frozen MutableRef arg.
Proof.
  split; [vm_compute; reflexivity|].
  pose proof (movy_init_object_fits (Tok_Reference Tok_Address) demo_sender [demo_coin; demo_frozen] {[adr 20]}) as H.
  pose proof (movy_init_object_fits (Tok_MutableReference Tok_Address) demo_sender [demo_coin; demo_frozen] {[adr 20]}) as H2.
  split.
  - destruct (movy_init_object_arg_for_param (Tok_Reference Tok_Address) _ _ _) as [[o a]|] eqn:E; vm_compute in E; [|discriminate E].
    injection E as <- <-. destruct H as (ty & mode & [= <- <-] & _ & _ & _ & H). exact H.
  - destruct (movy_init_object_arg_for_param (Tok_MutableReference Tok_Address) _ _ _) as [[o a]|] eqn:E; vm_compute in E;
      [discriminate E|]. intros arg. apply (H2 Tag_Address); [reflexivity|by right; left| |reflexivity].
    intros He. apply elem_of_singleton in He. vm_compute in He. discriminate He.
Defined.

Lemma pinned_address_demo :
  pinned_address {["a" := adr 3; "b" := adr 4]} ["c"; "a"] None = Ok (Some (adr 3)) ∧
  pinned_address {["a" := adr 3; "b" := adr 4]} ["a"; "b"] None = Err.
Proof. split; vm_compute; reflexivity. Qed.

(** A chain of three packages: 10 is linked with 11 as it was upgraded to 12. *)
Section chain.
#[local] Existing Instance pair_objects.
Definition chain_store : Backing (OL := pair_objects) := {|
  bk_get_package_object _ := Ok None; bk_get_object _ := None; bk_get_object_by_key _ _ := None;
  bk_get_object_received_at_version _ _ _ _ := Err; bk_read_child_object _ _ _ := Ok None |}.
Definition chain_get (a : MoveAddress) : result (option (Object (ObjectLib := pair_objects))) :=
  if decide (a ∈ [adr 10; adr 11; adr 12]) then Ok (Some (addr_val a, 1%N)) else Ok None.
Definition chain_links (o : Object (ObjectLib := pair_objects)) : option (list (MoveAddress * MoveAddress)) :=
  Some (if decide (o.1 = 10%N) then [(adr 11, adr 12)] else []).
Lemma chain_bound (o : Object (ObjectLib := pair_objects)) : (obj_version o ≤ u64_max)%N.
Proof. apply N.lt_succ_r. by apply N.mod_lt. Qed.
Definition chain_laws : ObjectDbLaws CachedSnapshot (DB := cache_db chain_store) :=
  cache_laws chain_store chain_bound (λ id o H, match H with eq_refl => I end).

Definition chain_known : gset MoveAddress := {[adr 10; adr 11; adr 13]}.
#[local] Instance chain_db : ObjectDb CachedSnapshot := cache_db chain_store.
Abbreviation chain_loop n := (fetch_loop (OL := pair_objects) chain_links chain_get n (adr 5) {[adr 10; adr 13]} ∅).

(** 10 is fetched with 12, then 11; 13 is not on the chain. *)
Lemma fetch_loop_ends_witness :
  ∃ db (A : gset MoveAddress), chain_loop 17 = Some db ∧ map fst (address_iter db) = [adr 10; adr 11; adr 12] ∧
    (∀ a, a ∈ A → a ≠ adr 5) ∧
    settled (OL := pair_objects) chain_links chain_get (adr 5) (adr 13) db.
Proof.
  destruct (fetch_loop_ends (OL := pair_objects) (DB := chain_db) (ObjectDbLaws0 := chain_laws) chain_links chain_get chain_known
    ltac:(unfold chain_get; intros a o; case_decide as E; [|done]; intros [= <-];
      repeat (apply elem_of_cons in E as [->|E]; [vm_compute; reflexivity|]); by apply not_elem_of_nil in E)
    ltac:(done)
    ltac:(unfold chain_links; intros a o l id up [_ [= <-]]; case_decide; [|by intros ?%not_elem_of_nil];
      intros [[= -> ->]|?%not_elem_of_nil]%elem_of_cons; [split; [set_solver|done]|done])
    (adr 5) {[adr 10; adr 13]} ∅) as (db & A & E & _ & HA & Hs).
  - intros id v x. unfold entry. by rewrite lookup_empty.
  - set_solver.
  - change (S (S (size chain_known) * S (size chain_known))) with 17 in E. exists db, A. split; [exact E|].
    split; [|split; [intros a Ha; by apply HA|apply Hs; set_solver]].
    vm_compute in E. injection E as <-. vm_compute. reflexivity.
Defined.
End chain.

Definition demo_init : MoveFunctionAbi := {|
  fa_name := MOVY_INIT; fa_parameters := [Tok_Address; Tok_Address; Tok_Reference Tok_Address];
  fa_return_paramters := []; fa_type_parameters := []; fa_visibility := Public; fa_is_entry := false |}.
Definition demo_state : CachedSnapshot :=
  cache_object_only (adr 21, 1%N, Some Tag_Address, Immutable_) ∅.
Lemma movy_init_args_exact_witness :
  ∃ b db, build_movy_init_args (PB := list_builder) (builder_new (PtbBuilder := list_builder)) demo_init (adr 1) (adr 2) demo_state
      = (Ok (b, [A_Input 0; A_Input 1; A_Input 2]), db) ∧
    snd (builder_finish b) = [] ∧
    fst (builder_finish b) = [CA_Pure (demo_bcs (PuAddress (adr 1))); CA_Pure (demo_bcs (PuAddress (adr 2)));
      CA_Object (OA_ImmOrOwned (adr 21, 1, 0)%N)].
Proof.
  destruct (build_movy_init_args (PB := list_builder) (builder_new (PtbBuilder := list_builder)) demo_init (adr 1) (adr 2) demo_state)
    as [[[b args]|] db] eqn:E; [|vm_compute in E; discriminate E].
  destruct (movy_init_args_exact (PB := list_builder) demo_init (adr 1) (adr 2) Tok_Address Tok_Address
    [Tok_Reference Tok_Address] demo_state b args db ltac:(vm_compute; discriminate) eq_refl E)
    as (ids & objects & oargs & _ & _ & _ & _ & -> & Hf).
  exists b, db. split; [reflexivity|]. rewrite Hf. split; [reflexivity|].
  vm_compute in E. injection E as <- _. rewrite <-(f_equal fst Hf). vm_compute. reflexivity.
Defined.

(** A project with a module for tests, pinned to 9: it is deployed there, and
    its [movy_init] gets the upgrade cap by reference. *)
Definition demo_abi (o : Object (ObjectLib := demo_objects)) : result MovePackageAbi := Ok {|
  pa_package_id := obj_id o;
  pa_modules := [{| ma_module_id := {| module_address := adr 5; module_name := "tests" |}; ma_structs := [];
                    ma_functions := [demo_init; {| fa_name := "unit_test_poison"; fa_parameters := [];
                      fa_return_paramters := []; fa_type_parameters := []; fa_visibility := Public; fa_is_entry := false |}] |}] |}.
Definition demo_options : LoadOptions (Path := unit) := {|
  lo_path := tt; lo_deployer := demo_sender; lo_attacker := adr 2; lo_epoch := 0; lo_epoch_ms := 0; lo_gas := adr 6;
  lo_unpublished := true; lo_verify_deps := true; lo_onchain_fallback := true; lo_pinned_addresses := {["root" := adr 9]} |}.
Definition demo_load :=
  load_local (PB := list_builder) demo_abi (λ _, None) (λ _, Ok None) tx_budget (λ _, Ok []) (λ _ _, true) demo_execute
    (λ _, Ok []) (λ _ _, []) (λ ty, bool_decide (ty = Tag_Address)) demo_deps (λ _ : unit, λ _, Ok demo_artifacts)
    (λ p, Ok {| pa_package_id := pk_package_id p; pa_modules := [] |}) 4 demo_options None demo_world.
Definition demo_loaded : bool :=
  match demo_load with
  | Ret (Some (Ok (a, _, _, names, l)), w) => bool_decide (a = adr 9 ∧ names = ["root"%string] ∧ l = None) &&
      match (db_get_object (adr 78) (w_db w)).1 with Some _ => true | None => false end
  | _ => false
  end.
