(* ===== verification/Stackless.v ===== *)
(** * Stackless: detectors on stackless bytecode

    [generate_bytecode.rs], [common.rs] and the five detectors of
    [crates/movy-static-analysis/src/sui] that read stackless bytecode. The
    bytecode is that of [move_stackless_bytecode]: registers ([temp]) are
    numbered, and what no detector reads - attributes, kinds of assignments,
    other operations, constants and types - is left out. *)
From S2P Require Import Prelude Types FuzzTracer.

(** ** Stackless bytecode *)
Inductive PrimitiveType := P_Bool | P_U8 | P_U16 | P_U32 | P_U64 | P_U128 | P_U256 | P_Address | P_Signer.
#[export] Instance PrimitiveType_eq_dec : EqDecision PrimitiveType.
Proof. solve_decision. Defined.
Inductive SLType := SL_Primitive (p : PrimitiveType) | SL_Type (other : N).
#[export] Instance SLType_eq_dec : EqDecision SLType.
Proof. solve_decision. Defined.
Inductive SLConstant := Const_Bool (b : bool) | Const_Other (c : N).
Inductive Operation :=
| Op_Eq | Op_Neq | Op_Mul | Op_Div | Op_Destroy
| Op_CastU8 | Op_CastU16 | Op_CastU32 | Op_CastU64 | Op_CastU128 | Op_CastU256
| Op_Function (module_id fid : N) | Op_Other (op : N).
Definition Label : Type := N.

Inductive SLBytecode :=
| SL_Assign (dst src : nat)
| SL_Call (dsts : list nat) (op : Operation) (srcs : list nat) (abort_action : option (Label * nat))
| SL_Ret (srcs : list nat)
| SL_Load (dst : nat) (constant : SLConstant)
| SL_Branch (then_label else_label : Label) (cond : nat)
| SL_Jump (label : Label)
| SL_Label (label : Label)
| SL_Abort (src : nat)
| SL_Nop
| SL_VariantSwitch (discr : nat) (labels : list Label).

(** ** Definitions and uses of registers *)
Abbreviation slots := (list (list nat)).
Definition record (idx offset : nat) (s : slots) : slots := alter (λ list, list ++ [offset]) idx s.
Definition record_all (idxs : list nat) (offset : nat) (s : slots) : slots :=
  foldl (λ s idx, record idx offset s) s idxs.

Definition def_use_step (offset : nat) (instr : SLBytecode) (s : slots * slots) : slots * slots :=
  let '(defs, uses) := s in
  match instr with
  | SL_Assign dst src => (record dst offset defs, record src offset uses)
  | SL_Call dsts _ srcs abort_action =>
      let defs := record_all dsts offset defs in
      let uses := record_all srcs offset uses in
      (match abort_action with Some (_, temp) => record temp offset defs | None => defs end, uses)
  | SL_Ret srcs => (defs, record_all srcs offset uses)
  | SL_Load dst _ => (record dst offset defs, uses)
  | SL_Branch _ _ src | SL_Abort src => (defs, record src offset uses)
  | SL_VariantSwitch discr _ => (defs, record discr offset uses)
  | SL_Jump _ | SL_Label _ | SL_Nop => (defs, uses)
  end.
Fixpoint def_use_loop (offset : nat) (code : list SLBytecode) (s : slots * slots) : slots * slots :=
  match code with
  | [] => s
  | instr :: code => def_use_loop (S offset) code (def_use_step offset instr s)
  end.
Definition compute_def_use (locals_len : nat) (code : list SLBytecode) : slots * slots :=
  def_use_loop 0 code (replicate locals_len [], replicate locals_len []).

Record FunctionInfo := MkFunction {
  fn_idx : nat; fn_name : string; fn_code : list SLBytecode; fn_local_types : list SLType;
  fn_def_attrid : slots; fn_use_attrid : slots }.

(** The instruction that defines a register where it is read: the only one,
    the last one before the offset, or else the first one. *)
Definition get_def_bytecode (function : FunctionInfo) (temp code_offset : nat) : option SLBytecode :=
  match fn_def_attrid function !! temp with
  | None | Some [] => None
  | Some [d] => fn_code function !! d
  | Some (d :: defs) =>
      match last (merge_sort (≤) (base.filter (λ idx, idx < code_offset) (d :: defs))) with
      | Some idx => fn_code function !! idx
      | None => fn_code function !! d
      end
  end.

(** A loop over the instructions that stops when one is found. *)
Fixpoint any_instr (f : nat → SLBytecode → bool) (offset : nat) (code : list SLBytecode) : bool :=
  match code with
  | [] => false
  | instr :: code => if f offset instr then true else any_instr f (S offset) code
  end.

(** ** Comparisons with a literal *)
Definition is_ld_bool (bytecode : SLBytecode) : bool :=
  match bytecode with SL_Load _ (Const_Bool _) => true | _ => false end.
Definition has_bool (local_types : list SLType) (idx : option nat) : bool :=
  bool_decide (idx ≫= (λ idx, local_types !! idx) = Some (SL_Primitive P_Bool)).
Definition ret_is_bool (bytecode : SLBytecode) (local_types : list SLType) : bool :=
  match bytecode with
  | SL_Call dsts _ _ _ => has_bool local_types (head dsts)
  | SL_Assign dst _ => has_bool local_types (Some dst)
  | SL_Load dst _ => has_bool local_types (Some dst)
  | _ => false
  end.
Definition bool_judgement_at (function : FunctionInfo) (offset : nat) (instr : SLBytecode) : bool :=
  match instr with
  | SL_Call _ (Op_Eq | Op_Neq) [s0; s1] _ =>
      match get_def_bytecode function s0 offset, get_def_bytecode function s1 offset with
      | Some lhs, Some rhs =>
          (is_ld_bool lhs && ret_is_bool rhs (fn_local_types function))
          || (is_ld_bool rhs && ret_is_bool lhs (fn_local_types function))
      | _, _ => false
      end
  | _ => false
  end.
Definition detect_bool_judgement (function : FunctionInfo) : bool :=
  any_instr (bool_judgement_at function) 0 (fn_code function).

(** ** Loops with a constant condition *)

(** [Bytecode::label_offsets] of the library; offsets are [u16]. *)
Section loops.
Context (label_offsets : list SLBytecode → gmap Label N).
Definition infinite_loop_at (function : FunctionInfo) (offset : nat) (instr : SLBytecode) : bool :=
  match instr with
  | SL_Branch then_label else_label cond =>
      match get_def_bytecode function cond offset with
      | Some (SL_Load _ (Const_Bool value)) =>
          let current_offset := as_u16 offset in
          match label_offsets (fn_code function) !! then_label, label_offsets (fn_code function) !! else_label with
          | Some then_offset, Some else_offset =>
              (value && (then_offset <=? current_offset)%N) || (negb value && (else_offset <=? current_offset)%N)
          | _, _ => false
          end
      | _ => false
      end
  | _ => false
  end.
Definition detect_infinite_loop (function : FunctionInfo) : bool :=
  any_instr (infinite_loop_at function) 0 (fn_code function).
End loops.

(** ** Products of quotients *)
Definition is_div (bytecode : SLBytecode) : bool :=
  match bytecode with SL_Call _ Op_Div _ _ => true | _ => false end.
(** [symbol] is the name of a function in the symbol pool. *)
Definition is_sqrt (symbol : N → string) (bytecode : SLBytecode) : bool :=
  match bytecode with SL_Call _ (Op_Function _ fid) _ _ => bool_decide (symbol fid = "sqrt"%string) | _ => false end.
Definition precision_loss_at (symbol : N → string) (function : FunctionInfo) (offset : nat) (instr : SLBytecode) : bool :=
  match instr with
  | SL_Call _ Op_Mul [s0; s1] _ =>
      match get_def_bytecode function s0 offset, get_def_bytecode function s1 offset with
      | Some op1, Some op2 => is_div op1 || is_div op2 || is_sqrt symbol op1 || is_sqrt symbol op2
      | _, _ => false
      end
  | _ => false
  end.
Definition detect_precision_loss (symbol : N → string) (function : FunctionInfo) : bool :=
  any_instr (precision_loss_at symbol function) 0 (fn_code function).

(** ** Casts to the type a value has *)
Definition cast_type (op : Operation) : option PrimitiveType :=
  match op with
  | Op_CastU8 => Some P_U8 | Op_CastU16 => Some P_U16 | Op_CastU32 => Some P_U32
  | Op_CastU64 => Some P_U64 | Op_CastU128 => Some P_U128 | Op_CastU256 => Some P_U256
  | _ => None
  end.
Fixpoint type_conversion_loop (local_types : list SLType) (code : list SLBytecode) : panics bool :=
  match code with
  | [] => Ret false
  | instr :: code =>
      hit ← match instr with
            | SL_Call _ op srcs _ =>
                match cast_type op with
                | Some p =>
                    src ← unwrap (head srcs);
                    ty ← unwrap (local_types !! src);
                    Ret (bool_decide (ty = SL_Primitive p))
                | None => Ret false
                end
            | _ => Ret false
            end;
      if hit : bool then Ret true else type_conversion_loop local_types code
  end.
Definition detect_unnecessary_type_conversion (function : FunctionInfo) : panics bool :=
  type_conversion_loop (fn_local_types function) (fn_code function).

(** ** Results that are dropped *)
Definition is_drop (dsts : list nat) (instr : SLBytecode) : bool :=
  match instr with
  | SL_Call _ Op_Destroy [src] _ => bool_decide (src ∈ dsts)
  | _ => false
  end.
(** The loop over the instructions after the call; it stops at the first. *)
Definition consumed (dsts : list nat) (rest : list SLBytecode) : nat :=
  if existsb (is_drop dsts) rest then 1 else 0.
Fixpoint unchecked_return_loop (code : list SLBytecode) : list N :=
  match code with
  | [] => []
  | instr :: code =>
      match instr with
      | SL_Call ((_ :: _) as dsts) (Op_Function _ fid) _ _ =>
          if 0 <? consumed dsts code then fid :: unchecked_return_loop code else unchecked_return_loop code
      | _ => unchecked_return_loop code
      end
  end.
Definition detect_unchecked_return (function : FunctionInfo) : list N := unchecked_return_loop (fn_code function).
