(* ===== verification/StacklessSpec.v ===== *)
(** * StacklessSpec: what the detectors on stackless bytecode report

    The slots of definitions and uses are what a scan of the code gives, the
    definition looked up for a register is the one that reaches it in the text,
    and every detector reports exactly the pattern it looks for. *)
From S2P Require Import Prelude Types FuzzTracer Stackless.

(** ** Definitions and uses *)

(** The registers an instruction writes and reads, in the order they are
    recorded. *)
Definition defs_of (instr : SLBytecode) : list nat :=
  match instr with
  | SL_Assign dst _ | SL_Load dst _ => [dst]
  | SL_Call dsts _ _ abort_action => dsts ++ match abort_action with Some (_, temp) => [temp] | None => [] end
  | _ => []
  end.
Definition uses_of (instr : SLBytecode) : list nat :=
  match instr with
  | SL_Assign _ src | SL_Branch _ _ src | SL_Abort src | SL_VariantSwitch src _ => [src]
  | SL_Call _ _ srcs _ | SL_Ret srcs => srcs
  | _ => []
  end.
(** The offsets at which a register occurs, once for each occurrence. *)
Definition occurrences (t offset : nat) (regs : list nat) : list nat :=
  map (λ _, offset) (base.filter (λ r, r = t) regs).
Fixpoint sites_from (f : SLBytecode → list nat) (offset : nat) (code : list SLBytecode) (t : nat) : list nat :=
  match code with
  | [] => []
  | instr :: code => occurrences t offset (f instr) ++ sites_from f (S offset) code t
  end.
Definition sites (f : SLBytecode → list nat) : list SLBytecode → nat → list nat := sites_from f 0.

Lemma record_all_lookup idxs offset s t :
  record_all idxs offset s !! t = (λ l, l ++ occurrences t offset idxs) <$> s !! t.
Proof.
  revert s. induction idxs as [|i idxs IH]; intros s; cbn [record_all foldl].
  - unfold occurrences. simpl. destruct (s !! t); simpl; by rewrite ?app_nil_r.
  - fold (record_all idxs offset (record i offset s)). rewrite IH. unfold occurrences, record. rewrite filter_cons.
    case_decide as E; [subst; rewrite list_lookup_alter_eq|rewrite list_lookup_alter_ne by done; done].
    destruct (s !! t); [simpl|done]. by rewrite <-app_assoc.
Qed.
Lemma record_as_all i offset s : record i offset s = record_all [i] offset s.
Proof. done. Qed.
Lemma record_all_app l1 l2 offset s : record_all (l1 ++ l2) offset s = record_all l2 offset (record_all l1 offset s).
Proof. apply foldl_app. Qed.
Lemma def_use_step_spec offset instr defs uses :
  def_use_step offset instr (defs, uses) = (record_all (defs_of instr) offset defs, record_all (uses_of instr) offset uses).
Proof.
  destruct instr as [dst src|dsts op srcs [[l t]|]|srcs|dst c|t e c|l|l|src| |d ls]; try done; cbn [def_use_step defs_of uses_of].
  - by rewrite record_all_app.
  - by rewrite app_nil_r.
Qed.
Lemma def_use_loop_spec offset code defs uses t :
  (def_use_loop offset code (defs, uses)).1 !! t = (λ l, l ++ sites_from defs_of offset code t) <$> defs !! t ∧
  (def_use_loop offset code (defs, uses)).2 !! t = (λ l, l ++ sites_from uses_of offset code t) <$> uses !! t.
Proof.
  revert offset defs uses. induction code as [|instr code IH]; intros offset defs uses; cbn [def_use_loop sites_from].
  - split; cbn [fst snd]; [destruct (defs !! t)|destruct (uses !! t)]; simpl; by rewrite ?app_nil_r.
  - rewrite def_use_step_spec. destruct (IH (S offset) (record_all (defs_of instr) offset defs)
      (record_all (uses_of instr) offset uses)) as [-> ->].
    rewrite !record_all_lookup. split; [destruct (defs !! t)|destruct (uses !! t)]; simpl; by rewrite ?app_assoc.
Qed.

Lemma compute_slots n code :
  compute_def_use n code = (map (sites defs_of code) (seq 0 n), map (sites uses_of code) (seq 0 n)).
Proof.
  unfold compute_def_use. destruct (def_use_loop 0 code (replicate n [], replicate n [])) as [d u] eqn:E.
  assert (∀ t, d !! t = sites defs_of code <$> seq 0 n !! t ∧ u !! t = sites uses_of code <$> seq 0 n !! t) as H.
  { intros t. pose proof (def_use_loop_spec 0 code (replicate n []) (replicate n []) t) as H. rewrite E in H. simpl in H.
    destruct H as [-> ->]. destruct (decide (t < n)).
    - rewrite lookup_replicate_2, lookup_seq_lt by done. done.
    - rewrite (lookup_ge_None_2 (replicate n []) t) by (rewrite length_replicate; lia). by rewrite lookup_seq_ge by lia. }
  f_equal; apply list_eq; intros t; rewrite list_lookup_fmap; apply H.
Qed.

(** The slots a detector reads are those of a scan: for each register the
    offsets of the instructions that write it, and that read it, in order and
    once per occurrence; registers beyond the locals are ignored. *)
Theorem compute_def_use_exact n code :
  compute_def_use n code = (map (sites defs_of code) (seq 0 n), map (sites uses_of code) (seq 0 n)).
Proof. apply compute_slots. Qed.

(** ** The definition of a register *)
Definition defines (code : list SLBytecode) (t o : nat) : Prop := ∃ instr, code !! o = Some instr ∧ t ∈ defs_of instr.

Lemma elem_of_occurrences t offset regs o : o ∈ occurrences t offset regs ↔ o = offset ∧ t ∈ regs.
Proof.
  unfold occurrences. rewrite list_elem_of_fmap. setoid_rewrite list_elem_of_filter. naive_solver.
Qed.
Lemma elem_of_sites_from offset code t o :
  o ∈ sites_from defs_of offset code t ↔ offset ≤ o ∧ defines code t (o - offset).
Proof.
  revert offset. induction code as [|instr code IH]; intros offset; cbn [sites_from].
  - split; [by intros ?%not_elem_of_nil|]. by intros (_ & i & ? & _).
  - rewrite elem_of_app, elem_of_occurrences, IH. unfold defines. split.
    + intros [[-> H]|(Hle & i & Hi & H)]; [split; [done|]; exists instr; by rewrite Nat.sub_diag|].
      split; [lia|]. exists i. by replace (o - offset) with (S (o - S offset)) by lia.
    + intros (Hle & i & Hi & H). destruct (decide (o = offset)) as [->|]; [left|right].
      * rewrite Nat.sub_diag in Hi. simpl in Hi. by simplify_eq.
      * split; [lia|]. exists i. by replace (o - offset) with (S (o - S offset)) in Hi by lia.
Qed.
Lemma elem_of_def_sites code t o : o ∈ sites defs_of code t ↔ defines code t o.
Proof. unfold sites. rewrite elem_of_sites_from, Nat.sub_0_r. naive_solver lia. Qed.
Lemma sites_from_sorted offset code t : StronglySorted (≤) (sites_from defs_of offset code t).
Proof.
  revert offset. induction code as [|instr code IH]; intros offset; cbn [sites_from]; [constructor|].
  unfold occurrences. induction (base.filter _ _) as [|r l IHl]; [apply IH|]. simpl. constructor; [done|].
  apply Forall_app. split; [apply Forall_forall; intros o (? & -> & _)%list_elem_of_fmap; done|].
  apply Forall_forall. intros o Ho%elem_of_sites_from. lia.
Qed.

(** The definition that reaches a register in the text: the last one before
    the offset, or the first one if there is none before. *)
Definition reaches (code : list SLBytecode) (t offset : nat) (instr : SLBytecode) : Prop :=
  ∃ d, code !! d = Some instr ∧ t ∈ defs_of instr ∧
    ((d < offset ∧ ∀ o, defines code t o → o < offset → o ≤ d) ∨
     (∀ o, defines code t o → offset ≤ o ∧ d ≤ o)).
(** The slots were computed for the code and the locals. *)
Definition wf_function (f : FunctionInfo) : Prop :=
  fn_def_attrid f = (compute_def_use (length (fn_local_types f)) (fn_code f)).1.

Lemma reaches_only code t offset d instr l : code !! d = Some instr → t ∈ defs_of instr →
  (∀ o, defines code t o ↔ o ∈ d :: l) → StronglySorted (≤) (d :: l) →
  (d < offset ∧ (∀ o, o ∈ l → o < offset → o ≤ d)) ∨ (∀ o, o ∈ d :: l → offset ≤ o) → reaches code t offset instr.
Proof.
  intros Hd Ht Hl Hs H. exists d. split; [done|]. split; [done|]. apply StronglySorted_inv in Hs as [_ Hs].
  rewrite Forall_forall in Hs. destruct H as [[Hlt H]|H]; [left|right].
  - split; [done|]. intros o [->|Ho]%Hl%elem_of_cons Hlt'; [done|auto].
  - intros o Ho%Hl. split; [auto|]. apply elem_of_cons in Ho as [->|Ho]; [done|auto].
Qed.

Lemma get_def_spec f t offset : wf_function f →
  match get_def_bytecode f t offset with
  | Some instr => t < length (fn_local_types f) ∧ reaches (fn_code f) t offset instr
  | None => length (fn_local_types f) ≤ t ∨ ∀ o, ¬ defines (fn_code f) t o
  end.
Proof.
  intros Hw. unfold get_def_bytecode. rewrite Hw, compute_slots. cbn [fst]. rewrite list_lookup_fmap.
  destruct (decide (t < length (fn_local_types f))) as [Ht|]; [|rewrite lookup_seq_ge by lia; left; lia].
  rewrite lookup_seq_lt by done. cbn [fmap option_fmap option_map Nat.add].
  pose proof (sites_from_sorted 0 (fn_code f) t) as Hs. pose proof (elem_of_def_sites (fn_code f) t) as Hl.
  fold (sites defs_of (fn_code f) t) in Hs. set (l := sites defs_of (fn_code f) t) in *.
  assert (∀ d, d ∈ l → ∃ instr, fn_code f !! d = Some instr ∧ t ∈ defs_of instr) as Hat by (intros d Hd; by apply Hl in Hd).
  destruct l as [|d l]; [right; intros o Ho%Hl; by apply not_elem_of_nil in Ho|].
  destruct (Hat d) as (instr & Hd & Hti); [by left|].
  assert (∀ o, defines (fn_code f) t o ↔ o ∈ d :: l) as Hl' by (intros o; by rewrite Hl).
  destruct l as [|d2 l].
  { rewrite Hd. split; [done|]. apply (reaches_only _ _ _ _ _ _ Hd Hti Hl' Hs).
    destruct (decide (d < offset)); [left; split; [done|by intros o ?%not_elem_of_nil]|right].
    intros o Ho%list_elem_of_singleton. lia. }
  set (m := merge_sort (≤) (base.filter (λ idx, idx < offset) (d :: d2 :: l))).
  assert (∀ o, o ∈ m ↔ o < offset ∧ o ∈ d :: d2 :: l) as Hm
    by (intros o; unfold m; by rewrite merge_sort_Permutation, list_elem_of_filter).
  destruct (last m) as [idx|] eqn:E.
  - assert (idx ∈ m) as [Hlt Hin]%Hm by (by apply last_Some_elem_of). destruct (Hat idx Hin) as (i2 & Hi2 & Ht2).
    rewrite Hi2. split; [done|]. exists idx. split; [done|]. split; [done|]. left. split; [done|].
    intros o Ho Hlo. assert (StronglySorted (≤) m) as Hms by (apply StronglySorted_merge_sort; apply _).
    pose proof (StronglySorted_last _ _ _ Hms E) as Hf. rewrite Forall_forall in Hf. apply Hf, Hm. by rewrite <-Hl'.
  - rewrite Hd. split; [done|]. apply last_None in E. apply (reaches_only _ _ _ _ _ _ Hd Hti Hl' Hs). right.
    intros o Ho. destruct (decide (offset ≤ o)); [done|]. assert (o ∈ m) as Hom by (apply Hm; split; [lia|done]).
    rewrite E in Hom. by apply not_elem_of_nil in Hom.
Qed.
Lemma reaches_func code t offset i1 i2 : reaches code t offset i1 → reaches code t offset i2 → i1 = i2.
Proof.
  intros (d1 & H1 & T1 & C1) (d2 & H2 & T2 & C2).
  assert (D1 : defines code t d1) by (by exists i1). assert (D2 : defines code t d2) by (by exists i2).
  assert (d1 = d2) as ->; [|congruence].
  destruct C1 as [[L1 C1]|C1], C2 as [[L2 C2]|C2].
  - specialize (C1 _ D2 L2). specialize (C2 _ D1 L1). lia.
  - destruct (C2 _ D1). lia.
  - destruct (C1 _ D2). lia.
  - destruct (C1 _ D2), (C2 _ D1). lia.
Qed.
Lemma get_def_iff f t offset instr : wf_function f →
  get_def_bytecode f t offset = Some instr ↔ t < length (fn_local_types f) ∧ reaches (fn_code f) t offset instr.
Proof.
  intros Hw. pose proof (get_def_spec f t offset Hw) as H. destruct (get_def_bytecode f t offset) as [i|].
  - split; [intros [= <-]; done|]. intros [_ Hr]. f_equal. eapply reaches_func; [apply H|exact Hr].
  - split; [done|]. intros [Ht (d & Hd & Hi & _)]. destruct H as [H|H]; [lia|]. by destruct (H d); exists instr.
Qed.

(** The definition looked up for a register is the one that reaches it in
    the text of the function - the last one before the offset, or the first one
    if there is none before -, and there is none only for what is not a local
    or never written. *)
Theorem get_def_reaches f t offset : wf_function f →
  (∀ instr, get_def_bytecode f t offset = Some instr ↔
    t < length (fn_local_types f) ∧ reaches (fn_code f) t offset instr) ∧
  (get_def_bytecode f t offset = None ↔
    length (fn_local_types f) ≤ t ∨ ∀ o, ¬ defines (fn_code f) t o).
Proof.
  intros Hw. split; [intros instr; by apply get_def_iff|]. split.
  - intros E. pose proof (get_def_spec f t offset Hw) as H. by rewrite E in H.
  - intros H. destruct (get_def_bytecode f t offset) as [i|] eqn:E; [|done].
    apply get_def_iff in E as [Ht (d & Hd & Hi & _)]; [|done]. destruct H as [H|H]; [lia|]. by destruct (H d); exists i.
Qed.

(** ** The detectors *)
Lemma any_instr_true p offset code :
  any_instr p offset code = true ↔ ∃ o instr, code !! o = Some instr ∧ p (offset + o) instr = true.
Proof.
  revert offset. induction code as [|i code IH]; intros offset; cbn [any_instr].
  - split; [done|]. by intros (o & instr & ? & _).
  - destruct (p offset i) eqn:E.
    + split; [intros _; exists 0, i; by rewrite Nat.add_0_r|done].
    + rewrite IH. split.
      * intros (o & instr & Ho & Hp). exists (S o), instr. by rewrite Nat.add_succ_r.
      * intros ([|o] & instr & Ho & Hp); [rewrite Nat.add_0_r in Hp; simpl in Ho; congruence|].
        exists o, instr. by rewrite Nat.add_succ_r in Hp.
Qed.

(** A local of a function and the instruction that gives it its value. *)
Definition value_of (f : FunctionInfo) (t offset : nat) (instr : SLBytecode) : Prop :=
  t < length (fn_local_types f) ∧ reaches (fn_code f) t offset instr.
Definition literal (instr : SLBytecode) : Prop := ∃ dst b, instr = SL_Load dst (Const_Bool b).
(** An instruction whose (first) result has type [bool]. *)
Definition makes_bool (f : FunctionInfo) (instr : SLBytecode) : Prop := ∃ dst,
  fn_local_types f !! dst = Some (SL_Primitive P_Bool) ∧
  ((∃ dsts op srcs ab, instr = SL_Call (dst :: dsts) op srcs ab) ∨ (∃ src, instr = SL_Assign dst src) ∨
   ∃ c, instr = SL_Load dst c).

Lemma is_ld_bool_true i : is_ld_bool i = true ↔ literal i.
Proof.
  split; [|by intros (dst & b & ->)]. destruct i as [| | |dst [b|]| | | | | |]; try done. by exists dst, b.
Qed.
Lemma ret_is_bool_true f i : ret_is_bool i (fn_local_types f) = true ↔ makes_bool f i.
Proof.
  unfold ret_is_bool, has_bool, makes_bool. split.
  - destruct i as [dst src|[|dst dsts] op srcs ab| |dst c| | | | | |]; try done;
      rewrite bool_decide_eq_true; simpl; intros H; exists dst; naive_solver.
  - intros (dst & H & [(dsts & op & srcs & ab & ->)|[(src & ->)|(c & ->)]]); by apply bool_decide_eq_true.
Qed.

(** A function is reported for a comparison with a literal exactly when it
    compares two registers for equality of which one holds a boolean literal
    and the other a boolean. *)
Theorem bool_judgement_exact f : wf_function f →
  detect_bool_judgement f = true ↔
  ∃ o dsts op s0 s1 ab l r, fn_code f !! o = Some (SL_Call dsts op [s0; s1] ab) ∧ (op = Op_Eq ∨ op = Op_Neq) ∧
    value_of f s0 o l ∧ value_of f s1 o r ∧ (literal l ∧ makes_bool f r ∨ literal r ∧ makes_bool f l).
Proof.
  intros Hw. unfold detect_bool_judgement. rewrite any_instr_true. setoid_rewrite Nat.add_0_l. split.
  - intros (o & instr & Ho & Hp). destruct instr as [|dsts op srcs ab| | | | | | | |]; try done.
    assert (op = Op_Eq ∨ op = Op_Neq) as Hop by (destruct op; auto; done).
    destruct srcs as [|s0 [|s1 [|s2 srcs]]]; try (by destruct Hop as [-> | ->]).
    exists o, dsts, op, s0, s1, ab. unfold bool_judgement_at in Hp.
    destruct (get_def_bytecode f s0 o) as [l|] eqn:El; [|by destruct Hop as [-> | ->]].
    destruct (get_def_bytecode f s1 o) as [r|] eqn:Er; [|by destruct Hop as [-> | ->]].
    apply get_def_iff in El, Er; [|done..]. exists l, r. split_and!; [done..|].
    assert (is_ld_bool l && ret_is_bool r (fn_local_types f) || is_ld_bool r && ret_is_bool l (fn_local_types f) = true)
      as H by (by destruct Hop as [-> | ->]).
    by rewrite orb_true_iff, !andb_true_iff, !is_ld_bool_true, !ret_is_bool_true in H.
  - intros (o & dsts & op & s0 & s1 & ab & l & r & Ho & Hop & Hl%get_def_iff & Hr%get_def_iff & H); [|done..].
    eexists o, _. split; [exact Ho|]. unfold bool_judgement_at. rewrite Hl, Hr.
    rewrite <-!is_ld_bool_true, <-!ret_is_bool_true, <-!andb_true_iff, <-orb_true_iff in H. by destruct Hop as [-> | ->].
Qed.

(** Labels are unique, and code is short enough for offsets of 16 bits. *)
Definition wf_labels (label_offsets : list SLBytecode → gmap Label N) (code : list SLBytecode) : Prop :=
  (N.of_nat (length code) ≤ 65536)%N ∧ ∀ l x, label_offsets code !! l = Some x ↔ code !! N.to_nat x = Some (SL_Label l).

(** A function is reported for an infinite loop exactly when a branch on a
    constant goes to a label before it, and both labels are in the code. *)
Theorem static_infinite_loop_exact label_offsets f : wf_function f → wf_labels label_offsets (fn_code f) →
  detect_infinite_loop label_offsets f = true ↔
  ∃ o t e cond dst v x y, fn_code f !! o = Some (SL_Branch t e cond) ∧
    value_of f cond o (SL_Load dst (Const_Bool v)) ∧
    fn_code f !! x = Some (SL_Label t) ∧ fn_code f !! y = Some (SL_Label e) ∧ (if v : bool then x else y) < o.
Proof.
  intros Hw [Hlen Hl]. unfold detect_infinite_loop. rewrite any_instr_true. setoid_rewrite Nat.add_0_l.
  assert (∀ o i, fn_code f !! o = Some i → as_u16 o = N.of_nat o) as Hu.
  { intros o i Ho%lookup_lt_Some. unfold as_u16. apply N.mod_small. lia. }
  split.
  - intros (o & instr & Ho & Hp). destruct instr as [| | | |t e cond| | | | |]; try done. unfold infinite_loop_at in Hp.
    destruct (get_def_bytecode f cond o) as [[| | |dst [v|]| | | | | |]|] eqn:Ed; try done.
    apply get_def_iff in Ed; [|done]. rewrite (Hu _ _ Ho) in Hp.
    destruct (label_offsets (fn_code f) !! t) as [x|] eqn:Ex; [|done].
    destruct (label_offsets (fn_code f) !! e) as [y|] eqn:Ey; [|done]. apply Hl in Ex, Ey.
    exists o, t, e, cond, dst, v, (N.to_nat x), (N.to_nat y). split_and!; [done..|].
    assert (N.to_nat x ≠ o) by (intros E; rewrite E in Ex; congruence).
    assert (N.to_nat y ≠ o) by (intros E; rewrite E in Ey; congruence).
    destruct v; simpl in Hp; rewrite ?orb_false_r in Hp; apply N.leb_le in Hp; lia.
  - intros (o & t & e & cond & dst & v & x & y & Ho & Hd%get_def_iff & Hx & Hy & H); [|done].
    eexists o, _. split; [exact Ho|]. unfold infinite_loop_at. rewrite Hd, (Hu _ _ Ho).
    rewrite <-(Nat2N.id x) in Hx. rewrite <-(Nat2N.id y) in Hy. apply Hl in Hx, Hy. rewrite Hx, Hy.
    destruct v; simpl; rewrite ?orb_false_r; apply N.leb_le; lia.
Qed.

(** A function is reported for a loss of precision exactly when it
    multiplies two registers of which one holds a quotient or the result of a
    function named [sqrt]. *)
Theorem static_precision_loss_exact symbol f : wf_function f →
  detect_precision_loss symbol f = true ↔
  ∃ o dsts s0 s1 ab l r i, fn_code f !! o = Some (SL_Call dsts Op_Mul [s0; s1] ab) ∧
    value_of f s0 o l ∧ value_of f s1 o r ∧ (i = l ∨ i = r) ∧
    ∃ ds op ss ab', i = SL_Call ds op ss ab' ∧
      (op = Op_Div ∨ ∃ m fid, op = Op_Function m fid ∧ symbol fid = "sqrt"%string).
Proof.
  assert (∀ i, is_div i || is_sqrt symbol i = true ↔ ∃ ds op ss ab', i = SL_Call ds op ss ab' ∧
      (op = Op_Div ∨ ∃ m fid, op = Op_Function m fid ∧ symbol fid = "sqrt"%string)) as Hi.
  { intros i. split.
    - destruct i as [|ds op ss ab'| | | | | | | |]; try done. intros H. exists ds, op, ss, ab'. split; [done|].
      destruct op as [| | | | | | | | | | |m fid|]; try done; [by left|]. right. exists m, fid. split; [done|].
      by apply bool_decide_eq_true in H.
    - intros (ds & op & ss & ab' & -> & [->|(m & fid & -> & E)]); [done|]. by apply bool_decide_eq_true. }
  intros Hw. unfold detect_precision_loss. rewrite any_instr_true. setoid_rewrite Nat.add_0_l. split.
  - intros (o & instr & Ho & Hp). destruct instr as [|dsts op srcs ab| | | | | | | |]; try done.
    destruct op; try done. destruct srcs as [|s0 [|s1 [|s2 srcs]]]; try done. unfold precision_loss_at in Hp.
    destruct (get_def_bytecode f s0 o) as [l|] eqn:El; [|done].
    destruct (get_def_bytecode f s1 o) as [r|] eqn:Er; [|done]. apply get_def_iff in El, Er; [|done..].
    assert (is_div l || is_sqrt symbol l = true ∨ is_div r || is_sqrt symbol r = true) as [H|H].
    { destruct (is_div l), (is_div r), (is_sqrt symbol l), (is_sqrt symbol r); auto. }
    + exists o, dsts, s0, s1, ab, l, r, l. split_and!; [done..|by left|by apply Hi].
    + exists o, dsts, s0, s1, ab, l, r, r. split_and!; [done..|by right|by apply Hi].
  - intros (o & dsts & s0 & s1 & ab & l & r & i & Ho & Hl%get_def_iff & Hr%get_def_iff & Hir & H%Hi); [|done..].
    eexists o, _. split; [exact Ho|]. unfold precision_loss_at. rewrite Hl, Hr.
    destruct Hir as [-> | ->]; destruct (is_div l), (is_div r), (is_sqrt symbol l), (is_sqrt symbol r); done.
Qed.

(** ** Casts *)

(** A cast has a source, and it is a local. *)
Definition wf_casts (f : FunctionInfo) : Prop := ∀ o dsts op srcs ab p,
  fn_code f !! o = Some (SL_Call dsts op srcs ab) → cast_type op = Some p →
  ∃ src ty, head srcs = Some src ∧ fn_local_types f !! src = Some ty.

Lemma type_conversion_step local_types instr code hit : match instr with
    | SL_Call _ op srcs _ =>
        match cast_type op with
        | Some p => src ← unwrap (head srcs); ty ← unwrap (local_types !! src); Ret (bool_decide (ty = SL_Primitive p))
        | None => Ret false
        end
    | _ => Ret false
    end = Ret hit →
  type_conversion_loop local_types (instr :: code) = if hit : bool then Ret true else type_conversion_loop local_types code.
Proof. intros H. cbn [type_conversion_loop]. by rewrite H. Qed.

(** A function is reported for a needless conversion exactly when it casts
    a register to the type the register has; on casts of locals the detector
    does not panic. *)
Theorem type_conversion_exact f : wf_casts f →
  ∃ b, detect_unnecessary_type_conversion f = Ret b ∧
    (b = true ↔ ∃ o dsts op src srcs ab p, fn_code f !! o = Some (SL_Call dsts op (src :: srcs) ab) ∧
      cast_type op = Some p ∧ fn_local_types f !! src = Some (SL_Primitive p)).
Proof.
  unfold wf_casts, detect_unnecessary_type_conversion. induction (fn_code f) as [|instr code IH]; intros Hw.
  - exists false. split; [done|]. split; [done|]. by intros (o & ds & op & s & ss & ab & p & ? & _).
  - destruct IH as (b & Hb & IH); [intros o ds op ss ab p Ho Hp; by eapply (Hw (S o))|].
    assert (∀ hit, (hit = true ↔ ∃ dsts op src srcs ab p, instr = SL_Call dsts op (src :: srcs) ab ∧
      cast_type op = Some p ∧ fn_local_types f !! src = Some (SL_Primitive p)) →
      type_conversion_loop (fn_local_types f) (instr :: code) = (if hit : bool then Ret true else Ret b) →
      ∃ b, type_conversion_loop (fn_local_types f) (instr :: code) = Ret b ∧
      (b = true ↔ ∃ o dsts op src srcs ab p, (instr :: code) !! o = Some (SL_Call dsts op (src :: srcs) ab) ∧
      cast_type op = Some p ∧ fn_local_types f !! src = Some (SL_Primitive p))) as Hgo.
    { intros hit Hhit ->. destruct hit.
      - exists true. split; [done|]. split; [intros _|done]. destruct Hhit as [Hhit _].
        destruct (Hhit eq_refl) as (ds & op & s & ss & ab & p & -> & H). by exists 0, ds, op, s, ss, ab, p.
      - exists b. split; [done|]. rewrite IH. split.
        + intros (o & H). by exists (S o).
        + intros ([|o] & ds & op & s & ss & ab & p & Ho & H); [|by exists o, ds, op, s, ss, ab, p].
          simpl in Ho. injection Ho as ->. exfalso. apply diff_false_true, Hhit. by exists ds, op, s, ss, ab, p. }
    destruct instr as [|ds op ss ab| | | | | | | |];
      try (apply (Hgo false); [split; [done|by intros (?&?&?&?&?&?&[=]&_)]|by rewrite <-Hb]).
    destruct (cast_type op) as [p|] eqn:Ep.
    + destruct (Hw 0 _ _ _ _ _ eq_refl Ep) as (src & ty & Hsrc & Hty). apply (Hgo (bool_decide (ty = SL_Primitive p))).
      * rewrite bool_decide_eq_true. destruct ss as [|s ss]; [done|]. injection Hsrc as ->. split.
        -- intros ->. by exists ds, op, src, ss, ab, p.
        -- intros (?&?&?&?&?&?&[= -> -> -> -> ->]&Hp&Ht). congruence.
      * rewrite (type_conversion_step _ _ _ (bool_decide (ty = SL_Primitive p))); [by rewrite Hb|].
        rewrite Ep, Hsrc. cbn [unwrap mbind panics_mbind panics_bind]. by rewrite Hty.
    + apply (Hgo false); [|rewrite (type_conversion_step _ _ _ false); [by rewrite Hb|by rewrite Ep]].
      split; [done|]. intros (?&?&?&?&?&?&[= -> -> -> ->]&Hp&_). congruence.
Qed.

(** ** Dropped results *)

Lemma existsb_drop_nil code : existsb (is_drop []) code = false.
Proof.
  induction code as [|i code IH]; [done|]. simpl. rewrite IH, orb_false_r.
  destruct i as [|ds [] [|src [|]] ab'| | | | | | | |]; try done.
Qed.
Lemma unchecked_return_call dsts op srcs ab code fid :
  fid ∈ unchecked_return_loop (SL_Call dsts op srcs ab :: code) ↔ fid ∈ unchecked_return_loop code ∨
    ∃ m, op = Op_Function m fid ∧ existsb (is_drop dsts) code = true.
Proof.
  assert ((∃ m f, op = Op_Function m f) ∨ ∀ m f, op ≠ Op_Function m f) as [(m & f & ->)|Hop]
    by (destruct op; eauto; by right).
  - destruct dsts as [|d dsts]; cbn [unchecked_return_loop].
    + rewrite existsb_drop_nil. split; [by left|]. by intros [?|(? & _ & ?)].
    + unfold consumed. destruct (existsb (is_drop (d :: dsts)) code);
        [change (0 <? 1) with true|change (0 <? 0) with false]; cbv iota.
      * rewrite elem_of_cons. split; [intros [->|H]; [right; by exists m|by left]|].
        intros [H|(? & [= -> ->] & _)]; [by right|by left].
      * split; [by left|]. by intros [?|(? & _ & ?)].
  - assert (unchecked_return_loop (SL_Call dsts op srcs ab :: code) = unchecked_return_loop code) as ->.
    { destruct op as [| | | | | | | | | | |m f|], dsts; try done; by destruct (Hop m f). }
    split; [by left|]. intros [H|(m & -> & _)]; [done|]. by destruct (Hop m fid).
Qed.

(** The calls that are reported are those with results of which one is
    destroyed later in the text, in order of the calls. *)
Theorem unchecked_return_exact f fid :
  fid ∈ detect_unchecked_return f ↔
  ∃ o dsts m srcs ab, fn_code f !! o = Some (SL_Call dsts (Op_Function m fid) srcs ab) ∧
    ∃ o' ds src ab', o < o' ∧ fn_code f !! o' = Some (SL_Call ds Op_Destroy [src] ab') ∧ src ∈ dsts.
Proof.
  unfold detect_unchecked_return. induction (fn_code f) as [|instr code IH].
  - split; [by intros ?%not_elem_of_nil|]. by intros (o & ds & m & ss & ab & ? & _).
  - assert (∀ dsts, existsb (is_drop dsts) code = true ↔ ∃ o' ds src ab',
      code !! o' = Some (SL_Call ds Op_Destroy [src] ab') ∧ src ∈ dsts) as Hd.
    { intros dsts. rewrite existsb_exists. split.
      - intros (i & Hi%list_elem_of_In%list_elem_of_lookup & H). destruct Hi as [o' Ho'].
        destruct i as [|ds [] [|src [|]] ab'| | | | | | | |]; try done. apply bool_decide_eq_true in H. by exists o', ds, src, ab'.
      - intros (o' & ds & src & ab' & Ho' & H). eexists. split; [by eapply list_elem_of_In, list_elem_of_lookup_2|].
        by apply bool_decide_eq_true. }
    set (R := ∃ o dsts m srcs ab, code !! o = Some (SL_Call dsts (Op_Function m fid) srcs ab) ∧
      ∃ o' ds src ab', o < o' ∧ code !! o' = Some (SL_Call ds Op_Destroy [src] ab') ∧ src ∈ dsts) in IH.
    assert ((∃ o dsts m srcs ab, (instr :: code) !! o = Some (SL_Call dsts (Op_Function m fid) srcs ab) ∧
      ∃ o' ds src ab', o < o' ∧ (instr :: code) !! o' = Some (SL_Call ds Op_Destroy [src] ab') ∧ src ∈ dsts) ↔
      R ∨ ∃ dsts m srcs ab, instr = SL_Call dsts (Op_Function m fid) srcs ab ∧ existsb (is_drop dsts) code = true) as ->.
    { unfold R. split.
      - intros ([|o] & ds & m & ss & ab & Ho & [|o'] & ds' & src & ab' & Hlt & Ho' & Hs); [lia| |lia|].
        + right. simpl in Ho, Ho'. injection Ho as ->. exists ds, m, ss, ab. split; [done|]. apply Hd. by exists o', ds', src, ab'.
        + left. exists o, ds, m, ss, ab. split; [done|]. exists o', ds', src, ab'. split; [lia|done].
      - intros [(o & ds & m & ss & ab & Ho & o' & ds' & src & ab' & Hlt & H)|(ds & m & ss & ab & -> & H)].
        + exists (S o), ds, m, ss, ab. split; [done|]. exists (S o'), ds', src, ab'. split; [lia|done].
        + apply Hd in H as (o' & ds' & src & ab' & H). exists 0, ds, m, ss, ab. split; [done|].
          exists (S o'), ds', src, ab'. split; [lia|done]. }
    destruct instr as [|dsts op srcs ab| | | | | | | |];
      try (cbn [unchecked_return_loop]; rewrite IH; split; [by left|by intros [?|(?&?&?&?&[=]&_)]]).
    rewrite unchecked_return_call, IH. split.
    + intros [H|(m & -> & H)]; [by left|right]. by exists dsts, m, srcs, ab.
    + intros [H|(ds & m & ss & ab' & [= -> -> -> ->] & H)]; [by left|right; by exists m].
Qed.

(** ** Witnesses *)
Definition demo_function (types : list SLType) (code : list SLBytecode) : FunctionInfo :=
  MkFunction 0 "f" code types (compute_def_use (length types) code).1 (compute_def_use (length types) code).2.
Lemma demo_function_wf types code : wf_function (demo_function types code).
Proof. done. Qed.

(** [loop { let b = true; if (b == c) continue; c = b }]: the literal is
    compared and the branch goes back. *)
Definition demo_loop : FunctionInfo := demo_function [SL_Primitive P_Bool; SL_Primitive P_Bool; SL_Primitive P_Bool]
  [SL_Label 0%N; SL_Load 0 (Const_Bool true); SL_Call [2] Op_Eq [0; 1] None; SL_Assign 1 0; SL_Branch 0%N 1%N 0;
   SL_Label 1%N; SL_Ret []].
Definition demo_label_offsets (code : list SLBytecode) : gmap Label N :=
  list_to_map (omap (λ x, match x.2 with SL_Label l => Some (l, N.of_nat x.1) | _ => None end) (imap pair code)).

Lemma get_def_reaches_witness :
  get_def_bytecode demo_loop 1 2 = Some (SL_Assign 1 0) ∧ reaches (fn_code demo_loop) 1 2 (SL_Assign 1 0).
Proof.
  destruct (get_def_reaches demo_loop 1 2 (demo_function_wf _ _)) as [H _].
  split; [vm_compute; reflexivity|]. apply H. vm_compute. reflexivity.
Defined.
Lemma bool_judgement_exact_witness :
  detect_bool_judgement demo_loop = true ∧
  ∃ o, fn_code demo_loop !! o = Some (SL_Call [2] Op_Eq [0; 1] None).
Proof.
  assert (H : detect_bool_judgement demo_loop = true) by (vm_compute; reflexivity). split; [exact H|].
  apply (bool_judgement_exact demo_loop (demo_function_wf _ _)) in H as (o & ds & op & s0 & s1 & ab & l & r & Ho & _).
  exists 2. reflexivity.
Defined.
Lemma demo_labels : wf_labels demo_label_offsets (fn_code demo_loop).
Proof.
  split; [vm_compute; discriminate|]. intros l x. unfold demo_label_offsets. change (list_to_map _) with
    (<[0%N := 0%N]> (<[1%N := 5%N]> (∅ : gmap Label N))).
  rewrite !lookup_insert_Some, lookup_empty. split.
  - intros [[<- <-]|[_ [[<- <-]|[_ [=]]]]]; reflexivity.
  - destruct (N.to_nat x) as [|[|[|[|[|[|[|n]]]]]]] eqn:E; try done; intros [= <-]; [left|right; split; [done|left]];
      split; [done|lia|done|lia].
Qed.
Lemma static_infinite_loop_exact_witness :
  detect_infinite_loop demo_label_offsets demo_loop = true ∧
  ∃ o t e cond x, fn_code demo_loop !! o = Some (SL_Branch t e cond) ∧ fn_code demo_loop !! x = Some (SL_Label t) ∧ x < o.
Proof.
  assert (H : detect_infinite_loop demo_label_offsets demo_loop = true) by (vm_compute; reflexivity). split; [exact H|].
  apply (static_infinite_loop_exact demo_label_offsets demo_loop (demo_function_wf _ _) demo_labels) in H
    as (o & t & e & cond & dst & v & x & y & Ho & Hv & Hx & Hy & Hlt).
  exists 4, 0%N, 1%N, 0, 0. split; [reflexivity|]. split; [reflexivity|lia].
Defined.

(** [(a / b) * c as u64] of [u64] values; the product is dropped. *)
Definition demo_math : FunctionInfo := demo_function (replicate 6 (SL_Primitive P_U64))
  [SL_Load 2 (Const_Other 3); SL_Call [3] Op_Div [0; 1] None; SL_Call [4] Op_Mul [3; 2] None;
   SL_Call [5] Op_CastU64 [4] None; SL_Call [1; 0] (Op_Function 0 7) [5] None; SL_Call [] Op_Destroy [0] None; SL_Ret []].
Lemma static_precision_loss_exact_witness :
  detect_precision_loss (λ _, ""%string) demo_math = true ∧
  value_of demo_math 3 2 (SL_Call [3] Op_Div [0; 1] None).
Proof.
  assert (H : detect_precision_loss (λ _, ""%string) demo_math = true) by (vm_compute; reflexivity). split; [exact H|].
  apply (static_precision_loss_exact (λ _, ""%string) demo_math (demo_function_wf _ _)) in H
    as (o & ds & s0 & s1 & ab & l & r & i & Ho & Hl & _).
  assert (o = 2) as ->.
  { destruct o as [|[|[|[|[|[|[|o]]]]]]]; try discriminate Ho. reflexivity. }
  injection Ho as <- <- <- <-. assert (l = SL_Call [3] Op_Div [0; 1] None) as <-; [|exact Hl].
  apply (get_def_iff _ _ _ _ (demo_function_wf _ _)) in Hl. vm_compute in Hl. by injection Hl as <-.
Defined.
Lemma type_conversion_exact_witness :
  ∃ b, detect_unnecessary_type_conversion demo_math = Ret b ∧ b = true.
Proof.
  destruct (type_conversion_exact demo_math) as (b & Hb & H).
  - intros o ds op ss ab p Ho Hp. destruct o as [|[|[|[|[|[|[|o]]]]]]]; try discriminate Ho; injection Ho as <- <- <- <-;
      try discriminate Hp. exists 4, (SL_Primitive P_U64). split; reflexivity.
  - exists b. split; [exact Hb|]. apply H. exists 3, [5], Op_CastU64, 4, [], None, P_U64. repeat split.
Defined.
Example unchecked_return_demo : detect_unchecked_return demo_math = [7%N].
Proof. vm_compute. reflexivity. Qed.
