(* ===== verification/Static.v ===== *)
(** * Static: the static analyses of packages

    The analyses of [crates/movy-static-analysis/src/sui]: stackless bytecode
    is generated for the modules of target packages, after their dependencies,
    and searched by the detectors of [Stackless]; constants, private and friend
    functions, structs and enums that nothing uses are found in the tables of
    the modules. The store is only read. A [ModuleFile] is what deserialising a
    module yields, as far as it is read here, with handles resolved. *)
From S2P Require Import Prelude Types Abi FuzzTracer TypeGraph Meta Cache Compile Stackless.

Inductive FileBytecode :=
| FB_LdConst (idx : N) | FB_Call (idx : N) | FB_CallGeneric (idx : N) | FB_Pack (idx : N) | FB_PackGeneric (idx : N)
| FB_PackVariant (idx : N) | FB_PackVariantGeneric (idx : N) | FB_Other.
Inductive ParamToken := PT_Datatype (handle : N) | PT_Other.
Record FunctionHandleInfo := MkHandleInfo { fhi_module : MoveModuleId; fhi_name : string; fhi_parameters : list ParamToken }.
Record FunctionDefinition := MkFunctionDef {
  fd_function : N; fd_visibility : MoveFunctionVisibility; fd_is_entry : bool; fd_code : option (list FileBytecode) }.
(** [mf_struct_defs] are the handles of the structs defined, instantiations
    and variants the indices of what they are of; a constant is the text of its
    value. *)
Record ModuleFile := MkFile {
  mf_id : MoveModuleId; mf_dependencies : list MoveModuleId; mf_handles : list FunctionHandleInfo;
  mf_function_defs : list FunctionDefinition; mf_function_insts : list N; mf_struct_defs : list N; mf_enum_defs : nat;
  mf_struct_insts : list N; mf_variant_handles : list N; mf_variant_insts : list N; mf_constants : list (option string) }.
Definition fd_is_native (def : FunctionDefinition) : bool := match fd_code def with None => true | Some _ => false end.

(** ** Stackless bytecode of modules *)
Record FunctionData := MkData { fda_code : list SLBytecode; fda_local_types : list SLType }.
Record FunctionEnv := MkFunctionEnv {
  fe_is_native : bool; fe_jump_tables : nat; fe_def_idx : nat; fe_name : string; fe_data : FunctionData }.
Record ModuleEnv := MkModuleEnv { me_name : string; me_functions : list FunctionEnv }.
(** The model of some modules: their environments and the symbol pool. *)
Record GlobalEnv := MkGlobalEnv { ge_modules : list ModuleEnv; ge_symbol : N → string }.
Record ModuleBytecode := MkModuleBytecode { mb_name : string; mb_functions : list FunctionInfo }.
Record ModuleAnalysis := MkAnalysis {
  an_compiled : ModuleFile; an_stackless : ModuleBytecode; an_global_env : GlobalEnv }.

Definition generate_function (func_env : FunctionEnv) : option FunctionInfo :=
  if fe_is_native func_env then None else
  if negb (fe_jump_tables func_env =? 0)%nat then None else
  let code := fda_code (fe_data func_env) in
  let local_types := fda_local_types (fe_data func_env) in
  let '(def_attrid, use_attrid) := compute_def_use (length local_types) code in
  Some (MkFunction (fe_def_idx func_env) (fe_name func_env) code local_types def_attrid use_attrid).

Section static.
Context `{OL : ObjectLib}.
Context (get_object : MoveAddress → option Object) (from_sui_object : Object → result MovePackageAbi).
(** [try_as_package] and [deserialize_module_by_str]. *)
Context (is_package : Object → bool) (deserialize_module : Object → string → option ModuleFile).
Context (run_bytecode_model_builder : list ModuleFile → result GlobalEnv).
Context (label_offsets : list SLBytecode → gmap Label N).
(** [Display] of module ids and of addresses. *)
Context (show_module_id : MoveModuleId → string) (show_address : MoveAddress → string).

Definition package_info (package_id : MoveAddress) : result (option MovePackageAbi) :=
  match get_object package_id with
  | Some object => abi ← from_sui_object object; Ok (Some abi)
  | None => Ok None
  end.

Definition generate_stackless_bytecode (modules : list ModuleFile) : result (list ModuleBytecode * GlobalEnv) :=
  match modules with
  | [] => Err
  | _ =>
      env ← run_bytecode_model_builder modules;
      Ok (map (λ m, MkModuleBytecode (me_name m) (omap generate_function (me_functions m))) (ge_modules env), env)
  end.
Definition generate_stackless_bytecode_for_module (dependencies : list ModuleFile) (module : ModuleFile) :
    result (ModuleBytecode * GlobalEnv) :=
  all ← generate_stackless_bytecode (dependencies ++ [module]);
  match last all.1 with Some m => Ok (m, all.2) | None => Err end.

(** ** The modules of the targets *)
Definition fetch_compiled_module (module_id : MoveModuleId) : option ModuleFile :=
  object ← get_object (module_address module_id);
  if is_package object then deserialize_module object (module_name module_id) else None.

Fixpoint deps_loop (rec : ModuleFile → gset MoveModuleId → list ModuleFile → option (gset MoveModuleId * list ModuleFile))
    (deps : list MoveModuleId) (visited : gset MoveModuleId) (ordered : list ModuleFile) :
    option (gset MoveModuleId * list ModuleFile) :=
  match deps with
  | [] => Some (visited, ordered)
  | dep :: deps =>
      if decide (dep ∈ visited) then deps_loop rec deps visited ordered else
      match fetch_compiled_module dep with
      | Some dep_module =>
          '(visited, ordered) ← rec dep_module visited ordered;
          deps_loop rec deps visited ordered
      | None => deps_loop rec deps visited ordered
      end
  end.
(** Fuel for the depth of the dependencies. *)
Fixpoint collect_modules_rec (fuel : nat) (module : ModuleFile) (visited : gset MoveModuleId) (ordered : list ModuleFile) :
    option (gset MoveModuleId * list ModuleFile) :=
  match fuel with
  | 0 => None
  | S fuel =>
      if decide (mf_id module ∈ visited) then Some (visited, ordered) else
      '(visited, ordered) ← deps_loop (collect_modules_rec fuel) (mf_dependencies module) ({[ mf_id module ]} ∪ visited) ordered;
      Some (visited, ordered ++ [module])
  end.
Definition collect_modules (fuel : nat) (root : ModuleFile) : option (list ModuleFile) :=
  snd <$> collect_modules_rec fuel root ∅ [].

(** [modules.pop().unwrap()] after the test for emptiness; [None]: no fuel. *)
Definition analyze_module (fuel : nat) (compiled : ModuleFile) (std_dependency : option ModuleFile) :
    option (option ModuleAnalysis) :=
  modules ← collect_modules fuel compiled;
  match last modules with
  | None => Some None
  | Some root_module =>
      let dependencies := option_list std_dependency ++ removelast modules in
      Some (match generate_stackless_bytecode_for_module dependencies root_module with
            | Ok (stackless, global_env) => Some (MkAnalysis root_module stackless global_env)
            | Err => None
            end)
  end.

(** The package of a target and its ABI, when it is there and is one. *)
Definition target_package (pkg : MoveAddress) : result (option (Object * MovePackageAbi)) :=
  info ← package_info pkg;
  Ok (meta ← info; object ← get_object pkg; if is_package object then Some (object, meta) else None).

Fixpoint modules_loop (fuel : nat) (std_dependency : option ModuleFile) (package_id : MoveAddress) (package : Object)
    (names : list string) (seen : gset (MoveAddress * string)) (analyses : list ModuleAnalysis) :
    option (gset (MoveAddress * string) * list ModuleAnalysis) :=
  match names with
  | [] => Some (seen, analyses)
  | module_name :: names =>
      if decide ((package_id, module_name) ∈ seen)
      then modules_loop fuel std_dependency package_id package names seen analyses
      else
        let seen := {[ (package_id, module_name) ]} ∪ seen in
        match deserialize_module package module_name with
        | None => modules_loop fuel std_dependency package_id package names seen analyses
        | Some compiled =>
            analysis ← analyze_module fuel compiled std_dependency;
            modules_loop fuel std_dependency package_id package names seen (analyses ++ option_list analysis)
        end
  end.
Fixpoint targets_loop (fuel : nat) (std_dependency : option ModuleFile) (target_packages : list MoveAddress)
    (seen : gset (MoveAddress * string)) (analyses : list ModuleAnalysis) : option (result (list ModuleAnalysis)) :=
  match target_packages with
  | [] => Some (Ok analyses)
  | package_id :: target_packages =>
      match target_package package_id with
      | Err => Some Err
      | Ok None => targets_loop fuel std_dependency target_packages seen analyses
      | Ok (Some (package, package_meta)) =>
          let names := merge_sort String.le (map (λ m, module_name (ma_module_id m)) (pa_modules package_meta)) in
          '(seen, analyses) ← modules_loop fuel std_dependency package_id package names seen analyses;
          targets_loop fuel std_dependency target_packages seen analyses
      end
  end.
Definition load_target_modules (fuel : nat) (target_packages : list MoveAddress) : option (result (list ModuleAnalysis)) :=
  let std_dependency := fetch_compiled_module (MkModuleId (MkMoveAddress 1) "vector") in
  targets_loop fuel std_dependency target_packages ∅ [].

(** ** Reports of the detectors *)
Context (qualified_module_name : MoveModuleId → string).
Definition is_native (module : ModuleAnalysis) (function : FunctionInfo) : bool :=
  match mf_function_defs (an_compiled module) !! fn_idx function with
  | Some def => fd_is_native def
  | None => true
  end.
Definition function_report (oracle : string) (severity : Severity) (message : string) (module : ModuleAnalysis)
    (function : FunctionInfo) : OracleFinding :=
  MkFinding oracle severity (J_obj [("module", J_str (qualified_module_name (mf_id (an_compiled module))));
    ("function", J_str (fn_name function)); ("message", J_str message)]).
Definition callee_report (module : ModuleAnalysis) (function : FunctionInfo) (fid : N) : OracleFinding :=
  MkFinding "StaticUncheckedReturn" Minor (J_obj [
    ("module", J_str (qualified_module_name (mf_id (an_compiled module)))); ("function", J_str (fn_name function));
    ("callee", J_str (ge_symbol (an_global_env module) fid)); ("message", J_str "Return value dropped without handling")]).

(** The loop all five share: [detect] reports on one function. *)
Definition analyze (detect : ModuleAnalysis → FunctionInfo → list OracleFinding) (modules : list ModuleAnalysis) :
    list OracleFinding :=
  flat_map (λ module, flat_map (λ function, if is_native module function then [] else detect module function)
    (mb_functions (an_stackless module))) modules.

Definition bool_judgement_analyze : list ModuleAnalysis → list OracleFinding :=
  analyze (λ module function, if detect_bool_judgement function then
    [function_report "StaticBoolJudgement" Minor "Unnecessary bool judgement (boolean compared with boolean literal)"
      module function] else []).
Definition infinite_loop_analyze : list ModuleAnalysis → list OracleFinding :=
  analyze (λ module function, if detect_infinite_loop label_offsets function then
    [function_report "StaticInfiniteLoop" Major "Potential infinite loop detected from constant branch condition"
      module function] else []).
Definition precision_loss_analyze : list ModuleAnalysis → list OracleFinding :=
  analyze (λ module function, if detect_precision_loss (ge_symbol (an_global_env module)) function then
    [function_report "StaticPrecisionLoss" Medium "Potential precision loss from multiplication involving division/sqrt"
      module function] else []).
Definition unchecked_return_analyze : list ModuleAnalysis → list OracleFinding :=
  analyze (λ module function, map (callee_report module function) (detect_unchecked_return function)).

(** The conversion detector may panic. *)
Fixpoint conversion_functions (module : ModuleAnalysis) (functions : list FunctionInfo) : panics (list OracleFinding) :=
  match functions with
  | [] => Ret []
  | function :: functions =>
      hit ← (if is_native module function then Ret false else detect_unnecessary_type_conversion function);
      rest ← conversion_functions module functions;
      Ret (if hit : bool
           then function_report "StaticTypeConversion" Minor "Unnecessary type conversion" module function :: rest else rest)
  end.
Fixpoint type_conversion_analyze (modules : list ModuleAnalysis) : panics (list OracleFinding) :=
  match modules with
  | [] => Ret []
  | module :: modules =>
      reports ← conversion_functions module (mb_functions (an_stackless module));
      rest ← type_conversion_analyze modules;
      Ret (reports ++ rest)
  end.

(** ** What nothing uses *)

(** [is_visited[idx] = true] *)
Definition visit (idx : N) (is_visited : list bool) : panics (list bool) :=
  _ ← unwrap (is_visited !! N.to_nat idx); Ret (<[N.to_nat idx := true]> is_visited).
Fixpoint fold_panics {A B} (f : A → B → panics B) (l : list A) (b : B) : panics B :=
  match l with
  | [] => Ret b
  | a :: l => b ← f a b; fold_panics f l b
  end.
Definition code_of (module_data : ModuleFile) : list FileBytecode :=
  flat_map (λ function, default [] (fd_code function)) (mf_function_defs module_data).
Definition unvisited (is_visited : list bool) : list nat :=
  omap (λ x, if x.2 : bool then None else Some x.1) (imap pair is_visited).

Definition visit_const (code : FileBytecode) (is_visited : list bool) : panics (list bool) :=
  match code with FB_LdConst idx => visit idx is_visited | _ => Ret is_visited end.
(** The values of the constants that are not loaded; an [Err] is one that
    cannot be read. *)
Definition unused_constants (module_data : ModuleFile) : panics (result (list string)) :=
  is_visited ← fold_panics visit_const (code_of module_data) (replicate (length (mf_constants module_data)) false);
  Ret (match mapM (λ i, mjoin (mf_constants module_data !! i)) (unvisited is_visited) with
       | Some values => Ok values
       | None => Err
       end).

Definition handle_at (module_data : ModuleFile) (idx : N) : panics FunctionHandleInfo :=
  unwrap (mf_handles module_data !! N.to_nat idx).
Definition def_ident (module_data : ModuleFile) (f : FunctionDefinition) : panics FunctionIdent :=
  handle ← handle_at module_data (fd_function f); Ret (MkFunctionIdent (mf_id module_data) (fhi_name handle)).
(** The function a call refers to. *)
Definition callee_of (module_data : ModuleFile) (code : FileBytecode) : panics (option FunctionIdent) :=
  match code with
  | FB_Call idx =>
      handle ← handle_at module_data idx; Ret (Some (MkFunctionIdent (fhi_module handle) (fhi_name handle)))
  | FB_CallGeneric idx =>
      inst_idx ← unwrap (mf_function_insts module_data !! N.to_nat idx);
      handle ← handle_at module_data inst_idx; Ret (Some (MkFunctionIdent (fhi_module handle) (fhi_name handle)))
  | _ => Ret None
  end.

Definition is_unused_private (module_data : ModuleFile) (f : FunctionDefinition) : panics bool :=
  match fd_visibility f with
  | Private =>
      handle ← handle_at module_data (fd_function f);
      Ret (negb (bool_decide (fhi_name handle = "init"%string)) && negb (fd_is_entry f))
  | _ => Ret false
  end.
Definition is_friend (f : FunctionDefinition) : bool :=
  match fd_visibility f with Friend => negb (fd_is_entry f) | _ => false end.
Definition add_private (module_data : ModuleFile) (f : FunctionDefinition) (acc : gset FunctionIdent) :
    panics (gset FunctionIdent) :=
  b ← is_unused_private module_data f;
  if b : bool then i ← def_ident module_data f; Ret ({[ i ]} ∪ acc) else Ret acc.
Definition add_friend (module_data : ModuleFile) (f : FunctionDefinition) (acc : gset FunctionIdent) :
    panics (gset FunctionIdent) :=
  if is_friend f then i ← def_ident module_data f; Ret ({[ i ]} ∪ acc) else Ret acc.
Definition remove_called (module_data : ModuleFile) (code : FileBytecode) (s : gset FunctionIdent * gset FunctionIdent) :
    panics (gset FunctionIdent * gset FunctionIdent) :=
  callee ← callee_of module_data code;
  Ret (match callee with Some c => (s.1 ∖ {[ c ]}, s.2 ∖ {[ c ]}) | None => s end).

(** The private functions of a module that are left, and the friends. *)
Definition unused_functions (module_data : ModuleFile) (unused_friend : gset FunctionIdent) :
    panics (gset FunctionIdent * gset FunctionIdent) :=
  unused_private ← fold_panics (add_private module_data) (mf_function_defs module_data) ∅;
  fold_panics (remove_called module_data) (code_of module_data) (unused_private, unused_friend).

Definition visit_param (module_data : ModuleFile) (sig : ParamToken) (struct_is_visited : list bool) : list bool :=
  match sig with
  | PT_Datatype idx =>
      match list_find (λ s, s = idx) (mf_struct_defs module_data) with
      | Some (sid, _) => <[sid := true]> struct_is_visited
      | None => struct_is_visited
      end
  | PT_Other => struct_is_visited
  end.
Definition visit_pack (module_data : ModuleFile) (code : FileBytecode) (s : list bool * list bool) :
    panics (list bool * list bool) :=
  match code with
  | FB_Pack idx => v ← visit idx s.1; Ret (v, s.2)
  | FB_PackGeneric idx =>
      def ← unwrap (mf_struct_insts module_data !! N.to_nat idx); v ← visit def s.1; Ret (v, s.2)
  | FB_PackVariant idx =>
      enum_def ← unwrap (mf_variant_handles module_data !! N.to_nat idx); v ← visit enum_def s.2; Ret (s.1, v)
  | FB_PackVariantGeneric idx =>
      enum_def ← unwrap (mf_variant_insts module_data !! N.to_nat idx); v ← visit enum_def s.2; Ret (s.1, v)
  | _ => Ret s
  end.
Definition visit_function (module_data : ModuleFile) (function : FunctionDefinition) (s : list bool * list bool) :
    panics (list bool * list bool) :=
  handle ← handle_at module_data (fd_function function);
  let structs := foldl (λ v sig, visit_param module_data sig v) s.1 (fhi_parameters handle) in
  fold_panics (visit_pack module_data) (default [] (fd_code function)) (structs, s.2).
(** The indices of the structs and of the enums that are left. *)
Definition unused_datatypes (module_data : ModuleFile) : panics (list nat * list nat) :=
  s ← fold_panics (visit_function module_data) (mf_function_defs module_data)
        (replicate (length (mf_struct_defs module_data)) false, replicate (mf_enum_defs module_data) false);
  Ret (unvisited s.1, unvisited s.2).

(** ** Reports on packages *)
Definition package_report (oracle message : string) (pkg : MoveAddress) (module : option string) (key : string)
    (items : list Json) : OracleFinding :=
  MkFinding oracle Informational (J_obj ([("package", J_str (show_address pkg))]
    ++ match module with Some m => [("module", J_str m)] | None => [] end
    ++ [(key, J_arr items); ("message", J_str message)])).
(** The report on something, if there is any. *)
Definition report_some {A} (f : list A → OracleFinding) (l : list A) : list OracleFinding :=
  match l with [] => [] | _ => [f l] end.
Definition show_functions (s : list FunctionIdent) : list Json :=
  map (λ i, J_str (show_module_id (fi_module i) +:+ "::" +:+ fi_name i)) s.

(** The modules of a package that can be read, with their names. *)
Definition readable (pkg_data : Object) (modules : list string) : list (string * ModuleFile) :=
  omap (λ m, module_data ← deserialize_module pkg_data m; Some (m, module_data)) modules.

Fixpoint unused_const_modules (pkg : MoveAddress) (modules : list (string * ModuleFile)) :
    panics (result (list OracleFinding)) :=
  match modules with
  | [] => Ret (Ok [])
  | (name, module_data) :: modules =>
      unused ← unused_constants module_data;
      match unused with
      | Err => Ret Err
      | Ok values =>
          rest ← unused_const_modules pkg modules;
          Ret (reports ← rest;
               Ok (report_some (λ l, package_report "StaticUnusedConstant" "Constants are defined but never referenced"
                     pkg (Some name) "unused_constants" (map J_str l)) values ++ reports))
      end
  end.
Fixpoint unused_fun_modules (pkg : MoveAddress) (modules : list (string * ModuleFile)) (friends : gset FunctionIdent) :
    panics (list OracleFinding) :=
  match modules with
  | [] =>
      Ret (report_some (λ l, package_report "StaticUnusedFriendFunction" "Friend functions are never invoked"
             pkg None "functions" (show_functions l)) (merge_sort ident_le (elements friends)))
  | (name, module_data) :: modules =>
      '(privates, friends) ← unused_functions module_data friends;
      rest ← unused_fun_modules pkg modules friends;
      Ret (report_some (λ l, package_report "StaticUnusedPrivateFunction" "Private functions are never invoked"
             pkg (Some name) "functions" (show_functions l)) (merge_sort ident_le (elements privates)) ++ rest)
  end.
Definition friends_of (modules : list (string * ModuleFile)) : panics (gset FunctionIdent) :=
  fold_panics (λ m acc, fold_panics (add_friend m.2) (mf_function_defs m.2) acc) modules ∅.
Fixpoint unused_struct_modules (pkg : MoveAddress) (modules : list (string * ModuleFile)) : panics (list OracleFinding) :=
  match modules with
  | [] => Ret []
  | (name, module_data) :: modules =>
      '(structs, enums) ← unused_datatypes module_data;
      rest ← unused_struct_modules pkg modules;
      let nums l := map (λ i, J_num (N.of_nat i)) l in
      Ret (report_some (λ l, package_report "StaticUnusedStruct" "Structs are defined but never used" pkg (Some name)
             "struct_indices" (nums l)) structs
           ++ report_some (λ l, package_report "StaticUnusedEnum" "Enums are defined but never used" pkg (Some name)
             "enum_indices" (nums l)) enums ++ rest)
  end.

(** The loop over the targets that the three analyses share. *)
Fixpoint for_packages (f : MoveAddress → list (string * ModuleFile) → panics (result (list OracleFinding)))
    (target_packages : list MoveAddress) : panics (result (list OracleFinding)) :=
  match target_packages with
  | [] => Ret (Ok [])
  | pkg :: target_packages =>
      match target_package pkg with
      | Err => Ret Err
      | Ok None => for_packages f target_packages
      | Ok (Some (pkg_data, package_meta)) =>
          r ← f pkg (readable pkg_data (map (λ m, module_name (ma_module_id m)) (pa_modules package_meta)));
          match r with
          | Err => Ret Err
          | Ok reports => rest ← for_packages f target_packages; Ret (rest ← rest; Ok (reports ++ rest))
          end
      end
  end.
Definition unused_const_analyze : list MoveAddress → panics (result (list OracleFinding)) :=
  for_packages unused_const_modules.
Definition unused_private_fun_analyze : list MoveAddress → panics (result (list OracleFinding)) :=
  for_packages (λ pkg modules, friends ← friends_of modules; r ← unused_fun_modules pkg modules friends; Ret (Ok r)).
Definition unused_struct_analyze : list MoveAddress → panics (result (list OracleFinding)) :=
  for_packages (λ pkg modules, r ← unused_struct_modules pkg modules; Ret (Ok r)).

(** [run_all]; [Ret None]: the dependencies ran out of fuel. *)
Definition run_all (fuel : nat) (target_packages : list MoveAddress) : panics (option (result (list OracleFinding))) :=
  match load_target_modules fuel target_packages with
  | None => Ret None
  | Some Err => Ret (Some Err)
  | Some (Ok modules) =>
      conversions ← type_conversion_analyze modules;
      let reports := bool_judgement_analyze modules ++ infinite_loop_analyze modules ++ precision_loss_analyze modules
        ++ conversions ++ unchecked_return_analyze modules in
      consts ← unused_const_analyze target_packages;
      match consts with
      | Err => Ret (Some Err)
      | Ok consts =>
          funs ← unused_private_fun_analyze target_packages;
          match funs with
          | Err => Ret (Some Err)
          | Ok funs =>
              structs ← unused_struct_analyze target_packages;
              Ret (Some (structs ← structs; Ok (reports ++ consts ++ funs ++ structs)))
          end
      end
  end.
End static.
