(* ===== verification/StaticSpec.v ===== *)
(** * StaticSpec: modules in order, and what nothing uses

    The modules given to the model builder come after their dependencies, once
    each; the constants, functions and datatypes that are reported are exactly
    those without a use of the kind the analysis looks for. *)
From S2P Require Import Prelude Types Abi FuzzTracer TypeGraph Meta Cache Compile Stackless Static.

(** ** Dependencies before dependents *)
Section order.
Context `{OL : ObjectLib}.
Context (get_object : MoveAddress → option Object) (is_package : Object → bool)
  (deserialize_module : Object → string → option ModuleFile).
Abbreviation fetch := (fetch_compiled_module get_object is_package deserialize_module).
Abbreviation collect_rec := (collect_modules_rec get_object is_package deserialize_module).
Abbreviation loop := (deps_loop get_object is_package deserialize_module).

(** A module is found under its own id. *)
Hypothesis fetch_id : ∀ d m, fetch d = Some m → mf_id m = d.
Context (root : ModuleFile).
Definition known (m : ModuleFile) : Prop := m = root ∨ fetch (mf_id m) = Some m.
(** A finite set of ids that is closed under dependencies. *)
Context (U : gset MoveModuleId).
Hypothesis known_ids : ∀ m, known m → mf_id m ∈ U.

Definition ids (l : list ModuleFile) : gset MoveModuleId := list_to_set (map mf_id l).
Definition here (d : MoveModuleId) : Prop := is_Some (fetch d).
(** Every dependency that can be fetched is among those visited. *)
Definition covered (visited : gset MoveModuleId) (l : list ModuleFile) : Prop :=
  ∀ m d, m ∈ l → d ∈ mf_dependencies m → here d → d ∈ visited.
(** Every dependency that can be fetched is earlier in the list. *)
Definition deps_first (l : list ModuleFile) : Prop :=
  ∀ l1 m l2 d, l = l1 ++ m :: l2 → d ∈ mf_dependencies m → here d → d ∈ ids l1.
(** Dependencies are not cyclic. *)
Definition acyclic (rank : MoveModuleId → nat) : Prop :=
  ∀ m d, known m → d ∈ mf_dependencies m → here d → rank d < rank (mf_id m).

(** What a part of the walk does to the list; [S] are the modules it is called
    from, so that [S ∪ ids l] are those visited. *)
Record walked (S : gset MoveModuleId) (l l' : list ModuleFile) : Prop := MkWalked {
  wk_new : ∃ new, l' = l ++ new ∧ Forall known new;
  wk_nodup : NoDup (map mf_id l');
  wk_apart : ids l' ## S;
  wk_covered : covered (S ∪ ids l') l' }.
Definition ordered_under (S : gset MoveModuleId) (d : MoveModuleId) (l l' : list ModuleFile) : Prop :=
  ∀ rank, acyclic rank → (∀ s, s ∈ S → rank d < rank s) → deps_first l → deps_first l'.

Lemma ids_app l1 l2 : ids (l1 ++ l2) = ids l1 ∪ ids l2.
Proof. unfold ids. by rewrite map_app, list_to_set_app_L. Qed.
Lemma elem_of_ids d l : d ∈ ids l ↔ ∃ m, m ∈ l ∧ mf_id m = d.
Proof. unfold ids. rewrite elem_of_list_to_set, list_elem_of_fmap. naive_solver. Qed.
Lemma modules_first_snoc l m : deps_first l → (∀ d, d ∈ mf_dependencies m → here d → d ∈ ids l) → deps_first (l ++ [m]).
Proof.
  intros Hl Hm l1 m' l2 d E Hd Hh. destruct l2 as [|x l2] using rev_ind.
  - apply app_inj_tail in E as [-> ->]. by apply Hm.
  - rewrite app_comm_cons, app_assoc in E. apply app_inj_tail in E as [-> _]. by eapply Hl.
Qed.

Lemma fetched_known d m : fetch d = Some m → known m ∧ mf_id m = d.
Proof. intros H. pose proof (fetch_id _ _ H) as E. split; [right; by rewrite E|done]. Qed.
Lemma walked_refl S l : NoDup (map mf_id l) → ids l ## S → covered (S ∪ ids l) l → walked S l l.
Proof. intros. split; [exists []; by rewrite app_nil_r|done..]. Qed.
Lemma walked_trans S l l1 l2 : walked S l l1 → walked S l1 l2 → walked S l l2.
Proof.
  intros [(n1 & -> & K1) _ _ _] [(n2 & -> & K2) Hn Ha Hc]. split; [|done..].
  exists (n1 ++ n2). rewrite app_assoc. split; [done|]. by apply Forall_app.
Qed.
Lemma walked_ids S l l' : walked S l l' → ids l ⊆ ids l'.
Proof. intros [(new & -> & _) _ _ _]. rewrite ids_app. set_solver. Qed.
Lemma room_less S l l' : ids l ⊆ ids l' → size (U ∖ (S ∪ ids l')) ≤ size (U ∖ (S ∪ ids l)).
Proof. intros H. apply subseteq_size. set_solver. Qed.

Lemma deps_loop_spec fuel S deps l :
  (∀ m S l, known m → mf_id m ∉ S ∪ ids l → size (U ∖ (S ∪ ids l)) < fuel → walked S l l →
    ∃ l', collect_rec fuel m (S ∪ ids l) l = Some (S ∪ ids l', l') ∧ walked S l l' ∧ mf_id m ∈ ids l' ∧
      ordered_under S (mf_id m) l l') →
  size (U ∖ (S ∪ ids l)) < fuel → walked S l l →
  ∃ l', loop (collect_rec fuel) deps (S ∪ ids l) l = Some (S ∪ ids l', l') ∧ walked S l l' ∧
    (∀ d, d ∈ deps → here d → d ∈ S ∪ ids l') ∧
    (∀ rank, acyclic rank → (∀ d s, d ∈ deps → here d → s ∈ S → rank d < rank s) → deps_first l → deps_first l').
Proof.
  intros Hrec. revert l. induction deps as [|d deps IH]; intros l Hf Hw; cbn [deps_loop].
  { exists l. split_and!; [done..| |auto]. by intros d ?%not_elem_of_nil. }
  assert (Hnext : ∀ l1, walked S l l1 → (here d → d ∈ S ∪ ids l1) →
    (∀ rank, acyclic rank → (here d → ∀ s, s ∈ S → rank d < rank s) → deps_first l → deps_first l1) →
    ∃ l', loop (collect_rec fuel) deps (S ∪ ids l1) l1 = Some (S ∪ ids l', l') ∧ walked S l l' ∧
    (∀ d', d' ∈ d :: deps → here d' → d' ∈ S ∪ ids l') ∧
    (∀ rank, acyclic rank → (∀ d' s, d' ∈ d :: deps → here d' → s ∈ S → rank d' < rank s) → deps_first l → deps_first l')).
  { intros l1 Hw1 Hd Ho. pose proof (room_less S _ _ (walked_ids _ _ _ Hw1)).
    destruct (IH l1) as (l' & E & Hw' & Hds & Ho'); [lia|destruct Hw1; by apply walked_refl|].
    exists l'. split; [done|]. split; [by eapply walked_trans|]. split.
    - intros d' [->|Hin]%elem_of_cons Hh; [|by apply Hds]. pose proof (walked_ids _ _ _ Hw'). specialize (Hd Hh). set_solver.
    - intros rank Hr Hlt Hl. apply (Ho' rank Hr); [intros d' s Hin; apply Hlt; by right|].
      apply (Ho rank Hr); [intros Hh s; apply Hlt; [by left|done]|done]. }
  case_decide as Hv; [by apply (Hnext l)|].
  destruct (fetch d) as [m|] eqn:E.
  2: { apply (Hnext l); [done| |auto]. intros [? ?]. congruence. }
  destruct (fetched_known _ _ E) as [Hk Hid]. subst d.
  destruct (Hrec m S l Hk Hv Hf Hw) as (l1 & E1 & Hw1 & Hm & Ho1). rewrite E1. cbn [mbind option_bind].
  apply (Hnext l1 Hw1); [set_solver|]. intros rank Hr Hlt. apply (Ho1 rank Hr). apply Hlt. by exists m.
Qed.

Lemma collect_rec_spec fuel : ∀ m S l, known m → mf_id m ∉ S ∪ ids l → size (U ∖ (S ∪ ids l)) < fuel → walked S l l →
  ∃ l', collect_rec fuel m (S ∪ ids l) l = Some (S ∪ ids l', l') ∧ walked S l l' ∧ mf_id m ∈ ids l' ∧
    ordered_under S (mf_id m) l l' ∧ last l' = Some m.
Proof.
  induction fuel as [|fuel IH]; intros m S l Hk Hm Hf Hw; [lia|]. cbn [collect_modules_rec].
  rewrite decide_False by done. set (S' := {[ mf_id m ]} ∪ S).
  replace ({[ mf_id m ]} ∪ (S ∪ ids l)) with (S' ∪ ids l) by (unfold S'; set_solver).
  assert (Hroom : size (U ∖ (S' ∪ ids l)) < fuel).
  { apply (Nat.lt_le_trans _ (size (U ∖ (S ∪ ids l)))); [|lia]. apply subset_size. pose proof (known_ids m Hk).
    unfold S'. set_solver. }
  assert (Hw' : walked S' l l).
  { destruct Hw as [_ Hn Ha Hc]. apply walked_refl; [done|unfold S'; set_solver|].
    intros m' d H1 H2 H3. specialize (Hc m' d H1 H2 H3). unfold S'. set_solver. }
  destruct (deps_loop_spec fuel S' (mf_dependencies m) l) as (l' & E & Hw1 & Hd & Ho); [|done..|].
  { intros m' S0 l0 H1 H2 H3 H4. destruct (IH m' S0 l0 H1 H2 H3 H4) as (l0' & ? & ? & ? & ? & _). by exists l0'. }
  rewrite E. cbn [mbind option_bind]. exists (l' ++ [m]).
  destruct Hw1 as [(new & -> & Hnew) Hn Ha Hc].
  assert (Hids : ids ((l ++ new) ++ [m]) = {[ mf_id m ]} ∪ ids (l ++ new)) by (rewrite ids_app; unfold ids; simpl; set_solver).
  assert (Hv : S' ∪ ids (l ++ new) = S ∪ ids ((l ++ new) ++ [m])) by (rewrite Hids; unfold S'; set_solver).
  split; [by rewrite Hv|]. clear Hv. split; [split|split; [|split]].
  - exists (new ++ [m]). rewrite <-!app_assoc. split; [done|]. apply Forall_app. split; [done|]. by apply Forall_singleton.
  - rewrite map_app. apply NoDup_app. split; [done|]. split; [|apply NoDup_singleton].
    intros d Hin ->%list_elem_of_singleton. apply (Ha (mf_id m)); [unfold ids; by apply elem_of_list_to_set|unfold S'; set_solver].
  - rewrite Hids. unfold S' in Ha. set_solver.
  - rewrite Hids. intros m' d [Hin| ->%list_elem_of_singleton]%elem_of_app Hdd Hh.
    + specialize (Hc m' d Hin Hdd Hh). unfold S' in Hc. set_solver.
    + specialize (Hd d Hdd Hh). unfold S' in Hd. set_solver.
  - rewrite Hids. set_solver.
  - intros rank Hr HS Hl. apply modules_first_snoc.
    + apply (Ho rank Hr); [|done]. intros d s Hdd Hh Hs. pose proof (Hr m d Hk Hdd Hh). unfold S' in Hs.
      apply elem_of_union in Hs as [->%elem_of_singleton|Hs]; [done|]. specialize (HS s Hs). lia.
    + intros d Hdd Hh. specialize (Hd d Hdd Hh). pose proof (Hr m d Hk Hdd Hh) as Hlt. unfold S' in Hd.
      apply elem_of_union in Hd as [[->%elem_of_singleton|Hs]%elem_of_union|Hd]; [lia|specialize (HS d Hs); lia|done].
  - apply last_snoc.
Qed.

(** C32: the walk over the dependencies of a module ends, however they are
    connected - one more step than there are modules is deep enough -, and
    gives the module last, every module it can reach once and the dependencies
    of each that can be fetched with it; when dependencies are not cyclic, each
    comes after those it depends on. *)
Theorem collect_modules_ordered :
  ∃ l, collect_modules get_object is_package deserialize_module (S (size U)) root = Some (l ++ [root]) ∧
    NoDup (map mf_id (l ++ [root])) ∧ Forall known l ∧ covered (ids (l ++ [root])) (l ++ [root]) ∧
    ∀ rank, acyclic rank → deps_first (l ++ [root]).
Proof.
  assert (H0 : ids [] = ∅) by done. unfold collect_modules.
  destruct (collect_rec_spec (S (size U)) root ∅ []) as (l' & E & [(new & El & Hk) Hn _ Hc] & _ & Ho & Hlast).
  - by left.
  - rewrite H0. set_solver.
  - assert (size (U ∖ (∅ ∪ ids [])) ≤ size U) by (apply subseteq_size; set_solver). lia.
  - apply walked_refl; [constructor|set_solver|]. by intros m d ?%not_elem_of_nil.
  - rewrite H0, (union_empty_r_L ∅) in E. rewrite E. simpl. apply last_Some in Hlast as [l ->].
    exists l. split; [done|]. split; [done|]. split.
    { simpl in El. rewrite <-El in Hk. by apply Forall_app in Hk as [? _]. }
    split; [by rewrite union_empty_l_L in Hc|]. intros rank Hr. apply (Ho rank Hr); [set_solver|].
    intros l1 m l2 d E0. by apply app_cons_not_nil in E0.
Qed.
End order.

(** ** Loops that may panic *)
Lemma fold_panics_inv {A B} (f : A → B → panics B) (I : list A → B → Prop) l b :
  I [] b → (∀ before a b, a ∈ l → I before b → ∃ b', f a b = Ret b' ∧ I (before ++ [a]) b') →
  ∃ b', fold_panics f l b = Ret b' ∧ I l b'.
Proof.
  intros H0 Hstep. assert (∀ before b, I before b → ∃ b', fold_panics f l b = Ret b' ∧ I (before ++ l) b') as H.
  { clear H0 b. induction l as [|a l IH]; intros before b Hb; cbn [fold_panics].
    - exists b. by rewrite app_nil_r.
    - destruct (Hstep before a b) as (b1 & E & H1); [by left|done|]. rewrite E. cbn [mbind panics_mbind panics_bind].
      destruct (IH ltac:(intros before' a' b' Ha; apply Hstep; by right) (before ++ [a]) b1 H1) as (b2 & E2 & H2).
      exists b2. by rewrite <-app_assoc in H2. }
  by apply (H []).
Qed.

(** The flags of what was visited: [P] says which. *)
Definition marked (n : nat) (P : nat → Prop) (v : list bool) : Prop :=
  length v = n ∧ ∀ i b, v !! i = Some b → b = true ↔ P i.
Lemma marked_ext n (P Q : nat → Prop) v : (∀ i, P i ↔ Q i) → marked n P v → marked n Q v.
Proof. intros H [Hn Hv]. split; [done|]. intros i b Hb. rewrite <-H. by apply Hv. Qed.
Lemma marked_none n : marked n (λ _, False) (replicate n false).
Proof. split; [apply length_replicate|]. intros i b [-> _]%lookup_replicate_1. done. Qed.
Lemma marked_insert n (P : nat → Prop) v idx : marked n P v → marked n (λ i, P i ∨ i = idx) (<[idx := true]> v).
Proof.
  intros [Hn Hv]. split; [by rewrite length_insert|]. intros i b Hb.
  apply list_lookup_insert_Some in Hb as [(-> & <- & _)|[Hne Hb]]; [naive_solver|].
  rewrite (Hv i b Hb). naive_solver.
Qed.
Lemma marked_visit n (P : nat → Prop) v idx : marked n P v → N.to_nat idx < n →
  ∃ v', visit idx v = Ret v' ∧ marked n (λ i, P i ∨ i = N.to_nat idx) v'.
Proof.
  intros Hm Hlt. unfold visit. destruct (lookup_lt_is_Some_2 v (N.to_nat idx)) as [b Hb]; [destruct Hm; lia|].
  rewrite Hb. eexists. split; [reflexivity|by apply marked_insert].
Qed.
Lemma unvisited_spec n P v : marked n P v →
  StronglySorted lt (unvisited v) ∧ ∀ i, i ∈ unvisited v ↔ i < n ∧ ¬ P i.
Proof.
  intros [Hn Hv]. unfold unvisited. split.
  - clear Hv Hn. assert (∀ k, StronglySorted lt (omap (λ x : nat * bool, if x.2 : bool then None else Some x.1) (imap (λ i b, (k + i, b)) v)) ∧
      Forall (λ i, k ≤ i) (omap (λ x : nat * bool, if x.2 : bool then None else Some x.1) (imap (λ i b, (k + i, b)) v))) as H; [|apply (H 0)].
    induction v as [|b v IH]; intros k; [split; constructor|]. cbn [imap omap list_omap].
    replace (imap ((λ i b0, (k + i, b0)) ∘ S) v) with (imap (λ i b, (S k + i, b)) v) by (apply imap_ext; intros; simpl; f_equal; lia).
    destruct (IH (S k)) as [Hs Hf]. rewrite Nat.add_0_r. cbn [snd fst]. destruct b.
    + split; [done|]. eapply Forall_impl; [exact Hf|simpl; lia].
    + split; [constructor; [done|]|constructor; [done|]]; (eapply Forall_impl; [exact Hf|simpl; lia]).
  - intros i. rewrite list_elem_of_omap. split.
    + intros ([j b] & Hin & He). apply list_elem_of_lookup in Hin as [k Hk]. rewrite list_lookup_imap in Hk.
      destruct (v !! k) as [b'|] eqn:Eb; [|done]. simpl in Hk. simplify_eq/=. destruct b; [done|]. simplify_eq.
      split; [by apply lookup_lt_Some in Eb|]. rewrite <-(Hv _ _ Eb). done.
    + intros [Hlt HP]. destruct (lookup_lt_is_Some_2 v i) as [b Hb]; [lia|]. exists (i, b). split.
      * apply list_elem_of_lookup. exists i. by rewrite list_lookup_imap, Hb.
      * destruct b; [|done]. by destruct HP; apply (Hv _ _ Hb).
Qed.

(** ** Tables the deserialiser has checked *)
Definition code_ok (m : ModuleFile) (code : FileBytecode) : Prop :=
  match code with
  | FB_LdConst idx => N.to_nat idx < length (mf_constants m)
  | FB_Call idx => is_Some (mf_handles m !! N.to_nat idx)
  | FB_CallGeneric idx => ∃ h, mf_function_insts m !! N.to_nat idx = Some h ∧ is_Some (mf_handles m !! N.to_nat h)
  | FB_Pack idx => N.to_nat idx < length (mf_struct_defs m)
  | FB_PackGeneric idx => ∃ d, mf_struct_insts m !! N.to_nat idx = Some d ∧ N.to_nat d < length (mf_struct_defs m)
  | FB_PackVariant idx => ∃ d, mf_variant_handles m !! N.to_nat idx = Some d ∧ N.to_nat d < mf_enum_defs m
  | FB_PackVariantGeneric idx => ∃ d, mf_variant_insts m !! N.to_nat idx = Some d ∧ N.to_nat d < mf_enum_defs m
  | FB_Other => True
  end.
Record wf_file (m : ModuleFile) : Prop := MkWfFile {
  wf_code : ∀ code, code ∈ code_of m → code_ok m code;
  wf_defs : ∀ f, f ∈ mf_function_defs m → is_Some (mf_handles m !! N.to_nat (fd_function f)) }.

(** The constants that are reported are those no instruction of the module
    loads, in order; the analysis fails only for one whose value cannot be
    read, and does not panic. *)
Theorem unused_constants_exact m : wf_file m →
  ∃ r idxs, unused_constants m = Ret r ∧ StronglySorted lt idxs ∧
    (∀ i, i ∈ idxs ↔ i < length (mf_constants m) ∧ FB_LdConst (N.of_nat i) ∉ code_of m) ∧
    match r with
    | Ok values => Forall2 (λ i v, mf_constants m !! i = Some (Some v)) idxs values
    | Err => ∃ i, i ∈ idxs ∧ mf_constants m !! i = Some None
    end.
Proof.
  intros Hw. unfold unused_constants.
  destruct (fold_panics_inv visit_const (λ before, marked (length (mf_constants m)) (λ i, FB_LdConst (N.of_nat i) ∈ before))
    (code_of m) (replicate (length (mf_constants m)) false)) as (v & E & Hv).
  - eapply marked_ext, marked_none. intros i. by rewrite elem_of_nil.
  - intros before code v Hc Hv. apply (wf_code _ Hw) in Hc. destruct code as [idx| | | | | | |];
      try (exists v; split; [done|]; eapply marked_ext; [|exact Hv]; intros i; rewrite elem_of_app, list_elem_of_singleton; naive_solver).
    destruct (marked_visit _ _ _ idx Hv Hc) as (v' & E & Hv'). exists v'. split; [done|]. eapply marked_ext; [|exact Hv'].
    intros i. rewrite elem_of_app, list_elem_of_singleton. split; [intros [?| ->]; [by left|right; by rewrite N2Nat.id]|].
    intros [?|[= <-]]; [by left|right; by rewrite Nat2N.id].
  - apply unvisited_spec in Hv as [Hs Hi]. rewrite E. cbn [mbind panics_mbind panics_bind]. eexists _, (unvisited v).
    split; [reflexivity|]. split; [done|]. split; [done|].
    destruct (mapM _ (unvisited v)) as [values|] eqn:Em.
    + apply mapM_Some in Em. eapply Forall2_impl; [exact Em|]. intros i x Hx. simpl in Hx.
      destruct (mf_constants m !! i) as [[y|]|]; naive_solver.
    + apply mapM_None, Exists_exists in Em as (i & Hin & Hx). exists i. split; [done|].
      apply Hi in Hin as [Hlt _]. destruct (lookup_lt_is_Some_2 (mf_constants m) i Hlt) as [[y|] Hy]; [|done].
      rewrite Hy in Hx. done.
Qed.

(** ** Functions that are never called *)
Definition named (m : ModuleFile) (f : FunctionDefinition) (i : FunctionIdent) : Prop :=
  ∃ h, mf_handles m !! N.to_nat (fd_function f) = Some h ∧ i = MkFunctionIdent (mf_id m) (fhi_name h).
Definition private_fn (m : ModuleFile) (i : FunctionIdent) : Prop := ∃ f, f ∈ mf_function_defs m ∧
  fd_visibility f = Private ∧ fd_is_entry f = false ∧ fi_name i ≠ "init"%string ∧ named m f i.
Definition friend_fn (m : ModuleFile) (i : FunctionIdent) : Prop := ∃ f, f ∈ mf_function_defs m ∧
  fd_visibility f = Friend ∧ fd_is_entry f = false ∧ named m f i.
(** A call in the code of the module refers to the function. *)
Definition calls_fn (m : ModuleFile) (i : FunctionIdent) : Prop :=
  ∃ code, code ∈ code_of m ∧ callee_of m code = Ret (Some i).

Lemma handle_named m f : wf_file m → f ∈ mf_function_defs m → ∃ h,
  mf_handles m !! N.to_nat (fd_function f) = Some h ∧ handle_at m (fd_function f) = Ret h ∧
  def_ident m f = Ret (MkFunctionIdent (mf_id m) (fhi_name h)).
Proof.
  intros Hw Hf. destruct (wf_defs _ Hw f Hf) as [h Hh]. exists h. unfold def_ident, handle_at. by rewrite Hh.
Qed.
Lemma callee_ok m code : code_ok m code → ∃ c, callee_of m code = Ret c.
Proof.
  destruct code as [idx|idx|idx| | | | |]; simpl; try (intros _; by eexists); unfold handle_at.
  - intros [h ->]. by eexists.
  - intros (h & -> & [i Hi]). cbn [unwrap mbind panics_mbind panics_bind]. rewrite Hi. by eexists.
Qed.
Lemma add_step (P : FunctionDefinition → FunctionIdent → Prop) f (acc acc' : gset FunctionIdent) (before : list FunctionDefinition) i :
  (∀ i, i ∈ acc ↔ ∃ g, g ∈ before ∧ P g i) → (∀ i, i ∈ acc' ↔ i ∈ acc ∨ P f i) →
  i ∈ acc' ↔ ∃ g, g ∈ before ++ [f] ∧ P g i.
Proof.
  intros Ha ->. rewrite Ha. setoid_rewrite elem_of_app. setoid_rewrite list_elem_of_singleton. naive_solver.
Qed.

Lemma add_private_spec m : wf_file m → ∃ p, fold_panics (add_private m) (mf_function_defs m) ∅ = Ret p ∧
  ∀ i, i ∈ p ↔ private_fn m i.
Proof.
  intros Hw. unfold private_fn.
  set (P f i := fd_visibility f = Private ∧ fd_is_entry f = false ∧ fi_name i ≠ "init"%string ∧ named m f i).
  apply (fold_panics_inv (add_private m) (λ before acc, ∀ i, i ∈ acc ↔ ∃ f, f ∈ before ∧ P f i)).
  - intros i. split; [by intros ?%not_elem_of_empty|by intros (? & ?%elem_of_nil & _)].
  - intros before f acc Hf Ha. destruct (handle_named m f Hw Hf) as (h & Hh & E1 & E2).
    assert (∀ i, named m f i ↔ i = MkFunctionIdent (mf_id m) (fhi_name h)) as Hn by (unfold named; naive_solver).
    set (b := match fd_visibility f with Private => negb (bool_decide (fhi_name h = "init"%string)) && negb (fd_is_entry f)
              | _ => false end).
    assert (is_unused_private m f = Ret b) as Eb by (unfold is_unused_private, b; rewrite E1; by destruct (fd_visibility f)).
    assert (∀ i, P f i ↔ b = true ∧ i = MkFunctionIdent (mf_id m) (fhi_name h)) as HP.
    { intros i. unfold P. rewrite Hn. unfold b. destruct (fd_visibility f); try (split; intros [? _]; discriminate).
      rewrite andb_true_iff, !negb_true_iff, bool_decide_eq_false. split.
      - intros (_ & He & Hi & ->). done.
      - intros ([Hi He] & ->). done. }
    unfold add_private. rewrite Eb. cbn [mbind panics_mbind panics_bind]. clearbody b. destruct b.
    + rewrite E2. cbn [mbind panics_mbind panics_bind]. eexists. split; [reflexivity|]. intros i.
      apply (add_step P f acc); [done|]. intros j. rewrite HP, elem_of_union, elem_of_singleton. tauto.
    + exists acc. split; [done|]. intros i. apply (add_step P f acc); [done|]. intros j. rewrite HP. intuition discriminate.
Qed.
Lemma add_friend_spec m acc : wf_file m → ∃ p, fold_panics (add_friend m) (mf_function_defs m) acc = Ret p ∧
  ∀ i, i ∈ p ↔ i ∈ acc ∨ friend_fn m i.
Proof.
  intros Hw. unfold friend_fn.
  set (P f i := fd_visibility f = Friend ∧ fd_is_entry f = false ∧ named m f i).
  apply (fold_panics_inv (add_friend m) (λ before acc', ∀ i, i ∈ acc' ↔ i ∈ acc ∨ ∃ f, f ∈ before ∧ P f i)).
  - intros i. setoid_rewrite elem_of_nil. set_solver.
  - intros before f acc' Hf Ha. destruct (handle_named m f Hw Hf) as (h & Hh & E1 & E2).
    assert (∀ i, named m f i ↔ i = MkFunctionIdent (mf_id m) (fhi_name h)) as Hn by (unfold named; naive_solver).
    assert (∀ i, P f i ↔ is_friend f = true ∧ i = MkFunctionIdent (mf_id m) (fhi_name h)) as HP.
    { intros i. unfold P. rewrite Hn. unfold is_friend. destruct (fd_visibility f), (fd_is_entry f); naive_solver. }
    unfold add_friend. setoid_rewrite elem_of_app. setoid_rewrite list_elem_of_singleton. destruct (is_friend f).
    + rewrite E2. eexists. split; [reflexivity|]. intros i. rewrite elem_of_union, elem_of_singleton, Ha. naive_solver.
    + exists acc'. split; [done|]. intros i. rewrite Ha. naive_solver.
Qed.

Definition called_in (m : ModuleFile) (before : list FileBytecode) (i : FunctionIdent) : Prop :=
  ∃ code, code ∈ before ∧ callee_of m code = Ret (Some i).
Lemma called_snoc m before code c i : callee_of m code = Ret c →
  called_in m (before ++ [code]) i ↔ called_in m before i ∨ c = Some i.
Proof.
  intros Ec. split.
  - intros (code' & [Hb| ->%list_elem_of_singleton]%elem_of_app & E); [left; by exists code'|right; congruence].
  - intros [(code' & Hb & E)| ->]; [exists code'|exists code]; (split; [apply elem_of_app|done]); [by left|right; by left].
Qed.
Lemma remove_step m before code c (base acc : gset FunctionIdent) : callee_of m code = Ret c →
  (∀ i, i ∈ acc ↔ i ∈ base ∧ ¬ called_in m before i) →
  ∀ i, i ∈ match c with Some c => acc ∖ {[ c ]} | None => acc end ↔ i ∈ base ∧ ¬ called_in m (before ++ [code]) i.
Proof.
  intros Ec Ha i. rewrite (called_snoc _ _ _ _ _ Ec). destruct c as [c|].
  - rewrite elem_of_difference, elem_of_singleton, Ha. assert (Some c = Some i ↔ i = c) as -> by (split; congruence). tauto.
  - rewrite Ha. assert (None = Some i ↔ False) as -> by (split; [discriminate|done]). tauto.
Qed.
(** One module: its private functions, and the friends, that it does not call. *)
Lemma unused_functions_spec m friends : wf_file m → ∃ p f, unused_functions m friends = Ret (p, f) ∧
  (∀ i, i ∈ p ↔ private_fn m i ∧ ¬ calls_fn m i) ∧ (∀ i, i ∈ f ↔ i ∈ friends ∧ ¬ calls_fn m i).
Proof.
  intros Hw. unfold unused_functions. destruct (add_private_spec m Hw) as (p & -> & Hp). cbn [mbind panics_mbind panics_bind].
  destruct (fold_panics_inv (remove_called m) (λ before s,
      (∀ i, i ∈ s.1 ↔ i ∈ p ∧ ¬ called_in m before i) ∧ (∀ i, i ∈ s.2 ↔ i ∈ friends ∧ ¬ called_in m before i))
    (code_of m) (p, friends)) as ([p' f'] & E & Hp' & Hf').
  - assert (∀ i, called_in m [] i ↔ False) as Hno by (intros i; split; [by intros (? & ?%elem_of_nil & _)|done]).
    split; intros i; rewrite Hno; simpl; tauto.
  - intros before code s Hc [H1 H2]. destruct (callee_ok m code) as [c Ec]; [by apply (wf_code _ Hw)|].
    unfold remove_called. rewrite Ec. eexists. split; [reflexivity|].
    pose proof (remove_step _ _ _ _ _ _ Ec H1). pose proof (remove_step _ _ _ _ _ _ Ec H2). by destruct c.
  - exists p', f'. split; [done|]. split; [intros i; rewrite Hp', Hp; done|done].
Qed.

Definition private_report (show_module_id : MoveModuleId → string) (show_address : MoveAddress → string)
    (pkg : MoveAddress) (name : string) (privates : gset FunctionIdent) : list OracleFinding :=
  report_some (λ l, package_report show_address "StaticUnusedPrivateFunction" "Private functions are never invoked"
    pkg (Some name) "functions" (show_functions show_module_id l)) (merge_sort ident_le (elements privates)).
Definition friend_report (show_module_id : MoveModuleId → string) (show_address : MoveAddress → string)
    (pkg : MoveAddress) (friends : gset FunctionIdent) : list OracleFinding :=
  report_some (λ l, package_report show_address "StaticUnusedFriendFunction" "Friend functions are never invoked"
    pkg None "functions" (show_functions show_module_id l)) (merge_sort ident_le (elements friends)).

Lemma friends_of_spec (modules : list (string * ModuleFile)) : Forall (λ m, wf_file m.2) modules →
  ∃ p, friends_of modules = Ret p ∧ ∀ i, i ∈ p ↔ ∃ m, m ∈ modules ∧ friend_fn m.2 i.
Proof.
  intros Hw. rewrite Forall_forall in Hw. apply (fold_panics_inv (λ m acc, fold_panics (add_friend m.2) (mf_function_defs m.2) acc)
    (λ before (acc : gset FunctionIdent), ∀ i, i ∈ acc ↔ ∃ m, m ∈ before ∧ friend_fn m.2 i)).
  - intros i. split; [by intros ?%not_elem_of_empty|by intros (? & ?%elem_of_nil & _)].
  - intros before m acc Hm Ha. destruct (add_friend_spec m.2 acc (Hw m Hm)) as (p & E & Hp). exists p. split; [done|].
    intros i. rewrite Hp, Ha. split.
    + intros [(m' & ? & ?)|?]; [exists m'|exists m]; (split; [apply elem_of_app|done]); [by left|right; by left].
    + intros (m' & [?| ->%list_elem_of_singleton]%elem_of_app & ?); [left; by exists m'|by right].
Qed.
(** C36: the report on a package has, for each of its modules, the private
    functions that are neither entry functions nor [init] and that the module
    itself does not call, and for the package the friend functions that no
    module of it calls; neither loop panics. *)
Theorem unused_functions_exact show_module_id show_address pkg (modules : list (string * ModuleFile)) :
  Forall (λ m, wf_file m.2) modules → ∃ (privates : list (gset FunctionIdent)) (friends : gset FunctionIdent),
    (friends ← friends_of modules; unused_fun_modules show_module_id show_address pkg modules friends) =
      Ret (concat (zip_with (λ m, private_report show_module_id show_address pkg m.1) modules privates)
           ++ friend_report show_module_id show_address pkg friends) ∧
    Forall2 (λ m p, ∀ i, i ∈ p ↔ private_fn m.2 i ∧ ¬ calls_fn m.2 i) modules privates ∧
    ∀ i, i ∈ friends ↔ (∃ m, m ∈ modules ∧ friend_fn m.2 i) ∧ ¬ ∃ m, m ∈ modules ∧ calls_fn m.2 i.
Proof.
  intros Hw. destruct (friends_of_spec modules Hw) as (p & -> & Hp). cbn [mbind panics_mbind panics_bind].
  setoid_rewrite <-Hp. clear Hp. revert p. induction Hw as [|[name m] modules Hm Hw IH]; intros friends; cbn [unused_fun_modules].
  - exists [], friends. split; [done|]. split; [constructor|]. intros i. split; [|by intros [? _]].
    intros Hi. split; [done|]. by intros (? & ?%elem_of_nil & _).
  - simpl in Hm. destruct (unused_functions_spec m friends Hm) as (pr & fr & -> & Hpr & Hfr). cbn [mbind panics_mbind panics_bind].
    destruct (IH fr) as (prs & fr' & -> & HF & Hi). cbn [mbind panics_mbind panics_bind]. exists (pr :: prs), fr'.
    split; [by cbn [zip_with concat fst]; rewrite <-app_assoc|]. split; [by constructor|].
    intros i. rewrite Hi, Hfr. split.
    + intros [[H1 H2] H3]. split; [done|]. intros (m' & [->|Hin]%elem_of_cons & Hc); [done|]. apply H3. by exists m'.
    + intros [H1 H2]. split; [split; [done|]|].
      * intros Hc. apply H2. exists (name, m). split; [by left|done].
      * intros (m' & Hin & Hc). apply H2. exists m'. split; [by right|done].
Qed.

(** ** Datatypes that are never made or passed *)
Definition packs_struct (m : ModuleFile) (code : FileBytecode) (i : nat) : Prop :=
  match code with
  | FB_Pack idx => i = N.to_nat idx
  | FB_PackGeneric idx => ∃ d, mf_struct_insts m !! N.to_nat idx = Some d ∧ i = N.to_nat d
  | _ => False
  end.
Definition packs_enum (m : ModuleFile) (code : FileBytecode) (i : nat) : Prop :=
  match code with
  | FB_PackVariant idx => ∃ d, mf_variant_handles m !! N.to_nat idx = Some d ∧ i = N.to_nat d
  | FB_PackVariantGeneric idx => ∃ d, mf_variant_insts m !! N.to_nat idx = Some d ∧ i = N.to_nat d
  | _ => False
  end.
(** The parameter is the struct itself, which is the first of its handle. *)
Definition takes_struct (m : ModuleFile) (sig : ParamToken) (i : nat) : Prop :=
  ∃ idx, sig = PT_Datatype idx ∧ mf_struct_defs m !! i = Some idx ∧ ∀ j, j < i → mf_struct_defs m !! j ≠ Some idx.
Definition fn_uses_struct (m : ModuleFile) (f : FunctionDefinition) (i : nat) : Prop :=
  (∃ h sig, mf_handles m !! N.to_nat (fd_function f) = Some h ∧ sig ∈ fhi_parameters h ∧ takes_struct m sig i) ∨
  (∃ code, code ∈ default [] (fd_code f) ∧ packs_struct m code i).
Definition fn_uses_enum (m : ModuleFile) (f : FunctionDefinition) (i : nat) : Prop :=
  ∃ code, code ∈ default [] (fd_code f) ∧ packs_enum m code i.

Lemma visit_param_spec m sig n P v : marked n P v → marked n (λ i, P i ∨ takes_struct m sig i) (visit_param m sig v).
Proof.
  intros Hv. destruct sig as [idx|]; simpl.
  - destruct (list_find _ _) as [[sid s]|] eqn:E.
    + apply list_find_Some in E as (Hs & -> & Hj). eapply marked_ext; [|by apply marked_insert]. intros i. simpl. split.
      * intros [?| ->]; [by left|]. right. exists idx. split; [done|]. split; [done|]. intros j Hlt Hx. by apply (Hj j idx Hx).
      * intros [?|(? & [= <-] & Hi & Hlt)]; [by left|]. right.
        destruct (Nat.lt_trichotomy i sid) as [?|[?|?]]; [by destruct (Hj i idx Hi)|done|by destruct (Hlt sid)].
    + eapply marked_ext; [|exact Hv]. intros i. split; [by left|]. intros [?|(? & [= <-] & Hi & _)]; [done|].
      apply list_find_None in E. rewrite Forall_lookup in E. by destruct (E i idx Hi).
  - eapply marked_ext; [|exact Hv]. intros i. split; [by left|]. by intros [?|(? & [=] & _)].
Qed.
Lemma visit_params_spec m sigs n : ∀ P v, marked n P v →
  marked n (λ i, P i ∨ ∃ sig, sig ∈ sigs ∧ takes_struct m sig i) (foldl (λ v sig, visit_param m sig v) v sigs).
Proof.
  induction sigs as [|sig sigs IH]; intros P v Hv; simpl.
  - eapply marked_ext; [|exact Hv]. intros i. split; [by left|]. by intros [?|(? & ?%elem_of_nil & _)].
  - eapply marked_ext; [|by apply IH, visit_param_spec]. intros i. simpl. setoid_rewrite elem_of_cons. naive_solver.
Qed.
Lemma visit_pack_spec m code n k (P Q : nat → Prop) s : code_ok m code → length (mf_struct_defs m) = n → mf_enum_defs m = k →
  marked n P s.1 → marked k Q s.2 →
  ∃ s', visit_pack m code s = Ret s' ∧ marked n (λ i, P i ∨ packs_struct m code i) s'.1 ∧
    marked k (λ i, Q i ∨ packs_enum m code i) s'.2.
Proof.
  intros Hok <- <- HP HQ.
  assert (∀ n (P R : nat → Prop) v, marked n P v → (∀ i, ¬ R i) → marked n (λ i, P i ∨ R i) v) as Hsame.
  { intros n P0 R v Hv HR. eapply marked_ext; [|exact Hv]. intros i. specialize (HR i). tauto. }
  assert (∀ n (P : nat → Prop) v (tbl : list N) idx d, marked n P v → tbl !! idx = Some d → N.to_nat d < n →
    ∃ v', visit d v = Ret v' ∧ marked n (λ i, P i ∨ ∃ d, tbl !! idx = Some d ∧ i = N.to_nat d) v') as Hvia.
  { intros n P0 v tbl idx d Hv Ht Hd. destruct (marked_visit _ _ _ _ Hv Hd) as (v' & ? & Hv'). exists v'. split; [done|].
    eapply marked_ext; [|exact Hv']. naive_solver. }
  destruct s as [v w]. cbn [fst snd] in *. destruct code as [|idx|idx|idx|idx|idx|idx|]; simpl in Hok |- *;
    try (eexists; split; [reflexivity|]; split; apply Hsame; [done|intros ? []|done|intros ? []]).
  - destruct (marked_visit _ _ _ _ HP Hok) as (v' & -> & Hv'). eexists. split; [reflexivity|]. split; [done|].
    apply Hsame; [done|intros ? []].
  - destruct Hok as (d & Ed & Hd). rewrite Ed. destruct (Hvia _ _ _ _ _ _ HP Ed Hd) as (v' & E & Hv').
    cbn [unwrap mbind panics_mbind panics_bind]. rewrite E. eexists. split; [reflexivity|]. rewrite Ed in Hv'. split; [done|]. apply Hsame; [done|intros ? []].
  - destruct Hok as (d & Ed & Hd). rewrite Ed. destruct (Hvia _ _ _ _ _ _ HQ Ed Hd) as (v' & E & Hv').
    cbn [unwrap mbind panics_mbind panics_bind]. rewrite E. eexists. split; [reflexivity|]. rewrite Ed in Hv'. split; [|done]. apply Hsame; [done|intros ? []].
  - destruct Hok as (d & Ed & Hd). rewrite Ed. destruct (Hvia _ _ _ _ _ _ HQ Ed Hd) as (v' & E & Hv').
    cbn [unwrap mbind panics_mbind panics_bind]. rewrite E. eexists. split; [reflexivity|]. rewrite Ed in Hv'. split; [|done]. apply Hsame; [done|intros ? []].
Qed.
Lemma visit_function_spec m f n k (P Q : nat → Prop) s : wf_file m → f ∈ mf_function_defs m →
  length (mf_struct_defs m) = n → mf_enum_defs m = k → marked n P s.1 → marked k Q s.2 →
  ∃ s', visit_function m f s = Ret s' ∧ marked n (λ i, P i ∨ fn_uses_struct m f i) s'.1 ∧
    marked k (λ i, Q i ∨ fn_uses_enum m f i) s'.2.
Proof.
  intros Hw Hf Hn Hk HP HQ. destruct (handle_named m f Hw Hf) as (h & Hh & E & _). unfold visit_function. rewrite E.
  cbn [mbind panics_mbind panics_bind]. apply (visit_params_spec m (fhi_parameters h)) in HP.
  set (P' := λ i, P i ∨ ∃ sig, sig ∈ fhi_parameters h ∧ takes_struct m sig i) in HP.
  destruct (fold_panics_inv (visit_pack m) (λ before s',
      marked n (λ i, P' i ∨ ∃ code, code ∈ before ∧ packs_struct m code i) s'.1 ∧
      marked k (λ i, Q i ∨ ∃ code, code ∈ before ∧ packs_enum m code i) s'.2)
    (default [] (fd_code f)) (foldl (λ v sig, visit_param m sig v) s.1 (fhi_parameters h), s.2)) as (s' & E' & H1 & H2).
  - split; (eapply marked_ext; [|eassumption]); intros i; (split; [by left|]); by intros [?|(? & ?%elem_of_nil & _)].
  - intros before code s' Hc [H1 H2]. assert (code ∈ code_of m) as Hcm.
    { unfold code_of. apply list_elem_of_In, in_flat_map. exists f. by rewrite <-!list_elem_of_In. }
    destruct (visit_pack_spec m code n k _ _ s' (wf_code _ Hw _ Hcm) Hn Hk H1 H2) as (s1 & E1 & H3 & H4).
    exists s1. split; [done|]. split; (eapply marked_ext; [|eassumption]); intros i; simpl;
      setoid_rewrite elem_of_app; setoid_rewrite list_elem_of_singleton; naive_solver.
  - exists s'. split; [done|]. split; [|done]. eapply marked_ext; [|exact H1]. intros i. unfold P', fn_uses_struct. simpl. split.
    + intros [[?|(sig & ? & ?)]|?]; [by left|right; left; by exists h, sig|right; by right].
    + intros [?|[(h' & sig & Hh' & ? & ?)|?]]; [by left; left| |by right]. left. right. exists sig. by simplify_eq.
Qed.
(** The structs that are reported are those no instruction packs and no
    function of the module takes by value, the enums those no instruction
    packs a variant of; both in order, without a panic. *)
Theorem unused_datatypes_exact m : wf_file m → ∃ structs enums, unused_datatypes m = Ret (structs, enums) ∧
  StronglySorted lt structs ∧ StronglySorted lt enums ∧
  (∀ i, i ∈ structs ↔ i < length (mf_struct_defs m) ∧ ¬ ∃ f, f ∈ mf_function_defs m ∧ fn_uses_struct m f i) ∧
  (∀ i, i ∈ enums ↔ i < mf_enum_defs m ∧ ¬ ∃ f, f ∈ mf_function_defs m ∧ fn_uses_enum m f i).
Proof.
  intros Hw. unfold unused_datatypes.
  destruct (fold_panics_inv (visit_function m) (λ before s,
      marked (length (mf_struct_defs m)) (λ i, ∃ f, f ∈ before ∧ fn_uses_struct m f i) s.1 ∧
      marked (mf_enum_defs m) (λ i, ∃ f, f ∈ before ∧ fn_uses_enum m f i) s.2)
    (mf_function_defs m) (replicate (length (mf_struct_defs m)) false, replicate (mf_enum_defs m) false))
    as (s & -> & H1 & H2).
  - split; (eapply marked_ext, marked_none); intros i; (split; [done|]); by intros (? & ?%elem_of_nil & _).
  - intros before f s Hf [H1 H2].
    destruct (visit_function_spec m f _ _ _ _ s Hw Hf eq_refl eq_refl H1 H2) as (s' & E & H3 & H4).
    exists s'. split; [done|]. split; (eapply marked_ext; [|eassumption]); intros i; simpl;
      setoid_rewrite elem_of_app; setoid_rewrite list_elem_of_singleton; naive_solver.
  - apply unvisited_spec in H1 as [Hs1 H1], H2 as [Hs2 H2]. exists (unvisited s.1), (unvisited s.2). done.
Qed.

(** ** Witnesses: a module with two dependencies that share one, and one that
    has everything to report *)
Definition demo_id (n : string) : MoveModuleId := MkModuleId (MkMoveAddress 7) n.
Definition demo_deps (n : string) (deps : list string) : ModuleFile :=
  MkFile (demo_id n) (map demo_id deps) [] [] [] [] 0 [] [] [] [].
Definition demo_modules : list ModuleFile :=
  [demo_deps "a" []; demo_deps "b" ["a"]; demo_deps "c" ["a"; "gone"]; demo_deps "d" ["b"; "c"]].
#[local] Instance module_objects : ObjectLib :=
  {| Object := list ModuleFile; obj_id _ := MkMoveAddress 7; obj_version _ := 0%N |}.
Definition demo_get (a : MoveAddress) : option (Object (ObjectLib := module_objects)) :=
  if decide (a = MkMoveAddress 7) then Some demo_modules else None.
Definition demo_read (o : Object (ObjectLib := module_objects)) (n : string) : option ModuleFile :=
  snd <$> list_find (λ m, module_name (mf_id m) = n) o.
Abbreviation demo_fetch := (fetch_compiled_module demo_get (λ _, true) demo_read).
Definition demo_root : ModuleFile := demo_deps "d" ["b"; "c"].
Definition demo_ids : gset MoveModuleId := list_to_set (map mf_id demo_modules).

Lemma demo_fetch_in d m : demo_fetch d = Some m → m ∈ demo_modules ∧ mf_id m = d.
Proof.
  unfold fetch_compiled_module, demo_get. destruct d as [a n]. cbn [module_address module_name].
  case_decide as Ha; [subst a|done]. unfold demo_read. cbn [mbind option_bind].
  destruct (list_find _ demo_modules) as [[i x]|] eqn:E; [|done]. simpl. intros [= ->].
  apply list_find_Some in E as (Hi & Hn & _). apply list_elem_of_lookup_2 in Hi. split; [done|].
  unfold demo_modules in Hi. rewrite !elem_of_cons, elem_of_nil in Hi. rewrite <-Hn.
  destruct Hi as [->|[->|[->|[->|[]]]]]; reflexivity.
Qed.
Lemma collect_modules_ordered_witness :
  collect_modules demo_get (λ _, true) demo_read 5 demo_root =
    Some [demo_deps "a" []; demo_deps "b" ["a"]; demo_deps "c" ["a"; "gone"]; demo_root] ∧
  deps_first demo_get (λ _, true) demo_read
    [demo_deps "a" []; demo_deps "b" ["a"]; demo_deps "c" ["a"; "gone"]; demo_root].
Proof.
  assert (∀ m, known demo_get (λ _, true) demo_read demo_root m → m ∈ demo_modules) as Hin.
  { intros m [->|H%demo_fetch_in]; [unfold demo_modules, demo_root; set_solver|apply H]. }
  destruct (collect_modules_ordered demo_get (λ _, true) demo_read (λ d m H, proj2 (demo_fetch_in d m H)) demo_root demo_ids)
    as (l & E & _ & _ & _ & Ho).
  - intros m Hm%Hin. unfold demo_ids. apply elem_of_list_to_set, list_elem_of_fmap. by exists m.
  - assert (collect_modules demo_get (λ _, true) demo_read 5 demo_root =
      Some [demo_deps "a" []; demo_deps "b" ["a"]; demo_deps "c" ["a"; "gone"]; demo_root]) as Ec by (vm_compute; reflexivity).
    split; [exact Ec|]. assert (size demo_ids = 4) as Es by (vm_compute; reflexivity). rewrite Es, Ec in E.
    apply (inj Some) in E. rewrite E.
    apply (Ho (λ i, if decide (module_name i = "a"%string) then 0 else if decide (module_name i = "d"%string) then 2 else 1)).
    intros m d Hm%Hin Hd [x Hx%demo_fetch_in]. destruct Hx as [Hx <-].
    unfold demo_modules in Hm, Hx. rewrite !elem_of_cons, elem_of_nil in Hm, Hx.
    destruct Hm as [->|[->|[->|[->|[]]]]]; simpl in Hd; rewrite ?elem_of_cons, elem_of_nil in Hd;
      destruct Hx as [->|[->|[->|[->|[]]]]]; simpl in Hd;
        repeat (destruct Hd as [Hd|Hd]); try discriminate Hd; try destruct Hd; vm_compute; lia.
Defined.

Definition demo_module : ModuleFile := {|
  mf_id := demo_id "m"; mf_dependencies := [];
  mf_handles := [MkHandleInfo (demo_id "m") "init" []; MkHandleInfo (demo_id "m") "used" [PT_Datatype 0];
    MkHandleInfo (demo_id "m") "lost" [PT_Other]; MkHandleInfo (demo_id "m") "kin" []];
  mf_function_defs := [MkFunctionDef 0 Private false (Some [FB_LdConst 0; FB_Call 1]); MkFunctionDef 1 Private false (Some [FB_Pack 1]);
    MkFunctionDef 2 Private false None; MkFunctionDef 3 Friend false (Some [FB_PackVariant 0])];
  mf_function_insts := []; mf_struct_defs := [0%N; 1%N; 2%N]; mf_enum_defs := 2; mf_struct_insts := [];
  mf_variant_handles := [1%N]; mf_variant_insts := []; mf_constants := [Some "1"%string; Some "2"%string] |}.
Lemma demo_module_ok : wf_file demo_module.
Proof.
  split.
  - intros code Hc. unfold code_of, demo_module in Hc. simpl in Hc. rewrite !elem_of_cons, elem_of_nil in Hc.
    destruct Hc as [->|[->|[->|[->|[]]]]]; simpl; [lia|by eexists|lia|]. eexists. split; [done|]. simpl. lia.
  - intros f Hf. simpl in Hf. rewrite !elem_of_cons, elem_of_nil in Hf. destruct Hf as [->|[->|[->|[->|[]]]]]; by eexists.
Qed.
Lemma unused_constants_exact_witness :
  unused_constants demo_module = Ret (Ok ["2"%string]) ∧ FB_LdConst 1 ∉ code_of demo_module.
Proof.
  destruct (unused_constants_exact demo_module demo_module_ok) as (r & idxs & E & _ & Hi & Hr).
  assert (unused_constants demo_module = Ret (Ok ["2"%string])) as Ec by (vm_compute; reflexivity).
  split; [exact Ec|]. rewrite Ec in E. injection E as <-.
  apply Forall2_cons_inv_r in Hr as (i & l' & Hv & Hn & ->). apply Forall2_nil_inv_r in Hn as ->.
  destruct i as [|[|i]]; [discriminate|apply (Hi 1); by left|discriminate].
Defined.
Lemma unused_functions_exact_witness :
  (friends ← friends_of [("m"%string, demo_module)];
   unused_fun_modules module_name (λ _, "7"%string) (MkMoveAddress 7) [("m"%string, demo_module)] friends) =
  Ret (private_report module_name (λ _, "7"%string) (MkMoveAddress 7) "m" {[ MkFunctionIdent (demo_id "m") "lost" ]} ++
       friend_report module_name (λ _, "7"%string) (MkMoveAddress 7) {[ MkFunctionIdent (demo_id "m") "kin" ]}) ∧
  ¬ calls_fn demo_module (MkFunctionIdent (demo_id "m") "kin").
Proof.
  destruct (unused_functions_exact module_name (λ _, "7"%string) (MkMoveAddress 7) [("m"%string, demo_module)])
    as (privates & friends & E & Hp & Hf); [apply Forall_singleton, demo_module_ok|].
  assert (∀ c, calls_fn demo_module c → c = MkFunctionIdent (demo_id "m") "used") as Hcalls.
  { intros c (code & Hc & Ec). unfold code_of in Hc. simpl in Hc. rewrite !elem_of_cons, elem_of_nil in Hc.
    destruct Hc as [->|[->|[->|[->|[]]]]]; simpl in Ec; congruence. }
  split; [vm_compute; reflexivity|]. by intros ?%Hcalls.
Defined.
Lemma unused_datatypes_exact_witness :
  unused_datatypes demo_module = Ret ([2], [0]) ∧ ¬ (∃ f, f ∈ mf_function_defs demo_module ∧ fn_uses_struct demo_module f 2).
Proof.
  destruct (unused_datatypes_exact demo_module demo_module_ok) as (structs & enums & E & _ & _ & Hs & _).
  assert (unused_datatypes demo_module = Ret ([2], [0])) as Ec by (vm_compute; reflexivity).
  split; [exact Ec|]. rewrite Ec in E. injection E as <- <-. apply (Hs 2). by left.
Defined.
