(* ===== verification/Binary.v ===== *)
(** * Binary: the ABI of a compiled module

    The construction of ABIs in [crates/movy-types/src/abi.rs] and the calls
    found in bytecode ([bytecode.rs]), over the tables of
    [move_binary_format::CompiledModule] that they read. An index out of range
    panics, like the accessors of that crate. *)
From S2P Require Import Prelude Types FuzzTracer Abi Compile.

(** ** The tables *)
#[local] Unset Elimination Schemes.
Inductive SignatureToken :=
| ST_Bool | ST_U8 | ST_U16 | ST_U32 | ST_U64 | ST_U128 | ST_U256 | ST_Address | ST_Signer
| ST_Vector (inner : SignatureToken)
| ST_Datatype (idx : N)
| ST_DatatypeInstantiation (idx : N) (insts : list SignatureToken)
| ST_TypeParameter (idx : N)
| ST_Reference (inner : SignatureToken)
| ST_MutableReference (inner : SignatureToken).
#[local] Set Elimination Schemes.

(** No signature inside. *)
Definition flat_signature (t : SignatureToken) : Prop :=
  match t with
  | ST_Vector _ | ST_DatatypeInstantiation _ _ | ST_Reference _ | ST_MutableReference _ => False
  | _ => True
  end.
Section signature_ind.
  Variable P : SignatureToken → Prop.
  Hypothesis Hflat : ∀ t, flat_signature t → P t.
  Hypothesis Hvec : ∀ t, P t → P (ST_Vector t).
  Hypothesis Hinst : ∀ i insts, Forall P insts → P (ST_DatatypeInstantiation i insts).
  Hypothesis Href : ∀ t, P t → P (ST_Reference t).
  Hypothesis Hmut : ∀ t, P t → P (ST_MutableReference t).

Fixpoint SignatureToken_ind (t : SignatureToken) : P t :=
    match t with
    | ST_Vector inner => Hvec inner (SignatureToken_ind inner)
    | ST_DatatypeInstantiation i insts => Hinst i insts
        ((fix go (l : list SignatureToken) : Forall P l :=
            match l with
            | [] => Forall_nil_2 P
            | x :: l' => Forall_cons_2 P x l' (SignatureToken_ind x) (go l')
            end) insts)
    | ST_Reference inner => Href inner (SignatureToken_ind inner)
    | ST_MutableReference inner => Hmut inner (SignatureToken_ind inner)
    | t => Hflat t I
    end.
End signature_ind.

Inductive Visibility := V_Private | V_Public | V_Friend.
Record DatatypeTyParameter := MkTyParameter { dp_constraints : AbilitySet; dp_is_phantom : bool }.
Record DatatypeHandle := MkDatatypeHandle {
  dh_module : N; dh_name : N; dh_abilities : AbilitySet; dh_type_parameters : list DatatypeTyParameter }.
Record FnHandle := MkFnHandle {
  nh_module : N; nh_name : N; nh_parameters : N; nh_return : N; nh_type_parameters : list AbilitySet }.
Record FieldDefinition := MkField { fdn_name : N; fdn_signature : SignatureToken }.
(** The fields of a native struct are [None]. *)
Record StructDefinition := MkStructDef { sd_handle : N; sd_fields : option (list FieldDefinition) }.
Inductive CallCode := CC_Call (handle : N) | CC_CallGeneric (inst : N) | CC_Other.
Record FnDefinition := MkFnDef {
  nd_function : N; nd_visibility : Visibility; nd_is_entry : bool; nd_code : option (list CallCode) }.
(** A function instantiation is a handle and a signature. *)
Record BinaryModule := MkBinary {
  bm_self : N; bm_module_handles : list ModuleHandle; bm_datatype_handles : list DatatypeHandle;
  bm_function_handles : list FnHandle; bm_function_insts : list (N * N); bm_signatures : list (list SignatureToken);
  bm_identifiers : list string; bm_address_identifiers : list MoveAddress;
  bm_struct_defs : list StructDefinition; bm_function_defs : list FnDefinition }.

Section module.
Context (module : BinaryModule).
Definition identifier_at (i : N) : panics string := at_index (bm_identifiers module) i.
Definition signature_at (i : N) : panics (list SignatureToken) := at_index (bm_signatures module) i.
Definition function_handle_at (i : N) : panics FnHandle := at_index (bm_function_handles module) i.
Definition module_handle_at (i : N) : panics ModuleHandle := at_index (bm_module_handles module) i.

(** ** Handles *)
Definition ty_parameters_from (value : DatatypeTyParameter) : MoveStructTypeParameters :=
  {| tp_constraints := ability_from_set (dp_constraints value); tp_phantom := dp_is_phantom value |}.
Definition from_module_handle (handle : ModuleHandle) : panics MoveModuleId :=
  module_address ← at_index (bm_address_identifiers module) (mh_address handle);
  name ← identifier_at (mh_name handle);
  Ret (MkModuleId module_address name).
Definition from_module_idx (idx : N) : panics MoveStructHandle :=
  dty ← at_index (bm_datatype_handles module) idx;
  sname ← identifier_at (dh_name dty);
  struct_module ← module_handle_at (dh_module dty);
  module_id ← at_index (bm_address_identifiers module) (mh_address struct_module);
  module_name ← identifier_at (mh_name struct_module);
  Ret (MkStructHandle (MkModuleId module_id module_name) sname (ability_from_set (dh_abilities dty))
    (map ty_parameters_from (dh_type_parameters dty))).

(** ** Types *)
Fixpoint from_sui_token_module (tys : list MoveAbility) (value : SignatureToken) : panics MoveAbiSignatureToken :=
  match value with
  | ST_Address => Ret Tok_Address
  | ST_Bool => Ret Tok_Bool
  | ST_Signer => Ret Tok_Signer
  | ST_U8 => Ret Tok_U8 | ST_U16 => Ret Tok_U16 | ST_U32 => Ret Tok_U32
  | ST_U64 => Ret Tok_U64 | ST_U128 => Ret Tok_U128 | ST_U256 => Ret Tok_U256
  | ST_Vector v => v ← from_sui_token_module tys v; Ret (Tok_Vector v)
  | ST_Datatype dty => st ← from_module_idx dty; Ret (Tok_Struct st)
  | ST_DatatypeInstantiation dty insts =>
      st ← from_module_idx dty;
      insts ← mapM (from_sui_token_module tys) insts;
      Ret (Tok_StructInstantiation st insts)
  | ST_TypeParameter ty => ability ← unwrap (tys !! N.to_nat ty); Ret (Tok_TypeParameter ty ability)
  | ST_Reference r => r ← from_sui_token_module tys r; Ret (Tok_Reference r)
  | ST_MutableReference r => r ← from_sui_token_module tys r; Ret (Tok_MutableReference r)
  end.

(** ** Structs *)
Definition field_from (tys : list MoveAbility) (fd : FieldDefinition) : panics MoveStructField :=
  ty ← from_sui_token_module tys (fdn_signature fd);
  name ← identifier_at (fdn_name fd);
  Ret {| sf_name := name; sf_ty := ty |}.
Definition struct_from_module_def (def : StructDefinition) : panics MoveStructAbi :=
  handle ← from_module_idx (sd_handle def);
  fields ← mapM (field_from (map tp_constraints (sh_type_parameters handle))) (default [] (sd_fields def));
  Ret {| sa_handle := handle; sa_fields := fields |}.

(** ** Functions *)
Definition visibility_from (value : Visibility) : MoveFunctionVisibility :=
  match value with V_Friend => Friend | V_Public => Public | V_Private => Private end.
Definition from_module_function_handle_visibility (fdecl : FnHandle) (vis : MoveFunctionVisibility) :
    panics MoveFunctionAbi :=
  let ftys := map ability_from_set (nh_type_parameters fdecl) in
  fname ← identifier_at (nh_name fdecl);
  fparameters ← signature_at (nh_parameters fdecl);
  freturns ← signature_at (nh_return fdecl);
  parameters ← mapM (from_sui_token_module ftys) fparameters;
  returns ← mapM (from_sui_token_module ftys) freturns;
  Ret {| fa_name := fname; fa_parameters := parameters; fa_return_paramters := returns;
         fa_type_parameters := ftys; fa_visibility := vis; fa_is_entry := false |}.
Definition set_entry (b : bool) (abi : MoveFunctionAbi) : MoveFunctionAbi :=
  {| fa_name := fa_name abi; fa_parameters := fa_parameters abi; fa_return_paramters := fa_return_paramters abi;
     fa_type_parameters := fa_type_parameters abi; fa_visibility := fa_visibility abi; fa_is_entry := b |}.
Definition fn_from_module_def (fdef : FnDefinition) : panics MoveFunctionAbi :=
  fdecl ← function_handle_at (nd_function fdef);
  abi ← from_module_function_handle_visibility fdecl (visibility_from (nd_visibility fdef));
  Ret (set_entry (nd_is_entry fdef) abi).

(** ** The module *)
Definition binary_self_id : panics MoveModuleId :=
  self ← module_handle_at (bm_self module); from_module_handle self.
Definition module_from_sui_module : panics MoveModuleAbi :=
  id ← binary_self_id;
  structs ← mapM struct_from_module_def (bm_struct_defs module);
  functions ← mapM fn_from_module_def (bm_function_defs module);
  Ret {| ma_module_id := id; ma_structs := structs; ma_functions := functions |}.
End module.

(** ** The package *)
Definition from_sui_id_and_modules (id : MoveAddress) (modules : list BinaryModule) : panics (result MovePackageAbi) :=
  modules ← mapM module_from_sui_module modules;
  Ret (Ok {| pa_package_id := id; pa_modules := modules |}).
Section package.
(** A serialised module, and its deserialiser. *)
Context {Bytes : Type} (deserialize_with_defaults : Bytes → result BinaryModule).
(** The id and the serialised modules, by name, of a package object. *)
Fixpoint deserialize_all (l : list Bytes) : result (list BinaryModule) :=
  match l with
  | [] => Ok []
  | b :: l => m ← deserialize_with_defaults b; l ← deserialize_all l; Ok (m :: l)
  end.
Definition from_sui_package (id : MoveAddress) (serialized_module_map : list (string * Bytes)) :
    panics (result MovePackageAbi) :=
  match deserialize_all (map snd serialized_module_map) with
  | Ok modules => from_sui_id_and_modules id modules
  | Err => Ret Err
  end.
(** The argument is [try_as_package] of the object. *)
Definition package_from_sui_object (package : option (MoveAddress * list (string * Bytes))) :
    panics (result MovePackageAbi) :=
  match package with
  | Some (id, modules) => from_sui_package id modules
  | None => Ret Err
  end.
End package.

(** ** Calls in bytecode *)
Record MoveFunctionCall := MkFunctionCall {
  fc_module : MoveModuleId; fc_abi : MoveFunctionAbi; fc_tys : list MoveAbiSignatureToken }.
Record MoveModuleBytecodeAnalysis := MkBytecodeAnalysis {
  ba_abi : MoveModuleAbi; ba_calls : list (MoveFunctionAbi * list MoveFunctionCall) }.

Section calls.
(** [CompiledModule::find_function_def_by_name] *)
Context (find_function_def_by_name : BinaryModule → string → option FnDefinition).
Context (module : BinaryModule).

Definition handle_fcall (fcall : FnHandle) : panics MoveFunctionAbi :=
  fcall_function ← identifier_at module (nh_name fcall);
  fcall_module ← module_handle_at module (nh_module fcall);
  id ← from_module_handle module fcall_module;
  self ← binary_self_id module;
  if decide (id = self) then
    match find_function_def_by_name module fcall_function with
    | Some fdef => fn_from_module_def module fdef
    | None => from_module_function_handle_visibility module fcall Public
    end
  else from_module_function_handle_visibility module fcall Public.

(** The call an instruction makes; [tys] are those of the caller. *)
Definition call_of (tys : list MoveAbility) (bytecode : CallCode) : panics (option MoveFunctionCall) :=
  match bytecode with
  | CC_Call call =>
      fcall ← function_handle_at module call;
      abi ← handle_fcall fcall;
      target_module ← module_handle_at module (nh_module fcall);
      target_module_id ← from_module_handle module target_module;
      Ret (Some (MkFunctionCall target_module_id abi []))
  | CC_CallGeneric inst =>
      inst ← at_index (bm_function_insts module) inst;
      fcall ← function_handle_at module inst.1;
      abi ← handle_fcall fcall;
      sig ← signature_at module inst.2;
      tys ← mapM (from_sui_token_module module tys) sig;
      target_module ← module_handle_at module (nh_module fcall);
      target_module_id ← from_module_handle module target_module;
      Ret (Some (MkFunctionCall target_module_id abi tys))
  | CC_Other => Ret None
  end.
Fixpoint calls_loop (tys : list MoveAbility) (code : list CallCode) : panics (list MoveFunctionCall) :=
  match code with
  | [] => Ret []
  | bytecode :: code =>
      call ← call_of tys bytecode;
      rest ← calls_loop tys code;
      Ret (option_list call ++ rest)
  end.
Definition calls_of (func : FnDefinition) : panics (MoveFunctionAbi * list MoveFunctionCall) :=
  caller_func ← fn_from_module_def module func;
  caller_calls ← calls_loop (fa_type_parameters caller_func) (default [] (nd_code func));
  Ret (caller_func, caller_calls).
Definition bytecode_from_sui_module : panics MoveModuleBytecodeAnalysis :=
  abi ← module_from_sui_module module;
  calls ← mapM calls_of (bm_function_defs module);
  Ret (MkBytecodeAnalysis abi calls).
End calls.
