(* ===== verification/BinarySpec.v ===== *)
(** * BinarySpec: what the ABI says of the tables

    For a module whose indices are in range - the bounds check of the Move
    verifier - the ABI is built without a panic and describes every definition
    in order; its tokens determine the signatures they were made from. *)
From S2P Require Import Prelude Types FuzzTracer Abi Compile Binary.

Section binary.
Context (m : BinaryModule).

(** ** Indices in range *)
Definition ident_in (i : N) : Prop := is_Some (bm_identifiers m !! N.to_nat i).
Definition handle_in (h : ModuleHandle) : Prop :=
  is_Some (bm_address_identifiers m !! N.to_nat (mh_address h)) ∧ ident_in (mh_name h).
Definition module_in (i : N) : Prop := ∃ h, bm_module_handles m !! N.to_nat i = Some h ∧ handle_in h.
Definition datatype_in (i : N) : Prop :=
  ∃ d, bm_datatype_handles m !! N.to_nat i = Some d ∧ ident_in (dh_name d) ∧ module_in (dh_module d).
(** [n] type parameters are declared. *)
Fixpoint token_in (n : nat) (t : SignatureToken) : Prop :=
  match t with
  | ST_Vector t | ST_Reference t | ST_MutableReference t => token_in n t
  | ST_Datatype i => datatype_in i
  | ST_DatatypeInstantiation i insts => datatype_in i ∧ foldr (λ t P, token_in n t ∧ P) True insts
  | ST_TypeParameter i => N.to_nat i < n
  | _ => True
  end.
Definition signature_in (n : nat) (i : N) : Prop :=
  ∃ ts, bm_signatures m !! N.to_nat i = Some ts ∧ Forall (token_in n) ts.
Definition fn_handle_in (i : N) : Prop := ∃ h, bm_function_handles m !! N.to_nat i = Some h ∧
  ident_in (nh_name h) ∧ module_in (nh_module h) ∧
  signature_in (length (nh_type_parameters h)) (nh_parameters h) ∧ signature_in (length (nh_type_parameters h)) (nh_return h).
Definition struct_in (def : StructDefinition) : Prop :=
  ∃ d, bm_datatype_handles m !! N.to_nat (sd_handle def) = Some d ∧ ident_in (dh_name d) ∧ module_in (dh_module d) ∧
  Forall (λ fd, token_in (length (dh_type_parameters d)) (fdn_signature fd) ∧ ident_in (fdn_name fd)) (default [] (sd_fields def)).
Definition code_in (n : nat) (code : CallCode) : Prop :=
  match code with
  | CC_Call i => fn_handle_in i
  | CC_CallGeneric i => ∃ inst, bm_function_insts m !! N.to_nat i = Some inst ∧ fn_handle_in inst.1 ∧ signature_in n inst.2
  | CC_Other => True
  end.
Definition fn_in (def : FnDefinition) : Prop := ∃ h, bm_function_handles m !! N.to_nat (nd_function def) = Some h ∧
  fn_handle_in (nd_function def) ∧ Forall (code_in (length (nh_type_parameters h))) (default [] (nd_code def)).
Record wf_binary : Prop := MkWfBinary {
  wb_self : module_in (bm_self m);
  wb_structs : Forall struct_in (bm_struct_defs m);
  wb_functions : Forall fn_in (bm_function_defs m) }.

(** ** What describes what *)
Definition names_module (i : N) (id : MoveModuleId) : Prop := ∃ h, bm_module_handles m !! N.to_nat i = Some h ∧
  bm_address_identifiers m !! N.to_nat (mh_address h) = Some (module_address id) ∧
  bm_identifiers m !! N.to_nat (mh_name h) = Some (module_name id).
Definition names_datatype (i : N) (st : MoveStructHandle) : Prop := ∃ d, bm_datatype_handles m !! N.to_nat i = Some d ∧
  bm_identifiers m !! N.to_nat (dh_name d) = Some (sh_struct_name st) ∧ names_module (dh_module d) (sh_module_id st) ∧
  sh_abilities st = ability_from_set (dh_abilities d) ∧ sh_type_parameters st = map ty_parameters_from (dh_type_parameters d).
Fixpoint describes (tys : list MoveAbility) (s : SignatureToken) (t : MoveAbiSignatureToken) : Prop :=
  match s, t with
  | ST_Bool, Tok_Bool | ST_U8, Tok_U8 | ST_U16, Tok_U16 | ST_U32, Tok_U32 | ST_U64, Tok_U64 | ST_U128, Tok_U128
  | ST_U256, Tok_U256 | ST_Address, Tok_Address | ST_Signer, Tok_Signer => True
  | ST_Vector s, Tok_Vector t | ST_Reference s, Tok_Reference t | ST_MutableReference s, Tok_MutableReference t =>
      describes tys s t
  | ST_Datatype i, Tok_Struct st => names_datatype i st
  | ST_DatatypeInstantiation i l, Tok_StructInstantiation st l' => names_datatype i st ∧
      (fix go l l' := match l, l' with
                      | [], [] => True | s :: l, t :: l' => describes tys s t ∧ go l l' | _, _ => False end) l l'
  | ST_TypeParameter i, Tok_TypeParameter j a => i = j ∧ tys !! N.to_nat i = Some a
  | _, _ => False
  end.

Lemma describes_inst tys i l st l' :
  describes tys (ST_DatatypeInstantiation i l) (Tok_StructInstantiation st l') ↔ names_datatype i st ∧ Forall2 (describes tys) l l'.
Proof.
  simpl. apply and_iff_compat_l. revert l'. induction l as [|s l IH]; intros [|t l']; simpl.
  - split; constructor.
  - split; [done|inversion 1].
  - split; [done|inversion 1].
  - rewrite Forall2_cons. by rewrite IH.
Qed.
Lemma token_in_insts n i l : token_in n (ST_DatatypeInstantiation i l) ↔ datatype_in i ∧ Forall (token_in n) l.
Proof. simpl. apply and_iff_compat_l. induction l; simpl; [split; constructor|]. rewrite Forall_cons. tauto. Qed.

Definition fn_describes (def : FnDefinition) (f : MoveFunctionAbi) : Prop :=
  ∃ h ps rs, bm_function_handles m !! N.to_nat (nd_function def) = Some h ∧
    bm_identifiers m !! N.to_nat (nh_name h) = Some (fa_name f) ∧
    bm_signatures m !! N.to_nat (nh_parameters h) = Some ps ∧ bm_signatures m !! N.to_nat (nh_return h) = Some rs ∧
    fa_type_parameters f = map ability_from_set (nh_type_parameters h) ∧
    Forall2 (describes (fa_type_parameters f)) ps (fa_parameters f) ∧
    Forall2 (describes (fa_type_parameters f)) rs (fa_return_paramters f) ∧
    fa_visibility f = visibility_from (nd_visibility def) ∧ fa_is_entry f = nd_is_entry def.
Definition field_describes (tys : list MoveAbility) (fd : FieldDefinition) (f : MoveStructField) : Prop :=
  describes tys (fdn_signature fd) (sf_ty f) ∧ bm_identifiers m !! N.to_nat (fdn_name fd) = Some (sf_name f).
Definition struct_describes (def : StructDefinition) (s : MoveStructAbi) : Prop := names_datatype (sd_handle def) (sa_handle s) ∧
  Forall2 (field_describes (map tp_constraints (sh_type_parameters (sa_handle s)))) (default [] (sd_fields def)) (sa_fields s).

(** ** No panic *)
Lemma at_index_Some {A} (l : list A) i x : l !! N.to_nat i = Some x → at_index l i = Ret x.
Proof. unfold at_index. by intros ->. Qed.
Lemma handle_named_in h : handle_in h → ∃ id, from_module_handle m h = Ret id ∧
  bm_address_identifiers m !! N.to_nat (mh_address h) = Some (module_address id) ∧
  bm_identifiers m !! N.to_nat (mh_name h) = Some (module_name id).
Proof.
  intros [[a Ha] [n Hn]]. exists (MkModuleId a n). unfold from_module_handle, identifier_at.
  by rewrite (at_index_Some _ _ _ Ha), (at_index_Some _ _ _ Hn).
Qed.
Lemma datatype_named i : datatype_in i → ∃ st, from_module_idx m i = Ret st ∧ names_datatype i st.
Proof.
  intros (d & Hd & [n Hn] & h & Hh & [a Ha] & [mn Hmn]). unfold from_module_idx, identifier_at, module_handle_at.
  rewrite (at_index_Some _ _ _ Hd). cbn [mbind panics_mbind panics_bind]. rewrite (at_index_Some _ _ _ Hn).
  cbn [mbind panics_mbind panics_bind]. rewrite (at_index_Some _ _ _ Hh). cbn [mbind panics_mbind panics_bind].
  rewrite (at_index_Some _ _ _ Ha), (at_index_Some _ _ _ Hmn). eexists. split; [reflexivity|].
  exists d. split_and!; [done..| |done|done]. by exists h.
Qed.
Lemma token_described tys t : token_in (length tys) t → ∃ t', from_sui_token_module m tys t = Ret t' ∧ describes tys t t'.
Proof.
  induction t as [t Hf|t IH|i l IH|t IH|t IH] using SignatureToken_ind.
  - destruct t as [| | | | | | | | |?|i|? ?|i|?|?]; try done; simpl; try (intros _; by eexists).
    + intros (st & -> & Hn)%datatype_named. by eexists.
    + intros [a Ha]%lookup_lt_is_Some_2. rewrite Ha. by eexists.
  - intros (t' & E & Ht)%IH. simpl. rewrite E. by eexists.
  - rewrite token_in_insts. intros [(st & E & Hn)%datatype_named Hl]. simpl. rewrite E. cbn [mbind panics_mbind panics_bind].
    destruct (mapM_returns (from_sui_token_module m tys) (describes tys) l) as (l' & -> & Hl').
    { rewrite Forall_forall in IH, Hl |- *. intros x Hx. by apply IH, Hl. }
    eexists. split; [reflexivity|]. by apply describes_inst.
  - intros (t' & E & Ht)%IH. simpl. rewrite E. by eexists.
  - intros (t' & E & Ht)%IH. simpl. rewrite E. by eexists.
Qed.
Lemma tokens_described tys n l : n = length tys → Forall (token_in n) l →
  ∃ l', mapM (from_sui_token_module m tys) l = Ret l' ∧ Forall2 (describes tys) l l'.
Proof. intros -> Hl. apply mapM_returns. eapply Forall_impl; [exact Hl|]. intros t. apply token_described. Qed.

Lemma fn_handle_described h i vis : bm_function_handles m !! N.to_nat i = Some h → fn_handle_in i →
  ∃ f, from_module_function_handle_visibility m h vis = Ret f ∧ fa_visibility f = vis ∧ fa_is_entry f = false ∧
    ∀ def, nd_function def = i → visibility_from (nd_visibility def) = vis → fn_describes def (set_entry (nd_is_entry def) f).
Proof.
  intros Hh (h' & Hh' & [n Hn] & _ & (ps & Hps & Hp) & (rs & Hrs & Hr)). simplify_eq.
  unfold from_module_function_handle_visibility, identifier_at, signature_at.
  rewrite (at_index_Some _ _ _ Hn). cbn [mbind panics_mbind panics_bind]. rewrite (at_index_Some _ _ _ Hps).
  cbn [mbind panics_mbind panics_bind]. rewrite (at_index_Some _ _ _ Hrs). cbn [mbind panics_mbind panics_bind].
  destruct (tokens_described (map ability_from_set (nh_type_parameters h)) _ ps (eq_sym (length_map _ _)) Hp) as (ps' & -> & Hps').
  destruct (tokens_described (map ability_from_set (nh_type_parameters h)) _ rs (eq_sym (length_map _ _)) Hr) as (rs' & -> & Hrs').
  eexists. split; [reflexivity|]. split; [done|]. split; [done|]. intros def <- Hvis. exists h, ps, rs. by split_and!.
Qed.
Lemma fn_described def : fn_in def → ∃ f, fn_from_module_def m def = Ret f ∧ fn_describes def f.
Proof.
  intros (h & Hh & Hin & _). unfold fn_from_module_def, function_handle_at. rewrite (at_index_Some _ _ _ Hh).
  cbn [mbind panics_mbind panics_bind].
  destruct (fn_handle_described h _ (visibility_from (nd_visibility def)) Hh Hin) as (f & -> & _ & _ & Hd).
  eexists. split; [reflexivity|]. by apply Hd.
Qed.
Lemma struct_described def : struct_in def → ∃ s, struct_from_module_def m def = Ret s ∧ struct_describes def s.
Proof.
  intros (d & Hd & Hn & Hm & Hf). destruct (datatype_named (sd_handle def)) as (st & E & Hst); [by exists d|].
  unfold struct_from_module_def. rewrite E. cbn [mbind panics_mbind panics_bind].
  destruct (mapM_returns (field_from m (map tp_constraints (sh_type_parameters st)))
    (field_describes (map tp_constraints (sh_type_parameters st))) (default [] (sd_fields def))) as (fs & -> & Hfs).
  - eapply Forall_impl; [exact Hf|]. intros fd [Ht [n Hfn]]. unfold field_from, identifier_at.
    destruct (token_described (map tp_constraints (sh_type_parameters st)) (fdn_signature fd)) as (t & -> & Htt).
    + destruct Hst as (d' & Hd' & _ & _ & _ & ->). simplify_eq. by rewrite !length_map.
    + cbn [mbind panics_mbind panics_bind]. rewrite (at_index_Some _ _ _ Hfn). eexists. split; [reflexivity|]. done.
  - eexists. split; [reflexivity|]. done.
Qed.
Lemma self_named : wf_binary → ∃ id, binary_self_id m = Ret id ∧ names_module (bm_self m) id.
Proof.
  intros [(h & Hh & Hin) _ _]. unfold binary_self_id, module_handle_at. rewrite (at_index_Some _ _ _ Hh).
  cbn [mbind panics_mbind panics_bind]. destruct (handle_named_in h Hin) as (id & -> & ? & ?). exists id. split; [done|]. by exists h.
Qed.
Lemma module_described : wf_binary → ∃ abi, module_from_sui_module m = Ret abi ∧
  binary_self_id m = Ret (ma_module_id abi) ∧ mapM (fn_from_module_def m) (bm_function_defs m) = Ret (ma_functions abi) ∧
  Forall2 struct_describes (bm_struct_defs m) (ma_structs abi) ∧
  Forall2 fn_describes (bm_function_defs m) (ma_functions abi).
Proof.
  intros Hw. destruct (self_named Hw) as (id & E & _). destruct Hw as [_ Hs Hf]. unfold module_from_sui_module. rewrite E.
  destruct (mapM_returns (struct_from_module_def m) struct_describes (bm_struct_defs m)) as (ss & -> & Hss);
    [eapply Forall_impl; [exact Hs|apply struct_described]|].
  destruct (mapM_returns (fn_from_module_def m) fn_describes (bm_function_defs m)) as (fs & -> & Hfs);
    [eapply Forall_impl; [exact Hf|apply fn_described]|].
  eexists. split; [reflexivity|]. done.
Qed.

(** The ABI of a module whose indices are in range is built without a
    panic; it has the module's id, and describes every struct and every
    function of the module, in order, with names, fields, types, visibility
    and the entry mark. *)
Theorem module_abi_exact : wf_binary → ∃ abi, module_from_sui_module m = Ret abi ∧
  names_module (bm_self m) (ma_module_id abi) ∧ Forall2 struct_describes (bm_struct_defs m) (ma_structs abi) ∧
  Forall2 fn_describes (bm_function_defs m) (ma_functions abi).
Proof.
  intros Hw. destruct (module_described Hw) as (abi & E & Eid & _ & Hs & Hf). exists abi. split; [done|].
  destruct (self_named Hw) as (id & Eid' & Hid). split; [congruence|done].
Qed.

(** ** Nothing is lost *)

(** No two datatype handles are of the same name in the same module, as the
    verifier demands. *)
Definition datatypes_distinct : Prop := ∀ i j st st', names_datatype i st → names_datatype j st' →
  sh_module_id st = sh_module_id st' → sh_struct_name st = sh_struct_name st' → i = j.

Lemma describes_inj tys : datatypes_distinct → ∀ s s' t, describes tys s t → describes tys s' t → s = s'.
Proof.
  intros Hd. assert (∀ i j st, names_datatype i st → names_datatype j st → i = j) as Hi by (intros i j st H1 H2; by apply (Hd i j st st)).
  induction s as [s Hf|s IH|i l IH|s IH|s IH] using SignatureToken_ind.
  - destruct s; try done; intros s' t; destruct s', t; simpl; try done; intros; destruct_and?; f_equal; naive_solver.
  - intros s' t; destruct s', t; simpl; try done. intros H1 H2. f_equal. by eapply IH.
  - intros s' t. destruct t; try done. destruct s' as [| | | | | | | | | | |j l'| | |]; try done. rewrite !describes_inst. intros [Hn Hl] [Hn' Hl'].
    f_equal; [by eapply Hi|]. clear Hn Hn'. revert l' insts Hl Hl'. induction IH as [|s l Hs _ IHl]; intros l' insts Hl Hl'.
    + inversion Hl; subst. by inversion Hl'.
    + inversion Hl as [|? t ? ts Ht Hts]; subst. inversion Hl' as [|s' ? l'' ? Ht' Hts']; subst. f_equal; [by eapply Hs|by eapply IHl].
  - intros s' t; destruct s', t; simpl; try done. intros H1 H2. f_equal. by eapply IH.
  - intros s' t; destruct s', t; simpl; try done. intros H1 H2. f_equal. by eapply IH.
Qed.
(** Two signatures of a module that become the same token are the same
    signature, when no two datatype handles are of one datatype. *)
Theorem binary_token_injective tys s s' t : datatypes_distinct → token_in (length tys) s → token_in (length tys) s' →
  from_sui_token_module m tys s = Ret t → from_sui_token_module m tys s' = Ret t → s = s'.
Proof.
  intros Hd Hs Hs' E E'. destruct (token_described tys s Hs) as (t1 & E1 & H1), (token_described tys s' Hs') as (t2 & E2 & H2).
  assert (t1 = t) as -> by congruence. assert (t2 = t) as -> by congruence. by apply (describes_inj tys Hd s s' t).
Qed.

(** ** Calls *)
Section calls.
Context (find_function_def_by_name : BinaryModule → string → option FnDefinition).
(** A definition that is found is one of the module, of that name. *)
Hypothesis find_def : ∀ n def, find_function_def_by_name m n = Some def → def ∈ bm_function_defs m ∧
  ∃ h, bm_function_handles m !! N.to_nat (nd_function def) = Some h ∧ bm_identifiers m !! N.to_nat (nh_name h) = Some n.

(** What the analysis says of a call through a handle. *)
Definition calls_handle (abi : MoveModuleAbi) (i : N) (c : MoveFunctionCall) : Prop :=
  ∃ h, bm_function_handles m !! N.to_nat i = Some h ∧ names_module (nh_module h) (fc_module c) ∧
    bm_identifiers m !! N.to_nat (nh_name h) = Some (fa_name (fc_abi c)) ∧
    (fc_module c = ma_module_id abi → ∀ n, bm_identifiers m !! N.to_nat (nh_name h) = Some n →
      is_Some (find_function_def_by_name m n) → fc_abi c ∈ ma_functions abi) ∧
    (fc_module c ≠ ma_module_id abi → fa_visibility (fc_abi c) = Public ∧ fa_is_entry (fc_abi c) = false).
Definition call_describes (abi : MoveModuleAbi) (tys : list MoveAbility) (code : CallCode) (c : MoveFunctionCall) : Prop :=
  match code with
  | CC_Call i => calls_handle abi i c ∧ fc_tys c = []
  | CC_CallGeneric i => ∃ inst sig, bm_function_insts m !! N.to_nat i = Some inst ∧
      bm_signatures m !! N.to_nat inst.2 = Some sig ∧ calls_handle abi inst.1 c ∧ Forall2 (describes tys) sig (fc_tys c)
  | CC_Other => False
  end.
Definition is_call (code : CallCode) : Prop := code ≠ CC_Other.
#[local] Instance is_call_dec code : Decision (is_call code).
Proof. destruct code; [left|left|right]; unfold is_call; congruence. Defined.

Lemma mapM_elem {A B} (f : A → panics B) l l' x y : mapM f l = Ret l' → x ∈ l → f x = Ret y → y ∈ l'.
Proof.
  revert l'. induction l as [|a l IH]; intros l' H; [by intros ?%not_elem_of_nil|]. cbn [mapM] in H. panics_inv. unfold mret, panics_mret in *. simplify_eq.
  intros [->|Hx]%elem_of_cons E; [assert (y = x0) as -> by congruence; by left|right; by eapply IH].
Qed.

Lemma fcall_described abi i : wf_binary → module_from_sui_module m = Ret abi → fn_handle_in i →
  ∃ h f id, function_handle_at m i = Ret h ∧ handle_fcall find_function_def_by_name m h = Ret f ∧
    (target ← module_handle_at m (nh_module h); from_module_handle m target) = Ret id ∧
    ∀ tys, calls_handle abi i (MkFunctionCall id f tys).
Proof.
  intros Hw Eabi Hi. destruct (module_described Hw) as (abi' & Eabi' & Eself & Efs & _). assert (abi' = abi) as -> by congruence.
  destruct Hi as (h & Hh & Hin). assert (fn_handle_in i) as Hi by (by exists h).
  destruct Hin as ([n Hn] & (mh & Hmh & Hhin) & _). destruct (handle_named_in mh Hhin) as (id & Eid & Ha & Hname).
  assert (names_module (nh_module h) id) as Hid by (by exists mh).
  destruct (fn_handle_described h i Public Hh Hi) as (f & Ef & Hvis & Hentry & _).
  assert (fa_name f = n) as Hfn.
  { unfold from_module_function_handle_visibility, identifier_at in Ef. rewrite (at_index_Some _ _ _ Hn) in Ef. panics_inv. by subst. }
  set (g := if decide (id = ma_module_id abi) then match find_function_def_by_name m n with
                                                   | Some fdef => fn_from_module_def m fdef | None => Ret f end else Ret f).
  assert (handle_fcall find_function_def_by_name m h = g) as Eg.
  { unfold handle_fcall, identifier_at, module_handle_at. rewrite (at_index_Some _ _ _ Hn). cbn [mbind panics_mbind panics_bind].
    rewrite (at_index_Some _ _ _ Hmh). cbn [mbind panics_mbind panics_bind]. rewrite Eid, Eself. cbn [mbind panics_mbind panics_bind].
    unfold g. rewrite Ef. reflexivity. }
  assert (∃ f', g = Ret f' ∧ fa_name f' = n ∧ (id = ma_module_id abi → is_Some (find_function_def_by_name m n) → f' ∈ ma_functions abi) ∧
    (id ≠ ma_module_id abi → f' = f)) as (f' & Ef' & Hn' & Hint & Hext).
  { unfold g. case_decide as Hd; [|by exists f]. destruct (find_function_def_by_name m n) as [def|] eqn:E.
    - destruct (find_def _ _ E) as (Hdef & h' & Hh' & Hnm). destruct Hw as [_ _ Hfs]. rewrite Forall_forall in Hfs.
      destruct (fn_described def (Hfs def Hdef)) as (f' & E' & (h2 & ps & rs & Hh2 & Hn2 & _)). exists f'. simplify_eq.
      split; [done|]. split; [congruence|]. split; [|done]. intros _ _. by apply (mapM_elem _ _ _ def f' Efs).
    - exists f. split; [done|]. split; [done|]. split; [|done]. by intros _ [? [=]]. }
  exists h, f', id. split; [by apply at_index_Some|]. split; [congruence|]. split.
  { unfold module_handle_at. rewrite (at_index_Some _ _ _ Hmh). done. }
  intros tys. exists h. cbn [fc_module fc_abi]. split; [done|]. split; [done|]. split; [by rewrite Hn, Hn'|]. split.
  - intros Hd n' Hn2 Hs. simplify_eq. by apply Hint.
  - intros Hd. rewrite (Hext Hd). done.
Qed.

Lemma call_described abi tys code : wf_binary → module_from_sui_module m = Ret abi → code_in (length tys) code →
  ∃ c, call_of find_function_def_by_name m tys code = Ret c ∧
    match c with Some c => is_call code ∧ call_describes abi tys code c | None => ¬ is_call code end.
Proof.
  intros Hw Eabi Hc. destruct code as [i|i|]; simpl in Hc |- *.
  - destruct (fcall_described abi i Hw Eabi Hc) as (h & f & id & -> & E & Et & Hd). cbn [mbind panics_mbind panics_bind]. rewrite E.
    cbn [mbind panics_mbind panics_bind]. apply panics_bind_Ret in Et as (t & -> & Et). cbn [mbind panics_mbind panics_bind]. rewrite Et.
    eexists. split; [reflexivity|]. split; [done|]. split; [apply Hd|done].
  - destruct Hc as (inst & Hi & Hf & sig & Hs & Hts). rewrite (at_index_Some _ _ _ Hi). cbn [mbind panics_mbind panics_bind].
    destruct (fcall_described abi inst.1 Hw Eabi Hf) as (h & f & id & -> & E & Et & Hd). cbn [mbind panics_mbind panics_bind]. rewrite E.
    unfold signature_at. cbn [mbind panics_mbind panics_bind]. rewrite (at_index_Some _ _ _ Hs). cbn [mbind panics_mbind panics_bind].
    destruct (tokens_described tys _ sig eq_refl Hts) as (ts & -> & Hdd). cbn [mbind panics_mbind panics_bind].
    apply panics_bind_Ret in Et as (t & -> & Et). cbn [mbind panics_mbind panics_bind]. rewrite Et.
    eexists. split; [reflexivity|]. split; [done|]. exists inst, sig. done.
  - eexists. split; [reflexivity|]. unfold is_call. tauto.
Qed.
Lemma calls_described abi tys code : wf_binary → module_from_sui_module m = Ret abi → Forall (code_in (length tys)) code →
  ∃ cs, calls_loop find_function_def_by_name m tys code = Ret cs ∧ Forall2 (call_describes abi tys) (base.filter is_call code) cs.
Proof.
  intros Hw Eabi. induction 1 as [|c code Hc _ (cs & E & Hcs)]; [by exists []|]. cbn [calls_loop].
  destruct (call_described abi tys c Hw Eabi Hc) as (o & -> & Ho). cbn [mbind panics_mbind panics_bind]. rewrite E.
  eexists. split; [reflexivity|]. destruct o as [o|].
  - rewrite filter_cons_True by apply Ho. constructor; [apply Ho|done].
  - by rewrite filter_cons_False.
Qed.

(** C31: the call analysis of a module does not panic; its functions are those
    of the ABI, in order, each with one entry for every call instruction of its
    body, in order: the callee's module, its name, the instantiation of its
    type parameters, and for a function of the module itself the entry of the
    ABI. *)
Theorem bytecode_analysis_exact : wf_binary → ∃ ba, bytecode_from_sui_module find_function_def_by_name m = Ret ba ∧
  module_from_sui_module m = Ret (ba_abi ba) ∧ map fst (ba_calls ba) = ma_functions (ba_abi ba) ∧
  Forall2 (λ def c, Forall2 (call_describes (ba_abi ba) (fa_type_parameters c.1)) (base.filter is_call (default [] (nd_code def))) c.2)
    (bm_function_defs m) (ba_calls ba).
Proof.
  intros Hw. destruct (module_described Hw) as (abi & E & _ & Efs & _). unfold bytecode_from_sui_module. rewrite E.
  cbn [mbind panics_mbind panics_bind].
  destruct (mapM_returns (calls_of find_function_def_by_name m) (λ def c, fn_from_module_def m def = Ret c.1 ∧
    Forall2 (call_describes abi (fa_type_parameters c.1)) (base.filter is_call (default [] (nd_code def))) c.2)
    (bm_function_defs m)) as (calls & -> & Hc).
  - pose proof (wb_functions Hw) as Hfs. eapply Forall_impl; [exact Hfs|]. intros def Hdef.
    destruct (fn_described def Hdef) as (f & Ef & Hd). unfold calls_of. rewrite Ef. cbn [mbind panics_mbind panics_bind].
    destruct Hdef as (h & Hh & _ & Hcode). destruct Hd as (h' & _ & _ & Hh' & _ & _ & _ & Etys & _). simplify_eq.
    destruct (calls_described abi (fa_type_parameters f) (default [] (nd_code def)) Hw E) as (cs & -> & Hcs).
    { by rewrite Etys, length_map. }
    eexists. split; [reflexivity|]. done.
  - eexists. split; [reflexivity|]. split; [done|]. cbn [ba_calls ba_abi]. split.
    + clear -Efs Hc. revert Efs. generalize (ma_functions abi). induction Hc as [|def c defs cs [E _] _ IH]; intros fs Efs.
      * injection Efs as <-. done.
      * cbn [mapM] in Efs. rewrite E in Efs. panics_inv. unfold mret, panics_mret in *. simplify_eq. simpl. f_equal. by apply IH.
    + eapply Forall2_impl; [exact Hc|]. by intros def c [_ H].
Qed.
End calls.
End binary.

(** ** Witnesses: a module with a generic function that calls itself and
    another module *)
Definition no_abilities : AbilitySet := {| has_copy := false; has_drop := false; has_store := false; has_key := false |}.
Definition demo_binary : BinaryModule := {|
  bm_self := 0; bm_module_handles := [MkHandle 0 0; MkHandle 1 1];
  bm_datatype_handles := [MkDatatypeHandle 0 2 no_abilities [MkTyParameter no_abilities true]; MkDatatypeHandle 1 3 no_abilities []];
  bm_function_handles := [MkFnHandle 0 4 0 1 [no_abilities]; MkFnHandle 1 5 1 2 []];
  bm_function_insts := [(0%N, 1%N)];
  bm_signatures := [[ST_DatatypeInstantiation 0 [ST_TypeParameter 0]; ST_MutableReference (ST_TypeParameter 0)]; [ST_Vector ST_U8]; []];
  bm_identifiers := ["m"; "coin"; "S"; "Coin"; "f"; "join"; "v"]%string;
  bm_address_identifiers := [MkMoveAddress 9; MkMoveAddress 2];
  bm_struct_defs := [MkStructDef 0 (Some [MkField 6 (ST_Datatype 1)])];
  bm_function_defs := [MkFnDef 0 V_Public true (Some [CC_Call 1; CC_Other; CC_CallGeneric 0])] |}.

Definition def_name (m : BinaryModule) (def : FnDefinition) : option string :=
  h ← bm_function_handles m !! N.to_nat (nd_function def); bm_identifiers m !! N.to_nat (nh_name h).
Definition demo_find (m : BinaryModule) (n : string) : option FnDefinition :=
  find (λ def, bool_decide (def_name m def = Some n)) (bm_function_defs m).

Ltac in_range := repeat first [done | lia | split | eexists | constructor].
Lemma demo_binary_ok : wf_binary demo_binary.
Proof.
  split.
  - exists (MkHandle 0 0). in_range.
  - constructor; [|constructor]. eexists. split; [reflexivity|]. in_range.
  - constructor; [|constructor]. eexists. split; [reflexivity|].
    assert (fn_handle_in demo_binary 0) as H0 by (eexists; split; [reflexivity|]; in_range).
    assert (fn_handle_in demo_binary 1) as H1 by (eexists; split; [reflexivity|]; in_range).
    split; [done|]. repeat constructor; simpl; [done|]. eexists. split; [reflexivity|]. split; [done|]. in_range.
Qed.
Lemma module_abi_exact_witness :
  returns (λ abi, bool_decide (map fa_name (ma_functions abi) = ["f"%string] ∧ module_name (ma_module_id abi) = "m"%string))
    (module_from_sui_module demo_binary) = true ∧
  ∃ abi, module_from_sui_module demo_binary = Ret abi ∧ names_module demo_binary 0 (ma_module_id abi).
Proof.
  split; [vm_compute; reflexivity|]. destruct (module_abi_exact demo_binary demo_binary_ok) as (abi & E & Hid & _). by exists abi.
Defined.
Lemma binary_token_injective_witness : ∀ t,
  from_sui_token_module demo_binary [0%N] (ST_DatatypeInstantiation 0 [ST_TypeParameter 0]) = Ret t →
  ∀ i, i < 2 → from_sui_token_module demo_binary [0%N] (ST_DatatypeInstantiation (N.of_nat i) [ST_TypeParameter 0]) = Ret t → i = 0.
Proof.
  intros t E i Hi E'.
  assert (ST_DatatypeInstantiation (N.of_nat i) [ST_TypeParameter 0] = ST_DatatypeInstantiation 0 [ST_TypeParameter 0]) as [= H]; [|lia].
  apply (binary_token_injective demo_binary [0%N] _ _ t); [| | |exact E'|exact E].
  - intros a b st st' (d & Hd & Hn & _) (d' & Hd' & Hn' & _) _ Hs. simpl in *. rewrite Hs in Hn.
    assert (∀ k x, [MkDatatypeHandle 0 2 no_abilities [MkTyParameter no_abilities true]; MkDatatypeHandle 1 3 no_abilities []] !! k = Some x →
      (k = 0 ∧ dh_name x = 2%N) ∨ (k = 1 ∧ dh_name x = 3%N)) as Hk.
    { intros [|[|k]] x; simpl; [intros [= <-]; by left|intros [= <-]; by right|done]. }
    destruct (Hk _ _ Hd) as [[Ha Ea]|[Ha Ea]], (Hk _ _ Hd') as [[Hb Eb]|[Hb Eb]]; rewrite Ea in Hn; rewrite Eb in Hn';
      simpl in Hn, Hn'; try lia; congruence.
  - destruct i as [|[|i]]; [in_range|in_range|lia].
  - in_range.
Defined.
Lemma bytecode_analysis_exact_witness :
  returns (λ ba, bool_decide (map (λ c, (fc_module c, fa_name (fc_abi c), fc_tys c)) (flat_map snd (ba_calls ba)) =
    [(MkModuleId (MkMoveAddress 2) "coin", "join"%string, []); (MkModuleId (MkMoveAddress 9) "m", "f"%string, [Tok_Vector Tok_U8])]))
    (bytecode_from_sui_module demo_find demo_binary) = true ∧
  ∃ ba, bytecode_from_sui_module demo_find demo_binary = Ret ba ∧ map fst (ba_calls ba) = ma_functions (ba_abi ba).
Proof.
  split; [vm_compute; reflexivity|].
  destruct (bytecode_analysis_exact demo_binary demo_find) as (ba & E & _ & Hf & _); [|apply demo_binary_ok|by exists ba].
  intros n def [Hin%list_elem_of_In Hb%bool_decide_eq_true_1]%find_some. split; [done|].
  apply bind_Some in Hb as (h & Hh & Hn). by exists h.
Defined.
