(* ===== verification/Layout.v ===== *)
(** * Layout: Move layouts of types

    [to_move_type_layout], [to_move_struct_layout] ([movy-types/src/abi.rs])
    and the decoding of events that uses them ([movy-replay/src/meta.rs]). A
    struct is looked up by name and its fields are laid out in turn, so the
    recursion follows the definitions: fuel for its depth, [None] when it runs
    out. *)
From S2P Require Import Prelude Types FuzzTracer Abi TypeArgs Ptb TypeGraph Meta.

Section layout.
Context `{IL : IdentLib}.

(** [MoveTypeLayout] and [MoveStructLayout] of [move_core_types]. *)
Inductive MoveTypeLayout :=
| Lay_Bool | Lay_U8 | Lay_U16 | Lay_U32 | Lay_U64 | Lay_U128 | Lay_U256 | Lay_Address | Lay_Signer
| Lay_Vector (inner : MoveTypeLayout)
| Lay_Struct (type_ : StructOf Identifier TypeTag) (fields : list (Identifier * MoveTypeLayout)).
Record MoveStructLayout := MkStructLayout {
  sl_type : StructOf Identifier TypeTag; sl_fields : list (Identifier * MoveTypeLayout) }.
Definition struct_lay (l : MoveStructLayout) : MoveTypeLayout := Lay_Struct (sl_type l) (sl_fields l).

Abbreviation StructDefs := (gmap (MoveModuleId * string) MoveStructAbi).
Context (struct_defs : StructDefs).

(** Results: [None] without fuel, then the [Option] of the code. *)
Definition obind {A B} (m : option (option A)) (k : A → option (option B)) : option (option B) :=
  match m with Some (Some a) => k a | Some None => Some None | None => None end.
Fixpoint olist {A B} (f : A → option (option B)) (l : list A) : option (option (list B)) :=
  match l with
  | [] => Some (Some [])
  | a :: l => obind (f a) (λ b, obind (olist f l) (λ l, Some (Some (b :: l))))
  end.

(** A token, given the layout of structs. *)
Fixpoint type_layout_with (to_struct : list MoveTypeLayout → MoveStructAbi → option (option MoveStructLayout))
    (typs : list MoveTypeLayout) (t : MoveAbiSignatureToken) : option (option MoveTypeLayout) :=
  match t with
  | Tok_Address => Some (Some Lay_Address) | Tok_Signer => Some (Some Lay_Signer) | Tok_Bool => Some (Some Lay_Bool)
  | Tok_U8 => Some (Some Lay_U8) | Tok_U16 => Some (Some Lay_U16) | Tok_U32 => Some (Some Lay_U32)
  | Tok_U64 => Some (Some Lay_U64) | Tok_U128 => Some (Some Lay_U128) | Tok_U256 => Some (Some Lay_U256)
  | Tok_Struct st =>
      obind (Some (struct_defs !! (sh_module_id st, sh_struct_name st))) (λ st,
      obind (to_struct typs st) (λ st, Some (Some (struct_lay st))))
  | Tok_StructInstantiation st insts =>
      obind (Some (struct_defs !! (sh_module_id st, sh_struct_name st))) (λ st,
      obind (olist (type_layout_with to_struct typs) insts) (λ new_typs,
      obind (to_struct new_typs st) (λ st, Some (Some (struct_lay st)))))
  | Tok_TypeParameter idx _ => Some (typs !! N.to_nat idx)
  | Tok_Vector v => obind (type_layout_with to_struct typs v) (λ v, Some (Some (Lay_Vector v)))
  | Tok_Reference rf | Tok_MutableReference rf => type_layout_with to_struct typs rf
  end.
(** The fields in order, each with its name, then the type, without arguments. *)
Definition field_layout (to_struct : list MoveTypeLayout → MoveStructAbi → option (option MoveStructLayout))
    (typs : list MoveTypeLayout) (fd : MoveStructField) : option (option (Identifier * MoveTypeLayout)) :=
  obind (type_layout_with to_struct typs (sf_ty fd)) (λ ty,
  obind (Some (identifier_new (sf_name fd))) (λ name, Some (Some (name, ty)))).
Definition layout_type (st : MoveStructAbi) : option (StructOf Identifier TypeTag) :=
  module ← identifier_new (module_name (sh_module_id (sa_handle st)));
  name ← identifier_new (sh_struct_name (sa_handle st));
  Some (MkStructOf (module_address (sh_module_id (sa_handle st))) module name []).

Fixpoint to_move_struct_layout (fuel : nat) (typs : list MoveTypeLayout) (st : MoveStructAbi) :
    option (option MoveStructLayout) :=
  match fuel with
  | 0 => None
  | S fuel =>
      obind (olist (field_layout (to_move_struct_layout fuel) typs) (sa_fields st)) (λ fields,
      obind (Some (layout_type st)) (λ type_, Some (Some (MkStructLayout type_ fields))))
  end.
Definition to_move_type_layout (fuel : nat) : list MoveTypeLayout → MoveAbiSignatureToken → option (option MoveTypeLayout) :=
  type_layout_with (to_move_struct_layout fuel).

(** ** Events *)

(** The layouts of the type parameters of an event, as far as they are known. *)
Fixpoint event_typs (fuel : nat) (type_params : list TypeTag) : option (list MoveTypeLayout) :=
  match type_params with
  | [] => Some []
  | ty :: type_params =>
      typ ← to_move_type_layout fuel [] (from_type_tag_lossy (from_type_tag ty));
      typs ← event_typs fuel type_params;
      Some (option_list typ ++ typs)
  end.
(** [decode] is the decoding of the contents of an event by its layout. *)
Definition decode_sui_event {G V : Type} (base : Metadata G) (decode : MoveStructLayout → result V) (fuel : nat)
    (type_ : StructOf Identifier TypeTag) : option (result (option V)) :=
  match get_struct base (so_address type_) (identifier_string (so_module type_)) (identifier_string (so_name type_)) with
  | Some st =>
      typs ← event_typs fuel (so_type_params type_);
      layout ← to_move_struct_layout fuel typs st;
      Some (match layout with Some layout => v ← decode layout; Ok (Some v) | None => Ok None end)
  | None => Some (Ok None)
  end.

(** ** Layouts end *)
Fixpoint structs_in (t : MoveAbiSignatureToken) : list (MoveModuleId * string) :=
  match t with
  | Tok_Struct st => [(sh_module_id st, sh_struct_name st)]
  | Tok_StructInstantiation st insts => (sh_module_id st, sh_struct_name st) :: flat_map structs_in insts
  | Tok_Vector t | Tok_Reference t | Tok_MutableReference t => structs_in t
  | _ => []
  end.
(** No struct contains itself: the structs in its fields have lower ranks. *)
Definition well_founded_structs (rank : MoveModuleId * string → nat) : Prop :=
  ∀ k st f k', struct_defs !! k = Some st → f ∈ sa_fields st → k' ∈ structs_in (sf_ty f) → is_Some (struct_defs !! k') →
    rank k' < rank k.

Lemma obind_ends {A B} (m : option (option A)) (k : A → option (option B)) :
  is_Some m → (∀ a, is_Some (k a)) → is_Some (obind m k).
Proof. intros [[a|] ->] Hk; [apply Hk|by eexists]. Qed.
Lemma olist_ends {A B} (f : A → option (option B)) l : Forall (λ a, is_Some (f a)) l → is_Some (olist f l).
Proof.
  induction 1 as [|a l Ha _ IH]; [by eexists|]. simpl. apply obind_ends; [done|]. intros b. apply obind_ends; [done|]. by eexists.
Qed.
Lemma type_layout_ends to_struct typs t :
  (∀ k st, k ∈ structs_in t → struct_defs !! k = Some st → ∀ typs, is_Some (to_struct typs st)) →
  is_Some (type_layout_with to_struct typs t).
Proof.
  induction t as [| | | | | | | | |t IH|h|h l IH|i a|t IH|t IH] using MoveAbiSignatureToken_ind; intros H; simpl; try by eexists.
  - apply obind_ends; [by apply IH|by eexists].
  - destruct (struct_defs !! _) as [st|] eqn:E; [|by eexists]. apply obind_ends; [|by eexists].
    eapply H; [|exact E]. simpl. by left.
  - destruct (struct_defs !! _) as [st|] eqn:E; [|by eexists]. apply obind_ends.
    + apply olist_ends. rewrite Forall_forall in IH |- *. intros x Hx. apply IH; [done|]. intros k st' Hk. apply H.
      simpl. right. apply list_elem_of_In, in_flat_map. exists x. by rewrite <-!list_elem_of_In.
    + intros new. apply obind_ends; [|by eexists]. eapply H; [|exact E]. simpl. by left.
  - by apply IH.
  - by apply IH.
Qed.

Lemma struct_layout_fuel rank : well_founded_structs rank → ∀ fuel k st typs, struct_defs !! k = Some st → rank k < fuel →
  is_Some (to_move_struct_layout fuel typs st).
Proof.
  intros Hr. induction fuel as [|fuel IH]; intros k st typs Hk Hf; [lia|]. cbn [to_move_struct_layout].
  apply obind_ends; [|intros fs; by apply obind_ends; [eexists|eexists]]. apply olist_ends. rewrite Forall_forall.
  intros f Hin. unfold field_layout. apply obind_ends; [|intros ty; by apply obind_ends; [eexists|eexists]].
  apply type_layout_ends. intros k' st' Hk' Hst' typs'. apply (IH k'); [done|].
  pose proof (Hr k st f k' Hk Hin Hk' ltac:(by eexists)). lia.
Qed.
(** When no struct contains itself, one more step than the highest rank is
    enough to lay out any type - generic or not, known or not. *)
Theorem layout_ends rank bound typs t : well_founded_structs rank → (∀ k, is_Some (struct_defs !! k) → rank k < bound) →
  is_Some (to_move_type_layout bound typs t).
Proof.
  intros Hr Hb. apply type_layout_ends. intros k st _ Hk typs'. apply (struct_layout_fuel rank Hr bound k); [done|].
  apply Hb. by eexists.
Qed.
End layout.

(** ** Witness, and parameters that shift *)
#[local] Existing Instance nonempty_ident.
(** A name that is an identifier. *)
Definition identifier_of (s : string) : Identifier :=
  match identifier_new s with Some i => i | None => exist _ "x"%string eq_refl end.
Definition demo_md : MoveModuleId := MkModuleId (MkMoveAddress 9) "m".
Definition demo_handle (n : string) (params : nat) : MoveStructHandle :=
  MkStructHandle demo_md n ability_empty (replicate params {| tp_constraints := ability_empty; tp_phantom := false |}).
Definition demo_struct (n : string) (params : nat) (fields : list (string * MoveAbiSignatureToken)) : MoveStructAbi :=
  {| sa_handle := demo_handle n params; sa_fields := map (λ f, {| sf_name := f.1; sf_ty := f.2 |}) fields |}.
Definition demo_structs : gmap (MoveModuleId * string) MoveStructAbi := list_to_map [
  ((demo_md, "Box"%string), demo_struct "Box" 1 [("v"%string, Tok_TypeParameter 0 ability_empty)]);
  ((demo_md, "Pair"%string), demo_struct "Pair" 2 [("l"%string, Tok_StructInstantiation (demo_handle "Box" 1) [Tok_TypeParameter 0 ability_empty])])].
Definition demo_rank (k : MoveModuleId * string) : nat := if decide (k.2 = "Pair"%string) then 1 else 0.

Lemma demo_structs_in k st : demo_structs !! k = Some st →
  (k, st) ∈ [((demo_md, "Box"%string), demo_struct "Box" 1 [("v"%string, Tok_TypeParameter 0 ability_empty)]);
    ((demo_md, "Pair"%string), demo_struct "Pair" 2 [("l"%string, Tok_StructInstantiation (demo_handle "Box" 1) [Tok_TypeParameter 0 ability_empty])])].
Proof. apply elem_of_list_to_map_2. Qed.
Lemma layout_ends_witness :
  (∃ l, to_move_type_layout demo_structs 2 [] (Tok_StructInstantiation (demo_handle "Pair" 2) [Tok_U8; Tok_Bool]) = Some l) ∧
  returns (λ _, true) (unwrap (mjoin (to_move_type_layout demo_structs 2 [] (Tok_StructInstantiation (demo_handle "Pair" 2) [Tok_U8; Tok_Bool])))) = true.
Proof.
  split; [|vm_compute; reflexivity].
  destruct (layout_ends demo_structs demo_rank 2 [] (Tok_StructInstantiation (demo_handle "Pair" 2) [Tok_U8; Tok_Bool])) as [l Hl].
  - intros k st f k' Hk%demo_structs_in Hf Hk' _. rewrite !elem_of_cons, elem_of_nil in Hk.
    destruct Hk as [[= -> ->]|[[= -> ->]|[]]]; simpl in Hf; rewrite elem_of_cons, elem_of_nil in Hf; destruct Hf as [->|[]];
      simpl in Hk'; rewrite ?elem_of_cons, elem_of_nil in Hk'; [done|]. destruct Hk' as [->|[]]. vm_compute. lia.
  - intros k [st Hk%demo_structs_in]. rewrite !elem_of_cons, elem_of_nil in Hk. destruct Hk as [[= -> _]|[[= -> _]|[]]]; vm_compute; lia.
  - by exists l.
Defined.
(** A type parameter whose layout is not known is dropped, and the later ones
    take its place: the unknown struct [X] of the field is laid out as [u8]. *)
Example event_typs_shift :
  (typs ← event_typs demo_structs 2 [Ty_Struct (MkStructOf (MkMoveAddress 9) (identifier_of "m") (identifier_of "X") []); Ty_U8];
   l ← to_move_struct_layout demo_structs 2 typs (demo_struct "E" 2 [("x"%string, Tok_TypeParameter 0 ability_empty)]);
   map snd ∘ sl_fields <$> l) = Some [Lay_U8].
Proof. vm_compute. reflexivity. Qed.
