(* ===== verification/AbiText.v ===== *)
(** * AbiText: the text of ABIs

    [Display] of abilities, tokens, visibilities and functions in
    [crates/movy-types/src/abi.rs]; [alternate] is the flag of [{:#}], which
    shortens addresses. *)
From stdpp Require Import pretty.
From S2P Require Import Prelude Types Text.
From Stdlib Require Import Ascii.
From Stdlib Require String.
Local Open Scope string_scope.
Local Open Scope list_scope.

(** ** Abilities *)
Definition show_ability (a : MoveAbility) : string :=
  join " + " ((if ability_contains a ability_DROP then ["drop"] else [])
    ++ (if ability_contains a ability_STORE then ["store"] else [])
    ++ (if ability_contains a ability_KEY then ["key"] else [])
    ++ (if ability_contains a ability_COPY then ["copy"] else []))%list.
Definition ability_to_string_with_name (name : string) (a : MoveAbility) : string :=
  if (a =? ability_empty)%N then name else name +:+ ": " +:+ show_ability a.
Definition parameter_to_string_with_name (name : string) (v : MoveStructTypeParameters) : string :=
  (if tp_phantom v then "phantom " else "") +:+ ability_to_string_with_name name (tp_constraints v).
(** [name0, name1, …] *)
Definition numbered (name : string) (i : nat) : string := name +:+ pretty (N.of_nat i).

(** [short]: the first and the last two of the 32 bytes, in hex. *)
Definition address_short (a : MoveAddress) : string :=
  "0x" +:+ hex_digits 4 (addr_val a / 2 ^ 240) "" +:+ ".." +:+ hex_digits 4 (addr_val a mod 2 ^ 16) "".

Section text.
Context `{AT : AddressText}.

Definition show_address_with (alternate : bool) (a : MoveAddress) : string :=
  if alternate then address_short a else show_address a.
Definition show_handle (alternate : bool) (s : MoveStructHandle) : string :=
  show_address_with alternate (module_address (sh_module_id s)) +:+ "::" +:+ module_name (sh_module_id s)
    +:+ "::" +:+ sh_struct_name s.

Fixpoint show_token (alternate : bool) (t : MoveAbiSignatureToken) : string :=
  match t with
  | Tok_Bool => "bool" | Tok_U8 => "u8" | Tok_U16 => "u16" | Tok_U32 => "u32" | Tok_U64 => "u64"
  | Tok_U128 => "u128" | Tok_U256 => "u256" | Tok_Address => "address" | Tok_Signer => "signer"
  | Tok_Vector v => "vector<" +:+ show_token alternate v +:+ ">"
  | Tok_Struct s =>
      show_handle alternate s +:+
      match sh_type_parameters s with
      | [] => ""
      | params => "<" +:+ join ", " (imap (λ idx v, parameter_to_string_with_name (numbered "ST" idx) v) params) +:+ ">"
      end
  | Tok_StructInstantiation s insts =>
      show_handle alternate s +:+
      match sh_type_parameters s with
      | [] => ""
      | _ => "<" +:+ join ", " (map (show_token alternate) insts) +:+ ">"
      end
  | Tok_MutableReference v => "&mut " +:+ show_token alternate v
  | Tok_Reference v => "&" +:+ show_token alternate v
  | Tok_TypeParameter idx _ => "T" +:+ pretty idx
  end.

(** ** Functions *)
Definition show_visibility (v : MoveFunctionVisibility) : string :=
  match v with Private => "private" | Public => "public" | Friend => "friend" end.
Definition show_function (alternate : bool) (f : MoveFunctionAbi) : string :=
  show_visibility (fa_visibility f) +:+ " " +:+ fa_name f +:+
  match fa_type_parameters f with
  | [] => ""
  | tys => "<" +:+ join ", " (imap (λ idx v, ability_to_string_with_name (numbered "T" idx) v) tys) +:+ ">"
  end +:+ "(" +:+ join ", " (map (show_token alternate) (fa_parameters f)) +:+ ")" +:+
  match fa_return_paramters f with
  | [] => ""
  | rs => ": " +:+ join ", " (map (show_token alternate) rs)
  end.
End text.

(** The short form does not tell addresses apart. *)
Example short_collides : address_short (MkMoveAddress (2 ^ 200 + 2)) = address_short (MkMoveAddress 2).
Proof. vm_compute. reflexivity. Qed.
