(* ===== verification/CallGraph.v ===== *)
(** * CallGraph: which functions call which

    [crates/movy-analysis/src/call_graph.rs]: the graph of the calls found in
    bytecode. [DiGraph] is the interface of [petgraph::Graph] with its
    documented behaviour, [pair_graph] a concrete instance. *)
From stdpp Require Import pretty.
From S2P Require Import Prelude Types Text AbiText FuzzTracer Abi Compile Binary.

Class DiGraph (N E G : Type) := {
  dg_new : G;
  dg_add_node : N → G → panics (G * nat);
  dg_add_edge : nat → nat → E → G → panics G;
  dg_limit : nat;
  dg_nodes : G → list N;
  dg_edges : G → list (nat * nat * E);
  dg_new_spec : dg_nodes dg_new = [] ∧ dg_edges dg_new = [];
  dg_add_node_spec n g : length (dg_nodes g) < dg_limit →
    ∃ g', dg_add_node n g = Ret (g', length (dg_nodes g)) ∧ dg_nodes g' = dg_nodes g ++ [n] ∧ dg_edges g' = dg_edges g;
  dg_add_edge_spec a b w g : length (dg_edges g) < dg_limit → a < length (dg_nodes g) → b < length (dg_nodes g) →
    ∃ g', dg_add_edge a b w g = Ret g' ∧ dg_nodes g' = dg_nodes g ∧ dg_edges g' = dg_edges g ++ [(a, b, w)];
}.

Record MoveCallGraphNode := MkCallNode { cn_module_id : MoveModuleId; cn_function : string }.
#[export] Instance MoveCallGraphNode_eq_dec : EqDecision MoveCallGraphNode.
Proof. solve_decision. Defined.
#[export] Instance MoveCallGraphNode_countable : Countable MoveCallGraphNode.
Proof. apply (inj_countable' (λ n, (cn_module_id n, cn_function n)) (λ x, MkCallNode x.1 x.2)). by intros []. Defined.
Record MoveCallGraphEdge := MkCallEdge { ce_type_parameters : list MoveAbiSignatureToken }.
#[export] Instance MoveFunctionCall_eq_dec : EqDecision MoveFunctionCall.
Proof. solve_decision. Defined.

Definition show_call_node `{AT : AddressText} (n : MoveCallGraphNode) : string :=
  show_address_with true (module_address (cn_module_id n)) +:+ "::" +:+ module_name (cn_module_id n) +:+ "::" +:+ cn_function n.
Definition show_call_edge `{AT : AddressText} (e : MoveCallGraphEdge) : string :=
  join ", " (map (show_token true) (ce_type_parameters e)).

(** [iter.unique()]: the first of equal elements. *)
Fixpoint unique {A} `{EqDecision A} (seen l : list A) : list A :=
  match l with
  | [] => []
  | x :: l => if decide (x ∈ seen) then unique seen l else x :: unique (x :: seen) l
  end.

Section graph.
Context {G : Type} `{DG : !DiGraph MoveCallGraphNode MoveCallGraphEdge G}.

Record MoveCallGraph := MkCallGraph {
  cg_graph : G; cg_functions : gmap MoveCallGraphNode nat; cg_modules : gset MoveModuleId }.
Definition call_graph_new : MoveCallGraph := MkCallGraph dg_new ∅ ∅.

Definition may_add_function (fcall : MoveCallGraphNode) (g : MoveCallGraph) : panics (MoveCallGraph * nat) :=
  match cg_functions g !! fcall with
  | Some idx => Ret (g, idx)
  | None =>
      '(graph, idx) ← dg_add_node fcall (cg_graph g);
      Ret (MkCallGraph graph (<[fcall := idx]> (cg_functions g)) (cg_modules g), idx)
  end.
Fixpoint add_calls (src : nat) (calls : list MoveFunctionCall) (g : MoveCallGraph) : panics MoveCallGraph :=
  match calls with
  | [] => Ret g
  | call :: calls =>
      '(g, dst) ← may_add_function (MkCallNode (fc_module call) (fa_name (fc_abi call))) g;
      graph ← dg_add_edge src dst (MkCallEdge (fc_tys call)) (cg_graph g);
      add_calls src calls (MkCallGraph graph (cg_functions g) (cg_modules g))
  end.
Fixpoint add_callers (module_id : MoveModuleId) (calls : list (MoveFunctionAbi * list MoveFunctionCall)) (g : MoveCallGraph) :
    panics MoveCallGraph :=
  match calls with
  | [] => Ret g
  | (caller, cs) :: calls =>
      '(g, src) ← may_add_function (MkCallNode module_id (fa_name caller)) g;
      g ← add_calls src (unique [] cs) g;
      add_callers module_id calls g
  end.
Definition add_bytecode_analysis (result : MoveModuleBytecodeAnalysis) (g : MoveCallGraph) : panics MoveCallGraph :=
  let id := ma_module_id (ba_abi result) in
  if decide (id ∈ cg_modules g) then Ret g else
  add_callers id (ba_calls result) (MkCallGraph (cg_graph g) (cg_functions g) ({[ id ]} ∪ cg_modules g)).
Fixpoint add_analyses (results : list MoveModuleBytecodeAnalysis) (g : MoveCallGraph) : panics MoveCallGraph :=
  match results with
  | [] => Ret g
  | result :: results => g ← add_bytecode_analysis result g; add_analyses results g
  end.

(** ** The calls of the modules *)
Definition call_target (call : MoveFunctionCall) : MoveCallGraphNode := MkCallNode (fc_module call) (fa_name (fc_abi call)).
(** The distinct calls of each function, with their ends. *)
Definition function_edges (id : MoveModuleId) (x : MoveFunctionAbi * list MoveFunctionCall) :
    list (MoveCallGraphNode * MoveCallGraphNode * MoveCallGraphEdge) :=
  map (λ call, (MkCallNode id (fa_name x.1), call_target call, MkCallEdge (fc_tys call))) (unique [] x.2).
Definition module_edges (r : MoveModuleBytecodeAnalysis) := flat_map (function_edges (ma_module_id (ba_abi r))) (ba_calls r).
(** The analyses that count: the first of each module. *)
Fixpoint first_analyses (seen : gset MoveModuleId) (results : list MoveModuleBytecodeAnalysis) : list MoveModuleBytecodeAnalysis :=
  match results with
  | [] => []
  | r :: results =>
      let id := ma_module_id (ba_abi r) in
      if decide (id ∈ seen) then first_analyses seen results else r :: first_analyses ({[ id ]} ∪ seen) results
  end.
(** Every function that is named: the most nodes and edges there can be. *)
Definition analysis_size (r : MoveModuleBytecodeAnalysis) : nat :=
  sum_list (map (λ x, S (length x.2)) (ba_calls r)).

(** The graph holds its functions once, and its edges are [es]. *)
Record graph_is (g : MoveCallGraph) (es : list (MoveCallGraphNode * MoveCallGraphNode * MoveCallGraphEdge)) : Prop := MkGraphIs {
  gi_nodes : ∀ n i, cg_functions g !! n = Some i ↔ dg_nodes (cg_graph g) !! i = Some n;
  gi_edges : Forall2 (λ e x, dg_nodes (cg_graph g) !! e.1.1 = Some x.1.1 ∧ dg_nodes (cg_graph g) !! e.1.2 = Some x.1.2 ∧ e.2 = x.2)
    (dg_edges (cg_graph g)) es }.

Lemma length_unique_le {A} `{EqDecision A} (seen l : list A) : length (unique seen l) ≤ length l.
Proof. revert seen. induction l as [|x l IH]; intros seen; simpl; [lia|]. case_decide; simpl; [specialize (IH seen)|specialize (IH (x :: seen))]; lia. Qed.
Lemma elem_of_unique {A} `{EqDecision A} (seen l : list A) x : x ∈ unique seen l ↔ x ∈ l ∧ x ∉ seen.
Proof.
  revert seen. induction l as [|y l IH]; intros seen; simpl; [set_solver|]. case_decide as Hy.
  - rewrite (IH seen), elem_of_cons. naive_solver.
  - rewrite (elem_of_cons (unique (y :: seen) l)), (IH (y :: seen)), (elem_of_cons l), (elem_of_cons seen).
    destruct (decide (x = y)) as [->|]; tauto.
Qed.
Lemma NoDup_unique {A} `{EqDecision A} (seen l : list A) : NoDup (unique seen l).
Proof.
  revert seen. induction l as [|y l IH]; intros seen; simpl; [constructor|]. case_decide; [done|]. constructor; [|done].
  rewrite elem_of_unique. intros [_ Hn]. apply Hn. by left.
Qed.

Lemma may_add_function_spec n g es : graph_is g es → length (dg_nodes (cg_graph g)) < dg_limit →
  ∃ g' i, may_add_function n g = Ret (g', i) ∧ graph_is g' es ∧ dg_nodes (cg_graph g') !! i = Some n ∧
    cg_modules g' = cg_modules g ∧ dg_edges (cg_graph g') = dg_edges (cg_graph g) ∧
    length (dg_nodes (cg_graph g')) ≤ S (length (dg_nodes (cg_graph g))) ∧
    (∀ j x, dg_nodes (cg_graph g) !! j = Some x → dg_nodes (cg_graph g') !! j = Some x).
Proof.
  intros [Hn He] Hlt. unfold may_add_function. destruct (cg_functions g !! n) as [i|] eqn:E.
  - exists g, i. split_and!; try done; [by apply Hn|lia].
  - destruct (dg_add_node_spec n (cg_graph g) Hlt) as (g' & -> & Hnodes & Hedges). cbn [mbind panics_mbind panics_bind].
    eexists _, _. split; [reflexivity|]. cbn [cg_graph cg_functions cg_modules]. rewrite Hnodes.
    assert (∀ j x, dg_nodes (cg_graph g) !! j = Some x → (dg_nodes (cg_graph g) ++ [n]) !! j = Some x) as Hold.
    { intros j x Hj. by apply lookup_app_l_Some. }
    split_and!; [|by apply list_lookup_middle|done|done|rewrite length_app; simpl; lia|done].
    split; cbn [cg_graph cg_functions].
    + intros m j. rewrite Hnodes, lookup_insert_Some, lookup_snoc_Some, Hn. split.
      * intros [[-> <-]|[Hne Hj]]; [by right|left]. split; [by apply lookup_lt_Some in Hj|done].
      * intros [[Hlj Hj]|[-> ->]]; [right|by left]. split; [|done]. intros ->. apply Hn in Hj. congruence.
    + rewrite Hnodes, Hedges. eapply Forall2_impl; [exact He|]. intros e x (? & ? & ?). auto.
Qed.

Lemma add_calls_spec src caller calls : ∀ g es, graph_is g es → dg_nodes (cg_graph g) !! src = Some caller →
  length (dg_nodes (cg_graph g)) + length calls ≤ dg_limit → length es + length calls ≤ dg_limit →
  ∃ g', add_calls src calls g = Ret g' ∧
    graph_is g' (es ++ map (λ call, (caller, call_target call, MkCallEdge (fc_tys call))) calls) ∧
    cg_modules g' = cg_modules g ∧ length (dg_nodes (cg_graph g')) ≤ length (dg_nodes (cg_graph g)) + length calls.
Proof.
  induction calls as [|call calls IH]; intros g es Hg Hsrc Hn He; cbn [add_calls map length] in *.
  - exists g. rewrite app_nil_r. split_and!; [done..|lia].
  - destruct (may_add_function_spec (call_target call) g es Hg) as (g1 & dst & E1 & Hg1 & Hdst & Hm1 & Hed1 & Hl1 & Hold); [lia|].
    unfold call_target in E1. rewrite E1. cbn [mbind panics_mbind panics_bind].
    pose proof (Hold _ _ Hsrc) as Hsrc1. assert (length (dg_edges (cg_graph g1)) = length es) as Hle by apply (Forall2_length _ _ _ (gi_edges _ _ Hg1)).
    destruct (dg_add_edge_spec src dst (MkCallEdge (fc_tys call)) (cg_graph g1)) as (gr & Eg & Hgn & Hge);
      [lia|by eapply lookup_lt_Some|by eapply lookup_lt_Some|]. rewrite Eg. cbn [mbind panics_mbind panics_bind].
    set (g2 := MkCallGraph gr (cg_functions g1) (cg_modules g1)).
    destruct (IH g2 (es ++ [(caller, call_target call, MkCallEdge (fc_tys call))])) as (g' & E & Hg' & Hm & Hl).
    + destruct Hg1 as [Hn1 He1]. split; unfold g2; cbn [cg_graph cg_functions]; rewrite Hgn; [done|].
      rewrite Hge. apply Forall2_app; [done|]. constructor; [done|constructor].
    + unfold g2. cbn [cg_graph]. by rewrite Hgn.
    + unfold g2. cbn [cg_graph]. rewrite Hgn. lia.
    + rewrite length_app. simpl. lia.
    + exists g'. split; [done|]. rewrite <-app_assoc in Hg'. split; [done|]. unfold g2 in Hm, Hl. cbn [cg_graph cg_modules] in *.
      rewrite Hgn in Hl. split; [congruence|lia].
Qed.

Lemma add_callers_spec id calls : ∀ g es, graph_is g es →
  length (dg_nodes (cg_graph g)) + sum_list (map (λ x, S (length x.2)) calls) ≤ dg_limit →
  length es + sum_list (map (λ x, S (length x.2)) calls) ≤ dg_limit →
  ∃ g', add_callers id calls g = Ret g' ∧ graph_is g' (es ++ flat_map (function_edges id) calls) ∧
    cg_modules g' = cg_modules g ∧
    length (dg_nodes (cg_graph g')) ≤ length (dg_nodes (cg_graph g)) + sum_list (map (λ x, S (length x.2)) calls).
Proof.
  induction calls as [|[caller cs] calls IH]; intros g es Hg Hn He; cbn [add_callers map flat_map] in *.
  - exists g. rewrite app_nil_r. split_and!; [done..|lia].
  - rewrite sum_list_with_cons in * || cbn [sum_list sum_list_with] in *. simpl in Hn, He.
    destruct (may_add_function_spec (MkCallNode id (fa_name caller)) g es Hg) as (g1 & src & -> & Hg1 & Hsrc & Hm1 & _ & Hl1 & _); [lia|].
    cbn [mbind panics_mbind panics_bind]. pose proof (length_unique_le [] cs) as Hu.
    destruct (add_calls_spec src _ (unique [] cs) g1 es Hg1 Hsrc) as (g2 & -> & Hg2 & Hm2 & Hl2); [lia..|].
    cbn [mbind panics_mbind panics_bind].
    destruct (IH g2 _ Hg2) as (g' & E & Hg' & Hm & Hl); [lia|rewrite length_app, length_map; lia|].
    exists g'. split; [done|]. rewrite <-app_assoc in Hg'. split; [done|]. split; [congruence|]. simpl. lia.
Qed.

Lemma add_analyses_spec results : ∀ g es, graph_is g es →
  length (dg_nodes (cg_graph g)) + sum_list (map analysis_size results) ≤ dg_limit →
  length es + sum_list (map analysis_size results) ≤ dg_limit →
  ∃ g', add_analyses results g = Ret g' ∧ graph_is g' (es ++ flat_map module_edges (first_analyses (cg_modules g) results)).
Proof.
  induction results as [|r results IH]; intros g es Hg Hn He; cbn [add_analyses first_analyses] in *.
  - exists g. by rewrite app_nil_r.
  - simpl in Hn, He. unfold add_bytecode_analysis. case_decide as Hd.
    + cbn [mbind panics_mbind panics_bind]. apply IH; [done|lia..].
    + destruct (add_callers_spec (ma_module_id (ba_abi r)) (ba_calls r)
        (MkCallGraph (cg_graph g) (cg_functions g) ({[ ma_module_id (ba_abi r) ]} ∪ cg_modules g)) es) as (g1 & -> & Hg1 & Hm1 & Hl1);
        [by destruct Hg|unfold analysis_size in *; simpl; lia..|].
      cbn [mbind panics_mbind panics_bind]. cbn [cg_graph cg_modules] in *.
      assert (length (es ++ flat_map (function_edges (ma_module_id (ba_abi r))) (ba_calls r)) ≤ length es + analysis_size r).
      { rewrite length_app. apply Nat.add_le_mono_l. unfold analysis_size. clear. induction (ba_calls r) as [|x l IHl]; [done|].
        simpl. rewrite length_app. unfold function_edges at 1. rewrite length_map. pose proof (length_unique_le [] x.2). lia. }
      destruct (IH g1 _ Hg1) as (g' & E & Hg'); [unfold analysis_size in *; lia|lia|]. exists g'. split; [done|].
      rewrite Hm1 in Hg'. cbn [flat_map]. unfold module_edges at 1. by rewrite app_assoc.
Qed.

(** The graph has one node for every function that is named, and its edges
    are the distinct calls of the functions of each module, in order, a module
    that was added before left out; it is built without a panic while the
    limit of the graph library is not reached. *)
Theorem call_graph_exact results : sum_list (map analysis_size results) ≤ dg_limit →
  ∃ g, add_analyses results call_graph_new = Ret g ∧ NoDup (dg_nodes (cg_graph g)) ∧
    graph_is g (flat_map module_edges (first_analyses ∅ results)).
Proof.
  intros Hlim. destruct (add_analyses_spec results call_graph_new []) as (g & E & Hg).
  - destruct dg_new_spec as [Hn He]. unfold call_graph_new. split; cbn [cg_graph cg_functions]; [|rewrite He; constructor].
    intros n i. by rewrite Hn, lookup_empty, lookup_nil.
  - destruct dg_new_spec as [Hn _]. unfold call_graph_new. cbn [cg_graph]. rewrite Hn. simpl. lia.
  - simpl. lia.
  - exists g. split; [done|]. split; [|done]. apply NoDup_alt. intros i j x Hi Hj. apply (gi_nodes _ _ Hg) in Hi, Hj. congruence.
Qed.
End graph.

(** ** A concrete graph, and a witness *)
Section pairs.
Context (N E : Type).
Definition pair_limit : nat := 100.
#[refine] Instance pair_graph : DiGraph N E (list N * list (nat * nat * E)) := {
  dg_new := ([], []);
  dg_add_node n g := if length g.1 <? pair_limit then Ret ((g.1 ++ [n], g.2), length g.1) else Panic;
  dg_add_edge a b w g := if length g.2 <? pair_limit then Ret (g.1, g.2 ++ [(a, b, w)]) else Panic;
  dg_limit := pair_limit;
  dg_nodes := fst;
  dg_edges := snd }.
Proof.
  - done.
  - intros n [ns es] H. simpl in *. rewrite (proj2 (Nat.ltb_lt _ _) H). by eexists.
  - intros a b w [ns es] H _ _. simpl in *. rewrite (proj2 (Nat.ltb_lt _ _) H). by eexists.
Defined.
End pairs.
#[local] Existing Instance pair_graph.

Definition plain_fn (n : string) : MoveFunctionAbi :=
  {| fa_name := n; fa_parameters := []; fa_return_paramters := []; fa_type_parameters := [];
     fa_visibility := Public; fa_is_entry := false |}.
Definition demo_analysis : MoveModuleBytecodeAnalysis :=
  let m := MkModuleId (MkMoveAddress 9) "m" in
  let call := MkFunctionCall (MkModuleId (MkMoveAddress 2) "coin") (plain_fn "join") [] in
  MkBytecodeAnalysis {| ma_module_id := m; ma_structs := []; ma_functions := [plain_fn "f"; plain_fn "g"] |}
    [(plain_fn "f", [call; MkFunctionCall m (plain_fn "g") []; call]); (plain_fn "g", [call])].
Lemma call_graph_exact_witness :
  returns (λ g, bool_decide (map fst (dg_edges (cg_graph g)) = [(0, 1); (0, 2); (2, 1)])%nat)
    (add_analyses [demo_analysis; demo_analysis] call_graph_new) = true ∧
  ∃ g, add_analyses [demo_analysis; demo_analysis] call_graph_new = Ret g ∧ NoDup (dg_nodes (cg_graph g)).
Proof.
  split; [vm_compute; reflexivity|].
  destruct (call_graph_exact (G := list MoveCallGraphNode * list (nat * nat * MoveCallGraphEdge)) [demo_analysis; demo_analysis])
    as (g & E & Hn & _); [vm_compute; lia|by exists g].
Defined.
