(* ===== verification/Export.v ===== *)
(** * Export: the call graph of a repository, with its structure

    [crates/movy-analysis/src/export_call_graph.rs] and
    [export_package_structure.rs]: contracts and functions get numbers, calls
    become edges between them, and a second walk over the same packages adds
    structs and the metadata of functions under the same numbers. The compiler
    and the file system are arguments; a path is the list of its components, a
    file system the lists of its directories. The rows are records of
    [knowdit_repo_model]; ids are [i32]. *)
From stdpp Require Import pretty.
From S2P Require Import Prelude Types Text AbiText FuzzTracer Abi Compile Binary.
From Stdlib Require Import Ascii.
From Stdlib Require String.
Local Open Scope string_scope.
Local Open Scope list_scope.

(** ** Strings *)
Definition is_space (c : ascii) : bool :=
  let n := N_of_ascii c in ((9 <=? n) && (n <=? 13) || (n =? 32))%N.
Fixpoint trim_start (s : string) : string :=
  match s with
  | String c s' => if is_space c then trim_start s' else s
  | "" => ""
  end.
Fixpoint trim_end (s : string) : string :=
  match s with
  | String c s' => match trim_end s' with "" => if is_space c then "" else String c "" | t => String c t end
  | "" => ""
  end.
(** [str::trim], for ASCII text. *)
Definition trim (s : string) : string := trim_end (trim_start s).
Definition strip_0x (s : string) : string :=
  match s with String "0" (String "x" s) => s | _ => s end.
Definition lower (c : ascii) : ascii :=
  let n := N_of_ascii c in if ((65 <=? n) && (n <=? 90))%N then ascii_of_N (n + 32) else c.
Fixpoint map_string (f : ascii → ascii) (s : string) : string :=
  match s with String c s => String (f c) (map_string f s) | "" => "" end.
Definition to_ascii_lowercase : string → string := map_string lower.

Definition canonicalize_address (value : string) : string :=
  let trimmed := trim_zeros (strip_0x (trim value)) in
  let normalized := if bool_decide (trimmed = "") then "0" else trimmed in
  "0x" +:+ to_ascii_lowercase normalized.
Definition canonical_module_id (address module_name : string) : string :=
  canonicalize_address address +:+ "::" +:+ module_name.
Definition is_sui_std_module (address : string) : bool :=
  let a := canonicalize_address address in
  bool_decide (a = "0x1") || bool_decide (a = "0x2") || bool_decide (a = "0x3") || bool_decide (a = "0xd").

(** [split_once("::")] *)
Fixpoint split_once (s : string) : option (string * string) :=
  match s with
  | String c s' =>
      match s' with
      | String c' s'' =>
          if Ascii.eqb c ":"%char && Ascii.eqb c' ":"%char then Some ("", s'')
          else '(a, b) ← split_once s'; Some (String c a, b)
      | "" => None
      end
  | "" => None
  end.
(** The characters [:] [/] [\] [*] [?], the double quote, [<] [>] [|]. *)
Definition path_char (c : ascii) : ascii :=
  if bool_decide (N_of_ascii c ∈ [58; 47; 92; 42; 63; 34; 60; 62; 124]%N) then "_"%char else c.
Definition sanitize_path_component : string → string := map_string path_char.

(** A file name at its last dot; a name that starts with its only dot has no
    extension. *)
Fixpoint rsplit_dot (s : string) : option (string * string) :=
  match s with
  | String c s' =>
      match rsplit_dot s' with
      | Some (a, b) => Some (String c a, b)
      | None => if Ascii.eqb c "."%char then Some ("", s') else None
      end
  | "" => None
  end.
Definition file_stem (name : string) : string :=
  match rsplit_dot name with Some ((String _ _) as stem, _) => stem | _ => name end.
Definition extension (name : string) : option string :=
  match rsplit_dot name with Some ((String _ _), ext) => Some ext | _ => None end.

(** ** Rows *)
Definition Path : Type := list string.
Record FileLocation := MkLocation { fl_start_line : Z; fl_start_column : Z; fl_end_line : Z; fl_end_column : Z }.
Definition placeholder_location : FileLocation := MkLocation 1 0 1 0.
Record CallRow := MkCallRow { cr_id : Z; cr_from_id : Z; cr_to_id : Z; cr_description : option string }.
Record FunctionRow := MkFunctionRow {
  fr_id : Z; fr_name : string; fr_args : string; fr_relative_file_path : Path; fr_loc : FileLocation;
  fr_calls : list CallRow; fr_description : option string }.
Record Contract := MkContract {
  ct_id : Z; ct_name : string; ct_relative_file_path : Path; ct_loc : FileLocation; ct_functions : list FunctionRow;
  ct_description : option string }.
(** [interfaces] is always empty. *)
Record CallGraphRows := MkRows { rows_contracts : gmap Z Contract; rows_interfaces : gmap Z Contract }.
Definition set_calls (calls : list CallRow) (f : FunctionRow) : FunctionRow :=
  MkFunctionRow (fr_id f) (fr_name f) (fr_args f) (fr_relative_file_path f) (fr_loc f) calls (fr_description f).
Definition set_functions (fs : list FunctionRow) (c : Contract) : Contract :=
  MkContract (ct_id c) (ct_name c) (ct_relative_file_path c) (ct_loc c) fs (ct_description c).

Record MoveFunctionKey := MkFunctionKey { fk_module_id : string; fk_name : string }.
#[export] Instance MoveFunctionKey_eq_dec : EqDecision MoveFunctionKey.
Proof. solve_decision. Defined.
#[export] Instance MoveFunctionKey_countable : Countable MoveFunctionKey.
Proof. apply (inj_countable' (λ k, (fk_module_id k, fk_name k)) (λ x, MkFunctionKey x.1 x.2)). by intros []. Defined.
Record PendingCall := MkPendingCall { pc_callee : MoveFunctionKey; pc_args : string; pc_description : option string }.
#[export] Instance PendingCall_eq_dec : EqDecision PendingCall.
Proof. solve_decision. Defined.
#[export] Instance PendingCall_countable : Countable PendingCall.
Proof.
  apply (inj_countable' (λ p, (pc_callee p, pc_args p, pc_description p)) (λ x, MkPendingCall x.1.1 x.1.2 x.2)). by intros [].
Defined.

(** The derived orders: the texts of a key, or of a call, one after the other. *)
Fixpoint texts_le (l k : list string) : Prop :=
  match l, k with
  | [], _ => True
  | _ :: _, [] => False
  | x :: l, y :: k => (x ≠ y ∧ String.le x y) ∨ (x = y ∧ texts_le l k)
  end.
#[export] Instance texts_le_dec : RelDecision texts_le.
Proof. intros l. induction l as [|x l IH]; intros [|y k]; simpl; apply _. Defined.
Definition fkey_texts (k : MoveFunctionKey) : list string := [fk_module_id k; fk_name k].
Definition pending_texts (p : PendingCall) : list string :=
  fkey_texts (pc_callee p) ++ [pc_args p] ++ option_list (pc_description p).
Definition pending_iter {V} (m : gmap MoveFunctionKey V) : list (MoveFunctionKey * V) :=
  merge_sort (λ x y, texts_le (fkey_texts x.1) (fkey_texts y.1)) (map_to_list m).
Definition call_iter (s : gset PendingCall) : list PendingCall :=
  merge_sort (λ x y, texts_le (pending_texts x) (pending_texts y)) (elements s).

(** A map from [i32], in order. *)
Definition z_key_le {V} (x y : Z * V) : Prop := (x.1 ≤ y.1)%Z.
#[export] Instance z_key_le_dec {V} : RelDecision (@z_key_le V).
Proof. intros x y. unfold z_key_le. apply _. Defined.
Definition z_iter {V} (m : gmap Z V) : list (Z * V) := merge_sort z_key_le (map_to_list m).

(** [next_id += 1] on an [i32], which wraps around. *)
Definition i32_max : Z := 2147483647.
Definition i32_next (n : Z) : Z := (if n =? i32_max then - (i32_max + 1) else n + 1)%Z.

(** ** Source files *)
Inductive FileType := FT_Dir | FT_File | FT_Other.
Section files.
(** [Path::canonicalize], [is_dir], [is_file] and the entries of a directory
    that can be read, with their names and types; [None]: an error. *)
Context (canonicalize : Path → option Path) (is_dir is_file : Path → bool)
  (read_dir : Path → option (list (string * option FileType))).

Definition canonical_package_root (package_root : Path) : result Path :=
  let package_root := default package_root (canonicalize package_root) in
  if negb (is_dir package_root) then Err else
  if negb (is_file (package_root ++ ["Move.toml"])) then Err else
  Ok package_root.

Definition is_source (module_name name : string) : bool :=
  bool_decide (extension name = Some "move") && bool_decide (file_stem name = module_name).
(** The entries of one directory: the file, or the directories to visit. *)
Fixpoint scan_entries (module_name : string) (directory : Path) (entries : list (string * option FileType))
    (pending : list Path) : Path + list Path :=
  match entries with
  | [] => inr pending
  | (name, file_type) :: entries =>
      match file_type with
      | Some FT_Dir => scan_entries module_name directory entries ((directory ++ [name]) :: pending)
      | Some FT_File =>
          if is_source module_name name then inl (directory ++ [name])
          else scan_entries module_name directory entries pending
      | _ => scan_entries module_name directory entries pending
      end
  end.
(** Fuel for the directories visited; [pending] is a stack. *)
Fixpoint search_loop (fuel : nat) (module_name : string) (pending : list Path) : option (option Path) :=
  match fuel with
  | 0 => None
  | S fuel =>
      match pending with
      | [] => Some None
      | directory :: pending =>
          match scan_entries module_name directory (default [] (read_dir directory)) pending with
          | inl path => Some (Some path)
          | inr pending => search_loop fuel module_name pending
          end
      end
  end.
Definition find_module_source_file (fuel : nat) (root : Path) (module_name : string) : option (option Path) :=
  if negb (is_dir root) then Some None else search_loop fuel module_name [root].

Fixpoint strip_prefix (prefix path : Path) : option Path :=
  match prefix, path with
  | [], _ => Some path
  | x :: prefix, y :: path => if decide (x = y) then strip_prefix prefix path else None
  | _ :: _, [] => None
  end.
Definition relativize_to_analysis_root (analysis_root package_root : Path) (package_name : string) (source_path : Path) : Path :=
  let absolute := default source_path (canonicalize source_path) in
  match strip_prefix analysis_root absolute with
  | Some relative => relative
  | None =>
      match strip_prefix package_root absolute with
      | Some relative => package_name :: relative
      | None => [package_name; default "unknown.move" (last absolute)]
      end
  end.
Fixpoint first_source (fuel : nat) (roots : list Path) (module_name : string) : option (option Path) :=
  match roots with
  | [] => Some None
  | root :: roots =>
      found ← find_module_source_file fuel root module_name;
      match found with Some path => Some (Some path) | None => first_source fuel roots module_name end
  end.
Definition infer_relative_source_path (fuel : nat) (analysis_root package_root : Path) (package_name module_name : string) :
    option Path :=
  let preferred_roots := [package_root ++ ["sources"]; package_root ++ ["tests"];
    package_root ++ ["build"; package_name; "sources"]] in
  found ← first_source fuel preferred_roots module_name;
  Some (match found with
        | Some source_path => relativize_to_analysis_root analysis_root package_root package_name source_path
        | None => [package_name; "sources"; module_name +:+ ".move"]
        end).
End files.
Definition synthetic_relative_path (module_id : string) : Path :=
  let '(address, module_name) := default ("external", module_id) (split_once module_id) in
  ["external"; sanitize_path_component address +:+ "_" +:+ sanitize_path_component module_name +:+ ".move"].

(** ** The call graph *)
Section export.
Context `{AT : AddressText}.
(** The text of an [AccountAddress]: hex without a prefix. *)
Definition account_text (a : MoveAddress) : string := to_canonical_string false a.

Definition render_call_description (type_arguments : list MoveAbiSignatureToken) : option string :=
  match type_arguments with
  | [] => None
  | _ => Some ("type_args=<" +:+ join ", " (map (show_token true) type_arguments) +:+ ">")
  end.
Definition render_args (function : MoveFunctionAbi) : string := join ", " (map (show_token true) (fa_parameters function)).
Definition render_returns (function : MoveFunctionAbi) : string :=
  join ", " (map (show_token true) (fa_return_paramters function)).

(** A package: its name and [all_modules_iter]. *)
Record BuiltPackage := MkBuilt { bp_name : string; bp_modules : list BinaryModule }.

(** The numbers and tables of the first two passes. *)
Record Load := MkLoad {
  ld_next_contract_id : Z; ld_next_function_id : Z; ld_contracts : gmap Z Contract; ld_seen_modules : gset string;
  ld_module_ids : gmap string Z; ld_function_ids : gmap MoveFunctionKey Z; ld_function_locations : gmap Z (Z * nat);
  ld_pending_calls : gmap MoveFunctionKey (gset PendingCall) }.
Definition load_new : Load := MkLoad 1 1 ∅ ∅ ∅ ∅ ∅ ∅.

Definition pending_call (call : MoveFunctionCall) : PendingCall :=
  MkPendingCall (MkFunctionKey (canonical_module_id (show_address (module_address (fc_module call))) (module_name (fc_module call)))
    (fa_name (fc_abi call))) (render_args (fc_abi call)) (render_call_description (fc_tys call)).

(** One function of a module: its row, and its calls. *)
Definition function_row (function_id : Z) (function : MoveFunctionAbi) (relative_file_path : Path) : FunctionRow :=
  let args := render_args function in
  let returns := render_returns function in
  let return_suffix := if bool_decide (returns = "") then "" else ": " +:+ returns in
  MkFunctionRow function_id (fa_name function) args relative_file_path placeholder_location []
    (Some (show_visibility (fa_visibility function) +:+ " " +:+ fa_name function +:+ "(" +:+ args +:+ ")" +:+ return_suffix)).
Definition load_function (module_id : string) (contract_id : Z) (relative_file_path : Path)
    (function : MoveFunctionAbi) (calls : list MoveFunctionCall) (st : Load) (functions : list FunctionRow) :
    Load * list FunctionRow :=
  let function_id := ld_next_function_id st in
  let function_index := length functions in
  let function_key := MkFunctionKey module_id (fa_name function) in
  let call_targets := default ∅ (ld_pending_calls st !! function_key) ∪ list_to_set (map pending_call calls) in
  (MkLoad (ld_next_contract_id st) (i32_next function_id) (ld_contracts st) (ld_seen_modules st) (ld_module_ids st)
     (<[function_key := function_id]> (ld_function_ids st))
     (<[function_id := (contract_id, function_index)]> (ld_function_locations st))
     (<[function_key := call_targets]> (ld_pending_calls st)),
   functions ++ [function_row function_id function relative_file_path]).
Fixpoint load_functions (module_id : string) (contract_id : Z) (relative_file_path : Path)
    (calls : list (MoveFunctionAbi * list MoveFunctionCall)) (st : Load) (functions : list FunctionRow) :
    Load * list FunctionRow :=
  match calls with
  | [] => (st, functions)
  | (function, cs) :: calls =>
      let '(st, functions) := load_function module_id contract_id relative_file_path function cs st functions in
      load_functions module_id contract_id relative_file_path calls st functions
  end.
Definition set_contracts (cs : gmap Z Contract) (st : Load) : Load :=
  MkLoad (ld_next_contract_id st) (ld_next_function_id st) cs (ld_seen_modules st) (ld_module_ids st)
    (ld_function_ids st) (ld_function_locations st) (ld_pending_calls st).
(** A new contract of a name: its number. *)
Definition new_contract (name : string) (st : Load) : Load * Z :=
  let contract_id := ld_next_contract_id st in
  (MkLoad (i32_next contract_id) (ld_next_function_id st) (ld_contracts st) (ld_seen_modules st)
     (<[name := contract_id]> (ld_module_ids st)) (ld_function_ids st) (ld_function_locations st) (ld_pending_calls st),
   contract_id).
Definition mark_seen (module_id : string) (st : Load) : Load :=
  MkLoad (ld_next_contract_id st) (ld_next_function_id st) (ld_contracts st) ({[ module_id ]} ∪ ld_seen_modules st)
    (ld_module_ids st) (ld_function_ids st) (ld_function_locations st) (ld_pending_calls st).

Context (find_function_def_by_name : BinaryModule → string → option FnDefinition).
Context (canonicalize : Path → option Path) (is_dir is_file : Path → bool)
  (read_dir : Path → option (list (string * option FileType))).
(** [SuiCompiledPackage::build_checked] with the constants of the call and
    [resolve_local_dependency_paths] of one folder, which [Compile] models. *)
Context (build_checked : Path → bool → result BuiltPackage).
Context (resolve_local_dependency_paths : Path → bool → result (list Path)).

(** Results: a panic; [None], no fuel for the search of a source file; an error. *)
Definition load_module (fuel : nat) (package_root root : Path) (package_name : string) (module : BinaryModule) (st : Load) :
    panics (option Load) :=
  id ← binary_self_id module;
  if is_sui_std_module (account_text (module_address id)) then Ret (Some st) else
  let module_id := canonical_module_id (account_text (module_address id)) (module_name id) in
  if decide (module_id ∈ ld_seen_modules st) then Ret (Some st) else
  let '(st, contract_id) := new_contract module_id (mark_seen module_id st) in
  match infer_relative_source_path canonicalize is_dir read_dir fuel package_root root package_name (module_name id) with
  | None => Ret None
  | Some relative_file_path =>
      analysis ← bytecode_from_sui_module find_function_def_by_name module;
      let '(st, functions) := load_functions module_id contract_id relative_file_path (ba_calls analysis) st [] in
      Ret (Some (set_contracts (<[contract_id := MkContract contract_id module_id relative_file_path placeholder_location functions None]>
        (ld_contracts st)) st))
  end.
Fixpoint load_modules (fuel : nat) (package_root root : Path) (package_name : string) (modules : list BinaryModule) (st : Load) :
    panics (option Load) :=
  match modules with
  | [] => Ret (Some st)
  | module :: modules =>
      st ← load_module fuel package_root root package_name module st;
      match st with Some st => load_modules fuel package_root root package_name modules st | None => Ret None end
  end.
Fixpoint load_packages (fuel : nat) (package_root : Path) (search_roots : list Path) (test_mode : bool) (st : Load) :
    panics (option (result Load)) :=
  match search_roots with
  | [] => Ret (Some (Ok st))
  | root :: search_roots =>
      match build_checked root test_mode with
      | Err => Ret (Some Err)
      | Ok package =>
          st ← load_modules fuel package_root root (bp_name package) (bp_modules package) st;
          match st with Some st => load_packages fuel package_root search_roots test_mode st | None => Ret None end
      end
  end.

(** A callee that no module has: a function of a contract, external if need be. *)
Definition external_row (function_id : Z) (pending_call : PendingCall) (relative_file_path : Path) : FunctionRow :=
  MkFunctionRow function_id (fk_name (pc_callee pending_call)) (pc_args pending_call) relative_file_path
    placeholder_location [] (Some "external function referenced from Move bytecode").
Definition callee_contract (module_id : string) (st : Load) : Load * Z :=
  match ld_module_ids st !! module_id with
  | Some existing_id => (st, existing_id)
  | None =>
      let '(st, contract_id) := new_contract module_id st in
      (set_contracts (<[contract_id := MkContract contract_id module_id (synthetic_relative_path module_id) placeholder_location []
         (Some "external module referenced from Move call graph")]> (ld_contracts st)) st, contract_id)
  end.
Definition add_callee (pending_call : PendingCall) (st : Load) : panics Load :=
  match ld_function_ids st !! pc_callee pending_call with
  | Some _ => Ret st
  | None =>
      let '(st, contract_id) := callee_contract (fk_module_id (pc_callee pending_call)) st in
      let function_id := ld_next_function_id st in
      contract ← unwrap (ld_contracts st !! contract_id);
      let function_index := length (ct_functions contract) in
      let row := external_row function_id pending_call (ct_relative_file_path contract) in
      Ret (MkLoad (ld_next_contract_id st) (i32_next function_id)
        (<[contract_id := set_functions (ct_functions contract ++ [row]) contract]> (ld_contracts st)) (ld_seen_modules st)
        (ld_module_ids st) (<[pc_callee pending_call := function_id]> (ld_function_ids st))
        (<[function_id := (contract_id, function_index)]> (ld_function_locations st)) (ld_pending_calls st))
  end.
Fixpoint add_callees (calls : list PendingCall) (st : Load) : panics Load :=
  match calls with
  | [] => Ret st
  | call :: calls => st ← add_callee call st; add_callees calls st
  end.

(** The edges of one caller, numbered from [next_call_id]. *)
Fixpoint call_rows (function_ids : gmap MoveFunctionKey Z) (caller_id : Z) (calls : list PendingCall) (next_call_id : Z) :
    panics (list CallRow * Z) :=
  match calls with
  | [] => Ret ([], next_call_id)
  | pending_call :: calls =>
      to_id ← unwrap (function_ids !! pc_callee pending_call);
      '(rows, next) ← call_rows function_ids caller_id calls (i32_next next_call_id);
      Ret (MkCallRow next_call_id caller_id to_id (pc_description pending_call) :: rows, next)
  end.
Fixpoint add_edges (function_ids : gmap MoveFunctionKey Z) (locations : gmap Z (Z * nat))
    (pending : list (MoveFunctionKey * gset PendingCall)) (next_call_id : Z) (contracts : gmap Z Contract) :
    panics (gmap Z Contract) :=
  match pending with
  | [] => Ret contracts
  | (caller_key, call_set) :: pending =>
      caller_id ← unwrap (function_ids !! caller_key);
      '(contract_id, function_index) ← unwrap (locations !! caller_id);
      contract ← unwrap (contracts !! contract_id);
      function ← unwrap (ct_functions contract !! function_index);
      '(rows, next_call_id) ← call_rows function_ids caller_id (call_iter call_set) next_call_id;
      add_edges function_ids locations pending next_call_id
        (<[contract_id := set_functions (<[function_index := set_calls (fr_calls function ++ rows) function]> (ct_functions contract))
           contract]> contracts)
  end.

Definition resolve_search_roots (package_root : Path) (test_mode : bool) : result (list Path) :=
  roots ← resolve_local_dependency_paths package_root test_mode;
  Ok (fold_left (λ roots root, if decide (root ∈ roots) then roots else roots ++ [root]) roots [package_root]).

Definition connect (st : Load) : panics CallGraphRows :=
  st ← add_callees (flat_map (λ x, call_iter x.2) (pending_iter (ld_pending_calls st))) st;
  contracts ← add_edges (ld_function_ids st) (ld_function_locations st) (pending_iter (ld_pending_calls st)) 1 (ld_contracts st);
  Ret (MkRows contracts ∅).
Definition load_call_graph (fuel : nat) (package_root : Path) (test_mode : bool) : panics (option (result CallGraphRows)) :=
  match canonical_package_root canonicalize is_dir is_file package_root with
  | Err => Ret (Some Err)
  | Ok package_root =>
      match resolve_search_roots package_root test_mode with
      | Err => Ret (Some Err)
      | Ok search_roots =>
          st ← load_packages fuel package_root search_roots test_mode load_new;
          match st with
          | None => Ret None
          | Some Err => Ret (Some Err)
          | Some (Ok st) => rows ← connect st; Ret (Some (Ok rows))
          end
      end
  end.

(** ** Structs and metadata *)
Inductive RowAbility := Row_Copy | Row_Drop | Row_Store | Row_Key.
Inductive RowVisibility := Row_Public | Row_Private | Row_PublicPackage.
Record MoveGenericParam := MkGenericParam { gp_name : string; gp_constraints : list RowAbility; gp_phantom : bool }.
Record StructRow := MkStructRow {
  sr_id : Z; sr_contract_id : Z; sr_name : string; sr_abilities : list RowAbility; sr_generic_params : list MoveGenericParam;
  sr_fields : list (string * string) }.
Record FunctionMetadata := MkFunctionMetadata {
  mr_function_id : Z; mr_visibility : RowVisibility; mr_is_entry : bool; mr_generic_params : list MoveGenericParam }.
Record PackageStructure := MkStructure { ps_function_metadata : list FunctionMetadata; ps_structs : list StructRow }.

Definition movy_ability_to_vec (ability : MoveAbility) : list RowAbility :=
  (if ability_contains ability ability_COPY then [Row_Copy] else [])
  ++ (if ability_contains ability ability_DROP then [Row_Drop] else [])
  ++ (if ability_contains ability ability_STORE then [Row_Store] else [])
  ++ (if ability_contains ability ability_KEY then [Row_Key] else []).
Definition visibility_to_knowdit (v : MoveFunctionVisibility) : RowVisibility :=
  match v with Public => Row_Public | Private => Row_Private | Friend => Row_PublicPackage end.
Definition struct_from_abi (id contract_id : Z) (abi : MoveStructAbi) : StructRow :=
  MkStructRow id contract_id (sh_struct_name (sa_handle abi)) (movy_ability_to_vec (sh_abilities (sa_handle abi)))
    (imap (λ i ty_param, MkGenericParam (numbered "T" i) (movy_ability_to_vec (tp_constraints ty_param)) (tp_phantom ty_param))
      (sh_type_parameters (sa_handle abi)))
    (map (λ field, (sf_name field, show_token false (sf_ty field))) (sa_fields abi)).
Definition function_metadata (function_id : Z) (function_abi : MoveFunctionAbi) : FunctionMetadata :=
  MkFunctionMetadata function_id (visibility_to_knowdit (fa_visibility function_abi)) (fa_is_entry function_abi)
    (imap (λ i ability, MkGenericParam (numbered "T" i) (movy_ability_to_vec ability) false) (fa_type_parameters function_abi)).

Record NameLookup := MkLookup { nl_contract_ids : gmap string Z; nl_function_ids : gmap (string * string) Z }.
Definition lookup_functions (name : string) (functions : list FunctionRow) (ids : gmap (string * string) Z) :
    gmap (string * string) Z :=
  fold_left (λ ids f, <[(name, fr_name f) := fr_id f]> ids) functions ids.
Definition add_contract (l : NameLookup) (c : Contract) : NameLookup :=
  MkLookup (<[ct_name c := ct_id c]> (nl_contract_ids l)) (lookup_functions (ct_name c) (ct_functions c) (nl_function_ids l)).
Definition from_call_graph (cg : CallGraphRows) : NameLookup :=
  fold_left add_contract (map snd (z_iter (rows_interfaces cg)))
    (fold_left add_contract (map snd (z_iter (rows_contracts cg))) (MkLookup ∅ ∅)).
Definition contract_id (l : NameLookup) (module_id : string) : option Z := nl_contract_ids l !! module_id.
Definition function_id (l : NameLookup) (module_id function_name : string) : option Z :=
  nl_function_ids l !! (module_id, function_name).

(** What the second walk has collected. *)
Record Collected := MkCollected {
  co_seen : gset string; co_next_struct_id : Z; co_structs : list StructRow; co_struct_ids : gmap (string * string) Z;
  co_metadata : list FunctionMetadata }.
Fixpoint collect_structs (module_id : string) (contract_id : Z) (structs : list MoveStructAbi) (c : Collected) : Collected :=
  match structs with
  | [] => c
  | struct_abi :: structs =>
      let id := co_next_struct_id c in
      collect_structs module_id contract_id structs
        (MkCollected (co_seen c) (i32_next id) (co_structs c ++ [struct_from_abi id contract_id struct_abi])
          (<[(module_id, sh_struct_name (sa_handle struct_abi)) := id]> (co_struct_ids c)) (co_metadata c))
  end.
Fixpoint collect_functions (name_lookup : NameLookup) (module_id : string) (functions : list MoveFunctionAbi) (c : Collected) :
    Collected :=
  match functions with
  | [] => c
  | function_abi :: functions =>
      collect_functions name_lookup module_id functions
        match function_id name_lookup module_id (fa_name function_abi) with
        | Some id =>
            MkCollected (co_seen c) (co_next_struct_id c) (co_structs c) (co_struct_ids c)
              (co_metadata c ++ [function_metadata id function_abi])
        | None => c
        end
  end.
Definition collect_module (name_lookup : NameLookup) (module : BinaryModule) (c : Collected) : panics (result Collected) :=
  abi ← module_from_sui_module module;
  if is_sui_std (module_address (ma_module_id abi)) then Ret (Ok c) else
  let module_id := module_canonical_short (ma_module_id abi) in
  if decide (module_id ∈ co_seen c) then Ret (Ok c) else
  let c := MkCollected ({[ module_id ]} ∪ co_seen c) (co_next_struct_id c) (co_structs c) (co_struct_ids c) (co_metadata c) in
  match contract_id name_lookup module_id with
  | None => Ret Err
  | Some contract_id =>
      Ret (Ok (collect_functions name_lookup module_id (ma_functions abi)
        (collect_structs module_id contract_id (ma_structs abi) c)))
  end.
Fixpoint collect_package (name_lookup : NameLookup) (modules : list BinaryModule) (c : Collected) : panics (result Collected) :=
  match modules with
  | [] => Ret (Ok c)
  | module :: modules =>
      c ← collect_module name_lookup module c;
      match c with Ok c => collect_package name_lookup modules c | Err => Ret Err end
  end.
Fixpoint collect_packages (name_lookup : NameLookup) (search_roots : list Path) (test_mode : bool) (c : Collected) :
    panics (result Collected) :=
  match search_roots with
  | [] => Ret (Ok c)
  | root :: search_roots =>
      match build_checked root test_mode with
      | Err => Ret Err
      | Ok package =>
          c ← collect_package name_lookup (bp_modules package) c;
          match c with Ok c => collect_packages name_lookup search_roots test_mode c | Err => Ret Err end
      end
  end.
Definition collect_package_structure (package_root : Path) (test_mode : bool) (name_lookup : NameLookup) :
    panics (result (PackageStructure * gmap (string * string) Z)) :=
  match canonical_package_root canonicalize is_dir is_file package_root with
  | Err => Ret Err
  | Ok package_root =>
      match resolve_search_roots package_root test_mode with
      | Err => Ret Err
      | Ok search_roots =>
          c ← collect_packages name_lookup search_roots test_mode (MkCollected ∅ 1 [] ∅ []);
          Ret (c ← c; Ok (MkStructure (co_metadata c) (co_structs c), co_struct_ids c))
      end
  end.

Record PackageWalk := MkWalk {
  pw_call_graph : CallGraphRows; pw_structure : PackageStructure; pw_struct_id_lookup : gmap (string * string) Z }.
Definition from_package_root (fuel : nat) (package_root : Path) (test_mode : bool) : panics (option (result PackageWalk)) :=
  r ← load_call_graph fuel package_root test_mode;
  match r with
  | None => Ret None
  | Some Err => Ret (Some Err)
  | Some (Ok call_graph) =>
      s ← collect_package_structure package_root test_mode (from_call_graph call_graph);
      Ret (Some (x ← s; Ok (MkWalk call_graph x.1 x.2)))
  end.
End export.
