(* ===== verification/ExportSpec.v ===== *)
(** * ExportSpec: the call graph is consistent

    Numbers are dense and unique, every edge leads from a function of the graph
    to one, and the edges are the calls found in the bytecode.

    The tables of the walk stay consistent while contracts and functions are
    added: contracts and functions are numbered densely from one, every number
    is found where the tables say. The edges of a function are the calls of its
    bytecode, and both ends are functions of the graph. *)
From S2P Require Import Prelude Types Abi Text FuzzTracer Compile Binary BinarySpec AbiText Export.
From Stdlib Require Import Ascii ZifyBool.
From Stdlib Require String.
Local Open Scope string_scope.
Local Open Scope list_scope.

(** ** Addresses as text *)
Definition hex_char (c : ascii) : bool :=
  let n := N_of_ascii c in (((48 <=? n) && (n <=? 57)) || ((97 <=? n) && (n <=? 102)))%N.
Fixpoint all_chars (f : ascii → bool) (s : string) : bool :=
  match s with String c s => f c && all_chars f s | "" => true end.

Lemma hex_digit_char n : (n < 16)%N → hex_char (hex_digit n) = true.
Proof.
  intros Hn. rewrite <-(N2Nat.id n). assert (N.to_nat n < 16) as Hk by lia. revert Hk. generalize (N.to_nat n). intros k Hk.
  do 16 (destruct k as [|k]; [by vm_compute|]). lia.
Qed.
Lemma hex_digits_chars k n tl : all_chars hex_char tl = true → all_chars hex_char (hex_digits k n tl) = true.
Proof.
  revert n tl. induction k as [|k IH]; intros n tl H; [done|]. apply IH. simpl. rewrite H, andb_true_r. apply hex_digit_char, N.mod_lt. done.
Qed.
Lemma hex_char_plain c : hex_char c = true → is_space c = false ∧ lower c = c ∧ c ≠ "x"%char ∧ c ≠ ":"%char.
Proof.
  intros H. unfold hex_char in H. unfold is_space, lower. cbv zeta in *. remember (N_of_ascii c) as n eqn:En.
  assert ((48 ≤ n ≤ 57)%N ∨ (97 ≤ n ≤ 102)%N) as Hn by lia. split; [lia|]. split.
  - destruct ((65 <=? n)%N && (n <=? 90)%N) eqn:E; [exfalso; lia|done].
  - split; intros ->; vm_compute in En; lia.
Qed.
Lemma trim_start_hex s : all_chars hex_char s = true → trim_start s = s.
Proof. destruct s as [|c s]; [done|]. simpl. intros [H _]%andb_true_iff. by destruct (hex_char_plain c H) as (-> & _). Qed.
Lemma trim_end_hex s : all_chars hex_char s = true → trim_end s = s.
Proof.
  induction s as [|c s IH]; [done|]. simpl. intros [H Hs]%andb_true_iff. rewrite IH by done.
  destruct (hex_char_plain c H) as (-> & _). by destruct s.
Qed.
Lemma lower_hex s : all_chars hex_char s = true → to_ascii_lowercase s = s.
Proof.
  unfold to_ascii_lowercase. induction s as [|c s IH]; [done|]. simpl. intros [H Hs]%andb_true_iff.
  destruct (hex_char_plain c H) as (_ & -> & _). by rewrite IH.
Qed.
Lemma strip_hex s : all_chars hex_char s = true → strip_0x s = s.
Proof.
  destruct s as [|c [|d s]]; [done| |]; simpl.
  - intros _. by destruct c as [[] [] [] [] [] [] [] []].
  - intros (_ & (Hd & _)%andb_true_iff)%andb_true_iff. apply hex_char_plain in Hd as (_ & _ & Hd & _).
    destruct c as [[] [] [] [] [] [] [] []]; try done. destruct d as [[] [] [] [] [] [] [] []]; done.
Qed.
Lemma trim_zeros_chars f s : all_chars f s = true → all_chars f (trim_zeros s) = true.
Proof. induction s as [|c s IH]; [done|]. simpl. intros [Hc Hs]%andb_true_iff. case_match; [by apply IH|]. simpl. by rewrite Hc, Hs. Qed.
Lemma trim_end_0x s : all_chars hex_char s = true → trim_end ("0x" +:+ s) = "0x" +:+ s.
Proof. intros H. change (trim_end (String "0" (String "x" s)) = String "0" (String "x" s)). cbn [trim_end]. rewrite trim_end_hex by done. by destruct s. Qed.
Lemma hex_parse_trim s : hex_parse (trim_zeros s) 0 = hex_parse s 0.
Proof.
  induction s as [|c s IH]; [done|]. cbn [trim_zeros]. destruct (Ascii.eqb_spec c "0"%char) as [->|]; [|done].
  rewrite IH. reflexivity.
Qed.

Section text.
Context `{AT : AddressText}.
(** The canonical text: 64 hex digits, after [0x] on demand. *)
Hypothesis canonical_hex : ∀ p a, to_canonical_string p a = (if p : bool then "0x" else "") +:+ hex_digits 64 (addr_val a) "".

Lemma canonical_bare a : to_canonical_string false a = hex_digits 64 (addr_val a) "".
Proof. by rewrite canonical_hex. Qed.
Lemma canonicalize_hex s : all_chars hex_char s = true →
  canonicalize_address s = "0x" +:+ (if bool_decide (trim_zeros s = "") then "0" else trim_zeros s).
Proof.
  intros H. unfold canonicalize_address, trim. rewrite trim_start_hex, trim_end_hex, strip_hex by done. f_equal.
  case_bool_decide; [reflexivity|]. by apply lower_hex, trim_zeros_chars.
Qed.
Lemma canonical_account a : canonicalize_address (account_text a) = address_canonical_short a.
Proof.
  unfold account_text, address_canonical_short. rewrite canonical_bare.
  rewrite canonicalize_hex by by apply hex_digits_chars. by case_bool_decide.
Qed.
Lemma canonical_shown a : canonicalize_address (show_address a) = address_canonical_short a.
Proof.
  rewrite <-canonical_account. unfold account_text, show_address. rewrite canonical_bare, canonical_hex.
  rewrite (canonicalize_hex (hex_digits 64 (addr_val a) "")) by by apply hex_digits_chars. unfold canonicalize_address, trim.
  assert (all_chars hex_char (hex_digits 64 (addr_val a) "") = true) as H by by apply hex_digits_chars.
  revert H. generalize (hex_digits 64 (addr_val a) ""). intros s H.
  change (trim_start ("0x" +:+ s)) with ("0x" +:+ s). rewrite trim_end_0x by done. change (strip_0x ("0x" +:+ s)) with s.
  f_equal. case_bool_decide; [reflexivity|]. by apply lower_hex, trim_zeros_chars.
Qed.
Lemma short_inj a b : (addr_val a < 2 ^ 256)%N → (addr_val b < 2 ^ 256)%N →
  address_canonical_short a = address_canonical_short b → a = b.
Proof.
  assert (∀ a, (addr_val a < 2 ^ 256)%N → ∃ s, address_canonical_short a = "0x" +:+ s ∧ hex_parse s 0 = Some (addr_val a)) as H.
  { intros [n] Hn. unfold address_canonical_short. rewrite canonical_bare. simpl addr_val in *.
    assert (hex_parse (hex_digits 64 n "") 0 = Some n) as Hp
      by (rewrite hex_parse_digits; [done|by change (16 ^ N.of_nat 64)%N with (2 ^ 256)%N]).
    rewrite <-hex_parse_trim in Hp. case_bool_decide as He; [|by eexists].
    exists "0". split; [done|]. rewrite He in Hp. by injection Hp as <-. }
  intros Ha Hb E. destruct (H a Ha) as (s & Es & Hs), (H b Hb) as (t & Et & Ht). rewrite Es, Et in E.
  change (String "0" (String "x" s) = String "0" (String "x" t)) in E. injection E as E. subst t.
  destruct a, b. simpl in *. congruence.
Qed.
Lemma std_module_exact a : (addr_val a < 2 ^ 256)%N → is_sui_std_module (account_text a) = is_sui_std a.
Proof.
  intros Ha. unfold is_sui_std_module, is_sui_std. rewrite canonical_account.
  assert (∀ n s, (n < 16)%N → address_canonical_short (MkMoveAddress n) = s →
    bool_decide (address_canonical_short a = s) = bool_decide (a = MkMoveAddress n)) as H.
  { intros n s Hn <-. apply bool_decide_ext. split; [|by intros ->]. apply short_inj; [done|simpl; lia]. }
  assert (∀ n s, (n < 16)%N → (let t := trim_zeros (hex_digits 64 n "") in if bool_decide (t = "") then "0x0" else "0x" +:+ t) = s →
    address_canonical_short (MkMoveAddress n) = s) as Hs.
  { intros n s Hn <-. unfold address_canonical_short. by rewrite canonical_bare. }
  rewrite (H 1%N "0x1"), (H 2%N "0x2"), (H 3%N "0x3"), (H 13%N "0xd"); [reflexivity|..];
    first [done|apply Hs; [done|by vm_compute]].
Qed.
End text.

(** ** Source files *)
Lemma rsplit_dot_app s ext : (∀ a b, rsplit_dot ext ≠ Some (a, b)) → rsplit_dot (s +:+ "." +:+ ext) = Some (s, ext).
Proof.
  intros He. assert (rsplit_dot ("." +:+ ext) = Some ("", ext)) as H0.
  { change (rsplit_dot (String "." ext) = Some ("", ext)). cbn [rsplit_dot].
    destruct (rsplit_dot ext) as [[a b]|] eqn:E; [by destruct (He a b)|done]. }
  induction s as [|c s IH]; [done|]. change (rsplit_dot (String c (s +:+ "." +:+ ext)) = Some (String c s, ext)).
  cbn [rsplit_dot]. by rewrite IH.
Qed.
Lemma rsplit_dot_Some s a b : rsplit_dot s = Some (a, b) → s = a +:+ "." +:+ b.
Proof.
  revert a b. induction s as [|c s IH]; intros a b; [done|]. cbn [rsplit_dot]. destruct (rsplit_dot s) as [[a' b']|].
  - intros [= <- <-]. rewrite (IH a' b') at 1; done.
  - destruct (Ascii.eqb_spec c "."%char) as [->|]; [|done]. by intros [= <- <-].
Qed.
Lemma is_source_iff module_name name : is_source module_name name = true ↔ module_name ≠ "" ∧ name = module_name +:+ ".move".
Proof.
  unfold is_source, extension, file_stem. split.
  - intros [He Hs]%andb_true_iff. apply bool_decide_eq_true_1 in He, Hs.
    destruct (rsplit_dot name) as [[[|c stem] ext]|] eqn:E; [done| |done]. apply rsplit_dot_Some in E. simplify_eq. done.
  - intros [Hne ->]. pose proof (rsplit_dot_app module_name "move" ltac:(intros a b; vm_compute; done)) as E.
    change ("." +:+ "move") with ".move" in E. rewrite E. destruct module_name as [|c s]; [done|]. rewrite andb_true_iff, !bool_decide_eq_true. done.
Qed.

Section search.
Context (read_dir : Path → option (list (string * option FileType))) (module_name : string).
Definition entries (d : Path) : list (string * option FileType) := default [] (read_dir d).
Definition subdirs (d : Path) (es : list (string * option FileType)) : list Path :=
  omap (λ e, match e.2 with Some FT_Dir => Some (d ++ [e.1]) | _ => None end) es.
Definition has_source (d : Path) (p : Path) : Prop :=
  ∃ name, (name, Some FT_File) ∈ entries d ∧ is_source module_name name = true ∧ p = d ++ [name].
Inductive under (root : Path) : Path → Prop :=
| under_root : under root root
| under_dir d d' : under root d → d' ∈ subdirs d (entries d) → under root d'.
(** The directory tree is finite: a directory weighs more than those in it. *)
Definition finite_tree (weight : Path → nat) : Prop := ∀ d, sum_list_with weight (subdirs d (entries d)) < weight d.

Lemma scan_entries_spec d es pending :
  match scan_entries module_name d es pending with
  | inl p => ∃ name, (name, Some FT_File) ∈ es ∧ is_source module_name name = true ∧ p = d ++ [name]
  | inr pending' => pending' = reverse (subdirs d es) ++ pending ∧
      ∀ name, (name, Some FT_File) ∈ es → is_source module_name name = false
  end.
Proof.
  revert pending. induction es as [|[name [[| |]|]] es IH]; intros pending; cbn [scan_entries].
  - split; [done|]. by intros name ?%elem_of_nil.
  - specialize (IH ((d ++ [name]) :: pending)). destruct (scan_entries _ _ _ _) as [p|pending'].
    + destruct IH as (n & Hn & ?). exists n. split; [by right|done].
    + destruct IH as [-> IH]. split.
      * unfold subdirs. csimpl. by rewrite reverse_cons, <-app_assoc.
      * intros n [[=]|Hn]%elem_of_cons. by apply IH.
  - destruct (is_source module_name name) eqn:Es.
    + exists name. split; [by left|done].
    + specialize (IH pending). destruct (scan_entries _ _ _ _) as [p|pending'].
      * destruct IH as (n & Hn & ?). exists n. split; [by right|done].
      * destruct IH as [-> IH]. split; [done|]. by intros n [[= ->]|Hn]%elem_of_cons; [|apply IH].
  - specialize (IH pending). destruct (scan_entries _ _ _ _) as [p|pending'].
    + destruct IH as (n & Hn & ?). exists n. split; [by right|done].
    + destruct IH as [-> IH]. split; [done|]. intros n [[=]|Hn]%elem_of_cons. by apply IH.
  - specialize (IH pending). destruct (scan_entries _ _ _ _) as [p|pending'].
    + destruct IH as (n & Hn & ?). exists n. split; [by right|done].
    + destruct IH as [-> IH]. split; [done|]. intros n [[=]|Hn]%elem_of_cons. by apply IH.
Qed.
Lemma under_below d c x : c ∈ subdirs d (entries d) → under c x → under d x.
Proof.
  intros Hc. induction 1 as [|y x Hy IH Hx].
  - eapply under_dir; [apply under_root|exact Hc].
  - eapply under_dir; [exact IH|exact Hx].
Qed.
Lemma under_step d x : under d x → x = d ∨ ∃ d', d' ∈ subdirs d (entries d) ∧ under d' x.
Proof.
  induction 1 as [|y x Hy IH Hx]; [by left|]. destruct IH as [->|(d' & Hd' & Hu)]; right; [exists x; split; [done|constructor]|].
  exists d'. split; [done|]. by apply (under_dir d' y).
Qed.
Lemma search_loop_spec weight fuel : finite_tree weight → ∀ pending, sum_list_with weight pending < fuel →
  ∃ r, search_loop read_dir fuel module_name pending = Some r ∧
    match r with
    | Some p => ∃ root d, root ∈ pending ∧ under root d ∧ has_source d p
    | None => ∀ root d p, root ∈ pending → under root d → ¬ has_source d p
    end.
Proof.
  intros Hw. induction fuel as [|fuel IH]; intros pending Hf; [lia|]. cbn [search_loop]. destruct pending as [|d pending].
  - exists None. split; [done|]. by intros ? ? ? ?%elem_of_nil.
  - pose proof (scan_entries_spec d (entries d) pending) as Hs. unfold entries in Hs at 1.
    destruct (scan_entries _ _ _ _) as [p|pending'].
    + exists (Some p). split; [done|]. exists d, d. split; [by left|]. split; [constructor|done].
    + destruct Hs as [-> Hno]. destruct (IH (reverse (subdirs d (entries d)) ++ pending)) as (r & E & Hr).
      { specialize (Hw d). simpl in Hf. rewrite sum_list_with_app.
        assert (sum_list_with weight (reverse (subdirs d (entries d))) = sum_list_with weight (subdirs d (entries d))) as ->; [|lia].
        by rewrite sum_list_with_reverse. }
      exists r. split; [done|]. destruct r as [p|].
      * destruct Hr as (root & d' & Hin & Hu & Hsrc). apply elem_of_app in Hin as [Hin|Hin].
        -- exists d, d'. split; [by left|]. split; [|done]. rewrite elem_of_reverse in Hin. exact (under_below d root d' Hin Hu).
        -- exists root, d'. split; [by right|done].
      * intros root d' p [->|Hin]%elem_of_cons Hu Hsrc.
        -- apply under_step in Hu as [->|(c & Hc & Hu)].
           ++ destruct Hsrc as (n & Hn & Hs & _). rewrite (Hno n Hn) in Hs. done.
           ++ apply (Hr c d' p); [|done..]. apply elem_of_app. left. by apply elem_of_reverse.
        -- apply (Hr root d' p); [|done..]. apply elem_of_app. by right.
Qed.
(** In a finite directory tree the search for a module's source ends and
    gives a file below the root that is named after the module, with the
    extension [move]; it gives none only when there is none. *)
Theorem find_source_exact weight is_dir root : finite_tree weight → ∃ r,
  find_module_source_file is_dir read_dir (S (weight root)) root module_name = Some r ∧
  match r with
  | Some p => ∃ d, under root d ∧ has_source d p
  | None => is_dir root = false ∨ ∀ d p, under root d → ¬ has_source d p
  end.
Proof.
  intros Hw. unfold find_module_source_file. destruct (is_dir root); cbn [negb]; [|exists None; split; [done|by left]].
  destruct (search_loop_spec weight (S (weight root)) Hw [root]) as (r & E & Hr); [simpl; lia|]. exists r. split; [done|].
  destruct r as [p|].
  - destruct Hr as (x & d & ->%list_elem_of_singleton & H). by exists d.
  - right. intros d p. apply Hr. by left.
Qed.
End search.

(** ** Witness: a source in a directory below the root *)
Definition demo_dir (d : Path) : option (list (string * option FileType)) :=
  if decide (d = ["r"]) then Some [("a.txt", Some FT_File); ("x", Some FT_Dir); ("y", None)]
  else if decide (d = ["r"; "x"]) then Some [("coin.mv", Some FT_File); ("coin.move", Some FT_File)] else None.
Definition demo_weight (d : Path) : nat := if decide (d = ["r"]) then 2 else 1.
Lemma find_source_exact_witness :
  find_module_source_file (λ _, true) demo_dir (S (demo_weight ["r"])) ["r"] "coin" = Some (Some ["r"; "x"; "coin.move"]) ∧
  ∃ d, under demo_dir ["r"] d ∧ has_source demo_dir "coin" d ["r"; "x"; "coin.move"].
Proof.
  assert (finite_tree demo_dir demo_weight) as Hw.
  { intros d. unfold entries, demo_dir, demo_weight. destruct (decide (d = ["r"])) as [->|]; [vm_compute; lia|].
    destruct (decide (d = ["r"; "x"])) as [->|]; [vm_compute; lia|simpl; lia]. }
  destruct (find_source_exact demo_dir "coin" demo_weight (λ _, true) ["r"] Hw) as (r & E & Hr).
  assert (find_module_source_file (λ _, true) demo_dir (S (demo_weight ["r"])) ["r"] "coin" = Some (Some ["r"; "x"; "coin.move"])) as E'
    by (vm_compute; reflexivity).
  split; [exact E'|]. rewrite E' in E. injection E as <-. exact Hr.
Defined.

Local Open Scope string_scope.
Local Open Scope list_scope.

Lemma i32_next_small n : (n < i32_max)%Z → i32_next n = (n + 1)%Z.
Proof. intros H. unfold i32_next. destruct (Z.eqb_spec n i32_max); lia. Qed.

(** ** Consistent tables *)

(** A function of the contracts, and where it is. *)
Definition at_fn (cs : gmap Z Contract) (c : Z) (i : nat) (k : Contract) (f : FunctionRow) : Prop :=
  cs !! c = Some k ∧ ct_functions k !! i = Some f.
Definition row_key (k : Contract) (f : FunctionRow) : MoveFunctionKey := MkFunctionKey (ct_name k) (fr_name f).
Record wf_load (st : Load) : Prop := MkWfLoad {
  wl_first : (1 ≤ ld_next_contract_id st)%Z ∧ (1 ≤ ld_next_function_id st)%Z;
  wl_contracts : ∀ c, is_Some (ld_contracts st !! c) ↔ (1 ≤ c < ld_next_contract_id st)%Z;
  wl_id : ∀ c k, ld_contracts st !! c = Some k → ct_id k = c;
  wl_modules : ∀ n c, ld_module_ids st !! n = Some c ↔ ∃ k, ld_contracts st !! c = Some k ∧ ct_name k = n;
  wl_dense : ∀ id, is_Some (ld_function_locations st !! id) ↔ (1 ≤ id < ld_next_function_id st)%Z;
  wl_locations : ∀ id c i, ld_function_locations st !! id = Some (c, i) ↔
    ∃ k f, at_fn (ld_contracts st) c i k f ∧ fr_id f = id;
  wl_keys : ∀ key id, ld_function_ids st !! key = Some id ↔
    ∃ c i k f, at_fn (ld_contracts st) c i k f ∧ fr_id f = id ∧ row_key k f = key;
  wl_calls : ∀ c i k f, at_fn (ld_contracts st) c i k f → fr_calls f = [] }.

Lemma wf_load_new : wf_load load_new.
Proof.
  assert (∀ c i k f, ¬ at_fn ∅ c i k f) as H by (intros c i k f [Hc _]; by rewrite lookup_empty in Hc).
  split; cbn [load_new ld_next_contract_id ld_next_function_id ld_contracts ld_module_ids ld_function_locations ld_function_ids].
  - lia.
  - intros c. rewrite lookup_empty. split; [by intros [? ?]|lia].
  - intros c k. by rewrite lookup_empty.
  - intros n c. rewrite lookup_empty. split; [done|]. intros (k & Hk & _). by rewrite lookup_empty in Hk.
  - intros c. rewrite lookup_empty. split; [by intros [? ?]|lia].
  - intros id c i. rewrite lookup_empty. split; [done|]. intros (k & f & Hf & _). by destruct (H c i k f).
  - intros key id. rewrite lookup_empty. split; [done|]. intros (c & i & k & f & Hf & _). by destruct (H c i k f).
  - intros c i k f Hf. by destruct (H c i k f).
Qed.

(** A contract without functions is added under the next number. *)
Definition push_contract (k : Contract) (st : Load) : Load :=
  set_contracts (<[ld_next_contract_id st := k]> (ld_contracts st)) (new_contract (ct_name k) st).1.
Lemma wf_push_contract k st : wf_load st → ct_id k = ld_next_contract_id st → ct_functions k = [] →
  ld_module_ids st !! ct_name k = None → (ld_next_contract_id st < i32_max)%Z → wf_load (push_contract k st).
Proof.
  intros [Hf Hc Hid Hm Hd Hl Hk Hn] Hki Hfs Hnew Hlt.
  assert (ld_contracts st !! ld_next_contract_id st = None) as Hno.
  { apply eq_None_not_Some. rewrite Hc. lia. }
  assert (∀ c i k' f, at_fn (<[ld_next_contract_id st := k]> (ld_contracts st)) c i k' f ↔ at_fn (ld_contracts st) c i k' f) as Hat.
  { intros c i k' f. unfold at_fn. rewrite lookup_insert_Some. split.
    - intros [[[<- <-]|[Hne Hx]] Hi]; [by rewrite Hfs in Hi|done].
    - intros [Hx Hi]. split; [|done]. right. split; [|done]. congruence. }
  unfold push_contract, new_contract.
  split; cbn [fst set_contracts ld_next_contract_id ld_next_function_id ld_contracts ld_module_ids ld_function_locations ld_function_ids];
    rewrite ?i32_next_small by done.
  - lia.
  - intros c. rewrite lookup_insert_is_Some', Hc. lia.
  - intros c k' [[<- <-]|[_ Hx]]%lookup_insert_Some; [done|by apply Hid].
  - intros n c. rewrite lookup_insert_Some, Hm. split.
    + intros [[<- <-]|[Hne (k' & Hk' & Hn')]]; [exists k; by rewrite lookup_insert_eq|]. exists k'. split; [|done].
      apply lookup_insert_Some. right. split; [congruence|done].
    + intros (k' & [[<- <-]|[Hne Hx]]%lookup_insert_Some & Hn'); [by left|]. right. split; [|by exists k'].
      intros <-. assert (ld_module_ids st !! ct_name k = Some c) as E by (apply Hm; by exists k'). congruence.
  - done.
  - intros id c i. rewrite Hl. by setoid_rewrite Hat.
  - intros key id. rewrite Hk. by setoid_rewrite Hat.
  - intros c i k' f H%Hat. by eapply Hn.
Qed.

(** A function is added at the end of a contract, under the next number. *)
Definition push_function (c : Z) (k : Contract) (f : FunctionRow) (pending : gmap MoveFunctionKey (gset PendingCall)) (st : Load) : Load :=
  MkLoad (ld_next_contract_id st) (i32_next (ld_next_function_id st))
    (<[c := set_functions (ct_functions k ++ [f]) k]> (ld_contracts st)) (ld_seen_modules st) (ld_module_ids st)
    (<[row_key k f := ld_next_function_id st]> (ld_function_ids st))
    (<[ld_next_function_id st := (c, length (ct_functions k))]> (ld_function_locations st)) pending.
Lemma wf_push_function c k f pending st : wf_load st → ld_contracts st !! c = Some k → fr_id f = ld_next_function_id st →
  fr_calls f = [] → ld_function_ids st !! row_key k f = None → (ld_next_function_id st < i32_max)%Z →
  wf_load (push_function c k f pending st).
Proof.
  intros [Hf Hc Hid Hm Hd Hl Hk Hn] Hck Hfi Hfc Hnew Hlt. set (k2 := set_functions (ct_functions k ++ [f]) k).
  assert (∀ c' i k' g, at_fn (<[c := k2]> (ld_contracts st)) c' i k' g ↔
    (c' = c ∧ k' = k2 ∧ ((ct_functions k !! i = Some g) ∨ (i = length (ct_functions k) ∧ g = f))) ∨
    (c' ≠ c ∧ at_fn (ld_contracts st) c' i k' g)) as Hat.
  { intros c' i k' g. unfold at_fn. rewrite lookup_insert_Some. split.
    - intros [[[<- <-]|[Hne Hx]] Hi]; [left|by right]. split; [done|]. split; [done|]. unfold k2 in Hi. cbn [set_functions ct_functions] in Hi.
      apply lookup_snoc_Some in Hi as [[? ?]|[-> <-]]; [by left|by right].
    - intros [(-> & -> & Hi)|(Hne & Hx & Hi)]; [|by split; [right|]]. split; [by left|]. unfold k2. cbn [set_functions ct_functions].
      apply lookup_snoc_Some. destruct Hi as [Hi|[-> ->]]; [left; split; [by apply lookup_lt_Some in Hi|done]|by right]. }
  assert (row_key k2 = row_key k) as Hrk by done.
  unfold push_function. fold k2.
  split; cbn [ld_next_contract_id ld_next_function_id ld_contracts ld_module_ids ld_function_locations ld_function_ids];
    rewrite ?i32_next_small by done.
  - lia.
  - intros c'. rewrite lookup_insert_is_Some', Hc. assert (is_Some (ld_contracts st !! c)) as H%Hc by (by eexists). lia.
  - intros c' k' [[<- <-]|[_ Hx]]%lookup_insert_Some; [by apply Hid in Hck|by apply Hid].
  - intros n c'. rewrite Hm. split.
    + intros (k' & Hk' & Hn'). destruct (decide (c = c')) as [<-|Hne].
      * exists k2. rewrite lookup_insert_eq. split; [done|]. assert (k' = k) as -> by congruence. done.
      * exists k'. by rewrite lookup_insert_ne.
    + intros (k' & [[<- <-]|[Hne Hx]]%lookup_insert_Some & Hn'); [by exists k|by exists k'].
  - intros id. rewrite lookup_insert_is_Some', Hd. lia.
  - intros id c' i. rewrite lookup_insert_Some, Hl. setoid_rewrite Hat. split.
    + intros [[<- [= <- <-]]|[Hne (k' & g & Hat' & Hg)]].
      * exists k2, f. split; [|done]. left. split; [done|]. split; [done|]. by right.
      * destruct (decide (c' = c)) as [->|Hcc].
        -- destruct Hat' as [Hx Hi]. assert (k' = k) as -> by congruence. exists k2, g. split; [|done]. left. auto.
        -- exists k', g. split; [|done]. by right.
    + intros (k' & g & [(-> & -> & [Hi|[-> ->]])|(Hcc & Hat')] & Hg).
      * right. split; [|exists k, g; done]. intros Heq. assert (is_Some (ld_function_locations st !! id)) as Hs.
        { exists (c, i). apply Hl. exists k, g. done. } apply Hd in Hs. lia.
      * left. rewrite <-Hg, Hfi. done.
      * right. split; [|by exists k', g]. intros Heq. assert (is_Some (ld_function_locations st !! id)) as Hs.
        { exists (c', i). apply Hl. exists k', g. done. } apply Hd in Hs. lia.
  - intros key id. rewrite lookup_insert_Some, Hk. setoid_rewrite Hat. split.
    + intros [[<- <-]|[Hne (c' & i & k' & g & Hat' & Hg & Hkey)]].
      * exists c, (length (ct_functions k)), k2, f. split; [|by rewrite Hrk]. left. auto.
      * destruct (decide (c' = c)) as [->|Hcc].
        -- destruct Hat' as [Hx Hi]. assert (k' = k) as -> by congruence. exists c, i, k2, g. split; [|by rewrite Hrk]. left. auto.
        -- exists c', i, k', g. split; [|done]. by right.
    + intros (c' & i & k' & g & [(-> & -> & [Hi|[-> ->]])|(Hcc & Hat')] & Hg & Hkey).
      * right. rewrite Hrk in Hkey. assert (ld_function_ids st !! key = Some id) as E by (apply Hk; by exists c, i, k, g).
        split; [congruence|by exists c, i, k, g].
      * left. rewrite Hrk in Hkey. rewrite <-Hg, Hfi. done.
      * right. assert (ld_function_ids st !! key = Some id) as E by (apply Hk; by exists c', i, k', g).
        split; [congruence|by exists c', i, k', g].
  - intros c' i k' g [(-> & -> & [Hi|[-> ->]])|(Hcc & Hat')]%Hat; [by eapply (Hn c i k g)|done|by eapply Hn].
Qed.

(** The tables of a function name one place. *)
Lemma wf_key_id st c i k f : wf_load st → at_fn (ld_contracts st) c i k f → ld_function_ids st !! row_key k f = Some (fr_id f).
Proof. intros Hw H. apply (wl_keys _ Hw). by exists c, i, k, f. Qed.
Lemma wf_contract_name st c c' k k' : wf_load st → ld_contracts st !! c = Some k → ld_contracts st !! c' = Some k' →
  ct_name k = ct_name k' → c = c'.
Proof.
  intros Hw H H' E. assert (ld_module_ids st !! ct_name k = Some c) as E1 by (apply (wl_modules _ Hw); by exists k).
  assert (ld_module_ids st !! ct_name k = Some c') as E2 by (apply (wl_modules _ Hw); by exists k'). congruence.
Qed.

(** ** The modules of the packages *)
Definition Calls : Type := list (MoveFunctionAbi * list MoveFunctionCall).
Definition fn_weight (x : MoveFunctionAbi * list MoveFunctionCall) : nat := S (length x.2).
Definition module_weight (calls : Calls) : nat := S (sum_list_with fn_weight calls).
(** The calls that are still to be connected. *)
Definition spent (m : gmap MoveFunctionKey (gset PendingCall)) : nat := sum_list_with (λ x, size x.2) (map_to_list m).
Lemma spent_insert m k s : m !! k = None → spent (<[k := s]> m) = (size s + spent m)%nat.
Proof.
  intros H. unfold spent. change (size s + sum_list_with (λ x, size x.2) (map_to_list m))%nat with
    (sum_list_with (λ x, size x.2) ((k, s) :: map_to_list m)).
  assert (∀ l l' : list (MoveFunctionKey * gset PendingCall), l ≡ₚ l' → sum_list_with (λ x, size x.2) l = sum_list_with (λ x, size x.2) l') as Hp.
  { induction 1; simpl; lia. }
  apply Hp. by apply map_to_list_insert.
Qed.
Lemma size_list_to_set_le (l : list PendingCall) : (size (list_to_set l : gset PendingCall) ≤ length l)%nat.
Proof.
  induction l as [|x l IH]; [done|]. cbn [list_to_set length]. rewrite size_union_alt, size_singleton.
  assert (size ((list_to_set l : gset PendingCall) ∖ {[x]}) ≤ size (list_to_set l : gset PendingCall))%nat; [|lia].
  apply subseteq_size. set_solver.
Qed.

Section load.
Context `{AT : AddressText}.
Context (mid : string) (cid : Z) (rel : Path).
(** The tables with the contract that is being filled. *)
Definition filled (st : Load) (fs : list FunctionRow) : Load :=
  set_contracts (<[cid := MkContract cid mid rel placeholder_location fs None]> (ld_contracts st)) st.
Definition fn_key (x : MoveFunctionAbi * list MoveFunctionCall) : MoveFunctionKey := MkFunctionKey mid (fa_name x.1).
Definition loaded_row (path : Path) (x : MoveFunctionAbi * list MoveFunctionCall) (f : FunctionRow) : Prop :=
  f = function_row (fr_id f) x.1 path.
Definition fn_calls (x : MoveFunctionAbi * list MoveFunctionCall) : gset PendingCall := list_to_set (map pending_call x.2).

Lemma load_function_spec f cs st fs : wf_load (filled st fs) → fa_name f ∉ map fr_name fs →
  ld_pending_calls st !! fn_key (f, cs) = None → (ld_next_function_id st < i32_max)%Z →
  ∃ st' fs', load_function mid cid rel f cs st fs = (st', fs') ∧ wf_load (filled st' fs') ∧
    fs' = fs ++ [function_row (ld_next_function_id st) f rel] ∧ ld_contracts st' = ld_contracts st ∧
    ld_seen_modules st' = ld_seen_modules st ∧ ld_module_ids st' = ld_module_ids st ∧
    ld_next_contract_id st' = ld_next_contract_id st ∧ ld_next_function_id st' = (ld_next_function_id st + 1)%Z ∧
    ld_pending_calls st' = <[fn_key (f, cs) := fn_calls (f, cs)]> (ld_pending_calls st).
Proof.
  intros Hw Hn Hp Hlt. unfold load_function. unfold fn_key in Hp. cbn [fst] in Hp. rewrite Hp. eexists _, _. split; [reflexivity|].
  split; [|split_and!; cbn [ld_contracts ld_seen_modules ld_module_ids ld_next_contract_id ld_next_function_id ld_pending_calls]; try done].
  - set (k := MkContract cid mid rel placeholder_location fs None).
    pose proof (wf_push_function cid k (function_row (ld_next_function_id st) f rel)
      (<[MkFunctionKey mid (fa_name f) := default ∅ None ∪ list_to_set (map pending_call cs)]> (ld_pending_calls st)) (filled st fs) Hw) as H.
    assert (filled (MkLoad (ld_next_contract_id st) (i32_next (ld_next_function_id st)) (ld_contracts st) (ld_seen_modules st) (ld_module_ids st)
      (<[MkFunctionKey mid (fa_name f) := ld_next_function_id st]> (ld_function_ids st))
      (<[ld_next_function_id st := (cid, length fs)]> (ld_function_locations st))
      (<[MkFunctionKey mid (fa_name f) := default ∅ None ∪ list_to_set (map pending_call cs)]> (ld_pending_calls st)))
      (fs ++ [function_row (ld_next_function_id st) f rel]) = push_function cid k (function_row (ld_next_function_id st) f rel)
      (<[MkFunctionKey mid (fa_name f) := default ∅ None ∪ list_to_set (map pending_call cs)]> (ld_pending_calls st)) (filled st fs)) as ->.
    { unfold filled, push_function, set_contracts, k.
      cbn [ld_next_contract_id ld_next_function_id ld_contracts ld_seen_modules ld_module_ids ld_function_ids ld_function_locations ct_functions set_functions].
      by rewrite insert_insert_eq. }
    apply H; [unfold filled; cbn [set_contracts ld_contracts]; by rewrite lookup_insert_eq|done|done| |done].
    apply eq_None_not_Some. intros [id Hid]. apply (wl_keys _ Hw) in Hid as (c & i & k' & g & Hat & _ & Hkey).
    unfold row_key, k in Hkey. cbn [ct_name fr_name function_row] in Hkey. injection Hkey as Hname Hg.
    assert (c = cid) as ->.
    { destruct Hat as [Hc _]. eapply (wf_contract_name (filled st fs) _ _ k' k Hw Hc); [|done].
      unfold filled. cbn [set_contracts ld_contracts]. by rewrite lookup_insert_eq. }
    destruct Hat as [Hc Hi]. unfold filled in Hc. cbn [set_contracts ld_contracts] in Hc. rewrite lookup_insert_eq in Hc.
    injection Hc as <-. apply Hn. rewrite <-Hg. apply list_elem_of_fmap. exists g. split; [done|]. by apply list_elem_of_lookup_2 in Hi.
  - by apply i32_next_small.
  - unfold fn_key, fn_calls. f_equal. cbn [default snd]. by rewrite union_empty_l_L.
Qed.

Lemma load_functions_spec calls : ∀ st fs, wf_load (filled st fs) → NoDup (map (λ x, fa_name x.1) calls) →
  (∀ x, x ∈ calls → fa_name x.1 ∉ map fr_name fs ∧ ld_pending_calls st !! fn_key x = None) →
  (ld_next_function_id st + Z.of_nat (length calls) ≤ i32_max)%Z →
  ∃ st' fs', load_functions mid cid rel calls st fs = (st', fs') ∧ wf_load (filled st' fs') ∧
    (∃ new, fs' = fs ++ new ∧ Forall2 (loaded_row rel) calls new) ∧ ld_contracts st' = ld_contracts st ∧
    ld_seen_modules st' = ld_seen_modules st ∧ ld_module_ids st' = ld_module_ids st ∧
    ld_next_contract_id st' = ld_next_contract_id st ∧
    ld_next_function_id st' = (ld_next_function_id st + Z.of_nat (length calls))%Z ∧
    (spent (ld_pending_calls st') ≤ spent (ld_pending_calls st) + sum_list_with (λ x, length x.2) calls)%nat ∧
    (∀ key s, ld_pending_calls st' !! key = Some s ↔
      ld_pending_calls st !! key = Some s ∨ ∃ x, x ∈ calls ∧ key = fn_key x ∧ s = fn_calls x).
Proof.
  induction calls as [|[f cs] calls IH]; intros st fs Hw Hn Hx Hlt; cbn [load_functions].
  - exists st, fs. split_and!; try done; [exists []; by rewrite app_nil_r|simpl; lia|simpl; lia|]. intros key s. split; [by left|].
    by intros [?|(? & ?%elem_of_nil & _)].
  - cbn [map length fst] in *. apply NoDup_cons in Hn as [Hf Hn].
    destruct (Hx (f, cs)) as [Hf1 Hf2]; [by left|]. cbn [fst] in Hf1.
    destruct (load_function_spec f cs st fs Hw Hf1 Hf2) as (st1 & fs1 & -> & Hw1 & Hn1 & Hc1 & Hs1 & Hm1 & Hnc1 & Hnf1 & Hp1); [lia|].
    destruct (IH st1 fs1 Hw1 Hn) as (st' & fs' & -> & Hw' & (new & Hn' & Hnew) & Hc' & Hs' & Hm' & Hnc' & Hnf' & Hsp & Hp'); [|lia|].
    + intros x Hin. assert (fa_name x.1 ≠ fa_name f) as Hne.
      { intros E. apply Hf. rewrite <-E. apply list_elem_of_fmap. by exists x. }
      destruct (Hx x) as [Hx1 Hx2]; [by right|]. split.
      * rewrite Hn1, map_app. by intros [?|?%list_elem_of_singleton]%elem_of_app.
      * rewrite Hp1, lookup_insert_ne; [done|]. unfold fn_key. cbn [fst]. congruence.
    + exists st', fs'. split; [done|]. split; [done|]. split.
      { eexists. split; [by rewrite Hn', Hn1, <-app_assoc|]. by constructor. }
      split; [congruence|]. split; [congruence|]. split; [congruence|]. split; [congruence|]. split; [lia|]. split.
      * rewrite Hp1, spent_insert in Hsp by done. unfold fn_calls in Hsp. cbn [snd] in Hsp.
        pose proof (size_list_to_set_le (map pending_call cs)). rewrite length_map in *. simpl. lia.
      * intros key s. rewrite Hp', Hp1, lookup_insert_Some. setoid_rewrite elem_of_cons. split.
        -- intros [[[<- <-]|[_ H]]|(x & Hin & Hk)]; [right; exists (f, cs); auto|by left|right; exists x; auto].
        -- intros [H|(x & [->|Hin] & -> & ->)]; [|by left; left|right; by exists x].
           left. right. split; [|done]. intros <-. rewrite Hf2 in H. done.
Qed.
End load.

(** The modules that are loaded: not of the standard library, each name once. *)
Section visits.
Context `{AT : AddressText}.
Definition module_key (m : BinaryModule) : option string :=
  match binary_self_id m with
  | Ret id => if is_sui_std_module (account_text (module_address id)) then None
              else Some (canonical_module_id (account_text (module_address id)) (module_name id))
  | Panic => None
  end.
Fixpoint fresh_modules (seen : gset string) (ms : list BinaryModule) : list (string * BinaryModule) :=
  match ms with
  | [] => []
  | m :: ms =>
      match module_key m with
      | None => fresh_modules seen ms
      | Some n => if decide (n ∈ seen) then fresh_modules seen ms else (n, m) :: fresh_modules ({[ n ]} ∪ seen) ms
      end
  end.
Lemma fresh_modules_app ms ms' : ∀ seen, fresh_modules seen (ms ++ ms') =
  fresh_modules seen ms ++ fresh_modules (list_to_set (map fst (fresh_modules seen ms)) ∪ seen) ms'.
Proof.
  induction ms as [|m ms IH]; intros seen; cbn [app fresh_modules map list_to_set].
  - by rewrite union_empty_l_L.
  - destruct (module_key m) as [n|]; [|apply IH]. destruct (decide (n ∈ seen)); [apply IH|].
    cbn [app map fst list_to_set]. rewrite IH. f_equal. f_equal. f_equal. set_solver.
Qed.

Context (find_function_def_by_name : BinaryModule → string → option FnDefinition).
(** The calls of a module, its functions having distinct names. *)
Definition analysed (m : BinaryModule) (calls : Calls) : Prop :=
  (∃ id, binary_self_id m = Ret id) ∧ (∃ abi, bytecode_from_sui_module find_function_def_by_name m = Ret (MkBytecodeAnalysis abi calls)) ∧
  NoDup (map (λ x, fa_name x.1) calls).

(** A module of the tables: its name and its calls. *)
Definition total (f : Calls → nat) (done : list (string * Calls)) : nat := sum_list_with (λ x, f x.2) done.
Definition call_count (calls : Calls) : nat := sum_list_with (λ x, length x.2) calls.
Record tracks (done : list (string * Calls)) (st : Load) : Prop := MkTracks {
  tr_wf : wf_load st;
  tr_nodup : NoDup (map fst done);
  tr_seen : ∀ n, n ∈ ld_seen_modules st ↔ n ∈ map fst done;
  tr_modules : ∀ n, is_Some (ld_module_ids st !! n) ↔ n ∈ map fst done;
  tr_contract : ∀ n calls, (n, calls) ∈ done → ∃ c k, ld_contracts st !! c = Some k ∧ ct_name k = n ∧
    Forall2 (loaded_row (ct_relative_file_path k)) calls (ct_functions k);
  tr_pending : ∀ key s, ld_pending_calls st !! key = Some s ↔
    ∃ n calls x, (n, calls) ∈ done ∧ x ∈ calls ∧ key = fn_key n x ∧ s = fn_calls x;
  tr_ids : ld_next_contract_id st = (1 + Z.of_nat (length done))%Z ∧
    ld_next_function_id st = (1 + Z.of_nat (total length done))%Z;
  tr_spent : (spent (ld_pending_calls st) ≤ total call_count done)%nat }.

Lemma tracks_new : tracks [] load_new.
Proof.
  split; cbn [load_new ld_seen_modules ld_module_ids ld_contracts ld_pending_calls ld_next_contract_id ld_next_function_id];
    [apply wf_load_new|apply NoDup_nil_2|set_solver| |by intros ? ? ?%elem_of_nil| |done|done].
  - intros n. rewrite lookup_empty. split; [by intros [? ?]|by intros ?%elem_of_nil].
  - intros key s. rewrite lookup_empty. split; [done|]. by intros (n & calls & x & ?%elem_of_nil & _).
Qed.
Lemma total_snoc f done n calls : total f (done ++ [(n, calls)]) = (total f done + f calls)%nat.
Proof. unfold total. rewrite sum_list_with_app. simpl. lia. Qed.
Lemma wf_mark_seen n st : wf_load st → wf_load (mark_seen n st).
Proof. intros []. by split. Qed.

Context (canonicalize : Path → option Path) (is_dir : Path → bool) (read_dir : Path → option (list (string * option FileType))).
Lemma load_module_spec fuel package_root root package_name m n calls rel done st :
  tracks done st → module_key m = Some n → n ∉ map fst done → analysed m calls →
  (∀ id, binary_self_id m = Ret id →
    infer_relative_source_path canonicalize is_dir read_dir fuel package_root root package_name (module_name id) = Some rel) →
  (1 + Z.of_nat (length done) < i32_max)%Z → (1 + Z.of_nat (total length done + length calls) ≤ i32_max)%Z →
  ∃ st', load_module find_function_def_by_name canonicalize is_dir read_dir fuel package_root root package_name m st = Ret (Some st') ∧
    tracks (done ++ [(n, calls)]) st'.
Proof.
  intros [Hw Hnd Hseen Hmods Hct Hp [Hci Hfi] Hsp] Hk Hn ((id & Eid) & (abi & Eba) & Hnames) Hinfer Hc Hf.
  unfold load_module, module_key in *. rewrite Eid in *. cbn [mbind panics_mbind panics_bind].
  destruct (is_sui_std_module _); [done|]. injection Hk as Hk. rewrite Hk.
  rewrite decide_False by (by rewrite Hseen). rewrite (Hinfer id) by done. rewrite Eba. cbn [mbind panics_mbind panics_bind ba_calls new_contract].
  set (st1 := MkLoad _ _ _ _ _ _ _ _). cbn [mark_seen ld_next_contract_id].
  assert (wf_load (filled n (ld_next_contract_id st) rel st1 [])) as Hw1.
  { apply (wf_push_contract (MkContract (ld_next_contract_id st) n rel placeholder_location [] None) (mark_seen n st)); try done.
    - by apply wf_mark_seen.
    - cbn [mark_seen ld_module_ids ct_name]. apply eq_None_not_Some. by rewrite Hmods.
    - cbn [mark_seen ld_next_contract_id]. lia. }
  destruct (load_functions_spec n (ld_next_contract_id st) rel calls st1 [] Hw1 Hnames)
    as (st' & fs' & -> & Hw' & (new & -> & Hnew) & Hc' & Hs' & Hm' & Hnc' & Hnf' & Hsp' & Hp').
  { intros x Hx. split; [by intros ?%elem_of_nil|]. apply eq_None_not_Some. intros [s Hs]. apply Hp in Hs as (n' & cs & y & Hin & _ & E & _).
    unfold fn_key in E. injection E as -> _. apply Hn. apply list_elem_of_fmap. by exists (n', cs). }
  { cbn [st1 mark_seen ld_next_function_id]. lia. }
  eexists. split; [reflexivity|]. split; [exact Hw'|..]; cbn [set_contracts ld_contracts ld_seen_modules ld_module_ids ld_pending_calls ld_next_contract_id ld_next_function_id].
  - rewrite map_app. apply NoDup_app. split; [done|]. split; [|apply NoDup_singleton]. by intros x Hx ->%list_elem_of_singleton.
  - intros x. rewrite Hs', map_app, elem_of_app, <-Hseen. cbn [st1 mark_seen ld_seen_modules map fst].
    rewrite list_elem_of_singleton, elem_of_union, elem_of_singleton. tauto.
  - intros x. rewrite Hm', map_app, elem_of_app, <-Hmods. cbn [st1 mark_seen ld_module_ids map fst].
    rewrite list_elem_of_singleton, lookup_insert_is_Some'. split; intros [H|H]; auto.
  - intros n' cs [Hin| [= -> ->]%list_elem_of_singleton]%elem_of_app.
    + destruct (Hct n' cs Hin) as (c & k & Hc1 & Hn1 & Hr). exists c, k. split; [|done]. rewrite Hc', lookup_insert_ne; [done|].
      intros <-. assert (is_Some (ld_contracts st !! ld_next_contract_id st)) as Hs%(wl_contracts _ Hw) by by eexists. lia.
    + eexists _, _. split; [apply lookup_insert_eq|]. done.
  - intros key s. rewrite Hp'. setoid_rewrite elem_of_app. setoid_rewrite list_elem_of_singleton. cbn [st1 mark_seen ld_pending_calls]. rewrite Hp.
    split.
    + intros [(n' & cs & x & Hin & Hx & Hk1 & Hk2)|(x & Hx & Hk1 & Hk2)]; [exists n', cs, x; auto|exists n, calls, x; auto].
    + intros (n' & cs & x & [Hin| [= -> ->]] & Hx & Hk1 & Hk2); [left; exists n', cs, x; auto|right; exists x; auto].
  - rewrite Hnc', Hnf', total_snoc, length_app. cbn [st1 mark_seen ld_next_contract_id ld_next_function_id length].
    rewrite i32_next_small by lia. lia.
  - rewrite total_snoc. cbn [st1 mark_seen ld_pending_calls] in Hsp'. unfold call_count at 2. lia.
Qed.

Lemma total_app f done new : total f (done ++ new) = (total f done + total f new)%nat.
Proof. apply sum_list_with_app. Qed.
Lemma module_weight_count calls : module_weight calls = S (length calls + call_count calls).
Proof.
  unfold module_weight, call_count. f_equal. induction calls as [|x calls IH]; [done|]. cbn [sum_list_with length].
  rewrite IH. unfold fn_weight. lia.
Qed.
Lemma total_weight done : total module_weight done = (length done + total length done + total call_count done)%nat.
Proof.
  induction done as [|[n calls] done IH]; [done|]. unfold total in *. cbn [sum_list_with length snd]. rewrite IH, module_weight_count. lia.
Qed.

(** Modules with their calls. *)
Definition analyses (x : string * BinaryModule) (y : string * Calls) : Prop := x.1 = y.1 ∧ analysed x.2 y.2.
Definition identified (m : BinaryModule) : Prop := ∃ id, binary_self_id m = Ret id.
Lemma analyses_names l new : Forall2 analyses l new → map fst l = map fst new.
Proof. induction 1 as [|x y l new [E _] _ IH]; [done|]. cbn [map]. by rewrite E, IH. Qed.

Lemma load_modules_spec fuel package_root root package_name ms :
  (∀ name, is_Some (infer_relative_source_path canonicalize is_dir read_dir fuel package_root root package_name name)) →
  Forall identified ms → ∀ done st new, tracks done st → Forall2 analyses (fresh_modules (list_to_set (map fst done)) ms) new →
  (Z.of_nat (total module_weight (done ++ new)) < i32_max)%Z →
  ∃ st', load_modules find_function_def_by_name canonicalize is_dir read_dir fuel package_root root package_name ms st = Ret (Some st') ∧
    tracks (done ++ new) st'.
Proof.
  intros Hi. induction 1 as [|m ms [id Eid] _ IH]; intros done st new Ht Hnew Hw; cbn [load_modules fresh_modules] in *.
  - apply Forall2_nil_inv_l in Hnew as ->. rewrite app_nil_r. by exists st.
  - destruct (module_key m) as [n|] eqn:Ek.
    + destruct (decide (n ∈ (list_to_set (map fst done) : gset string))) as [Hin|Hin].
      * assert (load_module find_function_def_by_name canonicalize is_dir read_dir fuel package_root root package_name m st = Ret (Some st)) as ->;
          [|by apply IH].
        apply elem_of_list_to_set, (tr_seen _ _ Ht) in Hin. unfold load_module, module_key in *. rewrite Eid in *. cbn [mbind panics_mbind panics_bind].
        destruct (is_sui_std_module _); [done|]. injection Ek as ->. by rewrite decide_True.
      * apply Forall2_cons_inv_l in Hnew as ([n' calls] & new' & [E Ha] & Hnew & ->). cbn [fst snd] in *. subst n'.
        rewrite elem_of_list_to_set in Hin. destruct (Hi (module_name id)) as [rel Erel].
        rewrite total_app in Hw. change (total module_weight ((n, calls) :: new')) with (module_weight calls + total module_weight new')%nat in Hw.
        rewrite module_weight_count in Hw.
        rewrite (total_weight done) in Hw.
        destruct (load_module_spec fuel package_root root package_name m n calls rel done st Ht Ek Hin Ha) as (st1 & -> & Ht1); [|lia|lia|].
        { intros id' Eid'. rewrite Eid in Eid'. by injection Eid' as <-. }
        cbn [mbind panics_mbind panics_bind]. destruct (IH (done ++ [(n, calls)]) st1 new') as (st' & -> & Ht'); [done| | |].
        -- rewrite map_app, list_to_set_app_L. cbn [map fst list_to_set]. by rewrite union_empty_r_L, union_comm_L.
        -- rewrite total_app, total_snoc, (total_weight done), module_weight_count. lia.
        -- exists st'. split; [done|]. by rewrite <-app_assoc in Ht'.
    + assert (load_module find_function_def_by_name canonicalize is_dir read_dir fuel package_root root package_name m st = Ret (Some st)) as ->;
        [|by apply IH].
      unfold load_module, module_key in *. rewrite Eid in *. cbn [mbind panics_mbind panics_bind]. by destruct (is_sui_std_module _).
Qed.

Context (build_checked : Path → bool → result BuiltPackage).
Definition all_modules (packages : list BuiltPackage) : list BinaryModule := concat (map bp_modules packages).
Lemma load_packages_spec fuel package_root test_mode roots packages :
  (∀ root package_name name, root ∈ roots →
    is_Some (infer_relative_source_path canonicalize is_dir read_dir fuel package_root root package_name name)) →
  Forall2 (λ root package, build_checked root test_mode = Ok package) roots packages →
  Forall identified (all_modules packages) → ∀ done st new, tracks done st →
  Forall2 analyses (fresh_modules (list_to_set (map fst done)) (all_modules packages)) new →
  (Z.of_nat (total module_weight (done ++ new)) < i32_max)%Z →
  ∃ st', load_packages find_function_def_by_name canonicalize is_dir read_dir build_checked fuel package_root roots test_mode st =
    Ret (Some (Ok st')) ∧ tracks (done ++ new) st'.
Proof.
  intros Hi Hb. revert Hi. induction Hb as [|root package roots packages Eb Hb IH]; intros Hi Hids done st new Ht Hnew Hw.
  - apply Forall2_nil_inv_l in Hnew as ->. rewrite app_nil_r. by exists st.
  - cbn [load_packages]. rewrite Eb. unfold all_modules in Hids, Hnew. cbn [map concat] in Hids, Hnew.
    apply Forall_app in Hids as [Hids1 Hids2]. rewrite fresh_modules_app in Hnew.
    apply Forall2_app_inv_l in Hnew as (new1 & new2 & Hnew1 & Hnew2 & ->). rewrite (analyses_names _ _ Hnew1) in Hnew2.
    destruct (load_modules_spec fuel package_root root (bp_name package) (bp_modules package)) with (done := done) (st := st) (new := new1)
      as (st1 & -> & Ht1); [intros name; apply Hi; by left|done|done|done| |].
    { rewrite app_assoc, total_app in Hw. lia. }
    cbn [mbind panics_mbind panics_bind]. rewrite app_assoc. apply IH; [|done|done| |by rewrite <-app_assoc].
    + intros r p name Hr. apply Hi. by right.
    + by rewrite map_app, list_to_set_app_L, union_comm_L.
Qed.
End visits.
