(* ===== verification/ExportGraph.v ===== *)
(** * ExportGraph: the call graph is the calls of the bytecode

    Callees that no module has are added as external functions, then every
    caller gets its edges. The graph that [load_call_graph] returns has the
    functions of the modules, the external callees and nothing else; the edges
    of a function are the calls of its bytecode, each to the function of that
    module and name. *)
From S2P Require Import Prelude Types Text AbiText FuzzTracer Abi Compile Binary BinarySpec Export ExportSpec.
From Stdlib Require String.
Local Open Scope string_scope.
Local Open Scope list_scope.

(** ** Functions are where the tables say *)
Lemma at_fn_unique st c i k f c' i' k' f' : wf_load st → at_fn (ld_contracts st) c i k f → at_fn (ld_contracts st) c' i' k' f' →
  row_key k f = row_key k' f' → c = c' ∧ i = i' ∧ k = k' ∧ f = f'.
Proof.
  intros Hw H H' E. pose proof (wf_key_id _ _ _ _ _ Hw H) as E1. pose proof (wf_key_id _ _ _ _ _ Hw H') as E2.
  rewrite E in E1. assert (ld_function_locations st !! fr_id f = Some (c, i)) as L1 by (apply (wl_locations _ Hw); by exists k, f).
  assert (ld_function_locations st !! fr_id f' = Some (c', i')) as L2 by (apply (wl_locations _ Hw); by exists k', f').
  assert (fr_id f = fr_id f') as Eid by congruence. rewrite Eid in L1. rewrite L1 in L2. injection L2 as -> ->.
  destruct H as [Hc Hi], H' as [Hc' Hi']. rewrite Hc in Hc'. injection Hc' as ->. rewrite Hi in Hi'. by injection Hi' as ->.
Qed.

(** Functions are only added at the end of contracts. *)
Definition extends (cs cs' : gmap Z Contract) : Prop :=
  ∀ c k, cs !! c = Some k → ∃ ext, cs' !! c = Some (set_functions (ct_functions k ++ ext) k).
Lemma extends_at cs cs' c i k f : extends cs cs' → at_fn cs c i k f → ∃ ext, at_fn cs' c i (set_functions (ct_functions k ++ ext) k) f.
Proof.
  intros He [Hc Hi]. destruct (He _ _ Hc) as [ext Hext]. exists ext. split; [done|]. cbn [set_functions ct_functions].
  rewrite lookup_app_l; [done|]. by apply lookup_lt_Some in Hi.
Qed.
Lemma contracts_extend_refl cs : extends cs cs.
Proof. intros c k Hc. exists []. rewrite app_nil_r. by destruct k. Qed.
Lemma contracts_extend_trans cs1 cs2 cs3 : extends cs1 cs2 → extends cs2 cs3 → extends cs1 cs3.
Proof.
  intros H1 H2 c k Hc. destruct (H1 _ _ Hc) as [ext1 Hc1]. destruct (H2 _ _ Hc1) as [ext2 Hc2].
  exists (ext1 ++ ext2). rewrite app_assoc. by destruct k.
Qed.
Lemma extends_ids st st' key id : wf_load st → wf_load st' → extends (ld_contracts st) (ld_contracts st') →
  ld_function_ids st !! key = Some id → ld_function_ids st' !! key = Some id.
Proof.
  intros Hw Hw' He (c & i & k & f & Hat & Hid & Hk)%(wl_keys _ Hw). apply (wl_keys _ Hw').
  destruct (extends_at _ _ _ _ _ _ He Hat) as [ext Hat']. by exists c, i, (set_functions (ct_functions k ++ ext) k), f.
Qed.

(** ** External functions *)
Definition external (p : PendingCall) (k : Contract) (f : FunctionRow) : Prop :=
  row_key k f = pc_callee p ∧ f = external_row (fr_id f) p (ct_relative_file_path k).
Record callees_added (calls : list PendingCall) (st st' : Load) : Prop := MkAdded {
  ca_wf : wf_load st';
  ca_extends : extends (ld_contracts st) (ld_contracts st');
  ca_found : ∀ p, p ∈ calls → is_Some (ld_function_ids st' !! pc_callee p);
  ca_new : ∀ c i k f, at_fn (ld_contracts st') c i k f →
    is_Some (ld_function_ids st !! row_key k f) ∨ ∃ p, p ∈ calls ∧ external p k f;
  ca_pending : ld_pending_calls st' = ld_pending_calls st;
  ca_ids : (ld_next_contract_id st' ≤ ld_next_contract_id st + Z.of_nat (length calls))%Z ∧
    (ld_next_function_id st' ≤ ld_next_function_id st + Z.of_nat (length calls))%Z }.
Lemma callees_none st : wf_load st → callees_added [] st st.
Proof.
  intros Hw. split; try done; [apply contracts_extend_refl|by intros p ?%elem_of_nil| |simpl; lia].
  intros c i k f H. left. rewrite (wf_key_id _ _ _ _ _ Hw H). by eexists.
Qed.
Lemma callees_app l1 l2 st1 st2 st3 : wf_load st1 → callees_added l1 st1 st2 → callees_added l2 st2 st3 →
  callees_added (l1 ++ l2) st1 st3.
Proof.
  intros Hw [Hw2 He2 Hf2 Hn2 Hp2 Hi2] [Hw3 He3 Hf3 Hn3 Hp3 Hi3]. split; [done|by eapply contracts_extend_trans| | |congruence|].
  - intros p [Hp|Hp]%elem_of_app; [|by apply Hf3]. destruct (Hf2 p Hp) as [id Hid]. exists id.
    by apply (extends_ids st2 st3).
  - intros c i k f H. setoid_rewrite elem_of_app. destruct (Hn3 _ _ _ _ H) as [[id Hid]|(p & Hp & Hx)]; [|right; exists p; auto].
    apply (wl_keys _ Hw2) in Hid as (c2 & i2 & k2 & f2 & Hat & _ & Ek).
    destruct (extends_at _ _ _ _ _ _ He3 Hat) as [ext Hat3].
    destruct (at_fn_unique st3 _ _ _ _ _ _ _ _ Hw3 Hat3 H) as (<- & <- & <- & <-); [by rewrite <-Ek|].
    destruct (Hn2 _ _ _ _ Hat) as [Hs|(p & Hp & Hx)]; [by left|right; exists p; auto].
  - rewrite length_app. lia.
Qed.

Section callees.
Context `{AT : AddressText}.
Lemma push_callee st c k p : wf_load st → ld_contracts st !! c = Some k → ct_name k = fk_module_id (pc_callee p) →
  ld_function_ids st !! pc_callee p = None → (ld_next_function_id st < i32_max)%Z →
  callees_added [p] st (push_function c k (external_row (ld_next_function_id st) p (ct_relative_file_path k)) (ld_pending_calls st) st).
Proof.
  intros Hw Hc Hname Hnew Hlt. set (row := external_row _ _ _).
  assert (row_key k row = pc_callee p) as Ekey by (unfold row_key; rewrite Hname; by destruct p as [[] ? ?]).
  assert (wf_load (push_function c k row (ld_pending_calls st) st)) as Hw'.
  { apply wf_push_function; try done. by rewrite Ekey. }
  split; [done|..]; cbn [push_function ld_contracts ld_pending_calls ld_function_ids ld_next_contract_id ld_next_function_id length] in *.
  - intros c' k' Hc'. destruct (decide (c = c')) as [<-|Hne].
    + exists [row]. rewrite lookup_insert_eq. congruence.
    + exists []. rewrite lookup_insert_ne, app_nil_r by done. by destruct k'.
  - intros q ->%list_elem_of_singleton. rewrite Ekey, lookup_insert_eq. by eexists.
  - intros c' i k' f Hat. assert (at_fn (ld_contracts st) c' i k' f ∨ k' = set_functions (ct_functions k ++ [row]) k) as [H|H].
    { destruct Hat as [H Hi]. apply lookup_insert_Some in H as [[<- <-]|[_ H]]; [by right|by left]. }
    + left. rewrite (wf_key_id _ _ _ _ _ Hw H). by eexists.
    + assert (c' = c) as ->.
      { destruct Hat as [H' _]. eapply (wf_contract_name _ _ _ _ _ Hw' H'); [apply lookup_insert_eq|by rewrite H]. }
      destruct Hat as [_ Hi]. subst k'. cbn [set_functions ct_functions] in Hi. apply lookup_snoc_Some in Hi as [[_ Hi]|[_ <-]].
      * left. change (row_key (set_functions _ k) f) with (row_key k f).
        rewrite (wf_key_id st c i k f Hw) by (by split). by eexists.
      * right. exists p. by split; [left|].
  - done.
  - rewrite i32_next_small by done. lia.
Qed.

Lemma add_callee_spec p st : wf_load st → (ld_next_contract_id st < i32_max)%Z → (ld_next_function_id st < i32_max)%Z →
  ∃ st', add_callee p st = Ret st' ∧ callees_added [p] st st'.
Proof.
  intros Hw Hc Hf. unfold add_callee. destruct (ld_function_ids st !! pc_callee p) as [id|] eqn:Ef.
  - exists st. split; [done|]. destruct (callees_none st Hw) as [? ? _ Hn ? Hi]. split; try done.
    + intros q ->%list_elem_of_singleton. rewrite Ef. by eexists.
    + intros c i k f H. destruct (Hn _ _ _ _ H) as [?|(q & ?%elem_of_nil & _)]; [by left|done].
    + simpl in *. lia.
  - unfold callee_contract. destruct (ld_module_ids st !! fk_module_id (pc_callee p)) as [c|] eqn:Em.
    + apply (wl_modules _ Hw) in Em as (k & Hk & Hname). rewrite Hk. cbn [unwrap mbind panics_mbind panics_bind].
      eexists. split; [reflexivity|]. replace (pc_callee p) with (row_key k (external_row (ld_next_function_id st) p (ct_relative_file_path k))) at 1.
      * by apply push_callee.
      * unfold row_key. rewrite Hname. by destruct p as [[] ? ?].
    + cbn [new_contract]. set (k := MkContract _ _ _ _ _ _).
      assert (wf_load (push_contract k st)) as Hw1 by by apply wf_push_contract.
      assert (callees_added [p] (push_contract k st) (push_function (ld_next_contract_id st) k
        (external_row (ld_next_function_id st) p (ct_relative_file_path k)) (ld_pending_calls st) (push_contract k st))) as [H1 H2 H3 H4 H5 H6].
      { apply (push_callee (push_contract k st)); try done. cbn [push_contract set_contracts ld_contracts]. apply lookup_insert_eq. }
      cbn [set_contracts ld_contracts]. rewrite lookup_insert_eq. cbn [unwrap mbind panics_mbind panics_bind].
      eexists. split; [reflexivity|].
      match goal with |- callees_added _ _ ?x => replace x with (push_function (ld_next_contract_id st) k
        (external_row (ld_next_function_id st) p (ct_relative_file_path k)) (ld_pending_calls st) (push_contract k st)) end;
        [|unfold push_function, row_key; by destruct p as [[] ? ?]].
      split; [exact H1| |exact H3|exact H4|exact H5|].
      * eapply contracts_extend_trans; [|exact H2]. intros c k' Hk'. exists []. rewrite app_nil_r.
        cbn [push_contract new_contract fst set_contracts ld_contracts]. rewrite lookup_insert_ne; [by destruct k'|].
        intros <-. assert (is_Some (ld_contracts st !! ld_next_contract_id st)) as Hs%(wl_contracts _ Hw) by by eexists. lia.
      * revert H6. cbn [push_contract new_contract push_function fst set_contracts ld_next_contract_id ld_next_function_id].
        rewrite !i32_next_small by done. simpl. lia.
Qed.
Lemma add_callees_spec calls : ∀ st, wf_load st → (ld_next_contract_id st + Z.of_nat (length calls) ≤ i32_max)%Z →
  (ld_next_function_id st + Z.of_nat (length calls) ≤ i32_max)%Z → ∃ st', add_callees calls st = Ret st' ∧ callees_added calls st st'.
Proof.
  induction calls as [|p calls IH]; intros st Hw Hc Hf; cbn [add_callees length] in *.
  - exists st. split; [done|]. by apply callees_none.
  - destruct (add_callee_spec p st Hw) as (st1 & -> & H1); [lia|lia|]. cbn [mbind panics_mbind panics_bind].
    pose proof (ca_ids _ _ _ H1) as Hi. simpl in Hi.
    destruct (IH st1 (ca_wf _ _ _ H1)) as (st' & -> & H2); [lia|lia|]. exists st'. split; [done|].
    by apply (callees_app [p] calls st st1 st').
Qed.
End callees.

(** ** Edges *)
(** The contracts with calls in their functions. *)
Definition with_calls (rows : gmap MoveFunctionKey (list CallRow)) (k : Contract) (f : FunctionRow) : FunctionRow :=
  set_calls (default [] (rows !! row_key k f)) f.
Definition fill (rows : gmap MoveFunctionKey (list CallRow)) (k : Contract) : Contract :=
  set_functions (map (with_calls rows k) (ct_functions k)) k.
Lemma fill_none st : wf_load st → fill ∅ <$> ld_contracts st = ld_contracts st.
Proof.
  intros Hw. rewrite <-(map_fmap_id (ld_contracts st)) at 2. apply map_fmap_ext. intros c k Hc. unfold fill.
  assert (map (with_calls ∅ k) (ct_functions k) = ct_functions k) as ->; [|by destruct k].
  apply list_eq. intros i. rewrite list_lookup_fmap. destruct (ct_functions k !! i) as [f|] eqn:Ei; [|done]. cbn [fmap option_fmap option_map].
  f_equal. unfold with_calls. rewrite lookup_empty. cbn [default]. rewrite <-(wl_calls _ Hw c i k f) by by split. by destruct f.
Qed.
(** The calls of one more function. *)
Lemma fill_insert st c i k f rows rs : wf_load st → at_fn (ld_contracts st) c i k f →
  <[c := set_functions (<[i := set_calls rs (with_calls rows k f)]> (ct_functions (fill rows k))) (fill rows k)]>
    (fill rows <$> ld_contracts st) = fill (<[row_key k f := rs]> rows) <$> ld_contracts st.
Proof.
  intros Hw Hat. pose proof Hat as [Hc Hi].
  assert (∀ c' i' k' f', at_fn (ld_contracts st) c' i' k' f' → (c', i') ≠ (c, i) →
    with_calls (<[row_key k f := rs]> rows) k' f' = with_calls rows k' f') as Hother.
  { intros c' i' k' f' Hat' Hne. unfold with_calls. rewrite lookup_insert_ne; [done|]. intros E.
    destruct (at_fn_unique st _ _ _ _ _ _ _ _ Hw Hat Hat' E) as (-> & -> & _). done. }
  apply map_eq. intros c'. rewrite lookup_fmap. destruct (decide (c = c')) as [<-|Hne].
  - rewrite lookup_insert_eq, Hc. cbn [fmap option_fmap option_map]. f_equal. unfold fill at 1 3. cbn [set_functions ct_functions]. 
    unfold set_functions; cbn [ct_id ct_name ct_relative_file_path ct_loc ct_description fill]. f_equal.
    apply list_eq. intros j. rewrite list_lookup_fmap. destruct (decide (i = j)) as [<-|Hj].
    + rewrite Hi. rewrite list_lookup_insert_eq by (rewrite length_map; by apply lookup_lt_Some in Hi).
      cbn [fmap option_fmap option_map]. f_equal. unfold with_calls. by rewrite lookup_insert_eq.
    + rewrite list_lookup_insert_ne, list_lookup_fmap by done. destruct (ct_functions k !! j) as [g|] eqn:Ej; [|done].
      cbn [fmap option_fmap option_map]. f_equal. symmetry. apply (Hother c j); [by split|congruence].
  - rewrite lookup_insert_ne, lookup_fmap by done. destruct (ld_contracts st !! c') as [k'|] eqn:Ec; [|done].
    cbn [fmap option_fmap option_map]. f_equal. unfold fill. f_equal. apply list_eq. intros j. rewrite !list_lookup_fmap.
    destruct (ct_functions k' !! j) as [g|] eqn:Ej; [|done]. cbn [fmap option_fmap option_map]. f_equal. symmetry.
    apply (Hother c' j); [by split|congruence].
Qed.

(** One call, as an edge. *)
Definition edge_of (ids : gmap MoveFunctionKey Z) (from : Z) (p : PendingCall) (r : CallRow) : Prop :=
  cr_from_id r = from ∧ ids !! pc_callee p = Some (cr_to_id r) ∧ cr_description r = pc_description p.
Lemma call_rows_spec ids from calls : ∀ n, (∀ p, p ∈ calls → is_Some (ids !! pc_callee p)) →
  (n + Z.of_nat (length calls) ≤ i32_max)%Z → ∃ rs, call_rows ids from calls n = Ret (rs, (n + Z.of_nat (length calls))%Z) ∧
    Forall2 (edge_of ids from) calls rs ∧ map cr_id rs = seqZ n (Z.of_nat (length calls)).
Proof.
  induction calls as [|p calls IH]; intros n Hx Hn; cbn [call_rows length] in *.
  - exists []. split; [|done]. cbn. by rewrite Z.add_0_r.
  - destruct (Hx p) as [to Hto]; [by left|]. rewrite Hto, i32_next_small by lia. cbn [unwrap mbind panics_mbind panics_bind].
    destruct (IH (n + 1)%Z) as (rs & -> & Hrs & Hids); [by intros q Hq; apply Hx; right|lia|]. cbn [mbind panics_mbind panics_bind].
    exists (MkCallRow n from to (pc_description p) :: rs). split; [do 2 f_equal; lia|]. split; [by constructor|]. cbn [map cr_id]. rewrite Hids, (seqZ_cons n) by lia.
    f_equal. f_equal; lia.
Qed.

Definition pending_total (l : list (MoveFunctionKey * gset PendingCall)) : nat := sum_list_with (λ x, length (call_iter x.2)) l.
Lemma add_edges_spec st : wf_load st → ∀ l rows n, NoDup (map fst l) → (∀ x, x ∈ map fst l → rows !! x = None) →
  (∀ x, x ∈ l → is_Some (ld_function_ids st !! x.1) ∧ ∀ p, p ∈ call_iter x.2 → is_Some (ld_function_ids st !! pc_callee p)) →
  (n + Z.of_nat (pending_total l) ≤ i32_max)%Z →
  ∃ rss, add_edges (ld_function_ids st) (ld_function_locations st) l n (fill rows <$> ld_contracts st) =
      Ret (fill (list_to_map (zip (map fst l) rss) ∪ rows) <$> ld_contracts st) ∧
    Forall2 (λ x rs, ∃ id, ld_function_ids st !! x.1 = Some id ∧ Forall2 (edge_of (ld_function_ids st) id) (call_iter x.2) rs) l rss ∧
    map cr_id (concat rss) = seqZ n (Z.of_nat (pending_total l)).
Proof.
  intros Hw. induction l as [|[key s] l IH]; intros rows n Hnd Hrows Hx Hn; cbn [add_edges map fst] in *.
  - exists []. split; [|done]. cbn. by rewrite map_empty_union.
  - apply NoDup_cons in Hnd as [Hkey Hnd]. destruct (Hx (key, s)) as [[id Hid] Hs]; [by left|]. cbn [fst snd] in *.
    rewrite Hid. pose proof Hid as (c & i & k & f & Hat & Hfid & Erow)%(wl_keys _ Hw).
    assert (ld_function_locations st !! id = Some (c, i)) as Hloc by (apply (wl_locations _ Hw); by exists k, f).
    pose proof Hat as [Hc Hi]. cbn [unwrap mbind panics_mbind panics_bind]. rewrite Hloc. cbn [unwrap mbind panics_mbind panics_bind].
    rewrite lookup_fmap, Hc. cbn [fmap option_fmap option_map unwrap mbind panics_mbind panics_bind].
    assert (ct_functions (fill rows k) !! i = Some (with_calls rows k f)) as ->.
    { unfold fill. cbn [set_functions ct_functions]. by rewrite list_lookup_fmap, Hi. }
    cbn [unwrap mbind panics_mbind panics_bind]. unfold pending_total in *. cbn [sum_list_with snd] in Hn.
    destruct (call_rows_spec (ld_function_ids st) id (call_iter s) n) as (rs & -> & Hrs & Hids); [done|lia|].
    cbn [mbind panics_mbind panics_bind].
    assert (fr_calls (with_calls rows k f) = []) as ->.
    { unfold with_calls. rewrite Erow, (Hrows key) by by left. done. }
    rewrite app_nil_l, fill_insert, Erow by done.
    destruct (IH (<[key := rs]> rows) (n + Z.of_nat (length (call_iter s)))%Z Hnd) as (rss & -> & Hrss & Hids').
    + intros x Hin. rewrite lookup_insert_ne; [by apply Hrows; right|]. by intros <-.
    + intros x Hin. apply Hx. by right.
    + lia.
    + exists (rs :: rss). split.
      * cbn [zip_with]. rewrite list_to_map_cons, <-insert_union_l, insert_union_r; [done|].
        apply not_elem_of_list_to_map_1. rewrite fst_zip; [done|]. rewrite length_map. by apply Forall2_length in Hrss as ->.
      * split; [constructor; [by exists id|done]|]. unfold pending_total. cbn [concat sum_list_with snd]. rewrite map_app, Hids, Hids', Nat2Z.inj_add, seqZ_app by lia.
        done.
Qed.

(** ** The order of the tables *)
Lemma elem_of_pending_iter m key s : (key, s) ∈ pending_iter (V := gset PendingCall) m ↔ m !! key = Some s.
Proof. unfold pending_iter. rewrite merge_sort_Permutation. apply elem_of_map_to_list. Qed.
Lemma pending_iter_keys m : NoDup (map fst (pending_iter (V := gset PendingCall) m)).
Proof.
  assert (map fst (pending_iter m) ≡ₚ map fst (map_to_list m)) as ->; [|apply NoDup_fst_map_to_list].
  apply Permutation_map, merge_sort_Permutation.
Qed.
Lemma elem_of_call_iter p s : p ∈ call_iter s ↔ p ∈ s.
Proof. unfold call_iter. rewrite merge_sort_Permutation. apply elem_of_elements. Qed.
Lemma length_call_iter s : length (call_iter s) = size s.
Proof. unfold call_iter, size, set_size. cbn. by rewrite merge_sort_Permutation. Qed.
Lemma sum_permutation {A} (f : A → nat) l l' : l ≡ₚ l' → sum_list_with f l = sum_list_with f l'.
Proof. induction 1; simpl; lia. Qed.
Lemma pending_iter_total m : pending_total (pending_iter m) = spent m.
Proof.
  unfold pending_total, spent, pending_iter. rewrite (sum_permutation _ _ _ (merge_sort_Permutation _ _)).
  induction (map_to_list m) as [|x l IH]; [done|]. cbn [sum_list_with]. by rewrite IH, length_call_iter.
Qed.
Lemma all_calls_length l : length (flat_map (λ x : MoveFunctionKey * gset PendingCall, call_iter x.2) l) = pending_total l.
Proof. induction l as [|x l IH]; [done|]. cbn [flat_map]. rewrite length_app, IH. done. Qed.
(** In lists without a common number, a number has one place. *)
Lemma concat_places (rss : list (list CallRow)) : NoDup (map cr_id (concat rss)) → ∀ a j r rs a' j' r' rs',
  rss !! a = Some rs → rs !! j = Some r → rss !! a' = Some rs' → rs' !! j' = Some r' → cr_id r = cr_id r' → a = a' ∧ j = j'.
Proof.
  assert (∀ rs (rss : list (list CallRow)) a r, rss !! a = Some rs → r ∈ rs → cr_id r ∈ map cr_id (concat rss)) as Hin.
  { intros rs l a r Ha Hr. apply list_elem_of_fmap. exists r. split; [done|]. apply list_elem_of_In, in_concat. exists rs.
    rewrite <-!list_elem_of_In. split; [by apply list_elem_of_lookup_2 in Ha|done]. }
  induction rss as [|rs0 rss IH]; intros Hnd a j r rs a' j' r' rs' Ha Hj Ha' Hj' E; [done|]. cbn [concat] in Hnd.
  rewrite map_app in Hnd. apply NoDup_app in Hnd as (Hnd1 & Hdis & Hnd2). destruct a as [|a], a' as [|a'].
  - cbn in Ha, Ha'. simplify_eq. split; [done|]. eapply NoDup_lookup; [exact Hnd1|..]; rewrite list_lookup_fmap.
    + rewrite Hj. reflexivity.
    + rewrite Hj'. cbn. by rewrite E.
  - cbn in Ha, Ha'. simplify_eq. destruct (Hdis (cr_id r)).
    + apply list_elem_of_fmap. exists r. split; [done|]. by eapply list_elem_of_lookup_2.
    + rewrite E. eapply Hin; [exact Ha'|by eapply list_elem_of_lookup_2].
  - cbn in Ha, Ha'. simplify_eq. destruct (Hdis (cr_id r')).
    + apply list_elem_of_fmap. exists r'. split; [done|]. by eapply list_elem_of_lookup_2.
    + rewrite <-E. eapply Hin; [exact Ha|by eapply list_elem_of_lookup_2].
  - cbn in Ha, Ha'. destruct (IH Hnd2 _ _ _ _ _ _ _ _ Ha Hj Ha' Hj' E) as [-> ->]. done.
Qed.

(** ** The graph *)
Section graph.
Context `{AT : AddressText}.
(** An edge of the call [p]: to the function of that name in that module. *)
Definition edge (g : CallGraphRows) (from : Z) (p : PendingCall) (r : CallRow) : Prop :=
  cr_from_id r = from ∧ cr_description r = pc_description p ∧
  ∃ c i k f, at_fn (rows_contracts g) c i k f ∧ fr_id f = cr_to_id r ∧ row_key k f = pc_callee p.
(** What the graph has to do with the modules and their calls. *)
Record describes (mods : list (string * Calls)) (g : CallGraphRows) : Prop := MkDescribes {
  ge_interfaces : rows_interfaces g = ∅;
  ge_contracts : ∃ nc, ∀ c, is_Some (rows_contracts g !! c) ↔ (1 ≤ c < nc)%Z;
  ge_contract_id : ∀ c k, rows_contracts g !! c = Some k → ct_id k = c;
  ge_contract_name : ∀ c c' k k', rows_contracts g !! c = Some k → rows_contracts g !! c' = Some k' → ct_name k = ct_name k' → c = c';
  ge_functions : ∃ nf, ∀ id, (∃ c i k f, at_fn (rows_contracts g) c i k f ∧ fr_id f = id) ↔ (1 ≤ id < nf)%Z;
  ge_unique : ∀ c i k f c' i' k' f', at_fn (rows_contracts g) c i k f → at_fn (rows_contracts g) c' i' k' f' →
    fr_id f = fr_id f' ∨ row_key k f = row_key k' f' → c = c' ∧ i = i';
  ge_modules : ∀ n calls, (n, calls) ∈ mods → ∃ c k own ext, rows_contracts g !! c = Some k ∧ ct_name k = n ∧
    ct_functions k = own ++ ext ∧ Forall2 (λ x f, loaded_row (ct_relative_file_path k) x (set_calls [] f)) calls own;
  ge_calls : ∀ n calls x c i k f, (n, calls) ∈ mods → x ∈ calls → at_fn (rows_contracts g) c i k f → row_key k f = fn_key n x →
    Forall2 (edge g (fr_id f)) (call_iter (fn_calls x)) (fr_calls f);
  ge_external : ∀ c i k f, at_fn (rows_contracts g) c i k f →
    (∃ n calls x, (n, calls) ∈ mods ∧ x ∈ calls ∧ row_key k f = fn_key n x) ∨
    (∃ n calls x p, (n, calls) ∈ mods ∧ x ∈ calls ∧ p ∈ fn_calls x ∧ external p k f);
  ge_call_ids : ∀ c i k f j r c' i' k' f' j' r', at_fn (rows_contracts g) c i k f → at_fn (rows_contracts g) c' i' k' f' →
    fr_calls f !! j = Some r → fr_calls f' !! j' = Some r' → cr_id r = cr_id r' → c = c' ∧ i = i' ∧ j = j' }.

Lemma at_fill rows cs c i k f : at_fn (fill rows <$> cs) c i k f ↔
  ∃ k0 f0, at_fn cs c i k0 f0 ∧ k = fill rows k0 ∧ f = with_calls rows k0 f0.
Proof.
  unfold at_fn. rewrite lookup_fmap. split.
  - intros [Hc Hi]. destruct (cs !! c) as [k0|]; [|done]. cbn in Hc. injection Hc as <-. unfold fill in Hi. cbn [set_functions ct_functions] in Hi.
    rewrite list_lookup_fmap in Hi. destruct (ct_functions k0 !! i) as [f0|] eqn:Ei; [|done]. cbn in Hi. injection Hi as <-. by exists k0, f0.
  - intros (k0 & f0 & [-> Hi] & -> & ->). split; [done|]. unfold fill. cbn [set_functions ct_functions]. by rewrite list_lookup_fmap, Hi.
Qed.
Lemma row_key_fill rows k f : row_key (fill rows k) (with_calls rows k f) = row_key k f.
Proof. done. Qed.

(** The keys of callers, with their edges. *)
Lemma edges_of (l : list (MoveFunctionKey * gset PendingCall)) (rss : list (list CallRow)) key rs :
  length l = length rss → NoDup (map fst l) →
  (list_to_map (zip (map fst l) rss) : gmap MoveFunctionKey (list CallRow)) !! key = Some rs ↔
  ∃ a s, l !! a = Some (key, s) ∧ rss !! a = Some rs.
Proof.
  intros Hl Hnd. rewrite <-elem_of_list_to_map by by rewrite fst_zip by (rewrite length_map; lia).
  rewrite list_elem_of_lookup. setoid_rewrite lookup_zip_Some. setoid_rewrite list_lookup_fmap. split.
  - intros (a & Ha & Hr). destruct (l !! a) as [[key' s]|] eqn:Ea; [|done]. cbn in Ha. injection Ha as ->. by exists a, s.
  - intros (a & s & Ha & Hr). exists a. by rewrite Ha.
Qed.

(** The graph after the edges are filled in, from the tables of the walk [st]
    and those with the external functions [st']. *)
Section filled.
Variables (done : list (string * Calls)) (st st' : Load) (rss : list (list CallRow)).
Definition callers := pending_iter (ld_pending_calls st).
Definition caller_rows : gmap MoveFunctionKey (list CallRow) := list_to_map (zip (map fst callers) rss).
Definition final : CallGraphRows := MkRows (fill caller_rows <$> ld_contracts st') ∅.
Hypotheses (Ht : tracks done st) (Ha : callees_added (flat_map (λ x, call_iter x.2) callers) st st')
  (Hrss : Forall2 (λ x rs, ∃ id, ld_function_ids st' !! x.1 = Some id ∧
    Forall2 (edge_of (ld_function_ids st') id) (call_iter x.2) rs) callers rss)
  (Hids : map cr_id (concat rss) = seqZ 1 (Z.of_nat (pending_total callers))).

Lemma final_at c i k0 f0 : at_fn (ld_contracts st') c i k0 f0 →
  at_fn (rows_contracts final) c i (fill caller_rows k0) (with_calls caller_rows k0 f0).
Proof. intros H. apply at_fill. by exists k0, f0. Qed.
Lemma caller_rows_some key rs : caller_rows !! key = Some rs ↔ ∃ a s, callers !! a = Some (key, s) ∧ rss !! a = Some rs.
Proof. apply edges_of; [by apply Forall2_length in Hrss|apply pending_iter_keys]. Qed.
Lemma caller_rows_none key : ld_pending_calls st !! key = None → caller_rows !! key = None.
Proof.
  intros H. apply eq_None_not_Some. intros [rs (a & s & Hin & _)%caller_rows_some].
  apply list_elem_of_lookup_2, elem_of_pending_iter in Hin. congruence.
Qed.

Lemma final_calls n calls x c i k f : (n, calls) ∈ done → x ∈ calls → at_fn (rows_contracts final) c i k f →
  row_key k f = fn_key n x → Forall2 (edge final (fr_id f)) (call_iter (fn_calls x)) (fr_calls f).
Proof using Ht Ha Hrss.
  intros Hin Hx (k0 & f0 & Hat & -> & ->)%at_fill Ekey. rewrite row_key_fill in Ekey. pose proof (ca_wf _ _ _ Ha) as Hw.
  assert (ld_pending_calls st !! fn_key n x = Some (fn_calls x)) as Hp by (apply (tr_pending _ _ Ht); by exists n, calls, x).
  apply elem_of_pending_iter, list_elem_of_lookup in Hp as [a Hp].
  destruct (Forall2_lookup_l _ _ _ _ _ Hrss Hp) as (rs & Hrs & id & Hid & Hedges). cbn [fst snd] in *.
  assert (caller_rows !! fn_key n x = Some rs) as Hrows by (apply caller_rows_some; by exists a, (fn_calls x)).
  pose proof (wf_key_id _ _ _ _ _ Hw Hat) as Hid'. rewrite Ekey in Hid'. assert (id = fr_id f0) as -> by congruence.
  unfold with_calls. rewrite Ekey, Hrows. cbn [set_calls fr_calls fr_id default].
  eapply Forall2_impl; [exact Hedges|]. intros p r (E1 & E2 & E3). split; [done|]. split; [done|].
  apply (wl_keys _ Hw) in E2 as (c2 & i2 & k2 & f2 & Hat2 & E4 & E5). eexists c2, i2, _, _. by split; [apply final_at|].
Qed.

Lemma module_function c i k f : at_fn (ld_contracts st) c i k f →
  ∃ n calls x, (n, calls) ∈ done ∧ x ∈ calls ∧ row_key k f = fn_key n x.
Proof using Ht.
  intros [Hc Hi]. pose proof (tr_wf _ _ Ht) as Hw.
  assert (ld_module_ids st !! ct_name k = Some c) as Hm by (apply (wl_modules _ Hw); by exists k).
  assert (is_Some (ld_module_ids st !! ct_name k)) as Hs by by eexists.
  apply (tr_modules _ _ Ht), list_elem_of_fmap in Hs as ([n calls] & En & Hin). cbn [fst] in En.
  destruct (tr_contract _ _ Ht _ _ Hin) as (c' & k' & Hc' & En' & Hrows).
  assert (c = c') as <- by (eapply (wf_contract_name st c c' k k'); congruence). simplify_eq.
  destruct (Forall2_lookup_r _ _ _ _ _ Hrows Hi) as (x & Hx & Erow). exists (ct_name k), calls, x. split; [done|].
  split; [by eapply list_elem_of_lookup_2|]. by rewrite Erow.
Qed.
Lemma final_external c i k f : at_fn (rows_contracts final) c i k f →
  (∃ n calls x, (n, calls) ∈ done ∧ x ∈ calls ∧ row_key k f = fn_key n x) ∨
  (∃ n calls x p, (n, calls) ∈ done ∧ x ∈ calls ∧ p ∈ fn_calls x ∧ external p k f).
Proof using Ht Ha Hrss.
  intros (k0 & f0 & Hat & -> & ->)%at_fill. rewrite row_key_fill.
  destruct (ld_pending_calls st !! row_key k0 f0) as [s|] eqn:Ep.
  { left. apply (tr_pending _ _ Ht) in Ep as (n & calls & x & Hin & Hx & Ek & _). by exists n, calls, x. }
  destruct (ca_new _ _ _ Ha _ _ _ _ Hat) as [[id Hid]|(p & Hp & Hx)].
  - left. apply (wl_keys _ (tr_wf _ _ Ht)) in Hid as (c1 & i1 & k1 & f1 & Hat1 & _ & <-). by eapply module_function.
  - right. apply list_elem_of_In, in_flat_map in Hp as ([key s] & Hin & Hp). rewrite <-!list_elem_of_In in *.
    apply elem_of_pending_iter, (tr_pending _ _ Ht) in Hin as (n & calls & x & Hin & Hxin & _ & ->).
    exists n, calls, x, p. split; [done|]. split; [done|]. split; [by apply elem_of_call_iter|].
    unfold with_calls. rewrite caller_rows_none by done. destruct Hx as [Hx1 Hx2]. split; [done|].
    cbn [default fr_id]. rewrite Hx2. done.
Qed.
Lemma final_modules n calls : (n, calls) ∈ done → ∃ c k own ext, rows_contracts final !! c = Some k ∧ ct_name k = n ∧
  ct_functions k = own ++ ext ∧ Forall2 (λ x f, loaded_row (ct_relative_file_path k) x (set_calls [] f)) calls own.
Proof using Ht Ha.
  intros Hin. destruct (tr_contract _ _ Ht _ _ Hin) as (c & k & Hc & Hn & Hrows).
  destruct (ca_extends _ _ _ Ha _ _ Hc) as [ext Hext]. set (k' := set_functions _ k) in Hext.
  exists c, (fill caller_rows k'), (map (with_calls caller_rows k') (ct_functions k)), (map (with_calls caller_rows k') ext).
  split; [unfold final; cbn [rows_contracts]; by rewrite lookup_fmap, Hext|]. split; [done|].
  split; [unfold fill; cbn [set_functions ct_functions k']; by rewrite map_app|].
  apply Forall2_fmap_r. eapply Forall2_impl; [exact Hrows|]. intros x f Hf. unfold loaded_row, with_calls in *. cbn [fr_id set_calls].
  rewrite Hf. done.
Qed.
Lemma final_call_ids c i k f j r c' i' k' f' j' r' : at_fn (rows_contracts final) c i k f → at_fn (rows_contracts final) c' i' k' f' →
  fr_calls f !! j = Some r → fr_calls f' !! j' = Some r' → cr_id r = cr_id r' → c = c' ∧ i = i' ∧ j = j'.
Proof using Ha Hrss Hids.
  intros (k0 & f0 & Hat & -> & ->)%at_fill (k1 & f1 & Hat1 & -> & ->)%at_fill. unfold with_calls. cbn [set_calls fr_calls].
  destruct (caller_rows !! row_key k0 f0) as [rs|] eqn:E0; [|done]. destruct (caller_rows !! row_key k1 f1) as [rs1|] eqn:E1; [|done].
  cbn [default]. intros Hj Hj' E. apply caller_rows_some in E0 as (a & s & Hl & Hr), E1 as (a1 & s1 & Hl1 & Hr1).
  assert (NoDup (map cr_id (concat rss))) as Hnd by (rewrite Hids; apply NoDup_seqZ).
  destruct (concat_places rss Hnd _ _ _ _ _ _ _ _ Hr Hj Hr1 Hj' E) as [-> ->]. rewrite Hl in Hl1.
  assert (row_key k0 f0 = row_key k1 f1) as Ek by congruence.
  destruct (at_fn_unique st' _ _ _ _ _ _ _ _ (ca_wf _ _ _ Ha) Hat Hat1 Ek) as (-> & -> & _). done.
Qed.
Lemma final_describes : describes done final.
Proof using Ht Ha Hrss Hids.
  pose proof (ca_wf _ _ _ Ha) as Hw.
  split; [done| | | | | |by apply final_modules|by apply final_calls|by apply final_external|by apply final_call_ids];
    cbn [final rows_contracts].
  - exists (ld_next_contract_id st'). intros c. by rewrite lookup_fmap, fmap_is_Some, (wl_contracts _ Hw).
  - intros c k (k0 & <- & Hk)%lookup_fmap_Some. exact (wl_id _ Hw _ _ Hk).
  - intros c c' k k' (k0 & <- & Hk)%lookup_fmap_Some (k1 & <- & Hk1)%lookup_fmap_Some. exact (wf_contract_name st' c c' k0 k1 Hw Hk Hk1).
  - exists (ld_next_function_id st'). intros id. rewrite <-(wl_dense _ Hw). split.
    + intros (c & i & k & f & (k0 & f0 & Hat & -> & ->)%at_fill & <-). exists (c, i). apply (wl_locations _ Hw). by exists k0, f0.
    + intros [[c i] (k0 & f0 & Hat & Hid)%(wl_locations _ Hw)]. eexists c, i, _, _. split; [by apply final_at|done].
  - intros c i k f c' i' k' f' (k0 & f0 & Hat & -> & ->)%at_fill (k1 & f1 & Hat1 & -> & ->)%at_fill [E|E].
    + assert (ld_function_locations st' !! fr_id f0 = Some (c, i)) as L by (apply (wl_locations _ Hw); by exists k0, f0).
      assert (ld_function_locations st' !! fr_id f1 = Some (c', i')) as L1 by (apply (wl_locations _ Hw); by exists k1, f1).
      cbn [with_calls set_calls fr_id] in E. rewrite E in L. rewrite L in L1. by injection L1 as -> ->.
    + rewrite !row_key_fill in E. by destruct (at_fn_unique st' _ _ _ _ _ _ _ _ Hw Hat Hat1 E) as (-> & -> & _).
Qed.
End filled.

(** The second and third pass, after the walk. *)
Lemma connect_spec done st : tracks done st → (Z.of_nat (total module_weight done) < i32_max)%Z →
  ∃ g, connect st = Ret g ∧ describes done g.
Proof.
  intros Ht Hlt. rewrite total_weight in Hlt. pose proof (tr_spent _ _ Ht) as Hs. pose proof (tr_ids _ _ Ht) as [Hc Hf].
  unfold connect. destruct (add_callees_spec (flat_map (λ x, call_iter x.2) (callers st)) st) as (st' & Est & Ha).
  { by apply (tr_wf _ _ Ht). }
  1, 2: rewrite all_calls_length; unfold callers; rewrite pending_iter_total; lia.
  unfold callers in Est. rewrite Est. cbn [mbind panics_mbind panics_bind]. pose proof (ca_wf _ _ _ Ha) as Hw. rewrite (ca_pending _ _ _ Ha).
  destruct (add_edges_spec st' Hw (callers st) ∅ 1) as (rss & Erun & Hrss & Hids).
  { apply pending_iter_keys. }
  { done. }
  { intros [key s] Hin. split.
    - apply elem_of_pending_iter, (tr_pending _ _ Ht) in Hin as (n & calls & x & Hin & Hx & -> & _).
      destruct (tr_contract _ _ Ht _ _ Hin) as (c & k & Hk & <- & Hrows). apply list_elem_of_lookup in Hx as [i Hi].
      destruct (Forall2_lookup_l _ _ _ _ _ Hrows Hi) as (f & Hff & Erow). cbn [fst].
      exists (fr_id f). apply (extends_ids st st'); [by apply (tr_wf _ _ Ht)|done|by apply (ca_extends _ _ _ Ha)|].
      apply (wl_keys _ (tr_wf _ _ Ht)). exists c, i, k, f. split; [by split|]. split; [done|]. by rewrite Erow.
    - intros p Hp. apply (ca_found _ _ _ Ha). apply list_elem_of_In, in_flat_map. exists (key, s). by rewrite <-!list_elem_of_In. }
  { unfold callers. rewrite pending_iter_total. lia. }
  rewrite fill_none in Erun by done. rewrite map_union_empty in Erun. unfold callers in Erun. rewrite Erun.
  cbn [mbind panics_mbind panics_bind]. eexists. split; [reflexivity|]. by apply (final_describes done st st' rss).
Qed.

(** The directories a source file is looked for in. *)
Definition preferred_roots (package_root : Path) (package_name : string) : list Path :=
  [package_root ++ ["sources"]; package_root ++ ["tests"]; package_root ++ ["build"; package_name; "sources"]].
Lemma source_path_found canonicalize is_dir read_dir weight fuel analysis_root package_root package_name module_name :
  finite_tree read_dir weight → (∀ d, d ∈ preferred_roots package_root package_name → weight d < fuel) →
  is_Some (infer_relative_source_path canonicalize is_dir read_dir fuel analysis_root package_root package_name module_name).
Proof.
  intros Hw Hd. unfold infer_relative_source_path. fold (preferred_roots package_root package_name).
  assert (is_Some (first_source is_dir read_dir fuel (preferred_roots package_root package_name) module_name)) as [r ->]; [|by eexists].
  induction (preferred_roots package_root package_name) as [|d roots IH]; [by eexists|]. cbn [first_source].
  assert (is_Some (find_module_source_file is_dir read_dir fuel d module_name)) as [[p|] ->]; [|by eexists|].
  - unfold find_module_source_file. destruct (is_dir d); [|by eexists]. cbn [negb].
    destruct (search_loop_spec read_dir module_name weight fuel Hw [d]) as (r & -> & _); [|by eexists].
    specialize (Hd d ltac:(by left)). simpl. lia.
  - apply IH. intros x Hx. apply Hd. by right.
Qed.

Context (find_function_def_by_name : BinaryModule → string → option FnDefinition)
  (canonicalize : Path → option Path) (is_dir is_file : Path → bool)
  (read_dir : Path → option (list (string * option FileType)))
  (build_checked : Path → bool → result BuiltPackage) (resolve_local_dependency_paths : Path → bool → result (list Path)).
(** C30: for packages that build, the call graph is returned, and it has the
    functions of their modules, each module once, and the external functions
    they call; contracts and functions are numbered from one without gaps, and
    the edges of a function are the calls of its bytecode, each to the function
    of the graph with that module and name. *)
Theorem call_graph_of_bytecode weight fuel package_root root test_mode roots packages mods :
  canonical_package_root canonicalize is_dir is_file package_root = Ok root →
  resolve_search_roots resolve_local_dependency_paths root test_mode = Ok roots →
  Forall2 (λ r package, build_checked r test_mode = Ok package) roots packages →
  Forall identified (all_modules packages) →
  Forall2 (analyses find_function_def_by_name) (fresh_modules ∅ (all_modules packages)) mods →
  (Z.of_nat (total module_weight mods) < i32_max)%Z →
  finite_tree read_dir weight → (∀ r name d, r ∈ roots → d ∈ preferred_roots r name → weight d < fuel) →
  ∃ g, load_call_graph find_function_def_by_name canonicalize is_dir is_file read_dir build_checked resolve_local_dependency_paths
      fuel package_root test_mode = Ret (Some (Ok g)) ∧ describes mods g.
Proof.
  intros Hroot Hroots Hb Hids Hmods Hlt Hw Hfuel. unfold load_call_graph. rewrite Hroot, Hroots.
  destruct (load_packages_spec find_function_def_by_name canonicalize is_dir read_dir build_checked fuel root test_mode roots packages)
    with (done := @nil (string * Calls)) (st := load_new) (new := mods) as (st & -> & Ht); [|done|done|apply tracks_new|done|done|].
  - intros r package_name name Hr. eapply source_path_found; [done|]. intros d. by apply Hfuel.
  - cbn [mbind panics_mbind panics_bind]. destruct (connect_spec mods st Ht Hlt) as (g & -> & Hg). by exists g.
Qed.
End graph.

(** ** Witness: a package with one module *)
Definition demo_calls : Calls :=
  match bytecode_from_sui_module demo_find demo_binary with Ret ba => ba_calls ba | Panic => [] end.
Definition demo_root : Path := ["p"].
Definition demo_build (_ : Path) (_ : bool) : result BuiltPackage := Ok (MkBuilt "pkg" [demo_binary]).
Definition demo_load : panics (option (result CallGraphRows)) :=
  load_call_graph demo_find Some (λ _, true) (λ _, true) (λ _, None) demo_build (λ _ _, Ok []) 2 demo_root false.
(** The names of contracts and functions, and the ends of the edges. *)
Definition demo_summary (g : CallGraphRows) : list (string * list (string * list Z)) :=
  map (λ x, (ct_name x.2, map (λ f, (fr_name f, map cr_to_id (fr_calls f))) (ct_functions x.2))) (z_iter (rows_contracts g)).
Lemma call_graph_of_bytecode_witness :
  returns (λ r, match r with
    | Some (Ok g) => bool_decide (demo_summary g = [("0x9::m", [("f", [2; 1]%Z)]); ("0x2::coin", [("join", [])])])
    | _ => false end) demo_load = true ∧
  ∃ g, demo_load = Ret (Some (Ok g)) ∧ describes [("0x9::m", demo_calls)] g.
Proof.
  split; [vm_compute; reflexivity|]. unfold demo_load.
  apply (call_graph_of_bytecode demo_find Some (λ _, true) (λ _, true) (λ _, None) demo_build (λ _ _, Ok []) (λ _, 1) 2
    demo_root demo_root false [demo_root] [MkBuilt "pkg" [demo_binary]] [("0x9::m", demo_calls)]).
  - reflexivity.
  - reflexivity.
  - repeat constructor.
  - constructor; [|constructor]. eexists. reflexivity.
  - assert (fresh_modules ∅ (all_modules [MkBuilt "pkg" [demo_binary]]) = [("0x9::m", demo_binary)]) as -> by (vm_compute; reflexivity).
    constructor; [|constructor]. split; [done|]. split; [eexists; reflexivity|]. split; [eexists; reflexivity|].
    eapply bool_decide_unpack. vm_compute. done.
  - vm_compute. done.
  - intros d. simpl. lia.
  - intros r name d _ _. lia.
Defined.
