(* ===== verification/ExportWalk.v ===== *)
(** * ExportWalk: structs and metadata under the numbers of the call graph

    [PackageWalk::from_package_root] walks the packages a second time, naming
    modules by another function than the first walk. The names agree, so the
    second walk finds every module and function of the first: its error is not
    reached, each metadata row has the number of its function, each struct that
    of its contract. *)
From S2P Require Import Prelude Types Text AbiText FuzzTracer Abi Compile Binary BinarySpec Export ExportSpec ExportGraph.
From Stdlib Require String.
Local Open Scope string_scope.
Local Open Scope list_scope.

(** ** The names of the graph *)
(** A table filled in from a list in which equal keys have equal values. *)
Lemma fold_insert_lookup {A V} `{Countable K} (key : A → K) (val : A → V) xs : 
  (∀ x y, x ∈ xs → y ∈ xs → key x = key y → val x = val y) → ∀ (m0 : gmap K V) k v,
  fold_left (λ m x, <[key x := val x]> m) xs m0 !! k = Some v ↔
  (∃ x, x ∈ xs ∧ key x = k ∧ val x = v) ∨ ((∀ x, x ∈ xs → key x ≠ k) ∧ m0 !! k = Some v).
Proof.
  induction xs as [|x xs IH]; intros Hinj m0 k v; cbn [fold_left].
  - split; [intros Hm; right; split; [by intros ? ?%elem_of_nil|done]|]. by intros [(? & ?%elem_of_nil & _)|[_ Hm]].
  - rewrite IH by (intros y z Hy Hz; apply Hinj; by right). setoid_rewrite elem_of_cons. rewrite lookup_insert_Some. split.
    + intros [(y & Hy & Hk & Hv)|[Hno [[Hk Hv]|[Hk Hm]]]]; [left; exists y; auto|left; exists x; auto|].
      right. split; [|done]. intros y [->|Hy]; [done|by apply Hno].
    + intros [(y & [->|Hy] & Hk & Hv)|[Hno Hm]].
      * destruct (decide (Exists (λ z, key z = k) xs)) as [(z & Hz & Hkz)%Exists_exists|Hno].
        -- left. exists z. split; [done|]. split; [done|]. rewrite <-Hv. apply Hinj; [by right|by left|congruence].
        -- right. split; [|by left]. intros z Hz Hkz. apply Hno, Exists_exists. by exists z.
      * left. exists y. auto.
      * right. split; [intros y Hy; apply Hno; by right|]. right. split; [apply Hno; by left|done].
Qed.
Lemma lookup_contract_ids l : ∀ l0, nl_contract_ids (fold_left add_contract l l0) =
  fold_left (λ m k, <[ct_name k := ct_id k]> m) l (nl_contract_ids l0).
Proof. induction l as [|k l IH]; intros l0; [done|]. cbn [fold_left]. by rewrite IH. Qed.
Definition functions_of (l : list Contract) : list (Contract * FunctionRow) := flat_map (λ k, map (pair k) (ct_functions k)) l.
Lemma lookup_function_ids l : ∀ l0, nl_function_ids (fold_left add_contract l l0) =
  fold_left (λ m x, <[(ct_name x.1, fr_name x.2) := fr_id x.2]> m) (functions_of l) (nl_function_ids l0).
Proof.
  induction l as [|k l IH]; intros l0; [done|]. cbn [fold_left]. rewrite IH. unfold functions_of at 2. cbn [flat_map].
  rewrite fold_left_app. f_equal. unfold add_contract. cbn [nl_function_ids]. unfold lookup_functions.
  generalize (nl_function_ids l0). induction (ct_functions k) as [|f fs IHf]; intros m; [done|]. cbn [fold_left map fst snd]. apply IHf.
Qed.
Lemma elem_of_z_iter {V} (m : gmap Z V) c v : (c, v) ∈ z_iter m ↔ m !! c = Some v.
Proof. unfold z_iter. rewrite merge_sort_Permutation. apply elem_of_map_to_list. Qed.

Section walk.
Context `{AT : AddressText}.
Context (mods : list (string * Calls)) (g : CallGraphRows) (Hg : describes mods g).
Lemma from_call_graph_contract n c : contract_id (from_call_graph g) n = Some c ↔
  ∃ k, rows_contracts g !! c = Some k ∧ ct_name k = n.
Proof using Hg.
  unfold contract_id, from_call_graph. rewrite (ge_interfaces _ _ Hg). cbn [z_iter map fold_left].
  change (map snd (z_iter ∅)) with (@nil Contract). cbn [fold_left]. rewrite lookup_contract_ids. cbn [nl_contract_ids].
  assert (∀ k, k ∈ map snd (z_iter (rows_contracts g)) ↔ ∃ c, rows_contracts g !! c = Some k) as Hin.
  { intros k. rewrite list_elem_of_fmap. split; [intros ([c' k'] & -> & Hx%elem_of_z_iter); by exists c'|].
    intros [c' Hx%elem_of_z_iter]. by exists (c', k). }
  rewrite fold_insert_lookup.
  - setoid_rewrite Hin. rewrite lookup_empty. split.
    + intros [(k & [c' Hk] & Hn & Hc)|[_ ?]]; [|done]. pose proof (ge_contract_id _ _ Hg _ _ Hk). exists k. split; [congruence|done].
    + intros (k & Hk & Hn). left. exists k. pose proof (ge_contract_id _ _ Hg _ _ Hk). split; [by exists c|done].
  - intros x y [c1 Hx]%Hin [c2 Hy]%Hin E. pose proof (ge_contract_name _ _ Hg _ _ _ _ Hx Hy E) as ->. congruence.
Qed.
Lemma from_call_graph_function n name id : function_id (from_call_graph g) n name = Some id ↔
  ∃ c i k f, at_fn (rows_contracts g) c i k f ∧ row_key k f = MkFunctionKey n name ∧ fr_id f = id.
Proof using Hg.
  unfold function_id, from_call_graph. rewrite (ge_interfaces _ _ Hg).
  change (map snd (z_iter ∅)) with (@nil Contract). cbn [fold_left]. rewrite lookup_function_ids. cbn [nl_function_ids].
  assert (∀ x, x ∈ functions_of (map snd (z_iter (rows_contracts g))) ↔ ∃ c i, at_fn (rows_contracts g) c i x.1 x.2) as Hin.
  { intros [k f]. unfold functions_of. rewrite list_elem_of_In, in_flat_map. split.
    - intros (k' & Hk%list_elem_of_In & Hf%list_elem_of_In). apply list_elem_of_fmap in Hf as (f' & [= -> ->] & Hf).
      apply list_elem_of_fmap in Hk as ([c k2] & -> & Hk%elem_of_z_iter). apply list_elem_of_lookup in Hf as [i Hi]. exists c, i. by split.
    - intros (c & i & Hc & Hi). exists k. rewrite <-!list_elem_of_In. split.
      + apply list_elem_of_fmap. exists (c, k). split; [done|]. by apply elem_of_z_iter.
      + apply list_elem_of_fmap. exists f. split; [done|]. by eapply list_elem_of_lookup_2. }
  rewrite fold_insert_lookup.
  - setoid_rewrite Hin. rewrite lookup_empty. split.
    + intros [([k f] & (c & i & Hat) & Hk & Hid)|[_ ?]]; [|done]. exists c, i, k, f. unfold row_key. cbn [fst snd] in *. by simplify_eq.
    + intros (c & i & k & f & Hat & Hk & Hid). left. exists (k, f). unfold row_key in Hk. simplify_eq. split; [by exists c, i|done].
  - intros [k f] [k' f'] (c & i & Hat)%Hin (c' & i' & Hat')%Hin E. cbn [fst snd] in *.
    destruct (ge_unique _ _ Hg _ _ _ _ _ _ _ _ Hat Hat') as [-> ->]; [right; unfold row_key; by injection E as -> ->|].
    destruct Hat as [Hc Hi], Hat' as [Hc' Hi']. by simplify_eq.
Qed.

(** ** The second walk *)
(** The modules of the first walk, with their ABI. *)
Definition tagged {A} (f : MoveModuleAbi → list A) (abis : list (string * MoveModuleAbi)) : list (string * A) :=
  flat_map (λ m, map (pair m.1) (f m.2)) abis.
Definition metadata_row (x : string * MoveFunctionAbi) (r : FunctionMetadata) : Prop :=
  ∃ c i k f, at_fn (rows_contracts g) c i k f ∧ row_key k f = MkFunctionKey x.1 (fa_name x.2) ∧ r = function_metadata (fr_id f) x.2.
Definition struct_row (x : string * MoveStructAbi) (r : StructRow) : Prop :=
  ∃ c k, rows_contracts g !! c = Some k ∧ ct_name k = x.1 ∧ r = struct_from_abi (sr_id r) c x.2.
Record structured (abis : list (string * MoveModuleAbi)) (metadata : list FunctionMetadata) (structs : list StructRow)
    (ids : gmap (string * string) Z) : Prop := MkStructured {
  sd_metadata : Forall2 metadata_row (tagged ma_functions abis) metadata;
  sd_structs : Forall2 struct_row (tagged ma_structs abis) structs;
  sd_ids : map sr_id structs = seqZ 1 (Z.of_nat (length structs));
  sd_lookup : ∀ n name id, ids !! (n, name) = Some id →
    ∃ i x r, tagged ma_structs abis !! i = Some x ∧ structs !! i = Some r ∧ x.1 = n ∧ sr_name r = name ∧ sr_id r = id }.
Record walked (abis : list (string * MoveModuleAbi)) (c : Collected) : Prop := MkWalked {
  wk_structured : structured abis (co_metadata c) (co_structs c) (co_struct_ids c);
  wk_seen : ∀ n, n ∈ co_seen c ↔ n ∈ map fst abis;
  wk_next : co_next_struct_id c = (1 + Z.of_nat (length (co_structs c)))%Z }.
Lemma walked_nil : walked [] (MkCollected ∅ 1 [] ∅ []).
Proof. split; [split; [constructor|constructor|done|done]|set_solver|done]. Qed.

Lemma tagged_snoc {A} (f : MoveModuleAbi → list A) abis m : tagged f (abis ++ [m]) = tagged f abis ++ map (pair m.1) (f m.2).
Proof. unfold tagged. rewrite flat_map_app. cbn [flat_map]. by rewrite app_nil_r. Qed.

(** The functions of a module are all found. *)
Lemma collect_functions_spec n fs c :
  (∀ f, f ∈ fs → ∃ id, function_id (from_call_graph g) n (fa_name f) = Some id) →
  ∃ rows, collect_functions (from_call_graph g) n fs c =
      MkCollected (co_seen c) (co_next_struct_id c) (co_structs c) (co_struct_ids c) (co_metadata c ++ rows) ∧
    Forall2 metadata_row (map (pair n) fs) rows.
Proof using Hg.
  revert c. induction fs as [|f fs IH]; intros c Hf; cbn [collect_functions map].
  - exists []. rewrite app_nil_r. split; [by destruct c|constructor].
  - destruct (Hf f) as [id Hid]; [by left|]. rewrite Hid.
    edestruct IH as (rows & -> & Hrows); [intros f' Hf'; apply Hf; by right|]. cbn [co_seen co_next_struct_id co_structs co_struct_ids co_metadata].
    exists (function_metadata id f :: rows). rewrite <-app_assoc. split; [done|]. constructor; [|done].
    apply from_call_graph_function in Hid as (c' & i & k & row & Hat & Hk & <-). by exists c', i, k, row.
Qed.
Lemma collect_structs_spec n cid k ss c abis : rows_contracts g !! cid = Some k → ct_name k = n →
  co_next_struct_id c = (1 + Z.of_nat (length (co_structs c)))%Z →
  map sr_id (co_structs c) = seqZ 1 (Z.of_nat (length (co_structs c))) →
  (1 + Z.of_nat (length (co_structs c)) + Z.of_nat (length ss) ≤ i32_max)%Z →
  Forall2 struct_row abis (co_structs c) →
  (∀ n name id, co_struct_ids c !! (n, name) = Some id →
    ∃ i x r, abis !! i = Some x ∧ co_structs c !! i = Some r ∧ x.1 = n ∧ sr_name r = name ∧ sr_id r = id) →
  ∃ ids rows, collect_structs n cid ss c =
      MkCollected (co_seen c) (1 + Z.of_nat (length (co_structs c ++ rows))) (co_structs c ++ rows) ids (co_metadata c) ∧
    Forall2 struct_row (abis ++ map (pair n) ss) (co_structs c ++ rows) ∧
    map sr_id (co_structs c ++ rows) = seqZ 1 (Z.of_nat (length (co_structs c ++ rows))) ∧
    ∀ n' name id, ids !! (n', name) = Some id →
      ∃ i x r, (abis ++ map (pair n) ss) !! i = Some x ∧ (co_structs c ++ rows) !! i = Some r ∧ x.1 = n' ∧ sr_name r = name ∧ sr_id r = id.
Proof using Hg.
  intros Hk Hn. revert c abis. induction ss as [|s ss IH]; intros c abis Hnext Hids Hlt Hrows Hl; cbn [collect_structs map length] in *.
  - exists (co_struct_ids c), []. rewrite !app_nil_r, <-Hnext. split; [by destruct c|done].
  - set (row := struct_from_abi (co_next_struct_id c) cid s). set (c' := MkCollected _ _ _ _ _).
    assert (co_structs c' = co_structs c ++ [row]) as Es by done.
    assert (co_next_struct_id c' = (1 + Z.of_nat (length (co_structs c')))%Z) as Hnext'.
    { rewrite Es, length_app. cbn [c' co_next_struct_id length]. rewrite i32_next_small by lia. lia. }
    destruct (IH c' (abis ++ [(n, s)])) as (ids & rows & -> & H1 & H2 & H3).
    + done.
    + rewrite Es, map_app, Hids, length_app, Nat2Z.inj_add, seqZ_app by lia. cbn [map length]. f_equal.
      rewrite (seqZ_cons (1 + _)) by lia. cbn [row sr_id struct_from_abi]. rewrite Hnext. done.
    + rewrite Es, length_app. cbn [length]. lia.
    + rewrite Es. apply Forall2_app; [done|]. constructor; [|constructor]. by exists cid, k.
    + intros n' name id. rewrite Es. cbn [c' co_struct_ids]. rewrite lookup_insert_Some. intros [[[= <- <-] <-]|[_ Hid]].
      * exists (length (co_structs c)), (n, s), row. rewrite <-(Forall2_length _ _ _ Hrows) at 1.
        rewrite !list_lookup_middle by done. done.
      * destruct (Hl _ _ _ Hid) as (i & x & r & Hx & Hr & Hrest). exists i, x, r.
        split; [by apply lookup_app_l_Some|]. split; [by apply lookup_app_l_Some|done].
    + exists ids, (row :: rows). rewrite Es in *. rewrite <-!app_assoc in *. cbn [app] in *. split; [|by split_and!].
      cbn [c' co_seen co_metadata]. done.
Qed.

(** A module of the first walk is found, with its functions. *)
Definition known (n : string) (abi : MoveModuleAbi) : Prop := ∃ calls, (n, calls) ∈ mods ∧ map fst calls = ma_functions abi.
Lemma known_found n abi : known n abi → ∃ cid k, contract_id (from_call_graph g) n = Some cid ∧
  rows_contracts g !! cid = Some k ∧ ct_name k = n ∧
  ∀ f, f ∈ ma_functions abi → ∃ id, function_id (from_call_graph g) n (fa_name f) = Some id.
Proof using Hg.
  intros (calls & Hin & Ef). destruct (ge_modules _ _ Hg _ _ Hin) as (cid & k & own & ext & Hk & Hn & Hfs & Hown).
  exists cid, k. split; [by apply from_call_graph_contract; exists k|]. split; [done|]. split; [done|].
  intros f. rewrite <-Ef. intros (x & -> & Hx)%list_elem_of_fmap. apply list_elem_of_lookup in Hx as [i Hi].
  destruct (Forall2_lookup_l _ _ _ _ _ Hown Hi) as (row & Hrow & Erow). exists (fr_id row). apply from_call_graph_function.
  exists cid, i, k, row. split.
  - split; [done|]. rewrite Hfs. by apply lookup_app_l_Some.
  - split; [|done]. unfold row_key. rewrite Hn. f_equal. unfold loaded_row in Erow. apply (f_equal fr_name) in Erow. done.
Qed.

Hypothesis canonical_hex : ∀ p a, to_canonical_string p a = (if p : bool then "0x" else "") +:+ hex_digits 64 (addr_val a) "".
Definition readable (m : BinaryModule) : Prop :=
  ∃ abi, module_from_sui_module m = Ret abi ∧ (addr_val (module_address (ma_module_id abi)) < 2 ^ 256)%N.
Lemma abi_self_id m abi : module_from_sui_module m = Ret abi → binary_self_id m = Ret (ma_module_id abi).
Proof. unfold module_from_sui_module. intros E. panics_inv. unfold mret, panics_mret in *. by simplify_eq. Qed.
Lemma same_name m abi : module_from_sui_module m = Ret abi → (addr_val (module_address (ma_module_id abi)) < 2 ^ 256)%N →
  module_key m = if is_sui_std (module_address (ma_module_id abi)) then None else Some (module_canonical_short (ma_module_id abi)).
Proof using canonical_hex.
  intros E Ha. unfold module_key. rewrite (abi_self_id _ _ E). rewrite std_module_exact by done.
  destruct (is_sui_std _); [done|]. unfold canonical_module_id, module_canonical_short. by rewrite canonical_account.
Qed.

Definition struct_count (abis : list (string * MoveModuleAbi)) : nat := length (tagged ma_structs abis).
Lemma collect_module_spec m abi n done c : module_from_sui_module m = Ret abi →
  (addr_val (module_address (ma_module_id abi)) < 2 ^ 256)%N → module_key m = Some n → n ∉ map fst done → known n abi →
  walked done c → (Z.of_nat (struct_count (done ++ [(n, abi)])) < i32_max)%Z →
  ∃ c', collect_module (from_call_graph g) m c = Ret (Ok c') ∧ walked (done ++ [(n, abi)]) c'.
Proof using Hg canonical_hex.
  intros E Ha Hkey Hn Hknown [[Hmd Hss Hids Hlook] Hseen Hnext] Hlt. rewrite (same_name _ _ E Ha) in Hkey.
  unfold collect_module. rewrite E. cbn [mbind panics_mbind panics_bind].
  destruct (is_sui_std _); [done|]. injection Hkey as Hkey. rewrite Hkey. rewrite decide_False by by rewrite Hseen.
  destruct (known_found n abi Hknown) as (cid & k & -> & Hk & Hname & Hfs).
  unfold struct_count in Hlt. rewrite tagged_snoc, length_app, length_map in Hlt. cbn [fst snd] in Hlt.
  edestruct (collect_structs_spec n cid k (ma_structs abi)) as (ids & rows & -> & H1 & H2 & H3);
    [exact Hk|exact Hname|exact Hnext|exact Hids| |exact Hss|exact Hlook|].
  { cbn [co_structs]. rewrite <-(Forall2_length _ _ _ Hss). lia. }
  cbn [co_seen co_structs co_metadata] in *.
  edestruct (collect_functions_spec n (ma_functions abi)) as (mrows & -> & Hm); [exact Hfs|]. eexists. split; [reflexivity|].
  cbn [co_seen co_structs co_metadata co_next_struct_id co_struct_ids].
  split; [split|..]; cbn [co_seen co_structs co_metadata co_next_struct_id co_struct_ids]; rewrite ?tagged_snoc; cbn [fst snd]; try done.
  - by apply Forall2_app.
  - intros x. rewrite map_app, elem_of_app, <-Hseen. cbn [map fst]. rewrite elem_of_union, elem_of_singleton, list_elem_of_singleton. tauto.
Qed.

Definition abi_module (x : string * BinaryModule) (y : string * MoveModuleAbi) : Prop :=
  x.1 = y.1 ∧ module_from_sui_module x.2 = Ret y.2.
Lemma abi_module_names l new : Forall2 abi_module l new → map fst l = map fst new.
Proof. induction 1 as [|x y l new [E _] _ IH]; [done|]. cbn [map]. by rewrite E, IH. Qed.
Lemma struct_count_app l l' : struct_count (l ++ l') = (struct_count l + struct_count l')%nat.
Proof. unfold struct_count, tagged. by rewrite flat_map_app, length_app. Qed.
Lemma collect_package_spec ms : Forall readable ms → ∀ done c new, walked done c →
  Forall2 abi_module (fresh_modules (list_to_set (map fst done)) ms) new → Forall (λ x, known x.1 x.2) new →
  (Z.of_nat (struct_count (done ++ new)) < i32_max)%Z →
  ∃ c', collect_package (from_call_graph g) ms c = Ret (Ok c') ∧ walked (done ++ new) c'.
Proof using Hg canonical_hex.
  induction 1 as [|m ms (abi & E & Ha) _ IH]; intros done c new Hw Hnew Hk Hlt; cbn [collect_package fresh_modules] in *.
  - apply Forall2_nil_inv_l in Hnew as ->. rewrite app_nil_r. by exists c.
  - assert (∀ n, module_key m = None ∨ (module_key m = Some n ∧ n ∈ map fst done) →
      collect_module (from_call_graph g) m c = Ret (Ok c)) as Hskip.
    { intros n Hx. rewrite (same_name m abi E Ha) in Hx. unfold collect_module. rewrite E. cbn [mbind panics_mbind panics_bind].
      destruct (is_sui_std _); [done|]. destruct Hx as [|[[= ->] Hn]]; [done|]. rewrite decide_True; [done|]. by apply (wk_seen _ _ Hw). }
    destruct (module_key m) as [n|] eqn:Ek; [|rewrite (Hskip "") by (by left); by apply IH].
    destruct (decide (n ∈ (list_to_set (map fst done) : gset string))) as [Hin|Hin]; rewrite elem_of_list_to_set in Hin.
    { rewrite (Hskip n) by (by right). by apply IH. }
    apply Forall2_cons_inv_l in Hnew as ([n' abi'] & new' & [En Ea] & Hnew & ->). cbn [fst snd] in *. subst n'.
    rewrite E in Ea. injection Ea as <-. apply Forall_cons in Hk as [Hk1 Hk]. cbn [fst snd] in Hk1.
    replace (done ++ (n, abi) :: new') with ((done ++ [(n, abi)]) ++ new') in * by by rewrite <-app_assoc.
    destruct (collect_module_spec m abi n done c E Ha Ek Hin Hk1 Hw) as (c1 & -> & Hw1).
    { rewrite struct_count_app in Hlt. lia. }
    cbn [mbind panics_mbind panics_bind]. apply IH; [done| |done|done].
    rewrite map_app, list_to_set_app_L. cbn [map fst list_to_set]. by rewrite union_empty_r_L, union_comm_L.
Qed.
Context (build_checked : Path → bool → result BuiltPackage).
Lemma collect_packages_spec test_mode roots packages :
  Forall2 (λ root package, build_checked root test_mode = Ok package) roots packages →
  Forall readable (all_modules packages) → ∀ done c new, walked done c →
  Forall2 abi_module (fresh_modules (list_to_set (map fst done)) (all_modules packages)) new → Forall (λ x, known x.1 x.2) new →
  (Z.of_nat (struct_count (done ++ new)) < i32_max)%Z →
  ∃ c', collect_packages build_checked (from_call_graph g) roots test_mode c = Ret (Ok c') ∧ walked (done ++ new) c'.
Proof using Hg canonical_hex.
  induction 1 as [|root package roots packages Eb _ IH]; intros Hr done c new Hw Hnew Hk Hlt; cbn [collect_packages].
  - apply Forall2_nil_inv_l in Hnew as ->. rewrite app_nil_r. by exists c.
  - rewrite Eb. unfold all_modules in Hr, Hnew. cbn [map concat] in Hr, Hnew. apply Forall_app in Hr as [Hr1 Hr2].
    rewrite fresh_modules_app in Hnew. apply Forall2_app_inv_l in Hnew as (new1 & new2 & Hnew1 & Hnew2 & ->).
    rewrite (abi_module_names _ _ Hnew1) in Hnew2. apply Forall_app in Hk as [Hk1 Hk2]. rewrite app_assoc in *.
    destruct (collect_package_spec (bp_modules package) Hr1 done c new1) as (c1 & -> & Hw1); [done..| |].
    { rewrite struct_count_app in Hlt. lia. }
    cbn [mbind panics_mbind panics_bind]. apply IH; [done|done| |done|done]. by rewrite map_app, list_to_set_app_L, union_comm_L.
Qed.
End walk.

(** ** The walk *)
Section package.
Context `{AT : AddressText}.
Hypothesis canonical_hex : ∀ p a, to_canonical_string p a = (if p : bool then "0x" else "") +:+ hex_digits 64 (addr_val a) "".
Context (find_function_def_by_name : BinaryModule → string → option FnDefinition)
  (canonicalize : Path → option Path) (is_dir is_file : Path → bool)
  (read_dir : Path → option (list (string * option FileType)))
  (build_checked : Path → bool → result BuiltPackage) (resolve_local_dependency_paths : Path → bool → result (list Path)).

(** The functions of the call analysis are those of the ABI. *)
Lemma analysis_functions m abi calls : bytecode_from_sui_module find_function_def_by_name m = Ret (MkBytecodeAnalysis abi calls) →
  module_from_sui_module m = Ret abi ∧ map fst calls = ma_functions abi.
Proof.
  unfold bytecode_from_sui_module. destruct (module_from_sui_module m) as [abi'|] eqn:E; [|done]. cbn [mbind panics_mbind panics_bind].
  destruct (mapM (calls_of find_function_def_by_name m) (bm_function_defs m)) as [calls'|] eqn:Ec; [|done].
  cbn [mbind panics_mbind panics_bind]. intros [= -> ->]. split; [done|].
  assert (mapM (fn_from_module_def m) (bm_function_defs m) = Ret (ma_functions abi)) as Ef.
  { unfold module_from_sui_module in E. panics_inv. unfold mret, panics_mret in *. by simplify_eq. }
  revert Ef. generalize (ma_functions abi). revert calls Ec. clear E. induction (bm_function_defs m) as [|def defs IH]; intros calls Ec fs Ef.
  - cbn [mapM] in *. unfold mret, panics_mret in *. by simplify_eq.
  - cbn [mapM] in *. destruct (calls_of find_function_def_by_name m def) as [x|] eqn:Ex; [|done].
    assert (fn_from_module_def m def = Ret x.1) as Ef1.
    { unfold calls_of in Ex. destruct (fn_from_module_def m def) as [f|]; [|done]. cbn [mbind panics_mbind panics_bind] in Ex.
      destruct (calls_loop _ _ _ _) as [cs|]; [|done]. by injection Ex as <-. }
    rewrite Ef1 in Ef. cbn [mbind panics_mbind panics_bind] in *.
    destruct (mapM (calls_of find_function_def_by_name m) defs) as [cs'|]; [|done].
    destruct (mapM (fn_from_module_def m) defs) as [fs'|]; [|done]. cbn [mbind panics_mbind panics_bind] in *.
    unfold mret, panics_mret in *. simplify_eq. cbn [map]. f_equal. by apply IH.
Qed.

(** C29: for packages that build, the package walk returns the call graph of
    their bytecode with the structure of their modules: the second walk finds
    every module and function of the first under the name the first gave it,
    so that each metadata row has the number of its function, each struct row
    the number of its contract, and structs are numbered from one. *)
Theorem package_walk_exact weight fuel package_root root test_mode roots packages mods abis :
  canonical_package_root canonicalize is_dir is_file package_root = Ok root →
  resolve_search_roots resolve_local_dependency_paths root test_mode = Ok roots →
  Forall2 (λ r package, build_checked r test_mode = Ok package) roots packages →
  Forall readable (all_modules packages) →
  Forall2 (analyses find_function_def_by_name) (fresh_modules ∅ (all_modules packages)) mods →
  Forall2 abi_module (fresh_modules ∅ (all_modules packages)) abis →
  (Z.of_nat (total module_weight mods) < i32_max)%Z → (Z.of_nat (struct_count abis) < i32_max)%Z →
  finite_tree read_dir weight → (∀ r name d, r ∈ roots → d ∈ preferred_roots r name → weight d < fuel) →
  ∃ w, from_package_root find_function_def_by_name canonicalize is_dir is_file read_dir build_checked resolve_local_dependency_paths
      fuel package_root test_mode = Ret (Some (Ok w)) ∧ describes mods (pw_call_graph w) ∧
    structured (pw_call_graph w) abis (ps_function_metadata (pw_structure w)) (ps_structs (pw_structure w)) (pw_struct_id_lookup w).
Proof.
  intros Hroot Hroots Hb Hread Hmods Habis Hlt Hlt' Hw Hfuel. unfold from_package_root, load_call_graph. rewrite Hroot, Hroots.
  destruct (load_packages_spec find_function_def_by_name canonicalize is_dir read_dir build_checked fuel root test_mode roots packages)
    with (done := @nil (string * Calls)) (st := load_new) (new := mods) as (st & -> & Ht); [|done| |apply tracks_new|done|done|].
  - intros r package_name name Hr. eapply source_path_found; [done|]. intros d. by apply Hfuel.
  - eapply Forall_impl; [exact Hread|]. intros m (abi & E & _). exists (ma_module_id abi). by apply abi_self_id.
  - cbn [mbind panics_mbind panics_bind]. destruct (connect_spec mods st Ht Hlt) as (g & -> & Hg). cbn [mbind panics_mbind panics_bind].
    unfold collect_package_structure. rewrite Hroot, Hroots.
    destruct (collect_packages_spec mods g Hg canonical_hex build_checked test_mode roots packages Hb Hread [] (MkCollected ∅ 1 [] ∅ []) abis)
      as (c & -> & [Hs _ _]); [by apply (walked_nil mods g)|done| |done|].
    + clear -Hmods Habis. revert Habis. generalize abis. induction Hmods as [|[n m] [n' calls] l mods [En Ha] _ IH]; intros abis' Habis.
      * by apply Forall2_nil_inv_l in Habis as ->.
      * apply Forall2_cons_inv_l in Habis as ([n2 abi] & abis2 & [En2 Eabi] & Habis & ->). cbn [fst snd] in *. subst n' n2.
        constructor.
        -- destruct Ha as (_ & (abi' & Eba) & _). apply analysis_functions in Eba as [Eabi' Hf].
           rewrite Eabi in Eabi'. injection Eabi' as <-. exists calls. split; [by left|done].
        -- eapply Forall_impl; [exact (IH abis2 Habis)|]. intros x (cs & Hin & E). exists cs. split; [by right|done].
    + cbn [mbind panics_mbind panics_bind result_mbind]. eexists. split; [reflexivity|]. by split.
Qed.
End package.

(** ** Witness: the package of the call graph's witness *)
Definition demo_abis : list (string * MoveModuleAbi) :=
  match module_from_sui_module demo_binary with Ret abi => [("0x9::m", abi)] | Panic => [] end.
Definition demo_walk : panics (option (result PackageWalk)) :=
  from_package_root demo_find Some (λ _, true) (λ _, true) (λ _, None) demo_build (λ _ _, Ok []) 2 demo_root false.
Lemma package_walk_exact_witness :
  returns (λ r, match r with
    | Some (Ok w) => bool_decide (map (λ r, (sr_id r, sr_contract_id r, sr_name r)) (ps_structs (pw_structure w)) = [(1, 1, "S")]%Z ∧
        map (λ r, (mr_function_id r, map gp_name (mr_generic_params r))) (ps_function_metadata (pw_structure w)) = [(1%Z, ["T0"])])
    | _ => false end) demo_walk = true ∧
  ∃ w, demo_walk = Ret (Some (Ok w)) ∧ describes [("0x9::m", demo_calls)] (pw_call_graph w).
Proof.
  split; [vm_compute; reflexivity|]. unfold demo_walk.
  destruct (package_walk_exact (ltac:(intros [] a; reflexivity)) demo_find Some (λ _, true) (λ _, true) (λ _, None) demo_build (λ _ _, Ok [])
    (λ _, 1) 2 demo_root demo_root false [demo_root] [MkBuilt "pkg" [demo_binary]] [("0x9::m", demo_calls)] demo_abis) as (w & E & Hd & _).
  - reflexivity.
  - reflexivity.
  - repeat constructor.
  - constructor; [|constructor]. eexists. split; [reflexivity|]. vm_compute. done.
  - assert (fresh_modules ∅ (all_modules [MkBuilt "pkg" [demo_binary]]) = [("0x9::m", demo_binary)]) as -> by (vm_compute; reflexivity).
    constructor; [|constructor]. split; [done|]. split; [eexists; reflexivity|]. split; [eexists; reflexivity|].
    eapply bool_decide_unpack. vm_compute. done.
  - assert (fresh_modules ∅ (all_modules [MkBuilt "pkg" [demo_binary]]) = [("0x9::m", demo_binary)]) as -> by (vm_compute; reflexivity).
    constructor; [|constructor]. split; reflexivity.
  - vm_compute. done.
  - vm_compute. done.
  - intros d. simpl. lia.
  - intros r name d _ _. lia.
  - exists w. split; [exact E|exact Hd].
Defined.
