(* ===== verification/Setup.v ===== *)
(** * Setup: the metadata of an environment

    [Metadata::from_env_filtered] of [crates/movy-replay/src/meta.rs] and
    [FuzzMetadata::from_env] of [crates/movy-fuzz/src/meta.rs]: the ABIs of all
    packages in the store, with those of local packages in their place, and the
    indices over them: packages by module address, types by ability, functions
    by name, objects by type, structs by name. *)
From S2P Require Import Prelude Types Abi TypeArgs Text Ptb TraceState Tracer TreeTracer Lcov FuzzTracer TypeGraph Meta Cache Objects Db Compile Deploy Env.
From Stdlib Require String.
Local Open Scope string_scope.
Local Open Scope list_scope.

(** ** Indices over the ABIs *)
(** The modules of all packages, packages in the order of their ids. *)
Definition modules_of (abis : gmap MoveAddress MovePackageAbi) : list (MoveAddress * MoveModuleAbi) :=
  flat_map (λ x, map (pair x.1) (pa_modules x.2)) (address_iter abis).

Definition push_entry {K V} `{Countable K} (k : K) (v : V) (m : gmap K (list V)) : gmap K (list V) :=
  <[k := default [] (m !! k) ++ [v]]> m.
Definition insert_entry {K V} `{Countable K} `{Countable V} (k : K) (v : V) (m : gmap K (gset V)) : gmap K (gset V) :=
  <[k := {[ v ]} ∪ default ∅ (m !! k)]> m.

Definition struct_type (s : MoveStructAbi) : MoveTypeTag :=
  Tag_Struct (MkStructTag (module_address (sh_module_id (sa_handle s))) (module_name (sh_module_id (sa_handle s)))
    (sh_struct_name (sa_handle s)) []).
Definition primitive_types : gset MoveTypeTag :=
  list_to_set [Tag_Bool; Tag_Address; Tag_U8; Tag_U16; Tag_U32; Tag_U64; Tag_U128; Tag_U256; Tag_Vector Tag_U8].
(** Only structs without type parameters. *)
Definition add_struct_type (m : gmap N (gset MoveTypeTag)) (s : MoveStructAbi) : gmap N (gset MoveTypeTag) :=
  match sh_type_parameters (sa_handle s) with
  | [] => insert_entry (sh_abilities (sa_handle s)) (struct_type s) m
  | _ :: _ => m
  end.
Definition ability_types (abis : gmap MoveAddress MovePackageAbi) : gmap N (gset MoveTypeTag) :=
  fold_left add_struct_type (flat_map (λ x, ma_structs x.2) (modules_of abis))
    (<[ability_DROP := {[ Tag_Signer ]}]> (<[ability_PRIMITIVES := primitive_types]> ∅)).
(** The tags of a set, in their order. *)
Definition tag_iter (tags : gset MoveTypeTag) : list MoveTypeTag := merge_sort tag_le (elements tags).

Definition function_idents (testing_abis : gmap MoveAddress MovePackageAbi) : gmap string (list FunctionIdent) :=
  fold_left (λ m x, push_entry (fi_name x) x m)
    (flat_map (λ x, map (λ f, FunctionIdent_new (module_address (ma_module_id x.2)) (module_name (ma_module_id x.2)) (fa_name f))
      (ma_functions x.2)) (modules_of testing_abis)) ∅.
Definition structs_mapping_of (testing_abis : gmap MoveAddress MovePackageAbi) : gmap (MoveModuleId * string) MoveStructAbi :=
  fold_left (λ m x, <[x.1 := x.2]> m)
    (flat_map (λ x, map (λ st, ((ma_module_id x.2, sh_struct_name (sa_handle st)), st)) (ma_structs x.2)) (modules_of testing_abis)) ∅.

Definition filter_types_pool (types_pool : gmap MoveTypeTag (gset MoveAddress)) (include_types exclude_types : option (list MoveTypeTag)) :
    gmap MoveTypeTag (gset MoveAddress) :=
  let types_pool := match include_types with
    | Some include => filter (λ x, x.1 ∈ include) types_pool
    | None => types_pool end in
  let types_pool := match exclude_types with
    | Some exclude => filter (λ x, x.1 ∉ exclude) types_pool
    | None => types_pool end in
  filter (λ x, x.2 ≠ ∅) types_pool.

Section setup.
Context `{OL : ObjectLib} {T : Type} `{DB : !ObjectDb T} `{OF : !ObjectFacts}.
Context (from_sui_object : Object → result MovePackageAbi).
Context `{PG : PetGraph G}.

(** A module address that two packages share belongs to the newer one. *)
Fixpoint module_packages (modules : list (MoveAddress * MoveModuleAbi)) (m : gmap MoveAddress MoveAddress) (db : T) :
    result (gmap MoveAddress MoveAddress) * T :=
  match modules with
  | [] => (Ok m, db)
  | (pkg_id, module) :: modules =>
      let a := module_address (ma_module_id module) in
      match m !! a with
      | Some old_pkg_id =>
          match get_version old_pkg_id db with
          | (Err, db) => (Err, db)
          | (Ok old, db) =>
              match get_version pkg_id db with
              | (Err, db) => (Err, db)
              | (Ok new, db) => module_packages modules (if (old <? new)%N then <[a := pkg_id]> m else m) db
              end
          end
      | None => module_packages modules (<[a := pkg_id]> m) db
      end
  end.
Definition types_pool_of : T → result (gmap MoveTypeTag (gset MoveAddress)) * T :=
  listed (λ obj pool db,
    let '(r, db) := get_move_object_info obj db in
    (Ok (match r with Ok info => insert_entry (oi_ty info) obj pool | Err => pool end), db)) ∅.

Definition from_env_filtered (local_abis : gmap MoveAddress MovePackageAbi) (include_types exclude_types : option (list MoveTypeTag))
    (db : T) : panics (result (Metadata G) * T) :=
  match export_abi from_sui_object db with
  | (Err, db) => Ret (Err, db)
  | (Ok testing_abis, db) =>
      let abis := local_abis ∪ testing_abis in
      match module_packages (modules_of abis) ∅ db with
      | (Err, db) => Ret (Err, db)
      | (Ok module_address_to_package, db) =>
          match types_pool_of db with
          | (Err, db) => Ret (Err, db)
          | (Ok types_pool, db) =>
              type_graph ← add_packages (address_iter abis).*2 type_graph_new;
              Ret (Ok (MkMetadata type_graph abis testing_abis (filter_types_pool types_pool include_types exclude_types)
                module_address_to_package (tag_iter <$> ability_types abis) (function_idents testing_abis)
                (structs_mapping_of testing_abis)), db)
          end
      end
  end.
Definition metadata_from_env (local_abis : gmap MoveAddress MovePackageAbi) : T → panics (result (Metadata G) * T) :=
  from_env_filtered local_abis None None.

Definition fuzz_from_env {Rand : Type} (rand : Rand) (function_scores : list (FunctionIdent * N)) (target_packages : list MoveAddress)
    (attacker admin gas_id : MoveAddress) (local_abis local_testing_abis : gmap MoveAddress MovePackageAbi)
    (checkpoint epoch epoch_ms : N) (filters : TargetFilters) (db : T) : panics (result (FuzzMetadata (G := G) (Rand := Rand)) * T) :=
  '(base, db) ← from_env_filtered local_abis (include_types filters) (exclude_types filters) db;
  match base with
  | Err => Ret (Err, db)
  | Ok base =>
      meta ← from_metadata base rand function_scores target_packages attacker admin gas_id local_testing_abis
        checkpoint epoch epoch_ms filters;
      Ret (Ok meta, db)
  end.
End setup.
