(* ===== verification/SetupSpec.v ===== *)
(** * SetupSpec: the metadata says what the store and the ABIs hold

    Over any store whose reads do not change what is read ([StableReads], which
    the cache in memory has), every index of the metadata is characterised by
    the packages and objects of the store. *)
From S2P Require Import Prelude Types Abi TypeArgs Text Ptb TraceState Tracer TreeTracer Lcov FuzzTracer TypeGraph Meta Cache Objects Db Compile Deploy Env Setup.
From Stdlib Require String.
Local Open Scope string_scope.
Local Open Scope list_scope.

(** ** Reads that do not change what is read *)
Class StableReads `{OL : ObjectLib} (T : Type) `{DB : !ObjectDb T} `{LW : !ObjectDbLaws T} := {
  stable_read id id' s : db_id id → db_id id' → db_inv s →
    (db_get_object id (db_get_object id' s).2).1 = (db_get_object id s).1 }.

Section cache.
Context `{OL : ObjectLib} (store : Backing).
Hypothesis version_bound : ∀ o, (obj_version o ≤ u64_max)%N.
Hypothesis store_id : ∀ id o, bk_get_object store id = Some o → obj_id o = id.
Lemma cached_other o s id : id ≠ obj_id o → object_id_cached (cache_object_only o s) id = object_id_cached s id.
Proof.
  intros Hne. unfold object_id_cached, object_resolved_upperbound, object_resolve_upperbound_details, cache_object_only, cache_query.
  by rewrite lookup_insert_ne.
Qed.
Lemma cached_new o s : no_marks s → object_id_cached s (obj_id o) = None →
  object_id_cached (cache_object_only o s) (obj_id o) = Some o.
Proof using version_bound.
  intros Hn Hnone. assert (∀ v, entry s (obj_id o) v = None) as He.
  { intros v. apply eq_None_not_Some. intros Hv. assert (is_Some (object_id_cached s (obj_id o))) as [? Hs]; [|congruence].
    apply cached_found; [done|by exists v]. }
  destruct (cached_commit version_bound o s (obj_id o) Hn ltac:(by left)) as [o' Ho']. rewrite Ho'. f_equal.
  unfold object_id_cached, object_resolved_upperbound in Ho'. pose proof (resolve_spec (cache_object_only o s) (obj_id o) u64_max) as Hr.
  destruct (object_resolve_upperbound_details _ _ _) as [| |x]; [done..|]. simpl in Ho'. injection Ho' as ->.
  destruct Hr as (v & Hv & _). unfold cache_object_only in Hv. rewrite entry_cache_query in Hv. case_decide; [by injection Hv|].
  by rewrite He in Hv.
Qed.
Definition cache_stable : StableReads CachedSnapshot (LW := cache_laws store version_bound store_id).
Proof.
  refine (Build_StableReads _ _ _ (cache_laws store version_bound store_id) _). intros id id' s _ _ Hn. simpl in *.
  unfold get_object at 2. destruct (object_id_cached s id') as [o|] eqn:E; [done|].
  destruct (bk_get_object store id') as [o|] eqn:Eb; [|done]. cbn [snd]. pose proof (store_id _ _ Eb) as <-. unfold get_object.
  destruct (decide (id = obj_id o)) as [->|Hne].
  - by rewrite cached_new, E, Eb.
  - rewrite cached_other by done. destruct (object_id_cached s id) eqn:E'; [done|]. by destruct (bk_get_object store id).
Defined.
End cache.

Section reads.
Context `{OL : ObjectLib} {T : Type} `{DB : !ObjectDb T} `{LW : !ObjectDbLaws T} `{SR : !StableReads T}.
(** States after reads: everything is read as before. *)
Inductive reads (s : T) : T → Prop :=
| reads_none : reads s s
| reads_get id s' : reads s s' → db_id id → reads s (db_get_object id s').2.
Lemma reads_step s id s' : db_id id → reads (db_get_object id s).2 s' → reads s s'.
Proof. intros Hid. induction 1; [apply reads_get; [constructor|done]|by apply reads_get]. Qed.
Lemma reads_app s1 s2 s3 : reads s1 s2 → reads s2 s3 → reads s1 s3.
Proof. intros H12. induction 1; [done|by apply reads_get]. Qed.
Lemma reads_inv s s' : db_inv s → reads s s' → db_inv s'.
Proof. intros Hs. induction 1; [done|by apply get_inv]. Qed.
Lemma reads_same s s' id : db_inv s → reads s s' → db_id id → (db_get_object id s').1 = (db_get_object id s).1.
Proof using SR.
  intros Hs H Hid. induction H as [|id' s' H IH Hid']; [done|]. rewrite stable_read; [done|done|done|]. by eapply reads_inv.
Qed.

(** A loop that reads every object of a list. *)
Lemma over_reads {A} (body : MoveAddress → A → T → result A * T) (f : MoveAddress → option Object → A → A) :
  (∀ id acc s, body id acc s = (Ok (f id (db_get_object id s).1 acc), (db_get_object id s).2)) →
  ∀ ids acc s, db_inv s → Forall db_id ids → ∃ s', over_objects body ids acc s =
    (Ok (fold_left (λ acc id, f id (db_get_object id s).1 acc) ids acc), s') ∧ reads s s'.
Proof using SR.
  intros Hb. induction ids as [|id ids IH]; intros acc s Hs Hids; cbn [over_objects fold_left].
  - exists s. split; [done|constructor].
  - apply Forall_cons in Hids as [Hid Hids]. rewrite Hb.
    destruct (IH (f id (db_get_object id s).1 acc) (db_get_object id s).2) as (s' & -> & H); [by apply get_inv|done|].
    exists s'. split; [|by eapply reads_step]. f_equal. f_equal. rewrite Forall_forall in Hids.
    clear IH H. revert Hids. generalize (f id (db_get_object id s).1 acc). induction ids as [|x ids IH]; intros a Hids; [done|]. cbn [fold_left].
    rewrite stable_read; [|apply Hids; by left|done|done]. apply IH. intros y Hy. apply Hids. by right.
Qed.
End reads.

(** ** Entries of indices *)
Lemma insert_entry_spec {K V} `{Countable K} `{Countable V} (k : K) (v : V) m k' v' :
  (∃ s, insert_entry k v m !! k' = Some s ∧ v' ∈ s) ↔ (k' = k ∧ v' = v) ∨ ∃ s, m !! k' = Some s ∧ v' ∈ s.
Proof.
  unfold insert_entry. split.
  - intros (s & [[<- <-]|[Hne Hs]]%lookup_insert_Some & Hv); [|by right; exists s].
    apply elem_of_union in Hv as [->%elem_of_singleton|Hv]; [by left|]. right. destruct (m !! k) as [s|]; [by exists s|done].
  - intros [[-> ->]|(s & Hs & Hv)].
    + eexists. rewrite lookup_insert_eq. split; [done|]. by apply elem_of_union_l, elem_of_singleton.
    + destruct (decide (k = k')) as [<-|Hne].
      * eexists. rewrite lookup_insert_eq. split; [done|]. apply elem_of_union_r. by rewrite Hs.
      * exists s. by rewrite lookup_insert_ne.
Qed.
(** An index filled in from a list, entry by entry. *)
Lemma fold_entries {A K V} `{Countable K} `{Countable V} (f : A → option (K * V)) l : ∀ (m : gmap K (gset V)) k v,
  (∃ s, fold_left (λ m x, match f x with Some e => insert_entry e.1 e.2 m | None => m end) l m !! k = Some s ∧ v ∈ s) ↔
  (∃ x, x ∈ l ∧ f x = Some (k, v)) ∨ ∃ s, m !! k = Some s ∧ v ∈ s.
Proof.
  induction l as [|x l IH]; intros m k v; cbn [fold_left].
  - split; [by right|]. by intros [(? & ?%elem_of_nil & _)|?].
  - rewrite IH. setoid_rewrite elem_of_cons. destruct (f x) as [[k0 v0]|] eqn:E.
    + rewrite insert_entry_spec. cbn [fst snd]. split.
      * intros [(y & Hy & Ey)|[[-> ->]|Hs]]; [left; exists y; auto|left; exists x; auto|by right].
      * intros [(y & [->|Hy] & Ey)|Hs]; [right; left|left; exists y; auto|by right; right]. rewrite E in Ey. by injection Ey as -> ->.
    + split; (intros [(y & Hy & Ey)|Hs]; [|by right]).
      * left. exists y. auto.
      * destruct Hy as [->|Hy]; [congruence|]. left. by exists y.
Qed.
Lemma fold_pushes {A} (key : A → string) l : ∀ (m : gmap string (list A)) k x,
  x ∈ default [] (fold_left (λ m x, push_entry (key x) x m) l m !! k) ↔ (x ∈ l ∧ key x = k) ∨ x ∈ default [] (m !! k).
Proof.
  induction l as [|y l IH]; intros m k x; cbn [fold_left]; [split; [by right|by intros [[?%elem_of_nil _]|?]]|].
  rewrite IH. unfold push_entry. rewrite elem_of_cons. destruct (decide (key y = k)) as [<-|Hne].
  - rewrite lookup_insert_eq. simpl. rewrite elem_of_app, list_elem_of_singleton. split.
    + intros [[Hx Hk]|[Hx| ->]]; auto.
    + intros [[[->|Hx] Hk]|Hx]; auto.
  - rewrite lookup_insert_ne by done. split; [intros [[Hx Hk]|Hx]; auto|].
    intros [[[->|Hx] Hk]|Hx]; [done|auto|auto].
Qed.
(** The last value of a key. *)
Lemma fold_last {K V} `{Countable K} (l : list (K * V)) : ∀ (m : gmap K V) k,
  (is_Some (fold_left (λ m x, <[x.1 := x.2]> m) l m !! k) ↔ (∃ v, (k, v) ∈ l) ∨ is_Some (m !! k)) ∧
  ∀ v, fold_left (λ m x, <[x.1 := x.2]> m) l m !! k = Some v → (k, v) ∈ l ∨ m !! k = Some v.
Proof.
  induction l as [|[k0 v0] l IH]; intros m k; cbn [fold_left].
  - split; [split; [by right|by intros [[? ?%elem_of_nil]|?]]|by right].
  - cbn [fst snd]. destruct (IH (<[k0 := v0]> m) k) as [H1 H2]. split.
    + rewrite H1, lookup_insert_is_Some'. setoid_rewrite elem_of_cons. split.
      * intros [[v Hv]|[->|Hs]]; [left; exists v; auto|left; exists v0; auto|by right].
      * intros [[v [[= -> ->]|Hv]]|Hs]; [right; by left|left; by exists v|right; by right].
    + intros v Hv. rewrite elem_of_cons. destruct (H2 v Hv) as [Hin|[[-> ->]|[_ Hs]]%lookup_insert_Some]; auto.
Qed.

Section setup.
Context `{OL : ObjectLib} {T : Type} `{DB : !ObjectDb T} `{LW : !ObjectDbLaws T} `{SR : !StableReads T} `{OF : !ObjectFacts}.
Context (from_sui_object : Object → result MovePackageAbi).

(** What is read of an id: the ABI of a package, the type of an object, the
    version of either. *)
Definition package_read (s : T) (id : MoveAddress) : option MovePackageAbi :=
  o ← (db_get_object id s).1; match from_sui_object o with Ok abi => Some abi | Err => None end.
Definition type_of (o : option Object) : option MoveTypeTag := match o with Some o => obj_type o | None => None end.
Definition type_read (s : T) (id : MoveAddress) : option MoveTypeTag := type_of (db_get_object id s).1.
Definition version_read (s : T) (id : MoveAddress) : option N := obj_version <$> (db_get_object id s).1.

Lemma export_abi_spec s ids : db_inv s → db_list_objects s = Ok ids → Forall db_id ids →
  (∀ id o abi, (db_get_object id s).1 = Some o → from_sui_object o = Ok abi → pa_package_id abi = id) →
  ∃ testing s', export_abi from_sui_object s = (Ok testing, s') ∧ reads s s' ∧
    ∀ id abi, testing !! id = Some abi ↔ id ∈ ids ∧ package_read s id = Some abi.
Proof using LW SR.
  intros Hs Hl Hids Hown. unfold export_abi, listed. rewrite Hl.
  destruct (over_reads (λ obj (out : gmap MoveAddress MovePackageAbi) db, let '(r, db) := get_package_info from_sui_object obj db in
      (Ok match r with Ok (Some abi) => <[pa_package_id abi := abi]> out | _ => out end, db))
    (λ id o (out : gmap MoveAddress MovePackageAbi), match o with Some o => match from_sui_object o with Ok abi => <[pa_package_id abi := abi]> out | Err => out end | None => out end))
    with (ids := ids) (acc := ∅ : gmap MoveAddress MovePackageAbi) (s := s) as (s' & -> & Hr); [|done|done|].
  { intros id acc s0. unfold get_package_info. destruct (db_get_object id s0) as [[o|] s1]; cbn [fst snd]; [|done].
    by destruct (from_sui_object o). }
  eexists _, s'. split; [done|]. split; [done|]. intros id abi. clear Hl Hids Hr.
  assert (∀ (l : list MoveAddress) (m : gmap MoveAddress MovePackageAbi), fold_left (λ acc id0, match (db_get_object id0 s).1 with
      | Some o => match from_sui_object o with Ok abi => <[pa_package_id abi := abi]> acc | Err => acc end | None => acc end) l m !! id = Some abi ↔
    (id ∈ l ∧ package_read s id = Some abi) ∨ ((id ∉ l ∨ package_read s id = None) ∧ m !! id = Some abi)) as H.
  { induction l as [|x l IH]; intros m; cbn [fold_left].
    - split; [intros Hm; right; split; [left; by intros ?%elem_of_nil|done]|]. by intros [[?%elem_of_nil _]|[_ ?]].
    - rewrite IH. clear IH. rewrite elem_of_cons. unfold package_read. destruct ((db_get_object x s).1) as [o|] eqn:Eo.
      + destruct (from_sui_object o) as [a|] eqn:Ea.
        * pose proof (Hown x o a Eo Ea) as <-. destruct (decide (id = pa_package_id a)) as [->|Hne].
          -- rewrite Eo, lookup_insert_eq. cbn. rewrite Ea. split; [intros [[_ H]|[_ H]]; auto|]. intros [[_ H]|[[H|H] _]]; [|tauto|done].
             destruct (decide (pa_package_id a ∈ l)); [by left|right; auto].
          -- rewrite lookup_insert_ne by done. tauto.
        * destruct (decide (id = x)) as [->|Hne]; [|tauto]. rewrite Eo. cbn. rewrite Ea. split; [intros [[_ H]|[_ H]]; [done|auto]|].
          intros [[_ H]|[_ H]]; [done|auto].
      + destruct (decide (id = x)) as [->|Hne]; [|tauto]. rewrite Eo. cbn. split; [intros [[_ H]|[_ H]]; [done|auto]|].
        intros [[_ H]|[_ H]]; [done|auto]. }
  rewrite H, lookup_empty. split; [intros [?|[_ ?]]; done|by left].
Qed.
Lemma types_pool_spec s ids : db_inv s → db_list_objects s = Ok ids → Forall db_id ids →
  ∃ pool s', types_pool_of s = (Ok pool, s') ∧ reads s s' ∧
    ∀ ty id, (∃ objs, pool !! ty = Some objs ∧ id ∈ objs) ↔ id ∈ ids ∧ type_read s id = Some ty.
Proof using LW SR.
  intros Hs Hl Hids. unfold types_pool_of, listed. rewrite Hl.
  set (f := λ id : MoveAddress, (λ ty, (ty, id)) <$> type_read s id).
  destruct (over_reads (λ obj (pool : gmap MoveTypeTag (gset MoveAddress)) db, let '(r, db) := get_move_object_info obj db in
      (Ok match r with Ok info => insert_entry (oi_ty info) obj pool | Err => pool end, db))
    (λ id o (pool : gmap MoveTypeTag (gset MoveAddress)), match type_of o with Some ty => insert_entry ty id pool | None => pool end))
    with (ids := ids) (acc := ∅ : gmap MoveTypeTag (gset MoveAddress)) (s := s) as (s' & -> & Hr); [|done|done|].
  { intros id acc s0. unfold get_move_object_info, object_info_of. destruct (db_get_object id s0) as [[o|] s1]; cbn; [|done].
    by destruct (obj_type o). }
  eexists _, s'. split; [done|]. split; [done|]. intros ty id.
  assert (fold_left (λ acc id, match type_of (db_get_object id s).1 with Some ty => insert_entry ty id acc | None => acc end) ids ∅ =
    fold_left (λ m x, match f x with Some e => insert_entry e.1 e.2 m | None => m end) ids (∅ : gmap MoveTypeTag (gset MoveAddress))) as ->.
  { generalize (∅ : gmap MoveTypeTag (gset MoveAddress)). clear. induction ids as [|x ids IH]; intros m; [done|]. cbn [fold_left].
    rewrite IH. f_equal. unfold f, type_read. by destruct (type_of (db_get_object x s).1). }
  rewrite fold_entries. split.
  - intros [(x & Hx & E)|(? & E & _)]; [|by rewrite lookup_empty in E]. unfold f in E.
    destruct (type_read s x) as [t|] eqn:Et; [|done]. by injection E as <- <-.
  - intros [Hid E]. left. exists id. split; [done|]. unfold f. by rewrite E.
Qed.

(** A module address belongs to the newest package that has it. *)
Definition version_of (s : T) (id : MoveAddress) : N := default 0%N (version_read s id).
Definition has_module (modules : list (MoveAddress * MoveModuleAbi)) (a p : MoveAddress) : Prop :=
  ∃ module, (p, module) ∈ modules ∧ module_address (ma_module_id module) = a.
Lemma get_version_read s s0 id v : db_inv s0 → reads s0 s → db_id id → version_read s0 id = Some v →
  get_version id s = (Ok v, (db_get_object id s).2).
Proof using SR.
  intros Hs Hr Hid Hv. unfold get_version, version_read in *. pose proof (reads_same s0 s id Hs Hr Hid) as E.
  destruct (db_get_object id s) as [o s']. cbn [fst] in E. rewrite <-E in Hv. destruct o as [o|]; [|done]. cbn in Hv. by injection Hv as ->.
Qed.
Lemma has_module_cons p module modules a q :
  has_module ((p, module) :: modules) a q ↔ (q = p ∧ module_address (ma_module_id module) = a) ∨ has_module modules a q.
Proof.
  unfold has_module. setoid_rewrite elem_of_cons. split.
  - intros (md & [[= -> ->]|Hin] & Ha); [by left|right; by exists md].
  - intros [[-> Ha]|(md & Hin & Ha)]; [exists module; auto|exists md; auto].
Qed.
Lemma module_packages_spec s0 modules : db_inv s0 → ∀ m s, reads s0 s →
  (∀ p module, (p, module) ∈ modules → db_id p ∧ is_Some (version_read s0 p)) →
  (∀ a p, m !! a = Some p → db_id p ∧ is_Some (version_read s0 p)) →
  ∃ m' s', module_packages modules m s = (Ok m', s') ∧ reads s0 s' ∧
    (∀ a, is_Some (m' !! a) ↔ is_Some (m !! a) ∨ ∃ p, has_module modules a p) ∧
    ∀ a p, m' !! a = Some p → (m !! a = Some p ∨ has_module modules a p) ∧
      ∀ q, m !! a = Some q ∨ has_module modules a q → (version_of s0 q ≤ version_of s0 p)%N.
Proof using SR.
  intros Hs. induction modules as [|[p module] modules IH]; intros m s Hr Hmods Hm; cbn [module_packages].
  - exists m, s. split; [done|]. split; [done|]. assert (∀ a q, ¬ has_module [] a q) as Hno by (intros a q (? & ?%elem_of_nil & _); done).
    split; [intros a; split; [by left|by intros [?|[q ?%Hno]]]|]. intros a q Hq. split; [by left|]. intros q' [?|?%Hno]; [|done]. simplify_eq. lia.
  - set (a0 := module_address (ma_module_id module)). destruct (Hmods p module) as [Hp [v Hv]]; [by left|].
    assert (∀ x md, (x, md) ∈ modules → db_id x ∧ is_Some (version_read s0 x)) as Hmods' by (intros x md Hx; apply (Hmods x md); by right).
    assert (∀ s1 w, reads s0 s1 → (w = p ∨ m !! a0 = Some w) → (version_of s0 p ≤ version_of s0 w)%N →
      (∀ q, m !! a0 = Some q → (version_of s0 q ≤ version_of s0 w)%N) →
      ∃ m' s', module_packages modules (<[a0 := w]> m) s1 = (Ok m', s') ∧ reads s0 s' ∧
        (∀ a, is_Some (m' !! a) ↔ is_Some (m !! a) ∨ ∃ q, has_module ((p, module) :: modules) a q) ∧
        ∀ a x, m' !! a = Some x → (m !! a = Some x ∨ has_module ((p, module) :: modules) a x) ∧
          ∀ q, m !! a = Some q ∨ has_module ((p, module) :: modules) a q → (version_of s0 q ≤ version_of s0 x)%N) as Hgo.
    { intros s1 w Hr1 Hw Hvp Hold. destruct (IH (<[a0 := w]> m) s1 Hr1 Hmods') as (m' & s' & E & Hr' & H1 & H2).
      { intros a x [[<- <-]|[_ Hx]]%lookup_insert_Some; [|by apply (Hm a)]. destruct Hw as [->|Hw]; [split; [done|by exists v]|by apply (Hm a0)]. }
      exists m', s'. split; [done|]. split; [done|]. setoid_rewrite has_module_cons. split.
      - intros a. rewrite H1, lookup_insert_is_Some'. split.
        + intros [[<-|?]|[q ?]]; [right; exists p; by left; split|by left|right; exists q; by right].
        + intros [?|[q [[-> <-]|?]]]; [left; by right|left; by left|right; by exists q].
      - intros a x Hx. destruct (H2 a x Hx) as [Hin Hmax]. split.
        + destruct Hin as [[[<- <-]|[_ ?]]%lookup_insert_Some|?]; [|by left|by right; right].
          destruct Hw as [->|Hw]; [right; by left; split|by left].
        + intros q Hq. destruct (decide (a0 = a)) as [<-|Hne].
          * assert (version_of s0 w ≤ version_of s0 x)%N as Hwx by (apply Hmax; left; apply lookup_insert_eq).
            destruct Hq as [Hq|[[-> _]|Hq]]; [|lia|apply Hmax; by right]. specialize (Hold q Hq). lia.
          * apply Hmax. destruct Hq as [Hq|[[-> E']|Hq]]; [left; by rewrite lookup_insert_ne|done|by right]. }
    destruct (m !! a0) as [old|] eqn:Eo.
    + destruct (Hm a0 old Eo) as [Hold [vo Hvo]]. rewrite (get_version_read s s0 old vo Hs Hr Hold Hvo).
      rewrite (get_version_read _ s0 p v Hs (reads_get _ _ _ Hr Hold) Hp Hv).
      assert (reads s0 (db_get_object p (db_get_object old s).2).2) as Hr2 by by repeat apply reads_get.
      assert (version_of s0 old = vo ∧ version_of s0 p = v) as [Eold Ep] by (unfold version_of; rewrite Hvo, Hv; done).
      destruct (N.ltb_spec vo v).
      * apply Hgo; [done|by left|lia|]. intros q [= <-]. lia.
      * destruct (Hgo (db_get_object p (db_get_object old s).2).2 old) as (m' & s' & E & H'); [done|by right|lia|intros q [= <-]; lia|].
        rewrite insert_id in E by done. by exists m', s'.
    + apply Hgo; [done|by left|lia|by intros q [=]].
Qed.

Lemma filter_pool_spec pool include_types exclude_types ty id :
  (∃ objs, filter_types_pool pool include_types exclude_types !! ty = Some objs ∧ id ∈ objs) ↔
  (∃ objs, pool !! ty = Some objs ∧ id ∈ objs) ∧ is_included include_types ty = true ∧ is_not_excluded exclude_types ty = true.
Proof.
  unfold filter_types_pool, is_included, is_not_excluded. split.
  - intros (objs & [Hx _]%map_lookup_filter_Some & Hid).
    destruct exclude_types as [ex|]; [apply map_lookup_filter_Some in Hx as [Hx He]|]; (destruct include_types as [inc|]; [apply map_lookup_filter_Some in Hx as [Hx Hi]|]);
      cbn [fst] in *; (split; [by exists objs|]); rewrite ?negb_true_iff, ?bool_decide_eq_true, ?bool_decide_eq_false; done.
  - intros ((objs & Hx & Hid) & Hi & He). exists objs. split; [|done]. apply map_lookup_filter_Some. cbn [snd].
    split; [|by intros ->; apply elem_of_empty in Hid].
    destruct exclude_types as [ex|]; [apply map_lookup_filter_Some; split; [|by rewrite negb_true_iff, bool_decide_eq_false in He]|];
      (destruct include_types as [inc|]; [apply map_lookup_filter_Some; split; [done|by rewrite bool_decide_eq_true in Hi]|done]).
Qed.
Lemma filter_pool_nonempty pool include_types exclude_types ty objs :
  filter_types_pool pool include_types exclude_types !! ty = Some objs → objs ≠ ∅.
Proof. unfold filter_types_pool. by intros [_ H]%map_lookup_filter_Some. Qed.

(** The structs of the modules, with their module. *)
Definition struct_in (abis : gmap MoveAddress MovePackageAbi) (md : MoveModuleAbi) (st : MoveStructAbi) : Prop :=
  ∃ p, (p, md) ∈ modules_of abis ∧ st ∈ ma_structs md.
Lemma ability_types_spec abis ability ty :
  (∃ tags, ability_types abis !! ability = Some tags ∧ ty ∈ tags) ↔
  (ability = ability_PRIMITIVES ∧ ty ∈ primitive_types) ∨ (ability = ability_DROP ∧ ty = Tag_Signer) ∨
  ∃ md st, struct_in abis md st ∧ sh_type_parameters (sa_handle st) = [] ∧ sh_abilities (sa_handle st) = ability ∧ ty = struct_type st.
Proof.
  set (f := λ s : MoveStructAbi, match sh_type_parameters (sa_handle s) with [] => Some (sh_abilities (sa_handle s), struct_type s) | _ => None end).
  assert (∀ l m, fold_left add_struct_type l m = fold_left (λ m x, match f x with Some e => insert_entry e.1 e.2 m | None => m end) l m) as E.
  { induction l as [|x l IH]; intros m; [done|]. cbn [fold_left]. rewrite IH. f_equal. unfold add_struct_type, f. by destruct (sh_type_parameters _). }
  unfold ability_types. rewrite E, fold_entries. split.
  - intros [(st & Hst & Ef)|(tags & [[<- <-]|[_ [[<- <-]|[_ H]]%lookup_insert_Some]]%lookup_insert_Some & Hty)].
    + right. right. unfold f in Ef. destruct (sh_type_parameters (sa_handle st)) eqn:Ep; [|done]. injection Ef as <- <-.
      apply list_elem_of_In, in_flat_map in Hst as ([p md] & Hmd & Hst). rewrite <-!list_elem_of_In in *. exists md, st. split; [by exists p|done].
    + right. left. by apply elem_of_singleton in Hty.
    + by left.
    + by rewrite lookup_empty in H.
  - intros [[-> Hty]|[[-> ->]|(md & st & (p & Hmd & Hst) & Ep & <- & ->)]].
    + right. exists primitive_types. split; [|done]. rewrite lookup_insert_ne, lookup_insert_eq; done.
    + right. eexists. rewrite lookup_insert_eq. split; [done|]. by apply elem_of_singleton.
    + left. exists st. split; [|unfold f; by rewrite Ep]. apply list_elem_of_In, in_flat_map. exists (p, md). by rewrite <-!list_elem_of_In.
Qed.

Context `{PG : PetGraph G}.
(** The metadata [base], for what the store [s] says; objects were listed in
    [ids] for the packages and in [ids'] for the types. *)
Record indexed (local_abis : gmap MoveAddress MovePackageAbi) (include_types exclude_types : option (list MoveTypeTag))
    (s : T) (ids ids' : list MoveAddress) (base : Metadata G) : Prop := MkIndexed {
  ix_testing : ∀ id abi, md_testing_abis base !! id = Some abi ↔ id ∈ ids ∧ package_read s id = Some abi;
  ix_abis : md_abis base = local_abis ∪ md_testing_abis base;
  ix_graph : add_packages (address_iter (md_abis base)).*2 type_graph_new = Ret (md_type_graph base);
  ix_pool : ∀ ty id, (∃ objs, md_types_pool base !! ty = Some objs ∧ id ∈ objs) ↔
    (id ∈ ids' ∧ type_read s id = Some ty) ∧ is_included include_types ty = true ∧ is_not_excluded exclude_types ty = true;
  ix_pool_nonempty : ∀ ty objs, md_types_pool base !! ty = Some objs → objs ≠ ∅;
  ix_packages : ∀ a, (is_Some (md_module_address_to_package base !! a) ↔ ∃ p, has_module (modules_of (md_abis base)) a p) ∧
    ∀ p, md_module_address_to_package base !! a = Some p → has_module (modules_of (md_abis base)) a p ∧
      ∀ q, has_module (modules_of (md_abis base)) a q → (version_of s q ≤ version_of s p)%N;
  ix_types : ∀ ability ty, (∃ tags, md_ability_to_type_tag base !! ability = Some tags ∧ ty ∈ tags) ↔
    (ability = ability_PRIMITIVES ∧ ty ∈ primitive_types) ∨ (ability = ability_DROP ∧ ty = Tag_Signer) ∨
    ∃ md st, struct_in (md_abis base) md st ∧ sh_type_parameters (sa_handle st) = [] ∧ sh_abilities (sa_handle st) = ability ∧
      ty = struct_type st;
  ix_functions : ∀ n f, f ∈ default [] (md_function_name_to_idents base !! n) ↔
    ∃ p md fn, (p, md) ∈ modules_of (md_testing_abis base) ∧ fn ∈ ma_functions md ∧ fa_name fn = n ∧
      f = FunctionIdent_new (module_address (ma_module_id md)) (module_name (ma_module_id md)) n;
  ix_structs : ∀ m n, (is_Some (md_structs_mapping base !! (m, n)) ↔
      ∃ md st, struct_in (md_testing_abis base) md st ∧ ma_module_id md = m ∧ sh_struct_name (sa_handle st) = n) ∧
    ∀ st, md_structs_mapping base !! (m, n) = Some st →
      ∃ md, struct_in (md_testing_abis base) md st ∧ ma_module_id md = m ∧ sh_struct_name (sa_handle st) = n }.

Lemma function_idents_spec abis n f : f ∈ default [] (function_idents abis !! n) ↔
  ∃ p md fn, (p, md) ∈ modules_of abis ∧ fn ∈ ma_functions md ∧ fa_name fn = n ∧
    f = FunctionIdent_new (module_address (ma_module_id md)) (module_name (ma_module_id md)) n.
Proof.
  unfold function_idents. rewrite fold_pushes. split.
  - intros [[Hf Hn]|Hf]; [|by rewrite lookup_empty in Hf; apply elem_of_nil in Hf].
    apply list_elem_of_In, in_flat_map in Hf as ([p md] & Hmd & Hf). rewrite <-!list_elem_of_In in *.
    apply list_elem_of_fmap in Hf as (fn & -> & Hfn). cbn in Hn. subst n. by exists p, md, fn.
  - intros (p & md & fn & Hmd & Hfn & <- & ->). left. split; [|done]. apply list_elem_of_In, in_flat_map. exists (p, md).
    rewrite <-!list_elem_of_In. split; [done|]. apply list_elem_of_fmap. by exists fn.
Qed.
Lemma structs_mapping_spec abis m n : (is_Some (structs_mapping_of abis !! (m, n)) ↔
    ∃ md st, struct_in abis md st ∧ ma_module_id md = m ∧ sh_struct_name (sa_handle st) = n) ∧
  ∀ st, structs_mapping_of abis !! (m, n) = Some st →
    ∃ md, struct_in abis md st ∧ ma_module_id md = m ∧ sh_struct_name (sa_handle st) = n.
Proof.
  unfold structs_mapping_of. set (l := flat_map _ _).
  assert (∀ st, ((m, n), st) ∈ l ↔ ∃ md, struct_in abis md st ∧ ma_module_id md = m ∧ sh_struct_name (sa_handle st) = n) as Hl.
  { intros st. unfold l. rewrite list_elem_of_In, in_flat_map. setoid_rewrite <-list_elem_of_In. split.
    - intros ([p md] & Hmd & (st' & [= -> -> ->] & Hst)%list_elem_of_fmap). exists md. by split; [exists p|].
    - intros (md & (p & Hmd & Hst) & <- & <-). exists (p, md). split; [done|]. apply list_elem_of_fmap. by exists st. }
  destruct (fold_last l ∅ (m, n)) as [H1 H2]. split.
  - rewrite H1, lookup_empty. setoid_rewrite Hl. split; [intros [(st & md & H)|[? ?]]; [by exists md, st|done]|]. intros (md & st & H). left. by exists st, md.
  - intros st [H|H]%H2; [by apply Hl|by rewrite lookup_empty in H].
Qed.

Lemma add_packages_returns pkgs : (N.of_nat (all_size (package_functions pkgs)) ≤ graph_limit)%N →
  ∃ g, add_packages pkgs type_graph_new = Ret g.
Proof.
  intros Hsize. rewrite add_packages_modules. destruct graph_new_spec as [Hn He].
  destruct (add_modules_ok (flat_map pa_modules pkgs) type_graph_new type_graph_new_wf) as (g & -> & _); [|by exists g].
  split; csimpl; rewrite ?Hn, ?He; exact Hsize.
Qed.

(** C17: the metadata of an environment is built when every package it knows is
    in the store; then its packages are those of the store with the local ones
    in their place, a module address belongs to the newest package that has it,
    and every pool and index has exactly the objects, types, functions and
    structs it should have, types filtered as asked. *)
Theorem metadata_exact local_abis include_types exclude_types s ids :
  db_inv s → db_list_objects s = Ok ids → Forall db_id ids →
  (∀ s', reads s s' → ∃ ids', db_list_objects s' = Ok ids' ∧ Forall db_id ids') →
  (∀ id o abi, (db_get_object id s).1 = Some o → from_sui_object o = Ok abi → pa_package_id abi = id) →
  (∀ p, is_Some (local_abis !! p) ∨ p ∈ ids → db_id p ∧ is_Some (version_read s p)) →
  (∀ abis : gmap MoveAddress MovePackageAbi, (∀ id abi, abis !! id = Some abi → local_abis !! id = Some abi ∨ package_read s id = Some abi) →
    (N.of_nat (all_size (package_functions (address_iter abis).*2)) ≤ graph_limit)%N) →
  ∃ base s' ids', from_env_filtered from_sui_object local_abis include_types exclude_types s = Ret (Ok base, s') ∧
    reads s s' ∧ (∃ s1, reads s s1 ∧ db_list_objects s1 = Ok ids') ∧ indexed local_abis include_types exclude_types s ids ids' base.
Proof using LW SR.
  intros Hs Hl Hids Hlist Hown Hver Hsize. unfold from_env_filtered.
  destruct (export_abi_spec s ids Hs Hl Hids Hown) as (testing & s1 & -> & Hr1 & Htest).
  assert (∀ p module, (p, module) ∈ modules_of (local_abis ∪ testing) → db_id p ∧ is_Some (version_read s p)) as Hmods.
  { intros p module Hin. apply list_elem_of_In, in_flat_map in Hin as ([q abi] & Hq & Hin). rewrite <-!list_elem_of_In in *.
    apply list_elem_of_fmap in Hin as (md & [= -> ->] & _). apply elem_of_address_iter, lookup_union_Some_raw in Hq as [Hq|[_ Hq]];
      apply Hver; [left; exists abi; exact Hq|right; apply Htest in Hq; apply Hq]. }
  destruct (module_packages_spec s (modules_of (local_abis ∪ testing)) Hs ∅ s1 Hr1 Hmods) as (m & s2 & -> & Hr2 & Hm1 & Hm2).
  { intros a p H. by rewrite lookup_empty in H. }
  destruct (Hlist s2 Hr2) as (ids2 & El2 & Hf).
  destruct (types_pool_spec s2 ids2 (reads_inv _ _ Hs Hr2) El2 Hf) as (pool & s3 & -> & Hr3 & Hpool).
  destruct (add_packages_returns (address_iter (local_abis ∪ testing)).*2) as (g & Eg).
  { apply Hsize. intros id abi H. apply lookup_union_Some_raw in H as [H|[_ H]]; [by left|right]. apply Htest in H. apply H. }
  rewrite Eg. cbn [mbind panics_mbind panics_bind]. eexists _, s3, ids2. split; [reflexivity|]. split; [by eapply reads_app|]. split; [by exists s2|].
  split; cbn [md_testing_abis md_abis md_type_graph md_types_pool md_module_address_to_package md_ability_to_type_tag md_function_name_to_idents md_structs_mapping].
  - done.
  - done.
  - done.
  - intros ty id. rewrite filter_pool_spec, Hpool. rewrite Forall_forall in Hf.
    assert (id ∈ ids2 → type_read s2 id = type_read s id) as E by (intros Hin; unfold type_read; rewrite (reads_same s s2 id Hs Hr2); auto).
    split; intros [[H1 H2] H3]; (split; [split; [done|]|done]); [by rewrite <-E|by rewrite E].
  - intros ty objs. apply filter_pool_nonempty.
  - intros a. rewrite Hm1, lookup_empty. split; [split; [by intros [[? ?]|?]|by right]|].
    intros p Hp. destruct (Hm2 a p Hp) as [[?|Hin] Hmax]; [by rewrite lookup_empty in *|]. split; [done|]. intros q Hq. apply Hmax. by right.
  - intros ability ty. rewrite <-ability_types_spec. rewrite lookup_fmap. split.
    + intros (tags & E & Hty). destruct (ability_types _ !! ability) as [t|]; [|done]. injection E as <-. exists t. split; [done|].
      unfold tag_iter in Hty. rewrite merge_sort_Permutation in Hty. by apply elem_of_elements.
    + intros (tags & -> & Hty). eexists. split; [reflexivity|]. unfold tag_iter. rewrite merge_sort_Permutation. by apply elem_of_elements.
  - intros n f. apply function_idents_spec.
  - intros m0 n. apply structs_mapping_spec.
Qed.
End setup.

(** ** Witness: a store with a package and an object *)
#[local] Instance shelf_objects : ObjectLib := {|
  Object := MoveAddress * (MovePackageAbi + MoveTypeTag); obj_id o := o.1; obj_version _ := 1%N |}.
#[local] Instance shelf_facts : ObjectFacts := {|
  obj_is_package o := match o.2 with inl _ => true | inr _ => false end;
  obj_type o := match o.2 with inl _ => None | inr ty => Some ty end; obj_owner _ := Immutable_; obj_digest _ := 0%N |}.
Definition no_backing : Backing := {|
  bk_get_package_object _ := Ok None; bk_get_object _ := None; bk_get_object_by_key _ _ := None;
  bk_get_object_received_at_version _ _ _ _ := Err; bk_read_child_object _ _ _ := Err |}.
Lemma shelf_bound (o : Object) : (obj_version o ≤ u64_max)%N.
Proof. by vm_compute. Qed.
Lemma shelf_store_id id (o : Object) : bk_get_object no_backing id = Some o → obj_id o = id.
Proof. done. Qed.
#[local] Instance shelf_db : ObjectDb CachedSnapshot := cache_db no_backing.
#[local] Instance shelf_laws : ObjectDbLaws CachedSnapshot := cache_laws no_backing shelf_bound shelf_store_id.
#[local] Instance shelf_reads : StableReads CachedSnapshot := cache_stable no_backing shelf_bound shelf_store_id.
Definition shelf_from (o : Object) : result MovePackageAbi :=
  match o.2 with inl abi => if decide (pa_package_id abi = o.1) then Ok abi else Err | inr _ => Err end.

Definition shelf_struct : MoveStructAbi := {|
  sa_handle := {| sh_module_id := MkModuleId (MkMoveAddress 7) "m"; sh_struct_name := "S"; sh_type_parameters := []; sh_abilities := ability_KEY |};
  sa_fields := [] |}.
Definition shelf_abi : MovePackageAbi := {| pa_package_id := MkMoveAddress 7; pa_modules :=
  [{| ma_module_id := MkModuleId (MkMoveAddress 7) "m"; ma_structs := [shelf_struct]; ma_functions := [] |}] |}.
Definition shelf_state : CachedSnapshot :=
  {[ MkMoveAddress 7 := {[ 1%N := Some (MkMoveAddress 7, inl shelf_abi) ]}; MkMoveAddress 8 := {[ 1%N := Some (MkMoveAddress 8, inr (struct_type shelf_struct)) ]} ]}.
Lemma shelf_still s : reads shelf_state s → s = shelf_state.
Proof. induction 1 as [|id s _ -> _]; [done|]. simpl. unfold get_object. by destruct (object_id_cached shelf_state id). Qed.
Definition shelf_row (id : MoveAddress) : option Object :=
  if decide (id = MkMoveAddress 7) then Some (MkMoveAddress 7, inl shelf_abi) else
  if decide (id = MkMoveAddress 8) then Some (MkMoveAddress 8, inr (struct_type shelf_struct)) else None.
Lemma shelf_lookup id : shelf_state !! id = (λ o, {[ 1%N := Some o ]}) <$> shelf_row id.
Proof.
  unfold shelf_state, shelf_row. destruct (decide (id = MkMoveAddress 7)) as [->|Hne]; [by rewrite lookup_insert_eq|].
  rewrite lookup_insert_ne by done. destruct (decide (id = MkMoveAddress 8)) as [->|Hne']; [by rewrite lookup_singleton_eq|].
  by rewrite lookup_singleton_ne.
Qed.
Lemma shelf_inv : no_marks shelf_state.
Proof.
  intros id v x. unfold entry. rewrite shelf_lookup. destruct (shelf_row id) as [o|]; [|done]. simpl.
  intros [<- <-]%lookup_singleton_Some. exists o. split; [done|]. by vm_compute.
Qed.
Lemma metadata_exact_witness : ∃ (base : Metadata ListGraph) s ids,
  from_env_filtered shelf_from ∅ (Some [struct_type shelf_struct]) None shelf_state = Ret (Ok base, s) ∧
  (∃ objs, md_types_pool base !! struct_type shelf_struct = Some objs ∧ MkMoveAddress 8 ∈ objs) ∧
  indexed shelf_from ∅ (Some [struct_type shelf_struct]) None shelf_state [MkMoveAddress 7; MkMoveAddress 8] ids base.
Proof.
  assert (∀ id, (db_get_object id shelf_state).1 = shelf_row id) as Hget.
  { intros id. pose proof (shelf_lookup id) as E. unfold shelf_row in *. repeat case_decide; subst; [by vm_compute|by vm_compute|].
    simpl. unfold get_object, object_id_cached, object_resolved_upperbound, object_resolve_upperbound_details. by rewrite E. }
  destruct (metadata_exact shelf_from ∅ (Some [struct_type shelf_struct]) None shelf_state [MkMoveAddress 7; MkMoveAddress 8])
    as (base & s & ids & E & Hr & (s1 & ->%shelf_still & El) & Hx).
  - exact shelf_inv.
  - vm_compute. done.
  - repeat constructor.
  - intros s ->%shelf_still. eexists. split; [vm_compute; reflexivity|]. repeat constructor.
  - intros id o abi Ho Ha. rewrite Hget in Ho. unfold shelf_row in Ho. repeat case_decide; simplify_eq; vm_compute in Ha; try done. by injection Ha as <-.
  - intros p Hp. split; [done|]. unfold version_read. rewrite Hget. unfold shelf_row.
    destruct Hp as [[? Hp]|Hp]; [by rewrite lookup_empty in Hp|]. repeat case_decide; first [by eexists|set_solver].
  - intros abis Habis.
    assert (∀ id abi, abis !! id = Some abi → id = MkMoveAddress 7 ∧ abi = shelf_abi) as Honly.
    { intros id abi H%Habis. destruct H as [H|H]; [by rewrite lookup_empty in H|]. unfold package_read in H. rewrite Hget in H. unfold shelf_row in H.
      repeat case_decide; [|done..]. vm_compute in H. by injection H as <-. }
    destruct (abis !! MkMoveAddress 7) as [abi|] eqn:E7.
    + assert (abis = {[ MkMoveAddress 7 := shelf_abi ]}) as ->; [|by vm_compute]. apply map_eq. intros id.
      destruct (decide (id = MkMoveAddress 7)) as [->|Hne]; [rewrite lookup_singleton_eq, E7; f_equal; by apply (Honly (MkMoveAddress 7))|].
      rewrite lookup_singleton_ne by done. apply eq_None_not_Some. by intros [x [? _]%Honly].
    + assert (abis = ∅) as ->; [|by vm_compute]. apply map_eq. intros id. rewrite lookup_empty. apply eq_None_not_Some.
      intros [x Hx]. destruct (Honly id x Hx) as [-> _]. congruence.
  - exists base, s, ids. split; [exact E|]. split; [|exact Hx]. apply (ix_pool _ _ _ _ _ _ _ _ Hx).
    split; [|split; reflexivity]. split; [|vm_compute; reflexivity].
    assert (db_list_objects shelf_state = Ok [MkMoveAddress 7; MkMoveAddress 8]) as El' by (vm_compute; reflexivity).
    rewrite El' in El. injection El as <-. by right; left.
Defined.
