(* ===== verification/Targets.v ===== *)
(** * Targets: what the user names, and the environment built from it

    [crates/movy/src/sui/env.rs]: packages, modules, functions and scores named
    on the command line, the pinned addresses of packages, and [build_env],
    which fetches packages, deploys the local ones in the order of their
    dependencies and returns where everything stands. [EnvOps] is what it asks
    of the environment; [Env] provides it ([TargetsSpec]). *)
From S2P Require Import Prelude Types Abi TypeArgs Text Ptb TraceState Tracer TreeTracer Lcov FuzzTracer TypeGraph Meta Cache Objects Solver AbiText Binary Export Db Compile Deploy Env.
From Stdlib Require Import Ascii.
From Stdlib Require String.
Local Open Scope string_scope.
Local Open Scope list_scope.

(** ** Text *)
(** [split(c)], [split_once(c)] and [rsplit_once(c)] *)
Fixpoint split_at (sep : ascii) (s : string) : list string :=
  match s with
  | "" => [""]
  | String c s =>
      if Ascii.eqb c sep then "" :: split_at sep s
      else match split_at sep s with h :: t => String c h :: t | [] => [String c ""] end
  end.
Fixpoint split_once_at (sep : ascii) (s : string) : option (string * string) :=
  match s with
  | "" => None
  | String c s => if Ascii.eqb c sep then Some ("", s) else '(a, b) ← split_once_at sep s; Some (String c a, b)
  end.
Fixpoint rsplit_once_at (sep : ascii) (s : string) : option (string * string) :=
  match s with
  | "" => None
  | String c s =>
      match rsplit_once_at sep s with
      | Some (a, b) => Some (String c a, b)
      | None => if Ascii.eqb c sep then Some ("", s) else None
      end
  end.
(** [trim_matches(c)] *)
Fixpoint trim_start_char (q : ascii) (s : string) : string :=
  match s with
  | String c s' => if Ascii.eqb c q then trim_start_char q s' else s
  | "" => ""
  end.
Fixpoint trim_end_char (q : ascii) (s : string) : string :=
  match s with
  | String c s' =>
      match trim_end_char q s' with "" => if Ascii.eqb c q then "" else String c "" | t => String c t end
  | "" => ""
  end.
Definition trim_matches (q : ascii) (s : string) : string := trim_end_char q (trim_start_char q s).
(** [lines()]: without the line ends, and without an empty last line. *)
Definition strip_cr (s : string) : string :=
  match rsplit_once_at (ascii_of_nat 13) s with Some (a, "") => a | _ => s end.
Definition lines (s : string) : list string :=
  let l := split_at (ascii_of_nat 10) s in
  map strip_cr (match last l with Some "" => removelast l | _ => l end).
Definition bracketed (line : string) : bool :=
  String.prefix "[" line && match rsplit_once_at "]" line with Some (_, "") => true | _ => false end.
(** [u64::from_str] *)
Definition u64_from_str (s : string) : option N := parse_unsigned (2 ^ 64) (chars s).

(** ** Names of packages *)
Inductive PackageRef := PR_Address (a : MoveAddress) | PR_Named (name : string).
#[export] Instance PackageRef_eq_dec : EqDecision PackageRef.
Proof. solve_decision. Defined.
Abbreviation NameMap := (gmap string MoveAddress).
Definition resolve_ref (local_name_map : NameMap) (p : PackageRef) : result MoveAddress :=
  match p with
  | PR_Address addr => Ok addr
  | PR_Named name => match local_name_map !! name with Some addr => Ok addr | None => Err end
  end.

Record ModuleSelector := MkModuleSelector { ms_package : PackageRef; ms_module : string }.
#[export] Instance ModuleSelector_eq_dec : EqDecision ModuleSelector.
Proof. solve_decision. Defined.
Record FunctionSelector := MkFunctionSelector { fs_package : PackageRef; fs_module : string; fs_function : string }.
Record PrivilegeFunctionScoreSelector := MkScoreSelector { ps_function : FunctionSelector; ps_score : N }.
Record DeployAt := MkDeployAt { da_name : string; da_address : MoveAddress }.

(** ** What [build_env] returns *)
Record DeployResult := MkDeployResult {
  dr_target_packages_deployed : list MoveAddress; dr_abis : list (MovePackageAbi * MovePackageAbi * list string);
  dr_name_mapping : NameMap }.

Section text.
Context `{AT : AddressText}.
Definition package_ref (s : string) : PackageRef :=
  match address_from_str s with Some addr => PR_Address addr | None => PR_Named s end.
Definition module_selector_from_str (s : string) : option ModuleSelector :=
  match split_colons s with
  | [p; m] => Some (MkModuleSelector (package_ref p) m)
  | _ => None
  end.
Definition to_module_id (local_name_map : NameMap) (s : ModuleSelector) : result MoveModuleId :=
  module_address ← resolve_ref local_name_map (ms_package s); Ok (MkModuleId module_address (ms_module s)).
(** A [PackageSelector] is a [PackageRef]. *)
Definition package_selector_from_str (s : string) : PackageRef := package_ref s.
Definition resolve_address : NameMap → PackageRef → result MoveAddress := resolve_ref.
Definition deploy_at_from_str (s : string) : option DeployAt :=
  '(name, addr) ← split_once_at ":" s;
  let name := trim name in
  if bool_decide (name = "") then None else
  address ← address_from_str (trim addr); Some (MkDeployAt name address).
Definition function_selector_from_str (s : string) : option FunctionSelector :=
  match split_colons s with
  | [p; m; f] => Some (MkFunctionSelector (package_ref p) m f)
  | _ => None
  end.
Definition to_ident (local_name_map : NameMap) (s : FunctionSelector) : result FunctionIdent :=
  addr ← resolve_ref local_name_map (fs_package s); Ok (FunctionIdent_new addr (fs_module s) (fs_function s)).
Definition score_selector_from_str (s : string) : option PrivilegeFunctionScoreSelector :=
  match split_at "/" s with
  | [f; n] => score ← u64_from_str n; function ← function_selector_from_str f; Some (MkScoreSelector function score)
  | _ => None
  end.
Definition resolve_score (local_name_map : NameMap) (s : PrivilegeFunctionScoreSelector) : result (FunctionIdent * N) :=
  function ← to_ident local_name_map (ps_function s); Ok (function, ps_score s).

Definition show_deploy_result (r : DeployResult) : string :=
  "Deployment(targets=[" +:+ join ", " (map show_address (dr_target_packages_deployed r)) +:+ "], mappings=["
    +:+ join ", " (map (λ x, x.1 +:+ " => " +:+ show_address x.2)
          (merge_sort (λ x y, String.le x.1 y.1) (map_to_list (dr_name_mapping r)))) +:+ "])".

(** The manifest of a package: the bundled [movy] is not deployed again. *)
Record Manifest := MkManifest { mf_in_package : bool; mf_name : option string; mf_published_at : option string }.
Definition manifest_line (m : Manifest) (raw_line : string) : Manifest :=
  let line := trim raw_line in
  if bracketed line then MkManifest (bool_decide (line = "[package]")) (mf_name m) (mf_published_at m) else
  if negb (mf_in_package m) then m else
  match split_once_at "=" line with
  | Some (key, value) =>
      let key := trim key in
      let value := trim_matches (ascii_of_nat 34) (trim value) in
      if bool_decide (key = "name") then MkManifest (mf_in_package m) (Some value) (mf_published_at m) else
      if bool_decide (key = "published-at") then MkManifest (mf_in_package m) (mf_name m) (Some value) else m
  | None => m
  end.
Definition bundled_mapping (content : option string) : result (option (string * MoveAddress)) :=
  match content with
  | None => Ok None
  | Some content =>
      let m := fold_left manifest_line (lines content) (MkManifest false None None) in
      if bool_decide (mf_name m = Some "movy") && bool_decide (mf_published_at m = Some "0xdeadbeef") then
        match address_from_str "0xdeadbeef" with Some addr => Ok (Some ("movy", addr)) | None => Err end
      else Ok None
  end.
End text.

(** ** Runs *)
(** A step over the world [W] that may panic, run out of fuel or fail. *)
Definition Run (W A : Type) : Type := W → panics (option (result A) * W).
Section run.
Context {W : Type}.
Definition run_ret {A} (a : A) : Run W A := λ w, Ret (Some (Ok a), w).
Definition run_lift {A} (r : result A) : Run W A := λ w, Ret (Some r, w).
Definition run_call {A} (f : W → result A * W) : Run W A := λ w, let '(r, w) := f w in Ret (Some r, w).
Definition run_bind {A B} (m : Run W A) (k : A → Run W B) : Run W B := λ w,
  '(r, w) ← m w;
  match r with
  | Some (Ok a) => k a w
  | Some Err => Ret (Some Err, w)
  | None => Ret (None, w)
  end.
Fixpoint run_each {A} (f : A → Run W ()) (l : list A) : Run W () :=
  match l with
  | [] => run_ret ()
  | a :: l => run_bind (f a) (λ _, run_each f l)
  end.
Fixpoint run_fold {A B} (f : A → B → Run W B) (l : list A) (b : B) : Run W B :=
  match l with
  | [] => run_ret b
  | a :: l => run_bind (f a b) (run_fold f l)
  end.
End run.

(** ** The environment *)
Class EnvOps (W P : Type) := {
  env_fetch_package_at_address : MoveAddress → W → result (gset MoveAddress) * W;
  env_load_history : MoveAddress → N → W → result () * W;
  env_load_inner_types : W → result () * W;
  env_load_local : nat → @LoadOptions P → option (gset BytecodeLocation) → Run W (Loaded * option (gset BytecodeLocation));
  (** A project is loaded at the address its name is pinned to. *)
  env_load_local_pinned fuel o lcov w address abi non_test names lcov' w' :
    env_load_local fuel o lcov w = Ret (Some (Ok (address, abi, non_test, names, lcov')), w') →
    ∀ n a, n ∈ names → lo_pinned_addresses o !! n = Some a → a ≠ addr_zero → address = a;
}.

Record SuiTargetArgs (P : Type) := MkTargetArgs {
  ta_onchains : list MoveAddress; ta_histories : list MoveAddress; ta_locals : list P; ta_onchain_fallback : bool;
  ta_deploy_at : list DeployAt; ta_unpublished_dependencies : bool; ta_disable_dependency_checks : bool }.
Arguments MkTargetArgs {P} _ _ _ _ _ _ _.
Arguments ta_onchains {P} _.
Arguments ta_histories {P} _.
Arguments ta_locals {P} _.
Arguments ta_onchain_fallback {P} _.
Arguments ta_deploy_at {P} _.
Arguments ta_unpublished_dependencies {P} _.
Arguments ta_disable_dependency_checks {P} _.

(** The pinned addresses; two for one name are an error. *)
Fixpoint pin_loop (entries : list DeployAt) (pin_map : NameMap) : result NameMap :=
  match entries with
  | [] => Ok pin_map
  | entry :: entries =>
      let pins := <[da_name entry := da_address entry]> pin_map in
      match pin_map !! da_name entry with
      | Some prev => if decide (prev = da_address entry) then pin_loop entries pins else Err
      | None => pin_loop entries pins
      end
  end.

Section build.
Context `{AT : AddressText} {W P : Type} `{EqDecision P} `{EO : !EnvOps W P}.
(** [fs::canonicalize], the text of a manifest, and
    [resolve_local_dependency_paths], which [Compile] models. *)
Context (canonicalize : P → result P) (read_manifest : P → option string).
Context (resolve_local_dependency_paths : list P → bool → result (list P)).

(** What the loop over the local packages has so far. *)
Record Built := MkBuiltLocals {
  bl_target_packages : list MoveAddress; bl_local_name_map : NameMap; bl_pinned_seen : gset string;
  bl_local_abis : list (MovePackageAbi * MovePackageAbi * list string); bl_lcov : option (gset BytecodeLocation) }.
Fixpoint note_names (pin_map : NameMap) (target_package : MoveAddress) (names : list string) (local_name_map : NameMap)
    (pinned_seen : gset string) : NameMap * gset string :=
  match names with
  | [] => (local_name_map, pinned_seen)
  | name :: names =>
      note_names pin_map target_package names (<[name := target_package]> local_name_map)
        (match pin_map !! name with Some _ => {[ name ]} ∪ pinned_seen | None => pinned_seen end)
  end.
Definition note_loaded (pin_map : NameMap) (explicit : bool) (loaded : Loaded * option (gset BytecodeLocation)) (b : Built) : Built :=
  let '(target_package, testing_abi, abi, package_names, lcov) := loaded in
  let '(local_name_map, pinned_seen) :=
    note_names pin_map target_package package_names (bl_local_name_map b) (bl_pinned_seen b) in
  MkBuiltLocals (if explicit then bl_target_packages b ++ [target_package] else bl_target_packages b) local_name_map pinned_seen
    (if explicit then bl_local_abis b ++ [(testing_abi, abi, package_names)] else bl_local_abis b) lcov.
Definition note_bundled (name : string) (addr : MoveAddress) (b : Built) : Built :=
  MkBuiltLocals (bl_target_packages b)
    (match bl_local_name_map b !! name with Some _ => bl_local_name_map b | None => <[name := addr]> (bl_local_name_map b) end)
    (bl_pinned_seen b) (bl_local_abis b) (bl_lcov b).
Definition build_local (fuel : nat) (options : P → @LoadOptions P) (explicit_locals : list P) (local : P) (b : Built) : Run W Built :=
  run_bind (run_lift (bundled_mapping (read_manifest local))) (λ mapping,
  match mapping with
  | Some (package_name, package_addr) => run_ret (note_bundled package_name package_addr b)
  | None =>
      run_bind (env_load_local fuel (options local) (bl_lcov b)) (λ loaded,
      run_ret (note_loaded (lo_pinned_addresses (options local)) (bool_decide (local ∈ explicit_locals)) loaded b))
  end).

(** [fuel] is for the packages each project fetches. *)
Definition build_env (fuel : nat) (args : SuiTargetArgs P) (checkpoint epoch epoch_ms : N) (deployer attacker gas : MoveAddress)
    (lcov : option (gset BytecodeLocation)) : Run W (DeployResult * option (gset BytecodeLocation)) :=
  run_bind (run_lift (mapM canonicalize (ta_locals args))) (λ explicit_locals,
  run_bind (run_lift (resolve_local_dependency_paths (ta_locals args) true)) (λ resolved_locals,
  run_bind (run_each (λ onchain, run_bind (run_call (env_fetch_package_at_address onchain)) (λ _, run_ret ())) (ta_onchains args)) (λ _,
  run_bind (run_each (λ hist, run_call (env_load_history hist checkpoint)) (ta_histories args)) (λ _,
  run_bind (run_call env_load_inner_types) (λ _,
  run_bind (run_lift (pin_loop (ta_deploy_at args) ∅)) (λ pin_map,
  let options local := MkLoad local deployer attacker epoch epoch_ms gas (ta_unpublished_dependencies args)
    (negb (ta_disable_dependency_checks args)) (ta_onchain_fallback args) pin_map in
  run_bind (run_fold (build_local fuel options explicit_locals) resolved_locals (MkBuiltLocals (ta_onchains args) ∅ ∅ [] lcov)) (λ b,
  if decide (dom pin_map ⊆ bl_pinned_seen b) then
    run_bind (run_call env_load_inner_types) (λ _,
    run_ret (MkDeployResult (bl_target_packages b) (bl_local_abis b) (bl_local_name_map b), bl_lcov b))
  else run_lift Err))))))).

(** The ABIs of the local packages, for display. *)
Fixpoint package_abis {Pkg : Type} (build : P → panics (result Pkg)) (abi_of : Pkg → result MovePackageAbi) (locals : list P) :
    panics (result (list MovePackageAbi)) :=
  match locals with
  | [] => Ret (Ok [])
  | local :: locals =>
      package ← build local;
      match package with
      | Err => Ret Err
      | Ok package =>
          match abi_of package with
          | Err => Ret Err
          | Ok abi => rest ← package_abis build abi_of locals; Ret (rest ← rest; Ok (abi :: rest))
          end
      end
  end.
Definition local_abis {Pkg : Type} (build : P → bool → panics (result Pkg)) (abi_of : Pkg → result MovePackageAbi)
    (args : SuiTargetArgs P) (test_mode : bool) : panics (result (list MovePackageAbi)) :=
  match resolve_local_dependency_paths (ta_locals args) test_mode with
  | Err => Ret Err
  | Ok resolved_locals => package_abis (λ local, build local test_mode) abi_of resolved_locals
  end.
End build.
