(* ===== verification/TargetsSpec.v ===== *)
(** * TargetsSpec: the environment stands where the user asked

    [build_env] against [EnvOps]: every pinned name ends at its address, the
    targets are the packages asked for, and every name of a loaded package is
    in the table. [Env] is such an environment. *)
From S2P Require Import Prelude Types Abi TypeArgs Text Ptb TraceState Tracer TreeTracer Lcov FuzzTracer TypeGraph Meta Cache Objects Solver AbiText Binary Export Db Compile CompileSpec Deploy DeploySpec Env EnvSpec Targets.
From Stdlib Require Import Ascii.
From Stdlib Require String.
Local Open Scope string_scope.
Local Open Scope list_scope.

(** ** Runs *)
Section run.
Context {W : Type}.
Lemma run_bind_inv {A B} (m : Run W A) (k : A → Run W B) w b w' : run_bind m k w = Ret (Some (Ok b), w') →
  ∃ a w1, m w = Ret (Some (Ok a), w1) ∧ k a w1 = Ret (Some (Ok b), w').
Proof.
  unfold run_bind. intros H. apply panics_bind_Ret in H as ([[[a|]|] w1] & Hm & H); [|done..]. by exists a, w1.
Qed.
Lemma run_ret_inv {A} (a b : A) (w w' : W) : run_ret a w = Ret (Some (Ok b), w') → a = b ∧ w = w'.
Proof. intros [= <- <-]. done. Qed.
Lemma run_lift_inv {A} (r : result A) (b : A) (w w' : W) : run_lift r w = Ret (Some (Ok b), w') → r = Ok b ∧ w = w'.
Proof. intros [= <- <-]. done. Qed.
Lemma run_fold_inv {A B} (f : A → B → Run W B) l : ∀ b w b' w', run_fold f l b w = Ret (Some (Ok b'), w') →
  (l = [] ∧ b = b' ∧ w = w') ∨ ∃ a l' b1 w1, l = a :: l' ∧ f a b w = Ret (Some (Ok b1), w1) ∧ run_fold f l' b1 w1 = Ret (Some (Ok b'), w').
Proof.
  destruct l as [|a l]; intros b w b' w' H; [left; by apply run_ret_inv in H|]. right. apply run_bind_inv in H as (b1 & w1 & H1 & H2).
  by exists a, l, b1, w1.
Qed.
End run.

(** ** Pinned addresses *)
Lemma pin_loop_spec entries : ∀ m pins, pin_loop entries m = Ok pins →
  (∀ e, e ∈ entries → pins !! da_name e = Some (da_address e)) ∧ (∀ n a, m !! n = Some a → pins !! n = Some a) ∧
  ∀ n a, pins !! n = Some a → m !! n = Some a ∨ MkDeployAt n a ∈ entries.
Proof.
  induction entries as [|e entries IH]; intros m pins; cbn [pin_loop].
  - intros [= <-]. split; [by intros ? ?%elem_of_nil|]. split; [done|by left].
  - intros H. assert (pin_loop entries (<[da_name e := da_address e]> m) = Ok pins ∧
      ∀ a, m !! da_name e = Some a → a = da_address e) as [H' Hm].
    { destruct (m !! da_name e) as [prev|]; [|by split]. case_decide; [|done]. split; [done|]. congruence. }
    destruct (IH _ _ H') as (H1 & H2 & H3). split; [|split].
    + intros x [->|Hx]%elem_of_cons; [|by apply H1]. apply H2, lookup_insert_eq.
    + intros n a Hn. apply H2. destruct (decide (da_name e = n)) as [<-|Hne]; [|by rewrite lookup_insert_ne].
      rewrite (Hm a Hn). apply lookup_insert_eq.
    + intros n a Hn. rewrite elem_of_cons. destruct (H3 n a Hn) as [[[<- <-]|[_ H0]]%lookup_insert_Some|Hin]; [|by left|by auto].
      right. left. by destruct e.
Qed.
(** Two addresses for one name are refused. *)
Lemma pin_conflict entries e e' m : e ∈ entries → e' ∈ entries → da_name e = da_name e' → da_address e ≠ da_address e' →
  pin_loop entries m = Err.
Proof.
  intros He He' En Ea. destruct (pin_loop entries m) as [pins|] eqn:E; [|done]. destruct (pin_loop_spec _ _ _ E) as (H & _).
  pose proof (H e He) as H1. pose proof (H e' He') as H2. rewrite En in H1. congruence.
Qed.

(** ** What the loop over the local packages did *)
(** A package that is bundled, or one that was loaded. *)
Inductive Loaded_ := Was_Bundled (name : string) (addr : MoveAddress) | Was_Loaded (explicit : bool) (l : Loaded).
Definition loaded_at (r : Loaded_) : option (MoveAddress * list string) :=
  match r with Was_Loaded _ (address, _, _, names) => Some (address, names) | _ => None end.
Definition target_of (r : Loaded_) : option MoveAddress :=
  match r with Was_Loaded true (address, _, _, _) => Some address | _ => None end.
Definition abi_of (r : Loaded_) : option (MovePackageAbi * MovePackageAbi * list string) :=
  match r with Was_Loaded true (_, testing_abi, abi, names) => Some (testing_abi, abi, names) | _ => None end.
Definition has_name (r : Loaded_) (n : string) (a : MoveAddress) : Prop :=
  match r with Was_Bundled name addr => name = n ∧ addr = a | Was_Loaded _ (address, _, _, names) => n ∈ names ∧ address = a end.
Definition loaded_name (r : Loaded_) (n : string) : Prop :=
  match loaded_at r with Some (_, names) => n ∈ names | None => False end.

Lemma note_names_spec pin_map target names : ∀ m seen m' seen', note_names pin_map target names m seen = (m', seen') →
  (∀ n, m' !! n = if decide (n ∈ names) then Some target else m !! n) ∧
  ∀ n, n ∈ seen' ↔ n ∈ seen ∨ (n ∈ names ∧ is_Some (pin_map !! n)).
Proof.
  induction names as [|x names IH]; intros m seen m' seen'; cbn [note_names].
  - intros [= <- <-]. split; [done|]. intros n. split; [by left|by intros [?|[?%elem_of_nil _]]].
  - intros H. destruct (IH _ _ _ _ H) as [H1 H2]. split.
    + intros n. rewrite H1. destruct (decide (n ∈ names)); [by rewrite decide_True by by right|].
      destruct (decide (n = x)) as [->|Hne]; [by rewrite lookup_insert_eq, decide_True by by left|].
      rewrite lookup_insert_ne by done. rewrite decide_False; [done|]. by intros [?|?]%elem_of_cons.
    + intros n. rewrite H2, elem_of_cons. destruct (pin_map !! x) as [a|] eqn:Ex.
      * rewrite elem_of_union, elem_of_singleton. split.
        -- intros [[->|?]|[? ?]]; [right; split; [by left|by rewrite Ex]|auto..].
        -- intros [?|[[->|?] ?]]; auto.
      * split; [intros [?|[? ?]]; auto|]. intros [?|[[->|?] Hs]]; auto. rewrite Ex in Hs. by destruct Hs.
Qed.

Section build.
Context `{AT : AddressText} {W P : Type} `{EqDecision P} `{EO : !EnvOps W P}.
Context (canonicalize : P → result P) (read_manifest : P → option string).
Context (resolve_local_dependency_paths : list P → bool → result (list P)).

(** How a local package got its entry. *)
Definition run_of (fuel : nat) (options : P → @LoadOptions P) (explicit_locals : list P) (local : P) (r : Loaded_) : Prop :=
  match r with
  | Was_Bundled name addr => bundled_mapping (read_manifest local) = Ok (Some (name, addr))
  | Was_Loaded explicit l => bundled_mapping (read_manifest local) = Ok None ∧ explicit = bool_decide (local ∈ explicit_locals) ∧
      ∃ lcov lcov' w w', env_load_local fuel (options local) lcov w = Ret (Some (Ok (l, lcov')), w')
  end.
(** The tables after some packages. *)
Record built (pins : NameMap) (onchains : list MoveAddress) (rs : list Loaded_) (b : Built) : Prop := MkBuiltSpec {
  bt_targets : bl_target_packages b = onchains ++ omap target_of rs;
  bt_abis : bl_local_abis b = omap abi_of rs;
  bt_seen : ∀ n, n ∈ bl_pinned_seen b ↔ is_Some (pins !! n) ∧ ∃ r, r ∈ rs ∧ loaded_name r n;
  bt_named : ∀ n, is_Some (bl_local_name_map b !! n) ↔ ∃ r a, r ∈ rs ∧ has_name r n a;
  bt_names : ∀ n a, bl_local_name_map b !! n = Some a → ∃ r, r ∈ rs ∧ has_name r n a ∧
    ((∃ r', r' ∈ rs ∧ loaded_name r' n) → loaded_name r n) }.

Lemma note_loaded_built pins onchains rs b explicit l lcov : built pins onchains rs b →
  built pins onchains (rs ++ [Was_Loaded explicit l]) (note_loaded pins explicit (l, lcov) b).
Proof.
  intros [Ht Ha Hs Hn Hv]. destruct l as [[[address testing_abi] abi] names]. unfold note_loaded.
  destruct (note_names pins address names (bl_local_name_map b) (bl_pinned_seen b)) as [m seen] eqn:E.
  destruct (note_names_spec _ _ _ _ _ _ _ E) as [Hm Hseen]. set (r := Was_Loaded explicit (address, testing_abi, abi, names)).
  assert (∀ n, (∃ x, x ∈ rs ++ [r] ∧ loaded_name x n) ↔ (∃ x, x ∈ rs ∧ loaded_name x n) ∨ n ∈ names) as Hex.
  { intros n. setoid_rewrite elem_of_app. setoid_rewrite list_elem_of_singleton. split.
    - intros (x & [Hx| ->] & Hl); [left; by exists x|by right].
    - intros [(x & Hx & Hl)|Hl]; [exists x; auto|exists r; auto]. }
  split; cbn [bl_target_packages bl_local_abis bl_pinned_seen bl_local_name_map].
  - rewrite omap_app, Ht, app_assoc. destruct explicit; [done|]. simpl. by rewrite app_nil_r.
  - rewrite omap_app, Ha. destruct explicit; [done|]. simpl. by rewrite app_nil_r.
  - intros n. rewrite Hseen, Hs, Hex. tauto.
  - intros n. rewrite Hm. setoid_rewrite elem_of_app. setoid_rewrite list_elem_of_singleton. destruct (decide (n ∈ names)) as [Hin|Hin].
    + split; [intros _; exists r, address; split; [by right|by split]|by eexists].
    + rewrite Hn. split; [intros (x & a & Hx & Ha'); exists x, a; auto|]. intros (x & a & [Hx| ->] & Hh); [by exists x, a|]. by destruct Hh.
  - intros n a. rewrite Hm. destruct (decide (n ∈ names)) as [Hin|Hin].
    + intros [= <-]. exists r. split; [apply elem_of_app; right; by left|]. by split; [split|].
    + intros Hl. destruct (Hv n a Hl) as (x & Hx & Hh & Himp). exists x. split; [apply elem_of_app; by left|]. split; [done|].
      rewrite Hex. intros [?|?]; [by apply Himp|done].
Qed.
Lemma note_bundled_built pins onchains rs b name addr : built pins onchains rs b →
  built pins onchains (rs ++ [Was_Bundled name addr]) (note_bundled name addr b).
Proof.
  intros [Ht Ha Hs Hn Hv]. set (r := Was_Bundled name addr).
  assert (∀ n, (∃ x, x ∈ rs ++ [r] ∧ loaded_name x n) ↔ ∃ x, x ∈ rs ∧ loaded_name x n) as Hex.
  { intros n. setoid_rewrite elem_of_app. setoid_rewrite list_elem_of_singleton. split; [|intros (x & Hx & Hl); exists x; auto].
    intros (x & [Hx| ->] & Hl); [by exists x|done]. }
  split; cbn [note_bundled bl_target_packages bl_local_abis bl_pinned_seen bl_local_name_map].
  - rewrite omap_app, Ht. simpl. by rewrite app_nil_r.
  - rewrite omap_app, Ha. simpl. by rewrite app_nil_r.
  - intros n. by rewrite Hs, Hex.
  - intros n. transitivity (is_Some (bl_local_name_map b !! n) ∨ n = name).
    + destruct (bl_local_name_map b !! name) as [x|] eqn:Ex; [|rewrite lookup_insert_is_Some'; naive_solver].
      split; [by left|]. intros [?| ->]; [done|by eexists].
    + rewrite Hn. setoid_rewrite elem_of_app. setoid_rewrite list_elem_of_singleton. split.
      * intros [(x & a & Hx & Hh)| ->]; [exists x, a; auto|exists r, addr; split; [by right|done]].
      * intros (x & a & [Hx| ->] & Hh); [left; by exists x, a|right; by destruct Hh].
  - intros n a Hl.
    assert (bl_local_name_map b !! n = Some a ∨ (bl_local_name_map b !! n = None ∧ n = name ∧ a = addr)) as [H|(Hno & -> & ->)].
    { destruct (bl_local_name_map b !! name) as [x|] eqn:Ex; [by left|]. apply lookup_insert_Some in Hl as [[<- <-]|[_ Hl]]; auto. }
    + destruct (Hv n a H) as (x & Hx & Hh & Himp). exists x. split; [apply elem_of_app; by left|]. split; [done|]. by rewrite Hex.
    + exists r. split; [apply elem_of_app; right; by left|]. split; [done|]. rewrite Hex. intros (x & Hx & Hl').
      exfalso. assert (is_Some (bl_local_name_map b !! name)) as [? ?]; [|congruence]. apply Hn. unfold loaded_name in Hl'.
      destruct x as [|ex [[[ad t] ab] names]]; [done|]. by exists (Was_Loaded ex (ad, t, ab, names)), ad.
Qed.
Lemma build_locals_spec fuel options explicit_locals pins onchains : (∀ local, lo_pinned_addresses (options local) = pins) →
  ∀ locals rs b w b' w', built pins onchains rs b →
  run_fold (build_local read_manifest fuel options explicit_locals) locals b w = Ret (Some (Ok b'), w') →
  ∃ rs', Forall2 (run_of fuel options explicit_locals) locals rs' ∧ built pins onchains (rs ++ rs') b'.
Proof.
  intros Hp. induction locals as [|local locals IH]; intros rs b w b' w' Hb H.
  - apply run_ret_inv in H as [<- _]. exists []. split; [constructor|by rewrite app_nil_r].
  - apply run_fold_inv in H as [[? _]|(x & l' & b1 & w1 & [= <- <-] & H & Hrest)]; [done|]. unfold build_local in H.
    apply run_bind_inv in H as (mapping & w0 & [Hm <-]%run_lift_inv & H). destruct mapping as [[name addr]|].
    + apply run_ret_inv in H as [<- _]. destruct (IH _ _ _ _ _ (note_bundled_built _ _ _ _ name addr Hb) Hrest) as (rs' & Hrs & Hb').
      exists (Was_Bundled name addr :: rs'). split; [by constructor|]. by rewrite <-app_assoc in Hb'.
    + apply run_bind_inv in H as ([l lcov'] & w2 & Hl & H). apply run_ret_inv in H as [<- _]. rewrite Hp in Hrest.
      set (explicit := bool_decide (local ∈ explicit_locals)) in *.
      destruct (IH _ _ _ _ _ (note_loaded_built _ _ _ _ explicit l lcov' Hb) Hrest) as (rs' & Hrs & Hb').
      exists (Was_Loaded explicit l :: rs'). rewrite <-app_assoc in Hb'. split; [|done]. constructor; [|done].
      split; [done|]. split; [done|]. by eexists _, _, _, _.
Qed.

Lemma built_nil pins onchains lcov : built pins onchains [] (MkBuiltLocals onchains ∅ ∅ [] lcov).
Proof.
  split; cbn [bl_target_packages bl_local_abis bl_pinned_seen bl_local_name_map].
  - simpl. by rewrite app_nil_r.
  - done.
  - intros n. split; [by intros ?%elem_of_empty|]. by intros [_ (? & ?%elem_of_nil & _)].
  - intros n. rewrite lookup_empty. split; [by intros [? ?]|]. by intros (? & ? & ?%elem_of_nil & _).
  - intros n a. by rewrite lookup_empty.
Qed.
Lemma pinned_run fuel options explicit_locals pins local r n a : lo_pinned_addresses (options local) = pins →
  run_of fuel options explicit_locals local r → loaded_name r n → pins !! n = Some a → a ≠ addr_zero →
  ∀ x, has_name r n x → x = a.
Proof.
  intros Hp Hr Hl Hn Ha x Hx. destruct r as [|ex [[[ad t] ab] names]]; [done|]. destruct Hr as (_ & _ & lcov & lcov' & w & w' & E).
  destruct Hx as [Hin <-]. eapply (env_load_local_pinned _ _ _ _ _ _ _ _ _ _ E n); [done|by rewrite Hp|done].
Qed.
(** C16: an environment that is built has the packages asked for and the loaded
    local targets, with their ABIs, as targets; its table has exactly the names
    of the local packages, a loaded package before a bundled one; and every
    name that was pinned is that of a loaded package and stands for the pinned
    address. *)
Theorem build_env_exact fuel args checkpoint epoch epoch_ms deployer attacker gas lcov w r lcov' w' :
  build_env canonicalize read_manifest resolve_local_dependency_paths fuel args checkpoint epoch epoch_ms deployer attacker gas lcov w
    = Ret (Some (Ok (r, lcov')), w') →
  ∃ explicit_locals locals pins rs,
    let options local := MkLoad local deployer attacker epoch epoch_ms gas (ta_unpublished_dependencies args)
      (negb (ta_disable_dependency_checks args)) (ta_onchain_fallback args) pins in
    mapM canonicalize (ta_locals args) = Ok explicit_locals ∧ resolve_local_dependency_paths (ta_locals args) true = Ok locals ∧
    Forall2 (run_of fuel options explicit_locals) locals rs ∧
    dr_target_packages_deployed r = ta_onchains args ++ omap target_of rs ∧ dr_abis r = omap abi_of rs ∧
    (∀ n, is_Some (dr_name_mapping r !! n) ↔ ∃ x a, x ∈ rs ∧ has_name x n a) ∧
    (∀ n a, dr_name_mapping r !! n = Some a → ∃ x, x ∈ rs ∧ has_name x n a ∧ ((∃ y, y ∈ rs ∧ loaded_name y n) → loaded_name x n)) ∧
    ∀ e, e ∈ ta_deploy_at args → (∃ x, x ∈ rs ∧ loaded_name x (da_name e)) ∧
      (da_address e ≠ addr_zero → dr_name_mapping r !! da_name e = Some (da_address e)).
Proof.
  unfold build_env. intros H. apply run_bind_inv in H as (explicit_locals & w1 & [Hex <-]%run_lift_inv & H).
  apply run_bind_inv in H as (locals & w2 & [Hlo <-]%run_lift_inv & H).
  apply run_bind_inv in H as (_ & w3 & _ & H). apply run_bind_inv in H as (_ & w4 & _ & H). apply run_bind_inv in H as (_ & w5 & _ & H).
  apply run_bind_inv in H as (pins & w6 & [Hpin <-]%run_lift_inv & H). set (options := λ local, MkLoad local _ _ _ _ _ _ _ _ _) in H.
  apply run_bind_inv in H as (b & w7 & Hb & H). destruct (decide (dom pins ⊆ bl_pinned_seen b)) as [Hd|]; [|by apply run_lift_inv in H as [? _]].
  apply run_bind_inv in H as (_ & w8 & _ & H). apply run_ret_inv in H as [[= <- <-] _].
  destruct (build_locals_spec fuel options explicit_locals pins (ta_onchains args) ltac:(done) locals [] _ _ _ _
    (built_nil pins (ta_onchains args) lcov) Hb) as (rs & Hrs & [Ht Ha Hs Hn Hv]).
  exists explicit_locals, locals, pins, rs. cbn [dr_target_packages_deployed dr_abis dr_name_mapping].
  split; [done|]. split; [done|]. split; [exact Hrs|]. split; [exact Ht|]. split; [exact Ha|]. split; [exact Hn|]. split; [exact Hv|].
  intros e He. destruct (pin_loop_spec _ _ _ Hpin) as (H1 & _). pose proof (H1 e He) as Hpe.
  assert (da_name e ∈ bl_pinned_seen b) as Hseen by (apply Hd, elem_of_dom; by eexists).
  apply Hs in Hseen as [_ Hex']. split; [exact Hex'|]. intros Hz.
  assert (is_Some (bl_local_name_map b !! da_name e)) as [x Hx].
  { apply Hn. destruct Hex' as (y & Hy & Hl). destruct y as [|ex [[[ad t] ab] names]]; [done|]. by exists (Was_Loaded ex (ad, t, ab, names)), ad. }
  rewrite Hx. f_equal. destruct (Hv _ _ Hx) as (y & Hy & Hh & Himp). apply list_elem_of_lookup in Hy as [i Hi].
  destruct (Forall2_lookup_r _ _ _ _ _ Hrs Hi) as (local & _ & Hrun).
  eapply (pinned_run fuel options explicit_locals pins local y); [done|exact Hrun|by apply Himp|exact Hpe|exact Hz|exact Hh].
Qed.
End build.

(** ** The replay environment *)
Lemma pinned_member pins names pinned : pinned_address pins names None = Ok pinned → ∀ n a, n ∈ names → pins !! n = Some a →
  pinned = Some a.
Proof.
  assert (∀ l m p, pinned_address pins l (Some m) = Ok p → p = Some m ∧ ∀ n a, n ∈ l → pins !! n = Some a → a = m) as Hs.
  { induction l as [|x l IH]; intros m p; cbn [pinned_address].
    - intros [= <-]. split; [done|]. by intros n a ?%elem_of_nil.
    - destruct (pins !! x) as [b|] eqn:E.
      + case_decide as Hb; [|done]. subst b. intros H. destruct (IH _ _ H) as [-> Hall]. split; [done|].
        intros n a [->|Hin]%elem_of_cons Hn; [congruence|by eapply Hall].
      + intros H. destruct (IH _ _ H) as [-> Hall]. split; [done|]. intros n a [->|Hin]%elem_of_cons Hn; [congruence|by eapply Hall]. }
  induction names as [|x l IH]; cbn [pinned_address]; [by intros _ n a ?%elem_of_nil|]. destruct (pins !! x) as [b|] eqn:E.
  - intros H. destruct (Hs _ _ _ H) as [-> Hall]. intros n a [->|Hin]%elem_of_cons Hn; [congruence|]. f_equal. symmetry. by eapply Hall.
  - intros H n a [->|Hin]%elem_of_cons Hn; [congruence|]. by apply (IH H n).
Qed.

Section world.
Context `{OL : ObjectLib} {T : Type} `{DB : !ObjectDb T} `{OF : !ObjectFacts} `{PB : PtbBuilder Bd} `{TL : TraceLib}
  `{IL : IdentLib} `{AT : AddressText}.
Context (from_sui_object : Object → result MovePackageAbi)
  (linkage_table : Object → option (list (MoveAddress * MoveAddress)))
  (rpc_get_object : MoveAddress → result (option Object)) (filter_objects : N → string → result (list Object)).
Context (tx_digest : TransactionData → N) (input_objects : TransactionData → result (list InputObjectKind)).
Context (gas_ok : N → N → bool).
Context (execute : ExecutionMode → list (InputObjectKind * Object) → TransactionData → N → N → T → ExecutionResults * T).
Context (serialize : CompiledModule → result Ptb.Bytes).
Context (compute_digest : list Ptb.Bytes → list MoveAddress → Ptb.Bytes).
Context (is_upgrade_cap : MoveTypeTag → bool).
Context (immediate_dependencies : CompiledModule → list MoveAddress).
Context {P : Type} (build_package_resolved : P → bool → result CompiledArtifacts).
Context (package_abi : SuiCompiledPackage → result MovePackageAbi).
Definition on_db {A} (f : T → result A * T) (w : World (T := T)) : result A * World (T := T) :=
  let '(r, db) := f (w_db w) in (r, set_db db w).
Definition world_load_local (fuel : nat) (o : @LoadOptions P) (lcov : option (gset BytecodeLocation)) :
    Run (World (T := T)) (Loaded * option (gset BytecodeLocation)) :=
  load_local from_sui_object linkage_table rpc_get_object tx_digest input_objects gas_ok execute serialize compute_digest
    is_upgrade_cap immediate_dependencies build_package_resolved package_abi fuel o lcov.
Lemma world_pinned fuel o lcov w address abi non_test names lcov' w' :
  world_load_local fuel o lcov w = Ret (Some (Ok (address, abi, non_test, names, lcov')), w') →
  ∀ n a, n ∈ names → lo_pinned_addresses o !! n = Some a → a ≠ addr_zero → address = a.
Proof.
  intros (compiled & pinned & _ & _ & _ & -> & Hp & Ha & _ & _)%load_local_parts n a Hn Hl Hz.
  rewrite (pinned_member _ _ _ Hp n a Hn Hl) in Ha. by apply Ha.
Qed.
Definition world_ops : EnvOps (World (T := T)) P := {|
  env_fetch_package_at_address a := on_db (fetch_package_at_address linkage_table rpc_get_object a);
  env_load_history a ckpt := on_db (load_history from_sui_object filter_objects a ckpt);
  env_load_inner_types := on_db load_inner_types;
  env_load_local := world_load_local;
  env_load_local_pinned := world_pinned |}.
End world.

(** ** Witness: the project of [Env]'s witness, pinned by its name *)
#[local] Existing Instance demo_objects.
#[local] Existing Instance demo_facts.
#[local] Existing Instance demo_db.
#[local] Existing Instance hex_text.
Definition demo_env : EnvOps (World (T := CachedSnapshot)) unit :=
  world_ops (PB := list_builder) demo_abi (λ _, None) (λ _, Ok None) (λ _ _, Ok []) tx_budget (λ _, Ok []) (λ _ _, true) demo_execute
    (λ _, Ok []) (λ _ _, []) (λ ty, bool_decide (ty = Tag_Address)) demo_deps (λ _ : unit, λ _, Ok demo_artifacts)
    (λ p, Ok {| pa_package_id := pk_package_id p; pa_modules := [] |}).
Definition demo_args : SuiTargetArgs unit := MkTargetArgs [] [] [tt] true [MkDeployAt "root" (MkMoveAddress 9)] true false.
Definition demo_built_env : panics (option (result (DeployResult * option (gset BytecodeLocation))) * World (T := CachedSnapshot)) :=
  build_env (EO := demo_env) Ok (λ _, Some "[package]") (λ l _, Ok l) 4 demo_args 0 0 0 demo_sender (MkMoveAddress 2) (MkMoveAddress 6)
    None demo_world.
Lemma build_env_exact_witness : ∃ r lcov w, demo_built_env = Ret (Some (Ok (r, lcov)), w) ∧
  dr_target_packages_deployed r = [MkMoveAddress 9] ∧ dr_name_mapping r !! "root" = Some (MkMoveAddress 9).
Proof.
  assert (H : returns (λ x, match x.1 with Some (Ok (r, _)) => bool_decide (dr_target_packages_deployed r = [MkMoveAddress 9]) | _ => false end)
    demo_built_env = true) by (vm_compute; reflexivity).
  apply returns_true in H as ([[[[r lcov]|]|] w] & E & H); [|done..]. apply bool_decide_eq_true_1 in H.
  exists r, lcov, w. split; [exact E|]. split; [exact H|]. unfold demo_built_env in E.
  destruct (build_env_exact (EO := demo_env) Ok (λ _, Some "[package]") (λ l _, Ok l) 4 demo_args 0 0 0 demo_sender (MkMoveAddress 2)
    (MkMoveAddress 6) None demo_world r lcov w E) as (_ & _ & _ & rs & _ & _ & _ & _ & _ & _ & _ & Hpin).
  destruct (Hpin (MkDeployAt "root" (MkMoveAddress 9))) as [_ Hp]; [by left|]. apply Hp. done.
Defined.
