(* ===== verification/Prepare.v ===== *)
(** * Prepare: a campaign from the command line

    [crates/movy/src/sui/prepare.rs], [utils.rs] and the arguments of
    [test.rs]: names in types are replaced by addresses, the filters, objects
    and type arguments the user gives are resolved, gas is minted, the
    environment built and its metadata taken. Types are parsed by [sui_types];
    the clients of the chain are arguments. *)
From S2P Require Import Prelude Types Abi TypeArgs Text Ptb TraceState Tracer TreeTracer Lcov FuzzTracer TypeGraph Meta Cache Objects Solver AbiText Binary Export Db Compile Deploy Env Setup Targets.
From Stdlib Require Import Ascii.
From Stdlib Require String.
Local Open Scope string_scope.
Local Open Scope list_scope.

(** ** The state of the chain *)
Record SuiOnchainArguments := MkOnchainArgs { oa_checkpoint : option N; oa_epoch : option N; oa_epoch_ms : option N }.
Record SuiOnchainPrimitives := MkPrimitives { op_epoch : N; op_epoch_ms : N; op_checkpoint : N }.
Section onchain.
(** A checkpoint's number and epoch, and the start times of epochs. *)
Context (query_checkpoint : option N → result (option (N * N))) (query_epoches : list N → result (list Z)).
Definition resolve_onchain_primitives (args : SuiOnchainArguments) (gql : bool) : panics (result SuiOnchainPrimitives) :=
  match oa_checkpoint args, oa_epoch args, oa_epoch_ms args with
  | Some checkpoint, Some epoch, Some epoch_ms => Ret (Ok (MkPrimitives epoch epoch_ms checkpoint))
  | checkpoint, epoch, epoch_ms =>
      if xorb (bool_decide (is_Some epoch)) (bool_decide (is_Some epoch_ms)) then Ret Err else
      if bool_decide (checkpoint = None) && bool_decide (is_Some epoch) then Ret Err else
      if negb gql then Ret Err else
      match query_checkpoint checkpoint with
      | Ok (Some (sequence_number, summary_epoch)) =>
          match query_epoches [summary_epoch] with
          | Err => Ret Err
          | Ok epoches =>
              start_timestamp ← unwrap (last epoches);
              if (start_timestamp <? 0)%Z then Panic
              else Ret (Ok (MkPrimitives summary_epoch (Z.to_N start_timestamp) sequence_number))
          end
      | _ => Ret Err
      end
  end.
End onchain.

(** ** Names in types *)
Definition is_alpha (c : ascii) : bool :=
  let n := N_of_ascii c in (((65 <=? n) && (n <=? 90)) || ((97 <=? n) && (n <=? 122)))%N.
Definition is_digit (c : ascii) : bool := let n := N_of_ascii c in ((48 <=? n) && (n <=? 57))%N.
Definition ident_start (c : ascii) : bool := is_alpha c || Ascii.eqb c "_".
Definition ident_char (c : ascii) : bool := is_alpha c || is_digit c || Ascii.eqb c "_".
Definition head_char (c : ascii) : bool := Ascii.eqb c "<" || Ascii.eqb c "," || Ascii.eqb c "(" || Ascii.eqb c " ".
(** The longest prefix of identifier characters, and the rest. *)
Fixpoint span_ident (s : string) : string * string :=
  match s with
  | String c s' => if ident_char c then let '(a, b) := span_ident s' in (String c a, b) else ("", s)
  | "" => ("", "")
  end.
Fixpoint last_char (prev : option ascii) (s : string) : option ascii :=
  match s with "" => prev | String c s => last_char (Some c) s end.

Section names.
Context `{AT : AddressText}.
(** [prev] is the last character of what is written so far; every step takes
    a character, so that the length of the text is enough fuel. *)
Fixpoint rewrite_loop (fuel : nat) (local_name_map : NameMap) (prev : option ascii) (s : string) : option string :=
  match fuel with
  | 0 => None
  | S fuel =>
      match s with
      | "" => Some ""
      | String c s' =>
          let copy := out ← rewrite_loop fuel local_name_map (Some c) s'; Some (String c out) in
          let at_head := match prev with Some p => head_char p | None => true end in
          if at_head && ident_start c then
            let '(ident, rest) := span_ident s in
            match rest with
            | String c1 (String c2 _) =>
                if Ascii.eqb c1 ":" && Ascii.eqb c2 ":" then
                  match local_name_map !! ident with
                  | Some addr =>
                      let text := to_canonical_string true addr in
                      out ← rewrite_loop fuel local_name_map (last_char prev text) rest; Some (text +:+ out)
                  | None => copy
                  end
                else copy
            | _ => copy
            end
          else copy
      end
  end.
Definition rewrite_named_type_addresses (raw : string) (local_name_map : NameMap) : option string :=
  rewrite_loop (S (String.length raw)) local_name_map None raw.

(** [MoveTypeTag::from_str] *)
Context (type_from_str : string → option MoveTypeTag).
Definition resolve_type_tag (raw : string) (local_name_map : NameMap) : option (result MoveTypeTag) :=
  match type_from_str raw with
  | Some resolved => Some (Ok resolved)
  | None =>
      rewritten ← rewrite_named_type_addresses raw local_name_map;
      Some (match type_from_str rewritten with Some ty => Ok ty | None => Err end)
  end.

(** ** Filters *)
Definition resolve_list {A B} (f : A → result B) (l : option (list A)) : result (option (list B)) :=
  match l with Some l => l ← mapM f l; Ok (Some l) | None => Ok None end.
Definition resolve_packages (pkgs : option (list PackageRef)) (names : NameMap) : result (option (list MoveAddress)) :=
  resolve_list (resolve_address names) pkgs.
Definition resolve_modules (mods : option (list ModuleSelector)) (names : NameMap) : result (option (list MoveModuleId)) :=
  resolve_list (to_module_id names) mods.
Definition resolve_functions (funcs : option (list FunctionSelector)) (names : NameMap) : result (option (list FunctionIdent)) :=
  resolve_list (to_ident names) funcs.
Definition resolve_function_scores (funcs : option (list PrivilegeFunctionScoreSelector)) (names : NameMap) :
    result (list (FunctionIdent * N)) :=
  scores ← resolve_list (resolve_score names) funcs; Ok (default [] scores).
(** [resolve_type_tag] with its fuel. *)
Definition resolved_type (names : NameMap) (raw : string) : result MoveTypeTag := default Err (resolve_type_tag raw names).
Definition resolve_type_tags (tags : option (list string)) (names : NameMap) : result (option (list MoveTypeTag)) :=
  resolve_list (resolved_type names) tags.

(** The derived order of selectors: addresses before names. *)
Definition ref_le (x y : PackageRef) : Prop :=
  match x, y with
  | PR_Address a, PR_Address b => (addr_val a ≤ addr_val b)%N
  | PR_Address _, PR_Named _ => True
  | PR_Named _, PR_Address _ => False
  | PR_Named s, PR_Named t => String.le s t
  end.
Definition selector_le (x y : ModuleSelector) : Prop :=
  (ms_package x ≠ ms_package y ∧ ref_le (ms_package x) (ms_package y)) ∨
  (ms_package x = ms_package y ∧ String.le (ms_module x) (ms_module y)).
#[export] Instance ref_le_dec : RelDecision ref_le.
Proof. intros [] []; simpl; apply _. Defined.
#[export] Instance selector_le_dec : RelDecision selector_le.
Proof. intros x y. unfold selector_le. apply _. Defined.

Record FuzzTargetArgs := MkFuzzTargetArgs {
  ft_include_packages : option (list PackageRef); ft_include_modules : option (list ModuleSelector);
  ft_include_functions : option (list FunctionSelector); ft_include_types : option (list string);
  ft_exclude_packages : option (list PackageRef); ft_exclude_modules : option (list ModuleSelector);
  ft_exclude_functions : option (list FunctionSelector); ft_exclude_types : option (list string);
  ft_privilege_functions : option (list PrivilegeFunctionScoreSelector) }.
(** The modules of [movy] itself are not fuzzed. *)
Definition excluded_modules (exclude_modules : option (list ModuleSelector)) (local_name_map : NameMap) : list ModuleSelector :=
  let exclude_modules := default [] exclude_modules in
  match local_name_map !! "movy" with
  | Some _ => sort_dedup selector_le
      (exclude_modules ++ omap module_selector_from_str ["movy::context"; "movy::oracle"; "movy::log"])
  | None => exclude_modules
  end.
Definition resolve_filters (args : FuzzTargetArgs) (names : NameMap) : result TargetFilters :=
  include_packages ← resolve_packages (ft_include_packages args) names;
  exclude_packages ← resolve_packages (ft_exclude_packages args) names;
  include_modules ← resolve_modules (ft_include_modules args) names;
  exclude_modules ← resolve_modules (Some (excluded_modules (ft_exclude_modules args) names)) names;
  include_functions ← resolve_functions (ft_include_functions args) names;
  exclude_functions ← resolve_functions (ft_exclude_functions args) names;
  include_types ← resolve_type_tags (ft_include_types args) names;
  exclude_types ← resolve_type_tags (ft_exclude_types args) names;
  Ok {| include_packages := include_packages; exclude_packages := exclude_packages; include_modules := include_modules;
        exclude_modules := exclude_modules; include_functions := include_functions; exclude_functions := exclude_functions;
        include_types := include_types; exclude_types := exclude_types |}.

(** ** Arguments of a test run *)
Section test.
(** [get_move_object_info] on the prepared store. *)
Context (object_type : MoveAddress → option MoveTypeTag).
Fixpoint resolve_object_mapping (entries : list string) (names : NameMap) (out : gmap MoveTypeTag (list MoveAddress)) :
    result (gmap MoveTypeTag (list MoveAddress)) :=
  match entries with
  | [] => Ok out
  | entry :: entries =>
      match split_once_at "/" entry with
      | None => Err
      | Some (ty_str, id_str) =>
          ty ← resolved_type names (trim ty_str);
          match address_from_str (trim id_str) with
          | None => Err
          | Some id =>
              match object_type id with
              | None => Err
              | Some info_ty => if decide (info_ty = ty) then resolve_object_mapping entries names (push_entry ty id out) else Err
              end
          end
      end
  end.
(** [meta.get_function] *)
Context (get_function : FunctionIdent → option MoveFunctionAbi).
Definition u16_from_str (s : string) : option N := parse_unsigned (2 ^ 16) (chars s).
Definition test_ty_entry (names : NameMap) (entry : string) : result (FunctionIdent * N * MoveTypeTag) :=
  match split_once_at "/" entry with
  | None => Err
  | Some (lhs, ty_str) =>
      match rsplit_once_at ":" lhs with
      | None => Err
      | Some (sel_str, idx_str) =>
          match function_selector_from_str (trim sel_str) with
          | None => Err
          | Some selector =>
              ident ← to_ident names selector;
              match u16_from_str (trim idx_str) with
              | None => Err
              | Some idx =>
                  ty ← resolved_type names (trim ty_str);
                  match get_function ident with
                  | None => Err
                  | Some func => if (N.of_nat (length (fa_type_parameters func)) <=? idx)%N then Err else Ok (ident, idx, ty)
                  end
              end
          end
      end
  end.
Fixpoint resolve_test_ty (entries : list string) (names : NameMap) (out : gmap FunctionIdent (gmap N MoveTypeTag)) :
    result (gmap FunctionIdent (gmap N MoveTypeTag)) :=
  match entries with
  | [] => Ok out
  | entry :: entries =>
      x ← test_ty_entry names entry;
      let '(ident, idx, ty) := x in
      resolve_test_ty entries names (<[ident := <[idx := ty]> (default ∅ (out !! ident))]> out)
  end.
End test.

(** ** The context *)
(** The ABIs of the local packages, with the standard library's. *)
Definition add_local_abi (s : gmap MoveAddress MovePackageAbi * gmap MoveAddress MovePackageAbi * NameMap)
    (x : MovePackageAbi * MovePackageAbi * list string) : gmap MoveAddress MovePackageAbi * gmap MoveAddress MovePackageAbi * NameMap :=
  let '(abis, testing_abis, names) := s in
  let '(testing_abi, abi, package_names) := x in
  (<[pa_package_id abi := abi]> abis, <[pa_package_id testing_abi := testing_abi]> testing_abis,
   fold_left (λ m name, match m !! name with Some _ => m | None => <[name := pa_package_id testing_abi]> m end) package_names names).

Record MovyInitRoles := MkRoles { deployer : MoveAddress; attacker : MoveAddress }.
Section context.
Context {W P : Type} `{EqDecision P} `{EO : !EnvOps W P} {Meta : Type}.
Context (canonicalize : P → result P) (read_manifest : P → option string).
Context (resolve_local_dependency_paths : list P → bool → result (list P)).
(** Operations of [Db], [Env] and [Setup] over the world. *)
Context (mint_coin_id : MoveTypeTag → MoveOwner → MoveAddress → N → W → result () * W)
  (mock_testing_std : W → panics (result () * W)) (install_movy : W → result () * W)
  (get_package_info : MoveAddress → W → result (option MovePackageAbi) * W).
Context (fuzz_metadata : list (FunctionIdent * N) → list MoveAddress → MoveAddress → MoveAddress → MoveAddress →
  gmap MoveAddress MovePackageAbi → gmap MoveAddress MovePackageAbi → SuiOnchainPrimitives → TargetFilters →
  W → panics (result Meta * W)).
Context (std_abi : bool → gmap MoveAddress MovePackageAbi).
Definition run_panics {A} (f : W → panics (result A * W)) : Run W A := λ w, '(r, w) ← f w; Ret (Some r, w).
Definition SUI_TYPE : MoveTypeTag := Tag_Struct (MkStructTag addr_two "sui" "SUI" []).
(** The targets that no local package is. *)
Definition fetch_abi (target : MoveAddress) (abis : gmap MoveAddress MovePackageAbi) : Run W (gmap MoveAddress MovePackageAbi) :=
  match abis !! target with
  | Some _ => run_ret abis
  | None => run_bind (run_call (get_package_info target)) (λ abi, λ w,
      abi ← unwrap abi; Ret (Some (Ok (<[target := abi]> abis)), w))
  end.
(** [primitives] are those of [resolve_onchain_primitives], [gas_id] is random. *)
Definition prepare_fuzz_context (fuel : nat) (roles : MovyInitRoles) (gas_id : MoveAddress) (primitives : SuiOnchainPrimitives)
    (target : SuiTargetArgs P) (filter_args : FuzzTargetArgs) : Run W (Meta * NameMap) :=
  run_bind (run_call (mint_coin_id SUI_TYPE (AddressOwner (deployer roles)) gas_id very_big_gas)) (λ _,
  run_bind (run_call (mint_coin_id SUI_TYPE (AddressOwner (attacker roles)) gas_id very_big_gas)) (λ _,
  run_bind (run_panics mock_testing_std) (λ _,
  run_bind (run_call install_movy) (λ _,
  run_bind (build_env canonicalize read_manifest resolve_local_dependency_paths fuel target (op_checkpoint primitives)
    (op_epoch primitives) (op_epoch_ms primitives) (deployer roles) (attacker roles) gas_id None) (λ r,
  let target_packages := dr_target_packages_deployed r.1 in
  let '(abis, testing_abis, local_name_map) :=
    fold_left add_local_abi (dr_abis r.1) (std_abi true, std_abi false, dr_name_mapping r.1) in
  run_bind (run_fold fetch_abi target_packages abis) (λ abis,
  run_bind (run_lift (resolve_filters filter_args local_name_map)) (λ filters,
  run_bind (run_lift (resolve_function_scores (ft_privilege_functions filter_args) local_name_map)) (λ scores,
  run_bind (run_panics (fuzz_metadata scores target_packages (attacker roles) (deployer roles) gas_id abis testing_abis primitives filters)) (λ meta,
  run_ret (meta, local_name_map)))))))))).
End context.
End names.
