(* ===== verification/PrepareSpec.v ===== *)
(** * PrepareSpec: the names in a type are replaced by their addresses

    A type as a user writes it names packages where an address may stand. The
    text [Prepare.rewrite_named_type_addresses] gives is the printed type with
    the addresses, whatever the names of modules and types are. *)
From S2P Require Import Prelude Types Abi TypeArgs Text FuzzTracer Meta Export Deploy Env Setup Targets Prepare.
From Stdlib Require Import Ascii.
From Stdlib Require String.
Local Open Scope string_scope.
Local Open Scope list_scope.

(** ** Texts *)
Lemma app_cons c s t : String c s +:+ t = String c (s +:+ t).
Proof. done. Qed.
Lemma app_nil_string s : s +:+ "" = s.
Proof. induction s as [|c s IH]; [done|]. rewrite app_cons. by f_equal. Qed.
Lemma join_cons sep x y l : join sep (x :: y :: l) = x +:+ sep +:+ join sep (y :: l).
Proof. done. Qed.

(** Every character of a text satisfies a test. *)
Fixpoint all_chars (f : ascii → bool) (s : string) : bool :=
  match s with String c s => f c && all_chars f s | "" => true end.
Definition plain (s : string) : bool := all_chars (λ c, negb (head_char c)) s.
(** A name: a letter or underscore, then identifier characters. *)
Definition is_ident (s : string) : bool :=
  match s with String c s => ident_start c && all_chars ident_char s | "" => false end.
(** Addresses print as a digit and characters that separate nothing. *)
Class PlainText `{AT : AddressText} := {
  canonical_starts a : ∃ c s, to_canonical_string true a = String c s ∧ ident_start c = false ∧ plain (String c s);
}.

Lemma all_chars_impl (f g : ascii → bool) s : (∀ c, f c → g c) → all_chars f s → all_chars g s.
Proof.
  intros Hfg. induction s as [|c s IH]; [done|]. simpl. rewrite !andb_True. intros [Hc Hs]. split; [by apply Hfg|by apply IH].
Qed.
Lemma all_chars_app (f : ascii → bool) s t : all_chars f (s +:+ t) = all_chars f s && all_chars f t.
Proof. induction s as [|c s IH]; [done|]. rewrite app_cons. simpl. by rewrite IH, andb_assoc. Qed.
Lemma ident_char_plain c : ident_char c → negb (head_char c).
Proof. destruct c as [[] [] [] [] [] [] [] []]; vm_compute; tauto. Qed.
Lemma ident_start_char c : ident_start c → ident_char c.
Proof. unfold ident_start, ident_char. rewrite !orb_True. tauto. Qed.
Lemma ident_start_plain c : ident_start c → negb (head_char c).
Proof. intros Hc. by apply ident_char_plain, ident_start_char. Qed.
Lemma last_char_plain s p : negb (head_char p) → plain s → ∃ q, last_char (Some p) s = Some q ∧ negb (head_char q).
Proof.
  revert p. induction s as [|c s IH]; intros p Hp Hs; [by exists p|].
  apply andb_True in Hs as [Hc Hs]. by apply IH.
Qed.

(** Only [::] after a name makes it a package. *)
Definition not_path (s : string) : bool :=
  match s with String c1 (String c2 _) => negb (Ascii.eqb c1 ":" && Ascii.eqb c2 ":") | _ => true end.
Lemma not_path_start c s : Ascii.eqb c ":" = false → not_path (String c s).
Proof. intros Hc. destruct s; simpl; [done|]. by rewrite Hc. Qed.
(** What follows an identifier does not continue it. *)
Definition ends_ident (s : string) : bool := match s with String c _ => negb (ident_char c) | "" => true end.
Lemma span_ident_app w rest : all_chars ident_char w → ends_ident rest → span_ident (w +:+ rest) = (w, rest).
Proof.
  intros Hw Hr. induction w as [|c w IH].
  - destruct rest as [|c rest]; [done|]. simpl in *. by destruct (ident_char c).
  - apply andb_True in Hw as [Hc Hw]. rewrite app_cons. simpl. destruct (ident_char c); [|done]. by rewrite IH.
Qed.
Lemma span_ident_length s : (String.length (span_ident s).2 ≤ String.length s)%nat.
Proof.
  induction s as [|c s IH]; [done|]. simpl. destruct (ident_char c); [|simpl; lia].
  destruct (span_ident s) as [a b]. simpl in *. lia.
Qed.
Lemma span_ident_start c s : ident_start c → (String.length (span_ident (String c s)).2 ≤ String.length s)%nat.
Proof.
  intros Hc%ident_start_char. simpl. destruct (ident_char c); [|done].
  pose proof (span_ident_length s). by destruct (span_ident s).
Qed.

(** ** Results *)
Lemma result_bind_ok {A B} (r : result A) (f : A → result B) y : (r ≫= f) = Ok y ↔ ∃ x, r = Ok x ∧ f x = Ok y.
Proof. destruct r; simpl; naive_solver. Qed.
Lemma result_mapM_ok {A B} (f : A → result B) l k : mapM f l = Ok k ↔ Forall2 (λ x y, f x = Ok y) l k.
Proof.
  revert k. induction l as [|x l IH]; intros k; simpl.
  - split; [intros [= <-]; constructor|by intros ->%Forall2_nil_inv_l].
  - rewrite result_bind_ok. split.
    + intros (y & Hy & (k' & Hk%IH & [= <-])%result_bind_ok). by constructor.
    + intros (y & k' & Hy & Hk%IH & ->)%Forall2_cons_inv_l. exists y. split; [done|]. apply result_bind_ok. eauto.
Qed.

(** ** The loop *)
Section loop.
Context `{AT : AddressText} (names : NameMap).
Abbreviation loop fuel := (rewrite_loop fuel names).

(** The length of the text is enough fuel, and more changes nothing. *)
Lemma rewrite_loop_total fuel prev s : (String.length s < fuel)%nat → ∃ out, loop fuel prev s = Some out.
Proof.
  revert prev s. induction fuel as [|fuel IH]; intros prev s Hs; [lia|].
  destruct s as [|c s]; [by exists ""|]. simpl in Hs.
  assert (∃ out, (out ← loop fuel (Some c) s; Some (String c out)) = Some out) as [copied Hcopy].
  { destruct (IH (Some c) s) as [out ->]; [lia|]. by exists (String c out). }
  cbn [rewrite_loop]. cbv zeta. rewrite Hcopy.
  destruct (_ && ident_start c) eqn:Hc; [|by eexists]. apply andb_true_iff in Hc as [_ Hc].
  pose proof (span_ident_start c s ltac:(by rewrite Hc)) as Hlen.
  destruct (span_ident (String c s)) as [ident rest]. simpl in Hlen.
  destruct rest as [|c1 [|c2 rest]]; [by eexists..|]. destruct (Ascii.eqb c1 ":" && Ascii.eqb c2 ":"); [|by eexists].
  destruct (names !! ident) as [addr|]; [|by eexists].
  destruct (IH (last_char prev (to_canonical_string true addr)) (String c1 (String c2 rest))) as [out Hout]; [lia|].
  cbv zeta. rewrite Hout. by eexists.
Qed.
Lemma rewrite_loop_more fuel prev s out : loop fuel prev s = Some out → loop (S fuel) prev s = Some out.
Proof.
  revert prev s out. induction fuel as [|fuel IH]; intros prev s out; [done|].
  destruct s as [|c s]; [done|].
  assert (∀ o, (out ← loop fuel (Some c) s; Some (String c out)) = Some o →
    (out ← loop (S fuel) (Some c) s; Some (String c out)) = Some o) as Hcopy.
  { intros o (x & Hx%IH & Ho)%bind_Some. apply bind_Some. eauto. }
  intros H. cbn [rewrite_loop] in H |- *. cbn [rewrite_loop] in Hcopy.
  destruct ((match prev with Some p => head_char p | None => true end) && ident_start c); [|by apply Hcopy].
  destruct (span_ident (String c s)) as [ident rest].
  destruct rest as [|c1 [|c2 rest]]; [by apply Hcopy..|].
  destruct (Ascii.eqb c1 ":" && Ascii.eqb c2 ":"); [|by apply Hcopy].
  destruct (names !! ident) as [addr|]; [|by apply Hcopy].
  cbv zeta in H |- *. apply bind_Some in H as (x & Hx%IH & Ho). apply bind_Some. eauto.
Qed.
Lemma rewrite_loop_le fuel fuel' prev s out :
  (fuel ≤ fuel')%nat → loop fuel prev s = Some out → loop fuel' prev s = Some out.
Proof. induction 1; [done|]. intros ?. by apply rewrite_loop_more, IHle. Qed.
Lemma rewrite_loop_enough fuel fuel' prev s out :
  loop fuel prev s = Some out → (String.length s < fuel')%nat → loop fuel' prev s = Some out.
Proof.
  intros Hf Hs. destruct (rewrite_loop_total fuel' prev s Hs) as [out' Hout'].
  pose proof (rewrite_loop_le fuel (fuel `max` fuel') _ _ _ ltac:(lia) Hf).
  pose proof (rewrite_loop_le fuel' (fuel `max` fuel') _ _ _ ltac:(lia) Hout'). simplify_eq/=. congruence.
Qed.

(** What is written for the text that is left, by any fuel. *)
Definition rewritten (prev : option ascii) (s out : string) : Prop := ∃ fuel, loop fuel prev s = Some out.
Definition at_head (prev : option ascii) : bool := match prev with Some p => head_char p | None => true end.

Lemma rewritten_nil prev : rewritten prev "" "".
Proof. by exists 1. Qed.
Lemma rewritten_copy prev c s out :
  at_head prev && ident_start c = false → rewritten (Some c) s out → rewritten prev (String c s) (String c out).
Proof. intros Hc [fuel Hf]. exists (S fuel). cbn [rewrite_loop]. fold (at_head prev). rewrite Hc. simpl in Hf. by rewrite Hf. Qed.

(** The text after it is written the same after any character but a head. *)
Definition rewritten_on (s out : string) : Prop := ∀ p, negb (head_char p) → rewritten (Some p) s out.
Lemma not_head p : negb (head_char p) → at_head (Some p) = false.
Proof. simpl. by destruct (head_char p). Qed.
Lemma rewritten_plain s rest out : plain s → rewritten_on rest out → rewritten_on (s +:+ rest) (s +:+ out).
Proof.
  intros Hs Hr. induction s as [|c s IH]; [done|]. apply andb_True in Hs as [Hc Hs]. intros p Hp.
  rewrite !app_cons. apply rewritten_copy; [by rewrite not_head|]. by apply IH.
Qed.
(** At a head, a text that starts no name, or a name that is no address. *)
Lemma rewritten_start prev c s rest out :
  ident_start c = false → plain (String c s) → rewritten_on rest out →
  rewritten prev (String c s +:+ rest) (String c s +:+ out).
Proof.
  intros Hc Hs Hr. apply andb_True in Hs as [Hp Hs]. rewrite !app_cons.
  apply rewritten_copy; [by rewrite Hc, andb_false_r|]. by apply rewritten_plain.
Qed.
Lemma ident_plain w : all_chars ident_char w → plain w.
Proof. apply all_chars_impl, ident_char_plain. Qed.
Lemma rewritten_word prev w rest out :
  is_ident w → ends_ident rest → not_path rest → rewritten_on rest out → rewritten prev (w +:+ rest) (w +:+ out).
Proof.
  intros Hw He Hn Hr. destruct w as [|c w]; [done|]. apply andb_True in Hw as [Hc Hw].
  pose proof (rewritten_plain w rest out (ident_plain _ Hw) Hr c (ident_start_plain _ Hc)) as [fuel Hf].
  exists (S fuel). rewrite !app_cons. cbn [rewrite_loop]. simpl in Hf. rewrite Hf. rewrite <-app_cons, span_ident_app.
  - destruct rest as [|c1 [|c2 rest]]; simpl in Hn |- *; [by destruct (_ && _)..|].
    destruct (Ascii.eqb c1 ":" && Ascii.eqb c2 ":"); [done|]. by destruct (_ && _).
  - simpl. apply andb_True. split; [by apply ident_start_char|done].
  - done.
Qed.
(** At a head, a known name before [::]. *)
Lemma rewritten_name `{PT : !PlainText} prev w addr rest out :
  at_head prev → is_ident w → names !! w = Some addr → rewritten_on ("::" +:+ rest) out →
  rewritten prev (w +:+ "::" +:+ rest) (to_canonical_string true addr +:+ out).
Proof.
  intros Hp Hw Hn Hr. destruct w as [|c w]; [done|]. apply andb_True in Hw as [Hc Hw].
  destruct (canonical_starts addr) as (c0 & s0 & Hcan & _ & Hplain). apply andb_True in Hplain as [Hc0 Hs0].
  destruct (last_char_plain s0 c0 Hc0 Hs0) as (q & Hq & Hq').
  destruct (Hr q Hq') as [fuel Hf]. exists (S fuel). rewrite app_cons. cbn [rewrite_loop].
  fold (at_head prev). rewrite (Is_true_true_1 _ (proj2 (andb_True _ _) (conj Hp Hc))).
  rewrite <-app_cons, span_ident_app; [|apply andb_True; by split; [apply ident_start_char|]|done].
  change ("::" +:+ rest) with (String ":" (String ":" rest)) in *.
  cbv beta iota zeta. rewrite !Ascii.eqb_refl.
  rewrite Hn. rewrite Hcan in *. change (last_char prev (String c0 s0)) with (last_char (Some c0) s0). rewrite Hq.
  simpl in Hf. by rewrite Hf.
Qed.
End loop.

(** ** Types as they are written *)
Inductive NamedType :=
  | NT_Plain (t : MoveTypeTag)
  | NT_Vector (t : NamedType)
  | NT_Struct (package : PackageRef) (module_name name : string) (tys : list NamedType).
Definition NamedType_ind' (P : NamedType → Prop) (Hp : ∀ t, P (NT_Plain t)) (Hv : ∀ t, P t → P (NT_Vector t))
    (Hs : ∀ p m n tys, Forall P tys → P (NT_Struct p m n tys)) : ∀ t, P t :=
  fix go t := match t with
  | NT_Plain t => Hp t
  | NT_Vector t => Hv t (go t)
  | NT_Struct p m n tys => Hs p m n tys ((fix gos l : Forall P l := match l with
      | [] => Forall_nil_2 _ | t :: l => Forall_cons_2 _ _ _ (go t) (gos l) end) tys)
  end.
(** The types without names or parts. *)
Definition is_word (t : MoveTypeTag) : bool := match t with Tag_Vector _ | Tag_Struct _ => false | _ => true end.

Section named.
Context `{AT : AddressText}.
Definition ref_text (p : PackageRef) : string := match p with PR_Address a => show_address a | PR_Named s => s end.
Fixpoint named_text (t : NamedType) : string :=
  match t with
  | NT_Plain t => show_type t
  | NT_Vector t => "vector<" +:+ named_text t +:+ ">"
  | NT_Struct p m n tys => ref_text p +:+ "::" +:+ m +:+ "::" +:+ n +:+ show_type_args (map named_text tys)
  end.
(** Package names are identifiers; nothing else separates or starts a type. *)
Fixpoint well_named (t : NamedType) : bool :=
  match t with
  | NT_Plain t => is_word t
  | NT_Vector t => well_named t
  | NT_Struct p m n tys =>
      match p with PR_Named s => is_ident s | PR_Address _ => true end && plain m && plain n && forallb well_named tys
  end.
(** The type that is meant. *)
Fixpoint named_type (names : NameMap) (t : NamedType) : result MoveTypeTag :=
  match t with
  | NT_Plain t => Ok t
  | NT_Vector t => t ← named_type names t; Ok (Tag_Vector t)
  | NT_Struct p m n tys =>
      a ← resolve_ref names p; tys ← mapM (named_type names) tys; Ok (Tag_Struct (MkStructTag a m n tys))
  end.

Context `{PT : !PlainText} (names : NameMap).
Abbreviation rewritten := (rewritten names).
Abbreviation rewritten_on := (rewritten_on names).
(** A type is followed by the end, a comma or a bracket. *)
Definition closes (s : string) : bool := match s with String c _ => Ascii.eqb c ">" || Ascii.eqb c "," | "" => true end.
Lemma closes_ends s : closes s → ends_ident s ∧ not_path s.
Proof.
  destruct s as [|c s]; [done|]. simpl. intros [H|H]%orb_True; apply Is_true_true, Ascii.eqb_eq in H as ->; by destruct s.
Qed.
Definition reads (t : NamedType) : Prop := ∀ ty prev rest out,
  named_type names t = Ok ty → well_named t → at_head prev → closes rest → rewritten_on rest out →
  rewritten prev (named_text t +:+ rest) (show_type ty +:+ out).

Lemma rewritten_after c s out : ident_start c = false → rewritten (Some c) s out → rewritten_on (String c s) (String c out).
Proof. intros Hc Hs p _. apply rewritten_copy; [|done]. by rewrite Hc, andb_false_r. Qed.
Lemma reads_word t : is_word t → reads (NT_Plain t).
Proof.
  intros Ht ty prev rest out [= <-] _ Hp [He Hn]%closes_ends Hr. apply rewritten_word; try done. by destruct t.
Qed.
Lemma reads_vector t : reads t → reads (NT_Vector t).
Proof.
  intros IH ty prev rest out (ty' & Hty & [= <-])%result_bind_ok Hw Hp Hc Hr. cbn [named_text show_type].
  change "vector<" with ("vector" +:+ "<"). rewrite !string_app_assoc. apply rewritten_word; [done|done|by apply not_path_start|].
  apply (rewritten_after "<"); [done|]. apply IH; try done. by apply (rewritten_after ">"); [|apply Hr].
Qed.
Lemma named_types_ok tys l :
  mapM (named_type names) tys = Ok l ↔ Forall2 (λ t ty, named_type names t = Ok ty) tys l.
Proof. apply result_mapM_ok. Qed.
(** The arguments, after the opening bracket. *)
Lemma rewritten_args tys l prev rest out :
  Forall reads tys → Forall2 (λ t ty, named_type names t = Ok ty) tys l → forallb well_named tys → tys ≠ [] → at_head prev →
  rewritten_on rest out →
  rewritten prev (join ", " (map named_text tys) +:+ ">" +:+ rest) (join ", " (map show_type l) +:+ ">" +:+ out).
Proof.
  intros Hr Hl Hw Hne Hp Hrest. assert (rewritten_on (">" +:+ rest) (">" +:+ out)) as Hend by by apply rewritten_after; [|apply Hrest].
  revert prev Hp Hr Hw. induction Hl as [|t ty tys l Ht Hl IH]; intros prev Hp Hr Hw; [done|].
  apply Forall_cons in Hr as [Hrt Hr]. apply andb_True in Hw as [Hwt Hw].
  destruct Hl as [|t' ty' tys l Ht' Hl]; [by apply Hrt|].
  cbn [map] in IH |- *. rewrite !join_cons, !string_app_assoc. apply Hrt; try done. apply (rewritten_after ","); [done|].
  apply (rewritten_copy _ _ " "); [done|]. by apply IH.
Qed.
Lemma reads_struct p m n tys : Forall reads tys → reads (NT_Struct p m n tys).
Proof.
  intros IH ty prev rest out Hty Hw Hp Hc Hr. simpl in Hty.
  apply result_bind_ok in Hty as (a & Ha & (l & Hl%named_types_ok & [= <-])%result_bind_ok).
  simpl in Hw. rewrite !andb_True in Hw. destruct Hw as (((Hpk & Hm) & Hn) & Hws).
  assert (rewritten_on (show_type_args (map named_text tys) +:+ rest) (show_type_args (map show_type l) +:+ out)) as Hargs.
  { destruct Hl as [|t ty tys l Ht Hl]; [done|]. simpl. rewrite !string_app_assoc.
    apply (rewritten_after "<"); [done|]. apply (rewritten_args (t :: tys) (ty :: l)); try done. by constructor. }
  assert (rewritten_on ("::" +:+ (m +:+ "::" +:+ n +:+ show_type_args (map named_text tys)) +:+ rest)
    ("::" +:+ (m +:+ "::" +:+ n +:+ show_type_args (map show_type l)) +:+ out)) as Htail.
  { rewrite !string_app_assoc. by repeat apply rewritten_plain. }
  cbn [named_text show_type st_address st_module st_name st_tys]. rewrite string_app_assoc, (string_app_assoc (show_address a)). destruct p as [a'|w]; simpl in *.
  - injection Ha as <-. unfold show_address. destruct (canonical_starts a') as (c & s & -> & Hs & Hplain).
    by apply rewritten_start.
  - destruct (names !! w) as [a'|] eqn:Hw; [injection Ha as ->|done]. by apply rewritten_name.
Qed.
Lemma named_reads t : reads t.
Proof.
  induction t as [t|t IH|p m n tys IH] using NamedType_ind'; [|by apply reads_vector|by apply reads_struct].
  intros ty prev rest out Hty Hw. by apply reads_word.
Qed.

(** C19: Naming packages in a type never changes what else it says. For every
    type written with package names or addresses, nested and generic, whose
    package names are identifiers of the table, the rewritten text is exactly
    the printed type with the names' addresses, even where a module or a type
    has the name of a package; a parser that reads printed types and not the
    names then gives that type. Any text at all is answered, and one the
    parser reads already is taken as it is. *)
Theorem named_types_resolved t ty (type_from_str : string → option MoveTypeTag) :
  well_named t → named_type names t = Ok ty →
  rewrite_named_type_addresses (named_text t) names = Some (show_type ty) ∧
  (type_from_str (show_type ty) = Some ty → type_from_str (named_text t) ∈ [None; Some ty] →
    resolve_type_tag type_from_str (named_text t) names = Some (Ok ty)) ∧
  (∀ raw, ∃ r, resolve_type_tag type_from_str raw names = Some r ∧ (∀ ty', type_from_str raw = Some ty' → r = Ok ty')).
Proof.
  intros Hw Ht.
  assert (rewrite_named_type_addresses (named_text t) names = Some (show_type ty)) as Hr.
  { destruct (named_reads t ty None "" "" Ht Hw) as [fuel Hf]; [done..|intros p _; apply rewritten_nil|].
    rewrite !app_nil_string in Hf. eapply rewrite_loop_enough; [done|lia]. }
  split; [done|]. split.
  - intros Hp Hn. unfold resolve_type_tag. rewrite Hr. simpl. rewrite Hp.
    set_unfold in Hn. by destruct Hn as [->|[->|]].
  - intros raw. unfold resolve_type_tag. destruct (type_from_str raw) as [ty'|] eqn:Hraw.
    { exists (Ok ty'). split; [done|]. by intros ? [= ->]. }
    destruct (rewrite_loop_total names (S (String.length raw)) None raw) as [out Hout]; [lia|].
    unfold rewrite_named_type_addresses. rewrite Hout. by eexists.
Qed.
End named.

(** ** Hex addresses are plain *)
Lemma hex_digit_plain n : (n < 16)%N → negb (head_char (hex_digit n)).
Proof.
  intros Hn. rewrite <-(N2Nat.id n). assert (N.to_nat n < 16)%nat as Hk by lia.
  revert Hk. generalize (N.to_nat n). intros k Hk. do 16 (destruct k as [|k]; [by vm_compute|]). lia.
Qed.
Lemma hex_digits_plain k n tl : plain tl → plain (hex_digits k n tl).
Proof.
  revert n tl. induction k as [|k IH]; intros n tl Htl; [done|]. apply IH, andb_True. split; [|done].
  by apply hex_digit_plain, N.mod_lt.
Qed.
#[export] Instance hex_plain : PlainText.
Proof.
  split. intros [a]. eexists "0"%char, _. split; [reflexivity|]. split; [done|].
  apply andb_True. split; [done|]. apply (hex_digits_plain 64). done.
Qed.

(** ** The code's own tests *)
Definition demo_names : NameMap := {["counter" := MkMoveAddress 51966]}.
Definition demo_counter : NamedType := NT_Struct (PR_Named "counter") "counter" "Counter" [].
Definition demo_counter_tag : MoveTypeTag := Tag_Struct (MkStructTag (MkMoveAddress 51966) "counter" "Counter" []).
Example name_position_does_not_clobber :
  rewrite_named_type_addresses "counter::counter::Counter" demo_names =
    Some (show_address (MkMoveAddress 51966) +:+ "::counter::Counter").
Proof. vm_compute. reflexivity. Qed.
Example names_inside_generics :
  rewrite_named_type_addresses "0x2::coin::Coin<counter::counter::Counter>" demo_names =
    Some ("0x2::coin::Coin<" +:+ show_address (MkMoveAddress 51966) +:+ "::counter::Counter>").
Proof. vm_compute. reflexivity. Qed.
(** Names as package and module, in an argument and in a vector. *)
Definition demo_named : NamedType :=
  NT_Struct (PR_Address addr_two) "coin" "Coin" [demo_counter; NT_Vector (NT_Plain Tag_U64)].
Definition demo_named_tag : MoveTypeTag :=
  Tag_Struct (MkStructTag addr_two "coin" "Coin" [demo_counter_tag; Tag_Vector Tag_U64]).
Definition demo_parser (s : string) : option MoveTypeTag := if bool_decide (s = show_type demo_named_tag) then Some demo_named_tag else None.
Lemma named_types_resolved_witness :
  rewrite_named_type_addresses (named_text demo_named) demo_names = Some (show_type demo_named_tag) ∧
  resolve_type_tag demo_parser (named_text demo_named) demo_names = Some (Ok demo_named_tag).
Proof.
  pose proof (named_types_resolved demo_names demo_named demo_named_tag demo_parser) as H.
  destruct H as (Hr & Hp & _); [vm_compute; tauto|vm_compute; reflexivity|].
  split; [exact Hr|]. apply Hp; [vm_compute; reflexivity|].
  assert (demo_parser (named_text demo_named) = None) as -> by (vm_compute; reflexivity).
  by left.
Defined.

(** ** What a test run is given *)
Section given.
Context `{AT : AddressText} (type_from_str : string → option MoveTypeTag).
Definition objects_typed (object_type : MoveAddress → option MoveTypeTag) (m : gmap MoveTypeTag (list MoveAddress)) : Prop :=
  ∀ ty ids id, m !! ty = Some ids → id ∈ ids → object_type id = Some ty.
Definition indices_bound (get_function : FunctionIdent → option MoveFunctionAbi) (m : gmap FunctionIdent (gmap N MoveTypeTag)) : Prop :=
  ∀ f tys idx ty, m !! f = Some tys → tys !! idx = Some ty →
    ∃ func, get_function f = Some func ∧ (idx < N.of_nat (length (fa_type_parameters func)))%N.
Lemma push_entry_typed object_type ty id m : objects_typed object_type m → object_type id = Some ty →
  objects_typed object_type (push_entry ty id m).
Proof.
  intros Hm Hid ty' ids id'. unfold push_entry. rewrite lookup_insert_Some. intros [[<- <-]|[Hne Hids]]; [|by eapply Hm].
  rewrite elem_of_app, list_elem_of_singleton. intros [Hin| ->]; [|done].
  destruct (m !! ty) as [ids|] eqn:Hty; [by eapply Hm|by apply elem_of_nil in Hin].
Qed.
(** Objects are only mapped under the type they have. *)
Theorem object_mapping_typed object_type entries names : ∀ out m,
  objects_typed object_type out → resolve_object_mapping type_from_str object_type entries names out = Ok m → objects_typed object_type m.
Proof.
  induction entries as [|entry entries IH]; intros out m Hout; simpl; [by intros [= <-]|].
  destruct (split_once_at "/" entry) as [[ty_str id_str]|]; [|done].
  intros (ty & Hty & H)%result_bind_ok. destruct (address_from_str (trim id_str)) as [id|]; [|done].
  destruct (object_type id) as [info_ty|] eqn:Hid; [|done]. destruct (decide (info_ty = ty)) as [->|]; [|done].
  eapply IH, H. by apply push_entry_typed.
Qed.
Lemma test_ty_entry_bound get_function names entry ident idx ty :
  test_ty_entry type_from_str get_function names entry = Ok (ident, idx, ty) →
  ∃ func, get_function ident = Some func ∧ (idx < N.of_nat (length (fa_type_parameters func)))%N.
Proof.
  unfold test_ty_entry. destruct (split_once_at "/" entry) as [[lhs ty_str]|]; [|done].
  destruct (rsplit_once_at ":" lhs) as [[sel idx_str]|]; [|done].
  destruct (function_selector_from_str (trim sel)) as [selector|]; [|done].
  intros (ident' & _ & H)%result_bind_ok. destruct (u16_from_str (trim idx_str)) as [idx'|]; [|done].
  apply result_bind_ok in H as (ty' & _ & H). destruct (get_function ident') as [func|] eqn:Hf; [|done].
  destruct (_ <=? idx')%N eqn:Hidx; [done|]. simplify_eq. exists func. split; [done|]. by apply N.leb_gt.
Qed.
(** Types are only given to type parameters that exist. *)
Theorem test_ty_bound get_function entries names : ∀ out m,
  indices_bound get_function out → resolve_test_ty type_from_str get_function entries names out = Ok m → indices_bound get_function m.
Proof.
  induction entries as [|entry entries IH]; intros out m Hout; simpl; [by intros [= <-]|].
  intros ([[ident idx] ty] & Hentry & H)%result_bind_ok. eapply IH, H.
  intros f tys idx' ty'. rewrite lookup_insert_Some. intros [[<- <-]|[Hne Hf]]; [|by eapply Hout].
  rewrite lookup_insert_Some. intros [[<- <-]|[Hidx Hty]]; [by eapply test_ty_entry_bound|].
  destruct (out !! ident) as [tys|] eqn:Hid; [by eapply Hout|done].
Qed.
End given.
