(* ===== verification/Rpc.v ===== *)
(** * Rpc: the GraphQL client, and the database it makes

    [crates/movy-sui/src/rpc/graphql.rs], [crates/movy-sui/src/database/graphql.rs]
    and [crates/movy-sui/src/utils.rs]: queries that are asked again while the
    answer cannot be read, pages read until the last, and an object store whose
    reads are queries at the fork. Sending a request, JSON, base64 and BCS are
    arguments; waiting and the limit on concurrent requests are not modelled. *)
From S2P Require Import Prelude Types Abi TypeArgs Text Ptb TraceState Tracer TreeTracer Lcov FuzzTracer TypeGraph Meta Cache Objects Solver AbiText Binary Export Db Compile Deploy Env Targets.
From Stdlib Require String.
Local Open Scope string_scope.
Local Open Scope list_scope.

#[export] Instance run_mret {W} : MRet (Run W) := λ A a, run_ret a.
#[export] Instance run_mbind {W} : MBind (Run W) := λ A B k m, run_bind m k.
(** [ok_or_else(..)?]: what is missing is an error. *)
Definition ok_or {A} (o : option A) : result A := match o with Some a => Ok a | None => Err end.

(** ** Requests *)
Inductive OwnerKind := Kind_Address | Kind_Object | Kind_Shared | Kind_Immutable.
Record ObjectKey := MkObjectKey { ok_address : string; ok_version : option N; ok_root_version : option N; ok_at_checkpoint : option N }.
Record OwnedObjectFullQueryVariables := MkOwnedVariables {
  ov_after : option string; ov_checkpoint : N; ov_first : option N; ov_kind : option OwnerKind; ov_owner : option string; ov_type : option string }.
Inductive Operation :=
  | Op_Checkpoint (sequence_number : option N)
  | Op_OwnedObjects (v : OwnedObjectFullQueryVariables)
  | Op_Transactions (digests : list string)
  | Op_Objects (keys : list ObjectKey)
  | Op_Epochs (keys : list N).

Section keys.
Context `{AT : AddressText}.
Definition key_at_checkpoint (obj : MoveAddress) (ckpt : N) : ObjectKey :=
  MkObjectKey (to_canonical_string true obj) None None (Some ckpt).
Definition key_latest (obj : MoveAddress) : ObjectKey := MkObjectKey (to_canonical_string true obj) None None None.
Definition key_at_version (obj : MoveAddress) (version : N) : ObjectKey :=
  MkObjectKey (to_canonical_string true obj) (Some version) None None.
Definition key_at_root_version (obj : MoveAddress) (root_version : N) : ObjectKey :=
  MkObjectKey (to_canonical_string true obj) None (Some root_version) None.
End keys.

(** ** Answers *)
Record GraphQlResponse (A : Type) := MkResponse { gr_data : option A; gr_errors : option (list string) }.
Arguments MkResponse {A} _ _.
Arguments gr_data {A} _.
Arguments gr_errors {A} _.
Record CheckpointResp := MkCheckpointResp { cr_content_bcs : option string; cr_summary_bcs : option string; cr_sequence_number : N }.
Record EffectsResp := MkEffectsResp { er_checkpoint : option N; er_effects_bcs : option string }.
Record TransactionResp := MkTransactionResp { tr_transaction_bcs : option string; tr_effects : option EffectsResp }.
(** The outer option of a list's entry is an entry the server does not have. *)
Record ObjectResp := MkObjectResp { or_object_bcs : option string }.
Record ObjectAt := MkObjectAt { at_version : option N; at_object_bcs : option string }.
Record OwnedNode := MkOwnedNode { on_address : string; on_object_at : option ObjectAt }.
Record PageInfo := MkPageInfo { has_next_page : bool; end_cursor : option string }.
Record ObjectConnection := MkConnection { oc_nodes : list OwnedNode; oc_page_info : PageInfo }.
Record EpochResp := MkEpochResp {
  ep_reference_gas_price : option string; ep_start_timestamp : option string; ep_epoch_id : N; ep_protocol_version : option N }.

Record EpochData (Time : Type) := MkEpochData { ed_epoch : N; ed_rgp : N; ed_protocol_version : N; ed_start_timestamp : Time }.
Arguments MkEpochData {Time} _ _ _ _.
Arguments ed_epoch {Time} _.
Arguments ed_start_timestamp {Time} _.
Record TransactionGraphQlResponse (TD FX : Type) := MkTransactionResponse { tg_tx : TD; tg_effects : FX; tg_checkpoint : N }.
Arguments MkTransactionResponse {TD FX} _ _ _.

(** The JSON an answer of type [A] is read from. *)
Class FromSlice (B A : Type) := from_slice : B → option (GraphQlResponse A).
Definition MAX_PER_PAGE : N := 50.

Section client.
Context {W B : Type} (post : Operation → W → result B * W).
(** A query is sent up to ten times, until its answer can be read; an answer
    with errors is one, as is a request that cannot be sent. *)
Fixpoint query_loop {A} `{FS : !FromSlice B A} (tries : nat) (operation : Operation) : Run W (option (GraphQlResponse A)) :=
  match tries with
  | 0 => mret None
  | S tries =>
      resp_bytes ← run_call (post operation);
      match from_slice resp_bytes with
      | Some v => mret (Some v)
      | None => query_loop tries operation
      end
  end.
Definition run_query {A} `{FS : !FromSlice B A} (operation : Operation) : Run W (GraphQlResponse A) :=
  resp_json ← query_loop 10 operation;
  match resp_json with
  | Some resp_json => match gr_errors resp_json with Some _ => run_lift Err | None => mret resp_json end
  | None => run_lift Err
  end.

(** Base64 and BCS. *)
Context {Y : Type} (base64_decode : string → result Y).
Definition base64_to_object {A} (from_bytes : Y → result A) (b64 : string) : result A :=
  bytes ← base64_decode b64; from_bytes bytes.

Section checkpoints.
Context {CC CS : Type} (content_from_bytes : Y → result CC) (summary_from_bytes : Y → result CS).
Context `{FS : !FromSlice B (option CheckpointResp)}.
Definition checkpoint_of (checkpoint_resp : CheckpointResp) : result (CC * CS) :=
  content_bcs ← ok_or (cr_content_bcs checkpoint_resp);
  content ← base64_to_object content_from_bytes content_bcs;
  summary_bcs ← ok_or (cr_summary_bcs checkpoint_resp);
  summary ← base64_to_object summary_from_bytes summary_bcs;
  Ok (content, summary).
Definition query_checkpoint (checkpoint : option N) : Run W (option (CC * CS)) :=
  response ← run_query (Op_Checkpoint checkpoint);
  match (gr_data response ≫= id : option CheckpointResp) with
  | None => mret None
  | Some checkpoint_resp => c ← run_lift (checkpoint_of checkpoint_resp); mret (Some c)
  end.
End checkpoints.

(** The entries that are there, in order; one that cannot be read is an error. *)
Definition read_present {A O} (read : A → result O) (l : list (option A)) : result (list O) := mapM read (omap id l).

Section objects.
Context `{OL : ObjectLib} (object_from_bytes : Y → result Object).
Definition read_bcs (bcs : option string) : result Object :=
  object_bcs ← ok_or bcs; base64_to_object object_from_bytes object_bcs.

Section owned.
Context `{FS : !FromSlice B (option ObjectConnection)}.
Definition owned_page (v : OwnedObjectFullQueryVariables) : Run W ObjectConnection :=
  response ← run_query (Op_OwnedObjects v); run_lift (ok_or (gr_data response ≫= id)).
(** Nodes without an object at the checkpoint are passed over. *)
Definition read_nodes (nodes : list OwnedNode) : result (list Object) :=
  mapM (λ at_, read_bcs (at_object_bcs at_)) (omap on_object_at nodes).
Fixpoint filter_loop (fuel : nat) (checkpoint : N) (kind : option OwnerKind) (owner ty : option string) (after : option string)
    (out : list Object) : Run W (list Object) :=
  match fuel with
  | 0 => λ w, Ret (None, w)
  | S fuel =>
      objects ← owned_page (MkOwnedVariables after checkpoint (Some MAX_PER_PAGE) kind owner ty);
      read ← run_lift (read_nodes (oc_nodes objects));
      if has_next_page (oc_page_info objects) then
        after ← run_lift (ok_or (end_cursor (oc_page_info objects)));
        filter_loop fuel checkpoint kind owner ty (Some after) (out ++ read)
      else mret (out ++ read)
  end.
(** [fuel] is the number of pages. *)
Definition filter_objects (fuel : nat) (checkpoint : N) (kind : option OwnerKind) (owner ty : option string) : Run W (list Object) :=
  filter_loop fuel checkpoint kind owner ty None [].
Definition owned_objects_at_checkpoint (fuel : nat) (checkpoint : N) (owner : string) (ty : option string) : Run W (list Object) :=
  filter_objects fuel checkpoint (Some Kind_Address) (Some owner) ty.
Definition dynamic_fields_at_checkpoint (fuel : nat) (checkpoint : N) (owner : string) (ty : option string) : Run W (list Object) :=
  filter_objects fuel checkpoint (Some Kind_Object) (Some owner) ty.
End owned.

Context `{FS : !FromSlice B (list (option ObjectResp))}.
Definition query_objects (keys : list ObjectKey) : Run W (list Object) :=
  response ← run_query (Op_Objects keys);
  objects ← run_lift (ok_or (gr_data response));
  run_lift (read_present (λ obj, read_bcs (or_object_bcs obj)) objects).
End objects.

Section transactions.
Context {TD FX : Type} (tx_from_bytes : Y → result TD) (effects_from_bytes : Y → result FX).
Context `{FS : !FromSlice B (list (option TransactionResp))}.
Definition transaction_of (tx_resp : TransactionResp) : result (TransactionGraphQlResponse TD FX) :=
  tx_bcs ← ok_or (tr_transaction_bcs tx_resp);
  tx_data ← base64_to_object tx_from_bytes tx_bcs;
  effects ← ok_or (tr_effects tx_resp);
  effects_bcs ← ok_or (er_effects_bcs effects);
  tx_effects ← base64_to_object effects_from_bytes effects_bcs;
  tx_checkpoint ← ok_or (er_checkpoint effects);
  Ok (MkTransactionResponse tx_data tx_effects tx_checkpoint).
Definition query_transactions (digests : list string) : Run W (list (TransactionGraphQlResponse TD FX)) :=
  response ← run_query (Op_Transactions digests);
  transactions ← run_lift (ok_or (gr_data response));
  run_lift (read_present transaction_of transactions).
End transactions.

Section epochs.
Context {Time : Type} (time_from_str : string → result Time).
Context `{FS : !FromSlice B (list (option EpochResp))}.
Definition epoch_of (ep : EpochResp) : result (EpochData Time) :=
  ts ← ok_or (ep_start_timestamp ep);
  start_ts ← time_from_str ts;
  protocol_version ← ok_or (ep_protocol_version ep);
  price ← ok_or (ep_reference_gas_price ep);
  rgp ← ok_or (u64_from_str price);
  Ok (MkEpochData (ep_epoch_id ep) rgp protocol_version start_ts).
Definition query_epoches (keys : list N) : Run W (list (EpochData Time)) :=
  response ← run_query (Op_Epochs keys);
  epoches ← run_lift (ok_or (gr_data response));
  run_lift (read_present epoch_of epoches).
End epochs.
End client.

(** ** The database at a fork *)
Record GraphQlDatabase := MkGraphQlDatabase { fork : N }.
Section database.
Context {W B : Type} (post : Operation → W → result B * W) {Y : Type} (base64_decode : string → result Y).
Context `{AT : AddressText} `{OL : ObjectLib} (object_from_bytes : Y → result Object).
Context {CC CS : Type} (content_from_bytes : Y → result CC) (summary_from_bytes : Y → result CS) (summary_number : CS → N).
Context `{FC : !FromSlice B (option CheckpointResp)} `{FL : !FromSlice B (option ObjectConnection)}
  `{FO : !FromSlice B (list (option ObjectResp))} `{FT : !FromSlice B (list (option TransactionResp))} `{FE : !FromSlice B (list (option EpochResp))}.

(** [fuel] bounds the polls, a quarter of a second apart. *)
Fixpoint wait_until_fork (fuel : nat) (db : GraphQlDatabase) : Run W () :=
  match fuel with
  | 0 => λ w, Ret (None, w)
  | S fuel =>
      ckpt ← query_checkpoint post base64_decode content_from_bytes summary_from_bytes None;
      match ckpt with
      | None => run_lift Err
      | Some (_, current_summary) => if (fork db <=? summary_number current_summary)%N then mret () else wait_until_fork fuel db
      end
  end.
Definition transaction {TD FX : Type} (tx_from_bytes : Y → result TD) (effects_from_bytes : Y → result FX) (digest : string) :
    Run W (option (TransactionGraphQlResponse TD FX)) :=
  data ← query_transactions post base64_decode tx_from_bytes effects_from_bytes [digest]; mret (last data).
Definition epoch {Time : Type} (time_from_str : string → result Time) (epoch_id : N) : Run W (option (EpochData Time)) :=
  data ← query_epoches post time_from_str [epoch_id]; mret (last data).
Definition sinlge_object (k : ObjectKey) : Run W (option Object) :=
  v ← query_objects post base64_decode object_from_bytes [k]; mret (head v).
Definition get_object_at_checkpoint (object : MoveAddress) (checkpoint : N) : Run W (option Object) :=
  sinlge_object (key_at_checkpoint object checkpoint).
Definition graphql_get_object (db : GraphQlDatabase) (object : MoveAddress) : Run W (option Object) :=
  get_object_at_checkpoint object (fork db).

(** The interfaces of a store: two of them take an error for an absent object. *)
Definition error_is_none {A} (m : Run W (option A)) : Run W (option A) := λ w,
  '(r, w) ← m w; Ret (match r with Some Err => Some (Ok None) | r => r end, w).
Definition graphql_read_child_object (parent child : MoveAddress) (child_version_upper_bound : N) : Run W (option Object) :=
  sinlge_object (key_at_root_version child child_version_upper_bound).
Definition graphql_get_object_received_at_version (owner receiving_object_id : MoveAddress) (receive_object_at_version epoch_id : N) :
    Run W (option Object) :=
  sinlge_object (key_at_version receiving_object_id receive_object_at_version).
Definition graphql_store_get_object (db : GraphQlDatabase) (object_id : MoveAddress) : Run W (option Object) :=
  error_is_none (get_object_at_checkpoint object_id (fork db)).
Definition graphql_get_object_by_key (object_id : MoveAddress) (version : N) : Run W (option Object) :=
  error_is_none (sinlge_object (key_at_version object_id version)).
Definition graphql_get_package_object (db : GraphQlDatabase) (package_id : MoveAddress) : Run W (option Object) :=
  get_object_at_checkpoint package_id (fork db).

Definition forked_at (db : GraphQlDatabase) : N := fork db.
Definition graphql_checkpoint (db : GraphQlDatabase) (ckpt : option N) : Run W (option (CC * CS)) :=
  query_checkpoint post base64_decode content_from_bytes summary_from_bytes (Some (default (fork db) ckpt)).
Definition graphql_dynamic_fields (fuel : nat) (db : GraphQlDatabase) (table : MoveAddress) (ty : option string) : Run W (list Object) :=
  dynamic_fields_at_checkpoint post base64_decode object_from_bytes fuel (fork db) (to_canonical_string true table) ty.
Definition graphql_owned_objects (fuel : nat) (db : GraphQlDatabase) (owner : MoveAddress) (ty : option string) : Run W (list Object) :=
  owned_objects_at_checkpoint post base64_decode object_from_bytes fuel (fork db) (to_canonical_string true owner) ty.

(** The store a server that answers from the state [w] makes; running out of
    answers is an error of the request. *)
Definition answer {A} (m : Run W A) (w : W) : result A := match m w with Ret (Some r, _) => r | _ => Err end.
Definition graphql_backing (db : GraphQlDatabase) (w : W) : Backing := {|
  bk_get_package_object package_id := answer (graphql_get_package_object db package_id) w;
  bk_get_object object_id := match answer (graphql_store_get_object db object_id) w with Ok o => o | Err => None end;
  bk_get_object_by_key object_id version := match answer (graphql_get_object_by_key object_id version) w with Ok o => o | Err => None end;
  bk_get_object_received_at_version owner id version epoch_id := answer (graphql_get_object_received_at_version owner id version epoch_id) w;
  bk_read_child_object parent child bound := answer (graphql_read_child_object parent child bound) w |}.
End database.

(** ** The empty store, and a store of one of two kinds *)
Definition EmptyStore `{OL : ObjectLib} : Backing := {|
  bk_get_package_object _ := Ok None; bk_get_object _ := None; bk_get_object_by_key _ _ := None;
  bk_get_object_received_at_version _ _ _ _ := Ok None; bk_read_child_object _ _ _ := Ok None |}.
Inductive TrivialBackStore (T1 T2 : Type) := TB_T1 (t : T1) | TB_T2 (t : T2).
Arguments TB_T1 {T1 T2} t.
Arguments TB_T2 {T1 T2} t.
Definition trivial_backing `{OL : ObjectLib} {T1 T2} (b1 : T1 → Backing) (b2 : T2 → Backing) (s : TrivialBackStore T1 T2) : Backing :=
  match s with TB_T1 t => b1 t | TB_T2 t => b2 t end.
