(* ===== verification/RpcSpec.v ===== *)
(** * RpcSpec: every page of a listing is read

    A query returns the first answer that can be read of the ten it asks for;
    a listing is the nodes of all pages in order, and ends with the last one;
    the database reads what the server has at the fork. *)
From S2P Require Import Prelude Types Abi TypeArgs Text Ptb TraceState Tracer TreeTracer Lcov FuzzTracer TypeGraph Meta Cache Objects Solver AbiText Binary Export Db Compile CompileSpec Deploy DeploySpec Env EnvSpec Targets TargetsSpec Setup Prepare PrepareSpec SolverSpec Rpc.
From Stdlib Require String.
Local Open Scope string_scope.
Local Open Scope list_scope.

Lemma run_bind_step {W A B} (m : Run W A) (k : A → Run W B) w a w1 : m w = Ret (Some (Ok a), w1) → (m ≫= k) w = k a w1.
Proof. intros Hm. unfold mbind, run_mbind, run_bind. by rewrite Hm. Qed.
Lemma run_lift_step {W A B} (r : result A) (k : A → Run W B) w a : r = Ok a → (run_lift r ≫= k) w = k a w.
Proof. intros ->. by apply run_bind_step. Qed.

(** ** Queries *)
Section query.
Context {W B A : Type} (post : Operation → W → result B * W) `{FS : !FromSlice B A}.
(** The [k]-th repetition of a request is the first whose answer can be read. *)
Inductive served (op : Operation) : nat → W → GraphQlResponse A → W → Prop :=
  | served_now w b r w' : post op w = (Ok b, w') → from_slice b = Some r → served op 0 w r w'
  | served_later k w b w1 r w' : post op w = (Ok b, w1) → from_slice (A := A) b = None → served op k w1 r w' → served op (S k) w r w'.

Lemma query_loop_served op tries : ∀ w r w',
  query_loop post tries op w = Ret (Some (Ok (Some r)), w') ↔ ∃ k, (k < tries)%nat ∧ served op k w r w'.
Proof.
  induction tries as [|tries IH]; intros w r w'; cbn [query_loop].
  - split; [by intros [=]|by intros (k & ? & _); lia].
  - split.
    + intros (b & w1 & Hp & H)%run_bind_inv. unfold run_call in Hp. destruct (post op w) as [r0 w0] eqn:E. simplify_eq.
      destruct (from_slice b) as [v|] eqn:Eb.
      * apply run_ret_inv in H as [[= ->] ->]. exists 0. split; [lia|]. by econstructor.
      * apply IH in H as (k & Hk & H). exists (S k). split; [lia|]. by econstructor.
    + intros (k & Hk & H). unfold mbind, run_mbind, run_bind, run_call.
      inversion H as [? b ? ? Hp Hb|k' ? b w1 ? ? Hp Hb H']; simplify_eq; rewrite Hp; simpl; rewrite Hb; [done|].
      apply IH. exists k'. split; [lia|done].
Qed.
(** A query never fails to end, and is answered exactly by a readable answer
    without errors among the first ten. *)
Lemma run_query_served op w r w' :
  run_query post op w = Ret (Some (Ok r), w') ↔ gr_errors r = None ∧ ∃ k, (k < 10)%nat ∧ served op k w r w'.
Proof.
  split.
  - intros ([v|] & w1 & Hq & H)%run_bind_inv; [|by apply run_lift_inv in H as []].
    apply query_loop_served in Hq. destruct (gr_errors v) eqn:E; [by apply run_lift_inv in H as []|].
    by apply run_ret_inv in H as [-> ->].
  - intros (He & Hk). apply query_loop_served in Hk. unfold run_query, mbind, run_mbind, run_bind. rewrite Hk. simpl. by rewrite He.
Qed.
Lemma query_loop_ends op tries w : ∃ r w', query_loop post (A := A) tries op w = Ret (Some r, w').
Proof.
  revert w. induction tries as [|tries IH]; intros w; cbn [query_loop]; [by do 2 eexists|].
  unfold mbind, run_mbind, run_bind, run_call. destruct (post op w) as [[b|] w1]; simpl; [|by do 2 eexists].
  destruct (from_slice b); [by do 2 eexists|apply IH].
Qed.
Lemma run_query_ends op w : ∃ r w', run_query post (A := A) op w = Ret (Some r, w').
Proof.
  unfold run_query, mbind, run_mbind, run_bind. destruct (query_loop_ends op 10 w) as (r & w' & ->). simpl.
  destruct r as [[v|]|]; [destruct (gr_errors v)|..]; by do 2 eexists.
Qed.
End query.

(** ** Listings *)
Section listing.
Context {W B Y : Type} (post : Operation → W → result B * W) (base64_decode : string → result Y).
Context `{OL : ObjectLib} (object_from_bytes : Y → result Object) `{FS : !FromSlice B (option ObjectConnection)}.
Context (checkpoint : N) (kind : option OwnerKind) (owner ty : option string).
Definition page_variables (after : option string) : OwnedObjectFullQueryVariables :=
  MkOwnedVariables after checkpoint (Some MAX_PER_PAGE) kind owner ty.
Abbreviation read_nodes := (read_nodes base64_decode object_from_bytes).
Abbreviation filter_loop fuel := (filter_loop post base64_decode object_from_bytes fuel checkpoint kind owner ty).
Abbreviation page after := (owned_page post (page_variables after)).

(** The nodes of the pages from a cursor on, and how many pages they are. *)
Inductive pages : option string → W → list OwnedNode → nat → W → Prop :=
  | pages_last after w c w' : page after w = Ret (Some (Ok c), w') → has_next_page (oc_page_info c) = false →
      pages after w (oc_nodes c) 1 w'
  | pages_more after w c cursor w1 nodes n w' : page after w = Ret (Some (Ok c), w1) → has_next_page (oc_page_info c) = true →
      end_cursor (oc_page_info c) = Some cursor → pages (Some cursor) w1 nodes n w' → pages after w (oc_nodes c ++ nodes) (S n) w'.

Lemma read_nodes_app l k : read_nodes (l ++ k) = (a ← read_nodes l; b ← read_nodes k; Ok (a ++ b)).
Proof.
  unfold Rpc.read_nodes. rewrite omap_app. generalize (omap on_object_at l) (omap on_object_at k). intros l' k'.
  induction l' as [|x l' IH]; simpl; [by destruct (mapM _ k')|].
  destruct (read_bcs _ _ _) as [o|]; simpl; [|done]. rewrite IH. destruct (mapM _ l') as [a|]; simpl; [|done]. by destruct (mapM _ k').
Qed.
Lemma filter_loop_pages fuel : ∀ after out w r w',
  filter_loop fuel after out w = Ret (Some (Ok r), w') ↔
  ∃ nodes n objects, (n ≤ fuel)%nat ∧ pages after w nodes n w' ∧ read_nodes nodes = Ok objects ∧ r = out ++ objects.
Proof.
  induction fuel as [|fuel IH]; intros after out w r w'; cbn [Rpc.filter_loop].
  { split; [done|]. intros (nodes & n & objects & Hn & Hp & _). inversion Hp; lia. }
  split.
  - intros (c & w1 & Hc & (read & w2 & [Hr <-]%run_lift_inv & H)%run_bind_inv)%run_bind_inv.
    destruct (has_next_page (oc_page_info c)) eqn:En.
    + apply run_bind_inv in H as (cursor & w3 & [Hcur <-]%run_lift_inv & H). apply IH in H as (nodes & n & objects & Hn & Hp & Ho & ->).
      exists (oc_nodes c ++ nodes), (S n), (read ++ objects). rewrite read_nodes_app, Hr, Ho. simpl. rewrite (assoc_L (++)).
      split; [lia|]. split; [|done]. eapply pages_more; [done..| |done]. by destruct (end_cursor _); [injection Hcur as ->|].
    + apply run_ret_inv in H as [<- <-]. exists (oc_nodes c), 1, read. split; [lia|]. split; [by apply pages_last|done].
  - intros (nodes & n & objects & Hn & Hp & Ho & ->).
    inversion Hp as [? ? c ? Hc He|? ? c cursor w1 nodes' n' ? Hc He Hcur Hp']; simplify_eq; rewrite (run_bind_step _ _ _ _ _ Hc).
    + rewrite (run_lift_step _ _ _ _ Ho). by rewrite He.
    + rewrite read_nodes_app in Ho. apply result_bind_ok in Ho as (a & Ha & (b & Hb & [= <-])%result_bind_ok).
      rewrite (run_lift_step _ _ _ _ Ha), He, Hcur, (run_lift_step _ _ _ cursor) by done. rewrite (assoc_L (++)).
      apply IH. exists nodes', n', b. split; [lia|done].
Qed.

(** A server that has the nodes [all]: every request for a page is answered
    within ten tries with the fifty nodes after the cursor. *)
Definition position (at_cursor : string → nat) (after : option string) : nat := match after with Some c => at_cursor c | None => 0 end.
Record is_page (all : list OwnedNode) (at_cursor : string → nat) (after : option string) (c : ObjectConnection) : Prop := {
  pg_nodes : oc_nodes c = take 50 (drop (position at_cursor after) all);
  pg_more : has_next_page (oc_page_info c) = bool_decide (position at_cursor after + 50 < length all)%nat;
  pg_cursor : has_next_page (oc_page_info c) = true →
    ∃ cursor, end_cursor (oc_page_info c) = Some cursor ∧ at_cursor cursor = (position at_cursor after + 50)%nat }.
Definition serves_pages (all : list OwnedNode) (at_cursor : string → nat) (inv : W → Prop) : Prop :=
  ∀ after w, inv w → ∃ k w' c, (k < 10)%nat ∧
    served post (Op_OwnedObjects (page_variables after)) k w (MkResponse (Some (Some c)) None) w' ∧ inv w' ∧ is_page all at_cursor after c.
Lemma page_served after k w c w' : (k < 10)%nat →
  served post (Op_OwnedObjects (page_variables after)) k w (MkResponse (Some (Some c)) None) w' → page after w = Ret (Some (Ok c), w').
Proof.
  intros Hk Hs. unfold owned_page. rewrite (run_bind_step _ _ w (MkResponse (Some (Some c)) None) w'); [done|].
  apply run_query_served. split; [done|]. by exists k.
Qed.
Lemma filter_loop_served all at_cursor inv fuel : serves_pages all at_cursor inv → ∀ after out w, inv w → (0 < fuel)%nat →
  (length all ≤ position at_cursor after + 50 * fuel)%nat → ∃ w',
    filter_loop fuel after out w = Ret (Some (objects ← read_nodes (drop (position at_cursor after) all); Ok (out ++ objects)), w').
Proof.
  intros Hserve. induction fuel as [|fuel IH]; intros after out w Hw Hpos Hlen; [lia|]. cbn [Rpc.filter_loop].
  destruct (Hserve after w Hw) as (k & w1 & c & Hk & Hs & Hw1 & [Hnodes Hmore Hcur]).
  rewrite (run_bind_step _ _ _ _ _ (page_served _ _ _ _ _ Hk Hs)).
  rewrite <-(take_drop 50 (drop _ all)), read_nodes_app, <-Hnodes.
  destruct (read_nodes (oc_nodes c)) as [read|] eqn:Er; [|by exists w1]. rewrite (run_lift_step _ _ _ read) by done.
  change (Ok read ≫= _) with (b ← read_nodes (drop 50 (drop (position at_cursor after) all)); Ok (read ++ b)). rewrite drop_drop.
  destruct (has_next_page (oc_page_info c)) eqn:En.
  - destruct Hcur as (cursor & Hc & Hat); [done|]. rewrite Hc, (run_lift_step _ _ _ cursor) by done.
    destruct (IH (Some cursor) (out ++ read) w1) as [w' H]; [done|..].
    + symmetry in Hmore. apply bool_decide_eq_true in Hmore. destruct fuel; [lia|lia].
    + simpl. lia.
    + exists w'. rewrite H. simpl position. rewrite Hat.
      destruct (read_nodes (drop (position at_cursor after + 50) all)) as [b|]; [|done]. cbn [mbind result_mbind]. by rewrite (assoc_L (++)).
  - symmetry in Hmore. apply bool_decide_eq_false in Hmore. exists w1. rewrite drop_ge by lia.
    change (read_nodes []) with (@Ok (list Object) []). simpl. by rewrite app_nil_r.
Qed.

(** C18: A listing from the chain is complete. Against a server that hands out
    its nodes fifty at a time by cursors - some of whose answers to a request
    may be unreadable, as long as one of ten is not -, [filter_objects] ends
    after the number of pages there are and returns the objects of all nodes
    that exist at the checkpoint, in order, once each; a node whose object
    cannot be decoded makes it an error, never a shorter list. *)
Theorem filter_objects_complete all at_cursor inv fuel w :
  serves_pages all at_cursor inv → inv w → (0 < fuel)%nat → (length all ≤ 50 * fuel)%nat → ∃ w',
    filter_objects post base64_decode object_from_bytes fuel checkpoint kind owner ty w =
      Ret (Some (mapM (λ at_, read_bcs base64_decode object_from_bytes (at_object_bcs at_)) (omap on_object_at all)), w').
Proof.
  intros Hs Hw Hf Hlen. destruct (filter_loop_served all at_cursor inv fuel Hs None [] w Hw Hf) as [w' H]; [simpl; lia|].
  exists w'. unfold filter_objects. rewrite H. simpl position. rewrite drop_0. fold (read_nodes all). by destruct (read_nodes all).
Qed.
End listing.

(** ** Objects at the fork *)
Section database.
Context {W B Y : Type} (post : Operation → W → result B * W) (base64_decode : string → result Y).
Context `{AT : AddressText} `{OL : ObjectLib} (object_from_bytes : Y → result Object) `{FO : !FromSlice B (list (option ObjectResp))}.
(** A server with the objects [history] by key. *)
Definition serves_objects (history : ObjectKey → option Object) (inv : W → Prop) : Prop :=
  ∀ key w, inv w → ∃ k w' (entry : option ObjectResp), (k < 10)%nat ∧ served post (Op_Objects [key]) k w (MkResponse (Some [entry]) None) w' ∧ inv w' ∧
    match entry with
    | None => history key = None
    | Some e => ∃ o, read_bcs base64_decode object_from_bytes (or_object_bcs e) = Ok o ∧ history key = Some o
    end.
Lemma single_object_served history inv key w : serves_objects history inv → inv w →
  ∃ w', sinlge_object post base64_decode object_from_bytes key w = Ret (Some (Ok (history key)), w') ∧ inv w'.
Proof.
  intros Hs Hw. destruct (Hs key w Hw) as (k & w' & entry & Hk & Hserved & Hw' & He). exists w'. split; [|done].
  unfold sinlge_object. rewrite (run_bind_step _ _ w (option_list (history key)) w'); [by destruct (history key)|].
  unfold query_objects. rewrite (run_bind_step _ _ w (MkResponse (Some [entry]) None) w').
  - rewrite (run_lift_step _ _ _ [entry]) by done. unfold run_lift, read_present. do 3 f_equal.
    destruct entry as [e|]; [|by rewrite He]. destruct He as (o & Ho & ->). simpl. by rewrite Ho.
  - apply run_query_served. split; [done|]. by exists k.
Qed.
(** The store over such a server reads the history at the fork, by version and
    below a bound, whatever the answers before were. *)
Theorem graphql_backing_reads history inv db w : serves_objects history inv → inv w →
  let store := graphql_backing post base64_decode object_from_bytes db w in
  (∀ id, bk_get_object store id = history (key_at_checkpoint id (fork db)) ∧
         bk_get_package_object store id = Ok (history (key_at_checkpoint id (fork db)))) ∧
  (∀ id version, bk_get_object_by_key store id version = history (key_at_version id version)) ∧
  (∀ owner id version epoch_id, bk_get_object_received_at_version store owner id version epoch_id = Ok (history (key_at_version id version))) ∧
  ∀ parent child bound, bk_read_child_object store parent child bound = Ok (history (key_at_root_version child bound)).
Proof.
  intros Hs Hw store. pose proof (λ key, single_object_served history inv key w Hs Hw) as H.
  repeat split; intros; unfold store; clear store; cbn [graphql_backing bk_get_object bk_get_package_object bk_get_object_by_key
    bk_get_object_received_at_version bk_read_child_object]; unfold answer, graphql_get_package_object, graphql_store_get_object, graphql_get_object_by_key,
    graphql_get_object_received_at_version, graphql_read_child_object, get_object_at_checkpoint, error_is_none;
    match goal with |- context [sinlge_object _ _ _ ?k _] => destruct (H k) as (w' & -> & _) end; done.
Qed.
End database.

(** ** A server that fails every other time *)
Section demo.
#[local] Existing Instance pair_objects.
Definition demo_page : Type := nat * ObjectConnection.
(** The answer is unreadable when the counter is odd. *)
#[local] Instance demo_from_slice : FromSlice (option ObjectConnection) (option ObjectConnection) :=
  λ b, match b with Some c => Some (MkResponse (Some (Some c)) None) | None => None end.
Definition demo_nodes : list OwnedNode :=
  map (λ n, MkOwnedNode (show_N (N.of_nat n)) (Some (MkObjectAt None (Some (show_N (N.of_nat n)))))) (seq 0 60).
Definition demo_cursor (c : string) : nat := match u64_from_str c with Some n => N.to_nat n | None => 0 end.
Definition demo_slice (after : option string) : ObjectConnection :=
  let i := position demo_cursor after in
  MkConnection (take 50 (drop i demo_nodes)) (MkPageInfo (bool_decide (i + 50 < length demo_nodes)%nat) (Some (show_N (N.of_nat (i + 50))))).
Definition demo_post (op : Operation) (w : nat) : result (option ObjectConnection) * nat :=
  match op with
  | Op_OwnedObjects v => if Nat.odd w then (Ok None, S w) else (Ok (Some (demo_slice (ov_after v))), S w)
  | _ => (Err, w)
  end.
Definition demo_bytes (b64 : string) : result string := Ok b64.
Definition demo_decode (bytes : string) : result Object :=
  match u64_from_str bytes with Some n => Ok (MkMoveAddress n, 1%N) | None => Err end.
Lemma demo_cursor_show n : (n < 2 ^ 64)%N → demo_cursor (show_N n) = N.to_nat n.
Proof. intros Hn. unfold demo_cursor, u64_from_str, show_N. by rewrite parse_unsigned_pretty. Qed.
Lemma demo_serves : serves_pages demo_post 7 (Some Kind_Shared) None None demo_nodes demo_cursor (λ _, True).
Proof.
  assert (∀ after w, Nat.odd w = false →
    served (FS := demo_from_slice) demo_post (Op_OwnedObjects (page_variables 7 (Some Kind_Shared) None None after)) 0 w
      (MkResponse (Some (Some (demo_slice after))) None) (S w)) as Hnow.
  { intros after w Hw. apply (served_now _ _ w (Some (demo_slice after))); [|done]. unfold demo_post. by rewrite Hw. }
  intros after w _. exists (if Nat.odd w then 1 else 0), (if Nat.odd w then S (S w) else S w), (demo_slice after).
  split; [by destruct (Nat.odd w); lia|]. split; [|split; [done|]].
  - destruct (Nat.odd w) eqn:E; [|by apply Hnow]. apply (served_later _ _ 0 w None (S w)); [|done|].
    + unfold demo_post. by rewrite E.
    + apply Hnow. by rewrite Nat.odd_succ, <-Nat.negb_odd, E.
  - split; [done|done|]. intros Hmore. eexists. split; [done|].
    apply bool_decide_eq_true in Hmore. change (length demo_nodes) with 60 in Hmore.
    rewrite demo_cursor_show; [apply Nat2N.id|].
    apply (N.lt_trans _ 1000); [lia|done].
Qed.
Lemma filter_objects_complete_witness : ∃ w',
  filter_objects demo_post demo_bytes demo_decode 2 7 (Some Kind_Shared) None None 1 =
    Ret (Some (Ok (map (λ n, ((MkMoveAddress (N.of_nat n), 1%N) : Object)) (seq 0 60))), w').
Proof.
  destruct (filter_objects_complete demo_post demo_bytes demo_decode 7 (Some Kind_Shared) None None demo_nodes demo_cursor (λ _, True) 2 1)
    as [w' H]; [apply demo_serves|exact I|lia|vm_compute; lia|].
  exists w'. etransitivity; [exact H|]. vm_compute. reflexivity.
Defined.
End demo.
