(* ===== verification/Grpc.v ===== *)
(** * Grpc: the gRPC client

    [crates/movy-sui/src/rpc/grpc.rs]: what the client makes of the messages of
    Sui's services - objects, listings by page tokens, checkpoints,
    transactions and the outcome of an execution. The services, BCS, the
    parsers of library types and keys are arguments; building a channel and
    signing are not modelled. A field of a message that is unwrapped and absent
    is a panic.

    A listing is every entry of every page as long as no page but the last is
    empty. The objects of [get_objects_parallel] are those asked for, in an
    order only the groups fix. *)
From S2P Require Import Prelude Types Abi TypeArgs Text Ptb TraceState Tracer TreeTracer Lcov FuzzTracer TypeGraph Meta Cache Objects Solver SolverSpec Compile CompileSpec Db Deploy DeploySpec Env EnvSpec Binary AbiText Export Setup Targets TargetsSpec Prepare PrepareSpec Rpc RpcSpec.
From Stdlib Require Import Ascii.
From Stdlib Require String.
Local Open Scope string_scope.
Local Open Scope list_scope.

Definition run_unwrap {W A} (o : option A) : Run W A := λ w, a ← unwrap o; Ret (Some (Ok a), w).

(** ** Where the services are *)
Inductive SuiGrpcArg := Grpc_Plain (url : string) | Grpc_QuickNode (url : string) (auth : option string) (json : option string).
Definition lower_ascii (c : ascii) : ascii :=
  let n := N_of_ascii c in if ((65 <=? n) && (n <=? 90))%N then ascii_of_N (n + 32) else c.
Fixpoint to_lowercase (s : string) : string := match s with "" => "" | String c s => String (lower_ascii c) (to_lowercase s) end.
Fixpoint remove_char (q : ascii) (s : string) : string :=
  match s with "" => "" | String c s => if Ascii.eqb c q then remove_char q s else String c (remove_char q s) end.
(** [url::Url::parse]: scheme, host and path. *)
Definition grpc_arg_from_str (url_parse : string → option (string * option string * string)) (s : string) : result SuiGrpcArg :=
  match split_at "," s with
  | [kind; auth; url] =>
      if bool_decide (to_lowercase kind = "quicknode") then Ok (Grpc_QuickNode url (Some auth) None) else Ok (Grpc_Plain s)
  | [kind; url] =>
      if bool_decide (to_lowercase kind = "quicknode") then
        match url_parse url with
        | None | Some (_, None, _) => Err
        | Some (scheme, Some host, path) =>
            Ok (Grpc_QuickNode (scheme +:+ "://" +:+ host +:+ ":9000") (Some (remove_char "/" path)) (Some url))
        end
      else Ok (Grpc_Plain s)
  | _ => Ok (Grpc_Plain s)
  end.

(** ** Messages *)
Record Bcs (B : Type) := MkBcs { bcs_value : option B }.
Arguments MkBcs {B} _.
Arguments bcs_value {B} _.
(** The code a call fails with. *)
Inductive Code := NotFound | OtherCode.
Inductive Reply (A : Type) := Replied (a : A) | Failed (code : Code).
Arguments Replied {A} a.
Arguments Failed {A} code.
Definition reply_ok {A} (r : Reply A) : result A := match r with Replied a => Ok a | Failed _ => Err end.

(** An object of an answer: its id, version and digest as text, and its BCS. *)
Record ObjectMsg (B : Type) := MkObjectMsg { om_object_id : option string; om_version : option N; om_digest : option string; om_bcs : option (Bcs B) }.
Arguments om_object_id {B} _.
Arguments om_version {B} _.
Arguments om_digest {B} _.
Arguments om_bcs {B} _.
Record ListRequest (B : Type) := MkListRequest { lr_owner : string; lr_type : option string; lr_page_size : option N; lr_page_token : option B }.
Arguments MkListRequest {B} _ _ _ _.
Arguments lr_page_token {B} _.
Record ListPage (B E : Type) := MkListPage { lp_entries : list E; lp_next_page_token : option B }.
Arguments MkListPage {B E} _ _.
Arguments lp_entries {B E} _.
Arguments lp_next_page_token {B E} _.

Record EpochMsg := MkEpochMsg { em_epoch : option N; em_reference_gas_price : option N }.
Record TimestampMsg := MkTimestamp { ts_seconds : Z; ts_nanos : Z }.
Record TransactionMsg (B : Type) := MkTransactionMsg {
  tm_transaction : option (option (Bcs B)); tm_effects : option (option (Bcs B)); tm_timestamp : option TimestampMsg; tm_checkpoint : option N }.
Arguments tm_transaction {B} _.
Arguments tm_effects {B} _.
Arguments tm_timestamp {B} _.
Arguments tm_checkpoint {B} _.
Record CheckpointMsg (B : Type) := MkCheckpointMsg {
  cm_sequence_number : option N; cm_contents : option (option (Bcs B)); cm_summary : option (option (Bcs B));
  cm_summary_epoch : option (option N); cm_transactions : list (TransactionMsg B) }.
Arguments cm_sequence_number {B} _.
Arguments cm_contents {B} _.
Arguments cm_summary {B} _.
Arguments cm_summary_epoch {B} _.
Arguments cm_transactions {B} _.
Record BalanceChangeMsg := MkBalanceChangeMsg { bm_address : string; bm_coin_type : string; bm_amount : string }.
Record ExecutedTransaction (B : Type) := MkExecuted {
  et_effects : option (option (Bcs B)); et_events : option (option (Bcs B)); et_balance_changes : list BalanceChangeMsg;
  et_objects : option (list (option (Bcs B))) }.
Arguments et_effects {B} _.
Arguments et_events {B} _.
Arguments et_balance_changes {B} _.
Arguments et_objects {B} _.

Record BalanceChange := MkBalanceChange { bc_address : MoveAddress; bc_coin_type : MoveTypeTag; bc_amount : Z }.
Record ExecutionOutcome (FX Ev O : Type) := MkExecOutcome {
  eo_effects : FX; eo_output_objects : list O; eo_events : list Ev; eo_balance_changes : list BalanceChange }.
Arguments MkExecOutcome {FX Ev O} _ _ _ _.
Record TransactionResponse (TD FX Time : Type) := MkTxResponse { tx_tx : TD; tx_effects : FX; tx_checkpoint : N; tx_timestamp : Time }.
Arguments MkTxResponse {TD FX Time} _ _ _ _.
Record FullCheckpoint (TD FX Time : Type) := MkFullCheckpoint { fc_checkpoint : N; fc_epoch : N; fc_txs : list (TransactionResponse TD FX Time) }.
Arguments MkFullCheckpoint {TD FX Time} _ _ _.

(** [i128::from_str] *)
Definition i128_from_str (s : string) : option Z :=
  match s with
  | String "-" ((String _ _) as s') => n ← parse_digits (2 ^ 127 + 1) 0 (chars s'); Some (- Z.of_N n)%Z
  | _ => n ← parse_unsigned (2 ^ 127) (chars s); Some (Z.of_N n)
  end.

Section client.
Context {W B : Type} (no_bytes : B) `{AT : AddressText} `{OL : ObjectLib} `{OF : !ObjectFacts}.
Context (object_from_bytes : B → result Object).
(** [value()]: absent bytes are no bytes. *)
Definition bcs_bytes (b : Bcs B) : B := default no_bytes (bcs_value b).
Definition run_bytes {A} (from_bytes : B → result A) (b : option (Bcs B)) : Run W A :=
  b ← run_unwrap b; run_lift (from_bytes (bcs_bytes b)).
(** [.unwrap().bcs.unwrap().value.unwrap()] *)
Definition run_inner_bytes {A} (from_bytes : B → result A) (m : option (option (Bcs B))) : Run W A :=
  m ← run_unwrap m; b ← run_unwrap m; v ← run_unwrap (bcs_value b); run_lift (from_bytes v).

(** ** Objects *)
Context (ledger_get_object : MoveAddress → W → Reply (option (ObjectMsg B)) * W).
Definition get_object_may_empty (object_id : MoveAddress) : Run W (option Object) := λ w,
  match ledger_get_object object_id w with
  | (Replied v, w) => (v ← run_unwrap v; object ← run_bytes object_from_bytes (om_bcs v); mret (Some object)) w
  | (Failed NotFound, w) => run_ret None w
  | (Failed OtherCode, w) => run_lift Err w
  end.
Definition get_object (object_id : MoveAddress) : Run W Object :=
  object ← get_object_may_empty object_id; run_lift (ok_or object).
Definition get_move_object (object_id : MoveAddress) : Run W Object :=
  object ← get_object object_id; if obj_is_package object then run_lift Err else mret object.
Definition get_move_object_may_empty (object_id : MoveAddress) : Run W (option Object) :=
  object ← get_object_may_empty object_id;
  match object with
  | Some v => if obj_is_package v then run_lift Err else mret (Some v)
  | None => mret None
  end.
Definition get_object_ref (digest_from_str : string → option N) (object_id : MoveAddress) : Run W ObjectRef :=
  object ← run_call (λ w, let '(r, w) := ledger_get_object object_id w in (reply_ok r, w));
  object ← run_unwrap object;
  id ← run_unwrap (om_object_id object ≫= address_from_str);
  version ← run_unwrap (om_version object);
  digest ← run_unwrap (om_digest object ≫= digest_from_str);
  mret (id, version, digest).
Definition shared_object_arg (object_id : MoveAddress) (mutable : bool) : Run W SuiObjectInputArgument :=
  object ← get_object object_id;
  match obj_owner object with
  | Shared_ initial_shared_version => mret (SharedObject object_id initial_shared_version mutable)
  | _ => run_lift Err
  end.
(** The objects of a group in the order their requests end, [join_all]. *)
Fixpoint gather (ids : list MoveAddress) : Run W (list (result (option Object))) := λ w,
  match ids with
  | [] => run_ret [] w
  | id :: ids =>
      '(r, w) ← get_object_may_empty id w;
      match r with
      | Some r => (rs ← gather ids; mret (r :: rs)) w
      | None => Ret (None, w)
      end
  end.
Fixpoint get_groups (join_all : list (result (option Object)) → list (result (option Object))) (groups : list (list MoveAddress)) :
    Run W (list (option Object)) :=
  match groups with
  | [] => mret []
  | group :: groups =>
      rs ← gather group;
      out ← run_lift (mapM id (join_all rs));
      rest ← get_groups join_all groups;
      mret (out ++ rest)
  end.
Fixpoint chunks_of {A} (fuel parallel : nat) (l : list A) : list (list A) :=
  match fuel, l with
  | S fuel, _ :: _ => take parallel l :: chunks_of fuel parallel (drop parallel l)
  | _, _ => []
  end.
Definition get_objects_parallel (join_all : list (result (option Object)) → list (result (option Object))) (objects : list MoveAddress)
    (parallel : nat) : Run W (list (option Object)) :=
  if bool_decide (parallel = 0) then λ _, Panic else get_groups join_all (chunks_of (length objects) parallel objects).

(** ** Listings *)
(** A page with no entries is the last, as is one without a token. *)
Fixpoint list_loop {E} (list_page : ListRequest B → W → Reply (ListPage B E) * W) (read : E → Run W (option Object))
    (req : option B → ListRequest B) (fuel : nat) (page_token : option B) (out : list Object) : Run W (list Object) :=
  match fuel with
  | 0 => λ w, Ret (None, w)
  | S fuel =>
      resp ← run_call (λ w, let '(r, w) := list_page (req page_token) w in (reply_ok r, w));
      out ← run_fold (λ e out, object ← read e; mret (out ++ option_list object)) (lp_entries resp) out;
      match lp_next_page_token resp, lp_entries resp with
      | Some token, _ :: _ => list_loop list_page read req fuel (Some token) out
      | _, _ => mret out
      end
  end.
Context (list_owned_objects : ListRequest B → W → Reply (ListPage B (option (Bcs B))) * W).
Definition owned_objects (fuel : nat) (sender : MoveAddress) (ty : option string) : Run W (list Object) :=
  list_loop list_owned_objects (λ obj, object ← run_bytes object_from_bytes obj; mret (Some object))
    (MkListRequest (show_address sender) ty None) fuel None [].
(** [coin_type_maybe] as canonical text. *)
Definition coins_from_sender (coin_type_maybe : Object → option string) (fuel : nat) (sender : MoveAddress) (coin : option string) :
    Run W (list Object) :=
  objects ← owned_objects fuel sender (Some "0x2::coin::Coin");
  mret (List.filter (λ t, match coin, coin_type_maybe t with Some cty, Some ty => bool_decide (ty = cty) | _, _ => true end) objects).
Definition gas_coins_from_sender (coin_type_maybe : Object → option string) (fuel : nat) (sender : MoveAddress) : Run W (list Object) :=
  coins_from_sender coin_type_maybe fuel sender
    (Some "0x0000000000000000000000000000000000000000000000000000000000000002::sui::SUI").
Context (list_dynamic_fields_page : ListRequest B → W → Reply (ListPage B (option (option (Bcs B)))) * W).
Definition list_dynamic_fields (fuel : nat) (object_id : MoveAddress) (ty : option MoveTypeTag) : Run W (list Object) :=
  list_loop list_dynamic_fields_page
    (λ fd, field_object ← run_unwrap fd; object ← run_bytes object_from_bytes field_object;
      match ty with
      | None => mret (Some object)
      | Some ty => object_ty ← run_lift (ok_or (obj_type object)); mret (if bool_decide (object_ty = ty) then Some object else None)
      end)
    (MkListRequest (to_canonical_string true object_id) None (Some 256%N)) fuel None [].

(** ** Epochs and coins *)
Context (get_coin_info : string → W → Reply (option (option N)) * W).
Definition get_coin_decimal (coin : string) : Run W N :=
  metadata ← run_call (λ w, let '(r, w) := get_coin_info coin w in (reply_ok r, w));
  decimals ← run_lift (ok_or metadata);
  run_lift (ok_or decimals).
Context (ledger_get_epoch : option N → W → Reply (option EpochMsg) * W).
Definition get_epoch (epoch : option N) : Run W EpochMsg :=
  resp ← run_call (λ w, let '(r, w) := ledger_get_epoch epoch w in (reply_ok r, w)); run_unwrap resp.
Definition get_reference_gas_price : Run W N := e ← get_epoch None; run_unwrap (em_reference_gas_price e).

(** ** Checkpoints and transactions *)
Section transactions.
Context {CC CS TD FX Ev Time RawTx : Type}.
Context (contents_from_bytes : B → result CC) (summary_from_bytes : B → result CS) (summary_number : CS → N).
Context (tx_from_bytes : B → result TD) (effects_from_bytes : B → result FX) (events_from_bytes : B → result (list Ev)).
Context (ledger_get_checkpoint : option N → W → Reply (option (CheckpointMsg B)) * W).
(** [DateTime::from_timestamp] *)
Context (from_timestamp : Z → Z → option Time).
Definition get_checkpoint (ckpt : option N) : Run W (CC * CS) :=
  resp ← run_call (λ w, let '(r, w) := ledger_get_checkpoint ckpt w in (reply_ok r, w));
  checkpoint ← run_unwrap resp;
  contents ← run_inner_bytes contents_from_bytes (cm_contents checkpoint);
  summary ← run_inner_bytes summary_from_bytes (cm_summary checkpoint);
  mret (contents, summary).
Definition get_latest_checkpoint : Run W N := c ← get_checkpoint None; mret (summary_number c.2).
Definition checkpoint_tx (sequence_number : option N) (tx : TransactionMsg B) (txs : list (TransactionResponse TD FX Time)) :
    Run W (list (TransactionResponse TD FX Time)) :=
  effects ← run_unwrap (tm_effects tx);
  timestamp ← run_unwrap (tm_timestamp tx);
  ts ← run_lift (ok_or (from_timestamp (ts_seconds timestamp) (ts_nanos timestamp)));
  tx_data ← run_inner_bytes tx_from_bytes (tm_transaction tx);
  effects ← run_inner_bytes effects_from_bytes (Some effects);
  checkpoint ← run_unwrap sequence_number;
  mret (txs ++ [MkTxResponse tx_data effects checkpoint ts]).
Definition get_checkpoint_transactions (ckpt : N) : Run W (FullCheckpoint TD FX Time) :=
  resp ← run_call (λ w, let '(r, w) := ledger_get_checkpoint (Some ckpt) w in (reply_ok r, w));
  ckpt ← run_unwrap resp;
  txs ← run_fold (checkpoint_tx (cm_sequence_number ckpt)) (cm_transactions ckpt) [];
  checkpoint ← run_unwrap (cm_sequence_number ckpt);
  summary_epoch ← run_unwrap (cm_summary_epoch ckpt);
  epoch ← run_unwrap summary_epoch;
  mret (MkFullCheckpoint checkpoint epoch txs).

Context (type_tag_from_str : string → option MoveTypeTag).
Definition read_balance_change (bc : BalanceChangeMsg) : result BalanceChange :=
  address ← ok_or (address_from_str (bm_address bc));
  coin_type ← ok_or (type_tag_from_str (bm_coin_type bc));
  amount ← ok_or (i128_from_str (bm_amount bc));
  Ok (MkBalanceChange address coin_type amount).
Definition read_output (obj : option (Bcs B)) (out : list Object) : Run W (list Object) :=
  b ← run_unwrap obj; v ← run_unwrap (bcs_value b); object ← run_lift (object_from_bytes v); mret (out ++ [object]).
Definition extract_exec_out (tx : ExecutedTransaction B) : Run W (ExecutionOutcome FX Ev Object) :=
  effects ← run_unwrap (et_effects tx);
  effects ← run_bytes effects_from_bytes effects;
  evs ← (match et_events tx with Some ev => run_bytes events_from_bytes ev | None => mret [] end : Run W (list Ev));
  changes ← run_lift (mapM read_balance_change (et_balance_changes tx));
  output_objects ← run_fold read_output (default [] (et_objects tx)) [];
  mret (MkExecOutcome effects output_objects evs changes).
(** [sign] gives the request of a transaction its signatures. *)
Context {Tx Req : Type} (sign : Tx → result Req) (execute_transaction : Req → W → Reply (option (ExecutedTransaction B)) * W)
  (simulate_transaction : Tx → W → Reply (option (ExecutedTransaction B)) * W).
Definition sign_and_execute_transaction (tx : Tx) : Run W (ExecutionOutcome FX Ev Object) :=
  req ← run_lift (sign tx);
  resp ← run_call (λ w, let '(r, w) := execute_transaction req w in (reply_ok r, w));
  exec ← run_lift (ok_or resp);
  extract_exec_out exec.
Definition dry_run_transaction (tx : Tx) : Run W (ExecutionOutcome FX Ev Object) :=
  resp ← run_call (λ w, let '(r, w) := simulate_transaction tx w in (reply_ok r, w));
  exec ← run_unwrap resp;
  extract_exec_out exec.

(** The node's JSON interface, when there is one, is asked first. *)
Record JsonTransaction := MkJsonTransaction { jt_raw_effects : B; jt_checkpoint : option N; jt_raw_transaction : B; jt_timestamp_ms : option N }.
Inductive JsonReply := Json_Ok (tx : JsonTransaction) | Json_RpcError | Json_OtherError.
Context (signed_from_bytes : B → result TD) (from_timestamp_millis : N → option Time) (raw_from_bytes : B → result RawTx)
  (with_gas_coins : RawTx → result TD).
Definition json_transaction (r : JsonReply) : Run W (option (TransactionResponse TD FX Time)) :=
  match r with
  | Json_RpcError => mret None
  | Json_OtherError => run_lift Err
  | Json_Ok tx =>
      effects ← run_lift (effects_from_bytes (jt_raw_effects tx));
      match jt_checkpoint tx with
      | None => mret None
      | Some checkpoint =>
          signed ← run_lift (signed_from_bytes (jt_raw_transaction tx));
          ms ← run_unwrap (jt_timestamp_ms tx);
          ts ← run_lift (ok_or (from_timestamp_millis ms));
          mret (Some (MkTxResponse signed effects checkpoint ts))
      end
  end.
Context (json_get_transaction : option (string → W → JsonReply * W)) (ledger_get_transaction : string → W → Reply (option (TransactionMsg B)) * W).
Definition grpc_transaction (tx : option (TransactionMsg B)) : Run W (option (TransactionResponse TD FX Time)) :=
  inner ← run_unwrap tx;
  timestamp ← run_unwrap (tm_timestamp inner);
  ts ← run_lift (ok_or (from_timestamp (ts_seconds timestamp) (ts_nanos timestamp)));
  raw ← run_inner_bytes raw_from_bytes (tm_transaction inner);
  tx ← run_lift (with_gas_coins raw);
  effects ← run_inner_bytes effects_from_bytes (tm_effects inner);
  checkpoint ← run_unwrap (tm_checkpoint inner);
  mret (Some (MkTxResponse tx effects checkpoint ts)).
Definition get_transaction (digest : string) : Run W (option (TransactionResponse TD FX Time)) := λ w,
  match json_get_transaction with
  | Some json => let '(r, w) := json digest w in json_transaction r w
  | None =>
      match ledger_get_transaction digest w with
      | (Replied tx, w) => grpc_transaction tx w
      | (Failed NotFound, w) => run_ret None w
      | (Failed OtherCode, w) => run_lift Err w
      end
  end.
Definition transaction_checkpoint (digest : string) : Run W (option N) := λ w,
  match ledger_get_transaction digest w with
  | (Replied tx, w) => (tx ← run_unwrap tx; mret (tm_checkpoint tx)) w
  | (Failed NotFound, w) => run_ret None w
  | (Failed OtherCode, w) => run_lift Err w
  end.
End transactions.
End client.

Local Open Scope string_scope.
Local Open Scope list_scope.

(** ** Listings *)
Section listing.
Context {W B E : Type} `{OL : ObjectLib}.
Context (list_page : ListRequest B → W → Reply (ListPage B E) * W) (read : E → Run W (option Object)) (req : option B → ListRequest B).
Context (readp : E → option Object).
Definition reads_entries (l : list E) : Prop := ∀ e, e ∈ l → ∀ w, read e w = Ret (Some (Ok (readp e)), w).
Lemma read_entries l : ∀ out w, reads_entries l →
  run_fold (λ e out, object ← read e; mret (out ++ option_list object)) l out w = Ret (Some (Ok (out ++ omap readp l)), w).
Proof.
  induction l as [|e l IH]; intros out w Hl; [by rewrite app_nil_r|]. cbn [run_fold].
  unfold run_bind at 1. rewrite (run_bind_step _ _ _ (readp e) w) by (apply Hl; by left). cbn -[run_fold].
  rewrite IH; [|intros e' He'; apply Hl; by right]. do 4 f_equal. destruct (readp e) as [o|]; simpl; by rewrite <-(assoc_L (++)).
Qed.

(** The server's pages: after the token of a page comes the next one. *)
Context (pages : list (list E)) (token : nat → B) (inv : W → Prop).
Definition page_token (i : nat) : option B := match i with 0 => None | _ => Some (token i) end.
Definition serves_tokens : Prop := ∀ i w entries, inv w → pages !! i = Some entries →
  ∃ w', list_page (req (page_token i)) w =
      (Replied (MkListPage entries (if bool_decide (S i < length pages)%nat then Some (token (S i)) else None)), w') ∧ inv w'.
Lemma list_loop_served fuel : ∀ i out w, serves_tokens → inv w → (i < length pages)%nat → (length pages ≤ i + fuel)%nat →
  (∀ j, (S j < length pages)%nat → pages !! j ≠ Some []) → reads_entries (concat pages) →
  ∃ w', list_loop list_page read req fuel (page_token i) out w = Ret (Some (Ok (out ++ omap readp (concat (drop i pages)))), w').
Proof.
  induction fuel as [|fuel IH]; intros i out w Hs Hw Hi Hf Hne Hr; [lia|]. cbn [list_loop].
  destruct (lookup_lt_is_Some_2 pages i Hi) as [entries He]. destruct (Hs i w entries Hw He) as (w1 & Hp & Hw1).
  rewrite (run_bind_step _ _ w (MkListPage entries (if bool_decide (S i < length pages)%nat then Some (token (S i)) else None)) w1);
    [|unfold run_call; by rewrite Hp].
  rewrite (run_bind_step _ _ w1 (out ++ omap readp entries) w1); cbn [lp_entries lp_next_page_token];
    [|apply read_entries; intros e Hin; apply Hr, list_elem_of_In, in_concat; exists entries; rewrite <-!list_elem_of_In; split;
      [by eapply list_elem_of_lookup_2|done]].
  rewrite (drop_S _ _ _ He). simpl concat. rewrite omap_app, (assoc_L (++)). case_bool_decide as Hlt.
  - destruct entries as [|e entries]; [by destruct (Hne i Hlt)|].
    destruct (IH (S i) (out ++ omap readp (e :: entries)) w1) as [w' H]; [done|done|done|lia|done|done|]. by exists w'.
  - exists w1. rewrite (drop_ge pages (S i)) by lia. simpl. by rewrite app_nil_r.
Qed.
(** Every entry of every page is read when only the last page may be empty. *)
Theorem list_loop_complete fuel w : serves_tokens → inv w → pages ≠ [] → (length pages ≤ fuel)%nat →
  (∀ j, (S j < length pages)%nat → pages !! j ≠ Some []) → reads_entries (concat pages) →
  ∃ w', list_loop list_page read req fuel None [] w = Ret (Some (Ok (omap readp (concat pages))), w').
Proof.
  intros Hs Hw Hp Hf Hne Hr. destruct (list_loop_served fuel 0 [] w) as [w' H]; [done|done|by destruct pages; [|simpl; lia]|lia|done|done|].
  by exists w'.
Qed.
End listing.

(** An empty page that is not the last ends the listing. *)
Example empty_page_ends :
  let pages := [[]; [5%N]] in
  list_loop (OL := pair_objects) (B := nat) (W := ())
    (λ r w, (Replied (MkListPage (default [] (pages !! default 0 (lr_page_token r))) (match lr_page_token r with None => Some 1 | _ => None end)), w))
    (λ n, mret (Some (MkMoveAddress n, 1%N))) (MkListRequest "" None None) 3 None [] () = Ret (Some (Ok []), ()).
Proof. vm_compute. reflexivity. Qed.

(** ** Objects together *)
Lemma chunks_of_concat {A} fuel parallel (l : list A) : (0 < parallel)%nat → (length l ≤ fuel)%nat → concat (chunks_of fuel parallel l) = l.
Proof.
  intros Hp. revert l. induction fuel as [|fuel IH]; intros [|x l] Hl; simpl in *; [done|lia|done|].
  destruct parallel as [|p]; [lia|]. simpl. rewrite IH; [by rewrite take_drop|]. rewrite length_drop. lia.
Qed.
Lemma chunks_of_bound {A} fuel parallel (l : list A) g : g ∈ chunks_of fuel parallel l → (length g ≤ parallel)%nat.
Proof.
  revert l. induction fuel as [|fuel IH]; intros [|x l]; simpl; [by intros ?%elem_of_nil..|].
  intros [->|Hg]%elem_of_cons; [rewrite length_take; lia|by eapply IH].
Qed.
Section parallel.
Context {W B : Type} (no_bytes : B) `{OL : ObjectLib} (object_from_bytes : B → result Object).
Context (ledger_get_object : MoveAddress → W → Reply (option (ObjectMsg B)) * W) (inv : W → Prop) (f : MoveAddress → option Object).
Abbreviation get_object_may_empty := (get_object_may_empty no_bytes object_from_bytes ledger_get_object).
Definition serves_ids : Prop := ∀ id w, inv w → ∃ w', get_object_may_empty id w = Ret (Some (Ok (f id)), w') ∧ inv w'.
Lemma gather_served ids w : serves_ids → inv w →
  ∃ w', gather no_bytes object_from_bytes ledger_get_object ids w = Ret (Some (Ok (map (λ id, Ok (f id)) ids)), w') ∧ inv w'.
Proof.
  intros Hs. revert w. induction ids as [|id ids IH]; intros w Hw; [by exists w|]. cbn [gather].
  destruct (Hs id w Hw) as (w1 & H1 & Hw1). rewrite H1. simpl. destruct (IH w1 Hw1) as (w2 & H2 & Hw2). exists w2.
  by rewrite (run_bind_step _ _ _ _ _ H2).
Qed.
Lemma mapM_ok_all {A} (l : list A) : mapM id (map (@Ok A) l) = Ok l.
Proof. induction l as [|x l IH]; [done|]. simpl in *. by rewrite IH. Qed.
Lemma ok_permutation {A} (l : list A) k : k ≡ₚ map (@Ok A) l → ∃ l', k = map (@Ok A) l' ∧ l' ≡ₚ l.
Proof. intros (l' & -> & Hl)%Permutation_map_inv. by exists l'. Qed.
(** Every object asked for is returned, and nothing else; the order within a
    group is the one the requests end in. *)
Theorem get_objects_parallel_permutes join_all objects parallel w :
  serves_ids → inv w → (0 < parallel)%nat → (∀ l, join_all l ≡ₚ l) → ∃ out w',
    get_objects_parallel no_bytes object_from_bytes ledger_get_object join_all objects parallel w = Ret (Some (Ok out), w') ∧
    out ≡ₚ map f objects.
Proof.
  intros Hs Hw Hp Hj. unfold get_objects_parallel. rewrite bool_decide_eq_false_2 by lia.
  rewrite <-(f_equal (map f) (chunks_of_concat (length objects) parallel objects Hp (le_n _))).
  revert w Hw. induction (chunks_of (length objects) parallel objects) as [|g gs IH]; intros w Hw; [by exists [], w|].
  cbn [get_groups]. destruct (gather_served g w Hs Hw) as (w1 & Hg & Hw1). rewrite (run_bind_step _ _ _ _ _ Hg).
  destruct (ok_permutation (map f g) (join_all (map (λ id, Ok (f id)) g))) as (out1 & Ho & Hperm).
  { rewrite Hj, map_map. done. }
  rewrite Ho, (run_lift_step _ _ _ out1) by apply mapM_ok_all. destruct (IH w1 Hw1) as (out2 & w2 & H2 & Hperm2).
  rewrite (run_bind_step _ _ _ _ _ H2). exists (out1 ++ out2), w2. split; [done|]. simpl. by rewrite map_app, Hperm, Hperm2.
Qed.
End parallel.

(** An absent object cannot be told from a present one: both of two groups of
    answers are possible for the same ids. *)
Example parallel_answers_shift :
  let get id (w : ()) := (if bool_decide (id = MkMoveAddress 1) then Failed NotFound
    else Replied (Some (MkObjectMsg nat None None None (Some (MkBcs (Some (N.to_nat (addr_val id))))))), w) in
  let from_bytes n := Ok ((MkMoveAddress (N.of_nat n), 1%N) : Object (ObjectLib := pair_objects)) in
  let run join := get_objects_parallel (OL := pair_objects) 0 from_bytes get join [MkMoveAddress 1; MkMoveAddress 2] 2 () in
  run id = Ret (Some (Ok [None; Some (MkMoveAddress 2, 1%N)]), ()) ∧ run (@rev _) = Ret (Some (Ok [Some (MkMoveAddress 2, 1%N); None]), ()).
Proof. vm_compute. split; reflexivity. Qed.
