(* ===== verification/Pretty.v ===== *)
(** * Pretty: what the tools print

    The labels, trees and error paths of [crates/movy-replay/src/tracer/tree.rs],
    [pprint_ptb] of [crates/movy-types/src/input.rs], the lines of a test report
    ([crates/movy-types/src/test_report.rs]), of the objects and functions
    listed by [movy sui test --only-init] ([crates/movy/src/sui/test.rs]) and of
    a compiled package. Drawing a tree ([ptree]) and the text of library types
    are arguments.

    The printed trees have the calls in their order, without the framework's
    where they are left out; the path of an error is printed in full; integers
    among the inputs of a transaction are guessed as what they are. *)
From S2P Require Import Prelude Types Abi TypeArgs Text Ptb TraceState Tracer TreeTracer Lcov FuzzTracer TypeGraph Meta Cache Objects Solver Testing Compile Db Binary AbiText Export.
From Stdlib Require Import Ascii.
From Stdlib Require String.
From Stdlib.Strings Require Byte.
Local Open Scope string_scope.
Local Open Scope list_scope.

(** ** Call trees *)
(** The items [ptree::TreeBuilder] builds: every [begin_child] is closed by
    its [end_child]. *)
#[local] Unset Elimination Schemes.
Inductive StringItem := MkItem (text : string) (children : list StringItem).
#[local] Set Elimination Schemes.

Section tree.
Context `{AT : AddressText} (show_trace_value : TraceValue → string) (tag_canonical : MoveTypeTag → string).
Definition type_instantiation_suffix (f : FrameTraced) : string :=
  match fr_type_instantiation (ft_open f) with [] => "" | tys => "<" +:+ join "," (map tag_canonical tys) +:+ ">" end.
Definition name_only_label (f : FrameTraced) : string :=
  to_canonical_string true (module_address (fr_module (ft_open f))) +:+ "::" +:+ module_name (fr_module (ft_open f)) +:+ "::"
    +:+ fr_function_name (ft_open f).
Definition full_label (f : FrameTraced) : string :=
  let returns := match ft_close f with Some v => join "," (map show_trace_value v) | None => "" end in
  name_only_label f +:+ type_instantiation_suffix f +:+ "(" +:+ join "," (map show_trace_value (fr_parameters (ft_open f))) +:+ ")"
    +:+ (if bool_decide (returns = "") then "" else " -> " +:+ returns).
Definition is_framework_call (f : FrameTraced) : bool :=
  bool_decide (module_address (fr_module (ft_open f)) = addr_one) || bool_decide (module_address (fr_module (ft_open f)) = addr_two).

Fixpoint pprint_frame (label : FrameTraced → string) (f : FrameTraced) : StringItem :=
  match f with MkFrameTraced o subs c => MkItem (label f) (map (pprint_frame label) subs) end.
Definition pprint_child (label : FrameTraced → string) (calls : list FrameTraced) : list StringItem := map (pprint_frame label) calls.
(** The calls of a frame that is left out take its place. *)
Fixpoint pprint_frame_filtered (include : FrameTraced → bool) (label : FrameTraced → string) (f : FrameTraced) : list StringItem :=
  match f with
  | MkFrameTraced o subs c =>
      let children := flat_map (pprint_frame_filtered include label) subs in
      if include f then [MkItem (label f) children] else children
  end.
Definition pprint_child_filtered (include : FrameTraced → bool) (label : FrameTraced → string) (calls : list FrameTraced) :
    list StringItem := flat_map (pprint_frame_filtered include label) calls.

Context (write_tree : StringItem → string).
Definition render_tree (root : string) (label : FrameTraced → string) (t : TreeTraceResult) : string :=
  write_tree (MkItem root (pprint_child label (tr_calls t))).
Definition render_tree_filtered (root : string) (include : FrameTraced → bool) (label : FrameTraced → string) (t : TreeTraceResult) : string :=
  write_tree (MkItem root (pprint_child_filtered include label (tr_calls t))).
Definition pprint (t : TreeTraceResult) : string := render_tree "full_call_trace" full_label t.
Definition pprint_without_params (t : TreeTraceResult) : string :=
  render_tree_filtered "full_call_trace_without_params" (λ f, negb (is_framework_call f)) name_only_label t.

Fixpoint repeat_text (n : nat) (s : string) : string := match n with 0 => "" | S n => s +:+ repeat_text n s end.
(** The lines of the frames on a path, from the given depth on. *)
Fixpoint error_lines (calls : list FrameTraced) (path : list nat) (depth n : nat) : option string :=
  match n with
  | 0 => Some ""
  | S n =>
      frame ← frame_at_path calls (take (S depth) path);
      rest ← error_lines calls path (S depth) n;
      Some (repeat_text depth "  " +:+ (if bool_decide (depth = 0) then "" else "└─ ") +:+ full_label frame +:+ newline +:+ rest)
  end.
Definition pprint_error_trace (t : TreeTraceResult) : option string :=
  path ← tr_error_call_idxs t;
  lines ← error_lines (tr_calls t) path 0 (length path);
  Some ("error_call_trace:" +:+ newline +:+ lines +:+
    match tr_error_message t with
    | Some msg => repeat_text (length path) "  " +:+ "└─ ExecutionError: " +:+ msg +:+ newline
    | None => ""
    end).
Definition into_raw (t : TreeTraceResult) : list TraceEvent := tr_evs t.
Definition pprint_failure_views (t : TreeTraceResult) : string :=
  join newline (pprint t :: option_list (pprint_error_trace t) ++ [pprint_without_params t]).
End tree.

(** ** Transactions *)
Definition hex_byte (b : Byte.byte) : string :=
  let n := Byte.to_N b in String (hex_digit (n / 16)) (String (hex_digit (n mod 16)) "").
(** [const_hex::encode] *)
Definition hex_encode (x : Bytes) : string := join "" (map hex_byte x).
(** [from_le_bytes] *)
Fixpoint from_le_bytes (x : Bytes) : N := match x with [] => 0 | b :: x => Byte.to_N b + 256 * from_le_bytes x end%N.
Inductive PtbInput := PI_Arg (arg : CallArg) | PI_FundsWithdrawal (balance : string).

Section ptb.
Context `{AT : AddressText} (type_canonical : TypeInput → string).
Definition pure_guess (x : Bytes) : string :=
  if bool_decide (length x ∈ [1; 2; 4; 8; 16; 32]) then show_N (from_le_bytes x) else "...".
Definition pprint_input (t : PtbInput) : string :=
  match t with
  | PI_Arg (CA_Pure x) => "Pure(" +:+ hex_encode x +:+ ", guess=" +:+ pure_guess x +:+ ")"
  | PI_Arg (CA_Object (OA_ImmOrOwned (id, _, _))) => "ImmOrOwnedObject(" +:+ show_object_id id +:+ ")"
  | PI_Arg (CA_Object (OA_Receiving (id, _, _))) => "Receiving(" +:+ show_object_id id +:+ ")"
  | PI_Arg (CA_Object (OA_Shared id _ exclusive)) => "Shared(" +:+ (if exclusive then "&mut " else "&") +:+ show_object_id id +:+ ")"
  | PI_FundsWithdrawal balance => "BalanceWithdraw(" +:+ balance +:+ ")"
  end.
Definition pprint_argument (inputs : list string) (arg : Argument) : string :=
  match arg with
  | A_Input idx =>
      match inputs !! N.to_nat idx with
      | Some v => "Input(" +:+ show_N idx +:+ ", " +:+ v +:+ ")"
      | None => "Input(" +:+ show_N idx +:+ ")"
      end
  | A_GasCoin => "GasCoin"
  | A_NestedResult m n => "NestedResult(" +:+ show_N m +:+ ", " +:+ show_N n +:+ ")"
  | A_Result m => "Result(" +:+ show_N m +:+ ")"
  end.
Definition pprint_command (inputs : list string) (call : Command) : string :=
  let fmt_arg := pprint_argument inputs in
  let fmt_arguments args := join "," (map fmt_arg args) in
  match call with
  | Cmd_MoveCall mc =>
      show_object_id (pm_package mc) +:+ "::" +:+ pm_module mc +:+ "::" +:+ pm_function mc +:+
        match pm_type_arguments mc with [] => "" | tys => "<" +:+ join "," (map type_canonical tys) +:+ ">" end +:+
        "(" +:+ fmt_arguments (pm_arguments mc) +:+ ")"
  | Cmd_SplitCoins src dst => "SplitCoins(" +:+ fmt_arg src +:+ ", [" +:+ fmt_arguments dst +:+ "])"
  | Cmd_TransferObjects srcs dst => "TransferObjects([" +:+ fmt_arguments srcs +:+ "], " +:+ fmt_arg dst +:+ ")"
  | Cmd_MergeCoins dst srcs => "MergeCoins(" +:+ fmt_arg dst +:+ ", [" +:+ fmt_arguments srcs +:+ "])"
  | Cmd_Publish _ deps => "Publish(..., [" +:+ join "," (map show_object_id deps) +:+ "])"
  | Cmd_MakeMoveVec ty srcs =>
      "MakeMoveVec(" +:+ match ty with Some t => type_canonical t | None => "None" end +:+ ", [" +:+ fmt_arguments srcs +:+ "])"
  | Cmd_Upgrade _ deps package ticket =>
      "Upgrade(..., [" +:+ join "," (map show_object_id deps) +:+ "], " +:+ show_object_id package +:+ ", " +:+ fmt_arg ticket +:+ ")"
  end.
Definition pprint_ptb (inputs : list PtbInput) (commands : list Command) : string :=
  let inputs := map pprint_input inputs in
  "Inputs:" +:+ newline_tab +:+ join newline_tab inputs +:+ newline +:+ "Commands:" +:+ newline_tab +:+
    join newline_tab (map (pprint_command inputs) commands).
End ptb.

(** ** Test reports *)
Definition render_entry (entry : FunctionResult) : string :=
  let trace_block t := match t with Some t => newline +:+ "  trace:" +:+ newline +:+ t | None => "" end in
  match fre_outcome entry with
  | Outcome_Ok => "ok " +:+ fre_function entry
  | SequenceBuildFailure => "FAIL " +:+ fre_function entry +:+ ": unable to construct a test sequence"
  | ExecutionFailure status_debug sequence t =>
      "FAIL " +:+ fre_function entry +:+ ": execution failed" +:+ newline +:+ "  status: " +:+ status_debug +:+ newline +:+
        "  sequence:" +:+ newline +:+ sequence +:+ trace_block t
  | OracleCrash reason sequence t =>
      "FAIL " +:+ fre_function entry +:+ ": oracle crash: " +:+ default "<no reason>" reason +:+ newline +:+
        "  sequence:" +:+ newline +:+ sequence +:+ trace_block t
  end.
(** The lines printed; [trace] is not looked at. *)
Definition render_human (trace : bool) (report : TestRunReport) : list string :=
  let s := tr_summary report in
  map render_entry (tr_functions report) ++
    ["summary: total=" +:+ show_N (N.of_nat (su_total s)) +:+ " ok=" +:+ show_N (N.of_nat (su_ok s)) +:+
     " oracle_crash=" +:+ show_N (N.of_nat (su_oracle_crash s)) +:+ " execution_failure=" +:+ show_N (N.of_nat (su_execution_failure s)) +:+
     " sequence_build_failure=" +:+ show_N (N.of_nat (su_sequence_build_failure s))].

(** ** Objects and test functions *)
Section init.
Context `{AT : AddressText}.
Definition format_owner (owner : MoveOwner) (deployer attacker : MoveAddress) : string :=
  let tag addr := if bool_decide (addr = deployer) then " (deployer)" else if bool_decide (addr = attacker) then " (attacker)" else "" in
  match owner with
  | AddressOwner addr => "owned by " +:+ show_address addr +:+ tag addr
  | ObjectOwner addr => "owned by object " +:+ show_address addr
  | Immutable_ => "immutable"
  | Shared_ initial_shared_version => "shared (v" +:+ show_N initial_shared_version +:+ ")"
  | ConsensusAddressOwner _ owner => "consensus-owned by " +:+ show_address owner +:+ tag owner
  end.
Definition format_test_signature (module : string) (func : MoveFunctionAbi) : string :=
  let param i ability := "T" +:+ show_N (N.of_nat i) +:+ (if (ability =? ability_empty)%N then "" else ": " +:+ show_ability ability) in
  let ty_params := match fa_type_parameters func with
    | [] => ""
    | tys => "<" +:+ join ", " (imap param tys) +:+ ">" end in
  module +:+ "::" +:+ fa_name func +:+ ty_params +:+ "(" +:+ join ", " (map (show_token false) (fa_parameters func)) +:+ ")".
(** The lines of [dump_only_init] for the objects and the test functions. *)
Definition object_line (deployer attacker : MoveAddress) (info : MoveObjectInfo) : string :=
  show_address (oi_id info) +:+ "  " +:+ show_type (oi_ty info) +:+ "  [" +:+ format_owner (oi_owner info) deployer attacker +:+ "]  v"
    +:+ show_N (oi_version info).
Definition function_line (package : MoveAddress) (module : MoveModuleAbi) (func : MoveFunctionAbi) : option string :=
  if String.prefix "test_" (fa_name func) then
    let needs_args := negb (bool_decide (fa_parameters func = []) && bool_decide (fa_type_parameters func = [])) in
    Some (show_address package +:+ "::" +:+ format_test_signature (module_name (ma_module_id module)) func +:+ "  [" +:+
      (if needs_args then "needs args" else "no args") +:+ "]")
  else None.
Definition dump_only_init (objects : list MoveObjectInfo) (testing_abis : gmap MoveAddress MovePackageAbi) (target_packages : list MoveAddress)
    (deployer attacker : MoveAddress) : list string :=
  ["=== objects after movy_init (" +:+ show_N (N.of_nat (length objects)) +:+ ") ==="; "deployer: " +:+ show_address deployer;
   "attacker: " +:+ show_address attacker] ++ map (object_line deployer attacker) objects ++ [newline +:+ "=== test functions ==="] ++
  flat_map (λ x, flat_map (λ m, omap (function_line x.1 m) (ma_functions m)) (pa_modules x.2))
    (filter (λ x : MoveAddress * MovePackageAbi, x.1 ∈ target_packages) (address_iter testing_abis)).
(** [show_account] is how Move prints an address. *)
Definition show_compiled_package (show_account : MoveAddress → string) (module_id_of : CompiledModule → MoveModuleId) (p : SuiCompiledPackage) :
    string :=
  "Project(id=" +:+ show_object_id (pk_package_id p) +:+ ", name=" +:+ pk_package_name p +:+ ", modules=[" +:+
    join ", " (map (λ m, show_account (module_address (module_id_of m)) +:+ ":" +:+ module_name (module_id_of m)) (pk_modules p)) +:+
    "], deps=[" +:+ join ", " (map show_object_id (pk_dependencies p)) +:+ "])".
End init.

Local Open Scope string_scope.
Local Open Scope list_scope.

(** ** Trees *)
(** Every call of a forest, callers before callees. *)
Fixpoint frame_calls (f : FrameTraced) : list FrameTraced :=
  match f with MkFrameTraced o subs c => f :: flat_map frame_calls subs end.
Fixpoint item_texts (i : StringItem) : list string := match i with MkItem text children => text :: flat_map item_texts children end.

Lemma flat_map_ext_Forall {A B} (f g : A → list B) l : Forall (λ x, f x = g x) l → flat_map f l = flat_map g l.
Proof. induction 1 as [|x l Hx _ IH]; [done|]. simpl. by rewrite Hx, IH. Qed.
Lemma flat_map_flat_map {A B C} (f : A → list B) (g : B → list C) l : flat_map g (flat_map f l) = flat_map (λ x, flat_map g (f x)) l.
Proof. induction l as [|x l IH]; [done|]. simpl. by rewrite flat_map_app, IH. Qed.
Lemma flat_map_map {A B C} (f : A → B) (g : B → list C) l : flat_map g (map f l) = flat_map (λ x, g (f x)) l.
Proof. induction l as [|x l IH]; [done|]. simpl. by rewrite IH. Qed.
Lemma map_flat_map {A B C} (f : A → list B) (g : B → C) l : map g (flat_map f l) = flat_map (λ x, map g (f x)) l.
Proof. induction l as [|x l IH]; [done|]. simpl. by rewrite map_app, IH. Qed.
Lemma filter_flat_map {A B} (f : A → list B) (p : B → bool) l : List.filter p (flat_map f l) = flat_map (λ x, List.filter p (f x)) l.
Proof. induction l as [|x l IH]; [done|]. simpl. by rewrite List.filter_app, IH. Qed.

(** A tree is printed with all its calls; one with calls left out has the
    others in the same order. *)
Theorem printed_calls label include calls :
  flat_map item_texts (pprint_child label calls) = map label (flat_map frame_calls calls) ∧
  flat_map item_texts (pprint_child_filtered include label calls) = map label (List.filter include (flat_map frame_calls calls)).
Proof.
  unfold pprint_child, pprint_child_filtered. rewrite flat_map_map, flat_map_flat_map, filter_flat_map, !map_flat_map.
  split; apply flat_map_ext_Forall, Forall_true; intros f; induction f as [o subs c IH] using FrameTraced_ind.
  - simpl. f_equal. rewrite flat_map_map, map_flat_map. by apply flat_map_ext_Forall.
  - simpl. rewrite filter_flat_map. assert (flat_map item_texts (flat_map (pprint_frame_filtered include label) subs) =
      map label (flat_map (λ x, List.filter include (frame_calls x)) subs)) as Hs.
    { rewrite flat_map_flat_map, map_flat_map. by apply flat_map_ext_Forall. }
    destruct (include (MkFrameTraced o subs c)); simpl; [by rewrite app_nil_r, Hs|done].
Qed.

Section error.
Context `{AT : AddressText} (show_trace_value : TraceValue → string) (tag_canonical : MoveTypeTag → string).
Lemma error_lines_total calls path n : ∀ depth, (depth + n ≤ length path)%nat →
  (∀ d, (d < length path)%nat → is_Some (frame_at_path calls (take (S d) path))) →
  is_Some (error_lines show_trace_value tag_canonical calls path depth n).
Proof.
  induction n as [|n IH]; intros depth Hd Hp; [by eexists|]. cbn [error_lines].
  destruct (Hp depth) as [f ->]; [lia|]. simpl. destruct (IH (S depth)) as [rest ->]; [lia|done|]. by eexists.
Qed.
(** After any events a replay accepts, an error is printed with its path. *)
Theorem error_trace_printed evs s s' : apply_events s evs = Ret s' →
  ∃ t, notify_all (MkWrapper tree_default s) evs = Ret (MkWrapper t s') ∧
    (is_Some (pprint_error_trace show_trace_value tag_canonical t) ↔ is_Some (tr_error_call_idxs t)).
Proof.
  intros Ha. destruct (tree_tracer_total evs s s' Ha) as (t & Ht & Hp). exists t. split; [done|].
  unfold pprint_error_trace. destruct (tr_error_call_idxs t) as [path|] eqn:E; [|by split; intros []].
  split; [by eexists|]. intros _. simpl.
  destruct (error_lines_total (tr_calls t) path (length path) 0) as [lines ->]; [lia|intros d Hd; by apply Hp|]. by eexists.
Qed.
End error.

(** ** Integers *)
Lemma length_le_bytes k n : length (le_bytes k n) = k.
Proof. unfold le_bytes. revert n. induction k as [|k IH]; intros n; simpl; [done|]. by rewrite IH. Qed.
Lemma from_le_bytes_le k n : (n < 256 ^ N.of_nat k)%N → from_le_bytes (le_bytes k n) = n.
Proof.
  unfold le_bytes. revert n. induction k as [|k IH]; intros n Hn; [change (256 ^ N.of_nat 0)%N with 1%N in Hn; simpl; lia|].
  rewrite Nat2N.inj_succ, N.pow_succ_r' in Hn. pose proof (N.div_mod' n 256). pose proof (N.mod_lt n 256 ltac:(done)).
  cbn [from_le_bytes]. rewrite IH by (apply N.Div0.div_lt_upper_bound; lia).
  destruct (Byte.of_N (n mod 256)) as [b|] eqn:E; simpl.
  - apply Byte.to_of_N in E. lia.
  - apply Byte.of_N_None_iff in E. lia.
Qed.
(** The guess for an integer is its value. *)
Theorem integers_guessed k n : k ∈ [1; 2; 4; 8; 16; 32] → (n < 256 ^ N.of_nat k)%N → pure_guess (le_bytes k n) = show_N n.
Proof. intros Hk Hn. unfold pure_guess. by rewrite length_le_bytes, bool_decide_eq_true_2, from_le_bytes_le. Qed.
(** So is that of an address, but byte by byte from the other end. *)
Example address_guessed : pure_guess (reverse (le_bytes 32 1)) = show_N (256 ^ 31).
Proof. vm_compute. reflexivity. Qed.
