(* ===== verification/Range.v ===== *)
(** * Range: ranges in chunks, and small helpers

    [crates/movy-types/src/range.rs], the helpers on types and values of
    [crates/movy-fuzz/src/utils.rs] and the display of flash loans
    ([crates/movy-fuzz/src/flash.rs]). A [usize] has 64 bits; an addition that
    exceeds it is a panic, as in a checked build. *)
From S2P Require Import Prelude Types Abi TypeArgs Text Ptb TraceState Tracer TreeTracer Lcov FuzzTracer TypeGraph Meta Cache Objects Solver AbiText Binary Export Db Compile Deploy Env Targets.
From Stdlib Require String.
Local Open Scope string_scope.
Local Open Scope list_scope.

(** ** Chunks *)
Definition usize_limit : N := 2 ^ 64.
Record RangeChunks := MkRangeChunks { rc_start : N; rc_end : N; rc_chunk_size : N }.
Definition RangeChunks_new (start end_ chunk_size : N) : panics RangeChunks :=
  if (0 <? chunk_size)%N then Ret (MkRangeChunks start end_ chunk_size) else Panic.
Definition range_chunks : N → N → N → panics RangeChunks := RangeChunks_new.
Definition next (c : RangeChunks) : panics (option (N * N) * RangeChunks) :=
  if (rc_end c <=? rc_start c)%N then Ret (None, c) else
  if (usize_limit <=? rc_start c + rc_chunk_size c)%N then Panic else
  let chunk_end := N.min (rc_start c + rc_chunk_size c) (rc_end c) in
  Ret (Some (rc_start c, chunk_end), MkRangeChunks chunk_end (rc_end c) (rc_chunk_size c)).
(** The ranges the iterator yields. *)
Fixpoint collect_chunks (fuel : nat) (c : RangeChunks) : panics (option (list (N * N))) :=
  match fuel with
  | 0 => Ret None
  | S fuel =>
      '(r, c) ← next c;
      match r with
      | None => Ret (Some [])
      | Some r => rs ← collect_chunks fuel c; Ret (rs ← rs; Some (r :: rs))
      end
  end.

(** ** Helpers *)
Inductive JsonValue := Json_Number (as_u64 : option N) | Json_String (s : string) | Json_Other.
Definition value_to_u64 (v : JsonValue) : option N :=
  match v with Json_Number num => num | Json_String s => u64_from_str s | Json_Other => None end.

(** [any] stops at the first type argument that changed. *)
Fixpoint change_any (change : MoveTypeTag → MoveTypeTag * bool) (tys : list MoveTypeTag) : list MoveTypeTag * bool :=
  match tys with
  | [] => ([], false)
  | ty :: tys =>
      let '(ty, changed) := change ty in
      if changed then (ty :: tys, true) else let '(tys, c) := change_any change tys in (ty :: tys, c)
  end.
Section address.
Context (old_addr new_addr : MoveAddress).
(** Below a vector only a struct is looked at. *)
Fixpoint change_tag (t : MoveTypeTag) : MoveTypeTag * bool :=
  let change_struct s :=
    let hit := bool_decide (st_address s = old_addr) in
    let '(tys, c) := change_any change_tag (st_tys s) in
    (Tag_Struct (MkStructTag (if hit then new_addr else st_address s) (st_module s) (st_name s) tys), hit || c) in
  match t with
  | Tag_Struct s => change_struct s
  | Tag_Vector (Tag_Struct s) => let '(t, c) := change_struct s in (Tag_Vector t, c)
  | _ => (t, false)
  end.
Definition change_type_address (s : MoveStructTag) : MoveStructTag * bool :=
  match change_tag (Tag_Struct s) with (Tag_Struct s, c) => (s, c) | (_, c) => (s, c) end.
End address.

(** ** Flash loans *)
Inductive FlashProvider :=
  | Cetus (package : MoveAddress) (coin_a coin_b : MoveTypeTag) (global_config pool clock : SuiObjectInputArgument)
  | Nemo (package : MoveAddress) (coin : MoveTypeTag) (version py_state clock : SuiObjectInputArgument).
Record FlashWrapper := MkFlash { fw_provider : FlashProvider; fw_flash_coin : MoveStructTag; fw_initial_flash_amount : N }.
Section flash.
Context `{AT : AddressText}.
Definition show_provider (p : FlashProvider) : string :=
  match p with
  | Cetus package coin_a coin_b global_config pool _ =>
      "Cetus(package=" +:+ show_address package +:+ ", coins=" +:+ show_type coin_a +:+ "/" +:+ show_type coin_b +:+ ", config=" +:+
        show_object_id (object_arg_id global_config) +:+ ", pool=" +:+ show_object_id (object_arg_id pool) +:+ ")"
  | Nemo package coin version py_state _ =>
      "Nemo(package=" +:+ show_address package +:+ ", coin=" +:+ show_type coin +:+ ", version=" +:+
        show_object_id (object_arg_id version) +:+ ", py_state=" +:+ show_object_id (object_arg_id py_state) +:+ ")"
  end.
Definition show_flash (f : FlashWrapper) : string :=
  "Flash(source=" +:+ show_provider (fw_provider f) +:+ ", coin=" +:+ show_struct_tag (fw_flash_coin f) +:+ ", initial_amount=" +:+
    show_N (fw_initial_flash_amount f) +:+ ")".
End flash.

(** ** Theorems *)
(** Ranges that follow one another from [a] to [b], none longer than [size]. *)
Inductive covers (size : N) : N → N → list (N * N) → Prop :=
  | covers_nil a b : (b <= a)%N → covers size a b []
  | covers_cons a m b rs : (a < m)%N → (m <= b)%N → (m - a <= size)%N → (m < b → m - a = size)%N → covers size m b rs →
      covers size a b ((a, m) :: rs).

Lemma collect_chunks_step fuel c r c' : next c = Ret (Some r, c') →
  collect_chunks (S fuel) c = (rs ← collect_chunks fuel c'; Ret (rs ← rs; Some (r :: rs))).
Proof. intros Hn. cbn [collect_chunks]. by rewrite Hn. Qed.
(** The chunks of a range partition it into as few pieces as their size
    allows, and the iterator ends; a size of zero is a panic. *)
Theorem range_chunks_cover start end_ size :
  (0 < size)%N → (end_ + size <= usize_limit)%N →
  ∃ c rs, range_chunks start end_ size = Ret c ∧
    collect_chunks (S (N.to_nat ((end_ - start + size - 1) / size))) c = Ret (Some rs) ∧
    covers size start end_ rs ∧ N.of_nat (length rs) = ((end_ - start + size - 1) / size)%N.
Proof.
  intros Hs Hl. unfold range_chunks, RangeChunks_new. destruct (N.ltb_spec 0 size); [|lia].
  exists (MkRangeChunks start end_ size). remember (N.to_nat ((end_ - start + size - 1) / size)) as n eqn:En.
  revert start En. induction n as [|n IH]; intros start En.
  - assert (end_ - start + size - 1 < size)%N by (apply N.div_small_iff; lia).
    exists []. split; [done|]. cbn [collect_chunks]. unfold next. cbn [rc_start rc_end rc_chunk_size].
    destruct (N.leb_spec end_ start); [|lia]. split; [done|]. split; [by constructor|simpl; lia].
  - assert (start < end_)%N as Hlt.
    { destruct (N.lt_ge_cases start end_) as [|Hge]; [done|]. rewrite N.div_small in En by lia. done. }
    set (m := N.min (start + size) end_).
    assert ((end_ - start + size - 1) / size = (end_ - m + size - 1) / size + 1)%N as Hdiv.
    { destruct (N.le_gt_cases (start + size) end_) as [Hle|Hgt].
      - replace (end_ - start + size - 1)%N with (end_ - m + size - 1 + 1 * size)%N by lia. by rewrite N.div_add by lia.
      - replace m with end_ by lia. rewrite (N.div_small (end_ - end_ + size - 1)) by lia.
        symmetry. apply (N.div_unique _ _ _ (end_ - start - 1)); lia. }
    destruct (IH m) as (rs & _ & Hc & Hcov & Hlen); [lia|].
    exists ((start, m) :: rs). split; [done|].
    assert (next (MkRangeChunks start end_ size) = Ret (Some (start, m), MkRangeChunks m end_ size)) as Hnext.
    { unfold next. cbn [rc_start rc_end rc_chunk_size]. destruct (N.leb_spec end_ start); [lia|].
      by destruct (N.leb_spec usize_limit (start + size)); [lia|]. }
    rewrite (collect_chunks_step _ _ _ _ Hnext), Hc. split; [done|]. split; [constructor; try lia; done|]. simpl length. lia.
Qed.
Example chunk_of_nothing : range_chunks 0 5 0 = Panic.
Proof. done. Qed.

(** Only the first type argument that has the address is changed. *)
Example second_argument_kept :
  let t a := Tag_Struct (MkStructTag a "m" "T" []) in
  change_type_address addr_one addr_two (MkStructTag addr_zero "m" "P" [t addr_one; t addr_one]) =
    (MkStructTag addr_zero "m" "P" [t addr_two; t addr_one], true).
Proof. vm_compute. reflexivity. Qed.
