(* ===== verification/Commands.v ===== *)
(** * Commands: the subcommands

    [movy sui deploy | test | fuzz | fuzz-one | replay-seed | static-analysis | trace]
    of [crates/movy/src/sui/] and the two graph dumps of
    [crates/movy/src/analysis/]: what they do in which order, what they print
    and write, and when they fail. The parts they put together are those of the
    other files and enter as arguments, as do files and the terminal.

    A test run fails exactly when a function did not pass and no report is
    asked for; a run of single functions stops at the first that fails. *)
From S2P Require Import Prelude Types Abi TypeArgs Text Ptb TraceState Tracer TreeTracer Lcov FuzzTracer TypeGraph Meta Cache Objects Solver SolverSpec Testing Compile CompileSpec Db Deploy DeploySpec Env EnvSpec Binary AbiText CallGraph Export Setup Targets TargetsSpec Prepare PrepareSpec Rpc RpcSpec Pretty.
From Stdlib Require String.
Local Open Scope string_scope.
Local Open Scope list_scope.

(** Printing, files and directories of the world [W]. *)
Class Console (W : Type) := {
  print_line : string → W → W;
  write_file : string → string → W → result () * W;
  path_exists : string → W → bool;
  remove_dir_all : string → W → result () * W;
  create_dir_all : string → W → result () * W;
}.

Section commands.
Context {W : Type} `{CW : Console W}.
Definition run_print (line : string) : Run W () := λ w, Ret (Some (Ok ()), print_line line w).
Definition run_read {A} (f : W → A) : Run W A := λ w, run_ret (f w) w.
Definition run_write (path contents : string) : Run W () := run_call (write_file path contents).
(** [for_locals_with_package_ids] with the given packages for the locals. *)
Context (for_locals : list MoveAddress → result (option LineCoverageMap)).
Definition lcov_required (ids : list MoveAddress) : Run W LineCoverageMap :=
  map ← run_lift (for_locals ids); run_lift (ok_or map).

(** ** deploy and static-analysis *)
Section deploy.
Context `{AT : AddressText}.
Context (mint_coin_id : MoveTypeTag → MoveOwner → MoveAddress → N → W → result () * W)
  (mock_testing_std : W → panics (result () * W)) (install_movy : W → result () * W).
(** [build_env] with its options: deployer, attacker and whether lines are collected. *)
Context (build : SuiOnchainPrimitives → MoveAddress → MoveAddress → option (gset BytecodeLocation) →
  Run W (DeployResult * option (gset BytecodeLocation))).
Definition start_env (deployer gas_id : MoveAddress) : Run W () :=
  _ ← run_call (mint_coin_id SUI_TYPE (AddressOwner deployer) gas_id very_big_gas);
  _ ← run_panics mock_testing_std;
  run_call install_movy.
Definition deploy_run (primitives : SuiOnchainPrimitives) (roles : MovyInitRoles) (gas_id : MoveAddress) (lcov : option string) : Run W () :=
  _ ← start_env (deployer roles) gas_id;
  r ← build primitives (deployer roles) (attacker roles) ((λ _, ∅) <$> lcov);
  match lcov with
  | None => mret ()
  | Some path =>
      map ← lcov_required (dr_target_packages_deployed r.1);
      run_write path (render_lcov map (elements (default ∅ r.2)))
  end.
Context {Finding : Type} (show_finding : Finding → string) (findings_json : list Finding → string)
  (run_all : list MoveAddress → Run W (list Finding)).
(** The deployer is the attacker, too. *)
Definition static_analysis_run (checkpoint : Run W (option SuiOnchainPrimitives)) (deployer gas_id : MoveAddress) (output : option string) : Run W () :=
  primitives ← checkpoint;
  primitives ← run_lift (ok_or primitives);
  _ ← start_env deployer gas_id;
  r ← build primitives deployer deployer None;
  reports ← run_all (dr_target_packages_deployed r.1);
  match output, reports with
  | Some output, _ =>
      _ ← run_call (create_dir_all output);
      _ ← run_write (output +:+ "/static_analysis.json") (findings_json reports);
      run_print ("Static analysis finished with " +:+ show_N (N.of_nat (length reports)) +:+ " findings -> " +:+ output +:+ "/static_analysis.json")
  | None, [] => run_print "No findings from static analysis."
  | None, _ => run_each (λ finding, run_print (show_finding finding)) reports
  end.
End deploy.

(** ** test and fuzz-one *)
Section test.
Context {Meta : Type} (target_packages : Meta → list MoveAddress).
(** [prepare_fuzz_context], and [sui_test::test] with its mapping and type
    arguments. *)
Context (prepared : Run W (Meta * NameMap)).
Context (run_test : Meta → option LineCoverageMap → gmap MoveTypeTag (list MoveAddress) → gmap FunctionIdent (gmap N MoveTypeTag) →
  Run W TestRunReport).
(** The JSON of a report, and the non-empty parent of a path. *)
Context (report_json : TestRunReport → string) (path_parent : string → option string).
Definition write_machine (path : string) (report : TestRunReport) : Run W () :=
  _ ← (match path_parent path with Some parent => run_call (create_dir_all parent) | None => mret () end : Run W ());
  run_write path (report_json report).
(** Without local packages there is no map, which only [--lcov] minds. *)
Definition test_lcov_map (lcov machine_output : option string) (ids : list MoveAddress) : Run W (option LineCoverageMap) :=
  if bool_decide (is_Some lcov) || bool_decide (is_Some machine_output) then
    map ← run_lift (for_locals ids);
    match map with
    | Some map => mret (Some map)
    | None => if bool_decide (is_Some lcov) then run_lift Err else mret None
    end
  else mret None.
Definition write_embedded (lcov : option string) (report : TestRunReport) : Run W () :=
  match lcov, tr_lcov report with
  | Some path, Some lcov_text => run_write path lcov_text
  | _, _ => mret ()
  end.
Definition finish_test (machine_output : option string) (trace : bool) (report : TestRunReport) : Run W () :=
  match machine_output with
  | Some path => write_machine path report
  | None =>
      _ ← run_each run_print (render_human trace report);
      if all_ok (tr_summary report) then mret () else run_lift Err
  end.
Context (only_init_lines : Meta → W → list string).
Context (object_mapping : NameMap → W → result (gmap MoveTypeTag (list MoveAddress)))
  (test_ty : NameMap → Meta → result (gmap FunctionIdent (gmap N MoveTypeTag))) (select_test_functions : Meta → Meta).
Definition test_run (only_init trace : bool) (lcov machine_output : option string) : Run W () :=
  p ← prepared;
  let '(meta, name_mapping) := p in
  if only_init then lines ← run_read (only_init_lines meta); run_each run_print lines
  else
    lcov_map ← test_lcov_map lcov machine_output (target_packages meta);
    mapping ← run_read (object_mapping name_mapping);
    mapping ← run_lift mapping;
    type_args ← run_lift (test_ty name_mapping meta);
    report ← run_test (select_test_functions meta) lcov_map mapping type_args;
    _ ← write_embedded lcov report;
    finish_test machine_output trace report.

(** The first function that did not pass ends it. *)
Definition fuzz_one_entry (entry : FunctionResult) : Run W () :=
  match fre_outcome entry with Outcome_Ok => run_print ("ok " +:+ fre_function entry) | _ => run_lift Err end.
Definition fuzz_one_run (lcov : option string) : Run W () :=
  p ← prepared;
  lcov_map ← (match lcov with Some _ => map ← lcov_required (target_packages p.1); mret (Some map) | None => mret None end : Run W (option LineCoverageMap));
  report ← run_test p.1 lcov_map ∅ ∅;
  _ ← write_embedded lcov report;
  run_each fuzz_one_entry (tr_functions report).

(** ** fuzz *)
Definition save_json (output : option string) (name contents : string) : Run W () :=
  match output with Some output => run_write (output +:+ "/" +:+ name) contents | None => mret () end.
Definition prepare_output (output : option string) (force_removal : bool) : Run W () :=
  match output with
  | None => run_ret ()
  | Some output =>
      there ← run_read (path_exists output);
      _ ← ((if (there : bool) then if force_removal then run_call (remove_dir_all output) else run_lift Err else run_ret ()) : Run W ());
      run_call (create_dir_all output)
  end.
(** [dump] is the text of the store, [reopen] its contents over the store that
    the campaign reads through to. *)
Context (args_json : string) (meta_json : Meta → string) (dump : W → result string * W) (reopen : W → W)
  (campaign : Meta → option (string * LineCoverageMap) → Run W ()).
Definition fuzz_run (output : option string) (force_removal : bool) (lcov : option string) : Run W () :=
  _ ← prepare_output output force_removal;
  _ ← save_json output "args.json" args_json;
  p ← prepared;
  lcov ← (match lcov with
          | Some path => map ← lcov_required (target_packages p.1); mret (Some (path, map))
          | None => mret None
          end : Run W (option (string * LineCoverageMap)));
  _ ← save_json output "fuzz_meta.json" (meta_json p.1);
  env ← run_call dump;
  _ ← save_json output "env.bin" env;
  _ ← run_call (λ w, (Ok (), reopen w));
  campaign p.1 lcov.
End test.

(** ** replay-seed and trace *)
Section replay.
(** A run of the seed with what its tracers leave: the call tree and the lines. *)
Context (run_seed : bool → bool → Run W (option TreeTraceResult * gset BytecodeLocation)) (fuzz_replay : Run W ()).
Context (failure_views : TreeTraceResult → string).
Definition print_tree (tree : option TreeTraceResult) : Run W () :=
  match tree with Some t => run_print ("Trace:" +:+ newline +:+ failure_views t) | None => mret () end.
Definition replay_run (load : Run W (list MoveAddress)) (fuzz trace : bool) (lcov : option string) : Run W () :=
  ids ← load;
  if fuzz && trace then run_lift Err else
  match lcov with
  | Some path =>
      if fuzz then run_lift Err else
      map ← lcov_required ids;
      r ← run_seed trace true;
      _ ← print_tree r.1;
      run_write path (render_lcov map (elements r.2))
  | None => if fuzz then fuzz_replay else r ← run_seed trace false; print_tree r.1
  end.

(** The transaction is run on the checkpoint before its own; the checkpoint
    zero has none. *)
Context {TD FX CC CS : Type} (query_transactions : list string → Run W (list (TransactionGraphQlResponse TD FX)))
  (query_checkpoint : option N → Run W (option (CC * CS))).
Context {Res : Type} (run_tx_trace : N → TD → CS → Run W (Res * TreeTraceResult)) (show_status : Res → string) (show_changes : Res → list string)
  (show_tree : TreeTraceResult → string).
Definition fork_checkpoint (tx_ckpt : N) : panics N := if (tx_ckpt =? 0)%N then Panic else Ret (tx_ckpt - 1)%N.
Definition trace_run (tx : string) (trace : bool) : Run W () :=
  txs ← query_transactions [tx];
  tx ← run_panics (λ w, tx ← unwrap (last txs); Ret (Ok tx, w));
  fork_ckpt ← run_panics (λ w, c ← fork_checkpoint (tg_checkpoint _ _ tx); Ret (Ok c, w));
  summary ← query_checkpoint (Some fork_ckpt);
  summary ← run_lift (ok_or summary);
  results ← run_tx_trace fork_ckpt (tg_tx _ _ tx) summary.2;
  _ ← run_print ("The result is " +:+ show_status results.1);
  if trace then run_print ("The trace is:" +:+ newline +:+ show_tree results.2)
  else
    _ ← run_print ("Changed Objects:" +:+ newline);
    run_each run_print (show_changes results.1).
End replay.

(** ** Graphs *)
Section graphs.
Context {M : Type} (glob_modules : string → result (list M)) (write_dot : string → string → W → result () * W).
(** Modules of the system packages are left out; [dot] is petgraph's. *)
Context `{PG : PetGraph G} (module_abi : M → MoveModuleAbi) (type_dot : MoveTypeGraph G → string).
Definition type_graph_run (pattern output : string) : Run W () :=
  modules ← run_lift (glob_modules pattern);
  tg ← run_panics (λ w, g ← add_modules (List.filter (λ m, negb (is_sui_std (module_address (ma_module_id m)))) (map module_abi modules)) type_graph_new;
    Ret (Ok g, w));
  run_call (write_dot output (type_dot tg)).
End graphs.
End commands.

Local Open Scope string_scope.
Local Open Scope list_scope.

Section commands.
Context {W : Type} `{CW : Console W}.
Context (for_locals : list MoveAddress → result (option LineCoverageMap)).

Lemma run_each_step {A} (f : A → Run W ()) a l w w1 : f a w = Ret (Some (Ok ()), w1) → run_each f (a :: l) w = run_each f l w1.
Proof. intros Hf. cbn [run_each]. unfold run_bind. by rewrite Hf. Qed.
Lemma run_each_print l w : run_each run_print l w = Ret (Some (Ok ()), fold_left (λ w line, print_line line w) l w).
Proof. revert w. induction l as [|line l IH]; intros w; [done|]. by rewrite (run_each_step _ _ _ _ (print_line line w)), IH. Qed.
(** Every file can be written, every directory created. *)
Definition writes : Prop :=
  (∀ path contents w, ∃ w', write_file path contents w = (Ok (), w')) ∧ ∀ path w, ∃ w', create_dir_all path w = (Ok (), w').
Lemma run_write_ok path contents w : writes → ∃ w', run_write path contents w = Ret (Some (Ok ()), w').
Proof. intros [Hw _]. unfold run_write, run_call. destruct (Hw path contents w) as [w' ->]. by exists w'. Qed.
Lemma write_embedded_ok lcov report w : writes → ∃ w', write_embedded lcov report w = Ret (Some (Ok ()), w').
Proof. intros Hw. unfold write_embedded. destruct lcov, (tr_lcov report); [by apply run_write_ok|by eexists..]. Qed.

Section test.
Context {Meta : Type} (target_packages : Meta → list MoveAddress) (prepared : Run W (Meta * NameMap)).
Context (run_test : Meta → option LineCoverageMap → gmap MoveTypeTag (list MoveAddress) → gmap FunctionIdent (gmap N MoveTypeTag) →
  Run W TestRunReport) (report_json : TestRunReport → string) (path_parent : string → option string).
Context (only_init_lines : Meta → W → list string) (object_mapping : NameMap → W → result (gmap MoveTypeTag (list MoveAddress)))
  (test_ty : NameMap → Meta → result (gmap FunctionIdent (gmap N MoveTypeTag))) (select_test_functions : Meta → Meta).
Abbreviation test_run := (test_run for_locals target_packages prepared run_test report_json path_parent only_init_lines object_mapping test_ty select_test_functions).
Lemma finish_test_exit machine_output trace report w : writes →
  ∃ w', finish_test report_json path_parent machine_output trace report w =
    Ret (Some (if bool_decide (is_Some machine_output) || all_ok (tr_summary report) then Ok () else Err), w').
Proof.
  intros Hw. unfold finish_test. destruct machine_output as [path|].
  { unfold write_machine. destruct (path_parent path) as [parent|]; [|by apply run_write_ok].
    destruct (proj2 Hw parent w) as [w1 H1]. rewrite (run_bind_step _ _ w () w1); [by apply run_write_ok|].
    unfold run_call. by rewrite H1. }
  rewrite (run_bind_step _ _ _ _ _ (run_each_print _ _)). simpl. destruct (all_ok (tr_summary report)); by eexists.
Qed.
(** Once the tests ran, the command fails exactly when no report was asked
    for and not every function passed. *)
Theorem test_exit trace lcov machine_output w meta names w1 lcov_map w2 mapping type_args report w3 : writes →
  prepared w = Ret (Some (Ok (meta, names)), w1) →
  test_lcov_map for_locals lcov machine_output (target_packages meta) w1 = Ret (Some (Ok lcov_map), w2) →
  object_mapping names w2 = Ok mapping → test_ty names meta = Ok type_args →
  run_test (select_test_functions meta) lcov_map mapping type_args w2 = Ret (Some (Ok report), w3) →
  ∃ w', test_run false trace lcov machine_output w =
    Ret (Some (if bool_decide (is_Some machine_output) || all_ok (tr_summary report) then Ok () else Err), w').
Proof.
  intros Hw Hp Hl Hm Ht Hr. unfold Commands.test_run. rewrite (run_bind_step _ _ _ _ _ Hp), (run_bind_step _ _ _ _ _ Hl).
  rewrite (run_bind_step _ _ w2 (object_mapping names w2) w2), (run_lift_step _ _ _ _ Hm), (run_lift_step _ _ _ _ Ht) by done.
  rewrite (run_bind_step _ _ _ _ _ Hr). destruct (write_embedded_ok lcov report w3 Hw) as [w4 H4].
  rewrite (run_bind_step _ _ _ _ _ H4). by apply finish_test_exit.
Qed.
(** A run of single functions prints those before the first that fails. *)
Theorem fuzz_one_exit report w :
  let passed entry := match fre_outcome entry with Outcome_Ok => true | _ => false end in
  ∃ w', run_each fuzz_one_entry (tr_functions report) w =
    Ret (Some (if forallb passed (tr_functions report) then Ok () else Err), w').
Proof.
  intros passed. revert w. induction (tr_functions report) as [|entry l IH]; intros w; [by exists w|].
  simpl forallb. unfold passed at 1. destruct (fre_outcome entry) eqn:E.
  { rewrite (run_each_step _ _ _ _ (print_line ("ok " +:+ fre_function entry) w)); [apply IH|]. unfold fuzz_one_entry. by rewrite E. }
  all: exists w; cbn [run_each]; unfold run_bind, fuzz_one_entry; by rewrite E.
Qed.
End test.

(** ** trace *)
Section trace.
Context {TD FX CC CS Res : Type} (query_transactions : list string → Run W (list (TransactionGraphQlResponse TD FX)))
  (query_checkpoint : option N → Run W (option (CC * CS))) (run_tx_trace : N → TD → CS → Run W (Res * TreeTraceResult))
  (show_status : Res → string) (show_changes : Res → list string) (show_tree : TreeTraceResult → string).
(** A transaction the server does not have, or one of the genesis checkpoint,
    is a panic, not an error. *)
Theorem trace_panics tx trace w txs w1 : query_transactions [tx] w = Ret (Some (Ok txs), w1) →
  (∀ t, last txs = Some t → tg_checkpoint _ _ t = 0%N) →
  trace_run query_transactions query_checkpoint run_tx_trace show_status show_changes show_tree tx trace w = Panic.
Proof.
  intros Hq Ht. unfold trace_run. rewrite (run_bind_step _ _ _ _ _ Hq). unfold mbind at 1, run_mbind at 1, run_bind at 1.
  unfold run_panics. destruct (last txs) as [t|] eqn:E; [|done]. simpl. unfold fork_checkpoint.
  unfold run_mbind, run_bind. by rewrite (Ht t).
Qed.
End trace.
End commands.

(** ** Line coverage of several packages *)
(** The targets of an environment start with the packages on the chain, the
    local ones follow in the order they were deployed in, while the coverage
    map takes the target of the same index for a local package: with a package
    on the chain, the lines of the local one are recorded under its address. *)
Example coverage_under_other_package :
  let onchain := MkMoveAddress 7 in let local := MkMoveAddress 8 in
  let abi := {| pa_package_id := local; pa_modules := [] |} in
  let ids := [onchain] ++ omap target_of [Was_Loaded true (local, abi, abi, [])] in
  ids = [onchain; local] ∧
  ∃ m, for_locals_with_package_ids Some demo_compile [["/"; "p"]] false ids = Some (Some m) ∧
    is_Some (lc_pc_to_line m !! MkLoc (MkModuleId onchain "m") 0 0) ∧ lc_pc_to_line m !! MkLoc (MkModuleId local "m") 0 0 = None.
Proof.
  split; [reflexivity|]. eexists. split; [vm_compute; reflexivity|]. split; [vm_compute; eauto|vm_compute; reflexivity].
Qed.
