(* ===== verification/Sched.v ===== *)
(** * Sched: the weight of a corpus entry

    [MoveFuzzInputScore::compute] of [crates/movy-fuzz/src/sched.rs], over
    binary64 numbers with the rounding of IEEE 754 ([SpecFloat]). The precision
    of [f64::log2] and [f64::log10] is not specified by Rust: they are
    arguments. What libafl keeps of the queue and of an entry are records with
    the fields that are read. *)
From S2P Require Import Prelude Types FuzzTracer.
From Stdlib Require Import SpecFloat.

(** ** Binary64 *)
Abbreviation f64 := spec_float.
Definition f64_mul : f64 → f64 → f64 := SFmul 53 1024.
Definition f64_add : f64 → f64 → f64 := SFadd 53 1024.
Definition f64_div : f64 → f64 → f64 := SFdiv 53 1024.
(** [as f64]: to the nearest, ties to even. *)
Definition f64_of_Z (n : Z) : f64 := binary_normalize 53 1024 n 0 false.
Definition f64_of_N (n : N) : f64 := f64_of_Z (Z.of_N n).
Definition is_nan (x : f64) : bool := match x with S754_nan => true | _ => false end.
(** [f64::max]: a number rather than NaN. *)
Definition f64_max (x y : f64) : f64 := if is_nan x then y else if is_nan y then x else if SFltb x y then y else x.
(** [f64::is_normal]: all 53 bits of the mantissa are used. *)
Definition is_normal (x : f64) : bool :=
  match x with S754_finite _ m _ => (Z.pos (digits2_pos m) =? 53)%Z | _ => false end.
(** The double that the literal [0.0000001] denotes. *)
Definition tiny : f64 := S754_finite false 0x1ad7f29abcaf48 (-76).

(** ** What is read of the queue and of an entry *)
Inductive BaseSchedule := EXPLORE | EXPLOIT | COE | FAST | LIN | QUAD.
Record SchedulerMetadata := MkSched {
  sm_strat : option BaseSchedule; sm_cycles : N; sm_exec_time : N;
  sm_bitmap_size_log : f64; sm_bitmap_entries : N; sm_n_fuzz : list N }.
Record SchedulerTestcase := MkSchedCase { st_bitmap_size : N; st_n_fuzz_entry : nat }.
(** Times are in nanoseconds; [te_refcnt] is that of [MapIndexesMetadata]. *)
Record Testcase := MkTestcase {
  te_sched : option SchedulerTestcase; te_scheduled_count : N; te_exec_time : option N;
  te_refcnt : option Z; te_input : option MoveSequence }.

Section score.
Context (log2 log10 : f64 → f64).

(** ** The factors *)
Definition hits_weight (psmeta : SchedulerMetadata) (tcmeta : SchedulerTestcase) (weight : f64) : panics f64 :=
  match sm_strat psmeta with
  | Some (FAST | COE | LIN | QUAD) =>
      hits ← unwrap (sm_n_fuzz psmeta !! st_n_fuzz_entry tcmeta);
      Ret (if (0 <? hits)%N then f64_div weight (f64_add (log10 (f64_of_N hits)) (f64_of_N 1)) else weight)
  | _ => Ret weight
  end.
Definition bitmap_factor (avg_bitmap_size q_bitmap_size : f64) : f64 :=
  if SFltb (SFabs avg_bitmap_size) tiny then f64_of_N 1
  else f64_div (f64_max (log2 q_bitmap_size) (f64_of_N 1)) avg_bitmap_size.
Definition refcnt_factor (refcnt : option Z) : f64 :=
  f64_add (f64_of_N 1) (match refcnt with Some n => f64_of_Z n | None => f64_of_N 0 end).
Definition move_calls (sequence : MoveSequence) : nat :=
  length (List.filter (λ t, match t with Call _ => true | _ => false end) (seq_commands sequence)).
Definition divide_by_calls (mcs : nat) (weight : f64) : f64 :=
  if (2 <=? mcs)%nat then f64_div weight (f64_of_N 2)
  else if (4 <=? mcs)%nat then f64_div weight (f64_of_N 3)
  else if (8 <=? mcs)%nat then f64_div weight (f64_of_N 4)
  else weight.

(** ** The score; [psmeta] is the metadata of the state *)
Definition compute (psmeta : option SchedulerMetadata) (entry : Testcase) : panics (result f64) :=
  let weight := f64_of_N 1 in
  match psmeta, te_sched entry with
  | Some psmeta, Some tcmeta =>
      if (te_scheduled_count entry =? 0)%N || (sm_cycles psmeta =? 0)%N then Ret (Ok (f64_mul weight (f64_of_N 5))) else
      match te_exec_time entry with
      | None => Ret Err
      | Some q_exec =>
          let q_exec_us := f64_of_N q_exec in
          let avg_exec_us := f64_div (f64_of_N (sm_exec_time psmeta)) (f64_of_N (sm_cycles psmeta)) in
          let avg_bitmap_size := f64_div (sm_bitmap_size_log psmeta) (f64_of_N (sm_bitmap_entries psmeta)) in
          let q_bitmap_size := f64_of_N (st_bitmap_size tcmeta) in
          weight ← hits_weight psmeta tcmeta weight;
          let weight := f64_mul weight (f64_div avg_exec_us q_exec_us) in
          let weight := f64_mul weight (bitmap_factor avg_bitmap_size q_bitmap_size) in
          let weight := f64_mul weight (refcnt_factor (te_refcnt entry)) in
          input ← unwrap (te_input entry);
          let weight := divide_by_calls (move_calls input) weight in
          Ret (if is_normal weight then Ok weight else Err)
      end
  | _, _ => Ret Err
  end.

(** ** Theorems *)
(** A score is a normal number: neither zero nor infinite, and not NaN. *)
Theorem compute_normal psmeta entry w : compute psmeta entry = Ret (Ok w) → is_normal w = true.
Proof.
  unfold compute. destruct psmeta as [psmeta|], (te_sched entry) as [tcmeta|]; try discriminate.
  destruct (_ || _); [intros [= <-]; by vm_compute|]. destruct (te_exec_time entry); [|discriminate].
  intros (w1 & _ & H)%panics_bind_Ret. apply panics_bind_Ret in H as (input & _ & H).
  destruct (is_normal _) eqn:E; [|discriminate]. by injection H as <-.
Qed.

(** An entry that was not scheduled yet weighs five, whatever is known of it. *)
Theorem compute_fresh psmeta tcmeta entry :
  te_sched entry = Some tcmeta → te_scheduled_count entry = 0%N → compute (Some psmeta) entry = Ret (Ok (f64_of_N 5)).
Proof. intros E Hc. unfold compute. rewrite E, Hc. by vm_compute. Qed.

(** Only the first of the three limits is reached: from two calls on, the
    number of calls does not change the score. *)
Lemma divide_by_calls_once mcs weight :
  divide_by_calls mcs weight = if (2 <=? mcs)%nat then f64_div weight (f64_of_N 2) else weight.
Proof.
  unfold divide_by_calls. destruct (Nat.leb_spec 2 mcs); [done|].
  destruct (Nat.leb_spec 4 mcs); [lia|]. by destruct (Nat.leb_spec 8 mcs); [lia|].
Qed.

Definition with_input (sequence : MoveSequence) (entry : Testcase) : Testcase :=
  MkTestcase (te_sched entry) (te_scheduled_count entry) (te_exec_time entry) (te_refcnt entry) (Some sequence).
Theorem score_ignores_length psmeta entry s1 s2 : 2 ≤ move_calls s1 → 2 ≤ move_calls s2 →
  compute psmeta (with_input s1 entry) = compute psmeta (with_input s2 entry).
Proof.
  intros H1 H2. unfold compute. cbn [te_sched te_scheduled_count te_exec_time te_refcnt te_input with_input unwrap].
  destruct psmeta as [psmeta|], (te_sched entry) as [tcmeta|]; try done.
  destruct (_ || _); [done|]. destruct (te_exec_time entry); [|done].
  destruct (hits_weight _ _ _) as [w|]; [|done].
  cbn [mbind panics_mbind panics_bind]. rewrite !divide_by_calls_once.
  by rewrite (proj2 (Nat.leb_le _ _) H1), (proj2 (Nat.leb_le _ _) H2).
Qed.
End score.

(** An entry as slow as the average, with a full bitmap, three references and
    two calls, hit seven times (the logarithm is taken to be one): 4 / 2 / 2. *)
Example plain_score :
  let call := Build_MoveCall addr_two "m" "f" [] [] in
  compute (λ _, f64_of_N 3) (λ _, f64_of_N 1)
    (Some (MkSched (Some FAST) 10 1000 (f64_of_N 30) 10 [7%N])) (MkTestcase (Some (MkSchedCase 8 0)) 1 (Some 100%N) (Some 3%Z)
      (Some (MkSequence [] [Call call; Call call]))) = Ret (Ok (f64_of_N 1)).
Proof. vm_compute. reflexivity. Qed.
