(* ===== verification/Campaign.v ===== *)
(** * Campaign: fuzz inputs, the rounds of a campaign and replayed seeds

    [crates/movy-fuzz/src/input.rs], [operations/sui_fuzz.rs],
    [operations/sui_replay.rs] and the feedbacks they combine. libafl's
    [add_input], [fuzz_one] and progress reports, the clock and the corpora are
    arguments that act on the world [W]. Cycles are counted in [N] (a [u64] in
    the source, one per round).

    A campaign with a cycle limit ends whatever its rounds do; the coverage
    file states what was last written; no run is both kept and a crash; a
    replayed seed is compared with the outcome it was saved with. *)
From S2P Require Import Prelude Types Abi TypeArgs Text Ptb TraceState Tracer TreeTracer Lcov Logs FuzzTracer TypeGraph Meta Cache Objects Values Solver SolverSpec Input Testing Executor Compile CompileSpec Db Deploy DeploySpec Env EnvSpec Binary AbiText CallGraph Export Setup Targets TargetsSpec Prepare PrepareSpec Rpc RpcSpec Pretty Range Commands.
From Stdlib Require String.
Local Open Scope string_scope.
Local Open Scope list_scope.

Section campaign.
Context {W : Type} `{CW : Console W} `{AT : AddressText} {I B St Ev D O M : Type}.
Abbreviation State := (Executor.FuzzState (I := I) (B := B) (St := St) (Ev := Ev)).
Abbreviation Exec := (SuiFuzzExecutor (D := D) (O := O) (M := M)).
Abbreviation Outcome := (Executor.ExecutionOutcome (Ev := Ev)).

(** ** Fuzz inputs *)
Record MoveFuzzInput := MkInput {
  mi_sequence : MoveSequence; mi_outcome : option Outcome; mi_magic_number_pool : Pool;
  mi_flash : option FlashWrapper; mi_display : option string }.
Definition input_default : MoveFuzzInput := MkInput (MkSequence [] []) None ∅ None None.
Definition set_outcome (outcome : Outcome) (i : MoveFuzzInput) : MoveFuzzInput :=
  MkInput (mi_sequence i) (Some outcome) (mi_magic_number_pool i) (mi_flash i) (mi_display i).
Definition set_display (display : string) (i : MoveFuzzInput) : MoveFuzzInput :=
  MkInput (mi_sequence i) (mi_outcome i) (mi_magic_number_pool i) (mi_flash i) (Some display).

(** The text of findings is derived. *)
Context (show_findings : list OracleFinding → string).
Definition show_exit_kind (k : ExitKind) : string := match k with Exit_Ok => "Ok" | Exit_Crash => "Crash" end.
Definition show_outcome (o : Outcome) : string :=
  "ExecutionOutcome { events_verdict: " +:+ show_exit_kind (Executor.eo_events_verdict o) +:+ ", allowed_success: " +:+
    show_bool (Executor.eo_allowed_success o) +:+ ", findings: " +:+ show_findings (Executor.eo_findings o) +:+ " }".
Definition format_impl (i : MoveFuzzInput) : string :=
  let flash := match mi_flash i with Some flash => show_flash flash | None => "No flash" end in
  let outcome := match mi_outcome i with Some oc => show_outcome oc | None => "No outcome" end in
  show_sequence (mi_sequence i) +:+ newline +:+ "Flash: |" +:+ newline +:+ flash +:+ newline +:+ "Outcome: |" +:+ newline +:+ outcome.
(** [{:016x}]; only the sequence is hashed. *)
Definition generate_name (hash_sequence : MoveSequence → N) (id : option N) (i : MoveFuzzInput) : string :=
  match id with
  | Some id => show_N id +:+ ".json"
  | None => hex_digits 16 (hash_sequence (mi_sequence i)) ".json"
  end.
(** [AppendOutcomeFeedback] on this input. *)
Definition append_outcome : State → MoveFuzzInput → State * MoveFuzzInput :=
  append_metadata set_outcome set_display format_impl.

(** ** What enters a corpus *)
(** [feedback_and_fast]: a feedback is asked when the ones before it were
    interested; [coverage] is libafl's, with the history it keeps. *)
Definition append_interesting : bool := true.
Definition corpus_feedback {H : Type} (coverage : H → bool * H) (kind : ExitKind) (history : H) : bool * H :=
  if check_exit_kind kind then if append_interesting then coverage history else (false, history) else (false, history).
Definition crash_feedback (kind : ExitKind) : bool :=
  match kind with Exit_Crash => append_interesting | _ => false end.

(** ** Starting *)
(** [code_observer] *)
Definition code_observer : list N := replicate (N.to_nat 16384) 0%N.
Definition initial_executor (db : D) (oracles : O) (lines : bool) : Exec :=
  MkExecutor db (Some code_observer) oracles ∅ (if lines then Some ∅ else None).
Context (open_corpus : string → W → result () * W) (new_state : W → result St * W) (new_executor : D → result D).
Context (add_input : MoveFuzzInput → State → Exec → W → panics (result (N * State * Exec) * W)).
Definition open_directory (output : option string) (name : string) : Run W () :=
  match output with
  | Some output => _ ← run_call (create_dir_all (output +:+ "/" +:+ name)); run_call (open_corpus (output +:+ "/" +:+ name))
  | None => mret ()
  end.

(** ** Rounds *)
(** How [fuzz_one] ends. *)
Inductive Round := Round_Ok | Round_InvalidCorpus | Round_Error.
Context (now : W → N * W).
Context (fuzz_one : State → Exec → W → panics (Round * State * Exec * W)).
Context (report_progress : State → W → result State * W).
Record Campaign := MkCampaign {
  cp_state : State; cp_executor : Exec; cp_last_lcov_hits : gset BytecodeLocation; cp_cycle : N }.

Definition line_coverage_hits (ex : Exec) : gset BytecodeLocation := default ∅ (ex_line_coverage ex).
Definition one_round (c : Campaign) : Run W (Round * Campaign) := λ w,
  '(round, state, ex, w) ← fuzz_one (cp_state c) (cp_executor c) w;
  Ret (Some (Ok (round, MkCampaign state ex (cp_last_lcov_hits c) (cp_cycle c))), w).
Definition clear_outcome (c : Campaign) : Campaign :=
  MkCampaign (set_global None (cp_state c)) (cp_executor c) (cp_last_lcov_hits c) (cp_cycle c).
Definition next_cycle (c : Campaign) : Run W Campaign :=
  state ← run_call (report_progress (cp_state c));
  mret (MkCampaign state (cp_executor c) (cp_last_lcov_hits c) (cp_cycle c + 1)).
Definition save_coverage (lcov : option (string * LineCoverageMap)) (c : Campaign) : Run W Campaign :=
  match lcov with
  | Some (path, map) =>
      let hits := line_coverage_hits (cp_executor c) in
      if decide (hits = cp_last_lcov_hits c) then mret c
      else _ ← run_write path (render_lcov map (elements hits));
           mret (MkCampaign (cp_state c) (cp_executor c) hits (cp_cycle c))
  | None => mret c
  end.
(** Times are in nanoseconds; a clock that was set back is a panic. *)
Definition time_up (time_limit : option N) (start : N) : Run W bool :=
  match time_limit with
  | None => mret false
  | Some limit => λ w,
      let '(current, w) := now w in
      if (current <? start)%N then Panic else Ret (Some (Ok (limit * 10 ^ 9 <? current - start)%N), w)
  end.
Definition cycles_up (cycles_limit : option N) (cycle : N) : bool :=
  match cycles_limit with Some climit => (climit <=? cycle)%N | None => false end.

(** Fuel for the rounds. *)
Fixpoint fuzz_loop (fuel : nat) (time_limit cycles_limit : option N) (lcov : option (string * LineCoverageMap)) (start : N)
    (c : Campaign) : Run W Campaign :=
  match fuel with
  | 0 => λ w, Ret (None, w)
  | S fuel =>
      late ← time_up time_limit start;
      if (late : bool) || cycles_up cycles_limit (cp_cycle c) then mret c else
      r ← one_round c;
      match r.1 with
      | Round_InvalidCorpus => c ← next_cycle r.2; fuzz_loop fuel time_limit cycles_limit lcov start c
      | Round_Error => mret r.2
      | Round_Ok =>
          c ← save_coverage lcov (clear_outcome r.2);
          c ← next_cycle c;
          fuzz_loop fuel time_limit cycles_limit lcov start c
      end
  end.

(** A campaign over the store [db]. *)
Definition fuzz_impl (fuel : nat) (db : D) (oracles : O) (output : option string) (time_limit cycles_limit : option N)
    (lcov : option (string * LineCoverageMap)) : Run W () :=
  _ ← open_directory output "queue";
  _ ← open_directory output "crashes";
  rest ← run_call new_state;
  db ← run_lift (new_executor db);
  s ← run_panics (add_input input_default (MkState 0 None rest)
    (initial_executor db oracles (match lcov with Some _ => true | None => false end)));
  start ← (λ w, let '(t, w) := now w in Ret (Some (Ok t), w));
  _ ← fuzz_loop fuel time_limit cycles_limit lcov start (MkCampaign s.1.2 s.2 ∅ 1);
  mret ().

(** ** Replaying a seed *)
(** Without the fuzzer: its transaction, traced when asked for. *)
Definition sui_plain_replay_seed `{IL : IdentLib} `{PB : PtbBuilder Bd} (run_ptb : list CallArg * list Command → bool → Run W (option TreeTraceResult))
    (failure_views : TreeTraceResult → string) (db : D) (seed : MoveFuzzInput) (trace : bool) : Run W () :=
  _ ← run_lift (new_executor db);
  ptb ← run_lift (ok_or (to_ptb (mi_sequence seed)));
  tree ← run_ptb ptb trace;
  print_tree failure_views tree.
(** With it: whether the outcome is the one of the seed. [corpus] and
    [solutions] are what libafl has in them, by id. *)
Definition sui_fuzz_replay_seed (oracles : O) (corpus solutions : N → W → option (option MoveFuzzInput)) (same : Outcome → Outcome → bool)
    (db : D) (seed : MoveFuzzInput) : Run W bool :=
  rest ← run_call new_state;
  db ← run_lift (new_executor db);
  s ← run_panics (add_input seed (MkState 0 None rest) (initial_executor db oracles false));
  run_panics (λ w,
    case ← unwrap (match corpus s.1.1 w with Some case => Some case | None => solutions s.1.1 w end);
    input ← unwrap case;
    outcome ← unwrap (mi_outcome input);
    seed_outcome ← unwrap (mi_outcome seed);
    Ret (Ok (same outcome seed_outcome), w)).
End campaign.

Local Open Scope string_scope.
Local Open Scope list_scope.

Ltac run_unfold := unfold mbind, mret, run_mbind, run_mret, run_bind, run_ret, run_lift, run_write, run_call.

Section campaign_spec.
Context {W : Type} `{CW : Console W} `{AT : AddressText} {I B St Ev D O M : Type}.
Abbreviation State := (Executor.FuzzState (I := I) (B := B) (St := St) (Ev := Ev)).
Abbreviation Exec := (SuiFuzzExecutor (D := D) (O := O) (M := M)).
Abbreviation Campaign := (Campaign (I := I) (B := B) (St := St) (Ev := Ev) (D := D) (O := O) (M := M)).
Context (now : W → N * W) (fuzz_one : State → Exec → W → panics (Round * State * Exec * W))
  (report_progress : State → W → result State * W).
Abbreviation fuzz_loop := (fuzz_loop now fuzz_one report_progress).

(** ** The campaign ends *)
(** A run that has not run out of fuel, with [P] of what it returns. *)
Definition settled {A} (P : A → W → Prop) (m : panics (option (result A) * W)) : Prop :=
  match m with Ret (Some (Ok a), w) => P a w | Ret (Some Err, _) | Panic => True | Ret (None, _) => False end.

Lemma settled_bind {A B'} (P : A → W → Prop) (Q : B' → W → Prop) (m : Run W A) (k : A → Run W B') w :
  settled P (m w) → (∀ a w', P a w' → settled Q (k a w')) → settled Q ((m ≫= k) w).
Proof. run_unfold. intros Hm Hk. destruct (m w) as [[[[a|]|] w']|]; simpl in *; auto. Qed.
Lemma settled_impl {A} (P Q : A → W → Prop) m : settled P m → (∀ a w, P a w → Q a w) → settled Q m.
Proof. destruct m as [[[[a|]|] w]|]; simpl; naive_solver. Qed.

(** What holds of the result, if there is one. *)
Definition ensures {A} (P : A → W → Prop) (m : panics (option (result A) * W)) : Prop :=
  match m with Ret (Some (Ok a), w) => P a w | _ => True end.
Lemma ensures_bind {A B'} (P : A → W → Prop) (Q : B' → W → Prop) (m : Run W A) (k : A → Run W B') w :
  ensures P (m w) → (∀ a w', P a w' → ensures Q (k a w')) → ensures Q ((m ≫= k) w).
Proof. run_unfold. intros Hm Hk. destruct (m w) as [[[[a|]|] w']|]; simpl in *; auto. Qed.

Lemma time_up_settled time_limit start w : settled (λ _ _, True) (time_up now time_limit start w).
Proof. destruct time_limit as [limit|]; simpl; [|done]. destruct (now w) as [t w']. by destruct (t <? start)%N. Qed.
Lemma one_round_settled c w :
  settled (λ r _, cp_cycle r.2 = cp_cycle c ∧ cp_last_lcov_hits r.2 = cp_last_lcov_hits c) (one_round fuzz_one c w).
Proof. unfold one_round. destruct (fuzz_one (cp_state c) (cp_executor c) w) as [[[[r s] e] w']|]; simpl; [by split_and!|done]. Qed.
Lemma next_cycle_settled (c : Campaign) w :
  settled (λ c' _, cp_cycle c' = (cp_cycle c + 1)%N ∧ cp_executor c' = cp_executor c ∧ cp_last_lcov_hits c' = cp_last_lcov_hits c)
    (next_cycle report_progress c w).
Proof.
  unfold next_cycle. run_unfold. destruct (report_progress (cp_state c) w) as [[s|] w']; simpl; [by split_and!|done].
Qed.
Lemma save_coverage_settled lcov (c : Campaign) w :
  settled (λ c' _, cp_cycle c' = cp_cycle c ∧ cp_executor c' = cp_executor c ∧ cp_state c' = cp_state c)
    (save_coverage lcov c w).
Proof.
  destruct lcov as [[path map]|]; [|done]. simpl. destruct (decide _); [by simpl|].
  run_unfold. destruct (write_file _ _ _) as [[[]|] w']; simpl; [by split_and!|done].
Qed.

Lemma fuzz_loop_settled climit time_limit lcov start fuel : ∀ c w,
  N.to_nat climit < fuel + N.to_nat (cp_cycle c) → 0 < fuel →
  settled (λ c' _, (cp_cycle c ≤ cp_cycle c' ≤ N.max (cp_cycle c) climit)%N)
    (fuzz_loop fuel time_limit (Some climit) lcov start c w).
Proof.
  induction fuel as [|fuel IH]; intros c w Hf Hpos; [lia|]. cbn [Campaign.fuzz_loop].
  eapply settled_bind; [apply time_up_settled|]. intros late w1 _. destruct late; simpl; [lia|].
  destruct (N.leb_spec climit (cp_cycle c)); simpl; [lia|].
  eapply settled_bind; [apply one_round_settled|]. intros [round c1] w2 [Hc _]. simpl in Hc |- *.
  assert (∀ c2 w3, cp_cycle c2 = (cp_cycle c + 1)%N →
    settled (λ c' _, (cp_cycle c ≤ cp_cycle c' ≤ N.max (cp_cycle c) climit)%N)
      (fuzz_loop fuel time_limit (Some climit) lcov start c2 w3)) as Hrest.
  { intros c2 w3 Hc2. eapply settled_impl; [apply IH; lia|]. simpl. lia. }
  destruct round; simpl; [| |lia].
  - eapply settled_bind; [apply save_coverage_settled|]. intros c2 w3 (Hc2 & _ & _). simpl in Hc2.
    eapply settled_bind; [apply next_cycle_settled|]. intros c3 w4 (Hc3 & _). apply Hrest. lia.
  - eapply settled_bind; [apply next_cycle_settled|]. intros c3 w4 (Hc3 & _). apply Hrest. lia.
Qed.

(** A campaign with a cycle limit ends, whatever its rounds do and whatever the
    clock says: it returns, fails or panics within one round more than the
    limit, and never counts beyond it. *)
Theorem campaign_ends climit time_limit lcov start c w : cp_cycle c = 1%N →
  settled (λ c' _, (cp_cycle c' ≤ N.max 1 climit)%N)
    (fuzz_loop (S (N.to_nat climit)) time_limit (Some climit) lcov start c w).
Proof. intros Hc. eapply settled_impl; [apply fuzz_loop_settled; lia|]. simpl. rewrite Hc. lia. Qed.

(** What [n] rounds without an error make of state and executor. *)
Fixpoint rounds (one : State * Exec → State * Exec) (n : nat) (x : State * Exec) : State * Exec :=
  match n with
  | 0 => x
  | S n => let y := one x in rounds one n (set_global None y.1, y.2)
  end.
Lemma rounds_from (one : State * Exec → State * Exec) climit start w :
  (∀ s e w, fuzz_one s e w = Ret (Round_Ok, (one (s, e)).1, (one (s, e)).2, w)) →
  (∀ s w, report_progress s w = (Ok s, w)) →
  ∀ fuel c, N.to_nat climit < fuel + N.to_nat (cp_cycle c) → 0 < fuel →
  ∃ c', fuzz_loop fuel None (Some climit) None start c w = Ret (Some (Ok c'), w) ∧
    (cp_state c', cp_executor c') = rounds one (N.to_nat climit - N.to_nat (cp_cycle c)) (cp_state c, cp_executor c).
Proof.
  intros Hone Hrep. induction fuel as [|fuel IH]; intros c Hf Hpos; [lia|]. cbn [Campaign.fuzz_loop time_up]. run_unfold.
  simpl. destruct (N.leb_spec climit (cp_cycle c)).
  { exists c. split; [done|]. by replace (N.to_nat climit - N.to_nat (cp_cycle c)) with 0 by lia. }
  unfold one_round. rewrite Hone. simpl. unfold next_cycle. run_unfold. simpl. rewrite Hrep. simpl.
  replace (N.to_nat climit - N.to_nat (cp_cycle c)) with (S (N.to_nat climit - N.to_nat (cp_cycle c + 1))) by lia.
  cbn [rounds]. apply (IH (MkCampaign _ _ _ _)); simpl; lia.
Qed.
(** When rounds go well and time does not run out, a campaign without a
    coverage file has run one round less than the limit says, each on a state
    without an outcome of an earlier round. *)
Theorem campaign_rounds (one : State * Exec → State * Exec) climit start c w :
  (∀ s e w, fuzz_one s e w = Ret (Round_Ok, (one (s, e)).1, (one (s, e)).2, w)) →
  (∀ s w, report_progress s w = (Ok s, w)) →
  cp_cycle c = 1%N →
  ∃ c', fuzz_loop (S (N.to_nat climit)) None (Some climit) None start c w = Ret (Some (Ok c'), w) ∧
    (cp_state c', cp_executor c') = rounds one (N.to_nat climit - 1) (cp_state c, cp_executor c).
Proof.
  intros Hone Hrep Hc. destruct (rounds_from one climit start w Hone Hrep (S (N.to_nat climit)) c) as (c' & E & H); [lia..|].
  exists c'. split; [done|]. by rewrite Hc in H.
Qed.

(** ** The coverage file *)
Section coverage.
Context (read_file : string → W → option string) (path : string) (map : LineCoverageMap).
Hypothesis read_written : ∀ s w w', write_file path s w = (Ok (), w') → read_file path w' = Some s.
Hypothesis now_reads : ∀ w, read_file path (now w).2 = read_file path w.
Hypothesis fuzz_one_reads : ∀ s e w r s' e' w', fuzz_one s e w = Ret (r, s', e', w') → read_file path w' = read_file path w.
Hypothesis progress_reads : ∀ s w, read_file path (report_progress s w).2 = read_file path w.

(** The file has the hits that were saved last, once there were any; these are
    all hits, unless a round failed. *)
Definition rounds_ok : Prop := ∀ s e w r s' e' w', fuzz_one s e w = Ret (r, s', e', w') → r = Round_Ok.
Definition file_current (c : Campaign) (w : W) : Prop :=
  cp_last_lcov_hits c = ∅ ∨ read_file path w = Some (render_lcov map (elements (cp_last_lcov_hits c))).
Definition current (c : Campaign) (w : W) : Prop :=
  file_current c w ∧ (rounds_ok → cp_last_lcov_hits c = line_coverage_hits (cp_executor c)).

Lemma file_current_eq c w c' w' : cp_last_lcov_hits c' = cp_last_lcov_hits c → read_file path w' = read_file path w →
  file_current c w → file_current c' w'.
Proof. intros E1 E2. unfold file_current. by rewrite E1, E2. Qed.

Lemma time_up_current time_limit start c w : current c w → ensures (λ _ w', current c w') (time_up now time_limit start w).
Proof.
  intros [Hf Hs]. destruct time_limit as [limit|]; [|done]. simpl. pose proof (now_reads w) as Hn.
  destruct (now w) as [t w']. destruct (t <? start)%N; [done|]. split; [|done]. by eapply file_current_eq, Hf.
Qed.
Lemma one_round_current (c : Campaign) w : current c w →
  ensures (λ r w', file_current r.2 w' ∧ (rounds_ok → r.1 = Round_Ok)) (one_round fuzz_one c w).
Proof.
  intros [Hf _]. unfold one_round. destruct (fuzz_one (cp_state c) (cp_executor c) w) as [[[[r s] e] w']|] eqn:E; [|done].
  split; [|intros Hok; by eapply Hok]. apply fuzz_one_reads in E. by eapply file_current_eq, Hf.
Qed.
Lemma save_coverage_current (c : Campaign) w : file_current c w → ensures current (save_coverage (Some (path, map)) c w).
Proof.
  intros Hw. simpl. destruct (decide _) as [E|E]; [by split|]. run_unfold.
  destruct (write_file _ _ _) as [[[]|] w'] eqn:Ew; [|done]. split; [|done]. right. by apply read_written in Ew.
Qed.
Lemma next_cycle_current (c : Campaign) w : current c w → ensures current (next_cycle report_progress c w).
Proof.
  intros [Hf Hs]. unfold next_cycle. run_unfold. pose proof (progress_reads (cp_state c) w) as Hp.
  destruct (report_progress (cp_state c) w) as [[s|] w']; [|done]. split; [|done]. by eapply file_current_eq, Hf.
Qed.

(** Whenever a campaign returns, its coverage file states the hits that were
    saved last, if there were any; when no round failed, these are all hits of
    the executor. *)
Theorem coverage_file_current fuel time_limit cycles_limit start : ∀ c w, current c w →
  ensures (λ c' w', file_current c' w' ∧ (rounds_ok → cp_last_lcov_hits c' = line_coverage_hits (cp_executor c')))
    (fuzz_loop fuel time_limit cycles_limit (Some (path, map)) start c w).
Proof.
  induction fuel as [|fuel IH]; intros c w Hc; [done|]. cbn [Campaign.fuzz_loop].
  eapply ensures_bind; [by apply time_up_current|]. intros late w1 Hw1. destruct (late || _); [done|].
  eapply ensures_bind; [by apply one_round_current|]. intros [round c1] w2 [Hf Hr]. simpl in Hf, Hr |- *.
  destruct round.
  - eapply ensures_bind; [by apply (save_coverage_current (clear_outcome c1))|]. intros c2 w3 Hs.
    eapply ensures_bind; [by apply next_cycle_current|]. auto.
  - eapply ensures_bind; [by apply next_cycle_current; split; [|intros Hok; discriminate (Hr Hok)]|]. auto.
  - split; [done|]. intros Hok. discriminate (Hr Hok).
Qed.
End coverage.
End campaign_spec.

(** ** What enters a corpus *)
(** A run is kept or a crash, never both, and a crash does not change what
    coverage is known. *)
Theorem corpora_disjoint {H : Type} (coverage : H → bool * H) kind history :
  ((corpus_feedback coverage kind history).1 = true → crash_feedback kind = false) ∧
  (crash_feedback kind = true → (corpus_feedback coverage kind history).2 = history).
Proof. by destruct kind. Qed.

(** The name of an input that has no id yet has sixteen digits. *)
Lemma hex_digits_length k : ∀ n tl, String.length (hex_digits k n tl) = k + String.length tl.
Proof. induction k as [|k IH]; intros n tl; [done|]. cbn [hex_digits]. rewrite IH. simpl. lia. Qed.
Lemma generated_name_length {Ev : Type} hash (i : MoveFuzzInput (Ev := Ev)) : String.length (generate_name hash None i) = 21.
Proof. unfold generate_name. by rewrite hex_digits_length. Qed.

(** ** Replayed seeds *)
(** A seed saved without an outcome is replayed into a panic. *)
Theorem seed_without_outcome {W I B St Ev D O M : Type} (new_state : W → result St * W) (new_executor : D → result D)
    (add_input : MoveFuzzInput (Ev := Ev) → Executor.FuzzState (I := I) (B := B) (St := St) (Ev := Ev) →
      SuiFuzzExecutor (D := D) (O := O) (M := M) → W → panics (result (N * _ * _) * W))
    oracles corpus solutions same db (seed : MoveFuzzInput (Ev := Ev)) w r w' :
  mi_outcome seed = None →
  sui_fuzz_replay_seed new_state new_executor add_input oracles corpus solutions same db seed w ≠ Ret (Some (Ok r), w').
Proof.
  intros Hs. unfold sui_fuzz_replay_seed. run_unfold. destruct (new_state w) as [[rest|] w1]; [|simpl; congruence]. simpl.
  destruct (new_executor db) as [db'|]; [|simpl; congruence]. simpl. unfold run_panics.
  destruct (add_input _ _ _ _) as [[[[[id s] e]|] w2]|]; [|simpl; congruence..]. simpl.
  destruct (match corpus id w2 with Some case => Some case | None => solutions id w2 end) as [[input|]|]; simpl; [|congruence..].
  destruct (mi_outcome input); simpl; [rewrite Hs; simpl|]; congruence.
Qed.
